(* ===== verification/_CoqProject ===== *)
-Q . S2P
Prelude.v
BTree.v
StorageError.v
Mvcc.v
MvccMemTable.v
Txn.v
TxnManager.v
MemTable.v
Wal.v
Durable.v
Filter.v
SSTable.v
Compaction.v
Lsm.v
LsmScan.v
Raft.v
RaftNode.v
RaftSafety.v
RaftReplication.v
Text.v
Float64.v
Tokens.v
Lexer.v
LexerSpec.v
Ast.v
Display.v
Parser.v
Statements.v
ParserTotal.v
LexPrint.v
RoundTrip.v
ParsePrint.v
PrintStmt.v
Utf8.v
RowPack.v
Manifest.v
DiskIo.v
SnapshotStore.v
Value.v
Cast.v
Eval.v
EvalSpec.v
Plan.v
TableScan.v
SetOps.v
RowOps.v
WindowExec.v
StreamAgg.v
Executor.v
ExecutorSpec.v
Optimize.v
SortJoin.v
Pruning.v
Build.v
BuildSpec.v
Query.v
QuerySpec.v
StoreSpec.v
Catalog.v
Guards.v
Caches.v
AuditTrail.v
Bind.v
Hnsw.v
Dml.v
Engine.v
EngineFacts.v
EngineSpec.v
DmlSpec.v
DmlExact.v
HnswSpec.v
Distributed.v
DistributedSpec.v
Explain.v
Wire.v
RaftFiles.v
Access.v
Pool.v
Server.v
Metrics.v
