(* ===== verification/Prelude.v ===== *)
(** * NoeDB: a verification development

    NoeDB is a SQL database written in Rust (src/crates).  A statement goes
    through a lexer (noedb-lexer), a parser (noedb-parser, noedb-ast), a planner
    and executor (noedb-planner) and an engine (noedb-engine); the engine keeps
    its rows in a storage layer (noedb-storage: memtables, a write-ahead log,
    SSTables, an LSM tree, multi-version tables), runs transactions over it
    (noedb-txn) and replicates a command log (noedb-raft).  This library models
    the storage, transaction and replication layers, which hold the state of the
    database, the front end that turns text into statements, the planner and
    executor that run them over stored tables, and the engine that joins these
    with sessions, policies, caches, guards and an audit log, on one node and on a
    cluster; and around it the wire protocol and the two servers (noedb-protocol,
    noedb-grpc, noedb-cli), the client's pool (noedb-pool) and the metrics.

    ** Files

    - [Prelude] (this file): the outcome type [Ok | Err | Panic] of a fallible
      call, machine integers as [Z] with explicit [wrap] and saturation, bytes,
      little- and big-endian encodings, slices, tactics and hint databases.
    - [BTree]: [BTreeMap] and [BTreeSet] as a finite map with an ordered
      iteration and [range], over a class of key orders (bytes, integers).
    - [StorageError]: noedb-storage/src/error.rs, slice indexing, and checksum.rs,
      CRC-32 (IEEE) bit by bit.
    - [Mvcc]: noedb-storage/src/mvcc: versions, internal keys, the codec,
      the timestamp oracle and read views.
    - [MvccMemTable]: mvcc/memtable.rs and mvcc/gc.rs.
    - [Txn]: noedb-txn: transactions, the SSI checker, the deadlock guard.
    - [TxnManager]: noedb-txn/src/manager.rs over the version table.
    - [MemTable]: noedb-storage/src/memtable.rs, the [StorageEngine] trait as
      a class with laws, and the write-stall controller (write_stall.rs).
    - [Wal]: noedb-storage/src/wal: records, log files, segments, replay.
    - [Durable]: noedb-storage/src/durable.rs, the WAL-backed memtable stack.
    - [Filter]: bloom.rs and xor_filter.rs.
    - [SSTable]: noedb-storage/src/sstable (blocks, writer, reader, iterators)
      and scrub.rs.
    - [Compaction]: compaction.rs, the merge of level-0 tables.
    - [Lsm], [LsmScan]: lsm.rs and lsm_mvcc.rs: open, writes, point reads, flush,
      compaction; range scans, garbage collection and the cache of table readers.
    - [SnapshotStore]: mvcc/snapshot_store.rs, the merge of a transaction's
      writes, the version table and the LSM tree.
    - [RowPack]: rowpack.rs, packed rows; [Manifest]: manifest.rs, the text form
      of the manifest; [Utf8]: UTF-8 validation of the standard library.
    - [DiskIo]: files and crashes; atomic_io.rs, compress.rs, mmap_io.rs, the names of
      the WAL segments and CURRENT, and the manifest as a file.
    - [Raft]: noedb-raft: types, log, configuration, membership, RPCs and
      the state machine of raft_core.rs.
    - [RaftNode]: node.rs, storage.rs (in-memory storage), sim.rs,
      security.rs; the storage is a class with laws; [RaftFiles]: the storage on
      disk (FileStorage), a second instance, with crashes.
    - [RaftSafety]: a network of nodes (messages lost, duplicated, reordered;
      nodes restarted from their storage) as a step relation, and elections.
    - [RaftReplication]: what AppendEntries and snapshots do to logs.
    - [Text]: ASCII and UTF-8 text, and the state-and-outcome monad of the lexer
      and the parser; [Float64]: double-precision numbers and decimal text.
    - [Tokens], [Lexer]: noedb-lexer; [LexerSpec]: the lexer on every string.
    - [Ast], [Display]: noedb-ast, the syntax trees and their printing.
    - [Parser], [Statements]: noedb-parser; [ParserTotal]: the parser on every
      string.
    - [LexPrint], [RoundTrip], [ParsePrint], [PrintStmt]: the lexer and the parser
      on printed text, from single tokens to whole statements; how the parser groups
      operators.
    - [Value], [Cast], [Eval]: noedb-planner/src/value.rs, cast.rs and eval.rs;
      [EvalSpec]: what expressions evaluate to.
    - [Plan]: logical.rs, physical.rs, join.rs and lower.rs.
    - [TableScan]: parallel.rs, pk.rs, index.rs and the row loading of executor.rs; a store
      of entries is a class with laws, the split of the parallel scan a parameter.
    - [SetOps]: setops.rs; [RowOps]: sorting, joins and aggregation of executor.rs;
      [WindowExec]: window_exec.rs; [StreamAgg]: stream_agg.rs.
    - [Executor]: the pull iterators of executor.rs; [ExecutorSpec]: their streams.
    - [Optimize]: stats.rs, adaptive.rs, cost.rs and optimize.rs.
    - [SortJoin]: sorting and joining, and what the optimizer changes; [Pruning]:
      column pruning keeps the results.
    - [Build]: build.rs, schema.rs, star.rs, window.rs, aggregate.rs, subquery.rs,
      from a SELECT to a logical plan; [BuildSpec]: planning returns.
    - [Query]: cte.rs, fold.rs, lib.rs, ddl.rs, simd_pred.rs, statements over a
      store; [QuerySpec]: recursive tables and termination, SQL text run on stored
      tables; [StoreSpec]: queries and DROP TABLE over any lawful storage engine.
    - [Catalog]: error.rs of noedb-engine, schema.rs, session.rs and
      security.rs; [Guards]: memory.rs, ratelimit.rs and shard.rs; [Caches]:
      stmt_cache.rs and query_cache.rs; [AuditTrail]: audit.rs, redact.rs and crypto.rs;
      [Bind]: prepared.rs and rls.rs.
    - [Hnsw]: noedb-storage/src/hnsw.rs and vector_index.rs; [HnswSpec]: the graph
      and searches.
    - [Dml]: dml.rs and txn.rs over [TreeOps], the operations of a storage tree that
      the engine calls; [DmlSpec]: what INSERT, UPDATE and DELETE write, over every tree
      with [TreeLaws]; [DmlExact]: the LSM tree has these laws, and what the statements
      do on it.
    - [Engine]: engine.rs ([LocalEngine]) and knn.rs; [EngineFacts]: the LSM tree
      as a tree of the engine, and sessions run from SQL text on it; [EngineSpec]: what every call keeps.
    - [Distributed]: command.rs, machine.rs and [DistributedEngine] over the cluster
      of [RaftNode]; [DistributedSpec]: replicas and their logs.
    - [Explain]: explain.rs of noedb-planner and the explain calls of both engines.
    - [Wire]: codec.rs and transport of noedb-raft, noedb-protocol, and the
      connection handler of noedb-cli, over an engine that is a class ([SqlService]).
    - [Access]: auth.rs and auth_guard.rs of noedb-grpc, identity.rs of noedb-tls;
      [Server]: grpc.rs of noedb-cli, the local engine as a [SqlService], and the
      arguments, commands and loops of main.rs; the development certificates of its
      tls.rs, spiffe.rs and reload.rs of noedb-tls.
    - [Pool]: noedb-pool, its asynchronous calls as a step relation.
    - [Metrics]: noedb-metrics.

    ** How the code is modelled

    A Rust value is a Rocq record or inductive with the source's fields and
    constructors; an operation is an executable function that takes the state
    and returns the new one.  [Result] is [Ok | Err], and a panic of the
    standard library (indexing, an inverted [BTreeMap::range]) is [Panic], so
    a theorem that a call is [Ok] also excludes a panic.  Locks that are held
    for a whole call disappear; where the source releases them between two
    parts of one operation (the commit of a transaction) the two parts are
    separate definitions, so that a theorem can interleave another call.
    Files are byte lists with the length that was synced; a crash keeps at
    least the synced part.  Integers are [Z]; wrap-around and saturation are
    written where the source has fixed width and the theorems need them.
    The codec of configuration changes (serde) is a parameter of the Raft
    model, as are the election timeouts, which the source draws at random.

    ** What the theorems show

    - Raft: at most one leader per term in every run in which the membership does
      not change ([election_safety]); a stored term never decreases and a vote within
      a term never changes ([term_and_vote_stable]); the exact effect of AppendEntries
      on a log, in memory and in the storage ([append_entries_effect]).
      Four behaviours that Raft forbids are derived from the code: a leader
      commits entries a quorum does not hold, a stale request erases committed
      entries, a leader's own snapshot drops its log tail, and two removals of voters
      in a row give two leaders in one term ([removals_elect_two_leaders]).
    - Versions: the codec round-trips and rejects truncated input; internal
      keys order newest first; a point read returns the newest visible version
      of the keys that start with the key it is asked for, and so does a scan,
      with the exact conditions under which this is what the caller wants.
    - Transactions: an invariant of every history of whole calls; repeatable reads
      between whole calls;
      read your own writes; a commit publishes exactly its write set; a failed
      commit and a rollback change nothing visible; the deadlock guard and the
      SSI checker decide what their definitions say, and what that misses.
    - Write-ahead log: records round-trip; any input is read without panic;
      a burst of up to 32 flipped bits in a record is detected; after a crash
      between two calls, replay gives the table of a prefix of the calls that includes
      every synced one.  The named files of the log directory implement its numbered
      segments ([wal_files_refine]); a file that is replaced is the old one or the new
      one after a crash; and the crash inside a rotation that blocks every replay.
    - Tables: the memtable, the durable store and, without deletes and compactions, the
      LSM tree refine a finite map; a table file reads back what was written to it; a Bloom
      filter has no false negatives; a scan returns the newest visible versions;
      and the cases in which flush, compaction, deletes and scans lose or revert a
      write.  A snapshot's range read is the ordered merge of its three sources.
      Packed rows and manifests read back what was written.  The cache of table
      readers makes no difference to any operation ([reader_cache_transparent]).
    - Front end: the lexer and the parser return a result on every string; keyword
      lookup is membership in the keyword table; a printed statement parses back to
      itself, for the statements whose keywords are printed; window clauses are not among
      them ([window_does_not_round_trip]).
    - Queries: an execution terminates and returns the rows of the plan's stream, a
      list semantics without iterators; the hash join is the nested loop over equal
      keys, top-k sorting is sorting and cutting, the parallel scan is the serial
      one, set operations have SQL's multiplicities of the
      rows as they are compared; COUNT over a table, answered from the keys of the LSM
      tree, is the number of rows a scan loads ([count_star_counts_rows]); CAST returns a value of its
      type; LIKE is its declarative definition; AND, OR and NOT are Kleene's; loading
      only the columns that a plan mentions keeps its result, for trees of filters,
      joins, sorts and limits over packed tables under a projection or an aggregation,
      without IN, BETWEEN and join conditions other than equality ([column_pruning_sound]); and the rewrites of the optimizer that change results.
    - Statements that write: outside transactions INSERT adds exactly its rows,
      UPDATE and DELETE change exactly the rows that satisfy their WHERE clause and
      every policy, and no other table changes ([insert_exact], [update_exact],
      [delete_exact]), on the LSM tree, whose memtable and tables hold versions that the
      clock has passed; opening the engine again starts the clock anew and breaks this
      ([writes_after_reopen_lost]).
    - The engine: no statement gives a session administrator rights, and without them
      the schema and the policies stay as they are; memory that a call reserves is
      given back; the statement cache answers what the parser would, and evicts the
      least recently used entry; every answered statement is in the audit log, whose
      chain verifies, as long as calls do not overlap; a file of verified entries with an
      earlier one's last hash has the same entries, unless two of the strings hashed collide; the
      reserved memory never exceeds its limit, if that is below the largest number,
      however threads interleave ([unlimited_budget_wraps] for the largest); sealed
      values open to what was sealed; and sessions in which policies, constraints,
      transactions and caches do not do what they should.
    - The cluster: the tree of every replica is the replay of its node's log, so
      replicas with equal logs are equal, in runs whose calls succeed; a row seeded on
      the leader is outside the log ([seeded_row_not_replicated]).
    - Raft on disk: a storage opens after every crash; what was synced is found
      again, and a crash inside a sync leaves the new files up to some point
      ([file_storage_recovers]); a restarted node starts from the hard state and the
      log it had; and the crash that loses a snapshot.
    - EXPLAIN prints the plan that runs ([explain_shows_executed_plan]), and its
      lines can be read back as a tree.
    - Access: both servers let a request through only with the cluster's token
      ([grpc_requires_token], [only_token_is_served]); a client reads back the engine's
      answer ([connection_answers]); the server looks at no more wrong tokens of one address in
      a window than twice the limit and the limit again for every right one that the
      address sends, when requests come one by one ([guessing_is_bounded]).
    - The pool never has more channels than its limit nor loses a permit, however its
      calls interleave ([pool_limits]); reads go round the replicas.
    - The shell runs the pieces of its input between semicolons; the counters count.
    - Vector indexes: a search returns the nearest rows; the graph stays bounded.

    ** Fuel and bounds

    [cycle_fuel], one more than the number of waiters plus one, suffices for
    the walk along the waits-for graph, since a walk that long repeats a node;
    [read_records] gets one more step than the file has bytes, since a record
    consumes at least one; both are proved to be enough.
    The loops of the lexer get one more round than the source has bytes, those of
    the parser and its recursion one more than there are tokens; that they never
    run out is part of [tokenize_total] and [parse_total].  [deliver_all] takes the number of
    deliveries the simulator performs.  Timestamps and terms are 64-bit: the
    histories of [TxnManager] are shorter than 2^64 - 2 calls, and the theorems
    about Raft hold while a term is below the maximum.  [next_row] and [collect] run
    on [exec_measure] of the operator state, which every pulled row decreases;
    [executor_refines_streams] includes that it is enough.  [year_loop] gets one more
    round than a 365th of the days, [pushdown_loop] the height of the plan.
    Planning gets [select_depth] of the statement, enough by [build_total].  A query
    with a recursive table may run for ever; running it takes a number of rounds, and
    [query_ends] and [recursive_cte_ends] say when some number is enough; calls of the
    engine take that number.  A statement that writes takes a timestamp per version: its
    theorems ask for that much room below 2^56 on the clock and for fewer than 2^29
    entries in the tree ([ready], [lsm_ok]), which a new tree has ([fresh_ok]) and the
    statements keep; a table of that many entries fits the file format.

    ** Not modelled

    File-system errors other than a missing file, and what a disk does to directory
    entries that were not synced; LZ4 itself; opening connections, TLS and the making of certificates, which are calls into
    rustls, rcgen, tonic and tokio; the terminal interface.  bincode, hexadecimal text, gRPC metadata
    and checksums of other crates are parameters with laws.  Metrics are not threaded
    through the calls of the engine.
    Threads appear only as interleavings of whole operations, except in the memory
    budget, the pool and the commit of a transaction; debug assertions are those of a
    release build, that is none.  The LSM tree has [TreeLaws] for trees whose plain
    entries are the engine's own; plain entries under other keys are those of [Lsm]'s
    counterexamples. *)

From stdpp Require Export base tactics list sorting gmap strings.
From Stdlib Require Export ZArith Lia.
From Stdlib Require Export Strings.Byte.

#[global] Open Scope Z_scope.

(** ** Outcomes: values, errors and panics

    A fallible Rust function returns [Result<A, E>]; some standard-library
    calls (slice indexing, [BTreeMap::range] on an inverted range) can also
    panic.  Both are values of one type, so that a theorem that some call is
    [Ok] also says that it does not panic. *)

Inductive outcome (E A : Type) : Type :=
| Ok (a : A)
| Err (e : E)
| Panic.
Arguments Ok {E A} a.
Arguments Err {E A} e.
Arguments Panic {E A}.

Definition obind {E A B} (m : outcome E A) (k : A -> outcome E B) : outcome E B :=
  match m with
  | Ok a => k a
  | Err e => Err e
  | Panic => Panic
  end.

Definition map_err {E F A} (f : E -> F) (m : outcome E A) : outcome F A :=
  match m with
  | Ok a => Ok a
  | Err e => Err (f e)
  | Panic => Panic
  end.

Declare Scope outcome_scope.
Delimit Scope outcome_scope with outcome.
Notation "'let?' x := m 'in' k" := (obind m (fun x => k))
  (at level 10, x binder, m at level 100, k at level 200) : outcome_scope.
#[global] Open Scope outcome_scope.

Definition is_ok {E A} (m : outcome E A) : bool :=
  match m with Ok _ => true | _ => false end.

Lemma obind_ok_inv {E A B} (m : outcome E A) (k : A -> outcome E B) b :
  obind m k = Ok b -> exists a, m = Ok a /\ k a = Ok b.
Proof. destruct m; simpl; intros; simplify_eq; eauto. Qed.

Ltac inv_ok :=
  repeat match goal with
  | H : obind _ _ = Ok _ |- _ =>
      let x := fresh "x" in let H1 := fresh "Hok" in
      apply obind_ok_inv in H as (x & H1 & H)
  | H : Ok _ = Ok _ |- _ => inversion H; subst; clear H
  | H : Err _ = Ok _ |- _ => discriminate H
  | H : Panic = Ok _ |- _ => discriminate H
  end.

(** ** Case analysis on boolean tests *)

Ltac bool_to_prop :=
  repeat match goal with
  | H : (_ =? _)%Z = true |- _ => apply Z.eqb_eq in H
  | H : (_ =? _)%Z = false |- _ => apply Z.eqb_neq in H
  | H : (_ <? _)%Z = true |- _ => apply Z.ltb_lt in H
  | H : (_ <? _)%Z = false |- _ => apply Z.ltb_ge in H
  | H : (_ <=? _)%Z = true |- _ => apply Z.leb_le in H
  | H : (_ <=? _)%Z = false |- _ => apply Z.leb_gt in H
  | H : (_ >? _)%Z = true |- _ => apply Z.gtb_lt in H
  | H : (_ >? _)%Z = false |- _ => rewrite Z.gtb_ltb in H; apply Z.ltb_ge in H
  | H : (_ >=? _)%Z = true |- _ => apply Z.geb_le in H
  | H : (_ >=? _)%Z = false |- _ => rewrite Z.geb_leb in H; apply Z.leb_gt in H
  | H : (_ =? _)%nat = true |- _ => apply Nat.eqb_eq in H
  | H : (_ =? _)%nat = false |- _ => apply Nat.eqb_neq in H
  | H : (_ <? _)%nat = true |- _ => apply Nat.ltb_lt in H
  | H : (_ <? _)%nat = false |- _ => apply Nat.ltb_ge in H
  | H : (_ <=? _)%nat = true |- _ => apply Nat.leb_le in H
  | H : (_ <=? _)%nat = false |- _ => apply Nat.leb_gt in H
  | H : andb _ _ = true |- _ => apply andb_true_iff in H as [? ?]
  | H : orb _ _ = false |- _ => apply orb_false_iff in H as [? ?]
  | H : negb _ = true |- _ => apply negb_true_iff in H
  | H : negb _ = false |- _ => apply negb_false_iff in H
  | H : bool_decide _ = true |- _ => apply bool_decide_eq_true in H
  | H : bool_decide _ = false |- _ => apply bool_decide_eq_false in H
  end.

(** Split on the first [if] or [match] scrutinee in the goal. *)
Ltac case_test :=
  match goal with
  | |- context [if ?b then _ else _] =>
      let E := fresh "E" in destruct b eqn:E; bool_to_prop
  | |- context [match ?x with _ => _ end] =>
      let E := fresh "E" in destruct x eqn:E; bool_to_prop
  end.

(** ** Bytes *)

#[global] Instance byte_eq_dec : EqDecision byte := Byte.byte_eq_dec.
#[global] Instance byte_countable : Countable byte :=
  inj_countable Byte.to_N Byte.of_N Byte.of_to_N.

Abbreviation bytes := (list byte).

(** [b2z] and [z2b] are the casts [u8 as u64] and [as u8]. *)
Definition b2z (b : byte) : Z := Z.of_N (Byte.to_N b).
Definition z2b (z : Z) : byte :=
  match Byte.of_N (Z.to_N (z mod 256)) with Some b => b | None => x00 end.

(** ASCII byte-string literals: Rust's [b"..."]. *)
Definition bs (s : string) : bytes := String.list_byte_of_string s.

Lemma b2z_range b : 0 <= b2z b < 256.
Proof. unfold b2z. pose proof (Byte.to_N_bounded b). lia. Qed.

Lemma b2z_z2b z : b2z (z2b z) = z mod 256.
Proof.
  unfold z2b, b2z. pose proof (Z.mod_pos_bound z 256 ltac:(lia)).
  destruct (Byte.of_N _) as [b|] eqn:E.
  - apply Byte.to_of_N in E. rewrite E. lia.
  - apply Byte.of_N_None_iff in E. lia.
Qed.

Lemma b2z_inj b1 b2 : b2z b1 = b2z b2 -> b1 = b2.
Proof.
  unfold b2z. intros H%N2Z.inj.
  pose proof (Byte.of_to_N b1) as H1. pose proof (Byte.of_to_N b2) as H2.
  rewrite H in H1. congruence.
Qed.

Lemma z2b_b2z b : z2b (b2z b) = b.
Proof.
  apply b2z_inj. rewrite b2z_z2b. apply Z.mod_small, b2z_range.
Qed.

(** ** Machine integers

    Unsigned integers are [Z] with their width written at the operation:
    [wrap w] is the wrap-around of a [w]-bit register, [sat w] the saturation
    used by [saturating_add]. *)

Definition wrap (w z : Z) : Z := z mod 2 ^ w.
Definition umax (w : Z) : Z := 2 ^ w - 1.
Definition sat (w z : Z) : Z := Z.max 0 (Z.min (umax w) z).
Definition u64_max : Z := Eval cbv in umax 64.
Definition i64_max : Z := Eval cbv in 2 ^ 63 - 1.
Definition i64_min : Z := Eval cbv in - 2 ^ 63.

Abbreviation in_u w z := (0 <= z < 2 ^ w)%Z.

(** ** Little- and big-endian encodings ([to_le_bytes], [from_le_bytes], ...) *)

Fixpoint le_bytes (n : nat) (z : Z) : bytes :=
  match n with
  | O => []
  | S n' => z2b z :: le_bytes n' (z / 256)
  end.

Fixpoint le_val (l : bytes) : Z :=
  match l with
  | [] => 0
  | b :: l' => b2z b + 256 * le_val l'
  end.

Definition be_bytes (n : nat) (z : Z) : bytes := rev (le_bytes n z).
Definition be_val (l : bytes) : Z := le_val (rev l).

Lemma length_le_bytes n z : length (le_bytes n z) = n.
Proof. revert z; induction n; intros z; simpl; auto. Qed.

Lemma length_be_bytes n z : length (be_bytes n z) = n.
Proof. unfold be_bytes. by rewrite length_rev, length_le_bytes. Qed.

Lemma le_val_range l : 0 <= le_val l < 256 ^ Z.of_nat (length l).
Proof.
  induction l as [|b l IH]; [simpl; lia|].
  cbn [le_val length]. pose proof (b2z_range b).
  rewrite Nat2Z.inj_succ, Z.pow_succ_r by lia. lia.
Qed.

Lemma le_val_le_bytes_mod n z : le_val (le_bytes n z) = z mod 256 ^ Z.of_nat n.
Proof.
  revert z; induction n as [|n IH]; intros z.
  - simpl. by rewrite Z.mod_1_r.
  - cbn [le_bytes le_val]. rewrite IH, b2z_z2b, Nat2Z.inj_succ, Z.pow_succ_r by lia.
    rewrite Z.rem_mul_r by lia. lia.
Qed.

Lemma le_val_le_bytes n z :
  0 <= z < 256 ^ Z.of_nat n -> le_val (le_bytes n z) = z.
Proof. intros H. rewrite le_val_le_bytes_mod. by apply Z.mod_small. Qed.

Lemma le_bytes_le_val l : le_bytes (length l) (le_val l) = l.
Proof.
  induction l as [|b l IH]; [done|]. cbn [length le_val le_bytes].
  pose proof (b2z_range b). f_equal.
  - apply b2z_inj. rewrite b2z_z2b, (Z.mul_comm 256), Z.mod_add by lia.
    apply Z.mod_small; lia.
  - rewrite (Z.mul_comm 256), Z.div_add by lia.
    rewrite (Z.div_small (b2z b)) by lia. by rewrite Z.add_0_l.
Qed.

Lemma be_val_be_bytes n z :
  0 <= z < 256 ^ Z.of_nat n -> be_val (be_bytes n z) = z.
Proof. intros. unfold be_val, be_bytes. rewrite rev_involutive. by apply le_val_le_bytes. Qed.

(** ** Slices *)

(** [data.get(off..off + len)]: [None] when the range leaves the slice.  The
    test is on [Z], so that a corrupt 32-bit length never has to be converted
    to a unary number. *)
Definition slice (l : bytes) (off len : Z) : option bytes :=
  if (0 <=? off) && (0 <=? len) && (off + len <=? Z.of_nat (length l))
  then Some (take (Z.to_nat len) (drop (Z.to_nat off) l))
  else None.

(** Length of a slice, as the [usize] the code computes with. *)
Definition len {A} (l : list A) : Z := Z.of_nat (length l).

Lemma len_nonneg {A} (l : list A) : 0 <= len l.
Proof. unfold len; lia. Qed.
Lemma len_nil {A} : len (@nil A) = 0.
Proof. done. Qed.
Lemma len_cons {A} (x : A) l : len (x :: l) = 1 + len l.
Proof. unfold len; simpl; lia. Qed.
Lemma len_app {A} (l k : list A) : len (l ++ k) = len l + len k.
Proof. unfold len. rewrite length_app. lia. Qed.
Lemma len_le_bytes n z : len (le_bytes n z) = Z.of_nat n.
Proof. unfold len. by rewrite length_le_bytes. Qed.
Lemma len_be_bytes n z : len (be_bytes n z) = Z.of_nat n.
Proof. unfold len. by rewrite length_be_bytes. Qed.

Create HintDb noedb discriminated.
Create Rewrite HintDb len.
#[global] Hint Rewrite @len_nil @len_cons @len_app len_le_bytes len_be_bytes : len.
#[global] Hint Resolve len_nonneg b2z_range le_val_range : noedb.

Ltac len_lia := autorewrite with len in *; lia.

(** A slice that sits between a known prefix and a known suffix. *)
Lemma slice_app3 (p m s : bytes) off n :
  off = len p -> n = len m -> slice (p ++ m ++ s) off n = Some m.
Proof.
  intros -> ->. unfold slice, len. rewrite !length_app.
  rewrite (proj2 (Z.leb_le 0 _)), (proj2 (Z.leb_le 0 _)) by lia. simpl.
  rewrite (proj2 (Z.leb_le _ _)) by lia.
  rewrite !Nat2Z.id, drop_app_length, take_app_length. done.
Qed.

Lemma slice_Some_len l off n m : slice l off n = Some m -> len m = n.
Proof.
  unfold slice, len. case_test; intros; simplify_eq.
  rewrite length_take, length_drop. lia.
Qed.

Lemma slice_None l off n :
  0 <= off -> 0 <= n -> slice l off n = None <-> len l < off + n.
Proof.
  intros. unfold slice, len.
  rewrite !(proj2 (Z.leb_le 0 _)) by lia. simpl.
  destruct (_ <=? _) eqn:E; bool_to_prop; split; intros; simplify_eq; first [done | lia].
Qed.

(** [l.starts_with(p)] *)
Definition starts_with (p l : bytes) : bool := bool_decide (take (length p) l = p).

Lemma starts_with_spec p l : starts_with p l = true <-> exists s, l = p ++ s.
Proof.
  unfold starts_with. rewrite bool_decide_eq_true. split.
  - intros H. exists (drop (length p) l). rewrite <- H at 1. by rewrite take_drop.
  - intros [s ->]. by rewrite take_app_length.
Qed.
