(* ===== verification/BTree.v ===== *)
(** * Ordered maps and sets keyed by byte strings

    Rust's [BTreeMap<Vec<u8>, V>] and [BTreeSet<Vec<u8>>] are used throughout
    the storage engine.  The map itself is a [gmap bytes V]; what the order
    adds is the sequence in which [iter], [range] and [keys] visit the
    entries.  [Vec<u8>] is ordered lexicographically, a proper prefix first. *)

From S2P Require Import Prelude.

(** ** Lexicographic order on byte strings ([Ord] of [[u8]]) *)

Fixpoint bytes_cmp (a b : bytes) : comparison :=
  match a, b with
  | [], [] => Eq
  | [], _ :: _ => Lt
  | _ :: _, [] => Gt
  | x :: a', y :: b' =>
      match b2z x ?= b2z y with
      | Eq => bytes_cmp a' b'
      | c => c
      end
  end.

Definition bytes_ltb (a b : bytes) : bool :=
  match bytes_cmp a b with Lt => true | _ => false end.
Definition bytes_leb (a b : bytes) : bool :=
  match bytes_cmp a b with Gt => false | _ => true end.

Abbreviation bytes_lt a b := (bytes_ltb a b = true).
Abbreviation bytes_le a b := (bytes_leb a b = true).

Lemma bytes_cmp_refl a : bytes_cmp a a = Eq.
Proof. induction a; simpl; [done|]. by rewrite Z.compare_refl. Qed.

Lemma bytes_cmp_eq a b : bytes_cmp a b = Eq <-> a = b.
Proof.
  split; [|intros ->; apply bytes_cmp_refl].
  revert b; induction a as [|x a IH]; intros [|y b]; simpl; try done.
  destruct (b2z x ?= b2z y) eqn:E; try done.
  intros H. apply Z.compare_eq in E. apply b2z_inj in E as ->. f_equal; auto.
Qed.

Lemma bytes_cmp_antisym a b : bytes_cmp b a = CompOpp (bytes_cmp a b).
Proof.
  revert b; induction a as [|x a IH]; intros [|y b]; simpl; try done.
  rewrite Z.compare_antisym. destruct (b2z x ?= b2z y); simpl; auto.
Qed.

Lemma bytes_cmp_trans c a b d : bytes_cmp a b = c -> bytes_cmp b d = c -> bytes_cmp a d = c.
Proof.
  revert a b d; destruct c.
  - intros a b d ->%bytes_cmp_eq ->%bytes_cmp_eq. apply bytes_cmp_refl.
  - induction a as [|x a IH]; intros [|y b] [|z d]; simpl; try done.
    destruct (Z.compare_spec (b2z x) (b2z y)), (Z.compare_spec (b2z y) (b2z z)),
      (Z.compare_spec (b2z x) (b2z z)); intros; try done; try lia; eauto.
  - induction a as [|x a IH]; intros [|y b] [|z d]; simpl; try done.
    destruct (Z.compare_spec (b2z x) (b2z y)), (Z.compare_spec (b2z y) (b2z z)),
      (Z.compare_spec (b2z x) (b2z z)); intros; try done; try lia; eauto.
Qed.

Lemma bytes_lt_cmp a b : bytes_lt a b <-> bytes_cmp a b = Lt.
Proof. unfold bytes_ltb. destruct (bytes_cmp a b); naive_solver. Qed.

Lemma bytes_le_lt_eq a b : bytes_le a b <-> bytes_lt a b \/ a = b.
Proof.
  rewrite <- bytes_cmp_eq. unfold bytes_leb, bytes_ltb.
  destruct (bytes_cmp a b); naive_solver.
Qed.

Lemma bytes_ltb_irrefl a : bytes_ltb a a = false.
Proof. unfold bytes_ltb. by rewrite bytes_cmp_refl. Qed.

Lemma bytes_leb_refl a : bytes_leb a a = true.
Proof. unfold bytes_leb. by rewrite bytes_cmp_refl. Qed.

Lemma bytes_lt_trans a b c : bytes_lt a b -> bytes_lt b c -> bytes_lt a c.
Proof. rewrite !bytes_lt_cmp. apply bytes_cmp_trans. Qed.

Lemma bytes_leb_ltb a b : bytes_leb a b = negb (bytes_ltb b a).
Proof.
  unfold bytes_leb, bytes_ltb. rewrite (bytes_cmp_antisym a b).
  by destruct (bytes_cmp a b).
Qed.

Lemma bytes_ltb_leb a b : bytes_ltb a b = negb (bytes_leb b a).
Proof. rewrite bytes_leb_ltb. by rewrite negb_involutive. Qed.

Lemma bytes_lt_le a b : bytes_lt a b -> bytes_le a b.
Proof. rewrite bytes_le_lt_eq. auto. Qed.

Lemma bytes_le_trans a b c : bytes_le a b -> bytes_le b c -> bytes_le a c.
Proof.
  rewrite !bytes_le_lt_eq. intros [?| ->] [?| ->]; eauto using bytes_lt_trans.
Qed.

Lemma bytes_lt_le_trans a b c : bytes_lt a b -> bytes_le b c -> bytes_lt a c.
Proof. rewrite bytes_le_lt_eq. intros ? [?| ->]; eauto using bytes_lt_trans. Qed.

Lemma bytes_le_lt_trans a b c : bytes_le a b -> bytes_lt b c -> bytes_lt a c.
Proof. rewrite bytes_le_lt_eq. intros [?| ->]; eauto using bytes_lt_trans. Qed.

Lemma bytes_lt_ne a b : bytes_lt a b -> a <> b.
Proof. intros H ->. by rewrite bytes_ltb_irrefl in H. Qed.

Lemma bytes_le_antisym a b : bytes_le a b -> bytes_le b a -> a = b.
Proof.
  rewrite !bytes_le_lt_eq. intros [H| ->] [H'| ?]; auto.
  pose proof (bytes_lt_trans _ _ _ H H') as H0. by rewrite bytes_ltb_irrefl in H0.
Qed.

Lemma bytes_le_total a b : bytes_le a b \/ bytes_le b a.
Proof.
  rewrite (bytes_leb_ltb a b), (bytes_le_lt_eq b a).
  destruct (bytes_ltb b a); auto.
Qed.

Lemma bytes_lt_not_le a b : bytes_lt a b <-> ~ bytes_le b a.
Proof. rewrite bytes_ltb_leb. destruct (bytes_leb b a); naive_solver. Qed.

#[global] Hint Resolve bytes_lt_trans bytes_le_trans bytes_lt_le bytes_lt_le_trans
  bytes_le_lt_trans bytes_leb_refl bytes_lt_ne : noedb.

(** Order and concatenation *)

Lemma bytes_cmp_app p a b : bytes_cmp (p ++ a) (p ++ b) = bytes_cmp a b.
Proof. induction p; simpl; [done|]. by rewrite Z.compare_refl. Qed.

Lemma bytes_le_nil a : bytes_le [] a.
Proof. by destruct a. Qed.

Lemma bytes_ltb_nil a : bytes_ltb a [] = false.
Proof. by destruct a. Qed.

Lemma bytes_le_app p a : bytes_le p (p ++ a).
Proof.
  unfold bytes_leb. rewrite <- (app_nil_r p) at 1. rewrite bytes_cmp_app. by destruct a.
Qed.

(** A string that sorts before [b] and is not a prefix of it stays before [b]
    whatever is appended to it. *)
Lemma bytes_lt_app_l a b s :
  bytes_lt a b -> (forall r, b <> a ++ r) -> bytes_lt (a ++ s) b.
Proof.
  rewrite !bytes_lt_cmp. revert b; induction a as [|x a IH]; intros b H Hn.
  - by destruct (Hn b).
  - destruct b as [|y b]; [done|]. simpl in *.
    destruct (b2z x ?= b2z y) eqn:E; try done.
    apply IH; [done|]. intros r ->. apply Z.compare_eq, b2z_inj in E as ->.
    by apply (Hn r).
Qed.

(** Equal-length strings compare as big-endian numbers. *)
Lemma le_bytes_cmp_be n x y :
  in_u (8 * Z.of_nat n) x -> in_u (8 * Z.of_nat n) y ->
  bytes_cmp (be_bytes n x) (be_bytes n y) = (x ?= y).
Proof.
  unfold be_bytes. revert x y; induction n as [|n IH]; intros x y Hx Hy.
  - simpl in Hx, Hy. assert (x = 0) as -> by lia. by assert (y = 0) as -> by lia.
  - cbn [le_bytes]. cbn [rev].
    assert (Hl : forall z, in_u (8 * Z.of_nat (S n)) z -> in_u (8 * Z.of_nat n) (z / 256)).
    { intros z Hz. replace (8 * Z.of_nat (S n)) with (8 + 8 * Z.of_nat n) in Hz by lia.
      rewrite Z.pow_add_r in Hz by lia. change (2 ^ 8) with 256 in Hz.
      split; [apply Z.div_pos; lia|]. apply Z.div_lt_upper_bound; lia. }
    specialize (IH _ _ (Hl _ Hx) (Hl _ Hy)).
    assert (Happ : forall a b c d, length a = length b ->
      bytes_cmp (a ++ [c]) (b ++ [d]) =
      match bytes_cmp a b with Eq => b2z c ?= b2z d | o => o end).
    { clear. induction a as [|e a IHa]; intros [|f b] c d H; simplify_eq/=.
      - by destruct (b2z c ?= b2z d).
      - destruct (b2z e ?= b2z f); auto. }
    rewrite Happ by (by rewrite !length_rev, !length_le_bytes).
    rewrite IH, !b2z_z2b.
    pose proof (Z.div_mod x 256 ltac:(lia)). pose proof (Z.div_mod y 256 ltac:(lia)).
    pose proof (Z.mod_pos_bound x 256 ltac:(lia)). pose proof (Z.mod_pos_bound y 256 ltac:(lia)).
    destruct (Z.compare_spec (x / 256) (y / 256)); symmetry.
    + destruct (Z.compare_spec (x mod 256) (y mod 256));
        [apply Z.compare_eq_iff | apply Z.compare_lt_iff | apply Z.compare_gt_iff]; lia.
    + apply Z.compare_lt_iff; lia.
    + apply Z.compare_gt_iff; lia.
Qed.

(** ** Ordered key types *)

Class Ordered (K : Type) := {
  kcmp : K -> K -> comparison;
  kcmp_eq : forall a b, kcmp a b = Eq <-> a = b;
  kcmp_antisym : forall a b, kcmp b a = CompOpp (kcmp a b);
  kcmp_trans : forall c a b d, kcmp a b = c -> kcmp b d = c -> kcmp a d = c;
}.

Definition kltb `{Ordered K} (a b : K) : bool :=
  match kcmp a b with Lt => true | _ => false end.
Definition kleb `{Ordered K} (a b : K) : bool :=
  match kcmp a b with Gt => false | _ => true end.

#[global] Instance bytes_ordered : Ordered bytes := {
  kcmp := bytes_cmp;
  kcmp_eq := bytes_cmp_eq;
  kcmp_antisym := bytes_cmp_antisym;
  kcmp_trans := bytes_cmp_trans;
}.

Lemma Zcmp_trans c (a b d : Z) : (a ?= b) = c -> (b ?= d) = c -> (a ?= d) = c.
Proof.
  destruct c; rewrite ?Z.compare_eq_iff, ?Z.compare_lt_iff, ?Z.compare_gt_iff; lia.
Qed.

#[global] Instance Z_ordered : Ordered Z := {
  kcmp := Z.compare;
  kcmp_eq := Z.compare_eq_iff;
  kcmp_antisym := fun a b => Z.compare_antisym a b;
  kcmp_trans := Zcmp_trans;
}.

Section ordered.
Context `{Ordered K}.

Definition klt (a b : K) : Prop := kltb a b = true.
Definition kle (a b : K) : Prop := kleb a b = true.

#[export] Instance klt_dec a b : Decision (klt a b).
Proof. unfold klt. apply _. Defined.
#[export] Instance kle_dec a b : Decision (kle a b).
Proof. unfold kle. apply _. Defined.

Lemma klt_cmp a b : klt a b <-> kcmp a b = Lt.
Proof. unfold klt, kltb. destruct (kcmp a b); naive_solver. Qed.

Lemma kle_lt_eq a b : kle a b <-> klt a b \/ a = b.
Proof.
  rewrite <- kcmp_eq. unfold kle, kleb, klt, kltb. destruct (kcmp a b); naive_solver.
Qed.

#[export] Instance klt_trans : Transitive klt.
Proof. intros a b c. rewrite !klt_cmp. apply kcmp_trans. Qed.

Lemma klt_irrefl a : ~ klt a a.
Proof. rewrite klt_cmp. intros E. assert (kcmp a a = Eq) by (by apply kcmp_eq). congruence. Qed.

Lemma klt_ne a b : klt a b -> a <> b.
Proof. intros Hlt ->. by apply klt_irrefl in Hlt. Qed.

#[export] Instance kle_trans : Transitive kle.
Proof.
  intros a b c. rewrite !kle_lt_eq.
  intros [?| ->] [?| ->]; auto. left. by etrans.
Qed.

#[export] Instance kle_total : Total kle.
Proof.
  intros a b. unfold kle, kleb. rewrite (kcmp_antisym a b). destruct (kcmp a b); auto.
Qed.

Lemma klt_trichotomy a b : klt a b \/ a = b \/ klt b a.
Proof.
  rewrite !klt_cmp, (kcmp_antisym a b), <- kcmp_eq. destruct (kcmp a b); auto.
Qed.
End ordered.

(** ** [BTreeMap] iteration *)

Section btree.
Context `{Countable K} `{!Ordered K} {V : Type}.
Implicit Types (m : gmap K V) (l : list (K * V)).

Definition entry_le (a b : K * V) : Prop := kle a.1 b.1.
Definition entry_lt (a b : K * V) : Prop := klt a.1 b.1.

#[export] Instance entry_le_dec a b : Decision (entry_le a b).
Proof. unfold entry_le. apply _. Defined.
#[export] Instance entry_le_trans : Transitive entry_le.
Proof. intros a b c. unfold entry_le. apply kle_trans. Qed.
#[export] Instance entry_le_total : Total entry_le.
Proof. intros a b. unfold entry_le. apply kle_total. Qed.

(** [map.iter()]: every entry, ascending by key. *)
Definition btree_iter (m : gmap K V) : list (K * V) :=
  merge_sort entry_le (map_to_list m).

Lemma elem_of_btree_iter m k v : (k, v) ∈ btree_iter m <-> m !! k = Some v.
Proof.
  unfold btree_iter. rewrite merge_sort_Permutation. apply elem_of_map_to_list.
Qed.

Lemma NoDup_btree_iter_keys m : NoDup (btree_iter m).*1.
Proof. unfold btree_iter. rewrite merge_sort_Permutation. apply NoDup_fst_map_to_list. Qed.

Lemma length_btree_iter m : length (btree_iter m) = size m.
Proof.
  unfold btree_iter. rewrite merge_sort_Permutation. apply length_map_to_list.
Qed.

Lemma entry_le_strict l :
  StronglySorted entry_le l -> NoDup l.*1 -> StronglySorted entry_lt l.
Proof.
  induction 1 as [|[k v] l Hs IH Hall]; intros Hnd; [constructor|].
  inversion Hnd as [|? ? Hnin Hnd']; subst. constructor; [by apply IH|].
  rewrite Forall_forall in Hall |- *. intros [k' v'] Hin. unfold entry_lt; simpl.
  specialize (Hall _ Hin). unfold entry_le in Hall; simpl in Hall.
  apply kle_lt_eq in Hall as [?| ->]; [done|].
  exfalso. apply Hnin. apply list_elem_of_fmap. by exists (k', v').
Qed.

Lemma btree_iter_sorted m : StronglySorted entry_lt (btree_iter m).
Proof.
  apply entry_le_strict; [|apply NoDup_btree_iter_keys].
  apply StronglySorted_merge_sort; apply _.
Qed.

(** Two strictly ascending lists with the same members are equal. *)
Lemma sorted_ext l1 l2 :
  StronglySorted entry_lt l1 -> StronglySorted entry_lt l2 ->
  (forall e, e ∈ l1 <-> e ∈ l2) -> l1 = l2.
Proof.
  intros H1; revert l2; induction H1 as [|a l1 Hs1 IH Hall1]; intros l2 H2 Hext.
  - destruct l2 as [|b l2]; [done|].
    exfalso. apply (not_elem_of_nil b). apply Hext. left.
  - destruct H2 as [|b l2 Hs2 Hall2].
    { exfalso. apply (not_elem_of_nil a). apply Hext. left. }
    rewrite Forall_forall in Hall1, Hall2.
    assert (a = b) as ->.
    { assert (Ha : a ∈ b :: l2) by (apply Hext; left).
      assert (Hb : b ∈ a :: l1) by (apply Hext; left).
      apply elem_of_cons in Ha as [?|Ha]; [done|].
      apply elem_of_cons in Hb as [?|Hb]; [done|].
      specialize (Hall1 _ Hb). specialize (Hall2 _ Ha). unfold entry_lt in *.
      exfalso. apply (klt_irrefl a.1). by etrans. }
    f_equal. apply IH; [done|]. intros e. specialize (Hext e).
    rewrite !elem_of_cons in Hext. split; intros He.
    + destruct Hext as [Hext _]. destruct Hext as [->|]; auto.
      exfalso. specialize (Hall1 _ He). by apply klt_irrefl in Hall1.
    + destruct Hext as [_ Hext]. destruct Hext as [->|]; auto.
      exfalso. specialize (Hall2 _ He). by apply klt_irrefl in Hall2.
Qed.

Lemma btree_iter_unique m l :
  StronglySorted entry_lt l -> (forall k v, (k, v) ∈ l <-> m !! k = Some v) ->
  btree_iter m = l.
Proof.
  intros Hs Hl. apply sorted_ext; [apply btree_iter_sorted|done|].
  intros [k v]. by rewrite elem_of_btree_iter, Hl.
Qed.

(** [map.into_iter()] loops that build a map from a sequence of inserts *)
Definition insert_all (l : list (K * V)) (m : gmap K V) : gmap K V :=
  fold_left (fun acc e => <[e.1 := e.2]> acc) l m.

Lemma insert_all_app l1 l2 m : insert_all (l1 ++ l2) m = insert_all l2 (insert_all l1 m).
Proof. apply fold_left_app. Qed.
End btree.

(** A map over the values *)
Lemma btree_iter_fmap `{Countable K} `{!Ordered K} {V V'} (f : V -> V') (m : gmap K V) :
  btree_iter (f <$> m) = map (fun e => (e.1, f e.2)) (btree_iter m).
Proof.
  apply btree_iter_unique.
  - pose proof (btree_iter_sorted m) as S. induction S as [|x l S IH Hx]; cbn; constructor; [done|].
    apply Forall_fmap. eapply Forall_impl; [exact Hx|]. done.
  - intros k v. rewrite list_elem_of_fmap, lookup_fmap. setoid_rewrite fmap_Some. split.
    + intros ([k' a] & E & Hin). cbn in E. injection E as -> ->. apply elem_of_btree_iter in Hin. eauto.
    + intros (a & Hm & ->). exists (k, a). split; [done|]. by apply elem_of_btree_iter.
Qed.

#[global] Hint Resolve btree_iter_sorted NoDup_btree_iter_keys : noedb.

Lemma StronglySorted_filter {A} (R : relation A) (P : A -> Prop) `{!forall x, Decision (P x)} l :
  StronglySorted R l -> StronglySorted R (filter P l).
Proof.
  induction 1 as [|a l Hs IH Hall]; [constructor|].
  rewrite filter_cons. case_decide; [|done]. constructor; [done|].
  rewrite Forall_forall in Hall |- *. intros x [_ Hx]%list_elem_of_filter. auto.
Qed.

(** ** [BTreeMap::range] *)

Inductive bound : Type :=
| Included (k : bytes)
| Excluded (k : bytes)
| Unbounded.

Definition above_lo (lo : bound) (k : bytes) : bool :=
  match lo with
  | Included b => bytes_leb b k
  | Excluded b => bytes_ltb b k
  | Unbounded => true
  end.

Definition below_hi (hi : bound) (k : bytes) : bool :=
  match hi with
  | Included b => bytes_leb k b
  | Excluded b => bytes_ltb k b
  | Unbounded => true
  end.

(** [range] panics on an inverted range, and on an empty one with both ends
    excluded. *)
Definition range_panics (lo hi : bound) : bool :=
  match lo, hi with
  | Unbounded, _ | _, Unbounded => false
  | Excluded s, Excluded e => bytes_leb e s
  | Included s, Included e | Included s, Excluded e | Excluded s, Included e => bytes_ltb e s
  end.

Definition btree_range {E V : Type} (m : gmap bytes V) (lo hi : bound) : outcome E (list (bytes * V)) :=
  if range_panics lo hi then Panic
  else Ok (filter (fun e => above_lo lo e.1 && below_hi hi e.1 = true) (btree_iter m)).

Lemma btree_range_ok {E V : Type} (m : gmap bytes V) lo hi l :
  btree_range (E:=E) m lo hi = Ok l ->
  StronglySorted entry_lt l /\
  forall k v, (k, v) ∈ l <-> m !! k = Some v /\ above_lo lo k = true /\ below_hi hi k = true.
Proof.
  unfold btree_range. case_test; intros; simplify_eq. split.
  - apply StronglySorted_filter, btree_iter_sorted.
  - intros k v. rewrite list_elem_of_filter, elem_of_btree_iter, andb_true_iff. simpl. tauto.
Qed.

Lemma btree_range_total {E V : Type} (m : gmap bytes V) lo hi :
  range_panics lo hi = false -> exists l, btree_range (E:=E) m lo hi = Ok l.
Proof. intros H. unfold btree_range. rewrite H. eauto. Qed.

Lemma range_incl_excl_ok a b : bytes_le a b -> range_panics (Included a) (Excluded b) = false.
Proof. simpl. rewrite bytes_ltb_leb. by intros ->. Qed.
