(* ===== verification/StorageError.v ===== *)
(** * Storage errors, slice access and checksums
      (crates/noedb-storage/src/error.rs, checksum.rs)

    [StorageError] with the source's constructors; the [&'static str] and
    [String] payloads are kept.  [index] is the panicking [data[i]].
    CRC-32 (IEEE) is computed bit by bit. *)

From S2P Require Import Prelude.

Inductive StorageError : Type :=
| InvalidInput (message : string)
| Io (message : string)
| CorruptWal (message : string)
| ChecksumMismatch
| CorruptSstable (message : string)
| ResourceExhausted (message : string).

#[global] Instance StorageError_eq_dec : EqDecision StorageError.
Proof. solve_decision. Defined.

(** [data[i]]: panics out of bounds. *)
Definition index {E} (l : bytes) (i : Z) : outcome E byte :=
  match l !! Z.to_nat i with
  | Some b => Ok b
  | None => Panic
  end.

(** [data[off..off + n]]: panics out of bounds. *)
Definition index_range {E} (l : bytes) (off n : Z) : outcome E bytes :=
  match slice l off n with
  | Some s => Ok s
  | None => Panic
  end.

(** [x.ok_or(e)] *)
Definition ok_or {E A} (o : option A) (e : E) : outcome E A :=
  match o with Some a => Ok a | None => Err e end.

Lemma index_app {E} (p s : bytes) b i :
  i = len p -> index (E:=E) (p ++ b :: s) i = Ok b.
Proof.
  intros ->. unfold index, len. rewrite Nat2Z.id.
  by rewrite list_lookup_middle by done.
Qed.

Lemma index_in_bounds {E} (l : bytes) i :
  0 <= i < len l -> exists b, index (E:=E) l i = Ok b.
Proof.
  intros. unfold index, len in *.
  destruct (l !! Z.to_nat i) as [b|] eqn:Hl; [eauto|].
  apply lookup_ge_None in Hl. lia.
Qed.

(** A codec error: what the decoders return on bytes they reject. *)
Definition rejects {A} (r : outcome StorageError A) : bool :=
  match r with
  | Err (CorruptWal _ | ChecksumMismatch | CorruptSstable _) => true
  | _ => false
  end.

(** ** Reading through a concatenation

    The decoders read fields one after another from bytes an encoder wrote as
    a concatenation: skip the fields before the offset, then take the field
    at offset 0. *)

Lemma slice_skip (p l : bytes) off n :
  len p <= off -> slice (p ++ l) off n = slice l (off - len p) n.
Proof.
  intros H. unfold slice, len in *. rewrite length_app.
  destruct (0 <=? n) eqn:En; [|by rewrite !andb_false_r].
  rewrite !(proj2 (Z.leb_le 0 _)) by lia. simpl.
  destruct (off + n <=? _) eqn:E1, (off - _ + n <=? _) eqn:E2; bool_to_prop; try lia; [|done].
  f_equal. f_equal. rewrite drop_app_ge by lia. f_equal. lia.
Qed.

Lemma slice_here (m s : bytes) off n : off = 0 -> n = len m -> slice (m ++ s) off n = Some m.
Proof. intros -> ->. apply (slice_app3 [] m s); done. Qed.

Lemma slice_all (m : bytes) off n : off = 0 -> n = len m -> slice m off n = Some m.
Proof.
  intros. pose proof (slice_here m [] off n) as Hs. rewrite app_nil_r in Hs. auto.
Qed.

Lemma index_skip {E} (p l : bytes) off :
  len p <= off -> index (E:=E) (p ++ l) off = index l (off - len p).
Proof.
  intros H. unfold index, len in *. rewrite lookup_app_r by lia.
  by replace (Z.to_nat off - length p)%nat with (Z.to_nat (off - Z.of_nat (length p))) by lia.
Qed.

Lemma index_here {E} b (l : bytes) off : off = 0 -> index (E:=E) ([b] ++ l) off = Ok b.
Proof. by intros ->. Qed.

Lemma index_range_ok {E} l off n s :
  slice l off n = Some s -> index_range (E:=E) l off n = Ok s.
Proof. unfold index_range. by intros ->. Qed.

(** Evaluate a read at a numeric offset of a concatenation of known fields. *)
Ltac read_in H :=
  repeat first
    [ rewrite slice_here in H by len_lia
    | rewrite slice_skip in H by len_lia
    | rewrite slice_all in H by len_lia
    | rewrite index_here in H by len_lia
    | rewrite index_skip in H by len_lia ].
Ltac read_goal :=
  repeat first
    [ rewrite slice_here by len_lia
    | rewrite slice_skip by len_lia
    | rewrite slice_all by len_lia
    | rewrite index_here by len_lia
    | rewrite index_skip by len_lia ].

Lemma slice_in_bounds (l : bytes) off n :
  0 <= off -> 0 <= n -> off + n <= len l -> exists s, slice l off n = Some s.
Proof.
  intros H1 H2 H3. destruct (slice l off n) eqn:E; [eauto|].
  apply slice_None in E; lia.
Qed.

(** ** CRC-32 (checksum.rs) *)

Definition POLY : Z := 0xEDB88320.

(** One round of the inner loop of [Crc32::update]. *)
Definition crc_bit (s : Z) : Z :=
  let mask := wrap 32 (- Z.land s 1) in
  Z.lxor (Z.shiftr s 1) (Z.land POLY mask).

(** The body of the outer loop: xor the byte in, then eight rounds. *)
Definition crc_byte (s : Z) (b : byte) : Z :=
  Nat.iter 8 crc_bit (Z.lxor s (b2z b)).

(** [Crc32::new], [Crc32::update], [Crc32::finish] on the 32-bit state. *)
Definition crc_new : Z := 0xFFFFFFFF.
Definition crc_update (s : Z) (data : bytes) : Z := fold_left crc_byte data s.
Definition crc_finish (s : Z) : Z := Z.lxor s (umax 32).

(** [crc32(data)] *)
Definition crc32 (data : bytes) : Z := crc_finish (crc_update crc_new data).

Example crc32_check : crc32 (bs "123456789") = 0xCBF43926.
Proof. vm_compute. reflexivity. Qed.

(** ** Range and linearity of a round *)

Lemma crc_bit_odd s :
  crc_bit s = Z.lxor (Z.shiftr s 1) (if Z.odd s then POLY else 0).
Proof.
  unfold crc_bit, wrap. change 1 with (Z.ones 1) at 2. rewrite Z.land_ones by lia.
  change (2 ^ 1) with 2. rewrite Zmod_odd. by destruct (Z.odd s).
Qed.

Lemma lxor_range w a b : 0 <= w -> in_u w a -> in_u w b -> in_u w (Z.lxor a b).
Proof.
  intros Hw Ha Hb. split; [apply Z.lxor_nonneg; lia|].
  destruct (Z.eq_dec (Z.lxor a b) 0) as [->|Hn]; [lia|].
  apply Z.log2_lt_pow2.
  { pose proof (Z.lxor_nonneg a b). lia. }
  pose proof (Z.log2_lxor a b ltac:(lia) ltac:(lia)).
  assert (forall z, in_u w z -> z <> 0 -> Z.log2 z < w) as Hlog.
  { intros z ? ?. apply Z.log2_lt_pow2; lia. }
  assert (a <> 0 \/ b <> 0) as Hab.
  { destruct (Z.eq_dec a 0) as [->|]; [|auto]. right. intros ->. by apply Hn. }
  assert (forall z, in_u w z -> Z.log2 z < w \/ z = 0) as Hz by (intros; specialize (Hlog z); lia).
  destruct (Hz a Ha) as [|Ha0], (Hz b Hb) as [|Hb0]; subst;
    change (Z.log2 0) with 0 in *; try lia.
  - pose proof (Z.log2_nonneg a). lia.
  - pose proof (Z.log2_nonneg b). lia.
Qed.

Lemma shiftr_range s : in_u 32 s -> in_u 31 (Z.shiftr s 1).
Proof.
  intros. rewrite Z.shiftr_div_pow2 by lia. change (2 ^ 1) with 2.
  split; [apply Z.div_pos; lia|]. apply Z.div_lt_upper_bound; lia.
Qed.

Lemma crc_bit_range s : in_u 32 s -> in_u 32 (crc_bit s).
Proof.
  intros Hs. rewrite crc_bit_odd. pose proof (shiftr_range s Hs).
  apply lxor_range; [lia|lia|]. unfold POLY. destruct (Z.odd s); lia.
Qed.

Lemma iter_crc_bit_range n s : in_u 32 s -> in_u 32 (Nat.iter n crc_bit s).
Proof. intros Hs. induction n; simpl; [done|]. by apply crc_bit_range. Qed.

Lemma odd_lxor a b : Z.odd (Z.lxor a b) = xorb (Z.odd a) (Z.odd b).
Proof. rewrite <- !Z.bit0_odd. apply Z.lxor_spec. Qed.

(** A round distributes over exclusive or. *)
Lemma crc_bit_lxor a b : crc_bit (Z.lxor a b) = Z.lxor (crc_bit a) (crc_bit b).
Proof.
  rewrite !crc_bit_odd, Z.shiftr_lxor, odd_lxor.
  assert (forall x y p, Z.lxor (Z.lxor x y) 0 = Z.lxor (Z.lxor x p) (Z.lxor y p)) as Hpp.
  { intros. apply Z.bits_inj'. intros n _. rewrite !Z.lxor_spec, Z.bits_0.
    destruct (Z.testbit x n), (Z.testbit y n), (Z.testbit p n); done. }
  destruct (Z.odd a), (Z.odd b); simpl.
  - apply Hpp.
  - rewrite Z.lxor_0_r, !Z.lxor_assoc. f_equal. apply Z.lxor_comm.
  - by rewrite Z.lxor_0_r, !Z.lxor_assoc.
  - by rewrite !Z.lxor_0_r.
Qed.

Lemma iter_crc_bit_lxor n a b :
  Nat.iter n crc_bit (Z.lxor a b) = Z.lxor (Nat.iter n crc_bit a) (Nat.iter n crc_bit b).
Proof. induction n as [|n IH]; simpl; [done|]. by rewrite IH, crc_bit_lxor. Qed.

(** A round loses nothing: bit 31 of the result is the bit shifted out. *)
Lemma crc_bit_inj a b : in_u 32 a -> in_u 32 b -> crc_bit a = crc_bit b -> a = b.
Proof.
  intros Ha Hb Heq. rewrite !crc_bit_odd in Heq.
  assert (Htop : forall s, in_u 32 s ->
    Z.testbit (Z.lxor (Z.shiftr s 1) (if Z.odd s then POLY else 0)) 31 = Z.odd s).
  { intros s Hs. rewrite Z.lxor_spec.
    rewrite (Z.bits_above_log2 (Z.shiftr s 1) 31).
    - by destruct (Z.odd s).
    - apply Z.shiftr_nonneg; lia.
    - pose proof (shiftr_range s Hs). destruct (Z.eq_dec (Z.shiftr s 1) 0) as [->|]; [done|].
      apply Z.log2_lt_pow2; lia. }
  pose proof (Htop a Ha) as H1. rewrite Heq, (Htop b Hb) in H1. rewrite H1 in Heq.
  apply (f_equal (fun z => Z.lxor z (if Z.odd a then POLY else 0))) in Heq.
  rewrite !Z.lxor_assoc, Z.lxor_nilpotent, !Z.lxor_0_r in Heq.
  rewrite !Z.shiftr_div_pow2 in Heq by lia. change (2 ^ 1) with 2 in Heq.
  rewrite (Z.div_mod a 2), (Z.div_mod b 2), !Zmod_odd, Heq, H1 by lia. done.
Qed.

Lemma iter_crc_bit_inj n a b :
  in_u 32 a -> in_u 32 b -> Nat.iter n crc_bit a = Nat.iter n crc_bit b -> a = b.
Proof.
  intros Ha Hb. induction n as [|n IH]; simpl; [done|].
  intros H. apply IH, crc_bit_inj; auto using iter_crc_bit_range.
Qed.

(** Eight rounds on a value whose low byte is zero only shift it. *)
Lemma iter_crc_bit_shift n z :
  0 <= z -> Nat.iter n crc_bit (Z.shiftl z (Z.of_nat n)) = z.
Proof.
  intros Hz. induction n as [|n IH].
  - apply Z.shiftl_0_r.
  - rewrite Nat.iter_succ_r. rewrite <- IH at 2. f_equal.
    rewrite crc_bit_odd.
    assert (Z.shiftl z (Z.of_nat (S n)) = 2 * Z.shiftl z (Z.of_nat n)) as ->.
    { rewrite !Z.shiftl_mul_pow2, Nat2Z.inj_succ, Z.pow_succ_r by lia. lia. }
    rewrite Z.odd_mul. simpl. rewrite Z.lxor_0_r, Z.shiftr_div_pow2 by lia.
    change (2 ^ 1) with 2. rewrite Z.mul_comm. by apply Z.div_mul.
Qed.

(** ** Hashing a window of at most four bytes *)

Lemma crc_byte_eq s b : crc_byte s b = Nat.iter 8 crc_bit (Z.lxor s (b2z b)).
Proof. reflexivity. Qed.

Lemma crc_update_cons s b l : crc_update s (b :: l) = crc_update (crc_byte s b) l.
Proof. reflexivity. Qed.

Lemma byte_range32 b : in_u 32 (b2z b).
Proof. pose proof (b2z_range b). lia. Qed.

Lemma crc_byte_range s b : in_u 32 s -> in_u 32 (crc_byte s b).
Proof.
  intros. rewrite crc_byte_eq. apply iter_crc_bit_range, lxor_range; auto using byte_range32. lia.
Qed.

Lemma crc_update_range s l : in_u 32 s -> in_u 32 (crc_update s l).
Proof.
  revert s; induction l as [|b l IH]; intros s Hs; [done|].
  rewrite crc_update_cons. by apply IH, crc_byte_range.
Qed.

Lemma lxor_byte_shift b z : 0 <= z -> Z.lxor (b2z b) (Z.shiftl z 8) = b2z b + 256 * z.
Proof.
  intros. rewrite <- Z.add_nocarry_lxor, Z.shiftl_mul_pow2 by
    (lia || (apply Z.bits_inj'; intros n Hn; rewrite Z.land_spec, Z.bits_0;
     destruct (Z.lt_ge_cases n 8);
       [rewrite Z.shiftl_spec_low by lia; apply andb_false_r |
        rewrite (Z.bits_above_log2 (b2z b) n); [done| |]];
     pose proof (b2z_range b); [lia|];
     destruct (Z.eq_dec (b2z b) 0) as [->|]; [simpl; lia|];
     apply Z.lt_le_trans with 8; [apply Z.log2_lt_pow2; lia | lia])).
  lia.
Qed.

Lemma crc_update_window s w :
  (length w <= 4)%nat ->
  crc_update s w = Nat.iter (8 * length w) crc_bit (Z.lxor s (le_val w)).
Proof.
  revert s; induction w as [|b w IH]; intros s Hl.
  - simpl. by rewrite Z.lxor_0_r.
  - cbn [length] in *. rewrite crc_update_cons, IH by lia. rewrite crc_byte_eq.
    pose proof (le_val_range w).
    rewrite <- (iter_crc_bit_shift 8 (le_val w)) at 1 by lia.
    rewrite <- iter_crc_bit_lxor. change (Z.of_nat 8) with 8.
    rewrite Z.lxor_assoc, lxor_byte_shift by lia. cbn [le_val].
    replace (8 * S (length w))%nat with (8 * length w + 8)%nat by lia.
    by rewrite Nat.iter_add.
Qed.

Lemma crc_byte_inj_state s1 s2 b :
  in_u 32 s1 -> in_u 32 s2 -> crc_byte s1 b = crc_byte s2 b -> s1 = s2.
Proof.
  intros H1 H2 H. rewrite !crc_byte_eq in H. apply iter_crc_bit_inj in H;
    [|apply lxor_range; auto using byte_range32; lia..].
  apply (f_equal (fun z => Z.lxor z (b2z b))) in H.
  by rewrite !Z.lxor_assoc, Z.lxor_nilpotent, !Z.lxor_0_r in H.
Qed.

Lemma crc_update_inj_state s1 s2 l :
  in_u 32 s1 -> in_u 32 s2 -> crc_update s1 l = crc_update s2 l -> s1 = s2.
Proof.
  revert s1 s2; induction l as [|b l IH]; intros s1 s2 H1 H2; [done|].
  rewrite !crc_update_cons. intros H. apply (crc_byte_inj_state _ _ b); [done..|].
  apply IH; [by apply crc_byte_range..|done].
Qed.

Lemma crc32_range l : in_u 32 (crc32 l).
Proof.
  apply lxor_range; [lia| |unfold umax; lia].
  apply crc_update_range. unfold crc_new. lia.
Qed.

#[global] Hint Resolve crc32_range : noedb.

Lemma le_val_inj l1 l2 : length l1 = length l2 -> le_val l1 = le_val l2 -> l1 = l2.
Proof.
  intros Hl H. rewrite <- (le_bytes_le_val l1), <- (le_bytes_le_val l2). congruence.
Qed.

(** Burst detection, the guarantee the WAL and the SST scrubber rely on. *)
Lemma crc32_window_inj p q w1 w2 :
  length w1 = length w2 -> (length w1 <= 4)%nat ->
  crc32 (p ++ w1 ++ q) = crc32 (p ++ w2 ++ q) -> w1 = w2.
Proof.
  intros Hl H4 H. unfold crc32, crc_finish in H.
  apply (f_equal (fun z => Z.lxor z (umax 32))) in H.
  rewrite !Z.lxor_assoc, Z.lxor_nilpotent, !Z.lxor_0_r in H.
  unfold crc_update in H. rewrite !fold_left_app in H. fold (crc_update crc_new p) in H.
  set (s := crc_update crc_new p) in *.
  assert (Hs : in_u 32 s) by (apply crc_update_range; unfold crc_new; lia).
  apply crc_update_inj_state in H; [|by apply crc_update_range..].
  fold (crc_update s w1) (crc_update s w2) in H.
  rewrite !crc_update_window, Hl in H by lia.
  pose proof (le_val_range w1). pose proof (le_val_range w2).
  assert (Hw : forall w, (length w <= 4)%nat -> in_u 32 (le_val w)).
  { intros w Hw. pose proof (le_val_range w).
    assert (256 ^ Z.of_nat (length w) <= 256 ^ 4) by (apply Z.pow_le_mono_r; lia). lia. }
  apply iter_crc_bit_inj in H; [|apply lxor_range; [lia|done|apply Hw; lia]..].
  apply (f_equal (Z.lxor s)) in H.
  rewrite <- !Z.lxor_assoc, Z.lxor_nilpotent, !Z.lxor_0_l in H.
  by apply le_val_inj.
Qed.
