(* ===== verification/Mvcc.v ===== *)
(** * MVCC building blocks (crates/noedb-storage/src/mvcc/)

    [version.rs], [key.rs], [codec.rs], [read_view.rs] and [oracle.rs]: the
    version record, the internal-key encoding, the on-disk encoding of a
    version, snapshot visibility and the timestamp oracle.

    A [CommitTs] and a [TxnId] are [u64]s, kept as [Z]. *)

From S2P Require Import Prelude BTree StorageError.

(** ** version.rs *)

Record Version : Type := mkVersion {
  v_commit_ts : Z;
  v_value : bytes;
  v_deleted : bool;
}.

#[global] Instance Version_eq_dec : EqDecision Version.
Proof. solve_decision. Defined.

Definition Version_put (commit_ts : Z) (value : bytes) : Version :=
  mkVersion commit_ts value false.
Definition Version_tombstone (commit_ts : Z) : Version := mkVersion commit_ts [] true.
Definition Version_intent (value : bytes) : Version := mkVersion 0 value false.
Definition Version_delete_intent : Version := mkVersion 0 [] true.

(** ** key.rs *)

(** [!commit_ts] on [u64]. *)
Definition not64 (z : Z) : Z := u64_max - z.

Definition encode_internal_key (user_key : bytes) (commit_ts : Z) : bytes :=
  user_key ++ be_bytes 8 (not64 commit_ts).

(** [&internal[..internal.len().saturating_sub(8)]]; subtraction on [nat]
    saturates at zero. *)
Definition decode_user_key (internal : bytes) : bytes :=
  take (length internal - 8) internal.

(** The loop of [user_key_prefix_end] works from the last byte: pop while it
    is 255, then increment.  [inc_last] is that loop on the reversed key. *)
Fixpoint inc_last (r : bytes) : bytes :=
  match r with
  | [] => []
  | b :: r' => if b2z b =? 255 then inc_last r' else z2b (b2z b + 1) :: r'
  end.

Definition user_key_prefix_end (user_key : bytes) : bytes := rev (inc_last (rev user_key)).

(** ** read_view.rs *)

Record ReadView : Type := mkReadView {
  snapshot_ts : Z;
  active_txns : gset Z;
  txn_id : Z;
}.

Definition ReadView_new (txn_id snapshot_ts : Z) (active : gset Z) : ReadView :=
  mkReadView snapshot_ts active txn_id.

Definition is_visible (view : ReadView) (version : Version) (writer_txn : option Z) : bool :=
  if v_commit_ts version =? 0 then bool_decide (writer_txn = Some (txn_id view))
  else if v_commit_ts version >? snapshot_ts view then false
  else match writer_txn with
       | Some w => negb (bool_decide (w ∈ active_txns view) && negb (w =? txn_id view))
       | None => true
       end.

(** ** oracle.rs *)

(** The state is the atomic counter [last]; [fetch_add] wraps around. *)
Definition TimestampOracle_new : Z := 0.
Definition TimestampOracle_fetch_add (last n : Z) : Z * Z := (last, wrap 64 (last + n)).
Definition TimestampOracle_next (last : Z) : Z * Z :=
  let '(old, last') := TimestampOracle_fetch_add last 1 in
  (Z.max (sat 64 (old + 1)) 1, last').
Definition TimestampOracle_now (last : Z) : Z := last.

(** ** codec.rs *)

Definition MAGIC : bytes := bs "MVCC".
Definition FORMAT_V1 : Z := 1.
Definition VERSION_HEADER : Z := len MAGIC + 1 + 8 + 1 + 4.

Definition encode_version (v : Version) : outcome StorageError bytes :=
  if v_commit_ts v =? 0 then Err (InvalidInput "cannot persist uncommitted intent")
  else Ok (MAGIC ++ [z2b FORMAT_V1] ++ le_bytes 8 (v_commit_ts v)
           ++ [z2b (if v_deleted v then 1 else 0)]
           ++ le_bytes 4 (len (v_value v)) ++ v_value v).

(** [read_u64] and [read_u32] thread the offset they advance. *)
Definition mvcc_read_u64 (data : bytes) (off : Z) : outcome StorageError (Z * Z) :=
  let? s := ok_or (slice data off 8) (CorruptSstable "truncated u64") in
  Ok (le_val s, off + 8).

Definition mvcc_read_u32 (data : bytes) (off : Z) : outcome StorageError (Z * Z) :=
  let? s := ok_or (slice data off 4) (CorruptSstable "truncated u32") in
  Ok (le_val s, off + 4).

Definition decode_version (b : bytes) : outcome StorageError Version :=
  if len b <? VERSION_HEADER then Err (CorruptSstable "truncated MVCC value") else
  let? magic := index_range b 0 (len MAGIC) in
  if negb (bool_decide (magic = MAGIC)) then Err (CorruptSstable "bad MVCC magic") else
  let? fmt := index b (len MAGIC) in
  if negb (b2z fmt =? FORMAT_V1) then Err (CorruptSstable "unsupported MVCC format") else
  let off := len MAGIC + 1 in
  let? '(commit_ts, off) := mvcc_read_u64 b off in
  let? d := index b off in
  let deleted := negb (b2z d =? 0) in
  let off := off + 1 in
  let? '(val_len, off) := mvcc_read_u32 b off in
  if off + val_len >? len b then Err (CorruptSstable "truncated MVCC payload") else
  let? value := index_range b off val_len in
  Ok (mkVersion commit_ts value deleted).

Definition decode_or_legacy (b : bytes) : outcome StorageError Version :=
  if starts_with MAGIC b then decode_version b else Ok (Version_put 1 b).

(** [decode_version_ref] returns [None] for a corrupt record; [index] is the
    only call that could panic. *)
Definition decode_version_ref (b : bytes) : outcome StorageError (option (Z * bool * bytes)) :=
  if len b <? VERSION_HEADER then Ok None else
  let? magic := index_range b 0 (len MAGIC) in
  if negb (bool_decide (magic = MAGIC)) then Ok None else
  let? fmt := index b (len MAGIC) in
  if negb (b2z fmt =? FORMAT_V1) then Ok None else
  let off := len MAGIC + 1 in
  match slice b off 8 with
  | None => Ok None
  | Some ts =>
      let off := off + 8 in
      let? d := index b off in
      let off := off + 1 in
      match slice b off 4 with
      | None => Ok None
      | Some n =>
          let off := off + 4 in
          match slice b off (le_val n) with
          | None => Ok None
          | Some value => Ok (Some (le_val ts, negb (b2z d =? 0), value))
          end
      end
  end.

(** A version whose fields fit their machine types. *)
Definition version_wf (v : Version) : Prop :=
  0 < v_commit_ts v < 2 ^ 64 /\ len (v_value v) < 2 ^ 32.

(** ** Codec round trip *)

Lemma len_MAGIC : len MAGIC = 4.
Proof. done. Qed.
#[global] Hint Rewrite len_MAGIC : len.

Lemma version_header_value : VERSION_HEADER = 18.
Proof. done. Qed.

Lemma encode_version_ok v b :
  encode_version v = Ok b ->
  v_commit_ts v <> 0 /\
  b = MAGIC ++ [z2b 1] ++ le_bytes 8 (v_commit_ts v)
      ++ [z2b (if v_deleted v then 1 else 0)] ++ le_bytes 4 (len (v_value v)) ++ v_value v.
Proof. unfold encode_version. case_test; intros; simplify_eq. done. Qed.

(** Both decoders read the same five fields at fixed offsets. *)
Lemma decode_version_fields b :
  VERSION_HEADER <= len b ->
  exists magic fmt ts d n,
    slice b 0 4 = Some magic /\ index (E:=StorageError) b 4 = Ok fmt /\
    slice b 5 8 = Some ts /\ index (E:=StorageError) b 13 = Ok d /\ slice b 14 4 = Some n /\
    decode_version b =
      (if negb (bool_decide (magic = MAGIC)) then Err (CorruptSstable "bad MVCC magic")
       else if negb (b2z fmt =? 1) then Err (CorruptSstable "unsupported MVCC format")
       else match slice b 18 (le_val n) with
            | Some value => Ok (mkVersion (le_val ts) value (negb (b2z d =? 0)))
            | None => Err (CorruptSstable "truncated MVCC payload")
            end) /\
    decode_version_ref b =
      Ok (if negb (bool_decide (magic = MAGIC)) then None
          else if negb (b2z fmt =? 1) then None
          else match slice b 18 (le_val n) with
               | Some value => Some (le_val ts, negb (b2z d =? 0), value)
               | None => None
               end).
Proof.
  rewrite version_header_value. intros Hlen.
  destruct (slice_in_bounds b 0 4) as [magic H0]; [lia..|].
  destruct (index_in_bounds (E:=StorageError) b 4) as [fmt H1]; [lia|].
  destruct (slice_in_bounds b 5 8) as [ts H2]; [lia..|].
  destruct (index_in_bounds (E:=StorageError) b 13) as [d H3]; [lia|].
  destruct (slice_in_bounds b 14 4) as [n H4]; [lia..|].
  exists magic, fmt, ts, d, n. do 5 (split; [done|]).
  unfold decode_version, decode_version_ref, mvcc_read_u64, mvcc_read_u32.
  rewrite version_header_value, (proj2 (Z.ltb_ge (len b) 18)) by lia.
  change (len MAGIC) with 4. unfold index_range at 1 3. rewrite H0. cbn [obind ok_or].
  rewrite H1. cbn [obind]. change (4 + 1) with 5. rewrite H2. cbn [obind ok_or].
  change (5 + 8) with 13. rewrite H3. cbn [obind]. change (13 + 1) with 14.
  rewrite H4. cbn [obind ok_or]. change (14 + 4) with 18. unfold index_range.
  pose proof (le_val_range n). unfold FORMAT_V1.
  destruct (negb (bool_decide _)); [done|]. destruct (negb (_ =? 1)); [done|].
  destruct (slice b 18 (le_val n)) as [value|] eqn:H5.
  - assert (18 + le_val n <= len b).
    { destruct (Z.le_gt_cases (18 + le_val n) (len b)) as [|Hgt]; [done|].
      rewrite (proj2 (slice_None b 18 (le_val n) ltac:(lia) ltac:(lia))) in H5 by lia. done. }
    rewrite Z.gtb_ltb, (proj2 (Z.ltb_ge _ _)) by lia. done.
  - apply slice_None in H5; [|lia..]. rewrite Z.gtb_ltb, (proj2 (Z.ltb_lt _ _)) by lia. done.
Qed.

Lemma decode_version_short b :
  len b < VERSION_HEADER ->
  decode_version b = Err (CorruptSstable "truncated MVCC value") /\ decode_version_ref b = Ok None.
Proof.
  intros H. unfold decode_version, decode_version_ref. by rewrite (proj2 (Z.ltb_lt _ _)).
Qed.

(** An MVCC version written by [encode_version] is read back unchanged by
    [decode_version], also when other bytes follow it. *)
Theorem decode_encode_version v b rest :
  version_wf v -> encode_version v = Ok b ->
  decode_version (b ++ rest) = Ok v.
Proof.
  intros [Hts Hlen] [_ ->]%encode_version_ok.
  pose proof (len_nonneg (v_value v)). pose proof (len_nonneg rest).
  rewrite <- !app_assoc.
  match goal with |- decode_version ?B = _ => set (b := B) end.
  assert (Hb : 18 <= len b) by (subst b; len_lia).
  destruct (decode_version_fields b) as (magic & fmt & ts & d & n & R0 & R1 & R2 & R3 & R4 & -> & _);
    [by rewrite version_header_value|].
  subst b. clear Hb. read_in R0. read_in R1. read_in R2. read_in R3. read_in R4. simplify_eq.
  rewrite bool_decide_true by done. rewrite !b2z_z2b, !le_val_le_bytes by (simpl; lia).
  read_goal. destruct v as [ts value []]; done.
Qed.

Lemma decode_encode_version_witness :
  decode_version (MAGIC ++ [x01] ++ le_bytes 8 42 ++ [x00] ++ le_bytes 4 4 ++ bs "data")
  = Ok (mkVersion 42 (bs "data") false).
Proof.
  pose proof (decode_encode_version (mkVersion 42 (bs "data") false)
    (MAGIC ++ [x01] ++ le_bytes 8 42 ++ [x00] ++ le_bytes 4 4 ++ bs "data") []) as H.
  rewrite app_nil_r in H. apply H; [|reflexivity].
  split; vm_compute; [split; reflexivity|reflexivity].
Defined.

(** The borrowing decoder used by the scan merge accepts exactly the
    records the owning decoder accepts, with the same fields, and neither
    panics on any input. *)
Theorem decode_version_ref_agrees b :
  decode_version b <> Panic /\
  decode_version_ref b =
    Ok (match decode_version b with
        | Ok v => Some (v_commit_ts v, v_deleted v, v_value v)
        | _ => None
        end).
Proof.
  destruct (Z.lt_ge_cases (len b) VERSION_HEADER) as [H|H].
  - destruct (decode_version_short b H) as [-> ->]. done.
  - destruct (decode_version_fields b H) as (? & ? & ? & ? & ? & _ & _ & _ & _ & _ & -> & ->).
    repeat case_test; done.
Qed.

(** No proper prefix of an encoded version decodes: a torn record is
    reported as corrupt, never read as a shorter value. *)
Theorem decode_truncated_version v b n :
  version_wf v -> encode_version v = Ok b -> (n < length b)%nat ->
  rejects (decode_version (take n b)) = true.
Proof.
  intros Hwf [_ ->]%encode_version_ok Hn.
  destruct Hwf as [Hts Hlen]. pose proof (len_nonneg (v_value v)).
  set (b := MAGIC ++ _) in *.
  destruct (Z.lt_ge_cases (len (take n b)) VERSION_HEADER) as [Hs|Hs].
  { by destruct (decode_version_short _ Hs) as [-> _]. }
  destruct (decode_version_fields _ Hs) as (magic & fmt & ts & d & k & _ & _ & _ & _ & R4 & -> & _).
  repeat (case_test; [done|]).
  rewrite (proj2 (slice_None _ 18 (le_val k) ltac:(lia) (proj1 (le_val_range k)))); [done|].
  assert (Hk : slice b 14 4 = Some k).
  { rewrite <- (take_drop n b). revert R4. unfold slice, len in *. rewrite length_app.
    rewrite version_header_value in Hs. rewrite !(proj2 (Z.leb_le 0 _)) by lia. simpl.
    repeat case_test; intros; simplify_eq; try lia.
    f_equal. rewrite drop_app_le, take_app_le by (rewrite ?length_drop; lia). done. }
  unfold b in Hk. read_in Hk. simplify_eq. rewrite le_val_le_bytes by (simpl; lia).
  unfold len at 1. rewrite length_take. unfold b in *. clear -Hn H.
  unfold len in *. rewrite !length_app, !length_le_bytes in *. simpl in *. lia.
Qed.

Lemma decode_truncated_version_witness :
  rejects (decode_version (take 20 (MAGIC ++ [x01] ++ le_bytes 8 42 ++ [x00]
    ++ le_bytes 4 4 ++ bs "data"))) = true.
Proof.
  apply (decode_truncated_version (mkVersion 42 (bs "data") false));
    [split; vm_compute; [split; reflexivity|reflexivity] | reflexivity | vm_compute; lia].
Defined.

(** ** Internal keys *)

Lemma not64_range ts : in_u 64 ts -> in_u 64 (not64 ts).
Proof. unfold not64, u64_max. lia. Qed.

Lemma decode_encode_internal_key k ts : decode_user_key (encode_internal_key k ts) = k.
Proof.
  unfold decode_user_key, encode_internal_key.
  rewrite length_app, length_be_bytes, Nat.add_sub. apply take_app_length.
Qed.

Lemma length_encode_internal_key k ts :
  length (encode_internal_key k ts) = (length k + 8)%nat.
Proof. unfold encode_internal_key. by rewrite length_app, length_be_bytes. Qed.

Lemma encode_internal_key_inj k1 ts1 k2 ts2 :
  in_u 64 ts1 -> in_u 64 ts2 ->
  encode_internal_key k1 ts1 = encode_internal_key k2 ts2 -> k1 = k2 /\ ts1 = ts2.
Proof.
  intros H1 H2 Heq.
  assert (k1 = k2) as ->.
  { rewrite <- (decode_encode_internal_key k1 ts1), Heq. apply decode_encode_internal_key. }
  split; [done|]. unfold encode_internal_key in Heq. apply app_inv_head in Heq.
  apply (f_equal be_val) in Heq. rewrite !be_val_be_bytes in Heq;
    [unfold not64 in Heq; lia|by apply not64_range..].
Qed.

(** An internal key of [k] never precedes [k]. *)
Lemma encode_internal_key_ge k ts : bytes_le k (encode_internal_key k ts).
Proof. apply bytes_le_app. Qed.

(** For one user key the internal keys sort newest version first, and the
    user key and timestamp are recovered from them. *)
Theorem internal_key_newest_first k ts1 ts2 :
  in_u 64 ts1 -> in_u 64 ts2 ->
  bytes_cmp (encode_internal_key k ts1) (encode_internal_key k ts2) = (ts2 ?= ts1) /\
  decode_user_key (encode_internal_key k ts1) = k.
Proof.
  intros H1 H2. split; [|apply decode_encode_internal_key].
  unfold encode_internal_key. rewrite bytes_cmp_app.
  rewrite le_bytes_cmp_be by (by apply not64_range). unfold not64.
  destruct (Z.compare_spec ts2 ts1);
    [apply Z.compare_eq_iff|apply Z.compare_lt_iff|apply Z.compare_gt_iff]; lia.
Qed.

Lemma internal_key_newest_first_witness :
  bytes_cmp (encode_internal_key (bs "k") 7) (encode_internal_key (bs "k") 3) = Lt.
Proof.
  rewrite (proj1 (internal_key_newest_first (bs "k") 7 3 ltac:(lia) ltac:(lia))). reflexivity.
Defined.

(** ** Prefix upper bounds *)

Definition all_ff (k : bytes) : Prop := Forall (fun b => b2z b = 255) k.

#[global] Instance all_ff_dec k : Decision (all_ff k).
Proof. unfold all_ff. apply _. Defined.

Lemma not_all_ff k : existsb (fun b => negb (b2z b =? 255)) k = true -> ~ all_ff k.
Proof.
  intros H Hk. unfold all_ff in Hk. rewrite Forall_forall in Hk.
  apply existsb_exists in H as (b & Hb & Hn). bool_to_prop. apply Hn, Hk. by apply list_elem_of_In.
Qed.

(** [inc_last] from the other end: the recursion of the proof. *)
Lemma prefix_end_cons b k :
  user_key_prefix_end (b :: k) =
  if decide (all_ff k) then (if b2z b =? 255 then [] else [z2b (b2z b + 1)])
  else b :: user_key_prefix_end k.
Proof.
  unfold user_key_prefix_end. cbn [rev].
  assert (Hff : forall r c, all_ff r -> inc_last (r ++ [c]) = inc_last [c]).
  { induction 1 as [|x r Hx Hr IH]; [done|]. simpl. by rewrite Hx. }
  assert (Hnf : forall r c, ~ all_ff r -> inc_last (r ++ [c]) = inc_last r ++ [c]).
  { induction r as [|x r IH]; intros c Hr; [by destruct Hr; constructor|].
    simpl. destruct (b2z x =? 255) eqn:E; bool_to_prop; [|done].
    apply IH. intros Hr'. apply Hr. by constructor. }
  case_decide as Hd.
  - rewrite Hff by (by apply Forall_rev). simpl. by destruct (_ =? 255).
  - rewrite Hnf by (intros Hr%Forall_rev; by rewrite rev_involutive in Hr). by rewrite rev_app_distr.
Qed.

Lemma prefix_end_all_ff k : all_ff k -> user_key_prefix_end k = [].
Proof.
  induction 1 as [|b k Hb Hk IH]; [done|].
  rewrite prefix_end_cons. rewrite decide_True by done. by rewrite Hb.
Qed.

Lemma prefix_end_nonempty k : ~ all_ff k -> user_key_prefix_end k <> [].
Proof.
  induction k as [|b k IH]; intros Hn; [by destruct Hn; constructor|].
  rewrite prefix_end_cons. case_decide; [|done].
  destruct (b2z b =? 255) eqn:E; bool_to_prop; [|done]. destruct Hn. by constructor.
Qed.

(** Above an all-255 string there are only its extensions. *)
Lemma all_ff_le_iff k x : all_ff k -> bytes_le k x <-> exists s, x = k ++ s.
Proof.
  intros Hk; split; [|intros [s ->]; apply bytes_le_app].
  revert x; induction Hk as [|b k Hb Hk IH]; intros x Hx; [by exists x|].
  destruct x as [|c x]; [done|]. unfold bytes_leb in Hx. simpl in Hx.
  destruct (Z.compare_spec (b2z b) (b2z c)) as [E|E|E]; try done.
  - apply b2z_inj in E as ->. destruct (IH x) as [s ->]; [done|by exists s].
  - pose proof (b2z_range c). lia.
Qed.

(** The half-open interval from a key to its [user_key_prefix_end] holds
    exactly the extensions of the key, provided some byte is not 255.  (For an
    all-255 key the bound is the empty string, [prefix_end_all_ff].) *)
Lemma prefix_end_range k x :
  ~ all_ff k ->
  (bytes_le k x /\ bytes_lt x (user_key_prefix_end k)) <-> exists s, x = k ++ s.
Proof.
  revert x; induction k as [|b k IH]; intros x Hn; [by destruct Hn; constructor|].
  rewrite prefix_end_cons. destruct x as [|c x].
  { split; [intros [? _]; done|intros [s ?]; done]. }
  assert (Hc : (exists s, c :: x = (b :: k) ++ s) <-> c = b /\ exists s, x = k ++ s).
  { split; [intros [s ?]; simplify_eq/=; eauto|intros [-> [s ->]]; by exists s]. }
  rewrite Hc. unfold bytes_leb, bytes_ltb. simpl bytes_cmp at 1.
  pose proof (b2z_range b). pose proof (b2z_range c). case_decide as Hd.
  - destruct (b2z b =? 255) eqn:E; bool_to_prop; [by destruct Hn; constructor|].
    rewrite <- (all_ff_le_iff k x Hd). simpl. rewrite b2z_z2b, Z.mod_small by lia.
    unfold bytes_leb.
    destruct (Z.compare_spec (b2z b) (b2z c)) as [Eb|Eb|Eb],
      (Z.compare_spec (b2z c) (b2z b + 1)) as [Ec|Ec|Ec]; try lia; try (apply b2z_inj in Eb; subst);
      split; intros Hx; destruct_and?; subst; try done; try lia.
    by destruct x.
  - rewrite <- (IH x Hd). unfold bytes_leb, bytes_ltb. simpl.
    rewrite (Z.compare_antisym (b2z b) (b2z c)).
    destruct (Z.compare_spec (b2z b) (b2z c)) as [Eb|Eb|Eb]; simpl.
    + apply b2z_inj in Eb as ->. tauto.
    + split; [intros [_ ?]; done|intros [-> ?]; lia].
    + split; [intros [? _]; done|intros [-> ?]; lia].
Qed.
