(* ===== verification/MvccMemTable.v ===== *)
(** * The in-memory multi-version table (mvcc/memtable.rs, mvcc/gc.rs)

    Committed versions and uncommitted intents live in one ordered map keyed
    by internal keys; [intents] records the transaction that owns an
    uncommitted entry.  The file models every operation of [MvccMemTable] and
    of the garbage collector, an invariant of the table and the
    specification of snapshot reads. *)

From S2P Require Import Prelude BTree StorageError Mvcc.

Record MvccMemTable : Type := mkMvccMemTable {
  mt_data : gmap bytes Version;
  mt_intents : gmap bytes Z;
}.

Definition MvccMemTable_new : MvccMemTable := mkMvccMemTable ∅ ∅.
Definition MvccMemTable_len (t : MvccMemTable) : Z := Z.of_nat (size (mt_data t)).

(** ** Writes *)

Definition MvccMemTable_put (t : MvccMemTable) (user_key value : bytes) (commit_ts : Z)
    : MvccMemTable :=
  let ik := encode_internal_key user_key commit_ts in
  mkMvccMemTable (<[ik := Version_put commit_ts value]> (mt_data t)) (delete ik (mt_intents t)).

Definition MvccMemTable_delete (t : MvccMemTable) (user_key : bytes) (commit_ts : Z)
    : MvccMemTable :=
  let ik := encode_internal_key user_key commit_ts in
  mkMvccMemTable (<[ik := Version_tombstone commit_ts]> (mt_data t)) (delete ik (mt_intents t)).

Definition MvccMemTable_put_intent (t : MvccMemTable) (user_key value : bytes) (txn : Z)
    : MvccMemTable :=
  let ik := encode_internal_key user_key u64_max in
  mkMvccMemTable (<[ik := Version_intent value]> (mt_data t)) (<[ik := txn]> (mt_intents t)).

Definition MvccMemTable_delete_intent (t : MvccMemTable) (user_key : bytes) (txn : Z)
    : MvccMemTable :=
  let ik := encode_internal_key user_key u64_max in
  mkMvccMemTable (<[ik := Version_delete_intent]> (mt_data t)) (<[ik := txn]> (mt_intents t)).

(** Collect the keys of the intents of [txn], then remove them one by one. *)
Definition MvccMemTable_abort_intents (t : MvccMemTable) (txn : Z) : MvccMemTable :=
  let keys := (filter (fun e : bytes * Z => e.2 = txn) (btree_iter (mt_intents t))).*1 in
  fold_left (fun t ik => mkMvccMemTable (delete ik (mt_data t)) (delete ik (mt_intents t))) keys t.

(** ** Reads *)

(** The loop over candidate versions: keep the visible one with the largest
    [commit_ts], the first one on a tie. *)
Definition keep_newest (best : option Version) (ver : Version) : option Version :=
  match best with
  | None => Some ver
  | Some b => if v_commit_ts ver >? v_commit_ts b then Some ver else best
  end.

Definition entry_visible (view : ReadView) (intents : gmap bytes Z) (e : bytes * Version) : bool :=
  is_visible view e.2 (intents !! e.1).

Definition newest_visible (view : ReadView) (intents : gmap bytes Z)
    (entries : list (bytes * Version)) : option Version :=
  fold_left (fun best e => if entry_visible view intents e then keep_newest best e.2 else best)
            entries None.

(** [sort_by(|a, b| b.0.cmp(a.0))] on the strictly ascending range is its
    reversal. *)
Definition MvccMemTable_get_version {E : Type} (t : MvccMemTable) (user_key : bytes) (view : ReadView)
    : outcome E (option Version) :=
  let end_ := user_key_prefix_end user_key in
  let? entries := btree_range (mt_data t) (Included user_key) (Excluded end_) in
  Ok (newest_visible view (mt_intents t) (rev entries)).

Definition live_value (v : option Version) : option bytes :=
  match v with
  | Some ver => if v_deleted ver then None else Some (v_value ver)
  | None => None
  end.

Definition MvccMemTable_get {E : Type} (t : MvccMemTable) (user_key : bytes) (view : ReadView)
    : outcome E (option bytes) :=
  let? v := MvccMemTable_get_version t user_key view in
  Ok (live_value v).

Definition MvccMemTable_get_at_ts {E : Type} (t : MvccMemTable) (user_key : bytes) (read_ts : Z)
    : outcome E (option bytes) :=
  MvccMemTable_get t user_key (ReadView_new 0 read_ts ∅).

Definition MvccMemTable_versions {E : Type} (t : MvccMemTable) (user_key : bytes)
    : outcome E (list (Z * Version)) :=
  let start := encode_internal_key user_key u64_max in
  let end_ := user_key_prefix_end user_key in
  let? entries := btree_range (mt_data t) (Included start) (Excluded end_) in
  Ok (map (fun e => (v_commit_ts e.2, e.2)) entries).

(** [scan]: the set of user keys, then one point read per key. *)
Fixpoint scan_keys {E : Type} (t : MvccMemTable) (view : ReadView) (keys : list bytes)
    : outcome E (list (bytes * bytes)) :=
  match keys with
  | [] => Ok []
  | key :: keys' =>
      let? ver := MvccMemTable_get_version t key view in
      let? rest := scan_keys t view keys' in
      Ok (match live_value ver with Some v => (key, v) :: rest | None => rest end)
  end.

Definition user_keys (t : MvccMemTable) : list bytes :=
  (btree_iter (set_to_map (fun k => (k, tt))
     (list_to_set (C := gset bytes) (map (fun e => decode_user_key e.1) (btree_iter (mt_data t)))))).*1.

Definition MvccMemTable_scan {E : Type} (t : MvccMemTable) (view : ReadView)
    : outcome E (list (bytes * bytes)) :=
  scan_keys t view (user_keys t).

Definition MvccMemTable_scan_at_ts {E : Type} (t : MvccMemTable) (read_ts : Z)
    : outcome E (list (bytes * bytes)) :=
  MvccMemTable_scan t (ReadView_new 0 read_ts ∅).

(** One step of the loop of [latest_in_range]. *)
Definition latest_step (view : ReadView) (intents : gmap bytes Z) (start end_ : bytes)
    (latest : gmap bytes Version) (e : bytes * Version) : gmap bytes Version :=
  let user := decode_user_key e.1 in
  if bytes_ltb user start || (negb (bool_decide (end_ = [])) && bytes_leb end_ user) then latest
  else if negb (entry_visible view intents e) then latest
  else
    let newer := match latest !! user with
                 | None => true
                 | Some prev => v_commit_ts e.2 >? v_commit_ts prev
                 end in
    if newer then <[user := e.2]> latest else latest.

Definition range_guard (end_ : bytes) : bound :=
  if bool_decide (end_ = []) then Unbounded else Excluded (end_ ++ replicate 9 xff).

Definition latest_in_range {E : Type} (t : MvccMemTable) (view : ReadView) (start end_ : bytes)
    : outcome E (gmap bytes Version) :=
  let? entries := btree_range (mt_data t) (Included start) (range_guard end_) in
  Ok (fold_left (latest_step view (mt_intents t) start end_) entries ∅).

Definition live_entries (latest : gmap bytes Version) : list (bytes * Version) :=
  filter (fun e => v_deleted e.2 = false) (btree_iter latest).

Definition MvccMemTable_scan_range {E : Type} (t : MvccMemTable) (view : ReadView)
    (start end_ : bytes) : outcome E (list (bytes * bytes)) :=
  let? latest := latest_in_range t view start end_ in
  Ok (map (fun e => (e.1, v_value e.2)) (live_entries latest)).

Definition MvccMemTable_scan_range_keys {E : Type} (t : MvccMemTable) (view : ReadView)
    (start end_ : bytes) : outcome E (list bytes) :=
  let? latest := latest_in_range t view start end_ in
  Ok (map fst (live_entries latest)).

(** ** Garbage collection *)

Definition prune_keeps (min_ts : Z) (ver : Version) : bool :=
  (v_commit_ts ver =? 0) || (v_commit_ts ver >=? min_ts).

Definition MvccMemTable_prune_below (t : MvccMemTable) (min_ts : Z) : MvccMemTable * Z :=
  let data' := filter (fun e => prune_keeps min_ts e.2 = true) (mt_data t) in
  let pruned := filter (fun e => prune_keeps min_ts e.2 = false) (mt_data t) in
  (mkMvccMemTable data' (filter (fun e => pruned !! e.1 = None) (mt_intents t)),
   Z.of_nat (size (mt_data t)) - Z.of_nat (size data')).

Record GcStats : Type := mkGcStats { versions_pruned : Z; gc_min_retain_ts : Z }.

Definition gc_versions (t : MvccMemTable) (min_retain_ts : Z) : MvccMemTable * GcStats :=
  let '(t', pruned) := MvccMemTable_prune_below t min_retain_ts in
  (t', mkGcStats pruned min_retain_ts).

(** ** The table invariant *)

(** Every entry sits under the internal key of some user key: a committed
    version under its own timestamp, an intent (timestamp 0) under the largest
    one, with an owner recorded in [intents], and only intents have owners. *)
Record mt_wf (t : MvccMemTable) : Prop := {
  wf_entry : forall ik v, mt_data t !! ik = Some v -> exists k ts,
    in_u 64 ts /\ ik = encode_internal_key k ts /\
    ((v_commit_ts v = ts /\ 0 < ts) \/
     (v_commit_ts v = 0 /\ ts = u64_max /\ exists txn, mt_intents t !! ik = Some txn));
  wf_intent : forall ik txn, mt_intents t !! ik = Some txn ->
    exists v, mt_data t !! ik = Some v /\ v_commit_ts v = 0;
}.

Lemma mt_wf_new : mt_wf MvccMemTable_new.
Proof. split; intros ? ? H; simpl in H; by rewrite lookup_empty in H. Qed.

(** A committed write of any version, the common part of [put] and [delete]. *)
Definition write_version (t : MvccMemTable) (k : bytes) (v : Version) : MvccMemTable :=
  let ik := encode_internal_key k (v_commit_ts v) in
  mkMvccMemTable (<[ik := v]> (mt_data t)) (delete ik (mt_intents t)).

Lemma put_write t k x ts : MvccMemTable_put t k x ts = write_version t k (Version_put ts x).
Proof. done. Qed.
Lemma delete_write t k ts : MvccMemTable_delete t k ts = write_version t k (Version_tombstone ts).
Proof. done. Qed.

Lemma mt_wf_write t k v :
  0 < v_commit_ts v < 2 ^ 64 -> mt_wf t -> mt_wf (write_version t k v).
Proof.
  intros Hts [He Hi]. set (ik := encode_internal_key k (v_commit_ts v)).
  split; intros ik' x; simpl; fold ik.
  - destruct (decide (ik' = ik)) as [->|Hne].
    + rewrite lookup_insert_eq. intros; simplify_eq. exists k, (v_commit_ts x).
      split; [lia|]. split; [done|]. left. lia.
    + rewrite lookup_insert_ne, lookup_delete_ne by done. apply He.
  - destruct (decide (ik' = ik)) as [->|Hne]; [by rewrite lookup_delete_eq|].
    rewrite lookup_insert_ne, lookup_delete_ne by done. apply Hi.
Qed.

Lemma mt_wf_put_intent t k v txn :
  v_commit_ts v = 0 -> mt_wf t ->
  let ik := encode_internal_key k u64_max in
  mt_wf (mkMvccMemTable (<[ik := v]> (mt_data t)) (<[ik := txn]> (mt_intents t))).
Proof.
  intros Hv [He Hi] ik. split; intros ik' x; simpl; destruct (decide (ik' = ik)) as [->|Hne].
  - rewrite !lookup_insert_eq. intros; simplify_eq. exists k, u64_max.
    split; [unfold u64_max; lia|]. eauto 10.
  - rewrite !lookup_insert_ne by done. apply He.
  - rewrite !lookup_insert_eq. eauto.
  - rewrite !lookup_insert_ne by done. apply Hi.
Qed.

(** Dropping the same set of keys from both maps keeps the invariant. *)
Lemma mt_wf_drop t data intents :
  mt_wf t ->
  (forall ik, data !! ik = mt_data t !! ik \/ data !! ik = None) ->
  (forall ik v, data !! ik = Some v -> intents !! ik = mt_intents t !! ik) ->
  (forall ik, data !! ik = None -> intents !! ik = None) ->
  mt_wf (mkMvccMemTable data intents).
Proof.
  intros [He Hi] Hd Hk Hn. split; simpl.
  - intros ik v H. rewrite (Hk _ _ H). destruct (Hd ik) as [E|E]; rewrite E in H; [auto|done].
  - intros ik txn H. destruct (data !! ik) as [v|] eqn:E; [|by rewrite Hn in H].
    rewrite (Hk _ _ E) in H. destruct (Hi _ _ H) as (v' & Hv & H0).
    exists v. split; [done|]. destruct (Hd ik) as [E'|E']; congruence.
Qed.

Lemma abort_intents_lookup t txn ik :
  mt_intents (MvccMemTable_abort_intents t txn) !! ik =
    (if decide (mt_intents t !! ik = Some txn) then None else mt_intents t !! ik) /\
  mt_data (MvccMemTable_abort_intents t txn) !! ik =
    (if decide (mt_intents t !! ik = Some txn) then None else mt_data t !! ik).
Proof.
  unfold MvccMemTable_abort_intents.
  set (keys := (filter _ (btree_iter (mt_intents t))).*1).
  assert (Hin : ik ∈ keys <-> mt_intents t !! ik = Some txn).
  { unfold keys. rewrite list_elem_of_fmap. split.
    - intros [[k x] [-> [Hx Hkx]%list_elem_of_filter]]. simpl in *. subst.
      by apply elem_of_btree_iter.
    - intros H. exists (ik, txn). split; [done|]. apply list_elem_of_filter.
      split; [done|]. by apply elem_of_btree_iter. }
  assert (Hf : forall l u,
    mt_intents (fold_left (fun t ik => mkMvccMemTable (delete ik (mt_data t)) (delete ik (mt_intents t))) l u) !! ik
      = (if decide (ik ∈ l) then None else mt_intents u !! ik) /\
    mt_data (fold_left (fun t ik => mkMvccMemTable (delete ik (mt_data t)) (delete ik (mt_intents t))) l u) !! ik
      = (if decide (ik ∈ l) then None else mt_data u !! ik)).
  { induction l as [|x l IH]; intros u; cbn [fold_left].
    - by rewrite decide_False by apply not_elem_of_nil.
    - destruct (IH (mkMvccMemTable (delete x (mt_data u)) (delete x (mt_intents u)))) as [-> ->].
      cbn [mt_data mt_intents]. destruct (decide (ik ∈ l)) as [Hl|Hl].
      { rewrite !decide_True by (by right). done. }
      destruct (decide (ik = x)) as [->|Hne].
      { rewrite !decide_True by (by left). by rewrite !lookup_delete_eq. }
      rewrite !decide_False by (by rewrite elem_of_cons; intros []).
      by rewrite !lookup_delete_ne. }
  destruct (Hf keys t) as [-> ->].
  destruct (decide (ik ∈ keys)) as [H|H]; rewrite Hin in H;
    [by rewrite !decide_True|by rewrite !decide_False].
Qed.

Lemma mt_wf_abort t txn : mt_wf t -> mt_wf (MvccMemTable_abort_intents t txn).
Proof.
  intros Hwf. pose proof (abort_intents_lookup t txn) as Hl.
  destruct (MvccMemTable_abort_intents t txn) as [data intents]; simpl in *.
  apply (mt_wf_drop t); [done| | |].
  - intros ik. destruct (Hl ik) as [_ ->]. case_decide; auto.
  - intros ik v. destruct (Hl ik) as [-> ->]. by case_decide.
  - intros ik. destruct (Hl ik) as [-> ->]. case_decide; [done|].
    intros Hd. destruct (mt_intents t !! ik) eqn:E; [|done].
    destruct (wf_intent _ Hwf _ _ E) as (? & ? & _). congruence.
Qed.

Lemma mt_wf_prune t min_ts : mt_wf t -> mt_wf (MvccMemTable_prune_below t min_ts).1.
Proof.
  intros Hwf. simpl. apply (mt_wf_drop t); [done| | |].
  - intros ik. rewrite map_lookup_filter. destruct (mt_data t !! ik) as [v|]; simpl; [|auto].
    case_guard; simpl; auto.
  - intros ik v [Hd Hk]%map_lookup_filter_Some. rewrite map_lookup_filter.
    destruct (mt_intents t !! ik); simpl; [|done].
    rewrite option_guard_True; [done|]. apply map_lookup_filter_None. right.
    intros v' Hv'. simpl in *. congruence.
  - intros ik Hd. rewrite map_lookup_filter. destruct (mt_intents t !! ik) eqn:E; simpl; [|done].
    destruct (wf_intent _ Hwf _ _ E) as (v & Hv & H0).
    rewrite map_lookup_filter_None in Hd. destruct Hd as [Hd|Hd]; [congruence|].
    destruct (Hd v Hv). unfold prune_keeps. simpl. by rewrite H0.
Qed.

(** Every mutating operation of the table keeps its invariant: commits at
    a valid timestamp, staged intents, aborts and garbage collection. *)
Theorem mvcc_table_invariant t k x ts txn min_ts :
  mt_wf t -> 0 < ts < 2 ^ 64 ->
  mt_wf (MvccMemTable_put t k x ts) /\ mt_wf (MvccMemTable_delete t k ts) /\
  mt_wf (MvccMemTable_put_intent t k x txn) /\ mt_wf (MvccMemTable_delete_intent t k txn) /\
  mt_wf (MvccMemTable_abort_intents t txn) /\ mt_wf (gc_versions t min_ts).1.
Proof.
  intros Hwf Hts. rewrite put_write, delete_write.
  split; [by apply mt_wf_write|]. split; [by apply mt_wf_write|].
  split; [by apply mt_wf_put_intent|]. split; [by apply mt_wf_put_intent|].
  split; [by apply mt_wf_abort|]. by apply (mt_wf_prune t min_ts).
Qed.

Lemma mvcc_table_invariant_witness :
  mt_wf (MvccMemTable_put MvccMemTable_new (bs "k") (bs "v") 1).
Proof.
  apply (mvcc_table_invariant MvccMemTable_new (bs "k") (bs "v") 1 0 0 mt_wf_new); lia.
Defined.

(** ** What a snapshot read has to return *)

(** [ik] holds version [v] and the view may see it. *)
Definition visible_at (t : MvccMemTable) (view : ReadView) (ik : bytes) (v : Version) : Prop :=
  mt_data t !! ik = Some v /\ entry_visible view (mt_intents t) (ik, v) = true.

(** [r] is the newest visible version among the internal keys in [P]. *)
Definition is_newest (t : MvccMemTable) (view : ReadView) (P : bytes -> Prop)
    (r : option Version) : Prop :=
  match r with
  | None => forall ik v, P ik -> ~ visible_at t view ik v
  | Some v =>
      (exists ik, P ik /\ visible_at t view ik v) /\
      (forall ik v', P ik -> visible_at t view ik v' -> v_commit_ts v' <= v_commit_ts v)
  end.

(** The internal keys of one user key. *)
Definition of_key (k : bytes) (ik : bytes) : Prop := decode_user_key ik = k.

#[global] Instance of_key_dec k ik : Decision (of_key k ik).
Proof. unfold of_key. apply _. Defined.

(** No internal key of another user key starts with [k]. *)
Definition unambiguous (t : MvccMemTable) (k : bytes) : Prop :=
  forall ik v, mt_data t !! ik = Some v -> (exists s, ik = k ++ s) -> of_key k ik.

Lemma newest_visible_spec view intents l :
  match newest_visible view intents l with
  | None => forall e, e ∈ l -> entry_visible view intents e = false
  | Some v =>
      (exists ik, (ik, v) ∈ l /\ entry_visible view intents (ik, v) = true) /\
      (forall e, e ∈ l -> entry_visible view intents e = true ->
         v_commit_ts e.2 <= v_commit_ts v)
  end.
Proof.
  unfold newest_visible. induction l as [|[ik v] l IH] using rev_ind.
  { intros e He. by apply not_elem_of_nil in He. }
  rewrite fold_left_app. simpl.
  set (r := fold_left _ l None) in *. destruct (entry_visible view intents (ik, v)) eqn:Ev.
  - unfold keep_newest. destruct r as [b|].
    + destruct IH as [[ik' [Hin Hvis]] Hmax].
      destruct (v_commit_ts v >? v_commit_ts b) eqn:E; bool_to_prop.
      * split; [exists ik; set_solver|]. intros e [He|He]%elem_of_app Hv.
        -- specialize (Hmax e He Hv). lia.
        -- apply list_elem_of_singleton in He as ->. simpl. lia.
      * split; [exists ik'; set_solver|]. intros e [He|He]%elem_of_app Hv; [auto|].
        apply list_elem_of_singleton in He as ->. simpl. lia.
    + split; [exists ik; set_solver|]. intros e [He|He]%elem_of_app Hv.
      * rewrite IH in Hv by done. done.
      * apply list_elem_of_singleton in He as ->. simpl. lia.
  - destruct r as [b|].
    + destruct IH as [[ik' [Hin Hvis]] Hmax]. split; [exists ik'; set_solver|].
      intros e [He|He]%elem_of_app Hv; [auto|]. apply list_elem_of_singleton in He as ->. congruence.
    + intros e [He|He]%elem_of_app; [auto|]. by apply list_elem_of_singleton in He as ->.
Qed.

(** What [get_version] computes on any table: the newest visible version over
    every internal key that starts with the user key. *)
Lemma get_version_prefix {E : Type} t k view :
  ~ all_ff k ->
  exists r, MvccMemTable_get_version (E:=E) t k view = Ok r /\
            is_newest t view (fun ik => exists s, ik = k ++ s) r.
Proof.
  intros Hk. unfold MvccMemTable_get_version.
  assert (Hlt : bytes_lt k (user_key_prefix_end k)).
  { apply (prefix_end_range k k Hk). exists []. by rewrite app_nil_r. }
  destruct (btree_range_total (E:=E) (mt_data t) (Included k) (Excluded (user_key_prefix_end k)))
    as [l Hr]; [by apply range_incl_excl_ok, bytes_lt_le|]. rewrite Hr. cbn [obind].
  apply btree_range_ok in Hr as [_ Hl]. simpl in Hl.
  eexists; split; [done|].
  pose proof (newest_visible_spec view (mt_intents t) (rev l)) as Hn.
  assert (Hmem : forall ik v, (ik, v) ∈ rev l <->
    mt_data t !! ik = Some v /\ exists s, ik = k ++ s).
  { intros ik v. rewrite list_elem_of_In, <- in_rev, <- list_elem_of_In, Hl.
    by rewrite (prefix_end_range k ik Hk). }
  destruct (newest_visible _ _ _) as [v|]; simpl.
  - destruct Hn as [[ik [Hin Hv]] Hmax]. apply Hmem in Hin as [Hd Hs].
    split; [exists ik; done|]. intros ik' v' Hs' [Hd' Hv'].
    apply (Hmax (ik', v')); [by apply Hmem|done].
  - intros ik v Hs [Hd Hv]. rewrite Hn in Hv by (by apply Hmem). done.
Qed.

Lemma is_newest_ext t view (P Q : bytes -> Prop) r :
  (forall ik v, mt_data t !! ik = Some v -> P ik <-> Q ik) ->
  is_newest t view P r -> is_newest t view Q r.
Proof.
  intros HPQ. destruct r as [v|]; simpl.
  - intros [[ik [HP [Hd Hv]]] Hmax]. split.
    + exists ik. split; [by apply (HPQ _ _ Hd)|done].
    + intros ik' v' HQ [Hd' Hv']. apply (Hmax ik'); [by apply (HPQ _ _ Hd')|done].
  - intros H ik v HQ [Hd Hv]. apply (H ik v); [by apply (HPQ _ _ Hd)|done].
Qed.

Lemma of_key_prefix t k ik v :
  mt_wf t -> mt_data t !! ik = Some v -> of_key k ik -> exists s, ik = k ++ s.
Proof.
  intros Hwf Hd <-. destruct (wf_entry _ Hwf _ _ Hd) as (k' & ts & _ & -> & _).
  rewrite decode_encode_internal_key. by eexists.
Qed.

(** The newest visible version of a key is unique: its timestamp determines
    the internal key it is stored under. *)
Lemma is_newest_unique t view k r1 r2 :
  mt_wf t -> is_newest t view (of_key k) r1 -> is_newest t view (of_key k) r2 -> r1 = r2.
Proof.
  intros Hwf H1 H2.
  assert (Hik : forall ik v, of_key k ik -> visible_at t view ik v ->
    ik = encode_internal_key k (if v_commit_ts v =? 0 then u64_max else v_commit_ts v)).
  { intros ik v Hk [Hd _]. unfold of_key in Hk.
    destruct (wf_entry _ Hwf _ _ Hd) as (k' & ts & _ & -> & Hts).
    rewrite decode_encode_internal_key in Hk. subst k'. f_equal.
    destruct Hts as [[-> ?]|[-> [-> _]]]; [|done]. by rewrite (proj2 (Z.eqb_neq _ 0)) by lia. }
  destruct r1 as [v1|], r2 as [v2|]; simpl in *; [| | |done].
  - destruct H1 as [[i1 [Hk1 Hv1]] Hm1], H2 as [[i2 [Hk2 Hv2]] Hm2].
    pose proof (Hm1 _ _ Hk2 Hv2). pose proof (Hm2 _ _ Hk1 Hv1).
    assert (v_commit_ts v1 = v_commit_ts v2) as Hts by lia.
    pose proof (Hik _ _ Hk1 Hv1) as E1. pose proof (Hik _ _ Hk2 Hv2) as E2.
    rewrite Hts in E1. destruct Hv1 as [Hd1 _], Hv2 as [Hd2 _]. congruence.
  - destruct H1 as [[i1 [Hk1 Hv1]] _]. by destruct (H2 _ _ Hk1 Hv1).
  - destruct H2 as [[i2 [Hk2 Hv2]] _]. by destruct (H1 _ _ Hk2 Hv2).
Qed.

Lemma get_version_newest t k view :
  mt_wf t -> ~ all_ff k -> unambiguous t k ->
  exists r, MvccMemTable_get_version (E:=StorageError) t k view = Ok r /\
            is_newest t view (of_key k) r.
Proof.
  intros Hwf Hk Hu. destruct (get_version_prefix (E:=StorageError) t k view Hk) as (r & Hr & Hn).
  exists r. split; [done|]. eapply is_newest_ext; [|done].
  intros ik v Hd. split; [by apply (Hu _ _ Hd)|]. by apply (of_key_prefix t k ik v).
Qed.

(** A snapshot point read returns the newest version of the key that is
    visible to the view, which is unique, provided no internal key of another
    user key starts with the key, and the key is not made of 255 bytes only; it
    then never panics.  [get] returns its value, or nothing for a tombstone. *)
Theorem get_version_correct t k view :
  mt_wf t -> ~ all_ff k -> unambiguous t k ->
  exists r, MvccMemTable_get_version (E:=StorageError) t k view = Ok r /\
    MvccMemTable_get (E:=StorageError) t k view = Ok (live_value r) /\
    forall r', is_newest t view (of_key k) r' <-> r' = r.
Proof.
  intros Hwf Hk Hu. destruct (get_version_newest t k view Hwf Hk Hu) as (r & Hr & Hn).
  exists r. split; [done|]. split; [unfold MvccMemTable_get; by rewrite Hr|].
  intros r'. split; [|by intros ->]. intros Hn'. by eapply is_newest_unique.
Qed.

(** User keys of one length cannot be confused: the common sufficient
    condition for [unambiguous]. *)
Lemma unambiguous_same_length t k :
  mt_wf t -> (forall ik v, mt_data t !! ik = Some v -> length ik = (length k + 8)%nat) ->
  unambiguous t k.
Proof.
  intros Hwf Hlen ik v Hd [s ->]. specialize (Hlen _ _ Hd). rewrite length_app in Hlen.
  unfold of_key, decode_user_key. rewrite length_app.
  replace (length k + length s - 8)%nat with (length k) by lia. apply take_app_length.
Qed.

Definition demo_table : MvccMemTable :=
  MvccMemTable_delete (MvccMemTable_put (MvccMemTable_put MvccMemTable_new
    (bs "k") (bs "v1") 1) (bs "k") (bs "v2") 5) (bs "k") 9.

Lemma get_version_correct_witness :
  exists r, MvccMemTable_get_version (E:=StorageError) demo_table (bs "k") (ReadView_new 0 7 ∅) = Ok r /\
    MvccMemTable_get (E:=StorageError) demo_table (bs "k") (ReadView_new 0 7 ∅) = Ok (live_value r) /\
    forall r', is_newest demo_table (ReadView_new 0 7 ∅) (of_key (bs "k")) r' <-> r' = r.
Proof.
  assert (Hwf : mt_wf demo_table)
    by (unfold demo_table; rewrite !put_write, delete_write;
        repeat (apply mt_wf_write; [simpl; lia|]); apply mt_wf_new).
  apply get_version_correct; [exact Hwf | by apply not_all_ff |].
  apply unambiguous_same_length; [exact Hwf|].
  assert (Hall : map_Forall (fun ik _ => length ik = 9%nat) (mt_data demo_table))
    by (apply (bool_decide_unpack _); vm_compute; exact I).
  intros ik v Hd. exact (Hall ik v Hd).
Defined.

Example demo_table_reads :
  map (fun ts => MvccMemTable_get_at_ts (E:=StorageError) demo_table (bs "k") ts) [0; 1; 7; 9] =
  [Ok None; Ok (Some (bs "v1")); Ok (Some (bs "v2")); Ok None].
Proof. vm_compute. reflexivity. Qed.

(** ** Tables that look the same to a view

    A read only depends on the set of entries its view can see: the tables
    that agree on it are equivalent, and the read operations are compatible
    with that equivalence. *)

Definition same_visible (view : ReadView) (t1 t2 : MvccMemTable) : Prop :=
  forall ik v, visible_at t1 view ik v <-> visible_at t2 view ik v.

#[global] Instance same_visible_equiv view : Equivalence (same_visible view).
Proof.
  split; [by intros ? ? ?|by intros ? ? H ik v; symmetry; apply H|].
  intros t1 t2 t3 H12 H23 ik v. by rewrite (H12 ik v).
Qed.

Definition visible_entries (view : ReadView) (intents : gmap bytes Z)
    (l : list (bytes * Version)) : list (bytes * Version) :=
  filter (fun e => entry_visible view intents e = true) l.

Lemma filter_rev {A} (P : A -> Prop) `{!forall x, Decision (P x)} (l : list A) :
  filter P (rev l) = rev (filter P l).
Proof.
  induction l as [|x l IH]; [done|]. simpl. rewrite filter_app, IH, !filter_cons, filter_nil.
  case_decide; simpl; [done|]. by rewrite app_nil_r.
Qed.

Lemma newest_visible_filter view intents l :
  newest_visible view intents l =
  fold_left (fun best e => keep_newest best e.2) (visible_entries view intents l) None.
Proof.
  unfold newest_visible, visible_entries. generalize (@None Version).
  induction l as [|e l IH]; intros b; [done|]. rewrite filter_cons. simpl.
  case_decide as Hd; simpl.
  - rewrite Hd. apply IH.
  - apply not_true_is_false in Hd. rewrite Hd. apply IH.
Qed.

Lemma get_version_same_visible {E : Type} view t1 t2 k :
  same_visible view t1 t2 ->
  MvccMemTable_get_version (E:=E) t1 k view = MvccMemTable_get_version t2 k view.
Proof.
  intros Heq. unfold MvccMemTable_get_version, btree_range. case_test; [done|].
  cbn [obind]. f_equal. rewrite !newest_visible_filter. unfold visible_entries.
  rewrite !filter_rev. do 2 f_equal. apply sorted_ext.
  1, 2: by repeat apply StronglySorted_filter; apply btree_iter_sorted.
  intros [ik v]. specialize (Heq ik v). unfold visible_at in Heq.
  rewrite !list_elem_of_filter, !elem_of_btree_iter. tauto.
Qed.

#[global] Instance get_version_proper (E : Type) k view :
  Proper (same_visible view ==> eq) (fun t => MvccMemTable_get_version (E:=E) t k view).
Proof. intros t1 t2. apply get_version_same_visible. Qed.

#[global] Instance get_proper (E : Type) k view :
  Proper (same_visible view ==> eq) (fun t => MvccMemTable_get (E:=E) t k view).
Proof.
  intros t1 t2 H. unfold MvccMemTable_get. by rewrite (get_version_same_visible view t1 t2).
Qed.

(** A commit above the snapshot is invisible to it. *)
Lemma write_above_snapshot view t k v :
  mt_wf t -> snapshot_ts view < v_commit_ts v -> 0 < v_commit_ts v < u64_max ->
  same_visible view (write_version t k v) t.
Proof.
  intros Hwf Hsnap Hts ik x. unfold visible_at, write_version, entry_visible. simpl.
  set (ik0 := encode_internal_key k (v_commit_ts v)).
  destruct (decide (ik = ik0)) as [->|Hne];
    [|by rewrite lookup_insert_ne, lookup_delete_ne].
  rewrite lookup_insert_eq, lookup_delete_eq.
  assert (Hinv : forall u w, v_commit_ts u = v_commit_ts v -> is_visible view u w = false).
  { intros u w Hu. unfold is_visible. rewrite Hu.
    rewrite (proj2 (Z.eqb_neq _ 0)) by lia. by rewrite Z.gtb_ltb, (proj2 (Z.ltb_lt _ _)). }
  split; intros [Hd Hv].
  - simplify_eq. by rewrite Hinv in Hv.
  - destruct (wf_entry _ Hwf _ _ Hd) as (k' & ts & Hr & Hik & [[Hx _]|[_ [Hx _]]]);
      apply encode_internal_key_inj in Hik as [_ Hik]; try (unfold u64_max in *; lia).
    by rewrite Hinv in Hv by congruence.
Qed.

(** ** Reading a committed write back *)

Lemma write_visible view t k v :
  0 < v_commit_ts v -> v_commit_ts v <= snapshot_ts view ->
  visible_at (write_version t k v) view (encode_internal_key k (v_commit_ts v)) v.
Proof.
  intros H0 Hs. unfold visible_at, write_version, entry_visible; simpl.
  rewrite lookup_insert_eq, lookup_delete_eq. split; [done|]. unfold is_visible.
  rewrite (proj2 (Z.eqb_neq _ 0)) by lia.
  by rewrite Z.gtb_ltb, (proj2 (Z.ltb_ge _ _)) by lia.
Qed.

(** Every stored timestamp is below [ts]. *)
Definition all_below (t : MvccMemTable) (ts : Z) : Prop :=
  forall ik v, mt_data t !! ik = Some v -> v_commit_ts v < ts.

Lemma get_version_write {E : Type} view t k s v :
  ~ all_ff k -> 0 < v_commit_ts v <= snapshot_ts view -> all_below t (v_commit_ts v) ->
  MvccMemTable_get_version (E:=E) (write_version t (k ++ s) v) k view = Ok (Some v).
Proof.
  intros Hk Hts Hlt. set (t' := write_version t (k ++ s) v).
  destruct (get_version_prefix (E:=E) t' k view Hk) as (r & -> & Hn). do 2 f_equal.
  pose proof (write_visible view t (k ++ s) v ltac:(lia) ltac:(lia)) as Hvis. fold t' in Hvis.
  set (ik := encode_internal_key (k ++ s) (v_commit_ts v)) in *.
  assert (Hpre : exists z, ik = k ++ z).
  { unfold ik, encode_internal_key. rewrite <- app_assoc. by eexists. }
  destruct r as [x|]; simpl in Hn; [|by destruct (Hn _ _ Hpre Hvis)].
  destruct Hn as [[ik' [_ [Hd' _]]] Hmax]. specialize (Hmax _ _ Hpre Hvis).
  unfold t', write_version in Hd'. simpl in Hd'. fold ik in Hd'.
  destruct (decide (ik' = ik)) as [->|Hne]; [rewrite lookup_insert_eq in Hd'; congruence|].
  rewrite lookup_insert_ne in Hd' by done. specialize (Hlt _ _ Hd'). lia.
Qed.

(** A value committed at a timestamp above every stored one is what
    [get] returns for that key at every snapshot from that timestamp on. *)
Theorem get_after_put view t k x ts :
  ~ all_ff k -> 0 < ts <= snapshot_ts view -> all_below t ts ->
  MvccMemTable_get (E:=StorageError) (MvccMemTable_put t k x ts) k view = Ok (Some x) /\
  MvccMemTable_get (E:=StorageError) (MvccMemTable_delete t k ts) k view = Ok None.
Proof.
  intros Hk Hts Hlt. rewrite put_write, delete_write. unfold MvccMemTable_get.
  rewrite <- (app_nil_r k) at 1 3. by rewrite !get_version_write.
Qed.

Lemma get_after_put_witness :
  MvccMemTable_get (E:=StorageError) (MvccMemTable_put demo_table (bs "k") (bs "v4") 12)
    (bs "k") (ReadView_new 3 20 ∅) = Ok (Some (bs "v4")).
Proof.
  refine (proj1 (get_after_put (ReadView_new 3 20 ∅) demo_table (bs "k") (bs "v4") 12 _ _ _));
    [by apply not_all_ff | simpl; lia |].
  assert (Hall : map_Forall (fun _ v => v_commit_ts v < 12) (mt_data demo_table))
    by (apply (bool_decide_unpack _); vm_compute; exact I).
  intros ik v Hd. exact (Hall ik v Hd).
Defined.

(** The scan window of a point read is a prefix window and its loop does
    not compare the decoded user key: committing a longer key [k ++ s] makes
    [get] of [k] return the longer key's value.  The LSM read path filters
    these entries; this table does not. *)
Theorem get_returns_extension_of_key view t k s x ts :
  ~ all_ff k -> 0 < ts <= snapshot_ts view -> all_below t ts ->
  MvccMemTable_get (E:=StorageError) (MvccMemTable_put t (k ++ s) x ts) k view = Ok (Some x).
Proof.
  intros Hk Hts Hlt. rewrite put_write. unfold MvccMemTable_get. by rewrite get_version_write.
Qed.

Lemma get_returns_extension_of_key_witness :
  MvccMemTable_get (E:=StorageError) (MvccMemTable_put MvccMemTable_new (bs "user:1" ++ bs "0") (bs "x") 1)
    (bs "user:1") (ReadView_new 0 5 ∅) = Ok (Some (bs "x")).
Proof.
  apply (get_returns_extension_of_key (ReadView_new 0 5 ∅) MvccMemTable_new (bs "user:1") (bs "0") (bs "x") 1);
    [by apply not_all_ff | simpl; lia |].
  intros ik v Hd. simpl in Hd. by rewrite lookup_empty in Hd.
Defined.

(** A key made of 255 bytes only has the empty string as its upper bound,
    an inverted range: reading it panics, whatever the table holds. *)
Theorem get_panics_on_ff_key t k view :
  all_ff k -> k <> [] -> MvccMemTable_get (E:=StorageError) t k view = Panic.
Proof.
  intros Hk Hne. unfold MvccMemTable_get, MvccMemTable_get_version.
  rewrite prefix_end_all_ff by done. unfold btree_range. simpl.
  destruct k; [done|]. done.
Qed.

Lemma get_panics_on_ff_key_witness :
  MvccMemTable_get (E:=StorageError) MvccMemTable_new [xff; xff] (ReadView_new 0 5 ∅) = Panic.
Proof.
  apply get_panics_on_ff_key; [|done]. repeat constructor.
Defined.

(** ** Range scans *)

(** The map the loop of [latest_in_range] builds. *)
Definition in_window (start end_ user : bytes) : bool :=
  negb (bytes_ltb user start || (negb (bool_decide (end_ = [])) && bytes_leb end_ user)).

Lemma latest_step_lookup view intents start end_ m e user :
  latest_step view intents start end_ m e !! user =
  if bool_decide (of_key user e.1) && in_window start end_ user && entry_visible view intents e
  then keep_newest (m !! user) e.2 else m !! user.
Proof.
  unfold latest_step, in_window. destruct (bool_decide (of_key user e.1)) eqn:Hu; bool_to_prop; simpl.
  - unfold of_key in Hu. subst user. destruct (bytes_ltb _ start || _); simpl; [done|].
    destruct (entry_visible view intents e); simpl; [|done]. unfold keep_newest.
    destruct (m !! _) as [b|] eqn:Em; [|by rewrite lookup_insert_eq].
    destruct (v_commit_ts e.2 >? v_commit_ts b); [by rewrite lookup_insert_eq|done].
  - repeat case_test; try done; by rewrite lookup_insert_ne.
Qed.

Lemma latest_fold_lookup view intents start end_ l user :
  fold_left (latest_step view intents start end_) l ∅ !! user =
  if in_window start end_ user
  then newest_visible view intents (filter (fun e => of_key user e.1) l) else None.
Proof.
  rewrite newest_visible_filter. unfold visible_entries.
  assert (Hgen : forall m, fold_left (latest_step view intents start end_) l m !! user =
    if in_window start end_ user
    then fold_left (fun best e => keep_newest best e.2)
           (filter (fun e => entry_visible view intents e = true)
              (filter (fun e => of_key user e.1) l)) (m !! user)
    else m !! user); [|rewrite Hgen, lookup_empty; done].
  induction l as [|e l IH]; intros m; [by case_test|].
  cbn [fold_left]. rewrite IH, latest_step_lookup, !filter_cons.
  destruct (in_window start end_ user); [|by rewrite andb_false_r].
  rewrite andb_true_r. case_decide as Hk.
  - rewrite bool_decide_true by done. rewrite filter_cons. simpl.
    case_decide as Hv; [by rewrite Hv|]. apply not_true_is_false in Hv. by rewrite Hv.
  - by rewrite bool_decide_false.
Qed.

(** The entries of [l] are those of the table whose internal keys are in the
    scanned window [P], which contains every internal key of [user]. *)
Lemma newest_of_key t view P l user :
  (forall ik v, (ik, v) ∈ l <-> mt_data t !! ik = Some v /\ P ik) ->
  (forall ik v, mt_data t !! ik = Some v -> of_key user ik -> P ik) ->
  is_newest t view (of_key user)
    (newest_visible view (mt_intents t) (filter (fun e => of_key user e.1) l)).
Proof.
  intros Hl HP. pose proof (newest_visible_spec view (mt_intents t)
    (filter (fun e => of_key user e.1) l)) as Hn.
  assert (Hm : forall ik v, (ik, v) ∈ filter (fun e => of_key user e.1) l <->
    of_key user ik /\ mt_data t !! ik = Some v).
  { intros ik v. rewrite list_elem_of_filter, Hl. simpl.
    specialize (HP ik v). tauto. }
  destruct (newest_visible _ _ _) as [v|]; simpl.
  - destruct Hn as [[ik [Hin Hv]] Hmax]. apply Hm in Hin as [Hk Hd].
    split; [by exists ik|]. intros ik' v' Hk' [Hd' Hv']. by apply (Hmax (ik', v')); [apply Hm|].
  - intros ik v Hk [Hd Hv]. rewrite Hn in Hv by (by apply Hm). done.
Qed.

(** Turning the map into the returned rows. *)
Lemma live_entries_spec latest :
  let rows := map (fun e : bytes * Version => (e.1, v_value e.2)) (live_entries latest) in
  StronglySorted entry_lt rows /\
  forall k x, (k, x) ∈ rows <-> exists v, latest !! k = Some v /\ live_value (Some v) = Some x.
Proof.
  intros rows. unfold rows, live_entries. split.
  - assert (Hs : StronglySorted entry_lt
      (filter (fun e => v_deleted e.2 = false) (btree_iter latest)))
      by apply StronglySorted_filter, btree_iter_sorted.
    revert Hs. generalize (filter (fun e => v_deleted e.2 = false) (btree_iter latest)).
    induction 1 as [|e l _ IH Hall]; simpl; constructor; [done|].
    rewrite Forall_map. rewrite Forall_forall in Hall |- *. exact Hall.
  - intros k x. rewrite list_elem_of_fmap. split.
    + intros [[k' v] [Heq [Hd Hin]%list_elem_of_filter]]. simpl in *. simplify_eq.
      apply elem_of_btree_iter in Hin. exists v. by rewrite Hd.
    + intros [v [Hv Hl]]. exists (k, v). simpl in *. destruct (v_deleted v) eqn:Hd; [done|].
      simplify_eq. split; [done|]. apply list_elem_of_filter. by rewrite elem_of_btree_iter.
Qed.

Lemma in_window_prefix p k :
  ~ all_ff p -> in_window p (user_key_prefix_end p) k = true <-> exists s, k = p ++ s.
Proof.
  intros Hp. rewrite <- (prefix_end_range p k Hp). unfold in_window.
  rewrite bool_decide_false by (by apply prefix_end_nonempty). simpl.
  rewrite negb_orb, andb_true_iff, <- bytes_leb_ltb, <- bytes_ltb_leb. done.
Qed.

(** A prefix scan, the way tables are scanned ([start] a prefix and [end]
    its [prefix_end]): [scan_range] returns, in ascending key order, exactly
    the user keys that extend the prefix and whose newest visible version is
    not a tombstone, each with that version's value. *)
Theorem scan_range_prefix t view p :
  mt_wf t -> ~ all_ff p ->
  exists l, MvccMemTable_scan_range (E:=StorageError) t view p (user_key_prefix_end p) = Ok l /\
    StronglySorted entry_lt l /\
    forall k x, (k, x) ∈ l <->
      (exists s, k = p ++ s) /\
      exists v, is_newest t view (of_key k) (Some v) /\ live_value (Some v) = Some x.
Proof.
  intros Hwf Hp. unfold MvccMemTable_scan_range, latest_in_range.
  set (e := user_key_prefix_end p).
  assert (He : e <> []) by (by apply prefix_end_nonempty).
  assert (Hpe : bytes_lt p e)
    by (apply (prefix_end_range p p Hp); exists []; by rewrite app_nil_r).
  unfold range_guard. rewrite bool_decide_false by done.
  destruct (btree_range_total (E:=StorageError) (mt_data t) (Included p)
    (Excluded (e ++ replicate 9 xff))) as [l Hr].
  { apply range_incl_excl_ok. eapply bytes_le_trans; [by apply bytes_lt_le|apply bytes_le_app]. }
  rewrite Hr. cbn [obind]. apply btree_range_ok in Hr as [_ Hl].
  eexists; split; [done|].
  destruct (live_entries_spec (fold_left (latest_step view (mt_intents t) p e) l ∅)) as [Hs Hm].
  split; [exact Hs|]. intros k x. rewrite Hm. clear Hs Hm.
  rewrite latest_fold_lookup, <- (in_window_prefix p k Hp). fold e.
  destruct (in_window p e k) eqn:Hw; [|naive_solver].
  pose proof (proj1 (in_window_prefix p k Hp) Hw) as [s Hk].
  assert (Hn : is_newest t view (of_key k)
    (newest_visible view (mt_intents t) (filter (fun e => of_key k e.1) l))).
  { apply (newest_of_key t view _ l k Hl). intros ik v Hd Hik.
    destruct (of_key_prefix t k ik v Hwf Hd Hik) as [s' ->]. subst k. rewrite <- app_assoc.
    destruct (proj2 (prefix_end_range p (p ++ s ++ s') Hp)) as [Hge Hlt]; [by eexists|].
    split; [done|]. eapply bytes_lt_le_trans; [exact Hlt|apply bytes_le_app]. }
  split.
  - intros [v [Hv Hx]]. rewrite Hv in Hn. split; [done|]. by exists v.
  - intros [_ [v [Hv Hx]]]. exists v. split; [|done]. by apply (is_newest_unique t view k).
Qed.

Lemma scan_range_prefix_witness :
  exists l, MvccMemTable_scan_range (E:=StorageError) demo_table (ReadView_new 0 7 ∅)
    (bs "k") (user_key_prefix_end (bs "k")) = Ok l /\ (bs "k", bs "v2") ∈ l.
Proof.
  assert (Hwf : mt_wf demo_table)
    by (unfold demo_table; rewrite !put_write, delete_write;
        repeat (apply mt_wf_write; [simpl; lia|]); apply mt_wf_new).
  destruct (scan_range_prefix demo_table (ReadView_new 0 7 ∅) (bs "k") Hwf
    (not_all_ff (bs "k") eq_refl)) as (l & Hl & _ & _).
  exists l. split; [exact Hl|]. vm_compute in Hl. simplify_eq. left.
Defined.

(** For an arbitrary interval the 9-byte guard above [end] does not cover
    the versions of keys that are proper prefixes of [end]: a live key inside
    the interval is missing from the scan. *)
Theorem scan_range_misses_prefix_of_end :
  exists t view,
    mt_wf t /\ in_window (bs "a") (bs "ab") (bs "a") = true /\
    MvccMemTable_get (E:=StorageError) t (bs "a") view = Ok (Some (bs "v")) /\
    MvccMemTable_scan_range (E:=StorageError) t view (bs "a") (bs "ab") = Ok [].
Proof.
  exists (MvccMemTable_put MvccMemTable_new (bs "a") (bs "v") 1), (ReadView_new 0 5 ∅).
  split; [rewrite put_write; apply mt_wf_write; [simpl; lia|apply mt_wf_new]|].
  split; [done|]. split; vm_compute; reflexivity.
Qed.

(** ** Garbage collection *)

Lemma prune_visible_at t min_ts view ik v :
  mt_wf t ->
  visible_at (MvccMemTable_prune_below t min_ts).1 view ik v <->
  visible_at t view ik v /\ prune_keeps min_ts v = true.
Proof.
  intros Hwf. unfold visible_at, MvccMemTable_prune_below, entry_visible; simpl.
  rewrite map_lookup_filter_Some. simpl.
  assert (Hi : mt_data t !! ik = Some v -> prune_keeps min_ts v = true ->
    filter (fun e => filter (fun e0 => prune_keeps min_ts e0.2 = false) (mt_data t) !! e.1 = None)
      (mt_intents t) !! ik = mt_intents t !! ik).
  { intros Hd Hk. rewrite map_lookup_filter. destruct (mt_intents t !! ik) as [w|]; simpl; [|done].
    rewrite option_guard_True; [done|]. apply map_lookup_filter_None. right.
    intros x Hx. simpl. congruence. }
  split.
  - intros [[Hd Hk] Hv]. rewrite Hi in Hv by done. done.
  - intros [[Hd Hv] Hk]. by rewrite Hi.
Qed.

(** What a snapshot reads after garbage collection below [min_ts] in a
    table without intents: the version it read before when that one is not
    older than [min_ts], and nothing at all otherwise - also when the dropped
    version is the only, latest version of its key and the snapshot is newer
    than [min_ts]. *)
Theorem gc_read_exact t k view min_ts r :
  mt_wf t -> mt_intents t = ∅ -> ~ all_ff k -> unambiguous t k ->
  MvccMemTable_get_version (E:=StorageError) t k view = Ok r ->
  MvccMemTable_get_version (E:=StorageError) (gc_versions t min_ts).1 k view =
    Ok (match r with
        | Some v => if v_commit_ts v >=? min_ts then Some v else None
        | None => None
        end).
Proof.
  intros Hwf Hni Hk Hu Hr.
  change (gc_versions t min_ts).1 with (MvccMemTable_prune_below t min_ts).1.
  set (t' := (MvccMemTable_prune_below t min_ts).1).
  assert (Hwf' : mt_wf t') by (by apply mt_wf_prune).
  assert (Hu' : unambiguous t' k).
  { intros ik v Hd. apply (Hu ik v). simpl in Hd. by apply map_lookup_filter_Some in Hd as [? _]. }
  assert (Hpos : forall ik v, visible_at t view ik v -> v_commit_ts v <> 0).
  { intros ik v [Hd _] H0. destruct (wf_entry _ Hwf _ _ Hd) as (? & ? & _ & _ & [?|(_ & _ & w & Hw)]);
      [lia|]. by rewrite Hni, lookup_empty in Hw. }
  assert (Hvis : forall ik v, visible_at t' view ik v <-> visible_at t view ik v /\ min_ts <= v_commit_ts v).
  { intros ik v. unfold t'. rewrite prune_visible_at by done. unfold prune_keeps.
    split; intros [Hv Hp]; (split; [done|]); specialize (Hpos _ _ Hv).
    - rewrite (proj2 (Z.eqb_neq _ 0)) in Hp by done. simpl in Hp. by bool_to_prop.
    - rewrite (proj2 (Z.geb_le _ _)) by done. apply orb_true_r. }
  destruct (get_version_newest t k view Hwf Hk Hu) as (r0 & Hr0 & Hn). rewrite Hr in Hr0. simplify_eq.
  destruct (get_version_newest t' k view Hwf' Hk Hu') as (r' & -> & Hn'). f_equal.
  apply (is_newest_unique t' view k); [done|done|].
  destruct r0 as [v|]; simpl in Hn.
  - destruct Hn as [[ik [Hik Hv]] Hmax].
    destruct (v_commit_ts v >=? min_ts) eqn:Hkeep; bool_to_prop; simpl.
    + split; [exists ik; split; [done|by apply Hvis]|].
      intros ik' v' Hik' [Hv' _]%Hvis. by apply (Hmax ik').
    + intros ik' v' Hik' [Hv' Hge]%Hvis. specialize (Hmax _ _ Hik' Hv'). lia.
  - intros ik v Hik [Hv _]%Hvis. by apply (Hn ik v).
Qed.

Definition gc_table : MvccMemTable := MvccMemTable_put MvccMemTable_new (bs "k") (bs "v") 1.

Lemma gc_read_exact_witness :
  MvccMemTable_get_version (E:=StorageError) gc_table (bs "k") (ReadView_new 0 9 ∅)
    = Ok (Some (Version_put 1 (bs "v"))) /\
  MvccMemTable_get_version (E:=StorageError) (gc_versions gc_table 5).1 (bs "k") (ReadView_new 0 9 ∅)
    = Ok None.
Proof.
  assert (Hr : MvccMemTable_get_version (E:=StorageError) gc_table (bs "k") (ReadView_new 0 9 ∅)
    = Ok (Some (Version_put 1 (bs "v")))) by (vm_compute; reflexivity).
  assert (Hwf : mt_wf gc_table)
    by (unfold gc_table; rewrite put_write; apply mt_wf_write; [simpl; lia|apply mt_wf_new]).
  split; [exact Hr|].
  refine (gc_read_exact gc_table (bs "k") (ReadView_new 0 9 ∅) 5 _ Hwf _ _ _ Hr);
    [vm_compute; reflexivity | by apply not_all_ff |].
  assert (Hall : map_Forall (fun ik _ => length ik = 9%nat) (mt_data gc_table))
    by (apply (bool_decide_unpack _); vm_compute; exact I).
  apply unambiguous_same_length; [exact Hwf|]. intros ik v Hd. exact (Hall ik v Hd).
Defined.
