(* ===== verification/Txn.v ===== *)
(** * Transactions, conflict checking and deadlock detection (crates/noedb-txn)

    [error.rs], [transaction.rs], [ssi.rs] and [deadlock.rs].  A reading of
    [Instant::now()] is an argument (milliseconds on a monotonic clock), and
    [duration_since] saturates at zero. *)

From S2P Require Import Prelude BTree StorageError Mvcc.

(** ** error.rs *)

Inductive TxnError : Type :=
| NoActiveTxn
| TxnAlreadyActive
| SerializationFailure (msg : string)
| DeadlockVictim
| WaitTimeout
| TxnStorage (msg : string).

#[global] Instance TxnError_eq_dec : EqDecision TxnError.
Proof. solve_decision. Defined.

(** ** transaction.rs *)

Inductive WriteOp : Type :=
| WPut (v : bytes)
| WDelete.

#[global] Instance WriteOp_eq_dec : EqDecision WriteOp.
Proof. solve_decision. Defined.

Inductive TxnState : Type := TActive | TCommitted | TAborted.

#[global] Instance TxnState_eq_dec : EqDecision TxnState.
Proof. solve_decision. Defined.

Record Transaction : Type := mkTransaction {
  tx_id : Z;
  tx_start_ts : Z;
  tx_read_set : gset bytes;
  tx_write_set : gmap bytes WriteOp;
  tx_state : TxnState;
  tx_started_at : Z;
  tx_waiting_on : option bytes;
}.

Definition Transaction_new (id start_ts now : Z) : Transaction :=
  mkTransaction id start_ts ∅ ∅ TActive now None.

Definition Transaction_record_read (t : Transaction) (key : bytes) : Transaction :=
  mkTransaction (tx_id t) (tx_start_ts t) ({[key]} ∪ tx_read_set t) (tx_write_set t)
    (tx_state t) (tx_started_at t) (tx_waiting_on t).

Definition set_write (t : Transaction) (key : bytes) (op : WriteOp) : Transaction :=
  mkTransaction (tx_id t) (tx_start_ts t) (tx_read_set t) (<[key := op]> (tx_write_set t))
    (tx_state t) (tx_started_at t) (tx_waiting_on t).

Definition Transaction_put (t : Transaction) (key value : bytes) : Transaction :=
  set_write t key (WPut value).
Definition Transaction_delete (t : Transaction) (key : bytes) : Transaction :=
  set_write t key WDelete.

Definition Transaction_read_own (t : Transaction) (key : bytes) : option (option bytes) :=
  match tx_write_set t !! key with
  | None => None
  | Some (WPut v) => Some (Some v)
  | Some WDelete => Some None
  end.

(** ** ssi.rs *)

Inductive SsiDecision : Type := Allow | SsiAbort (msg : string).

Record SsiChecker : Type := mkSsiChecker {
  rw_edges : gmap Z (gset Z);
  write_keys : gmap Z (gset bytes);
}.

Definition SsiChecker_default : SsiChecker := mkSsiChecker ∅ ∅.

Definition SsiChecker_register_commit (s : SsiChecker) (id : Z) (keys : gset bytes) : SsiChecker :=
  mkSsiChecker (rw_edges s) (<[id := keys]> (write_keys s)).

Definition SsiChecker_note_rw_dependency (s : SsiChecker) (reader writer : Z) : SsiChecker :=
  if reader =? writer then s
  else mkSsiChecker
         (<[reader := {[writer]} ∪ default ∅ (rw_edges s !! reader)]> (rw_edges s))
         (write_keys s).

Definition msg_wr_conflict : string := "write-read conflict on overlapping key".
Definition msg_rw_cycle : string := "rw-cycle detected (SSI)".

Definition SsiChecker_check_commit (s : SsiChecker) (txn : Transaction) : SsiDecision :=
  let my_writes : gset bytes := dom (tx_write_set txn) in
  if existsb (fun e : Z * gset bytes =>
       negb (e.1 =? tx_id txn) &&
       existsb (fun k => bool_decide (k ∈ tx_read_set txn) && bool_decide (k ∈ my_writes))
               (elements e.2))
     (btree_iter (write_keys s))
  then SsiAbort msg_wr_conflict
  else match rw_edges s !! tx_id txn with
       | Some out =>
           if existsb (fun pred => match rw_edges s !! pred with
                                   | Some w => bool_decide (tx_id txn ∈ w)
                                   | None => false
                                   end) (elements out)
           then SsiAbort msg_rw_cycle else Allow
       | None => Allow
       end.

(** [retain] removes the transaction from every edge set and drops the sets
    that become empty. *)
Definition SsiChecker_purge (s : SsiChecker) (id : Z) : SsiChecker :=
  mkSsiChecker
    (omap (fun writers : gset Z =>
             let w := writers ∖ {[id]} in if bool_decide (w = ∅) then None else Some w)
          (delete id (rw_edges s)))
    (delete id (write_keys s)).

(** ** deadlock.rs *)

Record DeadlockPolicy : Type := mkDeadlockPolicy { check_interval : Z; wait_timeout : Z }.
Definition DeadlockPolicy_default : DeadlockPolicy := mkDeadlockPolicy 100 5000.

Record DeadlockGuard : Type := mkDeadlockGuard {
  dg_waits : gmap Z Z;
  dg_policy : DeadlockPolicy;
  dg_last_check : option Z;
}.

Definition DeadlockGuard_new : DeadlockGuard := mkDeadlockGuard ∅ DeadlockPolicy_default None.

Definition DeadlockGuard_record_wait (g : DeadlockGuard) (waiter holder : Z) : DeadlockGuard :=
  mkDeadlockGuard (<[waiter := holder]> (dg_waits g)) (dg_policy g) (dg_last_check g).

Definition DeadlockGuard_clear (g : DeadlockGuard) (id : Z) : DeadlockGuard :=
  mkDeadlockGuard (filter (fun e => e.2 <> id) (delete id (dg_waits g)))
    (dg_policy g) (dg_last_check g).

(** The inner [while let Some(cur) = stack.pop()] loop; the head of the list is
    the top of the stack.  [None] means that the fuel ran out. *)
Fixpoint cycle_from (fuel : nat) (waits : gmap Z Z) (start : Z) (stack : list Z)
    (visited : gset Z) : option (option Z) :=
  match fuel with
  | O => None
  | S fuel' =>
      match stack with
      | [] => Some None
      | cur :: rest =>
          if bool_decide (cur ∈ visited) then cycle_from fuel' waits start rest visited
          else
            let visited := {[cur]} ∪ visited in
            match waits !! cur with
            | Some next =>
                if next =? start then Some (Some start)
                else cycle_from fuel' waits start (next :: rest) visited
            | None => cycle_from fuel' waits start rest visited
            end
      end
  end.

Definition cycle_fuel (waits : gmap Z Z) : nat := size waits + 2.

(** The outer loop over the waiters in ascending order. *)
Fixpoint first_victim (waits : gmap Z Z) (starts : list Z) : option (option Z) :=
  match starts with
  | [] => Some None
  | start :: starts' =>
      match cycle_from (cycle_fuel waits) waits start [start] ∅ with
      | Some None => first_victim waits starts'
      | r => r
      end
  end.

Definition find_cycle_victim (g : DeadlockGuard) : option (option Z) :=
  first_victim (dg_waits g) (btree_iter (dg_waits g)).*1.

Definition duration_since (now t : Z) : Z := Z.max 0 (now - t).

(** [poll] with the clock reading [now]. *)
Definition DeadlockGuard_poll (g : DeadlockGuard) (txns : gmap Z Transaction)
    (committing now : Z) : outcome TxnError unit * DeadlockGuard :=
  let timed_out :=
    match txns !! committing with
    | Some txn => duration_since now (tx_started_at txn) >? wait_timeout (dg_policy g)
    | None => false
    end in
  if timed_out then (Err WaitTimeout, g)
  else
    let should_check :=
      match dg_last_check g with
      | None => true
      | Some t => duration_since now t >=? check_interval (dg_policy g)
      end in
    if should_check then
      let g := mkDeadlockGuard (dg_waits g) (dg_policy g) (Some now) in
      match find_cycle_victim g with
      | Some (Some victim) => (Err DeadlockVictim, DeadlockGuard_clear g victim)
      | _ => (Ok tt, g)
      end
    else (Ok tt, g).

(** ** Facts about the conflict checker *)

Definition rw_edge (s : SsiChecker) (reader writer : Z) : Prop :=
  exists ws, rw_edges s !! reader = Some ws /\ writer ∈ ws.

Lemma rw_edge_note s r w a b :
  rw_edge (SsiChecker_note_rw_dependency s r w) a b <->
  rw_edge s a b \/ (a = r /\ b = w /\ r <> w).
Proof.
  unfold rw_edge, SsiChecker_note_rw_dependency. case_test.
  - split; [by left|]. intros [?|?]; [done|lia].
  - simpl. destruct (decide (a = r)) as [->|Hne].
    + rewrite lookup_insert_eq. split.
      * intros (ws & [= <-] & [->%elem_of_singleton|H]%elem_of_union); [tauto|].
        left. destruct (rw_edges s !! r) as [ws|]; simpl in H; [eauto|set_solver].
      * intros [(ws & Hws & H)|(_ & -> & _)]; eexists; split; try done; [|set_solver].
        rewrite Hws. set_solver.
    + rewrite lookup_insert_ne by done. split; [by left|]. intros [?|?]; [done|naive_solver].
Qed.

Lemma rw_edge_purge s id a b :
  rw_edge (SsiChecker_purge s id) a b <-> rw_edge s a b /\ a <> id /\ b <> id.
Proof.
  unfold rw_edge, SsiChecker_purge. simpl. split.
  - intros (ws & Hws & Hb). apply lookup_omap_Some in Hws as (ws0 & Hf & Hws0).
    apply lookup_delete_Some in Hws0 as [Hne Hws0].
    case_bool_decide; simplify_eq. set_solver.
  - intros ((ws & Hws & Hb) & Ha & Hbi). exists (ws ∖ {[id]}). split; [|set_solver].
    apply lookup_omap_Some. exists ws. split; [|by apply lookup_delete_Some].
    simpl. rewrite bool_decide_eq_false_2; [done|]. intros H.
    assert (b ∈ ws ∖ {[id]}) by set_solver. rewrite H in *. set_solver.
Qed.

Definition wr_conflict (s : SsiChecker) (txn : Transaction) : Prop :=
  exists other keys k, write_keys s !! other = Some keys /\ other <> tx_id txn /\
    k ∈ keys /\ k ∈ tx_read_set txn /\ k ∈ dom (tx_write_set txn).

Definition rw_cycle (s : SsiChecker) (id : Z) : Prop :=
  exists p, rw_edge s id p /\ rw_edge s p id.

Lemma existsb_false {A} (f : A -> bool) l :
  existsb f l = false <-> forall x, x ∈ l -> f x = false.
Proof.
  rewrite <- not_true_iff_false, existsb_exists. split.
  - intros H x Hx. destruct (f x) eqn:E; [|done]. exfalso. apply H. exists x.
    by rewrite <- list_elem_of_In.
  - intros H (x & Hx%list_elem_of_In & Hf). rewrite (H x Hx) in Hf. done.
Qed.

Lemma wr_test s txn :
  existsb (fun e : Z * gset bytes =>
       negb (e.1 =? tx_id txn) &&
       existsb (fun k => bool_decide (k ∈ tx_read_set txn) &&
                         bool_decide (k ∈ (dom (tx_write_set txn) : gset bytes)))
               (elements e.2))
     (btree_iter (write_keys s)) = true <-> wr_conflict s txn.
Proof.
  rewrite existsb_exists. setoid_rewrite <- list_elem_of_In. split.
  - intros ([o ks] & Hin & H). bool_to_prop. simpl in *.
    match goal with H : existsb _ _ = true |- _ => apply existsb_exists in H as (k & Hk & H) end.
    bool_to_prop. apply list_elem_of_In, elem_of_elements in Hk.
    apply elem_of_btree_iter in Hin. by exists o, ks, k.
  - intros (o & ks & k & Hl & Hne & Hk & Hr & Hw). exists (o, ks).
    rewrite elem_of_btree_iter. split; [done|]. simpl.
    rewrite (proj2 (Z.eqb_neq _ _)) by done. simpl. apply existsb_exists.
    exists k. rewrite <- list_elem_of_In, elem_of_elements. split; [done|].
    by rewrite !bool_decide_eq_true_2.
Qed.

Lemma rw_test s id out :
  rw_edges s !! id = Some out ->
  existsb (fun pred => match rw_edges s !! pred with
                       | Some w => bool_decide (id ∈ w)
                       | None => false
                       end) (elements out) = true <-> rw_cycle s id.
Proof.
  intros Hout. rewrite existsb_exists. setoid_rewrite <- list_elem_of_In.
  setoid_rewrite elem_of_elements. unfold rw_cycle, rw_edge. split.
  - intros (p & Hp & H). exists p. split; [eauto|].
    destruct (rw_edges s !! p) as [w|]; [|done]. bool_to_prop. eauto.
  - intros (p & (ws & Hws & Hp) & (ws' & Hws' & Hid)). exists p.
    rewrite Hws'. split; [congruence|]. by apply bool_decide_eq_true.
Qed.

(** The commit check, on every branch: it refuses a transaction with the
    write-read message exactly when another transaction's registered write keys
    meet a key the transaction both read and wrote; otherwise with the rw-cycle
    message exactly when it and some other transaction depend on each other;
    otherwise it lets the commit through. *)
Theorem check_commit_spec (s : SsiChecker) (txn : Transaction) :
  (SsiChecker_check_commit s txn = SsiAbort msg_wr_conflict <-> wr_conflict s txn) /\
  (SsiChecker_check_commit s txn = SsiAbort msg_rw_cycle <->
     ~ wr_conflict s txn /\ rw_cycle s (tx_id txn)) /\
  (SsiChecker_check_commit s txn = Allow <->
     ~ wr_conflict s txn /\ ~ rw_cycle s (tx_id txn)).
Proof.
  unfold SsiChecker_check_commit. pose proof (wr_test s txn) as Hw.
  destruct (existsb _ (btree_iter _)) eqn:Ew.
  { pose proof (proj1 Hw eq_refl). repeat split; intros; first [done | tauto]. }
  assert (~ wr_conflict s txn) by (intros H%Hw; done). clear Ew.
  destruct (rw_edges s !! tx_id txn) as [out|] eqn:Eo.
  - pose proof (rw_test s _ _ Eo) as Hr. case_test.
    + pose proof (proj1 Hr eq_refl). repeat split; intros; first [done | tauto].
    + assert (~ rw_cycle s (tx_id txn)) by (intros Hc%Hr; done).
      repeat split; intros; first [done | tauto].
  - assert (~ rw_cycle s (tx_id txn)) by (intros (p & (ws & Hws & _) & _); congruence).
    repeat split; intros; first [done | tauto].
Qed.

(** ** The wait-for graph *)

Definition waits_for (waits : gmap Z Z) (a b : Z) : Prop := waits !! a = Some b.

Section Cycle.
Context (waits : gmap Z Z) (start : Z).
Notation edge := (waits_for waits).

(** Loop invariant: the visited waiters are closed under the edges, up to the
    node on the stack, and none of them waits for [start]. *)
Definition walk_inv (cur : Z) (visited : gset Z) : Prop :=
  rtc edge start cur /\ start ∈ {[cur]} ∪ visited /\ visited ⊆ dom waits /\
  (forall v n, v ∈ visited -> edge v n -> n <> start /\ n ∈ {[cur]} ∪ visited).

Lemma closed_no_cycle (visited : gset Z) :
  start ∈ visited ->
  (forall v n, v ∈ visited -> edge v n -> n <> start /\ n ∈ visited) ->
  ~ tc edge start start.
Proof.
  intros Hs Hcl Htc.
  assert (forall a x, tc edge a x -> a ∈ visited -> x ∈ visited /\ x <> start) as H.
  { intros a x Hx. induction Hx as [a b Hab|a b z Hab _ IH]; intros Ha.
    - by destruct (Hcl a b Ha Hab).
    - apply IH. by destruct (Hcl a b Ha Hab). }
  by destruct (H start start Htc Hs).
Qed.

(** With fuel for every waiter not visited yet, the walk ends; it reports
    [start] exactly when [start] waits for itself. *)
Lemma cycle_from_correct fuel cur visited :
  walk_inv cur visited ->
  (size (dom waits ∖ visited) + 2 <= fuel)%nat ->
  (cycle_from fuel waits start [cur] visited = Some (Some start) /\ tc edge start start) \/
  (cycle_from fuel waits start [cur] visited = Some None /\ ~ tc edge start start).
Proof.
  revert cur visited. induction fuel as [|fuel IH]; intros cur visited Hinv Hf; [lia|].
  destruct Hinv as (Hr & Hs & Hd & Hcl). cbn [cycle_from]. case_bool_decide as Hv.
  { right. split; [by destruct fuel; [lia|]|].
    apply (closed_no_cycle visited); [set_solver|].
    intros v n Hin He. destruct (Hcl v n Hin He). split; [done|set_solver]. }
  destruct (waits !! cur) as [next|] eqn:Ew.
  - destruct (Z.eqb_spec next start) as [->|Hne].
    + left. split; [done|]. eapply tc_rtc_l; [exact Hr|]. by apply tc_once.
    + apply IH.
      * repeat split.
        -- eapply rtc_r; [exact Hr|done].
        -- set_solver.
        -- apply union_subseteq. split; [|done]. apply singleton_subseteq_l.
           by apply elem_of_dom.
        -- apply elem_of_union in H as [->%elem_of_singleton|H].
           ++ unfold waits_for in *; congruence.
           ++ by apply (Hcl v n).
        -- apply elem_of_union in H as [->%elem_of_singleton|H].
           ++ unfold waits_for in *. rewrite Ew in *. simplify_eq. set_solver.
           ++ destruct (Hcl v n); [done|done|set_solver].
      * assert (size (dom waits ∖ ({[cur]} ∪ visited)) < size (dom waits ∖ visited))%nat;
          [|lia].
        apply subset_size. apply elem_of_dom_2 in Ew. set_solver.
  - right. split; [by destruct fuel; [lia|]|].
    apply (closed_no_cycle ({[cur]} ∪ visited)); [done|].
    intros v n [->%elem_of_singleton|Hin]%elem_of_union He.
    + unfold waits_for in He; congruence.
    + by apply (Hcl v n).
Qed.

Lemma cycle_from_start :
  (cycle_from (cycle_fuel waits) waits start [start] ∅ = Some (Some start) /\
     tc edge start start) \/
  (cycle_from (cycle_fuel waits) waits start [start] ∅ = Some None /\ ~ tc edge start start).
Proof.
  apply cycle_from_correct.
  - repeat split; set_solver.
  - unfold cycle_fuel. rewrite difference_empty_L, size_dom. lia.
Qed.
End Cycle.

Lemma first_victim_spec waits starts :
  exists r, first_victim waits starts = Some r /\
    match r with
    | Some v => tc (waits_for waits) v v /\ exists pre post, starts = pre ++ v :: post /\
                  forall w, w ∈ pre -> ~ tc (waits_for waits) w w
    | None => forall v, v ∈ starts -> ~ tc (waits_for waits) v v
    end.
Proof.
  induction starts as [|a starts IH]; simpl.
  { exists None. split; [done|]. intros v Hv. by apply not_elem_of_nil in Hv. }
  destruct (cycle_from_start waits a) as [[-> Htc]|[-> Hn]].
  - exists (Some a). split; [done|]. split; [done|]. exists [], starts.
    split; [done|]. intros w Hw. by apply not_elem_of_nil in Hw.
  - destruct IH as (r & -> & Hr). exists r. split; [done|]. destruct r as [v|].
    + destruct Hr as (Htc & pre & post & -> & Hpre). split; [done|].
      exists (a :: pre), post. split; [done|]. intros w [->|Hw]%elem_of_cons; auto.
    + intros v [->|Hv]%elem_of_cons; auto.
Qed.

Lemma tc_waiter waits a b : tc (waits_for waits) a b -> is_Some (waits !! a).
Proof. intros H. inversion H; subst; eexists; eassumption. Qed.

Lemma sorted_before {V} (m : gmap Z V) pre v post w :
  (btree_iter m).*1 = pre ++ v :: post -> is_Some (m !! w) -> w < v -> w ∈ pre.
Proof.
  intros Hl [x Hx] Hlt. pose proof (btree_iter_sorted m) as Hs.
  assert (StronglySorted Z.lt (btree_iter m).*1) as Hs'.
  { clear Hl Hx. induction Hs as [|e l Hs IH Hall]; simpl; constructor; [done|].
    apply Forall_fmap. eapply Forall_impl; [exact Hall|]. intros y Hy.
    apply bool_decide_unpack in Hy || exact (proj1 (Z.ltb_lt _ _) Hy) || exact Hy. }
  assert (w ∈ (btree_iter m).*1) as Hw.
  { apply list_elem_of_fmap. exists (w, x). by rewrite elem_of_btree_iter. }
  rewrite Hl in Hs', Hw. apply elem_of_app in Hw as [?|Hw]; [done|].
  apply StronglySorted_app_1_r in Hs'. inversion Hs' as [|? ? _ Hall]; subst.
  apply elem_of_cons in Hw as [->|Hw]; [lia|].
  rewrite Forall_forall in Hall. specialize (Hall w Hw). lia.
Qed.

Lemma find_cycle_victim_total g :
  exists r, find_cycle_victim g = Some r /\
    match r with
    | Some v => tc (waits_for (dg_waits g)) v v /\
                forall w, w < v -> ~ tc (waits_for (dg_waits g)) w w
    | None => forall v, ~ tc (waits_for (dg_waits g)) v v
    end.
Proof.
  destruct (first_victim_spec (dg_waits g) (btree_iter (dg_waits g)).*1) as (r & Hr & H).
  exists r. split; [exact Hr|]. destruct r as [v|].
  - destruct H as (Htc & pre & post & Hl & Hpre). split; [done|].
    intros w Hlt Hw. apply (Hpre w); [|done].
    by eapply sorted_before; [exact Hl|eapply tc_waiter|].
  - intros v Htc. apply (H v); [|done].
    destruct (tc_waiter _ _ _ Htc) as [n Hn]. apply list_elem_of_fmap. exists (v, n).
    by rewrite elem_of_btree_iter.
Qed.

Lemma clear_removes g id a b :
  waits_for (dg_waits (DeadlockGuard_clear g id)) a b <->
  waits_for (dg_waits g) a b /\ a <> id /\ b <> id.
Proof.
  unfold waits_for, DeadlockGuard_clear. simpl.
  rewrite map_lookup_filter_Some, lookup_delete_Some. simpl. naive_solver.
Qed.

(** [poll] on every branch, for a guard whose check is due: a transaction
    older than the wait timeout gets [WaitTimeout] and nothing else changes;
    otherwise the cycle search ends, the check time advances, and
    [DeadlockVictim] is returned exactly when the wait-for graph has a cycle, in
    which case the edges of the smallest transaction that waits for itself are
    gone and the others are kept. *)
Theorem poll_spec (g : DeadlockGuard) (txns : gmap Z Transaction) (committing now : Z) :
  (match dg_last_check g with
   | None => True | Some t => check_interval (dg_policy g) <= duration_since now t end) ->
  let late := match txns !! committing with
              | Some t => wait_timeout (dg_policy g) < duration_since now (tx_started_at t)
              | None => False end in
  (late /\ DeadlockGuard_poll g txns committing now = (Err WaitTimeout, g)) \/
  (~ late /\ exists r g', DeadlockGuard_poll g txns committing now = (r, g') /\
     dg_last_check g' = Some now /\
     ((r = Ok tt /\ dg_waits g' = dg_waits g /\ forall v, ~ tc (waits_for (dg_waits g)) v v) \/
      (r = Err DeadlockVictim /\ exists v, tc (waits_for (dg_waits g)) v v /\
         (forall w, w < v -> ~ tc (waits_for (dg_waits g)) w w) /\
         forall a b, waits_for (dg_waits g') a b <->
                     waits_for (dg_waits g) a b /\ a <> v /\ b <> v))).
Proof.
  intros Hdue late. unfold DeadlockGuard_poll.
  assert (Hl : (match txns !! committing with
    | Some txn => duration_since now (tx_started_at txn) >? wait_timeout (dg_policy g)
    | None => false end) = true <-> late).
  { unfold late. destruct (txns !! committing); [|done]. rewrite Z.gtb_lt. lia. }
  destruct (match txns !! committing with Some _ => _ | None => _ end).
  { left. split; [by apply Hl|done]. }
  right. split; [intros H%Hl; done|].
  replace (match dg_last_check g with None => true | Some t => _ end) with true.
  2:{ destruct (dg_last_check g); [symmetry; by apply Z.geb_le|done]. }
  set (g1 := mkDeadlockGuard _ _ _).
  destruct (find_cycle_victim_total g1) as ([v|] & -> & Hr).
  - eexists _, _. split; [done|]. split; [done|]. right. split; [done|].
    exists v. destruct Hr. do 2 (split; [done|]). intros a b. apply (clear_removes g1).
  - eexists _, _. split; [done|]. split; [done|]. left. done.
Qed.

Lemma poll_spec_witness :
  let g := mkDeadlockGuard {[1 := 2; 2 := 3; 3 := 2]} DeadlockPolicy_default None in
  exists r g', DeadlockGuard_poll g ∅ 7 0 = (r, g') /\ dg_last_check g' = Some 0 /\
    r = Err DeadlockVictim /\ dg_waits g' = ∅.
Proof.
  intros g. destruct (poll_spec g ∅ 7 0 I) as [[[] _]|(_ & r & g' & H & Ht & _)].
  exists r, g'. split; [exact H|]. split; [exact Ht|].
  assert (DeadlockGuard_poll g ∅ 7 0 = (Err DeadlockVictim, mkDeadlockGuard ∅ DeadlockPolicy_default (Some 0)))
    as E by (vm_compute; reflexivity).
  rewrite E in H. injection H as <- <-. split; reflexivity.
Defined.
