(* ===== verification/TxnManager.v ===== *)
(** * The transaction coordinator (crates/noedb-txn/src/manager.rs)

    The manager's fields, each behind its own lock or atomic in the source, are
    one record; an operation is a function of that record in a small
    state-and-outcome monad, in which an error keeps the state reached so far
    (the source does not undo what it did before an early return).  [commit] is
    split where the source releases its locks: [commit_prepare] ends with the
    commit timestamp allocated, [commit_finish] applies the write set, and the
    caller's durable hook runs in between.  A reading of the clock is an
    argument. *)

From S2P Require Import Prelude BTree StorageError Mvcc MvccMemTable Txn.

Record TxnManager : Type := mkTxnManager {
  tm_oracle : Z;
  tm_mvcc : MvccMemTable;
  tm_next_id : Z;
  tm_active : gmap Z Transaction;
  tm_ssi : SsiChecker;
  tm_deadlock : DeadlockGuard;
  tm_sessions : gmap Z Z;
}.

Record CommitResult : Type := mkCommitResult { cr_commit_ts : Z; cr_keys_written : Z }.

Definition TxnManager_new : TxnManager :=
  mkTxnManager TimestampOracle_new MvccMemTable_new 1 ∅ SsiChecker_default DeadlockGuard_new ∅.

(** ** The monad *)

Definition TM (A : Type) : Type := TxnManager -> outcome TxnError A * TxnManager.

Definition tret {A} (a : A) : TM A := fun m => (Ok a, m).
Definition tfail {A} (e : TxnError) : TM A := fun m => (Err e, m).
Definition tbind {A B} (p : TM A) (k : A -> TM B) : TM B := fun m =>
  match p m with
  | (Ok a, m') => k a m'
  | (Err e, m') => (Err e, m')
  | (Panic, m') => (Panic, m')
  end.
Definition tlift {A} (o : outcome TxnError A) : TM A := fun m => (o, m).
Definition tget {A} (f : TxnManager -> A) : TM A := fun m => (Ok (f m), m).
Definition tmodify (f : TxnManager -> TxnManager) : TM unit := fun m => (Ok tt, f m).

Declare Scope tm_scope.
Delimit Scope tm_scope with tm.
Notation "'let!' x := p 'in' k" := (tbind p (fun x => k))
  (at level 10, x binder, p at level 100, k at level 200) : tm_scope.
#[local] Open Scope tm_scope.

Definition set_oracle (o : Z) (m : TxnManager) : TxnManager :=
  mkTxnManager o (tm_mvcc m) (tm_next_id m) (tm_active m) (tm_ssi m) (tm_deadlock m) (tm_sessions m).
Definition set_mvcc (f : MvccMemTable -> MvccMemTable) (m : TxnManager) : TxnManager :=
  mkTxnManager (tm_oracle m) (f (tm_mvcc m)) (tm_next_id m) (tm_active m) (tm_ssi m)
    (tm_deadlock m) (tm_sessions m).
Definition set_active (f : gmap Z Transaction -> gmap Z Transaction) (m : TxnManager) : TxnManager :=
  mkTxnManager (tm_oracle m) (tm_mvcc m) (tm_next_id m) (f (tm_active m)) (tm_ssi m)
    (tm_deadlock m) (tm_sessions m).
Definition set_ssi (f : SsiChecker -> SsiChecker) (m : TxnManager) : TxnManager :=
  mkTxnManager (tm_oracle m) (tm_mvcc m) (tm_next_id m) (tm_active m) (f (tm_ssi m))
    (tm_deadlock m) (tm_sessions m).
Definition set_deadlock (f : DeadlockGuard -> DeadlockGuard) (m : TxnManager) : TxnManager :=
  mkTxnManager (tm_oracle m) (tm_mvcc m) (tm_next_id m) (tm_active m) (tm_ssi m)
    (f (tm_deadlock m)) (tm_sessions m).
Definition set_sessions (f : gmap Z Z -> gmap Z Z) (m : TxnManager) : TxnManager :=
  mkTxnManager (tm_oracle m) (tm_mvcc m) (tm_next_id m) (tm_active m) (tm_ssi m)
    (tm_deadlock m) (f (tm_sessions m)).

(** ** Operations *)

Definition in_txn (m : TxnManager) (session_id : Z) : bool :=
  bool_decide (is_Some (tm_sessions m !! session_id)).

Definition active_count (m : TxnManager) : Z := Z.of_nat (size (tm_active m)).

(** [oracle.next()] and [next_id.fetch_add(1)]. *)
Definition alloc_ts : TM Z := fun m =>
  let '(ts, o) := TimestampOracle_next (tm_oracle m) in (Ok ts, set_oracle o m).

Definition alloc_id : TM Z := fun m =>
  (Ok (tm_next_id m),
   mkTxnManager (tm_oracle m) (tm_mvcc m) (wrap 64 (tm_next_id m + 1)) (tm_active m)
     (tm_ssi m) (tm_deadlock m) (tm_sessions m)).

Definition begin (session_id now : Z) : TM Z := fun m =>
  if in_txn m session_id then (Err TxnAlreadyActive, m)
  else (let! start_ts := alloc_ts in
        let! id := alloc_id in
        let! _ := tmodify (set_active (insert id (Transaction_new id start_ts now))) in
        let! _ := tmodify (set_sessions (insert session_id id)) in
        tret id) m.

(** [*self.sessions.get(&session_id).ok_or(NoActiveTxn)?] *)
Definition session_txn (session_id : Z) : TM Z := fun m =>
  match tm_sessions m !! session_id with
  | Some id => (Ok id, m)
  | None => (Err NoActiveTxn, m)
  end.

Definition active_txn (id : Z) : TM Transaction := fun m =>
  match tm_active m !! id with
  | Some txn => (Ok txn, m)
  | None => (Err NoActiveTxn, m)
  end.

Definition other_active (m : TxnManager) (id : Z) : gset Z :=
  list_to_set (map (fun e : Z * Transaction => tx_id e.2)
    (filter (fun e => tx_state e.2 = TActive /\ tx_id e.2 <> id) (btree_iter (tm_active m)))).

Definition read_view (session_id : Z) : TM ReadView :=
  let! id := session_txn session_id in
  let! txn := active_txn id in
  let! ids := tget (fun m => other_active m id) in
  tret (ReadView_new id (tx_start_ts txn) ids).

Definition with_txn {R} (session_id : Z) (f : Transaction -> R * Transaction) : TM R :=
  let! id := session_txn session_id in
  let! txn := active_txn id in
  if bool_decide (tx_state txn <> TActive) then tfail NoActiveTxn
  else let '(r, txn') := f txn in
       let! _ := tmodify (set_active (insert id txn')) in
       tret r.

Definition track_rw_dependencies (reader_id : Z) (key : bytes) : TM unit := tmodify (fun m =>
  let writers := map fst (filter (fun e : Z * Transaction =>
      e.1 <> reader_id /\ tx_state e.2 = TActive /\ is_Some (tx_write_set e.2 !! key))
    (btree_iter (tm_active m))) in
  match writers with
  | [] => m
  | _ => set_ssi (fun s => fold_left (fun s w => SsiChecker_note_rw_dependency s reader_id w) writers s) m
  end).

Definition get (session_id : Z) (key : bytes) : TM (option bytes) :=
  let! id := session_txn session_id in
  let! _ := with_txn session_id (fun txn => (tt, Transaction_record_read txn key)) in
  let! _ := track_rw_dependencies id key in
  let! view := read_view session_id in
  let! own := with_txn session_id (fun txn => (Transaction_read_own txn key, txn)) in
  match own with
  | Some v => tret v
  | None => fun m => (MvccMemTable_get (tm_mvcc m) key view, m)
  end.

(** The write paths of a client: [with_txn(s, |t| t.put(..))]. *)
Definition txn_put (session_id : Z) (key value : bytes) : TM unit :=
  with_txn session_id (fun txn => (tt, Transaction_put txn key value)).
Definition txn_delete (session_id : Z) (key : bytes) : TM unit :=
  with_txn session_id (fun txn => (tt, Transaction_delete txn key)).

Definition deadlock_poll (id now : Z) : TM unit := fun m =>
  let '(r, g) := DeadlockGuard_poll (tm_deadlock m) (tm_active m) id now in
  (r, set_deadlock (fun _ => g) m).

Definition ssi_check (id : Z) : TM unit :=
  let! txn := active_txn id in
  let! s := tget tm_ssi in
  match SsiChecker_check_commit s txn with
  | Allow => tret tt
  | SsiAbort msg => tfail (SerializationFailure msg)
  end.

(** The first half of [commit_with_durable]: checks, the pending writes in key
    order, and the commit timestamp. *)
Definition commit_prepare (session_id now : Z) : TM (Z * Z * list (bytes * WriteOp)) :=
  let! id := session_txn session_id in
  let! _ := deadlock_poll id now in
  let! _ := ssi_check id in
  let! txn := active_txn id in
  let pending := btree_iter (tx_write_set txn) in
  let! commit_ts := alloc_ts in
  tret (id, commit_ts, pending).

Definition apply_write (commit_ts : Z) (t : MvccMemTable) (e : bytes * WriteOp) : MvccMemTable :=
  match e.2 with
  | WPut v => MvccMemTable_put t e.1 v commit_ts
  | WDelete => MvccMemTable_delete t e.1 commit_ts
  end.

Definition apply_pending (pending : list (bytes * WriteOp)) (commit_ts : Z) (t : MvccMemTable)
    : MvccMemTable := fold_left (apply_write commit_ts) pending t.

(** The second half: apply the writes, then close the transaction.  Setting its
    state to [Committed] just before removing it leaves no trace. *)
Definition commit_finish (session_id id commit_ts : Z) (pending : list (bytes * WriteOp))
    : TM CommitResult :=
  let! _ := tmodify (set_mvcc (apply_pending pending commit_ts)) in
  let! _ := tmodify (set_ssi (fun s =>
      SsiChecker_register_commit s id (list_to_set (map fst pending)))) in
  let! _ := tmodify (set_deadlock (fun g => DeadlockGuard_clear g id)) in
  let! _ := tmodify (set_ssi (fun s => SsiChecker_purge s id)) in
  let! _ := tmodify (set_active (delete id)) in
  let! _ := tmodify (set_sessions (delete session_id)) in
  tret (mkCommitResult commit_ts (len pending)).

Definition commit_with_durable (session_id now : Z)
    (durable : Z -> list (bytes * WriteOp) -> outcome TxnError unit) : TM CommitResult :=
  let! '(id, commit_ts, pending) := commit_prepare session_id now in
  let! _ := tlift (durable commit_ts pending) in
  commit_finish session_id id commit_ts pending.

Definition commit (session_id now : Z) : TM CommitResult :=
  commit_with_durable session_id now (fun _ _ => Ok tt).

Definition rollback (session_id : Z) : TM unit :=
  let! id := session_txn session_id in
  let! _ := tmodify (set_sessions (delete session_id)) in
  let! _ := tmodify (set_mvcc (fun t => MvccMemTable_abort_intents t id)) in
  let! _ := tmodify (set_deadlock (fun g => DeadlockGuard_clear g id)) in
  let! _ := tmodify (set_ssi (fun s => SsiChecker_purge s id)) in
  tmodify (set_active (delete id)).

Definition get_at_ts (m : TxnManager) (key : bytes) (read_ts : Z) : outcome TxnError (option bytes) :=
  MvccMemTable_get_at_ts (tm_mvcc m) key read_ts.

Definition gc (min_retain_ts : Z) : TM GcStats := fun m =>
  let '(t, st) := gc_versions (tm_mvcc m) min_retain_ts in (Ok st, set_mvcc (fun _ => t) m).

(** ** Histories: the calls of several sessions, one after another *)

Inductive tm_op : Type :=
| OBegin (session now : Z)
| OGet (session : Z) (key : bytes)
| OPut (session : Z) (key value : bytes)
| ODelete (session : Z) (key : bytes)
| OCommit (session now : Z) (durable : Z -> list (bytes * WriteOp) -> outcome TxnError unit)
| ORollback (session : Z)
| OGc (min_retain_ts : Z).

Definition exec (m : TxnManager) (op : tm_op) : TxnManager :=
  match op with
  | OBegin s now => (begin s now m).2
  | OGet s k => (get s k m).2
  | OPut s k v => (txn_put s k v m).2
  | ODelete s k => (txn_delete s k m).2
  | OCommit s now d => (commit_with_durable s now d m).2
  | ORollback s => (rollback s m).2
  | OGc ts => (gc ts m).2
  end.

Definition run (ops : list tm_op) (m : TxnManager) : TxnManager := fold_left exec ops m.

(** ** The invariant

    [n] bounds the number of operations so far, which bounds both counters; as
    long as it is below [2^64 - 2] neither wraps. *)

Record tm_inv (n : Z) (m : TxnManager) : Prop := {
  inv_oracle : 0 <= tm_oracle m <= n;
  inv_next : 1 <= tm_next_id m <= n + 1;
  inv_mt : mt_wf (tm_mvcc m);
  inv_intents : mt_intents (tm_mvcc m) = ∅;
  inv_ts : all_below (tm_mvcc m) (tm_oracle m + 1);
  inv_active : forall id t, tm_active m !! id = Some t ->
    tx_id t = id /\ id < tm_next_id m /\ 0 < tx_start_ts t <= tm_oracle m /\ tx_state t = TActive;
  inv_sess : forall s id, tm_sessions m !! s = Some id -> is_Some (tm_active m !! id);
  inv_inj : forall s1 s2 id,
    tm_sessions m !! s1 = Some id -> tm_sessions m !! s2 = Some id -> s1 = s2;
  inv_wk : write_keys (tm_ssi m) = ∅;
}.

Abbreviation no_wrap n := (n < 2 ^ 64 - 2).

Lemma tm_inv_new : tm_inv 0 TxnManager_new.
Proof.
  split; simpl; try done; try lia; apply mt_wf_new.
Qed.

Lemma tm_inv_mono n n' m : n <= n' -> tm_inv n m -> tm_inv n' m.
Proof. intros ? []; split; try done; lia. Qed.

Lemma oracle_next_eq o : 0 <= o < 2 ^ 64 - 1 -> TimestampOracle_next o = (o + 1, o + 1).
Proof.
  intros H. unfold TimestampOracle_next, TimestampOracle_fetch_add, wrap, sat, umax.
  rewrite Z.mod_small by lia. f_equal; lia.
Qed.

#[local] Arguments TimestampOracle_next : simpl never.

(** *** The operations in closed form *)

Lemma begin_cases s now m :
  (is_Some (tm_sessions m !! s) /\ begin s now m = (Err TxnAlreadyActive, m)) \/
  (tm_sessions m !! s = None /\ begin s now m =
     let id := tm_next_id m in
     let '(ts, o) := TimestampOracle_next (tm_oracle m) in
     (Ok id, mkTxnManager o (tm_mvcc m) (wrap 64 (id + 1))
               (<[id := Transaction_new id ts now]> (tm_active m)) (tm_ssi m) (tm_deadlock m)
               (<[s := id]> (tm_sessions m)))).
Proof.
  unfold begin, in_txn. case_bool_decide as H; [left|right; rewrite eq_None_not_Some]; auto.
Qed.

Lemma with_txn_cases {R} s (f : Transaction -> R * Transaction) m :
  with_txn s f m = (Err NoActiveTxn, m) \/
  exists id t, tm_sessions m !! s = Some id /\ tm_active m !! id = Some t /\
    with_txn s f m = (Ok (f t).1, set_active (insert id (f t).2) m).
Proof.
  unfold with_txn, session_txn, active_txn, tbind, tfail.
  destruct (tm_sessions m !! s) as [id|] eqn:Es; [|by left].
  destruct (tm_active m !! id) as [t|] eqn:Ea; [|by left].
  case_bool_decide; [by left|]. right. exists id, t. repeat split; auto.
  by destruct (f t).
Qed.

Lemma with_txn_open {R} s (f : Transaction -> R * Transaction) m id t :
  tm_sessions m !! s = Some id -> tm_active m !! id = Some t -> tx_state t = TActive ->
  with_txn s f m = (Ok (f t).1, set_active (insert id (f t).2) m).
Proof.
  intros Es Ea Ht. unfold with_txn, session_txn, active_txn, tbind. rewrite Es, Ea.
  rewrite bool_decide_eq_false_2 by (by rewrite Ht; intros []). by destruct (f t).
Qed.

(** The state after [track_rw_dependencies]: only edges of the checker move. *)
Lemma track_cases r k m :
  exists f, track_rw_dependencies r k m = (Ok tt, set_ssi f m) /\
    write_keys (f (tm_ssi m)) = write_keys (tm_ssi m).
Proof.
  unfold track_rw_dependencies, tmodify.
  set (ws := map fst _). destruct ws as [|w ws].
  - exists id. split; [|done]. by destruct m.
  - eexists. split; [done|].
    assert (forall l s, write_keys (fold_left
      (fun s w => SsiChecker_note_rw_dependency s r w) l s) = write_keys s) as H.
    { induction l as [|a l IH]; intros s; [done|]. simpl. rewrite IH.
      unfold SsiChecker_note_rw_dependency. by case_test. }
    apply H.
Qed.

(** [get] in an open transaction: record the read, move edges, answer from the
    write set or from the snapshot. *)
Lemma get_open s k m id t :
  tm_sessions m !! s = Some id -> tm_active m !! id = Some t -> tx_state t = TActive ->
  exists f ids,
    get s k m =
      (match Transaction_read_own t k with
       | Some v => Ok v
       | None => MvccMemTable_get (tm_mvcc m) k (ReadView_new id (tx_start_ts t) ids)
       end,
       set_ssi f (set_active (insert id (Transaction_record_read t k)) m)) /\
    write_keys (f (tm_ssi m)) = write_keys (tm_ssi m).
Proof.
  intros Es Ea Ht. unfold get, tbind. unfold session_txn at 1. rewrite Es.
  rewrite (with_txn_open _ _ _ _ _ Es Ea Ht). cbn [fst snd].
  set (m1 := set_active _ m). destruct (track_cases id k m1) as (f & -> & Hf).
  set (m2 := set_ssi f m1). set (t1 := Transaction_record_read t k).
  assert (Es2 : tm_sessions m2 !! s = Some id) by done.
  assert (Ea2 : tm_active m2 !! id = Some t1) by apply lookup_insert_eq.
  unfold read_view, tbind, session_txn, active_txn. rewrite Es2, Ea2. cbn -[with_txn].
  exists f, (other_active m2 id). split; [|done].
  rewrite (with_txn_open _ _ _ _ _ Es2 Ea2 Ht). cbn [fst snd].
  replace (set_active (insert id t1) m2) with m2.
  2:{ unfold set_active at 1, m2, m1. simpl. f_equal. by rewrite insert_insert_eq. }
  change (Transaction_read_own t1 k) with (Transaction_read_own t k).
  by destruct (Transaction_read_own t k).
Qed.

Lemma deadlock_poll_cases id now m :
  exists r g, deadlock_poll id now m = (r, set_deadlock (fun _ => g) m) /\ r <> Panic.
Proof.
  unfold deadlock_poll. destruct (DeadlockGuard_poll _ _ id now) as [r g] eqn:E.
  exists r, g. split; [done|]. intros ->.
  revert E. unfold DeadlockGuard_poll. repeat case_test; done.
Qed.

Lemma prepare_cases s now m :
  (exists e g, commit_prepare s now m = (Err e, set_deadlock (fun _ => g) m)) \/
  (exists id t g, tm_sessions m !! s = Some id /\ tm_active m !! id = Some t /\
     SsiChecker_check_commit (tm_ssi m) t = Allow /\
     commit_prepare s now m =
       (Ok (id, (TimestampOracle_next (tm_oracle m)).1, btree_iter (tx_write_set t)),
        set_oracle (TimestampOracle_next (tm_oracle m)).2 (set_deadlock (fun _ => g) m))).
Proof.
  unfold commit_prepare, ssi_check, tbind, tfail, tret, tget.
  unfold session_txn. destruct (tm_sessions m !! s) as [id|] eqn:Es.
  2:{ left. exists NoActiveTxn, (tm_deadlock m). by destruct m. }
  destruct (deadlock_poll_cases id now m) as (r & g & -> & Hr).
  destruct r as [[]|e|]; [|by left; exists e, g|done].
  unfold active_txn. simpl.
  destruct (tm_active m !! id) as [t|] eqn:Ea; [|by left; exists NoActiveTxn, g].
  simpl. destruct (SsiChecker_check_commit (tm_ssi m) t) as [|msg] eqn:Ec;
    [|by left; exists (SerializationFailure msg), g].
  right. exists id, t, g. repeat split; try done. simpl. rewrite Ea. unfold alloc_ts. simpl.
  by destruct (TimestampOracle_next (tm_oracle m)).
Qed.

(** A commit that is not [Ok] only moved the deadlock guard and the oracle. *)
Definition commit_failed (m m' : TxnManager) : Prop :=
  exists g o, m' = set_oracle o (set_deadlock (fun _ => g) m) /\
    (o = tm_oracle m \/ o = (TimestampOracle_next (tm_oracle m)).2).

(** What a successful commit of transaction [t] leaves behind. *)
Definition commit_done (s id : Z) (t : Transaction) (m m' : TxnManager) : Prop :=
  let ts := (TimestampOracle_next (tm_oracle m)).1 in
  tm_oracle m' = (TimestampOracle_next (tm_oracle m)).2 /\
  tm_mvcc m' = apply_pending (btree_iter (tx_write_set t)) ts (tm_mvcc m) /\
  tm_next_id m' = tm_next_id m /\
  tm_active m' = delete id (tm_active m) /\
  write_keys (tm_ssi m') = delete id (write_keys (tm_ssi m)) /\
  rw_edges (tm_ssi m') = rw_edges (SsiChecker_purge (tm_ssi m) id) /\
  tm_sessions m' = delete s (tm_sessions m).

Lemma commit_cases s now d m :
  (is_ok (commit_with_durable s now d m).1 = false /\
     commit_failed m (commit_with_durable s now d m).2) \/
  (exists id t, tm_sessions m !! s = Some id /\ tm_active m !! id = Some t /\
     (commit_with_durable s now d m).1 =
       Ok (mkCommitResult (TimestampOracle_next (tm_oracle m)).1 (len (btree_iter (tx_write_set t)))) /\
     SsiChecker_check_commit (tm_ssi m) t = Allow /\
     d (TimestampOracle_next (tm_oracle m)).1 (btree_iter (tx_write_set t)) = Ok tt /\
     commit_done s id t m (commit_with_durable s now d m).2).
Proof.
  unfold commit_with_durable, tbind, tlift.
  destruct (prepare_cases s now m) as [(e & g & ->)|(id & t & g & Es & Ea & Ec & ->)].
  { left. split; [done|]. exists g, (tm_oracle m). split; [by destruct m|by left]. }
  destruct (TimestampOracle_next (tm_oracle m)) as [ts o] eqn:Eo. cbn [fst snd].
  destruct (d ts _) as [[]|e|] eqn:Ed;
    [|left; split; [done|]; exists g, o; rewrite Eo; by auto..].
  right. exists id, t. unfold commit_done. rewrite Eo. repeat split; try done; simpl.
  by rewrite delete_insert_eq.
Qed.

Lemma rollback_cases s m :
  (tm_sessions m !! s = None /\ rollback s m = (Err NoActiveTxn, m)) \/
  (exists id, tm_sessions m !! s = Some id /\ rollback s m =
     (Ok tt, mkTxnManager (tm_oracle m) (MvccMemTable_abort_intents (tm_mvcc m) id) (tm_next_id m)
               (delete id (tm_active m)) (SsiChecker_purge (tm_ssi m) id)
               (DeadlockGuard_clear (tm_deadlock m) id) (delete s (tm_sessions m)))).
Proof.
  unfold rollback, tbind. unfold session_txn at 1 2.
  destruct (tm_sessions m !! s) as [id|] eqn:Es; [right; exists id|left]; done.
Qed.

(** *** Preservation *)

Lemma abort_intents_none t id :
  mt_intents t = ∅ -> MvccMemTable_abort_intents t id = t.
Proof. intros H. unfold MvccMemTable_abort_intents. rewrite H. done. Qed.

Lemma apply_write_version ts t e :
  apply_write ts t e =
  write_version t e.1 (match e.2 with WPut v => Version_put ts v | WDelete => Version_tombstone ts end).
Proof. unfold apply_write. by destruct e.2. Qed.

Lemma written_ts ts op :
  v_commit_ts (match op with WPut v => Version_put ts v | WDelete => Version_tombstone ts end) = ts.
Proof. by destruct op. Qed.

Lemma apply_pending_ind (P : MvccMemTable -> Prop) ts l t :
  P t -> (forall t k v, P t -> v_commit_ts v = ts -> P (write_version t k v)) ->
  P (apply_pending l ts t).
Proof.
  intros H0 Hs. revert t H0. unfold apply_pending.
  induction l as [|e l IH]; intros t H0; [done|]. simpl. apply IH.
  rewrite apply_write_version. apply Hs; [done|]. apply written_ts.
Qed.

Lemma write_no_intents t k v : mt_intents t = ∅ -> mt_intents (write_version t k v) = ∅.
Proof. simpl. intros ->. apply delete_empty. Qed.

Lemma write_all_below t k v ts :
  v_commit_ts v < ts -> all_below t ts -> all_below (write_version t k v) ts.
Proof.
  intros Hv Ht ik x. simpl. rewrite lookup_insert_Some. intros [[_ <-]|[_ H]]; eauto.
Qed.

Lemma all_below_mono t a b : a <= b -> all_below t a -> all_below t b.
Proof. intros Hab H ik v Hv. specialize (H ik v Hv). lia. Qed.

Lemma apply_pending_inv ts l t :
  0 < ts < 2 ^ 64 -> mt_wf t -> mt_intents t = ∅ -> all_below t ts ->
  mt_wf (apply_pending l ts t) /\ mt_intents (apply_pending l ts t) = ∅ /\
  all_below (apply_pending l ts t) (ts + 1).
Proof.
  intros Hts Hwf Hi Hb. apply (apply_pending_ind (fun t =>
    mt_wf t /\ mt_intents t = ∅ /\ all_below t (ts + 1))).
  - repeat split; try done; try apply Hwf. eapply all_below_mono; [|exact Hb]. lia.
  - intros t' k v (Hw & Hn & Hbl) Hv. repeat split.
    1,2: apply mt_wf_write; [by rewrite Hv|done].
    + by apply write_no_intents.
    + apply write_all_below; [lia|done].
Qed.

(** The table of active transactions, with one of them replaced. *)
Lemma inv_update n m id t t' f :
  tm_inv n m -> tm_active m !! id = Some t ->
  tx_id t' = tx_id t -> tx_start_ts t' = tx_start_ts t -> tx_state t' = tx_state t ->
  write_keys (f (tm_ssi m)) = write_keys (tm_ssi m) ->
  tm_inv n (set_ssi f (set_active (insert id t') m)).
Proof.
  intros [] Ht H1 H2 H3 Hf. split; simpl; try done; try congruence.
  - intros i x. rewrite lookup_insert_Some. intros [[<- <-]|[_ Hx]]; [|by auto].
    rewrite H1, H2, H3. by apply inv_active0.
  - intros s i Hs. destruct (inv_sess0 s i Hs). destruct (decide (i = id)) as [->|].
    + rewrite lookup_insert_eq; eauto.
    + rewrite lookup_insert_ne by done; eauto.
Qed.

(** Closing session [s] and its transaction. *)
Lemma inv_close n m s id mvcc o ssi g :
  tm_inv n m -> tm_sessions m !! s = Some id -> tm_oracle m <= o <= n ->
  mt_wf mvcc -> mt_intents mvcc = ∅ -> all_below mvcc (o + 1) -> write_keys ssi = ∅ ->
  tm_inv n (mkTxnManager o mvcc (tm_next_id m) (delete id (tm_active m)) ssi g
              (delete s (tm_sessions m))).
Proof.
  intros [] Hs Ho Hwf Hi Hb Hw. split; simpl; try done; try lia.
  - intros i t [_ Ht]%lookup_delete_Some. destruct (inv_active0 i t Ht) as (? & ? & ? & ?).
    repeat split; try done; lia.
  - intros s' i [Hne Hi']%lookup_delete_Some. destruct (inv_sess0 s' i Hi') as [t Ht].
    exists t. apply lookup_delete_Some. split; [|done]. intros ->. by eapply Hne, inv_inj0.
  - intros s1 s2 i [_ ?]%lookup_delete_Some [_ ?]%lookup_delete_Some. eauto.
Qed.

Lemma set_ssi_id m : set_ssi id m = m.
Proof. by destruct m. Qed.

Lemma with_txn_inv {R} n s (f : Transaction -> R * Transaction) m :
  (forall t, tx_id (f t).2 = tx_id t /\ tx_start_ts (f t).2 = tx_start_ts t /\
             tx_state (f t).2 = tx_state t) ->
  tm_inv n m -> tm_inv n (with_txn s f m).2.
Proof.
  intros Hf Hinv. destruct (with_txn_cases s f m) as [->|(id & t & Es & Ea & ->)]; [done|].
  simpl. rewrite <- (set_ssi_id (set_active _ m)). destruct (Hf t) as (? & ? & ?).
  by eapply inv_update.
Qed.

Lemma get_inv n s k m : tm_inv n m -> tm_inv n (get s k m).2.
Proof.
  intros Hinv. destruct (tm_sessions m !! s) as [id|] eqn:Es.
  - destruct (inv_sess _ _ Hinv s id Es) as [t Ht].
    destruct (get_open s k m id t Es Ht) as (f & ids & -> & Hf).
    { by apply (inv_active _ _ Hinv id t). }
    simpl. by eapply inv_update.
  - unfold get, tbind. unfold session_txn at 1. by rewrite Es.
Qed.

Lemma begin_inv n s now m :
  no_wrap n -> tm_inv n m -> tm_inv (n + 1) (begin s now m).2.
Proof.
  intros Hn Hinv. destruct (begin_cases s now m) as [[_ ->]|[Hs ->]].
  { eapply tm_inv_mono; [|done]. lia. }
  destruct Hinv. rewrite oracle_next_eq by lia. unfold wrap. simpl.
  rewrite Z.mod_small by lia.
  split; simpl; try done; try lia.
  - eapply all_below_mono; [|done]. lia.
  - intros id t. rewrite lookup_insert_Some. intros [[<- <-]|[_ Ht]]; simpl.
    + repeat split; lia.
    + destruct (inv_active0 id t Ht) as (? & ? & ? & ?). repeat split; try done; lia.
  - intros s' id. rewrite lookup_insert_Some. intros [[_ <-]|[_ Hi]].
    + rewrite lookup_insert_eq; eauto.
    + destruct (inv_sess0 s' id Hi) as [t Ht]. destruct (decide (id = tm_next_id m)) as [->|].
      * rewrite lookup_insert_eq; eauto.
      * rewrite lookup_insert_ne by done; eauto.
  - assert (Hfresh : forall s', tm_sessions m !! s' <> Some (tm_next_id m)).
    { intros s' Hs'. destruct (inv_sess0 _ _ Hs') as [t Ht].
      destruct (inv_active0 _ _ Ht). lia. }
    intros s1 s2 id. rewrite !lookup_insert_Some.
    intros [[<- <-]|[_ H1]] [[<- H2]|[_ H2]]; subst; try done; try (by destruct (Hfresh s2));
      try (by destruct (Hfresh s1)). by eapply inv_inj0.
Qed.

Lemma commit_inv n s now d m :
  no_wrap n -> tm_inv n m -> tm_inv (n + 1) (commit_with_durable s now d m).2.
Proof.
  intros Hn Hinv. pose proof (inv_oracle _ _ Hinv) as Ho.
  destruct (commit_cases s now d m)
    as [[_ (g & o & -> & H)]|(id & t & Es & Ea & _ & _ & _ & Hd)].
  - rewrite oracle_next_eq in H by lia. simpl in H.
    destruct Hinv. split; simpl; try done; try lia.
    + eapply all_below_mono; [|done]. lia.
    + intros i x Hx. destruct (inv_active0 i x Hx) as (? & ? & ? & ?).
      repeat split; try done; lia.
  - destruct (commit_with_durable s now d m).2 as [o mv ni ac ss dg se].
    unfold commit_done in Hd. rewrite oracle_next_eq in Hd by lia. simpl in Hd.
    destruct Hd as (-> & -> & -> & -> & Hw & _ & ->).
    destruct (apply_pending_inv (tm_oracle m + 1) (btree_iter (tx_write_set t)) (tm_mvcc m))
      as (? & ? & ?); [lia|apply Hinv..|].
    apply inv_close; try done; [|lia|].
    + eapply tm_inv_mono; [|done]. lia.
    + rewrite Hw, (inv_wk _ _ Hinv). apply delete_empty.
Qed.

Lemma rollback_inv n s m : tm_inv n m -> tm_inv n (rollback s m).2.
Proof.
  intros Hinv. destruct (rollback_cases s m) as [[_ ->]|(id & Es & ->)]; [done|].
  rewrite abort_intents_none by apply Hinv. simpl.
  apply inv_close; try done; try apply Hinv.
  - pose proof (inv_oracle _ _ Hinv). lia.
  - simpl. rewrite (inv_wk _ _ Hinv). apply delete_empty.
Qed.

Lemma gc_inv n ts m : tm_inv n m -> tm_inv n (gc ts m).2.
Proof.
  intros Hinv. pose proof (mt_wf_prune _ ts (inv_mt _ _ Hinv)) as Hwf.
  destruct Hinv. split; try done.
  - simpl. rewrite inv_intents0. apply map_filter_empty.
  - intros ik v Hv. simpl in Hv. apply map_lookup_filter_Some in Hv as [Hv _]. by eapply inv_ts0.
Qed.

Lemma exec_inv n m op : no_wrap n -> tm_inv n m -> tm_inv (n + 1) (exec m op).
Proof.
  intros Hn Hinv. assert (Hm : forall m', tm_inv n m' -> tm_inv (n + 1) m').
  { intros m'. apply tm_inv_mono. lia. }
  destruct op; cbn [exec]; first [by apply begin_inv | by apply commit_inv | apply Hm].
  - by apply get_inv.
  - by apply with_txn_inv.
  - by apply with_txn_inv.
  - by apply rollback_inv.
  - by apply gc_inv.
Qed.

Lemma run_inv ops n m :
  no_wrap (n + len ops) -> tm_inv n m -> tm_inv (n + len ops) (run ops m).
Proof.
  revert n m. induction ops as [|op ops IH]; intros n m Hn Hinv; simpl.
  - by rewrite len_nil, Z.add_0_r.
  - rewrite len_cons in *. pose proof (len_nonneg ops).
    replace (n + (1 + len ops)) with ((n + 1) + len ops) in * by lia.
    apply IH; [lia|]. apply exec_inv; [lia|done].
Qed.

(** ** Reads of an open transaction *)

(** With no intents, what a view can see depends on its snapshot alone. *)
Lemma get_snapshot_only {E : Type} t k v1 v2 :
  mt_intents t = ∅ -> snapshot_ts v1 = snapshot_ts v2 ->
  MvccMemTable_get (E:=E) t k v1 = MvccMemTable_get t k v2.
Proof.
  intros Hi Hs. unfold MvccMemTable_get, MvccMemTable_get_version.
  destruct (btree_range _ _ _) as [l|e|]; simpl; [|done..]. do 2 f_equal.
  unfold newest_visible. rewrite Hi.
  assert (forall e, entry_visible v1 ∅ e = entry_visible v2 ∅ e) as He.
  { intros e. unfold entry_visible, is_visible. rewrite lookup_empty, Hs.
    case_test; [|done]. by rewrite !bool_decide_eq_false_2. }
  generalize (rev l) as l', (@None Version) as b.
  induction l' as [|e l' IH]; intros b; [done|]. simpl. rewrite He. apply IH.
Qed.

(** Session [s] has the open transaction [t] under [id]. *)
Definition open_txn (m : TxnManager) (s id : Z) (t : Transaction) : Prop :=
  tm_sessions m !! s = Some id /\ tm_active m !! id = Some t.

Lemma get_result n m s id t k :
  tm_inv n m -> open_txn m s id t ->
  (get s k m).1 = match Transaction_read_own t k with
                  | Some v => Ok v
                  | None => get_at_ts m k (tx_start_ts t)
                  end.
Proof.
  intros Hinv [Es Ea]. destruct (get_open s k m id t Es Ea) as (f & ids & -> & _).
  { by apply (inv_active _ _ Hinv id t). }
  simpl. destruct (Transaction_read_own t k); [done|].
  apply get_snapshot_only; [apply Hinv|done].
Qed.

(** *** What other sessions can do to it *)

Definition foreign (s : Z) (op : tm_op) : Prop :=
  match op with
  | OGet _ _ => True
  | OBegin s' _ | OPut s' _ _ | ODelete s' _ | OCommit s' _ _ | ORollback s' => s' <> s
  | OGc _ => False
  end.

Definition snap (ts : Z) : ReadView := ReadView_new 0 ts ∅.

(** The transaction is still open with the same snapshot and writes, and the
    table looks the same at its snapshot. *)
Definition undisturbed (s id : Z) (t : Transaction) (m m' : TxnManager) : Prop :=
  exists t', open_txn m' s id t' /\ tx_start_ts t' = tx_start_ts t /\
    tx_write_set t' = tx_write_set t /\
    same_visible (snap (tx_start_ts t)) (tm_mvcc m') (tm_mvcc m).

Lemma undisturbed_refl s id t m : open_txn m s id t -> undisturbed s id t m m.
Proof. intros H. by exists t. Qed.

(** Replacing the record of one transaction, keeping its snapshot; its own
    writes may change only if it is not [t]. *)
Lemma undisturbed_update s id t m id' t0 t' f :
  open_txn m s id t -> tm_active m !! id' = Some t0 ->
  (id' = id -> tx_start_ts t' = tx_start_ts t0 /\ tx_write_set t' = tx_write_set t0) ->
  undisturbed s id t m (set_ssi f (set_active (insert id' t') m)).
Proof.
  intros [Es Ea] Ht0 Hsame. destruct (decide (id' = id)) as [->|Hne].
  - destruct (Hsame eq_refl). exists t'.
    split; [split; [done|apply lookup_insert_eq]|]. split; [congruence|]. split; [congruence|done].
  - exists t. split; [|done]. split; [done|]. simpl. by rewrite lookup_insert_ne.
Qed.

Lemma undisturbed_with_txn {R} n s id t m s' (f : Transaction -> R * Transaction) :
  tm_inv n m -> open_txn m s id t -> s' <> s -> undisturbed s id t m (with_txn s' f m).2.
Proof.
  intros Hinv Ho Hne. destruct (with_txn_cases s' f m) as [->|(id' & t0 & Es & Ea & ->)].
  { by apply undisturbed_refl. }
  simpl. rewrite <- (set_ssi_id (set_active _ m)). apply (undisturbed_update _ _ _ _ _ t0); try done.
  intros ->. destruct Hne. eapply (inv_inj _ _ Hinv); [exact Es|apply Ho].
Qed.

Lemma undisturbed_get n s id t m s' k :
  tm_inv n m -> open_txn m s id t -> undisturbed s id t m (get s' k m).2.
Proof.
  intros Hinv Ho. destruct (tm_sessions m !! s') as [id'|] eqn:Es.
  - destruct (inv_sess _ _ Hinv s' id' Es) as [t0 Ht0].
    destruct (get_open s' k m id' t0 Es Ht0) as (f & ids & -> & Hf).
    { by apply (inv_active _ _ Hinv id' t0). }
    simpl. by apply (undisturbed_update _ _ _ _ _ t0).
  - unfold get, tbind. unfold session_txn at 1. rewrite Es. by apply undisturbed_refl.
Qed.

Lemma pending_above_snapshot view ts l t :
  mt_wf t -> snapshot_ts view < ts -> 0 < ts < u64_max ->
  same_visible view (apply_pending l ts t) t.
Proof.
  intros Hwf Hs Hts.
  refine (proj2 (apply_pending_ind (fun t' => mt_wf t' /\ same_visible view t' t) ts l t _ _)).
  - by split.
  - intros t' k v [Hw Hsv] Hv. split.
    + apply mt_wf_write; [|done]. rewrite Hv. unfold u64_max in Hts. lia.
    + etransitivity; [|exact Hsv]. by apply write_above_snapshot; rewrite ?Hv.
Qed.

Lemma undisturbed_close s id t m m' s' id' :
  open_txn m s id t -> s' <> s -> id' <> id ->
  tm_active m' = delete id' (tm_active m) -> tm_sessions m' = delete s' (tm_sessions m) ->
  same_visible (snap (tx_start_ts t)) (tm_mvcc m') (tm_mvcc m) ->
  undisturbed s id t m m'.
Proof.
  intros [Es Ea] Hs Hid Ha Hse Hv. exists t. unfold open_txn. rewrite Ha, Hse.
  by rewrite !lookup_delete_ne.
Qed.

Lemma exec_undisturbed n s id t m op :
  no_wrap n -> tm_inv n m -> open_txn m s id t -> foreign s op ->
  undisturbed s id t m (exec m op).
Proof.
  intros Hn Hinv Ho Hf. pose proof (inv_oracle _ _ Hinv) as Hor.
  destruct (inv_active _ _ Hinv id t) as (_ & Hid & Hst & _); [apply Ho|].
  assert (Hneq : forall s' id', s' <> s -> tm_sessions m !! s' = Some id' -> id' <> id).
  { intros s' id' Hne Hs' ->. apply Hne. eapply (inv_inj _ _ Hinv); [exact Hs'|apply Ho]. }
  destruct op as [s' now|s' k|s' k x|s' k|s' now d|s'|ts]; cbn [exec foreign] in *; [..|done].
  - destruct (begin_cases s' now m) as [[_ ->]|[Hs ->]]; [by apply undisturbed_refl|].
    destruct (TimestampOracle_next _). exists t. destruct Ho.
    split; [|done]. split; simpl; rewrite lookup_insert_ne; (done || lia).
  - by eapply undisturbed_get.
  - by eapply undisturbed_with_txn.
  - by eapply undisturbed_with_txn.
  - destruct (commit_cases s' now d m)
      as [[_ (g & o & -> & _)]|(id' & t' & Es & Ea & _ & _ & _ & Hd)].
    { exists t. destruct Ho. done. }
    unfold commit_done in Hd. rewrite oracle_next_eq in Hd by lia. simpl in Hd.
    destruct Hd as (_ & Hmv & _ & Hac & _ & _ & Hse).
    apply (undisturbed_close _ _ _ _ _ s' id'); eauto. rewrite Hmv.
    apply pending_above_snapshot; [apply Hinv|simpl; lia|unfold u64_max; lia].
  - destruct (rollback_cases s' m) as [[_ ->]|(id' & Es & ->)]; [by apply undisturbed_refl|].
    rewrite abort_intents_none by apply Hinv.
    by apply (undisturbed_close _ _ _ _ _ s' id'); eauto.
Qed.

Lemma run_undisturbed ops n s id t m :
  no_wrap (n + len ops) -> tm_inv n m -> open_txn m s id t -> Forall (foreign s) ops ->
  undisturbed s id t m (run ops m).
Proof.
  revert n m t. induction ops as [|op ops IH]; intros n m t Hn Hinv Ho Hf; simpl.
  { by apply undisturbed_refl. }
  rewrite len_cons in Hn. pose proof (len_nonneg ops). inversion Hf as [|? ? Hop Hops]; subst.
  destruct (exec_undisturbed n s id t m op) as (t1 & Ho1 & Hs1 & Hw1 & Hv1); try done; [lia|].
  destruct (IH (n + 1) (exec m op) t1) as (t2 & Ho2 & Hs2 & Hw2 & Hv2); try done; [lia|..].
  { apply exec_inv; [lia|done]. }
  rewrite Hs1 in Hv2. exists t2. split; [done|]. split; [congruence|]. split; [congruence|].
  by etransitivity.
Qed.

(** ** What a commit publishes *)

Definition write_of (ts : Z) (op : WriteOp) : Version :=
  match op with WPut v => Version_put ts v | WDelete => Version_tombstone ts end.

Lemma apply_pending_lookup l ts t ik :
  (exists k op, (k, op) ∈ l /\ ik = encode_internal_key k ts /\
     mt_data (apply_pending l ts t) !! ik = Some (write_of ts op)) \/
  ((forall k op, (k, op) ∈ l -> ik <> encode_internal_key k ts) /\
     mt_data (apply_pending l ts t) !! ik = mt_data t !! ik).
Proof.
  revert t. unfold apply_pending. induction l as [|[k op] l IH]; intros t; simpl.
  { right. split; [|done]. intros k op H. by apply not_elem_of_nil in H. }
  destruct (IH (apply_write ts t (k, op))) as [(k' & op' & Hin & -> & ->)|[Hn ->]].
  - left. exists k', op'. split; [by right|done].
  - destruct (decide (ik = encode_internal_key k ts)) as [->|Hne].
    + left. exists k, op. split; [by left|]. split; [done|]. unfold apply_write; simpl.
      destruct op; simpl; apply lookup_insert_eq.
    + right. split.
      * intros k' op' [[= -> ->]|Hin]%elem_of_cons; [done|by eapply Hn].
      * unfold apply_write; simpl. destruct op; simpl; by rewrite lookup_insert_ne.
Qed.

(** No other key of the write set reads as [k]: its internal key at the commit
    timestamp does not start with [k]. *)
Definition no_alias (ws : gmap bytes WriteOp) (k : bytes) (ts : Z) : Prop :=
  forall k', is_Some (ws !! k') -> (exists s, encode_internal_key k' ts = k ++ s) -> k' = k.

Definition op_value (op : WriteOp) : option bytes :=
  match op with WPut v => Some v | WDelete => None end.

Lemma live_write_of ts op : live_value (Some (write_of ts op)) = op_value op.
Proof. by destruct op. Qed.

Lemma get_written {E : Type} t ws k op ts now :
  mt_intents t = ∅ -> all_below t ts -> 0 < ts <= now ->
  ws !! k = Some op -> ~ all_ff k -> no_alias ws k ts ->
  MvccMemTable_get_at_ts (E:=E) (apply_pending (btree_iter ws) ts t) k now = Ok (op_value op).
Proof.
  intros Hi Hb Hts Hk Hff Hna. unfold MvccMemTable_get_at_ts, MvccMemTable_get.
  set (t' := apply_pending _ ts t). assert (Hi' : mt_intents t' = ∅).
  { apply (apply_pending_ind (fun t => mt_intents t = ∅)); [done|].
    intros; by apply write_no_intents. }
  assert (Hlook := apply_pending_lookup (btree_iter ws) ts t).
  assert (Hold : forall ik v, mt_data t' !! ik = Some v -> v_commit_ts v <= ts).
  { intros ik v Hv. destruct (Hlook ik) as [(k' & op' & _ & _ & Hl)|[_ Hl]];
      fold t' in Hl; rewrite Hv in Hl; simplify_eq.
    - destruct op'; simpl; lia.
    - symmetry in Hl. apply Hb in Hl. lia. }
  assert (Hvis : visible_at t' (snap now) (encode_internal_key k ts) (write_of ts op)).
  { split.
    - destruct (Hlook (encode_internal_key k ts)) as [(k' & op' & Hin & He & Hl)|[Hn _]].
      + apply elem_of_btree_iter in Hin.
        assert (k' = k) as -> by (apply Hna; [eauto|]; eexists; symmetry; exact He).
        fold t' in Hl. rewrite Hl. congruence.
      + exfalso. apply (Hn k op); [by apply elem_of_btree_iter|done].
    - unfold entry_visible, is_visible. simpl. rewrite Hi', lookup_empty.
      assert (v_commit_ts (write_of ts op) = ts) as -> by (by destruct op).
      rewrite (proj2 (Z.eqb_neq _ _)), Z.gtb_ltb, (proj2 (Z.ltb_ge _ _)) by lia. done. }
  destruct (get_version_prefix (E:=E) t' k (snap now) Hff) as (r & Hr & Hnew).
  unfold snap in Hr at 1. rewrite Hr. simpl. f_equal. destruct r as [v|].
  - destruct Hnew as ((ik & [s ->] & Hv & _) & Hmax).
    specialize (Hmax _ _ (ex_intro _ _ eq_refl) Hvis).
    destruct (Hlook (k ++ s)) as [(k' & op' & Hin & He & Hl)|[_ Hl]]; fold t' in Hl; rewrite Hv in Hl.
    + apply elem_of_btree_iter in Hin.
      assert (k' = k) as -> by (apply Hna; eauto). simplify_eq. apply live_write_of.
    + symmetry in Hl. apply Hb in Hl.
      assert (v_commit_ts (write_of ts op) = ts) by (by destruct op). lia.
  - exfalso. eapply Hnew; [|exact Hvis]. eexists; reflexivity.
Qed.

Lemma newest_visible_ext v1 v2 intents l :
  (forall e, e ∈ l -> entry_visible v1 intents e = entry_visible v2 intents e) ->
  newest_visible v1 intents l = newest_visible v2 intents l.
Proof.
  unfold newest_visible. generalize (@None Version) as b.
  induction l as [|e l IH]; intros b H; [done|]. simpl.
  rewrite (H e) by (by left). apply IH. intros e' He'. apply H. by right.
Qed.

Lemma get_unwritten {E : Type} t ws k ts now now' :
  mt_intents t = ∅ -> all_below t ts -> ts - 1 <= now -> ts - 1 <= now' ->
  (forall k', is_Some (ws !! k') -> ~ exists s, encode_internal_key k' ts = k ++ s) ->
  ~ all_ff k ->
  MvccMemTable_get_at_ts (E:=E) (apply_pending (btree_iter ws) ts t) k now =
  MvccMemTable_get_at_ts t k now'.
Proof.
  intros Hi Hb Hn Hn' Hna Hff.
  unfold MvccMemTable_get_at_ts, MvccMemTable_get, MvccMemTable_get_version.
  set (t' := apply_pending _ ts t).
  assert (mt_intents t' = ∅) as Hi'.
  { apply (apply_pending_ind (fun t => mt_intents t = ∅)); [done|].
    intros; by apply write_no_intents. }
  assert (range_panics (Included k) (Excluded (user_key_prefix_end k)) = false) as Hp.
  { apply range_incl_excl_ok, bytes_lt_le, (prefix_end_range k k Hff).
    exists []. by rewrite app_nil_r. }
  destruct (btree_range_total (E:=E) (mt_data t') _ _ Hp) as [l' Hl'].
  destruct (btree_range_total (E:=E) (mt_data t) _ _ Hp) as [l Hl].
  rewrite Hl', Hl. simpl. destruct (btree_range_ok _ _ _ _ Hl') as [Hs' Hm'].
  destruct (btree_range_ok _ _ _ _ Hl) as [Hs Hm].
  assert (l' = l) as ->.
  { apply sorted_ext; [done..|]. intros [ik v]. rewrite Hm', Hm.
    split; intros (Hd & Hlo & Hhi); (split; [|done]).
    all: assert (exists s, ik = k ++ s) as [s ->]
      by (apply (prefix_end_range k ik Hff); split; [apply Hlo|apply Hhi]).
    all: destruct (apply_pending_lookup (btree_iter ws) ts t (k ++ s))
      as [(k' & op & Hin & He & _)|[_ He]];
      [exfalso; apply elem_of_btree_iter in Hin; eapply (Hna k'); eauto|].
    all: fold t' in He; congruence. }
  rewrite Hi, Hi'. do 2 f_equal. apply newest_visible_ext.
  intros [ik v] Hin. apply list_elem_of_In, in_rev, list_elem_of_In, Hm in Hin as [Hd _].
  apply Hb in Hd. unfold entry_visible, is_visible. simpl. rewrite lookup_empty.
  rewrite !bool_decide_eq_false_2 by done.
  rewrite !Z.gtb_ltb, !(proj2 (Z.ltb_ge _ _)) by lia. done.
Qed.

(** ** Theorems *)

Abbreviation after ops := (run ops TxnManager_new).
Abbreviation short_history ops := (len ops < 2 ^ 64 - 2).

Lemma after_inv ops : short_history ops -> tm_inv (len ops) (after ops).
Proof. intros H. apply (run_inv ops 0); [lia|apply tm_inv_new]. Qed.

(** C33. In every state that a history of fewer than [2^64 - 2] calls reaches,
    whatever sessions issue them and whatever the durable hooks answer: the
    counters have not wrapped, the version table is well formed and free of
    intents, no version is newer than the oracle, each session has at most one
    transaction, no two share one, each open transaction is active and began at
    an allocated timestamp, and the checker holds no write keys. *)
Theorem txn_manager_invariant ops :
  short_history ops -> tm_inv (len ops) (after ops).
Proof. intros H. apply (run_inv ops 0); [lia|apply tm_inv_new]. Qed.

Definition demo_history : list tm_op :=
  [OBegin 1 0; OPut 1 (bs "k") (bs "v1"); OCommit 1 0 (fun _ _ => Ok tt); OBegin 2 0;
   OBegin 3 0; OPut 3 (bs "k") (bs "v2")].

Lemma txn_manager_invariant_witness : tm_inv 6 (after demo_history).
Proof. apply (txn_manager_invariant demo_history). vm_compute. reflexivity. Defined.

(** C7. Snapshot isolation of reads, when the calls of the manager run one after the other:
    in any history of fewer than 2^64 - 2 calls, a transaction reads the same value of a
    key again whatever the other sessions begin, read, write, commit or roll back in
    between, and whatever it reads itself; only its own writes and garbage collection
    can change what it sees.  (Calls that overlap are outside of this: a transaction
    that begins while another one is inside its commit sees the key change,
    [begin_during_commit_sees_change].) *)
Theorem repeatable_read pre ops s k :
  short_history (pre ++ ops) -> in_txn (after pre) s = true -> Forall (foreign s) ops ->
  (get s k (run ops (after pre))).1 = (get s k (after pre)).1.
Proof.
  intros Hn Hin Hf. rewrite len_app in Hn. pose proof (len_nonneg ops).
  assert (Hinv : tm_inv (len pre) (after pre)) by (apply after_inv; lia).
  unfold in_txn in Hin. bool_to_prop. destruct Hin as [id Hs].
  destruct (inv_sess _ _ Hinv s id Hs) as [t Ht].
  destruct (run_undisturbed ops (len pre) s id t (after pre)) as (t' & Ho' & Hst & Hw & Hv);
    [lia|done..|].
  rewrite (get_result _ _ s id t k Hinv) by done.
  rewrite (get_result (len pre + len ops) _ s id t' k) by (done || (apply run_inv; [lia|done])).
  unfold Transaction_read_own. rewrite Hw, Hst. case_match; [done|].
  unfold get_at_ts, MvccMemTable_get_at_ts. by rewrite (get_proper _ k _ _ _ Hv).
Qed.

Lemma repeatable_read_witness :
  (get 2 (bs "k") (run [OCommit 3 0 (fun _ _ => Ok tt)] (after demo_history))).1 =
  (get 2 (bs "k") (after demo_history)).1.
Proof.
  apply (repeatable_read demo_history [OCommit 3 0 (fun _ _ => Ok tt)] 2 (bs "k")).
  - vm_compute. reflexivity.
  - vm_compute. reflexivity.
  - constructor; [simpl; lia|constructor].
Defined.

(** A transaction reads its own writes: after a put it reads the value,
    after a delete nothing, whatever the table holds (and for every key, since
    the table is not consulted). *)
Theorem read_your_writes ops s k v :
  short_history ops -> in_txn (after ops) s = true ->
  (get s k (txn_put s k v (after ops)).2).1 = Ok (Some v) /\
  (get s k (txn_delete s k (after ops)).2).1 = Ok None.
Proof.
  intros Hn Hin. assert (Hinv := after_inv ops Hn).
  unfold in_txn in Hin. bool_to_prop. destruct Hin as [id Hs].
  destruct (inv_sess _ _ Hinv s id Hs) as [t Ht].
  destruct (inv_active _ _ Hinv id t Ht) as (_ & _ & _ & Hst).
  split.
  - rewrite (get_result (len ops) _ s id (Transaction_put t k v)).
    + unfold Transaction_read_own. simpl. by rewrite lookup_insert_eq.
    + by apply with_txn_inv.
    + unfold txn_put. rewrite (with_txn_open _ _ _ _ _ Hs Ht Hst).
      split; [done|]. apply lookup_insert_eq.
  - rewrite (get_result (len ops) _ s id (Transaction_delete t k)).
    + unfold Transaction_read_own. simpl. by rewrite lookup_insert_eq.
    + by apply with_txn_inv.
    + unfold txn_delete. rewrite (with_txn_open _ _ _ _ _ Hs Ht Hst).
      split; [done|]. apply lookup_insert_eq.
Qed.

Lemma read_your_writes_witness :
  (get 3 (bs "z") (txn_put 3 (bs "z") (bs "1") (after demo_history)).2).1 = Ok (Some (bs "1")) /\
  (get 3 (bs "z") (txn_delete 3 (bs "z") (after demo_history)).2).1 = Ok None.
Proof. apply read_your_writes; vm_compute; reflexivity. Defined.

(** Commit publishes exactly the write set, atomically: a transaction that
    begins after a successful commit reads the committed operation of every key
    of the write set and, for any other key, what the latest snapshot held
    before.  (Keys that the table's prefix search confuses, or that consist of
    255 bytes only, are excluded: see [no_alias].) *)
Theorem commit_publishes ops s now d s' now' k id t r :
  len ops + 2 < 2 ^ 64 - 2 -> open_txn (after ops) s id t ->
  (commit_with_durable s now d (after ops)).1 = Ok r ->
  let m' := (commit_with_durable s now d (after ops)).2 in
  in_txn m' s' = false -> ~ all_ff k -> no_alias (tx_write_set t) k (cr_commit_ts r) ->
  (get s' k (begin s' now' m').2).1 =
    match tx_write_set t !! k with
    | Some op => Ok (op_value op)
    | None => get_at_ts (after ops) k (tm_oracle (after ops))
    end.
Proof.
  intros Hn [Es Ea] Hr m' Hs' Hff Hna. assert (Hinv := after_inv ops ltac:(lia)).
  pose proof (inv_oracle _ _ Hinv) as Ho.
  assert (Hinv' : tm_inv (len ops + 1) m') by (apply commit_inv; [lia|done]).
  destruct (commit_cases s now d (after ops))
    as [[Hno _]|(id' & t' & Es' & Ea' & Hok & _ & _ & Hd)]; [by rewrite Hr in Hno|].
  rewrite Es in Es'. injection Es' as <-. rewrite Ea in Ea'. injection Ea' as <-.
  unfold commit_done in Hd. fold m' in Hd. rewrite oracle_next_eq in Hok, Hd by lia.
  rewrite Hr in Hok. injection Hok as ->. simpl in Hd, Hna. set (ts := tm_oracle (after ops) + 1) in *.
  destruct Hd as (Ho' & Hmv & _ & _ & _ & _ & _).
  destruct (begin_cases s' now' m') as [[Hin _]|[Hnone Hb]].
  { unfold in_txn in Hs'. bool_to_prop. by destruct Hs'. }
  pose proof (inv_oracle _ _ Hinv') as Hor'. rewrite oracle_next_eq in Hb by lia. rewrite Hb.
  simpl. rewrite (get_result (len ops + 1 + 1) _ s' (tm_next_id m')
    (Transaction_new (tm_next_id m') (tm_oracle m' + 1) now')).
  - unfold Transaction_read_own. simpl. rewrite lookup_empty. unfold get_at_ts. simpl.
    rewrite Hmv. destruct (tx_write_set t !! k) as [op|] eqn:Hk.
    + apply get_written; try done; [apply Hinv|apply Hinv|lia].
    + apply get_unwritten; try done; try lia; [apply Hinv|apply Hinv|].
      intros k' Hk' [u Hu]. rewrite (Hna k' Hk') in Hk' by (by exists u). by rewrite Hk in Hk'; destruct Hk'.
  - replace (mkTxnManager _ _ _ _ _ _ _) with ((begin s' now' m').2) by (by rewrite Hb).
    apply begin_inv; [lia|done].
  - split; simpl; apply lookup_insert_eq.
Qed.

Lemma commit_publishes_witness :
  (get 1 (bs "k") (begin 1 0 (commit 3 0 (after demo_history)).2).2).1 = Ok (Some (bs "v2")).
Proof.
  pose (t := set_write (Transaction_new 3 4 0) (bs "k") (WPut (bs "v2"))).
  apply (commit_publishes demo_history 3 0 (fun _ _ => Ok tt) 1 0 (bs "k") 3 t
           (mkCommitResult 5 1)).
  - vm_compute. reflexivity.
  - split; vm_compute; reflexivity.
  - vm_compute. reflexivity.
  - vm_compute. reflexivity.
  - by apply not_all_ff.
  - intros k' [op Hk'] _. unfold t, set_write in Hk'. simpl in Hk'.
    apply lookup_insert_Some in Hk' as [[<- _]|[_ Hk']]; [reflexivity|].
    rewrite lookup_empty in Hk'. discriminate Hk'.
Defined.

(** A commit that does not succeed (no transaction, timeout, deadlock,
    serialization failure, or an error of the durable hook) leaves the
    transaction open and publishes nothing: only the deadlock guard and the
    timestamp counter can have moved, so the caller can retry or roll back. *)
Theorem failed_commit_keeps_txn s now d m :
  is_ok (commit_with_durable s now d m).1 = false ->
  let m' := (commit_with_durable s now d m).2 in
  tm_mvcc m' = tm_mvcc m /\ tm_active m' = tm_active m /\ tm_sessions m' = tm_sessions m /\
  tm_ssi m' = tm_ssi m /\ tm_next_id m' = tm_next_id m.
Proof.
  intros Hf m'. unfold m'.
  destruct (commit_cases s now d m) as [[_ (g & o & -> & _)]|(id & t & _ & _ & Hok & _)]; [done|].
  by rewrite Hok in Hf.
Qed.

Lemma failed_commit_keeps_txn_witness :
  let d := fun _ _ => Err (TxnStorage "disk full") in
  tm_active (commit_with_durable 3 0 d (after demo_history)).2 = tm_active (after demo_history).
Proof.
  intros d. refine (proj1 (proj2 (failed_commit_keeps_txn 3 0 d (after demo_history) _))).
  vm_compute. reflexivity.
Defined.

(** Rollback closes the session's transaction and discards its writes: the
    version table is exactly what it was, the transaction and every dependency
    and wait edge on it are gone, and the other sessions are untouched. *)
Theorem rollback_discards ops s id t :
  short_history ops -> open_txn (after ops) s id t ->
  let m := after ops in
  let m' := (rollback s m).2 in
  (rollback s m).1 = Ok tt /\ tm_mvcc m' = tm_mvcc m /\
  in_txn m' s = false /\ tm_active m' !! id = None /\
  (forall a b, rw_edge (tm_ssi m') a b <-> rw_edge (tm_ssi m) a b /\ a <> id /\ b <> id) /\
  (forall a b, waits_for (dg_waits (tm_deadlock m')) a b <->
               waits_for (dg_waits (tm_deadlock m)) a b /\ a <> id /\ b <> id) /\
  (forall s' i t', s' <> s -> open_txn m s' i t' <-> open_txn m' s' i t').
Proof.
  intros Hn [Es Ea] m m'. assert (Hinv := after_inv ops Hn). unfold m', m.
  destruct (rollback_cases s (after ops)) as [[Hno _]|(i & Es' & ->)]; [congruence|].
  rewrite Es in Es'. injection Es' as <-.
  rewrite abort_intents_none by apply Hinv. simpl.
  split; [done|]. split; [done|]. split.
  { unfold in_txn. simpl. rewrite lookup_delete_eq. apply bool_decide_eq_false. by intros []. }
  split; [apply lookup_delete_eq|]. split; [intros; apply rw_edge_purge|].
  split; [intros; apply clear_removes|].
  intros s' i' t' Hne. unfold open_txn. simpl. rewrite lookup_delete_ne by done.
  split; intros [Hs' Ht']; (split; [done|]).
  - rewrite lookup_delete_ne; [done|]. intros ->. apply Hne. by eapply (inv_inj _ _ Hinv).
  - by apply lookup_delete_Some in Ht' as [_ ?].
Qed.

Lemma rollback_discards_witness :
  tm_mvcc (rollback 3 (after demo_history)).2 = tm_mvcc (after demo_history).
Proof.
  refine (proj1 (proj2 (rollback_discards demo_history 3 3
    (set_write (Transaction_new 3 4 0) (bs "k") (WPut (bs "v2"))) _ _))).
  - vm_compute. reflexivity.
  - split; vm_compute; reflexivity.
Defined.

(** The write-read conflict test of the commit check never fires: in every
    reachable state no write keys are registered (a commit purges them right
    after registering them), so a commit is refused for a serialization reason
    only on a mutual read-write dependency. *)
Theorem write_read_test_is_dead ops t :
  short_history ops ->
  SsiChecker_check_commit (tm_ssi (after ops)) t <> SsiAbort msg_wr_conflict.
Proof.
  intros Hn H. pose proof (inv_wk _ _ (after_inv ops Hn)) as Hw.
  assert (wr_conflict (tm_ssi (after ops)) t) as (o & keys & k & Ho & _).
  { apply wr_test. revert H. unfold SsiChecker_check_commit. rewrite Hw. simpl.
    by repeat case_test. }
  by rewrite Hw, lookup_empty in Ho.
Qed.

Lemma write_read_test_is_dead_witness :
  SsiChecker_check_commit (tm_ssi (after demo_history)) (Transaction_new 3 4 0)
    <> SsiAbort msg_wr_conflict.
Proof. apply write_read_test_is_dead. vm_compute. reflexivity. Defined.

(** Two sessions read one key and then both overwrite it. *)
Definition lost_update_history : list tm_op :=
  [OBegin 9 0; OPut 9 (bs "x") (bs "0"); OCommit 9 0 (fun _ _ => Ok tt);
   OBegin 1 0; OBegin 2 0; OGet 1 (bs "x"); OGet 2 (bs "x");
   OPut 1 (bs "x") (bs "1"); OPut 2 (bs "x") (bs "2"); OCommit 1 0 (fun _ _ => Ok tt)].

(** A lost update is not prevented: two transactions that both read and then
    overwrote the same key both commit, although each read the value from
    before the other's write. *)
Theorem lost_update_commits :
  let m := after lost_update_history in
  (get 1 (bs "x") (run (take 5 lost_update_history) TxnManager_new)).1 = Ok (Some (bs "0")) /\
  (get 2 (bs "x") (run (take 6 lost_update_history) TxnManager_new)).1 = Ok (Some (bs "0")) /\
  in_txn m 1 = false /\ is_ok (commit 2 0 m).1 = true /\
  get_at_ts m (bs "x") 100 = Ok (Some (bs "1")) /\
  get_at_ts (commit 2 0 m).2 (bs "x") 100 = Ok (Some (bs "2")).
Proof. vm_compute. repeat split. Qed.

(** The commit timestamp is allocated before the writes are applied, with
    no lock held in between: a transaction that begins in the gap has a
    snapshot above the commit timestamp and sees the key change under it. *)
Theorem begin_during_commit_sees_change :
  let m0 := after demo_history in
  match commit_prepare 3 0 m0 with
  | (Ok (id, ts, pending), m1) =>
      let m2 := (begin 4 0 m1).2 in
      let m3 := (commit_finish 3 id ts pending m2).2 in
      (get 4 (bs "k") m2).1 = Ok (Some (bs "v1")) /\ (get 4 (bs "k") m3).1 = Ok (Some (bs "v2"))
  | _ => False
  end.
Proof. vm_compute. split; reflexivity. Qed.
