(* ===== verification/MemTable.v ===== *)
(** * The MemTable and the storage-engine contract
      (crates/noedb-storage/src/memtable.rs, engine.rs, write_stall.rs)

    [StorageEngine] is the source's trait as a class of operations; what a
    backend promises is the class [EngineLaws]: an abstraction function to a
    finite map that every operation tracks.  [MemTable] is an instance; the
    byte counter's subtractions are checked, so that the invariant also shows
    that they never underflow. *)

From S2P Require Import Prelude BTree StorageError Mvcc.

(** ** engine.rs *)

Class StorageEngine (T : Type) : Type := {
  se_get : T -> bytes -> outcome StorageError (option bytes);
  se_put : T -> bytes -> bytes -> outcome StorageError T;
  se_delete : T -> bytes -> outcome StorageError (bool * T);
  se_iter : T -> list (bytes * bytes);
}.

Fixpoint skip_while {A} (f : A -> bool) (l : list A) : list A :=
  match l with
  | [] => []
  | x :: l' => if f x then skip_while f l' else l
  end.

Fixpoint take_while {A} (f : A -> bool) (l : list A) : list A :=
  match l with
  | [] => []
  | x :: l' => if f x then x :: take_while f l' else []
  end.

(** The trait's default [range] and [range_keys]. *)
Definition default_range {T} `{StorageEngine T} (s : T) (start end_ : bytes) : list (bytes * bytes) :=
  take_while (fun e : bytes * bytes => bytes_ltb e.1 end_)
    (skip_while (fun e : bytes * bytes => bytes_ltb e.1 start) (se_iter s)).

Definition default_range_keys {T} `{StorageEngine T} (s : T) (start end_ : bytes) : list bytes :=
  map fst (default_range s start end_).

Definition prefix_end (prefix : bytes) : bytes := rev (inc_last (rev prefix)).

(** What a backend promises: its state stands for a map, from which reads
    answer and which writes update; the empty key is refused. *)
Class EngineLaws (T : Type) `{StorageEngine T} : Type := {
  contents : T -> gmap bytes bytes;
  engine_ok : T -> Prop;
  get_law : forall s k, engine_ok s -> k <> [] -> se_get s k = Ok (contents s !! k);
  put_law : forall s k v, engine_ok s -> k <> [] ->
    exists s', se_put s k v = Ok s' /\ engine_ok s' /\ contents s' = <[k := v]> (contents s);
  delete_law : forall s k, engine_ok s -> k <> [] ->
    exists s', se_delete s k = Ok (bool_decide (is_Some (contents s !! k)), s') /\
      engine_ok s' /\ contents s' = delete k (contents s);
  iter_law : forall s, engine_ok s -> se_iter s = btree_iter (contents s);
}.

(** ** memtable.rs *)

Definition DEFAULT_MAX_MEM_BYTES : Z := 4 * 1024 * 1024.
Definition DEFAULT_MAX_ENTRIES : Z := 10000.

Record MemTable : Type := mkMemTable { mem_map : gmap bytes bytes; mem_bytes : Z }.

Definition MemTable_new : MemTable := mkMemTable ∅ 0.
Definition MemTable_len (t : MemTable) : Z := Z.of_nat (size (mem_map t)).
Definition MemTable_is_empty (t : MemTable) : bool := bool_decide (mem_map t = ∅).
Definition MemTable_approx_bytes (t : MemTable) : Z := mem_bytes t.

Definition validate_key (key : bytes) : outcome StorageError unit :=
  match key with
  | [] => Err (InvalidInput "key must not be empty")
  | _ => Ok tt
  end.

Definition entry_bytes (key value : bytes) : Z := len key + len value.

(** [a - b] on [usize] with overflow checks. *)
Definition checked_sub {E} (a b : Z) : outcome E Z := if a <? b then Panic else Ok (a - b).

Definition MemTable_put (t : MemTable) (key value : bytes) : outcome StorageError MemTable :=
  let? _ := validate_key key in
  let map' := <[key := value]> (mem_map t) in
  match mem_map t !! key with
  | Some old =>
      let? b := checked_sub (mem_bytes t) (entry_bytes key old) in
      Ok (mkMemTable map' (b + entry_bytes key value))
  | None => Ok (mkMemTable map' (mem_bytes t + entry_bytes key value))
  end.

Definition MemTable_get (t : MemTable) (key : bytes) : outcome StorageError (option bytes) :=
  let? _ := validate_key key in
  Ok (mem_map t !! key).

Definition MemTable_delete (t : MemTable) (key : bytes) : outcome StorageError (bool * MemTable) :=
  let? _ := validate_key key in
  match mem_map t !! key with
  | Some old =>
      let? b := checked_sub (mem_bytes t) (entry_bytes key old) in
      Ok (true, mkMemTable (delete key (mem_map t)) b)
  | None => Ok (false, t)
  end.

Definition MemTable_iter (t : MemTable) : list (bytes * bytes) := btree_iter (mem_map t).

(** [range] and [range_borrowed]: [BTreeMap::range], which panics on an
    inverted range. *)
Definition MemTable_range {E} (t : MemTable) (start end_ : bytes) : outcome E (list (bytes * bytes)) :=
  btree_range (mem_map t) (Included start) (Excluded end_).

#[global] Instance MemTable_engine : StorageEngine MemTable := {
  se_get := MemTable_get; se_put := MemTable_put;
  se_delete := MemTable_delete; se_iter := MemTable_iter;
}.

(** ** write_stall.rs *)

Record WriteStallConfig : Type := mkWriteStallConfig {
  l0_slowdown_trigger : Z;
  l0_stop_trigger : Z;
  slowdown_ms_per_file : Z;
  max_slowdown_ms : Z;
}.

Definition WriteStallConfig_default : WriteStallConfig := mkWriteStallConfig 3 8 8 250.
Definition WriteStallConfig_relaxed : WriteStallConfig := mkWriteStallConfig 12 32 4 500.

(** [gate_write] returns the milliseconds it sleeps, or the error. *)
Definition gate_write (c : WriteStallConfig) (l0_count mem_bytes max_mem_bytes : Z)
    : outcome StorageError Z :=
  if l0_count >=? l0_stop_trigger c
  then Err (ResourceExhausted "L0 SST backlog at stop threshold — compaction required")
  else
    let slow := if l0_count >=? l0_slowdown_trigger c
                then Z.min (sat 64 ((l0_count - l0_slowdown_trigger c + 1) * slowdown_ms_per_file c))
                           (max_slowdown_ms c)
                else 0 in
    let full := if (max_mem_bytes >? 0) && (mem_bytes >=? max_mem_bytes * 9 / 10) then 5 else 0 in
    Ok (slow + full).

(** ** The byte counter *)

Definition total_bytes (m : gmap bytes bytes) : Z :=
  map_fold (fun k v acc => entry_bytes k v + acc) 0 m.

Lemma total_bytes_insert m k v :
  m !! k = None -> total_bytes (<[k := v]> m) = entry_bytes k v + total_bytes m.
Proof.
  intros H. unfold total_bytes. rewrite map_fold_insert_L; [done| |done]. intros; lia.
Qed.

Lemma total_bytes_delete m k v :
  m !! k = Some v -> total_bytes m = entry_bytes k v + total_bytes (delete k m).
Proof.
  intros H. rewrite <- (insert_delete_id m k v) at 1 by done.
  apply total_bytes_insert, lookup_delete_eq.
Qed.

Lemma entry_bytes_nonneg k v : 0 <= entry_bytes k v.
Proof. unfold entry_bytes. pose proof (len_nonneg k). pose proof (len_nonneg v). lia. Qed.

Lemma total_bytes_nonneg m : 0 <= total_bytes m.
Proof.
  unfold total_bytes. apply (map_fold_weak_ind (fun r _ => 0 <= r)); [lia|].
  intros k v ? r _ ?. pose proof (entry_bytes_nonneg k v). lia.
Qed.

Definition mem_wf (t : MemTable) : Prop :=
  mem_bytes t = total_bytes (mem_map t) /\ mem_map t !! [] = None.

Lemma mem_wf_new : mem_wf MemTable_new.
Proof. done. Qed.

Lemma MemTable_put_ok t k v :
  mem_wf t -> k <> [] ->
  exists t', MemTable_put t k v = Ok t' /\ mem_wf t' /\ mem_map t' = <[k := v]> (mem_map t).
Proof.
  intros [Hb Hn] Hk. unfold MemTable_put. destruct k as [|c k]; [done|].
  cbn [validate_key obind]. set (key := c :: k).
  assert (Hn' : <[key := v]> (mem_map t) !! [] = None) by (by rewrite lookup_insert_ne).
  destruct (mem_map t !! key) as [old|] eqn:E.
  - pose proof (total_bytes_delete _ _ _ E) as Hd.
    pose proof (total_bytes_nonneg (delete key (mem_map t))).
    unfold checked_sub. rewrite (proj2 (Z.ltb_ge _ _)) by lia. simpl.
    eexists. split; [done|]. split; [|done]. split; [|done]. simpl.
    rewrite <- insert_delete_eq, total_bytes_insert by apply lookup_delete_eq. lia.
  - eexists. split; [done|]. split; [|done]. split; [|done]. simpl.
    rewrite total_bytes_insert by done. lia.
Qed.

Lemma MemTable_delete_ok t k :
  mem_wf t -> k <> [] ->
  exists t', MemTable_delete t k = Ok (bool_decide (is_Some (mem_map t !! k)), t') /\
    mem_wf t' /\ mem_map t' = delete k (mem_map t).
Proof.
  intros [Hb Hn] Hk. unfold MemTable_delete. destruct k as [|c k]; [done|].
  cbn [validate_key obind]. set (key := c :: k).
  destruct (mem_map t !! key) as [old|] eqn:E.
  - pose proof (total_bytes_delete _ _ _ E) as Hd.
    pose proof (total_bytes_nonneg (delete key (mem_map t))).
    unfold checked_sub. rewrite (proj2 (Z.ltb_ge _ _)) by lia. cbn [obind].
    rewrite bool_decide_eq_true_2 by eauto.
    eexists. split; [done|]. split; [|done]. split; simpl; [lia|]. by rewrite lookup_delete_ne.
  - rewrite bool_decide_eq_false_2 by (by intros []).
    exists t. split; [done|]. split; [done|]. by rewrite delete_id.
Qed.

Lemma MemTable_get_ok t k : k <> [] -> MemTable_get t k = Ok (mem_map t !! k).
Proof. by destruct k. Qed.

#[global] Program Instance MemTable_laws : EngineLaws MemTable := {
  contents := mem_map; engine_ok := mem_wf;
}.
Next Obligation. intros. by apply MemTable_get_ok. Qed.
Next Obligation. intros. by apply MemTable_put_ok. Qed.
Next Obligation. intros. by apply MemTable_delete_ok. Qed.
Next Obligation. done. Qed.

(** ** Theorems *)

(** A call of the mutating interface, and its effect on the map. *)
Inductive mem_call : Type := CallPut (k v : bytes) | CallDelete (k : bytes).

Definition mem_apply {T} `{StorageEngine T} (s : T) (c : mem_call) : outcome StorageError T :=
  match c with
  | CallPut k v => se_put s k v
  | CallDelete k => let? '(_, s') := se_delete s k in Ok s'
  end.

Definition map_apply (m : gmap bytes bytes) (c : mem_call) : gmap bytes bytes :=
  match c with CallPut k v => <[k := v]> m | CallDelete k => delete k m end.

Definition call_key (c : mem_call) : bytes :=
  match c with CallPut k _ => k | CallDelete k => k end.

Fixpoint mem_run {T} `{StorageEngine T} (s : T) (cs : list mem_call) : outcome StorageError T :=
  match cs with
  | [] => Ok s
  | c :: cs' => let? s' := mem_apply s c in mem_run s' cs'
  end.

(** Any backend that meets the laws behaves as the map after any calls. *)
Lemma mem_run_laws {T} `{EngineLaws T} (s : T) cs :
  engine_ok s -> Forall (fun c => call_key c <> []) cs ->
  exists s', mem_run s cs = Ok s' /\ engine_ok s' /\
    contents s' = fold_left map_apply cs (contents s).
Proof.
  intros Hok Hcs. revert s Hok. induction Hcs as [|c cs Hk Hcs IH]; intros s Hok.
  { by exists s. }
  assert (exists s1, mem_apply s c = Ok s1 /\ engine_ok s1 /\
    contents s1 = map_apply (contents s) c) as (s1 & E & Hok1 & Hc1).
  { destruct c as [k v|k]; simpl in *; [by apply put_law|].
    destruct (delete_law s k Hok Hk) as (s1 & -> & ? & ?). by exists s1. }
  destruct (IH s1 Hok1) as (s' & E' & Hok' & Hc'). exists s'.
  cbn [mem_run fold_left]. rewrite E. cbn [obind]. rewrite <- Hc1. done.
Qed.

(** The MemTable refines a finite map: after any sequence of puts and
    deletes with non-empty keys no call has failed or underflowed the byte
    counter, reads answer from the map, iteration is its entries in ascending
    key order, and the counter is exactly the sum of the key and value lengths. *)
Theorem memtable_refines_map cs :
  Forall (fun c => call_key c <> []) cs ->
  exists t, mem_run MemTable_new cs = Ok t /\
    let m := fold_left map_apply cs ∅ in
    (forall k, k <> [] -> MemTable_get t k = Ok (m !! k)) /\
    MemTable_iter t = btree_iter m /\
    MemTable_approx_bytes t = total_bytes m /\ MemTable_len t = Z.of_nat (size m).
Proof.
  intros Hcs. destruct (mem_run_laws MemTable_new cs) as (t & E & [Hb _] & Hc); [apply mem_wf_new|done|].
  exists t. split; [exact E|]. simpl in Hc. cbv zeta. rewrite <- Hc.
  split; [intros; by apply MemTable_get_ok|]. done.
Qed.

Lemma memtable_refines_map_witness :
  exists t, mem_run MemTable_new [CallPut (bs "a") (bs "1"); CallDelete (bs "a")] = Ok t /\
    MemTable_get t (bs "a") = Ok None.
Proof.
  destruct (memtable_refines_map [CallPut (bs "a") (bs "1"); CallDelete (bs "a")]) as (t & E & Hg & _).
  { repeat constructor; discriminate. }
  exists t. split; [exact E|]. rewrite Hg by discriminate. reflexivity.
Defined.

Lemma filter_all_false {A} (P : A -> Prop) `{!forall x, Decision (P x)} l :
  Forall (fun x => ~ P x) l -> filter P l = [].
Proof. induction 1; [done|]. rewrite filter_cons. by rewrite decide_False. Qed.

Lemma window_filter (start end_ : bytes) (l : list (bytes * bytes)) :
  StronglySorted entry_lt l ->
  take_while (fun e : bytes * bytes => bytes_ltb e.1 end_)
    (skip_while (fun e : bytes * bytes => bytes_ltb e.1 start) l) =
  filter (fun e => above_lo (Included start) e.1 && below_hi (Excluded end_) e.1 = true) l.
Proof.
  assert (Htake : forall l, StronglySorted entry_lt l ->
    Forall (fun e : bytes * bytes => bytes_le start e.1) l ->
    take_while (fun e : bytes * bytes => bytes_ltb e.1 end_) l =
    filter (fun e => above_lo (Included start) e.1 && below_hi (Excluded end_) e.1 = true) l).
  { clear l. intros l Hs Hlo. induction Hs as [|e l Hs IH Hall]; [done|].
    inversion Hlo as [|? ? He Hl]; subst. rewrite filter_cons. simpl in *.
    rewrite He. simpl. destruct (bytes_ltb e.1 end_) eqn:E.
    - rewrite decide_True by done. f_equal. by apply IH.
    - rewrite decide_False by done. symmetry. apply filter_all_false.
      rewrite Forall_forall in Hall |- *. intros x Hx [_ Hlt]%andb_true_iff.
      specialize (Hall x Hx). unfold entry_lt in Hall. simpl in Hall.
      assert (bytes_lt e.1 end_) by (eapply bytes_lt_trans; [exact Hall|exact Hlt]). congruence. }
  intros Hs. induction Hs as [|e l Hs IH Hall]; [done|]. cbn [skip_while].
  destruct (bytes_ltb e.1 start) eqn:E.
  - rewrite IH, filter_cons, decide_False; [done|]. simpl. intros [Hle _]%andb_true_iff.
    by apply bytes_lt_not_le in E.
  - apply Htake; [by constructor|]. assert (bytes_le start e.1).
    { rewrite bytes_ltb_leb in E. by apply negb_false_iff in E. }
    constructor; [done|]. rewrite Forall_forall in Hall |- *. intros x Hx.
    specialize (Hall x Hx). unfold entry_lt in Hall. simpl in Hall.
    eapply bytes_le_trans; [done|]. by apply bytes_lt_le.
Qed.

(** The MemTable's bounded scan agrees with the trait's default (skip and
    take over the full iteration) on every range that is not inverted, and
    where they differ the bounded scan panics. *)
Theorem memtable_range_is_default t start end_ :
  MemTable_range (E:=StorageError) t start end_ =
  if bytes_ltb end_ start then Panic else Ok (default_range t start end_).
Proof.
  unfold MemTable_range, btree_range, default_range. simpl.
  rewrite window_filter by apply btree_iter_sorted.
  unfold range_panics. rewrite bytes_ltb_leb.
  repeat case_test; try done.
Qed.

(** The write gate on every branch, for sane thresholds: it refuses exactly
    at the stop threshold, never delays a write below the slowdown threshold
    with memory to spare, never sleeps longer than the cap plus 5 ms, and a
    longer L0 backlog never shortens the delay. *)
Theorem gate_write_spec c l0 l0' mem max :
  0 < l0_slowdown_trigger c <= l0_stop_trigger c -> 0 <= slowdown_ms_per_file c ->
  0 <= max_slowdown_ms c -> 0 <= l0 <= l0' ->
  (is_ok (gate_write c l0 mem max) = false <-> l0_stop_trigger c <= l0) /\
  (forall d, gate_write c l0 mem max = Ok d ->
     0 <= d <= max_slowdown_ms c + 5 /\
     (l0 < l0_slowdown_trigger c -> mem < max * 9 / 10 -> d = 0) /\
     forall d', gate_write c l0' mem max = Ok d' -> d <= d').
Proof.
  intros Ht Hs Hm Hl. unfold gate_write.
  set (full := if (max >? 0) && (mem >=? max * 9 / 10) then 5 else 0).
  assert (Hfull : 0 <= full <= 5) by (unfold full; case_test; lia).
  assert (Hnone : mem < max * 9 / 10 -> full = 0).
  { intros. unfold full. case_test; [bool_to_prop; lia|done]. }
  set (delay := fun n : Z => Z.min (sat 64 ((n - l0_slowdown_trigger c + 1) * slowdown_ms_per_file c))
                           (max_slowdown_ms c)).
  assert (Hd : forall n, 0 <= delay n <= max_slowdown_ms c).
  { intros n. unfold delay, sat, umax. lia. }
  assert (Hmono : delay l0 <= delay l0').
  { unfold delay, sat. assert ((l0 - l0_slowdown_trigger c + 1) * slowdown_ms_per_file c <=
      (l0' - l0_slowdown_trigger c + 1) * slowdown_ms_per_file c) by nia. lia. }
  fold (delay l0) (delay l0').
  destruct (l0 >=? l0_stop_trigger c) eqn:E1; bool_to_prop; simpl; (split; [split; [lia || done|done || lia]|]);
    intros d [= <-].
  pose proof (Hd l0). pose proof (Hd l0').
  split; [case_test; lia|]. split; [intros; case_test; lia|].
  destruct (l0' >=? l0_stop_trigger c); [done|]. intros d' [= <-].
  destruct (l0 >=? l0_slowdown_trigger c) eqn:E2, (l0' >=? l0_slowdown_trigger c) eqn:E3; bool_to_prop; lia.
Qed.

Lemma gate_write_spec_witness :
  gate_write WriteStallConfig_default 8 0 100 <> Ok 0 /\
  is_ok (gate_write WriteStallConfig_default 8 0 100) = false.
Proof.
  split; [discriminate|].
  apply (proj1 (gate_write_spec WriteStallConfig_default 8 9 0 100
    ltac:(simpl; lia) ltac:(simpl; lia) ltac:(simpl; lia) ltac:(lia))). simpl. lia.
Defined.
