(* ===== verification/Wal.v ===== *)
(** * The write-ahead log
      (crates/noedb-storage/src/wal/entry.rs, wal/mod.rs, wal/segments.rs, fast_wal.rs)

    A log file is its bytes; the file cursor sits at the end after [open], so a
    write appends.  [wal_dir] is the [wal/] directory: the segment files by id
    and the number in [CURRENT] ([None] when it is missing or unreadable, which
    [unwrap_or(1)] treats alike).  Beside each segment stands the length that
    an [fsync] has made durable; [crash_dir] keeps at least that much of every
    segment and any prefix beyond it.  Failures of the file system itself are
    not modelled, apart from a missing file. *)

From S2P Require Import Prelude BTree StorageError Mvcc MemTable.

(** ** entry.rs *)

Definition WAL_MAGIC : bytes := bs "NOEW".
Definition WAL_VERSION : Z := 1.

Inductive OpType : Type := OpPut | OpDelete.

#[global] Instance OpType_eq_dec : EqDecision OpType.
Proof. solve_decision. Defined.

Definition OpType_to_byte (op : OpType) : byte :=
  match op with OpPut => x00 | OpDelete => x01 end.

Definition OpType_from_byte (b : byte) : outcome StorageError OpType :=
  match b with
  | x00 => Ok OpPut
  | x01 => Ok OpDelete
  | _ => Err (CorruptWal "unknown OpType tag")
  end.

Record LogEntry : Type := mkLogEntry { le_op : OpType; le_key : bytes; le_value : bytes }.

#[global] Instance LogEntry_eq_dec : EqDecision LogEntry.
Proof. solve_decision. Defined.

Definition LogEntry_put (key value : bytes) : LogEntry := mkLogEntry OpPut key value.
Definition LogEntry_delete (key : bytes) : LogEntry := mkLogEntry OpDelete key [].

Definition entry_payload (e : LogEntry) : bytes :=
  OpType_to_byte (le_op e) :: le_bytes 4 (len (le_key e)) ++ le_key e
    ++ le_bytes 4 (len (le_value e)) ++ le_value e.

(** The casts [as u32] truncate ([le_bytes 4] keeps the low four bytes), and
    the record length wraps. *)
Definition LogEntry_encode (e : LogEntry) : outcome StorageError bytes :=
  if bool_decide (le_key e = []) then Err (InvalidInput "WAL key must not be empty")
  else if bool_decide (le_op e = OpDelete /\ le_value e <> [])
  then Err (InvalidInput "delete records must not carry a value")
  else
    let payload := entry_payload e in
    let checksum := crc32 payload in
    let record_len := wrap 32 (4 + len payload) in
    Ok (le_bytes 4 record_len ++ le_bytes 4 checksum ++ payload).

Definition wal_read_u32 (data : bytes) (off : Z) : outcome StorageError Z :=
  let? s := ok_or (slice data off 4) (CorruptWal "truncated u32") in
  Ok (le_val s).

Definition read_len_prefixed (data : bytes) (off : Z) : outcome StorageError (bytes * Z) :=
  let? n := wal_read_u32 data off in
  let off := off + 4 in
  if off + n >? len data then Err (CorruptWal "truncated field") else
  let? s := index_range data off n in
  Ok (s, off + n).

Definition decode_payload (payload : bytes) : outcome StorageError LogEntry :=
  match payload with
  | [] => Err (CorruptWal "empty payload")
  | tag :: _ =>
      let? op := OpType_from_byte tag in
      let? '(key, off) := read_len_prefixed payload 1 in
      let? '(value, _) := read_len_prefixed payload off in
      if bool_decide (key = []) then Err (CorruptWal "empty key in WAL record")
      else if bool_decide (op = OpDelete /\ value <> [])
      then Err (CorruptWal "delete with non-empty value")
      else Ok (mkLogEntry op key value)
  end.

Definition LogEntry_decode (data : bytes) : outcome StorageError (LogEntry * Z) :=
  if len data <? 4 then Err (CorruptWal "truncated record length") else
  let? record_len := wal_read_u32 data 0 in
  if len data <? 4 + record_len then Err (CorruptWal "truncated record body") else
  let? record := index_range data 4 record_len in
  if len record <? 4 then Err (CorruptWal "missing checksum") else
  let? expected_crc := wal_read_u32 record 0 in
  let? payload := index_range record 4 (len record - 4) in
  if negb (crc32 payload =? expected_crc) then Err ChecksumMismatch else
  let? entry := decode_payload payload in
  Ok (entry, 4 + record_len).

(** ** mod.rs *)

Definition HEADER_LEN : Z := 6.
Definition wal_header : bytes := WAL_MAGIC ++ le_bytes 2 WAL_VERSION.

(** [read_exact] fails with an I/O error at end of file. *)
Definition validate_header (file : bytes) : outcome StorageError unit :=
  let? magic := ok_or (slice file 0 4) (Io "failed to fill whole buffer") in
  if negb (bool_decide (magic = WAL_MAGIC)) then Err (CorruptWal "bad WAL magic") else
  let? ver := ok_or (slice file 4 2) (Io "failed to fill whole buffer") in
  if negb (le_val ver =? WAL_VERSION) then Err (CorruptWal "unsupported WAL version") else
  Ok tt.

(** [Wal::open] on the file's bytes ([None]: no file yet, created empty);
    the result is the file after the call. *)
Definition Wal_open (file : option bytes) : outcome StorageError bytes :=
  let f := default [] file in
  if len f =? 0 then Ok wal_header
  else if len f <? HEADER_LEN then Err (CorruptWal "truncated WAL header")
  else let? _ := validate_header f in Ok f.

Definition Wal_append (file : bytes) (e : LogEntry) : outcome StorageError bytes :=
  let? b := LogEntry_encode e in Ok (file ++ b).

(** The loop of [read_all]; every record takes at least eight bytes, so the
    buffer's length is enough fuel.  [None] means that the fuel ran out. *)
Fixpoint read_records (fuel : nat) (buf : bytes) : option (outcome StorageError (list LogEntry)) :=
  match fuel with
  | O => None
  | S fuel' =>
      match buf with
      | [] => Some (Ok [])
      | _ =>
          match LogEntry_decode buf with
          | Ok (entry, n) =>
              match read_records fuel' (drop (Z.to_nat n) buf) with
              | Some (Ok rest) => Some (Ok (entry :: rest))
              | r => r
              end
          | Err e => Some (Err e)
          | Panic => Some Panic
          end
      end
  end.

Definition Wal_read_all (file : option bytes) : outcome StorageError (list LogEntry) :=
  match file with
  | None => Err (Io "No such file or directory")
  | Some f =>
      let? _ := validate_header f in
      let buf := drop (Z.to_nat HEADER_LEN) f in
      match read_records (S (length buf)) buf with
      | Some r => r
      | None => Panic
      end
  end.

Definition replay_entry (t : MemTable) (e : LogEntry) : outcome StorageError MemTable :=
  match le_op e with
  | OpPut => MemTable_put t (le_key e) (le_value e)
  | OpDelete => let? '(_, t') := MemTable_delete t (le_key e) in Ok t'
  end.

Fixpoint replay_entries (t : MemTable) (es : list LogEntry) : outcome StorageError MemTable :=
  match es with
  | [] => Ok t
  | e :: es' => let? t' := replay_entry t e in replay_entries t' es'
  end.

Definition replay_into_memtable (file : option bytes) (t : MemTable)
    : outcome StorageError (Z * MemTable) :=
  let? es := Wal_read_all file in
  let? t' := replay_entries t es in
  Ok (len es, t').

(** ** segments.rs *)

Inductive WalSyncMode : Type := EveryAppend | OnFlush.

#[global] Instance WalSyncMode_eq_dec : EqDecision WalSyncMode.
Proof. solve_decision. Defined.

(** The [wal/] directory: each segment with the length known to be durable. *)
Record wal_dir : Type := mkWalDir {
  wd_segments : gmap Z (bytes * Z);
  wd_current : option Z;
}.

Record WalSegmentManager : Type := mkWalSegmentManager {
  ws_dir : wal_dir;
  ws_active_id : Z;
  ws_sync_mode : WalSyncMode;
}.

Definition set_segment (d : wal_dir) (id : Z) (f : bytes * Z) : wal_dir :=
  mkWalDir (<[id := f]> (wd_segments d)) (wd_current d).

(** Opening a segment: a new file gets its header and an [fsync]. *)
Definition open_segment (d : wal_dir) (id : Z) : outcome StorageError wal_dir :=
  let? f := Wal_open (fst <$> wd_segments d !! id) in
  let durable := match wd_segments d !! id with
                 | Some (b, n) => if len b =? 0 then len f else n
                 | None => len f
                 end in
  Ok (set_segment d id (f, durable)).

Definition open_with_sync (d : wal_dir) (mode : WalSyncMode) : outcome StorageError WalSegmentManager :=
  let active_id := default 1 (wd_current d) in
  let? d' := open_segment d active_id in
  Ok (mkWalSegmentManager d' active_id mode).

Definition active_file (w : WalSegmentManager) : bytes * Z :=
  default ([], 0) (wd_segments (ws_dir w) !! ws_active_id w).

Definition with_active (w : WalSegmentManager) (f : bytes * Z) : WalSegmentManager :=
  mkWalSegmentManager (set_segment (ws_dir w) (ws_active_id w) f) (ws_active_id w) (ws_sync_mode w).

Definition WalSegmentManager_sync (w : WalSegmentManager) : WalSegmentManager :=
  let '(f, _) := active_file w in with_active w (f, len f).

Definition append_unsynced (w : WalSegmentManager) (e : LogEntry)
    : outcome StorageError WalSegmentManager :=
  let '(f, n) := active_file w in
  let? f' := Wal_append f e in
  Ok (with_active w (f', n)).

Definition WalSegmentManager_append (w : WalSegmentManager) (e : LogEntry)
    : outcome StorageError WalSegmentManager :=
  let? w' := append_unsynced w e in
  Ok (if bool_decide (ws_sync_mode w = EveryAppend) then WalSegmentManager_sync w' else w').

(** [rotate]: sync, open the next segment, then point [CURRENT] at it. *)
Definition rotate (w : WalSegmentManager) : outcome StorageError (Z * WalSegmentManager) :=
  let w := WalSegmentManager_sync w in
  let old_id := ws_active_id w in
  let id := wrap 64 (old_id + 1) in
  let? d := open_segment (ws_dir w) id in
  Ok (old_id, mkWalSegmentManager (mkWalDir (wd_segments d) (Some id)) id (ws_sync_mode w)).

Definition delete_segment (d : wal_dir) (id : Z) : wal_dir :=
  mkWalDir (delete id (wd_segments d)) (wd_current d).

Fixpoint replay_segments (segs : list (Z * (bytes * Z))) (t : MemTable) (total : Z)
    : outcome StorageError (Z * MemTable) :=
  match segs with
  | [] => Ok (total, t)
  | (_, (f, _)) :: segs' =>
      let? '(n, t') := replay_into_memtable (Some f) t in
      replay_segments segs' t' (total + n)
  end.

(** [None] for the directory: it does not exist. *)
Definition replay_all (d : option wal_dir) (t : MemTable) : outcome StorageError (Z * MemTable) :=
  match d with
  | None => Ok (0, t)
  | Some d => replay_segments (btree_iter (wd_segments d)) t 0
  end.

(** fast_wal.rs: an entry that cannot be encoded stops the batch, leaving the
    earlier ones written but not synced. *)
Fixpoint append_all (w : WalSegmentManager) (es : list LogEntry)
    : outcome StorageError unit * WalSegmentManager :=
  match es with
  | [] => (Ok tt, w)
  | e :: es' =>
      match append_unsynced w e with
      | Ok w' => append_all w' es'
      | Err err => (Err err, w)
      | Panic => (Panic, w)
      end
  end.

Definition append_batch_sync (w : WalSegmentManager) (es : list LogEntry)
    : outcome StorageError unit * WalSegmentManager :=
  match append_all w es with
  | (Ok _, w') => (Ok tt, WalSegmentManager_sync w')
  | r => r
  end.

(** ** The record codec *)

(** An entry the encoder accepts and whose lengths fit the 32-bit fields. *)
Definition entry_ok (e : LogEntry) : Prop :=
  le_key e <> [] /\ (le_op e = OpDelete -> le_value e = []) /\
  len (le_key e) + len (le_value e) + 13 < 2 ^ 32.

#[global] Instance entry_ok_dec e : Decision (entry_ok e).
Proof. unfold entry_ok. apply _. Defined.

Definition encoded (e : LogEntry) : bytes :=
  le_bytes 4 (4 + len (entry_payload e)) ++ le_bytes 4 (crc32 (entry_payload e)) ++ entry_payload e.

Lemma len_entry_payload e : len (entry_payload e) = 9 + len (le_key e) + len (le_value e).
Proof. unfold entry_payload. autorewrite with len. lia. Qed.

Lemma len_encoded e : len (encoded e) = 17 + len (le_key e) + len (le_value e).
Proof. unfold encoded. rewrite !len_app, !len_le_bytes, len_entry_payload. lia. Qed.

Lemma encode_ok e : entry_ok e -> LogEntry_encode e = Ok (encoded e).
Proof.
  intros (Hk & Hd & Hl). unfold LogEntry_encode, encoded.
  rewrite !bool_decide_eq_false_2 by naive_solver.
  pose proof (len_entry_payload e). pose proof (len_nonneg (entry_payload e)).
  unfold wrap. rewrite Z.mod_small by lia. done.
Qed.

Lemma read_u32_slice data off b :
  slice data off 4 = Some b -> wal_read_u32 data off = Ok (le_val b).
Proof. unfold wal_read_u32. by intros ->. Qed.

Lemma read_prefixed_app p x s :
  len x < 2 ^ 32 ->
  read_len_prefixed (p ++ le_bytes 4 (len x) ++ x ++ s) (len p) = Ok (x, len p + 4 + len x).
Proof.
  intros Hx. pose proof (len_nonneg x). pose proof (len_nonneg p). pose proof (len_nonneg s).
  unfold read_len_prefixed. rewrite (read_u32_slice _ _ (le_bytes 4 (len x))).
  2:{ apply slice_app3; [done|]. by rewrite len_le_bytes. }
  cbn [obind]. rewrite le_val_le_bytes by (simpl; lia).
  assert (Hlen : len (p ++ le_bytes 4 (len x) ++ x ++ s) = len p + 4 + len x + len s).
  { autorewrite with len. lia. }
  rewrite Hlen, Z.gtb_ltb, (proj2 (Z.ltb_ge _ _)) by lia. unfold index_range.
  rewrite app_assoc, slice_app3; [done| |done]. autorewrite with len. lia.
Qed.

Lemma from_to_byte op : OpType_from_byte (OpType_to_byte op) = Ok op.
Proof. by destruct op. Qed.

Lemma decode_payload_encoded e : entry_ok e -> decode_payload (entry_payload e) = Ok e.
Proof.
  intros (Hk & Hd & Hl). pose proof (len_nonneg (le_key e)). pose proof (len_nonneg (le_value e)).
  unfold decode_payload, entry_payload at 1. rewrite from_to_byte. cbn [obind].
  unfold entry_payload.
  pose proof (read_prefixed_app [OpType_to_byte (le_op e)] (le_key e)
    (le_bytes 4 (len (le_value e)) ++ le_value e)) as H1.
  change (len [OpType_to_byte (le_op e)]) with 1 in H1. cbn [app] in H1.
  rewrite H1 by lia. cbn [obind].
  pose proof (read_prefixed_app (OpType_to_byte (le_op e) :: le_bytes 4 (len (le_key e)) ++ le_key e)
    (le_value e) []) as H2.
  rewrite app_nil_r in H2. cbn [app] in H2. rewrite <- app_assoc in H2.
  replace (len (_ :: _)) with (1 + 4 + len (le_key e)) in H2 by (autorewrite with len; lia).
  rewrite H2 by lia. cbn [obind].
  rewrite !bool_decide_eq_false_2 by naive_solver. by destruct e.
Qed.

(** What [decode] does on a record whose length field spans [body]. *)
Lemma decode_framed crc payload rest :
  in_u 32 (4 + len payload) -> in_u 32 crc ->
  LogEntry_decode (le_bytes 4 (4 + len payload) ++ le_bytes 4 crc ++ payload ++ rest) =
  if negb (crc32 payload =? crc) then Err ChecksumMismatch
  else let? entry := decode_payload payload in Ok (entry, 8 + len payload).
Proof.
  intros Hn Hc. pose proof (len_nonneg payload). pose proof (len_nonneg rest).
  unfold LogEntry_decode.
  assert (Hl : len (le_bytes 4 (4 + len payload) ++ le_bytes 4 crc ++ payload ++ rest)
               = 8 + len payload + len rest) by (autorewrite with len; lia).
  rewrite Hl, (proj2 (Z.ltb_ge _ _)) by lia.
  rewrite (read_u32_slice _ _ (le_bytes 4 (4 + len payload))).
  2:{ apply slice_here; [done|]. by rewrite len_le_bytes. }
  cbn [obind]. rewrite le_val_le_bytes by (simpl; lia).
  rewrite (proj2 (Z.ltb_ge _ _)) by lia.
  rewrite (index_range_ok _ _ _ (le_bytes 4 crc ++ payload)).
  2:{ rewrite (app_assoc (le_bytes 4 crc)).
      apply slice_app3; autorewrite with len; lia. }
  cbn [obind]. rewrite len_app, len_le_bytes, (proj2 (Z.ltb_ge _ _)) by lia.
  rewrite (read_u32_slice _ _ (le_bytes 4 crc)).
  2:{ apply slice_here; [done|]. by rewrite len_le_bytes. }
  cbn [obind]. rewrite le_val_le_bytes by (simpl; lia).
  rewrite (index_range_ok _ _ _ payload).
  2:{ rewrite <- (app_nil_r payload) at 1. apply slice_app3; autorewrite with len; lia. }
  cbn [obind]. replace (4 + (4 + len payload)) with (8 + len payload) by lia. done.
Qed.

Lemma payload_bound e : entry_ok e -> in_u 32 (4 + len (entry_payload e)).
Proof.
  intros (_ & _ & ?). rewrite len_entry_payload.
  pose proof (len_nonneg (le_key e)). pose proof (len_nonneg (le_value e)). lia.
Qed.

Lemma decode_encoded e rest :
  entry_ok e -> LogEntry_decode (encoded e ++ rest) = Ok (e, len (encoded e)).
Proof.
  intros He. unfold encoded. rewrite <- !app_assoc, decode_framed.
  - rewrite Z.eqb_refl. cbn [negb]. rewrite decode_payload_encoded by done. cbn [obind].
    f_equal. f_equal. autorewrite with len. lia.
  - by apply payload_bound.
  - apply crc32_range.
Qed.

(** Reads never leave the slice: decoding arbitrary bytes cannot panic. *)
Lemma read_u32_not_panic data off : wal_read_u32 data off <> Panic.
Proof. unfold wal_read_u32. by destruct (slice data off 4). Qed.

Lemma read_u32_range data off n : wal_read_u32 data off = Ok n -> in_u 32 n.
Proof.
  unfold wal_read_u32. destruct (slice data off 4) as [b|] eqn:E; [|done].
  intros [= <-]. pose proof (le_val_range b) as H.
  apply slice_Some_len in E. unfold len in E. rewrite E in H. simpl in H. lia.
Qed.

Lemma read_prefixed_not_panic data off :
  0 <= off -> read_len_prefixed data off <> Panic /\
  forall x off', read_len_prefixed data off = Ok (x, off') -> 0 <= off'.
Proof.
  intros Ho. unfold read_len_prefixed. pose proof (read_u32_not_panic data off).
  destruct (wal_read_u32 data off) as [n|e|] eqn:E; [|done..]. cbn [obind].
  apply read_u32_range in E.
  case_test; [done|]. destruct (slice_in_bounds data (off + 4) n) as [x Hx]; [lia..|].
  rewrite (index_range_ok _ _ _ _ Hx). split; [done|]. simpl. intros ? ? [= <- <-]. lia.
Qed.

Lemma decode_payload_not_panic payload : decode_payload payload <> Panic.
Proof.
  unfold decode_payload. destruct payload as [|tag p]; [done|].
  assert (OpType_from_byte tag <> Panic) by (by destruct tag).
  destruct (OpType_from_byte tag) as [op|e|]; [|done..]. cbn [obind].
  destruct (read_prefixed_not_panic (tag :: p) 1) as [H1 Ho]; [lia|].
  destruct (read_len_prefixed (tag :: p) 1) as [[k off]|e|]; [|done..]. cbn [obind].
  destruct (read_prefixed_not_panic (tag :: p) off) as [H2 _]; [by eapply Ho|].
  destruct (read_len_prefixed (tag :: p) off) as [[v off']|e|]; [|done..]. cbn [obind].
  by repeat case_test.
Qed.

Lemma decode_not_panic data : LogEntry_decode data <> Panic.
Proof.
  unfold LogEntry_decode. case_test; [done|].
  pose proof (read_u32_not_panic data 0).
  destruct (wal_read_u32 data 0) as [n|e|] eqn:En; [|done..]. cbn [obind].
  apply read_u32_range in En. case_test; [done|].
  destruct (slice_in_bounds data 4 n) as [r Hr]; [lia..|].
  rewrite (index_range_ok _ _ _ _ Hr). cbn [obind]. case_test; [done|].
  pose proof (read_u32_not_panic r 0).
  destruct (wal_read_u32 r 0) as [c|e|]; [|done..]. cbn [obind].
  destruct (slice_in_bounds r 4 (len r - 4)) as [p Hp]; [lia..|].
  rewrite (index_range_ok _ _ _ _ Hp). cbn [obind]. case_test; [done|].
  pose proof (decode_payload_not_panic p). by destruct (decode_payload p).
Qed.

(** A record takes at least eight bytes, all of them present. *)
Lemma decode_consumes data e n :
  LogEntry_decode data = Ok (e, n) -> 8 <= n <= len data.
Proof.
  unfold LogEntry_decode. case_test; [done|]. intros H. inv_ok.
  destruct (_ <? _) eqn:E1 in H; [done|]. inv_ok. bool_to_prop.
  destruct (_ <? _) eqn:E2 in H; [done|]. inv_ok. bool_to_prop.
  destruct (negb _) in H; [done|]. inv_ok.
  match goal with H : index_range _ 4 _ = Ok ?r, E : 4 <= len ?r |- _ => rename H into Hr end.
  unfold index_range in Hr. destruct (slice data 4 x) as [r|] eqn:Es; [|done].
  injection Hr as ->. apply slice_Some_len in Es. lia.
Qed.

(** Dropping the tail of a record: the length field promises more than there is. *)
Lemma decode_torn e n :
  entry_ok e -> 0 < Z.of_nat n < len (encoded e) ->
  exists m, LogEntry_decode (take n (encoded e)) = Err (CorruptWal m).
Proof.
  intros He Hn. unfold LogEntry_decode. pose proof (payload_bound e He) as Hp.
  assert (Hl : len (take n (encoded e)) = Z.of_nat n).
  { unfold len in *. rewrite length_take. lia. }
  rewrite Hl. case_test; [eauto|].
  assert (Hs : slice (take n (encoded e)) 0 4 = Some (le_bytes 4 (4 + len (entry_payload e)))).
  { unfold encoded. rewrite take_app_ge by (rewrite length_le_bytes; lia).
    apply slice_here; [done|]. by rewrite len_le_bytes. }
  rewrite (read_u32_slice _ _ _ Hs). cbn [obind]. rewrite le_val_le_bytes by (simpl; lia).
  rewrite len_encoded in Hn. rewrite len_entry_payload. rewrite (proj2 (Z.ltb_lt _ _)) by lia. eauto.
Qed.

(** ** The whole file *)

Definition encode_all (es : list LogEntry) : bytes := concat (map encoded es).

Lemma read_records_total fuel buf :
  (length buf < fuel)%nat -> exists r, read_records fuel buf = Some r /\ r <> Panic.
Proof.
  revert buf. induction fuel as [|fuel IH]; intros buf Hf; [lia|]. cbn [read_records].
  destruct buf as [|b buf]; [by exists (Ok [])|].
  pose proof (decode_not_panic (b :: buf)) as Hnp.
  destruct (LogEntry_decode (b :: buf)) as [[e n]|err|] eqn:E; [|by eexists|done].
  apply decode_consumes in E. destruct (IH (drop (Z.to_nat n) (b :: buf))) as (r & -> & Hr).
  { unfold len in E. rewrite length_drop. lia. }
  destruct r; [by eexists|by eexists|done].
Qed.

Lemma read_records_app es fuel tail :
  Forall entry_ok es -> (length (encode_all es ++ tail) < fuel)%nat ->
  read_records fuel (encode_all es ++ tail) =
    match read_records (S (length tail)) tail with
    | Some (Ok rest) => Some (Ok (es ++ rest))
    | r => r
    end.
Proof.
  intros Hes. revert fuel. induction Hes as [|e es He Hes IH]; intros fuel Hf.
  - change (encode_all [] ++ tail) with tail in *.
    assert (forall f1 f2 b, (length b < f1)%nat -> (length b < f2)%nat ->
      read_records f1 b = read_records f2 b) as Heq.
    { induction f1 as [|f1 IHf]; intros f2 b H1 H2; [lia|]. destruct f2 as [|f2]; [lia|].
      cbn [read_records]. destruct b as [|c b]; [done|].
      destruct (LogEntry_decode (c :: b)) as [[e n]|err|] eqn:E; [|done..].
      apply decode_consumes in E. unfold len in E.
      rewrite (IHf f2); [done|rewrite length_drop; lia..]. }
    rewrite (Heq fuel (S (length tail))) by lia.
    destruct (read_records (S (length tail)) tail) as [[]|]; done.
  - set (R := read_records (S (length tail)) tail) in *. destruct fuel as [|fuel]; [lia|].
    change (encode_all (e :: es)) with (encoded e ++ encode_all es) in *.
    rewrite <- app_assoc in *. pose proof (len_encoded e) as Hle.
    pose proof (len_nonneg (le_key e)). pose proof (len_nonneg (le_value e)).
    cbn [read_records]. destruct (encoded e ++ encode_all es ++ tail) as [|b l] eqn:El.
    { apply (f_equal len) in El. rewrite len_app, Hle in El. pose proof (len_nonneg (encode_all es ++ tail)).
      change (len (@nil byte)) with 0 in El. lia. }
    rewrite <- El in *. rewrite decode_encoded by done.
    replace (Z.to_nat (len (encoded e))) with (length (encoded e)) by (unfold len; lia).
    rewrite drop_app_length, IH.
    + by destruct R as [[]|].
    + rewrite El in Hf. apply (f_equal length) in El. rewrite length_app in El.
      unfold len in Hle. lia.
Qed.

Lemma validate_header_ok rest : validate_header (wal_header ++ rest) = Ok tt.
Proof.
  unfold validate_header, wal_header. rewrite <- app_assoc.
  rewrite slice_here by done. cbn [ok_or obind]. rewrite bool_decide_eq_true_2 by done. cbn [negb].
  rewrite (slice_app3 WAL_MAGIC) by done. done.
Qed.

Lemma drop_header rest : drop (Z.to_nat HEADER_LEN) (wal_header ++ rest) = rest.
Proof. done. Qed.

Definition log_file (es : list LogEntry) : bytes := wal_header ++ encode_all es.

Lemma read_all_tail es tail :
  Forall entry_ok es ->
  Wal_read_all (Some (log_file es ++ tail)) =
    match read_records (S (length tail)) tail with
    | Some (Ok rest) => Ok (es ++ rest)
    | Some r => r
    | None => Panic
    end.
Proof.
  intros Hes. unfold Wal_read_all, log_file. rewrite <- app_assoc, validate_header_ok. cbn [obind].
  rewrite drop_header, read_records_app by (done || lia).
  by destruct (read_records (S (length tail)) tail) as [[]|].
Qed.

Lemma read_all_log es : Forall entry_ok es -> Wal_read_all (Some (log_file es)) = Ok es.
Proof.
  intros Hes. rewrite <- (app_nil_r (log_file es)), read_all_tail by done. simpl.
  by rewrite app_nil_r.
Qed.

Lemma log_file_app es e : log_file (es ++ [e]) = log_file es ++ encoded e.
Proof.
  unfold log_file, encode_all. rewrite map_app, concat_app. cbn [map concat].
  by rewrite app_nil_r, app_assoc.
Qed.

(** *** Replay *)

Definition entry_call (e : LogEntry) : mem_call :=
  match le_op e with OpPut => CallPut (le_key e) (le_value e) | OpDelete => CallDelete (le_key e) end.

(** The map a log stands for. *)
Definition log_map (es : list LogEntry) (m : gmap bytes bytes) : gmap bytes bytes :=
  fold_left map_apply (map entry_call es) m.

Lemma replay_entries_run t es : replay_entries t es = mem_run t (map entry_call es).
Proof.
  revert t. induction es as [|e es IH]; intros t; [done|]. cbn [replay_entries map mem_run].
  assert (replay_entry t e = mem_apply t (entry_call e)) as ->.
  { unfold replay_entry, entry_call. by destruct (le_op e). }
  destruct (mem_apply t (entry_call e)); simpl; auto.
Qed.

Lemma entry_calls_ok es : Forall entry_ok es -> Forall (fun c => call_key c <> []) (map entry_call es).
Proof.
  intros H. apply Forall_map. eapply Forall_impl; [exact H|]. intros e (Hk & _).
  unfold entry_call. by destruct (le_op e).
Qed.

Lemma replay_ok t es :
  mem_wf t -> Forall entry_ok es ->
  exists t', replay_entries t es = Ok t' /\ mem_wf t' /\ mem_map t' = log_map es (mem_map t).
Proof.
  intros Ht Hes. rewrite replay_entries_run.
  destruct (mem_run_laws t (map entry_call es)) as (t' & E & Hw & Hc); [done|by apply entry_calls_ok|].
  by exists t'.
Qed.

Lemma replay_log t es :
  mem_wf t -> Forall entry_ok es ->
  exists t', replay_into_memtable (Some (log_file es)) t = Ok (len es, t') /\
    mem_wf t' /\ mem_map t' = log_map es (mem_map t).
Proof.
  intros Ht Hes. unfold replay_into_memtable. rewrite read_all_log by done. cbn [obind].
  destruct (replay_ok t es Ht Hes) as (t' & -> & ? & ?). by exists t'.
Qed.

(** ** Segments *)

(** The iteration of a map whose largest key is [k]. *)
Lemma btree_iter_last {V} (m : gmap Z V) k v :
  (forall i, is_Some (m !! i) -> i <= k) ->
  btree_iter (<[k := v]> m) = btree_iter (delete k m) ++ [(k, v)].
Proof.
  intros Hmax. apply btree_iter_unique.
  - apply StronglySorted_app. split; [|split; [apply btree_iter_sorted|repeat constructor]].
    intros [i x] [j y] Hi Hj. apply elem_of_btree_iter in Hi.
    apply list_elem_of_singleton in Hj. injection Hj as -> ->.
    apply lookup_delete_Some in Hi as [Hne Hi].
    assert (i <= k) by (apply Hmax; eauto). apply klt_cmp. simpl. apply Z.compare_lt_iff. lia.
  - intros i x. rewrite elem_of_app, elem_of_btree_iter, list_elem_of_singleton.
    rewrite lookup_delete_Some, lookup_insert_Some. split.
    + intros [[Hne Hi]|[= -> ->]]; auto.
    + intros [[-> ->]|[Hne Hi]]; auto.
Qed.

(** The manager holds the log [es]: its segments, in id order, are log files
    whose entries concatenate to [es], and the active one is the last. *)
Definition holds (w : WalSegmentManager) (es : list LogEntry) : Prop :=
  exists logs : gmap Z (list LogEntry),
    (forall id, (fst <$> wd_segments (ws_dir w) !! id) = log_file <$> logs !! id) /\
    (forall id l, logs !! id = Some l -> Forall entry_ok l /\ id <= ws_active_id w) /\
    is_Some (logs !! ws_active_id w) /\
    es = concat (map snd (btree_iter logs)).

Lemma active_file_log w es (logs : gmap Z (list LogEntry)) :
  (forall id, (fst <$> wd_segments (ws_dir w) !! id) = log_file <$> logs !! id) ->
  logs !! ws_active_id w = Some es -> exists n, active_file w = (log_file es, n).
Proof.
  intros Hseg Ha. unfold active_file. specialize (Hseg (ws_active_id w)). rewrite Ha in Hseg.
  destruct (wd_segments (ws_dir w) !! ws_active_id w) as [[f n]|]; [|done].
  simpl in Hseg. injection Hseg as ->. by exists n.
Qed.

Lemma concat_last (logs : gmap Z (list LogEntry)) k l es :
  logs !! k = Some l -> (forall i, is_Some (logs !! i) -> i <= k) ->
  concat (map snd (btree_iter (<[k := l ++ es]> logs))) =
  concat (map snd (btree_iter logs)) ++ es.
Proof.
  intros Hk Hmax. rewrite btree_iter_last by done.
  rewrite <- (insert_id logs k l Hk) at 2. rewrite (btree_iter_last logs k l) by done.
  rewrite !map_app, !concat_app. cbn [map concat snd]. by rewrite !app_nil_r, app_assoc.
Qed.

(** Rewriting the active file with some new durable length. *)
Lemma holds_with_active w es l new n :
  (exists logs : gmap Z (list LogEntry), (forall id, (fst <$> wd_segments (ws_dir w) !! id) = log_file <$> logs !! id) /\
    (forall id l, logs !! id = Some l -> Forall entry_ok l /\ id <= ws_active_id w) /\
    logs !! ws_active_id w = Some l /\ es = concat (map snd (btree_iter logs))) ->
  Forall entry_ok new ->
  holds (with_active w (log_file (l ++ new), n)) (es ++ new).
Proof.
  intros (logs & Hseg & Hok & Ha & ->) Hnew.
  exists (<[ws_active_id w := l ++ new]> logs). repeat split.
  - intros id. simpl. destruct (decide (id = ws_active_id w)) as [->|Hne].
    + by rewrite !lookup_insert_eq.
    + rewrite !lookup_insert_ne by done. apply Hseg.
  - apply lookup_insert_Some in H as [[<- <-]|[_ H]]; [|by eapply Hok].
    apply Forall_app. split; [by eapply Hok|done].
  - apply lookup_insert_Some in H as [[<- <-]|[_ H]]; simpl; [lia|by eapply Hok].
  - simpl. rewrite lookup_insert_eq. eauto.
  - symmetry. apply concat_last; [done|]. intros i [x Hx]. by eapply Hok.
Qed.

Lemma append_unsynced_ok w es e :
  holds w es -> entry_ok e ->
  exists w' f n, append_unsynced w e = Ok w' /\ holds w' (es ++ [e]) /\ w' = with_active w (f, n).
Proof.
  intros (logs & Hseg & Hok & [l Ha] & Hes) He. unfold append_unsynced.
  destruct (active_file_log w l logs Hseg Ha) as [n ->]. unfold Wal_append.
  rewrite encode_ok by done. cbn [obind]. rewrite <- log_file_app.
  eexists _, _, _. split; [done|]. split; [|done]. apply holds_with_active; [|by apply Forall_singleton].
  exists logs. eauto.
Qed.

Lemma sync_ok w es : holds w es -> holds (WalSegmentManager_sync w) es.
Proof.
  intros (logs & Hseg & Hok & [l Ha] & Hes). unfold WalSegmentManager_sync.
  destruct (active_file_log w l logs Hseg Ha) as [n ->].
  rewrite <- (app_nil_r es), <- (app_nil_r l). apply holds_with_active; [|done].
  exists logs. eauto.
Qed.

Lemma append_ok w es e :
  holds w es -> entry_ok e ->
  exists w', WalSegmentManager_append w e = Ok w' /\ holds w' (es ++ [e]) /\
    ws_active_id w' = ws_active_id w /\ ws_sync_mode w' = ws_sync_mode w.
Proof.
  intros Hw He. unfold WalSegmentManager_append.
  destruct (append_unsynced_ok w es e Hw He) as (w' & f & n & -> & Hw' & ->). cbn [obind].
  case_bool_decide.
  - eexists. split; [done|]. split; [by apply sync_ok|]. unfold WalSegmentManager_sync.
    by destruct (active_file _).
  - by eexists.
Qed.

Lemma rotate_ok w es :
  holds w es -> 0 <= ws_active_id w < 2 ^ 64 - 1 ->
  exists w', rotate w = Ok (ws_active_id w, w') /\ holds w' es /\
    ws_active_id w' = ws_active_id w + 1 /\ ws_sync_mode w' = ws_sync_mode w.
Proof.
  intros Hw Hid. apply sync_ok in Hw. unfold rotate.
  assert (ws_active_id (WalSegmentManager_sync w) = ws_active_id w /\
          ws_sync_mode (WalSegmentManager_sync w) = ws_sync_mode w) as [Ha Hm].
  { unfold WalSegmentManager_sync. by destruct (active_file w). }
  set (w1 := WalSegmentManager_sync w) in *. rewrite Ha. unfold wrap. rewrite Z.mod_small by lia.
  destruct Hw as (logs & Hseg & Hok & Hact & ->). set (id := ws_active_id w + 1).
  assert (Hnone : logs !! id = None).
  { destruct (logs !! id) as [l|] eqn:E; [|done]. apply Hok in E as [_ E]. rewrite Ha in E. unfold id in E. lia. }
  assert (wd_segments (ws_dir w1) !! id = None) as Hfree.
  { specialize (Hseg id). rewrite Hnone in Hseg. by destruct (wd_segments (ws_dir w1) !! id). }
  unfold open_segment. rewrite Hfree. cbn [fmap option_fmap option_map Wal_open default obind].
  change (Wal_open None) with (@Ok StorageError bytes wal_header). cbn [obind].
  eexists. split; [done|]. rewrite Hm. split; [|done].
  exists (<[id := []]> logs). simpl. repeat split.
  - intros i. destruct (decide (i = id)) as [->|Hne].
    + rewrite !lookup_insert_eq. simpl. unfold log_file, encode_all. simpl. done.
    + rewrite !lookup_insert_ne by done. apply Hseg.
  - apply lookup_insert_Some in H as [[<- <-]|[_ H]]; [constructor|by eapply Hok].
  - apply lookup_insert_Some in H as [[<- <-]|[_ H]]; [lia|]. apply Hok in H as [_ H]. unfold id; lia.
  - rewrite lookup_insert_eq. eauto.
  - rewrite btree_iter_last, map_app, concat_app.
    + cbn [map concat snd]. rewrite !app_nil_r. by rewrite delete_id.
    + intros i [x Hx]. apply Hok in Hx as [_ Hx]. unfold id; lia.
Qed.

Lemma replay_segments_logs (segs : list (Z * (bytes * Z))) (logs : list (Z * list LogEntry)) t total :
  map (fun e => e.2.1) segs = map (fun e => log_file e.2) logs ->
  Forall (fun e => Forall entry_ok e.2) logs -> mem_wf t ->
  exists t', replay_segments segs t total = Ok (total + len (concat (map snd logs)), t') /\
    mem_wf t' /\ mem_map t' = log_map (concat (map snd logs)) (mem_map t).
Proof.
  revert logs t total. induction segs as [|[id [f n]] segs IH]; intros logs t total Hf Hok Ht.
  - destruct logs; [|done]. exists t. simpl. by rewrite Z.add_0_r.
  - destruct logs as [|[i l] logs]; [done|]. cbn [map fst snd] in Hf. injection Hf as -> Hf.
    inversion Hok as [|? ? Hl Hls]; subst. simpl in Hl. cbn [replay_segments].
    destruct (replay_log t l Ht Hl) as (t1 & -> & Ht1 & Hm1). cbn [obind].
    destruct (IH logs t1 (total + len l)) as (t' & -> & Ht' & Hm'); try done.
    exists t'. cbn [map concat snd]. split.
    + f_equal. f_equal. rewrite len_app. lia.
    + split; [done|]. rewrite Hm', Hm1. unfold log_map. by rewrite map_app, fold_left_app.
Qed.

Lemma replay_dir_wf d (logs : gmap Z (list LogEntry)) :
  (forall id, (fst <$> wd_segments d !! id) = log_file <$> logs !! id) ->
  (forall id l, logs !! id = Some l -> Forall entry_ok l) ->
  let es := concat (map snd (btree_iter logs)) in
  exists t, replay_all (Some d) MemTable_new = Ok (len es, t) /\ mem_wf t /\ mem_map t = log_map es ∅.
Proof.
  intros Hseg Hok es. destruct (replay_segments_logs (btree_iter (wd_segments d)) (btree_iter logs)
    MemTable_new 0) as (t & E & Hwf & Hm).
  - assert (fst <$> wd_segments d = log_file <$> logs) as Heq.
    { apply map_eq. intros id. rewrite !lookup_fmap. apply Hseg. }
    apply (f_equal btree_iter), (f_equal (map snd)) in Heq.
    rewrite !btree_iter_fmap, !map_map in Heq. exact Heq.
  - apply Forall_forall. intros [id l] Hin. apply elem_of_btree_iter in Hin. by eapply Hok.
  - apply mem_wf_new.
  - exists t. split; [exact E|]. split; [exact Hwf|exact Hm].
Qed.

Lemma replay_dir d (logs : gmap Z (list LogEntry)) :
  (forall id, (fst <$> wd_segments d !! id) = log_file <$> logs !! id) ->
  (forall id l, logs !! id = Some l -> Forall entry_ok l) ->
  let es := concat (map snd (btree_iter logs)) in
  exists t, replay_all (Some d) MemTable_new = Ok (len es, t) /\ mem_map t = log_map es ∅.
Proof.
  intros Hseg Hok es. destruct (replay_dir_wf d logs Hseg Hok) as (t & E & _ & Hm). by exists t.
Qed.

Lemma holds_replay w es :
  holds w es ->
  exists t, replay_all (Some (ws_dir w)) MemTable_new = Ok (len es, t) /\ mem_map t = log_map es ∅.
Proof.
  intros (logs & Hseg & Hok & _ & ->). apply replay_dir; [done|]. intros id l Hl. by eapply Hok.
Qed.

(** ** Histories of the log, and crashes *)

Inductive wal_op : Type := WAppend (e : LogEntry) | WRotate | WSync.

Definition wal_exec (w : WalSegmentManager) (op : wal_op) : outcome StorageError WalSegmentManager :=
  match op with
  | WAppend e => WalSegmentManager_append w e
  | WRotate => let? '(_, w') := rotate w in Ok w'
  | WSync => Ok (WalSegmentManager_sync w)
  end.

Fixpoint wal_run (w : WalSegmentManager) (ops : list wal_op) : outcome StorageError WalSegmentManager :=
  match ops with
  | [] => Ok w
  | op :: ops' => let? w' := wal_exec w op in wal_run w' ops'
  end.

Definition appended (ops : list wal_op) : list LogEntry :=
  omap (fun op => match op with WAppend e => Some e | _ => None end) ops.

(** A crash keeps the durable prefix of each segment and may lose any part of
    the rest; what is left is on disk. *)
Definition crash_dir (d d' : wal_dir) : Prop :=
  wd_current d' = wd_current d /\
  forall id, match wd_segments d !! id with
             | None => wd_segments d' !! id = None
             | Some (f, n) => exists m, n <= Z.of_nat m /\
                                wd_segments d' !! id = Some (take m f, len (take m f))
             end.

Definition all_durable (d : wal_dir) : Prop :=
  forall id f n, wd_segments d !! id = Some (f, n) -> n = len f.

Lemma crash_durable d d' :
  all_durable d -> crash_dir d d' -> forall id, fst <$> wd_segments d' !! id = fst <$> wd_segments d !! id.
Proof.
  intros Hd [_ Hc] id. specialize (Hc id). destruct (wd_segments d !! id) as [[f n]|] eqn:E.
  - destruct Hc as (m & Hm & ->). apply Hd in E as ->. simpl. f_equal.
    apply take_ge. unfold len in Hm. lia.
  - by rewrite Hc.
Qed.

Lemma durable_with_active w f : all_durable (ws_dir w) -> all_durable (ws_dir (with_active w (f, len f))).
Proof. intros H id f' n. simpl. rewrite lookup_insert_Some. intros [[_ [= <- <-]]|[_ ?]]; eauto. Qed.

Lemma durable_exec w op w' :
  ws_sync_mode w = EveryAppend -> all_durable (ws_dir w) -> wal_exec w op = Ok w' ->
  all_durable (ws_dir w').
Proof.
  intros Hm Hd. assert (Hsync : forall w, (forall id f n, wd_segments (ws_dir w) !! id = Some (f, n) ->
    id <> ws_active_id w -> n = len f) -> all_durable (ws_dir (WalSegmentManager_sync w))).
  { clear. intros w H. unfold WalSegmentManager_sync. destruct (active_file w) as [f n].
    intros id f' n'. simpl. rewrite lookup_insert_Some. intros [[_ [= <- <-]]|[? ?]]; eauto. }
  destruct op as [e| |]; simpl; intros H.
  - unfold WalSegmentManager_append in H. rewrite bool_decide_eq_true_2 in H by done. inv_ok.
    apply Hsync. unfold append_unsynced in Hok. destruct (active_file w) as [f n]. inv_ok.
    intros id f' n' Hl Hne. simpl in *. rewrite lookup_insert_ne in Hl by done. by eapply Hd.
  - unfold rotate in H. inv_ok.
    match goal with H : open_segment _ _ = Ok _ |- _ => unfold open_segment in H end. inv_ok.
    match goal with H : Wal_open _ = Ok _ |- _ => rename H into Ho end.
    intros id f n. simpl.
    rewrite lookup_insert_Some. intros [[_ [= <- <-]]|[_ Hl]]; [|by eapply Hsync; [|exact Hl]; eauto].
    match goal with |- context [wd_segments ?d !! ?i] => destruct (wd_segments d !! i) as [[f' n']|] eqn:E end.
    + case_test; [done|]. unfold Wal_open in Ho. simpl in Ho.
      rewrite (proj2 (Z.eqb_neq _ _)) in Ho by done. destruct (_ <? _) in Ho; [done|]. inv_ok.
      eapply Hsync; [|exact E]. eauto.
    + done.
  - injection H as <-. apply Hsync. eauto.
Qed.

Lemma wal_run_ok ops w es :
  holds w es -> Forall entry_ok (appended ops) -> 0 <= ws_active_id w ->
  ws_active_id w + len ops < 2 ^ 64 - 1 ->
  exists w', wal_run w ops = Ok w' /\ holds w' (es ++ appended ops) /\
    (ws_sync_mode w = EveryAppend -> all_durable (ws_dir w) -> all_durable (ws_dir w')).
Proof.
  revert w es. induction ops as [|op ops IH]; intros w es Hw Hok H0 Hn.
  { exists w. split; [done|]. by rewrite app_nil_r. }
  rewrite len_cons in Hn. pose proof (len_nonneg ops). cbn [wal_run].
  assert (exists w1 es1, wal_exec w op = Ok w1 /\ holds w1 es1 /\
    es1 ++ appended ops = es ++ appended (op :: ops) /\ Forall entry_ok (appended ops) /\
    ws_active_id w <= ws_active_id w1 <= ws_active_id w + 1 /\ ws_sync_mode w1 = ws_sync_mode w)
    as (w1 & es1 & E & Hw1 & Hes & Hops & Hid & Hm).
  { destruct op as [e| |].
    - change (appended (WAppend e :: ops)) with (e :: appended ops) in *.
      inversion Hok as [|? ? He Hops]; subst.
      destruct (append_ok w es e Hw He) as (w1 & E & Hw1 & Hid & Hm).
      exists w1, (es ++ [e]). rewrite <- app_assoc. repeat split; try done; lia.
    - destruct (rotate_ok w es Hw) as (w1 & E & Hw1 & Hid & Hm); [lia|].
      exists w1, es. simpl. rewrite E. repeat split; try done; lia.
    - eexists _, es. split; [done|]. split; [by apply sync_ok|].
      unfold WalSegmentManager_sync. destruct (active_file w). repeat split; try done; simpl; lia. }
  rewrite E. cbn [obind].
  destruct (IH w1 es1 Hw1 Hops) as (w' & E' & Hw' & Hd); [lia..|].
  exists w'. split; [done|]. rewrite <- Hes. split; [done|]. intros Hmode Hdur.
  apply Hd; [congruence|]. by eapply durable_exec.
Qed.

Definition fresh_dir : wal_dir := mkWalDir ∅ None.

Lemma open_fresh mode :
  exists w, open_with_sync fresh_dir mode = Ok w /\ holds w [] /\ ws_active_id w = 1 /\
    ws_sync_mode w = mode /\ all_durable (ws_dir w).
Proof.
  eexists. split; [reflexivity|]. split; [|repeat split].
  - exists {[1 := []]}. repeat split.
    + intros id. simpl. destruct (decide (id = 1)) as [->|Hne].
      * by rewrite lookup_insert_eq, lookup_singleton_eq.
      * by rewrite lookup_insert_ne, lookup_singleton_ne, lookup_empty.
    + apply lookup_singleton_Some in H as [_ <-]. constructor.
    + apply lookup_singleton_Some in H as [<- _]. simpl. lia.
    + simpl. rewrite lookup_singleton_eq. eauto.
  - intros id f n. simpl. rewrite lookup_insert_Some, lookup_empty. intros [[_ [= <- <-]]|[_ ?]]; done.
Qed.

(** Opening a directory of logs again changes no file. *)
Lemma reopen_dir d (logs : gmap Z (list LogEntry)) mode :
  (forall id, (fst <$> wd_segments d !! id) = log_file <$> logs !! id) ->
  (forall id l, logs !! id = Some l -> Forall entry_ok l /\ id <= default 1 (wd_current d)) ->
  is_Some (logs !! default 1 (wd_current d)) ->
  exists w, open_with_sync d mode = Ok w /\ holds w (concat (map snd (btree_iter logs))) /\
    ws_active_id w = default 1 (wd_current d) /\ ws_sync_mode w = mode /\ ws_dir w = d.
Proof.
  intros Hseg Hok [l Hl]. unfold open_with_sync, open_segment.
  pose proof (Hseg (default 1 (wd_current d))) as Ha. rewrite Hl in Ha.
  destruct (wd_segments d !! default 1 (wd_current d)) as [[f n]|] eqn:E; [|done].
  simpl in Ha. injection Ha as ->. cbn [fmap option_fmap option_map fst].
  unfold Wal_open. change (default [] (Some (log_file l))) with (log_file l).
  assert (len (log_file l) = HEADER_LEN + len (encode_all l)) as Hlen by (unfold log_file; by rewrite len_app).
  pose proof (len_nonneg (encode_all l)). unfold HEADER_LEN in Hlen.
  rewrite (proj2 (Z.eqb_neq (len (log_file l)) 0)) by lia.
  rewrite (proj2 (Z.ltb_ge (len (log_file l)) HEADER_LEN)) by (unfold HEADER_LEN; lia).
  unfold log_file at 1. rewrite validate_header_ok. cbn [obind].
  assert (set_segment d (default 1 (wd_current d)) (log_file l, n) = d) as ->.
  { unfold set_segment. rewrite insert_id by done. by destruct d. }
  eexists. split; [done|]. split; [|done].
  exists logs. cbn [ws_dir ws_active_id]. split_and!; [done|done|by eexists|done].
Qed.

(** ** Theorems *)

(** The record codec round trips: an entry the encoder accepts and that fits
    the 32-bit fields encodes, and its bytes decode to the same entry and exact
    length whatever follows them in the log; an entry with an empty key, or a
    delete that carries a value, is refused. *)
Theorem log_entry_round_trip e :
  (entry_ok e -> exists b, LogEntry_encode e = Ok b /\
     forall rest, LogEntry_decode (b ++ rest) = Ok (e, len b)) /\
  (le_key e = [] \/ (le_op e = OpDelete /\ le_value e <> []) ->
     exists m, LogEntry_encode e = Err (InvalidInput m)).
Proof.
  split.
  - intros He. exists (encoded e). split; [by apply encode_ok|]. intros. by apply decode_encoded.
  - intros H. unfold LogEntry_encode. case_bool_decide; [eauto|].
    rewrite bool_decide_eq_true_2 by naive_solver. eauto.
Qed.

Lemma log_entry_round_trip_witness :
  exists b, LogEntry_encode (LogEntry_put (bs "k") (bs "v")) = Ok b /\
    LogEntry_decode (b ++ [x07]) = Ok (LogEntry_put (bs "k") (bs "v"), len b).
Proof.
  destruct (proj1 (log_entry_round_trip (LogEntry_put (bs "k") (bs "v")))) as (b & E & H).
  { apply (bool_decide_unpack _). vm_compute. exact I. }
  exists b. split; [exact E|apply H].
Defined.

(** Reading a log terminates without a panic on any file contents: the
    loop's fuel (the file's length) is never exhausted, no slice access leaves
    the buffer, and the result is a list of entries or an error. *)
Theorem wal_read_all_total file :
  (exists es, Wal_read_all file = Ok es) \/ (exists err, Wal_read_all file = Err err).
Proof.
  unfold Wal_read_all. destruct file as [f|]; [|by right; eexists].
  assert (validate_header f <> Panic).
  { unfold validate_header. destruct (slice f 0 4); [|done]. simpl. case_test; [done|].
    destruct (slice f 4 2); [|done]. simpl. by case_test. }
  destruct (validate_header f) as [[]|e|]; [|by right; eexists|done]. cbn [obind].
  destruct (read_records_total (S (length (drop (Z.to_nat HEADER_LEN) f)))
    (drop (Z.to_nat HEADER_LEN) f)) as (r & -> & Hr); [lia|].
  destruct r; [left; by eexists|right; by eexists|done].
Qed.

(** C36. Corruption inside a record is detected: overwriting any window of at
    most four bytes of a record's payload with different bytes makes decoding
    fail with a checksum mismatch, whatever follows the record. *)
Theorem wal_burst_detected e p w1 w2 q rest :
  entry_ok e -> entry_payload e = p ++ w1 ++ q ->
  length w1 = length w2 -> (length w1 <= 4)%nat -> w1 <> w2 ->
  LogEntry_decode (le_bytes 4 (4 + len (entry_payload e)) ++ le_bytes 4 (crc32 (entry_payload e))
                   ++ (p ++ w2 ++ q) ++ rest) = Err ChecksumMismatch.
Proof.
  intros He Hp Hl H4 Hne.
  assert (Hlen : len (entry_payload e) = len (p ++ w2 ++ q)).
  { rewrite Hp. autorewrite with len. unfold len. rewrite Hl. done. }
  rewrite Hlen, decode_framed; [|rewrite <- Hlen; by apply payload_bound|apply crc32_range].
  rewrite (proj2 (Z.eqb_neq _ _)); [done|]. rewrite Hp. intros H.
  apply Hne. symmetry. eapply crc32_window_inj; [|lia|exact H]. by symmetry.
Qed.

Lemma wal_burst_detected_witness :
  let e := LogEntry_put (bs "k") (bs "v") in
  LogEntry_decode (le_bytes 4 (4 + len (entry_payload e)) ++ le_bytes 4 (crc32 (entry_payload e))
    ++ (take 10 (entry_payload e) ++ bs "w" ++ []) ++ []) = Err ChecksumMismatch.
Proof.
  intros e. apply (wal_burst_detected e (take 10 (entry_payload e)) (bs "v") (bs "w") [] []).
  - apply (bool_decide_unpack _). vm_compute. exact I.
  - reflexivity.
  - reflexivity.
  - simpl. lia.
  - discriminate.
Defined.

(** C8. Recovery: after any sequence of appends, rotations and syncs on a fresh
    directory, replaying the segments rebuilds exactly the map of the appended
    operations, in order; and in the default sync mode the same holds after a
    crash at that point, whatever the crash loses beyond what was synced. *)
Theorem wal_recovery mode ops :
  Forall entry_ok (appended ops) -> len ops < 2 ^ 64 - 2 ->
  exists w0 w, open_with_sync fresh_dir mode = Ok w0 /\ wal_run w0 ops = Ok w /\
    (exists t, replay_all (Some (ws_dir w)) MemTable_new = Ok (len (appended ops), t) /\
       mem_map t = log_map (appended ops) ∅) /\
    (mode = EveryAppend -> forall d', crash_dir (ws_dir w) d' ->
       exists t, replay_all (Some d') MemTable_new = Ok (len (appended ops), t) /\
         mem_map t = log_map (appended ops) ∅).
Proof.
  intros Hok Hn. destruct (open_fresh mode) as (w0 & E0 & Hw0 & Hid & Hm & Hd0).
  destruct (wal_run_ok ops w0 [] Hw0 Hok) as (w & E & Hw & Hd); [lia..|].
  exists w0, w. split; [done|]. split; [done|]. split; [by apply holds_replay|].
  intros -> d' Hc. specialize (Hd Hm Hd0). destruct Hw as (logs & Hseg & Hlok & _ & Hes).
  simpl in Hes. rewrite Hes. apply replay_dir.
  - intros id. rewrite <- Hseg. by apply crash_durable.
  - intros id l Hl. by eapply Hlok.
Qed.

Lemma wal_recovery_witness :
  let ops := [WAppend (LogEntry_put (bs "a") (bs "1")); WRotate; WAppend (LogEntry_delete (bs "a"))] in
  exists w0 w, open_with_sync fresh_dir EveryAppend = Ok w0 /\ wal_run w0 ops = Ok w /\
    exists t, replay_all (Some (ws_dir w)) MemTable_new = Ok (2, t) /\ mem_map t = ∅.
Proof.
  intros ops. destruct (wal_recovery EveryAppend ops) as (w0 & w & E0 & E & H & _).
  - repeat constructor; apply (bool_decide_unpack _); vm_compute; exact I.
  - reflexivity.
  - exists w0, w. split; [exact E0|]. split; [exact E|]. destruct H as (t & Et & Hm).
    exists t. split; [exact Et|]. rewrite Hm. vm_compute. reflexivity.
Defined.

(** A torn tail makes the whole log unreadable: when the file ends in a
    proper, non-empty prefix of a record (as a crash in the middle of an append
    leaves it), reading fails and none of the complete records before it is
    returned. *)
Theorem torn_tail_fails_whole_log es e n :
  Forall entry_ok es -> entry_ok e -> 0 < Z.of_nat n < len (encoded e) ->
  exists m, Wal_read_all (Some (log_file es ++ take n (encoded e))) = Err (CorruptWal m).
Proof.
  intros Hes He Hn. rewrite read_all_tail by done. cbn [read_records].
  destruct (take n (encoded e)) as [|b l] eqn:Et.
  { apply (f_equal length) in Et. rewrite length_take in Et. unfold len in Hn. simpl in Et. lia. }
  rewrite <- Et. destruct (decode_torn e n He Hn) as [m ->]. eauto.
Qed.

Lemma torn_tail_fails_whole_log_witness :
  exists m, Wal_read_all (Some (log_file [LogEntry_put (bs "a") (bs "1")]
    ++ take 5 (encoded (LogEntry_put (bs "b") (bs "2"))))) = Err (CorruptWal m).
Proof.
  apply torn_tail_fails_whole_log.
  - constructor; [|constructor]. apply (bool_decide_unpack _); vm_compute; exact I.
  - apply (bool_decide_unpack _); vm_compute; exact I.
  - rewrite len_encoded. split; vm_compute; reflexivity.
Defined.
