(* ===== verification/Durable.v ===== *)
(** * The WAL-first store (crates/noedb-storage/src/durable.rs)

    [DurableStore]: every mutation is appended to one log file and then applied
    to the active MemTable, which is frozen once it exceeds its byte budget.
    Its place as a [StorageEngine] is examined against the laws of that
    interface: it behaves as a map as long as nothing is deleted. *)

From S2P Require Import Prelude BTree StorageError Mvcc MemTable Wal.

Record DurableStore : Type := mkDurableStore {
  ds_wal : bytes;
  ds_active : MemTable;
  ds_immutable : list MemTable;
  ds_max_mem_bytes : Z;
}.

Definition DurableStore_open (wal_file : option bytes) (max_mem_bytes : Z)
    : outcome StorageError DurableStore :=
  let? wal := Wal_open wal_file in
  Ok (mkDurableStore wal MemTable_new [] max_mem_bytes).

Definition DurableStore_open_default (wal_file : option bytes) : outcome StorageError DurableStore :=
  DurableStore_open wal_file DEFAULT_MAX_MEM_BYTES.

Definition DurableStore_append (s : DurableStore) (op : OpType) (key : bytes) (value : option bytes)
    : outcome StorageError DurableStore :=
  let? entry := match op with
                | OpPut => let? v := ok_or value (InvalidInput "put requires value") in
                           Ok (LogEntry_put key v)
                | OpDelete => Ok (LogEntry_delete key)
                end in
  let? wal := Wal_append (ds_wal s) entry in
  Ok (mkDurableStore wal (ds_active s) (ds_immutable s) (ds_max_mem_bytes s)).

Definition with_active_table (s : DurableStore) (t : MemTable) : DurableStore :=
  mkDurableStore (ds_wal s) t (ds_immutable s) (ds_max_mem_bytes s).

Definition maybe_rotate (s : DurableStore) : DurableStore :=
  if MemTable_approx_bytes (ds_active s) >=? ds_max_mem_bytes s
  then mkDurableStore (ds_wal s) MemTable_new (ds_immutable s ++ [ds_active s]) (ds_max_mem_bytes s)
  else s.

Definition DurableStore_put (s : DurableStore) (key value : bytes) : outcome StorageError DurableStore :=
  let? s := DurableStore_append s OpPut key (Some value) in
  let? t := MemTable_put (ds_active s) key value in
  Ok (maybe_rotate (with_active_table s t)).

Definition DurableStore_delete (s : DurableStore) (key : bytes)
    : outcome StorageError (bool * DurableStore) :=
  let? s := DurableStore_append s OpDelete key None in
  let? '(removed, t) := MemTable_delete (ds_active s) key in
  Ok (removed, maybe_rotate (with_active_table s t)).

Fixpoint get_frozen (tables : list MemTable) (key : bytes) : outcome StorageError (option bytes) :=
  match tables with
  | [] => Ok None
  | t :: tables' =>
      let? r := MemTable_get t key in
      match r with Some v => Ok (Some v) | None => get_frozen tables' key end
  end.

Definition DurableStore_get (s : DurableStore) (key : bytes) : outcome StorageError (option bytes) :=
  let? r := MemTable_get (ds_active s) key in
  match r with
  | Some v => Ok (Some v)
  | None => get_frozen (rev (ds_immutable s)) key
  end.

Definition DurableStore_iter (s : DurableStore) : list (bytes * bytes) :=
  btree_iter (fold_left (fun merged t => insert_all (MemTable_iter t) merged)
                        (ds_immutable s ++ [ds_active s]) ∅).

#[global] Instance DurableStore_engine : StorageEngine DurableStore := {
  se_get := DurableStore_get; se_put := DurableStore_put;
  se_delete := DurableStore_delete; se_iter := DurableStore_iter;
}.

(** ** What the layers show *)

(** Newest table first. *)
Fixpoint layers (ts : list MemTable) : gmap bytes bytes :=
  match ts with
  | [] => ∅
  | t :: ts' => mem_map t ∪ layers ts'
  end.

Definition visible (s : DurableStore) : gmap bytes bytes :=
  mem_map (ds_active s) ∪ layers (rev (ds_immutable s)).

Lemma union_lookup (m1 m2 : gmap bytes bytes) k :
  (m1 ∪ m2) !! k = match m1 !! k with Some v => Some v | None => m2 !! k end.
Proof. rewrite lookup_union. by destruct (m1 !! k), (m2 !! k). Qed.

Lemma get_frozen_layers ts k : k <> [] -> get_frozen ts k = Ok (layers ts !! k).
Proof.
  intros Hk. induction ts as [|t ts IH]; [done|]. cbn [get_frozen layers].
  rewrite MemTable_get_ok by done. cbn [obind]. rewrite union_lookup.
  by destruct (mem_map t !! k).
Qed.

Lemma get_visible s k : k <> [] -> DurableStore_get s k = Ok (visible s !! k).
Proof.
  intros Hk. unfold DurableStore_get, visible. rewrite MemTable_get_ok by done. cbn [obind].
  rewrite get_frozen_layers, union_lookup by done. by destruct (mem_map (ds_active s) !! k).
Qed.

Lemma insert_all_lookup_ne (l : list (bytes * bytes)) m k :
  k ∉ l.*1 -> insert_all l m !! k = m !! k.
Proof.
  revert m. induction l as [|[i x] l IH]; intros m Hk; [done|]. cbn [insert_all fold_left fst snd].
  rewrite fmap_cons in Hk. apply not_elem_of_cons in Hk as [Hne Hk]. unfold insert_all in IH.
  rewrite IH by done. by rewrite lookup_insert_ne.
Qed.

Lemma insert_all_lookup (l : list (bytes * bytes)) m k x :
  NoDup l.*1 -> (k, x) ∈ l -> insert_all l m !! k = Some x.
Proof.
  revert m. induction l as [|[i y] l IH]; intros m Hnd Hin; [by apply not_elem_of_nil in Hin|].
  rewrite fmap_cons in Hnd. apply NoDup_cons in Hnd as [Hni Hnd]. cbn [insert_all fold_left fst snd].
  apply elem_of_cons in Hin as [[= -> ->]|Hin]; [|by apply IH].
  fold (insert_all l (<[i := y]> m)). rewrite insert_all_lookup_ne by done. apply lookup_insert_eq.
Qed.

Lemma insert_all_iter (m m0 : gmap bytes bytes) : insert_all (btree_iter m) m0 = m ∪ m0.
Proof.
  apply map_eq. intros k. rewrite union_lookup. destruct (m !! k) as [v|] eqn:E.
  - apply insert_all_lookup; [apply NoDup_btree_iter_keys|]. by apply elem_of_btree_iter.
  - apply insert_all_lookup_ne. intros [[i x] [-> Hin]]%list_elem_of_fmap.
    apply elem_of_btree_iter in Hin. simpl in E. congruence.
Qed.

Lemma layers_app ts us : layers (ts ++ us) = layers ts ∪ layers us.
Proof.
  induction ts as [|t ts IH]; simpl; [by rewrite (left_id_L ∅ (∪))|].
  by rewrite IH, (assoc_L (∪)).
Qed.

Lemma merged_layers ts m :
  fold_left (fun merged t => insert_all (MemTable_iter t) merged) ts m = layers (rev ts) ∪ m.
Proof.
  revert m. induction ts as [|t ts IH]; intros m; simpl; [by rewrite (left_id_L ∅ (∪))|].
  rewrite IH. unfold MemTable_iter. rewrite insert_all_iter, layers_app. simpl.
  by rewrite (right_id_L ∅ (∪)), (assoc_L (∪)).
Qed.

Lemma iter_visible s : DurableStore_iter s = btree_iter (visible s).
Proof.
  unfold DurableStore_iter, visible. rewrite merged_layers, rev_unit. simpl.
  by rewrite (right_id_L ∅ _).
Qed.

(** ** Writes *)

Definition store_ok (s : DurableStore) (es : list LogEntry) : Prop :=
  ds_wal s = log_file es /\ Forall entry_ok es /\ mem_wf (ds_active s).

Lemma maybe_rotate_visible s : visible (maybe_rotate s) = visible s.
Proof.
  unfold maybe_rotate. case_test; [|done]. unfold visible. simpl.
  rewrite rev_unit. simpl. by rewrite (left_id_L ∅ _).
Qed.

Lemma maybe_rotate_ok s es : store_ok s es -> store_ok (maybe_rotate s) es.
Proof. intros (? & ? & ?). unfold maybe_rotate. by case_test. Qed.

Lemma put_ok s es k v :
  store_ok s es -> entry_ok (LogEntry_put k v) ->
  exists s', DurableStore_put s k v = Ok s' /\ store_ok s' (es ++ [LogEntry_put k v]) /\
    visible s' = <[k := v]> (visible s).
Proof.
  intros (Hw & Hes & Ht) He. unfold DurableStore_put, DurableStore_append. cbn [ok_or obind].
  unfold Wal_append. rewrite encode_ok by done. cbn [obind ds_active].
  destruct (MemTable_put_ok (ds_active s) k v Ht) as (t & -> & Ht' & Hm); [apply He|]. cbn [obind].
  eexists. split; [done|]. split.
  - apply maybe_rotate_ok. split; [|split; [|done]]; simpl.
    + by rewrite Hw, log_file_app.
    + apply Forall_app. split; [done|by apply Forall_singleton].
  - rewrite maybe_rotate_visible. unfold visible. simpl. rewrite Hm.
    by rewrite insert_union_l.
Qed.

Fixpoint put_all (s : DurableStore) (kvs : list (bytes * bytes)) : outcome StorageError DurableStore :=
  match kvs with
  | [] => Ok s
  | (k, v) :: kvs' => let? s' := DurableStore_put s k v in put_all s' kvs'
  end.

Definition puts (kvs : list (bytes * bytes)) : list LogEntry := map (fun e => LogEntry_put e.1 e.2) kvs.

Lemma put_all_ok kvs s es :
  store_ok s es -> Forall entry_ok (puts kvs) ->
  exists s', put_all s kvs = Ok s' /\ store_ok s' (es ++ puts kvs) /\
    visible s' = log_map (puts kvs) (visible s).
Proof.
  revert s es. induction kvs as [|[k v] kvs IH]; intros s es Hs Hok.
  { exists s. split; [done|]. by rewrite app_nil_r. }
  cbn [puts map fst snd] in Hok. inversion Hok as [|? ? He Hes]; subst.
  destruct (put_ok s es k v Hs He) as (s1 & E1 & Hs1 & Hv1).
  destruct (IH s1 _ Hs1 Hes) as (s' & E' & Hs' & Hv'). exists s'. cbn [put_all].
  rewrite E1. cbn [obind]. split; [done|]. split; [by rewrite <- app_assoc in Hs'|].
  rewrite Hv', Hv1. done.
Qed.

(** A store that only receives puts refines the map of those puts whatever
    its memory budget, across rotations: no put fails, reads and iteration
    answer from the map, and replaying its log file rebuilds the same map. *)
Theorem durable_store_puts max_mem kvs :
  Forall entry_ok (puts kvs) ->
  exists s0 s, DurableStore_open None max_mem = Ok s0 /\ put_all s0 kvs = Ok s /\
    let m := log_map (puts kvs) ∅ in
    (forall k, k <> [] -> DurableStore_get s k = Ok (m !! k)) /\
    DurableStore_iter s = btree_iter m /\
    exists t, replay_into_memtable (Some (ds_wal s)) MemTable_new = Ok (len kvs, t) /\ mem_map t = m.
Proof.
  intros Hok. eexists. destruct (put_all_ok kvs (mkDurableStore wal_header MemTable_new [] max_mem) [])
    as (s & E & (Hw & Hes & _) & Hv); [|done|].
  { split; [|done]. unfold log_file, encode_all. simpl. done. }
  exists s. split; [done|]. split; [exact E|].
  assert (visible s = log_map (puts kvs) ∅) as Hvis.
  { rewrite Hv. f_equal. }
  cbv zeta. split; [intros k Hk; rewrite get_visible by done; by rewrite Hvis|].
  split; [by rewrite iter_visible, Hvis|]. rewrite Hw. simpl.
  destruct (replay_log MemTable_new (puts kvs)) as (t & Et & _ & Hm); [apply mem_wf_new|done|].
  exists t. rewrite Et. split; [|done]. unfold puts, len. by rewrite length_map.
Qed.

Lemma durable_store_puts_witness :
  exists s0 s, DurableStore_open None 2 = Ok s0 /\
    put_all s0 [(bs "a", bs "1"); (bs "a", bs "2")] = Ok s /\ DurableStore_get s (bs "a") = Ok (Some (bs "2")).
Proof.
  destruct (durable_store_puts 2 [(bs "a", bs "1"); (bs "a", bs "2")]) as (s0 & s & E0 & E & Hg & _).
  - repeat constructor; apply (bool_decide_unpack _); vm_compute; exact I.
  - exists s0, s. split; [exact E0|]. split; [exact E|]. rewrite Hg by discriminate. reflexivity.
Defined.

(** A delete does not reach frozen tables: deleting a key that only a
    frozen table holds reports that nothing was removed and leaves the key
    readable, although the log says that it is gone. *)
Theorem delete_leaves_frozen_value s es k v :
  store_ok s es -> entry_ok (LogEntry_delete k) ->
  mem_map (ds_active s) !! k = None -> layers (rev (ds_immutable s)) !! k = Some v ->
  exists s', DurableStore_delete s k = Ok (false, s') /\ DurableStore_get s' k = Ok (Some v) /\
    exists n t, replay_into_memtable (Some (ds_wal s')) MemTable_new = Ok (n, t) /\ mem_map t !! k = None.
Proof.
  intros (Hw & Hes & Ht) He Ha Hl. pose proof (proj1 He) as Hk.
  unfold DurableStore_delete, DurableStore_append. cbn [obind].
  unfold Wal_append. rewrite encode_ok by done. cbn [obind ds_active].
  destruct (MemTable_delete_ok (ds_active s) k Ht Hk) as (t & -> & Ht' & Hm). rewrite Ha.
  cbn [obind]. eexists. split; [by rewrite bool_decide_eq_false_2 by (by intros [])|]. split.
  - rewrite get_visible, maybe_rotate_visible by done. unfold visible. simpl.
    rewrite union_lookup, Hm, lookup_delete_eq. by rewrite Hl.
  - assert (Hs : store_ok (with_active_table (mkDurableStore (ds_wal s ++ encoded (LogEntry_delete k))
      (ds_active s) (ds_immutable s) (ds_max_mem_bytes s)) t) (es ++ [LogEntry_delete k])).
    { split; [|split; [|done]]; simpl; [by rewrite Hw, log_file_app|].
      apply Forall_app. split; [done|by apply Forall_singleton]. }
    apply maybe_rotate_ok in Hs as (-> & Hes' & _).
    destruct (replay_log MemTable_new (es ++ [LogEntry_delete k])) as (t' & Et & _ & Hm');
      [apply mem_wf_new|done|].
    eexists _, t'. split; [exact Et|]. rewrite Hm'. unfold log_map. rewrite map_app, fold_left_app. simpl.
    apply lookup_delete_eq.
Qed.

Lemma delete_leaves_frozen_value_witness :
  let t := mkMemTable {[bs "k" := bs "v"]} 2 in
  exists s', DurableStore_delete (mkDurableStore (log_file []) MemTable_new [t] 2) (bs "k") = Ok (false, s') /\
    DurableStore_get s' (bs "k") = Ok (Some (bs "v")).
Proof.
  intros t. destruct (delete_leaves_frozen_value (mkDurableStore (log_file []) MemTable_new [t] 2) []
    (bs "k") (bs "v")) as (s' & E & G & _).
  - split; [reflexivity|]. split; [constructor|apply mem_wf_new].
  - apply (bool_decide_unpack _). vm_compute. exact I.
  - reflexivity.
  - vm_compute. reflexivity.
  - exists s'. split; [exact E|exact G].
Defined.
