(* ===== verification/Filter.v ===== *)
(** * Membership filters (crates/noedb-storage/src/bloom.rs, xor_filter.rs)

    The Bloom filter that every SSTable carries, and the experimental XOR
    filter.  The size of a Bloom filter is computed in floating point
    ([ln], [ceil], [round]); the result of that computation, clamped as in the
    source, is the argument [sizing] of [BloomFilter_build]. *)

From S2P Require Import Prelude StorageError MemTable.

(** ** bloom.rs *)

Record BloomFilter : Type := mkBloomFilter { bf_bits : bytes; bf_m : Z; bf_k : Z }.

#[global] Instance BloomFilter_eq_dec : EqDecision BloomFilter.
Proof. solve_decision. Defined.

Definition hash_pair (key : bytes) : Z * Z :=
  let h1 := crc32 key in
  let h2 := Z.lor (crc32 (le_bytes 4 h1 ++ key)) 1 in
  (h1, h2).

(** [%] panics on a zero divisor. *)
Definition double_hash {E} (h1 h2 i m : Z) : outcome E Z :=
  if m =? 0 then Panic else Ok (wrap 32 (h1 + wrap 32 (i * h2)) mod m).

Definition set_bit (bits : bytes) (idx : Z) : bytes :=
  let byte := idx / 8 in
  let bit := idx mod 8 in
  match bits !! Z.to_nat byte with
  | Some b => <[Z.to_nat byte := z2b (Z.lor (b2z b) (Z.shiftl 1 bit))]> bits
  | None => bits
  end.

Definition get_bit (bits : bytes) (idx : Z) : bool :=
  let byte := idx / 8 in
  let bit := idx mod 8 in
  match bits !! Z.to_nat byte with
  | Some b => negb (Z.land (b2z b) (Z.shiftl 1 bit) =? 0)
  | None => false
  end.

(** The loops [for i in 0..self.k], with [n] probes left. *)
Fixpoint insert_probes {E} (n : nat) (i h1 h2 m : Z) (bits : bytes) : outcome E bytes :=
  match n with
  | O => Ok bits
  | S n' =>
      let? idx := double_hash h1 h2 i m in
      insert_probes n' (i + 1) h1 h2 m (set_bit bits idx)
  end.

Fixpoint all_probes {E} (n : nat) (i h1 h2 m : Z) (bits : bytes) : outcome E bool :=
  match n with
  | O => Ok true
  | S n' =>
      let? idx := double_hash h1 h2 i m in
      if negb (get_bit bits idx) then Ok false else all_probes n' (i + 1) h1 h2 m bits
  end.

Definition BloomFilter_insert {E} (f : BloomFilter) (key : bytes) : outcome E BloomFilter :=
  let '(h1, h2) := hash_pair key in
  let? bits := insert_probes (Z.to_nat (bf_k f)) 0 h1 h2 (bf_m f) (bf_bits f) in
  Ok (mkBloomFilter bits (bf_m f) (bf_k f)).

Definition BloomFilter_may_contain {E} (f : BloomFilter) (key : bytes) : outcome E bool :=
  let '(h1, h2) := hash_pair key in
  all_probes (Z.to_nat (bf_k f)) 0 h1 h2 (bf_m f) (bf_bits f).

Fixpoint BloomFilter_insert_all {E} (f : BloomFilter) (keys : list bytes) : outcome E BloomFilter :=
  match keys with
  | [] => Ok f
  | key :: keys' => let? f' := BloomFilter_insert f key in BloomFilter_insert_all f' keys'
  end.

(** [sizing n] is the pair [(m, k)] for [n] expected keys. *)
Definition BloomFilter_build {E} (sizing : Z -> Z * Z) (keys : list bytes) (expected_keys : Z)
    : outcome E BloomFilter :=
  let n_keys := Z.min (Z.max expected_keys 1) (umax 32) in
  let '(m, k) := sizing n_keys in
  BloomFilter_insert_all
    (mkBloomFilter (replicate (Z.to_nat ((m + 7) / 8)) x00) m k) keys.

Definition BloomFilter_encode (f : BloomFilter) : bytes :=
  le_bytes 4 (bf_m f) ++ le_bytes 1 (bf_k f) ++ [x00; x00; x00] ++ bf_bits f.

Definition BloomFilter_decode (data : bytes) : outcome StorageError BloomFilter :=
  if len data <? 8 then Err (CorruptSstable "truncated bloom filter")
  else
    let? m := index_range data 0 4 in
    let? k := index data 4 in
    let? bits := index_range data 8 (len data - 8) in
    Ok (mkBloomFilter bits (le_val m) (b2z k)).

(** What the clamps guarantee of the computed size, for any key count. *)
Definition sizing_ok (sizing : Z -> Z * Z) : Prop :=
  forall n, 64 <= (sizing n).1 <= umax 32 /\ 1 <= (sizing n).2 <= 30.

(** ** xor_filter.rs *)

Record XorFilter : Type := mkXorFilter { xf_slots : list Z; xf_size : Z; xf_seed : Z }.

#[global] Instance XorFilter_eq_dec : EqDecision XorFilter.
Proof. solve_decision. Defined.

Definition XOR_SEED : Z := 0x9E3779B97F4A7C15.

Definition fingerprint (key : bytes) : Z :=
  let h := crc32 key in
  let fp := Z.lxor (wrap 16 (Z.shiftr h 16)) (wrap 16 h) in
  if fp =? 0 then 1 else fp.

Definition locations {E} (key : bytes) (size seed : Z) : outcome E (Z * Z) :=
  let h1 := crc32 key in
  let h2 := crc32 (key ++ le_bytes 8 seed) in
  let? mask := checked_sub size 1 in
  Ok (Z.land h1 mask, Z.land h2 mask).

Definition next_pow2 (n : Z) : Z :=
  if n <=? 1 then 1
  else
    let n := n - 1 in
    let n := Z.lor n (Z.shiftr n 1) in
    let n := Z.lor n (Z.shiftr n 2) in
    let n := Z.lor n (Z.shiftr n 4) in
    let n := Z.lor n (Z.shiftr n 8) in
    let n := Z.lor n (Z.shiftr n 16) in
    wrap 32 (n + 1).

(** [self.slots[i] = fp] and [self.slots[i]]: panic out of bounds. *)
Definition set_slot {E} (slots : list Z) (i fp : Z) : outcome E (list Z) :=
  if i <? len slots then Ok (<[Z.to_nat i := fp]> slots) else Panic.
Definition get_slot {E} (slots : list Z) (i : Z) : outcome E Z :=
  match slots !! Z.to_nat i with Some fp => Ok fp | None => Panic end.

Definition XorFilter_insert {E} (f : XorFilter) (key : bytes) : outcome E XorFilter :=
  let fp := fingerprint key in
  let? '(i0, i1) := locations key (xf_size f) (xf_seed f) in
  let? s0 := set_slot (xf_slots f) i0 fp in
  let? s1 := set_slot s0 i1 fp in
  Ok (mkXorFilter s1 (xf_size f) (xf_seed f)).

Definition XorFilter_may_contain {E} (f : XorFilter) (key : bytes) : outcome E bool :=
  let fp := fingerprint key in
  let? '(i0, i1) := locations key (xf_size f) (xf_seed f) in
  let? a := get_slot (xf_slots f) i0 in
  if a =? fp then Ok true
  else let? b := get_slot (xf_slots f) i1 in Ok (b =? fp).

Definition XorFilter_empty (size : Z) : XorFilter :=
  mkXorFilter (replicate (Z.to_nat size) 0) size XOR_SEED.

(** One attempt of the build loop: insert the keys, and stop as soon as the
    key just inserted is not found ([None]). *)
Fixpoint xor_attempt {E} (f : XorFilter) (keys : list bytes) : outcome E (option XorFilter) :=
  match keys with
  | [] => Ok (Some f)
  | key :: keys' =>
      let? f' := XorFilter_insert f key in
      let? found := XorFilter_may_contain f' key in
      if found then xor_attempt f' keys' else Ok None
  end.

Fixpoint xor_insert_all {E} (f : XorFilter) (keys : list bytes) : outcome E XorFilter :=
  match keys with
  | [] => Ok f
  | key :: keys' => let? f' := XorFilter_insert f key in xor_insert_all f' keys'
  end.

(** The [loop] of [build]; every round doubles the size, so that 32 rounds
    reach the bound 2^20 from any start; then the fallback table. *)
Fixpoint xor_build_loop {E} (fuel : nat) (size : Z) (keys : list bytes) : outcome E XorFilter :=
  let fallback := xor_insert_all (XorFilter_empty (2 ^ 20)) keys in
  match fuel with
  | O => fallback
  | S fuel' =>
      let? attempt := xor_attempt (XorFilter_empty size) keys in
      match attempt with
      | Some f => Ok f
      | None =>
          let size := Z.min (sat 32 (size * 2)) (2 ^ 20) in
          if size >=? 2 ^ 20 then fallback else xor_build_loop fuel' size keys
      end
  end.

Definition xor_start_size (keys : list bytes) (expected_keys : Z) : Z :=
  let n := Z.max (Z.max (len keys) expected_keys) 1 in
  next_pow2 (Z.max (Z.min (sat 64 (n * 4)) (umax 32)) 256).

Definition XorFilter_build {E} (keys : list bytes) (expected_keys : Z) : outcome E XorFilter :=
  xor_build_loop 32 (xor_start_size keys expected_keys) keys.

Definition XorFilter_encode (f : XorFilter) : bytes :=
  le_bytes 4 (xf_size f) ++ le_bytes 8 (xf_seed f) ++
  concat (map (fun s => le_bytes 2 s) (xf_slots f)).

(** [chunks_exact(2)] of the slots section *)
Fixpoint decode_slots (l : bytes) : list Z :=
  match l with
  | a :: b :: l' => le_val [a; b] :: decode_slots l'
  | _ => []
  end.

Definition XorFilter_decode (data : bytes) : outcome StorageError XorFilter :=
  if len data <? 12 then Err (CorruptSstable "truncated xor filter")
  else
    let? size := index_range data 0 4 in
    let? seed := index_range data 4 8 in
    let? rest := index_range data 12 (len data - 12) in
    if negb (len rest =? le_val size * 2)
    then Err (CorruptSstable "xor filter slot length mismatch")
    else Ok (mkXorFilter (decode_slots rest) (le_val size) (le_val seed)).

(** ** Bits *)

Lemma land_bit_test x n : 0 <= n -> negb (Z.land x (Z.shiftl 1 n) =? 0) = Z.testbit x n.
Proof.
  intros Hn. rewrite Z.shiftl_1_l. destruct (Z.testbit x n) eqn:E.
  - apply negb_true_iff, Z.eqb_neq. intros H0.
    assert (Z.testbit (Z.land x (2 ^ n)) n = true) as Ht.
    { by rewrite Z.land_spec, E, Z.pow2_bits_true. }
    by rewrite H0, Z.bits_0 in Ht.
  - apply negb_false_iff, Z.eqb_eq, Z.bits_inj'. intros j Hj.
    rewrite Z.land_spec, Z.bits_0, Z.pow2_bits_eqb by done.
    destruct (n =? j) eqn:Ej; bool_to_prop; subst; rewrite ?E; [done|apply andb_false_r].
Qed.

Lemma or_bit_byte b n :
  0 <= n < 8 -> b2z (z2b (Z.lor (b2z b) (Z.shiftl 1 n))) = Z.lor (b2z b) (2 ^ n).
Proof.
  intros Hn. rewrite b2z_z2b, Z.shiftl_1_l. apply Z.mod_small. split.
  - apply Z.lor_nonneg. pose proof (b2z_range b). split; [lia|apply Z.pow_nonneg; lia].
  - change 256 with (2 ^ 8). apply Z.log2_lt_cancel. rewrite Z.log2_lor by
      (pose proof (b2z_range b); try apply Z.pow_nonneg; lia).
    rewrite !Z.log2_pow2 by lia. apply Z.max_lub_lt; [|lia].
    destruct (Z.eq_dec (b2z b) 0) as [->|]; [done|].
    apply Z.log2_lt_pow2; pose proof (b2z_range b); lia.
Qed.

Lemma get_bit_test bits idx :
  0 <= idx ->
  get_bit bits idx = match bits !! Z.to_nat (idx / 8) with
                     | Some b => Z.testbit (b2z b) (idx mod 8)
                     | None => false
                     end.
Proof.
  intros. unfold get_bit. destruct (_ !! _); [|done].
  apply land_bit_test. apply Z.mod_pos_bound; lia.
Qed.

Lemma length_set_bit bits idx : length (set_bit bits idx) = length bits.
Proof. unfold set_bit. case_test; [apply length_insert|done]. Qed.

Lemma get_bit_set bits i j :
  0 <= i -> 0 <= j -> j / 8 < len bits ->
  get_bit (set_bit bits i) j = get_bit bits j || (i =? j).
Proof.
  intros Hi Hj Hlen. rewrite !get_bit_test by done. unfold set_bit.
  pose proof (Z.div_pos j 8 Hj ltac:(lia)). pose proof (Z.div_pos i 8 Hi ltac:(lia)).
  pose proof (Z.mod_pos_bound i 8 ltac:(lia)). pose proof (Z.mod_pos_bound j 8 ltac:(lia)).
  pose proof (Z.div_mod i 8 ltac:(lia)). pose proof (Z.div_mod j 8 ltac:(lia)).
  destruct (bits !! Z.to_nat (i / 8)) as [b|] eqn:Eb.
  - destruct (decide (i / 8 = j / 8)) as [Hb|Hb].
    + rewrite <- Hb, list_lookup_insert_eq by (by eapply lookup_lt_Some).
      rewrite Eb, or_bit_byte, Z.lor_spec, Z.pow2_bits_eqb by lia. f_equal.
      apply eq_true_iff_eq. rewrite !Z.eqb_eq. split; intros; [lia|by subst].
    + rewrite list_lookup_insert_ne by lia.
      assert ((i =? j) = false) as -> by (apply Z.eqb_neq; intros ->; lia).
      by rewrite orb_false_r.
  - assert ((i =? j) = false) as ->; [|by rewrite orb_false_r].
    apply Z.eqb_neq. intros ->. apply lookup_ge_None in Eb. unfold len in Hlen. lia.
Qed.

(** ** Bloom filter *)

Definition bloom_wf (f : BloomFilter) : Prop :=
  0 < bf_m f < 2 ^ 32 /\ bf_m f <= 8 * len (bf_bits f).

(** [bits'] has every bit of [bits], and the same length. *)
Definition bits_le (bits bits' : bytes) : Prop :=
  len bits' = len bits /\
  forall j, 0 <= j -> get_bit bits j = true -> get_bit bits' j = true.

#[global] Instance bits_le_preorder : PreOrder bits_le.
Proof.
  split; [by intros bits; split|]. intros a b c [H1 H2] [H3 H4]. split; [lia|auto].
Qed.

Lemma bits_le_set bits i : 0 <= i -> bits_le bits (set_bit bits i).
Proof.
  intros Hi. split; [unfold len; by rewrite length_set_bit|]. intros j Hj Hg.
  assert (j / 8 < len bits) as Hb.
  { rewrite get_bit_test in Hg by done. destruct (bits !! _) eqn:E; [|done].
    apply lookup_lt_Some in E. unfold len. pose proof (Z.div_pos j 8 Hj ltac:(lia)). lia. }
  by rewrite get_bit_set, Hg.
Qed.

Definition probe (h1 h2 m i : Z) : Z := wrap 32 (h1 + wrap 32 (i * h2)) mod m.

Lemma double_hash_ok {E} h1 h2 i m :
  0 < m -> double_hash (E:=E) h1 h2 i m = Ok (probe h1 h2 m i) /\ 0 <= probe h1 h2 m i < m.
Proof.
  intros Hm. unfold double_hash, probe. rewrite (proj2 (Z.eqb_neq m 0)) by lia.
  split; [done|]. apply Z.mod_pos_bound; lia.
Qed.

Lemma insert_probes_ok {E} n i h1 h2 m bits :
  0 < m <= 8 * len bits ->
  exists bits', insert_probes (E:=E) n i h1 h2 m bits = Ok bits' /\ bits_le bits bits' /\
    forall j, i <= j < i + Z.of_nat n -> get_bit bits' (probe h1 h2 m j) = true.
Proof.
  revert i bits. induction n as [|n IH]; intros i bits Hm.
  { exists bits. split; [done|]. split; [done|]. lia. }
  destruct (double_hash_ok (E:=E) h1 h2 i m ltac:(lia)) as [Hd Hp].
  cbn [insert_probes]. rewrite Hd. cbn [obind].
  pose proof (bits_le_set bits (probe h1 h2 m i) ltac:(lia)) as Hle.
  destruct (IH (i + 1) (set_bit bits (probe h1 h2 m i))) as (bits' & -> & Hle' & Hj).
  { destruct Hle as [-> _]. lia. }
  exists bits'. split; [done|]. split; [by etrans|]. intros j Hj'.
  destruct (decide (j = i)) as [->|]; [|apply Hj; lia].
  apply Hle'; [lia|]. rewrite get_bit_set, Z.eqb_refl; [apply orb_true_r|lia|lia|].
  apply Z.div_lt_upper_bound; lia.
Qed.

Lemma all_probes_ok {E} n i h1 h2 m bits :
  0 < m ->
  exists b, all_probes (E:=E) n i h1 h2 m bits = Ok b /\
    (b = true <-> forall j, i <= j < i + Z.of_nat n -> get_bit bits (probe h1 h2 m j) = true).
Proof.
  intros Hm. revert i. induction n as [|n IH]; intros i.
  { exists true. split; [done|]. split; [lia|done]. }
  destruct (double_hash_ok (E:=E) h1 h2 i m Hm) as [Hd Hp].
  cbn [all_probes]. rewrite Hd. cbn [obind].
  destruct (get_bit bits (probe h1 h2 m i)) eqn:E1; cbn [negb].
  - destruct (IH (i + 1)) as (b & -> & Hb). exists b. split; [done|]. rewrite Hb.
    split; intros H j Hj; [|apply H; lia].
    destruct (decide (j = i)) as [->|]; [done|apply H; lia].
  - exists false. split; [done|]. split; [done|]. intros H.
    rewrite H in E1 by lia. done.
Qed.

(** The probes of [key] are all set. *)
Definition has_key (f : BloomFilter) (key : bytes) : Prop :=
  forall j, 0 <= j < Z.of_nat (Z.to_nat (bf_k f)) ->
    get_bit (bf_bits f) (probe (hash_pair key).1 (hash_pair key).2 (bf_m f) j) = true.

Definition filter_le (f f' : BloomFilter) : Prop :=
  bf_m f' = bf_m f /\ bf_k f' = bf_k f /\ bits_le (bf_bits f) (bf_bits f').

#[global] Instance filter_le_preorder : PreOrder filter_le.
Proof.
  split; [intros f; by repeat split|].
  intros a b c (H1 & H2 & H3) (H4 & H5 & H6). repeat split; try congruence;
    destruct (transitivity H3 H6); auto.
Qed.

Lemma filter_le_wf f f' : filter_le f f' -> bloom_wf f -> bloom_wf f'.
Proof. intros (H1 & _ & H3 & _) [? ?]. unfold bloom_wf. rewrite H1, H3. done. Qed.

Lemma filter_le_has f f' key : bloom_wf f -> filter_le f f' -> has_key f key -> has_key f' key.
Proof.
  intros [Hm _] (E1 & E2 & _ & Hle) H j Hj. rewrite E1. rewrite E2 in Hj.
  apply Hle; [|by apply H]. apply Z.mod_pos_bound. lia.
Qed.

Lemma bloom_insert_ok {E} f key :
  bloom_wf f -> exists f', BloomFilter_insert (E:=E) f key = Ok f' /\ filter_le f f' /\ has_key f' key.
Proof.
  intros [Hm Hlen]. unfold BloomFilter_insert, has_key.
  destruct (hash_pair key) as [h1 h2] eqn:Eh.
  destruct (insert_probes_ok (E:=E) (Z.to_nat (bf_k f)) 0 h1 h2 (bf_m f) (bf_bits f))
    as (bits & -> & Hle & Hj); [lia|].
  cbn [obind]. eexists. split; [done|]. split; [exact (conj eq_refl (conj eq_refl Hle))|].
  simpl. intros j Hj'. apply Hj. lia.
Qed.

Lemma bloom_insert_all_ok {E} keys f :
  bloom_wf f ->
  exists f', BloomFilter_insert_all (E:=E) f keys = Ok f' /\ filter_le f f' /\
    forall key, key ∈ keys -> has_key f' key.
Proof.
  revert f. induction keys as [|key keys IH]; intros f Hf.
  { exists f. split; [done|]. split; [done|]. by intros key ?%elem_of_nil. }
  destruct (bloom_insert_ok (E:=E) f key Hf) as (f1 & E1 & Hle1 & Hk).
  destruct (IH f1 (filter_le_wf _ _ Hle1 Hf)) as (f2 & E2 & Hle2 & Hks).
  exists f2. cbn [BloomFilter_insert_all]. rewrite E1. cbn [obind].
  split; [done|]. split; [by etrans|]. intros k' [->|Hin]%elem_of_cons; [|auto].
  by apply (filter_le_has f1); [eapply filter_le_wf|..].
Qed.

Lemma may_contain_iff {E} f key :
  bloom_wf f ->
  exists b, BloomFilter_may_contain (E:=E) f key = Ok b /\ (b = true <-> has_key f key).
Proof.
  intros [Hm _]. unfold BloomFilter_may_contain, has_key.
  destruct (hash_pair key) as [h1 h2].
  destruct (all_probes_ok (E:=E) (Z.to_nat (bf_k f)) 0 h1 h2 (bf_m f) (bf_bits f)) as (b & -> & Hb);
    [lia|].
  exists b. split; [done|]. by rewrite Hb.
Qed.

(** What the reader of a table relies on: a filter that was built for [keys]
    is well formed and finds each of them. *)
Definition bloom_for (f : BloomFilter) (keys : list bytes) : Prop :=
  bloom_wf f /\ 0 <= bf_k f < 256 /\ (forall key, key ∈ keys -> has_key f key) /\
  len (bf_bits f) <= 2 ^ 29.

Lemma bits_for_m m :
  0 <= m -> m <= 8 * len (replicate (Z.to_nat ((m + 7) / 8)) x00) <= m + 7.
Proof.
  intros. unfold len. rewrite length_replicate.
  pose proof (Z.div_mod (m + 7) 8 ltac:(lia)). pose proof (Z.mod_pos_bound (m + 7) 8 ltac:(lia)).
  lia.
Qed.

Lemma bloom_build_for {E} sizing keys n :
  sizing_ok sizing ->
  exists f, BloomFilter_build (E:=E) sizing keys n = Ok f /\ bloom_for f keys.
Proof.
  intros Hs. unfold BloomFilter_build.
  specialize (Hs (Z.min (Z.max n 1) (umax 32))). destruct (sizing _) as [m k].
  cbn [fst snd] in Hs. destruct Hs as [Hm Hk]. change (umax 32) with (2 ^ 32 - 1) in Hm.
  set (f0 := mkBloomFilter (replicate (Z.to_nat ((m + 7) / 8)) x00) m k).
  assert (bloom_wf f0) as H0 by (split; [simpl; lia|apply bits_for_m; simpl; lia]).
  destruct (bloom_insert_all_ok (E:=E) keys f0 H0) as (f & -> & Hle & Hin).
  exists f. split; [done|]. split; [by eapply filter_le_wf|].
  destruct Hle as (_ & -> & -> & _). simpl. pose proof (bits_for_m m). split_and!; [lia..|done|lia].
Qed.

Lemma bloom_for_found {E} f keys key :
  bloom_for f keys -> key ∈ keys -> BloomFilter_may_contain (E:=E) f key = Ok true.
Proof.
  intros (Hwf & _ & Hk & _) Hin. destruct (may_contain_iff (E:=E) f key Hwf) as (b & -> & Hb).
  f_equal. apply Hb. auto.
Qed.

Lemma bloom_decode_encode f :
  0 <= bf_m f < 2 ^ 32 -> 0 <= bf_k f < 256 ->
  BloomFilter_decode (BloomFilter_encode f) = Ok f.
Proof.
  intros Hm Hk. unfold BloomFilter_decode.
  assert (len (BloomFilter_encode f) = 8 + len (bf_bits f)) as Hlen.
  { unfold BloomFilter_encode. len_lia. }
  pose proof (len_nonneg (bf_bits f)).
  rewrite Hlen. rewrite (proj2 (Z.ltb_ge _ _)) by lia.
  unfold BloomFilter_encode, index_range. change (le_bytes 1 (bf_k f)) with [z2b (bf_k f)].
  read_goal. cbn [obind].
  destruct f as [bits m k]. cbn [bf_m bf_k bf_bits] in *.
  rewrite le_val_le_bytes by (simpl; lia). rewrite b2z_z2b, Z.mod_small by lia. done.
Qed.

(** ** XOR filter *)

(** One step of [next_pow2]: if the top [k] bits of [x] are set, the top [2k]
    bits of [x | x >> k] are. *)
Definition top_set (l k x : Z) : Prop :=
  0 < x /\ Z.log2 x = l /\ forall j, 0 <= j <= l -> l - k < j -> Z.testbit x j = true.

Lemma smear_top l k x : 0 < k -> top_set l k x -> top_set l (2 * k) (Z.lor x (Z.shiftr x k)).
Proof.
  intros Hk (Hx & Hl & Hj). pose proof (Z.log2_nonneg x).
  assert (0 <= Z.shiftr x k) by (apply Z.shiftr_nonneg; lia).
  split; [|split].
  - assert (Z.lor x (Z.shiftr x k) <> 0) by (rewrite Z.lor_eq_0_iff; lia).
    pose proof (proj2 (Z.lor_nonneg x (Z.shiftr x k))). lia.
  - rewrite Z.log2_lor by lia. rewrite Z.log2_shiftr by lia. lia.
  - intros j Hj1 Hj2. rewrite Z.lor_spec, Z.shiftr_spec by lia.
    destruct (Z_lt_le_dec (l - k) j); [by rewrite Hj|].
    rewrite (Hj (j + k)) by lia. apply orb_true_r.
Qed.

Lemma top_set_all l k x : l < k -> top_set l k x -> x = Z.ones (l + 1).
Proof.
  intros Hk (Hx & Hl & Hj). pose proof (Z.log2_nonneg x). apply Z.bits_inj'. intros n Hn.
  destruct (Z_le_gt_dec n l).
  - by rewrite Z.ones_spec_low, Hj by lia.
  - rewrite Z.ones_spec_high by lia. apply Z.bits_above_log2; lia.
Qed.

Lemma next_pow2_log2_up n : 1 <= n <= 2 ^ 31 -> next_pow2 n = 2 ^ Z.log2_up n.
Proof.
  intros Hn. unfold next_pow2. destruct (n <=? 1) eqn:E; bool_to_prop.
  { by replace n with 1 by lia. }
  set (l := Z.log2 (n - 1)). pose proof (Z.log2_nonneg (n - 1)).
  assert (l < 31) by (apply Z.log2_lt_pow2; lia).
  assert (top_set l 1 (n - 1)) as Ht.
  { split; [lia|]. split; [done|]. intros j ? ?. replace j with l by lia.
    apply Z.bit_log2; lia. }
  apply (smear_top l 1), (smear_top l 2), (smear_top l 4), (smear_top l 8), (smear_top l 16) in Ht;
    [|lia..].
  apply (top_set_all l) in Ht; [|lia]. rewrite Ht, Z.ones_equiv.
  unfold wrap, Z.log2_up. rewrite (proj2 (Z.compare_lt_iff 1 n)) by lia.
  rewrite <- !Z.sub_1_r. fold l. unfold Z.succ. rewrite Z.sub_add. clear Ht. apply Z.mod_small.
  pose proof (Z.pow_le_mono_r 2 (l + 1) 31 ltac:(lia) ltac:(lia)).
  pose proof (Z.pow_pos_nonneg 2 (l + 1)). lia.
Qed.

Definition xor_wf (f : XorFilter) : Prop := 0 < xf_size f /\ len (xf_slots f) = xf_size f.

Lemma land_mask h m : 0 <= h -> 0 <= m -> 0 <= Z.land h m <= m.
Proof.
  intros Hh Hm. split; [apply Z.land_nonneg; auto|].
  rewrite <- (Z2N.id h), <- (Z2N.id m), <- N2Z.inj_land by done.
  pose proof (N.land_le_r (Z.to_N h) (Z.to_N m)). lia.
Qed.

Lemma locations_ok {E} key size seed :
  0 < size ->
  exists i0 i1, locations (E:=E) key size seed = Ok (i0, i1) /\ 0 <= i0 < size /\ 0 <= i1 < size.
Proof.
  intros Hs. unfold locations, checked_sub. rewrite (proj2 (Z.ltb_ge size 1)) by lia. cbn [obind].
  eexists _, _. split; [done|].
  pose proof (crc32_range key). pose proof (crc32_range (key ++ le_bytes 8 seed)).
  split; match goal with |- context [Z.land ?h ?m] => pose proof (land_mask h m) end; lia.
Qed.

Lemma set_slot_ok {E} slots i fp :
  0 <= i < len slots -> set_slot (E:=E) slots i fp = Ok (<[Z.to_nat i := fp]> slots).
Proof. intros Hi. unfold set_slot. by rewrite (proj2 (Z.ltb_lt _ _)) by lia. Qed.

Lemma xor_insert_ok {E} f key :
  xor_wf f ->
  exists f', XorFilter_insert (E:=E) f key = Ok f' /\ xor_wf f' /\
    XorFilter_may_contain (E:=E) f' key = Ok true.
Proof.
  intros [Hs Hlen]. unfold XorFilter_insert.
  destruct (locations_ok (E:=E) key (xf_size f) (xf_seed f) Hs) as (i0 & i1 & El & H0 & H1).
  rewrite El. cbn [obind]. rewrite set_slot_ok by lia. cbn [obind].
  rewrite set_slot_ok by (unfold len in *; rewrite length_insert; lia). cbn [obind].
  eexists. split; [done|]. split.
  { split; [done|]. simpl. unfold len in *. by rewrite !length_insert. }
  unfold XorFilter_may_contain. cbn [xf_slots xf_size xf_seed]. rewrite El. cbn [obind].
  assert (get_slot (E:=E) (<[Z.to_nat i1:=fingerprint key]> (<[Z.to_nat i0:=fingerprint key]>
    (xf_slots f))) i0 = Ok (fingerprint key)) as ->; [|cbn [obind]; by rewrite Z.eqb_refl].
  unfold get_slot. destruct (decide (i0 = i1)) as [->|].
  - rewrite list_lookup_insert_eq; [done|]. rewrite length_insert. unfold len in *. lia.
  - rewrite list_lookup_insert_ne, list_lookup_insert_eq by (unfold len in *; lia). done.
Qed.

Lemma xor_attempt_ok {E} keys f :
  xor_wf f -> exists f', xor_attempt (E:=E) f keys = Ok (Some f') /\ xor_insert_all (E:=E) f keys = Ok f'.
Proof.
  revert f. induction keys as [|key keys IH]; intros f Hf; [by exists f|].
  destruct (xor_insert_ok (E:=E) f key Hf) as (f1 & E1 & Hf1 & Hm).
  cbn [xor_attempt xor_insert_all]. rewrite E1. cbn [obind]. rewrite Hm. cbn [obind]. by apply IH.
Qed.

Lemma decode_slots_encoded slots :
  Forall (fun x => 0 <= x < 2 ^ 16) slots ->
  decode_slots (concat (map (fun s => le_bytes 2 s) slots)) = slots.
Proof.
  induction 1 as [|x l Hx Hl IH]; [done|]. cbn [map concat].
  change (le_bytes 2 x) with [z2b x; z2b (x / 256)]. cbn [app decode_slots]. rewrite IH. f_equal.
  change [z2b x; z2b (x / 256)] with (le_bytes 2 x). apply le_val_le_bytes. simpl. lia.
Qed.

Lemma len_encoded_slots slots : len (concat (map (fun s => le_bytes 2 s) slots)) = 2 * len slots.
Proof. induction slots as [|x l IH]; [done|]. cbn [map concat]. len_lia. Qed.

(** ** Theorems *)

(** A Bloom filter never denies a key it was built for: whatever size the
    floating-point computation gives within its clamps, [build] succeeds and
    [may_contain] answers true for every key that was inserted, also after the
    filter has been written to an SSTable and read back. *)
Theorem bloom_no_false_negatives (sizing : Z -> Z * Z) keys n key :
  sizing_ok sizing -> key ∈ keys ->
  exists f : BloomFilter,
    BloomFilter_build (E:=StorageError) sizing keys n = Ok f /\
    BloomFilter_may_contain (E:=StorageError) f key = Ok true /\
    BloomFilter_decode (BloomFilter_encode f) = Ok f.
Proof.
  intros Hs Hin. destruct (bloom_build_for (E:=StorageError) sizing keys n Hs) as (f & E & Hf).
  exists f. split; [done|]. split; [by eapply bloom_for_found|].
  destruct Hf as ([Hm _] & Hk & _). apply bloom_decode_encode; lia.
Qed.

Definition demo_sizing (_ : Z) : Z * Z := (64, 7).

Lemma bloom_no_false_negatives_witness :
  exists f, BloomFilter_build (E:=StorageError) demo_sizing [bs "a"; bs "b"] 2 = Ok f /\
    BloomFilter_may_contain (E:=StorageError) f (bs "b") = Ok true /\
    BloomFilter_decode (BloomFilter_encode f) = Ok f.
Proof.
  apply (bloom_no_false_negatives demo_sizing [bs "a"; bs "b"] 2 (bs "b")).
  - intros n. vm_compute. repeat split; discriminate.
  - right. left.
Defined.

(** [next_pow2] is the least power of two that is not below its argument,
    for every argument the 32-bit result can represent. *)
Theorem next_pow2_spec n :
  1 <= n <= 2 ^ 31 ->
  exists e, 0 <= e /\ next_pow2 n = 2 ^ e /\ n <= 2 ^ e /\ (n = 1 \/ 2 ^ (e - 1) < n).
Proof.
  intros Hn. exists (Z.log2_up n). pose proof (Z.log2_up_nonneg n).
  rewrite next_pow2_log2_up by done. split; [done|]. split; [done|].
  destruct (Z.eq_dec n 1) as [->|]; [auto with lia|].
  pose proof (Z.log2_up_spec n ltac:(lia)) as Hs. rewrite Z.sub_1_r. lia.
Qed.

Lemma next_pow2_spec_witness :
  exists e, 0 <= e /\ next_pow2 1000 = 2 ^ e /\ 1000 <= 2 ^ e /\ (1000 = 1 \/ 2 ^ (e - 1) < 1000).
Proof. apply (next_pow2_spec 1000). lia. Defined.

(** The growth loop of the XOR filter never runs: [build] tests each key
    only right after inserting it, so the first table is always accepted, and
    the result is the table of the start size with the keys written in turn. *)
Theorem xor_build_takes_first_table keys n :
  len keys <= 2 ^ 29 -> n <= 2 ^ 29 ->
  XorFilter_build (E:=StorageError) keys n =
  xor_insert_all (XorFilter_empty (xor_start_size keys n)) keys.
Proof.
  intros Hk Hn. unfold XorFilter_build.
  assert (0 < xor_start_size keys n) as Hs.
  { unfold xor_start_size, sat, umax. rewrite next_pow2_log2_up by (pose proof (len_nonneg keys); lia).
    apply Z.pow_pos_nonneg; [lia|apply Z.log2_up_nonneg]. }
  generalize dependent (xor_start_size keys n). intros size Hs.
  destruct (xor_attempt_ok (E:=StorageError) keys (XorFilter_empty size)) as (f & E1 & E2).
  { split; [done|]. simpl. unfold len. rewrite length_replicate. lia. }
  cbn [xor_build_loop]. rewrite E1, E2. done.
Qed.

Definition xor_keys : list bytes := [bs "k0"; bs "k66"; bs "k133"].

Lemma xor_build_takes_first_table_witness :
  XorFilter_build (E:=StorageError) xor_keys 3 =
  xor_insert_all (XorFilter_empty (xor_start_size xor_keys 3)) xor_keys.
Proof. apply (xor_build_takes_first_table xor_keys 3); vm_compute; discriminate. Defined.

(** The XOR filter has false negatives, which its documentation excludes:
    built for three keys, it denies the first of them, whose two slots the
    other keys overwrite. *)
Theorem xor_filter_false_negative :
  exists f, XorFilter_build (E:=StorageError) xor_keys 3 = Ok f /\
    map (XorFilter_may_contain (E:=StorageError) f) xor_keys = [Ok false; Ok true; Ok true].
Proof. eexists. split; [vm_compute; reflexivity|vm_compute; reflexivity]. Qed.

(** An encoded XOR filter is read back unchanged. *)
Theorem xor_filter_round_trip f :
  xor_wf f -> xf_size f < 2 ^ 32 -> 0 <= xf_seed f < 2 ^ 64 ->
  Forall (fun x => 0 <= x < 2 ^ 16) (xf_slots f) ->
  XorFilter_decode (XorFilter_encode f) = Ok f.
Proof.
  intros [Hp Hl] Hs Hseed Hslots. unfold XorFilter_decode.
  pose proof (len_encoded_slots (xf_slots f)) as He.
  assert (len (XorFilter_encode f) = 12 + 2 * xf_size f) as Hlen by (unfold XorFilter_encode; len_lia).
  rewrite Hlen, (proj2 (Z.ltb_ge _ _)) by lia. unfold XorFilter_encode, index_range.
  read_goal. cbn [obind]. rewrite He, !le_val_le_bytes by (simpl; lia).
  rewrite Hl, Z.mul_comm, Z.eqb_refl. cbn [negb]. rewrite decode_slots_encoded by done.
  by destruct f.
Qed.
