(* ===== verification/SSTable.v ===== *)
(** * SSTables (crates/noedb-storage/src/sstable, checksum.rs [crc32c])

    The writer turns a MemTable into the bytes of a file; the reader parses
    such bytes and answers point reads, full scans and range scans.  A file is
    the list of its bytes.  CRC-32C is the [crc32c] package's, and the Bloom
    filter's size is computed in floating point: both are parameters. *)

From S2P Require Import Prelude BTree StorageError MemTable Filter.

(** ** format.rs *)

Definition SST_MAGIC : bytes := bs "NOES".
Definition SST_VERSION : Z := 1.
Definition SST_VERSION_V2 : Z := 2.
Definition SST_VERSION_V3 : Z := 3.
Definition BLOCK_SIZE : Z := 4096.
Definition HEADER_LEN : Z := 16.
Definition FOOTER_LEN : Z := 32.
Definition LEGACY_BLOCK_HEADER : Z := 4.
Definition CHECKSUM_BLOCK_HEADER : Z := 8.

Record IndexEntry : Type := mkIndexEntry { first_key : bytes; ie_offset : Z }.
Record Footer : Type := mkFooter { index_offset : Z; index_count : Z; bloom_offset : Z }.

Definition SST_FLAG_LZ4_BLOCKS : Z := 1.
Definition SST_FLAG_XOR_FILTER : Z := 2.

(** ** options.rs; the writer ignores the options. *)

Record SstWriteOptions : Type := mkSstWriteOptions { compress_blocks : bool; xor_filter : bool }.

Definition phase3_default : SstWriteOptions := mkSstWriteOptions true false.
Definition with_xor_filter : SstWriteOptions := mkSstWriteOptions true true.
Definition legacy_options : SstWriteOptions := mkSstWriteOptions false false.

Definition options_version (o : SstWriteOptions) : Z :=
  if compress_blocks o || xor_filter o then SST_VERSION_V2 else SST_VERSION.

Definition header_flags (o : SstWriteOptions) : Z :=
  let f := 0 in
  let f := if compress_blocks o then Z.lor f SST_FLAG_LZ4_BLOCKS else f in
  if xor_filter o then Z.lor f SST_FLAG_XOR_FILTER else f.

(** [read_exact] at a position of the file: an I/O error at its end. *)
Definition read_exact (file : bytes) (pos n : Z) : outcome StorageError bytes :=
  ok_or (slice file pos n) (Io "failed to fill whole buffer").

Definition encode_record (key value : bytes) : bytes :=
  le_bytes 2 (len key) ++ le_bytes 4 (len value) ++ key ++ value.

(** The record at [off], where at least six bytes are left: its key, its value
    and the offset after it; [None] when it leaves the block.  This is the
    parsing that [scan_block] and both iterators share. *)
Definition read_entry (block : bytes) (off : Z) : option (bytes * bytes * Z) :=
  match slice block off 2, slice block (off + 2) 4 with
  | Some kl, Some vl =>
      let key_len := le_val kl in
      let val_len := le_val vl in
      let off := off + 6 in
      match slice block off key_len, slice block (off + key_len) val_len with
      | Some k, Some v => Some (k, v, off + key_len + val_len)
      | _, _ => None
      end
  | _, _ => None
  end.

Fixpoint scan_loop (fuel : nat) (block : bytes) (off : Z) (key : bytes) : option bytes :=
  match fuel with
  | O => None
  | S fuel' =>
      if off + 6 <=? len block then
        match read_entry block off with
        | Some (k, v, off') =>
            if bool_decide (k = key) then Some v else scan_loop fuel' block off' key
        | None => None
        end
      else None
  end.

(** Every record has at least six bytes, so that a step per byte is enough. *)
Definition scan_block (block key : bytes) : option bytes :=
  scan_loop (S (length block)) block 0 key.

(** One round of the loop in an iterator's [next]: it ends, goes on, or yields
    an item, which is [Err] when a block cannot be read. *)
Inductive round (S A : Type) : Type :=
| Stop
| Again (s : S)
| Yield (item : outcome StorageError A) (s : S).
Arguments Stop {S A}.
Arguments Again {S A} s.
Arguments Yield {S A} item s.

Section sstable.
Context (crc32c : bytes -> Z) (sizing : Z -> Z * Z).

(** ** block.rs *)

Definition encode_block (payload : bytes) : bytes :=
  le_bytes 4 (len payload) ++ le_bytes 4 (crc32c payload) ++ payload.

(** [checked_add] on [usize] *)
Definition block_end (start n : Z) (data : bytes) : outcome StorageError Z :=
  if start + n >? umax 64 then Err (CorruptSstable "block length overflow")
  else if start + n >? len data then Err (CorruptSstable "block past EOF")
  else Ok (start + n).

Definition decode_block_at (data : bytes) (offset : Z) (checksum_blocks : bool)
    : outcome StorageError bytes :=
  let off := offset in
  let header := if checksum_blocks then CHECKSUM_BLOCK_HEADER else LEGACY_BLOCK_HEADER in
  if sat 64 (off + header) >? len data then Err (CorruptSstable "block length header past EOF")
  else
    let? l := index_range data off 4 in
    let n := le_val l in
    if checksum_blocks then
      let? c := index_range data (off + 4) 4 in
      let start := off + CHECKSUM_BLOCK_HEADER in
      let? _ := block_end start n data in
      let? payload := index_range data start n in
      if negb (crc32c payload =? le_val c) then Err ChecksumMismatch else Ok payload
    else
      let start := off + LEGACY_BLOCK_HEADER in
      let? _ := block_end start n data in
      index_range data start n.

(** ** writer.rs *)

Record SstWriter : Type := mkSstWriter {
  w_file : bytes;
  w_offset : Z;
  w_index : list IndexEntry;
  w_block : bytes;
  w_keys : list bytes;
  w_count : Z;
}.

Definition sst_header : bytes :=
  SST_MAGIC ++ le_bytes 2 SST_VERSION_V3 ++ le_bytes 4 BLOCK_SIZE ++ le_bytes 4 0 ++ le_bytes 2 0.

Definition write_block (w : SstWriter) : SstWriter :=
  let wire := encode_block (w_block w) in
  mkSstWriter (w_file w ++ wire) (w_offset w + len wire) (w_index w) [] (w_keys w) (w_count w).

Definition push_index (k : bytes) (w : SstWriter) : SstWriter :=
  mkSstWriter (w_file w) (w_offset w) (w_index w ++ [mkIndexEntry k (w_offset w)])
              (w_block w) (w_keys w) (w_count w).

Definition push_record (record : bytes) (w : SstWriter) : SstWriter :=
  mkSstWriter (w_file w) (w_offset w) (w_index w) (w_block w ++ record) (w_keys w) (w_count w).

Definition count_key (k : bytes) (w : SstWriter) : SstWriter :=
  mkSstWriter (w_file w) (w_offset w) (w_index w) (w_block w) (w_keys w ++ [k]) (w_count w + 1).

(** The body of the loop over [table.iter()]. *)
Definition write_entry (w : SstWriter) (e : bytes * bytes) : SstWriter :=
  let '(k, v) := e in
  let w := count_key k w in
  let w := if bool_decide (w_block w = []) then push_index k w else w in
  let record := encode_record k v in
  let w := if bool_decide (w_block w <> []) && (len (w_block w) + len record >? BLOCK_SIZE)
           then push_index k (write_block w) else w in
  push_record record w.

Definition encode_index_entry (e : IndexEntry) : bytes :=
  le_bytes 2 (len (first_key e)) ++ first_key e ++ le_bytes 8 (ie_offset e).

Definition write_footer (f : Footer) : bytes :=
  le_bytes 8 (index_offset f) ++ le_bytes 4 (index_count f) ++ le_bytes 8 (bloom_offset f) ++
  le_bytes 4 0 ++ SST_MAGIC ++ le_bytes 2 SST_VERSION_V3 ++ le_bytes 2 0.

(** The bytes of the finished file and the number of keys. *)
Definition write_from_memtable (table : MemTable) : outcome StorageError (bytes * Z) :=
  let w := fold_left write_entry (MemTable_iter table) (mkSstWriter sst_header HEADER_LEN [] [] [] 0) in
  let w := if bool_decide (w_block w <> []) then write_block w else w in
  let? bloom := BloomFilter_build sizing (w_keys w) (Z.max (len (w_keys w)) 1) in
  let bloom_off := w_offset w in
  let bloom_bytes := BloomFilter_encode bloom in
  let index_off := bloom_off + len bloom_bytes in
  Ok (w_file w ++ bloom_bytes ++ concat (map encode_index_entry (w_index w)) ++
      write_footer (mkFooter index_off (len (w_index w)) bloom_off), w_count w).

Definition write_from_memtable_opts (table : MemTable) (opts : SstWriteOptions)
    : outcome StorageError (bytes * Z) :=
  write_from_memtable table.

(** ** reader.rs *)

Record SstReader : Type := mkSstReader {
  sr_data : bytes;
  sr_index : list IndexEntry;
  sr_bloom : BloomFilter;
  sr_checksum_blocks : bool;
}.

Definition read_footer (file : bytes) : outcome StorageError Footer :=
  if len file <? HEADER_LEN + FOOTER_LEN then Err (CorruptSstable "file too small")
  else
    let? buf := read_exact file (len file - FOOTER_LEN) FOOTER_LEN in
    let? a := index_range buf 0 8 in
    let? b := index_range buf 8 4 in
    let? c := index_range buf 12 8 in
    let? magic := index_range buf 24 4 in
    if bool_decide (magic <> SST_MAGIC) then Err (CorruptSstable "bad footer magic")
    else Ok (mkFooter (le_val a) (le_val b) (le_val c)).

(** [n] entries from [pos] on. *)
Fixpoint read_index_from (n : nat) (file : bytes) (pos : Z) : outcome StorageError (list IndexEntry) :=
  match n with
  | O => Ok []
  | S n' =>
      let? kl := read_exact file pos 2 in
      let key_len := le_val kl in
      let? k := read_exact file (pos + 2) key_len in
      let? off := read_exact file (pos + 2 + key_len) 8 in
      let? rest := read_index_from n' file (pos + 2 + key_len + 8) in
      Ok (mkIndexEntry k (le_val off) :: rest)
  end.

Definition read_index (file : bytes) (f : Footer) : outcome StorageError (list IndexEntry) :=
  read_index_from (Z.to_nat (index_count f)) file (index_offset f).

Definition read_bloom (file : bytes) (f : Footer) : outcome StorageError BloomFilter :=
  let? bloom_len := checked_sub (index_offset f) (bloom_offset f) in
  let? data := read_exact file (bloom_offset f) bloom_len in
  BloomFilter_decode data.

Definition SstReader_open (file : bytes) : outcome StorageError SstReader :=
  let? magic := read_exact file 0 4 in
  if bool_decide (magic <> SST_MAGIC) then Err (CorruptSstable "bad SST magic")
  else
    let? ver := read_exact file 4 2 in
    let version := le_val ver in
    if negb (version =? SST_VERSION) && negb (version =? SST_VERSION_V2) &&
       negb (version =? SST_VERSION_V3)
    then Err (CorruptSstable "unsupported SST version")
    else
      let? footer := read_footer file in
      let? index := read_index file footer in
      let? bloom := read_bloom file footer in
      Ok (mkSstReader file index bloom (version >=? SST_VERSION_V3)).

Definition read_block (r : SstReader) (offset : Z) : outcome StorageError bytes :=
  decode_block_at (sr_data r) offset (sr_checksum_blocks r).

Fixpoint verify_blocks (r : SstReader) (entries : list IndexEntry) (count : Z) : outcome StorageError Z :=
  match entries with
  | [] => Ok count
  | e :: entries' =>
      let? _ := read_block r (ie_offset e) in
      verify_blocks r entries' (count + 1)
  end.

Definition verify_all_blocks (r : SstReader) : outcome StorageError Z :=
  verify_blocks r (sr_index r) 0.

(** The binary search of [find_block]; the window halves, so that a step per
    entry is enough.  [lo] is returned. *)
Fixpoint find_block_loop (fuel : nat) (index : list IndexEntry) (lo hi : nat) (key : bytes) : nat :=
  match fuel with
  | O => lo
  | S fuel' =>
      if (lo <? hi)%nat then
        let mid := (lo + (hi - lo) / 2)%nat in
        match index !! mid with
        | Some e => if bytes_leb (first_key e) key then find_block_loop fuel' index (mid + 1) hi key
                    else find_block_loop fuel' index lo mid key
        | None => lo
        end
      else lo
  end.

Definition find_block (r : SstReader) (key : bytes) : option nat :=
  match sr_index r with
  | [] => None
  | index =>
      let lo := find_block_loop (length index) index 0 (length index) key in
      if (lo =? 0)%nat then None else Some (lo - 1)%nat
  end.

Definition SstReader_get (r : SstReader) (key : bytes) : outcome StorageError (option bytes) :=
  let? maybe := BloomFilter_may_contain (sr_bloom r) key in
  if negb maybe then Ok None
  else
    match find_block r key with
    | None => Ok None
    | Some i =>
        match sr_index r !! i with
        | Some e => let? block := read_block r (ie_offset e) in Ok (scan_block block key)
        | None => Panic
        end
    end.

(** [SstIter] *)
Record SstIter : Type := mkSstIter { it_block_idx : nat; it_block : bytes; it_off : Z }.

Definition SstIter_load_block (r : SstReader) (it : SstIter) : outcome StorageError SstIter :=
  match sr_index r !! it_block_idx it with
  | None => Ok (mkSstIter (it_block_idx it) [] 0)
  | Some e =>
      let? block := read_block r (ie_offset e) in
      Ok (mkSstIter (it_block_idx it) block 0)
  end.

Definition SstIter_new (r : SstReader) : outcome StorageError SstIter :=
  SstIter_load_block r (mkSstIter 0 [] 0).

Definition SstIter_round (r : SstReader) (it : SstIter) : round SstIter (bytes * bytes) :=
  if (length (sr_index r) <=? it_block_idx it)%nat then Stop
  else if it_off it + 6 >? len (it_block it) then
    let it := mkSstIter (S (it_block_idx it)) (it_block it) (it_off it) in
    match SstIter_load_block r it with
    | Ok it' => Again it'
    | Err e => Yield (Err e) it
    | Panic => Yield Panic it
    end
  else
    match read_entry (it_block it) (it_off it) with
    | Some (k, v, off) => Yield (Ok (k, v)) (mkSstIter (it_block_idx it) (it_block it) off)
    | None =>
        let it := mkSstIter (S (it_block_idx it)) (it_block it) (it_off it + 6) in
        match SstIter_load_block r it with
        | Ok it' => Again it'
        | Err _ => Again it
        | Panic => Yield Panic it
        end
    end.

(** [SstRangeIter] *)
Record SstRangeIter : Type := mkSstRangeIter {
  ri_block_idx : nat;
  ri_block : bytes;
  ri_off : Z;
  ri_done : bool;
}.

Definition SstRangeIter_load_block (r : SstReader) (end_ : bytes) (it : SstRangeIter)
    : outcome StorageError SstRangeIter :=
  match sr_index r !! ri_block_idx it with
  | None => Ok (mkSstRangeIter (ri_block_idx it) [] 0 true)
  | Some e =>
      if bytes_leb end_ (first_key e) then Ok (mkSstRangeIter (ri_block_idx it) [] 0 true)
      else
        let? block := read_block r (ie_offset e) in
        Ok (mkSstRangeIter (ri_block_idx it) block 0 (ri_done it))
  end.

Definition SstRangeIter_new (r : SstReader) (start end_ : bytes) : outcome StorageError SstRangeIter :=
  SstRangeIter_load_block r end_ (mkSstRangeIter (default 0%nat (find_block r start)) [] 0 false).

Definition SstRangeIter_round (r : SstReader) (start end_ : bytes) (it : SstRangeIter)
    : round SstRangeIter (bytes * bytes) :=
  if ri_done it then Stop
  else if ri_off it + 6 >? len (ri_block it) then
    let it := mkSstRangeIter (S (ri_block_idx it)) (ri_block it) (ri_off it) (ri_done it) in
    match SstRangeIter_load_block r end_ it with
    | Ok it' => Again it'
    | Err e => Yield (Err e) it
    | Panic => Yield Panic it
    end
  else
    match read_entry (ri_block it) (ri_off it) with
    | Some (k, v, off) =>
        let it := mkSstRangeIter (ri_block_idx it) (ri_block it) off (ri_done it) in
        if bytes_ltb k start then Again it
        else if bytes_leb end_ k then Stop
        else Yield (Ok (k, v)) it
    | None =>
        let it := mkSstRangeIter (S (ri_block_idx it)) (ri_block it) (ri_off it + 6) (ri_done it) in
        match SstRangeIter_load_block r end_ it with
        | Ok it' => Again it'
        | Err _ => Again it
        | Panic => Yield Panic it
        end
    end.

(** The items of an iterator, in order, for at most [fuel] rounds. *)
Fixpoint drain {S A} (next : S -> round S A) (fuel : nat) (s : S) : list (outcome StorageError A) :=
  match fuel with
  | O => []
  | S fuel' =>
      match next s with
      | Stop => []
      | Again s' => drain next fuel' s'
      | Yield item s' => item :: drain next fuel' s'
      end
  end.

(** Rounds enough for every table: each round moves to the next block or at
    least six bytes on in a block of the file. *)
Definition scan_fuel (r : SstReader) : nat :=
  (S (length (sr_index r)) * (length (sr_data r) + 2) + length (sr_data r) + 2)%nat.

Definition SstReader_scan (r : SstReader) : outcome StorageError (list (outcome StorageError (bytes * bytes))) :=
  let? it := SstIter_new r in
  Ok (drain (SstIter_round r) (scan_fuel r) it).

Definition SstReader_scan_range (r : SstReader) (start end_ : bytes)
    : outcome StorageError (list (outcome StorageError (bytes * bytes))) :=
  let? it := SstRangeIter_new r start end_ in
  Ok (drain (SstRangeIter_round r start end_) (scan_fuel r) it).

(** ** scrub.rs: every file of the directory, in the order it is listed *)

Record ScrubReport : Type := mkScrubReport {
  files_scanned : Z;
  blocks_verified : Z;
  checksum_failures : Z;
}.

Definition scrub_sst (file : bytes) : outcome StorageError Z :=
  let? r := SstReader_open file in verify_all_blocks r.

Fixpoint scrub_files (files : list bytes) (report : ScrubReport) : outcome StorageError ScrubReport :=
  match files with
  | [] => Ok report
  | file :: files' =>
      match scrub_sst file with
      | Ok n => scrub_files files' (mkScrubReport (files_scanned report + 1)
                                      (blocks_verified report + n) (checksum_failures report))
      | Err ChecksumMismatch =>
          scrub_files files' (mkScrubReport (files_scanned report + 1)
                                (blocks_verified report) (checksum_failures report + 1))
      | Err e => Err e
      | Panic => Panic
      end
  end.

(** [None]: there is no [sst] directory. *)
Definition scrub_data_dir (files : option (list bytes)) : outcome StorageError ScrubReport :=
  match files with
  | None => Ok (mkScrubReport 0 0 0)
  | Some files => scrub_files files (mkScrubReport 0 0 0)
  end.

End sstable.

(** ** Records in a block *)

Lemma len_SST_MAGIC : len SST_MAGIC = 4.
Proof. done. Qed.
#[global] Hint Rewrite len_SST_MAGIC : len.

Definition records (g : list (bytes * bytes)) : bytes :=
  concat (map (fun e => encode_record e.1 e.2) g).

(** What the two length fields of a record and the length of a block can hold. *)
Definition entry_fits (e : bytes * bytes) : Prop :=
  len e.1 < 2 ^ 16 /\ 6 + len e.1 + len e.2 < 2 ^ 32.

Fixpoint assoc (g : list (bytes * bytes)) (key : bytes) : option bytes :=
  match g with
  | [] => None
  | e :: g' => if bool_decide (e.1 = key) then Some e.2 else assoc g' key
  end.

Lemma len_encode_record k v : len (encode_record k v) = 6 + len k + len v.
Proof. unfold encode_record. len_lia. Qed.

Lemma records_app g1 g2 : records (g1 ++ g2) = records g1 ++ records g2.
Proof. unfold records. by rewrite map_app, concat_app. Qed.

Lemma records_cons e g : records (e :: g) = encode_record e.1 e.2 ++ records g.
Proof. done. Qed.

Lemma records_single e : records [e] = encode_record e.1 e.2.
Proof. rewrite records_cons. apply app_nil_r. Qed.

#[global] Hint Rewrite len_encode_record : len.

Lemma len_records g : 6 * len g <= len (records g).
Proof.
  induction g as [|e g IH]; [done|]. rewrite records_cons.
  autorewrite with len. pose proof (len_nonneg e.1). pose proof (len_nonneg e.2). lia.
Qed.

Lemma records_nil g : records g = [] <-> g = [].
Proof.
  split; [|by intros ->]. intros H. pose proof (len_records g) as Hl. rewrite H in Hl.
  destruct g; [done|]. autorewrite with len in Hl. pose proof (len_nonneg g). lia.
Qed.

Lemma read_entry_here p k v s off :
  off = len p -> entry_fits (k, v) ->
  read_entry (p ++ encode_record k v ++ s) off = Some (k, v, off + 6 + len k + len v).
Proof.
  intros -> [Hk Hv]; cbn [fst snd] in *. pose proof (len_nonneg k). pose proof (len_nonneg v).
  unfold read_entry, encode_record. rewrite <- !app_assoc. read_goal.
  rewrite !le_val_le_bytes by (simpl; lia). read_goal. done.
Qed.

Lemma scan_loop_records fuel p g key off :
  off = len p -> Forall entry_fits g -> (length g < fuel)%nat ->
  scan_loop fuel (p ++ records g) off key = assoc g key.
Proof.
  revert p g off. induction fuel as [|fuel IH]; intros p g off -> Hg Hf; [lia|].
  destruct g as [|[k v] g]; cbn [scan_loop assoc].
  - unfold records. cbn [map concat]. rewrite app_nil_r.
    by rewrite (proj2 (Z.leb_gt _ _)) by lia.
  - inversion Hg as [|? ? He Hg']; subst. rewrite records_cons. cbn [fst snd].
    pose proof (len_nonneg k). pose proof (len_nonneg v). pose proof (len_nonneg (records g)).
    rewrite (proj2 (Z.leb_le _ _)) by len_lia. rewrite read_entry_here by done.
    case_bool_decide; [done|]. rewrite app_assoc. apply IH; [len_lia|done|simpl in Hf; lia].
Qed.

Lemma scan_block_records g key :
  Forall entry_fits g -> scan_block (records g) key = assoc g key.
Proof.
  intros Hg. unfold scan_block. apply (scan_loop_records _ [] g); [done|done|].
  pose proof (len_records g). unfold len in *. lia.
Qed.

Lemma assoc_in g key v : assoc g key = Some v -> (key, v) ∈ g.
Proof.
  induction g as [|[k v'] g IH]; simpl; [done|]. case_bool_decide; intros; simplify_eq; [left|right; auto].
Qed.

Lemma in_assoc g key v :
  StronglySorted entry_lt g -> (key, v) ∈ g -> assoc g key = Some v.
Proof.
  induction 1 as [|[k v'] g Hs IH Hall]; [by intros ?%elem_of_nil|].
  intros [?|Hin]%elem_of_cons; simplify_eq/=; [by rewrite bool_decide_true|].
  rewrite Forall_forall in Hall. pose proof (Hall _ Hin) as Hlt. unfold entry_lt in Hlt; simpl in Hlt.
  rewrite bool_decide_false; [auto|]. by apply klt_ne.
Qed.

Section file.
Context (crc32c : bytes -> Z) (crc32c_u32 : forall l, 0 <= crc32c l < 2 ^ 32).
Context (sizing : Z -> Z * Z) (sizing_clamped : sizing_ok sizing).
Implicit Types (gs : list (list (bytes * bytes))).

(** ** Blocks in a file *)

Definition blocks gs : bytes := concat (map (fun g => encode_block crc32c (records g)) gs).

Definition group_key (g : list (bytes * bytes)) : bytes :=
  match g with e :: _ => e.1 | [] => [] end.

Fixpoint index_of (off : Z) gs : list IndexEntry :=
  match gs with
  | [] => []
  | g :: gs' => mkIndexEntry (group_key g) off :: index_of (off + 8 + len (records g)) gs'
  end.

Lemma len_encode_block b : len (encode_block crc32c b) = 8 + len b.
Proof. unfold encode_block. len_lia. Qed.

Lemma blocks_app gs1 gs2 : blocks (gs1 ++ gs2) = blocks gs1 ++ blocks gs2.
Proof. unfold blocks. by rewrite map_app, concat_app. Qed.

Lemma len_blocks_cons g gs : len (blocks (g :: gs)) = 8 + len (records g) + len (blocks gs).
Proof. unfold blocks. cbn [map concat]. rewrite len_app, len_encode_block. done. Qed.

Lemma index_of_app off gs1 gs2 :
  index_of off (gs1 ++ gs2) = index_of off gs1 ++ index_of (off + len (blocks gs1)) gs2.
Proof.
  revert off. induction gs1 as [|g gs1 IH]; intros off.
  { cbn [app index_of]. change (len (blocks [])) with 0. by rewrite Z.add_0_r. }
  cbn [app index_of]. rewrite IH, len_blocks_cons. do 3 f_equal. lia.
Qed.

Lemma length_index_of off gs : length (index_of off gs) = length gs.
Proof. revert off. induction gs; intros off; simpl; auto. Qed.

Lemma len_index_of off gs : len (index_of off gs) = len gs.
Proof. unfold len. by rewrite length_index_of. Qed.

Lemma index_of_lookup off gs1 g gs2 :
  index_of off (gs1 ++ g :: gs2) !! length gs1 = Some (mkIndexEntry (group_key g) (off + len (blocks gs1))).
Proof.
  rewrite index_of_app, lookup_app_r, length_index_of, Nat.sub_diag by (rewrite length_index_of; lia).
  done.
Qed.

Lemma decode_block_here p b s off :
  off = len p -> len b < 2 ^ 32 -> off + 8 + len b <= umax 64 ->
  decode_block_at crc32c (p ++ encode_block crc32c b ++ s) off true = Ok b.
Proof.
  intros -> Hb Hu. pose proof (len_nonneg p). pose proof (len_nonneg b). pose proof (len_nonneg s).
  unfold decode_block_at, block_end, index_range, CHECKSUM_BLOCK_HEADER.
  assert (len (p ++ encode_block crc32c b ++ s) = len p + 8 + len b + len s) as Hl.
  { rewrite !len_app, len_encode_block. lia. }
  rewrite Hl. unfold sat.
  rewrite Z.gtb_ltb, (proj2 (Z.ltb_ge _ _)) by lia.
  unfold encode_block. rewrite <- !app_assoc. read_goal. cbn [obind].
  rewrite !le_val_le_bytes by (simpl; specialize (crc32c_u32 b); lia).
  rewrite !Z.gtb_ltb, !(proj2 (Z.ltb_ge _ _)) by lia. cbn [obind]. read_goal. cbn [obind].
  by rewrite Z.eqb_refl.
Qed.

(** ** The writer's loop *)

Definition group_ok (g : list (bytes * bytes)) : Prop :=
  g <> [] /\ Forall entry_fits g /\ len (records g) < 2 ^ 32.

(** After the entries [es]: the groups [gs] are on file, [cur] is in the block. *)
Record writer_inv (es : list (bytes * bytes)) gs (cur : list (bytes * bytes)) (w : SstWriter) : Prop := {
  wi_entries : es = concat gs ++ cur;
  wi_groups : Forall group_ok gs;
  wi_cur : cur = [] /\ gs = [] \/ group_ok cur;
  wi_file : w_file w = sst_header ++ blocks gs;
  wi_offset : w_offset w = HEADER_LEN + len (blocks gs);
  wi_index : w_index w = index_of HEADER_LEN (gs ++ (if bool_decide (cur = []) then [] else [cur]));
  wi_block : w_block w = records cur;
  wi_keys : w_keys w = es.*1;
  wi_count : w_count w = len es;
}.

Lemma group_ok_single e : entry_fits e -> group_ok [e].
Proof.
  intros He. split; [done|]. split; [by constructor|]. rewrite records_single. destruct He. len_lia.
Qed.

Lemma group_ok_snoc cur e :
  group_ok cur -> entry_fits e -> len (records cur) + len (encode_record e.1 e.2) <= BLOCK_SIZE ->
  group_ok (cur ++ [e]).
Proof.
  intros (Hne & Hall & _) He Hb. split; [by destruct cur|]. split; [by apply Forall_app; auto|].
  rewrite records_app, records_single. unfold BLOCK_SIZE in Hb. len_lia.
Qed.

Lemma index_of_snoc off gs cur e :
  cur <> [] -> index_of off (gs ++ [cur ++ [e]]) = index_of off (gs ++ [cur]).
Proof. intros Hc. rewrite !index_of_app. by destruct cur. Qed.

Lemma index_of_push off gs k v :
  index_of off (gs ++ [[(k, v)]]) = index_of off gs ++ [mkIndexEntry k (off + len (blocks gs))].
Proof. by rewrite index_of_app. Qed.

Lemma write_entry_inv es gs cur w e :
  writer_inv es gs cur w -> entry_fits e ->
  exists gs' cur', writer_inv (es ++ [e]) gs' cur' (write_entry crc32c w e) /\ cur' <> [].
Proof.
  intros [He Hg Hc Hf Ho Hi Hb Hk Hn] Hfit. destruct e as [k v].
  assert ((es ++ [(k, v)]).*1 = es.*1 ++ [k]) as Hkeys by (by rewrite fmap_app).
  assert (len (es ++ [(k, v)]) = len es + 1) as Hlen by len_lia.
  unfold write_entry. cbn [count_key w_block]. rewrite Hb.
  destruct Hc as [[-> ->]|Hc].
  - exists [], [(k, v)]. split; [|done].
    rewrite (bool_decide_true (records [] = [])) by done. cbn [push_index count_key w_block].
    rewrite Hb, (bool_decide_false (records [] <> [])) by (intros H; by apply H).
    cbn [andb]. split; cbn [push_record push_index count_key w_file w_offset w_index w_block w_keys w_count];
      rewrite ?Hb, ?Hk, ?Hn, ?Hkeys, ?Hlen, ?Ho, ?Hi; try done.
    + by rewrite He.
    + right. by apply group_ok_single.
    + by rewrite records_single.
  - assert (records cur <> []) as Hr by (rewrite records_nil; apply Hc).
    rewrite (bool_decide_false (records cur = [])) by done. cbn [count_key w_block]. rewrite Hb.
    rewrite (bool_decide_true (records cur <> [])) by done. cbn [andb].
    assert (cur <> []) as Hcn by apply Hc.
    rewrite (bool_decide_false (cur = [])) in Hi by done.
    destruct (_ >? _) eqn:Efull; bool_to_prop.
    + exists (gs ++ [cur]), [(k, v)]. split; [|done].
      assert (blocks (gs ++ [cur]) = blocks gs ++ encode_block crc32c (records cur)) as Hbl.
      { rewrite blocks_app. unfold blocks at 2. cbn [map concat]. by rewrite app_nil_r. }
      split; cbn [push_record push_index count_key write_block w_file w_offset w_index w_block w_keys w_count];
        rewrite ?Hb, ?Hk, ?Hn, ?Hkeys, ?Hlen; try done.
      * rewrite He, concat_app. cbn [concat]. by rewrite app_nil_r.
      * apply Forall_app; auto.
      * right. by apply group_ok_single.
      * by rewrite Hf, Hbl, app_assoc.
      * rewrite Ho, Hbl. len_lia.
      * rewrite Hi, bool_decide_false, index_of_push by done. do 3 f_equal.
        rewrite Ho, Hbl. len_lia.
      * by rewrite records_single.
    + exists gs, (cur ++ [(k, v)]). split; [|by destruct cur].
      split; cbn [push_record count_key w_file w_offset w_index w_block w_keys w_count];
        rewrite ?Hb, ?Hk, ?Hn, ?Hkeys, ?Hlen; try done.
      * by rewrite He, <- app_assoc.
      * right. by apply group_ok_snoc.
      * rewrite Hi, bool_decide_false, index_of_snoc by (by destruct cur). done.
      * by rewrite records_app, records_single.
Qed.

Lemma write_entries_inv es0 es gs cur w :
  writer_inv es0 gs cur w -> Forall entry_fits es ->
  exists gs' cur', writer_inv (es0 ++ es) gs' cur' (fold_left (write_entry crc32c) es w).
Proof.
  revert es0 gs cur w. induction es as [|e es IH]; intros es0 gs cur w Hw Hes.
  { exists gs, cur. by rewrite app_nil_r. }
  inversion Hes; subst. cbn [fold_left].
  destruct (write_entry_inv es0 gs cur w e) as (gs' & cur' & Hw' & _); [done..|].
  destruct (IH (es0 ++ [e]) gs' cur' _ Hw') as (gs2 & cur2 & Hw2); [done|].
  exists gs2, cur2. by rewrite <- app_assoc in Hw2.
Qed.

(** The bytes of a table with the groups [gs] and the filter [bloom]. *)
Definition sst_image gs (bloom : BloomFilter) : bytes :=
  let bloom_off := HEADER_LEN + len (blocks gs) in
  let index_off := bloom_off + len (BloomFilter_encode bloom) in
  sst_header ++ blocks gs ++ BloomFilter_encode bloom ++
  concat (map encode_index_entry (index_of HEADER_LEN gs)) ++
  write_footer (mkFooter index_off (len gs) bloom_off).

Lemma write_image t :
  Forall entry_fits (MemTable_iter t) ->
  exists gs bloom,
    write_from_memtable crc32c sizing t = Ok (sst_image gs bloom, len (MemTable_iter t)) /\
    concat gs = MemTable_iter t /\ Forall group_ok gs /\ bloom_for bloom (MemTable_iter t).*1.
Proof.
  intros Hfit. unfold write_from_memtable.
  destruct (write_entries_inv [] (MemTable_iter t) [] [] (mkSstWriter sst_header HEADER_LEN [] [] [] 0))
    as (gs & cur & Hw); [by split; auto|done|].
  set (w := fold_left _ _ _) in *. destruct Hw as [He Hg Hc Hf Ho Hi Hb Hk Hn].
  cbn [app] in *.
  set (w' := if bool_decide (w_block w <> []) then _ else _).
  set (gs' := gs ++ (if bool_decide (cur = []) then [] else [cur])) in *.
  assert (w_file w' = sst_header ++ blocks gs' /\ w_offset w' = HEADER_LEN + len (blocks gs') /\
          w_index w' = index_of HEADER_LEN gs' /\ w_keys w' = (MemTable_iter t).*1 /\
          w_count w' = len (MemTable_iter t)) as (-> & -> & -> & -> & ->).
  { unfold w'. rewrite Hb. unfold gs' in Hi |- *.
    destruct Hc as [[-> ->]|Hc].
    - rewrite (bool_decide_false (records [] <> [])) by (intros H; by apply H).
      rewrite (bool_decide_true ([] = [])), app_nil_r by done. auto.
    - assert (cur <> []) as Hcn by apply Hc.
      rewrite bool_decide_true by (by rewrite records_nil).
      rewrite (bool_decide_false (cur = [])) in Hi |- * by done.
      cbn [write_block w_file w_offset w_index w_keys w_count]. rewrite Hf, Ho, Hi, Hb.
      rewrite blocks_app. replace (blocks [cur]) with (encode_block crc32c (records cur))
        by (unfold blocks; cbn [map concat]; by rewrite app_nil_r).
      split_and!; [by rewrite app_assoc|len_lia|done|done|done]. }
  destruct (bloom_build_for (E:=StorageError) sizing (MemTable_iter t).*1
              (Z.max (len (MemTable_iter t).*1) 1) sizing_clamped) as (bloom & -> & Hbl).
  cbn [obind]. exists gs', bloom. split_and!; [| |apply Forall_app; split; [done|]|done].
  - unfold sst_image. rewrite <- app_assoc. by rewrite len_index_of.
  - unfold gs'. rewrite concat_app, He. destruct Hc as [[-> ->]|(Hcn & _)].
    + by rewrite bool_decide_true.
    + rewrite bool_decide_false by done. cbn [concat]. by rewrite app_nil_r.
  - destruct Hc as [[-> _]|Hc]; [by rewrite bool_decide_true|].
    rewrite bool_decide_false by apply Hc. by constructor.
Qed.

(** ** Opening a table *)

Definition index_entry_fits (e : IndexEntry) : Prop :=
  len (first_key e) < 2 ^ 16 /\ 0 <= ie_offset e < 2 ^ 64.

Lemma read_index_here p es s off :
  off = len p -> Forall index_entry_fits es ->
  read_index_from (length es) (p ++ concat (map encode_index_entry es) ++ s) off = Ok es.
Proof.
  revert p off. induction es as [|[k o] es IH]; intros p off -> Hes; [done|].
  inversion Hes as [|? ? [Hk Ho] Hes']; subst. cbn [first_key ie_offset] in *.
  cbn [length read_index_from map concat]. unfold encode_index_entry at 1 3 5. cbn [first_key ie_offset].
  pose proof (len_nonneg k).
  unfold read_exact. rewrite <- !app_assoc. read_goal. cbn [ok_or obind].
  rewrite le_val_le_bytes by (simpl; lia). read_goal. cbn [ok_or obind]. read_goal. cbn [ok_or obind].
  rewrite le_val_le_bytes by (simpl; lia).
  specialize (IH (p ++ encode_index_entry (mkIndexEntry k o)) (len p + 2 + len k + 8)).
  rewrite <- !app_assoc in IH. rewrite IH; [done| |done].
  unfold encode_index_entry. cbn [first_key ie_offset]. len_lia.
Qed.

Lemma len_sst_header : len sst_header = HEADER_LEN.
Proof. done. Qed.

Lemma len_write_footer f : len (write_footer f) = FOOTER_LEN.
Proof. unfold write_footer. by autorewrite with len. Qed.

Lemma len_encode_bloom f : len (BloomFilter_encode f) = 8 + len (bf_bits f).
Proof. unfold BloomFilter_encode. len_lia. Qed.

Lemma index_of_fits off gs :
  Forall group_ok gs -> 0 <= off -> off + len (blocks gs) < 2 ^ 64 ->
  Forall index_entry_fits (index_of off gs).
Proof.
  intros Hgs. revert off. induction Hgs as [|g gs (Hne & Hfit & _) Hgs IH]; intros off Ho Hu;
    [constructor|].
  rewrite len_blocks_cons in Hu. pose proof (len_nonneg (records g)). pose proof (len_nonneg (blocks gs)).
  cbn [index_of]. constructor; [|apply IH; lia].
  split; cbn [first_key ie_offset]; [|lia]. destruct Hfit as [|e g Hk]; [done|]. apply Hk.
Qed.

Definition image_reader gs bloom : SstReader :=
  mkSstReader (sst_image gs bloom) (index_of HEADER_LEN gs) bloom true.

Lemma read_footer_image gs bloom :
  len (sst_image gs bloom) < 2 ^ 64 -> len gs < 2 ^ 32 ->
  read_footer (sst_image gs bloom) =
  Ok (mkFooter (HEADER_LEN + len (blocks gs) + len (BloomFilter_encode bloom)) (len gs)
               (HEADER_LEN + len (blocks gs))).
Proof.
  intros Hu Hg. unfold read_footer. pose proof (len_nonneg gs).
  pose proof (len_nonneg (blocks gs)). pose proof (len_nonneg (BloomFilter_encode bloom)).
  pose proof (len_nonneg (concat (map encode_index_entry (index_of HEADER_LEN gs)))).
  unfold sst_image in *. rewrite !len_app, len_sst_header, len_write_footer in *.
  rewrite (proj2 (Z.ltb_ge _ _)) by (unfold HEADER_LEN, FOOTER_LEN in *; lia).
  unfold read_exact.
  do 4 (rewrite slice_skip by (rewrite ?len_sst_header; unfold HEADER_LEN, FOOTER_LEN in *; lia)).
  rewrite slice_all by (rewrite ?len_sst_header, ?len_write_footer; lia). cbn [ok_or obind].
  unfold write_footer, index_range. unfold HEADER_LEN, FOOTER_LEN in *.
  cbn [index_offset index_count bloom_offset].
  read_goal. cbn [obind].
  rewrite bool_decide_false by (intros H'; by apply H').
  rewrite !le_val_le_bytes by (simpl; lia). done.
Qed.

Lemma open_image gs bloom :
  Forall group_ok gs -> 0 <= bf_m bloom < 2 ^ 32 -> 0 <= bf_k bloom < 256 ->
  len (sst_image gs bloom) < 2 ^ 64 -> len gs < 2 ^ 32 ->
  SstReader_open (sst_image gs bloom) = Ok (image_reader gs bloom).
Proof.
  intros Hgs Hm Hk Hu Hg. unfold SstReader_open.
  assert (read_exact (sst_image gs bloom) 0 4 = Ok SST_MAGIC) as ->.
  { unfold read_exact, sst_image, sst_header. rewrite <- !app_assoc. by read_goal. }
  cbn [obind]. rewrite bool_decide_false by (intros H'; by apply H').
  assert (read_exact (sst_image gs bloom) 4 2 = Ok (le_bytes 2 SST_VERSION_V3)) as ->.
  { unfold read_exact, sst_image, sst_header. rewrite <- !app_assoc. by read_goal. }
  cbn [obind]. change (le_val (le_bytes 2 SST_VERSION_V3)) with 3.
  cbn [Z.eqb negb andb]. change (_ && _ && _) with false. cbn iota.
  rewrite read_footer_image by done. cbn [obind].
  pose proof (len_nonneg (blocks gs)). pose proof (len_nonneg (BloomFilter_encode bloom)).
  pose proof (len_nonneg (concat (map encode_index_entry (index_of HEADER_LEN gs)))).
  assert (len (sst_image gs bloom) = HEADER_LEN + len (blocks gs) + len (BloomFilter_encode bloom) +
    len (concat (map encode_index_entry (index_of HEADER_LEN gs))) + FOOTER_LEN) as Hl.
  { unfold sst_image. rewrite !len_app, len_sst_header, len_write_footer. lia. }
  assert (HEADER_LEN = 16) as Hh by done. assert (FOOTER_LEN = 32) as Hfl by done.
  unfold read_index, read_bloom, checked_sub. cbn [index_offset index_count bloom_offset].
  assert (read_index_from (Z.to_nat (len gs)) (sst_image gs bloom)
    (HEADER_LEN + len (blocks gs) + len (BloomFilter_encode bloom)) = Ok (index_of HEADER_LEN gs)) as ->.
  { unfold sst_image. rewrite (app_assoc sst_header), (app_assoc (sst_header ++ _)).
    unfold len at 1. rewrite Nat2Z.id, <- (length_index_of HEADER_LEN gs).
    apply read_index_here; [rewrite !len_app, len_sst_header; lia|].
    apply index_of_fits; [done|lia..]. }
  cbn [obind]. rewrite (proj2 (Z.ltb_ge _ _)) by lia. cbn [obind].
  assert (read_exact (sst_image gs bloom) (HEADER_LEN + len (blocks gs))
    (HEADER_LEN + len (blocks gs) + len (BloomFilter_encode bloom) - (HEADER_LEN + len (blocks gs)))
    = Ok (BloomFilter_encode bloom)) as ->.
  { unfold read_exact, sst_image. rewrite (app_assoc sst_header).
    rewrite slice_app3; [done|rewrite len_app, len_sst_header; done|lia]. }
  cbn [obind]. rewrite bloom_decode_encode by done. done.
Qed.

Lemma read_block_image gs1 g gs2 bloom :
  len (records g) < 2 ^ 32 -> len (sst_image (gs1 ++ g :: gs2) bloom) < 2 ^ 64 ->
  read_block crc32c (image_reader (gs1 ++ g :: gs2) bloom) (HEADER_LEN + len (blocks gs1)) =
  Ok (records g).
Proof.
  intros Hg Hu. unfold read_block, image_reader. cbn [sr_data sr_checksum_blocks].
  unfold sst_image in *. rewrite blocks_app in *.
  replace (blocks (g :: gs2)) with (encode_block crc32c (records g) ++ blocks gs2) in * by done.
  rewrite !len_app, len_sst_header, len_encode_block in Hu.
  pose proof (len_nonneg (blocks gs2)). pose proof (len_nonneg (BloomFilter_encode bloom)).
  pose proof (len_nonneg (concat (map encode_index_entry (index_of HEADER_LEN (gs1 ++ g :: gs2))))).
  rewrite len_write_footer in Hu. unfold FOOTER_LEN in Hu.
  rewrite <- !app_assoc, (app_assoc sst_header).
  apply decode_block_here; [rewrite len_app, len_sst_header; done|done|].
  unfold umax. lia.
Qed.

(** ** The block search *)

Definition key_at (index : list IndexEntry) (key : bytes) (i : nat) : bool :=
  match index !! i with Some e => bytes_leb (first_key e) key | None => false end.

Lemma find_block_loop_spec fuel index lo hi key :
  (forall i j, (i <= j)%nat -> key_at index key j = true -> key_at index key i = true) ->
  (hi - lo <= fuel)%nat -> (lo <= hi <= length index)%nat ->
  (forall i, (i < lo)%nat -> key_at index key i = true) ->
  (forall i, (hi <= i)%nat -> key_at index key i = false) ->
  exists n, find_block_loop fuel index lo hi key = n /\ (lo <= n <= hi)%nat /\
    (forall i, (i < n)%nat -> key_at index key i = true) /\
    (forall i, (n <= i)%nat -> key_at index key i = false).
Proof.
  intros Hmono. revert lo hi. induction fuel as [|fuel IH]; intros lo hi Hf Hb Hlo Hhi.
  { exists lo. split; [done|]. split; [lia|]. split; [done|]. intros i Hi. apply Hhi. lia. }
  cbn [find_block_loop]. destruct (lo <? hi)%nat eqn:E; bool_to_prop.
  2:{ exists lo. split; [done|]. split; [lia|]. split; [done|]. intros i Hi. apply Hhi. lia. }
  pose proof (Nat.div_lt (hi - lo) 2 ltac:(lia) ltac:(lia)).
  set (mid := (lo + (hi - lo) / 2)%nat) in *.
  destruct (index !! mid) as [e|] eqn:Em; [|apply lookup_ge_None in Em; lia].
  assert (key_at index key mid = bytes_leb (first_key e) key) as Hk by (unfold key_at; by rewrite Em).
  destruct (bytes_leb _ _) eqn:El.
  - destruct (IH (mid + 1)%nat hi) as (n & Hn & ? & ? & ?); [lia|lia| |done|].
    { intros i Hi. apply (Hmono i mid); [lia|done]. }
    exists n. split; [done|]. split; [lia|done].
  - destruct (IH lo mid) as (n & Hn & ? & ? & ?); [lia|lia|done| |].
    { intros i Hi. destruct (key_at index key i) eqn:Ei; [|done].
      assert (key_at index key mid = true) by (by apply (Hmono mid i)). congruence. }
    exists n. split; [done|]. split; [lia|done].
Qed.

(** Groups of ascending entries: keys before, in and after a group. *)
Lemma groups_before gs1 g gs2 e1 e2 :
  StronglySorted entry_lt (concat (gs1 ++ g :: gs2)) ->
  e1 ∈ concat gs1 -> e2 ∈ g ++ concat gs2 -> bytes_lt e1.1 e2.1.
Proof.
  rewrite concat_app. cbn [concat]. intros Hs H1 H2.
  exact (StronglySorted_app_1_elem_of _ _ _ _ _ Hs H1 H2).
Qed.

Lemma group_key_in g : g <> [] -> exists e, e ∈ g /\ e.1 = group_key g.
Proof. destruct g as [|e g]; [done|]. intros _. exists e. split; [left|done]. Qed.

Lemma group_key_least gs1 g gs2 e :
  StronglySorted entry_lt (concat (gs1 ++ g :: gs2)) -> g <> [] ->
  e ∈ g ++ concat gs2 -> bytes_le (group_key g) e.1.
Proof.
  rewrite concat_app. cbn [concat]. intros Hs Hg He. destruct g as [|e0 g]; [done|].
  apply StronglySorted_app_1_r in Hs. cbn [app] in Hs, He. inversion Hs as [|? ? _ Hall]; subst.
  cbn [group_key]. apply elem_of_cons in He as [->|He]; [apply bytes_leb_refl|].
  rewrite Forall_forall in Hall. apply bytes_lt_le. exact (Hall _ He).
Qed.

Lemma key_at_index off gs key i :
  key_at (index_of off gs) key i =
  match gs !! i with Some g => bytes_leb (group_key g) key | None => false end.
Proof.
  revert off i. induction gs as [|g gs IH]; intros off [|i]; [done..|]. apply IH.
Qed.

Lemma key_at_mono gs off key i j :
  Forall group_ok gs -> StronglySorted entry_lt (concat gs) -> (i <= j)%nat ->
  key_at (index_of off gs) key j = true -> key_at (index_of off gs) key i = true.
Proof.
  intros Hgs Hs Hij. rewrite !key_at_index. destruct (gs !! j) as [gj|] eqn:Ej; [|done]. intros Hj.
  destruct (decide (i = j)) as [->|Hne]; [by rewrite Ej|].
  destruct (lookup_lt_is_Some_2 gs i) as [gi Ei]; [apply lookup_lt_Some in Ej; lia|]. rewrite Ei.
  pose proof (proj1 (Forall_lookup _ _) Hgs _ _ Ei) as (Hni & _).
  pose proof (proj1 (Forall_lookup _ _) Hgs _ _ Ej) as (Hnj & _).
  apply list_elem_of_split_length in Ej as (gs1 & gs2 & -> & ->).
  destruct (group_key_in gi Hni) as (ei & Hei & <-). destruct (group_key_in gj Hnj) as (ej & Hej & Hk).
  apply bytes_lt_le. apply (bytes_lt_le_trans _ (group_key gj)); [|done]. rewrite <- Hk.
  apply (groups_before gs1 gj gs2); [done| |apply elem_of_app; auto].
  apply list_elem_of_In, in_concat. exists gi. split; apply list_elem_of_In; [|done].
  rewrite lookup_app_l in Ei by lia. by eapply list_elem_of_lookup_2.
Qed.

(** The block that a search finds is the only one that can hold the key. *)
Lemma find_block_image gs bloom key :
  Forall group_ok gs -> StronglySorted entry_lt (concat gs) ->
  match find_block (image_reader gs bloom) key with
  | None => forall e, e ∈ concat gs -> bytes_lt key e.1
  | Some i => exists gs1 g gs2, gs = gs1 ++ g :: gs2 /\ i = length gs1 /\
      (forall e, e ∈ concat gs1 -> bytes_lt e.1 key) /\ (forall e, e ∈ concat gs2 -> bytes_lt key e.1)
  end.
Proof.
  intros Hgs Hs. unfold find_block, image_reader. cbn [sr_index].
  destruct (index_of HEADER_LEN gs) as [|ie index] eqn:Ei.
  { destruct gs; [|done]. by intros e ?%elem_of_nil. }
  rewrite <- Ei. rewrite !length_index_of.
  destruct (find_block_loop_spec (length gs) (index_of HEADER_LEN gs) 0 (length gs) key)
    as (n & -> & Hn & Hlt & Hge);
    [by intros; eapply key_at_mono|lia|rewrite length_index_of; lia|lia| |].
  { intros i Hi. rewrite key_at_index. by rewrite (proj2 (lookup_ge_None gs i)). }
  assert (forall gs1 gs2, gs = gs1 ++ gs2 -> length gs1 = n ->
            forall e, e ∈ concat gs2 -> bytes_lt key e.1) as Hafter.
  { intros gs1 [|g gs2] -> Hl e He; [by apply elem_of_nil in He|].
    specialize (Hge (length gs1) ltac:(lia)). rewrite key_at_index, list_lookup_middle in Hge by done.
    assert (bytes_lt key (group_key g)) as Hkg by (by rewrite bytes_ltb_leb, Hge).
    eapply bytes_lt_le_trans; [exact Hkg|]. apply (group_key_least gs1 g gs2); [done| |done].
    apply Forall_app in Hgs as [_ Hgs]. inversion Hgs as [|? ? (Hne & _)]; done. }
  destruct (n =? 0)%nat eqn:E0; bool_to_prop; subst; [by apply (Hafter [] gs)|].
  destruct (lookup_lt_is_Some_2 gs (n - 1)) as [g Eg]; [lia|].
  specialize (Hlt (n - 1)%nat ltac:(lia)). rewrite key_at_index, Eg in Hlt.
  pose proof (proj1 (Forall_lookup _ _) Hgs _ _ Eg) as (Hne & _).
  apply list_elem_of_split_length in Eg as (gs1 & gs2 & -> & Hl).
  exists gs1, g, gs2. split; [done|]. split; [done|]. split.
  - intros e He. destruct (group_key_in g Hne) as (e0 & He0 & Hk0).
    eapply bytes_lt_le_trans; [|exact Hlt]. rewrite <- Hk0.
    apply (groups_before gs1 g gs2); [done..|]. apply elem_of_app; auto.
  - apply (Hafter (gs1 ++ [g]) gs2); [by rewrite <- app_assoc|rewrite length_app; simpl; lia].
Qed.

Lemma get_image gs bloom key :
  Forall group_ok gs -> StronglySorted entry_lt (concat gs) -> bloom_for bloom (concat gs).*1 ->
  len (sst_image gs bloom) < 2 ^ 64 ->
  exists o, SstReader_get crc32c (image_reader gs bloom) key = Ok o /\
    forall v, o = Some v <-> (key, v) ∈ concat gs.
Proof.
  intros Hgs Hs Hbl Hu. unfold SstReader_get. cbn [image_reader sr_bloom].
  destruct (may_contain_iff (E:=StorageError) bloom key (proj1 Hbl)) as (b & -> & Hb). cbn [obind].
  destruct b; cbn [negb].
  2:{ exists None. split; [done|]. intros v. split; [done|]. intros Hin. exfalso.
      assert (false = true); [|done]. apply Hb. apply Hbl.
      apply list_elem_of_fmap. by exists (key, v). }
  pose proof (find_block_image gs bloom key Hgs Hs) as Hf.
  destruct (find_block _ _) as [i|].
  - destruct Hf as (gs1 & g & gs2 & -> & -> & Hbefore & Hafter).
    unfold image_reader at 1. cbn [sr_index]. rewrite index_of_lookup. cbn [ie_offset].
    assert (group_ok g) as (Hne & Hfit & Hl).
    { apply Forall_app in Hgs as [_ Hgs]. by inversion Hgs. }
    rewrite read_block_image by done. cbn [obind]. rewrite scan_block_records by done.
    eexists. split; [done|]. intros v. rewrite concat_app in Hs |- *. cbn [concat] in Hs |- *.
    split; [intros Ha%assoc_in; rewrite !elem_of_app; auto|].
    rewrite !elem_of_app. intros [Hin|[Hin|Hin]].
    + exfalso. specialize (Hbefore _ Hin). simpl in Hbefore. by rewrite bytes_ltb_irrefl in Hbefore.
    + apply in_assoc; [|done]. by eapply StronglySorted_app_1_l, StronglySorted_app_1_r.
    + exfalso. specialize (Hafter _ Hin). simpl in Hafter. by rewrite bytes_ltb_irrefl in Hafter.
  - exists None. split; [done|]. intros v. split; [done|]. intros Hin. specialize (Hf _ Hin).
    simpl in Hf. by rewrite bytes_ltb_irrefl in Hf.
Qed.

(** ** The iterators *)

Lemma drain_S {S A} (next : S -> round S A) fuel s :
  drain next (Datatypes.S fuel) s =
  match next s with
  | Stop => []
  | Again s' => drain next fuel s'
  | Yield item s' => item :: drain next fuel s'
  end.
Proof. done. Qed.

Lemma image_load_next gs1 g gs2 bloom block off :
  Forall group_ok (gs1 ++ g :: gs2) -> len (sst_image (gs1 ++ g :: gs2) bloom) < 2 ^ 64 ->
  SstIter_load_block crc32c (image_reader (gs1 ++ g :: gs2) bloom) (mkSstIter (length gs1) block off) =
  Ok (mkSstIter (length gs1) (records g) 0).
Proof.
  intros Hgs Hu. unfold SstIter_load_block. cbn [image_reader sr_index it_block_idx].
  rewrite index_of_lookup. cbn [ie_offset]. rewrite read_block_image; [done| |done].
  apply Forall_app in Hgs as [_ Hgs]. inversion Hgs as [|? ? (_ & _ & Hl)]; done.
Qed.

(** Rounds that a scan takes from the middle of a block on. *)
Definition rounds_left (post : list (bytes * bytes)) gs : nat :=
  (length post + length (concat gs) + length gs + 2)%nat.

Lemma off_past (p : bytes) : (len p + 6 >? len p) = true.
Proof. rewrite Z.gtb_ltb. apply Z.ltb_lt. lia. Qed.

Lemma off_inside (p : bytes) e g : (len p + 6 >? len (p ++ records (e :: g))) = false.
Proof.
  rewrite Z.gtb_ltb, records_cons. apply Z.ltb_ge.
  pose proof (len_nonneg e.1). pose proof (len_nonneg e.2). pose proof (len_nonneg (records g)). len_lia.
Qed.

Lemma scan_from fuel gs1 g gs2 pre post bloom :
  Forall group_ok (gs1 ++ g :: gs2) -> len (sst_image (gs1 ++ g :: gs2) bloom) < 2 ^ 64 ->
  g = pre ++ post -> (rounds_left post gs2 <= fuel)%nat ->
  drain (SstIter_round crc32c (image_reader (gs1 ++ g :: gs2) bloom)) fuel
        (mkSstIter (length gs1) (records g) (len (records pre))) =
  map Ok (post ++ concat gs2).
Proof.
  revert gs1 g gs2 pre post.
  induction fuel as [|fuel IH]; intros gs1 g gs2 pre post Hgs Hu Hg Hf; [unfold rounds_left in Hf; lia|].
  rewrite drain_S. unfold SstIter_round at 1. cbn [image_reader sr_index it_block_idx it_block it_off].
  rewrite length_index_of, (proj2 (Nat.leb_gt _ _)) by (rewrite length_app; simpl; lia).
  destruct post as [|e post].
  - rewrite app_nil_r in Hg. subst pre. rewrite off_past. cbn [app].
    destruct gs2 as [|g2 gs2].
    + unfold SstIter_load_block. cbn [image_reader sr_index it_block_idx].
      rewrite (proj2 (lookup_ge_None _ _)) by (rewrite length_index_of, length_app; simpl; lia).
      destruct fuel as [|fuel]; [done|]. rewrite drain_S. unfold SstIter_round. cbn [image_reader sr_index it_block_idx].
      rewrite length_index_of, (proj2 (Nat.leb_le _ _)) by (rewrite length_app; simpl; lia). done.
    + assert (S (length gs1) = length (gs1 ++ [g])) as El by (rewrite length_app; simpl; lia).
      replace (gs1 ++ g :: g2 :: gs2) with ((gs1 ++ [g]) ++ g2 :: gs2) in * by (by rewrite <- app_assoc).
      rewrite El, image_load_next by done.
      apply (IH (gs1 ++ [g]) g2 gs2 [] g2); [done..|].
      unfold rounds_left in *. cbn [concat length] in Hf |- *. rewrite length_app in Hf. lia.
  - subst g. rewrite records_app, off_inside, records_cons.
    assert (entry_fits e) as He.
    { apply Forall_app in Hgs as [_ Hgs]. inversion Hgs as [|? ? (_ & Hfit & _)]; subst.
      apply Forall_app in Hfit as [_ Hfit]. by inversion Hfit. }
    destruct e as [k v]. rewrite read_entry_here by done. cbn [map app fst snd]. f_equal.
    change (encode_record k v ++ records post) with (records ((k, v) :: post)).
    rewrite <- records_app.
    replace (len (records pre) + 6 + len k + len v) with (len (records (pre ++ [(k, v)])))
      by (rewrite records_app, records_single; cbn [fst snd]; len_lia).
    apply (IH gs1 (pre ++ (k, v) :: post) gs2 (pre ++ [(k, v)]) post); [done|done|by rewrite <- app_assoc|].
    unfold rounds_left in *. cbn [length] in Hf. lia.
Qed.

Definition in_range (start end_ : bytes) (e : bytes * bytes) : Prop :=
  bytes_ltb e.1 start = false /\ bytes_lt e.1 end_.

#[export] Instance in_range_dec start end_ e : Decision (in_range start end_ e).
Proof. unfold in_range. apply _. Defined.

Lemma filter_past start end_ l :
  (forall e, e ∈ l -> bytes_le end_ e.1) -> filter (in_range start end_) l = [].
Proof.
  induction l as [|e l IH]; intros Hl; [done|]. rewrite filter_cons_False, IH; [done| |].
  - intros e' He'. apply Hl. by right.
  - intros [_ Hlt]. apply bytes_lt_not_le in Hlt. apply Hlt, Hl. left.
Qed.

Lemma filter_before start end_ l :
  (forall e, e ∈ l -> bytes_lt e.1 start) -> filter (in_range start end_) l = [].
Proof.
  induction l as [|e l IH]; intros Hl; [done|]. rewrite filter_cons_False, IH; [done| |].
  - intros e' He'. apply Hl. by right.
  - intros [Hge _]. rewrite (Hl e) in Hge; [done|left].
Qed.

Lemma range_load_next gs1 g gs2 bloom end_ block off :
  Forall group_ok (gs1 ++ g :: gs2) -> len (sst_image (gs1 ++ g :: gs2) bloom) < 2 ^ 64 ->
  SstRangeIter_load_block crc32c (image_reader (gs1 ++ g :: gs2) bloom) end_
    (mkSstRangeIter (length gs1) block off false) =
  Ok (if bytes_leb end_ (group_key g) then mkSstRangeIter (length gs1) [] 0 true
      else mkSstRangeIter (length gs1) (records g) 0 false).
Proof.
  intros Hgs Hu. unfold SstRangeIter_load_block. cbn [image_reader sr_index ri_block_idx ri_done].
  rewrite index_of_lookup. cbn [ie_offset first_key]. destruct (bytes_leb _ _); [done|].
  rewrite read_block_image; [done| |done].
  apply Forall_app in Hgs as [_ Hgs]. inversion Hgs as [|? ? (_ & _ & Hl)]; done.
Qed.

Lemma drain_done r start end_ fuel i block off :
  drain (SstRangeIter_round crc32c r start end_) fuel (mkSstRangeIter i block off true) = [].
Proof. by destruct fuel. Qed.

Lemma range_from fuel gs1 g gs2 pre post bloom start end_ :
  Forall group_ok (gs1 ++ g :: gs2) -> len (sst_image (gs1 ++ g :: gs2) bloom) < 2 ^ 64 ->
  StronglySorted entry_lt (post ++ concat gs2) ->
  g = pre ++ post -> (rounds_left post gs2 <= fuel)%nat ->
  drain (SstRangeIter_round crc32c (image_reader (gs1 ++ g :: gs2) bloom) start end_) fuel
        (mkSstRangeIter (length gs1) (records g) (len (records pre)) false) =
  map Ok (filter (in_range start end_) (post ++ concat gs2)).
Proof.
  revert gs1 g gs2 pre post.
  induction fuel as [|fuel IH]; intros gs1 g gs2 pre post Hgs Hu Hs Hg Hf; [unfold rounds_left in Hf; lia|].
  rewrite drain_S. unfold SstRangeIter_round at 1. cbn [ri_done ri_block_idx ri_block ri_off].
  destruct post as [|e post].
  - rewrite app_nil_r in Hg. subst pre. rewrite off_past. cbn [app] in Hs |- *.
    destruct gs2 as [|g2 gs2].
    + unfold SstRangeIter_load_block. cbn [image_reader sr_index ri_block_idx].
      rewrite (proj2 (lookup_ge_None _ _)) by (rewrite length_index_of, length_app; simpl; lia).
      by rewrite drain_done.
    + assert (S (length gs1) = length (gs1 ++ [g])) as El by (rewrite length_app; simpl; lia).
      replace (gs1 ++ g :: g2 :: gs2) with ((gs1 ++ [g]) ++ g2 :: gs2) in * by (by rewrite <- app_assoc).
      rewrite El, range_load_next by done.
      assert (g2 <> []) as Hne.
      { apply Forall_app in Hgs as [_ Hgs]. inversion Hgs as [|? ? (H2 & _)]; done. }
      destruct (bytes_leb end_ (group_key g2)) eqn:Eend.
      * rewrite drain_done, filter_past; [done|]. intros e He.
        apply (bytes_le_trans _ (group_key g2)); [done|].
        by apply (group_key_least [] g2 gs2).
      * apply (IH (gs1 ++ [g]) g2 gs2 [] g2); [done..|].
        unfold rounds_left in *. cbn [concat length] in Hf |- *. rewrite length_app in Hf. lia.
  - subst g. rewrite records_app, off_inside, records_cons.
    assert (entry_fits e) as He.
    { apply Forall_app in Hgs as [_ Hgs]. inversion Hgs as [|? ? (_ & Hfit & _)]; subst.
      apply Forall_app in Hfit as [_ Hfit]. by inversion Hfit. }
    destruct e as [k v]. rewrite read_entry_here by done.
    cbn [app fst snd ri_block_idx ri_block ri_done] in Hs |- *.
    change (encode_record k v ++ records post) with (records ((k, v) :: post)).
    rewrite <- records_app.
    replace (len (records pre) + 6 + len k + len v) with (len (records (pre ++ [(k, v)])))
      by (rewrite records_app, records_single; cbn [fst snd]; len_lia).
    inversion Hs as [|? ? Hs' Hall]; subst.
    assert (drain (SstRangeIter_round crc32c
              (image_reader (gs1 ++ (pre ++ (k, v) :: post) :: gs2) bloom) start end_) fuel
              (mkSstRangeIter (length gs1) (records (pre ++ (k, v) :: post))
                 (len (records (pre ++ [(k, v)]))) false) =
            map Ok (filter (in_range start end_) (post ++ concat gs2))) as Hrest.
    { apply (IH gs1 (pre ++ (k, v) :: post) gs2 (pre ++ [(k, v)]) post);
        [done|done|done|by rewrite <- app_assoc|].
      unfold rounds_left in *. cbn [length] in Hf. lia. }
    destruct (bytes_ltb k start) eqn:Es.
    + rewrite filter_cons_False; [done|]. intros [H1 _]. simpl in H1. congruence.
    + destruct (bytes_leb end_ k) eqn:Ee.
      * rewrite filter_past; [done|]. intros e [->|Hin]%elem_of_cons; [done|].
        rewrite Forall_forall in Hall. apply (bytes_le_trans _ k); [done|].
        apply bytes_lt_le. exact (Hall _ Hin).
      * rewrite filter_cons_True; [by cbn [map]; rewrite Hrest|].
        split; [done|]. simpl. by rewrite bytes_ltb_leb, Ee.
Qed.

Lemma entries_le_data gs bloom : len (concat gs) + len gs <= len (sst_image gs bloom).
Proof.
  assert (len (concat gs) + len gs <= len (blocks gs)) as Hb.
  { induction gs as [|g gs IH]; [done|]. cbn [concat]. rewrite len_blocks_cons, len_app, len_cons.
    pose proof (len_records g). pose proof (len_nonneg g). lia. }
  unfold sst_image. rewrite !len_app, len_sst_header, len_write_footer.
  pose proof (len_nonneg (BloomFilter_encode bloom)).
  pose proof (len_nonneg (concat (map encode_index_entry (index_of HEADER_LEN gs)))).
  unfold HEADER_LEN, FOOTER_LEN in *. lia.
Qed.

Lemma scan_fuel_enough gs1 g gs2 bloom :
  (rounds_left g gs2 <= scan_fuel (image_reader (gs1 ++ g :: gs2) bloom))%nat.
Proof.
  pose proof (entries_le_data (gs1 ++ g :: gs2) bloom) as Hd. unfold rounds_left, scan_fuel.
  cbn [image_reader sr_index sr_data]. rewrite length_index_of. rewrite concat_app in Hd.
  cbn [concat] in Hd. unfold len in Hd. rewrite !length_app in Hd. cbn [length] in Hd.
  set (n := (_ * _)%nat). lia.
Qed.

Lemma scan_image gs bloom :
  Forall group_ok gs -> len (sst_image gs bloom) < 2 ^ 64 ->
  SstReader_scan crc32c (image_reader gs bloom) = Ok (map Ok (concat gs)).
Proof.
  intros Hgs Hu. unfold SstReader_scan, SstIter_new. destruct gs as [|g gs2].
  - unfold SstIter_load_block. cbn [image_reader sr_index it_block_idx index_of lookup]. cbn [obind].
    done.
  - rewrite (image_load_next [] g gs2) by done. cbn [obind]. f_equal.
    apply (scan_from _ [] g gs2 [] g); [done..|]. apply (scan_fuel_enough [] g gs2).
Qed.

Lemma scan_range_image gs bloom start end_ :
  Forall group_ok gs -> StronglySorted entry_lt (concat gs) -> len (sst_image gs bloom) < 2 ^ 64 ->
  SstReader_scan_range crc32c (image_reader gs bloom) start end_ =
  Ok (map Ok (filter (in_range start end_) (concat gs))).
Proof.
  intros Hgs Hs Hu. unfold SstReader_scan_range, SstRangeIter_new.
  pose proof (find_block_image gs bloom start Hgs Hs) as Hf.
  assert (gs = [] \/ exists gs1 g gs2, gs = gs1 ++ g :: gs2 /\
            default 0%nat (find_block (image_reader gs bloom) start) = length gs1 /\
            (forall e, e ∈ concat gs1 -> bytes_lt e.1 start)) as [->|(gs1 & g & gs2 & -> & -> & Hb)].
  { destruct (find_block _ _) as [i|].
    - right. destruct Hf as (gs1 & g & gs2 & -> & -> & Hb & _). by exists gs1, g, gs2.
    - destruct gs as [|g gs2]; [by left|right]. exists [], g, gs2. split; [done|]. split; [done|].
      by intros e ?%elem_of_nil. }
  - done.
  - rewrite range_load_next by done. cbn [obind]. f_equal.
    rewrite concat_app in Hs |- *. cbn [concat] in Hs |- *. apply StronglySorted_app in Hs as (_ & _ & Hs).
    rewrite filter_app, (filter_before _ _ (concat gs1)) by done. cbn [app].
    destruct (bytes_leb end_ (group_key g)) eqn:Ee.
    + rewrite drain_done, filter_past; [done|]. intros e He.
      apply (bytes_le_trans _ (group_key g)); [done|].
      apply (group_key_least [] g gs2); [done| |done].
      apply Forall_app in Hgs as [_ Hgs]. inversion Hgs as [|? ? (H2 & _)]; done.
    + apply (range_from _ gs1 g gs2 [] g); [done..|]. apply scan_fuel_enough.
Qed.

Lemma verify_image gs1 gs2 bloom n :
  Forall group_ok (gs1 ++ gs2) -> len (sst_image (gs1 ++ gs2) bloom) < 2 ^ 64 ->
  verify_blocks crc32c (image_reader (gs1 ++ gs2) bloom)
    (index_of (HEADER_LEN + len (blocks gs1)) gs2) n = Ok (n + len gs2).
Proof.
  revert gs1 n. induction gs2 as [|g gs2 IH]; intros gs1 n Hgs Hu.
  { simpl. f_equal. len_lia. }
  cbn [index_of verify_blocks ie_offset].
  rewrite read_block_image; [|by apply Forall_app in Hgs as [_ Hgs];
    inversion Hgs as [|? ? (_ & _ & Hl)]|done].
  cbn [obind].
  specialize (IH (gs1 ++ [g]) (n + 1)). rewrite <- app_assoc in IH. cbn [app] in IH.
  replace (HEADER_LEN + len (blocks gs1) + 8 + len (records g))
    with (HEADER_LEN + len (blocks (gs1 ++ [g]))).
  2:{ rewrite blocks_app, len_app, len_blocks_cons. change (len (blocks [])) with 0. lia. }
  rewrite IH by done. f_equal. rewrite len_cons. lia.
Qed.

(** A bound on the size of a file. *)
Definition entries_bytes (l : list (bytes * bytes)) : Z :=
  foldr (fun e acc => entry_bytes e.1 e.2 + acc) 0 l.

Lemma len_records_bytes g : len (records g) = 6 * len g + entries_bytes g.
Proof.
  induction g as [|e g IH]; [done|]. rewrite records_cons. cbn [entries_bytes foldr].
  change (foldr _ 0 g) with (entries_bytes g). unfold entry_bytes. len_lia.
Qed.

Lemma entries_bytes_app l1 l2 : entries_bytes (l1 ++ l2) = entries_bytes l1 + entries_bytes l2.
Proof.
  unfold entries_bytes. induction l1 as [|e l1 IH]; [done|]. cbn [app foldr]. rewrite IH. lia.
Qed.

Lemma entries_bytes_nonneg l : 0 <= entries_bytes l.
Proof.
  unfold entries_bytes. induction l as [|e l IH]; [done|]. cbn [foldr].
  pose proof (entry_bytes_nonneg e.1 e.2). lia.
Qed.

Lemma image_bound gs bloom :
  Forall group_ok gs ->
  len (sst_image gs bloom) <= 56 + len (bf_bits bloom) + 24 * len (concat gs) + 2 * entries_bytes (concat gs).
Proof.
  intros Hgs. unfold sst_image. rewrite !len_app, len_sst_header, len_write_footer, len_encode_bloom.
  unfold HEADER_LEN at 1, FOOTER_LEN. generalize HEADER_LEN as off.
  assert (forall off, len (blocks gs) + len (concat (map encode_index_entry (index_of off gs))) <=
                      24 * len (concat gs) + 2 * entries_bytes (concat gs)) as Hb;
    [|intros off; specialize (Hb off); lia].
  induction Hgs as [|g gs (Hne & _) Hgs IH]; intros off; [done|]. cbn [concat index_of map].
  specialize (IH (off + 8 + len (records g))). revert IH.
  generalize (off + 8 + len (records g)) as off'. intros off' IH.
  rewrite len_blocks_cons, len_records_bytes, entries_bytes_app, !len_app.
  destruct g as [|e g]; [done|]. cbn [group_key entries_bytes foldr].
  change (foldr _ 0 g) with (entries_bytes g).
  unfold encode_index_entry at 1. cbn [first_key]. autorewrite with len. unfold entry_bytes.
  pose proof (entries_bytes_nonneg g). pose proof (len_nonneg e.2). pose proof (len_nonneg e.1).
  pose proof (len_nonneg g). lia.
Qed.

Lemma entries_total (m : gmap bytes bytes) : entries_bytes (btree_iter m) = total_bytes m.
Proof.
  unfold entries_bytes, total_bytes. rewrite map_fold_foldr.
  rewrite (foldr_permutation (=) (fun e acc => entry_bytes e.1 e.2 + acc) 0 (btree_iter m) (map_to_list m)).
  - apply foldr_ext; [|done..]. by intros [k v] ?.
  - intros. lia.
  - apply merge_sort_Permutation.
Qed.

Lemma len_groups gs : Forall group_ok gs -> len gs <= len (concat gs).
Proof.
  induction 1 as [|g gs (Hne & _) Hgs IH]; [done|]. cbn [concat]. rewrite len_cons, len_app.
  destruct g; [done|]. rewrite len_cons. pose proof (len_nonneg g). lia.
Qed.

End file.

(** ** Termination of the iterators *)

(** The iterator stops within [fuel] rounds. *)
Fixpoint drains {S A} (next : S -> round S A) (fuel : nat) (s : S) : bool :=
  match fuel with
  | O => false
  | S fuel' =>
      match next s with
      | Stop => true
      | Again s' | Yield _ s' => drains next fuel' s'
      end
  end.

Lemma drains_measure {S A} (next : S -> round S A) (inv : S -> Prop) (mu : S -> Z) fuel s :
  (forall s, inv s -> 0 <= mu s) ->
  (forall s s', inv s -> next s = Again s' \/ (exists a, next s = Yield a s') -> inv s' /\ mu s' < mu s) ->
  inv s -> mu s < Z.of_nat fuel -> drains next fuel s = true.
Proof.
  intros Hpos Hstep. revert s. induction fuel as [|fuel IH]; intros s Hs Hf;
    [specialize (Hpos s Hs); lia|].
  cbn [drains]. destruct (next s) as [|s'|a s'] eqn:E; [done|..].
  - destruct (Hstep s s') as [Hi Hm]; [done|auto|]. apply IH; [done|lia].
  - destruct (Hstep s s') as [Hi Hm]; [done|eauto|]. apply IH; [done|lia].
Qed.

Lemma read_entry_advances block off k v off' :
  read_entry block off = Some (k, v, off') -> off + 6 <= off' <= len block.
Proof.
  unfold read_entry. destruct (slice block off 2) as [kl|], (slice block (off + 2) 4) as [vl|]; try done.
  destruct (slice block (off + 6) (le_val kl)) as [k'|] eqn:E1; [|done].
  destruct (slice block (off + 6 + le_val kl) (le_val vl)) as [v'|] eqn:E2; [|done]. intros; simplify_eq.
  pose proof (le_val_range kl). pose proof (le_val_range vl). split; [lia|].
  unfold slice in E2. destruct (_ && _) eqn:E; [|done]. bool_to_prop. unfold len. lia.
Qed.

Lemma index_range_le {E} (l : bytes) off n m : index_range (E:=E) l off n = Ok m -> len m <= len l.
Proof.
  unfold index_range. destruct (slice l off n) as [m'|] eqn:Es; intros; simplify_eq.
  pose proof (slice_Some_len _ _ _ _ Es) as Hl. unfold slice in Es. destruct (_ && _) eqn:Eb; [|done].
  bool_to_prop. unfold len in *. lia.
Qed.

Lemma read_block_le crc32c r off b : read_block crc32c r off = Ok b -> len b <= len (sr_data r).
Proof.
  unfold read_block, decode_block_at. case_test; [done|]. intros H. inv_ok.
  destruct (sr_checksum_blocks r); inv_ok; [|by eapply index_range_le].
  destruct (negb _); inv_ok. by eapply index_range_le.
Qed.

Definition iter_measure (r : SstReader) (idx : nat) (off : Z) : Z :=
  (len (sr_index r) + 1 - Z.of_nat idx) * (len (sr_data r) + 2) + len (sr_data r) + 1 - off.

(** Moving on to a later block, or on in the block, decreases the measure. *)
Lemma measure_next_block r idx off off' :
  0 <= off <= len (sr_data r) -> 0 <= off' ->
  iter_measure r (S idx) off' < iter_measure r idx off.
Proof. intros H1 H2. unfold iter_measure. rewrite Nat2Z.inj_succ. nia. Qed.

Lemma measure_nonneg r idx off :
  (idx <= length (sr_index r))%nat -> off <= len (sr_data r) -> 0 <= iter_measure r idx off.
Proof. intros H1 H2. unfold iter_measure, len in *. nia. Qed.

Lemma measure_fuel r : iter_measure r 0 0 < Z.of_nat (scan_fuel r).
Proof. unfold iter_measure, scan_fuel, len. nia. Qed.

Lemma load_block_inv crc32c r it it' :
  SstIter_load_block crc32c r it = Ok it' ->
  it_block_idx it' = it_block_idx it /\ it_off it' = 0 /\ len (it_block it') <= len (sr_data r).
Proof.
  unfold SstIter_load_block. destruct (_ !! _); intros H; inv_ok; simpl.
  - split_and!; [done..|]. by eapply read_block_le.
  - split_and!; [done..|]. unfold len. simpl. lia.
Qed.

Lemma range_load_inv crc32c r end_ it it' :
  SstRangeIter_load_block crc32c r end_ it = Ok it' ->
  ri_block_idx it' = ri_block_idx it /\ ri_off it' = 0 /\ len (ri_block it') <= len (sr_data r) /\
  (ri_done it' = false -> (ri_block_idx it < length (sr_index r))%nat).
Proof.
  unfold SstRangeIter_load_block. destruct (sr_index r !! _) as [e|] eqn:El.
  - destruct (bytes_leb _ _); intros H; inv_ok; simpl; (split_and!; [done..| |]);
      try by eapply read_block_le.
    + unfold len. simpl. lia.
    + done.
    + intros _. by eapply lookup_lt_Some.
  - intros H; inv_ok; simpl. split_and!; [done..| |done]. unfold len. simpl. lia.
Qed.

Definition iter_inv (r : SstReader) (it : SstIter) : Prop :=
  (it_block_idx it <= length (sr_index r))%nat /\
  0 <= it_off it <= len (it_block it) /\ len (it_block it) <= len (sr_data r).

Lemma iter_round_decreases crc32c r it it' :
  iter_inv r it ->
  SstIter_round crc32c r it = Again it' \/ (exists a, SstIter_round crc32c r it = Yield a it') ->
  iter_inv r it' /\
  iter_measure r (it_block_idx it') (it_off it') < iter_measure r (it_block_idx it) (it_off it).
Proof.
  intros (Hi & Ho & Hl). unfold SstIter_round, iter_inv.
  destruct (_ <=? _)%nat eqn:Ei; bool_to_prop; [intros [?|[? ?]]; done|].
  destruct (it_off it + 6 >? _) eqn:Eo; bool_to_prop.
  - destruct (SstIter_load_block crc32c r _) as [it2| |] eqn:El; (intros [?|[? ?]]; simplify_eq; simpl).
    + apply load_block_inv in El as (E1 & E2 & E3). rewrite E1, E2. simpl. pose proof (len_nonneg (it_block it')).
      split; [lia|]. apply measure_next_block; lia.
    + split; [lia|]. apply measure_next_block; lia.
    + split; [lia|]. apply measure_next_block; lia.
  - destruct (read_entry _ _) as [[[k v] off]|] eqn:Er.
    + apply read_entry_advances in Er. intros [?|[? ?]]; simplify_eq; simpl. split; [lia|].
      unfold iter_measure. lia.
    + destruct (SstIter_load_block crc32c r _) as [it2| |] eqn:El; (intros [?|[? ?]]; simplify_eq; simpl).
      * apply load_block_inv in El as (E1 & E2 & E3). rewrite E1, E2. simpl. pose proof (len_nonneg (it_block it')).
        split; [lia|]. apply measure_next_block; lia.
      * split; [lia|]. apply measure_next_block; lia.
      * split; [lia|]. apply measure_next_block; lia.
Qed.

Definition range_inv (r : SstReader) (it : SstRangeIter) : Prop :=
  (ri_block_idx it <= length (sr_index r))%nat /\
  (ri_done it = false -> (ri_block_idx it < length (sr_index r))%nat) /\
  0 <= ri_off it <= len (ri_block it) /\ len (ri_block it) <= len (sr_data r).

(** Loading fails only for a block of the index. *)
Lemma range_load_fails crc32c r end_ it :
  is_ok (SstRangeIter_load_block crc32c r end_ it) = false ->
  (ri_block_idx it < length (sr_index r))%nat.
Proof.
  unfold SstRangeIter_load_block. destruct (sr_index r !! _) eqn:El; [|done]. intros _.
  by eapply lookup_lt_Some.
Qed.

(** The state after the iterator moves to the next block, whether or not it
    can be loaded. *)
Lemma range_next_block crc32c r end_ it off it' :
  range_inv r it -> ri_done it = false -> 0 <= off <= len (ri_block it) ->
  (SstRangeIter_load_block crc32c r end_
     (mkSstRangeIter (S (ri_block_idx it)) (ri_block it) off false) = Ok it' \/
   is_ok (SstRangeIter_load_block crc32c r end_
     (mkSstRangeIter (S (ri_block_idx it)) (ri_block it) off false)) = false /\
   it' = mkSstRangeIter (S (ri_block_idx it)) (ri_block it) off false) ->
  range_inv r it' /\
  iter_measure r (ri_block_idx it') (ri_off it') < iter_measure r (ri_block_idx it) (ri_off it).
Proof.
  intros (Hi & Hd & Ho & Hl) Ed Hoff. specialize (Hd Ed). unfold range_inv. intros [H|[H ->]].
  - apply range_load_inv in H as (E1 & E2 & E3 & E4). rewrite E1, E2. simpl in *.
    pose proof (len_nonneg (ri_block it')). split; [|apply measure_next_block; lia].
    split_and!; [lia|done|lia|lia|done].
  - apply range_load_fails in H. simpl in *.
    split; [|apply measure_next_block; lia]. split_and!; [lia|done|lia|lia|done].
Qed.

Lemma range_round_decreases crc32c r start end_ it it' :
  range_inv r it ->
  SstRangeIter_round crc32c r start end_ it = Again it' \/
  (exists a, SstRangeIter_round crc32c r start end_ it = Yield a it') ->
  range_inv r it' /\
  iter_measure r (ri_block_idx it') (ri_off it') < iter_measure r (ri_block_idx it) (ri_off it).
Proof.
  intros Hinv. unfold SstRangeIter_round. destruct (ri_done it) eqn:Ed; [intros [?|[? ?]]; done|].
  pose proof Hinv as (Hi & Hd & Ho & Hl). specialize (Hd Ed).
  destruct (ri_off it + 6 >? _) eqn:Eo; bool_to_prop.
  - pose proof (range_next_block crc32c r end_ it (ri_off it) it' Hinv Ed Ho) as Hn.
    destruct (SstRangeIter_load_block crc32c r end_ _); (intros [?|[? ?]]; simplify_eq; apply Hn; auto).
  - destruct (read_entry _ _) as [[[k v] off]|] eqn:Er.
    + apply read_entry_advances in Er.
      destruct (bytes_ltb _ _); [|destruct (bytes_leb _ _)]; (intros [?|[? ?]]; simplify_eq; simpl);
        (split; [split_and!; simpl; [lia|done|lia|lia|done]|unfold iter_measure; lia]).
    + pose proof (range_next_block crc32c r end_ it (ri_off it + 6) it' Hinv Ed ltac:(lia)) as Hn.
      destruct (SstRangeIter_load_block crc32c r end_ _); (intros [?|[? ?]]; simplify_eq; apply Hn; auto).
Qed.

Lemma find_block_loop_le fuel index lo hi key :
  (lo <= hi)%nat -> (find_block_loop fuel index lo hi key <= hi)%nat.
Proof.
  revert lo hi. induction fuel as [|fuel IH]; intros lo hi Hle; [done|]. cbn [find_block_loop].
  destruct (lo <? hi)%nat eqn:E; [|done]. bool_to_prop.
  pose proof (Nat.div_lt (hi - lo) 2 ltac:(lia) ltac:(lia)).
  destruct (_ !! _); [|done]. destruct (bytes_leb _ _); [apply IH; lia|].
  etrans; [apply IH|]; lia.
Qed.

Lemma find_block_le r key i : find_block r key = Some i -> (i < length (sr_index r))%nat.
Proof.
  unfold find_block. destruct (sr_index r) as [|e l] eqn:Ei; [done|].
  pose proof (find_block_loop_le (length (e :: l)) (e :: l) 0 (length (e :: l)) key ltac:(lia)).
  destruct (_ =? _)%nat eqn:E; [done|]. bool_to_prop. intros; simplify_eq. lia.
Qed.

(** ** Theorems *)

(** What an opened table promises its clients: it reads as the map [m]. *)
Definition reads_as (crc32c : bytes -> Z) (file : bytes) (m : gmap bytes bytes) : Prop :=
  exists r, SstReader_open file = Ok r /\
    (forall key, SstReader_get crc32c r key = Ok (m !! key)) /\
    SstReader_scan crc32c r = Ok (map Ok (btree_iter m)) /\
    (forall start end_, SstReader_scan_range crc32c r start end_ =
       Ok (map Ok (filter (in_range start end_) (btree_iter m)))) /\
    verify_all_blocks crc32c r = Ok (len (sr_index r)).

(** A table that the format can hold. *)
Definition table_fits (t : MemTable) : Prop :=
  Forall entry_fits (MemTable_iter t) /\ MemTable_len t < 2 ^ 32 /\ total_bytes (mem_map t) < 2 ^ 62.

Lemma written_reads_as (crc32c : bytes -> Z) (sizing : Z -> Z * Z) (t : MemTable) :
  (forall l, 0 <= crc32c l < 2 ^ 32) -> sizing_ok sizing -> table_fits t ->
  exists file, write_from_memtable crc32c sizing t = Ok (file, MemTable_len t) /\
    reads_as crc32c file (mem_map t).
Proof.
  intros Hcrc Hsz (Hfit & Hlen & Htot).
  assert (len (MemTable_iter t) = MemTable_len t) as El.
  { unfold len, MemTable_len, MemTable_iter. by rewrite length_btree_iter. }
  destruct (write_image crc32c sizing Hsz t Hfit) as (gs & bloom & Hw & Hgs & Hok & Hbl).
  exists (sst_image crc32c gs bloom). rewrite Hw, El. split; [done|].
  assert (len (sst_image crc32c gs bloom) < 2 ^ 64) as Hu.
  { pose proof (image_bound crc32c gs bloom Hok) as Hb. rewrite Hgs, El in Hb.
    unfold MemTable_iter in Hb. rewrite entries_total in Hb. destruct Hbl as (_ & _ & _ & Hbl). lia. }
  exists (image_reader crc32c gs bloom).
  assert (StronglySorted entry_lt (concat gs)) as Hs by (rewrite Hgs; apply btree_iter_sorted).
  pose proof (len_groups gs Hok) as Hg. rewrite Hgs, El in Hg. unfold MemTable_iter in *.
  split; [|split; [|split; [|split]]].
  - destruct Hbl as ([Hm _] & Hk & _). apply open_image; [done|lia|lia|done|lia].
  - intros key. rewrite <- Hgs in Hbl.
    destruct (get_image crc32c Hcrc gs bloom key Hok Hs Hbl Hu) as (o & -> & Ho). f_equal.
    apply option_eq. intros v. rewrite Ho, Hgs. apply elem_of_btree_iter.
  - by rewrite scan_image, Hgs by done.
  - intros start end_. by rewrite scan_range_image, Hgs by done.
  - unfold verify_all_blocks. cbn [image_reader sr_index].
    pose proof (verify_image crc32c Hcrc [] gs bloom 0 Hok Hu) as Hv.
    change (HEADER_LEN + len (blocks crc32c [])) with HEADER_LEN in Hv.
    rewrite len_index_of. exact Hv.
Qed.

(** C14. An SSTable holds what the MemTable held.  For every table whose keys
    are shorter than 64 KiB and whose records are shorter than 4 GiB (and which
    has less than 2^32 entries and 2^62 bytes) the writer succeeds, and the file
    opens to a reader that answers every point read like the table, hits and
    misses, yields exactly its entries in ascending order from a full scan and
    exactly those of the range from a bounded scan, and finds every block's
    checksum right. *)
Theorem sstable_round_trip (crc32c : bytes -> Z) (sizing : Z -> Z * Z) (t : MemTable) :
  (forall l, 0 <= crc32c l < 2 ^ 32) -> sizing_ok sizing ->
  Forall entry_fits (MemTable_iter t) -> MemTable_len t < 2 ^ 32 -> total_bytes (mem_map t) < 2 ^ 62 ->
  exists file r, write_from_memtable crc32c sizing t = Ok (file, MemTable_len t) /\
    SstReader_open file = Ok r /\
    (forall key, SstReader_get crc32c r key = Ok (mem_map t !! key)) /\
    SstReader_scan crc32c r = Ok (map Ok (MemTable_iter t)) /\
    (forall start end_, SstReader_scan_range crc32c r start end_ =
       Ok (map Ok (filter (in_range start end_) (MemTable_iter t)))) /\
    verify_all_blocks crc32c r = Ok (len (sr_index r)).
Proof.
  intros Hcrc Hsz Hfit Hlen Htot.
  destruct (written_reads_as crc32c sizing t) as (file & Hw & r & Hr); [done..|].
  exists file, r. split; [done|exact Hr].
Qed.

Definition demo_sst_table : MemTable :=
  mkMemTable (list_to_map [(bs "k1", bs "v1"); (bs "k2", bs "v2"); (bs "k3", bs "")]) 10.

Lemma sstable_round_trip_witness :
  exists file r, write_from_memtable crc32 demo_sizing demo_sst_table =
      Ok (file, MemTable_len demo_sst_table) /\
    SstReader_open file = Ok r /\
    (forall key, SstReader_get crc32 r key = Ok (mem_map demo_sst_table !! key)) /\
    SstReader_scan crc32 r = Ok (map Ok (MemTable_iter demo_sst_table)) /\
    (forall start end_, SstReader_scan_range crc32 r start end_ =
       Ok (map Ok (filter (in_range start end_) (MemTable_iter demo_sst_table)))) /\
    verify_all_blocks crc32 r = Ok (len (sr_index r)).
Proof.
  apply (sstable_round_trip crc32 demo_sizing demo_sst_table).
  - apply crc32_range.
  - intros n. vm_compute. repeat split; discriminate.
  - apply (bool_decide_unpack _). vm_compute. exact I.
  - vm_compute. reflexivity.
  - vm_compute. reflexivity.
Defined.

(** The whole path evaluated on that table, with the file in hand. *)
Lemma demo_sst_reads :
  (let? '(file, n) := write_from_memtable crc32 demo_sizing demo_sst_table in
   let? r := SstReader_open file in
   let? a := SstReader_get crc32 r (bs "k2") in
   let? b := SstReader_get crc32 r (bs "k4") in
   let? s := SstReader_scan_range crc32 r (bs "k2") (bs "k9") in
   Ok (n, a, b, s)) =
  Ok (3, Some (bs "v2"), None, [Ok (bs "k2", bs "v2"); Ok (bs "k3", bs "")]).
Proof. vm_compute. reflexivity. Qed.

(** A key of 64 KiB or more cannot be read from any SSTable: the length
    field of a record has 16 bits, the writer truncates the length, and no
    point read ever returns a value for such a key, although the MemTable and
    the write-ahead log accept it. *)
Theorem long_key_unreadable crc32c (r : SstReader) key v :
  2 ^ 16 <= len key -> SstReader_get crc32c r key <> Ok (Some v).
Proof.
  intros Hk. unfold SstReader_get. intros H. inv_ok. destruct (negb x); [done|].
  destruct (find_block r key); [|done]. destruct (_ !! _); [|done]. inv_ok.
  revert H1. unfold scan_block. generalize (S (length x0)) as fuel, 0 as off.
  induction fuel as [|fuel IH]; intros off; cbn [scan_loop]; [done|].
  destruct (_ <=? _); [|done]. destruct (read_entry x0 off) as [[[k v'] off']|] eqn:Er; [|done].
  case_bool_decide as Hkey; [|apply IH]. exfalso. subst k.
  unfold read_entry in Er. destruct (slice x0 off 2) as [kl|] eqn:E1, (slice x0 (off + 2) 4) as [vl|]; try done.
  destruct (slice x0 (off + 6) (le_val kl)) as [k'|] eqn:E2; [|done]. case_match; simplify_eq.
  apply slice_Some_len in E1, E2. pose proof (le_val_range kl) as Hr. unfold len in E1.
  rewrite E1 in Hr. change (256 ^ 2) with (2 ^ 16) in Hr. lia.
Qed.

Lemma long_key_unreadable_witness :
  SstReader_get crc32 (image_reader crc32 [[(bs "a", bs "v")]] (mkBloomFilter [] 64 0))
    (replicate (Z.to_nat 65536) x61) <> Ok (Some (bs "v")).
Proof.
  apply (long_key_unreadable crc32 _ (replicate (Z.to_nat 65536) x61) (bs "v")).
  unfold len. rewrite length_replicate. lia.
Defined.

(** Scans terminate on every file, also on corrupt ones: once an iterator
    of an opened table has been created, it stops within [scan_fuel] rounds,
    whatever the index, the block contents and the failing reads are. *)
Theorem sst_scans_terminate crc32c (r : SstReader) (start end_ : bytes) :
  (forall it, SstIter_new crc32c r = Ok it ->
     drains (SstIter_round crc32c r) (scan_fuel r) it = true) /\
  (forall it, SstRangeIter_new crc32c r start end_ = Ok it ->
     drains (SstRangeIter_round crc32c r start end_) (scan_fuel r) it = true).
Proof.
  pose proof (measure_fuel r) as Hf. split; intros it Hnew.
  - apply load_block_inv in Hnew as (E1 & E2 & E3). simpl in *. pose proof (len_nonneg (it_block it)).
    apply (drains_measure _ (iter_inv r) (fun it => iter_measure r (it_block_idx it) (it_off it))).
    + intros s (H1 & H2 & H3). apply measure_nonneg; lia.
    + intros s s'. apply iter_round_decreases.
    + unfold iter_inv. rewrite E1, E2. lia.
    + rewrite E1, E2. done.
  - apply range_load_inv in Hnew as (E1 & E2 & E3 & E4). simpl in *.
    pose proof (len_nonneg (ri_block it)).
    assert (default 0%nat (find_block r start) <= length (sr_index r))%nat as Hb.
    { destruct (find_block r start) eqn:Ef; simpl; [apply find_block_le in Ef|]; lia. }
    apply (drains_measure _ (range_inv r) (fun it => iter_measure r (ri_block_idx it) (ri_off it))).
    + intros s (H1 & _ & H2 & H3). apply measure_nonneg; lia.
    + intros s s'. apply range_round_decreases.
    + unfold range_inv. rewrite E1, E2. split_and!; [done|done|lia|lia|done].
    + rewrite E1, E2. eapply Z.le_lt_trans; [|exact Hf]. unfold iter_measure. nia.
Qed.
