(* ===== verification/Compaction.v ===== *)
(** * Compaction of level 0 (crates/noedb-storage/src/compaction.rs)

    The [sst] directory is a map from file identities to bytes; a file name
    [L<level>-<id>.sst] is the pair of its numbers.  The merge keeps the source's
    binary heap as the list of its members, from which [pop] takes the least. *)

From S2P Require Import Prelude BTree StorageError MemTable Filter SSTable.

Definition L0_COMPACTION_TRIGGER : Z := 4.

Abbreviation sst_path := (Z * Z)%type.
Abbreviation sst_dir := (gmap (Z * Z) bytes).

(** The ids of the files of a level. *)
Definition level_ids (dir : sst_dir) (level : Z) : list Z :=
  omap (fun e : sst_path * bytes => if e.1.1 =? level then Some e.1.2 else None) (map_to_list dir).

Definition next_sst_id (dir : sst_dir) (level : Z) : Z :=
  foldr Z.max 0 (level_ids dir level) + 1.

(** [files.sort()]: the names have nine digits, so that they sort by id. *)
Definition list_sst_level (dir : sst_dir) (level : Z) : list sst_path :=
  map (pair level) (merge_sort Z.le (level_ids dir level)).

Definition alloc_sst_path (dir : sst_dir) (level : Z) : sst_path := (level, next_sst_id dir level).

Definition open_table (dir : sst_dir) (path : sst_path) : outcome StorageError SstReader :=
  let? file := ok_or (dir !! path) (Io "No such file or directory (os error 2)") in
  SstReader_open file.

Definition remove_file (dir : sst_dir) (path : sst_path) : outcome StorageError unit * sst_dir :=
  match dir !! path with
  | Some _ => (Ok tt, delete path dir)
  | None => (Err (Io "No such file or directory (os error 2)"), dir)
  end.

Fixpoint remove_files (dir : sst_dir) (paths : list sst_path) : outcome StorageError unit * sst_dir :=
  match paths with
  | [] => (Ok tt, dir)
  | p :: paths' =>
      match remove_file dir p with
      | (Ok _, dir') => remove_files dir' paths'
      | r => r
      end
  end.

(** ** The merge *)

(** [Reverse<(Vec<u8>, Vec<u8>, usize)>] in a max-heap: the least triple first. *)
Abbreviation merge_entry := (bytes * bytes * nat)%type.

Definition merge_entry_cmp (a b : merge_entry) : comparison :=
  let '(k1, v1, i1) := a in
  let '(k2, v2, i2) := b in
  match bytes_cmp k1 k2 with
  | Eq => match bytes_cmp v1 v2 with
          | Eq => Nat.compare i1 i2
          | c => c
          end
  | c => c
  end.

(** The least of [e] and the heap, and the others. *)
Fixpoint pop_least (e : merge_entry) (heap : list merge_entry) : merge_entry * list merge_entry :=
  match heap with
  | [] => (e, [])
  | e' :: heap' =>
      match merge_entry_cmp e' e with
      | Lt => let '(m, rest) := pop_least e' heap' in (m, e :: rest)
      | _ => let '(m, rest) := pop_least e heap' in (m, e' :: rest)
      end
  end.

Definition pop (heap : list merge_entry) : option (merge_entry * list merge_entry) :=
  match heap with
  | [] => None
  | e :: heap' => Some (pop_least e heap')
  end.

Abbreviation stream := (list (outcome StorageError (bytes * bytes))).

(** [if let Some(Ok((k, v))) = streams[i].next() { heap.push(..) }] *)
Definition pull (streams : list stream) (i : nat) (heap : list merge_entry)
    : outcome StorageError (list stream * list merge_entry) :=
  match streams !! i with
  | None => Panic
  | Some [] => Ok (streams, heap)
  | Some (Ok (k, v) :: rest) => Ok (<[i := rest]> streams, (k, v, i) :: heap)
  | Some (Err _ :: rest) => Ok (<[i := rest]> streams, heap)
  | Some (Panic :: _) => Panic
  end.

(** The first entry of every stream from the [i]-th on. *)
Fixpoint pull_all (n i : nat) (streams : list stream) (heap : list merge_entry)
    : outcome StorageError (list stream * list merge_entry) :=
  match n with
  | O => Ok (streams, heap)
  | S n' =>
      let? '(streams', heap') := pull streams i heap in
      pull_all n' (S i) streams' heap'
  end.

Fixpoint merge_loop (fuel : nat) (streams : list stream) (heap : list merge_entry) (merged : MemTable)
    : outcome StorageError MemTable :=
  match fuel with
  | O => Ok merged
  | S fuel' =>
      match pop heap with
      | None => Ok merged
      | Some ((k, v, i), heap') =>
          let? merged' := MemTable_put merged k v in
          let? '(streams', heap'') := pull streams i heap' in
          merge_loop fuel' streams' heap'' merged'
      end
  end.

(** Every round pops an entry that came from a stream. *)
Definition merge_fuel (streams : list stream) : nat := S (length (concat streams)).

Definition merge_streams (streams : list stream) : outcome StorageError MemTable :=
  let? '(rest, heap) := pull_all (length streams) 0 streams [] in
  merge_loop (merge_fuel streams) rest heap MemTable_new.

Section compaction.
Context (crc32c : bytes -> Z) (sizing : Z -> Z * Z).

Fixpoint open_tables (dir : sst_dir) (paths : list sst_path) : outcome StorageError (list SstReader) :=
  match paths with
  | [] => Ok []
  | p :: paths' =>
      let? r := open_table dir p in
      let? rs := open_tables dir paths' in
      Ok (r :: rs)
  end.

Fixpoint scan_tables (readers : list SstReader) : outcome StorageError (list stream) :=
  match readers with
  | [] => Ok []
  | r :: readers' =>
      let? s := SstReader_scan crc32c r in
      let? ss := scan_tables readers' in
      Ok (s :: ss)
  end.

(** Up to the write: the merged table. *)
Definition compact_merge (dir : sst_dir) (l0_files : list sst_path) : outcome StorageError MemTable :=
  match l0_files with
  | [] => Err (InvalidInput "nothing to compact")
  | _ =>
      let? readers := open_tables dir l0_files in
      let? streams := scan_tables readers in
      merge_streams streams
  end.

(** The new file is written before the inputs are removed. *)
Definition compact_level0_to_l1 (dir : sst_dir) (l0_files : list sst_path)
    : outcome StorageError sst_path * sst_dir :=
  match (let? merged := compact_merge dir l0_files in write_from_memtable crc32c sizing merged) with
  | Ok (file, _) =>
      let out := alloc_sst_path dir 1 in
      match remove_files (<[out := file]> dir) l0_files with
      | (Ok _, dir') => (Ok out, dir')
      | (Err e, dir') => (Err e, dir')
      | (Panic, dir') => (Panic, dir')
      end
  | Err e => (Err e, dir)
  | Panic => (Panic, dir)
  end.

End compaction.

(** ** The heap *)

Definition merge_le (a b : merge_entry) : Prop :=
  bytes_lt a.1.1 b.1.1 \/
  a.1.1 = b.1.1 /\ (bytes_lt a.1.2 b.1.2 \/ a.1.2 = b.1.2 /\ (a.2 <= b.2)%nat).

#[global] Instance merge_le_trans : Transitive merge_le.
Proof.
  intros [[k1 v1] i1] [[k2 v2] i2] [[k3 v3] i3]. unfold merge_le; simpl.
  intros [?|[-> [?|[-> ?]]]] [?|[-> [?|[-> ?]]]]; eauto using bytes_lt_trans.
  right. split; [done|]. right. split; [done|lia].
Qed.

Lemma bytes_cmp_lt a b : bytes_cmp a b = Lt -> bytes_lt a b.
Proof. unfold bytes_ltb. by intros ->. Qed.
Lemma bytes_cmp_gt a b : bytes_cmp a b = Gt -> bytes_lt b a.
Proof. unfold bytes_ltb. rewrite (bytes_cmp_antisym a b). by intros ->. Qed.

Lemma merge_le_cmp a b :
  match merge_entry_cmp a b with Lt => merge_le a b | _ => merge_le b a end.
Proof.
  destruct a as [[k1 v1] i1], b as [[k2 v2] i2]. unfold merge_entry_cmp, merge_le; simpl.
  destruct (bytes_cmp k1 k2) eqn:Ek; [apply bytes_cmp_eq in Ek as ->| |];
    [|auto using bytes_cmp_lt|auto using bytes_cmp_gt].
  destruct (bytes_cmp v1 v2) eqn:Ev; [apply bytes_cmp_eq in Ev as ->| |];
    [|auto using bytes_cmp_lt|auto using bytes_cmp_gt].
  destruct (Nat.compare_spec i1 i2); right; (split; [done|right]); split; (done || lia).
Qed.

Lemma merge_le_refl a : merge_le a a.
Proof. right. split; [done|]. right. split; [done|lia]. Qed.

Lemma pop_least_spec e heap m rest :
  pop_least e heap = (m, rest) ->
  e :: heap ≡ₚ m :: rest /\ Forall (merge_le m) (e :: heap).
Proof.
  revert e m rest. induction heap as [|e' heap IH]; intros e m rest; simpl.
  { intros [= <- <-]. split; [done|]. apply Forall_singleton, merge_le_refl. }
  pose proof (merge_le_cmp e' e) as Hc.
  assert (forall a b m' rest', pop_least a heap = (m', rest') -> merge_le a b ->
            b :: a :: heap ≡ₚ m' :: b :: rest' /\ Forall (merge_le m') (b :: a :: heap)) as Hstep.
  { intros a b m' rest' [Hp Hm]%IH Hab. split; [by rewrite Hp, Permutation_swap|].
    constructor; [|done]. inversion Hm; subst. by etrans. }
  destruct (merge_entry_cmp e' e).
  all: destruct (pop_least _ heap) as [m' rest'] eqn:E; intros [= <- <-].
  1,3: eapply Hstep in E as [Hp Hm]; [|exact Hc];
    split; [by rewrite Permutation_swap|]; inversion Hm as [|? ? ? Hm']; inversion Hm'; by constructor; [|constructor].
  by eapply Hstep in E.
Qed.

(** ** The merge keeps the largest value of every key *)

Abbreviation entries := (list (bytes * bytes)).

(** A stream without failing reads. *)
Definition clean (ls : list entries) : list stream := map (map Ok) ls.

Lemma clean_lookup ls i : clean ls !! i = map Ok <$> ls !! i.
Proof. apply list_lookup_fmap. Qed.

Lemma clean_insert ls i l : <[i := map Ok l]> (clean ls) = clean (<[i := l]> ls).
Proof. unfold clean. symmetry. apply (list_fmap_insert (map Ok)). Qed.

(** [e] waits in the heap or in a stream. *)
Definition waits (ls : list entries) (heap : list merge_entry) (e : bytes * bytes) : Prop :=
  (exists i, (e.1, e.2, i) ∈ heap) \/ exists i l, ls !! i = Some l /\ e ∈ l.

(** The state of the merge of the entries [all]; the streams in [hole] may have
    no entry in the heap although they are not exhausted. *)
Record merge_inv (all : bytes * bytes -> Prop) (hole : nat -> Prop) (ls : list entries)
    (heap : list merge_entry) (t : MemTable) : Prop := {
  mi_wf : mem_wf t;
  mi_head : forall k v i, (k, v, i) ∈ heap ->
    exists l, ls !! i = Some l /\ forall e, e ∈ l -> bytes_lt k e.1;
  mi_cover : forall i l, ~ hole i -> ls !! i = Some l -> l <> [] -> exists k v, (k, v, i) ∈ heap;
  mi_sorted : forall i l, ls !! i = Some l -> StronglySorted entry_lt l;
  mi_waits : forall e, waits ls heap e -> all e /\ e.1 <> [];
  mi_held : forall k v, mem_map t !! k = Some v -> all (k, v);
  mi_all : forall e, all e -> waits ls heap e \/ exists v, mem_map t !! e.1 = Some v /\ bytes_le e.2 v;
  mi_order : forall k v v', mem_map t !! k = Some v -> waits ls heap (k, v') -> bytes_le v v';
}.

Definition left_over (ls : list entries) (heap : list merge_entry) : nat :=
  (length heap + length (concat ls))%nat.

Lemma length_concat_insert (ls : list entries) i l l' :
  ls !! i = Some l -> (length (concat (<[i := l']> ls)) + length l = length (concat ls) + length l')%nat.
Proof.
  intros H. apply list_elem_of_split_length in H as (a & b & -> & ->).
  rewrite insert_app_r_alt, Nat.sub_diag by lia. simpl.
  rewrite !concat_app. cbn [concat]. rewrite !length_app. lia.
Qed.

Lemma pull_clean ls i l heap :
  ls !! i = Some l ->
  pull (clean ls) i heap =
  match l with
  | [] => Ok (clean ls, heap)
  | (k, v) :: l' => Ok (clean (<[i := l']> ls), (k, v, i) :: heap)
  end.
Proof.
  intros H. unfold pull. rewrite clean_lookup, H. simpl. destruct l as [|[k v] l']; [done|]. simpl.
  by rewrite clean_insert.
Qed.

(** What the next pull moves from a stream to the heap still waits. *)
Lemma waits_pull ls i k v l' heap e :
  ls !! i = Some ((k, v) :: l') ->
  waits (<[i := l']> ls) ((k, v, i) :: heap) e <-> waits ls heap e.
Proof.
  intros Hi. destruct e as [k' v']. unfold waits. simpl. split.
  - intros [[j [[= -> -> ->]|Hj]%elem_of_cons]|(j & l & Hj & He)].
    + right. exists i. eexists. split; [done|left].
    + left. eauto.
    + destruct (decide (i = j)) as [<-|Hne].
      * rewrite list_lookup_insert_eq in Hj by (by eapply lookup_lt_Some). injection Hj as <-.
        right. exists i. eexists. split; [done|by right].
      * rewrite list_lookup_insert_ne in Hj by done. right. eauto.
  - intros [[j Hj]|(j & l & Hj & He)]; [left; exists j; by right|].
    destruct (decide (i = j)) as [<-|Hne].
    + rewrite Hi in Hj. injection Hj as <-. apply elem_of_cons in He as [[= -> ->]|He].
      * left. exists i. left.
      * right. exists i, l'. rewrite list_lookup_insert_eq by (by eapply lookup_lt_Some). done.
    + right. exists j, l. by rewrite list_lookup_insert_ne.
Qed.

Lemma waits_in_stream ls heap e i l : ls !! i = Some l -> e ∈ l -> waits ls heap e.
Proof. intros. right. eauto. Qed.

Lemma merge_inv_pull all hole ls heap t i l :
  merge_inv all hole ls heap t -> ls !! i = Some l ->
  exists ls' heap', pull (clean ls) i heap = Ok (clean ls', heap') /\
    merge_inv all (fun j => hole j /\ j <> i) ls' heap' t /\
    left_over ls' heap' = left_over ls heap /\ length ls' = length ls.
Proof.
  intros [Hwf Hhead Hcov Hsort Hw Hheld Hall Hord] Hi. rewrite (pull_clean _ _ _ _ Hi).
  destruct l as [|[k v] l'].
  { exists ls, heap. split; [done|]. split; [|done]. split; try done.
    intros j l Hj Hl Hne. apply (Hcov j l); [|done..]. intros Hh. apply Hj. split; [done|].
    intros ->. rewrite Hi in Hl. by injection Hl as <-. }
  exists (<[i := l']> ls), ((k, v, i) :: heap). split; [done|].
  assert (forall j l, <[i := l']> ls !! j = Some l ->
            (j = i /\ l = l') \/ (j <> i /\ ls !! j = Some l)) as Hlk.
  { intros j l. rewrite list_lookup_insert_Some. naive_solver. }
  assert (<[i := l']> ls !! i = Some l') as Hself.
  { apply list_lookup_insert_eq. by eapply lookup_lt_Some. }
  pose proof (Hsort _ _ Hi) as Hs. inversion Hs as [|? ? Hs' Hfst]; subst.
  rewrite Forall_forall in Hfst.
  split; [|split; [|apply length_insert]].
  - split; try done.
    + intros k' v' j [[= -> -> ->]|Hin]%elem_of_cons.
      { exists l'. split; [done|]. intros e He. exact (Hfst _ He). }
      destruct (Hhead _ _ _ Hin) as (l & Hl & Hlt). destruct (decide (j = i)) as [->|Hne].
      * exists l'. split; [done|]. intros e He. apply Hlt. rewrite Hi in Hl. injection Hl as <-. by right.
      * exists l. split; [by rewrite list_lookup_insert_ne|done].
    + intros j l Hj [[-> ->]|[Hne Hl]]%Hlk Hnil; [exists k, v; left|].
      destruct (Hcov j l) as (k' & v' & Hin); [|done..|exists k', v'; by right].
      intros Hh. apply Hj. done.
    + intros j l [[-> ->]|[Hne Hl]]%Hlk; [done|by eapply Hsort].
    + intros e He. apply Hw. by eapply waits_pull.
    + intros e He. destruct (Hall e He) as [?|?]; [left; by eapply waits_pull|by right].
    + intros k' v1 v2 Hk He. eapply Hord; [done|]. by eapply waits_pull.
  - unfold left_over. pose proof (length_concat_insert ls i _ l' Hi). cbn [length] in *. lia.
Qed.

Lemma merge_inv_pop all ls heap t k v i rest :
  merge_inv all (fun _ => False) ls heap t ->
  heap ≡ₚ (k, v, i) :: rest -> Forall (merge_le (k, v, i)) heap ->
  exists t', MemTable_put t k v = Ok t' /\ merge_inv all (fun j => j = i) ls rest t'.
Proof.
  intros [Hwf Hhead Hcov Hsort Hw Hheld Hall Hord] Hp Hmin.
  assert (forall x, x ∈ heap <-> x = (k, v, i) \/ x ∈ rest) as Hin.
  { intros x. by rewrite Hp, elem_of_cons. }
  assert (forall e, waits ls heap e <-> e = (k, v) \/ waits ls rest e) as Hwaits.
  { intros [k' v']. unfold waits. simpl. setoid_rewrite Hin. split.
    - intros [[j [[= -> -> ->]|Hj]]|?]; eauto.
    - intros [[= -> ->]|[[j Hj]|?]]; eauto. }
  assert (waits ls heap (k, v)) as Hkv by (apply Hwaits; auto).
  destruct (Hw _ Hkv) as [Hallkv Hk].
  destruct (MemTable_put_ok t k v Hwf Hk) as (t' & Ht' & Hwf' & Hmap).
  exists t'. split; [done|].
  assert (forall v', waits ls rest (k, v') -> bytes_le v v') as Hleast.
  { intros v' [[j Hj]|(j & l & Hl & He)]; simpl in *.
    - rewrite Forall_forall in Hmin. assert ((k, v', j) ∈ heap) as Hj' by (apply Hin; auto).
      specialize (Hmin _ Hj'). unfold merge_le in Hmin; simpl in Hmin.
      destruct Hmin as [Hlt|[_ [Hlt|[-> _]]]];
        [by rewrite bytes_ltb_irrefl in Hlt|by apply bytes_lt_le|apply bytes_leb_refl].
    - exfalso. destruct (Hcov j l) as (k' & v'' & Hh); [tauto|done|by intros ->; apply elem_of_nil in He|].
      destruct (Hhead _ _ _ Hh) as (l2 & Hl2 & Hlt). rewrite Hl in Hl2. injection Hl2 as <-.
      specialize (Hlt _ He). simpl in Hlt. rewrite Forall_forall in Hmin. specialize (Hmin _ Hh).
      unfold merge_le in Hmin; simpl in Hmin. destruct Hmin as [Hlt'|[<- _]].
      + pose proof (bytes_lt_trans _ _ _ Hlt' Hlt) as Hc. by rewrite bytes_ltb_irrefl in Hc.
      + by rewrite bytes_ltb_irrefl in Hlt. }
  split; try done.
  - intros k' v' j Hj. apply (Hhead k' v' j), Hin. auto.
  - intros j l Hj Hl Hne. destruct (Hcov j l) as (k' & v' & [[= -> -> ->]|Hh]%Hin); [tauto|done..|eauto].
  - intros e He. apply Hw, Hwaits. auto.
  - intros k' v'. rewrite Hmap, lookup_insert_Some. intros [[<- <-]|[_ ?]]; auto.
  - intros [k' v'] He. rewrite Hmap. simpl.
    destruct (Hall _ He) as [[[= -> ->]|Hr]%Hwaits|(v0 & Hv0 & Hle)]; [|by left|]; simpl in *.
    + right. exists v. rewrite lookup_insert_eq. split; [done|apply bytes_leb_refl].
    + right. destruct (decide (k = k')) as [<-|Hne].
      * exists v. rewrite lookup_insert_eq. split; [done|]. eapply bytes_le_trans; [done|].
        by eapply Hord.
      * exists v0. by rewrite lookup_insert_ne.
  - intros k' v1 v2. rewrite Hmap, lookup_insert_Some. intros [[<- <-]|[_ Hk']] Hr; [auto|].
    eapply Hord; [done|]. apply Hwaits. auto.
Qed.

(** [m] holds, for each key of [all], the largest of its values. *)
Definition largest (all : bytes * bytes -> Prop) (m : gmap bytes bytes) : Prop :=
  forall k v, m !! k = Some v <-> all (k, v) /\ forall v', all (k, v') -> bytes_le v' v.

Lemma merge_inv_done all ls t :
  merge_inv all (fun _ => False) ls [] t -> largest all (mem_map t).
Proof.
  intros [Hwf Hhead Hcov Hsort Hw Hheld Hall Hord].
  assert (forall e, all e -> exists v, mem_map t !! e.1 = Some v /\ bytes_le e.2 v) as Hd.
  { intros e He. destruct (Hall e He) as [[[i Hi%elem_of_nil]|(i & l & Hl & Hin)]|?]; [done| |done].
    destruct (Hcov i l) as (k & v & Hh%elem_of_nil); [tauto|done|by intros ->; apply elem_of_nil in Hin|done]. }
  intros k v. split.
  - intros Hk. split; [auto|]. intros v' He. destruct (Hd _ He) as (v0 & H0 & Hle). simpl in *.
    rewrite Hk in H0. by injection H0 as <-.
  - intros [He Hmax]. destruct (Hd _ He) as (v0 & H0 & Hle). simpl in *.
    rewrite H0. f_equal. apply bytes_le_antisym; auto.
Qed.

Lemma merge_loop_ok fuel all ls heap t :
  merge_inv all (fun _ => False) ls heap t -> (left_over ls heap < fuel)%nat ->
  exists t', merge_loop fuel (clean ls) heap t = Ok t' /\ mem_wf t' /\ largest all (mem_map t').
Proof.
  revert ls heap t. induction fuel as [|fuel IH]; intros ls heap t Hinv Hf; [lia|].
  cbn [merge_loop]. destruct heap as [|e heap]; cbn [pop].
  { exists t. split; [done|]. split; [apply Hinv|by eapply merge_inv_done]. }
  destruct (pop_least e heap) as [[[k v] i] rest] eqn:Ep. apply pop_least_spec in Ep as [Hp Hmin].
  destruct (mi_head _ _ _ _ _ Hinv k v i) as (l & Hl & _); [rewrite Hp; left|].
  destruct (merge_inv_pop _ _ _ _ _ _ _ _ Hinv Hp Hmin) as (t1 & -> & Hinv1). cbn [obind].
  destruct (merge_inv_pull _ _ _ _ _ _ _ Hinv1 Hl) as (ls' & heap' & -> & Hinv2 & Hleft & _).
  cbn [obind]. apply IH.
  - destruct Hinv2 as [? ? Hc ? ? ? ? ?]. split; try done. intros j l' _. apply Hc. tauto.
  - rewrite Hleft. apply Permutation_length in Hp. unfold left_over in *. cbn [length] in *. lia.
Qed.

Lemma pull_all_ok n i all ls heap t :
  merge_inv all (fun j => (i <= j)%nat) ls heap t -> (i + n = length ls)%nat ->
  exists ls' heap', pull_all n i (clean ls) heap = Ok (clean ls', heap') /\
    merge_inv all (fun _ => False) ls' heap' t /\ left_over ls' heap' = left_over ls heap.
Proof.
  revert i ls heap. induction n as [|n IH]; intros i ls heap Hinv Hn; cbn [pull_all].
  - exists ls, heap. split; [done|]. split; [|done]. destruct Hinv as [? ? Hc ? ? ? ? ?]. split; try done.
    intros j l _ Hj. apply Hc; [|done]. apply lookup_lt_Some in Hj. lia.
  - destruct (lookup_lt_is_Some_2 ls i) as [l Hl]; [lia|].
    destruct (merge_inv_pull _ _ _ _ _ _ _ Hinv Hl) as (ls' & heap' & -> & Hinv2 & Hleft & Hlen).
    cbn [obind]. destruct (IH (S i) ls' heap') as (ls2 & heap2 & -> & ? & Hl2); [|lia|].
    { destruct Hinv2 as [? ? Hc ? ? ? ? ?]. split; try done. intros j l' Hj. apply Hc. lia. }
    exists ls2, heap2. split; [done|]. split; [done|]. congruence.
Qed.

Lemma merge_streams_ok ls :
  Forall (StronglySorted entry_lt) ls -> (forall l e, l ∈ ls -> e ∈ l -> e.1 <> []) ->
  exists t, merge_streams (clean ls) = Ok t /\ mem_wf t /\
    largest (fun e => exists l, l ∈ ls /\ e ∈ l) (mem_map t).
Proof.
  intros Hs Hne. unfold merge_streams.
  assert (merge_inv (fun e => exists l, l ∈ ls /\ e ∈ l) (fun j => (0 <= j)%nat) ls [] MemTable_new) as H0.
  { split.
    - apply mem_wf_new.
    - by intros k v i ?%elem_of_nil.
    - intros i l Hi. exfalso. apply Hi. lia.
    - intros i l Hl. by eapply Forall_lookup in Hs.
    - intros e [[i Hi%elem_of_nil]|(i & l & Hl & He)]; [done|].
      apply list_elem_of_lookup_2 in Hl. eauto.
    - intros k v. unfold MemTable_new. cbn [mem_map]. by rewrite lookup_empty.
    - intros e (l & Hl & He). left. apply list_elem_of_lookup_1 in Hl as [i Hl]. right. eauto.
    - intros k v v'. unfold MemTable_new. cbn [mem_map]. by rewrite lookup_empty. }
  replace (length (clean ls)) with (length ls) by (unfold clean; by rewrite length_map).
  destruct (pull_all_ok (length ls) 0 _ ls [] _ H0) as (ls' & heap' & -> & Hinv & Hleft); [done|].
  cbn [obind]. apply merge_loop_ok; [done|]. rewrite Hleft. unfold left_over, merge_fuel, clean.
  cbn [length]. rewrite <- concat_map, length_map. lia.
Qed.

(** ** The directory *)

Lemma level_ids_spec dir level id : id ∈ level_ids dir level <-> is_Some (dir !! (level, id)).
Proof.
  unfold level_ids. rewrite list_elem_of_omap. split.
  - intros ([[l i] file] & Hin & E). apply elem_of_map_to_list in Hin. simpl in E.
    destruct (l =? level) eqn:El; bool_to_prop; simplify_eq/=. eauto.
  - intros [file Hf]. exists ((level, id), file). rewrite elem_of_map_to_list. simpl.
    by rewrite Z.eqb_refl.
Qed.

Lemma le_foldr_max l x : x ∈ l -> x <= foldr Z.max 0 l.
Proof. induction l as [|y l IH]; [by intros ?%elem_of_nil|]. intros [->|?%IH]%elem_of_cons; simpl; lia. Qed.

Lemma alloc_fresh dir level : dir !! alloc_sst_path dir level = None.
Proof.
  unfold alloc_sst_path, next_sst_id. apply eq_None_not_Some. intros H. apply level_ids_spec in H.
  apply le_foldr_max in H. lia.
Qed.

Lemma remove_files_ok dir paths :
  NoDup paths -> (forall p, p ∈ paths -> is_Some (dir !! p)) ->
  exists dir', remove_files dir paths = (Ok tt, dir') /\
    forall q, dir' !! q = if bool_decide (q ∈ paths) then None else dir !! q.
Proof.
  revert dir. induction paths as [|p paths IH]; intros dir Hnd Hin; cbn [remove_files].
  { exists dir. split; [done|]. intros q. rewrite bool_decide_false; [done|]. apply not_elem_of_nil. }
  inversion Hnd as [|? ? Hp Hnd']; subst. unfold remove_file.
  destruct (Hin p) as [file Hfile]; [left|]. rewrite Hfile.
  destruct (IH (delete p dir)) as (dir' & -> & Hd); [done| |].
  { intros q Hq. rewrite lookup_delete_ne; [apply Hin; by right|]. by intros ->. }
  exists dir'. split; [done|]. intros q. rewrite Hd. destruct (decide (q = p)) as [->|Hne].
  - rewrite bool_decide_false, lookup_delete_eq, bool_decide_true by (done || left). done.
  - rewrite lookup_delete_ne by done. do 2 case_bool_decide; try done; set_solver.
Qed.

Section compact.
Context (crc32c : bytes -> Z) (sizing : Z -> Z * Z).

(** The files of [paths] read as the maps [ms]. *)
Definition tables (dir : sst_dir) (paths : list sst_path) (ms : list (gmap bytes bytes)) : Prop :=
  Forall2 (fun p m => exists file, dir !! p = Some file /\ reads_as crc32c file m /\ m !! [] = None)
          paths ms.

Lemma scan_opened dir paths ms :
  tables dir paths ms ->
  exists readers, open_tables dir paths = Ok readers /\
    scan_tables crc32c readers = Ok (clean (map btree_iter ms)).
Proof.
  induction 1 as [|p m paths ms (file & Hf & (r & Hr & _ & Hs & _) & _) Hrest (rs & Ho & IH)].
  { by exists []. }
  exists (r :: rs). cbn [open_tables scan_tables map clean]. unfold open_table. rewrite Hf. cbn [ok_or obind].
  rewrite Hr, Ho. cbn [obind]. split; [done|]. rewrite Hs, IH. done.
Qed.

(** An entry of one of the maps. *)
Definition some_has (ms : list (gmap bytes bytes)) (e : bytes * bytes) : Prop :=
  exists m, m ∈ ms /\ m !! e.1 = Some e.2.

Lemma compact_merge_ok dir paths ms :
  tables dir paths ms -> paths <> [] ->
  exists t, compact_merge crc32c dir paths = Ok t /\ mem_wf t /\ largest (some_has ms) (mem_map t).
Proof.
  intros Ht Hne. destruct (scan_opened dir paths ms Ht) as (rs & Ho & Hs).
  unfold compact_merge. destruct paths as [|p paths]; [done|]. rewrite Ho. cbn [obind]. rewrite Hs.
  cbn [obind]. destruct (merge_streams_ok (map btree_iter ms)) as (t & -> & Hwf & Hl).
  - apply Forall_map, Forall_true. intros m. apply btree_iter_sorted.
  - intros l [k v] Hl He. apply list_elem_of_fmap in Hl as (m & -> & Hm).
    apply elem_of_btree_iter in He. simpl. intros ->.
    apply list_elem_of_lookup_1 in Hm as [i Hm].
    destruct (Forall2_lookup_r _ _ _ _ _ Ht Hm) as (q & _ & _ & _ & _ & Hnil). congruence.
  - exists t. split; [done|]. split; [done|]. intros k v. rewrite (Hl k v).
    assert (forall e, (exists l, l ∈ map btree_iter ms /\ e ∈ l) <-> some_has ms e) as Hiff.
    { intros [k' v']. unfold some_has. simpl. split.
      - intros (l & Hl' & He). apply list_elem_of_fmap in Hl' as (m & -> & Hm).
        apply elem_of_btree_iter in He. eauto.
      - intros (m & Hm & He). exists (btree_iter m). split; [by apply list_elem_of_fmap_2|].
        by apply elem_of_btree_iter. }
    rewrite Hiff. by setoid_rewrite Hiff.
Qed.

Lemma compact_ok dir paths ms t file n :
  tables dir paths ms -> NoDup paths -> compact_merge crc32c dir paths = Ok t ->
  write_from_memtable crc32c sizing t = Ok (file, n) ->
  exists dir', compact_level0_to_l1 crc32c sizing dir paths = (Ok (alloc_sst_path dir 1), dir') /\
    forall q, dir' !! q = if bool_decide (q ∈ paths) then None
                          else if bool_decide (q = alloc_sst_path dir 1) then Some file else dir !! q.
Proof.
  intros Ht Hnd Hm Hw. unfold compact_level0_to_l1. rewrite Hm. cbn [obind]. rewrite Hw.
  assert (forall p, p ∈ paths -> is_Some (dir !! p)) as Hin.
  { intros p [i Hp]%list_elem_of_lookup_1.
    destruct (Forall2_lookup_l _ _ _ _ _ Ht Hp) as (m & _ & file' & Hf & _). eauto. }
  destruct (remove_files_ok (<[alloc_sst_path dir 1 := file]> dir) paths) as (dir' & -> & Hd); [done| |].
  { intros p Hp. rewrite lookup_insert_ne; [auto|]. intros <-. destruct (Hin _ Hp) as [? E].
    by rewrite alloc_fresh in E. }
  exists dir'. split; [done|]. intros q. rewrite Hd. case_bool_decide; [done|].
  case_bool_decide as Hq; [by rewrite Hq, lookup_insert_eq|by rewrite lookup_insert_ne].
Qed.

End compact.

(** ** Theorems *)

(** Compaction keeps, for every key of the input files, the largest of its
    values in byte order, and nothing else: the heap is ordered by key, then
    value, then file, and a later insertion overwrites an earlier one.  If the
    merged table fits the format, it is written to a fresh file of level 1 that
    reads as that table, the inputs are removed and no other file changes.  The
    newest value of a key survives only where it is also the largest. *)
Theorem compaction_keeps_largest_value crc32c sizing dir paths ms :
  (forall l, 0 <= crc32c l < 2 ^ 32) -> sizing_ok sizing ->
  tables crc32c dir paths ms -> NoDup paths -> paths <> [] ->
  exists t, compact_merge crc32c dir paths = Ok t /\
    (forall k v, mem_map t !! k = Some v <->
       (exists m, m ∈ ms /\ m !! k = Some v) /\
       forall m v', m ∈ ms -> m !! k = Some v' -> bytes_le v' v) /\
    (table_fits t ->
     exists dir' out file,
       compact_level0_to_l1 crc32c sizing dir paths = (Ok out, dir') /\
       out = alloc_sst_path dir 1 /\ dir !! out = None /\
       dir' !! out = Some file /\ reads_as crc32c file (mem_map t) /\
       forall p, p <> out -> dir' !! p = if bool_decide (p ∈ paths) then None else dir !! p).
Proof.
  intros Hcrc Hsz Ht Hnd Hne. destruct (compact_merge_ok crc32c dir paths ms Ht Hne) as (t & Hm & _ & Hl).
  exists t. split; [done|]. split.
  - intros k v. rewrite (Hl k v). unfold some_has. simpl. naive_solver.
  - intros Hfit. destruct (written_reads_as crc32c sizing t Hcrc Hsz Hfit) as (file & Hw & Hr).
    destruct (compact_ok crc32c sizing dir paths ms t file _ Ht Hnd Hm Hw) as (dir' & Hc & Hd).
    exists dir', (alloc_sst_path dir 1), file. split; [done|]. split; [done|].
    pose proof (alloc_fresh dir 1) as Hfr. split; [done|]. rewrite Hd.
    assert (alloc_sst_path dir 1 ∉ paths) as Hout.
    { intros [i Hp]%list_elem_of_lookup_1.
      destruct (Forall2_lookup_l _ _ _ _ _ Ht Hp) as (m & _ & f & Hf & _). congruence. }
    rewrite bool_decide_false, bool_decide_true by done. split; [done|]. split; [done|].
    intros p Hp. rewrite Hd. case_bool_decide; [done|]. by rewrite bool_decide_false.
Qed.

(** The bytes that [write_from_memtable] produces, for examples. *)
Definition file_of (t : MemTable) : bytes :=
  match write_from_memtable crc32 demo_sizing t with Ok (file, _) => file | _ => [] end.

Lemma demo_sizing_ok : sizing_ok demo_sizing.
Proof. intros n. vm_compute. repeat split; discriminate. Qed.

Lemma file_of_reads t : table_fits t -> reads_as crc32 (file_of t) (mem_map t).
Proof.
  intros Hfit. unfold file_of.
  by destruct (written_reads_as crc32 demo_sizing t crc32_range demo_sizing_ok Hfit) as (file & -> & Hr).
Qed.

Definition old_table : MemTable := mkMemTable {[bs "k" := bs "9"]} 2.
Definition new_table : MemTable := mkMemTable {[bs "k" := bs "10"]} 3.
Definition demo_sst_dir : sst_dir :=
  <[(0, 1) := file_of old_table]> (<[(0, 2) := file_of new_table]> ∅).

Lemma demo_tables :
  tables crc32 demo_sst_dir [(0, 1); (0, 2)] [mem_map old_table; mem_map new_table].
Proof.
  repeat constructor.
  - exists (file_of old_table). split; [done|]. split; [|done]. apply file_of_reads.
    split; [|done]. apply (bool_decide_unpack _). vm_compute. exact I.
  - exists (file_of new_table). split; [done|]. split; [|done]. apply file_of_reads.
    split; [|done]. apply (bool_decide_unpack _). vm_compute. exact I.
Qed.

Lemma compaction_keeps_largest_value_witness :
  exists t, compact_merge crc32 demo_sst_dir [(0, 1); (0, 2)] = Ok t /\
    mem_map t !! bs "k" = Some (bs "9").
Proof.
  destruct (compaction_keeps_largest_value crc32 demo_sizing demo_sst_dir [(0, 1); (0, 2)]
    [mem_map old_table; mem_map new_table]) as (t & Hm & Hk & _).
  - apply crc32_range.
  - apply demo_sizing_ok.
  - apply demo_tables.
  - apply (bool_decide_unpack _). vm_compute. exact I.
  - discriminate.
  - exists t. split; [exact Hm|]. apply Hk. split.
    + exists (mem_map old_table). split; [left|reflexivity].
    + intros m v' Hin Hv. apply elem_of_cons in Hin as [->|Hin].
      * vm_compute in Hv. injection Hv as <-. reflexivity.
      * apply list_elem_of_singleton in Hin as ->. vm_compute in Hv. injection Hv as <-. reflexivity.
Defined.
