(* ===== verification/Lsm.v ===== *)
(** * The LSM tree (crates/noedb-storage/src/lsm.rs, lsm_mvcc.rs, manifest.rs)

    The tree's state holds the memtable, the two levels and the write-ahead
    log, and the disk it works on: the [wal] and [sst] directories and the
    manifest.  Operations are in a state monad that keeps what an operation did
    before it failed.  The cache of opened tables is left out: it is cleared
    whenever a table is added or removed.  The manifest is the snapshot itself;
    its text format is in [Manifest]. *)

From S2P Require Import Prelude BTree StorageError Mvcc MemTable Wal Filter SSTable Compaction.

(** ** Configuration *)

Record LsmConfig : Type := mkLsmConfig {
  max_mem_bytes : Z;
  l0_compaction_trigger : Z;
  cfg_wal_sync : WalSyncMode;
  cfg_sst : SstWriteOptions;
  wal_batch_size : Z;
  cfg_write_stall : WriteStallConfig;
}.

Definition LsmConfig_default : LsmConfig :=
  mkLsmConfig DEFAULT_MAX_MEM_BYTES L0_COMPACTION_TRIGGER EveryAppend phase3_default 1
              WriteStallConfig_default.

Definition LsmConfig_throughput : LsmConfig :=
  mkLsmConfig (16 * 1024 * 1024) 64 OnFlush phase3_default 256 WriteStallConfig_relaxed.

(** ** State *)

Record ManifestSnapshot : Type := mkManifestSnapshot {
  ms_level0 : list sst_path;
  ms_level1 : list sst_path;
  ms_sequence : Z;
}.

(** What is on disk. *)
Record lsm_disk : Type := mkLsmDisk {
  ld_wal : wal_dir;
  ld_sst : sst_dir;
  ld_manifest : option ManifestSnapshot;
}.

Record LsmTree : Type := mkLsmTree {
  l_wal : WalSegmentManager;
  l_active : MemTable;
  l_level0 : list sst_path;
  l_level1 : list sst_path;
  l_config : LsmConfig;
  l_flushed_wal_segment : Z;
  l_wal_pending : Z;
  l_manifest_seq : Z;
  l_sst : sst_dir;
  l_manifest : option ManifestSnapshot;
}.

Definition disk_of (l : LsmTree) : lsm_disk := mkLsmDisk (ws_dir (l_wal l)) (l_sst l) (l_manifest l).

Definition set_wal (w : WalSegmentManager) (l : LsmTree) : LsmTree :=
  mkLsmTree w (l_active l) (l_level0 l) (l_level1 l) (l_config l) (l_flushed_wal_segment l)
            (l_wal_pending l) (l_manifest_seq l) (l_sst l) (l_manifest l).
Definition set_memtable (t : MemTable) (l : LsmTree) : LsmTree :=
  mkLsmTree (l_wal l) t (l_level0 l) (l_level1 l) (l_config l) (l_flushed_wal_segment l)
            (l_wal_pending l) (l_manifest_seq l) (l_sst l) (l_manifest l).
Definition set_levels (l0 l1 : list sst_path) (l : LsmTree) : LsmTree :=
  mkLsmTree (l_wal l) (l_active l) l0 l1 (l_config l) (l_flushed_wal_segment l)
            (l_wal_pending l) (l_manifest_seq l) (l_sst l) (l_manifest l).
Definition set_pending (n : Z) (l : LsmTree) : LsmTree :=
  mkLsmTree (l_wal l) (l_active l) (l_level0 l) (l_level1 l) (l_config l) (l_flushed_wal_segment l)
            n (l_manifest_seq l) (l_sst l) (l_manifest l).
Definition set_flushed (id : Z) (l : LsmTree) : LsmTree :=
  mkLsmTree (l_wal l) (l_active l) (l_level0 l) (l_level1 l) (l_config l) id
            (l_wal_pending l) (l_manifest_seq l) (l_sst l) (l_manifest l).
Definition set_sst (d : sst_dir) (l : LsmTree) : LsmTree :=
  mkLsmTree (l_wal l) (l_active l) (l_level0 l) (l_level1 l) (l_config l) (l_flushed_wal_segment l)
            (l_wal_pending l) (l_manifest_seq l) d (l_manifest l).
Definition set_manifest (seq : Z) (m : ManifestSnapshot) (l : LsmTree) : LsmTree :=
  mkLsmTree (l_wal l) (l_active l) (l_level0 l) (l_level1 l) (l_config l) (l_flushed_wal_segment l)
            (l_wal_pending l) seq (l_sst l) (Some m).

(** Compute the fields of an updated tree. *)
Ltac lsm_fields :=
  cbn [l_active l_config l_level0 l_level1 l_wal l_sst l_manifest l_flushed_wal_segment
       l_wal_pending l_manifest_seq ws_active_id ws_dir ws_sync_mode wd_segments wd_current
       set_memtable set_sst set_levels set_wal set_flushed set_pending set_manifest] in *.

(** ** The monad of the operations *)

Definition LM (A : Type) : Type := LsmTree -> outcome StorageError A * LsmTree.

Definition lret {A} (a : A) : LM A := fun l => (Ok a, l).
Definition lbind {A B} (p : LM A) (k : A -> LM B) : LM B := fun l =>
  match p l with
  | (Ok a, l') => k a l'
  | (Err e, l') => (Err e, l')
  | (Panic, l') => (Panic, l')
  end.
Notation "'let&' x := p 'in' k" := (lbind p (fun x => k))
  (at level 10, x binder, p at level 100, k at level 200) : outcome_scope.

Definition lget : LM LsmTree := fun l => (Ok l, l).
Definition lmodify (f : LsmTree -> LsmTree) : LM unit := fun l => (Ok tt, f l).
Definition llift {A} (o : outcome StorageError A) : LM A := fun l => (o, l).

(** A write of one part: the new value, or the error with the part unchanged. *)
Definition lwal (f : WalSegmentManager -> outcome StorageError WalSegmentManager) : LM unit :=
  let& l := lget in
  let& w := llift (f (l_wal l)) in
  lmodify (set_wal w).

Section lsm.
Context (crc32c : bytes -> Z) (sizing : Z -> Z * Z).

(** ** Opening *)

Definition LsmTree_open (d : lsm_disk) (config : LsmConfig) : outcome StorageError LsmTree :=
  let? '(_, active) := replay_all (Some (ld_wal d)) MemTable_new in
  let manifest := ld_manifest d in
  let level0 := match manifest with
                | Some m => ms_level0 m
                | None => list_sst_level (ld_sst d) 0
                end in
  let level1 := match manifest with
                | Some m => ms_level1 m
                | None => list_sst_level (ld_sst d) 1
                end in
  let manifest_seq := match manifest with Some m => ms_sequence m | None => 0 end in
  let? wal := open_with_sync (ld_wal d) (cfg_wal_sync config) in
  Ok (mkLsmTree wal active level0 level1 config 0 0 manifest_seq (ld_sst d) manifest).

(** ** Flushing and compaction *)

Definition LsmTree_sync : LM unit :=
  let& _ := lwal (fun w => Ok (WalSegmentManager_sync w)) in
  lmodify (set_pending 0).

Definition maybe_sync_wal : LM unit :=
  let& l := lget in
  if bool_decide (cfg_wal_sync (l_config l) = EveryAppend) ||
     (l_wal_pending l >=? wal_batch_size (l_config l))
  then LsmTree_sync else lret tt.

Definition lsm_gate_write : LM unit :=
  let& l := lget in
  let& _ := llift (gate_write (cfg_write_stall (l_config l)) (len (l_level0 l))
                     (MemTable_approx_bytes (l_active l)) (max_mem_bytes (l_config l))) in
  lret tt.

Definition persist_manifest : LM unit :=
  let& l := lget in
  let seq := l_manifest_seq l + 1 in
  lmodify (set_manifest seq (mkManifestSnapshot (l_level0 l) (l_level1 l) seq)).

(** The first part of [flush_active]: the table becomes a file of level 0. *)
Definition flush_write (frozen : MemTable) : LM unit :=
  let& l := lget in
  let path := alloc_sst_path (l_sst l) 0 in
  let& '(file, _) := llift (write_from_memtable crc32c sizing frozen) in
  let& _ := lmodify (set_sst (<[path := file]> (l_sst l))) in
  lmodify (set_levels (l_level0 l ++ [path]) (l_level1 l)).

(** The second: the log starts a new segment and drops the flushed ones. *)
Definition flush_truncate_wal : LM unit :=
  let& l := lget in
  let& '(old_wal, w) := llift (rotate (l_wal l)) in
  let flushed := l_flushed_wal_segment l in
  let dir := fold_left delete_segment (seqZ flushed (old_wal - flushed + 1)) (ws_dir w) in
  let& _ := lmodify (set_wal (mkWalSegmentManager dir (ws_active_id w) (ws_sync_mode w))) in
  let& _ := lmodify (set_flushed (ws_active_id w)) in
  lmodify (set_pending 0).

Definition flush_active : LM unit :=
  let& l := lget in
  let frozen := l_active l in
  let& _ := lmodify (set_memtable MemTable_new) in
  if MemTable_is_empty frozen then lret tt
  else
    let& _ := flush_write frozen in
    let& _ := flush_truncate_wal in
    persist_manifest.

Definition run_compaction : LM unit :=
  let& l := lget in
  let '(r, dir) := compact_level0_to_l1 crc32c sizing (l_sst l) (l_level0 l) in
  let& _ := lmodify (set_sst dir) in
  let& l1_path := llift r in
  let& _ := lmodify (set_levels [] (l_level1 l ++ [l1_path])) in
  persist_manifest.

Definition maybe_flush_and_compact : LM unit :=
  let& l := lget in
  if MemTable_approx_bytes (l_active l) <? max_mem_bytes (l_config l) then lret tt
  else
    let& _ := flush_active in
    let& l := lget in
    if len (l_level0 l) >=? l0_compaction_trigger (l_config l) then run_compaction else lret tt.

(** ** Reads *)

Definition get_from_sst (l : LsmTree) (path : sst_path) (key : bytes)
    : outcome StorageError (option bytes) :=
  let? r := open_table (l_sst l) path in
  SstReader_get crc32c r key.

(** [consider] *)
Definition consider (view : ReadView) (best : option Version) (ver : Version) : option Version :=
  if negb (is_visible view ver None) then best
  else match best with
       | None => Some ver
       | Some b => if v_commit_ts ver >? v_commit_ts b then Some ver else best
       end.

(** The versions of [user_key] among the entries of a scan. *)
Fixpoint consider_entries (user_key : bytes) (view : ReadView) (best : option Version)
    (es : list (bytes * bytes)) : outcome StorageError (option Version) :=
  match es with
  | [] => Ok best
  | (ik, raw) :: es' =>
      if negb (bool_decide (decode_user_key ik = user_key)) && negb (bool_decide (ik = user_key))
      then consider_entries user_key view best es'
      else
        let? ver := decode_or_legacy raw in
        consider_entries user_key view (consider view best ver) es'
  end.

(** [iter.flatten()] over the items of a scan *)
Definition flatten_items (items : list (outcome StorageError (bytes * bytes))) : list (bytes * bytes) :=
  omap (fun i => match i with Ok e => Some e | _ => None end) items.

Fixpoint consider_tables (l : LsmTree) (user_key start end_ : bytes) (view : ReadView)
    (best : option Version) (paths : list sst_path) : outcome StorageError (option Version) :=
  match paths with
  | [] => Ok best
  | path :: paths' =>
      match (let? r := open_table (l_sst l) path in SstReader_scan_range crc32c r start end_) with
      | Ok items =>
          let? best' := consider_entries user_key view best (flatten_items items) in
          consider_tables l user_key start end_ view best' paths'
      | Err _ => consider_tables l user_key start end_ view best paths'
      | Panic => Panic
      end
  end.

Definition find_visible_version (l : LsmTree) (user_key : bytes) (view : ReadView)
    : outcome StorageError (option Version) :=
  let start := user_key in
  let end_ := user_key_prefix_end user_key in
  let? entries := MemTable_range (l_active l) start end_ in
  let? best := consider_entries user_key view None entries in
  consider_tables l user_key start end_ view best (rev (l_level0 l) ++ rev (l_level1 l)).

Definition get_visible (l : LsmTree) (user_key : bytes) (view : ReadView)
    : outcome StorageError (option bytes) :=
  let? v := find_visible_version l user_key view in
  Ok (match v with
      | Some ver => if v_deleted ver then None else Some (v_value ver)
      | None => None
      end).

Definition latest_view : ReadView := ReadView_new 0 u64_max ∅.

Definition get_latest (l : LsmTree) (user_key : bytes) : outcome StorageError (option bytes) :=
  get_visible l user_key latest_view.

Definition lsm_get_at_ts (l : LsmTree) (user_key : bytes) (read_ts : Z)
    : outcome StorageError (option bytes) :=
  get_visible l user_key (ReadView_new 0 read_ts ∅).

(** The first table, newest first, that holds the raw key. *)
Fixpoint get_raw (l : LsmTree) (key : bytes) (paths : list sst_path) : outcome StorageError (option bytes) :=
  match paths with
  | [] => Ok None
  | path :: paths' =>
      let? v := get_from_sst l path key in
      match v with Some v => Ok (Some v) | None => get_raw l key paths' end
  end.

(** After the memtable: the newest version, then the raw copies. *)
Definition get_below (l : LsmTree) (key : bytes) : outcome StorageError (option bytes) :=
  let? v := find_visible_version l key latest_view in
  match v with
  | Some ver => Ok (if v_deleted ver then None else Some (v_value ver))
  | None => get_raw l key (rev (l_level0 l) ++ rev (l_level1 l))
  end.

Definition LsmTree_get (l : LsmTree) (key : bytes) : outcome StorageError (option bytes) :=
  let? raw := MemTable_get (l_active l) key in
  match raw with
  | Some raw =>
      if starts_with MAGIC raw then
        match decode_or_legacy raw with
        | Ok ver => Ok (if v_deleted ver then None else Some (v_value ver))
        | Err _ => get_below l key
        | Panic => Panic
        end
      else Ok (Some raw)
  | None => get_below l key
  end.

(** ** Writes *)

Definition active_put (key value : bytes) : LM unit :=
  let& l := lget in
  let& t := llift (MemTable_put (l_active l) key value) in
  lmodify (set_memtable t).

Definition log_write (e : LogEntry) : LM unit :=
  let& _ := lwal (fun w => WalSegmentManager_append w e) in
  let& _ := lmodify (fun l => set_pending (l_wal_pending l + 1) l) in
  maybe_sync_wal.

Definition LsmTree_put (key value : bytes) : LM unit :=
  let& _ := lsm_gate_write in
  let& _ := log_write (LogEntry_put key value) in
  let& _ := active_put key value in
  maybe_flush_and_compact.

Fixpoint put_batch_loop (entries : list (bytes * bytes)) : LM unit :=
  match entries with
  | [] => lret tt
  | (key, value) :: entries' =>
      let& _ := lwal (fun w => WalSegmentManager_append w (LogEntry_put key value)) in
      let& _ := active_put key value in
      put_batch_loop entries'
  end.

Definition LsmTree_put_batch (entries : list (bytes * bytes)) : LM unit :=
  let& _ := lsm_gate_write in
  let& _ := put_batch_loop entries in
  let& _ := lwal (fun w => Ok (WalSegmentManager_sync w)) in
  maybe_flush_and_compact.

Definition put_version (user_key : bytes) (version : Version) : LM unit :=
  let ik := encode_internal_key user_key (v_commit_ts version) in
  let& val := llift (encode_version version) in
  let& _ := log_write (LogEntry_put ik val) in
  let& _ := active_put ik val in
  maybe_flush_and_compact.

Definition LsmTree_delete (key : bytes) : LM bool :=
  let& _ := lsm_gate_write in
  let& _ := log_write (LogEntry_delete key) in
  let& l := lget in
  let& '(removed_active, t) := llift (MemTable_delete (l_active l) key) in
  let& _ := lmodify (set_memtable t) in
  let& l := lget in
  let& v := llift (LsmTree_get l key) in
  match v with
  | Some _ =>
      let& ver := llift (find_visible_version l key latest_view) in
      let next_ts := match ver with
                     | Some v => sat 64 (v_commit_ts v + 1)
                     | None => 2
                     end in
      let& _ := put_version key (Version_tombstone next_ts) in
      let& _ := maybe_flush_and_compact in
      lret true
  | None =>
      let& _ := maybe_flush_and_compact in
      lret removed_active
  end.

End lsm.

(** ** Reading one key through the levels *)

(** The tables below the memtable, newest first. *)
Definition table_paths (l : LsmTree) : list sst_path := rev (l_level0 l) ++ rev (l_level1 l).

(** The first map that has the key. *)
Fixpoint first_of (ms : list (gmap bytes bytes)) (key : bytes) : option bytes :=
  match ms with
  | [] => None
  | m :: ms' => match m !! key with Some v => Some v | None => first_of ms' key end
  end.

(** What a map may hold for a plain read of [key]: the value of the key itself
    is not an encoded version, and no other key decodes to it. *)
Definition plain_for (key : bytes) (m : gmap bytes bytes) : Prop :=
  forall k v, m !! k = Some v ->
    (k = key -> starts_with MAGIC v = false) /\ (decode_user_key k = key -> k = key).

Definition legacy (v : bytes) : Version := Version_put 1 v.

Lemma consider_legacy best v :
  (best = None \/ exists v0, best = Some (legacy v0)) ->
  consider latest_view best (legacy v) = Some (match best with Some b => b | None => legacy v end).
Proof. intros [->|[v0 ->]]; reflexivity. Qed.

Lemma consider_entries_plain key best es :
  NoDup es.*1 -> (forall k v, (k, v) ∈ es ->
    (k = key -> starts_with MAGIC v = false) /\ (decode_user_key k = key -> k = key)) ->
  consider_entries key latest_view best es =
  Ok (match assoc es key with Some v => consider latest_view best (legacy v) | None => best end).
Proof.
  revert best. induction es as [|[k raw] es IH]; intros best Hnd Hpl; [done|].
  inversion Hnd as [|? ? Hnin Hnd']; subst. cbn [consider_entries assoc fst snd].
  destruct (Hpl k raw) as [Hraw Hdec]; [left|].
  destruct (decide (k = key)) as [->|Hne].
  - rewrite !(bool_decide_true (key = key)) by done. cbn [negb]. rewrite andb_false_r.
    unfold decode_or_legacy. rewrite Hraw by done. cbn [obind].
    rewrite IH; [|done|intros; apply Hpl; by right].
    assert (assoc es key = None) as ->; [|done].
    destruct (assoc es key) as [v|] eqn:E; [|done]. apply assoc_in in E. exfalso. apply Hnin.
    apply list_elem_of_fmap. by exists (key, v).
  - rewrite !bool_decide_false by auto. cbn [negb andb].
    apply IH; [done|]. intros; apply Hpl; by right.
Qed.

(** A range scan around the key sees the key's entry and no other version of it. *)
Lemma assoc_prefix_range key m :
  ~ all_ff key ->
  assoc (filter (in_range key (user_key_prefix_end key)) (btree_iter m)) key = m !! key.
Proof.
  intros Hff. apply option_eq. intros v.
  assert (StronglySorted entry_lt (filter (in_range key (user_key_prefix_end key)) (btree_iter m))) as Hs
    by apply StronglySorted_filter, btree_iter_sorted.
  rewrite <- elem_of_btree_iter. split.
  - intros H%assoc_in. by apply list_elem_of_filter in H as [_ H].
  - intros Hin. apply in_assoc; [done|]. apply list_elem_of_filter. split; [|done].
    split; [apply bytes_ltb_irrefl|]. simpl.
    apply (prefix_end_range key key Hff). exists []. by rewrite app_nil_r.
Qed.

Lemma NoDup_fst_filter {A B} (P : A * B -> Prop) `{!forall x, Decision (P x)} (l : list (A * B)) :
  NoDup l.*1 -> NoDup (filter P l).*1.
Proof.
  induction l as [|e l IH]; [done|]. simpl. intros Hnd. inversion Hnd as [|? ? Hn Hnd']; subst.
  rewrite filter_cons. case_decide; [|auto]. simpl. constructor; [|auto].
  intros (e' & He & Hin)%list_elem_of_fmap. apply Hn. rewrite He.
  apply list_elem_of_fmap. exists e'. split; [done|]. by apply list_elem_of_filter in Hin as [_ ?].
Qed.

Lemma consider_range_plain key m best :
  ~ all_ff key -> plain_for key m ->
  consider_entries key latest_view best
    (filter (in_range key (user_key_prefix_end key)) (btree_iter m)) =
  Ok (match m !! key with Some v => consider latest_view best (legacy v) | None => best end).
Proof.
  intros Hff Hpl. rewrite consider_entries_plain, assoc_prefix_range; [done|done| |].
  - apply NoDup_fst_filter, NoDup_btree_iter_keys.
  - intros k v Hin. apply list_elem_of_filter in Hin as [_ Hin]. apply elem_of_btree_iter in Hin.
    by apply Hpl.
Qed.

Lemma memtable_range_plain {E} t key :
  ~ all_ff key ->
  MemTable_range (E:=E) t key (user_key_prefix_end key) =
  Ok (filter (in_range key (user_key_prefix_end key)) (btree_iter (mem_map t))).
Proof.
  intros Hff. unfold MemTable_range, btree_range. rewrite range_incl_excl_ok.
  - f_equal. apply list_filter_iff. intros [k v]. unfold in_range. simpl.
    rewrite andb_true_iff, (bytes_leb_ltb key k), negb_true_iff. done.
  - apply bytes_lt_le, (prefix_end_range key key Hff). exists []. by rewrite app_nil_r.
Qed.

Lemma flatten_ok es : flatten_items (map Ok es) = es.
Proof. unfold flatten_items. induction es as [|e es IH]; [done|].
  rewrite <- IH at 2. reflexivity.
Qed.

Section lsm_reads.
Context (crc32c : bytes -> Z).

Lemma consider_tables_plain l key ms paths best :
  ~ all_ff key -> tables crc32c (l_sst l) paths ms -> Forall (plain_for key) ms ->
  (best = None \/ exists v0, best = Some (legacy v0)) ->
  consider_tables crc32c l key key (user_key_prefix_end key) latest_view best paths =
  Ok (match best with Some b => Some b | None => legacy <$> first_of ms key end).
Proof.
  intros Hff Ht. revert best. induction Ht as [|p m paths ms (file & Hf & (r & Hr & _ & _ & Hs & _) & _) Ht IH];
    intros best Hpl Hb; cbn [consider_tables first_of].
  { by destruct best. }
  inversion Hpl as [|? ? Hm Hpl']; subst.
  unfold open_table. rewrite Hf. cbn [ok_or obind]. rewrite Hr. cbn [obind]. rewrite Hs, flatten_ok.
  rewrite consider_range_plain by done. cbn [obind]. destruct (m !! key) as [v|].
  - rewrite consider_legacy by done. rewrite IH; [|done|right; destruct Hb as [->|[v0 ->]]; eauto].
    by destruct best.
  - by rewrite IH.
Qed.

Lemma get_raw_tables l key ms paths :
  tables crc32c (l_sst l) paths ms -> get_raw crc32c l key paths = Ok (first_of ms key).
Proof.
  induction 1 as [|p m paths ms (file & Hf & (r & Hr & Hg & _) & _) Ht IH]; [done|].
  cbn [get_raw first_of]. unfold get_from_sst, open_table. rewrite Hf. cbn [ok_or obind].
  rewrite Hr. cbn [obind]. rewrite Hg. cbn [obind]. by destruct (m !! key).
Qed.

Lemma get_plain l key ms :
  key <> [] -> ~ all_ff key -> tables crc32c (l_sst l) (table_paths l) ms ->
  Forall (plain_for key) (mem_map (l_active l) :: ms) ->
  LsmTree_get crc32c l key = Ok (first_of (mem_map (l_active l) :: ms) key).
Proof.
  intros Hk Hff Ht Hpl. inversion Hpl as [|? ? Hact Hms]; subst.
  assert (validate_key key = Ok tt) as Hv by (by destruct key).
  unfold LsmTree_get, MemTable_get. rewrite Hv. cbn [obind first_of].
  destruct (mem_map (l_active l) !! key) as [raw|] eqn:Ea.
  { rewrite (proj1 (Hact _ _ Ea) eq_refl). done. }
  unfold get_below, find_visible_version. rewrite memtable_range_plain by done. cbn [obind].
  rewrite consider_range_plain, Ea by done. cbn [obind].
  fold (table_paths l). rewrite (consider_tables_plain l key ms) by auto. cbn [obind].
  rewrite (get_raw_tables l key ms) by done.
  by destruct (first_of ms key).
Qed.

End lsm_reads.

(** ** The log under the tree *)

(** What a write to the log's active segment keeps. *)
Definition wal_keeps (w w' : WalSegmentManager) : Prop :=
  ws_active_id w' = ws_active_id w /\ ws_sync_mode w' = ws_sync_mode w /\
  wd_current (ws_dir w') = wd_current (ws_dir w) /\
  (forall id, is_Some (wd_segments (ws_dir w') !! id) ->
     is_Some (wd_segments (ws_dir w) !! id) \/ id = ws_active_id w) /\
  (ws_sync_mode w = EveryAppend -> all_durable (ws_dir w) -> all_durable (ws_dir w')).

#[global] Instance wal_keeps_trans : Transitive wal_keeps.
Proof.
  intros w1 w2 w3 (A1 & B1 & C1 & D1 & E1) (A2 & B2 & C2 & D2 & E2).
  split_and!; try congruence.
  - intros id [H|H]%D2; [auto|right; congruence].
  - intros Hm Hd. apply E2; [congruence|auto].
Qed.

Lemma keeps_with_active w f n :
  (ws_sync_mode w = EveryAppend -> n = len f) -> wal_keeps w (with_active w (f, n)).
Proof.
  intros Hn. split_and!; try done.
  - intros id. simpl. intros [x Hx]. apply lookup_insert_Some in Hx as [[<- _]|[_ Hx]]; eauto.
  - intros Hm Hd. rewrite (Hn Hm). by apply durable_with_active.
Qed.

Lemma sync_keeps w : wal_keeps w (WalSegmentManager_sync w).
Proof. unfold WalSegmentManager_sync. destruct (active_file w). by apply keeps_with_active. Qed.

Lemma append_keeps w e w' : WalSegmentManager_append w e = Ok w' -> wal_keeps w w'.
Proof.
  unfold WalSegmentManager_append, append_unsynced. destruct (active_file w) as [f n].
  intros H. inv_ok. case_bool_decide as Hm.
  - unfold WalSegmentManager_sync, active_file. cbn [with_active ws_dir ws_active_id set_segment wd_segments].
    rewrite lookup_insert_eq. cbn [default from_option id].
    split_and!; try done.
    + intros id. simpl. intros [y Hy]. apply lookup_insert_Some in Hy as [[<- _]|[_ Hy]]; [auto|].
      apply lookup_insert_Some in Hy as [[<- _]|[_ Hy]]; eauto.
    + intros _ Hd. intros id f' n'. simpl. rewrite insert_insert_eq, lookup_insert_Some.
      intros [[_ [= <- <-]]|[_ ?]]; eauto.
  - by apply keeps_with_active.
Qed.

Lemma log_write_ok e l es :
  holds (l_wal l) es -> entry_ok e ->
  exists w' n, log_write e l = (Ok tt, set_pending n (set_wal w' l)) /\
    holds w' (es ++ [e]) /\ wal_keeps (l_wal l) w'.
Proof.
  intros Hw He. destruct (append_ok _ _ _ Hw He) as (w1 & E1 & Hw1 & _).
  pose proof (append_keeps _ _ _ E1) as Hk.
  unfold log_write, lwal, lbind, lget, llift, lmodify. rewrite E1.
  unfold maybe_sync_wal, lbind, lget. cbn [set_pending set_wal l_config l_wal_pending].
  destruct (_ || _).
  - unfold LsmTree_sync, lwal, lbind, lget, llift, lmodify. cbn [set_pending set_wal l_wal].
    exists (WalSegmentManager_sync w1), 0. split; [done|]. split; [by apply sync_ok|].
    etrans; [exact Hk|apply sync_keeps].
  - exists w1, (l_wal_pending l + 1). done.
Qed.

(** Rotation adds one segment with an empty log and makes it current. *)
Lemma rotate_shape w es :
  holds w es -> 0 <= ws_active_id w < 2 ^ 64 - 1 ->
  rotate w = Ok (ws_active_id w,
    mkWalSegmentManager
      (mkWalDir (<[ws_active_id w + 1 := (wal_header, len wal_header)]>
                   (wd_segments (ws_dir (WalSegmentManager_sync w))))
                (Some (ws_active_id w + 1)))
      (ws_active_id w + 1) (ws_sync_mode w)).
Proof.
  intros Hw Hid. apply sync_ok in Hw. pose proof (sync_keeps w) as (Ha & Hm & _).
  unfold rotate. rewrite Ha, Hm. unfold wrap. rewrite Z.mod_small by lia.
  destruct Hw as (logs & Hseg & Hok & _ & _). unfold open_segment.
  assert (wd_segments (ws_dir (WalSegmentManager_sync w)) !! (ws_active_id w + 1) = None) as ->.
  { specialize (Hseg (ws_active_id w + 1)).
    destruct (logs !! (ws_active_id w + 1)) as [l|] eqn:E.
    - apply Hok in E as [_ E]. rewrite Ha in E. lia.
    - by destruct (wd_segments _ !! _). }
  done.
Qed.

Lemma delete_segments_lookup d ids id :
  wd_segments (fold_left delete_segment ids d) !! id =
  if bool_decide (id ∈ ids) then None else wd_segments d !! id.
Proof.
  revert d. induction ids as [|i ids IH]; intros d; [done|]. cbn [fold_left]. rewrite IH. simpl.
  destruct (decide (id = i)) as [->|Hne].
  - rewrite lookup_delete_eq. by repeat case_bool_decide; try done; set_solver.
  - rewrite lookup_delete_ne by done. do 2 case_bool_decide; try done; set_solver.
Qed.

Lemma delete_segments_current d ids : wd_current (fold_left delete_segment ids d) = wd_current d.
Proof. revert d. induction ids as [|i ids IH]; intros d; [done|]. cbn [fold_left]. by rewrite IH. Qed.

(** After the truncation the directory holds one empty log. *)
Lemma truncated_dir w es flushed :
  holds w es -> 0 <= flushed -> 0 <= ws_active_id w ->
  (forall id, is_Some (wd_segments (ws_dir w) !! id) -> flushed <= id) ->
  let a := ws_active_id w + 1 in
  wd_segments (fold_left delete_segment (seqZ flushed (ws_active_id w - flushed + 1))
    (mkWalDir (<[a := (wal_header, len wal_header)]> (wd_segments (ws_dir (WalSegmentManager_sync w))))
              (Some a))) =
  {[a := (wal_header, len wal_header)]}.
Proof.
  intros Hw Hf Hid Hseg a. apply map_eq. intros id. rewrite delete_segments_lookup.
  cbn [wd_segments]. pose proof (sync_ok _ _ Hw) as (logs & Hl & Hok & _).
  pose proof (sync_keeps w) as (Ha & _ & _ & Hs & _).
  destruct (decide (id = a)) as [->|Hne].
  - rewrite bool_decide_false by (rewrite elem_of_seqZ; unfold a; lia).
    by rewrite lookup_insert_eq, lookup_singleton_eq.
  - rewrite lookup_insert_ne, lookup_singleton_ne by done. case_bool_decide as Hin; [done|].
    destruct (wd_segments (ws_dir (WalSegmentManager_sync w)) !! id) as [[f n]|] eqn:E; [|done].
    exfalso. apply Hin. apply elem_of_seqZ.
    assert (id <= ws_active_id w).
    { specialize (Hl id). rewrite E in Hl. destruct (logs !! id) as [lg|] eqn:El; [|done].
      apply Hok in El as [_ El]. by rewrite Ha in El. }
    destruct (Hs id) as [H'| ->]; [eauto|apply Hseg in H'; lia|].
    destruct Hw as (logs' & Hl' & _ & [lg Hact] & _). specialize (Hl' (ws_active_id w)).
    rewrite Hact in Hl'. destruct (wd_segments (ws_dir w) !! ws_active_id w) eqn:E2; [|done].
    assert (flushed <= ws_active_id w) by (apply Hseg; eauto). lia.
Qed.

Lemma holds_empty a mode cur :
  holds (mkWalSegmentManager (mkWalDir {[a := (wal_header, len wal_header)]} cur) a mode) [].
Proof.
  exists {[a := []]}. cbn [ws_dir wd_segments ws_active_id]. split_and!.
  - intros id. destruct (decide (id = a)) as [->|Hne].
    + rewrite !lookup_singleton_eq. reflexivity.
    + by rewrite !lookup_singleton_ne.
  - intros id l [<- <-]%lookup_singleton_Some. split; [constructor|lia].
  - rewrite lookup_singleton_eq. eauto.
  - rewrite (btree_iter_unique _ [(a, [])]); [done|repeat constructor|].
    intros k v. rewrite list_elem_of_singleton, lookup_singleton_Some. naive_solver.
Qed.

(** ** The invariant of a tree that only takes writes *)

Section lsm_inv.
Context (crc32c : bytes -> Z) (crc32c_u32 : forall l, 0 <= crc32c l < 2 ^ 32).
Context (sizing : Z -> Z * Z) (sizing_clamped : sizing_ok sizing).

Definition manifest_ok (l : LsmTree) : Prop :=
  match l_manifest l with
  | Some m => ms_level0 m = l_level0 l /\ ms_level1 m = l_level1 l
  | None => list_sst_level (l_sst l) 0 = l_level0 l /\ list_sst_level (l_sst l) 1 = l_level1 l
  end.

(** The memtable is what replaying the log gives, the levels are tables that
    read as the maps [ms], newest first, and the disk determines all of it. *)
Record lsm_inv (l : LsmTree) (ms : list (gmap bytes bytes)) : Prop := {
  li_wf : mem_wf (l_active l);
  li_small : mem_bytes (l_active l) < max_mem_bytes (l_config l);
  li_fits : Forall entry_fits (MemTable_iter (l_active l));
  li_tables : tables crc32c (l_sst l) (table_paths l) ms;
  li_log : exists es, holds (l_wal l) es /\ log_map es ∅ = mem_map (l_active l);
  li_flushed : 0 <= l_flushed_wal_segment l;
  li_ids : forall id, is_Some (wd_segments (ws_dir (l_wal l)) !! id) -> l_flushed_wal_segment l <= id;
  li_active_id : 0 <= ws_active_id (l_wal l);
  li_current : default 1 (wd_current (ws_dir (l_wal l))) = ws_active_id (l_wal l);
  li_mode : ws_sync_mode (l_wal l) = cfg_wal_sync (l_config l);
  li_durable : cfg_wal_sync (l_config l) = EveryAppend -> all_durable (ws_dir (l_wal l));
  li_manifest : manifest_ok l;
}.

Lemma size_le_total (m : gmap bytes bytes) : m !! [] = None -> Z.of_nat (size m) <= total_bytes m.
Proof.
  induction m as [|k v m Hk IH] using map_ind; intros Hn.
  { rewrite map_size_empty. apply total_bytes_nonneg. }
  rewrite map_size_insert_None, total_bytes_insert by done.
  apply lookup_insert_None in Hn as [Hn Hkn]. specialize (IH Hn).
  unfold entry_bytes. destruct k as [|b k]; [done|]. rewrite len_cons.
  pose proof (len_nonneg k). pose proof (len_nonneg v). lia.
Qed.

Lemma memtable_new_iter : MemTable_iter MemTable_new = [].
Proof. reflexivity. Qed.

Lemma small_table_fits t :
  mem_wf t -> mem_bytes t < 2 ^ 32 -> Forall entry_fits (MemTable_iter t) -> table_fits t.
Proof.
  intros [Hb Hn] Hs Hf. split; [done|]. pose proof (size_le_total _ Hn). unfold MemTable_len. lia.
Qed.

Lemma tables_insert dir paths ms p file :
  dir !! p = None -> tables crc32c dir paths ms -> tables crc32c (<[p := file]> dir) paths ms.
Proof.
  intros Hp Ht. eapply Forall2_impl; [exact Ht|]. intros q m (f & Hf & Hr).
  exists f. split; [|done]. rewrite lookup_insert_ne; [done|]. intros ->. congruence.
Qed.

(** A flush moves the memtable to a new table of level 0 and empties the log. *)
Lemma flush_ok l ms es :
  mem_wf (l_active l) -> table_fits (l_active l) -> mem_map (l_active l) <> ∅ ->
  tables crc32c (l_sst l) (table_paths l) ms -> holds (l_wal l) es ->
  0 <= l_flushed_wal_segment l -> 0 <= ws_active_id (l_wal l) < 2 ^ 64 - 1 ->
  (forall id, is_Some (wd_segments (ws_dir (l_wal l)) !! id) -> l_flushed_wal_segment l <= id) ->
  ws_sync_mode (l_wal l) = cfg_wal_sync (l_config l) -> 0 < max_mem_bytes (l_config l) ->
  exists l', flush_active crc32c sizing l = (Ok tt, l') /\
    lsm_inv l' (mem_map (l_active l) :: ms) /\ mem_map (l_active l') = ∅ /\
    l_config l' = l_config l /\ len (l_level0 l') = len (l_level0 l) + 1 /\
    ws_active_id (l_wal l') = ws_active_id (l_wal l) + 1.
Proof.
  intros Hwf Hfit Hne Ht Hw Hf Hid Hseg Hmode Hmax.
  destruct (written_reads_as crc32c sizing (l_active l) crc32c_u32 sizing_clamped Hfit)
    as (file & Hfile & Hr).
  unfold flush_active, lbind, lget, lmodify.
  assert (MemTable_is_empty (l_active l) = false) as -> by (unfold MemTable_is_empty; by rewrite bool_decide_false).
  unfold flush_write, lbind, lget, llift, lmodify. cbn [set_memtable l_sst]. rewrite Hfile.
  unfold flush_truncate_wal, lbind, lget, llift, lmodify.
  cbn [set_memtable set_sst set_levels l_wal l_flushed_wal_segment].
  rewrite (rotate_shape _ es Hw Hid). cbn [ws_dir ws_active_id ws_sync_mode].
  unfold persist_manifest, lbind, lget, lmodify. eexists. split; [reflexivity|].
  pose proof (truncated_dir (l_wal l) es (l_flushed_wal_segment l) Hw Hf (proj1 Hid) Hseg) as Hdir.
  cbn zeta in Hdir.
  set (dir := fold_left delete_segment _ _) in *.
  assert (wd_current dir = Some (ws_active_id (l_wal l) + 1)) as Hcur
    by (unfold dir; by rewrite delete_segments_current).
  assert (dir = mkWalDir {[ws_active_id (l_wal l) + 1 := (wal_header, len wal_header)]}
                  (Some (ws_active_id (l_wal l) + 1))) as ->.
  { destruct dir as [segs cur]. simpl in *. congruence. }
  lsm_fields.
  split; [|split_and!; [done|done|len_lia|done]].
  split; lsm_fields.
  - apply mem_wf_new.
  - done.
  - rewrite memtable_new_iter. constructor.
  - unfold table_paths. lsm_fields. rewrite rev_app_distr. cbn [rev app].
    constructor; [|apply tables_insert; [apply alloc_fresh|done]].
    exists file. rewrite lookup_insert_eq. split; [done|]. split; [done|apply Hwf].
  - exists []. split; [apply holds_empty|done].
  - lia.
  - intros id [x Hx]. apply lookup_singleton_Some in Hx as [<- _]. lia.
  - lia.
  - done.
  - done.
  - intros _ id f n. simpl. intros [_ [= <- <-]]%lookup_singleton_Some. done.
  - unfold manifest_ok. simpl. done.
Qed.

(** A put that the tree takes without stalling, flushing into compaction or
    running out of segment numbers. *)
Definition put_allowed (l : LsmTree) (k v : bytes) : Prop :=
  k <> [] /\ len k < 2 ^ 16 /\ max_mem_bytes (l_config l) + len k + len v + 13 < 2 ^ 32 /\
  len (l_level0 l) < l0_stop_trigger (cfg_write_stall (l_config l)) /\
  len (l_level0 l) + 1 < l0_compaction_trigger (l_config l) /\
  ws_active_id (l_wal l) < 2 ^ 64 - 1.

Lemma mem_bytes_put t k v t' :
  mem_wf t -> MemTable_put t k v = Ok t' -> mem_bytes t' <= mem_bytes t + len k + len v.
Proof.
  intros [Hb _] Hp. unfold MemTable_put in Hp. inv_ok. destruct (mem_map t !! k) as [old|]; inv_ok; simpl.
  - unfold checked_sub in *. destruct (_ <? _); [done|]. inv_ok.
    pose proof (entry_bytes_nonneg k old). unfold entry_bytes in *. lia.
  - unfold entry_bytes. lia.
Qed.

Lemma fits_insert t t' k v :
  Forall entry_fits (MemTable_iter t) -> entry_fits (k, v) ->
  mem_map t' = <[k := v]> (mem_map t) -> Forall entry_fits (MemTable_iter t').
Proof.
  unfold MemTable_iter. rewrite !Forall_forall. intros Hf Hkv Hm [k' v']. rewrite elem_of_btree_iter, Hm.
  rewrite lookup_insert_Some. intros [[<- <-]|[_ H]]; [done|]. apply Hf. by apply elem_of_btree_iter.
Qed.

Lemma lsm_put_ok l ms k v :
  lsm_inv l ms -> put_allowed l k v ->
  exists l' ms', LsmTree_put crc32c sizing k v l = (Ok tt, l') /\ lsm_inv l' ms' /\
    l_config l' = l_config l /\
    (mem_map (l_active l') :: ms' = <[k := v]> (mem_map (l_active l)) :: ms \/
     mem_map (l_active l') :: ms' = ∅ :: <[k := v]> (mem_map (l_active l)) :: ms).
Proof.
  intros [Hwf Hsm Hfit Ht (es & Hw & Hlog) Hfl Hids Haid Hcur Hmode Hdur Hman]
    (Hk & Hk16 & Hsz & Hstop & Htrig & Hid).
  pose proof (len_nonneg k). pose proof (len_nonneg v).
  assert (0 <= mem_bytes (l_active l)) as Hb0 by (destruct Hwf as [-> _]; apply total_bytes_nonneg).
  assert (entry_ok (LogEntry_put k v)) as He by (split_and!; simpl; [done|done|lia]).
  unfold LsmTree_put, lsm_gate_write, lbind at 1 2 3, lget, llift.
  assert (exists ms, gate_write (cfg_write_stall (l_config l)) (len (l_level0 l))
    (MemTable_approx_bytes (l_active l)) (max_mem_bytes (l_config l)) = Ok ms) as [? ->].
  { unfold gate_write. destruct (_ >=? l0_stop_trigger _) eqn:E; bool_to_prop; [lia|eauto]. }
  cbn [lret]. destruct (log_write_ok _ l es Hw He) as (w1 & n & E1 & Hw1 & Hk1).
  unfold lbind at 1. rewrite E1.
  destruct (MemTable_put_ok (l_active l) k v Hwf Hk) as (t1 & Et & Hwf1 & Hm1).
  unfold active_put, lbind at 1 2 3, lget, llift, lmodify. lsm_fields. rewrite Et.
  pose proof (mem_bytes_put _ _ _ _ Hwf Et) as Hb1.
  assert (Forall entry_fits (MemTable_iter t1)) as Hf1 by (eapply fits_insert; [done| |done]; split; simpl; lia).
  destruct Hk1 as (A1 & B1 & C1 & D1 & F1).
  assert (log_map (es ++ [LogEntry_put k v]) ∅ = mem_map t1) as Hlog1.
  { unfold log_map in *. rewrite map_app, fold_left_app, Hlog, Hm1. reflexivity. }
  unfold maybe_flush_and_compact, lbind, lget. lsm_fields.
  unfold MemTable_approx_bytes. lsm_fields.
  destruct (mem_bytes t1 <? _) eqn:Efull; bool_to_prop.
  - eexists _, ms. split; [reflexivity|]. lsm_fields. rewrite Hm1. split; [|by auto].
    split; lsm_fields; try done.
    + eauto.
    + intros id [Hx| ->]%D1; [auto|]. apply Hids. destruct Hw as (logs & Hseg & _ & [lg Ha] & _).
      specialize (Hseg (ws_active_id (l_wal l))). rewrite Ha in Hseg.
      destruct (wd_segments _ !! _); [eauto|done].
    + lia.
    + by rewrite A1, C1.
    + congruence.
    + intros Hm. apply F1; [congruence|auto].
  - set (l1 := set_memtable t1 _).
    destruct (flush_ok l1 ms (es ++ [LogEntry_put k v])) as (l2 & -> & Hinv & Hemp & Hcfg & Hl0 & _);
      unfold l1; lsm_fields; try done.
    + apply small_table_fits; [done|lia|done].
    + rewrite Hm1. apply insert_non_empty.
    + lia.
    + intros id [Hx| ->]%D1; [auto|]. apply Hids. destruct Hw as (logs & Hseg & _ & [lg Ha] & _).
      specialize (Hseg (ws_active_id (l_wal l))). rewrite Ha in Hseg.
      destruct (wd_segments _ !! _); [eauto|done].
    + congruence.
    + lia.
    + unfold l1 in *. lsm_fields. rewrite Hcfg, Hl0.
      destruct (_ >=? _) eqn:E; bool_to_prop; [lia|].
      eexists _, _. split; [reflexivity|]. split; [exact Hinv|]. split; [done|].
      right. by rewrite Hemp, Hm1.
Qed.

(** Reopening the directory, also after a crash that loses what was not synced. *)
Lemma lsm_reopen_ok l ms d' :
  lsm_inv l ms -> cfg_wal_sync (l_config l) = EveryAppend -> crash_dir (ws_dir (l_wal l)) d' ->
  exists l', LsmTree_open (mkLsmDisk d' (l_sst l) (l_manifest l)) (l_config l) = Ok l' /\
    lsm_inv l' ms /\ mem_map (l_active l') = mem_map (l_active l) /\ l_config l' = l_config l.
Proof.
  intros [Hwf Hsm Hfit Ht (es & (logs & Hseg & Hok & Hact & Hes) & Hlog) Hfl Hids Haid Hcur Hmode Hdur Hman]
    Hev Hcrash.
  pose proof (crash_durable _ _ (Hdur Hev) Hcrash) as Hsame.
  assert (forall id, fst <$> wd_segments d' !! id = log_file <$> logs !! id) as Hseg'
    by (intros id; by rewrite Hsame).
  unfold LsmTree_open. cbn [ld_wal ld_sst ld_manifest].
  destruct (replay_dir_wf d' logs Hseg') as (t & Et & Htw & Htm); [intros id lg Hl; by eapply Hok|].
  rewrite Et. cbn [obind].
  assert (wd_current d' = wd_current (ws_dir (l_wal l))) as Hc' by apply Hcrash.
  destruct (reopen_dir d' logs (cfg_wal_sync (l_config l)) Hseg') as (w & Ew & Hw & Haw & Hmw & Hdw).
  { intros id lg Hl. rewrite Hc', Hcur. by apply Hok. }
  { by rewrite Hc', Hcur. }
  rewrite Ew. cbn [obind]. eexists. split; [reflexivity|]. lsm_fields.
  assert (mem_map t = mem_map (l_active l)) as Hmt by congruence.
  assert (mem_bytes t = mem_bytes (l_active l)) as Hbt
    by (destruct Htw as [-> _], Hwf as [-> _]; by rewrite Hmt).
  split; [|done].
  split; lsm_fields; rewrite ?Hdw, ?Hbt; try done.
  - unfold MemTable_iter in *. by rewrite Hmt.
  - unfold table_paths, manifest_ok in *. lsm_fields. destruct (l_manifest l); by destruct Hman as [-> ->].
  - rewrite Hmt. exists (concat (map snd (btree_iter logs))). split; [done|]. congruence.
  - intros id [x Hx]. specialize (Hsame id). rewrite Hx in Hsame.
    destruct (wd_segments (ws_dir (l_wal l)) !! id) eqn:E; [|done].
    assert (l_flushed_wal_segment l <= id) by eauto. lia.
  - rewrite Haw, Hc', Hcur. done.
  - intros _ id f n Hl. destruct Hcrash as [_ Hcr]. specialize (Hcr id).
    destruct (wd_segments (ws_dir (l_wal l)) !! id) as [[f0 n0]|]; [|congruence].
    destruct Hcr as (m & _ & Hm). rewrite Hl in Hm. by injection Hm as -> ->.
  - unfold manifest_ok in *. lsm_fields. destruct (l_manifest l); [done|]. done.
Qed.

End lsm_inv.

(** ** Histories of writes and crashes *)

Definition fresh_disk : lsm_disk := mkLsmDisk fresh_dir ∅ None.

Section lsm_histories.
Context (crc32c : bytes -> Z) (sizing : Z -> Z * Z) (cfg : LsmConfig).

(** The tree [l] after some puts and crashes, and the map that the puts build.
    A crash loses any part of the log that was not synced; tables and the
    manifest are synced before an operation returns. *)
Inductive lsm_reaches : LsmTree -> gmap bytes bytes -> Prop :=
| reaches_open l :
    LsmTree_open fresh_disk cfg = Ok l -> lsm_reaches l ∅
| reaches_put l m k v r l' :
    lsm_reaches l m -> put_allowed l k v -> starts_with MAGIC v = false ->
    LsmTree_put crc32c sizing k v l = (r, l') -> lsm_reaches l' (<[k := v]> m)
| reaches_crash l m d' l' :
    lsm_reaches l m -> crash_dir (ws_dir (l_wal l)) d' ->
    LsmTree_open (mkLsmDisk d' (l_sst l) (l_manifest l)) cfg = Ok l' -> lsm_reaches l' m.

Context (crc32c_u32 : forall l, 0 <= crc32c l < 2 ^ 32) (sizing_clamped : sizing_ok sizing).
Context (cfg_synced : cfg_wal_sync cfg = EveryAppend) (cfg_mem : 0 < max_mem_bytes cfg).

Lemma fresh_inv l :
  LsmTree_open fresh_disk cfg = Ok l ->
  lsm_inv crc32c l [] /\ l_config l = cfg /\ mem_map (l_active l) = ∅.
Proof.
  destruct (open_fresh (cfg_wal_sync cfg)) as (w & Ew & Hw & Hid & Hm & Hd).
  assert (w = mkWalSegmentManager (mkWalDir (<[1 := (wal_header, len wal_header)]> ∅) None) 1
                (cfg_wal_sync cfg)) as Hfresh.
  { assert (open_with_sync fresh_dir (cfg_wal_sync cfg) = Ok (mkWalSegmentManager
      (mkWalDir (<[1 := (wal_header, len wal_header)]> ∅) None) 1 (cfg_wal_sync cfg))) as E by reflexivity.
    rewrite E in Ew. by injection Ew as <-. }
  unfold LsmTree_open. cbn [fresh_disk ld_wal ld_sst ld_manifest].
  change (replay_all (Some fresh_dir) MemTable_new) with (@Ok StorageError _ (0, MemTable_new)).
  cbn [obind]. rewrite Ew. cbn [obind]. intros [= <-]. split; [|done].
  split; lsm_fields; try done.
  - unfold table_paths. lsm_fields. constructor.
  - exists []. done.
  - intros id [x Hx]. rewrite Hfresh in Hx. lsm_fields.
    apply lookup_insert_Some in Hx as [[<- _]|[_ Hx]]; [lia|by rewrite lookup_empty in Hx].
  - lia.
  - by rewrite Hfresh.
Qed.

(** What the invariant says of a reached tree. *)
Definition represents (l : LsmTree) (ms : list (gmap bytes bytes)) (m : gmap bytes bytes) : Prop :=
  (forall k, first_of (mem_map (l_active l) :: ms) k = m !! k) /\
  Forall (fun t => forall k v, t !! k = Some v -> starts_with MAGIC v = false /\ is_Some (m !! k))
         (mem_map (l_active l) :: ms).

Lemma represents_put (act m : gmap bytes bytes) (ms : list (gmap bytes bytes)) (k v : bytes) :
  (forall x, first_of (act :: ms) x = m !! x) ->
  forall x, first_of (<[k := v]> act :: ms) x = <[k := v]> m !! x.
Proof.
  intros H x. specialize (H x). simpl in *. destruct (decide (x = k)) as [->|Hne].
  - by rewrite !lookup_insert_eq.
  - by rewrite !lookup_insert_ne.
Qed.

Lemma reaches_inv l m :
  lsm_reaches l m ->
  exists ms, lsm_inv crc32c l ms /\ l_config l = cfg /\ represents l ms m.
Proof.
  induction 1 as [l Ho|l m k v r l' Hr (ms & Hinv & Hcfg & Hrep & Hpl) Hal Hv Hput
                 |l m d' l' Hr (ms & Hinv & Hcfg & Hrep & Hpl) Hcrash Ho].
  - destruct (fresh_inv l Ho) as (Hinv & Hcfg & Hemp). exists []. split; [done|]. split; [done|].
    unfold represents. rewrite Hemp. split; [intros k; simpl; by rewrite lookup_empty|].
    apply Forall_singleton. intros k v. by rewrite lookup_empty.
  - destruct (lsm_put_ok crc32c crc32c_u32 sizing sizing_clamped l ms k v Hinv Hal)
      as (l2 & ms' & E & Hinv' & Hcfg' & Hshape).
    rewrite E in Hput. injection Hput as <- <-. exists ms'. split; [done|]. split; [congruence|].
    assert (Forall (fun t => forall x y, t !! x = Some y ->
              starts_with MAGIC y = false /\ is_Some (<[k := v]> m !! x))
              (<[k := v]> (mem_map (l_active l)) :: ms)) as Hpl'.
    { inversion Hpl as [|? ? Ha Hms]; subst. constructor.
      - intros x y. rewrite lookup_insert_Some. intros [[<- <-]|[Hne Hx]].
        + rewrite lookup_insert_eq. eauto.
        + rewrite lookup_insert_ne by done. eauto.
      - eapply Forall_impl; [exact Hms|]. intros t Ht x y Hx. destruct (Ht x y Hx) as [? ?].
        split; [done|]. destruct (decide (k = x)) as [<-|?]; [rewrite lookup_insert_eq; eauto|].
        by rewrite lookup_insert_ne. }
    pose proof (represents_put _ _ _ k v Hrep) as Hput.
    unfold represents. destruct Hshape as [->| ->]; [done|]. split.
    + intros x. rewrite <- Hput. cbn [first_of]. by rewrite lookup_empty.
    + constructor; [|done]. intros x y. by rewrite lookup_empty.
  - destruct (lsm_reopen_ok crc32c l ms d' Hinv) as (l2 & E & Hinv' & Hmap & Hcfg'); [congruence|done|].
    rewrite Hcfg in E. rewrite E in Ho. injection Ho as <-. exists ms. split; [done|]. split; [congruence|].
    unfold represents. by rewrite Hmap.
Qed.

End lsm_histories.

(** ** Theorems *)

(** C9. The tree stores what is put into it, across flushes and crashes between calls.  Take
    any history of puts and crashes on a fresh directory, with a log that is synced at
    every append.  Every put is one that the tree takes without stalling or compacting
    ([put_allowed]): a key that is not empty and shorter than 2^16 bytes, with a memtable
    limit, key and value that together stay below 2^32 bytes, before the level-0 tables
    reach the stop trigger or one less than the compaction trigger; and its value does not
    begin with the bytes MVCC, which mark a version.  Then every read of a key (not all
    0xFF bytes, and no stored key being this key and eight more bytes) returns the last
    value put, no such put fails, and after a crash at any point between two puts the
    tree opens again. *)
Theorem lsm_refines_map crc32c sizing cfg l m :
  (forall b, 0 <= crc32c b < 2 ^ 32) -> sizing_ok sizing ->
  cfg_wal_sync cfg = EveryAppend -> 0 < max_mem_bytes cfg ->
  lsm_reaches crc32c sizing cfg l m ->
  (forall key, key <> [] -> ~ all_ff key ->
     (forall k, is_Some (m !! k) -> decode_user_key k = key -> k = key) ->
     LsmTree_get crc32c l key = Ok (m !! key)) /\
  (forall k v, put_allowed l k v -> exists l', LsmTree_put crc32c sizing k v l = (Ok tt, l')) /\
  (forall d', crash_dir (ws_dir (l_wal l)) d' ->
     exists l', LsmTree_open (mkLsmDisk d' (l_sst l) (l_manifest l)) cfg = Ok l').
Proof.
  intros Hcrc Hsz Hsync Hmem Hr.
  destruct (reaches_inv crc32c sizing cfg Hcrc Hsz Hsync Hmem l m Hr) as (ms & Hinv & Hcfg & Hrep & Hpl).
  split; [|split].
  - intros key Hk Hff Hamb. rewrite (get_plain crc32c l key ms Hk Hff (li_tables _ _ _ Hinv)).
    + by rewrite Hrep.
    + eapply Forall_impl; [exact Hpl|]. intros t Ht k v Hkv. destruct (Ht k v Hkv). split; auto.
  - intros k v Hal.
    destruct (lsm_put_ok crc32c Hcrc sizing Hsz l ms k v Hinv Hal) as (l' & ms' & E & _). eauto.
  - intros d' Hd. destruct (lsm_reopen_ok crc32c l ms d' Hinv) as (l' & E & _); [congruence|done|].
    rewrite Hcfg in E. eauto.
Qed.

(** A tree that flushes at every put. *)
Definition tiny_config : LsmConfig :=
  mkLsmConfig 1 4 EveryAppend phase3_default 1 WriteStallConfig_default.

Definition demo_put := LsmTree_put crc32 demo_sizing.
Definition demo_delete := LsmTree_delete crc32 demo_sizing.

(** Run an operation on a fresh tree and look at the tree it leaves. *)
Definition on_fresh {A B} (cfg : LsmConfig) (p : LM A) (obs : A -> LsmTree -> outcome StorageError B)
    : outcome StorageError B :=
  let? l := LsmTree_open fresh_disk cfg in
  match p l with
  | (Ok a, l') => obs a l'
  | (Err e, _) => Err e
  | (Panic, _) => Panic
  end.

Definition tree_after {A} (cfg : LsmConfig) (p : LM A) : option LsmTree :=
  match on_fresh cfg p (fun _ l => Ok l) with Ok l => Some l | _ => None end.

Lemma lsm_refines_map_witness :
  exists l, tree_after tiny_config (let& _ := demo_put (bs "k") (bs "9") in demo_put (bs "k") (bs "10"))
              = Some l /\
    len (l_level0 l) = 2 /\ LsmTree_get crc32 l (bs "k") = Ok (Some (bs "10")).
Proof.
  eexists. split; [vm_compute; reflexivity|]. split; [reflexivity|].
  match goal with |- LsmTree_get _ ?l0 _ = _ => set (l := l0) end.
  assert (lsm_reaches crc32 demo_sizing tiny_config l
            (<[bs "k" := bs "10"]> (<[bs "k" := bs "9"]> ∅))) as Hr.
  { eapply reaches_put; [eapply reaches_put; [apply reaches_open; vm_compute; reflexivity|..]|..].
    - vm_compute. repeat split; discriminate.
    - reflexivity.
    - vm_compute. reflexivity.
    - vm_compute. repeat split; discriminate.
    - reflexivity.
    - vm_compute. reflexivity. }
  refine (eq_trans (proj1 (lsm_refines_map crc32 demo_sizing tiny_config l _ crc32_range
    demo_sizing_ok _ _ Hr) (bs "k") _ _ _) _).
  - reflexivity.
  - reflexivity.
  - discriminate.
  - apply not_all_ff. reflexivity.
  - intros k [v Hv] Hdec. apply lookup_insert_Some in Hv as [[<- _]|[_ Hv]]; [reflexivity|].
    apply lookup_insert_Some in Hv as [[<- _]|[_ Hv]]; [reflexivity|]. by rewrite lookup_empty in Hv.
  - reflexivity.
Defined.

(** A put is lost after a delete: once a flushed key has been deleted, the
    tombstone version shadows every later plain value of the key as soon as it
    leaves the memtable.  Here the last put returns [Ok], and a read of the key
    right after it finds nothing. *)
Theorem put_after_delete_lost :
  on_fresh tiny_config
    (let& _ := demo_put (bs "k") (bs "v1") in
     let& removed := demo_delete (bs "k") in
     let& _ := demo_put (bs "k") (bs "v2") in
     lret removed)
    (fun removed l => let? v := LsmTree_get crc32 l (bs "k") in Ok (removed, v)) =
  Ok (true, None).
Proof. vm_compute. reflexivity. Qed.

(** Compaction reverts an overwrite: of the two values put for a key, the
    merge keeps the larger one, and the tree reads the older value back after
    the compaction, although it read the newer one before. *)
Theorem compaction_reverts_overwrite :
  let puts2 := (let& _ := demo_put (bs "k") (bs "9") in demo_put (bs "k") (bs "10")) in
  let puts4 := (let& _ := puts2 in
                let& _ := demo_put (bs "x") (bs "1") in demo_put (bs "y") (bs "1")) in
  on_fresh tiny_config puts2 (fun _ l => LsmTree_get crc32 l (bs "k")) = Ok (Some (bs "10")) /\
  on_fresh tiny_config puts4 (fun _ l => LsmTree_get crc32 l (bs "k")) = Ok (Some (bs "9")).
Proof. split; vm_compute; reflexivity. Qed.

(** Reopen what an operation left on disk, and read. *)
Definition reopen_get (cfg : LsmConfig) (l : LsmTree) (key : bytes) : outcome StorageError (option bytes) :=
  let? l' := LsmTree_open (disk_of l) cfg in LsmTree_get crc32 l' key.

Definition small_config : LsmConfig :=
  mkLsmConfig 4 4 EveryAppend phase3_default 1 WriteStallConfig_default.

(** A crash during a flush loses acknowledged writes: the log segments are
    deleted before the manifest names the new table.  The put of [c] returned
    with its log record synced and is readable, also after a crash; if the
    process stops in the next put's flush, between the truncation of the log and
    the manifest, the key is gone after reopening. *)
Theorem crash_in_flush_loses_writes :
  let puts := (let& _ := demo_put (bs "a") (bs "v1") in
               let& _ := demo_put (bs "b") (bs "v2") in demo_put (bs "c") (bs "v3")) in
  let half_put := (let& _ := puts in
                   let& _ := log_write (LogEntry_put (bs "d") (bs "v4")) in
                   let& _ := active_put (bs "d") (bs "v4") in
                   let& l := lget in
                   let& _ := lmodify (set_memtable MemTable_new) in
                   let& _ := flush_write crc32 demo_sizing (l_active l) in
                   flush_truncate_wal) in
  on_fresh small_config puts (fun _ l => reopen_get small_config l (bs "c")) = Ok (Some (bs "v3")) /\
  on_fresh small_config half_put (fun _ l => reopen_get small_config l (bs "c")) = Ok None.
Proof. split; vm_compute; reflexivity. Qed.

(** A crash during a compaction makes every key of level 0 unreadable: the
    input files are removed before the manifest stops naming them, so that after
    reopening a read fails with an I/O error, while the merged table that holds
    the key is on disk and unnamed. *)
Theorem crash_in_compaction_breaks_reads :
  let puts := (let& _ := demo_put (bs "a") (bs "v1") in
               let& _ := demo_put (bs "b") (bs "v2") in demo_put (bs "c") (bs "v3")) in
  let half_compaction := (let& _ := puts in
                          let& l := lget in
                          let '(r, dir) := compact_level0_to_l1 crc32 demo_sizing (l_sst l) (l_level0 l) in
                          lmodify (set_sst dir)) in
  on_fresh tiny_config puts (fun _ l => reopen_get tiny_config l (bs "a")) = Ok (Some (bs "v1")) /\
  on_fresh tiny_config half_compaction (fun _ l => reopen_get tiny_config l (bs "a")) =
    Err (Io "No such file or directory (os error 2)").
Proof. split; vm_compute; reflexivity. Qed.
