(* ===== verification/LsmScan.v ===== *)
(** * Scans of the LSM tree (crates/noedb-storage/src/lsm.rs: [merge_visible_fold],
      [range_visible], [range_visible_keys], [scan_windows]; lsm_mvcc.rs:
      [gc_mvcc_active]) and the cache of table readers (lsm.rs: [sst_cache])

    A scan collects every visible version in the windows of the range, sorts by
    user key and then newest first, and keeps the head of each run.  The sort is
    [sort_unstable_by]: any function that returns a sorted permutation.  [Lsm] opens the
    file of a table for every read; the last part adds the cache and shows that it makes
    no difference. *)

From S2P Require Import Prelude BTree StorageError Mvcc MemTable Wal Filter SSTable Compaction Lsm.

(** ** scan_windows *)

Definition ff (n : nat) : bytes := replicate n xff.

Definition scan_windows (start end_ : bytes) : list (bytes * bytes) :=
  match end_ with
  | [] => [(start, ff 64)]
  | _ =>
      (start, end_) ::
      omap (fun plen =>
              let p := take plen end_ in
              if bytes_leb start p && bytes_ltb p end_ then Some (p, p ++ ff 9) else None)
           (seq 1 (length end_ - 1))
  end.

(** ** The merge *)

(** A visible version: user key, commit timestamp, deleted, payload. *)
Abbreviation candidate W := (bytes * Z * bool * W)%type.
Definition c_user {W} (c : candidate W) : bytes := c.1.1.1.
Definition c_ts {W} (c : candidate W) : Z := c.1.1.2.

Section scan.
Context (crc32c : bytes -> Z).
Context {W : Type} (wrap_value : bytes -> W).
Context (sort : list (candidate W) -> list (candidate W)).

(** [ingest]: the candidate that an internal entry contributes, if any. *)
Definition ingest (view : ReadView) (bounds : option (bytes * bytes)) (ik raw : bytes)
    : outcome StorageError (option (candidate W)) :=
  let is_mvcc := starts_with MAGIC raw && (len ik >? 8) in
  let? decoded := (if is_mvcc then decode_version_ref raw else Ok (Some (1, false, raw))) in
  match decoded with
  | None => Ok None
  | Some (commit_ts, deleted, value) =>
      let user := if is_mvcc then decode_user_key ik else ik in
      let outside := match bounds with
                     | Some (start, end_) =>
                         bytes_ltb user start || (negb (bool_decide (end_ = [])) && bytes_leb end_ user)
                     | None => false
                     end in
      if outside then Ok None
      else if (commit_ts =? 0) || (commit_ts >? snapshot_ts view) then Ok None
      else Ok (Some (user, commit_ts, deleted, wrap_value value))
  end.

Fixpoint ingest_all (view : ReadView) (bounds : option (bytes * bytes)) (es : list (bytes * bytes))
    : outcome StorageError (list (candidate W)) :=
  match es with
  | [] => Ok []
  | (ik, raw) :: es' =>
      let? c := ingest view bounds ik raw in
      let? cs := ingest_all view bounds es' in
      Ok (match c with Some c => c :: cs | None => cs end)
  end.

(** The entries of one table: a scan per window, or a full scan; a table that
    cannot be opened or scanned is skipped. *)
Fixpoint scan_windows_of (r : SstReader) (windows : list (bytes * bytes)) : outcome StorageError (list (bytes * bytes)) :=
  match windows with
  | [] => Ok []
  | (lo, hi) :: windows' =>
      let? es := match SstReader_scan_range crc32c r lo hi with
                 | Ok items => Ok (flatten_items items)
                 | Err _ => Ok []
                 | Panic => Panic
                 end in
      let? rest := scan_windows_of r windows' in
      Ok (es ++ rest)
  end.

Definition table_entries (l : LsmTree) (windows : option (list (bytes * bytes))) (path : sst_path)
    : outcome StorageError (list (bytes * bytes)) :=
  match open_table (l_sst l) path with
  | Ok r =>
      match windows with
      | Some windows => scan_windows_of r windows
      | None => match SstReader_scan crc32c r with
                | Ok items => Ok (flatten_items items)
                | Err _ => Ok []
                | Panic => Panic
                end
      end
  | Err _ => Ok []
  | Panic => Panic
  end.

Fixpoint tables_entries (l : LsmTree) (windows : option (list (bytes * bytes))) (paths : list sst_path)
    : outcome StorageError (list (bytes * bytes)) :=
  match paths with
  | [] => Ok []
  | p :: paths' =>
      let? es := table_entries l windows p in
      let? rest := tables_entries l windows paths' in
      Ok (es ++ rest)
  end.

Fixpoint memtable_windows (t : MemTable) (windows : list (bytes * bytes))
    : outcome StorageError (list (bytes * bytes)) :=
  match windows with
  | [] => Ok []
  | (lo, hi) :: windows' =>
      let? es := MemTable_range t lo hi in
      let? rest := memtable_windows t windows' in
      Ok (es ++ rest)
  end.

(** [out.last().is_none_or(|(prev, _)| prev != &user)] over the sorted list *)
Fixpoint dedup_runs (last : option bytes) (cs : list (candidate W)) : list (candidate W) :=
  match cs with
  | [] => []
  | c :: cs' =>
      if bool_decide (last = Some (c_user c)) then dedup_runs last cs'
      else c :: dedup_runs (Some (c_user c)) cs'
  end.

Definition merge_visible_fold (l : LsmTree) (view : ReadView) (bounds : option (bytes * bytes))
    : outcome StorageError (list (candidate W)) :=
  let windows := match bounds with
                 | Some (start, end_) => Some (scan_windows start end_)
                 | None => None
                 end in
  let? from_tables := tables_entries l windows (l_level1 l ++ l_level0 l) in
  let? from_memtable := match windows with
                        | Some windows => memtable_windows (l_active l) windows
                        | None => Ok (MemTable_iter (l_active l))
                        end in
  let? candidates := ingest_all view bounds (from_tables ++ from_memtable) in
  Ok (dedup_runs None (sort candidates)).

End scan.

Definition live_pairs (cs : list (candidate bytes)) : list (bytes * bytes) :=
  omap (fun c : candidate bytes => let '(k, _, deleted, v) := c in if deleted then None else Some (k, v)) cs.

Definition range_visible crc32c sort (l : LsmTree) (start end_ : bytes) (view : ReadView)
    : outcome StorageError (list (bytes * bytes)) :=
  let? cs := merge_visible_fold crc32c (fun v => v) sort l view (Some (start, end_)) in
  Ok (live_pairs cs).

Definition range_visible_keys crc32c sort (l : LsmTree) (start end_ : bytes) (view : ReadView)
    : outcome StorageError (list bytes) :=
  let? cs := merge_visible_fold crc32c (fun _ => tt) sort l view (Some (start, end_)) in
  Ok (omap (fun c : candidate unit => let '(k, _, deleted, _) := c in if deleted then None else Some k) cs).

Definition LsmTree_iter crc32c sort (l : LsmTree) : outcome StorageError (list (bytes * bytes)) :=
  let? cs := merge_visible_fold crc32c (fun v => v) sort l latest_view None in
  Ok (live_pairs cs).

Definition LsmTree_range crc32c sort (l : LsmTree) (start end_ : bytes)
    : outcome StorageError (list (bytes * bytes)) :=
  range_visible crc32c sort l start end_ latest_view.

(** ** Garbage collection of the memtable *)

Definition newest_ts (latest : gmap bytes Z) (e : bytes * bytes) : gmap bytes Z :=
  match decode_or_legacy e.2 with
  | Ok v =>
      let uk := decode_user_key e.1 in
      let slot := default 0 (latest !! uk) in
      <[uk := if v_commit_ts v >? slot then v_commit_ts v else slot]> latest
  | _ => latest
  end.

Definition gc_eligible (latest : gmap bytes Z) (min_retain_ts : Z) (e : bytes * bytes) : bool :=
  match decode_or_legacy e.2 with
  | Ok v =>
      let is_latest := bool_decide (latest !! decode_user_key e.1 = Some (v_commit_ts v)) in
      (v_commit_ts v >? 0) && (v_commit_ts v <? min_retain_ts) && negb is_latest
  | _ => false
  end.

(** [let _ = self.active.delete(&ik)] for every collected key *)
Definition drop_key (t : MemTable) (ik : bytes) : MemTable :=
  match MemTable_delete t ik with Ok (_, t') => t' | _ => t end.

Definition gc_mvcc_active (min_retain_ts : Z) (l : LsmTree) : Z * LsmTree :=
  let es := MemTable_iter (l_active l) in
  let latest := fold_left newest_ts es ∅ in
  let keys := map fst (filter (fun e => gc_eligible latest min_retain_ts e = true) es) in
  (len keys, set_memtable (fold_left drop_key keys (l_active l)) l).

(** ** The windows cover the range *)

Lemma prefix_of_end (user end_ s : bytes) :
  bytes_lt user end_ -> bytes_le end_ (user ++ s) -> exists t, t <> [] /\ end_ = user ++ t.
Proof.
  revert end_. induction user as [|b user IH]; intros [|c end_] Hlt Hle; try done.
  { by exists (c :: end_). }
  unfold bytes_ltb, bytes_leb in Hlt, Hle. cbn [app bytes_cmp] in Hlt, Hle.
  destruct (b2z b ?= b2z c) eqn:E; [apply Z.compare_eq_iff, b2z_inj in E as <-|..].
  - rewrite Z.compare_refl in Hle. destruct (IH end_) as (t & Ht & ->); [done..|]. by exists t.
  - rewrite (Z.compare_antisym (b2z b) (b2z c)), E in Hle. done.
  - done.
Qed.

Lemma le_ff n s : (length s <= n)%nat -> bytes_lt s (ff (S n)).
Proof.
  revert s. induction n as [|n IH]; intros [|b s] Hs; simpl in Hs; [done|lia|done|].
  unfold bytes_ltb, ff. cbn [replicate bytes_cmp]. change (b2z xff) with 255.
  pose proof (b2z_range b). destruct (b2z b ?= 255) eqn:E.
  - specialize (IH s ltac:(lia)). unfold bytes_ltb, ff in IH. exact IH.
  - done.
  - apply Z.compare_gt_iff in E. lia.
Qed.

Lemma bytes_lt_app (p a b : bytes) : bytes_lt a b -> bytes_lt (p ++ a) (p ++ b).
Proof. unfold bytes_ltb. by rewrite bytes_cmp_app. Qed.

(** Every stored key of a user key in the range lies in a window: the bare key,
    or the key with an eight-byte timestamp. *)
Lemma scan_windows_cover start end_ user s :
  end_ <> [] -> user <> [] -> bytes_le start user -> bytes_lt user end_ -> (length s <= 8)%nat ->
  exists lo hi, (lo, hi) ∈ scan_windows start end_ /\
    bytes_le lo (user ++ s) /\ bytes_lt (user ++ s) hi.
Proof.
  intros He Hu Hs Hlt Hl. unfold scan_windows. destruct end_ as [|b0 end0]; [done|].
  set (end_ := b0 :: end0) in *.
  assert (bytes_le user (user ++ s)) as Happ by apply bytes_le_app.
  destruct (bytes_ltb (user ++ s) end_) eqn:Ein.
  { exists start, end_. split; [left|]. split; [by eapply bytes_le_trans|done]. }
  assert (bytes_le end_ (user ++ s)) as Hge by (rewrite bytes_leb_ltb, Ein; done).
  destruct (prefix_of_end user end_ s Hlt Hge) as (t & Ht & Et).
  exists user, (user ++ ff 9). split; [|split; [done|by apply bytes_lt_app, le_ff]].
  right. apply list_elem_of_omap. exists (length user).
  assert (take (length user) end_ = user) as Htake by (rewrite Et; apply take_app_length).
  rewrite Htake, Hs, Hlt. split; [|done]. apply elem_of_seq.
  assert (length end_ = length user + length t)%nat as Hlen by (rewrite Et; apply length_app).
  destruct user; [done|]. destruct t; [done|]. cbn [length] in *. lia.
Qed.

Lemma scan_windows_ordered start end_ lo hi :
  end_ <> [] -> bytes_le start end_ -> (lo, hi) ∈ scan_windows start end_ -> bytes_le lo hi.
Proof.
  intros He Hse. unfold scan_windows. destruct end_ as [|b0 end0]; [done|].
  intros [[= -> ->]|H]%elem_of_cons; [done|].
  apply list_elem_of_omap in H as (n & _ & E). destruct (_ && _); [|done]. injection E as <- <-.
  apply bytes_le_app.
Qed.

(** ** Sorted runs *)

Section runs.
Context {W : Type}.

Definition cand_le (a b : candidate W) : Prop :=
  bytes_lt (c_user a) (c_user b) \/ c_user a = c_user b /\ c_ts b <= c_ts a.

(** What [sort_unstable_by] promises. *)
Definition sorts (sort : list (candidate W) -> list (candidate W)) : Prop :=
  forall cs, sort cs ≡ₚ cs /\ StronglySorted cand_le (sort cs).

Definition user_lt (a b : candidate W) : Prop := bytes_lt (c_user a) (c_user b).

(** The newest of each user key among [all], in ascending order of the key. *)
Definition newest_per_key (all : candidate W -> Prop) (out : list (candidate W)) : Prop :=
  StronglySorted user_lt out /\
  (forall c, c ∈ out -> all c /\ forall c', all c' -> c_user c' = c_user c -> c_ts c' <= c_ts c) /\
  (forall c', all c' -> exists c, c ∈ out /\ c_user c = c_user c').

Lemma dedup_runs_spec (last : option bytes) (cs : list (candidate W)) :
  StronglySorted cand_le cs -> (forall u c, last = Some u -> c ∈ cs -> bytes_le u (c_user c)) ->
  newest_per_key (fun c => c ∈ cs /\ last <> Some (c_user c)) (dedup_runs last cs).
Proof.
  intros Hs. revert last. induction Hs as [|c cs Hs IH Hall]; intros last Hlast.
  { split; [constructor|]. split; [by intros c ?%elem_of_nil|by intros c [?%elem_of_nil _]]. }
  rewrite Forall_forall in Hall. cbn [dedup_runs]. case_bool_decide as Hl.
  - destruct (IH last) as (H1 & H2 & H3); [intros; apply Hlast; [done|by right]|].
    split; [done|]. split.
    + intros x Hx. destruct (H2 x Hx) as [[Hin Hne] Hmax]. split; [split; [by right|done]|].
      intros c' [[->|Hc']%elem_of_cons Hn] Hu; [congruence|]. by apply Hmax.
    + intros c' [[->|Hc']%elem_of_cons Hn]; [done|]. by apply H3.
  - assert (forall x, x ∈ cs -> bytes_le (c_user c) (c_user x)) as Hge.
    { intros x Hx. destruct (Hall x Hx) as [?|[-> _]]; [by apply bytes_lt_le|apply bytes_leb_refl]. }
    destruct (IH (Some (c_user c))) as (H1 & H2 & H3); [intros u x [= <-] Hx; auto|].
    split; [|split].
    + constructor; [done|]. apply Forall_forall. intros x Hx. destruct (H2 x Hx) as [[Hin Hne] _].
      specialize (Hge x Hin). apply bytes_le_lt_eq in Hge as [?|E]; [done|]. congruence.
    + intros x [->|Hx]%elem_of_cons.
      * split; [split; [left|done]|]. intros c' [[->|Hc']%elem_of_cons _] Hu; [lia|].
        destruct (Hall c' Hc') as [Hlt|[_ ?]]; [|done]. rewrite Hu in Hlt.
        by rewrite bytes_ltb_irrefl in Hlt.
      * destruct (H2 x Hx) as [[Hin Hne] Hmax]. split.
        { split; [by right|]. intros Hx'. specialize (Hlast _ c Hx' ltac:(left)).
          specialize (Hge x Hin). apply Hne. f_equal. by apply bytes_le_antisym. }
        intros c' [[->|Hc']%elem_of_cons Hn] Hu; [congruence|]. apply Hmax; [|done].
        split; [done|congruence].
    + intros c' [[->|Hc']%elem_of_cons Hn]; [exists c; split; [left|done]|].
      destruct (decide (c_user c' = c_user c)) as [E|Hne].
      * exists c. split; [left|done].
      * destruct (H3 c') as (x & Hx & Hu); [split; [done|congruence]|]. exists x. split; [by right|done].
Qed.

End runs.

(** ** What a scan sees *)

Lemma decode_ref_total b : exists o, decode_version_ref b = Ok o.
Proof.
  unfold decode_version_ref. destruct (len b <? VERSION_HEADER) eqn:E; bool_to_prop; [eauto|].
  rewrite version_header_value in E.
  destruct (slice_in_bounds b 0 (len MAGIC)) as [m Hm]; [rewrite ?len_MAGIC; lia..|].
  unfold index_range. rewrite Hm. cbn [obind]. destruct (negb _); [eauto|].
  destruct (index_in_bounds (E:=StorageError) b (len MAGIC)) as [f ->]; [rewrite len_MAGIC; lia|]. cbn [obind].
  destruct (negb _); [eauto|]. destruct (slice b _ 8); [|eauto].
  destruct (index_in_bounds (E:=StorageError) b (len MAGIC + 1 + 8)) as [d ->]; [rewrite len_MAGIC; lia|].
  cbn [obind]. destruct (slice b _ 4); [|eauto]. destruct (slice b _ (le_val _)); eauto.
Qed.

Section scan_spec.
Context (crc32c : bytes -> Z) {W : Type} (wrap_value : bytes -> W).
Context (sort : list (candidate W) -> list (candidate W)) (sort_sorts : sorts sort).

Lemma ingest_total view bounds ik raw : exists o, ingest wrap_value view bounds ik raw = Ok o.
Proof.
  unfold ingest. destruct (starts_with MAGIC raw && (len ik >? 8)).
  - destruct (decode_ref_total raw) as [[[[ts del] v]|] ->]; cbn [obind]; [|eauto].
    repeat (case_match; eauto).
  - cbn [obind]. repeat (case_match; eauto).
Qed.

Lemma ingest_all_spec view bounds es :
  exists cs, ingest_all wrap_value view bounds es = Ok cs /\
    forall c, c ∈ cs <-> exists ik raw, (ik, raw) ∈ es /\ ingest wrap_value view bounds ik raw = Ok (Some c).
Proof.
  induction es as [|[ik raw] es (cs & IH & Hcs)].
  { exists []. split; [done|]. intros c. split; [by intros ?%elem_of_nil|by intros (? & ? & ?%elem_of_nil & _)]. }
  cbn [ingest_all]. destruct (ingest_total view bounds ik raw) as [o Ho]. rewrite Ho, IH. cbn [obind].
  eexists. split; [done|]. intros c. split.
  - destruct o as [c0|]; [intros [->|H%Hcs]%elem_of_cons|intros H%Hcs].
    + exists ik, raw. split; [left|done].
    + destruct H as (ik' & raw' & ? & ?). exists ik', raw'. split; [by right|done].
    + destruct H as (ik' & raw' & ? & ?). exists ik', raw'. split; [by right|done].
  - intros (ik' & raw' & [[= -> ->]|Hin]%elem_of_cons & Hi).
    + rewrite Ho in Hi. injection Hi as ->. left.
    + assert (c ∈ cs) by (apply Hcs; eauto). destruct o; [by right|done].
Qed.

(** A candidate's entry lies in a window of the range. *)
Lemma ingest_in_window view start end_ ik raw c :
  end_ <> [] -> ik <> [] -> ingest wrap_value view (Some (start, end_)) ik raw = Ok (Some c) ->
  exists lo hi, (lo, hi) ∈ scan_windows start end_ /\ bytes_le lo ik /\ bytes_lt ik hi.
Proof.
  intros He Hik. unfold ingest.
  destruct (starts_with MAGIC raw && (len ik >? 8)) eqn:Em; intros H; inv_ok.
  - destruct x as [[[ts del] v]|]; [|done].
    rewrite (bool_decide_false (end_ = [])) in H by done. cbn [negb andb] in H.
    destruct (bytes_ltb (decode_user_key ik) start || bytes_leb end_ (decode_user_key ik)) eqn:Eo; [done|].
    apply orb_false_iff in Eo as [Ha Hb]. apply andb_true_iff in Em as [_ Em]. bool_to_prop.
    unfold decode_user_key in *. rewrite <- (take_drop (length ik - 8) ik). unfold len in *.
    apply scan_windows_cover; [done| | | |rewrite length_drop; lia].
    + intros E%(f_equal length). rewrite length_take in E. simpl in E. lia.
    + by rewrite bytes_leb_ltb, Ha.
    + by rewrite bytes_ltb_leb, Hb.
  - rewrite (bool_decide_false (end_ = [])) in H by done. cbn [negb andb] in H.
    destruct (bytes_ltb ik start || bytes_leb end_ ik) eqn:Eo; [done|].
    apply orb_false_iff in Eo as [Ha Hb].
    rewrite <- (app_nil_r ik). apply scan_windows_cover; [done|done| | |simpl; lia].
    + by rewrite bytes_leb_ltb, Ha.
    + by rewrite bytes_ltb_leb, Hb.
Qed.

Definition in_window (windows : list (bytes * bytes)) (e : bytes * bytes) : Prop :=
  exists lo hi, (lo, hi) ∈ windows /\ bytes_le lo e.1 /\ bytes_lt e.1 hi.

Lemma in_window_cons lo hi windows e :
  in_window ((lo, hi) :: windows) e <-> (bytes_le lo e.1 /\ bytes_lt e.1 hi) \/ in_window windows e.
Proof.
  unfold in_window. split.
  - intros (a & b & [[= -> ->]|Hin]%elem_of_cons & H1 & H2); [auto|right; eauto].
  - intros [[H1 H2]|(a & b & Hin & H1 & H2)].
    + exists lo, hi. split; [left|done].
    + exists a, b. split; [by right|done].
Qed.

Lemma in_range_iff lo hi e : in_range lo hi e <-> bytes_le lo e.1 /\ bytes_lt e.1 hi.
Proof. unfold in_range. by rewrite (bytes_leb_ltb lo), negb_true_iff. Qed.

Lemma windows_of_table r m windows :
  (forall start end_, SstReader_scan_range crc32c r start end_ =
     Ok (map Ok (filter (in_range start end_) (btree_iter m)))) ->
  exists es, scan_windows_of crc32c r windows = Ok es /\
    forall ik raw, (ik, raw) ∈ es <-> m !! ik = Some raw /\ in_window windows (ik, raw).
Proof.
  intros Hr. induction windows as [|[lo hi] windows (es & IH & Hes)].
  { exists []. split; [done|]. intros ik raw. split; [by intros ?%elem_of_nil|].
    by intros (_ & ? & ? & ?%elem_of_nil & _). }
  cbn [scan_windows_of]. rewrite Hr, flatten_ok, IH. cbn [obind]. eexists. split; [done|]. intros ik raw.
  rewrite elem_of_app, list_elem_of_filter, elem_of_btree_iter, Hes, in_window_cons, in_range_iff. tauto.
Qed.

Lemma windows_of_memtable t windows :
  (forall lo hi, (lo, hi) ∈ windows -> bytes_le lo hi) ->
  exists es, memtable_windows t windows = Ok es /\
    forall ik raw, (ik, raw) ∈ es <-> mem_map t !! ik = Some raw /\ in_window windows (ik, raw).
Proof.
  induction windows as [|[lo hi] windows IH]; intros Hw.
  { exists []. split; [done|]. intros ik raw. split; [by intros ?%elem_of_nil|].
    by intros (_ & ? & ? & ?%elem_of_nil & _). }
  destruct IH as (es & IH & Hes); [intros; apply Hw; by right|].
  cbn [memtable_windows]. unfold MemTable_range.
  destruct (btree_range_total (E:=StorageError) (mem_map t) (Included lo) (Excluded hi)) as [es1 E1].
  { apply range_incl_excl_ok, Hw. left. }
  rewrite E1. apply btree_range_ok in E1 as [_ Hes1]. rewrite IH. cbn [obind]. eexists. split; [done|].
  intros ik raw. rewrite elem_of_app, Hes1, Hes, in_window_cons. simpl. tauto.
Qed.

Lemma windows_of_tables l paths ms windows :
  tables crc32c (l_sst l) paths ms ->
  exists es, tables_entries crc32c l (Some windows) paths = Ok es /\
    forall ik raw, (ik, raw) ∈ es <->
      (exists m, m ∈ ms /\ m !! ik = Some raw) /\ in_window windows (ik, raw).
Proof.
  induction 1 as [|p m paths ms (file & Hf & (r & Hr & _ & _ & Hs & _) & _) Ht (es & IH & Hes)].
  { exists []. split; [done|]. intros ik raw. split; [by intros ?%elem_of_nil|].
    by intros ((? & ?%elem_of_nil & _) & _). }
  cbn [tables_entries]. unfold table_entries, open_table. rewrite Hf. cbn [ok_or obind]. rewrite Hr.
  destruct (windows_of_table r m windows Hs) as (es1 & -> & Hes1). cbn [obind]. rewrite IH. cbn [obind].
  eexists. split; [done|]. intros ik raw. rewrite elem_of_app, Hes1, Hes. split.
  - intros [[H1 H2]|[(m' & H1 & H2) H3]]; (split; [|done]); [exists m|exists m'];
      (split; [|done]); [left|by right].
  - intros [(m' & [->|Hin]%elem_of_cons & H1) H2]; [auto|right; eauto].
Qed.

Lemma newest_per_key_ext (all all' : candidate W -> Prop) out :
  (forall c, all c <-> all' c) -> newest_per_key all out -> newest_per_key all' out.
Proof.
  intros H (H1 & H2 & H3). split; [done|]. split.
  - intros c Hc. destruct (H2 c Hc) as [Ha Hm]. split; [by apply H|]. intros c' Hc'. apply Hm. by apply H.
  - intros c' Hc'. apply H3. by apply H.
Qed.

(** The version that an entry of a table stores: an internal key is a user key and eight
    more bytes, with an encoded version as value; any other entry is a plain one, whose
    version has timestamp 1. *)
Definition stores_version (ik raw user : bytes) (ts : Z) (deleted : bool) (value : bytes) : Prop :=
  (exists suffix, ik = user ++ suffix /\ length suffix = 8%nat /\ user <> [] /\ starts_with MAGIC raw = true /\
     decode_version_ref raw = Ok (Some (ts, deleted, value))) \/
  (ik = user /\ (starts_with MAGIC raw = false \/ (length ik <= 8)%nat) /\ ts = 1 /\ deleted = false /\ value = raw).

(** The versions of the tree that a scan of the range may return: of a user key in the
    range, committed (timestamp 0 is not), and not later than the snapshot. *)
Definition scan_candidate (ms : list (gmap bytes bytes)) view start end_ (c : candidate W) : Prop :=
  exists m ik raw user ts deleted value, m ∈ ms /\ m !! ik = Some raw /\ stores_version ik raw user ts deleted value /\
    bytes_le start user /\ bytes_lt user end_ /\ ts <> 0 /\ ts <= snapshot_ts view /\ c = (user, ts, deleted, wrap_value value).

Lemma stores_decoded ik raw user ts deleted value : stores_version ik raw user ts deleted value <->
  (if starts_with MAGIC raw && (len ik >? 8)
   then decode_version_ref raw = Ok (Some (ts, deleted, value)) /\ user = decode_user_key ik
   else (ts, deleted, value) = (1, false, raw) /\ user = ik).
Proof.
  unfold stores_version, decode_user_key, len. split.
  - intros [(suffix & -> & Hl & Hu & -> & D)|(-> & Hn & -> & -> & ->)].
    + assert (0 < length user)%nat by (destruct user; [done|simpl; lia]). rewrite length_app, Hl, Z.gtb_ltb.
      rewrite (proj2 (Z.ltb_lt _ _)) by lia. cbn [andb]. split; [done|].
      replace (length user + 8 - 8)%nat with (length user) by lia. by rewrite take_app_length.
    + destruct (starts_with MAGIC raw); [|done]. destruct Hn as [?|Hn]; [done|]. rewrite Z.gtb_ltb, (proj2 (Z.ltb_ge _ _)) by lia. done.
  - destruct (starts_with MAGIC raw) eqn:Em; cbn [andb]; [|intros [[= -> -> ->] ->]; right; auto].
    destruct (Z.of_nat (length ik) >? 8) eqn:El; bool_to_prop; [|intros [[= -> -> ->] ->]; right; split_and!; try done; right; lia].
    intros [D ->]. left. exists (drop (length ik - 8) ik). rewrite take_drop, length_drop. split_and!; try done; [lia|].
    intros E%(f_equal length). rewrite length_take in E. simpl in E. lia.
Qed.

Lemma ingest_candidate view start end_ ik raw c : end_ <> [] ->
  ingest wrap_value view (Some (start, end_)) ik raw = Ok (Some c) <->
  exists user ts deleted value, stores_version ik raw user ts deleted value /\ bytes_le start user /\ bytes_lt user end_ /\
    ts <> 0 /\ ts <= snapshot_ts view /\ c = (user, ts, deleted, wrap_value value).
Proof.
  intros He. setoid_rewrite stores_decoded. unfold ingest. destruct (starts_with MAGIC raw && (len ik >? 8)).
  - destruct (decode_ref_total raw) as [o ->]. cbn [obind]. destruct o as [[[ts del] v]|]; [|split; [done|naive_solver]].
    rewrite (bool_decide_false (end_ = [])) by done. cbn [negb andb]. rewrite (bytes_ltb_leb (decode_user_key ik) start), (bytes_leb_ltb end_).
    split.
    + destruct (_ || _) eqn:Eo; [done|]. apply orb_false_iff in Eo as [Ha%negb_false_iff Hb%negb_false_iff]. destruct (_ || _) eqn:Et; [done|].
      intros [= <-]. bool_to_prop. by exists (decode_user_key ik), ts, del, v.
    + intros (user & ts' & del' & v' & [[= <- <- <-] ->] & Ha & Hb & Hz & Hs & ->). rewrite Ha, Hb. cbn [negb orb].
      rewrite (proj2 (Z.eqb_neq _ _)) by done. by rewrite Z.gtb_ltb, (proj2 (Z.ltb_ge _ _)).
  - cbn [obind]. rewrite (bool_decide_false (end_ = [])) by done. cbn [negb andb]. rewrite (bytes_ltb_leb ik start), (bytes_leb_ltb end_). split.
    + destruct (_ || _) eqn:Eo; [done|]. apply orb_false_iff in Eo as [Ha%negb_false_iff Hb%negb_false_iff]. destruct (_ || _) eqn:Et; [done|].
      intros [= <-]. bool_to_prop. by exists ik, 1, false, raw.
    + intros (user & ts' & del' & v' & [[= -> -> ->] ->] & Ha & Hb & Hz & Hs & ->). rewrite Ha, Hb. cbn [negb orb].
      by rewrite Z.gtb_ltb, (proj2 (Z.ltb_ge _ _)).
Qed.

Lemma candidate_ingest ms view start end_ c : end_ <> [] -> scan_candidate ms view start end_ c <->
  exists m ik raw, m ∈ ms /\ m !! ik = Some raw /\ ingest wrap_value view (Some (start, end_)) ik raw = Ok (Some c).
Proof. intros He. unfold scan_candidate. setoid_rewrite ingest_candidate; [|done]. naive_solver. Qed.

Lemma scan_newest l ms view start end_ :
  mem_wf (l_active l) -> tables crc32c (l_sst l) (l_level1 l ++ l_level0 l) ms ->
  end_ <> [] -> bytes_le start end_ ->
  exists cs, merge_visible_fold crc32c wrap_value sort l view (Some (start, end_)) = Ok cs /\
    newest_per_key (scan_candidate (mem_map (l_active l) :: ms) view start end_) cs.
Proof.
  intros [_ Hnil] Ht He Hse. unfold merge_visible_fold.
  destruct (windows_of_tables l _ ms (scan_windows start end_) Ht) as (es1 & -> & Hes1).
  cbn [obind].
  destruct (windows_of_memtable (l_active l) (scan_windows start end_)) as (es2 & -> & Hes2).
  { intros lo hi Hin. by eapply scan_windows_ordered. }
  cbn [obind].
  destruct (ingest_all_spec view (Some (start, end_)) (es1 ++ es2)) as (cs & -> & Hcs). cbn [obind].
  eexists. split; [done|]. destruct (sort_sorts cs) as [Hp Hs].
  eapply newest_per_key_ext; [|by apply dedup_runs_spec]. intros c. rewrite candidate_ingest by done.
  assert (c ∈ sort cs <-> c ∈ cs) as -> by (by rewrite Hp). rewrite Hcs. split.
  - intros [(ik & raw & Hin & Hi) _]. apply elem_of_app in Hin as [Hin|Hin].
    + apply Hes1 in Hin as [(m & Hm & Hl) _]. exists m, ik, raw. split; [by right|done].
    + apply Hes2 in Hin as [Hl _]. exists (mem_map (l_active l)), ik, raw. split; [left|done].
  - intros (m & ik & raw & Hm & Hl & Hi). split; [|done]. exists ik, raw. split; [|done].
    assert (ik <> []) as Hik.
    { intros ->. apply elem_of_cons in Hm as [->|Hm]; [congruence|].
      apply list_elem_of_lookup_1 in Hm as [i Hm].
      destruct (Forall2_lookup_r _ _ _ _ _ Ht Hm) as (q & _ & _ & _ & _ & Hn). congruence. }
    destruct (ingest_in_window _ _ _ _ _ _ He Hik Hi) as (lo & hi & Hw).
    assert (in_window (scan_windows start end_) (ik, raw)) by (by exists lo, hi).
    apply elem_of_app. apply elem_of_cons in Hm as [->|Hm]; [right; by apply Hes2|].
    left. apply Hes1. eauto.
Qed.

End scan_spec.

(** A stable sort, as one instance of the unstable one. *)
#[global] Instance cand_le_dec {W} (a b : candidate W) : Decision (cand_le a b).
Proof. unfold cand_le. apply _. Defined.
#[global] Instance cand_le_trans {W} : Transitive (@cand_le W).
Proof.
  intros a b c. unfold cand_le. intros [H1|[E1 H1]] [H2|[E2 H2]].
  - left. by eapply bytes_lt_trans.
  - left. by rewrite <- E2.
  - left. by rewrite E1.
  - right. split; [congruence|lia].
Qed.
#[global] Instance cand_le_total {W} : Total (@cand_le W).
Proof.
  intros a b. unfold cand_le. destruct (bytes_ltb (c_user a) (c_user b)) eqn:E; [auto|].
  destruct (bytes_ltb (c_user b) (c_user a)) eqn:E'; [auto|].
  assert (c_user a = c_user b) as Hu.
  { apply bytes_le_antisym; rewrite bytes_leb_ltb; [by rewrite E'|by rewrite E]. }
  rewrite Hu. destruct (Z.le_ge_cases (c_ts a) (c_ts b)); auto.
Qed.

Definition stable_sort {W} : list (candidate W) -> list (candidate W) := merge_sort cand_le.

Lemma stable_sort_sorts {W} : sorts (@stable_sort W).
Proof.
  intros cs. split; [apply merge_sort_Permutation|]. apply StronglySorted_merge_sort; apply _.
Qed.

(** ** Garbage collection *)

(** The version that an entry of the memtable holds for [uk]. *)
Definition entry_ts (e : bytes * bytes) (uk : bytes) (ts : Z) : Prop :=
  exists v, decode_or_legacy e.2 = Ok v /\ decode_user_key e.1 = uk /\ v_commit_ts v = ts.

Lemma newest_ts_spec es uk :
  match fold_left newest_ts es ∅ !! uk with
  | Some t => (t = 0 \/ exists e, e ∈ es /\ entry_ts e uk t) /\
              forall e ts, e ∈ es -> entry_ts e uk ts -> ts <= t
  | None => forall e ts, e ∈ es -> ~ entry_ts e uk ts
  end.
Proof.
  induction es as [|e es IH] using rev_ind.
  { change (fold_left newest_ts [] ∅) with (∅ : gmap bytes Z). rewrite lookup_empty.
    by intros e ts ?%elem_of_nil. }
  rewrite fold_left_app. cbn [fold_left]. set (latest := fold_left newest_ts es ∅) in *.
  assert (forall x, x ∈ es ++ [e] <-> x ∈ es \/ x = e) as Hin.
  { intros x. by rewrite elem_of_app, list_elem_of_singleton. }
  unfold newest_ts. destruct (decode_or_legacy e.2) as [v| |] eqn:Ev.
  2-3: assert (forall ts, ~ entry_ts e uk ts) as Hno
         by (intros ts (v' & Hv' & _); rewrite Ev in Hv'; discriminate);
       destruct (latest !! uk) as [t|];
       [destruct IH as [Ha Hm]; split;
        [destruct Ha as [?|(x & ? & ?)]; [auto|right; exists x; split; [apply Hin; auto|done]]
        |intros x ts [Hx| ->]%Hin Hts; [eauto|by apply Hno in Hts]]
       |intros x ts [Hx| ->]%Hin Hts; [by apply IH in Hts|by apply Hno in Hts]].
  destruct (decide (decode_user_key e.1 = uk)) as [Hu|Hu].
  - rewrite Hu, lookup_insert_eq.
    assert (entry_ts e uk (v_commit_ts v)) as He by (by exists v).
    destruct (latest !! uk) as [t|]; cbn [default from_option id].
    + destruct IH as [Ha Hm]. destruct (v_commit_ts v >? t) eqn:Eg; bool_to_prop.
      * split; [right; exists e; split; [apply Hin; auto|done]|]. intros x ts [Hx| ->]%Hin Hts.
        { specialize (Hm x ts Hx Hts). lia. }
        destruct Hts as (v' & Hv' & _ & <-). rewrite Ev in Hv'. injection Hv' as <-. lia.
      * split; [destruct Ha as [?|(x & ? & ?)]; [auto|right; exists x; split; [apply Hin; auto|done]]|].
        intros x ts [Hx| ->]%Hin Hts; [eauto|].
        destruct Hts as (v' & Hv' & _ & <-). rewrite Ev in Hv'. injection Hv' as <-. lia.
    + destruct (v_commit_ts v >? 0) eqn:Eg; bool_to_prop.
      * split; [right; exists e; split; [apply Hin; auto|done]|]. intros x ts [Hx| ->]%Hin Hts.
        { by apply IH in Hts. }
        destruct Hts as (v' & Hv' & _ & <-). rewrite Ev in Hv'. injection Hv' as <-. lia.
      * split; [auto|]. intros x ts [Hx| ->]%Hin Hts; [by apply IH in Hts|].
        destruct Hts as (v' & Hv' & _ & <-). rewrite Ev in Hv'. injection Hv' as <-. lia.
  - rewrite lookup_insert_ne by done.
    assert (forall ts, ~ entry_ts e uk ts) as Hno by (intros ts (v' & _ & ? & _); done).
    destruct (latest !! uk) as [t|].
    + destruct IH as [Ha Hm]. split.
      * destruct Ha as [?|(x & ? & ?)]; [auto|right; exists x; split; [apply Hin; auto|done]].
      * intros x ts [Hx| ->]%Hin Hts; [eauto|by apply Hno in Hts].
    + intros x ts [Hx| ->]%Hin Hts; [by apply IH in Hts|by apply Hno in Hts].
Qed.

Lemma drop_keys_ok keys t :
  mem_wf t -> Forall (fun k => k <> []) keys ->
  mem_wf (fold_left drop_key keys t) /\
  forall k, mem_map (fold_left drop_key keys t) !! k =
            if bool_decide (k ∈ keys) then None else mem_map t !! k.
Proof.
  intros Ht Hk. revert t Ht. induction Hk as [|k keys Hk Hks IH]; intros t Ht; [done|].
  cbn [fold_left]. unfold drop_key at 2 4.
  destruct (MemTable_delete_ok t k Ht Hk) as (t' & -> & Ht' & Hm).
  destruct (IH t' Ht') as [Hwf Hl]. split; [done|]. intros x. rewrite Hl, Hm.
  destruct (decide (x = k)) as [->|Hne].
  - rewrite lookup_delete_eq. repeat case_bool_decide; try done; set_solver.
  - rewrite lookup_delete_ne by done. repeat case_bool_decide; try done; set_solver.
Qed.

(** The keys that the collection drops. *)
Definition gc_keys (min_retain_ts : Z) (t : MemTable) : list bytes :=
  let es := MemTable_iter t in
  map fst (filter (fun e => gc_eligible (fold_left newest_ts es ∅) min_retain_ts e = true) es).

Lemma elem_of_gc_keys min_retain_ts t ik :
  ik ∈ gc_keys min_retain_ts t <-> exists raw, mem_map t !! ik = Some raw /\
    gc_eligible (fold_left newest_ts (MemTable_iter t) ∅) min_retain_ts (ik, raw) = true.
Proof.
  unfold gc_keys. rewrite list_elem_of_fmap. split.
  - intros ([k raw] & -> & [He Hin]%list_elem_of_filter). exists raw.
    by apply elem_of_btree_iter in Hin.
  - intros (raw & Hl & He). exists (ik, raw). split; [done|]. apply list_elem_of_filter.
    split; [done|]. by apply elem_of_btree_iter.
Qed.

(** A collected version is superseded by one that is not collected. *)
Lemma gc_keys_superseded min_retain_ts t ik raw :
  ik ∈ gc_keys min_retain_ts t -> mem_map t !! ik = Some raw ->
  exists v ik' raw' v', decode_or_legacy raw = Ok v /\ 0 < v_commit_ts v < min_retain_ts /\
    mem_map t !! ik' = Some raw' /\ ik' ∉ gc_keys min_retain_ts t /\
    decode_or_legacy raw' = Ok v' /\
    decode_user_key ik' = decode_user_key ik /\ v_commit_ts v < v_commit_ts v'.
Proof.
  intros (raw0 & Hl0 & Hel)%elem_of_gc_keys Hl. assert (raw0 = raw) as -> by congruence.
  pose proof (newest_ts_spec (MemTable_iter t) (decode_user_key ik)) as Hn.
  unfold gc_eligible in Hel. cbn [fst snd] in Hel.
  destruct (decode_or_legacy raw) as [v| |] eqn:Ev; [|done..].
  apply andb_true_iff in Hel as [Hb Hnl]. apply negb_true_iff, bool_decide_eq_false in Hnl.
  apply andb_true_iff in Hb as [Hb0 Hb1]. rewrite Z.gtb_ltb in Hb0. apply Z.ltb_lt in Hb0, Hb1.
  assert ((ik, raw) ∈ MemTable_iter t) as Hin by (by apply elem_of_btree_iter).
  assert (entry_ts (ik, raw) (decode_user_key ik) (v_commit_ts v)) as He by (by exists v).
  destruct (fold_left newest_ts (MemTable_iter t) ∅ !! decode_user_key ik) as [ts|] eqn:El;
    [|by apply (Hn _ _ Hin) in He].
  destruct Hn as [Ha Hm]. specialize (Hm _ _ Hin He).
  assert (v_commit_ts v <> ts) by congruence.
  destruct Ha as [->|([ik' raw'] & Hin' & v' & Ev' & Hu & Hts)]; [lia|]. cbn [fst snd] in *.
  exists v, ik', raw', v'. apply elem_of_btree_iter in Hin'.
  split; [done|]. split; [lia|]. split; [done|]. split; [|split; [done|split; [done|lia]]].
  intros (raw0 & Hl1 & Hel')%elem_of_gc_keys. assert (raw0 = raw') as -> by congruence.
  unfold gc_eligible in Hel'. cbn [fst snd] in Hel'. rewrite Ev', Hu, El in Hel'.
  rewrite bool_decide_eq_true_2, andb_false_r in Hel' by congruence. done.
Qed.

(** ** Theorems *)

(** Garbage collection of the memtable loses no live data.  The table keeps
    its invariant; the entries that remain are unchanged; and a removed entry
    held a version older than the retention timestamp whose user key has a newer
    version that stays in the table. *)
Theorem gc_keeps_newest l min_retain_ts :
  mem_wf (l_active l) ->
  let m := mem_map (l_active l) in
  let m' := mem_map (l_active (gc_mvcc_active min_retain_ts l).2) in
  mem_wf (l_active (gc_mvcc_active min_retain_ts l).2) /\
  forall ik raw, m !! ik = Some raw ->
    m' !! ik = Some raw \/
    m' !! ik = None /\
    exists v ik' raw' v', decode_or_legacy raw = Ok v /\ 0 < v_commit_ts v < min_retain_ts /\
      m' !! ik' = Some raw' /\ decode_or_legacy raw' = Ok v' /\
      decode_user_key ik' = decode_user_key ik /\ v_commit_ts v < v_commit_ts v'.
Proof.
  intros Hwf. pose proof (drop_keys_ok (gc_keys min_retain_ts (l_active l)) _ Hwf) as Hd.
  destruct Hd as [Hwf' Hl'].
  { apply Forall_forall. intros k (raw & Hl & _)%elem_of_gc_keys ->. destruct Hwf. congruence. }
  split; [exact Hwf'|]. intros ik raw Hl.
  change (l_active (gc_mvcc_active min_retain_ts l).2)
    with (fold_left drop_key (gc_keys min_retain_ts (l_active l)) (l_active l)).
  rewrite Hl'. case_bool_decide as Hk; [right|by left]. split; [done|].
  destruct (gc_keys_superseded _ _ _ _ Hk Hl) as (v & ik' & raw' & v' & ? & ? & Hr & Hnk & ? & ? & ?).
  exists v, ik', raw', v'. rewrite Hl', bool_decide_eq_false_2 by done. done.
Qed.

(** ** Scans of the keys alone *)

(** The live candidates of a scan, with any payload *)
Definition live_of {W} (cs : list (candidate W)) : list (bytes * W) :=
  omap (fun c : candidate W => let '(k, _, deleted, v) := c in if deleted then None else Some (k, v)) cs.

Lemma elem_of_live {W} (cs : list (candidate W)) k v : (k, v) ∈ live_of cs <-> exists ts, (k, ts, false, v) ∈ cs.
Proof.
  unfold live_of. rewrite list_elem_of_omap. split.
  - intros ([[[k' ts] [|]] v'] & Hin & E); [done|]. injection E as -> ->. by exists ts.
  - intros [ts Hin]. by exists (k, ts, false, v).
Qed.

Lemma live_sorted {W} (cs : list (candidate W)) : StronglySorted user_lt cs -> StronglySorted entry_lt (live_of cs).
Proof.
  intros Hs. induction Hs as [|[[[k ts] d] v] cs Hs IH Hall]; [constructor|].
  destruct d; [exact IH|]. change (live_of ((k, ts, false, v) :: cs)) with ((k, v) :: live_of cs). constructor; [done|].
  apply Forall_forall. intros [k' v'] [ts' Hin]%elem_of_live. rewrite Forall_forall in Hall. apply (Hall _ Hin).
Qed.

Lemma live_pairs_sorted cs : StronglySorted user_lt cs -> StronglySorted entry_lt (live_pairs cs).
Proof. apply live_sorted. Qed.

Lemma live_pairs_candidate all cs k v : newest_per_key all cs -> (k, v) ∈ live_pairs cs -> exists ts, all (k, ts, false, v).
Proof. intros (_ & Hmax & _) [ts Hin]%elem_of_live. exists ts. by apply Hmax. Qed.

(** No key has a live version and a tombstone with the same timestamp: the sort may put
    either of them first. *)
Definition no_split_ties (all : candidate bytes -> Prop) : Prop :=
  forall k ts v v', all (k, ts, false, v) -> ~ all (k, ts, true, v').

Lemma stores_version_det ik raw user ts d v user' ts' d' v' :
  stores_version ik raw user ts d v -> stores_version ik raw user' ts' d' v' -> user = user' /\ ts = ts' /\ d = d' /\ v = v'.
Proof.
  rewrite !stores_decoded. destruct (starts_with MAGIC raw && _); intros [E1 ->] [E2 ->]; [|by simplify_eq].
  rewrite E1 in E2. by injection E2 as <- <- <-.
Qed.

Lemma candidate_units ms view start end_ k ts d : scan_candidate (fun _ => tt) ms view start end_ (k, ts, d, tt) <->
  exists v, scan_candidate (fun v => v) ms view start end_ (k, ts, d, v).
Proof.
  split.
  - intros (m & ik & raw & user & ts' & d' & v & ? & ? & ? & ? & ? & ? & ? & E). injection E as -> -> ->.
    exists v, m, ik, raw, user, ts', d', v. by split_and!.
  - intros (v & m & ik & raw & user & ts' & d' & v' & ? & ? & ? & ? & ? & ? & ? & E). injection E as -> -> -> _.
    exists m, ik, raw, user, ts', d', v'. by split_and!.
Qed.

(** The scan of the keys, which sorts other candidates, returns the keys of the scan. *)
Lemma keys_of_range crc32c sort sort_keys l ms view start end_ :
  sorts sort -> sorts sort_keys -> mem_wf (l_active l) -> tables crc32c (l_sst l) (l_level1 l ++ l_level0 l) ms ->
  end_ <> [] -> bytes_le start end_ ->
  no_split_ties (scan_candidate (fun v => v) (mem_map (l_active l) :: ms) view start end_) ->
  exists es, range_visible crc32c sort l start end_ view = Ok es /\ StronglySorted entry_lt es /\
    range_visible_keys crc32c sort_keys l start end_ view = Ok (map fst es).
Proof.
  intros Hsort Hkeys Hwf Ht He Hse Hties. unfold range_visible, range_visible_keys.
  destruct (scan_newest crc32c (fun v => v) sort Hsort l ms view start end_ Hwf Ht He Hse) as (cs & -> & Hs & Hmax & Hall).
  destruct (scan_newest crc32c (fun _ => tt) sort_keys Hkeys l ms view start end_ Hwf Ht He Hse) as (us & -> & Hs' & Hmax' & Hall').
  cbn [obind]. exists (live_pairs cs). split; [done|]. split; [by apply live_pairs_sorted|]. f_equal.
  assert (map (fun e : bytes * bytes => (e.1, tt)) (live_of cs) = live_of us) as E.
  { apply sorted_ext; [|by apply live_sorted|].
    - apply live_sorted in Hs. induction Hs as [|e es _ IH Hf]; [constructor|]. cbn [map]. constructor; [done|].
      rewrite Forall_map. eapply Forall_impl; [exact Hf|]. done.
    - intros [k []]. rewrite elem_of_live, list_elem_of_fmap. split.
      + intros ([k' v] & [= ->] & [ts Hin]%elem_of_live). destruct (Hmax _ Hin) as [Ha Hm].
        assert (scan_candidate (fun _ => tt) (mem_map (l_active l) :: ms) view start end_ (k', ts, false, tt)) as Hu
          by (apply candidate_units; eauto).
        destruct (Hall' _ Hu) as ([[[k2 ts2] d2] []] & Hin2 & Ek). change (k2 = k') in Ek. subst k2. destruct (Hmax' _ Hin2) as [Ha2 Hm2].
        pose proof (Hm2 _ Hu eq_refl) as Hle. apply candidate_units in Ha2 as [v2 Ha2]. pose proof (Hm _ Ha2 eq_refl) as Hle2.
        unfold c_ts in Hle, Hle2. cbn [fst snd] in Hle, Hle2. assert (ts2 = ts) as -> by lia. exists ts.
        destruct d2; [|done]. by destruct (Hties _ _ _ _ Ha Ha2).
      + intros [ts Hin]. destruct (Hmax' _ Hin) as [Ha Hm]. pose proof Ha as Hu. apply candidate_units in Ha as [v Ha].
        destruct (Hall _ Ha) as ([[[k2 ts2] d2] v2] & Hin2 & Ek). change (k2 = k) in Ek. subst k2. destruct (Hmax _ Hin2) as [Ha2 Hm2].
        pose proof (Hm2 _ Ha eq_refl) as Hle. pose proof (Hm (k, ts2, d2, tt) (proj2 (candidate_units _ _ _ _ _ _ _) (ex_intro _ v2 Ha2)) eq_refl) as Hle2.
        unfold c_ts in Hle, Hle2. cbn [fst snd] in Hle, Hle2. assert (ts2 = ts) as -> by lia.
        destruct d2; [by destruct (Hties _ _ _ _ Ha Ha2)|]. exists (k, v2). split; [done|]. apply elem_of_live. by exists ts. }
  transitivity (map fst (live_of us)); [|rewrite <-E, map_map; by apply map_ext].
  unfold live_of. clear. induction us as [|[[[k ts] [|]] []] us IH]; cbn; [done|exact IH|by f_equal].
Qed.

(** C15. A range scan of the tree, over a range that has an end and is not upside down, returns
    for every user key of the range that has a version in some table or in the memtable,
    committed and not later than the snapshot, the newest of these versions, once, in
    ascending order of the keys, and nothing else: the scan windows miss no version (also
    none of a key that is a prefix of the range's end), and what is outside the range or
    later than the snapshot is dropped.  The sort may be any that sorts; where two
    versions of a key have the same timestamp either may be returned. *)
Theorem lsm_scan_newest_visible crc32c {W} (wrap_value : bytes -> W) sort l ms view start end_ :
  sorts sort -> mem_wf (l_active l) -> tables crc32c (l_sst l) (l_level1 l ++ l_level0 l) ms ->
  end_ <> [] -> bytes_le start end_ ->
  exists cs, merge_visible_fold crc32c wrap_value sort l view (Some (start, end_)) = Ok cs /\
    StronglySorted user_lt cs /\
    (forall c, c ∈ cs ->
       scan_candidate wrap_value (mem_map (l_active l) :: ms) view start end_ c /\
       forall c', scan_candidate wrap_value (mem_map (l_active l) :: ms) view start end_ c' ->
         c_user c' = c_user c -> c_ts c' <= c_ts c) /\
    (forall c', scan_candidate wrap_value (mem_map (l_active l) :: ms) view start end_ c' ->
       exists c, c ∈ cs /\ c_user c = c_user c').
Proof. intros Hsort Hwf Ht He Hse. by apply scan_newest. Qed.

Definition demo_scan_tree : LsmTree :=
  mkLsmTree (mkWalSegmentManager fresh_dir 1 EveryAppend)
    (mkMemTable {[encode_internal_key (bs "k") 7 :=
                   MAGIC ++ [x01] ++ le_bytes 8 7 ++ [x00] ++ le_bytes 4 2 ++ bs "v7"]} 29)
    [(0, 1); (0, 2)] [] tiny_config 0 0 0 demo_sst_dir None.

Lemma lsm_scan_newest_visible_witness :
  exists cs, merge_visible_fold crc32 (fun v => v) stable_sort demo_scan_tree latest_view
      (Some (bs "a", bs "z")) = Ok cs /\
    (forall c', scan_candidate (fun v => v)
       [mem_map (l_active demo_scan_tree); mem_map old_table; mem_map new_table]
       latest_view (bs "a") (bs "z") c' -> exists c, c ∈ cs /\ c_user c = c_user c') /\
    cs = [(bs "k", 7, false, bs "v7")].
Proof.
  destruct (lsm_scan_newest_visible crc32 (fun v => v) stable_sort demo_scan_tree
    [mem_map old_table; mem_map new_table] latest_view (bs "a") (bs "z")) as (cs & E & _ & _ & Hc).
  - apply stable_sort_sorts.
  - split; reflexivity.
  - apply demo_tables.
  - discriminate.
  - reflexivity.
  - exists cs. split; [exact E|]. split; [exact Hc|]. vm_compute in E. by injection E as <-.
Defined.

Definition demo_version (ts : Z) (v : string) : bytes :=
  MAGIC ++ [x01] ++ le_bytes 8 ts ++ [x00] ++ le_bytes 4 (len (bs v)) ++ bs v.

(** Versions 3 and 7 of one key: a collection below 5 drops version 3 only. *)
Definition demo_gc_tree : LsmTree :=
  set_memtable (match (let? t := MemTable_put MemTable_new (encode_internal_key (bs "k") 3)
                                   (demo_version 3 "v3") in
                       MemTable_put t (encode_internal_key (bs "k") 7) (demo_version 7 "v7")) with
                | Ok t => t | _ => MemTable_new end) demo_scan_tree.

Lemma gc_keeps_newest_witness :
  mem_map (l_active demo_gc_tree) !! encode_internal_key (bs "k") 3 = Some (demo_version 3 "v3") /\
  (gc_mvcc_active 5 demo_gc_tree).1 = 1 /\
  mem_wf (l_active (gc_mvcc_active 5 demo_gc_tree).2).
Proof.
  split; [reflexivity|]. split; [reflexivity|].
  apply (gc_keeps_newest demo_gc_tree 5). split; reflexivity.
Defined.

(** A scan and a point read disagree on an overwritten key: plain values have
    no timestamp and count as version 1, so that the copies in two tables tie,
    and a stable sort (which sorts) returns the older one, while [get] returns
    the newer one. *)
Theorem scan_returns_overwritten_value :
  sorts (@stable_sort bytes) /\
  on_fresh tiny_config
    (let& _ := demo_put (bs "k") (bs "9") in demo_put (bs "k") (bs "10"))
    (fun _ l => let? got := LsmTree_get crc32 l (bs "k") in
                let? scanned := LsmTree_range crc32 stable_sort l (bs "a") (bs "z") in
                Ok (got, scanned)) =
  Ok (Some (bs "10"), [(bs "k", bs "9")]).
Proof. split; [apply stable_sort_sorts|]. vm_compute. reflexivity. Qed.

(** ** The cache of table readers (lsm.rs: [sst_cache])

    Reads keep the readers they open; a flush and a compaction drop them all.  The
    operations are those of [Lsm] with the cache beside the tree. *)

Abbreviation ReaderCache := (gmap (Z * Z) SstReader).
Definition CM (A : Type) : Type := LsmTree * ReaderCache -> outcome StorageError A * (LsmTree * ReaderCache).

Definition cbind {A B} (p : CM A) (k : A -> CM B) : CM B := fun s =>
  match p s with
  | (Ok a, s') => k a s'
  | (Err e, s') => (Err e, s')
  | (Panic, s') => (Panic, s')
  end.
Notation "'let%' x := p 'in' k" := (cbind p (fun x => k))
  (at level 10, x binder, p at level 100, k at level 200) : outcome_scope.

(** A part that does not touch the cache *)
Definition clift {A} (p : LM A) : CM A := fun s => let '(r, l) := p s.1 in (r, (l, s.2)).
Definition cpure {A} (o : outcome StorageError A) : CM A := clift (llift o).

Definition clear_sst_cache : CM unit := fun s => (Ok tt, (s.1, ∅)).
Definition cached_reader (path : sst_path) : CM SstReader := fun s =>
  match s.2 !! path with
  | Some r => (Ok r, s)
  | None =>
      match open_table (l_sst s.1) path with
      | Ok r => (Ok r, (s.1, <[path := r]> s.2))
      | Err e => (Err e, s)
      | Panic => (Panic, s)
      end
  end.

(** [let Ok(reader) = self.cached_reader(path) else { .. }] *)
Definition try_reader (path : sst_path) : CM (option SstReader) := fun s =>
  match cached_reader path s with
  | (Ok r, s') => (Ok (Some r), s')
  | (Err _, s') => (Ok None, s')
  | (Panic, s') => (Panic, s')
  end.

Section cached.
Context (crc32c : bytes -> Z) (sizing : Z -> Z * Z).

(** *** Reads *)

Definition cached_get_from_sst (path : sst_path) (key : bytes) : CM (option bytes) :=
  let% r := cached_reader path in cpure (SstReader_get crc32c r key).

Fixpoint cached_consider_tables (user_key start end_ : bytes) (view : ReadView) (best : option Version) (paths : list sst_path)
    : CM (option Version) :=
  match paths with
  | [] => cpure (Ok best)
  | path :: paths' =>
      let% r := try_reader path in
      match r with
      | None => cached_consider_tables user_key start end_ view best paths'
      | Some r =>
          match SstReader_scan_range crc32c r start end_ with
          | Ok items =>
              let% best' := cpure (consider_entries user_key view best (flatten_items items)) in
              cached_consider_tables user_key start end_ view best' paths'
          | Err _ => cached_consider_tables user_key start end_ view best paths'
          | Panic => cpure Panic
          end
      end
  end.

Definition cached_find_visible_version (user_key : bytes) (view : ReadView) : CM (option Version) :=
  let start := user_key in
  let end_ := user_key_prefix_end user_key in
  let% l := clift lget in
  let% entries := cpure (MemTable_range (l_active l) start end_) in
  let% best := cpure (consider_entries user_key view None entries) in
  cached_consider_tables user_key start end_ view best (rev (l_level0 l) ++ rev (l_level1 l)).

Fixpoint cached_get_raw (key : bytes) (paths : list sst_path) : CM (option bytes) :=
  match paths with
  | [] => cpure (Ok None)
  | path :: paths' =>
      let% v := cached_get_from_sst path key in
      match v with Some v => cpure (Ok (Some v)) | None => cached_get_raw key paths' end
  end.

Definition cached_get_below (key : bytes) : CM (option bytes) :=
  let% v := cached_find_visible_version key latest_view in
  match v with
  | Some ver => cpure (Ok (if v_deleted ver then None else Some (v_value ver)))
  | None => let% l := clift lget in cached_get_raw key (rev (l_level0 l) ++ rev (l_level1 l))
  end.

Definition cached_get (key : bytes) : CM (option bytes) :=
  let% l := clift lget in
  let% raw := cpure (MemTable_get (l_active l) key) in
  match raw with
  | Some raw =>
      if starts_with MAGIC raw then
        match decode_or_legacy raw with
        | Ok ver => cpure (Ok (if v_deleted ver then None else Some (v_value ver)))
        | Err _ => cached_get_below key
        | Panic => cpure Panic
        end
      else cpure (Ok (Some raw))
  | None => cached_get_below key
  end.

(** [merge_visible_fold] over the cached readers *)
Fixpoint cached_tables_entries (windows : option (list (bytes * bytes))) (paths : list sst_path) : CM (list (bytes * bytes)) :=
  match paths with
  | [] => cpure (Ok [])
  | p :: paths' =>
      let% r := try_reader p in
      let% es := cpure (match r with
                        | Some r =>
                            match windows with
                            | Some windows => scan_windows_of crc32c r windows
                            | None => match SstReader_scan crc32c r with
                                      | Ok items => Ok (flatten_items items)
                                      | Err _ => Ok []
                                      | Panic => Panic
                                      end
                            end
                        | None => Ok []
                        end) in
      let% rest := cached_tables_entries windows paths' in
      cpure (Ok (es ++ rest))
  end.

Definition cached_merge_visible_fold {W} (wrap_value : bytes -> W) (sort : list (candidate W) -> list (candidate W))
    (view : ReadView) (bounds : option (bytes * bytes)) : CM (list (candidate W)) :=
  let windows := match bounds with
                 | Some (start, end_) => Some (scan_windows start end_)
                 | None => None
                 end in
  let% l := clift lget in
  let% from_tables := cached_tables_entries windows (l_level1 l ++ l_level0 l) in
  let% from_memtable := cpure (match windows with
                               | Some windows => memtable_windows (l_active l) windows
                               | None => Ok (MemTable_iter (l_active l))
                               end) in
  let% candidates := cpure (ingest_all wrap_value view bounds (from_tables ++ from_memtable)) in
  cpure (Ok (dedup_runs None (sort candidates))).

(** *** Writes *)

Definition cached_flush_active : CM unit :=
  let% l := clift lget in
  let frozen := l_active l in
  let% _ := clift (lmodify (set_memtable MemTable_new)) in
  if MemTable_is_empty frozen then clift (lret tt)
  else
    let% _ := clift (flush_write crc32c sizing frozen) in
    let% _ := clear_sst_cache in
    let% _ := clift flush_truncate_wal in
    clift persist_manifest.

(** [run_compaction] up to the new levels *)
Definition compact_levels : LM unit :=
  let& l := lget in
  let '(r, dir) := compact_level0_to_l1 crc32c sizing (l_sst l) (l_level0 l) in
  let& _ := lmodify (set_sst dir) in
  let& l1_path := llift r in
  lmodify (set_levels [] (l_level1 l ++ [l1_path])).

Definition cached_run_compaction : CM unit :=
  let% _ := clift compact_levels in
  let% _ := clear_sst_cache in
  clift persist_manifest.

Definition cached_maybe_flush_and_compact : CM unit :=
  let% l := clift lget in
  if MemTable_approx_bytes (l_active l) <? max_mem_bytes (l_config l) then clift (lret tt)
  else
    let% _ := cached_flush_active in
    let% l := clift lget in
    if len (l_level0 l) >=? l0_compaction_trigger (l_config l) then cached_run_compaction else clift (lret tt).

Definition cached_put (key value : bytes) : CM unit :=
  let% _ := clift lsm_gate_write in
  let% _ := clift (log_write (LogEntry_put key value)) in
  let% _ := clift (active_put key value) in
  cached_maybe_flush_and_compact.

Definition cached_put_batch (entries : list (bytes * bytes)) : CM unit :=
  let% _ := clift lsm_gate_write in
  let% _ := clift (put_batch_loop entries) in
  let% _ := clift (lwal (fun w => Ok (WalSegmentManager_sync w))) in
  cached_maybe_flush_and_compact.

Definition cached_put_version (user_key : bytes) (version : Version) : CM unit :=
  let ik := encode_internal_key user_key (v_commit_ts version) in
  let% val := cpure (encode_version version) in
  let% _ := clift (log_write (LogEntry_put ik val)) in
  let% _ := clift (active_put ik val) in
  cached_maybe_flush_and_compact.

Definition cached_delete (key : bytes) : CM bool :=
  let% _ := clift lsm_gate_write in
  let% _ := clift (log_write (LogEntry_delete key)) in
  let% l := clift lget in
  let% '(removed_active, t) := cpure (MemTable_delete (l_active l) key) in
  let% _ := clift (lmodify (set_memtable t)) in
  let% v := cached_get key in
  match v with
  | Some _ =>
      let% ver := cached_find_visible_version key latest_view in
      let next_ts := match ver with
                     | Some v => sat 64 (v_commit_ts v + 1)
                     | None => 2
                     end in
      let% _ := cached_put_version key (Version_tombstone next_ts) in
      let% _ := cached_maybe_flush_and_compact in
      clift (lret true)
  | None =>
      let% _ := cached_maybe_flush_and_compact in
      clift (lret removed_active)
  end.
End cached.

(** *** The cache is transparent *)

(** Every cached reader is what opening its file would give. *)
Definition coherent (s : LsmTree * ReaderCache) : Prop := forall p r, s.2 !! p = Some r -> open_table (l_sst s.1) p = Ok r.

(** A read returns [o], leaves the tree and keeps the cache coherent. *)
Definition reads_at {A : Type} (s : LsmTree * ReaderCache) (m : CM A) (o : outcome StorageError A) : Prop :=
  exists c, m s = (o, (s.1, c)) /\ coherent (s.1, c).

(** An operation does to the tree what [p] does, and keeps the cache coherent unless it
    fails. *)
Definition tracks_at {A : Type} (s : LsmTree * ReaderCache) (m : CM A) (p : LM A) : Prop :=
  exists c, m s = ((p s.1).1, ((p s.1).2, c)) /\ (is_ok (p s.1).1 = true -> coherent ((p s.1).2, c)).

Lemma reads_pure {A : Type} s (o : outcome StorageError A) : coherent s -> reads_at s (cpure o) o.
Proof. intros C. by exists s.2. Qed.
Lemma reads_get {A : Type} s (k : LsmTree -> CM A) o : reads_at s (k s.1) o -> reads_at s (let% l := clift lget in k l) o.
Proof. by destruct s. Qed.

Lemma reads_bind {A B : Type} s (m : CM A) o (k : A -> CM B) g : reads_at s m o ->
  (forall a c, coherent (s.1, c) -> reads_at (s.1, c) (k a) (g a)) -> reads_at s (cbind m k) (let? a := o in g a).
Proof.
  intros (c & E & C) K. unfold reads_at, cbind. rewrite E. destruct o as [a|e|]; [|by exists c..]. apply (K a c C).
Qed.

Lemma reads_reader s path : coherent s -> reads_at s (cached_reader path) (open_table (l_sst s.1) path).
Proof.
  intros C. unfold reads_at, cached_reader. destruct s as [l c]. cbn [fst snd] in *. destruct (c !! path) as [r|] eqn:E.
  - pose proof (C path r E) as C'. cbn in C'. rewrite C'. by exists c.
  - destruct (open_table (l_sst l) path) as [r|e|] eqn:O; [|by exists c..]. exists (<[path := r]> c). split; [done|]. intros p r' Hp. cbn in *.
    destruct (decide (p = path)) as [->|Hne]; [rewrite lookup_insert_eq in Hp; congruence|]. rewrite lookup_insert_ne in Hp by done. by apply C.
Qed.

Lemma reads_try s path : coherent s ->
  reads_at s (try_reader path) (match open_table (l_sst s.1) path with Ok r => Ok (Some r) | Err _ => Ok None | Panic => Panic end).
Proof.
  intros C. destruct (reads_reader s path C) as (c & E & C'). unfold reads_at, try_reader. rewrite E.
  destruct (open_table (l_sst s.1) path); by exists c.
Qed.

Section transparent.
Context (crc32c : bytes -> Z) (sizing : Z -> Z * Z).

Lemma reads_consider s key start end_ view best paths : coherent s ->
  reads_at s (cached_consider_tables crc32c key start end_ view best paths) (consider_tables crc32c s.1 key start end_ view best paths).
Proof.
  revert s best. induction paths as [|p paths IH]; intros [l c] best C; [by apply reads_pure|].
  cbn [cached_consider_tables consider_tables fst]. destruct (reads_try (l, c) p C) as (c1 & E & C1). unfold cbind at 1, reads_at. rewrite E. cbn [fst] in *.
  destruct (open_table (l_sst l) p) as [r|e|]; cbn [obind]; [|apply (IH (l, c1) best C1)|by exists c1].
  destruct (SstReader_scan_range crc32c r start end_) as [items|e|]; [|apply (IH (l, c1) best C1)|by exists c1].
  refine (reads_bind (l, c1) _ _ _ _ (reads_pure (l, c1) _ C1) _). intros best' c2 C2. apply (IH (l, c2) best' C2).
Qed.

Lemma reads_find s key view : coherent s -> reads_at s (cached_find_visible_version crc32c key view) (find_visible_version crc32c s.1 key view).
Proof.
  intros C. unfold cached_find_visible_version, find_visible_version. apply reads_get.
  apply reads_bind; [by apply reads_pure|]. intros entries c1 C1. apply reads_bind; [by apply reads_pure|]. intros best c2 C2.
  by apply (reads_consider (s.1, c2)).
Qed.

Lemma reads_raw s key paths : coherent s -> reads_at s (cached_get_raw crc32c key paths) (get_raw crc32c s.1 key paths).
Proof.
  revert s. induction paths as [|p paths IH]; intros s C; [by apply reads_pure|]. cbn [cached_get_raw get_raw]. apply reads_bind.
  - unfold cached_get_from_sst, get_from_sst. apply reads_bind; [by apply reads_reader|]. intros r c1 C1. by apply reads_pure.
  - intros v c1 C1. destruct v; [by apply reads_pure|]. by apply (IH (s.1, c1)).
Qed.

Lemma reads_below s key : coherent s -> reads_at s (cached_get_below crc32c key) (get_below crc32c s.1 key).
Proof.
  intros C. unfold cached_get_below, get_below. apply reads_bind; [by apply reads_find|]. intros v c1 C1.
  destruct v; [by apply reads_pure|]. apply reads_get. by apply (reads_raw (s.1, c1)).
Qed.

Lemma cached_get_reads s key : coherent s -> reads_at s (cached_get crc32c key) (LsmTree_get crc32c s.1 key).
Proof.
  intros C. unfold cached_get, LsmTree_get. apply reads_get. apply reads_bind; [by apply reads_pure|]. intros raw c1 C1.
  destruct raw as [raw|]; [|by apply (reads_below (s.1, c1))]. destruct (starts_with MAGIC raw); [|by apply reads_pure].
  destruct (decode_or_legacy raw); [by apply reads_pure|by apply (reads_below (s.1, c1))|by apply reads_pure].
Qed.

Lemma reads_tables s windows paths : coherent s ->
  reads_at s (cached_tables_entries crc32c windows paths) (tables_entries crc32c s.1 windows paths).
Proof.
  revert s. induction paths as [|p paths IH]; intros s C; [by apply reads_pure|]. cbn [cached_tables_entries tables_entries].
  assert (forall {B : Type} (k : list (bytes * bytes) -> outcome StorageError B), (let? es := table_entries crc32c s.1 windows p in k es) =
    (let? r := match open_table (l_sst s.1) p with Ok r => Ok (Some r) | Err _ => Ok None | Panic => Panic end in
     let? es := match r with
                | Some r => match windows with
                            | Some windows => scan_windows_of crc32c r windows
                            | None => match SstReader_scan crc32c r with Ok items => Ok (flatten_items items) | Err _ => Ok [] | Panic => Panic end
                            end
                | None => Ok []
                end in k es)) as -> by (intros; unfold table_entries; by destruct (open_table (l_sst s.1) p)).
  apply reads_bind; [by apply reads_try|]. intros r c1 C1. apply reads_bind; [by apply reads_pure|]. intros es c2 C2.
  apply reads_bind; [by apply (IH (s.1, c2))|]. intros rest c3 C3. by apply reads_pure.
Qed.

Lemma cached_scan_reads {W : Type} s (wrap_value : bytes -> W) sort view bounds : coherent s ->
  reads_at s (cached_merge_visible_fold crc32c wrap_value sort view bounds) (merge_visible_fold crc32c wrap_value sort s.1 view bounds).
Proof.
  intros C. unfold cached_merge_visible_fold, merge_visible_fold. apply reads_get. apply reads_bind; [by apply reads_tables|]. intros ts c1 C1.
  apply reads_bind; [by apply reads_pure|]. intros ms c2 C2. apply reads_bind; [by apply reads_pure|]. intros cs c3 C3. by apply reads_pure.
Qed.

(** *** Writes *)

Definition keeps_tables {A : Type} (p : LM A) : Prop := forall l, is_ok (p l).1 = true -> l_sst (p l).2 = l_sst l.

Lemma tracks_lift {A : Type} s (p : LM A) : keeps_tables p -> coherent s -> tracks_at s (clift p) p.
Proof.
  intros K C. exists s.2. unfold clift. specialize (K s.1). destruct (p s.1) as [r l] eqn:E. cbn [fst snd] in *. split; [done|].
  intros Hr q x Hq. cbn in *. rewrite (K Hr). by apply C.
Qed.

Lemma tracks_read {A : Type} s (m : CM A) o : reads_at s m o -> tracks_at s m (llift o).
Proof. intros (c & E & C). exists c. by split. Qed.

Lemma tracks_bind {A B : Type} s (m : CM A) p (k : A -> CM B) q : tracks_at s m p ->
  (forall a s', p s.1 = (Ok a, s'.1) -> coherent s' -> tracks_at s' (k a) (q a)) -> tracks_at s (cbind m k) (lbind p q).
Proof.
  intros (c & E & C) K. unfold tracks_at, cbind, lbind. rewrite E. destruct (p s.1) as [[a|e|] l] eqn:Ep; cbn [fst snd] in *; [|by exists c..].
  exact (K a (l, c) eq_refl (C eq_refl)).
Qed.

(** A part after which the cache is dropped may change the tables. *)
Lemma tracks_clear {A B : Type} s (p : LM A) (k : CM B) q :
  (forall a l, p s.1 = (Ok a, l) -> tracks_at (l, ∅) k q) ->
  tracks_at s (let% _ := clift p in let% _ := clear_sst_cache in k) (let& _ := p in q).
Proof.
  intros K. unfold tracks_at, cbind, lbind, clift, clear_sst_cache. destruct (p s.1) as [[a|e|] l] eqn:Ep; cbn [fst snd]; [|by exists s.2..].
  exact (K a l eq_refl).
Qed.

Lemma coherent_empty l : coherent (l, ∅).
Proof. intros p r E. cbn in E. by rewrite lookup_empty in E. Qed.

Lemma tables_bind {A B : Type} (p : LM A) (q : A -> LM B) : keeps_tables p -> (forall a, keeps_tables (q a)) -> keeps_tables (lbind p q).
Proof.
  intros P Q l. unfold lbind. specialize (P l). destruct (p l) as [[a|e|] l']; cbn [fst snd is_ok] in *; try done.
  intros E. rewrite (Q a l' E). by apply P.
Qed.
Lemma tables_modify f : (forall l, l_sst (f l) = l_sst l) -> keeps_tables (lmodify f).
Proof. intros F l _. apply F. Qed.
Lemma tables_lift {A : Type} (o : outcome StorageError A) : keeps_tables (llift o).
Proof. by intros l _. Qed.
Lemma tables_get : keeps_tables lget.
Proof. by intros l _. Qed.
Lemma tables_ret {A : Type} (a : A) : keeps_tables (lret a).
Proof. by intros l _. Qed.
End transparent.

Ltac keeps := repeat first [apply tables_bind; [|intros ?] | apply tables_lift | apply tables_get | apply tables_ret | apply tables_modify; done
  | progress cbv zeta | case_match ].

Lemma keeps_wal f : keeps_tables (lwal f).
Proof. unfold lwal. keeps. Qed.
Lemma keeps_log_write e : keeps_tables (log_write e).
Proof. unfold log_write, maybe_sync_wal, LsmTree_sync. repeat first [apply keeps_wal | progress keeps]. Qed.
Lemma keeps_active_put k v : keeps_tables (active_put k v).
Proof. unfold active_put. keeps. Qed.
Lemma keeps_gate : keeps_tables lsm_gate_write.
Proof. unfold lsm_gate_write. keeps. Qed.
Lemma keeps_manifest : keeps_tables persist_manifest.
Proof. unfold persist_manifest. keeps. Qed.
Lemma keeps_truncate : keeps_tables flush_truncate_wal.
Proof. unfold flush_truncate_wal. keeps. Qed.
Lemma keeps_put_batch es : keeps_tables (put_batch_loop es).
Proof.
  induction es as [|[k v] es IH]; cbn [put_batch_loop]; [keeps|]. apply tables_bind; [apply keeps_wal|intros _].
  apply tables_bind; [apply keeps_active_put|done].
Qed.

Create HintDb cached.
#[local] Hint Resolve keeps_wal keeps_log_write keeps_active_put keeps_gate keeps_manifest keeps_truncate keeps_put_batch
  tables_get tables_ret tables_lift coherent_empty : cached.

(** One step of a cached operation against the plain one *)
Ltac track_lift := apply tracks_lift; [auto with cached|auto with cached].

Section writes.
Context (crc32c : bytes -> Z) (sizing : Z -> Z * Z).

Lemma tracks_get {A : Type} s (k : LsmTree -> CM A) q : tracks_at s (k s.1) (q s.1) -> tracks_at s (let% l := clift lget in k l) (let& l := lget in q l).
Proof. by destruct s. Qed.

Lemma tracks_read_tree {A : Type} s (m : CM A) q : tracks_at s m (q s.1) -> tracks_at s m (let& l := lget in q l).
Proof. by destruct s. Qed.

Lemma flush_tracks s : coherent s -> tracks_at s (cached_flush_active crc32c sizing) (flush_active crc32c sizing).
Proof.
  intros C. unfold cached_flush_active, flush_active. apply tracks_get. cbv zeta.
  apply tracks_bind; [apply tracks_lift; [by apply tables_modify|done]|]. intros a s' _ C'.
  destruct (MemTable_is_empty (l_active s.1)); [track_lift|]. apply tracks_clear. intros b l _.
  apply tracks_bind; [track_lift|]. intros d s2 _ C2. track_lift.
Qed.

Lemma compaction_parts l : run_compaction crc32c sizing l = (let& _ := compact_levels crc32c sizing in persist_manifest) l.
Proof.
  unfold run_compaction, compact_levels, lbind, lget, lmodify, llift. destruct (compact_level0_to_l1 _ _ _ _) as [[p|e|] dir]; reflexivity.
Qed.

Lemma compaction_tracks s : tracks_at s (cached_run_compaction crc32c sizing) (run_compaction crc32c sizing).
Proof.
  assert (T : tracks_at s (cached_run_compaction crc32c sizing) (let& _ := compact_levels crc32c sizing in persist_manifest)).
  { apply tracks_clear. intros a l _. track_lift. }
  unfold tracks_at in *. by rewrite compaction_parts.
Qed.

Lemma maybe_flush_tracks s : coherent s -> tracks_at s (cached_maybe_flush_and_compact crc32c sizing) (maybe_flush_and_compact crc32c sizing).
Proof.
  intros C. unfold cached_maybe_flush_and_compact, maybe_flush_and_compact. apply tracks_get. destruct (_ <? _); [track_lift|].
  apply tracks_bind; [by apply flush_tracks|]. intros a s1 _ C1. apply tracks_get. destruct (_ >=? _); [apply compaction_tracks|track_lift].
Qed.

Lemma put_version_tracks s key ver : coherent s -> tracks_at s (cached_put_version crc32c sizing key ver) (put_version crc32c sizing key ver).
Proof.
  intros C. unfold cached_put_version, put_version. cbv zeta. apply tracks_bind; [track_lift|]. intros val s1 _ C1.
  apply tracks_bind; [track_lift|]. intros a s2 _ C2. apply tracks_bind; [track_lift|]. intros b s3 _ C3. by apply maybe_flush_tracks.
Qed.

Lemma put_tracks s key value : coherent s -> tracks_at s (cached_put crc32c sizing key value) (LsmTree_put crc32c sizing key value).
Proof.
  intros C. unfold cached_put, LsmTree_put. apply tracks_bind; [track_lift|]. intros a s1 _ C1. apply tracks_bind; [track_lift|]. intros b s2 _ C2.
  apply tracks_bind; [track_lift|]. intros d s3 _ C3. by apply maybe_flush_tracks.
Qed.

Lemma put_batch_tracks s entries : coherent s -> tracks_at s (cached_put_batch crc32c sizing entries) (LsmTree_put_batch crc32c sizing entries).
Proof.
  intros C. unfold cached_put_batch, LsmTree_put_batch. apply tracks_bind; [track_lift|]. intros a s1 _ C1. apply tracks_bind; [track_lift|]. intros b s2 _ C2.
  apply tracks_bind; [track_lift|]. intros d s3 _ C3. by apply maybe_flush_tracks.
Qed.

Lemma delete_tracks s key : coherent s -> tracks_at s (cached_delete crc32c sizing key) (LsmTree_delete crc32c sizing key).
Proof.
  intros C. unfold cached_delete, LsmTree_delete. apply tracks_bind; [track_lift|]. intros a s1 _ C1. apply tracks_bind; [track_lift|]. intros b s2 _ C2.
  apply tracks_get. apply tracks_bind; [track_lift|]. intros [removed t] s3 _ C3.
  apply tracks_bind; [apply tracks_lift; [by apply tables_modify|done]|]. intros d s4 _ C4.
  apply tracks_read_tree. apply tracks_bind; [by apply tracks_read, cached_get_reads|]. intros v s5 E5 C5.
  assert (s5.1 = s4.1) as E by (injection E5 as _ E5; done). rewrite <-E. destruct v as [v|].
  - apply tracks_bind; [by apply tracks_read, reads_find|]. intros ver s6 _ C6. cbv zeta.
    apply tracks_bind; [by apply put_version_tracks|]. intros f s7 _ C7. apply tracks_bind; [by apply maybe_flush_tracks|]. intros g s8 _ C8. track_lift.
  - apply tracks_bind; [by apply maybe_flush_tracks|]. intros f s7 _ C7. track_lift.
Qed.

(** Calls of a tree *)
Inductive TreeCall : Type :=
| TreePut (key value : bytes)
| TreePutBatch (entries : list (bytes * bytes))
| TreePutVersion (key : bytes) (version : Version)
| TreeDelete (key : bytes)
| TreeGet (key : bytes)
| TreeScan (view : ReadView) (bounds : option (bytes * bytes)).
Inductive TreeAnswer : Type := TreeDone | TreeDeleted (found : bool) | TreeValue (v : option bytes) | TreeRows (rows : list (candidate bytes)).

Context (sort : list (candidate bytes) -> list (candidate bytes)).

Definition call_tree (c : TreeCall) : LM TreeAnswer :=
  match c with
  | TreePut k v => let& _ := LsmTree_put crc32c sizing k v in lret TreeDone
  | TreePutBatch es => let& _ := LsmTree_put_batch crc32c sizing es in lret TreeDone
  | TreePutVersion k ver => let& _ := put_version crc32c sizing k ver in lret TreeDone
  | TreeDelete k => let& b := LsmTree_delete crc32c sizing k in lret (TreeDeleted b)
  | TreeGet k => let& l := lget in let& v := llift (LsmTree_get crc32c l k) in lret (TreeValue v)
  | TreeScan view bounds => let& l := lget in let& rows := llift (merge_visible_fold crc32c id sort l view bounds) in lret (TreeRows rows)
  end.
Definition call_cached (c : TreeCall) : CM TreeAnswer :=
  match c with
  | TreePut k v => let% _ := cached_put crc32c sizing k v in clift (lret TreeDone)
  | TreePutBatch es => let% _ := cached_put_batch crc32c sizing es in clift (lret TreeDone)
  | TreePutVersion k ver => let% _ := cached_put_version crc32c sizing k ver in clift (lret TreeDone)
  | TreeDelete k => let% b := cached_delete crc32c sizing k in clift (lret (TreeDeleted b))
  | TreeGet k => let% v := cached_get crc32c k in clift (lret (TreeValue v))
  | TreeScan view bounds => let% rows := cached_merge_visible_fold crc32c id sort view bounds in clift (lret (TreeRows rows))
  end.

(** A sequence of calls, up to the first that fails *)
Fixpoint run_tree (cs : list TreeCall) : LM (list TreeAnswer) :=
  match cs with [] => lret [] | c :: cs' => let& a := call_tree c in let& r := run_tree cs' in lret (a :: r) end.
Fixpoint run_cached (cs : list TreeCall) : CM (list TreeAnswer) :=
  match cs with [] => clift (lret []) | c :: cs' => let% a := call_cached c in let% r := run_cached cs' in clift (lret (a :: r)) end.

Lemma call_tracks s c : coherent s -> tracks_at s (call_cached c) (call_tree c).
Proof.
  intros C. destruct c; cbn [call_cached call_tree].
  - apply tracks_bind; [by apply put_tracks|intros; track_lift].
  - apply tracks_bind; [by apply put_batch_tracks|intros; track_lift].
  - apply tracks_bind; [by apply put_version_tracks|intros; track_lift].
  - apply tracks_bind; [by apply delete_tracks|intros; track_lift].
  - apply tracks_read_tree, tracks_bind; [by apply tracks_read, cached_get_reads|intros; track_lift].
  - apply tracks_read_tree, tracks_bind; [by apply tracks_read, cached_scan_reads|intros; track_lift].
Qed.

(** C24. The cache of table readers is transparent: from an opened tree, whose cache is empty,
    every sequence of puts, batches, versions, deletes, point reads and scans gives the
    answers, and leaves the tree, that the same calls give without a cache, up to the
    first call that fails.  Names of compacted files are reused; their readers were
    dropped. *)
Theorem reader_cache_transparent (calls : list TreeCall) (l : LsmTree) :
  exists c, run_cached calls (l, ∅) = ((run_tree calls l).1, ((run_tree calls l).2, c)).
Proof.
  assert (T : forall s, coherent s -> tracks_at s (run_cached calls) (run_tree calls)).
  { induction calls as [|c cs IH]; intros s C; cbn [run_cached run_tree]; [track_lift|].
    apply tracks_bind; [by apply call_tracks|]. intros a s1 _ C1. apply tracks_bind; [by apply IH|]. intros r s2 _ C2. track_lift. }
  destruct (T (l, ∅) (coherent_empty l)) as (c & E & _). by exists c.
Qed.
End writes.
