(* ===== verification/Raft.v ===== *)
(** * The Raft state machine
      (crates/noedb-raft/src/types.rs, state.rs, config.rs, rpc.rs, log.rs,
       membership.rs, raft_core.rs)

    [Raft] is the node's state record; each method is a function from the state
    to the state and the list of [Action]s it returns.  The randomized election
    timeout is drawn from outside: a method that resets the timer takes the
    value drawn ([et]); where the source draws twice in one call only the last
    draw is kept, so one argument is enough.  The serialization of membership
    changes is done by the bincode crate: [conf_ser] and [conf_deser] stand for
    it.  Terms, indices and node ids are the [u64]s inside their wrappers. *)

From S2P Require Import Prelude BTree.

(** ** types.rs *)

Inductive Role : Type := Follower | Candidate | Leader.

#[global] Instance Role_eq_dec : EqDecision Role.
Proof. solve_decision. Defined.

Definition LogIndex_prev (i : Z) : Z := sat 64 (i - 1).
Definition LogIndex_next (i : Z) : Z := sat 64 (i + 1).
Definition Term_next (t : Z) : Z := sat 64 (t + 1).

(** ** state.rs *)

Record HardState : Type := mkHardState {
  current_term : Z;
  voted_for : option Z;
  commit_index : Z;
  last_applied : Z;
}.

Definition HardState_default : HardState := mkHardState 0 None 0 0.

Record SoftState : Type := mkSoftState { role : Role; leader_id : option Z }.

Definition SoftState_default : SoftState := mkSoftState Follower None.

Record Progress : Type := mkProgress { next_index : Z; match_index : Z }.

(** ** config.rs *)

Record RaftConfig : Type := mkRaftConfig {
  cfg_id : Z;
  cfg_voters : list Z;
  election_timeout_min : Z;
  election_timeout_max : Z;
  heartbeat_interval : Z;
  max_append_batch : Z;
}.

Definition RaftConfig_three_node (id : Z) : RaftConfig := mkRaftConfig id [1; 2; 3] 300 500 50 256.
Definition RaftConfig_simulation (id : Z) (voters : list Z) : RaftConfig :=
  mkRaftConfig id voters (80 + id * 40) (80 + id * 40) 25 64.

Definition RaftConfig_quorum (c : RaftConfig) : Z := len (cfg_voters c) / 2 + 1.
Definition RaftConfig_is_voter (c : RaftConfig) (node : Z) : bool := bool_decide (node ∈ cfg_voters c).

(** [draw] is the value of [gen_range], used only for a proper interval. *)
Definition RaftConfig_election_timeout (c : RaftConfig) (draw : Z) : Z :=
  if election_timeout_min c =? election_timeout_max c then election_timeout_min c else draw.

(** ** log.rs *)

Record RLogEntry : Type := mkRLogEntry { re_term : Z; re_command : bytes }.

#[global] Instance RLogEntry_eq_dec : EqDecision RLogEntry.
Proof. solve_decision. Defined.

Inductive ConfChange : Type := AddVoter (id : Z) | RemoveVoter (id : Z).

(** The entries, sentinel included. *)
Abbreviation RaftLog := (list RLogEntry).

Definition RaftLog_new : RaftLog := [mkRLogEntry 0 []].

(** [entries.get(i)]: the test on [Z] avoids converting an arbitrary index. *)
Definition RaftLog_get (l : RaftLog) (index : Z) : option RLogEntry :=
  if (0 <=? index) && (index <? len l) then l !! Z.to_nat index else None.

Definition RaftLog_last_index (l : RaftLog) : Z := Z.max 0 (len l - 1).

Definition RaftLog_term_at (l : RaftLog) (index : Z) : Z :=
  match RaftLog_get l index with Some e => re_term e | None => 0 end.

Definition RaftLog_append (l : RaftLog) (entries : list RLogEntry) : RaftLog := l ++ entries.

Definition RaftLog_truncate_from (l : RaftLog) (index : Z) : RaftLog :=
  let keep := sat 64 (index + 1) in
  if keep <? len l then take (Z.to_nat keep) l else l.

Definition RaftLog_slice_from (l : RaftLog) (from : Z) : list RLogEntry :=
  if from >=? len l then [] else drop (Z.to_nat from) l.

(** [clear], the snapshot's sentinel, [resize] to the snapshot index (which pads
    with copies of the same entry), then the suffix. *)
Definition RaftLog_restore (snapshot_index snapshot_term : Z) (suffix : list RLogEntry) : RaftLog :=
  let e := mkRLogEntry snapshot_term [] in
  (if snapshot_index >? 0 then replicate (Z.to_nat (snapshot_index + 1)) e else [e]) ++ suffix.

(** ** rpc.rs and storage.rs (Snapshot) *)

Record Snapshot : Type := mkSnapshot { snap_index : Z; snap_term : Z; snap_data : bytes }.

Record RequestVoteReq : Type := mkRequestVoteReq {
  rv_term : Z; rv_candidate_id : Z; rv_last_log_index : Z; rv_last_log_term : Z;
}.
Record RequestVoteResp : Type := mkRequestVoteResp { rvr_term : Z; rvr_vote_granted : bool }.
Record AppendEntriesReq : Type := mkAppendEntriesReq {
  ae_term : Z; ae_leader_id : Z; ae_prev_log_index : Z; ae_prev_log_term : Z;
  ae_entries : list RLogEntry; ae_leader_commit : Z;
}.
Record AppendEntriesResp : Type := mkAppendEntriesResp {
  aer_term : Z; aer_success : bool; aer_last_log_index : Z;
}.
Record InstallSnapshotReq : Type := mkInstallSnapshotReq {
  is_term : Z; is_leader_id : Z; is_last_included_index : Z; is_last_included_term : Z;
  is_data : bytes; is_offset : Z; is_done : bool;
}.
Record InstallSnapshotResp : Type := mkInstallSnapshotResp { isr_term : Z }.
Record ReadIndexReq : Type := mkReadIndexReq { ri_term : Z; ri_leader_id : Z; ri_read_id : Z }.
Record ReadIndexResp : Type := mkReadIndexResp { rir_term : Z; rir_read_index : Z; rir_read_id : Z }.

Inductive RpcMessage : Type :=
| RequestVote (req : RequestVoteReq)
| RequestVoteRespM (resp : RequestVoteResp)
| AppendEntries (req : AppendEntriesReq)
| AppendEntriesRespM (resp : AppendEntriesResp)
| InstallSnapshot (req : InstallSnapshotReq)
| InstallSnapshotRespM (resp : InstallSnapshotResp)
| ReadIndex (req : ReadIndexReq)
| ReadIndexRespM (resp : ReadIndexResp).

(** ** membership.rs *)

Definition CONF_MAGIC : bytes := bs "NOEDB_CONF".

Record JointConfig : Type := mkJointConfig { outgoing : list Z; incoming : list Z }.

Definition outgoing_quorum (j : JointConfig) : Z := len (outgoing j) / 2 + 1.
Definition incoming_quorum (j : JointConfig) : Z := len (incoming j) / 2 + 1.

Definition joint_add_voter (joint : option JointConfig) (voters : list Z) (id : Z) : option JointConfig :=
  match joint with
  | Some j => if bool_decide (id ∈ incoming j) then Some j
              else Some (mkJointConfig (outgoing j) (incoming j ++ [id]))
  | None => Some (mkJointConfig voters (if bool_decide (id ∈ voters) then voters else voters ++ [id]))
  end.

(** The joint configuration is taken and the voters become its incoming set. *)
Definition joint_finalize (joint : option JointConfig) (voters : list Z) : list Z :=
  match joint with Some j => incoming j | None => voters end.

Definition encode_conf_change (conf_ser : ConfChange -> bytes) (cc : ConfChange) : bytes :=
  CONF_MAGIC ++ conf_ser cc.

Definition decode_conf_change (conf_deser : bytes -> option ConfChange) (cmd : bytes)
    : option ConfChange :=
  if starts_with CONF_MAGIC cmd then conf_deser (drop (length CONF_MAGIC) cmd) else None.

(** ** raft_core.rs *)

Inductive Action : Type :=
| PersistHardState
| PersistLog (from : Z) (entries : list RLogEntry)
| Send (to : Z) (msg : RpcMessage)
| Apply (cmds : list bytes)
| SnapshotA (snap : Snapshot).

Record Raft : Type := mkRaft {
  r_config : RaftConfig;
  r_hard : HardState;
  r_soft : SoftState;
  r_log : RaftLog;
  r_progress : gmap Z Progress;
  r_votes : gset Z;
  r_election_remaining_ms : Z;
  r_heartbeat_remaining_ms : Z;
  r_pending_reads : list (Z * Z);
  r_joint_config : option JointConfig;
  r_compact_threshold : Z;
}.

Definition Raft_new (config : RaftConfig) (hard : HardState) (log : RaftLog) (et : Z) : Raft :=
  mkRaft config hard SoftState_default log ∅ ∅ (RaftConfig_election_timeout config et) 0 [] None 64.

Inductive RaftError : Type := Internal (msg : string) | Transport (msg : string).

(** Field updates. *)
Definition set_config (f : RaftConfig -> RaftConfig) (r : Raft) : Raft :=
  mkRaft (f (r_config r)) (r_hard r) (r_soft r) (r_log r) (r_progress r) (r_votes r)
    (r_election_remaining_ms r) (r_heartbeat_remaining_ms r) (r_pending_reads r)
    (r_joint_config r) (r_compact_threshold r).
Definition set_hard (f : HardState -> HardState) (r : Raft) : Raft :=
  mkRaft (r_config r) (f (r_hard r)) (r_soft r) (r_log r) (r_progress r) (r_votes r)
    (r_election_remaining_ms r) (r_heartbeat_remaining_ms r) (r_pending_reads r)
    (r_joint_config r) (r_compact_threshold r).
Definition set_soft (s : SoftState) (r : Raft) : Raft :=
  mkRaft (r_config r) (r_hard r) s (r_log r) (r_progress r) (r_votes r)
    (r_election_remaining_ms r) (r_heartbeat_remaining_ms r) (r_pending_reads r)
    (r_joint_config r) (r_compact_threshold r).
Definition set_log (f : RaftLog -> RaftLog) (r : Raft) : Raft :=
  mkRaft (r_config r) (r_hard r) (r_soft r) (f (r_log r)) (r_progress r) (r_votes r)
    (r_election_remaining_ms r) (r_heartbeat_remaining_ms r) (r_pending_reads r)
    (r_joint_config r) (r_compact_threshold r).
Definition set_progress (f : gmap Z Progress -> gmap Z Progress) (r : Raft) : Raft :=
  mkRaft (r_config r) (r_hard r) (r_soft r) (r_log r) (f (r_progress r)) (r_votes r)
    (r_election_remaining_ms r) (r_heartbeat_remaining_ms r) (r_pending_reads r)
    (r_joint_config r) (r_compact_threshold r).
Definition set_votes (v : gset Z) (r : Raft) : Raft :=
  mkRaft (r_config r) (r_hard r) (r_soft r) (r_log r) (r_progress r) v
    (r_election_remaining_ms r) (r_heartbeat_remaining_ms r) (r_pending_reads r)
    (r_joint_config r) (r_compact_threshold r).
Definition set_election (ms : Z) (r : Raft) : Raft :=
  mkRaft (r_config r) (r_hard r) (r_soft r) (r_log r) (r_progress r) (r_votes r)
    ms (r_heartbeat_remaining_ms r) (r_pending_reads r) (r_joint_config r) (r_compact_threshold r).
Definition set_heartbeat (ms : Z) (r : Raft) : Raft :=
  mkRaft (r_config r) (r_hard r) (r_soft r) (r_log r) (r_progress r) (r_votes r)
    (r_election_remaining_ms r) ms (r_pending_reads r) (r_joint_config r) (r_compact_threshold r).
Definition set_reads (f : list (Z * Z) -> list (Z * Z)) (r : Raft) : Raft :=
  mkRaft (r_config r) (r_hard r) (r_soft r) (r_log r) (r_progress r) (r_votes r)
    (r_election_remaining_ms r) (r_heartbeat_remaining_ms r) (f (r_pending_reads r))
    (r_joint_config r) (r_compact_threshold r).
Definition set_joint (j : option JointConfig) (r : Raft) : Raft :=
  mkRaft (r_config r) (r_hard r) (r_soft r) (r_log r) (r_progress r) (r_votes r)
    (r_election_remaining_ms r) (r_heartbeat_remaining_ms r) (r_pending_reads r)
    j (r_compact_threshold r).

Definition set_commit (i : Z) (h : HardState) : HardState :=
  mkHardState (current_term h) (voted_for h) i (last_applied h).
Definition set_applied (i : Z) (h : HardState) : HardState :=
  mkHardState (current_term h) (voted_for h) (commit_index h) i.
Definition set_vote (v : option Z) (h : HardState) : HardState :=
  mkHardState (current_term h) v (commit_index h) (last_applied h).
Definition set_term_vote (t : Z) (v : option Z) (h : HardState) : HardState :=
  mkHardState t v (commit_index h) (last_applied h).

Abbreviation r_role r := (role (r_soft r)).
Abbreviation r_term r := (current_term (r_hard r)).
Abbreviation r_id r := (cfg_id (r_config r)).
Abbreviation r_voters r := (cfg_voters (r_config r)).

Definition is_leader (r : Raft) : bool := bool_decide (r_role r = Leader).

(** *** Quorums *)

(** The count of one voter list: the node itself and the peers whose
    [match_index] reached [index]. *)
Definition replicated_count (r : Raft) (peers : list Z) (index : Z) : Z :=
  1 + len (filter (fun peer => peer <> r_id r /\
        match r_progress r !! peer with Some p => match_index p >=? index | None => false end = true) peers).

Definition has_quorum_for_index (r : Raft) (index : Z) : bool :=
  match r_joint_config r with
  | Some joint =>
      (replicated_count r (outgoing joint) index >=? outgoing_quorum joint) &&
      (replicated_count r (incoming joint) index >=? incoming_quorum joint)
  | None => replicated_count r (r_voters r) index >=? RaftConfig_quorum (r_config r)
  end.

Definition log_is_up_to_date (r : Raft) (last_index last_term : Z) : bool :=
  let my_last := RaftLog_last_index (r_log r) in
  let my_term := RaftLog_term_at (r_log r) my_last in
  (last_term >? my_term) || ((last_term =? my_term) && (last_index >=? my_last)).

(** *** Replication *)

Definition append_to_peer (r : Raft) (peer : Z) : list Action :=
  if negb (is_leader r) then [] else
  let next := match r_progress r !! peer with Some p => next_index p | None => 1 end in
  let prev := LogIndex_prev next in
  if (next =? 1) && (RaftLog_last_index (r_log r) >? r_compact_threshold r) then
    [Send peer (InstallSnapshot (mkInstallSnapshotReq (r_term r) (r_id r)
       (last_applied (r_hard r)) (RaftLog_term_at (r_log r) (last_applied (r_hard r))) [] 0 true))]
  else
    [Send peer (AppendEntries (mkAppendEntriesReq (r_term r) (r_id r) prev
       (RaftLog_term_at (r_log r) prev)
       (take (Z.to_nat (max_append_batch (r_config r))) (RaftLog_slice_from (r_log r) next))
       (commit_index (r_hard r))))].

Definition other_voters (r : Raft) : list Z := filter (fun p => p <> r_id r) (r_voters r).

Definition broadcast_append (r : Raft) : list Action :=
  if negb (is_leader r) then [] else flat_map (append_to_peer r) (other_voters r).

(** The progress table of a fresh leader: everyone at the end of the log. *)
Definition fresh_progress (r : Raft) : gmap Z Progress :=
  fold_left (fun m peer => <[peer := mkProgress (LogIndex_next (RaftLog_last_index (r_log r))) 0]> m)
    (other_voters r) ∅.

Definition rebuild_progress (r : Raft) : Raft :=
  if is_leader r then set_progress (fun _ => fresh_progress r) r else r.

(** *** Roles *)

Definition reset_election_timer (et : Z) (r : Raft) : Raft :=
  set_election (RaftConfig_election_timeout (r_config r) et) r.

Definition become_follower (et term : Z) (leader : option Z) (r : Raft) : Raft * list Action :=
  let r := set_reads (fun _ => []) (set_progress (fun _ => ∅)
             (set_votes ∅ (set_soft (mkSoftState Follower leader) r))) in
  let r := if term >? r_term r then set_hard (set_term_vote term None) r else r in
  (reset_election_timer et r, [PersistHardState]).

Definition become_leader (r : Raft) : Raft * list Action :=
  let r := set_soft (mkSoftState Leader (Some (r_id r))) r in
  let r := set_heartbeat 0 (set_progress (fun _ => fresh_progress r) r) in
  (r, broadcast_append r).

Definition become_candidate (et : Z) (r : Raft) : Raft * list Action :=
  let term := Term_next (r_term r) in
  let r := set_hard (set_term_vote term (Some (r_id r))) r in
  let r := set_votes {[r_id r]} (set_soft (mkSoftState Candidate None) r) in
  let r := reset_election_timer et r in
  let last := RaftLog_last_index (r_log r) in
  let last_term := RaftLog_term_at (r_log r) last in
  let actions := PersistHardState ::
    map (fun peer => Send peer (RequestVote (mkRequestVoteReq term (r_id r) last last_term)))
        (other_voters r) in
  if Z.of_nat (size (r_votes r)) >=? RaftConfig_quorum (r_config r)
  then let '(r, more) := become_leader r in (r, actions ++ more)
  else (r, actions).

Definition start_election (et : Z) (r : Raft) : Raft * list Action :=
  if is_leader r then (r, []) else become_candidate et r.

Definition tick (et elapsed_ms : Z) (r : Raft) : Raft * list Action :=
  if is_leader r then
    if r_heartbeat_remaining_ms r <=? elapsed_ms then
      let r := set_heartbeat (heartbeat_interval (r_config r)) r in (r, broadcast_append r)
    else (set_heartbeat (r_heartbeat_remaining_ms r - elapsed_ms) r, [])
  else if r_election_remaining_ms r <=? elapsed_ms then start_election et r
  else (set_election (r_election_remaining_ms r - elapsed_ms) r, []).

(** *** Committing and applying *)

Section core.
Context (conf_ser : ConfChange -> bytes) (conf_deser : bytes -> option ConfChange).

Definition apply_conf_change (cc : ConfChange) (r : Raft) : Raft * list Action :=
  match cc with
  | AddVoter id =>
      if bool_decide (id ∈ r_voters r) then (r, [PersistHardState])
      else
        let voters := joint_finalize (joint_add_voter (r_joint_config r) (r_voters r) id) (r_voters r) in
        (rebuild_progress (set_joint None (set_config (fun c =>
           mkRaftConfig (cfg_id c) voters (election_timeout_min c) (election_timeout_max c)
             (heartbeat_interval c) (max_append_batch c)) r)), [PersistHardState])
  | RemoveVoter id =>
      if len (r_voters r) >? 1 then
        (rebuild_progress (set_joint None (set_config (fun c =>
           mkRaftConfig (cfg_id c) (filter (fun v => v <> id) (cfg_voters c)) (election_timeout_min c)
             (election_timeout_max c) (heartbeat_interval c) (max_append_batch c)) r)),
         [PersistHardState])
      else (r, [PersistHardState])
  end.

(** One turn of the [while last_applied < commit_index] loop. *)
Definition apply_next (st : Raft * list bytes * list Action) : Raft * list bytes * list Action :=
  let '(r, cmds, actions) := st in
  let next := LogIndex_next (last_applied (r_hard r)) in
  let '(r, cmds, actions) :=
    match RaftLog_get (r_log r) next with
    | Some e =>
        match decode_conf_change conf_deser (re_command e) with
        | Some cc => let '(r, acts) := apply_conf_change cc r in (r, cmds, actions ++ acts)
        | None => match re_command e with
                  | [] => (r, cmds, actions)
                  | c => (r, cmds ++ [c], actions)
                  end
        end
    | None => (r, cmds, actions)
    end in
  (set_hard (set_applied next) r, cmds, actions).

(** The loop runs once for each index between the two. *)
Definition apply_committed (r : Raft) : Raft * list Action :=
  let n := Z.to_nat (commit_index (r_hard r) - last_applied (r_hard r)) in
  let '(r, cmds, actions) := Nat.iter n apply_next (r, [], []) in
  let actions := match cmds with [] => actions | _ => actions ++ [Apply cmds] end in
  (r, match actions with [] => [] | _ => actions ++ [PersistHardState] end).

Definition try_confirm_reads (r : Raft) : Raft :=
  set_reads (filter (fun e => e.2 > commit_index (r_hard r))) r.

(** The loop over [commit_index + 1 ..= last_index], a range fixed before it. *)
Definition advance_to (st : Raft * list Action) (idx : Z) : Raft * list Action :=
  let '(r, actions) := st in
  if negb (RaftLog_term_at (r_log r) idx =? r_term r) then (r, actions)
  else if has_quorum_for_index r idx then
    (set_hard (set_commit idx) r, actions ++ [PersistHardState])
  else (r, actions).

Definition index_range_incl (first last : Z) : list Z :=
  map (fun k => first + Z.of_nat k) (seq 0 (Z.to_nat (last + 1 - first))).

Definition try_advance_commit (r : Raft) : Raft * list Action :=
  let '(r, actions) := fold_left advance_to
    (index_range_incl (commit_index (r_hard r) + 1) (RaftLog_last_index (r_log r))) (r, []) in
  let '(r, acts) := apply_committed r in
  let actions := actions ++ acts in
  let r := try_confirm_reads r in
  if is_leader r && (sat 64 (RaftLog_last_index (r_log r) - last_applied (r_hard r)) >?
                     r_compact_threshold r)
  then (r, actions ++ [SnapshotA (mkSnapshot (last_applied (r_hard r))
                        (RaftLog_term_at (r_log r) (last_applied (r_hard r))) [])])
  else (r, actions).

(** *** Client requests *)

(** The common part of [propose] and [read_index]. *)
Definition append_entry (cmd : bytes) (r : Raft) : Raft * list Action :=
  let entry := mkRLogEntry (r_term r) cmd in
  let from := RaftLog_last_index (r_log r) in
  (set_log (fun l => RaftLog_append l [entry]) r, [PersistLog (LogIndex_next from) [entry]]).

Definition propose (cmd : bytes) (r : Raft) : outcome RaftError (Raft * list Action) :=
  if negb (is_leader r) then Err (Internal "not leader")
  else let '(r, actions) := append_entry cmd r in Ok (r, actions ++ broadcast_append r).

Definition read_index (read_id : Z) (r : Raft) : outcome RaftError (Raft * list Action) :=
  if negb (is_leader r) then Err (Internal "not leader")
  else
    let '(r, actions) := append_entry [] r in
    let r := set_reads (fun l => l ++ [(read_id, RaftLog_last_index (r_log r))]) r in
    Ok (r, actions ++ broadcast_append r).

Definition propose_conf_change (cc : ConfChange) (r : Raft) : outcome RaftError (Raft * list Action) :=
  if negb (is_leader r) then Err (Internal "not leader")
  else propose (encode_conf_change conf_ser cc) r.

(** *** Inbound requests *)

Definition handle_request_vote (et : Z) (req : RequestVoteReq) (r : Raft)
    : Raft * option RpcMessage * list Action :=
  if rv_term req <? r_term r then
    (r, Some (RequestVoteRespM (mkRequestVoteResp (r_term r) false)), [])
  else
    let '(r, actions) := if rv_term req >? r_term r then become_follower et (rv_term req) None r
                         else (r, []) in
    if (bool_decide (voted_for (r_hard r) = None) ||
        bool_decide (voted_for (r_hard r) = Some (rv_candidate_id req)))
       && log_is_up_to_date r (rv_last_log_index req) (rv_last_log_term req)
    then
      let r := reset_election_timer et (set_hard (set_vote (Some (rv_candidate_id req))) r) in
      (r, Some (RequestVoteRespM (mkRequestVoteResp (r_term r) true)), actions ++ [PersistHardState])
    else (r, Some (RequestVoteRespM (mkRequestVoteResp (r_term r) false)), actions).

Definition append_resp (r : Raft) (success : bool) : RpcMessage :=
  AppendEntriesRespM (mkAppendEntriesResp (r_term r) success (RaftLog_last_index (r_log r))).

Definition handle_append_entries (et : Z) (req : AppendEntriesReq) (r : Raft)
    : Raft * option RpcMessage * list Action :=
  if ae_term req <? r_term r then (r, Some (append_resp r false), [])
  else
    let '(r, actions) :=
      if (ae_term req >? r_term r) ||
         ((ae_term req =? r_term r) && is_leader r && negb (ae_leader_id req =? r_id r))
      then become_follower et (ae_term req) (Some (ae_leader_id req)) r
      else (reset_election_timer et (set_soft (mkSoftState (r_role r) (Some (ae_leader_id req))) r), []) in
    if negb (RaftLog_term_at (r_log r) (ae_prev_log_index req) =? ae_prev_log_term req)
    then (r, Some (append_resp r false), actions)
    else
      let '(r, actions) :=
        match ae_entries req with
        | [] => (r, actions)
        | entries =>
            (set_log (fun l => RaftLog_append (RaftLog_truncate_from l (ae_prev_log_index req)) entries) r,
             actions ++ [PersistLog (LogIndex_next (ae_prev_log_index req)) entries])
        end in
      let '(r, actions) :=
        if ae_leader_commit req >? commit_index (r_hard r) then
          let commit := Z.min (ae_leader_commit req) (RaftLog_last_index (r_log r)) in
          if RaftLog_term_at (r_log r) commit =? ae_term req then
            let '(r, acts) := apply_committed (set_hard (set_commit commit) r) in
            (r, actions ++ PersistHardState :: acts)
          else (r, actions)
        else (r, actions) in
      (r, Some (append_resp r true), actions).

Definition handle_install_snapshot (et : Z) (req : InstallSnapshotReq) (r : Raft)
    : Raft * option RpcMessage * list Action :=
  let '(r, actions) :=
    if is_term req >=? r_term r then
      let '(r, actions) := become_follower et (is_term req) (Some (is_leader_id req)) r in
      let r := set_log (fun _ => RaftLog_restore (is_last_included_index req)
                                   (is_last_included_term req) []) r in
      if is_done req then
        (set_hard (fun h => set_applied (is_last_included_index req)
                              (set_commit (is_last_included_index req) h)) r,
         actions ++ [SnapshotA (mkSnapshot (is_last_included_index req) (is_last_included_term req)
                                  (is_data req)); PersistHardState])
      else (r, actions)
    else (r, []) in
  (r, Some (InstallSnapshotRespM (mkInstallSnapshotResp (r_term r))), actions).

Definition handle_read_index (req : ReadIndexReq) (r : Raft)
    : Raft * option RpcMessage * list Action :=
  if negb (is_leader r) || negb (ri_term req =? r_term r) then (r, None, [])
  else
    let read_index := RaftLog_last_index (r_log r) in
    let r := set_reads (fun l => l ++ [(ri_read_id req, read_index)]) r in
    let actions := broadcast_append r in
    let r := try_confirm_reads r in
    (r, Some (ReadIndexRespM (mkReadIndexResp (r_term r) read_index (ri_read_id req))), actions).

Definition Raft_step (et from : Z) (msg : RpcMessage) (r : Raft)
    : Raft * option RpcMessage * list Action :=
  match msg with
  | RequestVote req => handle_request_vote et req r
  | AppendEntries req => handle_append_entries et req r
  | InstallSnapshot req => handle_install_snapshot et req r
  | ReadIndex req => handle_read_index req r
  | other => (r, None, [Send from other])
  end.

(** *** Inbound responses *)

Definition step_vote_response (et from : Z) (resp : RequestVoteResp) (r : Raft) : Raft * list Action :=
  if rvr_term resp >? r_term r then become_follower et (rvr_term resp) None r
  else if negb (bool_decide (r_role r = Candidate)) || negb (rvr_term resp =? r_term r) then (r, [])
  else
    let r := if rvr_vote_granted resp then set_votes ({[from]} ∪ r_votes r) r else r in
    if Z.of_nat (size (r_votes r)) >=? RaftConfig_quorum (r_config r) then become_leader r else (r, []).

Definition step_append_response (et from : Z) (resp : AppendEntriesResp) (r : Raft)
    : Raft * list Action :=
  if aer_term resp >? r_term r then become_follower et (aer_term resp) None r
  else if negb (is_leader r) then (r, [])
  else match r_progress r !! from with
       | None => (r, [])
       | Some prog =>
           let prog' :=
             if aer_success resp
             then mkProgress (LogIndex_next (aer_last_log_index resp)) (aer_last_log_index resp)
             else mkProgress (Z.max (sat 64 (next_index prog - 1)) 1) (match_index prog) in
           let r := set_progress (insert from prog') r in
           let '(r, actions) := try_advance_commit r in
           let next := match r_progress r !! from with Some p => next_index p | None => 0 end in
           if next <=? RaftLog_last_index (r_log r) then (r, actions ++ append_to_peer r from)
           else (r, actions)
       end.
End core.
