(* ===== verification/RaftNode.v ===== *)
(** * Raft nodes, their storage, and a cluster of them
      (crates/noedb-raft/src/storage.rs, node.rs, sim.rs, security.rs)

    [RaftStorage] is the storage trait as a class of operations, [StorageLaws]
    what a node relies on; [MemStorage] is an instance.  [RaftNode] runs the
    actions of the core against its storage and collects the messages to send.
    [Cluster] is the in-process simulator: the source iterates a [HashMap] of
    nodes in an arbitrary order, here in ascending order of ids. *)

From S2P Require Import Prelude BTree Raft.

(** ** storage.rs *)

Class RaftStorage (T : Type) : Type := {
  load_hard_state : T -> HardState;
  save_hard_state : HardState -> T -> T;
  load_log : T -> RaftLog;
  storage_append : Z -> list RLogEntry -> T -> T;
  load_snapshot : T -> option Snapshot;
  save_snapshot : Snapshot -> T -> T;
}.

(** What a node relies on: a saved hard state is the one loaded, and the log
    operations leave it alone. *)
Class StorageLaws (T : Type) `{RaftStorage T} : Prop := {
  load_save_hard : forall h (s : T), load_hard_state (save_hard_state h s) = h;
  load_append_hard : forall i es (s : T), load_hard_state (storage_append i es s) = load_hard_state s;
  load_snapshot_hard : forall sn (s : T), load_hard_state (save_snapshot sn s) = load_hard_state s;
  load_save_log : forall h (s : T), load_log (save_hard_state h s) = load_log s;
  load_append_log : forall i es (s : T),
    load_log (storage_append i es s) =
    RaftLog_append (RaftLog_truncate_from (load_log s) (LogIndex_prev i)) es;
  load_snapshot_log : forall sn (s : T),
    load_log (save_snapshot sn s) = RaftLog_restore (snap_index sn) (snap_term sn) [];
}.

Record MemStorage : Type := mkMemStorage {
  ms_hard : HardState; ms_log : RaftLog; ms_snapshot : option Snapshot;
}.

Definition MemStorage_new : MemStorage := mkMemStorage HardState_default RaftLog_new None.

Definition MemStorage_save_hard_state (hs : HardState) (s : MemStorage) : MemStorage :=
  mkMemStorage hs (ms_log s) (ms_snapshot s).

Definition MemStorage_append (from_index : Z) (entries : list RLogEntry) (s : MemStorage) : MemStorage :=
  mkMemStorage (ms_hard s)
    (RaftLog_append (RaftLog_truncate_from (ms_log s) (LogIndex_prev from_index)) entries)
    (ms_snapshot s).

Definition MemStorage_save_snapshot (snap : Snapshot) (s : MemStorage) : MemStorage :=
  mkMemStorage (ms_hard s) (RaftLog_restore (snap_index snap) (snap_term snap) []) (Some snap).

#[global] Instance MemStorage_storage : RaftStorage MemStorage := {
  load_hard_state := ms_hard; save_hard_state := MemStorage_save_hard_state;
  load_log := ms_log; storage_append := MemStorage_append;
  load_snapshot := ms_snapshot; save_snapshot := MemStorage_save_snapshot;
}.

#[global] Instance MemStorage_laws : StorageLaws MemStorage.
Proof. by split. Qed.

(** ** node.rs *)

Section node.
Context (conf_ser : ConfChange -> bytes) (conf_deser : bytes -> option ConfChange).
Context {T : Type} `{RaftStorage T}.

Record RaftNode : Type := mkRaftNode {
  n_raft : Raft;
  n_storage : T;
  n_applied : list bytes;
}.

Definition RaftNode_open (config : RaftConfig) (storage : T) (et : Z) : RaftNode :=
  mkRaftNode (Raft_new config (load_hard_state storage) (load_log storage) et) storage [].

(** One action; a [Send] adds to the outbound messages. *)
Definition exec_action (st : RaftNode * list (Z * RpcMessage)) (a : Action)
    : RaftNode * list (Z * RpcMessage) :=
  let '(n, out) := st in
  match a with
  | PersistHardState =>
      (mkRaftNode (n_raft n) (save_hard_state (r_hard (n_raft n)) (n_storage n)) (n_applied n), out)
  | PersistLog from entries =>
      (mkRaftNode (n_raft n) (storage_append from entries (n_storage n)) (n_applied n), out)
  | Apply cmds => (mkRaftNode (n_raft n) (n_storage n) (n_applied n ++ cmds), out)
  | SnapshotA snap =>
      (mkRaftNode (set_log (fun _ => RaftLog_restore (snap_index snap) (snap_term snap) []) (n_raft n))
         (save_snapshot snap (n_storage n)) (n_applied n), out)
  | Send to msg => (n, out ++ [(to, msg)])
  end.

Definition exec_actions (n : RaftNode) (actions : list Action) : RaftNode * list (Z * RpcMessage) :=
  fold_left exec_action actions (n, []).

Definition with_raft (n : RaftNode) (r : Raft) : RaftNode :=
  mkRaftNode r (n_storage n) (n_applied n).

Definition dispatch (et from : Z) (msg : RpcMessage) (r : Raft)
    : Raft * option RpcMessage * list Action :=
  match msg with
  | RequestVoteRespM resp =>
      let '(r, actions) := step_vote_response et from resp r in (r, None, actions)
  | AppendEntriesRespM resp =>
      let '(r, actions) := step_append_response conf_deser et from resp r in (r, None, actions)
  | other => Raft_step conf_deser et from other r
  end.

Definition RaftNode_tick_ms (et ms : Z) (n : RaftNode) : RaftNode * list (Z * RpcMessage) :=
  let '(r, actions) := tick et ms (n_raft n) in exec_actions (with_raft n r) actions.

Definition RaftNode_step (et from : Z) (msg : RpcMessage) (n : RaftNode)
    : RaftNode * option RpcMessage * list (Z * RpcMessage) :=
  let '(r, resp, actions) := dispatch et from msg (n_raft n) in
  let '(n, out) := exec_actions (with_raft n r) actions in
  (n, resp, out).

(** A client request: the core's error, or its actions executed. *)
Definition run_request (m : outcome RaftError (Raft * list Action)) (n : RaftNode)
    : outcome RaftError (RaftNode * list (Z * RpcMessage)) :=
  let? '(r, actions) := m in Ok (exec_actions (with_raft n r) actions).

Definition RaftNode_propose (cmd : bytes) (n : RaftNode) :=
  run_request (propose cmd (n_raft n)) n.
Definition RaftNode_read_index (read_id : Z) (n : RaftNode) :=
  run_request (read_index read_id (n_raft n)) n.
Definition RaftNode_propose_conf_change (cc : ConfChange) (n : RaftNode) :=
  run_request (propose_conf_change conf_ser cc (n_raft n)) n.
End node.
Arguments RaftNode : clear implicits.
Arguments mkRaftNode {T} _ _ _.
Arguments n_raft {T} _.
Arguments n_storage {T} _.
Arguments n_applied {T} _.

(** ** sim.rs *)

Section cluster.
Context (conf_ser : ConfChange -> bytes) (conf_deser : bytes -> option ConfChange).

Abbreviation MemNode := (RaftNode MemStorage).

Record Cluster : Type := mkCluster {
  cl_nodes : gmap Z MemNode;
  cl_inbox : list (Z * Z * RpcMessage);
}.

Definition Cluster_new_voters (n : nat) : Cluster :=
  let voters := map Z.of_nat (seq 1 n) in
  mkCluster (list_to_map (map (fun id =>
    (id, RaftNode_open (RaftConfig_simulation id voters) MemStorage_new 0)) voters)) [].

Definition post (id : Z) (sends : list (Z * RpcMessage)) (c : Cluster) : Cluster :=
  mkCluster (cl_nodes c) (cl_inbox c ++ map (fun s => (id, s.1, s.2)) sends).

Definition set_node (id : Z) (n : MemNode) (c : Cluster) : Cluster :=
  mkCluster (<[id := n]> (cl_nodes c)) (cl_inbox c).

Definition tick_all (ms : Z) (c : Cluster) : Cluster :=
  fold_left (fun c id =>
    match cl_nodes c !! id with
    | Some n => let '(n, sends) := RaftNode_tick_ms 0 ms n in post id sends (set_node id n c)
    | None => c
    end) (btree_iter (cl_nodes c)).*1 c.

(** One turn of the delivery loop. *)
Definition deliver_one (c : Cluster) : Cluster :=
  match cl_inbox c with
  | [] => c
  | (from, to, msg) :: rest =>
      let c := mkCluster (cl_nodes c) rest in
      match cl_nodes c !! to with
      | None => c
      | Some n =>
          let '(n, resp, sends) := RaftNode_step conf_deser 0 from msg n in
          let c := set_node to n c in
          let c := match resp with Some m => post to [(from, m)] c | None => c end in
          post to sends c
      end
  end.

(** [deliver_all] until the inbox is empty, for at most [fuel] messages. *)
Fixpoint deliver_all (fuel : nat) (c : Cluster) : Cluster :=
  match fuel with
  | O => c
  | S fuel' => match cl_inbox c with [] => c | _ => deliver_all fuel' (deliver_one c) end
  end.

Definition cluster_leader (c : Cluster) : option Z :=
  match filter (fun e => is_leader (n_raft e.2) = true) (btree_iter (cl_nodes c)) with
  | [e] => Some e.1
  | _ => None
  end.

Fixpoint drive_quiescent (fuel max_rounds : nat) (c : Cluster) : Cluster :=
  match max_rounds with
  | O => c
  | S k => drive_quiescent fuel k (tick_all 25 (deliver_all fuel c))
  end.

(** [run_rounds]: at most 256 deliveries of the whole inbox per tick *)
Fixpoint deliver_rounds (fuel rounds : nat) (c : Cluster) : Cluster :=
  match rounds with
  | O => c
  | S k => match cl_inbox c with [] => c | _ => deliver_rounds fuel k (deliver_all fuel c) end
  end.
Fixpoint run_rounds (fuel max_rounds : nat) (c : Cluster) : Cluster :=
  match max_rounds with
  | O => c
  | S k => run_rounds fuel k (deliver_rounds fuel 256 (tick_all 25 c))
  end.

(** A request to the leader: its messages are queued.  What the cluster did stays done
    when the request fails. *)
Definition on_leader {A} (req : MemNode -> outcome RaftError (MemNode * list (Z * RpcMessage)))
    (k : Z -> Cluster -> outcome RaftError A * Cluster) (c : Cluster) : outcome RaftError A * Cluster :=
  match cluster_leader c with
  | None => (Err (Internal "no leader"), c)
  | Some id =>
      match cl_nodes c !! id with
      | None => (Panic, c)
      | Some n =>
          match req n with
          | Ok (n, sends) => k id (post id sends (set_node id n c))
          | Err e => (Err e, c)
          | Panic => (Panic, c)
          end
      end
  end.

Definition propose_on_leader (fuel : nat) (cmd : bytes) : Cluster -> outcome RaftError unit * Cluster :=
  on_leader (RaftNode_propose cmd) (fun id c =>
    let c := drive_quiescent fuel 16 c in
    match cl_nodes c !! id with
    | Some n' => (if bool_decide (n_applied n' = []) then Err (Internal "not replicated") else Ok tt, c)
    | None => (Err (Internal "not replicated"), c)
    end).

Definition raft_role (c : Cluster) (id : Z) : option Role := (fun n : MemNode => r_role (n_raft n)) <$> cl_nodes c !! id.
Definition cluster_voter_ids (c : Cluster) : list Z := (btree_iter (cl_nodes c)).*1.
Definition voter_count (c : Cluster) : nat := size (cl_nodes c).
Definition applied_count (c : Cluster) : nat := list_sum (map (fun e : Z * MemNode => length (n_applied e.2)) (btree_iter (cl_nodes c))).

Definition cluster_commit_index (c : Cluster) (id : Z) : option Z :=
  (fun n : MemNode => commit_index (r_hard (n_raft n))) <$> cl_nodes c !! id.

Definition applied_at (c : Cluster) (id : Z) : option (list bytes) :=
  n_applied <$> cl_nodes c !! id.

(** The read barrier: drive until the leader has committed its log *)
Fixpoint barrier_loop (fuel tries : nat) (leader target : Z) (c : Cluster) : outcome RaftError Z * Cluster :=
  match tries with
  | O => (Err (Internal "read index barrier timeout"), c)
  | S k =>
      let c := drive_quiescent fuel 8 c in
      match cluster_commit_index c leader with
      | None => (Panic, c)
      | Some i => if target <=? i then (Ok target, c) else barrier_loop fuel k leader target c
      end
  end.
Definition linearizable_barrier (fuel : nat) : Cluster -> outcome RaftError Z * Cluster :=
  on_leader (RaftNode_read_index 1) (fun leader c =>
    match cl_nodes c !! leader with
    | None => (Panic, c)
    | Some n => barrier_loop fuel 48 leader (RaftLog_last_index (r_log (n_raft n))) c
    end).

Definition add_voter (fuel : nat) (id : Z) (c : Cluster) : outcome RaftError unit * Cluster :=
  if bool_decide (is_Some (cl_nodes c !! id)) then (Ok tt, c)
  else
    let voters := merge_sort Z.le ((btree_iter (cl_nodes c)).*1 ++ [id]) in
    let c := run_rounds fuel 8 (set_node id (RaftNode_open (RaftConfig_simulation id voters) MemStorage_new 0) c) in
    on_leader (RaftNode_propose_conf_change conf_ser (AddVoter id)) (fun _ c => (Ok tt, drive_quiescent fuel 32 c)) c.

Definition remove_node (id : Z) (c : Cluster) : Cluster :=
  mkCluster (delete id (cl_nodes c)) (filter (fun e => e.1.2 <> id) (cl_inbox c)).
End cluster.

(** ** security.rs *)

Definition MAX_FRAME_BYTES : Z := 1024 * 1024.
Definition WIRE_MAGIC : Z := 0x4E524654.

(** The 32-byte token mixed from a passphrase, byte by byte. *)
Definition mix_byte (state : list Z) (ib : nat * byte) : list Z :=
  let '(i, b) := ib in
  let a := (i mod 32)%nat in
  let c := ((i + 7) mod 32)%nat in
  let state := <[a := Z.lxor (state !!! a) (wrap 8 (b2z b * wrap 8 (Z.of_nat i + 31)))]> state in
  <[c := wrap 8 (state !!! c + b2z b)]> state.

Definition from_passphrase (p : bytes) : list Z :=
  fold_left mix_byte (imap pair p) (replicate 32 0).

Definition auth_verify (a b : list Z) : bool :=
  fold_left (fun diff ab => Z.lor diff (Z.lxor ab.1 ab.2)) (zip a b) 0 =? 0.

Inductive SecurityError : Type := FrameTooLarge (size : Z) | BadMagic | AuthFailed | SecChecksumMismatch.

Record WireEnvelope : Type := mkWireEnvelope { we_magic : Z; we_auth : list Z; we_payload : bytes }.

Definition WireEnvelope_new (auth : list Z) (payload : bytes) : outcome SecurityError WireEnvelope :=
  if len payload >? MAX_FRAME_BYTES then Err (FrameTooLarge (len payload))
  else Ok (mkWireEnvelope WIRE_MAGIC auth payload).

Definition WireEnvelope_verify (e : WireEnvelope) (expected : list Z) : outcome SecurityError unit :=
  if negb (we_magic e =? WIRE_MAGIC) then Err BadMagic
  else if len (we_payload e) >? MAX_FRAME_BYTES then Err (FrameTooLarge (len (we_payload e)))
  else if negb (auth_verify expected (we_auth e)) then Err AuthFailed
  else Ok tt.
