(* ===== verification/RaftSafety.v ===== *)
(** * Election safety of the Raft cluster

    The nodes of [RaftNode] run on an asynchronous network that may lose,
    duplicate and reorder messages (a message once sent can be delivered at any
    later time, any number of times) and crash at any point: between handlers,
    or in the middle of running a handler's actions, when only a prefix of them
    has reached the storage and no message has left.  A restarted node is
    [RaftNode_open] on what its storage holds.  A [regime] says which
    commands may be proposed and whether nodes crash: election safety is proved for
    [fixed_members], where no proposed command carries the membership prefix, which is
    shown to keep the voter list of every node fixed.  The steps are generic in the storage, of
    which only the laws of [StorageLaws] are used. *)

From S2P Require Import Prelude BTree Raft RaftNode.

(** ** What the handlers leave alone *)

(** The part of the state that elections depend on. *)
Definition core (r : Raft) :=
  (r_config r, r_soft r, r_log r, r_votes r, (r_term r, voted_for (r_hard r))).

Definition plain (e : RLogEntry) : Prop := starts_with CONF_MAGIC (re_command e) = false.

#[global] Instance plain_dec e : Decision (plain e).
Proof. unfold plain. apply _. Defined.

Definition granted (T : Z) : RpcMessage := RequestVoteRespM (mkRequestVoteResp T true).

(** What a node sends of its own accord: requests in its own name, entries
    without membership changes, and no vote. *)
Definition msg_ok (id : Z) (m : RpcMessage) : Prop :=
  match m with
  | RequestVote req => rv_candidate_id req = id
  | AppendEntries req => Forall plain (ae_entries req)
  | RequestVoteRespM resp => rvr_vote_granted resp = false
  | _ => True
  end.

Definition act_ok (id : Z) (a : Action) : Prop :=
  match a with
  | Send _ m => msg_ok id m
  | PersistLog _ es => Forall plain es
  | _ => True
  end.

Lemma plain_not_conf deser e : plain e -> decode_conf_change deser (re_command e) = None.
Proof. unfold plain, decode_conf_change. by intros ->. Qed.

Lemma plain_get l i e : Forall plain l -> RaftLog_get l i = Some e -> plain e.
Proof.
  intros Hl. unfold RaftLog_get. case_test; [|done]. intros He.
  by eapply Forall_lookup_1 in He.
Qed.

Lemma plain_restore i t : Forall plain (RaftLog_restore i t []).
Proof.
  unfold RaftLog_restore. rewrite app_nil_r.
  case_test; [apply Forall_replicate|apply Forall_singleton]; done.
Qed.

Lemma plain_truncate l i : Forall plain l -> Forall plain (RaftLog_truncate_from l i).
Proof. intros H. unfold RaftLog_truncate_from. case_test; [by apply Forall_take|done]. Qed.

Lemma plain_slice l i : Forall plain l -> Forall plain (RaftLog_slice_from l i).
Proof. intros H. unfold RaftLog_slice_from. case_test; [done|by apply Forall_drop]. Qed.

Lemma act_ok_append r id peer :
  Forall plain (r_log r) -> Forall (act_ok id) (append_to_peer r peer).
Proof.
  intros Hp. unfold append_to_peer. repeat (case_test; try done).
  all: apply Forall_singleton; simpl; try done.
  all: by apply Forall_take, plain_slice.
Qed.

Lemma act_ok_broadcast r id : Forall plain (r_log r) -> Forall (act_ok id) (broadcast_append r).
Proof.
  intros Hp. unfold broadcast_append. case_test; [constructor|].
  apply Forall_flat_map. apply Forall_true. intros. by apply act_ok_append.
Qed.

#[global] Hint Resolve act_ok_append act_ok_broadcast plain_restore plain_truncate plain_slice : noedb.

Section frame.
Context (conf_deser : bytes -> option ConfChange).

Lemma apply_next_core r cmds acts :
  Forall plain (r_log r) ->
  exists r' cmds', apply_next conf_deser (r, cmds, acts) = (r', cmds', acts) /\ core r' = core r.
Proof.
  intros Hp. unfold apply_next. destruct (RaftLog_get _ _) as [e|] eqn:E.
  - rewrite plain_not_conf by (by eapply plain_get). destruct (re_command e); by eexists _, _.
  - by eexists _, _.
Qed.

Lemma core_log r r' : core r' = core r -> r_log r' = r_log r.
Proof. unfold core. congruence. Qed.

Lemma apply_iter_core n r cmds acts :
  Forall plain (r_log r) ->
  exists r' cmds', Nat.iter n (apply_next conf_deser) (r, cmds, acts) = (r', cmds', acts) /\
    core r' = core r.
Proof.
  intros Hp. induction n as [|n IH]; [by eexists _, _|]. simpl.
  destruct IH as (r1 & c1 & -> & H1).
  destruct (apply_next_core r1 c1 acts) as (r2 & c2 & -> & H2).
  { by rewrite (core_log _ _ H1). }
  exists r2, c2. split; [done|congruence].
Qed.

Lemma apply_committed_core r id :
  Forall plain (r_log r) ->
  core (apply_committed conf_deser r).1 = core r /\
  Forall (act_ok id) (apply_committed conf_deser r).2.
Proof.
  intros Hp. unfold apply_committed.
  destruct (apply_iter_core (Z.to_nat (commit_index (r_hard r) - last_applied (r_hard r))) r [] [] Hp)
    as (r' & cmds & -> & Hc).
  destruct cmds; simpl; (split; [done|]); repeat constructor.
Qed.

Lemma advance_core idxs r acts id :
  Forall (act_ok id) acts ->
  core (fold_left advance_to idxs (r, acts)).1 = core r /\
  Forall (act_ok id) (fold_left advance_to idxs (r, acts)).2.
Proof.
  revert r acts. induction idxs as [|i idxs IH]; intros r acts Ha; [done|]. cbn [fold_left].
  unfold advance_to at 2 4. case_test; [by apply IH|]. case_test; [|by apply IH].
  destruct (IH (set_hard (set_commit i) r) (acts ++ [PersistHardState])) as [-> ?]; [|done].
  apply Forall_app. split; [done|]. repeat constructor.
Qed.

Lemma try_advance_core r id :
  Forall plain (r_log r) ->
  core (try_advance_commit conf_deser r).1 = core r /\
  Forall (act_ok id) (try_advance_commit conf_deser r).2.
Proof.
  intros Hp. unfold try_advance_commit.
  destruct (advance_core (index_range_incl (commit_index (r_hard r) + 1)
    (RaftLog_last_index (r_log r))) r [] id) as [H1 H2]; [constructor|].
  destruct (fold_left _ _ _) as [r1 a1]. simpl in H1, H2.
  destruct (apply_committed_core r1 id) as [H3 H4]; [by rewrite (core_log _ _ H1)|].
  destruct (apply_committed conf_deser r1) as [r2 a2]. simpl in H3, H4.
  assert (core (try_confirm_reads r2) = core r) by (rewrite <- H1, <- H3; done).
  case_test; simpl; (split; [done|]); repeat (apply Forall_app; split); try done.
  repeat constructor.
Qed.
End frame.

(** ** What each handler guarantees *)

(** A later hard state: a higher term, or the same term with the vote kept or
    cast for the first time. *)
Definition hs_le (h h' : HardState) : Prop :=
  current_term h < current_term h' \/
  (current_term h' = current_term h /\ (voted_for h' = voted_for h \/ voted_for h = None)).

#[global] Instance hs_le_refl : Reflexive hs_le.
Proof. intros h. right. auto. Qed.

#[global] Instance hs_le_trans : Transitive hs_le.
Proof.
  intros a b c [H1|[H1 V1]] [H2|[H2 V2]]; [left; lia|left; lia|left; lia|].
  right. split; [congruence|]. destruct V1, V2; first [left; congruence | right; congruence].
Qed.

Abbreviation network := (list (Z * Z * RpcMessage)).

(** A candidate or leader has voted for itself, every other vote it counts was
    sent to it, and a leader counts a quorum. *)
Definition votes_ok (net : network) (id : Z) (r : Raft) : Prop :=
  r_role r <> Follower ->
  voted_for (r_hard r) = Some id /\
  (forall v, v ∈ r_votes r -> v = id \/ (v, id, granted (r_term r)) ∈ net) /\
  (r_role r = Leader -> RaftConfig_quorum (r_config r) <= Z.of_nat (size (r_votes r))).

(** The result of a handler run by node [id] in state [r]. *)
Record good (net : network) (id : Z) (r r' : Raft) (resp : list (Z * RpcMessage)) (acts : list Action)
    : Prop := {
  g_config : r_config r' = r_config r;
  g_hard : hs_le (r_hard r) (r_hard r');
  g_persist : PersistHardState ∈ acts \/
    (r_term r' = r_term r /\ voted_for (r_hard r') = voted_for (r_hard r));
  g_plain : Forall plain (r_log r');
  g_acts : Forall (act_ok id) acts;
  g_resp : forall to m, (to, m) ∈ resp ->
    msg_ok id m \/ (m = granted (r_term r') /\ voted_for (r_hard r') = Some to);
  g_votes : votes_ok net id r';
}.

Definition responses (from : Z) (resp : option RpcMessage) : list (Z * RpcMessage) :=
  match resp with Some m => [(from, m)] | None => [] end.

(** Only the core matters to most of the fields. *)
Lemma core_fields r r' :
  core r' = core r ->
  r_config r' = r_config r /\ r_soft r' = r_soft r /\ r_log r' = r_log r /\ r_votes r' = r_votes r /\
  r_term r' = r_term r /\ voted_for (r_hard r') = voted_for (r_hard r).
Proof. unfold core. intros [= -> -> -> -> -> ->]. done. Qed.

Lemma votes_ok_core net id r r' : core r' = core r -> votes_ok net id r -> votes_ok net id r'.
Proof.
  intros (Hc & Hs & _ & Hv & Ht & Hf)%core_fields. unfold votes_ok. by rewrite Hc, Hs, Hv, Ht, Hf.
Qed.

Lemma good_core net id r r' resp acts :
  core r' = core r -> Forall plain (r_log r) -> votes_ok net id r -> Forall (act_ok id) acts ->
  (forall to m, (to, m) ∈ resp -> msg_ok id m) -> good net id r r' resp acts.
Proof.
  intros Hc Hp Hv Ha Hr. pose proof (core_fields _ _ Hc) as (Hcf & _ & Hl & _ & Ht & Hf).
  split; try done.
  - right. rewrite Ht, Hf. auto.
  - by right.
  - by rewrite Hl.
  - intros to m Hin. left. by eapply Hr.
  - by eapply votes_ok_core.
Qed.

Lemma follower_votes_ok net id r : r_role r = Follower -> votes_ok net id r.
Proof. intros H Hn. by rewrite H in Hn. Qed.

(** [become_follower] at a term not below the current one. *)
Lemma become_follower_good net id et term leader r :
  r_term r <= term -> Forall plain (r_log r) ->
  good net id r (become_follower et term leader r).1 [] (become_follower et term leader r).2.
Proof.
  intros Ht Hp. unfold become_follower. simpl.
  split; simpl; try done.
  - by case_test.
  - case_test; simpl; [left; simpl; lia|right; auto].
  - left. by apply list_elem_of_singleton.
  - by case_test.
  - repeat constructor.
  - intros to m Hin. by apply not_elem_of_nil in Hin.
  - apply follower_votes_ok. by case_test.
Qed.

Lemma become_follower_fields et term leader r :
  r_term r <= term ->
  let r' := (become_follower et term leader r).1 in
  r_role r' = Follower /\ r_term r' = term /\ r_log r' = r_log r /\ r_config r' = r_config r.
Proof. intros Ht. unfold become_follower. simpl. case_test; simpl; repeat split; lia. Qed.

(** Sequencing a [become_follower] with changes that keep the core. *)
Lemma good_after_follower net id et term leader r r' resp acts :
  r_term r <= term -> Forall plain (r_log r) ->
  let f := become_follower et term leader r in
  r_config r' = r_config f.1 -> r_soft r' = r_soft f.1 ->
  r_term r' = r_term f.1 -> voted_for (r_hard r') = voted_for (r_hard f.1) ->
  Forall plain (r_log r') -> Forall (act_ok id) acts -> PersistHardState ∈ acts ->
  (forall to m, (to, m) ∈ resp -> msg_ok id m) ->
  good net id r r' resp acts.
Proof.
  intros Ht Hp f Hc Hs Htm Hv Hl Ha Hin Hr.
  destruct (become_follower_good net id et term leader r Ht Hp) as [G1 G2 _ _ _ _ _].
  destruct (become_follower_fields et term leader r Ht) as (F1 & _).
  split; try done.
  - by rewrite Hc.
  - unfold hs_le in *. fold f in G2. by rewrite Htm, Hv.
  - by left.
  - intros to m Hin'. left. by eapply Hr.
  - apply follower_votes_ok. rewrite Hs. exact F1.
Qed.

Section handlers.
Context (conf_deser : bytes -> option ConfChange) (net : network) (id : Z) (r : Raft).
Hypothesis (Hid : r_id r = id) (Hplain : Forall plain (r_log r)) (Hvotes : votes_ok net id r).

Lemma handle_request_vote_good et from req :
  rv_candidate_id req = from ->
  let '(r', resp, acts) := handle_request_vote et req r in good net id r r' (responses from resp) acts.
Proof.
  intros Hcand. unfold handle_request_vote. destruct (rv_term req <? r_term r) eqn:Elt; bool_to_prop.
  { apply good_core; try done. intros to m [= -> ->]%list_elem_of_singleton. done. }
  set (step1 := if rv_term req >? r_term r then _ else _).
  assert (exists r1 a1, step1 = (r1, a1) /\ good net id r r1 [] a1) as (r1 & a1 & -> & G).
  { unfold step1. destruct (rv_term req >? r_term r) eqn:Egt; bool_to_prop.
    - destruct (become_follower et (rv_term req) None r) as [r1 a1] eqn:E. exists r1, a1. split; [reflexivity|].
      pose proof (become_follower_good net id et (rv_term req) None r) as G. rewrite E in G.
      apply G; [lia|done].
    - eexists _, _. split; [done|]. apply good_core; try done. intros to m Hin.
      by apply not_elem_of_nil in Hin. }
  destruct G as [G1 G2 G3 G4 G5 _ G7].
  destruct (_ && _) eqn:Eg; [|split; try done].
  - apply andb_true_iff in Eg as [Ev _].
    assert (Hv : voted_for (r_hard r1) = None \/ voted_for (r_hard r1) = Some from).
    { apply orb_true_iff in Ev as [Ev|Ev]; bool_to_prop; [by left|right; congruence]. }
    split; simpl; try done.
    + etransitivity; [exact G2|]. right. simpl. split; [done|].
      destruct Hv as [->| ->]; [by right|left; congruence].
    + left. apply elem_of_app. right. by apply list_elem_of_singleton.
    + apply Forall_app. split; [done|]. repeat constructor.
    + intros to m [= -> ->]%list_elem_of_singleton. right. split; [done|]. by rewrite Hcand.
    + intros Hr. destruct (G7 Hr) as (V1 & V2 & V3). split; [|split; [exact V2|exact V3]].
      simpl. rewrite Hcand. destruct Hv as [Hv|Hv]; congruence.
  - intros to m [= -> ->]%list_elem_of_singleton. by left.
Qed.

Lemma handle_append_entries_good et from req :
  Forall plain (ae_entries req) ->
  let '(r', resp, acts) := handle_append_entries conf_deser et req r in
  good net id r r' (responses from resp) acts.
Proof.
  intros Hes. unfold handle_append_entries. destruct (ae_term req <? r_term r) eqn:Elt; bool_to_prop.
  { apply good_core; try done. intros to m [= -> ->]%list_elem_of_singleton. done. }
  set (step1 := if _ || _ then become_follower _ _ _ r else _).
  assert (exists r1 a1, step1 = (r1, a1) /\ good net id r r1 [] a1) as (r1 & a1 & -> & G).
  { unfold step1. case_test.
    - destruct (become_follower et (ae_term req) (Some (ae_leader_id req)) r) as [r1 a1] eqn:Ef.
      exists r1, a1. split; [reflexivity|].
      pose proof (become_follower_good net id et (ae_term req) (Some (ae_leader_id req)) r) as G.
      rewrite Ef in G. apply G; [lia|done].
    - eexists _, _. split; [reflexivity|]. split; simpl; try done; [by right|].
      intros to m Hin. by apply not_elem_of_nil in Hin. }
  destruct G as [G1 G2 G3 G4 G5 _ G7].
  assert (Hresp : forall r2 b, forall to m, (to, m) ∈ responses from (Some (append_resp r2 b)) ->
    msg_ok id m \/ (m = granted (r_term r2) /\ voted_for (r_hard r2) = Some to)).
  { intros r2 b to m [= -> ->]%list_elem_of_singleton. by left. }
  destruct (negb _) eqn:Eok; [split; try done; apply Hresp|].
  set (step2 := match ae_entries req with [] => _ | _ => _ end).
  assert (exists r2 a2, step2 = (r2, a1 ++ a2) /\ Forall plain (r_log r2) /\ Forall (act_ok id) a2 /\
    r_config r2 = r_config r1 /\ r_soft r2 = r_soft r1 /\ r_votes r2 = r_votes r1 /\
    r_hard r2 = r_hard r1) as (r2 & a2 & -> & P2 & A2 & C2 & S2 & V2 & H2).
  { unfold step2. destruct (ae_entries req) as [|e es] eqn:Ee.
    - exists r1, []. rewrite app_nil_r. repeat split; auto; constructor.
    - eexists _, _. split; [done|]. split; [|split; [|done]]; simpl.
      + apply Forall_app. split; [by apply plain_truncate|done].
      + apply Forall_singleton. exact Hes. }
  set (step3 := if ae_leader_commit req >? _ then _ else _).
  assert (exists r3 a3, step3 = (r3, (a1 ++ a2) ++ a3) /\ core r3 = core r2 /\ Forall (act_ok id) a3)
    as (r3 & a3 & -> & C3 & A3).
  { unfold step3. case_test; [|by exists r2, []; rewrite app_nil_r].
    case_test; [|by exists r2, []; rewrite app_nil_r].
    match goal with |- context [apply_committed conf_deser ?x] =>
      destruct (apply_committed_core conf_deser x id) as [K1 K2]; [exact P2|];
      destruct (apply_committed conf_deser x) as [r3 a3] end.
    simpl in K1, K2. eexists _, _. split; [done|]. split; [exact K1|]. constructor; done. }
  apply core_fields in C3 as (K1 & K2 & K3 & K4 & K5 & K6).
  split; try done; rewrite ?K3; try done.
  - by rewrite K1, C2.
  - unfold hs_le. rewrite K5, K6, H2. exact G2.
  - destruct G3 as [Hin|[Ht Hv]]; [left|right].
    + apply elem_of_app. left. apply elem_of_app. by left.
    + by rewrite K5, K6, H2.
  - repeat (apply Forall_app; split); done.
  - apply Hresp.
  - unfold votes_ok. rewrite K1, K2, K4, K5, K6, C2, S2, V2, H2. exact G7.
Qed.

Lemma handle_install_snapshot_good et from req :
  let '(r', resp, acts) := handle_install_snapshot et req r in
  good net id r r' (responses from resp) acts.
Proof.
  unfold handle_install_snapshot.
  assert (Hresp : forall T, forall to m,
    (to, m) ∈ responses from (Some (InstallSnapshotRespM (mkInstallSnapshotResp T))) -> msg_ok id m).
  { intros T to m [= -> ->]%list_elem_of_singleton. done. }
  destruct (is_term req >=? r_term r) eqn:E; bool_to_prop.
  2:{ apply good_core; try done. apply Hresp. }
  pose proof (good_after_follower net id et (is_term req) (Some (is_leader_id req)) r) as G.
  destruct (become_follower et (is_term req) (Some (is_leader_id req)) r) as [r1 a1] eqn:Ef.
  assert (a1 = [PersistHardState]) as -> by (by injection Ef as _ <-).
  destruct (is_done req); apply G; simpl; try done; auto with noedb; try apply Hresp.
  - repeat constructor.
  - by left.
  - repeat constructor.
  - by left.
Qed.

Lemma handle_read_index_good from req :
  let '(r', resp, acts) := handle_read_index req r in good net id r r' (responses from resp) acts.
Proof.
  unfold handle_read_index. case_test.
  - apply good_core; try done. intros to m Hin. by apply not_elem_of_nil in Hin.
  - apply good_core; try done.
    + by apply act_ok_broadcast.
    + intros to m [= -> ->]%list_elem_of_singleton. done.
Qed.

Lemma step_append_response_good et from resp :
  let '(r', acts) := step_append_response conf_deser et from resp r in good net id r r' [] acts.
Proof.
  unfold step_append_response.
  assert (Hnil : forall to m, (to, m) ∈ @nil (Z * RpcMessage) -> msg_ok id m).
  { intros to m Hin. by apply not_elem_of_nil in Hin. }
  destruct (aer_term resp >? r_term r) eqn:E; bool_to_prop.
  { destruct (become_follower et (aer_term resp) None r) as [r1 a1] eqn:Ef.
    pose proof (become_follower_good net id et (aer_term resp) None r) as G.
    rewrite Ef in G. apply G; [lia|done]. }
  case_test; [by apply good_core|]. destruct (r_progress r !! from) as [prog|]; [|by apply good_core].
  match goal with |- context [try_advance_commit conf_deser ?x] =>
    destruct (try_advance_core conf_deser x id) as [K1 K2]; [exact Hplain|];
    destruct (try_advance_commit conf_deser x) as [r2 a2] end.
  simpl in K1, K2. case_test; apply good_core; try done.
  apply Forall_app. split; [done|]. apply act_ok_append.
  by rewrite (core_log _ _ K1).
Qed.

Lemma step_vote_response_good et from resp :
  (rvr_vote_granted resp = true -> (from, id, granted (rvr_term resp)) ∈ net) ->
  let '(r', acts) := step_vote_response et from resp r in good net id r r' [] acts.
Proof.
  intros Hnet. unfold step_vote_response.
  assert (Hnil : forall to m, (to, m) ∈ @nil (Z * RpcMessage) -> msg_ok id m).
  { intros to m Hin. by apply not_elem_of_nil in Hin. }
  destruct (rvr_term resp >? r_term r) eqn:E; bool_to_prop.
  { destruct (become_follower et (rvr_term resp) None r) as [r1 a1] eqn:Ef.
    pose proof (become_follower_good net id et (rvr_term resp) None r) as G.
    rewrite Ef in G. apply G; [lia|done]. }
  destruct (_ || _) eqn:Ec; [by apply good_core|]. bool_to_prop.
  match goal with H : r_role r = Candidate |- _ => rename H into Hrole end.
  assert (Hn : r_role r <> Follower) by (by rewrite Hrole).
  destruct (Hvotes Hn) as (V1 & V2 & _).
  set (r1 := if rvr_vote_granted resp then _ else r).
  assert (Hc1 : r_config r1 = r_config r /\ r_soft r1 = r_soft r /\ r_log r1 = r_log r /\
    r_hard r1 = r_hard r) by (unfold r1; by destruct (rvr_vote_granted resp)).
  destruct Hc1 as (C1 & C2 & C3 & C4).
  assert (Hv1 : forall v, v ∈ r_votes r1 -> v = id \/ (v, id, granted (r_term r)) ∈ net).
  { unfold r1. destruct (rvr_vote_granted resp) eqn:Eg; [|exact V2].
    intros v [->%elem_of_singleton|Hv]%elem_of_union; [|by apply V2].
    right. match goal with H : rvr_term resp = r_term r |- _ => rewrite <- H end. by apply Hnet. }
  case_test.
  - unfold become_leader. simpl. split; simpl; rewrite ?C4; try done; try by rewrite C3.
    + by right.
    + apply act_ok_broadcast. simpl. by rewrite C3.
    + intros to m Hin. by apply not_elem_of_nil in Hin.
    + intros _. simpl. rewrite C4. split; [done|]. split; [done|]. intros _. lia.
  - split; rewrite ?C4; try done; try by rewrite C3.
    + by right.
    + intros to m Hin. by apply not_elem_of_nil in Hin.
    + intros Hr. rewrite C4. split; [done|]. split; [done|]. rewrite C2, Hrole. done.
Qed.

Lemma become_candidate_good et :
  r_term r < u64_max -> 0 <= r_term r ->
  let '(r', acts) := become_candidate et r in good net id r r' [] acts.
Proof.
  intros Ht H0. unfold become_candidate. cbn [r_hard r_config set_votes set_soft set_hard
    reset_election_timer set_election r_votes r_log].
  assert (Term_next (r_term r) = r_term r + 1) as ->.
  { unfold Term_next, sat, umax. unfold u64_max in Ht. lia. }
  assert (Hsend : Forall (act_ok id) (PersistHardState :: map (fun peer => Send peer
    (RequestVote (mkRequestVoteReq (r_term r + 1) (r_id r) (RaftLog_last_index (r_log r))
      (RaftLog_term_at (r_log r) (RaftLog_last_index (r_log r)))))) (other_voters r))).
  { constructor; [done|]. apply Forall_map, Forall_true. intros. exact Hid. }
  assert (Hsingle : forall v : Z, v ∈ ({[r_id r]} : gset Z) -> v = id \/ (v, id, granted (r_term r + 1)) ∈ net).
  { intros v ->%elem_of_singleton. by left. }
  rewrite Hid in Hsingle. case_test.
  - unfold become_leader. split; simpl; try done.
    + left. simpl. lia.
    + left. by left.
    + constructor; [done|]. inversion Hsend; subst. apply Forall_app. split; [done|].
      by apply act_ok_broadcast.
    + intros to m Hin. by apply not_elem_of_nil in Hin.
    + intros _. simpl. rewrite Hid. split; [done|]. split; [exact Hsingle|]. intros _. simpl in E. rewrite Hid in E. exact E.
  - split; simpl; try done.
    + left. simpl. lia.
    + left. by left.
    + intros to m Hin. by apply not_elem_of_nil in Hin.
    + intros _. simpl. rewrite Hid. split; [done|]. split; [exact Hsingle|done].
Qed.

Lemma good_append cmd acts r' :
  starts_with CONF_MAGIC cmd = false ->
  r_config r' = r_config r -> r_soft r' = r_soft r -> r_votes r' = r_votes r -> r_hard r' = r_hard r ->
  r_log r' = r_log r ++ [mkRLogEntry (r_term r) cmd] ->
  acts = PersistLog (LogIndex_next (RaftLog_last_index (r_log r))) [mkRLogEntry (r_term r) cmd]
         :: broadcast_append r' ->
  good net id r r' [] acts.
Proof.
  intros Hc K1 K2 K4 K5 K3 ->.
  assert (Hp : Forall plain (r_log r')).
  { rewrite K3. apply Forall_app. split; [done|]. by apply Forall_singleton. }
  split; rewrite ?K5; try done.
  - by right.
  - constructor; [by apply Forall_singleton|by apply act_ok_broadcast].
  - intros to m Hin. by apply not_elem_of_nil in Hin.
  - unfold votes_ok. rewrite K1, K2, K4, K5. exact Hvotes.
Qed.
End handlers.

(** ** Worlds and steps *)

(** Which executions are considered: the commands that may be proposed, and whether
    nodes crash and restart. *)
Record regime : Type := mkRegime { rg_propose : bytes -> bool; rg_crash : bool }.

(** Every proposal, a membership change among them; every proposal but those; and
    no crash either *)
Definition unrestricted : regime := mkRegime (fun _ => true) true.
Definition fixed_members : regime := mkRegime (fun cmd => negb (starts_with CONF_MAGIC cmd)) true.
Definition fixed_no_crash : regime := mkRegime (fun cmd => negb (starts_with CONF_MAGIC cmd)) false.

Section world.
Context (conf_deser : bytes -> option ConfChange) (rg : regime).
Context {T : Type} `{StorageLaws T}.

Record world : Type := mkWorld { w_nodes : gmap Z (RaftNode T); w_net : network }.

(** A handler of the core run by node [id]: a timer tick (below the saturation
    of the term counter), the delivery of a message sent earlier, a proposal
    that the regime has ([propose_conf_change] is the proposal of an encoded
    change), or a read barrier. *)
Inductive handler (net : network) (id : Z) (r : Raft)
    : Raft -> list (Z * RpcMessage) -> list Action -> Prop :=
| h_tick et ms r' acts :
    r_term r < u64_max -> tick et ms r = (r', acts) -> handler net id r r' [] acts
| h_deliver et from msg r' resp acts :
    (from, id, msg) ∈ net -> dispatch conf_deser et from msg r = (r', resp, acts) ->
    handler net id r r' (responses from resp) acts
| h_propose cmd r' acts :
    rg_propose rg cmd = true -> propose cmd r = Ok (r', acts) -> handler net id r r' [] acts
| h_read read_id r' acts :
    read_index read_id r = Ok (r', acts) -> handler net id r r' [] acts.

Inductive net_step (w : world) : world -> Prop :=
| s_run id n r' resp acts n' out :
    w_nodes w !! id = Some n -> handler (w_net w) id (n_raft n) r' resp acts ->
    exec_actions (with_raft n r') acts = (n', out) ->
    net_step w (mkWorld (<[id := n']> (w_nodes w))
                        (w_net w ++ map (fun s => (id, s.1, s.2)) (resp ++ out)))
| s_crash id n r' resp acts k et :
    rg_crash rg = true -> w_nodes w !! id = Some n -> handler (w_net w) id (n_raft n) r' resp acts ->
    net_step w (mkWorld
      (<[id := RaftNode_open (r_config (n_raft n))
                 (n_storage (exec_actions (with_raft n r') (take k acts)).1) et]> (w_nodes w))
      (w_net w))
| s_restart id n et :
    rg_crash rg = true -> w_nodes w !! id = Some n ->
    net_step w (mkWorld (<[id := RaftNode_open (r_config (n_raft n)) (n_storage n) et]> (w_nodes w))
                        (w_net w)).

(** Nodes opened on empty storages, nothing sent. *)
Definition initial (V : list Z) (w : world) : Prop :=
  NoDup V /\ w_net w = [] /\
  forall id n, w_nodes w !! id = Some n -> id ∈ V /\
    exists cfg s et, n = RaftNode_open cfg s et /\ cfg_id cfg = id /\ cfg_voters cfg = V /\
      load_hard_state s = HardState_default /\ load_log s = RaftLog_new.

Hypothesis members_fixed : forall cmd, rg_propose rg cmd = true -> starts_with CONF_MAGIC cmd = false.

(** *** Running actions *)

Lemma exec_effect acts (n : RaftNode T) out0 id :
  Forall (act_ok id) acts -> Forall plain (r_log (n_raft n)) -> Forall plain (load_log (n_storage n)) ->
  let '(n', out) := fold_left exec_action acts (n, out0) in
  r_config (n_raft n') = r_config (n_raft n) /\ r_soft (n_raft n') = r_soft (n_raft n) /\
  r_votes (n_raft n') = r_votes (n_raft n) /\ r_hard (n_raft n') = r_hard (n_raft n) /\
  Forall plain (r_log (n_raft n')) /\ Forall plain (load_log (n_storage n')) /\
  (forall to m, (to, m) ∈ out -> (to, m) ∈ out0 \/ msg_ok id m) /\
  (load_hard_state (n_storage n') = r_hard (n_raft n) \/
   (load_hard_state (n_storage n') = load_hard_state (n_storage n) /\ PersistHardState ∉ acts)).
Proof.
  intros Ha. revert n out0. induction Ha as [|a acts Ha Hacts IH]; intros n out0 Hl Hs.
  { simpl. repeat split; auto. right. split; [done|]. apply not_elem_of_nil. }
  cbn [fold_left].
  assert (Hcons : forall (hs old : HardState) l, a <> PersistHardState ->
    (l = hs \/ (l = old /\ PersistHardState ∉ acts)) ->
    (l = hs \/ (l = old /\ PersistHardState ∉ a :: acts))).
  { intros hs old l Hne [?|[? Hn]]; [by left|right]. split; [done|].
    rewrite not_elem_of_cons. split; [congruence|done]. }
  destruct a as [|from es|to m|cmds|sn]; cbn [exec_action].
  - specialize (IH (mkRaftNode (n_raft n) (save_hard_state (r_hard (n_raft n)) (n_storage n))
      (n_applied n)) out0). simpl in IH. rewrite load_save_log, load_save_hard in IH.
    destruct (fold_left _ _ _) as [n' out]. destruct (IH Hl Hs) as (? & ? & ? & ? & ? & ? & ? & Hh).
    repeat split; try done. left. by destruct Hh as [?|[? _]].
  - specialize (IH (mkRaftNode (n_raft n) (storage_append from es (n_storage n)) (n_applied n)) out0).
    simpl in IH. rewrite load_append_log, load_append_hard in IH.
    destruct (fold_left _ _ _) as [n' out].
    destruct IH as (? & ? & ? & ? & ? & ? & ? & Hh); [done| |repeat split; auto].
    apply Forall_app. split; [by apply plain_truncate|done].
  - specialize (IH n (out0 ++ [(to, m)])). destruct (fold_left _ _ _) as [n' out].
    destruct IH as (? & ? & ? & ? & ? & ? & Ho & Hh); [done|done|]. repeat split; auto.
    intros to' m' Hin. destruct (Ho to' m' Hin) as [Hin'|]; [|by right].
    apply elem_of_app in Hin' as [?|[= -> ->]%list_elem_of_singleton]; [by left|by right].
  - specialize (IH (mkRaftNode (n_raft n) (n_storage n) (n_applied n ++ cmds)) out0). simpl in IH.
    destruct (fold_left _ _ _) as [n' out].
    destruct (IH Hl Hs) as (? & ? & ? & ? & ? & ? & ? & Hh). repeat split; auto.
  - specialize (IH (mkRaftNode (set_log (fun _ => RaftLog_restore (snap_index sn) (snap_term sn) [])
      (n_raft n)) (save_snapshot sn (n_storage n)) (n_applied n)) out0). simpl in IH.
    rewrite load_snapshot_log, load_snapshot_hard in IH. destruct (fold_left _ _ _) as [n' out].
    destruct IH as (? & ? & ? & ? & ? & ? & ? & Hh); auto with noedb. repeat split; auto.
Qed.

(** *** The invariant *)

Record node_ok (V : list Z) (net : network) (id : Z) (n : RaftNode T) : Prop := {
  no_member : id ∈ V;
  no_id : r_id (n_raft n) = id;
  no_voters : r_voters (n_raft n) = V;
  no_term : 0 <= r_term (n_raft n);
  no_log : Forall plain (r_log (n_raft n));
  no_slog : Forall plain (load_log (n_storage n));
  no_hard : current_term (load_hard_state (n_storage n)) = r_term (n_raft n) /\
            voted_for (load_hard_state (n_storage n)) = voted_for (r_hard (n_raft n));
  no_votes : votes_ok net id (n_raft n);
}.

(** The vote of [v] for [c] in [term] is still on record, or superseded. *)
Definition vote_on_record (h : HardState) (term c : Z) : Prop :=
  term < current_term h \/ (term = current_term h /\ voted_for h = Some c).

Record world_ok (V : list Z) (w : world) : Prop := {
  wo_nodup : NoDup V;
  wo_nodes : forall id n, w_nodes w !! id = Some n -> node_ok V (w_net w) id n;
  wo_msgs : forall from to m, (from, to, m) ∈ w_net w -> msg_ok from m \/ exists t, m = granted t;
  wo_recorded : forall v c t, (v, c, granted t) ∈ w_net w ->
    exists n, w_nodes w !! v = Some n /\ vote_on_record (r_hard (n_raft n)) t c;
  wo_unique : forall v c c' t,
    (v, c, granted t) ∈ w_net w -> (v, c', granted t) ∈ w_net w -> c = c';
}.

Lemma initial_ok V w : initial V w -> world_ok V w.
Proof.
  intros (Hnd & Hnet & Hn). split; [done| |rewrite Hnet..].
  - intros id n Hid. destruct (Hn id n Hid) as (HV & cfg & s & et & -> & Hc & Hv & Hh & Hl).
    split; simpl; rewrite ?Hh, ?Hl; simpl; try done;
      first [by apply follower_votes_ok | by apply Forall_singleton].
  - intros from to m Hin. by apply not_elem_of_nil in Hin.
  - intros v c t Hin. by apply not_elem_of_nil in Hin.
  - intros v c c' t Hin. by apply not_elem_of_nil in Hin.
Qed.

Lemma vote_on_record_le h h' t c : hs_le h h' -> vote_on_record h t c -> vote_on_record h' t c.
Proof.
  unfold hs_le, vote_on_record. intros [Hl|[Ht Hv]] [Hr|[Hr1 Hr2]].
  - left; lia.
  - left; lia.
  - left; lia.
  - right. split; [congruence|]. destruct Hv as [Hv|Hv]; congruence.
Qed.

Lemma handler_good V w id n r' resp acts :
  world_ok V w -> w_nodes w !! id = Some n -> handler (w_net w) id (n_raft n) r' resp acts ->
  good (w_net w) id (n_raft n) r' resp acts.
Proof.
  intros Hw Hn Hh. destruct (wo_nodes _ _ Hw _ _ Hn) as [_ Hid _ Ht Hlog _ _ Hv].
  assert (Hnil : forall to m, (to, m) ∈ @nil (Z * RpcMessage) -> msg_ok id m).
  { intros to m Hin. by apply not_elem_of_nil in Hin. }
  set (r := n_raft n) in *.
  destruct Hh as [et ms r' acts Hlt E|et from msg r' resp acts Hin E|cmd r' acts Hc E|rid r' acts E].
  - unfold tick in E. destruct (is_leader r) eqn:El.
    + destruct (_ <=? _) in E; injection E as <- <-; apply good_core; try done.
      by apply act_ok_broadcast.
    + destruct (_ <=? _) in E.
      * unfold start_election in E. rewrite El in E.
        pose proof (become_candidate_good (w_net w) id r Hid Hlog Hv et Hlt Ht) as G. by rewrite E in G.
      * injection E as <- <-. by apply good_core.
  - pose proof (wo_msgs _ _ Hw _ _ _ Hin) as Hm.
    destruct msg as [req|rv|req|ar|req|isr|req|rir]; simpl in E.
    + pose proof (handle_request_vote_good (w_net w) id r Hlog Hv et from req) as G. rewrite E in G.
      apply G. by destruct Hm as [?|[? ?]].
    + pose proof (step_vote_response_good (w_net w) id r Hlog Hv et from rv) as G.
      destruct (step_vote_response et from rv r) as [r1 a1]. injection E as <- <- <-.
      apply G. intros Hg. destruct rv as [t g]. simpl in Hg. subst g. exact Hin.
    + pose proof (handle_append_entries_good conf_deser (w_net w) id r Hlog Hv et from req) as G.
      rewrite E in G. apply G. by destruct Hm as [?|[? ?]].
    + pose proof (step_append_response_good conf_deser (w_net w) id r Hlog Hv et from ar) as G.
      destruct (step_append_response conf_deser et from ar r) as [r1 a1]. by injection E as <- <- <-.
    + pose proof (handle_install_snapshot_good (w_net w) id r Hlog Hv et from req) as G.
      by rewrite E in G.
    + injection E as <- <- <-. apply good_core; try done. by apply Forall_singleton.
    + pose proof (handle_read_index_good (w_net w) id r Hlog Hv from req) as G. by rewrite E in G.
    + injection E as <- <- <-. apply good_core; try done. by apply Forall_singleton.
  - apply members_fixed in Hc. unfold propose in E. destruct (negb _); [done|]. injection E as <- <-.
    by eapply (good_append _ _ _ Hlog Hv cmd).
  - unfold read_index in E. destruct (negb _); [done|]. injection E as <- <-.
    by eapply (good_append _ _ _ Hlog Hv []).
Qed.

(** *** Preservation *)

(** What one step can change: messages are added, hard states move forward,
    and a vote newly sent is the sender's current one. *)
Record evolves (w w' : world) : Prop := {
  ev_net : forall x, x ∈ w_net w -> x ∈ w_net w';
  ev_hard : forall id n, w_nodes w !! id = Some n ->
    exists n', w_nodes w' !! id = Some n' /\ hs_le (r_hard (n_raft n)) (r_hard (n_raft n'));
  ev_grant : forall v c t, (v, c, granted t) ∈ w_net w' -> (v, c, granted t) ∈ w_net w \/
    exists n', w_nodes w' !! v = Some n' /\ t = r_term (n_raft n') /\
               voted_for (r_hard (n_raft n')) = Some c;
}.

Lemma votes_ok_net net net' id r :
  (forall x, x ∈ net -> x ∈ net') -> votes_ok net id r -> votes_ok net' id r.
Proof.
  intros Hn Hv Hr. destruct (Hv Hr) as (V1 & V2 & V3). split; [done|]. split; [|done].
  intros v Hin. destruct (V2 v Hin); auto.
Qed.

Lemma node_ok_net V net net' id n :
  (forall x, x ∈ net -> x ∈ net') -> node_ok V net id n -> node_ok V net' id n.
Proof. intros Hn []. split; try done. by eapply votes_ok_net. Qed.

(** Replacing one node by a later state and adding messages. *)
Lemma world_ok_update V w id n n' msgs :
  world_ok V w -> w_nodes w !! id = Some n ->
  let w' := mkWorld (<[id := n']> (w_nodes w)) (w_net w ++ map (fun s => (id, s.1, s.2)) msgs) in
  hs_le (r_hard (n_raft n)) (r_hard (n_raft n')) ->
  node_ok V (w_net w) id n' ->
  (forall to m, (to, m) ∈ msgs -> msg_ok id m \/
     (m = granted (r_term (n_raft n')) /\ voted_for (r_hard (n_raft n')) = Some to)) ->
  world_ok V w' /\ evolves w w'.
Proof.
  intros Hw Hn w' Hle Hok Hmsgs.
  assert (Hnet : forall x, x ∈ w_net w -> x ∈ w_net w') by (intros; apply elem_of_app; by left).
  assert (Hadd : forall from to m, (from, to, m) ∈ w_net w' ->
    (from, to, m) ∈ w_net w \/ (from = id /\ (to, m) ∈ msgs)).
  { intros from to m [Hin|Hin]%elem_of_app; [by left|right].
    apply list_elem_of_In, in_map_iff in Hin as ([to' m'] & [= <- <- <-] & Hin).
    split; [done|]. by apply list_elem_of_In. }
  assert (Hlook : w_nodes w' !! id = Some n') by apply lookup_insert_eq.
  assert (Hev : evolves w w').
  { split; [done| |].
    - intros i x Hx. destruct (decide (i = id)) as [->|Hne].
      + exists n'. split; [done|]. by rewrite Hn in Hx; simplify_eq.
      + exists x. split; [|done]. simpl. by rewrite lookup_insert_ne.
    - intros v c t Hin. destruct (Hadd _ _ _ Hin) as [?|[-> Hin']]; [by left|right].
      destruct (Hmsgs _ _ Hin') as [Hm|[Hm Hv]]; [done|].
      exists n'. split; [done|]. by injection Hm as ->. }
  split; [|done]. destruct Hw as [W1 W2 W3 W4 W5].
  assert (Hrec : forall v c t, (v, c, granted t) ∈ w_net w' ->
    exists x, w_nodes w' !! v = Some x /\ vote_on_record (r_hard (n_raft x)) t c).
  { intros v c t Hin. destruct (ev_grant _ _ Hev _ _ _ Hin) as [Hold|(x & Hx & -> & Hv)].
    - destruct (W4 _ _ _ Hold) as (x & Hx & Hr). destruct (ev_hard _ _ Hev _ _ Hx) as (x' & Hx' & Hl).
      exists x'. split; [done|]. by eapply vote_on_record_le.
    - exists x. split; [done|]. by right. }
  split; [done| | |exact Hrec|].
  - intros i x Hx. unfold w' in Hx. simpl in Hx.
    apply lookup_insert_Some in Hx as [[<- <-]|[_ Hx]];
      (eapply node_ok_net; [exact Hnet|]); [done|by apply W2].
  - intros from to m Hin. destruct (Hadd _ _ _ Hin) as [?|[-> Hin']]; [by eapply W3|].
    destruct (Hmsgs _ _ Hin') as [?|[-> _]]; [by left|right; eauto].
  - intros v c c' t H1 H2.
    destruct (ev_grant _ _ Hev _ _ _ H1) as [O1|(x1 & X1 & T1 & V1)],
             (ev_grant _ _ Hev _ _ _ H2) as [O2|(x2 & X2 & T2 & V2)].
    + by eapply W5.
    + destruct (Hrec _ _ _ H1) as (x & Hx & [?|[_ ?]]); rewrite X2 in Hx; simplify_eq; [lia|congruence].
    + destruct (Hrec _ _ _ H2) as (x & Hx & [?|[_ ?]]); rewrite X1 in Hx; simplify_eq; [lia|congruence].
    + rewrite X1 in X2. simplify_eq. congruence.
Qed.

(** A node reopened on a storage whose hard state is at least the old one. *)
Lemma reopen_ok V net id (n : RaftNode T) s et :
  node_ok V net id n -> Forall plain (load_log s) ->
  hs_le (r_hard (n_raft n)) (load_hard_state s) ->
  node_ok V net id (RaftNode_open (r_config (n_raft n)) s et).
Proof.
  intros [] Hl Hh. split; simpl; try done. destruct Hh; lia.
Qed.

Lemma hs_le_same h h1 h2 :
  current_term h2 = current_term h1 -> voted_for h2 = voted_for h1 -> hs_le h h1 -> hs_le h h2.
Proof. unfold hs_le. by intros -> ->. Qed.

Lemma step_ok V w w' : world_ok V w -> net_step w w' -> world_ok V w' /\ evolves w w'.
Proof.
  intros Hw Hs. destruct Hs as [id n r' resp acts n' out Hn Hh He|id n r' resp acts k et _ Hn Hh|id n et _ Hn];
    pose proof (wo_nodes _ _ Hw _ _ Hn) as Hok.
  - pose proof (handler_good V w id n r' resp acts Hw Hn Hh) as [G1 G2 G3 G4 G5 G6 G7].
    pose proof (exec_effect acts (with_raft n r') [] id G5 G4 (no_slog _ _ _ _ Hok)) as Hx.
    unfold exec_actions in He. rewrite He in Hx. simpl in Hx.
    destruct Hx as (X1 & X2 & X3 & X4 & X5 & X6 & X7 & X8).
    destruct Hok as [O1 O2 O3 O4 O5 O6 O7 O8].
    apply world_ok_update with n; try done.
    + by rewrite X4.
    + split; try done; rewrite ?X1, ?G1, ?X4; try done.
      * destruct G2; lia.
      * destruct X8 as [->|[-> Hnp]]; [done|]. destruct G3 as [?|[-> ->]]; done.
      * unfold votes_ok. rewrite X1, X2, X3, X4. exact G7.
    + intros to m [Hin|Hin]%elem_of_app.
      * rewrite X4. by apply G6.
      * left. destruct (X7 to m Hin) as [Hnil|?]; [by apply not_elem_of_nil in Hnil|done].
  - pose proof (handler_good V w id n r' resp acts Hw Hn Hh) as [G1 G2 G3 G4 G5 G6 G7].
    pose proof (exec_effect (take k acts) (with_raft n r') [] id (Forall_take _ _ _ G5) G4
      (no_slog _ _ _ _ Hok)) as Hx.
    unfold exec_actions. destruct (fold_left exec_action (take k acts) (with_raft n r', [])) as [n1 out].
    simpl in Hx. destruct Hx as (_ & _ & _ & _ & _ & X6 & _ & X8).
    rewrite <- (app_nil_r (w_net w)).
    assert (Hle : hs_le (r_hard (n_raft n)) (load_hard_state (n_storage n1))).
    { destruct X8 as [->|[-> _]]; [done|]. destruct (no_hard _ _ _ _ Hok).
      eapply hs_le_same; [done..|]. reflexivity. }
    apply (world_ok_update V w id n _ []); try done.
    + by apply reopen_ok.
    + intros to m Hin. by apply not_elem_of_nil in Hin.
  - rewrite <- (app_nil_r (w_net w)).
    assert (Hle : hs_le (r_hard (n_raft n)) (load_hard_state (n_storage n))).
    { destruct (no_hard _ _ _ _ Hok). eapply hs_le_same; [done..|]. reflexivity. }
    apply (world_ok_update V w id n _ []); try done.
    + apply reopen_ok; try done. apply Hok.
    + intros to m Hin. by apply not_elem_of_nil in Hin.
Qed.

Lemma steps_ok V w w' : world_ok V w -> rtc net_step w w' -> world_ok V w'.
Proof. intros Hw Hs. induction Hs as [|w w1 w2 Hs _ IH]; [done|]. by apply IH, (step_ok V w w1). Qed.

(** ** Elections *)

Definition leads (w : world) (term c : Z) : Prop :=
  exists n, w_nodes w !! c = Some n /\ r_role (n_raft n) = Leader /\ r_term (n_raft n) = term.

(** A lasting certificate that [c] won [term]. *)
Definition elected (V : list Z) (w : world) (term c : Z) : Prop :=
  (exists Q : gset Z, (forall v, v ∈ Q -> v ∈ V) /\ len V / 2 + 1 <= Z.of_nat (size Q) /\
     forall v, v ∈ Q -> v = c \/ (v, c, granted term) ∈ w_net w) /\
  (exists n, w_nodes w !! c = Some n /\ vote_on_record (r_hard (n_raft n)) term c) /\
  (forall c', (c, c', granted term) ∈ w_net w -> c' = c).

Lemma leads_elected V w term c : world_ok V w -> leads w term c -> elected V w term c.
Proof.
  intros Hw (n & Hn & Hr & <-). destruct (wo_nodes _ _ Hw _ _ Hn) as [O1 O2 O3 O4 _ _ _ O8].
  destruct O8 as (V1 & V2 & V3); [by rewrite Hr|].
  assert (Hrec : vote_on_record (r_hard (n_raft n)) (r_term (n_raft n)) c) by (by right).
  split; [|split; [by exists n|]].
  - exists (r_votes (n_raft n)). split; [|split; [|done]].
    + intros v Hv. destruct (V2 v Hv) as [->|Hin]; [done|].
      destruct (wo_recorded _ _ Hw _ _ _ Hin) as (x & Hx & _).
      by destruct (wo_nodes _ _ Hw _ _ Hx).
    + rewrite <- O3. by apply V3.
  - intros c' Hin. destruct (wo_recorded _ _ Hw _ _ _ Hin) as (x & Hx & [?|[_ Hv]]);
      rewrite Hn in Hx; simplify_eq; [lia|congruence].
Qed.

Lemma elected_step V w w' term c :
  world_ok V w -> net_step w w' -> elected V w term c -> elected V w' term c.
Proof.
  intros Hw Hs (HQ & (n & Hn & Hr) & Hu). destruct (step_ok V w w' Hw Hs) as [Hw' [E1 E2 E3]].
  destruct (E2 _ _ Hn) as (n' & Hn' & Hle). pose proof (vote_on_record_le _ _ _ _ Hle Hr) as Hr'.
  split; [|split; [by exists n'|]].
  - destruct HQ as (Q & H1 & H2 & H3). exists Q. split; [done|]. split; [done|].
    intros v Hv. destruct (H3 v Hv); auto.
  - intros c' Hin. destruct (E3 _ _ _ Hin) as [?|(x & Hx & -> & Hv)]; [by apply Hu|].
    rewrite Hn' in Hx. simplify_eq. destruct Hr' as [?|[_ ?]]; [lia|congruence].
Qed.

Lemma elected_steps V w w' term c :
  world_ok V w -> rtc net_step w w' -> elected V w term c -> elected V w' term c.
Proof.
  intros Hw Hs. induction Hs as [|w w1 w2 Hs _ IH]; [done|]. intros He.
  apply IH; [by apply (step_ok V w w1)|by eapply elected_step].
Qed.
End world.

Lemma quorums_meet (V : list Z) (Q1 Q2 : gset Z) :
  NoDup V -> (forall v, v ∈ Q1 -> v ∈ V) -> (forall v, v ∈ Q2 -> v ∈ V) ->
  len V / 2 + 1 <= Z.of_nat (size Q1) -> len V / 2 + 1 <= Z.of_nat (size Q2) ->
  exists v, v ∈ Q1 /\ v ∈ Q2.
Proof.
  intros Hnd H1 H2 S1 S2. destruct (decide (Q1 ∩ Q2 = ∅)) as [He|Hne].
  - assert (size (Q1 ∪ Q2) = (size Q1 + size Q2)%nat) as Hs by (apply size_union; set_solver).
    assert (size (Q1 ∪ Q2) <= length V)%nat as Hle.
    { rewrite <- (size_list_to_set (C := gset Z) V) by done. apply subseteq_size. set_solver. }
    unfold len in S1, S2.
    pose proof (Z.div_mod (Z.of_nat (length V)) 2). pose proof (Z.mod_pos_bound (Z.of_nat (length V)) 2). lia.
  - apply set_choose_L in Hne as [v Hv]. exists v. set_solver.
Qed.

Section safety.
Context (conf_deser : bytes -> option ConfChange).
Context {T : Type} `{StorageLaws T}.

Lemma fixed_members_plain cmd : rg_propose fixed_members cmd = true -> starts_with CONF_MAGIC cmd = false.
Proof. simpl. by intros ->%negb_true_iff. Qed.

Lemma elected_unique V (w : world (T := T)) term c c' :
  world_ok V w -> elected V w term c -> elected V w term c' -> c = c'.
Proof.
  intros Hw ((Q & HQ & SQ & VQ) & _ & HU) ((Q' & HQ' & SQ' & VQ') & _ & HU').
  destruct (quorums_meet V Q Q' (wo_nodup _ _ Hw) HQ HQ' SQ SQ') as (v & Hv & Hv').
  destruct (VQ v Hv) as [E|G], (VQ' v Hv') as [E'|G']; subst; try done.
  - symmetry. by apply HU.
  - by apply HU'.
  - by eapply wo_unique.
Qed.

(** C1. Election safety under a fixed membership: in an execution in which no membership
    change is proposed, under message loss, duplication and reordering and crashes at
    any point, of nodes that start on empty storages with the same voters, at most one
    node ever leads a term, also across time: if [c] leads a term at one moment and
    [c'] leads the same term then or at any later moment, they are the same node.
    (With membership changes it fails: [removals_elect_two_leaders].  A node whose term
    has reached 2^64 - 1 is not ticked any more.) *)
Theorem election_safety V (w0 w w' : world (T := T)) term c c' :
  initial V w0 -> rtc (net_step conf_deser fixed_members) w0 w -> rtc (net_step conf_deser fixed_members) w w' ->
  leads w term c -> leads w' term c' -> c = c'.
Proof.
  intros Hi Hs Hs' Hl Hl'. apply initial_ok in Hi.
  pose proof (steps_ok conf_deser _ fixed_members_plain _ _ _ Hi Hs) as Hw.
  pose proof (steps_ok conf_deser _ fixed_members_plain _ _ _ Hw Hs') as Hw'.
  apply (elected_unique V w' term); [done| |by apply leads_elected].
  refine (elected_steps conf_deser _ fixed_members_plain V w w' term c Hw Hs' _). by apply leads_elected.
Qed.

End safety.

(** ** A concrete election *)

Definition demo_world : world (T := MemStorage) :=
  mkWorld (list_to_map (map (fun id =>
    (id, RaftNode_open (RaftConfig_simulation id [1; 2; 3]) MemStorage_new 0)) [1; 2; 3])) [].

Lemma demo_initial : initial [1; 2; 3] demo_world.
Proof.
  split; [apply (bool_decide_unpack _); vm_compute; exact I|]. split; [reflexivity|].
  intros id n Hn. unfold demo_world in Hn. cbn [w_nodes] in Hn.
  apply elem_of_list_to_map_2, list_elem_of_In, in_map_iff in Hn as (i & [= -> <-] & Hi).
  apply list_elem_of_In in Hi. split; [exact Hi|].
  eexists _, _, _. split; [reflexivity|]. repeat split; reflexivity.
Qed.

(** Node 1 times out, node 2 grants its vote, node 1 counts it. *)
Definition demo_n1 : RaftNode MemStorage := default (RaftNode_open (RaftConfig_three_node 0) MemStorage_new 0)
  (w_nodes demo_world !! 1).
Definition demo_n2 : RaftNode MemStorage := default (RaftNode_open (RaftConfig_three_node 0) MemStorage_new 0)
  (w_nodes demo_world !! 2).
Definition no_conf : bytes -> option ConfChange := fun _ => None.
Definition demo_c1 := RaftNode_tick_ms 0 1000 demo_n1.
Definition demo_req : RpcMessage := RequestVote (mkRequestVoteReq 1 1 0 0).
Definition demo_c2 := RaftNode_step no_conf 0 1 demo_req demo_n2.
Definition demo_c3 := RaftNode_step no_conf 0 2 (granted 1) demo_c1.1.

Definition demo_w1 : world := mkWorld (<[1 := demo_c1.1]> (w_nodes demo_world))
  (w_net demo_world ++ map (fun s => (1, s.1, s.2)) ([] ++ demo_c1.2)).
Definition demo_w2 : world := mkWorld (<[2 := demo_c2.1.1]> (w_nodes demo_w1))
  (w_net demo_w1 ++ map (fun s => (2, s.1, s.2)) (responses 1 demo_c2.1.2 ++ demo_c2.2)).
Definition demo_w3 : world := mkWorld (<[1 := demo_c3.1.1]> (w_nodes demo_w2))
  (w_net demo_w2 ++ map (fun s => (1, s.1, s.2)) (responses 2 demo_c3.1.2 ++ demo_c3.2)).

Lemma demo_run : rtc (net_step no_conf fixed_members) demo_world demo_w3.
Proof.
  eapply rtc_l; [|eapply rtc_l; [|eapply rtc_l; [|apply rtc_refl]]].
  - apply (s_run no_conf fixed_members demo_world 1 demo_n1 (tick 0 1000 (n_raft demo_n1)).1 []
      (tick 0 1000 (n_raft demo_n1)).2 demo_c1.1 demo_c1.2).
    + vm_compute. reflexivity.
    + apply (h_tick no_conf fixed_members _ _ _ 0 1000); [vm_compute; reflexivity|]. by destruct (tick _ _ _).
    + vm_compute. reflexivity.
  - pose (d := dispatch no_conf 0 1 demo_req (n_raft demo_n2)).
    apply (s_run no_conf fixed_members demo_w1 2 demo_n2 d.1.1 (responses 1 demo_c2.1.2) d.2 demo_c2.1.1 demo_c2.2).
    + vm_compute. reflexivity.
    + apply (h_deliver no_conf fixed_members _ _ _ 0 1 demo_req); [|vm_compute; reflexivity].
      unfold demo_w1. vm_compute. left.
    + vm_compute. reflexivity.
  - pose (d := dispatch no_conf 0 2 (granted 1) (n_raft demo_c1.1)).
    apply (s_run no_conf fixed_members demo_w2 1 demo_c1.1 d.1.1 (responses 2 demo_c3.1.2) d.2 demo_c3.1.1 demo_c3.2).
    + vm_compute. reflexivity.
    + apply (h_deliver no_conf fixed_members _ _ _ 0 2 (granted 1)); [|vm_compute; reflexivity].
      unfold demo_w2. vm_compute. right. right. left.
    + vm_compute. reflexivity.
Qed.

Lemma election_safety_witness :
  leads demo_w3 1 1 /\ forall c, leads demo_w3 1 c -> 1 = c.
Proof.
  assert (Hl : leads demo_w3 1 1).
  { eexists. split; [vm_compute; reflexivity|]. split; vm_compute; reflexivity. }
  split; [exact Hl|]. intros c Hc.
  apply (election_safety no_conf [1; 2; 3] demo_world demo_w3 demo_w3 1 1 c); try assumption.
  - exact demo_initial.
  - exact demo_run.
  - apply rtc_refl.
Defined.

