(* ===== verification/RaftReplication.v ===== *)
(** * Log replication and snapshots: what the handlers do

    Functional behaviour of the log operations, of [handle_append_entries] and
    of the snapshot actions, and executions of the cluster of [RaftSafety] that
    show where replication departs from Raft.  [run_event] makes the step
    relation executable, so that such an execution is computed and then known
    to be reachable. *)

From S2P Require Import Prelude BTree Raft RaftNode RaftSafety.

(** ** The log *)

Lemma last_index_cons e (l : RaftLog) : RaftLog_last_index (e :: l) = len l.
Proof. unfold RaftLog_last_index. rewrite len_cons. pose proof (len_nonneg l). lia. Qed.

Lemma log_get_spec l i : 0 <= i -> RaftLog_get l i = l !! Z.to_nat i.
Proof.
  intros Hi. unfold RaftLog_get, len. rewrite (proj2 (Z.leb_le 0 i)) by lia. simpl.
  case_test; [done|]. symmetry. apply lookup_ge_None. lia.
Qed.

Lemma truncate_spec l i :
  0 <= i < u64_max -> RaftLog_truncate_from l i = take (Z.to_nat (i + 1)) l.
Proof.
  intros Hi. unfold RaftLog_truncate_from, sat, umax. unfold u64_max in Hi.
  replace (Z.max 0 (Z.min (2 ^ 64 - 1) (i + 1))) with (i + 1) by lia.
  case_test; [done|]. symmetry. apply take_ge. unfold len in *. lia.
Qed.

(** ** Executable steps *)

Inductive event : Type :=
| EvTick (id ms : Z)
| EvDeliver (k : nat)
| EvPropose (id : Z) (cmd : bytes).

Section events.
Context (conf_deser : bytes -> option ConfChange) (rg : regime).

Abbreviation mem_world := (world (T := MemStorage)).

Definition finish (w : mem_world) (id : Z) (n : RaftNode MemStorage) (r' : Raft)
    (resp : list (Z * RpcMessage)) (acts : list Action) : mem_world :=
  let '(n', out) := exec_actions (with_raft n r') acts in
  mkWorld (<[id := n']> (w_nodes w)) (w_net w ++ map (fun s => (id, s.1, s.2)) (resp ++ out)).

Definition run_event (w : mem_world) (e : event) : option mem_world :=
  match e with
  | EvTick id ms =>
      match w_nodes w !! id with
      | Some n =>
          if r_term (n_raft n) <? u64_max then
            let '(r', acts) := tick 0 ms (n_raft n) in Some (finish w id n r' [] acts)
          else None
      | None => None
      end
  | EvDeliver k =>
      match w_net w !! k with
      | Some (from, to, msg) =>
          match w_nodes w !! to with
          | Some n => let '(r', resp, acts) := dispatch conf_deser 0 from msg (n_raft n) in
                      Some (finish w to n r' (responses from resp) acts)
          | None => None
          end
      | None => None
      end
  | EvPropose id cmd =>
      if rg_propose rg cmd then
        match w_nodes w !! id with
        | Some n => match propose cmd (n_raft n) with
                    | Ok (r', acts) => Some (finish w id n r' [] acts)
                    | _ => None
                    end
        | None => None
        end
      else None
  end.

Fixpoint run_events (w : mem_world) (es : list event) : option mem_world :=
  match es with
  | [] => Some w
  | e :: es' => match run_event w e with Some w' => run_events w' es' | None => None end
  end.

Lemma finish_step w id n r' resp acts :
  w_nodes w !! id = Some n -> handler conf_deser rg (w_net w) id (n_raft n) r' resp acts ->
  net_step conf_deser rg w (finish w id n r' resp acts).
Proof.
  intros Hn Hh. unfold finish. destruct (exec_actions (with_raft n r') acts) as [n' out] eqn:E.
  by eapply s_run.
Qed.

Lemma run_event_step w e w' : run_event w e = Some w' -> net_step conf_deser rg w w'.
Proof.
  destruct e as [id ms|k|id cmd]; simpl.
  - destruct (w_nodes w !! id) as [n|] eqn:En; [|done]. case_test; [|done].
    destruct (tick 0 ms (n_raft n)) as [r' acts] eqn:Et. intros [= <-].
    apply finish_step; [done|]. by eapply h_tick.
  - destruct (w_net w !! k) as [[[from to] msg]|] eqn:Ek; [|done].
    destruct (w_nodes w !! to) as [n|] eqn:En; [|done].
    destruct (dispatch conf_deser 0 from msg (n_raft n)) as [[r' resp] acts] eqn:Ed. intros [= <-].
    apply finish_step; [done|]. eapply h_deliver; [|exact Ed]. by eapply list_elem_of_lookup_2.
  - destruct (rg_propose rg cmd) eqn:Es; [|done].
    destruct (w_nodes w !! id) as [n|] eqn:En; [|done].
    destruct (propose cmd (n_raft n)) as [[r' acts]|err|] eqn:Ep; [|done..]. intros [= <-].
    apply finish_step; [done|]. by eapply h_propose.
Qed.

Lemma run_events_steps es w w' : run_events w es = Some w' -> rtc (net_step conf_deser rg) w w'.
Proof.
  revert w. induction es as [|e es IH]; intros w; simpl; [by intros [= ->]|].
  destruct (run_event w e) as [w1|] eqn:E; [|done]. intros Hr.
  eapply rtc_l; [by eapply run_event_step|by apply IH].
Qed.
End events.

(** ** Agreement fails *)

(** A three-node execution without crashes: node 1 leads term 1 and keeps an
    entry to itself; node 2 leads term 2; node 1 answers its heartbeat with
    success and the length of its own log, so node 2 counts entry 1 as
    replicated there and commits its own entry 1 on node 1's next (negative)
    answer; node 1 is then elected in term 3 with the vote of node 3 and
    commits its old entry at the same index. *)
Definition split_commit_run : list event :=
  [EvTick 1 1000; EvDeliver 0; EvDeliver 2; EvPropose 1 (bs "old");
   EvTick 2 1000; EvDeliver 8; EvDeliver 9; EvDeliver 10; EvDeliver 12;
   EvPropose 2 (bs "new"); EvDeliver 13; EvDeliver 15;
   EvTick 1 1000; EvDeliver 18; EvDeliver 19; EvPropose 1 (bs "z");
   EvDeliver 23; EvDeliver 24; EvDeliver 25; EvDeliver 26].

(** C2. The leader's bookkeeping breaks agreement: there is an execution of three nodes,
    with no crash, no restart and no membership change, at whose end two nodes hold
    different commands at index 1 of their logs, both count that index as committed,
    and both have applied their own command first.  (A success response reports the
    follower's whole log length, and the leader takes it as the index up to which the
    follower matches.) *)
Theorem committed_entries_can_diverge :
  exists w n1 n2 e1 e2, initial [1; 2; 3] demo_world /\ rtc (net_step no_conf fixed_no_crash) demo_world w /\
    w_nodes w !! 1 = Some n1 /\ w_nodes w !! 2 = Some n2 /\
    RaftLog_get (r_log (n_raft n1)) 1 = Some e1 /\ RaftLog_get (r_log (n_raft n2)) 1 = Some e2 /\
    re_command e1 <> re_command e2 /\
    1 <= commit_index (r_hard (n_raft n1)) /\ 1 <= commit_index (r_hard (n_raft n2)) /\
    head (n_applied n1) = Some (re_command e1) /\ head (n_applied n2) = Some (re_command e2).
Proof.
  assert (Hchk : match run_events no_conf fixed_no_crash demo_world split_commit_run with
    | Some w => match w_nodes w !! 1, w_nodes w !! 2 with
        | Some n1, Some n2 =>
            match RaftLog_get (r_log (n_raft n1)) 1, RaftLog_get (r_log (n_raft n2)) 1 with
            | Some e1, Some e2 => bool_decide (re_command e1 <> re_command e2) &&
                (1 <=? commit_index (r_hard (n_raft n1))) && (1 <=? commit_index (r_hard (n_raft n2))) &&
                bool_decide (head (n_applied n1) = Some (re_command e1)) &&
                bool_decide (head (n_applied n2) = Some (re_command e2))
            | _, _ => false end
        | _, _ => false end
    | None => false end = true) by (vm_compute; reflexivity).
  destruct (run_events no_conf fixed_no_crash demo_world split_commit_run) as [w|] eqn:E; [|done].
  pose proof (run_events_steps no_conf fixed_no_crash _ _ _ E) as Hs.
  destruct (w_nodes w !! 1) as [n1|] eqn:E1; [|done]. destruct (w_nodes w !! 2) as [n2|] eqn:E2; [|done].
  destruct (RaftLog_get (r_log (n_raft n1)) 1) as [e1|] eqn:L1; [|done].
  destruct (RaftLog_get (r_log (n_raft n2)) 1) as [e2|] eqn:L2; [|done]. bool_to_prop.
  exists w, n1, n2, e1, e2. split; [exact demo_initial|]. by repeat split.
Qed.

(** ** Membership changes *)

(** A codec of membership changes for the run *)
Definition removal (id : byte) : bytes := CONF_MAGIC ++ [id].
Definition removal_deser (b : bytes) : option ConfChange :=
  match b with [id] => Some (RemoveVoter (b2z id)) | _ => None end.

(** Node 1 leads term 1 and proposes to remove 2 and 3, one after the other; node 2
    stores both, so both are committed and node 1 is alone in its configuration, while
    node 2 does not know yet.  A candidacy of node 3 takes the others to term 2; then
    node 1 elects itself in term 3, and so does node 2 with the vote of node 3. *)
Definition removal_run : list event :=
  [EvTick 1 1000; EvDeliver 0; EvDeliver 2; EvPropose 1 (removal x02); EvPropose 1 (removal x03);
   EvDeliver 7; EvDeliver 9; EvDeliver 4; EvTick 3 1000; EvDeliver 12; EvDeliver 13;
   EvTick 1 1000; EvTick 2 1000; EvDeliver 17; EvDeliver 18].

(** Membership changes break election safety: a second one is accepted before the first
    is known to the others, and two nodes lead the same term, with no crash. *)
Theorem removals_elect_two_leaders :
  exists w, initial [1; 2; 3] demo_world /\ rtc (net_step removal_deser (mkRegime (fun _ => true) false)) demo_world w /\
    leads w 3 1 /\ leads w 3 2.
Proof.
  assert (Hchk : match run_events removal_deser (mkRegime (fun _ => true) false) demo_world removal_run with
    | Some w => match w_nodes w !! 1, w_nodes w !! 2 with
        | Some n1, Some n2 => bool_decide (r_role (n_raft n1) = Leader) && bool_decide (r_role (n_raft n2) = Leader) &&
            (r_term (n_raft n1) =? 3) && (r_term (n_raft n2) =? 3)
        | _, _ => false end
    | None => false end = true) by (vm_compute; reflexivity).
  destruct (run_events removal_deser _ demo_world removal_run) as [w|] eqn:E; [|done].
  pose proof (run_events_steps removal_deser _ _ _ _ E) as Hs.
  destruct (w_nodes w !! 1) as [n1|] eqn:E1; [|done]. destruct (w_nodes w !! 2) as [n2|] eqn:E2; [|done]. bool_to_prop.
  exists w. split; [exact demo_initial|]. split; [exact Hs|]. split; [exists n1|exists n2]; auto.
Qed.

(** ** AppendEntries *)

Lemma apply_next_log deser st :
  r_log (apply_next deser st).1.1 = r_log st.1.1 /\ r_term (apply_next deser st).1.1 = r_term st.1.1.
Proof.
  destruct st as [[r cmds] acts]. unfold apply_next. destruct (RaftLog_get _ _) as [e|]; [|done].
  destruct (decode_conf_change _ _) as [[id|id]|]; [| |by destruct (re_command e)]; unfold apply_conf_change; case_test;
    unfold rebuild_progress; try case_test; done.
Qed.

(** Actions that leave the log and the network alone *)
Definition log_neutral (a : Action) : Prop :=
  match a with PersistHardState | Apply _ => True | _ => False end.

Lemma apply_next_neutral deser st : Forall log_neutral st.2 -> Forall log_neutral (apply_next deser st).2.
Proof.
  destruct st as [[r cmds] acts]. simpl. intros Ha. unfold apply_next. destruct (RaftLog_get _ _) as [e|]; [|done].
  destruct (decode_conf_change _ _) as [[id|id]|]; [| |by destruct (re_command e)]; unfold apply_conf_change; case_test; simpl;
    apply Forall_app; (split; [done|]); by repeat constructor.
Qed.

Lemma apply_committed_neutral deser r :
  r_log (apply_committed deser r).1 = r_log r /\ r_term (apply_committed deser r).1 = r_term r /\
  Forall log_neutral (apply_committed deser r).2.
Proof.
  unfold apply_committed. set (n := Z.to_nat _).
  assert (H : r_log (Nat.iter n (apply_next deser) (r, [], [])).1.1 = r_log r /\
              r_term (Nat.iter n (apply_next deser) (r, [], [])).1.1 = r_term r /\
              Forall log_neutral (Nat.iter n (apply_next deser) (r, [], [])).2).
  { induction n as [|n (L & Ht & A)]; [done|]. simpl. destruct (apply_next_log deser (Nat.iter n (apply_next deser) (r, [], []))) as [-> ->].
    split; [done|]. split; [done|]. by apply apply_next_neutral. }
  destruct (Nat.iter n _ _) as [[r' cmds] acts]. simpl in H |- *. destruct H as (-> & -> & A). split; [done|]. split; [done|].
  assert (B : Forall log_neutral (match cmds with [] => acts | _ => acts ++ [Apply cmds] end)).
  { destruct cmds; [done|]. apply Forall_app. split; [done|]. by repeat constructor. }
  destruct (match cmds with [] => acts | _ => _ end) as [|a l]; [done|].
  apply (Forall_app_2 _ (a :: l) [PersistHardState]); [done|by repeat constructor].
Qed.

Section append_effect.
Context {T : Type} `{StorageLaws T}.

Lemma exec_neutral acts : forall (n : RaftNode T) out, Forall log_neutral acts ->
  exists n', fold_left exec_action acts (n, out) = (n', out) /\ n_raft n' = n_raft n /\
    load_log (n_storage n') = load_log (n_storage n).
Proof.
  induction acts as [|a acts IH]; intros n out Ha; [by exists n|]. inversion Ha as [|? ? H1 H2]; subst. cbn [fold_left].
  destruct a; try done; cbn [exec_action].
  - destruct (IH (mkRaftNode (n_raft n) (save_hard_state (r_hard (n_raft n)) (n_storage n)) (n_applied n)) out H2) as (n' & -> & R & L).
    exists n'. split; [done|]. split; [done|]. rewrite L. apply load_save_log.
  - destruct (IH (mkRaftNode (n_raft n) (n_storage n) (n_applied n ++ cmds)) out H2) as (n' & -> & R & L). by exists n'.
Qed.

Lemma prev_next i : 0 <= i < u64_max -> LogIndex_prev (LogIndex_next i) = i.
Proof. unfold LogIndex_prev, LogIndex_next, sat, umax, u64_max. lia. Qed.

Lemma exec_append acts1 acts2 i es (n : RaftNode T) :
  0 <= i < u64_max -> Forall log_neutral acts1 -> Forall log_neutral acts2 ->
  exists n', exec_actions n (acts1 ++ PersistLog (LogIndex_next i) es :: acts2) = (n', []) /\ n_raft n' = n_raft n /\
    load_log (n_storage n') = take (Z.to_nat (i + 1)) (load_log (n_storage n)) ++ es.
Proof.
  intros Hi H1 H2. unfold exec_actions. rewrite fold_left_app. destruct (exec_neutral acts1 n [] H1) as (n1 & -> & R1 & L1).
  cbn [fold_left exec_action].
  destruct (exec_neutral acts2 (mkRaftNode (n_raft n1) (storage_append (LogIndex_next i) es (n_storage n1)) (n_applied n1)) [] H2)
    as (n2 & -> & R2 & L2). exists n2. split; [done|]. split; [by rewrite R2|].
  rewrite L2. cbn [n_storage]. rewrite load_append_log, prev_next, L1 by done. unfold RaftLog_append. by rewrite truncate_spec.
Qed.
End append_effect.

(** What a follower does first: it takes over the term, and its log stays. *)
Lemma append_first_step et req r : r_term r <= ae_term req ->
  exists r1 a1, (if (ae_term req >? r_term r) || ((ae_term req =? r_term r) && is_leader r && negb (ae_leader_id req =? r_id r))
    then become_follower et (ae_term req) (Some (ae_leader_id req)) r
    else (reset_election_timer et (set_soft (mkSoftState (r_role r) (Some (ae_leader_id req))) r), [])) = (r1, a1) /\
  r_log r1 = r_log r /\ r_term r1 = ae_term req /\ Forall log_neutral a1.
Proof.
  intros Ht. destruct (_ || _) eqn:E; eexists _, _; (split; [reflexivity|]).
  - pose proof (become_follower_fields et (ae_term req) (Some (ae_leader_id req)) r Ht) as (_ & Hterm & Hlog & _).
    split; [done|]. split; [done|]. by repeat constructor.
  - apply orb_false_iff in E as [E _]. bool_to_prop. simpl. split; [done|]. split; [lia|constructor].
Qed.

(** The commit step: neutral actions, the log and the term stay. *)
Lemma append_commit_step deser req r acts :
  exists r' a, (if ae_leader_commit req >? commit_index (r_hard r) then
          if RaftLog_term_at (r_log r) (Z.min (ae_leader_commit req) (RaftLog_last_index (r_log r))) =? ae_term req then
            let '(r, a) := apply_committed deser (set_hard (set_commit (Z.min (ae_leader_commit req) (RaftLog_last_index (r_log r)))) r) in
            (r, acts ++ PersistHardState :: a)
          else (r, acts)
        else (r, acts)) = (r', acts ++ a) /\ r_log r' = r_log r /\ r_term r' = r_term r /\ Forall log_neutral a.
Proof.
  assert (N : exists r' a, (r, acts) = (r', acts ++ a) /\ r_log r' = r_log r /\ r_term r' = r_term r /\ Forall log_neutral a)
    by (exists r, []; rewrite app_nil_r; auto).
  case_test; [|done]. case_test; [|done]. set (commit := Z.min _ _).
  destruct (apply_committed_neutral deser (set_hard (set_commit commit) r)) as (L & Ht & A).
  destruct (apply_committed deser _) as [r' a]. simpl in *. exists r', (PersistHardState :: a). by repeat constructor.
Qed.

(** C35. What an AppendEntries does to a node whose storage holds its log, membership
    entries included.  When the term is not stale and the previous entry matches,
    non-empty entries replace everything after the previous index, in the log in
    memory and, once the actions have run, in the storage; an empty request leaves
    both alone; the response reports success with the whole length of the resulting
    log.  Otherwise the logs stay, and the response reports a failure.  The node ends
    in the larger of the two terms. *)
Theorem append_entries_effect {T} `{StorageLaws T} deser et from req (n : RaftNode T) :
  0 <= ae_prev_log_index req < u64_max -> load_log (n_storage n) = r_log (n_raft n) ->
  let log := r_log (n_raft n) in
  let accepted := (r_term (n_raft n) <=? ae_term req) && (RaftLog_term_at log (ae_prev_log_index req) =? ae_prev_log_term req) in
  let log' := match ae_entries req with
              | [] => log
              | es => if accepted then take (Z.to_nat (ae_prev_log_index req + 1)) log ++ es else log
              end in
  exists n', RaftNode_step deser et from (AppendEntries req) n =
      (n', Some (AppendEntriesRespM (mkAppendEntriesResp (r_term (n_raft n')) accepted (RaftLog_last_index log'))), []) /\
    r_log (n_raft n') = log' /\ load_log (n_storage n') = log' /\
    r_term (n_raft n') = Z.max (r_term (n_raft n)) (ae_term req).
Proof.
  intros Hi Hs log accepted log'. unfold RaftNode_step. cbn [dispatch Raft_step]. unfold handle_append_entries. cbv zeta.
  assert (R : accepted = false -> log' = log) by (unfold log'; intros ->; by destruct (ae_entries req)).
  destruct (ae_term req <? r_term (n_raft n)) eqn:Elt; bool_to_prop.
  { assert (accepted = false) as Ea by (unfold accepted; rewrite (proj2 (Z.leb_gt _ _)); [done|lia]). rewrite (R Ea), Ea.
    exists (with_raft n (n_raft n)). split; [reflexivity|]. split; [done|]. split; [done|]. simpl. lia. }
  destruct (append_first_step et req (n_raft n)) as (r1 & a1 & -> & L1 & T1 & A1); [lia|].
  assert (RaftLog_term_at (r_log r1) (ae_prev_log_index req) = RaftLog_term_at log (ae_prev_log_index req)) as -> by (by rewrite L1).
  assert (accepted = (RaftLog_term_at log (ae_prev_log_index req) =? ae_prev_log_term req)) as Ea
    by (unfold accepted; by rewrite (proj2 (Z.leb_le _ _)) by lia).
  destruct (RaftLog_term_at log _ =? _) eqn:Em; cbn [negb].
  - destruct (ae_entries req) as [|e es] eqn:Ee.
    + destruct (append_commit_step deser req r1 a1) as (r2 & a2 & -> & L2 & T2 & A2).
      destruct (exec_neutral (a1 ++ a2) (with_raft n r2) []) as (n' & X & R' & S'); [by apply Forall_app|].
      unfold exec_actions. rewrite X. exists n'. rewrite R', S'. cbn [with_raft n_raft n_storage]. unfold append_resp.
      rewrite L2, T2, L1, T1, Ea. split; [done|]. split; [done|]. split; [done|]. lia.
    + destruct (append_commit_step deser req (set_log (fun l => RaftLog_append (RaftLog_truncate_from l (ae_prev_log_index req)) (e :: es)) r1)
        (a1 ++ [PersistLog (LogIndex_next (ae_prev_log_index req)) (e :: es)])) as (r2 & a2 & -> & L2 & T2 & A2).
      rewrite <- app_assoc. cbn [app].
      destruct (exec_append a1 a2 (ae_prev_log_index req) (e :: es) (with_raft n r2) Hi A1 A2) as (n' & -> & R' & S').
      exists n'. rewrite R', S'. cbn [with_raft n_raft n_storage]. unfold append_resp. rewrite L2, T2. cbn [set_log r_log r_hard].
      rewrite L1. unfold RaftLog_append. rewrite truncate_spec by done. unfold log'. rewrite Ea, Hs. fold log.
      split; [done|]. split; [done|]. split; [done|]. rewrite T1. lia.
  - destruct (exec_neutral a1 (with_raft n r1) [] A1) as (n' & X & R' & S'). unfold exec_actions. rewrite X, (R Ea), Ea.
    exists n'. rewrite R', S'. cbn [with_raft n_raft n_storage]. unfold append_resp. rewrite L1, T1.
    split; [done|]. split; [done|]. split; [done|]. lia.
Qed.

Definition follower_log : RaftLog :=
  [mkRLogEntry 0 []; mkRLogEntry 1 (bs "a"); mkRLogEntry 1 (bs "b")].

Definition demo_follower : Raft :=
  Raft_new (RaftConfig_simulation 2 [1; 2; 3]) (mkHardState 1 None 2 2) follower_log 0.

Definition stale_append : AppendEntriesReq := mkAppendEntriesReq 1 1 0 0 [mkRLogEntry 1 (bs "a")] 0.

Definition follower_node : RaftNode MemStorage := mkRaftNode demo_follower (mkMemStorage (r_hard demo_follower) follower_log None) [].

Lemma append_entries_effect_witness :
  exists n', RaftNode_step no_conf 0 1 (AppendEntries stale_append) follower_node =
      (n', Some (AppendEntriesRespM (mkAppendEntriesResp (r_term (n_raft n')) true 1)), []) /\
    load_log (n_storage n') = [mkRLogEntry 0 []; mkRLogEntry 1 (bs "a")].
Proof.
  destruct (append_entries_effect no_conf 0 1 stale_append follower_node) as (n' & E & _ & S & _).
  - split; vm_compute; [discriminate|reflexivity].
  - reflexivity.
  - exists n'. split; [exact E|exact S].
Defined.

(** A delayed duplicate of an earlier AppendEntries erases entries the
    follower has stored, acknowledged and even committed since: the log loses
    everything beyond the duplicate's entries, although they match. *)
Theorem stale_append_erases_committed :
  let '(r', resp, acts) := handle_append_entries no_conf 0 stale_append demo_follower in
  r_log demo_follower = follower_log /\ commit_index (r_hard demo_follower) = 2 /\
  r_log r' = take 2 follower_log /\ commit_index (r_hard r') = 2 /\
  resp = Some (AppendEntriesRespM (mkAppendEntriesResp 1 true 1)).
Proof. vm_compute. repeat split. Qed.

(** ** Snapshots *)

(** A snapshot response is never consumed: whatever the state of the node
    that receives it, it is sent back unchanged to the sender and nothing else
    happens, so two nodes return it to each other for ever and the leader's
    progress for the follower does not move. *)
Theorem snapshot_response_is_echoed deser et from resp (n : RaftNode MemStorage) :
  RaftNode_step deser et from (InstallSnapshotRespM resp) n =
  (n, None, [(from, InstallSnapshotRespM resp)]).
Proof. unfold RaftNode_step. simpl. by destruct n. Qed.

Lemma in_snapshot_last sn l acts (n : RaftNode MemStorage) out :
  acts = l ++ [SnapshotA sn] ->
  let n' := (fold_left exec_action acts (n, out)).1 in
  r_log (n_raft n') = RaftLog_restore (snap_index sn) (snap_term sn) [] /\
  load_log (n_storage n') = RaftLog_restore (snap_index sn) (snap_term sn) [].
Proof.
  intros -> n'. unfold n'. rewrite fold_left_app. destruct (fold_left exec_action l (n, out)). done.
Qed.

Lemma last_index_restore i t : 0 <= i -> RaftLog_last_index (RaftLog_restore i t []) = i.
Proof.
  intros Hi. unfold RaftLog_restore, RaftLog_last_index, len. rewrite app_nil_r.
  destruct (i >? 0) eqn:E; bool_to_prop; [rewrite length_replicate|simpl]; lia.
Qed.

(** A leader that compacts drops the part of its log that is not applied
    yet: when advancing the commit index decides on a snapshot, running the
    actions leaves both the log in memory and the stored one ending at the
    applied index, although more than the threshold of entries lay beyond it. *)
Theorem leader_snapshot_drops_tail deser r (n : RaftNode MemStorage) :
  Forall plain (r_log r) -> is_leader r = true ->
  let '(r', acts) := try_advance_commit deser r in
  sat 64 (RaftLog_last_index (r_log r') - last_applied (r_hard r')) > r_compact_threshold r' ->
  0 <= last_applied (r_hard r') -> 0 <= r_compact_threshold r' ->
  let n' := (exec_actions (with_raft n r') acts).1 in
  RaftLog_last_index (r_log (n_raft n')) = last_applied (r_hard r') /\
  RaftLog_last_index (load_log (n_storage n')) = last_applied (r_hard r') /\
  r_compact_threshold r' < RaftLog_last_index (r_log r') - RaftLog_last_index (r_log (n_raft n')).
Proof.
  intros Hp Hl. unfold try_advance_commit.
  destruct (advance_core (index_range_incl (commit_index (r_hard r) + 1)
    (RaftLog_last_index (r_log r))) r [] 0) as [C1 _]; [constructor|].
  destruct (fold_left _ _ _) as [r1 a1]. simpl in C1.
  destruct (apply_committed_core deser r1 0) as [C2 _]; [by rewrite (core_log _ _ C1)|].
  destruct (apply_committed deser r1) as [r2 a2]. simpl in C2.
  assert (Hlead : is_leader (try_confirm_reads r2) = true).
  { unfold is_leader. simpl. apply core_fields in C1 as (_ & K1 & _), C2 as (_ & K2 & _).
    rewrite K2, K1. exact Hl. }
  rewrite Hlead. simpl. set (r3 := try_confirm_reads r2).
  destruct (_ >? _) eqn:E; bool_to_prop; [|intros Hgt; simpl in *; lia].
  intros Hgt Hla Hthr. simpl in Hgt, Hla, Hthr.
  destruct (in_snapshot_last (mkSnapshot (last_applied (r_hard r2))
    (RaftLog_term_at (r_log r2) (last_applied (r_hard r2))) []) (a1 ++ a2) _ (with_raft n r3) [] eq_refl)
    as [L1 L2].
  unfold exec_actions. cbn [load_log MemStorage_storage] in L2 |- *. rewrite L1, L2. simpl.
  rewrite !last_index_restore by done. split; [done|]. split; [done|].
  unfold sat, umax in Hgt. lia.
Qed.

Definition busy_leader : Raft :=
  set_log (fun _ => replicate 67 (mkRLogEntry 1 (bs "x")))
    (set_soft (mkSoftState Leader (Some 1))
      (Raft_new (RaftConfig_simulation 1 [1; 2; 3]) (mkHardState 1 (Some 1) 0 0) RaftLog_new 0)).

Lemma leader_snapshot_drops_tail_witness :
  let '(r', acts) := try_advance_commit no_conf busy_leader in
  RaftLog_last_index (r_log r') = 66 /\
  RaftLog_last_index (r_log (n_raft (exec_actions (with_raft demo_n1 r') acts).1)) = 0.
Proof.
  pose proof (leader_snapshot_drops_tail no_conf busy_leader demo_n1) as H.
  assert (Hp : Forall plain (r_log busy_leader)) by (apply (bool_decide_unpack _); vm_compute; exact I).
  specialize (H Hp eq_refl).
  assert (E : RaftLog_last_index (r_log (try_advance_commit no_conf busy_leader).1) = 66 /\
    last_applied (r_hard (try_advance_commit no_conf busy_leader).1) = 0 /\
    r_compact_threshold (try_advance_commit no_conf busy_leader).1 = 64) by (vm_compute; repeat split).
  destruct (try_advance_commit no_conf busy_leader) as [r' acts]. simpl in E. destruct E as (E1 & E2 & E3).
  split; [exact E1|]. rewrite E1, E2, E3 in H.
  destruct H as [H _]; [vm_compute; reflexivity|discriminate|discriminate|exact H].
Defined.
