(* ===== verification/Text.v ===== *)
(** * Text: chars, UTF-8 strings and state-passing parsers

    What the SQL layers use of the standard library: [char] as a code point,
    [str] as UTF-8 bytes with its character boundaries, ASCII classes, and the
    monad of the methods that take [&mut self] and can fail. *)

From S2P Require Import Prelude.

(** ** State and errors: [&mut self] methods that return a [Result] *)

Definition SM (S E A : Type) : Type := S -> outcome E A * S.

Section state_monad.
Context {S E : Type}.

Definition sret {A} (a : A) : SM S E A := fun s => (Ok a, s).
Definition sbind {A B} (p : SM S E A) (k : A -> SM S E B) : SM S E B := fun s =>
  match p s with
  | (Ok a, s') => k a s'
  | (Err e, s') => (Err e, s')
  | (Panic, s') => (Panic, s')
  end.
Definition sget : SM S E S := fun s => (Ok s, s).
Definition sput (s : S) : SM S E unit := fun _ => (Ok tt, s).
Definition smodify (f : S -> S) : SM S E unit := fun s => (Ok tt, f s).
Definition serr {A} (e : E) : SM S E A := fun s => (Err e, s).
Definition spanic {A} : SM S E A := fun s => (Panic, s).
Definition smap {A B} (f : A -> B) (p : SM S E A) : SM S E B := sbind p (fun a => sret (f a)).
End state_monad.

Notation "'let*' x := p 'in' k" := (sbind p (fun x => k))
  (at level 10, x binder, p at level 100, k at level 200) : outcome_scope.

(** ** ASCII classes of [u8] *)

Definition in_byte (lo hi : Z) (b : byte) : bool := (lo <=? b2z b) && (b2z b <=? hi).
Definition is_ascii_digit (b : byte) : bool := in_byte 48 57 b.
Definition is_ascii_uppercase (b : byte) : bool := in_byte 65 90 b.
Definition is_ascii_lowercase (b : byte) : bool := in_byte 97 122 b.
Definition is_ascii_alphabetic (b : byte) : bool := is_ascii_uppercase b || is_ascii_lowercase b.
Definition is_ascii_alphanumeric (b : byte) : bool := is_ascii_alphabetic b || is_ascii_digit b.

Definition byte_upper (b : byte) : byte :=
  if is_ascii_lowercase b then z2b (b2z b - 32) else b.
Definition byte_lower (b : byte) : byte :=
  if is_ascii_uppercase b then z2b (b2z b + 32) else b.

(** [to_ascii_uppercase] and [to_ascii_lowercase] of a string *)
Definition to_upper (s : bytes) : bytes := map byte_upper s.
Definition to_lower (s : bytes) : bytes := map byte_lower s.

(** ** Chars *)

(** A Unicode scalar value. *)
Definition is_char (c : Z) : Prop := 0 <= c < 0x110000 /\ ~ (0xD800 <= c < 0xE000).

(** [char::encode_utf8] *)
Definition utf8_char (c : Z) : bytes :=
  if c <? 0x80 then [z2b c]
  else if c <? 0x800 then [z2b (0xC0 + c / 64); z2b (0x80 + c mod 64)]
  else if c <? 0x10000 then
    [z2b (0xE0 + c / 4096); z2b (0x80 + c / 64 mod 64); z2b (0x80 + c mod 64)]
  else
    [z2b (0xF0 + c / 262144); z2b (0x80 + c / 4096 mod 64); z2b (0x80 + c / 64 mod 64);
     z2b (0x80 + c mod 64)].

Definition len_utf8 (c : Z) : nat :=
  if c <? 0x80 then 1 else if c <? 0x800 then 2 else if c <? 0x10000 then 3 else 4.

(** A [str] is the encoding of a sequence of chars. *)
Definition utf8 (cs : list Z) : bytes := concat (map utf8_char cs).

(** [s.chars().next()]: the lead byte gives the number of continuation bytes. *)
Definition next_char (s : bytes) : option Z :=
  match s with
  | [] => None
  | b :: r =>
      let x := b2z b in
      let y i := match r !! i with Some c => b2z c mod 64 | None => 0 end in
      Some (if x <? 0x80 then x
            else if x <? 0xE0 then x mod 32 * 64 + y 0%nat
            else if x <? 0xF0 then x mod 16 * 4096 + y 0%nat * 64 + y 1%nat
            else x mod 8 * 262144 + y 0%nat * 4096 + y 1%nat * 64 + y 2%nat)
  end.

(** [str::is_char_boundary] *)
Definition is_char_boundary (s : bytes) (i : nat) : bool :=
  (i =? 0)%nat ||
  match s !! i with
  | Some b => (b2z b <? 0x80) || (0xC0 <=? b2z b)
  | None => (i =? length s)%nat
  end.

(** [&s[i..]], which panics inside a char and past the end, and [s.get(i..j)] *)
Definition str_from (s : bytes) (i : nat) : option bytes :=
  if is_char_boundary s i then Some (drop i s) else None.
Definition str_get (s : bytes) (i j : nat) : option bytes :=
  if (i <=? j)%nat && is_char_boundary s i && is_char_boundary s j
  then Some (take (j - i) (drop i s)) else None.

(** The Unicode tables behind [char::is_alphabetic] and [char::is_numeric],
    which std consults for the chars outside ASCII only. *)
Class Unicode : Type := {
  unicode_alphabetic : Z -> bool;
  unicode_numeric : Z -> bool }.

Definition char_in (lo hi c : Z) : bool := (lo <=? c) && (c <=? hi).

Section chars.
Context `{Unicode}.

Definition is_alphabetic (c : Z) : bool :=
  char_in 97 122 c || char_in 65 90 c || ((0x7f <? c) && unicode_alphabetic c).
Definition is_numeric (c : Z) : bool :=
  char_in 48 57 c || ((0x7f <? c) && unicode_numeric c).
Definition is_alphanumeric (c : Z) : bool := is_alphabetic c || is_numeric c.
End chars.

(** ** Facts *)

Lemma length_utf8_char c : length (utf8_char c) = len_utf8 c.
Proof. unfold utf8_char, len_utf8. by repeat case_test. Qed.

Lemma utf8_cons c cs : utf8 (c :: cs) = utf8_char c ++ utf8 cs.
Proof. done. Qed.
Lemma utf8_app cs ds : utf8 (cs ++ ds) = utf8 cs ++ utf8 ds.
Proof. unfold utf8. by rewrite map_app, concat_app. Qed.

Lemma byte_of z : 0 <= z < 256 -> b2z (z2b z) = z.
Proof. intros. rewrite b2z_z2b. by apply Z.mod_small. Qed.

(** Decoding inverts encoding. *)
Lemma next_char_utf8 c s : is_char c -> next_char (utf8_char c ++ s) = Some c.
Proof.
  intros [Hc _]. unfold utf8_char. repeat case_test; unfold next_char; cbn [app lookup list_lookup];
    (rewrite !byte_of by (pose proof (Z.mod_pos_bound c 64); pose proof (Z.mod_pos_bound (c / 64) 64);
       pose proof (Z.mod_pos_bound (c / 4096) 64); Z.div_mod_to_equations; lia));
    f_equal; repeat case_test; try (Z.div_mod_to_equations; lia).
Qed.

Lemma utf8_char_ne c : utf8_char c <> [].
Proof. unfold utf8_char. by repeat case_test. Qed.

Lemma len_utf8_pos c : (0 < len_utf8 c)%nat.
Proof. unfold len_utf8. repeat case_test; lia. Qed.

Lemma next_char_cons c cs s : is_char c -> next_char (utf8 (c :: cs) ++ s) = Some c.
Proof. intros. rewrite utf8_cons, <- app_assoc. by apply next_char_utf8. Qed.

(** A one-byte char is its ASCII byte; the bytes of the others are above it. *)
Lemma utf8_ascii c : 0 <= c < 0x80 -> utf8_char c = [z2b c].
Proof. intros. unfold utf8_char. by rewrite (proj2 (Z.ltb_lt _ _)) by lia. Qed.

Lemma utf8_lead c : is_char c -> exists b r, utf8_char c = b :: r /\
  (0 <= c < 0x80 /\ b2z b = c /\ r = [] \/ 0x80 <= c /\ 0xC0 <= b2z b).
Proof.
  intros [Hc _]. unfold utf8_char. repeat case_test; eexists _, _; (split; [done|]);
    [left; rewrite byte_of by lia; auto with lia|right..];
    rewrite byte_of by (Z.div_mod_to_equations; lia); Z.div_mod_to_equations; lia.
Qed.

(** The start of a char is a boundary. *)
Lemma utf8_boundary p cs : Forall is_char cs -> is_char_boundary (p ++ utf8 cs) (length p) = true.
Proof.
  intros Hcs. unfold is_char_boundary. apply orb_true_iff. right.
  rewrite lookup_app_r, Nat.sub_diag by lia. destruct Hcs as [|c cs Hc Hcs].
  - simpl. apply Nat.eqb_eq. rewrite length_app. simpl. lia.
  - destruct (utf8_lead c Hc) as (b & r & E & Hb). rewrite utf8_cons, E. simpl.
    apply orb_true_iff. rewrite Z.ltb_lt, Z.leb_le. destruct Hb as [(? & -> & _)|[_ ?]]; [left|right]; lia.
Qed.

Lemma str_from_utf8 p cs :
  Forall is_char cs -> str_from (p ++ utf8 cs) (length p) = Some (utf8 cs).
Proof. intros. unfold str_from. rewrite utf8_boundary by done. by rewrite drop_app_length. Qed.

Lemma str_get_utf8 p m cs :
  Forall is_char m -> Forall is_char cs ->
  str_get (p ++ utf8 m ++ utf8 cs) (length p) (length p + length (utf8 m)) = Some (utf8 m).
Proof.
  intros Hm Hcs. unfold str_get.
  rewrite (proj2 (Nat.leb_le _ _)) by lia. rewrite <- utf8_app, utf8_boundary by (by apply Forall_app).
  rewrite utf8_app, app_assoc, <- length_app, utf8_boundary by done. simpl.
  rewrite <- app_assoc, drop_app_length, length_app, Nat.add_comm, Nat.add_sub. by rewrite take_app_length.
Qed.

(** ASCII literals are strings. *)
Lemma bs_utf8 (s : bytes) :
  Forall (fun b => b2z b < 0x80) s -> s = utf8 (map b2z s) /\ Forall is_char (map b2z s).
Proof.
  induction 1 as [|b s Hb _ [IH1 IH2]]; [by split|]. pose proof (b2z_range b). cbn [map].
  split.
  - rewrite utf8_cons, utf8_ascii by lia. rewrite z2b_b2z. cbn [app]. by f_equal.
  - constructor; [|done]. unfold is_char. lia.
Qed.

Lemma to_upper_app a b : to_upper (a ++ b) = to_upper a ++ to_upper b.
Proof. apply map_app. Qed.

(** A property of every byte, decided by its 256 instances. *)
Lemma forall_byte (P : byte -> Prop) `{!forall b, Decision (P b)} :
  forallb (fun n => match Byte.of_N (N.of_nat n) with Some b => bool_decide (P b) | None => true end)
    (seq 0 256) = true -> forall b, P b.
Proof.
  intros Hall b. rewrite forallb_forall in Hall. specialize (Hall (N.to_nat (Byte.to_N b))).
  pose proof (Byte.to_N_bounded b). rewrite in_seq, N2Nat.id, Byte.of_to_N in Hall.
  apply (bool_decide_eq_true_1 _). apply Hall. lia.
Qed.

Lemma byte_upper_idem b : byte_upper (byte_upper b) = byte_upper b.
Proof. revert b. apply (forall_byte (fun b => byte_upper (byte_upper b) = byte_upper b)). reflexivity. Qed.
Lemma to_upper_idem s : to_upper (to_upper s) = to_upper s.
Proof.
  unfold to_upper. rewrite map_map. apply map_ext. apply byte_upper_idem.
Qed.

(** ** Reasoning about state-passing code

    [run_with R m s Q]: from state [s] the code does not panic; if it returns a
    value then [Q] holds of it and of the state reached, and if it fails then
    [R] holds of the state reached. *)
Definition run_with {S E A} (R : S -> Prop) (m : SM S E A) (s : S) (Q : A -> S -> Prop) : Prop :=
  match m s with
  | (Ok a, s') => Q a s'
  | (Err _, s') => R s'
  | (Panic, _) => False
  end.

Section run_with.
Context {S E : Type} {R : S -> Prop}.

Lemma run_bind {A B} (p : SM S E A) (k : A -> SM S E B) s Q :
  run_with R p s (fun a s' => run_with R (k a) s' Q) -> run_with R (sbind p k) s Q.
Proof. unfold run_with, sbind. by destruct (p s) as [[] ?]. Qed.
Lemma run_ret {A} (a : A) s (Q : A -> S -> Prop) : Q a s -> run_with R (sret (E:=E) a) s Q.
Proof. done. Qed.
Lemma run_get s (Q : S -> S -> Prop) : Q s s -> run_with R (sget (E:=E)) s Q.
Proof. done. Qed.
Lemma run_modify (f : S -> S) s (Q : unit -> S -> Prop) : Q tt (f s) -> run_with R (smodify (E:=E) f) s Q.
Proof. done. Qed.
Lemma run_mono {A} (m : SM S E A) s (P Q : A -> S -> Prop) :
  run_with R m s P -> (forall a s', P a s' -> Q a s') -> run_with R m s Q.
Proof. unfold run_with. destruct (m s) as [[] ?]; auto. Qed.
Lemma run_map {A B} (f : A -> B) (m : SM S E A) s Q :
  run_with R m s (fun a s' => Q (f a) s') -> run_with R (smap f m) s Q.
Proof. intros. apply run_bind. eapply run_mono; [done|]. intros a s' Ha. by apply run_ret. Qed.
End run_with.

(** ** ASCII bytes begin chars *)

Lemma utf8_ascii_split cs n b :
  Forall is_char cs -> utf8 cs !! n = Some b -> b2z b < 0x80 ->
  exists k, drop n (utf8 cs) = utf8 (b2z b :: drop (S k) cs) /\ cs !! k = Some (b2z b).
Proof.
  intros Hcs. revert n. induction Hcs as [|c cs Hc Hcs IH]; intros n Hn Hb; [done|].
  rewrite utf8_cons in Hn |- *. pose proof (b2z_range b) as Hr.
  destruct (decide (n < length (utf8_char c))%nat) as [Hlt|Hge].
  - rewrite lookup_app_l in Hn by done. assert (n = 0%nat /\ c = b2z b) as [-> ->].
    { destruct Hc as [Hc _]. unfold utf8_char in Hn, Hlt. revert Hn.
      repeat case_test; destruct n as [|[|[|[|]]]]; simpl; intros Hn; simplify_eq; try done;
        rewrite byte_of in * by (Z.div_mod_to_equations; lia); try (split; [done|lia]);
        Z.div_mod_to_equations; lia. }
    by exists 0%nat.
  - rewrite lookup_app_r in Hn by lia. apply IH in Hn as (k & Hd & Hk); [|done].
    exists (S k). rewrite drop_app_ge by lia. by split.
Qed.
