(* ===== verification/Float64.v ===== *)
(** * IEEE-754 doubles and their decimal literals

    [f64] as the standard library's executable specification of binary64
    (53-bit mantissa, exponent bound 1024; one NaN), with the operations the
    source applies to it.  [f64_of_decimal] is the correctly rounded value of a
    decimal literal, as [str::parse::<f64>] documents it. *)

From Stdlib Require Export SpecFloat.
From S2P Require Import Prelude Text.

Abbreviation f64 := spec_float (only parsing).

#[global] Instance spec_float_eq_dec : EqDecision spec_float.
Proof. solve_decision. Defined.

(** ** Arithmetic and comparison *)

Definition f64_add : f64 -> f64 -> f64 := SFadd 53 1024.
Definition f64_sub : f64 -> f64 -> f64 := SFsub 53 1024.
Definition f64_mul : f64 -> f64 -> f64 := SFmul 53 1024.
Definition f64_div : f64 -> f64 -> f64 := SFdiv 53 1024.
Definition f64_sqrt : f64 -> f64 := SFsqrt 53 1024.

(** [n as f64] *)
Definition f64_of_Z (n : Z) : f64 := binary_normalize 53 1024 n 0 false.

(** [f.trunc()] as an integer, and the saturating cast [f as i64] *)
Definition f64_trunc (f : f64) : Z :=
  match f with
  | S754_finite s m e =>
      let a := if 0 <=? e then Z.pos m * 2 ^ e else Z.pos m / 2 ^ (- e) in
      if s then - a else a
  | _ => 0
  end.
Definition f64_to_i64 (f : f64) : Z :=
  match f with
  | S754_nan => 0
  | S754_infinity s => if s then - 2 ^ 63 else 2 ^ 63 - 1
  | _ => Z.max (- 2 ^ 63) (Z.min (2 ^ 63 - 1) (f64_trunc f))
  end.

(** ** Decimal literals *)

(** The double nearest to [m * 10 ^ e], for a natural number [m]. *)
Definition f64_of_decimal (m e : Z) : f64 :=
  match m with
  | Z.pos _ =>
      if 0 <=? e then binary_normalize 53 1024 (m * 10 ^ e) 0 false
      else let '(mz, ez, lz) := SFdiv_core_binary 53 1024 m 0 (10 ^ (- e)) 0 in
           binary_round_aux 53 1024 false mz ez lz
  | _ => S754_zero false
  end.

(** The value of a run of digits. *)
Definition digit_val (b : byte) : Z := b2z b - 48.
Definition digits_val (l : bytes) : Z := fold_left (fun n b => n * 10 + digit_val b) l 0.

Fixpoint take_digits (l : bytes) : bytes * bytes :=
  match l with
  | b :: r => if is_ascii_digit b then let '(d, t) := take_digits r in (b :: d, t) else ([], l)
  | [] => ([], [])
  end.

(** [s.parse::<f64>()] on unsigned literals: digits, an optional fraction and an
    optional exponent, with at least one digit in the mantissa and, after an
    [e], in the exponent. *)
Definition parse_f64 (s : bytes) : option f64 :=
  let '(ip, r1) := take_digits s in
  let '(fp, r2) := match r1 with x2e :: r => take_digits r | _ => ([], r1) end in
  match ip ++ fp with
  | [] => None
  | ds =>
      let done e := Some (f64_of_decimal (digits_val ds) (e - len fp)) in
      match r2 with
      | [] => done 0
      | (x65 | x45) :: r =>
          let '(sign, r') := match r with
                             | x2d :: r' => (-1, r')
                             | x2b :: r' => (1, r')
                             | _ => (1, r)
                             end in
          match take_digits r' with
          | ((_ :: _) as ex, []) => done (sign * digits_val ex)
          | _ => None
          end
      | _ => None
      end
  end.

(** 0.1 is not exact, 1.5 and 1e3 are, 1e400 overflows. *)
Example parse_f64_samples :
  (parse_f64 (bs "0.1"), parse_f64 (bs "1.5"), parse_f64 (bs "1e3"), parse_f64 (bs "1E+400"),
   parse_f64 (bs ".5e-1"), parse_f64 (bs "."), parse_f64 (bs "1e")) =
  (Some (S754_finite false 7205759403792794 (-56)), Some (S754_finite false 6755399441055744 (-52)),
   Some (f64_of_Z 1000), Some (S754_infinity false),
   Some (f64_div (f64_of_Z 1) (f64_of_Z 20)), None, None).
Proof. vm_compute. reflexivity. Qed.

(** ** Decimal integers: [n.to_string()] *)

Fixpoint show_digits (fuel : nat) (n : Z) (acc : bytes) : bytes :=
  match fuel with
  | O => acc
  | S fuel' =>
      let acc' := z2b (48 + n mod 10) :: acc in
      if n <? 10 then acc' else show_digits fuel' (n / 10) acc'
  end.

Definition show_nat (n : Z) : bytes := show_digits (S (Z.to_nat (Z.log2 n))) n [].
Definition show_Z (n : Z) : bytes := if n <? 0 then x2d :: show_nat (- n) else show_nat n.

Lemma digit_byte d : 0 <= d < 10 -> is_ascii_digit (z2b (48 + d)) = true /\ digit_val (z2b (48 + d)) = d.
Proof.
  intros. unfold is_ascii_digit, in_byte, digit_val. rewrite byte_of by lia.
  rewrite !(proj2 (Z.leb_le _ _)) by lia. split; [done|lia].
Qed.

Lemma digits_val_app a b :
  digits_val (a ++ b) = fold_left (fun n c => n * 10 + digit_val c) b (digits_val a).
Proof. unfold digits_val. by rewrite fold_left_app. Qed.

(** Printing yields digits whose value is the number. *)
Lemma show_digits_spec fuel n acc :
  0 <= n < 2 ^ Z.of_nat fuel -> (0 < fuel)%nat ->
  exists d ds, show_digits fuel n acc = d :: ds ++ acc /\
    Forall (fun b => is_ascii_digit b = true) (d :: ds) /\ digits_val (d :: ds) = n /\
    (d = x30 -> n = 0 /\ ds = []).
Proof.
  revert n acc. induction fuel as [|fuel IH]; intros n acc Hn Hf; [lia|].
  cbn [show_digits]. pose proof (Z.mod_pos_bound n 10 ltac:(lia)) as Hm.
  destruct (digit_byte (n mod 10) Hm) as [Hd Hv]. destruct (n <? 10) eqn:E; bool_to_prop.
  - exists (z2b (48 + n mod 10)), []. rewrite Z.mod_small in * by lia.
    split; [done|]. split; [by constructor|]. unfold digits_val. simpl. split; [lia|].
    intros Hz. split; [|done]. assert (digit_val x30 = n) as <- by congruence. done.
  - rewrite Nat2Z.inj_succ, Z.pow_succ_r in Hn by lia.
    assert (0 < fuel)%nat as Hf' by (destruct fuel; [simpl in Hn; lia|lia]).
    destruct (IH (n / 10) (z2b (48 + n mod 10) :: acc)) as (d & ds & -> & Hds & Hval & Hz); [|done|].
    { Z.div_mod_to_equations. lia. }
    exists d, (ds ++ [z2b (48 + n mod 10)]). rewrite <- app_assoc. split; [done|].
    rewrite app_comm_cons. split; [by apply Forall_app; split; [|constructor]|].
    rewrite digits_val_app, Hval. simpl. rewrite Hv. split; [Z.div_mod_to_equations; lia|].
    intros [Hn0 _]%Hz. Z.div_mod_to_equations. lia.
Qed.

Lemma show_nat_spec n : 0 <= n ->
  exists d ds, show_nat n = d :: ds /\
    Forall (fun b => is_ascii_digit b = true) (d :: ds) /\ digits_val (d :: ds) = n /\
    (d = x30 -> n = 0 /\ ds = []).
Proof.
  intros Hn. unfold show_nat. destruct (show_digits_spec (S (Z.to_nat (Z.log2 n))) n []) as (d & ds & E & H).
  - split; [done|]. rewrite Nat2Z.inj_succ, Z2Nat.id by apply Z.log2_nonneg.
    destruct (Z.eq_dec n 0) as [->|]; [done|]. apply Z.log2_spec. lia.
  - lia.
  - exists d, ds. by rewrite app_nil_r in E.
Qed.

Lemma take_digits_app ds s :
  Forall (fun b => is_ascii_digit b = true) ds ->
  (match s with b :: _ => is_ascii_digit b = false | [] => True end) ->
  take_digits (ds ++ s) = (ds, s).
Proof.
  intros Hds Hs. induction Hds as [|b ds Hb Hds IH]; simpl.
  - destruct s; simpl; [done|]. by rewrite Hs.
  - by rewrite Hb, IH.
Qed.
