(* ===== verification/Tokens.v ===== *)
(** * Lexer tokens and keywords (crates/noedb-lexer: span.rs, token.rs,
      ascii_lut.rs, keyword_buckets.rs, keywords.rs, error.rs)

    Spans and the source map, the token types, the byte classes as 256-entry
    tables, and the keyword lookup by length bucket with its linear and binary
    searches. *)

From S2P Require Import Prelude BTree Text Float64.

(** ** Spans *)

Record Span : Type := mkSpan { sp_start : Z; sp_end : Z }.

#[global] Instance Span_eq_dec : EqDecision Span.
Proof. solve_decision. Defined.

Definition Span_empty_at (offset : Z) : Span := mkSpan (wrap 32 offset) (wrap 32 offset).

(** [self.end - self.start], which overflows on an inverted span *)
Definition Span_len {E} (s : Span) : outcome E Z :=
  if sp_end s <? sp_start s then Panic else Ok (sp_end s - sp_start s).
Definition Span_is_empty (s : Span) : bool := sp_start s =? sp_end s.
Definition Span_slice (s : Span) (src : bytes) : option bytes :=
  str_get src (Z.to_nat (sp_start s)) (Z.to_nat (sp_end s)).

Record LineColumn : Type := mkLineColumn { lc_line : Z; lc_column : Z }.
Record SourceMap : Type := mkSourceMap { src_len : Z; newlines : list Z }.

Fixpoint newline_offsets (i : Z) (src : bytes) : list Z :=
  match src with
  | [] => []
  | b :: r => (if bool_decide (b = x0a) then [wrap 32 i] else []) ++ newline_offsets (i + 1) r
  end.

Definition SourceMap_new (src : bytes) : SourceMap :=
  mkSourceMap (wrap 32 (len src)) (newline_offsets 0 src).

(** [binary_search] on a sorted slice: the index of the match or of the
    insertion point, which is the number of smaller elements. *)
Definition binary_search (l : list Z) (x : Z) : nat := length (filter (fun y => y < x) l).

Definition SourceMap_line_column {E} (m : SourceMap) (byte_offset : Z) : outcome E LineColumn :=
  let offset := Z.min byte_offset (src_len m) in
  let idx := binary_search (newlines m) offset in
  let? line_start :=
    match idx with
    | O => Ok 0
    | S i => match newlines m !! i with Some n => Ok (wrap 32 (n + 1)) | None => Panic end
    end in
  if offset <? line_start then Panic
  else Ok (mkLineColumn (Z.min (Z.of_nat idx + 1) (umax 32)) (offset - line_start + 1)).

(** ** Tokens *)

Inductive Keyword : Type :=
  | KwAdd | KwAll | KwAlter | KwAnalyze | KwAnd | KwAny | KwAs | KwAsc | KwAuthorization
  | KwBetween | KwBegin | KwBy | KwCase | KwCast | KwCheck | KwCollate | KwColumn | KwCommit
  | KwConstraint | KwCreate | KwCross | KwCurrent | KwCurrentDate | KwCurrentTime
  | KwCurrentTimestamp | KwCurrentUser | KwDefault | KwDelete | KwDesc | KwDistinct | KwDrop
  | KwElse | KwEnable | KwEnd | KwEscape | KwExcept | KwExecute | KwExists | KwFalse | KwFetch
  | KwFollowing | KwFor | KwForeign | KwFrom | KwFull | KwGrant | KwGroup | KwHaving | KwIf
  | KwIn | KwIndex | KwInner | KwInsert | KwIntersect | KwInto | KwIs | KwJoin | KwKey | KwLeft
  | KwLevel | KwLike | KwLimit | KwNatural | KwNot | KwNull | KwNullif | KwOf | KwOffset | KwOn
  | KwOr | KwOrder | KwOver | KwOuter | KwPartition | KwPolicy | KwPreceding | KwPrepare
  | KwPrimary | KwRange | KwRecursive | KwReferences | KwRight | KwRole | KwRows | KwRollback
  | KwRow | KwSelect | KwSecurity | KwSet | KwSome | KwTable | KwThen | KwTo | KwTrue | KwUnion
  | KwUnbounded | KwUnique | KwUpdate | KwUser | KwUsing | KwValues | KwView | KwWhen | KwWhere
  | KwWith.

(** The variants in order: decidable equality goes through the discriminant. *)
Definition all_kws : list Keyword :=
  [KwAdd; KwAll; KwAlter; KwAnalyze; KwAnd; KwAny; KwAs; KwAsc; KwAuthorization; KwBetween;
   KwBegin; KwBy; KwCase; KwCast; KwCheck; KwCollate; KwColumn; KwCommit; KwConstraint;
   KwCreate; KwCross; KwCurrent; KwCurrentDate; KwCurrentTime; KwCurrentTimestamp;
   KwCurrentUser; KwDefault; KwDelete; KwDesc; KwDistinct; KwDrop; KwElse; KwEnable; KwEnd;
   KwEscape; KwExcept; KwExecute; KwExists; KwFalse; KwFetch; KwFollowing; KwFor; KwForeign;
   KwFrom; KwFull; KwGrant; KwGroup; KwHaving; KwIf; KwIn; KwIndex; KwInner; KwInsert;
   KwIntersect; KwInto; KwIs; KwJoin; KwKey; KwLeft; KwLevel; KwLike; KwLimit; KwNatural;
   KwNot; KwNull; KwNullif; KwOf; KwOffset; KwOn; KwOr; KwOrder; KwOver; KwOuter; KwPartition;
   KwPolicy; KwPreceding; KwPrepare; KwPrimary; KwRange; KwRecursive; KwReferences; KwRight;
   KwRole; KwRows; KwRollback; KwRow; KwSelect; KwSecurity; KwSet; KwSome; KwTable; KwThen;
   KwTo; KwTrue; KwUnion; KwUnbounded; KwUnique; KwUpdate; KwUser; KwUsing; KwValues; KwView;
   KwWhen; KwWhere; KwWith].

Definition kw_tag (k : Keyword) : nat :=
  match k with
  | KwAdd => 0 | KwAll => 1 | KwAlter => 2 | KwAnalyze => 3 | KwAnd => 4 | KwAny => 5
  | KwAs => 6 | KwAsc => 7 | KwAuthorization => 8 | KwBetween => 9 | KwBegin => 10 | KwBy => 11
  | KwCase => 12 | KwCast => 13 | KwCheck => 14 | KwCollate => 15 | KwColumn => 16
  | KwCommit => 17 | KwConstraint => 18 | KwCreate => 19 | KwCross => 20 | KwCurrent => 21
  | KwCurrentDate => 22 | KwCurrentTime => 23 | KwCurrentTimestamp => 24 | KwCurrentUser => 25
  | KwDefault => 26 | KwDelete => 27 | KwDesc => 28 | KwDistinct => 29 | KwDrop => 30
  | KwElse => 31 | KwEnable => 32 | KwEnd => 33 | KwEscape => 34 | KwExcept => 35
  | KwExecute => 36 | KwExists => 37 | KwFalse => 38 | KwFetch => 39 | KwFollowing => 40
  | KwFor => 41 | KwForeign => 42 | KwFrom => 43 | KwFull => 44 | KwGrant => 45 | KwGroup => 46
  | KwHaving => 47 | KwIf => 48 | KwIn => 49 | KwIndex => 50 | KwInner => 51 | KwInsert => 52
  | KwIntersect => 53 | KwInto => 54 | KwIs => 55 | KwJoin => 56 | KwKey => 57 | KwLeft => 58
  | KwLevel => 59 | KwLike => 60 | KwLimit => 61 | KwNatural => 62 | KwNot => 63 | KwNull => 64
  | KwNullif => 65 | KwOf => 66 | KwOffset => 67 | KwOn => 68 | KwOr => 69 | KwOrder => 70
  | KwOver => 71 | KwOuter => 72 | KwPartition => 73 | KwPolicy => 74 | KwPreceding => 75
  | KwPrepare => 76 | KwPrimary => 77 | KwRange => 78 | KwRecursive => 79 | KwReferences => 80
  | KwRight => 81 | KwRole => 82 | KwRows => 83 | KwRollback => 84 | KwRow => 85
  | KwSelect => 86 | KwSecurity => 87 | KwSet => 88 | KwSome => 89 | KwTable => 90
  | KwThen => 91 | KwTo => 92 | KwTrue => 93 | KwUnion => 94 | KwUnbounded => 95
  | KwUnique => 96 | KwUpdate => 97 | KwUser => 98 | KwUsing => 99 | KwValues => 100
  | KwView => 101 | KwWhen => 102 | KwWhere => 103 | KwWith => 104
  end.

Lemma kw_tag_lookup k : all_kws !! kw_tag k = Some k.
Proof. by destruct k. Qed.
#[global] Instance kw_tag_inj : Inj (=) (=) kw_tag.
Proof. intros a b E. pose proof (kw_tag_lookup a) as Ha. rewrite E, kw_tag_lookup in Ha. by injection Ha. Qed.
#[global] Instance Keyword_eq_dec : EqDecision Keyword := fun a b =>
  match decide (kw_tag a = kw_tag b) with
  | left E => left (inj kw_tag a b E)
  | right N => right (fun E => N (f_equal kw_tag E))
  end.

Inductive Operator : Type :=
| OpEq | OpNe | OpLt | OpGt | OpLe | OpGe | OpMinus | OpPlus | OpDiv | OpMod | OpDistance.
#[global] Instance Operator_eq_dec : EqDecision Operator.
Proof. solve_decision. Defined.

Inductive Punctuation : Type := LParen | RParen | Comma | Semicolon | Dot | Star.
#[global] Instance Punctuation_eq_dec : EqDecision Punctuation.
Proof. solve_decision. Defined.

Inductive Token : Type :=
| TKeyword (k : Keyword)
| TIdent
| TQuotedIdent (s : bytes)
| TInteger (n : Z)
| TFloat (f : f64)
| TString (s : bytes)
| TOp (o : Operator)
| TPunct (p : Punctuation)
| TEof
| TParameter (n : Z).
#[global] Instance Token_eq_dec : EqDecision Token.
Proof. solve_decision. Defined.

Record SpannedToken : Type := mkSpannedToken { tok_kind : Token; tok_span : Span }.

(** [SpannedToken::lexeme] *)
Definition lexeme (t : SpannedToken) (src : bytes) : option bytes := Span_slice (tok_span t) src.

Inductive LexErrorKind : Type :=
| UnexpectedChar (c : Z)
| IntegerOutOfRange (lit : bytes)
| InvalidFloat (lit : bytes)
| UnterminatedString
| UnterminatedQuotedIdent
| UnterminatedBlockComment.

Record LexError : Type := mkLexError { le_kind : LexErrorKind; le_span : Span }.

(** [LexError::line_column] *)
Definition LexError_line_column {E} (e : LexError) (src : bytes) : outcome E LineColumn :=
  SourceMap_line_column (SourceMap_new src) (sp_start (le_span e)).

(** ** Byte classes *)

(** A table of 256 flags, and its lookup [t[b as usize]]. *)
Definition lut (p : byte -> bool) : list Z :=
  map (fun i => if p (z2b (Z.of_nat i)) then 1 else 0) (seq 0 256).
Definition lut_get (t : list Z) (b : byte) : Z := nth (Z.to_nat (b2z b)) t 0.

Definition WHITESPACE : list Z :=
  Eval vm_compute in lut (fun b => bool_decide (b ∈ [x20; x09; x0a; x0d; x0b; x0c])).
Definition IDENT_CONTINUE : list Z :=
  Eval vm_compute in lut (fun b => is_ascii_alphanumeric b || bool_decide (b = x5f)).
Definition IDENT_START : list Z :=
  Eval vm_compute in lut (fun b => is_ascii_alphabetic b || bool_decide (b = x5f)).
Definition UPPER_OR_UNDERSCORE : list Z :=
  Eval vm_compute in lut (fun b => is_ascii_uppercase b || bool_decide (b = x5f)).

Definition is_whitespace (b : byte) : bool := negb (lut_get WHITESPACE b =? 0).
Definition is_ident_continue (b : byte) : bool := negb (lut_get IDENT_CONTINUE b =? 0).
Definition is_ident_start (b : byte) : bool := negb (lut_get IDENT_START b =? 0).
Definition is_upper_keyword_body (word : bytes) : bool :=
  forallb (fun b => negb (lut_get UPPER_OR_UNDERSCORE b =? 0)) word.

(** ** Keyword tables *)

Definition KW_LEN_02 : list (bytes * Keyword) :=
  [(bs "AS", KwAs); (bs "BY", KwBy); (bs "IF", KwIf); (bs "IN", KwIn); (bs "IS", KwIs);
   (bs "OF", KwOf); (bs "ON", KwOn); (bs "OR", KwOr); (bs "TO", KwTo)].
Definition KW_LEN_03 : list (bytes * Keyword) :=
  [(bs "ADD", KwAdd); (bs "ALL", KwAll); (bs "AND", KwAnd); (bs "ANY", KwAny);
   (bs "ASC", KwAsc); (bs "END", KwEnd); (bs "FOR", KwFor); (bs "KEY", KwKey);
   (bs "NOT", KwNot); (bs "ROW", KwRow); (bs "SET", KwSet)].
Definition KW_LEN_04 : list (bytes * Keyword) :=
  [(bs "CASE", KwCase); (bs "CAST", KwCast); (bs "DESC", KwDesc); (bs "DROP", KwDrop);
   (bs "ELSE", KwElse); (bs "FROM", KwFrom); (bs "FULL", KwFull); (bs "INTO", KwInto);
   (bs "JOIN", KwJoin); (bs "LEFT", KwLeft); (bs "LIKE", KwLike); (bs "NULL", KwNull);
   (bs "OVER", KwOver); (bs "ROLE", KwRole); (bs "ROWS", KwRows); (bs "SOME", KwSome);
   (bs "THEN", KwThen); (bs "TRUE", KwTrue); (bs "USER", KwUser); (bs "VIEW", KwView);
   (bs "WHEN", KwWhen); (bs "WITH", KwWith)].
Definition KW_LEN_05 : list (bytes * Keyword) :=
  [(bs "ALTER", KwAlter); (bs "BEGIN", KwBegin); (bs "CHECK", KwCheck); (bs "CROSS", KwCross);
   (bs "FALSE", KwFalse); (bs "FETCH", KwFetch); (bs "GRANT", KwGrant); (bs "GROUP", KwGroup);
   (bs "INDEX", KwIndex); (bs "INNER", KwInner); (bs "LEVEL", KwLevel); (bs "LIMIT", KwLimit);
   (bs "ORDER", KwOrder); (bs "OUTER", KwOuter); (bs "RANGE", KwRange); (bs "RIGHT", KwRight);
   (bs "TABLE", KwTable); (bs "UNION", KwUnion); (bs "USING", KwUsing); (bs "WHERE", KwWhere)].
Definition KW_LEN_06 : list (bytes * Keyword) :=
  [(bs "COLUMN", KwColumn); (bs "COMMIT", KwCommit); (bs "CREATE", KwCreate);
   (bs "DELETE", KwDelete); (bs "ENABLE", KwEnable); (bs "ESCAPE", KwEscape);
   (bs "EXCEPT", KwExcept); (bs "EXISTS", KwExists); (bs "HAVING", KwHaving);
   (bs "INSERT", KwInsert); (bs "NULLIF", KwNullif); (bs "OFFSET", KwOffset);
   (bs "POLICY", KwPolicy); (bs "SELECT", KwSelect); (bs "UNIQUE", KwUnique);
   (bs "UPDATE", KwUpdate); (bs "VALUES", KwValues)].
Definition KW_LEN_07 : list (bytes * Keyword) :=
  [(bs "ANALYZE", KwAnalyze); (bs "BETWEEN", KwBetween); (bs "COLLATE", KwCollate);
   (bs "CURRENT", KwCurrent); (bs "DEFAULT", KwDefault); (bs "EXECUTE", KwExecute);
   (bs "FOREIGN", KwForeign); (bs "NATURAL", KwNatural); (bs "PREPARE", KwPrepare);
   (bs "PRIMARY", KwPrimary)].
Definition KW_LEN_08 : list (bytes * Keyword) :=
  [(bs "DISTINCT", KwDistinct); (bs "ROLLBACK", KwRollback); (bs "SECURITY", KwSecurity)].
Definition KW_LEN_09 : list (bytes * Keyword) :=
  [(bs "FOLLOWING", KwFollowing); (bs "INTERSECT", KwIntersect); (bs "PARTITION", KwPartition);
   (bs "PRECEDING", KwPreceding); (bs "RECURSIVE", KwRecursive); (bs "UNBOUNDED", KwUnbounded)].
Definition KW_LEN_10 : list (bytes * Keyword) :=
  [(bs "CONSTRAINT", KwConstraint); (bs "REFERENCES", KwReferences)].
Definition KW_LEN_12 : list (bytes * Keyword) :=
  [(bs "CURRENT_DATE", KwCurrentDate); (bs "CURRENT_TIME", KwCurrentTime);
   (bs "CURRENT_USER", KwCurrentUser)].
Definition KW_LEN_13 : list (bytes * Keyword) :=
  [(bs "AUTHORIZATION", KwAuthorization)].
Definition KW_LEN_17 : list (bytes * Keyword) :=
  [(bs "CURRENT_TIMESTAMP", KwCurrentTimestamp)].

Definition table_for_len (n : Z) : list (bytes * Keyword) :=
  match n with
  | 2 => KW_LEN_02
  | 3 => KW_LEN_03
  | 4 => KW_LEN_04
  | 5 => KW_LEN_05
  | 6 => KW_LEN_06
  | 7 => KW_LEN_07
  | 8 => KW_LEN_08
  | 9 => KW_LEN_09
  | 10 => KW_LEN_10
  | 12 => KW_LEN_12
  | 13 => KW_LEN_13
  | 17 => KW_LEN_17
  | _ => []
  end.

Definition KEYWORD_TABLE : list (bytes * Keyword) :=
  [(bs "ADD", KwAdd); (bs "ALL", KwAll); (bs "ALTER", KwAlter); (bs "ANALYZE", KwAnalyze);
   (bs "AND", KwAnd); (bs "ANY", KwAny); (bs "AS", KwAs); (bs "ASC", KwAsc);
   (bs "AUTHORIZATION", KwAuthorization); (bs "BEGIN", KwBegin); (bs "BETWEEN", KwBetween);
   (bs "BY", KwBy); (bs "CASE", KwCase); (bs "CAST", KwCast); (bs "CHECK", KwCheck);
   (bs "COLLATE", KwCollate); (bs "COLUMN", KwColumn); (bs "COMMIT", KwCommit);
   (bs "CONSTRAINT", KwConstraint); (bs "CREATE", KwCreate); (bs "CROSS", KwCross);
   (bs "CURRENT", KwCurrent); (bs "CURRENT_DATE", KwCurrentDate);
   (bs "CURRENT_TIME", KwCurrentTime); (bs "CURRENT_TIMESTAMP", KwCurrentTimestamp);
   (bs "CURRENT_USER", KwCurrentUser); (bs "DEFAULT", KwDefault); (bs "DELETE", KwDelete);
   (bs "DESC", KwDesc); (bs "DISTINCT", KwDistinct); (bs "DROP", KwDrop); (bs "ELSE", KwElse);
   (bs "ENABLE", KwEnable); (bs "END", KwEnd); (bs "ESCAPE", KwEscape);
   (bs "EXCEPT", KwExcept); (bs "EXECUTE", KwExecute); (bs "EXISTS", KwExists);
   (bs "FALSE", KwFalse); (bs "FETCH", KwFetch); (bs "FOLLOWING", KwFollowing);
   (bs "FOR", KwFor); (bs "FOREIGN", KwForeign); (bs "FROM", KwFrom); (bs "FULL", KwFull);
   (bs "GRANT", KwGrant); (bs "GROUP", KwGroup); (bs "HAVING", KwHaving); (bs "IF", KwIf);
   (bs "IN", KwIn); (bs "INDEX", KwIndex); (bs "INNER", KwInner); (bs "INSERT", KwInsert);
   (bs "INTERSECT", KwIntersect); (bs "INTO", KwInto); (bs "IS", KwIs); (bs "JOIN", KwJoin);
   (bs "KEY", KwKey); (bs "LEFT", KwLeft); (bs "LEVEL", KwLevel); (bs "LIKE", KwLike);
   (bs "LIMIT", KwLimit); (bs "NATURAL", KwNatural); (bs "NOT", KwNot); (bs "NULL", KwNull);
   (bs "NULLIF", KwNullif); (bs "OF", KwOf); (bs "OFFSET", KwOffset); (bs "ON", KwOn);
   (bs "OR", KwOr); (bs "ORDER", KwOrder); (bs "OUTER", KwOuter); (bs "OVER", KwOver);
   (bs "PARTITION", KwPartition); (bs "POLICY", KwPolicy); (bs "PRECEDING", KwPreceding);
   (bs "PREPARE", KwPrepare); (bs "PRIMARY", KwPrimary); (bs "RANGE", KwRange);
   (bs "RECURSIVE", KwRecursive); (bs "REFERENCES", KwReferences); (bs "RIGHT", KwRight);
   (bs "ROLE", KwRole); (bs "ROLLBACK", KwRollback); (bs "ROW", KwRow); (bs "ROWS", KwRows);
   (bs "SECURITY", KwSecurity); (bs "SELECT", KwSelect); (bs "SET", KwSet);
   (bs "SOME", KwSome); (bs "TABLE", KwTable); (bs "THEN", KwThen); (bs "TO", KwTo);
   (bs "TRUE", KwTrue); (bs "UNBOUNDED", KwUnbounded); (bs "UNION", KwUnion);
   (bs "UNIQUE", KwUnique); (bs "UPDATE", KwUpdate); (bs "USER", KwUser);
   (bs "USING", KwUsing); (bs "VALUES", KwValues); (bs "VIEW", KwView); (bs "WHEN", KwWhen);
   (bs "WHERE", KwWhere); (bs "WITH", KwWith)].

(** ** Keyword lookup *)

(** [for &(name, kw) in table { if same { return Some(kw) } }] *)
Fixpoint table_find (same : bytes -> bool) (table : list (bytes * Keyword)) : option Keyword :=
  match table with
  | [] => None
  | (name, kw) :: t => if same name then Some kw else table_find same t
  end.

(** [while lo < hi { ... }], which halves the interval at every round *)
Fixpoint table_search (fuel : nat) (cmp : bytes -> comparison) (table : list (bytes * Keyword))
    (lo hi : nat) : option Keyword :=
  match fuel with
  | O => None
  | S fuel' =>
      if (lo <? hi)%nat then
        let mid := (lo + (hi - lo) / 2)%nat in
        match table !! mid with
        | None => None
        | Some (name, kw) =>
            match cmp name with
            | Lt => table_search fuel' cmp table lo mid
            | Eq => Some kw
            | Gt => table_search fuel' cmp table (S mid) hi
            end
        end
      else None
  end.

Definition lookup_in_table (cmp : bytes -> comparison) (table : list (bytes * Keyword)) : option Keyword :=
  if (length table <=? 8)%nat
  then table_find (fun name => match cmp name with Eq => true | _ => false end) table
  else table_search (S (length table)) cmp table 0 (length table).

(** [cmp_ignore_ascii_case]: the common prefix first, then the lengths *)
Fixpoint cmp_ignore_ascii_case (a b : bytes) : comparison :=
  match a, b with
  | [], [] => Eq
  | [], _ :: _ => Lt
  | _ :: _, [] => Gt
  | x :: a', y :: b' =>
      match b2z (byte_upper x) ?= b2z (byte_upper y) with
      | Eq => cmp_ignore_ascii_case a' b'
      | c => c
      end
  end.

Definition lookup_in_table_upper (word : bytes) := lookup_in_table (bytes_cmp word).
Definition lookup_in_table_ignore_case (word : bytes) := lookup_in_table (cmp_ignore_ascii_case word).

Definition keyword_lookup (word : bytes) : option Keyword :=
  match table_for_len (len word) with
  | [] => None
  | table =>
      if is_upper_keyword_body word then lookup_in_table_upper word table
      else lookup_in_table_ignore_case word table
  end.

Example keyword_lookup_samples :
  (keyword_lookup (bs "SELECT"), keyword_lookup (bs "SeLeCt"),
   keyword_lookup (bs "current_timestamp"), keyword_lookup (bs "users")) =
  (Some KwSelect, Some KwSelect, Some KwCurrentTimestamp, None).
Proof. vm_compute. reflexivity. Qed.

(** ** The byte classes are the documented sets *)

Ltac by_bytes :=
  match goal with |- forall b : byte, @?P b => apply (forall_byte P); vm_compute; reflexivity end.

Lemma is_whitespace_spec b : is_whitespace b = bool_decide (b ∈ [x20; x09; x0a; x0d; x0b; x0c]).
Proof. revert b. by_bytes. Qed.
Lemma is_ident_start_spec b : is_ident_start b = is_ascii_alphabetic b || bool_decide (b = x5f).
Proof. revert b. by_bytes. Qed.
Lemma is_ident_continue_spec b : is_ident_continue b = is_ascii_alphanumeric b || bool_decide (b = x5f).
Proof. revert b. by_bytes. Qed.

Lemma upper_body_id word : is_upper_keyword_body word = true -> to_upper word = word.
Proof.
  unfold is_upper_keyword_body. rewrite forallb_forall. intros H. unfold to_upper.
  rewrite <- (map_id word) at 2. apply map_ext_in. intros b Hb%H. revert b Hb.
  apply (forall_byte (fun b => negb (lut_get UPPER_OR_UNDERSCORE b =? 0) = true -> byte_upper b = b)).
  vm_compute. reflexivity.
Qed.

(** ** The searches find the entry *)

Lemma cmp_ignore_case_upper a b : cmp_ignore_ascii_case a b = bytes_cmp (to_upper a) (to_upper b).
Proof.
  revert b. induction a as [|x a IH]; intros [|y b]; try done. cbn [cmp_ignore_ascii_case to_upper map bytes_cmp].
  destruct (_ ?= _); [apply IH|done..].
Qed.

Definition table_sorted (t : list (bytes * Keyword)) : Prop :=
  StronglySorted (fun a b => bytes_lt a.1 b.1) t.

Lemma sorted_lookup_lt {A} (R : relation A) l i j x y :
  StronglySorted R l -> l !! i = Some x -> l !! j = Some y -> (i < j)%nat -> R x y.
Proof.
  intros Hs. revert i j. induction Hs as [|a l Hs IH Ha]; intros i j Hi Hj Hij; [done|].
  destruct j as [|j]; [lia|]. destruct i as [|i]; simpl in *; [|eapply IH; eauto; lia].
  simplify_eq. apply (proj1 (Forall_forall _ _) Ha). by eapply list_elem_of_lookup_2.
Qed.

Lemma table_find_elem w t kw :
  table_sorted t ->
  table_find (fun name => match bytes_cmp w name with Eq => true | _ => false end) t = Some kw <->
  (w, kw) ∈ t.
Proof.
  induction 1 as [|[n k] t Hs IH Hn]; simpl; [split; [done|by intros ?%elem_of_nil]|].
  rewrite elem_of_cons. destruct (bytes_cmp w n) eqn:E.
  - apply bytes_cmp_eq in E as <-. split; [intros [=<-]; auto|]. intros [[= ->]|Hin]; [done|].
    rewrite Forall_forall in Hn. apply Hn in Hin. simpl in Hin. by rewrite bytes_ltb_irrefl in Hin.
  - rewrite IH. split; [auto|]. intros [[= -> _]|?]; [by rewrite bytes_cmp_refl in E|done].
  - rewrite IH. split; [auto|]. intros [[= -> _]|?]; [by rewrite bytes_cmp_refl in E|done].
Qed.

(** Entries with the wanted name lie in the interval of the search. *)
Lemma table_search_elem fuel w t lo hi kw :
  table_sorted t -> (hi - lo < fuel)%nat -> (hi <= length t)%nat ->
  (forall i k, t !! i = Some (w, k) -> (lo <= i < hi)%nat) ->
  table_search fuel (bytes_cmp w) t lo hi = Some kw <-> (w, kw) ∈ t.
Proof.
  intros Hs. revert lo hi. induction fuel as [|fuel IH]; intros lo hi Hf Hhi Hin; [lia|].
  cbn [table_search]. destruct (lo <? hi)%nat eqn:E; bool_to_prop.
  2: { split; [done|]. intros [i Hi]%list_elem_of_lookup_1. apply Hin in Hi. lia. }
  set (mid := (lo + (hi - lo) / 2)%nat).
  assert (lo <= mid < hi)%nat as Hmid.
  { unfold mid. pose proof (Nat.div_lt (hi - lo) 2). pose proof (Nat.div_le_upper_bound (hi - lo) 2). lia. }
  destruct (lookup_lt_is_Some_2 t mid) as [[n k] Hk]; [lia|]. rewrite Hk.
  destruct (bytes_cmp w n) eqn:Ec.
  - apply bytes_cmp_eq in Ec as <-. split; [intros [=<-]; by eapply list_elem_of_lookup_2|].
    intros [i Hi]%list_elem_of_lookup_1.
    destruct (Nat.lt_trichotomy i mid) as [Hl|[->|Hl]]; [|congruence|]; exfalso;
      [pose proof (sorted_lookup_lt _ _ _ _ _ _ Hs Hi Hk Hl) as Hlt
      |pose proof (sorted_lookup_lt _ _ _ _ _ _ Hs Hk Hi Hl) as Hlt];
      simpl in Hlt; by rewrite bytes_ltb_irrefl in Hlt.
  - apply IH; [lia|lia|]. intros i k' Hi. pose proof (Hin _ _ Hi).
    destruct (Nat.le_gt_cases mid i) as [Hl|]; [|lia]. exfalso.
    destruct (decide (i = mid)) as [->|]; [simplify_eq; by rewrite bytes_cmp_refl in Ec|].
    assert (mid < i)%nat as Hl' by lia. pose proof (sorted_lookup_lt _ _ _ _ _ _ Hs Hk Hi Hl') as Hlt.
    simpl in Hlt. apply bytes_lt_cmp in Hlt. rewrite bytes_cmp_antisym, Ec in Hlt. done.
  - apply IH; [lia|lia|]. intros i k' Hi. pose proof (Hin _ _ Hi).
    destruct (Nat.le_gt_cases i mid) as [Hl|]; [|lia]. exfalso.
    destruct (decide (i = mid)) as [->|]; [simplify_eq; by rewrite bytes_cmp_refl in Ec|].
    assert (i < mid)%nat as Hl' by lia. pose proof (sorted_lookup_lt _ _ _ _ _ _ Hs Hi Hk Hl') as Hlt.
    simpl in Hlt. apply bytes_lt_cmp in Hlt. rewrite Ec in Hlt. done.
Qed.

Lemma lookup_in_table_elem w t kw :
  table_sorted t -> lookup_in_table (bytes_cmp w) t = Some kw <-> (w, kw) ∈ t.
Proof.
  intros Hs. unfold lookup_in_table. destruct (_ <=? _)%nat; [by apply table_find_elem|].
  apply table_search_elem; [done|lia|lia|]. intros i k Hi. apply lookup_lt_Some in Hi. lia.
Qed.

Lemma table_search_ext f g t fuel lo hi :
  (forall e, e ∈ t -> f e.1 = g e.1) -> table_search fuel f t lo hi = table_search fuel g t lo hi.
Proof.
  intros Hfg. revert lo hi. induction fuel as [|fuel IH]; intros lo hi; [done|]. cbn [table_search].
  destruct (_ <? _)%nat; [|done]. destruct (t !! _) as [[n k]|] eqn:E; [|done].
  apply list_elem_of_lookup_2, Hfg in E. simpl in E. by rewrite E, !IH.
Qed.

Lemma lookup_in_table_ext f g t :
  (forall e, e ∈ t -> f e.1 = g e.1) -> lookup_in_table f t = lookup_in_table g t.
Proof.
  intros Hfg. unfold lookup_in_table. destruct (_ <=? _)%nat.
  - induction t as [|[n k] t IH]; [done|]. cbn [table_find].
    assert (f n = g n) as -> by (apply (Hfg (n, k)); left).
    rewrite IH; [done|]. intros e He. apply Hfg. by right.
  - by apply table_search_ext.
Qed.

(** The buckets are the table split by length; both are sorted and in upper case. *)
Lemma buckets_sorted n : table_sorted (table_for_len n).
Proof.
  unfold table_sorted, table_for_len.
  repeat case_match; first [apply SSorted_nil | apply (bool_decide_eq_true_1 _); vm_compute; reflexivity].
Qed.

Lemma table_upper : Forall (fun e : bytes * Keyword => to_upper e.1 = e.1) KEYWORD_TABLE.
Proof. apply (bool_decide_eq_true_1 _). vm_compute. reflexivity. Qed.

Lemma table_bucket e : e ∈ KEYWORD_TABLE -> e ∈ table_for_len (len e.1).
Proof.
  revert e. apply Forall_forall. apply (bool_decide_eq_true_1 _). vm_compute. reflexivity.
Qed.

Lemma bucket_table n e : e ∈ table_for_len n -> e ∈ KEYWORD_TABLE.
Proof.
  unfold table_for_len. repeat case_match; try (by intros ?%elem_of_nil); revert e; apply Forall_forall;
    apply (bool_decide_eq_true_1 _); vm_compute; reflexivity.
Qed.

Lemma length_to_upper w : len (to_upper w) = len w.
Proof. unfold len, to_upper. by rewrite length_map. Qed.

(** ** Theorems *)

(** The optimised lookup (length buckets, a linear or binary search, a fast path
    for upper-case words) is case-insensitive membership in the documented
    keyword table: it returns a keyword exactly if the table pairs it with the
    word in upper case. *)
Theorem keyword_lookup_spec word kw :
  keyword_lookup word = Some kw <-> (to_upper word, kw) ∈ KEYWORD_TABLE.
Proof.
  transitivity ((to_upper word, kw) ∈ table_for_len (len word)).
  - unfold keyword_lookup, lookup_in_table_upper, lookup_in_table_ignore_case.
    pose proof (buckets_sorted (len word)) as Hs.
    destruct (table_for_len (len word)) as [|e t] eqn:Et; [split; [done|by intros ?%elem_of_nil]|].
    destruct (is_upper_keyword_body word) eqn:Eu.
    + rewrite (upper_body_id _ Eu). by apply lookup_in_table_elem.
    + rewrite <- lookup_in_table_elem by done.
      rewrite (lookup_in_table_ext _ (bytes_cmp (to_upper word))); [done|].
      intros e' He. rewrite <- Et in He. apply bucket_table in He. rewrite cmp_ignore_case_upper.
      by rewrite (proj1 (Forall_forall _ _) table_upper _ He).
  - split; [apply bucket_table|]. intros H. rewrite <- length_to_upper. by apply (table_bucket (_, _)).
Qed.
