(* ===== verification/Lexer.v ===== *)
(** * The lexer (crates/noedb-lexer/src: cursor.rs, lexer.rs, fast/mod.rs)

    The cursor is a byte position into the source, threaded by the state monad,
    so that the position after an error is there too.  Byte loops walk the rest
    of the source; loops over chars and tokens have fuel, and running out of it
    would be a panic, so that the totality theorem also shows that the fuel is
    enough. *)

From S2P Require Import Prelude BTree Text Float64 Tokens.

Section cursor.
Context `{Unicode} (src : bytes).

Local Abbreviation LX := (SM nat LexError).

(** ** Looking ahead and advancing *)

Definition peek_byte_at (offset : nat) : LX (option byte) := fun pos => (Ok (src !! (pos + offset)%nat), pos).
Definition peek_byte : LX (option byte) := fun pos => (Ok (src !! pos), pos).
Definition bump : LX (option byte) := fun pos =>
  match src !! pos with
  | None => (Ok None, pos)
  | Some b => (Ok (Some b), S pos)
  end.
Definition is_eof (pos : nat) : bool := (length src <=? pos)%nat.

(** As built for release: the debug assertions that the offsets fit in 32 bits and are in
    order are not run. *)
Definition mk_span (start end_ : nat) : Span :=
  mkSpan (wrap 32 (Z.of_nat start)) (wrap 32 (Z.of_nat end_)).
Definition lex_err {A} (k : LexErrorKind) (start : nat) : LX A := fun pos =>
  (Err (mkLexError k (mk_span start pos)), pos).

(** [&self.src[self.pos..]] *)
Definition rest_str : LX bytes := fun pos =>
  (match str_from src pos with Some s => Ok s | None => Panic end, pos).

Definition peek_char : LX (option Z) := smap next_char rest_str.
Definition bump_char : LX (option Z) :=
  let* c := peek_char in
  match c with
  | None => sret None
  | Some c => let* _ := smodify (fun pos => pos + len_utf8 c)%nat in sret (Some c)
  end.

(** [&self.src[start..self.pos]] *)
Definition text_from (start : nat) : LX bytes := fun pos =>
  (match str_get src start pos with Some s => Ok s | None => Panic end, pos).

(** [while self.peek_byte().is_some_and(f) { self.bump(); }] *)
Fixpoint skip_bytes (f : byte -> bool) (rest : bytes) (pos : nat) : nat :=
  match rest with
  | b :: r => if f b then skip_bytes f r (S pos) else pos
  | [] => pos
  end.
Definition bump_while (f : byte -> bool) : LX unit := smodify (fun pos => skip_bytes f (drop pos src) pos).

Definition next_is (f : byte -> bool) (b : option byte) : bool :=
  match b with Some b => f b | None => false end.
Definition byte_is (c b : byte) : bool := bool_decide (b = c).

(** ** Whitespace and comments *)

Definition skip_whitespace (pos : nat) : nat := skip_bytes is_whitespace (drop pos src) pos.

(** The position after the closing [*/]. *)
Fixpoint comment_end (rest : bytes) (pos : nat) : option nat :=
  match rest with
  | [] => None
  | b :: r =>
      if byte_is x2a b && next_is (byte_is x2f) (head r) then Some (pos + 2)%nat
      else comment_end r (S pos)
  end.

Definition skip_block_comment : LX unit := fun pos =>
  match comment_end (drop (pos + 2) src) (pos + 2) with
  | Some pos' => (Ok tt, pos')
  | None => lex_err UnterminatedBlockComment pos (length src)
  end.

Fixpoint skip_trivia_loop (fuel : nat) : LX unit :=
  match fuel with
  | O => spanic
  | S fuel' =>
      let* _ := smodify skip_whitespace in
      let* b0 := peek_byte in
      let* b1 := peek_byte_at 1 in
      if next_is (byte_is x2d) b0 && next_is (byte_is x2d) b1 then
        let* _ := smodify (fun pos => pos + 2)%nat in
        let* _ := bump_while (fun b => negb (byte_is x0a b)) in
        skip_trivia_loop fuel'
      else if next_is (byte_is x2f) b0 && next_is (byte_is x2a) b1 then
        let* _ := skip_block_comment in
        skip_trivia_loop fuel'
      else sret tt
  end.
Definition skip_trivia : LX unit := skip_trivia_loop (S (length src)).

(** ** Identifiers and keywords *)

Definition ident_start_char (c : Z) : bool := (c =? 95) || is_alphabetic c.
Definition ident_continue_char (c : Z) : bool := (c =? 95) || is_alphanumeric c.
Definition next_char_is (f : Z -> bool) (c : option Z) : bool :=
  match c with Some c => f c | None => false end.

Definition is_unicode_ident_start : LX bool := smap (next_char_is ident_start_char) peek_char.
Definition is_unicode_ident_continue : LX bool := smap (next_char_is ident_continue_char) peek_char.

Fixpoint ident_loop (fuel : nat) : LX unit :=
  match fuel with
  | O => spanic
  | S fuel' =>
      let* more := is_unicode_ident_continue in
      if more then let* _ := bump_char in ident_loop fuel' else sret tt
  end.

Definition lex_identifier_or_keyword : LX SpannedToken :=
  let* start := sget in
  let* _ := bump_char in
  let* _ := ident_loop (S (length src)) in
  let* word := text_from start in
  let* end_ := sget in
  let k := match keyword_lookup word with Some kw => TKeyword kw | None => TIdent end in
  sret (mkSpannedToken k (mk_span start end_)).

(** ** Numbers and parameters *)

(** [checked_mul] and [checked_add] on [i64], for a non-negative accumulator *)
Definition i64_push (n : Z) (b : byte) : option Z :=
  if i64_max <? n * 10 then None
  else if i64_max <? n * 10 + digit_val b then None
  else Some (n * 10 + digit_val b).

Fixpoint parse_ascii_int_loop (n : Z) (l : bytes) : option Z :=
  match l with
  | [] => Some n
  | b :: r =>
      if negb (is_ascii_digit b) then None
      else match i64_push n b with Some n' => parse_ascii_int_loop n' r | None => None end
  end.
Definition parse_ascii_int (l : bytes) : option Z := parse_ascii_int_loop 0 l.

Definition is_e (b : byte) : bool := byte_is x65 b || byte_is x45 b.
Definition is_sign (b : byte) : bool := byte_is x2b b || byte_is x2d b.

(** the optional [.digits] after the integer part *)
Definition lex_fraction (is_float : bool) : LX bool :=
  let* b0 := peek_byte in
  let* b1 := peek_byte_at 1 in
  if next_is (byte_is x2e) b0 && negb is_float && next_is is_ascii_digit b1 then
    let* _ := bump in
    let* _ := bump_while is_ascii_digit in
    sret true
  else sret is_float.

(** the optional exponent *)
Definition lex_exponent (start : nat) (is_float : bool) : LX bool :=
  let* b0 := peek_byte in
  if next_is is_e b0 then
    let* _ := bump in
    let* s := peek_byte in
    let* _ := if next_is is_sign s then bump else sret None in
    let* d := peek_byte in
    if negb (next_is is_ascii_digit d) then
      let* lit := text_from start in
      lex_err (InvalidFloat lit) start
    else
      let* _ := bump_while is_ascii_digit in
      sret true
  else sret is_float.

Definition lex_number : LX SpannedToken :=
  let* start := sget in
  let* b0 := peek_byte in
  let* is_float :=
    if next_is (byte_is x2e) b0 then
      let* _ := bump in
      let* d := peek_byte in
      if negb (next_is is_ascii_digit d) then lex_err (UnexpectedChar 46) start else sret true
    else sret false in
  let* _ := bump_while is_ascii_digit in
  let* is_float := lex_fraction is_float in
  let* is_float := lex_exponent start is_float in
  let* lit := text_from start in
  let* end_ := sget in
  if is_float then
    match parse_f64 lit with
    | Some f => sret (mkSpannedToken (TFloat f) (mk_span start end_))
    | None => lex_err (InvalidFloat lit) start
    end
  else
    match parse_ascii_int lit with
    | Some n => sret (mkSpannedToken (TInteger n) (mk_span start end_))
    | None => lex_err (IntegerOutOfRange lit) start
    end.

Definition lex_number_fast (first : byte) : LX SpannedToken :=
  let* start := sget in
  let* n := peek_byte_at 1 in
  if negb (next_is (fun n => is_ascii_digit n || byte_is x2e n || is_e n) n) then
    let* _ := bump in
    let* end_ := sget in
    sret (mkSpannedToken (TInteger (digit_val first)) (mk_span start end_))
  else lex_number.

(** [n.saturating_mul(10).saturating_add(d)] on [u32], until it passes [u16::MAX] *)
Fixpoint lex_parameter_loop (start : nat) (rest : bytes) (n digits : Z) : LX (Z * Z) :=
  match rest with
  | b :: r =>
      if is_ascii_digit b then
        let* _ := bump in
        let n' := sat 32 (sat 32 (n * 10) + digit_val b) in
        if umax 16 <? n' then lex_err (UnexpectedChar 36) start
        else lex_parameter_loop start r n' (digits + 1)
      else sret (n, digits)
  | [] => sret (n, digits)
  end.

Definition lex_parameter : LX Token :=
  let* start := sget in
  let* nd := lex_parameter_loop start (drop start src) 0 0 in
  if nd.2 =? 0 then lex_err (UnexpectedChar 36) start
  else sret (TParameter (if nd.1 <=? umax 16 then nd.1 else umax 16)).

(** ** Strings and delimited identifiers *)

(** Up to the closing quote; a doubled quote stands for one. *)
Fixpoint lex_quoted_loop (quote : byte) (unterminated : LexErrorKind) (fuel : nat) (start : nat)
    (value : bytes) : LX bytes :=
  match fuel with
  | O => spanic
  | S fuel' => fun pos =>
      if is_eof pos then lex_err unterminated start pos
      else
        (let* b := peek_byte in
         if next_is (byte_is quote) b then
           let* _ := bump in
           let* b' := peek_byte in
           if next_is (byte_is quote) b' then
             let* _ := bump in
             lex_quoted_loop quote unterminated fuel' start (value ++ [quote])
           else sret value
         else
           let* c := bump_char in
           match c with
           | None => lex_err unterminated start
           | Some c => lex_quoted_loop quote unterminated fuel' start (value ++ utf8_char c)
           end) pos
  end.

Definition lex_quoted (quote : byte) (unterminated : LexErrorKind) (mk : bytes -> Token) : LX SpannedToken :=
  let* start := sget in
  let* _ := bump in
  let* value := lex_quoted_loop quote unterminated (S (length src)) start [] in
  let* end_ := sget in
  sret (mkSpannedToken (mk value) (mk_span start end_)).

Definition lex_string : LX SpannedToken := lex_quoted x27 UnterminatedString TString.
Definition lex_quoted_ident : LX SpannedToken := lex_quoted x22 UnterminatedQuotedIdent TQuotedIdent.

(** ** Operators and punctuation *)

Definition is_operator_or_punct_start (b : byte) : bool :=
  bool_decide (b ∈ bs "(),;*.=!<>+-/%$").

(** [b'<' if ...] and the arms after it *)
Definition lex_less : LX Token :=
  let* b0 := peek_byte in
  let* b1 := peek_byte_at 1 in
  if next_is (byte_is x2d) b0 && next_is (byte_is x3e) b1 then
    let* _ := bump in let* _ := bump in sret (TOp OpDistance)
  else if next_is (byte_is x3d) b0 then let* _ := bump in sret (TOp OpLe)
  else if next_is (byte_is x3e) b0 then let* _ := bump in sret (TOp OpNe)
  else sret (TOp OpLt).

Definition lex_operator_or_punct : LX SpannedToken :=
  let* start := sget in
  let* ob := bump in
  match ob with
  | None => fun pos => (Err (mkLexError (UnexpectedChar 0) (mk_span start start)), pos)
  | Some b =>
      let* k :=
        match b with
        | x28 => sret (TPunct LParen)
        | x29 => sret (TPunct RParen)
        | x2c => sret (TPunct Comma)
        | x3b => sret (TPunct Semicolon)
        | x2a => sret (TPunct Star)
        | x2e => sret (TPunct Dot)
        | x3d => sret (TOp OpEq)
        | x2b => sret (TOp OpPlus)
        | x2d => sret (TOp OpMinus)
        | x2f => sret (TOp OpDiv)
        | x25 => sret (TOp OpMod)
        | x21 =>
            let* n := peek_byte in
            if next_is (byte_is x3d) n then let* _ := bump in sret (TOp OpNe)
            else lex_err (UnexpectedChar 33) start
        | x3c => lex_less
        | x3e =>
            let* n := peek_byte in
            if next_is (byte_is x3d) n then let* _ := bump in sret (TOp OpGe)
            else sret (TOp OpGt)
        | x24 => lex_parameter
        | _ => lex_err (UnexpectedChar (b2z b)) start
        end in
      let* end_ := sget in
      sret (mkSpannedToken k (mk_span start end_))
  end.

(** ** The token stream *)

Definition next_token : LX (option SpannedToken) :=
  let* _ := skip_trivia in
  let* pos := sget in
  if is_eof pos then sret None
  else
    let* ob := peek_byte in
    match ob with
    | None => sret None
    | Some b =>
        let* u := is_unicode_ident_start in
        if u then smap Some lex_identifier_or_keyword
        else if is_ident_start b then smap Some lex_identifier_or_keyword
        else if is_ascii_digit b then smap Some (lex_number_fast b)
        else if byte_is x27 b then smap Some lex_string
        else if byte_is x22 b then smap Some lex_quoted_ident
        else
          let* b1 := peek_byte_at 1 in
          if byte_is x2e b && next_is is_ascii_digit b1 then smap Some lex_number
          else if is_operator_or_punct_start b then smap Some lex_operator_or_punct
          else
            let* start := sget in
            let* _ := bump in
            lex_err (UnexpectedChar (b2z b)) start
    end.

(** [Lexer::next]: one step of the iterator, with the cursor after it *)
Definition Lexer_next : nat -> outcome LexError (option SpannedToken) * nat := next_token.

Fixpoint tokenize_loop (fuel : nat) (buf : list SpannedToken) : LX (list SpannedToken) :=
  match fuel with
  | O => spanic
  | S fuel' =>
      let* t := next_token in
      match t with
      | Some tok => tokenize_loop fuel' (buf ++ [tok])
      | None => sret buf
      end
  end.

Definition tokenize_into : outcome LexError (list SpannedToken) :=
  let? buf := fst (tokenize_loop (S (length src)) [] 0%nat) in
  Ok (buf ++ [mkSpannedToken TEof (Span_empty_at (len src))]).
End cursor.

(** [Lexer::tokenize] *)
Definition tokenize `{Unicode} (src : bytes) : outcome LexError (list SpannedToken) := tokenize_into src.

(** The tables of a program whose text outside ASCII is all symbols. *)
Definition ascii_unicode : Unicode :=
  {| unicode_alphabetic := fun _ => false; unicode_numeric := fun _ => false |}.

Definition kinds (o : outcome LexError (list SpannedToken)) : outcome LexError (list Token) :=
  let? l := o in Ok (map tok_kind l).

Example tokenize_samples :
  let _ := ascii_unicode in
  (kinds (tokenize (bs "SELECT a.b, 'it''s' <-> 1.5e2 -- x")),
   kinds (tokenize (bs "$12 /* c */ <>99999999999999999999"))) =
  (Ok [TKeyword KwSelect; TIdent; TPunct Dot; TIdent; TPunct Comma; TString (bs "it's"); TOp OpDistance;
       TFloat (f64_of_Z 150); TEof],
   Err (mkLexError (IntegerOutOfRange (bs "99999999999999999999")) (mkSpan 14 34))).
Proof. vm_compute. reflexivity. Qed.
