(* ===== verification/LexerSpec.v ===== *)
(** * Correctness of the lexer

    Totality on every UTF-8 source, and the tokens of printed text. *)

From S2P Require Import Prelude BTree Text Float64 Tokens Lexer.

(** ** Totality

    The cursor stands at the start of a char after every step that succeeds, so
    that no slice of the source panics. *)

Section total.
Context `{Unicode} (cs : list Z) (Hcs : Forall is_char cs).
Local Abbreviation src := (utf8 cs).
Local Abbreviation run_to := (run_with (fun _ => True)).

(** [pos] is the start of the chars [r]. *)
Definition at_chars (pos : nat) (r : list Z) : Prop :=
  drop pos src = utf8 r /\ Forall is_char r /\ (pos <= length src)%nat.
Definition at_char (pos : nat) : Prop := exists r, at_chars pos r.

Lemma at_start : at_char 0.
Proof. exists cs. split; [done|]. split; [done|lia]. Qed.

Lemma at_split pos r : at_chars pos r -> src = take pos src ++ utf8 r /\ pos = length (take pos src).
Proof.
  intros (Hd & _ & Hle). rewrite <- Hd, take_drop. split; [done|]. rewrite length_take. lia.
Qed.

Lemma at_str_from pos r : at_chars pos r -> str_from src pos = Some (utf8 r).
Proof.
  intros Ha. destruct (at_split _ _ Ha) as [E Hp]. rewrite E at 1. rewrite Hp at 2.
  apply str_from_utf8. apply Ha.
Qed.

Lemma at_boundary pos : at_char pos -> is_char_boundary src pos = true.
Proof.
  intros [r Ha]. destruct (at_split _ _ Ha) as [E Hp]. rewrite E at 1. rewrite Hp at 2.
  apply utf8_boundary. apply Ha.
Qed.

Lemma at_bump_char pos c r : at_chars pos (c :: r) -> at_chars (pos + len_utf8 c) r.
Proof.
  intros (Hd & Hr & Hle). apply Forall_cons in Hr as [Hc Hr]. rewrite utf8_cons in Hd.
  split; [|split; [done|]].
  - rewrite <- drop_drop, Hd, <- length_utf8_char. by rewrite drop_app_length.
  - assert (length (drop pos src) = length (utf8_char c ++ utf8 r)) as Hl by (by rewrite Hd).
    rewrite length_drop, length_app, length_utf8_char in Hl. lia.
Qed.

Lemma at_byte pos b :
  (pos <= length src)%nat -> src !! pos = Some b -> b2z b < 0x80 -> at_char pos /\ at_char (S pos).
Proof.
  intros Hle Hb Ha. destruct (utf8_ascii_split cs pos b Hcs Hb Ha) as (k & Hd & Hk).
  assert (Forall is_char (b2z b :: drop (S k) cs)) as Hf.
  { constructor; [|by apply Forall_drop]. eapply (proj1 (Forall_forall _ _)); [done|].
    by eapply list_elem_of_lookup_2. }
  assert (at_chars pos (b2z b :: drop (S k) cs)) as Hat by done.
  split; [by eexists|]. apply at_bump_char in Hat. eexists.
  replace (S pos) with (pos + len_utf8 (b2z b))%nat; [done|].
  unfold len_utf8. rewrite (proj2 (Z.ltb_lt _ _)) by lia. lia.
Qed.

Lemma at_end : at_char (length src).
Proof. exists []. split; [by rewrite drop_all|]. split; [done|lia]. Qed.

Lemma at_len pos : at_char pos -> (pos <= length src)%nat.
Proof. by intros (r & _ & _ & ?). Qed.

(** The byte under the cursor, when it is ASCII, is the char there. *)
Lemma at_byte_next pos b : at_char pos -> src !! pos = Some b -> b2z b < 0x80 -> at_char (S pos).
Proof. intros ?%at_len ? ?. by apply (at_byte pos b). Qed.

(** Loops that stop at an ASCII byte or at the end, and loops over ASCII bytes. *)
Lemma skip_bytes_spec f rest pos :
  drop pos src = rest -> (pos <= length src)%nat ->
  (pos <= skip_bytes f rest pos <= length src)%nat /\
  (forall i b, (pos <= i < skip_bytes f rest pos)%nat -> src !! i = Some b -> f b = true) /\
  match src !! skip_bytes f rest pos with Some b => f b = false | None => True end.
Proof.
  revert pos. induction rest as [|b rest IH]; intros pos Hd Hle; simpl.
  - split; [lia|]. split; [lia|]. replace (src !! pos) with (@None byte); [done|].
    symmetry. rewrite <- (Nat.add_0_r pos), <- lookup_drop, Hd. done.
  - assert (src !! pos = Some b) as Hb by (by rewrite <- (Nat.add_0_r pos), <- lookup_drop, Hd).
    destruct (f b) eqn:Ef.
    + assert (pos < length src)%nat by (by eapply lookup_lt_Some). destruct (IH (S pos)) as (H1 & H2 & H3).
      { replace (S pos) with (pos + 1)%nat by lia. by rewrite <- drop_drop, Hd. } { lia. }
      split; [lia|]. split; [|done]. intros i b' Hi Hib.
      destruct (decide (i = pos)) as [->|]; [congruence|]. apply (H2 i); [lia|done].
    + split; [lia|]. split; [lia|]. by rewrite Hb.
Qed.

Lemma skip_ascii f pos :
  (forall b, f b = true -> b2z b < 0x80) -> at_char pos -> at_char (skip_bytes f (drop pos src) pos).
Proof.
  intros Hf Hat. destruct (skip_bytes_spec f _ pos eq_refl (at_len _ Hat)) as (Hr & Hall & _).
  destruct (decide (skip_bytes f (drop pos src) pos = pos)) as [->|Hne]; [done|].
  set (q := skip_bytes f (drop pos src) pos) in *. destruct (lookup_lt_is_Some_2 src (q - 1)) as [b Hb]; [lia|].
  replace q with (S (q - 1)) by lia. apply (at_byte (q - 1) b); [lia|done|].
  apply Hf. apply (Hall (q - 1)%nat); [lia|done].
Qed.

Lemma skip_until f pos :
  (forall b, f b = false -> b2z b < 0x80) -> (pos <= length src)%nat ->
  at_char (skip_bytes f (drop pos src) pos).
Proof.
  intros Hf Hle. destruct (skip_bytes_spec f _ pos eq_refl Hle) as (Hr & _ & Hstop).
  destruct (src !! skip_bytes f (drop pos src) pos) as [b|] eqn:E.
  - eapply at_byte; [lia|done|]. by apply Hf.
  - apply lookup_ge_None in E. replace (skip_bytes f (drop pos src) pos) with (length src) by lia. apply at_end.
Qed.

Lemma comment_end_spec rest pos q :
  drop pos src = rest -> (pos <= length src)%nat -> comment_end rest pos = Some q ->
  (pos + 2 <= q)%nat /\ at_char q.
Proof.
  revert pos. induction rest as [|b rest IH]; intros pos Hd Hle; [done|]. cbn [comment_end].
  assert (drop (S pos) src = rest) as Hd'.
  { replace (S pos) with (pos + 1)%nat by lia. by rewrite <- drop_drop, Hd. }
  assert (pos < length src)%nat as Hlt.
  { apply (f_equal length) in Hd. rewrite length_drop in Hd. simpl in Hd. lia. }
  destruct (_ && _) eqn:E.
  - apply andb_true_iff in E as [_ E]. intros [=<-]. split; [lia|].
    destruct rest as [|b' rest]; [done|]. simpl in E. unfold byte_is in E. apply bool_decide_eq_true in E as ->.
    replace (pos + 2)%nat with (S (S pos)) by lia. apply (at_byte (S pos) x2f); [lia| |done].
    by rewrite <- (Nat.add_0_r (S pos)), <- lookup_drop, Hd'.
  - intros Hq. apply IH in Hq as [? ?]; [split; [lia|done]|done|lia].
Qed.

Lemma digit_ascii b : is_ascii_digit b = true -> b2z b < 0x80.
Proof. unfold is_ascii_digit, in_byte. intros E. bool_to_prop. lia. Qed.
Lemma white_ascii b : is_whitespace b = true -> b2z b < 0x80.
Proof.
  revert b. apply (forall_byte (fun b => is_whitespace b = true -> b2z b < 0x80)).
  vm_compute. reflexivity.
Qed.
Lemma byte_is_ascii c b : b2z c < 0x80 -> byte_is c b = true -> b2z b < 0x80.
Proof. unfold byte_is. by intros ? ->%bool_decide_eq_true. Qed.

(** ** The steps of the cursor *)

Lemma run_peek (Q : option byte -> nat -> Prop) pos : Q (src !! pos) pos -> run_to (peek_byte src) pos Q.
Proof. done. Qed.
Lemma run_peek_at n (Q : option byte -> nat -> Prop) pos :
  Q (src !! (pos + n)%nat) pos -> run_to (peek_byte_at src n) pos Q.
Proof. done. Qed.
Lemma run_err {A} k start pos (Q : A -> nat -> Prop) : run_to (lex_err k start) pos Q.
Proof. done. Qed.

(** A step that keeps the cursor at a char and does not move it back. *)
Definition steps (pos pos' : nat) : Prop := at_char pos' /\ (pos <= pos')%nat.

Lemma steps_refl pos : at_char pos -> steps pos pos.
Proof. by split. Qed.
Lemma steps_trans p q r : steps p q -> steps q r -> steps p r.
Proof. intros [_ ?] [? ?]. split; [done|lia]. Qed.

Lemma run_bump_while f pos :
  (forall b, f b = true -> b2z b < 0x80) -> at_char pos ->
  run_to (bump_while src f) pos (fun _ pos' => steps pos pos').
Proof.
  intros Hf Hat. apply run_modify. split; [by apply skip_ascii|].
  apply (skip_bytes_spec f _ pos eq_refl (at_len _ Hat)).
Qed.

(** [bump] over a byte that is known to be ASCII *)
Lemma run_bump pos b :
  at_char pos -> src !! pos = Some b -> b2z b < 0x80 ->
  run_to (bump src) pos (fun b' pos' => b' = Some b /\ pos' = S pos /\ at_char (S pos)).
Proof. intros. unfold run_with, bump. rewrite H1. eauto using at_byte_next. Qed.

Lemma run_peek_char pos (Q : option Z -> nat -> Prop) r :
  at_chars pos r -> Q (head r) pos -> run_to (peek_char src) pos Q.
Proof.
  intros Ha HQ. apply run_map. unfold run_with, rest_str. rewrite (at_str_from _ _ Ha).
  replace (next_char (utf8 r)) with (head r); [done|].
  destruct Ha as (_ & Hr & _). destruct Hr as [|c r Hc Hr]; [done|].
  rewrite <- (app_nil_r (utf8 _)). by rewrite next_char_cons.
Qed.

Lemma run_bump_char pos r :
  at_chars pos r ->
  run_to (bump_char src) pos (fun c pos' =>
    match r with
    | [] => c = None /\ pos' = pos
    | x :: r' => c = Some x /\ at_chars pos' r' /\ (pos < pos')%nat
    end).
Proof.
  intros Ha. apply run_bind. eapply run_peek_char; [done|]. destruct r as [|c r]; simpl; [done|].
  apply run_bind, run_modify, run_ret. split; [done|]. split; [by apply at_bump_char|].
  pose proof (len_utf8_pos c). lia.
Qed.

Lemma run_text_from start pos (Q : bytes -> nat -> Prop) :
  steps start pos -> at_char start -> (forall t, Q t pos) -> run_to (text_from src start) pos Q.
Proof.
  intros [Hp Hle] Hs HQ. unfold run_with, text_from, str_get.
  rewrite (proj2 (Nat.leb_le _ _)) by lia. rewrite !at_boundary by done. apply HQ.
Qed.

Ltac lx := repeat lazymatch goal with
  | |- run_with _ (sbind _ _) _ _ => apply run_bind
  | |- run_with _ (smap _ _) _ _ => apply run_map
  | |- run_with _ (sret _) _ _ => apply run_ret
  | |- run_with _ sget _ _ => apply run_get
  | |- run_with _ (smodify _) _ _ => apply run_modify
  | |- run_with _ (peek_byte _) _ _ => apply run_peek
  | |- run_with _ (peek_byte_at _ _) _ _ => apply run_peek_at
  | |- run_with _ (lex_err _ _) _ _ => apply run_err
  end.

(** ** Trivia *)

Lemma run_block_comment pos :
  (pos + 2 <= length src)%nat ->
  run_to (skip_block_comment src) pos (fun _ pos' => at_char pos' /\ (pos < pos')%nat).
Proof.
  intros Hle. unfold run_with, skip_block_comment.
  destruct (comment_end _ _) as [q|] eqn:E; [|done].
  apply comment_end_spec in E as [? ?]; [split; [done|lia]|done|lia].
Qed.

Lemma next_is_byte c b : next_is (byte_is c) b = true -> b = Some c.
Proof. destruct b; [|done]. simpl. unfold byte_is. by intros ->%bool_decide_eq_true. Qed.

Lemma run_trivia_loop fuel pos :
  at_char pos -> (length src - pos < fuel)%nat ->
  run_to (skip_trivia_loop src fuel) pos (fun _ pos' => steps pos pos').
Proof.
  revert pos. induction fuel as [|fuel IH]; intros pos Hat Hf; [lia|]. cbn [skip_trivia_loop].
  apply run_bind, run_modify. unfold skip_whitespace.
  pose proof (skip_ascii _ pos white_ascii Hat) as Hat'.
  destruct (skip_bytes_spec is_whitespace _ pos eq_refl (at_len _ Hat)) as (Hr & _ & _).
  set (q := skip_bytes is_whitespace (drop pos src) pos) in *. clearbody q. lx.
  destruct (_ && _) eqn:E; [|destruct (next_is (byte_is x2f) _ && _) eqn:E']; lx.
  - apply andb_true_iff in E as [_ E%next_is_byte]. apply lookup_lt_Some in E.
    unfold bump_while. lx.
    set (f := fun b => negb (byte_is x0a b)).
    assert (at_char (skip_bytes f (drop (q + 2) src) (q + 2))) as Hs.
    { apply skip_until; [|lia]. unfold f. intros b Hb. apply negb_false_iff in Hb.
      eapply byte_is_ascii, Hb. done. }
    assert ((q + 2) <= skip_bytes f (drop (q + 2) src) (q + 2) <= length src)%nat as Hq.
    { apply (skip_bytes_spec f); [done|lia]. }
    clear E. revert Hs Hq. generalize (skip_bytes f (drop (q + 2) src) (q + 2)) as r. intros r Hs Hq.
    eapply run_mono; [apply IH; [done|lia]|]. intros _ s' [? ?]. split; [done|lia].
  - apply andb_true_iff in E' as [_ E'%next_is_byte]. apply lookup_lt_Some in E'.
    eapply run_mono; [apply run_block_comment; lia|]. intros _ s' [Hs' Hlt].
    eapply run_mono; [apply IH; [done|lia]|]. intros _ s'' [? ?]. split; [done|lia].
  - split; [done|lia].
Qed.

Lemma run_skip_trivia pos :
  at_char pos -> run_to (skip_trivia src) pos (fun _ pos' => steps pos pos').
Proof. intros. apply run_trivia_loop; [done|lia]. Qed.

(** ** Each kind of token *)

(** The code returns a value with the cursor moved on, or an error. *)
Local Abbreviation advances m pos := (run_to m pos (fun _ pos' => at_char pos' /\ (pos < pos')%nat)).

Lemma run_ident_loop fuel pos :
  at_char pos -> (length src - pos < fuel)%nat ->
  run_to (ident_loop src fuel) pos (fun _ pos' => steps pos pos').
Proof.
  revert pos. induction fuel as [|fuel IH]; intros pos Hat Hf; [lia|]. cbn [ident_loop].
  unfold is_unicode_ident_continue. lx. destruct Hat as [r Ha].
  eapply run_peek_char; [done|]. destruct (next_char_is _ _) eqn:En; lx; [|by apply steps_refl; eexists].
  eapply run_mono; [by apply run_bump_char|]. destruct r as [|x r]; [done|]. intros c q (_ & Hq & Hlt).
  pose proof (at_len q ltac:(by eexists)). eapply run_mono; [apply IH; [by eexists|lia]|].
  intros _ s' [? ?]. split; [done|lia].
Qed.

Lemma run_ident pos r :
  at_chars pos r -> r <> [] -> advances (lex_identifier_or_keyword src) pos.
Proof.
  intros Ha Hr. unfold lex_identifier_or_keyword. lx. destruct r as [|x r]; [done|].
  assert (at_char pos) as Hat by (by eexists).
  eapply run_mono; [by apply run_bump_char|]. intros c q (_ & Hq & Hlt). lx.
  eapply run_mono; [apply run_ident_loop; [by eexists|lia]|]. intros _ p [Hp Hle]. lx.
  apply run_text_from; [split; [done|lia]|done|]. intros w. lx. split; [done|lia].
Qed.

Lemma run_bump_digits pos : at_char pos -> run_to (bump_while src is_ascii_digit) pos (fun _ pos' => steps pos pos').
Proof. apply run_bump_while, digit_ascii. Qed.

(** One optional byte *)
Lemma run_opt_bump (f : byte -> bool) pos :
  (forall b, f b = true -> b2z b < 0x80) -> at_char pos -> next_is f (src !! pos) = true ->
  run_to (bump src) pos (fun _ pos' => at_char pos' /\ pos' = S pos).
Proof.
  intros Hf Hat Hn. destruct (src !! pos) as [b|] eqn:E; [|done].
  eapply run_mono; [by apply run_bump, Hf|]. intros ? ? (_ & -> & ?). done.
Qed.

Lemma e_ascii b : is_e b = true -> b2z b < 0x80.
Proof. unfold is_e. by intros [E|E]%orb_true_iff; apply byte_is_ascii in E. Qed.
Lemma sign_ascii b : is_sign b = true -> b2z b < 0x80.
Proof. unfold is_sign. by intros [E|E]%orb_true_iff; apply byte_is_ascii in E. Qed.

Lemma run_fraction is_float pos :
  at_char pos -> run_to (lex_fraction src is_float) pos (fun _ pos' => steps pos pos').
Proof.
  intros Hat. unfold lex_fraction. lx. destruct (_ && _) eqn:E; lx; [|by apply steps_refl].
  apply andb_true_iff in E as [E _]. apply andb_true_iff in E as [E _].
  eapply run_mono; [eapply run_opt_bump; [|done|exact E]; intros b; by apply byte_is_ascii|].
  intros _ q [Hq ->]. lx. eapply run_mono; [by apply run_bump_digits|]. intros _ p [? ?]. lx.
  split; [done|lia].
Qed.

Lemma run_exponent start is_float pos :
  at_char start -> steps start pos ->
  run_to (lex_exponent src start is_float) pos (fun _ pos' => steps pos pos').
Proof.
  intros Hs [Hat Hle]. unfold lex_exponent. lx. destruct (next_is is_e _) eqn:E; lx; [|by apply steps_refl].
  eapply run_mono; [by eapply run_opt_bump; [apply e_ascii|..]|]. intros _ q [Hq ->]. lx.
  eapply run_mono with (P := fun _ r => steps (S pos) r).
  { destruct (next_is is_sign _) eqn:Es; lx; [|by apply steps_refl].
    eapply run_mono; [by eapply run_opt_bump; [apply sign_ascii|..]|]. intros _ r [? ->]. split; [done|lia]. }
  intros _ r [Hr Hle']. lx. destruct (negb _); lx.
  - apply run_text_from; [split; [done|lia]|done|]. intros. apply run_err.
  - eapply run_mono; [by apply run_bump_digits|]. intros _ p [? ?]. lx. split; [done|lia].
Qed.

(** A number begins with a digit, or with a dot and a digit. *)
Lemma run_number pos :
  at_char pos -> next_is (fun b => is_ascii_digit b || byte_is x2e b) (src !! pos) = true ->
  advances (lex_number src) pos.
Proof.
  intros Hat Hf. unfold lex_number. lx.
  eapply run_mono with (P := fun _ q => steps pos q /\ (pos < q \/ q = pos /\ next_is is_ascii_digit (src !! q) = true)%nat).
  { destruct (next_is (byte_is x2e) _) eqn:E; lx.
    - eapply run_mono; [eapply run_opt_bump; [|done|exact E]; intros b; by apply byte_is_ascii|].
      intros _ q [Hq ->]. lx. destruct (negb _); lx. split; [split; [done|lia]|lia].
    - split; [by apply steps_refl|]. right. split; [done|]. destruct (src !! pos) as [b|]; [|done]. simpl in *.
      by rewrite E, orb_false_r in Hf. }
  intros fl q [[Hq Hle] Hprog]. lx.
  unfold bump_while. lx.
  pose proof (skip_ascii _ q digit_ascii Hq) as Hq'.
  destruct (skip_bytes_spec is_ascii_digit _ q eq_refl (at_len _ Hq)) as (Hr & _ & Hstop).
  set (q' := skip_bytes is_ascii_digit (drop q src) q) in *. clearbody q'.
  assert (pos < q')%nat as Hlt.
  { destruct Hprog as [?|[-> Hd]]; [lia|]. destruct (decide (q' = pos)) as [->|]; [|lia].
    destruct (src !! pos) as [b|]; [|done]. simpl in Hd. congruence. }
  clear Hprog Hstop. eapply run_mono; [by apply run_fraction|]. intros fl' p1 [Hp1 ?]. lx.
  eapply run_mono; [apply run_exponent; [done|split; [done|lia]]|]. intros fl'' p2 [Hp2 ?]. lx.
  apply run_text_from; [split; [done|lia]|done|]. intros lit. lx.
  destruct fl''; [destruct (parse_f64 lit)|destruct (parse_ascii_int lit)]; lx; split; try done; lia.
Qed.

Lemma run_number_fast pos b :
  at_char pos -> src !! pos = Some b -> is_ascii_digit b = true -> advances (lex_number_fast src b) pos.
Proof.
  intros Hat Hb Hd. unfold lex_number_fast. lx. destruct (negb _); lx.
  - eapply run_mono; [apply (run_bump _ b); [done|done|by apply digit_ascii]|].
    intros _ q (_ & -> & ?). lx. split; [done|lia].
  - apply run_number; [done|]. rewrite Hb. simpl. by rewrite Hd.
Qed.

Lemma run_parameter_loop start rest n d pos :
  drop pos src = rest -> at_char pos ->
  run_to (lex_parameter_loop src start rest n d) pos (fun _ pos' => steps pos pos').
Proof.
  revert n d pos. induction rest as [|b rest IH]; intros n d pos Hd Hat; cbn [lex_parameter_loop]; lx;
    [by apply steps_refl|].
  assert (src !! pos = Some b) as Hb by (by rewrite <- (Nat.add_0_r pos), <- lookup_drop, Hd).
  destruct (is_ascii_digit b) eqn:Ed; lx; [|by apply steps_refl].
  eapply run_mono; [apply (run_bump _ b); [done|done|by apply digit_ascii]|]. intros _ q (_ & -> & Hq). lx.
  destruct (_ <? _); lx. eapply run_mono; [apply IH; [|done]|].
  - replace (S pos) with (pos + 1)%nat by lia. by rewrite <- drop_drop, Hd.
  - intros _ q [? ?]. split; [done|lia].
Qed.

Lemma run_parameter pos : at_char pos -> run_to (lex_parameter src) pos (fun _ pos' => steps pos pos').
Proof.
  intros Hat. unfold lex_parameter. lx. eapply run_mono; [by apply run_parameter_loop|].
  intros nd q Hq. lx. destruct (_ =? _); lx. done.
Qed.

Lemma run_quoted_loop quote un fuel start value pos :
  b2z quote < 0x80 -> at_char pos -> (length src - pos < fuel)%nat ->
  run_to (lex_quoted_loop src quote un fuel start value) pos (fun _ pos' => at_char pos' /\ (pos < pos')%nat).
Proof.
  intros Hqa. revert value pos. induction fuel as [|fuel IH]; intros value pos Hat Hf; [lia|].
  cbn [lex_quoted_loop]. unfold run_with. destruct (is_eof src pos) eqn:Ee; [done|].
  match goal with |- match ?m pos with _ => _ end => change (advances m pos) end. lx.
  destruct (next_is (byte_is quote) _) eqn:En; lx.
  - eapply run_mono; [eapply run_opt_bump; [|done|exact En]; intros b; by apply byte_is_ascii|].
    intros _ q [Hq ->]. lx. destruct (next_is (byte_is quote) (_ !! S pos)) eqn:En'; lx; [|split; [done|lia]].
    eapply run_mono; [eapply run_opt_bump; [|done|exact En']; intros b; by apply byte_is_ascii|].
    intros _ q [Hq' ->]. pose proof (at_len _ Hq'). eapply run_mono; [apply IH; [done|lia]|].
    intros _ q [? ?]. split; [done|lia].
  - destruct Hat as [r Ha]. eapply run_mono; [by apply run_bump_char|]. destruct r as [|x r].
    + intros c q [-> _]. lx.
    + intros c q (-> & Hq & Hlt). pose proof (at_len q ltac:(by eexists)).
      eapply run_mono; [apply IH; [by eexists|lia]|]. intros _ q' [? ?]. split; [done|lia].
Qed.

Lemma run_quoted quote un mk pos :
  b2z quote < 0x80 -> at_char pos -> src !! pos = Some quote -> advances (lex_quoted src quote un mk) pos.
Proof.
  intros Hqa Hat Hb. unfold lex_quoted. lx. eapply run_mono; [by apply (run_bump _ quote)|].
  intros _ q (_ & -> & Hq). lx. eapply run_mono; [apply run_quoted_loop; [done|done|lia]|].
  intros v q [? ?]. lx. split; [done|lia].
Qed.

Lemma run_opt_byte {A} c (t1 t2 : A) pos :
  b2z c < 0x80 -> at_char pos ->
  run_to (let* n := peek_byte src in if next_is (byte_is c) n then let* _ := bump src in sret t1 else sret t2)
    pos (fun _ pos' => steps pos pos').
Proof.
  intros Hc Hat. lx. destruct (next_is _ _) eqn:E; lx; [|by apply steps_refl].
  eapply run_mono; [eapply run_opt_bump; [|done|exact E]; intros b; by apply byte_is_ascii|].
  intros _ q [? ->]. lx. split; [done|lia].
Qed.

Lemma run_less pos : at_char pos -> run_to (lex_less src) pos (fun _ pos' => steps pos pos').
Proof.
  intros Hat. unfold lex_less. lx. destruct (_ && _) eqn:E; lx.
  - apply andb_true_iff in E as [E0 E1]. rewrite Nat.add_1_r in E1.
    eapply run_mono; [eapply run_opt_bump; [|done|exact E0]; intros b; by apply byte_is_ascii|].
    intros _ q [Hq ->]. lx.
    eapply run_mono; [eapply run_opt_bump; [|done|exact E1]; intros b; by apply byte_is_ascii|].
    intros _ q [Hq' ->]. lx. split; [done|lia].
  - destruct (next_is (byte_is x3d) (src !! pos)) eqn:E1;
      [|destruct (next_is (byte_is x3e) (src !! pos)) eqn:E2]; lx;
      [| |by apply steps_refl];
      (eapply run_mono; [eapply run_opt_bump; [|done|eassumption]; intros b; by apply byte_is_ascii|];
       intros _ q [Hq ->]; lx; split; [done|lia]).
Qed.

Lemma punct_ascii b : is_operator_or_punct_start b = true -> b2z b < 0x80.
Proof.
  revert b. apply (forall_byte (fun b => is_operator_or_punct_start b = true -> b2z b < 0x80)).
  vm_compute. reflexivity.
Qed.

Lemma run_operator pos b :
  at_char pos -> src !! pos = Some b -> b2z b < 0x80 -> advances (lex_operator_or_punct src) pos.
Proof.
  intros Hat Hb Ha. unfold lex_operator_or_punct. lx. eapply run_mono; [by apply (run_bump _ b)|].
  intros _ q (-> & -> & Hq). lx. eapply run_mono with (P := fun _ q => steps (S pos) q).
  2: { intros t q [? ?]. lx. split; [done|lia]. }
  destruct b; lx; try (by apply steps_refl); try (by apply run_less); try (by apply run_parameter);
    try (by apply run_opt_byte).
  destruct (next_is _ _) eqn:E; lx.
  eapply run_mono; [eapply run_opt_bump; [|done|exact E]; intros b; by apply byte_is_ascii|].
  intros _ q [? ->]. lx. split; [done|lia].
Qed.

Lemma run_next_token pos :
  at_char pos -> run_to (next_token src) pos (fun t pos' => at_char pos' /\ (is_Some t -> (pos < pos')%nat)).
Proof.
  intros Hat. unfold next_token. lx. eapply run_mono; [by apply run_skip_trivia|]. intros _ q [Hq Hle]. lx.
  destruct (is_eof src q) eqn:Ee; lx; [split; [done|by intros []]|].
  destruct (src !! q) as [b|] eqn:Eb; lx; [|split; [done|by intros []]].
  unfold is_unicode_ident_start. lx. destruct Hq as [r Ha]. assert (at_char q) as Hq by (by eexists).
  assert (r <> []) as Hr.
  { intros ->. destruct Ha as (Hd & _). rewrite <- (Nat.add_0_r q), <- lookup_drop, Hd in Eb. done. }
  eapply run_peek_char; [done|].
  assert (forall m : SM nat LexError SpannedToken, advances m q ->
    run_to (smap Some m) q (fun t p => at_char p /\ (is_Some t -> (pos < p)%nat))) as Hgo.
  { intros m Hm. lx. eapply run_mono; [exact Hm|]. intros t p [? ?]. split; [done|lia]. }
  destruct (next_char_is _ _); [by eapply Hgo, run_ident|].
  destruct (is_ident_start b); [by eapply Hgo, run_ident|].
  destruct (is_ascii_digit b) eqn:Ed; [by apply Hgo, run_number_fast|].
  destruct (byte_is x27 b) eqn:E1; [apply bool_decide_eq_true in E1 as ->; by apply Hgo, run_quoted|].
  destruct (byte_is x22 b) eqn:E2; [apply bool_decide_eq_true in E2 as ->; by apply Hgo, run_quoted|].
  apply run_bind, run_peek_at. destruct (_ && _) eqn:E3.
  { apply Hgo, run_number; [done|]. rewrite Eb. apply andb_true_iff in E3 as [E3 _]. cbn [next_is]. by rewrite E3, orb_true_r. }
  destruct (is_operator_or_punct_start b) eqn:E4; [eapply Hgo, run_operator; [done..|by apply punct_ascii]|].
  lx. unfold run_with, bump. by rewrite Eb.
Qed.

Lemma run_tokenize_loop fuel buf pos :
  at_char pos -> (length src - pos < fuel)%nat -> run_to (tokenize_loop src fuel buf) pos (fun _ _ => True).
Proof.
  revert buf pos. induction fuel as [|fuel IH]; intros buf pos Hat Hf; [lia|]. cbn [tokenize_loop]. lx.
  eapply run_mono; [by apply run_next_token|]. intros [t|] q [Hq Hlt]; lx; [|done].
  pose proof (at_len _ Hq). specialize (Hlt ltac:(eauto)). apply IH; [done|lia].
Qed.
End total.

Lemma tokenize_no_panic `{Unicode} (cs : list Z) :
  Forall is_char cs -> tokenize (utf8 cs) <> Panic.
Proof.
  intros Hcs. unfold tokenize, tokenize_into.
  pose proof (run_tokenize_loop cs Hcs (S (length (utf8 cs))) [] 0 (at_start cs Hcs)) as Hrun.
  specialize (Hrun ltac:(lia)). unfold run_with in Hrun.
  destruct (tokenize_loop _ _ _ _) as [[l|e|] p]; [done..|contradiction].
Qed.

(** The lexer is total: on every string (the UTF-8 form of some chars) it
    returns tokens or an error.  No slice of the source falls inside a char, no
    index leaves it, and the loops stop: every token moves the cursor on. *)
Theorem tokenize_total `{Unicode} (cs : list Z) :
  Forall is_char cs -> tokenize (utf8 cs) <> Panic.
Proof. apply tokenize_no_panic. Qed.

Lemma tokenize_total_witness :
  let _ := ascii_unicode in
  tokenize (utf8 [0x53; 0x20ac; 0x31]) <> Panic /\
  tokenize (utf8 [0x53; 0x20ac; 0x31]) = Err (mkLexError (UnexpectedChar 0xe2) (mkSpan 1 2)).
Proof.
  split; [|vm_compute; reflexivity].
  apply (@tokenize_total ascii_unicode). repeat constructor; vm_compute; try discriminate; by intros [].
Defined.

(** The iterator is not: after the error for a symbol outside ASCII the cursor
    stands inside its encoding, and the next call of [Lexer::next] panics. *)
Theorem lexer_next_panics_after_error :
  let _ := ascii_unicode in
  let src := utf8 [0x20ac; 0x31] in
  Lexer_next src 0 = (Err (mkLexError (UnexpectedChar 0xe2) (mkSpan 0 1)), 1%nat) /\
  fst (Lexer_next src 1) = Panic.
Proof. vm_compute. split; reflexivity. Qed.
