(* ===== verification/Ast.v ===== *)
(** * Syntax trees (crates/noedb-ast/src: name.rs, expr.rs, window.rs, stmt.rs)

    The constructors and fields of the source, with their spans.  [Box] is left
    out; the types that refer to each other are one mutual definition. *)

From S2P Require Import Prelude Text Float64 Tokens.

(** ** Names and literals *)

Record Ident : Type := mkIdent { id_value : bytes; id_span : Span }.

Inductive ColumnRef : Type :=
| Named (table : option Ident) (column : Ident)
| ColStar (s : Span)
| QualifiedStar (table : Ident) (s : Span).

Record TableRef : Type := mkTableRef { tr_name : Ident; tr_alias : option Ident; tr_span : Span }.

Inductive Literal : Type :=
| LNull (s : Span)
| LInteger (n : Z) (s : Span)
| LFloat (f : f64) (s : Span)
| LString (v : bytes) (s : Span)
| LBoolean (b : bool) (s : Span).

Inductive BinaryOp : Type :=
| BEq | BNe | BLt | BGt | BLe | BGe | BAnd | BOr | BPlus | BMinus | BDiv | BMod | BMul | BLike | BDistance.
#[global] Instance BinaryOp_eq_dec : EqDecision BinaryOp.
Proof. solve_decision. Defined.

Inductive UnaryOp : Type := UMinus | UNot.
#[global] Instance UnaryOp_eq_dec : EqDecision UnaryOp.
Proof. solve_decision. Defined.

Inductive SqlType : Type :=
| TyInt | TyBoolean | TyFloat | TyVarchar (max_len : option Z) | TyText | TyDate | TyTimestamp
| TyVector (dim : Z) | TyNamed (name : bytes).
#[global] Instance SqlType_eq_dec : EqDecision SqlType.
Proof. solve_decision. Defined.

(** ** Windows *)

Inductive WindowFunc : Type := RowNumber | Rank | DenseRank | WSum | WAvg.
#[global] Instance WindowFunc_eq_dec : EqDecision WindowFunc.
Proof. solve_decision. Defined.

Definition WindowFunc_parse_name (name : bytes) : option WindowFunc :=
  let upper := to_upper name in
  if bool_decide (upper = bs "ROW_NUMBER") then Some RowNumber
  else if bool_decide (upper = bs "RANK") then Some Rank
  else if bool_decide (upper = bs "DENSE_RANK") then Some DenseRank
  else None.
Definition WindowFunc_parse_agg_name (name : bytes) : option WindowFunc :=
  let upper := to_upper name in
  if bool_decide (upper = bs "SUM") then Some WSum
  else if bool_decide (upper = bs "AVG") then Some WAvg
  else None.
Definition WindowFunc_is_ranking (f : WindowFunc) : bool :=
  match f with RowNumber | Rank | DenseRank => true | _ => false end.
Definition WindowFunc_is_aggregate (f : WindowFunc) : bool :=
  match f with WSum | WAvg => true | _ => false end.
Definition WindowFunc_sql_name (f : WindowFunc) : bytes :=
  bs match f with
     | RowNumber => "ROW_NUMBER" | Rank => "RANK" | DenseRank => "DENSE_RANK"
     | WSum => "SUM" | WAvg => "AVG"
     end.

Inductive FrameMode : Type := FrameRows | FrameRange.
Inductive FrameBound : Type :=
| UnboundedPreceding | Preceding (n : Z) | CurrentRow | Following (n : Z) | UnboundedFollowing.
Record WindowFrame : Type := mkWindowFrame { wf_mode : FrameMode; wf_start : FrameBound; wf_end : FrameBound }.

Inductive JoinKind : Type := JInner | JLeft.
Inductive SetOpKind : Type := SUnion | SIntersect | SExcept.
#[global] Instance JoinKind_eq_dec : EqDecision JoinKind.
Proof. solve_decision. Defined.
#[global] Instance SetOpKind_eq_dec : EqDecision SetOpKind.
Proof. solve_decision. Defined.

(** ** Expressions and queries *)

Inductive Expr : Type :=
| ELiteral (l : Literal)
| EColumn (c : ColumnRef)
| EBinary (op : BinaryOp) (left right : Expr) (s : Span)
| EUnary (op : UnaryOp) (expr : Expr) (s : Span)
| EIsNull (expr : Expr) (negated : bool) (s : Span)
| EIn (expr : Expr) (values : list Expr) (negated : bool) (s : Span)
| EInSubquery (expr : Expr) (query : SelectStmt) (negated : bool) (s : Span)
| EExists (query : SelectStmt) (negated : bool) (s : Span)
| EScalarSubquery (query : SelectStmt) (s : Span)
| EBetween (expr low high : Expr) (negated : bool) (s : Span)
| EParen (inner : Expr) (s : Span)
| EParameter (index : Z) (s : Span)
| ECurrentUser (s : Span)
| ECast (expr : Expr) (data_type : SqlType) (s : Span)
| EFunction (name : Ident) (args : list Expr) (over : option WindowSpec) (s : Span)
with WindowSpec : Type :=
| mkWindowSpec (partition_by : list Expr) (order_by : list OrderKey) (frame : option WindowFrame)
with OrderKey : Type :=
| mkOrderKey (expr : Expr) (asc : bool)
with SelectItem : Type :=
| mkSelectItem (expr : Expr) (alias : option Ident)
with FromItem : Type :=
| FromTable (t : TableRef)
| FromSubquery (query : SelectStmt) (alias : Ident) (s : Span)
with Join : Type :=
| mkJoin (jkind : JoinKind) (table : TableRef) (on : Expr) (s : Span)
with CteBody : Type :=
| CteSelect (q : SelectStmt)
| CteUnion (anchor : SelectStmt) (all : bool) (recursive : SelectStmt)
with CteDef : Type :=
| mkCteDef (name : Ident) (body : CteBody) (s : Span)
with WithClause : Type :=
| mkWithClause (recursive : bool) (ctes : list CteDef) (s : Span)
with CompoundSelect : Type :=
| mkCompoundSelect (op : SetOpKind) (all : bool) (right : SelectStmt)
with SelectStmt : Type :=
| mkSelectStmt (with_clause : option WithClause) (distinct : bool) (items : list SelectItem)
    (from : option FromItem) (joins : list Join) (where_clause : option Expr) (group_by : list Expr)
    (having_clause : option Expr) (order_by : list OrderKey) (limit offset : option Z)
    (compound : option CompoundSelect) (s : Span).

(** [Expr::span] *)
Definition expr_span (e : Expr) : Span :=
  match e with
  | ELiteral (LNull s | LInteger _ s | LFloat _ s | LString _ s | LBoolean _ s) => s
  | EColumn (ColStar s | QualifiedStar _ s) => s
  | EColumn (Named _ c) => id_span c
  | EBinary _ _ _ s | EUnary _ _ s | EIsNull _ _ s | EIn _ _ _ s | EInSubquery _ _ _ s
  | EExists _ _ s | EScalarSubquery _ s | EBetween _ _ _ _ s | EParen _ s | EParameter _ s
  | ECurrentUser s | ECast _ _ s | EFunction _ _ _ s => s
  end.

(** Assignments to single fields: [stmt.with_clause = ...], [stmt.compound = ...] *)
Definition set_with (w : option WithClause) (q : SelectStmt) : SelectStmt :=
  let 'mkSelectStmt _ d i f j wh g h o l off c s := q in mkSelectStmt w d i f j wh g h o l off c s.
Definition set_compound (c : option CompoundSelect) (q : SelectStmt) : SelectStmt :=
  let 'mkSelectStmt w d i f j wh g h o l off _ s := q in mkSelectStmt w d i f j wh g h o l off c s.

(** ** Statements *)

Record ColumnDef : Type := mkColumnDef {
  cd_name : Ident; cd_type : SqlType; cd_not_null : bool; cd_primary_key : bool; cd_unique : bool;
  cd_span : Span }.

Record InsertStmt : Type := mkInsertStmt {
  ins_table : Ident; ins_columns : option (list Ident); ins_values : list (list Expr); ins_span : Span }.
Record UpdateStmt : Type := mkUpdateStmt {
  up_table : Ident; up_assignments : list (Ident * Expr); up_where : option Expr; up_span : Span }.
Record DeleteStmt : Type := mkDeleteStmt { del_table : Ident; del_where : option Expr; del_span : Span }.
Record CreateTableStmt : Type := mkCreateTableStmt {
  ct_name : Ident; ct_if_not_exists : bool; ct_columns : list ColumnDef; ct_primary_key : list Ident;
  ct_span : Span }.
Record DropTableStmt : Type := mkDropTableStmt { dt_name : Ident; dt_span : Span }.
Record CreateIndexStmt : Type := mkCreateIndexStmt {
  ci_name : Ident; ci_table : Ident; ci_columns : list Ident; ci_span : Span }.
Record CreatePolicyStmt : Type := mkCreatePolicyStmt {
  cp_name : Ident; cp_table : Ident; cp_using : Expr; cp_span : Span }.
Record EnableRlsStmt : Type := mkEnableRlsStmt { rls_table : Ident; rls_span : Span }.
Inductive AlterTableAction : Type := AddColumn (c : ColumnDef).
Record AlterTableStmt : Type := mkAlterTableStmt {
  at_table : Ident; at_action : AlterTableAction; at_span : Span }.
Record ExecuteStmt : Type := mkExecuteStmt { ex_name : Ident; ex_params : list Literal; ex_span : Span }.
Record SetRoleStmt : Type := mkSetRoleStmt { sr_role : bytes; sr_span : Span }.
Record AnalyzeTableStmt : Type := mkAnalyzeTableStmt { an_table : Ident; an_span : Span }.

Inductive Statement : Type :=
| SSelect (q : SelectStmt)
| SInsert (s : InsertStmt)
| SUpdate (s : UpdateStmt)
| SDelete (s : DeleteStmt)
| SCreateTable (s : CreateTableStmt)
| SDropTable (s : DropTableStmt)
| SCreateIndex (s : CreateIndexStmt)
| SPrepare (name : Ident) (inner : Statement) (s : Span)
| SExecute (s : ExecuteStmt)
| SSetRole (s : SetRoleStmt)
| SEnableRls (s : EnableRlsStmt)
| SAlterTable (s : AlterTableStmt)
| SCreatePolicy (s : CreatePolicyStmt)
| SBeginTxn (s : Span)
| SCommitTxn (s : Span)
| SRollbackTxn (s : Span)
| SAnalyzeTable (s : AnalyzeTableStmt).

Definition select_span (q : SelectStmt) : Span :=
  let 'mkSelectStmt _ _ _ _ _ _ _ _ _ _ _ _ s := q in s.

(** [Statement::span] *)
Definition stmt_span (s : Statement) : Span :=
  match s with
  | SSelect q => select_span q
  | SInsert s => ins_span s
  | SUpdate s => up_span s
  | SDelete s => del_span s
  | SCreateTable s => ct_span s
  | SDropTable s => dt_span s
  | SCreateIndex s => ci_span s
  | SPrepare _ _ s => s
  | SExecute s => ex_span s
  | SSetRole s => sr_span s
  | SEnableRls s => rls_span s
  | SAlterTable s => at_span s
  | SCreatePolicy s => cp_span s
  | SBeginTxn s | SCommitTxn s | SRollbackTxn s => s
  | SAnalyzeTable s => an_span s
  end.
