(* ===== verification/Display.v ===== *)
(** * Printing syntax trees (crates/noedb-ast/src/display.rs)

    The [Display] implementations, as functions to strings.  The decimal form of
    a double is a parameter. *)

From S2P Require Import Prelude Text Float64 Tokens Ast.

(** [f.to_string()] of a double: the shortest decimal that reads back. *)
Class FloatText : Type := { f64_to_string : f64 -> bytes }.

Definition is_simple_ident (b : byte) : bool := is_ascii_alphanumeric b || bool_decide (b = x5f).

(** [s.replace(q, qq)] *)
Definition double_quote (q : byte) (s : bytes) : bytes :=
  concat (map (fun b => if bool_decide (b = q) then [q; q] else [b]) s).

Definition write_ident (ident : Ident) : bytes :=
  if forallb is_simple_ident (id_value ident) then id_value ident
  else [x22] ++ double_quote x22 (id_value ident) ++ [x22].

Definition keyword_display (kw : Keyword) : bytes :=
  bs match kw with
     | KwSelect => "SELECT" | KwFrom => "FROM" | KwWhere => "WHERE" | KwInsert => "INSERT" |
     KwInto => "INTO" | KwValues => "VALUES" | KwUpdate => "UPDATE" | KwSet => "SET" |
     KwDelete => "DELETE" | KwCreate => "CREATE" | KwDrop => "DROP" | KwTable => "TABLE" |
     KwIndex => "INDEX" | KwOn => "ON" | KwJoin => "JOIN" | KwInner => "INNER" | KwLeft =>
     "LEFT" | KwOuter => "OUTER" | KwDistinct => "DISTINCT" | KwAs => "AS" | KwAnd => "AND" |
     KwOr => "OR" | KwNot => "NOT" | KwNull => "NULL" | KwIs => "IS" | KwIn => "IN" |
     KwBetween => "BETWEEN" | KwLike => "LIKE" | KwTrue => "TRUE" | KwFalse => "FALSE" |
     KwAlter => "ALTER" | KwAdd => "ADD" | KwColumn => "COLUMN" | KwEnable => "ENABLE" |
     KwExecute => "EXECUTE" | KwPrepare => "PREPARE" | KwPolicy => "POLICY" | KwRow => "ROW" |
     KwLevel => "LEVEL" | KwSecurity => "SECURITY" | KwRole => "ROLE" | KwUsing => "USING" |
     KwCurrentUser => "CURRENT_USER" | KwOver => "OVER" | KwPartition => "PARTITION" | KwRange
     => "RANGE" | KwRecursive => "RECURSIVE" | KwRows => "ROWS" | KwUnbounded => "UNBOUNDED" |
     KwPreceding => "PRECEDING" | KwFollowing => "FOLLOWING" | KwAnalyze => "ANALYZE" | KwCast
     => "CAST" | KwAll => "ALL" | KwUnion => "UNION" | KwUnique => "UNIQUE" | KwIntersect =>
     "INTERSECT" | KwExcept => "EXCEPT" | KwWith => "WITH"
     | _ => "KEYWORD"
     end.

Definition write_keyword : Keyword -> bytes := keyword_display.

(** Items with [sep] between them *)
Fixpoint sep_by (sep : bytes) (l : list bytes) : bytes :=
  match l with
  | [] => []
  | [x] => x
  | x :: r => x ++ sep ++ sep_by sep r
  end.
Definition sp : bytes := [x20].
Definition comma_sp : bytes := [x2c; x20].
Definition in_parens (s : bytes) : bytes := [x28] ++ s ++ [x29].

Definition binary_op (op : BinaryOp) : bytes :=
  bs match op with
     | BEq => "=" | BNe => "<>" | BLt => "<" | BGt => ">" | BLe => "<=" | BGe => ">="
     | BAnd => "AND" | BOr => "OR" | BPlus => "+" | BMinus => "-" | BDiv => "/" | BMul => "*"
     | BMod => "%" | BLike => "LIKE" | BDistance => "<->"
     end.

Definition write_column (c : ColumnRef) : bytes :=
  match c with
  | ColStar _ => [x2a]
  | QualifiedStar t _ => write_ident t ++ [x2e; x2a]
  | Named None c => write_ident c
  | Named (Some t) c => write_ident t ++ [x2e] ++ write_ident c
  end.

Definition write_type (t : SqlType) : bytes :=
  match t with
  | TyInt => bs "INT"
  | TyBoolean => bs "BOOLEAN"
  | TyFloat => bs "FLOAT"
  | TyVarchar None => bs "VARCHAR"
  | TyVarchar (Some n) => bs "VARCHAR" ++ in_parens (show_Z n)
  | TyText => bs "TEXT"
  | TyDate => bs "DATE"
  | TyTimestamp => bs "TIMESTAMP"
  | TyVector dim => bs "VECTOR" ++ in_parens (show_Z dim)
  | TyNamed s => s
  end.

Definition write_frame_bound (b : FrameBound) : bytes :=
  match b with
  | UnboundedPreceding => write_keyword KwUnbounded ++ sp ++ write_keyword KwPreceding
  | Preceding n => show_Z n ++ sp ++ write_keyword KwPreceding
  | CurrentRow => write_keyword KwCurrent ++ sp ++ write_keyword KwRow
  | Following n => show_Z n ++ sp ++ write_keyword KwFollowing
  | UnboundedFollowing => write_keyword KwUnbounded ++ sp ++ write_keyword KwFollowing
  end.

Definition write_frame (f : WindowFrame) : bytes :=
  write_keyword (match wf_mode f with FrameRows => KwRows | FrameRange => KwRange end) ++
  write_keyword KwBetween ++ sp ++ write_frame_bound (wf_start f) ++
  write_keyword KwAnd ++ sp ++ write_frame_bound (wf_end f).

Definition write_alias (alias : option Ident) : bytes :=
  match alias with
  | Some a => sp ++ write_keyword KwAs ++ sp ++ write_ident a
  | None => []
  end.
Definition write_table_ref (t : TableRef) : bytes := write_ident (tr_name t) ++ write_alias (tr_alias t).
Definition write_join_kind (k : JoinKind) : bytes :=
  write_keyword (match k with JInner => KwInner | JLeft => KwLeft end) ++ sp ++ write_keyword KwJoin.

(** [" NOT"] when negated *)
Definition write_not (negated : bool) : bytes := if negated then sp ++ write_keyword KwNot else [].

Section display.
Context `{FloatText}.

Definition write_literal (l : Literal) : bytes :=
  match l with
  | LNull _ => write_keyword KwNull
  | LInteger v _ => show_Z v
  | LFloat v _ => f64_to_string v
  | LString s _ => [x27] ++ double_quote x27 s ++ [x27]
  | LBoolean true _ => write_keyword KwTrue
  | LBoolean false _ => write_keyword KwFalse
  end.

Fixpoint write_expr (e : Expr) : bytes :=
  match e with
  | ELiteral l => write_literal l
  | EColumn c => write_column c
  | EBinary op l r _ => write_expr l ++ sp ++ binary_op op ++ sp ++ write_expr r
  | EUnary UNot e _ => write_keyword KwNot ++ sp ++ write_expr e
  | EUnary UMinus e _ => [x2d] ++ write_expr e
  | EIsNull e negated _ =>
      write_expr e ++ sp ++ write_keyword KwIs ++ write_not negated ++ sp ++ write_keyword KwNull
  | EIn e values negated _ =>
      write_expr e ++ write_not negated ++ sp ++ write_keyword KwIn ++ sp ++
      in_parens (sep_by comma_sp (map write_expr values))
  | EInSubquery e query negated _ =>
      write_expr e ++ write_not negated ++ sp ++ write_keyword KwIn ++ sp ++ in_parens (write_select query)
  | EExists query negated _ =>
      (if negated then write_keyword KwNot ++ sp else []) ++ write_keyword KwExists ++ sp ++
      in_parens (write_select query)
  | EScalarSubquery query _ => in_parens (write_select query)
  | EBetween e low high negated _ =>
      write_expr e ++ write_not negated ++ sp ++ write_keyword KwBetween ++ sp ++ write_expr low ++ sp ++
      write_keyword KwAnd ++ sp ++ write_expr high
  | EParen inner _ => in_parens (write_expr inner)
  | EParameter index _ => [x24] ++ show_Z index
  | ECurrentUser _ => write_keyword KwCurrentUser
  | ECast e ty _ =>
      write_keyword KwCast ++ [x28] ++ write_expr e ++ sp ++ write_keyword KwAs ++ sp ++ write_type ty ++ [x29]
  | EFunction name args over _ =>
      write_ident name ++ in_parens (sep_by comma_sp (map write_expr args)) ++
      match over with Some spec => sp ++ write_window spec | None => [] end
  end
with write_window (w : WindowSpec) : bytes :=
  match w with
  | mkWindowSpec partition_by order_by frame =>
      write_keyword KwOver ++ [x20; x28] ++
      (match partition_by with
       | [] => []
       | _ => write_keyword KwPartition ++ write_keyword KwBy ++ sp ++
              sep_by comma_sp (map write_expr partition_by)
       end) ++
      (match order_by with
       | [] => []
       | _ => (match partition_by with [] => [] | _ => sp end) ++
              write_keyword KwOrder ++ write_keyword KwBy ++ sp ++
              sep_by comma_sp (map write_window_key order_by)
       end) ++
      match frame with Some f => sp ++ write_frame f | None => [] end ++ [x29]
  end
with write_window_key (k : OrderKey) : bytes :=
  match k with
  | mkOrderKey e asc => write_expr e ++ sp ++ write_keyword (if asc then KwAsc else KwDesc)
  end
with write_order_key (k : OrderKey) : bytes :=
  match k with
  | mkOrderKey e asc => write_expr e ++ (if asc then [] else sp ++ write_keyword KwDesc)
  end
with write_item (i : SelectItem) : bytes :=
  match i with mkSelectItem e alias => write_expr e ++ write_alias alias end
with write_from (f : FromItem) : bytes :=
  match f with
  | FromTable t => write_table_ref t
  | FromSubquery query alias _ => in_parens (write_select query) ++ sp ++ write_ident alias
  end
with write_join (j : Join) : bytes :=
  match j with
  | mkJoin k t on _ =>
      write_join_kind k ++ sp ++ write_table_ref t ++ sp ++ write_keyword KwOn ++ sp ++ write_expr on
  end
with write_cte_body (b : CteBody) : bytes :=
  match b with
  | CteSelect q => write_select q
  | CteUnion anchor all recursive =>
      write_select anchor ++ sp ++ write_keyword KwUnion ++
      (if all then sp ++ write_keyword KwAll else []) ++ sp ++ write_select recursive
  end
with write_cte (c : CteDef) : bytes :=
  match c with
  | mkCteDef name body _ =>
      write_ident name ++ sp ++ write_keyword KwAs ++ sp ++ in_parens (write_cte_body body)
  end
with write_with (w : WithClause) : bytes :=
  match w with
  | mkWithClause recursive ctes _ =>
      write_keyword KwWith ++ (if recursive then sp ++ write_keyword KwRecursive else []) ++
      match ctes with [] => [] | _ => sp ++ sep_by comma_sp (map write_cte ctes) end
  end
with write_compound (c : CompoundSelect) : bytes :=
  match c with
  | mkCompoundSelect op all q =>
      write_keyword (match op with SUnion => KwUnion | SIntersect => KwIntersect | SExcept => KwExcept end) ++
      (if all then sp ++ write_keyword KwAll else []) ++ sp ++ write_select q
  end
with write_select (q : SelectStmt) : bytes :=
  match q with
  | mkSelectStmt with_clause distinct items from joins where_clause group_by having_clause order_by limit
      offset compound _ =>
      (match with_clause with Some w => write_with w ++ sp | None => [] end) ++
      write_keyword KwSelect ++ (if distinct then sp ++ write_keyword KwDistinct else []) ++ sp ++
      sep_by comma_sp (map write_item items) ++
      (match from with Some f => sp ++ write_keyword KwFrom ++ sp ++ write_from f | None => [] end) ++
      concat (map (fun j => sp ++ write_join j) joins) ++
      (match where_clause with Some w => sp ++ write_keyword KwWhere ++ sp ++ write_expr w | None => [] end) ++
      (match group_by with
       | [] => []
       | _ => sp ++ write_keyword KwGroup ++ sp ++ write_keyword KwBy ++
              sep_by comma_sp (map write_expr group_by)
       end) ++
      (match having_clause with Some h => sp ++ write_keyword KwHaving ++ sp ++ write_expr h | None => [] end) ++
      (match order_by with
       | [] => []
       | _ => sp ++ write_keyword KwOrder ++ sp ++ write_keyword KwBy ++
              sep_by comma_sp (map write_order_key order_by)
       end) ++
      (match limit with Some n => sp ++ write_keyword KwLimit ++ sp ++ show_Z n | None => [] end) ++
      (match offset with Some n => sp ++ write_keyword KwOffset ++ sp ++ show_Z n | None => [] end) ++
      (match compound with Some c => sp ++ write_compound c | None => [] end)
  end.

Definition write_kws (kws : list Keyword) : bytes := sep_by sp (map write_keyword kws).
Definition flag (b : bool) (kws : list Keyword) : bytes := if b then sp ++ write_kws kws else [].
Definition write_idents (l : list Ident) : bytes := in_parens (sep_by comma_sp (map write_ident l)).

Definition write_column_def (c : ColumnDef) : bytes :=
  write_ident (cd_name c) ++ sp ++ write_type (cd_type c) ++ flag (cd_not_null c) [KwNot; KwNull] ++
  flag (cd_primary_key c) [KwPrimary; KwKey] ++ flag (cd_unique c) [KwUnique].

Definition write_insert (s : InsertStmt) : bytes :=
  write_kws [KwInsert; KwInto] ++ sp ++ write_ident (ins_table s) ++
  (match ins_columns s with Some cols => sp ++ write_idents cols | None => [] end) ++
  sp ++ write_keyword KwValues ++
  sep_by comma_sp (map (fun row => sp ++ in_parens (sep_by comma_sp (map write_expr row))) (ins_values s)).

Definition write_where (w : option Expr) : bytes :=
  match w with Some w => sp ++ write_keyword KwWhere ++ sp ++ write_expr w | None => [] end.

Definition write_update (s : UpdateStmt) : bytes :=
  write_keyword KwUpdate ++ sp ++ write_ident (up_table s) ++ sp ++ write_keyword KwSet ++
  sep_by comma_sp (map (fun a => sp ++ write_ident a.1 ++ [x20; x3d; x20] ++ write_expr a.2) (up_assignments s)) ++
  write_where (up_where s).

Definition write_delete (s : DeleteStmt) : bytes :=
  write_kws [KwDelete; KwFrom] ++ sp ++ write_ident (del_table s) ++ write_where (del_where s).

Definition write_create_table (s : CreateTableStmt) : bytes :=
  write_kws [KwCreate; KwTable] ++ sp ++ write_ident (ct_name s) ++ [x20; x28] ++
  sep_by comma_sp (map write_column_def (ct_columns s)) ++
  (match ct_primary_key s with
   | [] => []
   | pk => (match ct_columns s with [] => [] | _ => comma_sp end) ++
           write_kws [KwPrimary; KwKey] ++ sp ++ write_idents pk
   end) ++ [x29].

Definition write_create_index (s : CreateIndexStmt) : bytes :=
  write_kws [KwCreate; KwIndex] ++ sp ++ write_ident (ci_name s) ++ sp ++ write_keyword KwOn ++ sp ++
  write_ident (ci_table s) ++ sp ++ write_idents (ci_columns s).

Fixpoint write_statement (s : Statement) : bytes :=
  match s with
  | SSelect q => write_select q
  | SInsert s => write_insert s
  | SUpdate s => write_update s
  | SDelete s => write_delete s
  | SCreateTable s => write_create_table s
  | SDropTable s => write_kws [KwDrop; KwTable] ++ sp ++ write_ident (dt_name s)
  | SCreateIndex s => write_create_index s
  | SPrepare name inner _ =>
      write_keyword KwPrepare ++ sp ++ write_ident name ++ sp ++ write_keyword KwAs ++ sp ++ write_statement inner
  | SExecute s =>
      write_keyword KwExecute ++ sp ++ write_ident (ex_name s) ++
      match ex_params s with
      | [] => []
      | ps => sp ++ in_parens (sep_by comma_sp (map write_literal ps))
      end
  | SSetRole s =>
      write_kws [KwSet; KwRole] ++ sp ++ [x27] ++ double_quote x27 (sr_role s) ++ [x27]
  | SEnableRls s =>
      write_kws [KwAlter; KwTable] ++ sp ++ write_ident (rls_table s) ++ sp ++
      write_kws [KwEnable; KwRow; KwLevel; KwSecurity]
  | SAlterTable s =>
      let 'AddColumn c := at_action s in
      write_kws [KwAlter; KwTable] ++ sp ++ write_ident (at_table s) ++ sp ++ write_kws [KwAdd; KwColumn] ++
      sp ++ write_ident (cd_name c) ++ sp ++ write_type (cd_type c) ++ flag (cd_not_null c) [KwNot; KwNull]
  | SCreatePolicy s =>
      write_kws [KwCreate; KwPolicy] ++ sp ++ write_ident (cp_name s) ++ sp ++ write_keyword KwOn ++ sp ++
      write_ident (cp_table s) ++ sp ++ write_keyword KwUsing ++ sp ++ in_parens (write_expr (cp_using s))
  | SBeginTxn _ => write_keyword KwBegin
  | SCommitTxn _ => write_keyword KwCommit
  | SRollbackTxn _ => write_keyword KwRollback
  | SAnalyzeTable s => write_kws [KwAnalyze; KwTable] ++ sp ++ write_ident (an_table s)
  end.
End display.
