(* ===== verification/Parser.v ===== *)
(** * The parser (crates/noedb-parser/src)

    parser.rs, error.rs, types.rs, expr.rs and select.rs here; the statements in
    Statements.v.  A parser is a state-passing function on the index of the next
    token.  The recursion runs through two functions, [parse_expr_prec] and
    [parse_select_inner]: the others take them as arguments, and [parsers] ties
    the knot with fuel.  Loops have fuel of their own; running out of fuel is a
    panic, which the totality theorem excludes. *)

From S2P Require Import Prelude Text Float64 Tokens Lexer Ast.

Inductive ParseError : Type :=
| PLex (e : LexError)
| UnexpectedToken (s : Span) (context : string)
| ExpectedKeyword (expected : Keyword) (s : Span)
| ExpectedPunctuation (expected : Punctuation) (s : Span).

Definition keyword_as_str (kw : Keyword) : bytes :=
  bs match kw with
     | KwSelect => "SELECT" | KwFrom => "FROM" | KwWhere => "WHERE" | KwInsert => "INSERT" |
     KwInto => "INTO" | KwValues => "VALUES" | KwUpdate => "UPDATE" | KwSet => "SET" |
     KwDelete => "DELETE" | KwCreate => "CREATE" | KwDrop => "DROP" | KwTable => "TABLE" |
     KwIndex => "INDEX" | KwOn => "ON" | KwJoin => "JOIN" | KwInner => "INNER" | KwLeft =>
     "LEFT" | KwOuter => "OUTER" | KwDistinct => "DISTINCT" | KwAs => "AS" | KwAnd => "AND" |
     KwOr => "OR" | KwNot => "NOT" | KwNull => "NULL" | KwIs => "IS" | KwIn => "IN" |
     KwBetween => "BETWEEN" | KwLike => "LIKE" | KwTrue => "TRUE" | KwFalse => "FALSE"
     | _ => "KEYWORD"
     end.

(** [Parser::merge_span], as built for release, without the debug assertion of [Span::new] *)
Definition merge_span (s e : Span) : Span := mkSpan (sp_start s) (sp_end e).

Definition operator_to_binary (op : Operator) : BinaryOp :=
  match op with
  | OpEq => BEq | OpNe => BNe | OpLt => BLt | OpGt => BGt | OpLe => BLe | OpGe => BGe
  | OpPlus => BPlus | OpMinus => BMinus | OpDiv => BDiv | OpMod => BMod | OpDistance => BDistance
  end.

Inductive Prec : Type := PrOr | PrAnd | PrCompare | PrAdd | PrPrimary.
Definition prec_u8 (p : Prec) : Z :=
  match p with PrOr => 1 | PrAnd => 2 | PrCompare => 3 | PrAdd => 4 | PrPrimary => 5 end.
Definition prec_le (p q : Prec) : bool := prec_u8 p <=? prec_u8 q.

Local Abbreviation P := (SM nat ParseError).

Section parser.
Context (src : bytes) (tokens : list SpannedToken).

(** ** Navigation *)

Definition token_at (i : nat) : P SpannedToken := fun pos =>
  (match tokens !! i with Some t => Ok t | None => Panic end, pos).
Definition peek : P SpannedToken := fun pos => token_at pos pos.
Definition peek_kind : P Token := smap tok_kind peek.
Definition peek_span : P Span := smap tok_span peek.
Definition peek_ahead (n : nat) : P (option Token) := fun pos =>
  (Ok (tok_kind <$> tokens !! (pos + n)%nat), pos).

(** [p.tokens[p.pos.saturating_sub(1)].span] *)
Definition prev_span : P Span := fun pos => smap tok_span (token_at (pos - 1)) pos.

Definition bump_token : P SpannedToken :=
  let* tok := peek in
  let* _ := if bool_decide (tok_kind tok = TEof) then sret tt else smodify S in
  sret tok.

Definition unexpected {A} (context : string) : P A :=
  let* s := peek_span in serr (UnexpectedToken s context).

Definition expect_eof : P unit :=
  let* k := peek_kind in
  if bool_decide (k = TEof) then sret tt else unexpected "end of statement".

Definition expect_keyword (kw : Keyword) : P Span :=
  let* tok := bump_token in
  if bool_decide (tok_kind tok = TKeyword kw) then sret (tok_span tok)
  else serr (ExpectedKeyword kw (tok_span tok)).

Definition match_keyword (kw : Keyword) : P bool :=
  let* k := peek_kind in
  if bool_decide (k = TKeyword kw) then let* _ := bump_token in sret true else sret false.

Definition expect_punct (p : Punctuation) : P Span :=
  let* tok := bump_token in
  if bool_decide (tok_kind tok = TPunct p) then sret (tok_span tok)
  else serr (ExpectedPunctuation p (tok_span tok)).

Definition at_punct (p : Punctuation) : P bool := smap (fun k => bool_decide (k = TPunct p)) peek_kind.
Definition at_keyword (kw : Keyword) : P bool := smap (fun k => bool_decide (k = TKeyword kw)) peek_kind.

Definition parse_ident : P Ident :=
  let* tok := bump_token in
  match tok_kind tok with
  | TIdent =>
      match lexeme tok src with
      | Some v => sret (mkIdent v (tok_span tok))
      | None => serr (UnexpectedToken (tok_span tok) "identifier")
      end
  | TQuotedIdent s => sret (mkIdent s (tok_span tok))
  | TKeyword kw => sret (mkIdent (default (keyword_as_str kw) (lexeme tok src)) (tok_span tok))
  | _ => serr (UnexpectedToken (tok_span tok) "identifier")
  end.

(** [loop { out.push(item(p)?); if !comma { break; } p.bump(); }] *)
Fixpoint comma_loop {A} (fuel : nat) (item : P A) (out : list A) : P (list A) :=
  match fuel with
  | O => spanic
  | S fuel' =>
      let* x := item in
      let* c := at_punct Comma in
      if c then let* _ := bump_token in comma_loop fuel' item (out ++ [x])
      else sret (out ++ [x])
  end.
Definition comma_list {A} (item : P A) : P (list A) := comma_loop (S (length tokens)) item [].

(** ** Types *)

Definition parse_type_length : P Z :=
  let* tok := bump_token in
  match tok_kind tok with
  | TInteger v => if (0 <=? v) && (v <=? umax 32) then sret v
                  else serr (UnexpectedToken (tok_span tok) "type length")
  | _ => serr (UnexpectedToken (tok_span tok) "type length")
  end.

Definition parse_sql_type : P SqlType :=
  let* name := parse_ident in
  let upper := to_upper (id_value name) in
  let named s := bool_decide (upper = bs s) in
  if named "INT" || named "INTEGER" || named "BIGINT" then sret TyInt
  else if named "BOOLEAN" || named "BOOL" then sret TyBoolean
  else if named "FLOAT" || named "REAL" || named "DOUBLE" then sret TyFloat
  else if named "TEXT" then sret TyText
  else if named "DATE" then sret TyDate
  else if named "TIMESTAMP" || named "TIMESTAMPTZ" then sret TyTimestamp
  else if named "VARCHAR" || named "CHAR" then
    let* lp := at_punct LParen in
    if lp then
      let* _ := bump_token in
      let* n := parse_type_length in
      let* _ := expect_punct RParen in
      sret (TyVarchar (Some n))
    else sret (TyVarchar None)
  else if named "VECTOR" then
    let* _ := expect_punct LParen in
    let* dim := parse_type_length in
    let* _ := expect_punct RParen in
    sret (TyVector dim)
  else sret (TyNamed upper).

(** ** Expressions *)

Section knot.
Context (rec_expr : Prec -> P Expr) (rec_select : bool -> bool -> P SelectStmt).

Definition parse_expr : P Expr := rec_expr PrOr.
Definition parse_comma_exprs : P (list Expr) := comma_list parse_expr.

(** **** WITH clauses and subqueries (select.rs) *)

Definition parse_cte_body : P CteBody :=
  let* anchor := rec_select false true in
  let* u := match_keyword KwUnion in
  if u then
    let* all := match_keyword KwAll in
    let* recursive := rec_select false true in
    let* _ := expect_punct RParen in
    sret (CteUnion anchor all recursive)
  else
    let* _ := expect_punct RParen in
    sret (CteSelect anchor).

Definition parse_cte (start : Span) : P CteDef :=
  let* name := parse_ident in
  let* _ := expect_keyword KwAs in
  let* _ := expect_punct LParen in
  let* body := parse_cte_body in
  let* end_ := peek_span in
  sret (mkCteDef name body (merge_span start end_)).

(** [if p.pos > 0 { p.tokens[p.pos - 1].span } else { start }] *)
Definition last_span (start : Span) : P Span :=
  let* pos := sget in
  if (0 <? pos)%nat then prev_span else sret start.

Definition parse_optional_with : P (option WithClause) :=
  let* w := match_keyword KwWith in
  if negb w then sret None
  else
    let* start := peek_span in
    let* recursive := match_keyword KwRecursive in
    let* ctes := comma_list (parse_cte start) in
    let* end_ := last_span start in
    sret (Some (mkWithClause recursive ctes (merge_span start end_))).

Definition parse_select_subquery : P SelectStmt :=
  let* with_clause := parse_optional_with in
  let* stmt := rec_select false false in
  sret (set_with with_clause stmt).

(** **** Windows *)

Definition parse_frame_offset : P Z :=
  let* tok := peek in
  match tok_kind tok with
  | TInteger v => if 0 <=? v then let* _ := bump_token in sret v
                  else serr (UnexpectedToken (tok_span tok) "frame offset")
  | _ => serr (UnexpectedToken (tok_span tok) "frame offset")
  end.

Definition parse_frame_bound : P FrameBound :=
  let* u := match_keyword KwUnbounded in
  if u then
    let* p := match_keyword KwPreceding in
    if p then sret UnboundedPreceding
    else let* _ := expect_keyword KwFollowing in sret UnboundedFollowing
  else
    let* c := match_keyword KwCurrent in
    if c then let* _ := expect_keyword KwRow in sret CurrentRow
    else
      let* n := parse_frame_offset in
      let* p := match_keyword KwPreceding in
      if p then sret (Preceding n)
      else let* _ := expect_keyword KwFollowing in sret (Following n).

Definition parse_window_frame : P WindowFrame :=
  let* k := peek_kind in
  let* mode :=
    match k with
    | TKeyword KwRows => let* _ := bump_token in sret FrameRows
    | TKeyword KwRange => let* _ := bump_token in sret FrameRange
    | _ => unexpected "ROWS or RANGE"
    end in
  let* _ := expect_keyword KwBetween in
  let* start := parse_frame_bound in
  let* _ := expect_keyword KwAnd in
  let* end_ := parse_frame_bound in
  sret (mkWindowFrame mode start end_).

(** One key of [ORDER BY], in a window and in a query *)
Definition parse_order_key : P OrderKey :=
  let* expr := parse_expr in
  let* desc := match_keyword KwDesc in
  let* asc := if desc then sret false else let* _ := match_keyword KwAsc in sret true in
  sret (mkOrderKey expr asc).

Definition parse_window_spec : P WindowSpec :=
  let* _ := expect_punct LParen in
  let* part := match_keyword KwPartition in
  let* partition_by :=
    if part then let* _ := expect_keyword KwBy in parse_comma_exprs else sret [] in
  let* ord := match_keyword KwOrder in
  let* order_by :=
    if ord then let* _ := expect_keyword KwBy in comma_list parse_order_key else sret [] in
  let* k := peek_kind in
  let* frame :=
    if bool_decide (k = TKeyword KwRows) || bool_decide (k = TKeyword KwRange)
    then smap Some parse_window_frame else sret None in
  let* _ := expect_punct RParen in
  sret (mkWindowSpec partition_by order_by frame).

(** **** Atoms *)

Definition literal_of (tok : SpannedToken) : option Literal :=
  match tok_kind tok with
  | TInteger v => Some (LInteger v (tok_span tok))
  | TFloat v => Some (LFloat v (tok_span tok))
  | TString s => Some (LString s (tok_span tok))
  | TKeyword KwNull => Some (LNull (tok_span tok))
  | TKeyword KwTrue => Some (LBoolean true (tok_span tok))
  | TKeyword KwFalse => Some (LBoolean false (tok_span tok))
  | _ => None
  end.

Definition parse_literal : P Literal :=
  let* tok := bump_token in
  match literal_of tok with
  | Some l => sret l
  | None => serr (UnexpectedToken (tok_span tok) "literal")
  end.

Definition parse_column_from_ident (first : Ident) : P Expr :=
  let* dot := at_punct Dot in
  if dot then
    let* _ := bump_token in
    let* st := at_punct Star in
    if st then
      let* star := bump_token in
      sret (EColumn (QualifiedStar first (merge_span (id_span first) (tok_span star))))
    else
      let* column := parse_ident in
      sret (EColumn (Named (Some first) column))
  else sret (EColumn (Named None first)).

(** [if !matches!(RParen) { loop { ... } }]: a possibly empty list *)
Definition args_until_rparen : P (list Expr) :=
  let* empty := at_punct RParen in
  if negb empty then parse_comma_exprs else sret [].

Definition parse_ident_expr : P Expr :=
  let* start := peek_span in
  let* first := parse_ident in
  let* lp := at_punct LParen in
  if lp then
    let* _ := bump_token in
    let* args := args_until_rparen in
    let* end_ := expect_punct RParen in
    sret (EFunction first args None (merge_span start end_))
  else parse_column_from_ident first.

Definition parse_atom : P Expr :=
  let* tok := bump_token in
  match literal_of tok with
  | Some l => sret (ELiteral l)
  | None =>
      match tok_kind tok with
      | TIdent | TQuotedIdent _ | TKeyword _ =>
          let* _ := smodify (fun pos => pos - 1)%nat in
          parse_ident_expr
      | TPunct Star => sret (EColumn (ColStar (tok_span tok)))
      | _ => serr (UnexpectedToken (tok_span tok) "expression")
      end
  end.

(** **** Prefixes *)

Definition parse_exists (negated : bool) (start : Span) : P Expr :=
  let* _ := expect_punct LParen in
  let* query := parse_select_subquery in
  let* end_ := expect_punct RParen in
  sret (EExists query negated (merge_span start end_)).

Definition parse_cast : P Expr :=
  let* start := prev_span in
  let* _ := expect_punct LParen in
  let* inner := parse_expr in
  let* _ := expect_keyword KwAs in
  let* data_type := parse_sql_type in
  let* end_ := expect_punct RParen in
  sret (ECast inner data_type (merge_span start end_)).

Definition parse_parenthesized : P Expr :=
  let* start := smap tok_span bump_token in
  let* k := peek_kind in
  if bool_decide (k = TKeyword KwSelect) || bool_decide (k = TKeyword KwWith) then
    let* query := parse_select_subquery in
    let* end_ := expect_punct RParen in
    sret (EScalarSubquery query (merge_span start end_))
  else
    let* inner := parse_expr in
    let* end_ := expect_punct RParen in
    sret (EParen inner (merge_span start end_)).

Definition parse_prefix : P Expr :=
  let* c := match_keyword KwCast in
  if c then parse_cast
  else
  let* k0 := peek_kind in
  let* k1 := peek_ahead 1 in
  if bool_decide (k0 = TKeyword KwNot) && bool_decide (k1 = Some (TKeyword KwExists)) then
    let* start := smap tok_span bump_token in
    let* _ := expect_keyword KwExists in
    parse_exists true start
  else
  let* n := match_keyword KwNot in
  if n then
    let* start := peek_span in
    let* inner := rec_expr PrAnd in
    sret (EUnary UNot inner (merge_span start (expr_span inner)))
  else if bool_decide (k0 = TOp OpMinus) then
    let* start := smap tok_span bump_token in
    let* inner := rec_expr PrAdd in
    sret (EUnary UMinus inner (merge_span start (expr_span inner)))
  else
  let* e := match_keyword KwExists in
  if e then let* start := prev_span in parse_exists false start
  else if bool_decide (k0 = TPunct LParen) then parse_parenthesized
  else
  let* u := match_keyword KwCurrentUser in
  if u then let* s := prev_span in sret (ECurrentUser s)
  else
  match k0 with
  | TParameter index => let* tok := bump_token in sret (EParameter index (tok_span tok))
  | _ => parse_atom
  end.

(** **** The operators after a prefix *)

Definition parse_in_rhs : P (list Expr * option SelectStmt) :=
  let* _ := expect_punct LParen in
  let* sel := at_keyword KwSelect in
  if sel then
    let* query := parse_select_subquery in
    let* _ := expect_punct RParen in
    sret ([], Some query)
  else
    let* values := args_until_rparen in
    let* _ := expect_punct RParen in
    sret (values, None).

Definition in_expr_from_rhs (left : Expr) (rhs : list Expr * option SelectStmt) (negated : bool)
    (s : Span) : Expr :=
  match rhs.2 with
  | Some query => EInSubquery left query negated s
  | None => EIn left rhs.1 negated s
  end.

Definition parse_in (left : Expr) (negated : bool) : P Expr :=
  let* rhs := parse_in_rhs in
  let* end_ := peek_span in
  sret (in_expr_from_rhs left rhs negated (merge_span (expr_span left) end_)).

Definition parse_between (left : Expr) (negated : bool) : P Expr :=
  let* low := rec_expr PrCompare in
  let* _ := expect_keyword KwAnd in
  let* high := rec_expr PrCompare in
  let* end_ := peek_span in
  sret (EBetween left low high negated (merge_span (expr_span left) end_)).

Definition parse_over (left : Expr) : P Expr :=
  match left with
  | EFunction name args over s =>
      let* spec := parse_window_spec in
      let* end_ := peek_span in
      sret (EFunction name args (Some spec) (merge_span s end_))
  | _ => unexpected "OVER after non-function"
  end.

(** The right operand of a binary operator *)
Definition parse_right (op : BinaryOp) (left : Expr) (min : Prec) : P Expr :=
  let* rhs := rec_expr min in
  sret (EBinary op left rhs (merge_span (expr_span left) (expr_span rhs))).

Definition is_compare_op (op : Operator) : bool :=
  match op with OpEq | OpNe | OpLt | OpGt | OpLe | OpGe | OpDistance => true | _ => false end.
Definition is_add_op (op : Operator) : bool :=
  match op with OpPlus | OpMinus | OpDiv | OpMod => true | _ => false end.

(** [p.match_keyword(Not) && p.match_keyword(Between)]: the first call consumes
    a NOT also when no BETWEEN follows. *)
Definition match_not_between : P bool :=
  let* n := match_keyword KwNot in
  if n then match_keyword KwBetween else sret false.

Fixpoint expr_loop (fuel : nat) (min : Prec) (left : Expr) : P Expr :=
  match fuel with
  | O => spanic
  | S fuel' =>
      let continue (m : P Expr) : P Expr := let* e := m in expr_loop fuel' min e in
      let* isn := match_keyword KwIs in
      if isn then
        continue (let* negated := match_keyword KwNot in
                  let* _ := expect_keyword KwNull in
                  let* end_ := peek_span in
                  sret (EIsNull left negated (merge_span (expr_span left) end_)))
      else
      let* k0 := peek_kind in
      let* k1 := peek_ahead 1 in
      if bool_decide (k0 = TKeyword KwNot) && bool_decide (k1 = Some (TKeyword KwIn)) then
        continue (let* _ := bump_token in
                  let* _ := expect_keyword KwIn in
                  parse_in left true)
      else
      let* inn := match_keyword KwIn in
      if inn then continue (parse_in left false)
      else
      let* nb := match_not_between in
      if nb then continue (parse_between left true)
      else
      let* b := match_keyword KwBetween in
      if b then continue (parse_between left false)
      else
      let* o := match_keyword KwOver in
      if o then continue (parse_over left)
      else
      let* l := match_keyword KwLike in
      if l then continue (parse_right BLike left PrCompare)
      else
      let* r := if prec_le min PrOr then match_keyword KwOr else sret false in
      if r then continue (parse_right BOr left PrAnd)
      else
      let* a := if prec_le min PrAnd then match_keyword KwAnd else sret false in
      if a then continue (parse_right BAnd left PrCompare)
      else
      let* k := peek_kind in
      match k with
      | TOp op =>
          if prec_le min PrCompare && is_compare_op op then
            continue (let* _ := bump_token in parse_right (operator_to_binary op) left PrCompare)
          else if prec_le min PrAdd && is_add_op op then
            continue (let* _ := bump_token in parse_right (operator_to_binary op) left PrAdd)
          else sret left
      | TPunct Star =>
          if prec_le min PrAdd then
            continue (let* _ := bump_token in parse_right BMul left PrAdd)
          else sret left
      | _ => sret left
      end
  end.

Definition parse_expr_prec_body (min : Prec) : P Expr :=
  let* lhs := parse_prefix in
  expr_loop (S (length tokens)) min lhs.

(** ** SELECT *)

Definition is_expr_list_boundary (next : option Token) : bool :=
  match next with
  | Some (TPunct Comma | TKeyword KwFrom | TKeyword KwWhere | TEof) => true
  | _ => false
  end.

Definition is_ident_token (k : Token) : bool :=
  match k with TIdent | TQuotedIdent _ => true | _ => false end.

Definition parse_optional_alias : P (option Ident) :=
  let* a := match_keyword KwAs in
  if a then smap Some parse_ident
  else
    let* k := peek_kind in
    let* k1 := peek_ahead 1 in
    if is_ident_token k && is_expr_list_boundary k1 then smap Some parse_ident else sret None.

Definition parse_select_item : P SelectItem :=
  let* expr := parse_expr in
  let* alias := parse_optional_alias in
  sret (mkSelectItem expr alias).

Definition is_table_alias_boundary (next : option Token) (stop_at_rparen : bool) : bool :=
  match next with
  | Some (TKeyword (KwInner | KwLeft | KwJoin | KwOrder | KwLimit | KwGroup | KwWhere | KwOn | KwUnion
                    | KwIntersect | KwExcept | KwOffset)
         | TPunct (RParen | Comma) | TEof) => true
  | _ => false
  end || (stop_at_rparen && bool_decide (next = Some (TPunct RParen))).

Definition parse_table_alias (stop_at_rparen : bool) : P (option Ident) :=
  let* a := match_keyword KwAs in
  if a then smap Some parse_ident
  else
    let* k := peek_kind in
    let* k1 := peek_ahead 1 in
    if is_ident_token k && is_table_alias_boundary k1 stop_at_rparen then smap Some parse_ident
    else sret None.

Definition parse_table_ref (stop_at_rparen : bool) : P TableRef :=
  let* start := peek_span in
  let* name := parse_ident in
  let* alias := parse_table_alias stop_at_rparen in
  let end_ := match alias with Some a => id_span a | None => id_span name end in
  sret (mkTableRef name alias (merge_span start end_)).

Definition parse_from_item (stop_at_rparen : bool) : P FromItem :=
  let* lp := at_punct LParen in
  if lp then
    let* start := smap tok_span bump_token in
    let* query := rec_select false true in
    let* _ := expect_punct RParen in
    let* _ := match_keyword KwAs in
    let* alias := parse_ident in
    sret (FromSubquery query alias (merge_span start (id_span alias)))
  else smap FromTable (parse_table_ref stop_at_rparen).

Definition parse_join (stop_at_rparen : bool) : P Join :=
  let* start := peek_span in
  let* inner := match_keyword KwInner in
  let* jkind :=
    if inner then let* _ := expect_keyword KwJoin in sret JInner
    else
      let* lft := match_keyword KwLeft in
      if lft then
        let* _ := match_keyword KwOuter in
        let* _ := expect_keyword KwJoin in
        sret JLeft
      else let* _ := expect_keyword KwJoin in sret JInner in
  let* table := parse_table_ref stop_at_rparen in
  let* _ := expect_keyword KwOn in
  let* on := parse_expr in
  sret (mkJoin jkind table on (merge_span start (expr_span on))).

(** [while matches!(INNER | LEFT | JOIN) { joins.push(...) }] *)
Fixpoint parse_joins (fuel : nat) (stop_at_rparen : bool) (joins : list Join) : P (list Join) :=
  match fuel with
  | O => spanic
  | S fuel' =>
      let* k := peek_kind in
      match k with
      | TKeyword (KwInner | KwLeft | KwJoin) =>
          let* j := parse_join stop_at_rparen in
          parse_joins fuel' stop_at_rparen (joins ++ [j])
      | _ => sret joins
      end
  end.

Definition parse_group_by : P (list Expr) :=
  let* g := match_keyword KwGroup in
  if negb g then sret []
  else let* _ := expect_keyword KwBy in parse_comma_exprs.

Definition parse_having : P (option Expr) :=
  let* h := match_keyword KwHaving in
  if negb h then sret None else smap Some parse_expr.

Definition parse_order_by : P (list OrderKey) :=
  let* o := match_keyword KwOrder in
  if negb o then sret []
  else let* _ := expect_keyword KwBy in comma_list parse_order_key.

Definition parse_unsigned : P Z :=
  let* tok := bump_token in
  match tok_kind tok with
  | TInteger v => if 0 <=? v then sret v else serr (UnexpectedToken (tok_span tok) "LIMIT/OFFSET integer")
  | _ => serr (UnexpectedToken (tok_span tok) "LIMIT/OFFSET integer")
  end.

Definition parse_limit_offset : P (option Z * option Z) :=
  let* l := match_keyword KwLimit in
  let* limit := if l then smap Some parse_unsigned else sret None in
  let* o := match_keyword KwOffset in
  let* offset := if o then smap Some parse_unsigned else sret None in
  sret (limit, offset).

Definition parse_select_inner_body (expect_end stop_at_rparen : bool) : P SelectStmt :=
  let* start := expect_keyword KwSelect in
  let* distinct := match_keyword KwDistinct in
  let* items := comma_list parse_select_item in
  let* f := match_keyword KwFrom in
  let* from := if f then smap Some (parse_from_item stop_at_rparen) else sret None in
  let* joins := parse_joins (S (length tokens)) stop_at_rparen [] in
  let* w := match_keyword KwWhere in
  let* where_clause := if w then smap Some parse_expr else sret None in
  let* group_by := parse_group_by in
  let* having_clause := parse_having in
  let* order_by := parse_order_by in
  let* lo := parse_limit_offset in
  let* k := peek_kind in
  let* _ :=
    if stop_at_rparen && (bool_decide (k = TPunct RParen) || bool_decide (k = TKeyword KwUnion))
    then sret tt
    else if expect_end then expect_eof else sret tt in
  let* end_ := last_span start in
  sret (mkSelectStmt None distinct items from joins where_clause group_by having_clause order_by
          lo.1 lo.2 None (merge_span start end_)).
End knot.

(** The knot: every round consumes a token before it calls the next one. *)
Record parsers : Type := mkParsers {
  p_expr : Prec -> P Expr;
  p_select : bool -> bool -> P SelectStmt }.

Fixpoint parsers_at (fuel : nat) : parsers :=
  match fuel with
  | O => mkParsers (fun _ => spanic) (fun _ _ => spanic)
  | S fuel' =>
      let r := parsers_at fuel' in
      mkParsers (parse_expr_prec_body (p_expr r) (p_select r))
                (parse_select_inner_body (p_expr r) (p_select r))
  end.

Definition parse_fuel : nat := S (length tokens).
Definition parse_expr_prec : Prec -> P Expr := p_expr (parsers_at parse_fuel).
Definition parse_select_inner : bool -> bool -> P SelectStmt := p_select (parsers_at parse_fuel).
End parser.
