(* ===== verification/Statements.v ===== *)
(** * Statements (crates/noedb-parser/src: select.rs, dml.rs, ddl.rs, prepare.rs,
      session.rs, txn.rs, analyze.rs, parser.rs, lib.rs) *)

From S2P Require Import Prelude Text Float64 Tokens Lexer Ast Parser.

Local Abbreviation P := (SM nat ParseError).

Section statements.
Context (src : bytes) (tokens : list SpannedToken).

Local Abbreviation peek_kind := (peek_kind tokens).
Local Abbreviation bump_token := (bump_token tokens).
Local Abbreviation match_keyword := (match_keyword tokens).
Local Abbreviation expect_keyword := (expect_keyword tokens).
Local Abbreviation expect_punct := (expect_punct tokens).
Local Abbreviation expect_eof := (expect_eof tokens).
Local Abbreviation parse_ident := (parse_ident src tokens).
Local Abbreviation prev_span := (prev_span tokens).
Local Abbreviation at_punct := (at_punct tokens).
Local Abbreviation comma_list := (comma_list tokens).

Definition p_parse_expr : P Expr := parse_expr_prec src tokens PrOr.
Local Abbreviation parse_expr := p_parse_expr.

(** ** Queries *)

Definition parse_select_query : P SelectStmt := parse_select_inner src tokens false false.

Fixpoint parse_compound_chain (fuel : nat) : P (option CompoundSelect) :=
  match fuel with
  | O => spanic
  | S fuel' =>
      let* k := peek_kind in
      let op := match k with
                | TKeyword KwUnion => Some SUnion
                | TKeyword KwIntersect => Some SIntersect
                | TKeyword KwExcept => Some SExcept
                | _ => None
                end in
      match op with
      | None => sret None
      | Some op =>
          let* _ := bump_token in
          let* all := match_keyword KwAll in
          let* q := parse_select_query in
          let* c := parse_compound_chain fuel' in
          sret (Some (mkCompoundSelect op all (set_compound c q)))
      end
  end.

Definition parse_with : P (option WithClause) :=
  parse_optional_with src tokens (parse_select_inner src tokens).

Definition parse_select : P SelectStmt :=
  let* with_clause := parse_with in
  let* stmt := parse_select_query in
  let* c := parse_compound_chain (S (length tokens)) in
  let* _ := expect_eof in
  sret (set_compound c (set_with with_clause stmt)).

(** ** INSERT, UPDATE, DELETE *)

Definition parse_ident_list : P (list Ident) := comma_list parse_ident.

(** [expect_punct(LParen)], a comma list, [expect_punct(RParen)] *)
Definition parse_row : P (list Expr) :=
  let* _ := expect_punct LParen in
  let* row := comma_list parse_expr in
  let* _ := expect_punct RParen in
  sret row.

Definition parse_insert : P InsertStmt :=
  let* start := expect_keyword KwInsert in
  let* _ := expect_keyword KwInto in
  let* table := parse_ident in
  let* lp := at_punct LParen in
  let* columns :=
    if lp then
      let* _ := bump_token in
      let* cols := parse_ident_list in
      let* _ := expect_punct RParen in
      sret (Some cols)
    else sret None in
  let* _ := expect_keyword KwValues in
  let* values := comma_list parse_row in
  let* _ := expect_eof in
  let* end_ := prev_span in
  sret (mkInsertStmt table columns values (merge_span start end_)).

Definition parse_assignment : P (Ident * Expr) :=
  let* col := parse_ident in
  let* k := peek_kind in
  match k with
  | TOp _ =>
      let* op := bump_token in
      if bool_decide (tok_kind op = TOp OpEq) then
        let* val := parse_expr in
        sret (col, val)
      else serr (UnexpectedToken (tok_span op) "=")
  | _ => unexpected tokens "= in SET clause"
  end.

Definition parse_where : P (option Expr) :=
  let* w := match_keyword KwWhere in
  if w then smap Some parse_expr else sret None.

Definition parse_update : P UpdateStmt :=
  let* start := expect_keyword KwUpdate in
  let* table := parse_ident in
  let* _ := expect_keyword KwSet in
  let* assignments := comma_list parse_assignment in
  let* where_clause := parse_where in
  let* _ := expect_eof in
  let* end_ := prev_span in
  sret (mkUpdateStmt table assignments where_clause (merge_span start end_)).

Definition parse_delete : P DeleteStmt :=
  let* start := expect_keyword KwDelete in
  let* _ := expect_keyword KwFrom in
  let* table := parse_ident in
  let* where_clause := parse_where in
  let* _ := expect_eof in
  let* end_ := prev_span in
  sret (mkDeleteStmt table where_clause (merge_span start end_)).

(** ** CREATE, ALTER, DROP *)

(** [p.match_keyword(k1) && p.match_keyword(k2)] *)
Definition match_two (k1 k2 : Keyword) : P bool :=
  let* a := match_keyword k1 in
  if a then match_keyword k2 else sret false.

Fixpoint column_flags (fuel : nat) (not_null primary_key unique : bool) : P (bool * bool * bool) :=
  match fuel with
  | O => spanic
  | S fuel' =>
      let* nn := match_two KwNot KwNull in
      if nn then column_flags fuel' true primary_key unique
      else
      let* pk := match_two KwPrimary KwKey in
      if pk then column_flags fuel' true true unique
      else
      let* u := match_keyword KwUnique in
      if u then column_flags fuel' not_null primary_key true
      else sret (not_null, primary_key, unique)
  end.

Definition parse_column_def : P ColumnDef :=
  let* start := peek_span tokens in
  let* name := parse_ident in
  let* data_type := parse_sql_type src tokens in
  let* f := column_flags (S (length tokens)) false false false in
  let* end_ := prev_span in
  sret (mkColumnDef name data_type f.1.1 f.1.2 f.2 (merge_span start end_)).

(** One element of the list of CREATE TABLE: columns of the key or a column *)
Definition parse_table_element : P (list Ident + ColumnDef) :=
  let* pk := match_keyword KwPrimary in
  if pk then
    let* _ := expect_keyword KwKey in
    let* _ := expect_punct LParen in
    let* cols := parse_ident_list in
    let* _ := expect_punct RParen in
    sret (inl cols)
  else smap inr parse_column_def.

Definition element_columns (es : list (list Ident + ColumnDef)) : list ColumnDef :=
  omap (fun e => match e with inr c => Some c | inl _ => None end) es.
Definition element_keys (es : list (list Ident + ColumnDef)) : list Ident :=
  concat (map (fun e => match e with inl k => k | inr _ => [] end) es).

Definition parse_create_table (start : Span) : P CreateTableStmt :=
  let* i := match_keyword KwIf in
  let* if_not_exists :=
    if i then
      let* _ := expect_keyword KwNot in
      let* _ := expect_keyword KwExists in
      sret true
    else sret false in
  let* name := parse_ident in
  let* _ := expect_punct LParen in
  let* es := comma_list parse_table_element in
  let* _ := expect_punct RParen in
  let* _ := expect_eof in
  let* end_ := prev_span in
  sret (mkCreateTableStmt name if_not_exists (element_columns es) (element_keys es) (merge_span start end_)).

Definition parse_create_index (start : Span) : P CreateIndexStmt :=
  let* name := parse_ident in
  let* _ := expect_keyword KwOn in
  let* table := parse_ident in
  let* _ := expect_punct LParen in
  let* columns := parse_ident_list in
  let* _ := expect_punct RParen in
  let* _ := expect_eof in
  let* end_ := prev_span in
  sret (mkCreateIndexStmt name table columns (merge_span start end_)).

Definition parse_create_policy (start : Span) : P CreatePolicyStmt :=
  let* name := parse_ident in
  let* _ := expect_keyword KwOn in
  let* table := parse_ident in
  let* _ := expect_keyword KwUsing in
  let* _ := expect_punct LParen in
  let* using_expr := parse_expr in
  let* _ := expect_punct RParen in
  let* _ := expect_eof in
  let* end_ := prev_span in
  sret (mkCreatePolicyStmt name table using_expr (merge_span start end_)).

Definition parse_create : P Statement :=
  let* start := expect_keyword KwCreate in
  let* t := match_keyword KwTable in
  if t then smap SCreateTable (parse_create_table start)
  else
  let* i := match_keyword KwIndex in
  if i then smap SCreateIndex (parse_create_index start)
  else
  let* p := match_keyword KwPolicy in
  if p then smap SCreatePolicy (parse_create_policy start)
  else unexpected tokens "TABLE, INDEX, or POLICY after CREATE".

Definition parse_alter_table : P Statement :=
  let* start := expect_keyword KwAlter in
  let* _ := expect_keyword KwTable in
  let* table := parse_ident in
  let* en := match_keyword KwEnable in
  if en then
    let* _ := expect_keyword KwRow in
    let* _ := expect_keyword KwLevel in
    let* _ := expect_keyword KwSecurity in
    let* _ := expect_eof in
    let* end_ := prev_span in
    sret (SEnableRls (mkEnableRlsStmt table (merge_span start end_)))
  else
  let* ad := match_keyword KwAdd in
  if ad then
    let* _ := match_keyword KwColumn in
    let* column := parse_column_def in
    let* _ := expect_eof in
    let* end_ := prev_span in
    sret (SAlterTable (mkAlterTableStmt table (AddColumn column) (merge_span start end_)))
  else unexpected tokens "ENABLE ROW LEVEL SECURITY or ADD COLUMN after ALTER TABLE".

Definition parse_drop_table : P DropTableStmt :=
  let* start := expect_keyword KwDrop in
  let* _ := expect_keyword KwTable in
  let* name := parse_ident in
  let* _ := expect_eof in
  sret (mkDropTableStmt name (merge_span start (id_span name))).

(** ** EXECUTE, SET ROLE, transactions, ANALYZE *)

Definition parse_execute : P Statement :=
  let* start := expect_keyword KwExecute in
  let* name := parse_ident in
  let* lp := at_punct LParen in
  let* params :=
    if lp then
      let* _ := bump_token in
      let* empty := at_punct RParen in
      let* ps := if negb empty then comma_list (parse_literal tokens) else sret [] in
      let* _ := expect_punct RParen in
      sret ps
    else sret [] in
  let* _ := expect_eof in
  let* end_ := prev_span in
  sret (SExecute (mkExecuteStmt name params (merge_span start end_))).

Definition parse_role_literal : P bytes :=
  let* k := peek_kind in
  match k with
  | TString s => let* _ := bump_token in sret s
  | TIdent | TQuotedIdent _ => smap id_value parse_ident
  | _ => unexpected tokens "role name"
  end.

Definition parse_set : P Statement :=
  let* start := expect_keyword KwSet in
  let* _ := expect_keyword KwRole in
  let* role := parse_role_literal in
  let* _ := expect_eof in
  let* end_ := prev_span in
  sret (SSetRole (mkSetRoleStmt role (merge_span start end_))).

(** [parse_begin], [parse_commit] and [parse_rollback] *)
Definition parse_txn (kw : Keyword) (mk : Span -> Statement) : P Statement :=
  let* start := expect_keyword kw in
  let* _ := expect_eof in
  let* end_ := prev_span in
  sret (mk (merge_span start end_)).

Definition parse_analyze : P Statement :=
  let* start := expect_keyword KwAnalyze in
  let* _ := expect_keyword KwTable in
  let* table := parse_ident in
  let* _ := expect_eof in
  sret (SAnalyzeTable (mkAnalyzeTableStmt table (merge_span start (id_span table)))).

(** ** Dispatch *)

Definition parse_prepare (dispatch : P Statement) : P Statement :=
  let* start := expect_keyword KwPrepare in
  let* name := parse_ident in
  let* _ := expect_keyword KwAs in
  let* inner := dispatch in
  let* _ := expect_eof in
  let* end_ := prev_span in
  sret (SPrepare name inner (merge_span start end_)).

Fixpoint dispatch_statement (fuel : nat) : P Statement :=
  match fuel with
  | O => spanic
  | S fuel' =>
      let* k := peek_kind in
      match k with
      | TKeyword (KwSelect | KwWith) => smap SSelect parse_select
      | TKeyword KwInsert => smap SInsert parse_insert
      | TKeyword KwUpdate => smap SUpdate parse_update
      | TKeyword KwDelete => smap SDelete parse_delete
      | TKeyword KwCreate => parse_create
      | TKeyword KwDrop => smap SDropTable parse_drop_table
      | TKeyword KwAlter => parse_alter_table
      | TKeyword KwAnalyze => parse_analyze
      | TKeyword KwPrepare => parse_prepare (dispatch_statement fuel')
      | TKeyword KwExecute => parse_execute
      | TKeyword KwSet => parse_set
      | TKeyword KwBegin => parse_txn KwBegin SBeginTxn
      | TKeyword KwCommit => parse_txn KwCommit SCommitTxn
      | TKeyword KwRollback => parse_txn KwRollback SRollbackTxn
      | _ => unexpected tokens "SQL statement"
      end
  end.

(** Skip to the token after the next [;], or to the end. *)
Fixpoint recover_to_semicolon (fuel : nat) : P unit :=
  match fuel with
  | O => spanic
  | S fuel' =>
      let* k := peek_kind in
      if bool_decide (k = TEof) then sret tt
      else
        let* _ := bump_token in
        if bool_decide (k = TPunct Semicolon) then sret tt else recover_to_semicolon fuel'
  end.

(** [parse_statement_inner]: the result, and the position after recovery *)
Definition parse_statement_inner : P Statement := fun pos =>
  match dispatch_statement (S (length tokens)) pos with
  | (Err e, pos') =>
      match recover_to_semicolon (S (length tokens)) pos' with
      | (Panic, pos'') => (Panic, pos'')
      | (_, pos'') => (Err e, pos'')
      end
  | r => r
  end.
End statements.

(** [Parser::parse_statement] and [noedb_parser::parse] *)
Definition parse_statement `{Unicode} (src : bytes) : outcome ParseError Statement :=
  let? tokens := map_err PLex (tokenize src) in
  fst (parse_statement_inner src tokens 0%nat).
Definition parse `{Unicode} (src : bytes) : outcome ParseError Statement := parse_statement src.
