(* ===== verification/ParserTotal.v ===== *)
(** * Totality of the parser

    [keeps lo m]: started at a token from [lo] on, [m] does not panic, and where
    it succeeds it stands at a token again and has not moved back; [consumes]
    adds that it has moved on.  A call after a consumed token only has to be
    fine from [S lo] on, which is what makes the recursion end. *)

From S2P Require Import Prelude Text Float64 Tokens Lexer LexerSpec Ast Parser Statements.

Section total.
Context (src : bytes) (tokens : list SpannedToken).
Context (Heof : exists t, last tokens = Some t /\ tok_kind t = TEof).

Local Abbreviation P := (SM nat ParseError).
Local Abbreviation run_to := (run_with (fun pos => (pos < length tokens)%nat)).

Definition keeps {A} (lo : nat) (m : P A) : Prop := forall pos,
  (lo <= pos < length tokens)%nat ->
  run_to m pos (fun _ pos' => (pos <= pos' < length tokens)%nat).
Definition consumes {A} (lo : nat) (m : P A) : Prop := forall pos,
  (lo <= pos < length tokens)%nat ->
  run_to m pos (fun _ pos' => (pos < pos' < length tokens)%nat).

Lemma consumes_keeps {A} lo (m : P A) : consumes lo m -> keeps lo m.
Proof. intros Hm pos Hp. eapply run_mono; [by apply Hm|]. simpl. lia. Qed.
Lemma keeps_mono {A} lo lo' (m : P A) : (lo <= lo')%nat -> keeps lo m -> keeps lo' m.
Proof. intros Hl Hm pos Hp. apply Hm. lia. Qed.
Lemma consumes_mono {A} lo lo' (m : P A) : (lo <= lo')%nat -> consumes lo m -> consumes lo' m.
Proof. intros Hl Hm pos Hp. apply Hm. lia. Qed.

Lemma keeps_bind {A B} lo (m : P A) (k : A -> P B) :
  keeps lo m -> (forall a, keeps lo (k a)) -> keeps lo (sbind m k).
Proof.
  intros Hm Hk pos Hp. apply run_bind. eapply run_mono; [by apply Hm|]. intros a p Hp'. simpl in Hp'.
  eapply run_mono; [apply Hk; lia|]. simpl. lia.
Qed.
Lemma consumes_bind {A B} lo (m : P A) (k : A -> P B) :
  consumes lo m -> (forall a, keeps (S lo) (k a)) -> consumes lo (sbind m k).
Proof.
  intros Hm Hk pos Hp. apply run_bind. eapply run_mono; [by apply Hm|]. intros a p Hp'. simpl in Hp'.
  eapply run_mono; [apply Hk; lia|]. simpl. lia.
Qed.
Lemma consumes_bind_r {A B} lo (m : P A) (k : A -> P B) :
  keeps lo m -> (forall a, consumes lo (k a)) -> consumes lo (sbind m k).
Proof.
  intros Hm Hk pos Hp. apply run_bind. eapply run_mono; [by apply Hm|]. intros a p Hp'. simpl in Hp'.
  eapply run_mono; [apply Hk; lia|]. simpl. lia.
Qed.
Lemma keeps_map {A B} lo (f : A -> B) (m : P A) : keeps lo m -> keeps lo (smap f m).
Proof. intros Hm pos Hp. apply run_map. by apply Hm. Qed.
Lemma consumes_map {A B} lo (f : A -> B) (m : P A) : consumes lo m -> consumes lo (smap f m).
Proof. intros Hm pos Hp. apply run_map. by apply Hm. Qed.
Lemma keeps_ret {A} lo (a : A) : keeps lo (sret a).
Proof. intros pos Hp. apply run_ret. lia. Qed.
Lemma keeps_err {A} lo (e : ParseError) : keeps (A:=A) lo (serr e).
Proof. intros pos Hp. unfold run_with. simpl. lia. Qed.
Lemma consumes_err {A} lo (e : ParseError) : consumes (A:=A) lo (serr e).
Proof. intros pos Hp. unfold run_with. simpl. lia. Qed.
Lemma keeps_get lo : keeps lo sget.
Proof. intros pos Hp. apply run_get. lia. Qed.

(** ** Navigation *)

Lemma run_peek_tok pos (Q : SpannedToken -> nat -> Prop) :
  (pos < length tokens)%nat -> (forall t, tokens !! pos = Some t -> Q t pos) -> run_to (peek tokens) pos Q.
Proof.
  intros Hp HQ. destruct (lookup_lt_is_Some_2 tokens pos Hp) as [t Ht].
  unfold run_with, peek, token_at. rewrite Ht. by apply HQ.
Qed.

Lemma eof_last pos t : tokens !! pos = Some t -> tok_kind t <> TEof -> (S pos < length tokens)%nat.
Proof.
  intros Ht Hk. destruct Heof as (l & Hl & He). rewrite last_lookup in Hl.
  pose proof (lookup_lt_Some _ _ _ Ht). destruct (decide (S pos = length tokens)) as [E|]; [|lia].
  rewrite <- E in Hl. simpl in Hl. congruence.
Qed.

Lemma run_bump_tok pos (Q : SpannedToken -> nat -> Prop) :
  (pos < length tokens)%nat ->
  (forall t, tokens !! pos = Some t ->
     if bool_decide (tok_kind t = TEof) then Q t pos else (S pos < length tokens)%nat -> Q t (S pos)) ->
  run_to (bump_token tokens) pos Q.
Proof.
  intros Hp HQ. apply run_bind. apply run_peek_tok; [done|]. intros t Ht. specialize (HQ t Ht).
  apply run_bind. case_bool_decide as Hk; [by apply run_ret, run_ret|]. apply run_modify, run_ret.
  apply HQ. by eapply eof_last.
Qed.

Lemma keeps_peek lo : keeps lo (peek tokens).
Proof. intros pos Hp. apply run_peek_tok; [lia|]. intros. lia. Qed.
Lemma keeps_peek_ahead lo n : keeps lo (peek_ahead tokens n).
Proof. intros pos Hp. unfold run_with, peek_ahead. lia. Qed.
Lemma keeps_prev_span lo : keeps lo (prev_span tokens).
Proof.
  intros pos Hp. unfold prev_span.
  destruct (lookup_lt_is_Some_2 tokens (pos - 1)) as [t Ht]; [lia|].
  unfold run_with, smap, sbind, token_at. rewrite Ht. simpl. lia.
Qed.
Lemma keeps_bump lo : keeps lo (bump_token tokens).
Proof. intros pos Hp. apply run_bump_tok; [lia|]. intros t Ht. case_bool_decide; lia. Qed.
Lemma keeps_peek_kind lo : keeps lo (peek_kind tokens).
Proof. apply keeps_map, keeps_peek. Qed.
Lemma keeps_peek_span lo : keeps lo (peek_span tokens).
Proof. apply keeps_map, keeps_peek. Qed.
Lemma keeps_unexpected {A} lo c : keeps (A:=A) lo (unexpected tokens c).
Proof. apply keeps_bind; [apply keeps_peek_span|]. intros. apply keeps_err. Qed.
Lemma consumes_unexpected {A} lo c : consumes (A:=A) lo (unexpected tokens c).
Proof. apply consumes_bind_r; [apply keeps_peek_span|]. intros. apply consumes_err. Qed.

(** A token that is looked at and accepted only if it is not the last one. *)
Lemma consumes_accept {A} lo (f : SpannedToken -> P A) :
  (forall t, tok_kind t = TEof -> exists e, f t = serr e) -> (forall t, keeps lo (f t)) ->
  consumes lo (sbind (bump_token tokens) f).
Proof.
  intros He Hk pos Hp. apply run_bind. apply run_bump_tok; [lia|]. intros t Ht.
  case_bool_decide as Hkind.
  - destruct (He t Hkind) as [e ->]. unfold run_with. simpl. lia.
  - intros Hlt. eapply run_mono; [apply Hk; lia|]. simpl. lia.
Qed.

Lemma consumes_expect_keyword lo kw : consumes lo (expect_keyword tokens kw).
Proof.
  apply consumes_accept.
  - intros t ->. eauto.
  - intros t. case_bool_decide; [apply keeps_ret|apply keeps_err].
Qed.
Lemma consumes_expect_punct lo p : consumes lo (expect_punct tokens p).
Proof.
  apply consumes_accept.
  - intros t ->. eauto.
  - intros t. case_bool_decide; [apply keeps_ret|apply keeps_err].
Qed.
Lemma consumes_parse_ident lo : consumes lo (parse_ident src tokens).
Proof.
  apply consumes_accept.
  - intros t ->. eauto.
  - intros t. repeat case_match; first [apply keeps_ret|apply keeps_err].
Qed.
Lemma keeps_expect_eof lo : keeps lo (expect_eof tokens).
Proof.
  apply keeps_bind; [apply keeps_peek_kind|]. intros k. case_bool_decide; [apply keeps_ret|apply keeps_unexpected].
Qed.

(** [match_keyword] consumes exactly if it answers [true]. *)
Lemma run_match_keyword kw pos (Q : bool -> nat -> Prop) :
  (pos < length tokens)%nat -> Q false pos ->
  ((S pos < length tokens)%nat -> Q true (S pos)) -> run_to (match_keyword tokens kw) pos Q.
Proof.
  intros Hp Hf Ht. apply run_bind, run_map. apply run_peek_tok; [done|]. intros t Hl.
  case_bool_decide as Hk; [|by apply run_ret]. apply run_bind. apply run_bump_tok; [done|].
  intros t' Hl'. simplify_eq. rewrite bool_decide_eq_false_2 by (by rewrite Hk). intros. by apply run_ret, Ht.
Qed.
Lemma keeps_match_keyword lo kw : keeps lo (match_keyword tokens kw).
Proof. intros pos Hp. apply run_match_keyword; lia. Qed.

Lemma keeps_if_match {A} lo kw (m1 m2 : P A) :
  keeps (S lo) m1 -> keeps lo m2 ->
  keeps lo (let* b := match_keyword tokens kw in if b then m1 else m2).
Proof.
  intros H1 H2 pos Hp. apply run_bind. apply run_match_keyword; [lia|by apply H2|].
  intros. eapply run_mono; [apply H1; lia|]. simpl. lia.
Qed.
Lemma consumes_if_match {A} lo kw (m1 m2 : P A) :
  keeps (S lo) m1 -> consumes lo m2 ->
  consumes lo (let* b := match_keyword tokens kw in if b then m1 else m2).
Proof.
  intros H1 H2 pos Hp. apply run_bind. apply run_match_keyword; [lia|by apply H2|].
  intros. eapply run_mono; [apply H1; lia|]. simpl. lia.
Qed.

Lemma keeps_at_punct lo p : keeps lo (at_punct tokens p).
Proof. apply keeps_map, keeps_peek_kind. Qed.
Lemma keeps_at_keyword lo kw : keeps lo (at_keyword tokens kw).
Proof. apply keeps_map, keeps_peek_kind. Qed.

(** ** Comma lists *)

Lemma comma_loop_consumes {A} fuel lo (item : P A) out :
  (length tokens < lo + fuel)%nat -> consumes lo item -> consumes lo (comma_loop tokens fuel item out).
Proof.
  revert lo out. induction fuel as [|fuel IH]; intros lo out Hf Hi.
  { intros pos Hp. lia. }
  cbn [comma_loop]. apply consumes_bind; [done|]. intros x.
  apply keeps_bind; [apply keeps_at_punct|]. intros []; [|apply keeps_ret].
  apply keeps_bind; [apply keeps_bump|]. intros _. apply consumes_keeps, IH; [lia|].
  eapply consumes_mono, Hi. lia.
Qed.
Lemma consumes_comma_list {A} lo (item : P A) : consumes lo item -> consumes lo (comma_list tokens item).
Proof. apply comma_loop_consumes. lia. Qed.

(** ** Automation: walk a parser's code *)

Hint Resolve keeps_ret keeps_err keeps_get keeps_peek keeps_peek_ahead keeps_prev_span keeps_bump
  keeps_peek_kind keeps_peek_span keeps_unexpected keeps_expect_eof keeps_match_keyword keeps_at_punct
  keeps_at_keyword consumes_err consumes_unexpected consumes_expect_keyword consumes_expect_punct
  consumes_parse_ident consumes_comma_list : parsing.

Ltac keep := repeat lazymatch goal with
  | |- keeps _ (sbind _ _) => apply keeps_bind; [|intros ?]
  | |- keeps _ (smap _ _) => apply keeps_map
  | |- keeps _ (if ?b then _ else _) => destruct b
  | |- keeps _ (match ?x with _ => _ end) => destruct x
  | |- keeps _ _ => solve [auto with parsing | apply consumes_keeps; auto with parsing]
  end.

(** The first step consumes. *)
Ltac consume := lazymatch goal with
  | |- consumes _ (sbind _ _) => apply consumes_bind; [solve [auto with parsing]|intros ?; keep]
  end.

Lemma consumes_parse_literal lo : consumes lo (parse_literal tokens).
Proof.
  apply consumes_accept.
  - intros t E. unfold literal_of. rewrite E. eauto.
  - intros t. keep.
Qed.
Lemma keeps_type_length lo : keeps lo (parse_type_length tokens).
Proof. unfold parse_type_length. keep. Qed.
Hint Resolve consumes_parse_literal keeps_type_length : parsing.
Lemma consumes_sql_type lo : consumes lo (parse_sql_type src tokens).
Proof. unfold parse_sql_type. consume. Qed.
Hint Resolve consumes_sql_type : parsing.

(** ** The parsers of one round, given those of the next *)

Section round.
Context (rec_expr : Prec -> P Expr) (rec_select : bool -> bool -> P SelectStmt) (lo : nat).
Context (Hexpr : forall min, consumes lo (rec_expr min)).
Context (Hsel : forall a b, consumes lo (rec_select a b)).

Lemma rec_expr_S min : consumes (S lo) (rec_expr min).
Proof. eapply consumes_mono, Hexpr. lia. Qed.
Lemma rec_select_S a b : consumes (S lo) (rec_select a b).
Proof. eapply consumes_mono, Hsel. lia. Qed.
Lemma parse_expr_lo : consumes lo (parse_expr rec_expr).
Proof. apply Hexpr. Qed.
Lemma parse_expr_S : consumes (S lo) (parse_expr rec_expr).
Proof. apply rec_expr_S. Qed.
Hint Resolve Hexpr Hsel rec_expr_S rec_select_S parse_expr_lo parse_expr_S : parsing.

Lemma keeps_cte_body : keeps (S lo) (parse_cte_body tokens rec_select).
Proof. unfold parse_cte_body. keep. Qed.
Hint Resolve keeps_cte_body : parsing.
Lemma consumes_cte start : consumes lo (parse_cte src tokens rec_select start).
Proof. unfold parse_cte. consume. Qed.
Hint Resolve consumes_cte : parsing.
Lemma keeps_last_span l start : keeps l (last_span tokens start).
Proof. unfold last_span. keep. Qed.
Hint Resolve keeps_last_span : parsing.
Lemma keeps_optional_with : keeps lo (parse_optional_with src tokens rec_select).
Proof. unfold parse_optional_with. keep. Qed.
Hint Resolve keeps_optional_with : parsing.
Lemma consumes_subquery : consumes lo (parse_select_subquery src tokens rec_select).
Proof.
  unfold parse_select_subquery. apply consumes_bind_r; [auto with parsing|]. intros w. consume.
Qed.
Hint Resolve consumes_subquery : parsing.

Lemma keeps_frame_bound l : keeps l (parse_frame_bound tokens).
Proof. unfold parse_frame_bound, parse_frame_offset. keep. Qed.
Hint Resolve keeps_frame_bound : parsing.
Lemma keeps_window_frame l : keeps l (parse_window_frame tokens).
Proof. unfold parse_window_frame. keep. Qed.
Hint Resolve keeps_window_frame : parsing.
Lemma consumes_order_key : consumes lo (parse_order_key tokens rec_expr).
Proof. unfold parse_order_key. consume. Qed.
Hint Resolve consumes_order_key : parsing.
Lemma consumes_comma_exprs : consumes lo (parse_comma_exprs tokens rec_expr).
Proof. apply consumes_comma_list, parse_expr_lo. Qed.
Hint Resolve consumes_comma_exprs : parsing.
Lemma keeps_window_spec : keeps lo (parse_window_spec tokens rec_expr).
Proof. unfold parse_window_spec. keep. Qed.
Hint Resolve keeps_window_spec : parsing.

Lemma keeps_column_from first l : keeps l (parse_column_from_ident src tokens first).
Proof. unfold parse_column_from_ident. keep. Qed.
Hint Resolve keeps_column_from : parsing.
Lemma keeps_args : keeps lo (args_until_rparen tokens rec_expr).
Proof. unfold args_until_rparen. keep. Qed.
Hint Resolve keeps_args : parsing.
Lemma keeps_exists negated start : keeps lo (parse_exists src tokens rec_select negated start).
Proof. unfold parse_exists. keep. Qed.
Lemma keeps_cast : keeps lo (parse_cast src tokens rec_expr).
Proof. unfold parse_cast. keep. Qed.
Lemma keeps_in left negated : keeps lo (parse_in src tokens rec_expr rec_select left negated).
Proof. unfold parse_in, parse_in_rhs. keep. Qed.
Lemma keeps_between left negated : keeps lo (parse_between tokens rec_expr left negated).
Proof. unfold parse_between. keep. Qed.
Lemma keeps_over left : keeps lo (parse_over tokens rec_expr left).
Proof. unfold parse_over. keep. Qed.
Lemma consumes_right op left min : consumes lo (parse_right rec_expr op left min).
Proof. unfold parse_right. consume. Qed.
Hint Resolve keeps_exists keeps_cast keeps_in keeps_between keeps_over consumes_right : parsing.
End round.

(** ** Prefixes: the first token decides *)

(** [bump] at a token of a known kind other than the last one *)
Lemma run_bump_kind pos t (Q : SpannedToken -> nat -> Prop) :
  tokens !! pos = Some t -> tok_kind t <> TEof ->
  ((S pos < length tokens)%nat -> Q t (S pos)) -> run_to (bump_token tokens) pos Q.
Proof.
  intros Ht Hk HQ. pose proof (lookup_lt_Some _ _ _ Ht). apply run_bump_tok; [done|].
  intros t' Ht'. simplify_eq. by rewrite bool_decide_eq_false_2.
Qed.

Lemma run_from {A} lo pos (m : P A) :
  keeps (S lo) m -> (lo <= pos)%nat -> (S pos < length tokens)%nat ->
  run_to m (S pos) (fun _ pos' => (pos < pos' < length tokens)%nat).
Proof. intros Hm Hl Hp. eapply run_mono; [apply Hm; lia|]. simpl. lia. Qed.

Section prefix.
Context (rec_expr : Prec -> P Expr) (rec_select : bool -> bool -> P SelectStmt) (lo : nat).
Context (Hexpr : forall min, consumes (S lo) (rec_expr min)).
Context (Hsel : forall a b, consumes (S lo) (rec_select a b)).

Hint Resolve keeps_args keeps_column_from consumes_subquery keeps_cast keeps_exists : parsing.

Lemma consumes_ident_expr : consumes lo (parse_ident_expr src tokens rec_expr).
Proof.
  unfold parse_ident_expr. apply consumes_bind_r; [auto with parsing|]. intros s. consume.
Qed.

Lemma consumes_atom : consumes lo (parse_atom src tokens rec_expr).
Proof.
  intros pos Hp. apply run_bind. apply run_bump_tok; [lia|]. intros t Ht.
  case_bool_decide as Hk.
  { unfold literal_of. rewrite Hk. unfold run_with. simpl. lia. }
  intros Hlt. destruct (literal_of t); [apply run_ret; lia|].
  assert (run_to (let* _ := smodify (fun p => p - 1)%nat in parse_ident_expr src tokens rec_expr) (S pos)
    (fun _ pos' => (pos < pos' < length tokens)%nat)) as Hid.
  { apply run_bind, run_modify. rewrite Nat.sub_succ, Nat.sub_0_r. by apply consumes_ident_expr. }
  destruct (tok_kind t); try exact Hid; try done.
  destruct p; try done. apply run_ret. lia.
Qed.

Lemma consumes_parenthesized pos t :
  tokens !! pos = Some t -> tok_kind t = TPunct LParen -> (lo <= pos)%nat ->
  run_to (parse_parenthesized src tokens rec_expr rec_select) pos
    (fun _ pos' => (pos < pos' < length tokens)%nat).
Proof.
  intros Ht Hk Hl. unfold parse_parenthesized. apply run_bind, run_map.
  eapply run_bump_kind; [done|congruence|]. intros Hlt. apply (run_from lo); [|done|done].
  assert (consumes (S lo) (parse_expr rec_expr)) by (apply Hexpr). keep.
Qed.

Lemma consumes_prefix : consumes lo (parse_prefix src tokens rec_expr rec_select).
Proof.
  unfold parse_prefix. apply consumes_if_match; [by apply keeps_cast|]. intros pos Hp.
  destruct (lookup_lt_is_Some_2 tokens pos) as [t Ht]; [lia|].
  apply run_bind, run_map. apply run_peek_tok; [lia|]. intros t' Ht'. simplify_eq.
  apply run_bind. unfold peek_ahead at 1. unfold run_with at 1.
  match goal with |- run_with _ (if ?b then _ else _) _ _ => destruct b eqn:E1 end.
  { apply andb_true_iff in E1 as [E1%bool_decide_eq_true _]. apply run_bind, run_map.
    eapply run_bump_kind; [done|by rewrite E1|]. intros Hlt. apply (run_from lo); [|lia|done].
    keep. }
  clear E1. apply run_bind, run_match_keyword; [lia| |].
  2: { intros Hlt. apply (run_from lo); [|lia|done]. keep. }
  case_bool_decide as E2.
  { apply run_bind, run_map. eapply run_bump_kind; [done|by rewrite E2|]. intros Hlt.
    apply (run_from lo); [|lia|done]. keep. }
  apply run_bind, run_match_keyword; [lia| |].
  2: { intros Hlt. apply (run_from lo); [|lia|done]. keep. }
  case_bool_decide as E3; [apply (consumes_parenthesized pos t Ht E3); lia|].
  apply run_bind, run_match_keyword; [lia| |].
  2: { intros Hlt. apply (run_from lo); [|lia|done]. keep. }
  pose proof (consumes_atom pos Hp) as Hatom.
  destruct (tok_kind t) eqn:Ek; try exact Hatom.
  apply run_bind. eapply run_bump_kind; [done|congruence|]. intros. apply run_ret. lia.
Qed.
End prefix.

Lemma keeps_not_between {A} lo (m1 m2 : P A) :
  keeps (S lo) m1 -> keeps lo m2 ->
  keeps lo (let* b := match_not_between tokens in if b then m1 else m2).
Proof.
  intros H1 H2 pos Hp. unfold match_not_between. apply run_bind, run_bind.
  apply run_match_keyword; [lia|by apply H2|]. intros Hlt. apply run_match_keyword; [done| |].
  - eapply run_mono; [apply H2; lia|]. simpl. lia.
  - intros. eapply run_mono; [apply H1; lia|]. simpl. lia.
Qed.

Lemma expr_loop_keeps rec_expr rec_select fuel lo min left :
  (length tokens < lo + fuel)%nat ->
  (forall min, consumes lo (rec_expr min)) -> (forall a b, consumes lo (rec_select a b)) ->
  keeps lo (expr_loop src tokens rec_expr rec_select fuel min left).
Proof.
  revert lo left. induction fuel as [|fuel IH]; intros lo left Hf He Hs.
  { intros pos Hp. lia. }
  assert (forall m, keeps (S lo) m ->
    keeps (S lo) (let* e := m in expr_loop src tokens rec_expr rec_select fuel min e)) as Hgo.
  { intros m Hm. apply keeps_bind; [done|]. intros e. apply IH; [lia|..]; intros;
      eapply consumes_mono; [|done| |done]; lia. }
  assert (forall m, consumes lo m ->
    keeps lo (let* e := m in expr_loop src tokens rec_expr rec_select fuel min e)) as Hgo'.
  { intros m Hm. apply consumes_keeps, consumes_bind; [done|]. intros e. apply IH; [lia|..]; intros;
      eapply consumes_mono; [|done| |done]; lia. }
  assert (forall A (m : P A), keeps lo m -> keeps (S lo) m) as Hup by (intros; eapply keeps_mono; [|done]; lia).
  cbn [expr_loop].
  apply keeps_if_match; [apply Hgo; keep|]. do 2 (apply keeps_bind; [auto with parsing|]; intros ?).
  match goal with |- keeps _ (if ?b then _ else _) => destruct b end.
  { apply Hgo'. apply consumes_bind_r; [auto with parsing|]. intros. apply consumes_bind; [auto with parsing|].
    intros. apply Hup. by apply keeps_in. }
  apply keeps_if_match; [apply Hgo, Hup; by apply keeps_in|].
  apply keeps_not_between; [apply Hgo, Hup; by apply keeps_between|].
  apply keeps_if_match; [apply Hgo, Hup; by apply keeps_between|].
  apply keeps_if_match; [apply Hgo, Hup; by apply keeps_over|].
  assert (forall op min, consumes lo (parse_right rec_expr op left min)) as Hr by (intros; by apply consumes_right).
  apply keeps_if_match; [apply Hgo, Hup; by apply consumes_keeps|].
  do 2 (apply keeps_bind; [keep|]; intros []; [apply Hgo'; apply Hr|]).
  apply keeps_bind; [auto with parsing|]. intros k.
  destruct k; try (apply keeps_ret); [|destruct p; try apply keeps_ret].
  - destruct (_ && _); [|destruct (_ && _)]; first [apply keeps_ret|apply Hgo'].
    all: apply consumes_bind_r; [auto with parsing|]; intros; apply Hr.
  - destruct (prec_le _ _); [apply Hgo'|apply keeps_ret].
    apply consumes_bind_r; [auto with parsing|]; intros; apply Hr.
Qed.

(** ** Queries *)

Section select.
Context (rec_expr : Prec -> P Expr) (rec_select : bool -> bool -> P SelectStmt) (lo : nat).
Context (Hexpr : forall min, consumes lo (rec_expr min)).
Context (Hsel : forall a b, consumes lo (rec_select a b)).

Lemma select_expr : consumes lo (parse_expr rec_expr).
Proof. apply Hexpr. Qed.
Lemma select_expr_S : consumes (S lo) (parse_expr rec_expr).
Proof. eapply consumes_mono, Hexpr. lia. Qed.
Hint Resolve select_expr select_expr_S consumes_order_key consumes_comma_exprs : parsing.

Lemma keeps_alias l : keeps l (parse_optional_alias src tokens).
Proof. unfold parse_optional_alias. keep. Qed.
Lemma keeps_table_alias stop l : keeps l (parse_table_alias src tokens stop).
Proof. unfold parse_table_alias. keep. Qed.
Hint Resolve keeps_alias keeps_table_alias : parsing.
Lemma consumes_select_item : consumes lo (parse_select_item src tokens rec_expr).
Proof. unfold parse_select_item. consume. Qed.
Lemma keeps_table_ref stop l : keeps l (parse_table_ref src tokens stop).
Proof. unfold parse_table_ref. keep. Qed.
Hint Resolve consumes_select_item keeps_table_ref : parsing.
Lemma keeps_from_item stop : keeps lo (parse_from_item src tokens rec_select stop).
Proof. unfold parse_from_item. keep. Qed.
Lemma keeps_group_by : keeps lo (parse_group_by tokens rec_expr).
Proof. unfold parse_group_by. keep. Qed.
Lemma keeps_having : keeps lo (parse_having tokens rec_expr).
Proof. unfold parse_having. keep. Qed.
Lemma keeps_order_by : keeps lo (parse_order_by tokens rec_expr).
Proof. unfold parse_order_by. keep. Qed.
Lemma keeps_limit_offset l : keeps l (parse_limit_offset tokens).
Proof. unfold parse_limit_offset, parse_unsigned. keep. Qed.
Lemma consumes_join stop : consumes lo (parse_join src tokens rec_expr stop).
Proof.
  unfold parse_join. apply consumes_bind_r; [auto with parsing|]. intros s.
  apply consumes_bind_r; [auto with parsing|]. intros inner. apply consumes_bind_r; [keep|].
  intros k. apply consumes_bind_r; [auto with parsing|]. intros t. consume.
Qed.
End select.

Lemma keeps_joins rec_expr fuel lo stop joins :
  (length tokens < lo + fuel)%nat -> (forall min, consumes lo (rec_expr min)) ->
  keeps lo (parse_joins src tokens rec_expr fuel stop joins).
Proof.
  revert lo joins. induction fuel as [|fuel IH]; intros lo joins Hf He.
  { intros pos Hp. lia. }
  cbn [parse_joins]. apply keeps_bind; [auto with parsing|]. intros k.
  assert (keeps lo (let* j := parse_join src tokens rec_expr stop in
    parse_joins src tokens rec_expr fuel stop (joins ++ [j]))) as Hj.
  { apply consumes_keeps, consumes_bind; [by apply consumes_join|]. intros j. apply IH; [lia|].
    intros. eapply consumes_mono; [|done]. lia. }
  destruct k as [k| | | | | | | | |]; try apply keeps_ret. destruct k; try apply keeps_ret; exact Hj.
Qed.

Lemma select_body_consumes rec_expr rec_select lo a b :
  (forall min, consumes (S lo) (rec_expr min)) -> (forall a b, consumes (S lo) (rec_select a b)) ->
  consumes lo (parse_select_inner_body src tokens rec_expr rec_select a b).
Proof.
  intros He Hs. unfold parse_select_inner_body. apply consumes_bind; [auto with parsing|]. intros start.
  pose proof (consumes_select_item rec_expr (S lo) He). pose proof (keeps_from_item rec_select (S lo) Hs).
  pose proof (keeps_group_by rec_expr (S lo) He). pose proof (keeps_having rec_expr (S lo) He).
  pose proof (keeps_order_by rec_expr (S lo) He). pose proof (keeps_limit_offset (S lo)).
  assert (consumes (S lo) (parse_expr rec_expr)) by apply He.
  assert (keeps (S lo) (parse_joins src tokens rec_expr (S (length tokens)) b [])).
  { apply keeps_joins; [lia|done]. }
  pose proof (fun l s => keeps_last_span l s). keep.
Qed.

(** The knot: [n] rounds are enough from a position with at most [n] tokens left. *)
Lemma parsers_total n lo :
  (length tokens <= lo + n)%nat ->
  (forall min, consumes lo (p_expr (parsers_at src tokens n) min)) /\
  (forall a b, consumes lo (p_select (parsers_at src tokens n) a b)).
Proof.
  revert lo. induction n as [|n IH]; intros lo Hn.
  { split; intros; intros pos Hp; lia. }
  destruct (IH (S lo)) as [He Hs]; [lia|]. simpl. split.
  - intros min. apply consumes_bind; [by apply consumes_prefix|]. intros e. apply expr_loop_keeps; [lia|done|done].
  - intros a b. by apply select_body_consumes.
Qed.

Lemma consumes_expr_prec lo min : consumes lo (parse_expr_prec src tokens min).
Proof. apply parsers_total. unfold parse_fuel. lia. Qed.
Lemma consumes_select_inner lo a b : consumes lo (parse_select_inner src tokens a b).
Proof. apply parsers_total. unfold parse_fuel. lia. Qed.

(** ** Statements *)

Lemma stmt_expr lo : consumes lo (p_parse_expr src tokens).
Proof. apply consumes_expr_prec. Qed.
Hint Resolve stmt_expr consumes_select_inner keeps_optional_with : parsing.

Lemma keeps_compound fuel lo :
  (length tokens < lo + fuel)%nat -> keeps lo (parse_compound_chain src tokens fuel).
Proof.
  revert lo. induction fuel as [|fuel IH]; intros lo Hf.
  { intros pos Hp. lia. }
  cbn [parse_compound_chain]. apply keeps_bind; [auto with parsing|]. intros k.
  destruct (match k with TKeyword KwUnion => _ | _ => _ end); [|apply keeps_ret].
  do 2 (apply keeps_bind; [auto with parsing|]; intros ?).
  apply consumes_keeps, consumes_bind; [apply consumes_select_inner|]. intros q.
  apply keeps_bind; [apply IH; lia|]. intros c. apply keeps_ret.
Qed.

Lemma keeps_column_flags fuel lo a b c :
  (length tokens < lo + fuel)%nat -> keeps lo (column_flags tokens fuel a b c).
Proof.
  revert lo a b c. induction fuel as [|fuel IH]; intros lo a b c Hf.
  { intros pos Hp. lia. }
  assert (forall k1 k2 (m1 m2 : P (bool * bool * bool)), keeps (S lo) m1 -> keeps lo m2 ->
    keeps lo (let* x := match_two tokens k1 k2 in if x then m1 else m2)) as Htwo.
  { intros k1 k2 m1 m2 H1 H2 pos Hp. unfold match_two. apply run_bind, run_bind.
    apply run_match_keyword; [lia|by apply H2|]. intros Hlt. apply run_match_keyword; [done| |].
    - eapply run_mono; [apply H2; lia|]. simpl. lia.
    - intros. eapply run_mono; [apply H1; lia|]. simpl. lia. }
  cbn [column_flags]. apply Htwo; [apply IH; lia|]. apply Htwo; [apply IH; lia|].
  apply keeps_if_match; [apply IH; lia|apply keeps_ret].
Qed.

Lemma keeps_select lo : keeps lo (parse_select src tokens).
Proof.
  assert (keeps lo (parse_compound_chain src tokens (S (length tokens)))) by (apply keeps_compound; lia).
  unfold parse_select, parse_with, parse_select_query. keep.
Qed.
Lemma consumes_column_def lo : consumes lo (parse_column_def src tokens).
Proof.
  assert (keeps (S lo) (column_flags tokens (S (length tokens)) false false false))
    by (apply keeps_column_flags; lia).
  unfold parse_column_def. apply consumes_bind_r; [auto with parsing|]. intros. consume.
Qed.
Hint Resolve keeps_select consumes_column_def : parsing.
Lemma consumes_table_element lo : consumes lo (parse_table_element src tokens).
Proof.
  unfold parse_table_element, parse_ident_list. apply consumes_if_match; [keep|].
  apply consumes_map; auto with parsing.
Qed.
Lemma consumes_row lo : consumes lo (parse_row src tokens).
Proof. unfold parse_row. consume. Qed.
Lemma consumes_assignment lo : consumes lo (parse_assignment src tokens).
Proof. unfold parse_assignment. consume. Qed.
Lemma keeps_where lo : keeps lo (parse_where src tokens).
Proof. unfold parse_where. keep. Qed.
Lemma consumes_ident_list lo : consumes lo (parse_ident_list src tokens).
Proof. apply consumes_comma_list; auto with parsing. Qed.
Hint Resolve consumes_table_element consumes_row consumes_assignment keeps_where consumes_ident_list : parsing.

Lemma keeps_create lo : keeps lo (parse_create src tokens).
Proof. unfold parse_create, parse_create_table, parse_create_index, parse_create_policy. keep. Qed.
Lemma keeps_alter lo : keeps lo (parse_alter_table src tokens).
Proof. unfold parse_alter_table. keep. Qed.
Lemma keeps_execute lo : keeps lo (parse_execute src tokens).
Proof. unfold parse_execute. keep. Qed.
Hint Resolve keeps_create keeps_alter keeps_execute : parsing.

Lemma keeps_dispatch fuel lo :
  (length tokens < lo + fuel)%nat -> keeps lo (dispatch_statement src tokens fuel).
Proof.
  revert lo. induction fuel as [|fuel IH]; intros lo Hf.
  { intros pos Hp. lia. }
  cbn [dispatch_statement]. apply keeps_bind; [auto with parsing|]. intros k.
  assert (keeps lo (parse_prepare src tokens (dispatch_statement src tokens fuel))) as Hprep.
  { apply consumes_keeps. apply consumes_bind; [auto with parsing|]. intros s.
    assert (keeps (S lo) (dispatch_statement src tokens fuel)) by (apply IH; lia). keep. }
  destruct k as [k| | | | | | | | |]; try (keep; fail). destruct k; try exact Hprep;
    unfold parse_insert, parse_update, parse_delete, parse_drop_table, parse_analyze, parse_set,
      parse_role_literal, parse_txn; keep.
Qed.

Lemma keeps_recover fuel lo :
  (length tokens < lo + fuel)%nat -> keeps lo (recover_to_semicolon tokens fuel).
Proof.
  revert lo. induction fuel as [|fuel IH]; intros lo Hf.
  { intros pos Hp. lia. }
  cbn [recover_to_semicolon]. intros pos Hp. apply run_bind, run_map, run_peek_tok; [lia|]. intros t Ht.
  case_bool_decide as Hk; [apply run_ret; lia|]. apply run_bind. eapply run_bump_kind; [done..|]. intros Hlt.
  case_bool_decide; [apply run_ret; lia|]. eapply run_mono; [apply (IH (S lo)); lia|]. simpl. lia.
Qed.
End total.

Lemma tokenize_eof `{Unicode} src tokens :
  tokenize src = Ok tokens -> exists t, last tokens = Some t /\ tok_kind t = TEof.
Proof.
  unfold tokenize, tokenize_into. intros Ht. inv_ok. eexists. by rewrite last_snoc.
Qed.

(** C32. The parser is total: on every string it returns a statement or an error.  The
    token index never leaves the stream, stepping back in [parse_atom] stays
    behind a consumed token, and every loop and recursive call consumes a token
    first, so that the fuel (one more round than there are tokens) is enough. *)
Theorem parse_total `{Unicode} (cs : list Z) :
  Forall is_char cs -> parse (utf8 cs) <> Panic.
Proof.
  intros Hcs. unfold parse, parse_statement. pose proof (tokenize_no_panic cs Hcs) as Hlex.
  destruct (tokenize (utf8 cs)) as [tokens|e|] eqn:Et; [|done..]. apply tokenize_eof in Et as Heof.
  cbn [map_err obind]. unfold parse_statement_inner.
  assert (0 < length tokens)%nat as Hpos.
  { destruct Heof as (t & Ht & _). by destruct tokens; [|simpl; lia]. }
  pose proof (keeps_dispatch (utf8 cs) tokens Heof (S (length tokens)) 0%nat ltac:(lia) 0%nat ltac:(lia)) as Hd.
  unfold run_with in Hd. destruct (dispatch_statement _ _ _ _) as [[s|e|] p]; [done| |done].
  pose proof (keeps_recover tokens Heof (S (length tokens)) 0%nat ltac:(lia) p ltac:(lia)) as Hr.
  unfold run_with in Hr. destruct (recover_to_semicolon _ _ _) as [[]]; done.
Qed.

Lemma parse_total_witness :
  let _ := ascii_unicode in
  parse (utf8 (map b2z (bs "SELECT a FROM t WHERE a IN ("))) <> Panic /\
  parse (utf8 (map b2z (bs "BEGIN"))) = Ok (SBeginTxn (mkSpan 0 5)).
Proof.
  split; [|vm_compute; reflexivity]. apply (@parse_total ascii_unicode).
  apply bs_utf8. by apply (bool_decide_eq_true_1 _).
Defined.
