(* ===== verification/LexPrint.v ===== *)
(** * The tokens of printed text

    [lexes t text rest]: where [text] stands in the source, followed by [rest],
    the lexer reads exactly the token [t] from it.  One lemma per kind of token,
    and the token list of a text that is put together from such pieces. *)

From S2P Require Import Prelude BTree Text Float64 Tokens Lexer Ast Display.

(** ** The cursor before a known text *)

Section at_text.
Context `{Unicode} (src : bytes).

Definition at_text (pos : nat) (s : bytes) : Prop := drop pos src = s /\ (pos <= length src)%nat.

Lemma at_text_byte pos b r : at_text pos (b :: r) -> src !! pos = Some b.
Proof. intros [Hd _]. by rewrite <- (Nat.add_0_r pos), <- lookup_drop, Hd. Qed.
Lemma at_text_next pos b r : at_text pos (b :: r) -> at_text (S pos) r.
Proof.
  intros Ha. pose proof (lookup_lt_Some _ _ _ (at_text_byte _ _ _ Ha)). destruct Ha as [Hd _].
  split; [|lia]. replace (S pos) with (pos + 1)%nat by lia. by rewrite <- drop_drop, Hd.
Qed.
Lemma at_text_app pos s r : at_text pos (s ++ r) -> at_text (pos + length s) r.
Proof.
  revert pos. induction s as [|b s IH]; intros pos Ha; simpl; [by rewrite Nat.add_0_r|].
  rewrite <- Nat.add_succ_comm. by eapply IH, at_text_next.
Qed.
Lemma at_text_head pos s : at_text pos s -> src !! pos = head s.
Proof.
  destruct s as [|b r]; [|apply at_text_byte]. intros [Hd Hle]. simpl.
  apply lookup_ge_None. apply (f_equal length) in Hd. rewrite length_drop in Hd. simpl in Hd. lia.
Qed.
Lemma at_text_head1 pos b r : at_text pos (b :: r) -> src !! (pos + 1)%nat = head r.
Proof. intros Ha. rewrite Nat.add_1_r. by eapply at_text_head, at_text_next. Qed.

(** A text that begins with an ASCII byte, or nothing. *)
Definition ascii_head (s : bytes) : Prop := match s with [] => True | b :: _ => b2z b < 0x80 end.

Lemma at_boundary_ascii pos s : at_text pos s -> ascii_head s -> is_char_boundary src pos = true.
Proof.
  intros Ha Hs. unfold is_char_boundary. rewrite (at_text_head _ _ Ha). apply orb_true_iff. right.
  destruct s as [|b r]; simpl in *.
  - destruct Ha as [Hd Hle]. apply (f_equal length) in Hd. rewrite length_drop in Hd. simpl in Hd.
    apply Nat.eqb_eq. lia.
  - apply orb_true_iff. left. by apply Z.ltb_lt.
Qed.

Lemma peek_char_at pos s :
  at_text pos s -> ascii_head s -> peek_char src pos = (Ok (b2z <$> head s), pos).
Proof.
  intros Ha Hs. unfold peek_char, smap, sbind, rest_str, str_from. rewrite (at_boundary_ascii _ _ Ha Hs).
  destruct Ha as [-> _]. unfold sret. destruct s as [|b r]; [done|]. simpl in *.
  by rewrite (proj2 (Z.ltb_lt _ _)) by lia.
Qed.

Lemma bump_char_at pos b r :
  at_text pos (b :: r) -> b2z b < 0x80 -> bump_char src pos = (Ok (Some (b2z b)), S pos).
Proof.
  intros Ha Hb. unfold bump_char, sbind. rewrite (peek_char_at _ _ Ha) by done. simpl. unfold smodify, sret.
  unfold len_utf8. rewrite (proj2 (Z.ltb_lt _ _)) by lia. by rewrite Nat.add_1_r.
Qed.

Lemma text_from_at start pos s r :
  at_text start (s ++ r) -> pos = (start + length s)%nat -> ascii_head (s ++ r) -> ascii_head r ->
  text_from src start pos = (Ok s, pos).
Proof.
  intros Ha -> Hs Hr. unfold text_from, str_get. rewrite (proj2 (Nat.leb_le _ _)) by lia.
  rewrite (at_boundary_ascii _ _ Ha Hs), (at_boundary_ascii _ _ (at_text_app _ _ _ Ha) Hr). simpl.
  destruct Ha as [-> _]. rewrite Nat.add_comm, Nat.add_sub. by rewrite take_app_length.
Qed.

Lemma skip_bytes_app f s r pos :
  Forall (fun b => f b = true) s -> match r with b :: _ => f b = false | [] => True end ->
  skip_bytes f (s ++ r) pos = (pos + length s)%nat.
Proof.
  intros Hs Hr. revert pos. induction Hs as [|b s Hb Hs IH]; intros pos; simpl.
  - rewrite Nat.add_0_r. destruct r; simpl; [done|]. by rewrite Hr.
  - rewrite Hb, IH. lia.
Qed.

Lemma bump_while_at f pos s r :
  at_text pos (s ++ r) -> Forall (fun b => f b = true) s ->
  match r with b :: _ => f b = false | [] => True end ->
  bump_while src f pos = (Ok tt, (pos + length s)%nat).
Proof.
  intros [Hd _] Hs Hr. unfold bump_while, smodify. rewrite Hd. by rewrite skip_bytes_app.
Qed.

(** ** Trivia *)

(** Not the start of whitespace or of a comment. *)
Definition token_start (s : bytes) : bool :=
  match s with
  | [] => false
  | b :: r => negb (is_whitespace b) && negb (byte_is x2d b && next_is (byte_is x2d) (head r)) &&
              negb (byte_is x2f b && next_is (byte_is x2a) (head r))
  end.

Lemma skip_trivia_loop_at fuel pos s :
  at_text pos s -> token_start s = true -> skip_trivia_loop src (S fuel) pos = (Ok tt, pos).
Proof.
  intros Ha Hs. destruct s as [|b r]; [done|]. simpl in Hs.
  apply andb_true_iff in Hs as [Hs H3%negb_true_iff]. apply andb_true_iff in Hs as [H1%negb_true_iff H2%negb_true_iff].
  cbn [skip_trivia_loop]. unfold sbind, smodify, skip_whitespace.
  assert (skip_bytes is_whitespace (drop pos src) pos = pos) as ->.
  { destruct Ha as [-> _]. simpl. by rewrite H1. }
  unfold peek_byte, peek_byte_at. rewrite (at_text_byte _ _ _ Ha), (at_text_head1 _ _ _ Ha). simpl.
  by rewrite H2, H3.
Qed.

Lemma skip_trivia_at pos s :
  at_text pos s -> token_start s = true -> skip_trivia src pos = (Ok tt, pos).
Proof. apply skip_trivia_loop_at. Qed.

Lemma skip_trivia_space pos s :
  at_text pos (x20 :: s) -> token_start s = true -> skip_trivia src pos = (Ok tt, S pos).
Proof.
  intros Ha Hs. pose proof (at_text_next _ _ _ Ha) as Hn. unfold skip_trivia. destruct s as [|b r]; [done|].
  rewrite <- (skip_trivia_loop_at (length src) _ _ Hn Hs). cbn [skip_trivia_loop].
  unfold sbind, smodify, skip_whitespace. simpl in Hs. apply andb_true_iff in Hs as [Hs _].
  apply andb_true_iff in Hs as [H1%negb_true_iff _].
  assert (skip_bytes is_whitespace (drop pos src) pos = S pos) as ->.
  { destruct Ha as [-> _]. simpl. by rewrite H1. }
  assert (skip_bytes is_whitespace (drop (S pos) src) (S pos) = S pos) as ->; [|done].
  destruct Hn as [-> _]. simpl. by rewrite H1.
Qed.

Lemma not_eof pos b r : at_text pos (b :: r) -> is_eof src pos = false.
Proof. intros Ha%at_text_byte%lookup_lt_Some. unfold is_eof. apply Nat.leb_gt. lia. Qed.
End at_text.

(** ** Pieces *)

Definition lexes `{Unicode} (t : Token) (text rest : bytes) : Prop :=
  token_start (text ++ rest) = true /\
  forall src pos, at_text src pos (text ++ rest) ->
    next_token src pos =
      (Ok (Some (mkSpannedToken t (mk_span pos (pos + length text)))), (pos + length text)%nat).

Section pieces.
Context `{Unicode}.

Lemma ident_start_ascii b : b2z b < 0x80 -> ident_start_char (b2z b) = is_ident_start b.
Proof.
  intros Hb. rewrite is_ident_start_spec. unfold ident_start_char, is_alphabetic, is_ascii_alphabetic,
    is_ascii_uppercase, is_ascii_lowercase, in_byte, char_in.
  rewrite (proj2 (Z.ltb_ge 0x7f (b2z b))) by lia. rewrite andb_false_l, orb_false_r.
  rewrite (orb_comm (_ && _)). rewrite orb_comm. f_equal.
  destruct (b2z b =? 95) eqn:E; symmetry; bool_to_prop.
  - apply bool_decide_eq_true. apply b2z_inj. by rewrite E.
  - apply bool_decide_eq_false. by intros ->.
Qed.

Lemma ident_continue_ascii b : b2z b < 0x80 -> ident_continue_char (b2z b) = is_simple_ident b.
Proof.
  intros Hb. unfold ident_continue_char, is_alphanumeric, is_alphabetic, is_numeric, is_simple_ident,
    is_ascii_alphanumeric, is_ascii_alphabetic, is_ascii_uppercase, is_ascii_lowercase, is_ascii_digit,
    in_byte, char_in.
  rewrite (proj2 (Z.ltb_ge 0x7f (b2z b))) by lia. rewrite !andb_false_l, !orb_false_r.
  rewrite (orb_comm (_ && _) ((65 <=? _) && _)). rewrite orb_comm. f_equal.
  destruct (b2z b =? 95) eqn:E; symmetry; bool_to_prop.
  - apply bool_decide_eq_true. apply b2z_inj. by rewrite E.
  - apply bool_decide_eq_false. by intros ->.
Qed.

Lemma simple_ascii b : is_simple_ident b = true -> b2z b < 0x80.
Proof.
  revert b. apply (forall_byte (fun b => is_simple_ident b = true -> b2z b < 0x80)). vm_compute. reflexivity.
Qed.

(** What [next_token] does at an ASCII byte. *)
Lemma next_token_at src pos b r :
  at_text src pos (b :: r) -> token_start (b :: r) = true -> b2z b < 0x80 ->
  next_token src pos =
    (if is_ident_start b then smap Some (lex_identifier_or_keyword src)
     else if is_ascii_digit b then smap Some (lex_number_fast src b)
     else if byte_is x27 b then smap Some (lex_string src)
     else if byte_is x22 b then smap Some (lex_quoted_ident src)
     else if byte_is x2e b && next_is is_ascii_digit (head r) then smap Some (lex_number src)
     else if is_operator_or_punct_start b then smap Some (lex_operator_or_punct src)
     else let* start := sget in let* _ := bump src in lex_err (UnexpectedChar (b2z b)) start) pos.
Proof.
  intros Ha Hs Hb. unfold next_token. unfold sbind at 1. rewrite (skip_trivia_at _ _ _ Ha Hs).
  unfold sbind at 1, sget at 1. rewrite (not_eof _ _ _ _ Ha). unfold sbind at 1, peek_byte at 1.
  rewrite (at_text_byte _ _ _ _ Ha). unfold sbind at 1, is_unicode_ident_start, smap at 1, sbind at 1.
  rewrite (peek_char_at _ _ _ Ha Hb). cbn [head fmap option_fmap option_map]. unfold sret at 1.
  cbn [next_char_is]. rewrite (ident_start_ascii b Hb).
  destruct (is_ident_start b); [done|]. destruct (is_ascii_digit b); [done|].
  destruct (byte_is x27 b); [done|]. destruct (byte_is x22 b); [done|].
  unfold sbind at 1, peek_byte_at at 1. by rewrite (at_text_head1 _ _ _ _ Ha).
Qed.

Lemma token_start_plain b r :
  is_whitespace b = false -> b <> x2d -> b <> x2f -> token_start (b :: r) = true.
Proof.
  intros Hw H1 H2. simpl. unfold byte_is. rewrite Hw, !bool_decide_eq_false_2 by done. done.
Qed.

(** A class of bytes none of which begins trivia. *)
Lemma token_start_class (f : byte -> bool) b r :
  (forall b, f b = true -> negb (is_whitespace b || byte_is x2d b || byte_is x2f b) = true) ->
  f b = true -> token_start (b :: r) = true.
Proof.
  intros Hf Hb. apply Hf, negb_true_iff in Hb. apply orb_false_iff in Hb as [Hb H2].
  apply orb_false_iff in Hb as [Hw H1]. unfold byte_is in *.
  apply token_start_plain; [done|by apply bool_decide_eq_false in H1|by apply bool_decide_eq_false in H2].
Qed.

Ltac by_class f := 
  apply (token_start_class f); [|done];
  apply (forall_byte (fun b => f b = true -> negb (is_whitespace b || byte_is x2d b || byte_is x2f b) = true));
  vm_compute; reflexivity.

(** ** Words *)

(** The text after a word: no char of an identifier. *)
Definition word_end (rest : bytes) : Prop :=
  match rest with [] => True | c :: _ => b2z c < 0x80 /\ is_simple_ident c = false end.

Lemma word_end_ascii rest : word_end rest -> ascii_head rest.
Proof. by destruct rest; [|intros []]. Qed.

Lemma ident_loop_at src fuel pos w rest :
  at_text src pos (w ++ rest) -> Forall (fun b => is_simple_ident b = true) w -> word_end rest ->
  (length w < fuel)%nat -> ident_loop src fuel pos = (Ok tt, (pos + length w)%nat).
Proof.
  intros Ha Hw Hr. revert fuel pos Ha. induction Hw as [|b w Hb Hw IH]; intros fuel pos Ha Hf;
    (destruct fuel as [|fuel]; [simpl in Hf; lia|]); cbn [ident_loop]; unfold sbind at 1,
    is_unicode_ident_continue, smap, sbind at 1.
  - rewrite (peek_char_at _ _ _ Ha (word_end_ascii _ Hr)). unfold sret at 1. destruct rest as [|c rest].
    + simpl. by rewrite Nat.add_0_r.
    + destruct Hr as [Hc Hs]. simpl. rewrite ident_continue_ascii, Hs by done. by rewrite Nat.add_0_r.
  - pose proof (simple_ascii _ Hb). rewrite (peek_char_at _ _ _ Ha) by done. unfold sret at 1. simpl.
    rewrite ident_continue_ascii, Hb by done. unfold sbind at 1.
    rewrite (bump_char_at _ _ _ _ Ha) by done. rewrite (IH fuel); [|by eapply at_text_next|simpl in Hf; lia].
    f_equal. lia.
Qed.

Lemma ident_start_simple b : is_ident_start b = true -> is_simple_ident b = true.
Proof.
  revert b. apply (forall_byte (fun b => is_ident_start b = true -> is_simple_ident b = true)).
  vm_compute. reflexivity.
Qed.

Lemma lexes_word b w rest :
  is_ident_start b = true -> Forall (fun b => is_simple_ident b = true) w -> word_end rest ->
  lexes (match keyword_lookup (b :: w) with Some kw => TKeyword kw | None => TIdent end) (b :: w) rest.
Proof.
  intros Hb Hw Hr. assert (token_start (b :: w ++ rest) = true) as Hs by (by_class is_ident_start).
  split; [done|]. intros src pos Ha. pose proof (simple_ascii _ (ident_start_simple _ Hb)) as Hba.
  cbn [app] in Ha. rewrite (next_token_at _ _ _ _ Ha Hs Hba), Hb.
  unfold smap, lex_identifier_or_keyword. unfold sbind at 1 2, sget at 1. unfold sbind at 1.
  rewrite (bump_char_at _ _ _ _ Ha) by done. unfold sbind at 1.
  assert (length src >= length (b :: w ++ rest))%nat as Hl.
  { destruct Ha as [<- _]. rewrite length_drop. lia. }
  rewrite (ident_loop_at _ _ _ w rest); [|by eapply at_text_next|done|done|simpl in Hl; rewrite length_app in Hl; lia].
  unfold sbind at 1. rewrite (text_from_at _ _ _ (b :: w) rest Ha); [|simpl; lia|done|by apply word_end_ascii].
  unfold sbind, sget, sret. simpl. by rewrite <- Nat.add_succ_comm.
Qed.

(** ** Numbers and parameters *)

(** The text after a number: no digit, fraction or exponent. *)
Definition number_end (rest : bytes) : Prop :=
  match rest with
  | [] => True
  | c :: _ => b2z c < 0x80 /\ is_ascii_digit c || byte_is x2e c || is_e c = false
  end.

Lemma number_end_ascii rest : number_end rest -> ascii_head rest.
Proof. by destruct rest; [|intros []]. Qed.
Lemma number_end_digit rest :
  number_end rest -> match rest with b :: _ => is_ascii_digit b = false | [] => True end.
Proof. destruct rest; [done|]. by intros [_ [[? _]%orb_false_iff _]%orb_false_iff]. Qed.

Lemma digits_grow l z :
  Forall (fun b => is_ascii_digit b = true) l -> 0 <= z ->
  z <= fold_left (fun n b => n * 10 + digit_val b) l z.
Proof.
  intros Hl. revert z. induction Hl as [|c l Hc Hl IH]; intros z Hz; simpl; [lia|].
  unfold is_ascii_digit, in_byte in Hc. unfold digit_val at 2. bool_to_prop.
  specialize (IH (z * 10 + (b2z c - 48)) ltac:(lia)). lia.
Qed.

Lemma parse_ascii_int_spec l n :
  Forall (fun b => is_ascii_digit b = true) l -> 0 <= n ->
  fold_left (fun n b => n * 10 + digit_val b) l n <= i64_max ->
  parse_ascii_int_loop n l = Some (fold_left (fun n b => n * 10 + digit_val b) l n).
Proof.
  intros Hl. revert n. induction Hl as [|b l Hb Hl IH]; intros n Hn Hm; [done|].
  assert (0 <= digit_val b) as Hd.
  { unfold is_ascii_digit, in_byte in Hb. unfold digit_val. bool_to_prop. lia. }
  assert (n * 10 + digit_val b <= fold_left (fun n b => n * 10 + digit_val b) l (n * 10 + digit_val b)) as Hge.
  { apply digits_grow; [done|lia]. }
  cbn [parse_ascii_int_loop fold_left] in *. rewrite Hb. simpl. unfold i64_push.
  rewrite (proj2 (Z.ltb_ge _ _)), (proj2 (Z.ltb_ge _ _)) by lia. apply IH; [lia|done].
Qed.

Lemma digit_ascii' b : is_ascii_digit b = true -> b2z b < 0x80.
Proof. unfold is_ascii_digit, in_byte. intros E. bool_to_prop. lia. Qed.

Lemma digit_not_start b : is_ascii_digit b = true -> is_ident_start b = false.
Proof.
  intros Hb. apply negb_true_iff. revert b Hb.
  apply (forall_byte (fun b => is_ascii_digit b = true -> negb (is_ident_start b) = true)). vm_compute. reflexivity.
Qed.

Lemma lex_number_at src pos ds rest d l :
  ds = d :: l -> Forall (fun b => is_ascii_digit b = true) ds -> number_end rest -> digits_val ds <= i64_max ->
  at_text src pos (ds ++ rest) ->
  lex_number src pos =
    (Ok (mkSpannedToken (TInteger (digits_val ds)) (mk_span pos (pos + length ds))), (pos + length ds)%nat).
Proof.
  intros E Hds Hr Hv Ha. unfold lex_number. unfold sbind at 1, sget at 1. unfold sbind at 1, peek_byte at 1.
  rewrite (at_text_head _ _ _ Ha). pose proof (Forall_inv (eq_ind _ (Forall _) Hds _ E)) as Hd.
  assert (next_is (byte_is x2e) (head (ds ++ rest)) = false) as ->.
  { rewrite E. simpl. apply bool_decide_eq_false. intros ->. done. }
  unfold sbind at 1, sret at 1. unfold sbind at 1.
  rewrite (bump_while_at _ _ _ _ _ Ha Hds (number_end_digit _ Hr)).
  pose proof (at_text_app _ _ _ _ Ha) as Ha'.
  assert (next_is (byte_is x2e) (head rest) = false /\ next_is is_e (head rest) = false) as [Hdot He].
  { destruct rest; [done|]. destruct Hr as [_ [[_ ?]%orb_false_iff ?]%orb_false_iff]. done. }
  unfold sbind at 1, lex_fraction. unfold sbind at 1, peek_byte at 1. unfold sbind at 1, peek_byte_at at 1.
  rewrite (at_text_head _ _ _ Ha'), Hdot. simpl. unfold sret at 1.
  unfold sbind at 1, lex_exponent. unfold sbind at 1, peek_byte at 1. rewrite (at_text_head _ _ _ Ha'), He.
  unfold sret at 1. unfold sbind at 1.
  rewrite (text_from_at _ _ _ ds rest Ha);
    [|done|rewrite E; simpl; by apply digit_ascii'|by apply number_end_ascii].
  unfold sbind, sget, parse_ascii_int. unfold digits_val in *. by rewrite parse_ascii_int_spec.
Qed.

Lemma lexes_integer n rest :
  0 <= n <= i64_max -> number_end rest -> lexes (TInteger n) (show_Z n) rest.
Proof.
  intros Hn Hr. unfold show_Z. rewrite (proj2 (Z.ltb_ge _ _)) by lia.
  destruct (show_nat_spec n) as (d & ds & -> & Hds & Hv & _); [lia|]. pose proof (Forall_inv Hds) as Hd. simpl in Hd.
  assert (token_start (d :: ds ++ rest) = true) as Hs by (by_class is_ascii_digit).
  split; [done|]. intros src pos Ha. cbn [app] in Ha.
  rewrite (next_token_at _ _ _ _ Ha Hs (digit_ascii' _ Hd)), (digit_not_start _ Hd), Hd.
  unfold smap, sbind at 1. unfold lex_number_fast. unfold sbind at 1, sget at 1.
  unfold sbind at 1, peek_byte_at at 1. rewrite (at_text_head1 _ _ _ _ Ha).
  destruct (negb _) eqn:En.
  - assert (ds = []) as ->.
    { destruct ds as [|d' ds]; [done|]. apply Forall_inv_tail, Forall_inv in Hds. simpl in En. by rewrite Hds in En. }
    unfold sbind, bump. rewrite (at_text_byte _ _ _ _ Ha). unfold sget, sret. simpl.
    rewrite Nat.add_1_r. unfold digits_val in Hv. simpl in Hv. by rewrite <- Hv.
  - rewrite (lex_number_at _ _ (d :: ds) rest d ds); [by rewrite Hv|done|done|done|lia|done].
Qed.

Lemma lex_parameter_loop_at src start ds rest n k pos :
  at_text src pos (ds ++ rest) -> Forall (fun b => is_ascii_digit b = true) ds ->
  match rest with b :: _ => is_ascii_digit b = false | [] => True end -> 0 <= n ->
  fold_left (fun n b => n * 10 + digit_val b) ds n <= umax 16 ->
  lex_parameter_loop src start (ds ++ rest) n k pos =
    (Ok (fold_left (fun n b => n * 10 + digit_val b) ds n, k + len ds), (pos + length ds)%nat).
Proof.
  intros Ha Hds Hr. revert n k pos Ha. induction Hds as [|b ds Hb Hds IH]; intros n k pos Ha Hn Hm.
  - simpl. rewrite Nat.add_0_r. unfold len. simpl. rewrite Z.add_0_r. destruct rest as [|c rest]; [done|]. simpl. by rewrite Hr.
  - assert (0 <= digit_val b <= 9) as Hd.
    { unfold is_ascii_digit, in_byte in Hb. unfold digit_val. bool_to_prop. lia. }
    assert (n * 10 + digit_val b <= fold_left (fun n b => n * 10 + digit_val b) ds (n * 10 + digit_val b)) as Hge.
    { apply digits_grow; [done|lia]. }
    cbn [app lex_parameter_loop fold_left] in *. rewrite Hb. unfold sbind at 1, bump.
    rewrite (at_text_byte _ _ _ _ Ha). unfold umax in *.
    assert (sat 32 (sat 32 (n * 10) + digit_val b) = n * 10 + digit_val b) as ->.
    { unfold sat, umax. lia. }
    rewrite (proj2 (Z.ltb_ge _ _)) by lia. rewrite IH; [|by eapply at_text_next|lia|lia].
    rewrite len_cons, Z.add_assoc. f_equal. simpl. lia.
Qed.

(** ** Operators and punctuation *)

(** What follows [$] *)
Lemma lex_parameter_at src pos n rest :
  1 <= n <= umax 16 -> number_end rest -> at_text src pos (show_Z n ++ rest) ->
  lex_parameter src pos = (Ok (TParameter n), (pos + length (show_Z n))%nat).
Proof.
  intros Hn Hr Ha. unfold show_Z in *. rewrite (proj2 (Z.ltb_ge n 0)) in * by lia.
  destruct (show_nat_spec n) as (d & ds & E & Hds & Hv & _); [lia|]. rewrite E in *.
  unfold lex_parameter, sbind at 1, sget at 1. unfold sbind at 1.
  assert (drop pos src = (d :: ds) ++ rest) as -> by apply Ha.
  unfold digits_val in Hv.
  rewrite (lex_parameter_loop_at _ _ (d :: ds) rest); [|done|done|by apply number_end_digit|lia|by rewrite Hv; lia].
  rewrite Hv. cbn [fst snd]. rewrite len_cons. pose proof (len_nonneg ds).
  rewrite (proj2 (Z.eqb_neq _ _)) by lia. rewrite (proj2 (Z.leb_le _ _)) by lia. done.
Qed.

Lemma punct_class b :
  is_operator_or_punct_start b = true ->
  is_ident_start b = false /\ is_ascii_digit b = false /\ byte_is x27 b = false /\ byte_is x22 b = false.
Proof.
  intros Hb.
  assert (is_ident_start b || is_ascii_digit b || byte_is x27 b || byte_is x22 b = false) as Hc.
  { apply negb_true_iff. revert b Hb.
    apply (forall_byte (fun b => is_operator_or_punct_start b = true ->
      negb (is_ident_start b || is_ascii_digit b || byte_is x27 b || byte_is x22 b) = true)).
    vm_compute. reflexivity. }
  by apply orb_false_iff in Hc as [[[? ?]%orb_false_iff ?]%orb_false_iff ?].
Qed.

Lemma punct_ascii' b : is_operator_or_punct_start b = true -> b2z b < 0x80.
Proof.
  revert b. apply (forall_byte (fun b => is_operator_or_punct_start b = true -> b2z b < 0x80)).
  vm_compute. reflexivity.
Qed.

(** An operator or punctuation byte that does not begin trivia or a number. *)
Lemma next_token_punct src pos b r :
  at_text src pos (b :: r) -> token_start (b :: r) = true -> is_operator_or_punct_start b = true ->
  byte_is x2e b && next_is is_ascii_digit (head r) = false ->
  next_token src pos = smap Some (lex_operator_or_punct src) pos.
Proof.
  intros Ha Hs Hb Hdot. rewrite (next_token_at _ _ _ _ Ha Hs (punct_ascii' _ Hb)).
  destruct (punct_class _ Hb) as (-> & -> & -> & ->). by rewrite Hdot, Hb.
Qed.

Lemma lex_operator_bump src pos b r :
  at_text src pos (b :: r) -> bump src pos = (Ok (Some b), S pos).
Proof. intros Ha. unfold bump. by rewrite (at_text_byte _ _ _ _ Ha). Qed.

(** The one-byte tokens, with what may follow. *)
Definition punct_token (b : byte) : option Token :=
  match b with
  | x28 => Some (TPunct LParen) | x29 => Some (TPunct RParen) | x2c => Some (TPunct Comma)
  | x2a => Some (TPunct Star) | x3d => Some (TOp OpEq) | x2b => Some (TOp OpPlus) | x25 => Some (TOp OpMod)
  | _ => None
  end.

Lemma lexes_punct b t rest : punct_token b = Some t -> lexes t [b] rest.
Proof.
  intros Ht. assert (token_start (b :: rest) = true /\ is_operator_or_punct_start b = true /\ byte_is x2e b = false)
    as (Hs & Hp & Hd).
  { destruct b; try discriminate Ht; by vm_compute. }
  split; [done|]. intros src pos Ha. cbn [app] in Ha.
  rewrite (next_token_punct _ _ _ _ Ha Hs Hp) by (by rewrite Hd).
  unfold smap, sbind at 1, lex_operator_or_punct. unfold sbind at 1, sget at 1. unfold sbind at 1.
  rewrite (lex_operator_bump _ _ _ _ Ha). cbn [length]. rewrite Nat.add_1_r.
  destruct b; try discriminate Ht; injection Ht as <-; done.
Qed.

(** Those whose meaning depends on the next byte, before a byte that settles it. *)
Lemma lexes_dot rest : next_is is_ascii_digit (head rest) = false -> lexes (TPunct Dot) [x2e] rest.
Proof.
  intros Hr. assert (token_start (x2e :: rest) = true) as Hs by done.
  split; [done|]. intros src pos Ha. cbn [app] in Ha. rewrite (next_token_punct _ _ _ _ Ha Hs) by done.
  unfold smap, sbind at 1, lex_operator_or_punct. unfold sbind at 1, sget at 1. unfold sbind at 1.
  rewrite (lex_operator_bump _ _ _ _ Ha). cbn [length]. rewrite Nat.add_1_r. done.
Qed.

Lemma lexes_minus rest : next_is (byte_is x2d) (head rest) = false -> lexes (TOp OpMinus) [x2d] rest.
Proof.
  intros Hr. assert (token_start (x2d :: rest) = true) as Hs by (simpl; by rewrite Hr).
  split; [done|]. intros src pos Ha. cbn [app] in Ha. rewrite (next_token_punct _ _ _ _ Ha Hs) by done.
  unfold smap, sbind at 1, lex_operator_or_punct. unfold sbind at 1, sget at 1. unfold sbind at 1.
  rewrite (lex_operator_bump _ _ _ _ Ha). cbn [length]. rewrite Nat.add_1_r. done.
Qed.

(** The printed operators are followed by a space. *)
Definition op_token (op : BinaryOp) : Token :=
  match op with
  | BEq => TOp OpEq | BNe => TOp OpNe | BLt => TOp OpLt | BGt => TOp OpGt | BLe => TOp OpLe | BGe => TOp OpGe
  | BAnd => TKeyword KwAnd | BOr => TKeyword KwOr | BPlus => TOp OpPlus | BMinus => TOp OpMinus
  | BDiv => TOp OpDiv | BMul => TPunct Star | BMod => TOp OpMod | BLike => TKeyword KwLike
  | BDistance => TOp OpDistance
  end.

Lemma lexes_operator (b : byte) (tail : bytes) (t : Token) rest :
  b2z b < 0x80 -> is_operator_or_punct_start b = true -> byte_is x2e b = false ->
  token_start (b :: tail ++ rest) = true ->
  (forall src pos, at_text src (S pos) (tail ++ rest) -> src !! pos = Some b ->
     lex_operator_or_punct src pos =
       (Ok (mkSpannedToken t (mk_span pos (S pos + length tail))), (S pos + length tail)%nat)) ->
  lexes t (b :: tail) rest.
Proof.
  intros Hb Hp Hd Hs Hl. split; [done|]. intros src pos Ha. cbn [app] in Ha.
  rewrite (next_token_punct _ _ _ _ Ha Hs Hp) by (by rewrite Hd). unfold smap, sbind at 1.
  rewrite Hl; [|by eapply at_text_next|by eapply at_text_byte]. simpl. by rewrite <- Nat.add_succ_comm.
Qed.

Lemma lexes_op op rest : lexes (op_token op) (binary_op op) (x20 :: rest).
Proof.
  assert (forall w b kw, keyword_lookup (b :: w) = Some kw -> is_ident_start b = true ->
    Forall (fun b => is_simple_ident b = true) w -> lexes (TKeyword kw) (b :: w) (x20 :: rest)) as Hkw.
  { intros w b kw Hk Hb Hw. pose proof (lexes_word b w (x20 :: rest) Hb Hw) as Hl. rewrite Hk in Hl. by apply Hl. }
  destruct op; cbn [op_token];
    match goal with |- lexes _ ?x _ => let x' := eval vm_compute in x in change x with x' end;
    try (apply lexes_punct; reflexivity);
    try (apply Hkw; [vm_compute; reflexivity|reflexivity|by apply (bool_decide_eq_true_1 _)]);
    try (by apply lexes_minus).
  - apply (lexes_operator x3c [x3e]); [done..|]. intros src pos Ha Hb. 
    unfold lex_operator_or_punct, sbind, sget, bump. rewrite Hb. unfold lex_less, sbind, peek_byte, peek_byte_at.
    rewrite (at_text_head1 _ _ _ _ Ha). cbn [app] in Ha. rewrite !(at_text_byte _ _ _ _ Ha). simpl.
    unfold bump. rewrite (at_text_byte _ _ _ _ Ha). simpl. rewrite Nat.add_1_r. done.
  - apply (lexes_operator x3c []); [done..|]. intros src pos Ha Hb.
    unfold lex_operator_or_punct, sbind, sget, bump. rewrite Hb. unfold lex_less, sbind, peek_byte, peek_byte_at.
    rewrite (at_text_head1 _ _ _ _ Ha). cbn [app] in Ha. rewrite !(at_text_byte _ _ _ _ Ha). simpl.
    rewrite Nat.add_0_r. done.
  - apply (lexes_operator x3e []); [done..|]. intros src pos Ha Hb.
    unfold lex_operator_or_punct, sbind, sget, bump. rewrite Hb. unfold peek_byte.
    cbn [app] in Ha. rewrite !(at_text_byte _ _ _ _ Ha). simpl. rewrite Nat.add_0_r. done.
  - apply (lexes_operator x3c [x3d]); [done..|]. intros src pos Ha Hb. 
    unfold lex_operator_or_punct, sbind, sget, bump. rewrite Hb. unfold lex_less, sbind, peek_byte, peek_byte_at.
    rewrite (at_text_head1 _ _ _ _ Ha). cbn [app] in Ha. rewrite !(at_text_byte _ _ _ _ Ha). simpl.
    unfold bump. rewrite (at_text_byte _ _ _ _ Ha). simpl. rewrite Nat.add_1_r. done.
  - apply (lexes_operator x3e [x3d]); [done..|]. intros src pos Ha Hb.
    unfold lex_operator_or_punct, sbind, sget, bump. rewrite Hb. unfold peek_byte.
    cbn [app] in Ha. rewrite !(at_text_byte _ _ _ _ Ha). simpl.
    rewrite (at_text_byte _ _ _ _ Ha). simpl. rewrite Nat.add_1_r. done.
  - apply (lexes_operator x2f []); [done..|]. intros src pos Ha Hb.
    unfold lex_operator_or_punct, sbind, sget, bump. rewrite Hb. simpl. rewrite Nat.add_0_r. done.
  - apply (lexes_operator x3c [x2d; x3e]); [done..|]. intros src pos Ha Hb. 
    unfold lex_operator_or_punct, sbind, sget, bump. rewrite Hb. unfold lex_less, sbind, peek_byte, peek_byte_at.
    rewrite (at_text_head1 _ _ _ _ Ha). cbn [app] in Ha. rewrite !(at_text_byte _ _ _ _ Ha). simpl.
    unfold bump. rewrite (at_text_byte _ _ _ _ Ha). rewrite (at_text_byte _ _ _ _ (at_text_next _ _ _ _ Ha)).
    simpl. rewrite (Nat.add_comm pos 2). done.
Qed.

Lemma lexes_parameter n rest :
  1 <= n <= umax 16 -> number_end rest -> lexes (TParameter n) ([x24] ++ show_Z n) rest.
Proof.
  intros Hn Hr. apply (lexes_operator x24); [done..|]. intros src pos Ha Hb.
  unfold lex_operator_or_punct, sbind at 1, sget at 1. unfold sbind at 1, bump. rewrite Hb.
  unfold sbind at 1. rewrite (lex_parameter_at _ _ _ _ Hn Hr Ha). done.
Qed.

(** ** Quoted text *)

Lemma bump_char_utf8 src pos c r :
  is_char c -> at_text src pos (utf8_char c ++ r) ->
  bump_char src pos = (Ok (Some c), (pos + length (utf8_char c))%nat).
Proof.
  intros Hc Ha. unfold bump_char, peek_char, smap, sbind, rest_str, str_from.
  assert (is_char_boundary src pos = true) as ->.
  { destruct (utf8_lead c Hc) as (b & t & E & Hb). rewrite E in Ha. cbn [app] in Ha.
    unfold is_char_boundary. rewrite (at_text_byte _ _ _ _ Ha). apply orb_true_iff. right. apply orb_true_iff.
    rewrite Z.ltb_lt, Z.leb_le. destruct Hb as [(? & -> & _)|[_ ?]]; [left|right]; lia. }
  assert (drop pos src = utf8_char c ++ r) as -> by apply Ha.
  unfold sret at 1. rewrite next_char_utf8 by done. unfold smodify, sret. by rewrite length_utf8_char.
Qed.

Lemma double_quote_app q a b : double_quote q (a ++ b) = double_quote q a ++ double_quote q b.
Proof. unfold double_quote. by rewrite map_app, concat_app. Qed.

(** The bytes of a char other than the quote stay as they are. *)
Lemma double_quote_char q c :
  b2z q < 0x80 -> is_char c -> c <> b2z q -> double_quote q (utf8_char c) = utf8_char c /\ head (utf8_char c) <> Some q.
Proof.
  intros Hq Hc Hne. pose proof (b2z_range q).
  assert (Forall (fun b => b <> q) (utf8_char c)) as Hall.
  { destruct Hc as [Hc _]. unfold utf8_char. repeat case_test; rewrite ?Forall_cons, ?Forall_nil; repeat split; intros E';
      apply (f_equal b2z) in E'; rewrite byte_of in E' by (Z.div_mod_to_equations; lia);
      try lia; Z.div_mod_to_equations; lia. }
  split.
  - unfold double_quote. induction Hall as [|b l Hb Hl IH]; [done|]. simpl.
    rewrite bool_decide_eq_false_2 by done. by rewrite IH.
  - destruct Hall; [done|]. simpl. congruence.
Qed.

Lemma quoted_loop_at src q un start fuel value cs rest pos :
  b2z q < 0x80 -> Forall is_char cs -> head rest <> Some q ->
  at_text src pos (double_quote q (utf8 cs) ++ [q] ++ rest) -> (length cs < fuel)%nat ->
  lex_quoted_loop src q un fuel start value pos =
    (Ok (value ++ utf8 cs), (pos + length (double_quote q (utf8 cs)) + 1)%nat).
Proof.
  intros Hq Hcs Hr. revert fuel value pos. induction Hcs as [|c cs Hc Hcs IH]; intros fuel value pos Ha Hf;
    (destruct fuel as [|fuel]; [simpl in Hf; lia|]); cbn [lex_quoted_loop].
  - simpl in Ha. rewrite (not_eof _ _ _ _ Ha). unfold sbind at 1, peek_byte at 1.
    rewrite (at_text_byte _ _ _ _ Ha). simpl. unfold byte_is at 1. rewrite bool_decide_eq_true_2 by done.
    unfold sbind, bump at 1. rewrite (at_text_byte _ _ _ _ Ha). unfold peek_byte.
    rewrite (at_text_head _ _ _ (at_text_next _ _ _ _ Ha)).
    assert (next_is (byte_is q) (head rest) = false) as ->.
    { destruct rest as [|b rest]; [done|]. simpl. apply bool_decide_eq_false. simpl in Hr. congruence. }
    unfold sret. rewrite app_nil_r. f_equal. lia.
  - rewrite utf8_cons, double_quote_app, <- app_assoc in Ha. destruct (decide (c = b2z q)) as [->|Hne].
    + assert (utf8_char (b2z q) = [q]) as Eq.
      { pose proof (b2z_range q). rewrite utf8_ascii by lia. by rewrite z2b_b2z. }
      assert (double_quote q [q] = [q; q]) as Edq.
      { unfold double_quote. simpl. by rewrite bool_decide_eq_true_2. }
      rewrite Eq, Edq in Ha. cbn [app] in Ha. pose proof (at_text_next _ _ _ _ Ha) as Ha1. pose proof (at_text_next _ _ _ _ Ha1) as Ha2.
      rewrite (not_eof _ _ _ _ Ha). unfold sbind at 1, peek_byte at 1. rewrite (at_text_byte _ _ _ _ Ha).
      simpl. unfold byte_is at 1. rewrite bool_decide_eq_true_2 by done. unfold sbind at 1, bump at 1.
      rewrite (at_text_byte _ _ _ _ Ha). unfold sbind at 1, peek_byte at 1. rewrite (at_text_byte _ _ _ _ Ha1).
      simpl. unfold byte_is at 1. rewrite bool_decide_eq_true_2 by done. unfold sbind at 1, bump at 1.
      rewrite (at_text_byte _ _ _ _ Ha1). rewrite IH; [|done|simpl in Hf; lia].
      rewrite utf8_cons, Eq, <- app_assoc, double_quote_app, Edq, length_app. f_equal. simpl. lia.
    + destruct (double_quote_char q c Hq Hc Hne) as [Ed Hh]. rewrite Ed in Ha.
      destruct (utf8_char c) as [|b t] eqn:Ec; [by apply utf8_char_ne in Ec|].
      pose proof Ha as Ha0. cbn [app] in Ha0. rewrite (not_eof _ _ _ _ Ha0). unfold sbind at 1, peek_byte at 1.
      rewrite (at_text_byte _ _ _ _ Ha0). cbn [next_is]. unfold byte_is at 1.
      rewrite bool_decide_eq_false_2 by (simpl in Hh; congruence). unfold sbind at 1.
      rewrite <- Ec in Ha. rewrite (bump_char_utf8 _ _ _ _ Hc Ha). rewrite IH; [|by apply at_text_app|simpl in Hf; lia].
      rewrite utf8_cons, double_quote_app, Ec, Ed, <- !app_assoc, !length_app. f_equal. lia.
Qed.

Lemma length_le_utf8 cs : (length cs <= length (utf8 cs))%nat.
Proof.
  induction cs as [|c cs IH]; [done|]. rewrite utf8_cons, length_app, length_utf8_char.
  pose proof (len_utf8_pos c). simpl. lia.
Qed.

Lemma length_double_quote q s : (length s <= length (double_quote q s))%nat.
Proof.
  induction s as [|b s IH]; [done|]. unfold double_quote in *. simpl. rewrite length_app.
  case_bool_decide; simpl; lia.
Qed.

Lemma lex_quoted_at src q un mk cs rest pos :
  b2z q < 0x80 -> Forall is_char cs -> head rest <> Some q ->
  at_text src pos ([q] ++ double_quote q (utf8 cs) ++ [q] ++ rest) ->
  lex_quoted src q un mk pos =
    (Ok (mkSpannedToken (mk (utf8 cs))
           (mk_span pos (pos + length ([q] ++ double_quote q (utf8 cs) ++ [q])))),
     (pos + length ([q] ++ double_quote q (utf8 cs) ++ [q]))%nat).
Proof.
  intros Hq Hcs Hr Ha. cbn [app] in Ha. unfold lex_quoted, sbind at 1, sget at 1. unfold sbind at 1, bump.
  rewrite (at_text_byte _ _ _ _ Ha). unfold sbind at 1. pose proof (at_text_next _ _ _ _ Ha) as Ha'.
  rewrite (quoted_loop_at _ _ _ _ _ _ cs rest); [|done..|].
  - unfold sbind, sget, sret. simpl. rewrite length_app. simpl.
    replace (S (pos + length (double_quote q (utf8 cs)) + 1)) with
      (pos + S (length (double_quote q (utf8 cs)) + 1))%nat by lia. done.
  - pose proof (length_le_utf8 cs). pose proof (length_double_quote q (utf8 cs)).
    destruct Ha as [Hd _]. apply (f_equal length) in Hd. rewrite length_drop in Hd. simpl in Hd.
    rewrite !length_app in Hd. simpl in Hd. lia.
Qed.

Definition quoted (q : byte) (s : bytes) : bytes := [q] ++ double_quote q s ++ [q].

Lemma lexes_quoted q mk cs rest :
  (q = x27 /\ mk = TString \/ q = x22 /\ mk = TQuotedIdent) ->
  Forall is_char cs -> head rest <> Some q -> lexes (mk (utf8 cs)) (quoted q (utf8 cs)) rest.
Proof.
  intros Hq Hcs Hr. assert (token_start (q :: (double_quote q (utf8 cs) ++ [q]) ++ rest) = true) as Hs.
  { by destruct Hq as [[-> _]|[-> _]]. }
  split; [done|]. intros src pos Ha. unfold quoted in *. cbn [app] in Ha.
  rewrite (next_token_at _ _ _ _ Ha Hs) by (by destruct Hq as [[-> _]|[-> _]]).
  pose proof Ha as Ha'. rewrite <- app_assoc in Ha'.
  assert (is_ident_start q = false /\ is_ascii_digit q = false) as [-> ->]
    by (by destruct Hq as [[-> _]|[-> _]]).
  destruct Hq as [[-> ->]|[-> ->]]; unfold byte_is;
    [rewrite bool_decide_eq_true_2 by done
    |rewrite bool_decide_eq_false_2, bool_decide_eq_true_2 by done];
    unfold smap, sbind at 1, lex_string, lex_quoted_ident; by rewrite (lex_quoted_at _ _ _ _ cs rest).
Qed.
End pieces.

(** ** Texts made of pieces *)

Record piece : Type := mkPiece { pc_space : bool; pc_tok : Token; pc_text : bytes }.

Definition piece_text (p : piece) : bytes := (if pc_space p then [x20] else []) ++ pc_text p.
Definition text_of (ps : list piece) : bytes := concat (map piece_text ps).

Lemma text_of_cons p ps : text_of (p :: ps) = piece_text p ++ text_of ps.
Proof. done. Qed.
Lemma text_of_app ps qs : text_of (ps ++ qs) = text_of ps ++ text_of qs.
Proof. unfold text_of. by rewrite map_app, concat_app. Qed.

Section streams.
Context `{Unicode}.

(** Every piece is read as its token, before the text that follows it; a word
    is plain ASCII. *)
Fixpoint pieces_ok (ps : list piece) (rest : bytes) : Prop :=
  match ps with
  | [] => True
  | p :: r => lexes (pc_tok p) (pc_text p) (text_of r ++ rest) /\ pc_text p <> [] /\
              (pc_tok p = TIdent -> ascii_head (pc_text p) /\ ascii_head (text_of r ++ rest)) /\
              pieces_ok r rest
  end.

Lemma pieces_ok_app ps qs rest :
  pieces_ok (ps ++ qs) rest <-> pieces_ok ps (text_of qs ++ rest) /\ pieces_ok qs rest.
Proof.
  induction ps as [|p ps IH]; simpl; [tauto|]. rewrite IH, text_of_app, <- app_assoc. tauto.
Qed.

(** The token of a piece, with the piece's text as its lexeme. *)
Definition token_of (src : bytes) (p : piece) (t : SpannedToken) : Prop :=
  tok_kind t = pc_tok p /\ (pc_tok p = TIdent -> lexeme t src = Some (pc_text p)).

Lemma sbind_same {S E A B} (p : SM S E A) (k : A -> SM S E B) s s' :
  p s = p s' -> sbind p k s = sbind p k s'.
Proof. unfold sbind. by intros ->. Qed.

Lemma next_token_space src pos s :
  at_text src pos (x20 :: s) -> token_start s = true -> next_token src pos = next_token src (S pos).
Proof.
  intros Ha Hs. unfold next_token. apply sbind_same.
  by rewrite (skip_trivia_space _ _ _ Ha Hs), (skip_trivia_at _ _ _ (at_text_next _ _ _ _ Ha) Hs).
Qed.

Lemma next_token_end src pos : at_text src pos [] -> next_token src pos = (Ok None, pos).
Proof.
  intros Ha. assert (length src = pos) as Hl.
  { destruct Ha as [Hd Hle]. apply (f_equal length) in Hd. rewrite length_drop in Hd. simpl in Hd. lia. }
  assert (skip_trivia src pos = (Ok tt, pos)) as E.
  { unfold skip_trivia. cbn [skip_trivia_loop]. unfold sbind, smodify, skip_whitespace.
    assert (drop pos src = []) as -> by apply Ha. simpl. unfold peek_byte, peek_byte_at.
    rewrite !(proj2 (lookup_ge_None _ _)) by lia. done. }
  unfold next_token, sbind at 1. rewrite E. unfold sbind, sget, is_eof.
  by rewrite (proj2 (Nat.leb_le _ _)) by lia.
Qed.

Lemma lexeme_at src pos s r :
  at_text src pos (s ++ r) -> ascii_head (s ++ r) -> ascii_head r -> len src < 2 ^ 32 ->
  lexeme (mkSpannedToken TIdent (mk_span pos (pos + length s))) src = Some s.
Proof.
  intros Ha Hs Hr Hlen. unfold lexeme, Span_slice, mk_span. cbn [tok_span sp_start sp_end].
  assert (pos + length s <= length src)%nat as Hle.
  { destruct Ha as [Hd Hp]. apply (f_equal length) in Hd. rewrite length_drop, length_app in Hd. lia. }
  unfold len in Hlen. unfold wrap. rewrite !Z.mod_small by lia. rewrite !Nat2Z.id.
  pose proof (text_from_at _ pos (pos + length s) s r Ha eq_refl Hs Hr) as Ht. unfold text_from in Ht.
  destruct (str_get _ _ _); [|done]. by injection Ht as ->.
Qed.

Lemma tokenize_loop_pieces src ps fuel buf pos :
  len src < 2 ^ 32 -> at_text src pos (text_of ps) -> pieces_ok ps [] -> (length ps < fuel)%nat ->
  exists toks, fst (tokenize_loop src fuel buf pos) = Ok (buf ++ toks) /\ Forall2 (token_of src) ps toks.
Proof.
  intros Hlen. revert fuel buf pos. induction ps as [|p ps IH]; intros fuel buf pos Ha Hok Hf;
    (destruct fuel as [|fuel]; [simpl in Hf; lia|]); cbn [tokenize_loop].
  - exists []. unfold sbind. rewrite next_token_end by done. simpl. by rewrite app_nil_r.
  - destruct Hok as ([Hs Hl] & _ & Hid & Hok). rewrite app_nil_r in Hs, Hl, Hid.
    rewrite text_of_cons in Ha. unfold piece_text in Ha.
    assert (exists q, at_text src q (pc_text p ++ text_of ps) /\ next_token src pos = next_token src q) as (q & Hq & E).
    { destruct (pc_space p); cbn [app] in Ha.
      - exists (S pos). split; [by eapply at_text_next|]. by eapply next_token_space.
      - by exists pos. }
    unfold sbind. rewrite E, (Hl _ _ Hq).
    destruct (IH fuel (buf ++ [mkSpannedToken (pc_tok p) (mk_span q (q + length (pc_text p)))])
      (q + length (pc_text p))%nat) as (toks & Ht & Hf2); [by apply at_text_app|done|simpl in Hf; lia|].
    exists (mkSpannedToken (pc_tok p) (mk_span q (q + length (pc_text p))) :: toks). rewrite <- app_assoc in Ht.
    split; [done|]. constructor; [|done]. split; [done|]. intros Ei. destruct (Hid Ei) as [H1 H2].
    cbn [pc_tok]. rewrite Ei. eapply lexeme_at; [done| |done|done].
    destruct (pc_text p); [done|]. done.
Qed.

Lemma text_of_length ps rest : pieces_ok ps rest -> (length ps <= length (text_of ps))%nat.
Proof.
  induction ps as [|p ps IH]; simpl; [lia|]. intros (_ & Hne & _ & Hok). rewrite text_of_cons, length_app.
  specialize (IH Hok). unfold piece_text. rewrite length_app. destruct (pc_text p); [done|]. simpl. lia.
Qed.

(** The lexer reads a text made of pieces as their tokens. *)
Lemma tokenize_pieces ps :
  pieces_ok ps [] -> len (text_of ps) < 2 ^ 32 ->
  exists toks eof, tokenize (text_of ps) = Ok (toks ++ [eof]) /\ tok_kind eof = TEof /\
    Forall2 (token_of (text_of ps)) ps toks.
Proof.
  intros Hok Hlen. pose proof (text_of_length _ _ Hok).
  destruct (tokenize_loop_pieces (text_of ps) ps (S (length (text_of ps))) [] 0) as (toks & Ht & Hf);
    [done|split; [done|lia]|done|lia|].
  unfold tokenize, tokenize_into. rewrite Ht. eexists toks, _. by split.
Qed.
End streams.
