(* ===== verification/RoundTrip.v ===== *)
(** * Printing and parsing again

    Expressions in which every operand of an operator is an atom or in
    parentheses print to text that lexes and parses to the same expression, up
    to the spans. *)

From S2P Require Import Prelude BTree Text Float64 Tokens Lexer Ast Display LexPrint Parser Statements.

(** ** Expressions without their positions *)

Definition no_span : Span := mkSpan 0 0.
Definition strip_ident (i : Ident) : Ident := mkIdent (id_value i) no_span.
Definition strip_literal (l : Literal) : Literal :=
  match l with
  | LNull _ => LNull no_span
  | LInteger n _ => LInteger n no_span
  | LFloat f _ => LFloat f no_span
  | LString v _ => LString v no_span
  | LBoolean b _ => LBoolean b no_span
  end.
Definition strip_column (c : ColumnRef) : ColumnRef :=
  match c with
  | Named t c => Named (strip_ident <$> t) (strip_ident c)
  | ColStar _ => ColStar no_span
  | QualifiedStar t _ => QualifiedStar (strip_ident t) no_span
  end.
Definition strip_table (t : TableRef) : TableRef :=
  mkTableRef (strip_ident (tr_name t)) (strip_ident <$> tr_alias t) no_span.

Fixpoint strip_expr (e : Expr) : Expr :=
  match e with
  | ELiteral l => ELiteral (strip_literal l)
  | EColumn c => EColumn (strip_column c)
  | EBinary op l r _ => EBinary op (strip_expr l) (strip_expr r) no_span
  | EUnary op e _ => EUnary op (strip_expr e) no_span
  | EIsNull e n _ => EIsNull (strip_expr e) n no_span
  | EIn e vs n _ => EIn (strip_expr e) (map strip_expr vs) n no_span
  | EInSubquery e q n _ => EInSubquery (strip_expr e) (strip_select q) n no_span
  | EExists q n _ => EExists (strip_select q) n no_span
  | EScalarSubquery q _ => EScalarSubquery (strip_select q) no_span
  | EBetween e l h n _ => EBetween (strip_expr e) (strip_expr l) (strip_expr h) n no_span
  | EParen e _ => EParen (strip_expr e) no_span
  | EParameter i _ => EParameter i no_span
  | ECurrentUser _ => ECurrentUser no_span
  | ECast e t _ => ECast (strip_expr e) t no_span
  | EFunction name args over _ =>
      EFunction (strip_ident name) (map strip_expr args)
        (match over with Some w => Some (strip_window w) | None => None end) no_span
  end
with strip_window (w : WindowSpec) : WindowSpec :=
  match w with mkWindowSpec p o f => mkWindowSpec (map strip_expr p) (map strip_key o) f end
with strip_key (k : OrderKey) : OrderKey :=
  match k with mkOrderKey e a => mkOrderKey (strip_expr e) a end
with strip_item (i : SelectItem) : SelectItem :=
  match i with mkSelectItem e a => mkSelectItem (strip_expr e) (strip_ident <$> a) end
with strip_from (f : FromItem) : FromItem :=
  match f with
  | FromTable t => FromTable (strip_table t)
  | FromSubquery q a _ => FromSubquery (strip_select q) (strip_ident a) no_span
  end
with strip_join (j : Join) : Join :=
  match j with mkJoin k t e _ => mkJoin k (strip_table t) (strip_expr e) no_span end
with strip_cte_body (b : CteBody) : CteBody :=
  match b with
  | CteSelect q => CteSelect (strip_select q)
  | CteUnion a all r => CteUnion (strip_select a) all (strip_select r)
  end
with strip_cte (c : CteDef) : CteDef :=
  match c with mkCteDef n b _ => mkCteDef (strip_ident n) (strip_cte_body b) no_span end
with strip_with (w : WithClause) : WithClause :=
  match w with mkWithClause r cs _ => mkWithClause r (map strip_cte cs) no_span end
with strip_compound (c : CompoundSelect) : CompoundSelect :=
  match c with mkCompoundSelect op all q => mkCompoundSelect op all (strip_select q) end
with strip_select (q : SelectStmt) : SelectStmt :=
  match q with
  | mkSelectStmt w d i f j wh g h o l off c _ =>
      mkSelectStmt (match w with Some w => Some (strip_with w) | None => None end) d (map strip_item i)
        (match f with Some f => Some (strip_from f) | None => None end) (map strip_join j)
        (match wh with Some e => Some (strip_expr e) | None => None end) (map strip_expr g)
        (match h with Some e => Some (strip_expr e) | None => None end) (map strip_key o) l off
        (match c with Some c => Some (strip_compound c) | None => None end) no_span
  end.

(** ** Parenthesized expressions *)

(** A name that prints to one token: a word that is no keyword, or any other
    string that is not made of word bytes only (which is printed in quotes). *)
Definition plain_word (v : bytes) : bool :=
  match v with
  | b :: w => is_ident_start b && forallb is_simple_ident w &&
              match keyword_lookup v with None => true | Some _ => false end
  | [] => false
  end.
Definition ident_prints (i : Ident) : Prop :=
  if forallb is_simple_ident (id_value i) then plain_word (id_value i) = true
  else exists cs, Forall is_char cs /\ id_value i = utf8 cs.

Definition literal_prints (l : Literal) : Prop :=
  match l with
  | LNull _ | LBoolean _ _ => True
  | LInteger n _ => 0 <= n <= i64_max
  | LFloat _ _ => False
  | LString v _ => exists cs, Forall is_char cs /\ v = utf8 cs
  end.

Definition column_prints (c : ColumnRef) : Prop :=
  match c with
  | Named t c => match t with Some t => ident_prints t | None => True end /\ ident_prints c
  | ColStar _ => True
  | QualifiedStar t _ => ident_prints t
  end.

Definition type_prints (t : SqlType) : Prop :=
  match t with
  | TyVarchar (Some n) | TyVector n => 0 <= n <= umax 32
  | TyNamed _ => False
  | _ => True
  end.

(** [canon true e]: an atom; [canon false e]: an atom, or an operator on atoms. *)
Fixpoint canon (atom : bool) (e : Expr) : Prop :=
  match e with
  | ELiteral l => literal_prints l
  | EColumn c => column_prints c
  | EBinary op l r _ => atom = false /\ canon true l /\ canon true r
  | EUnary op e _ => atom = false /\ canon true e
  | EIsNull e _ _ => atom = false /\ canon true e
  | EIn e vs _ _ => atom = false /\ canon true e /\ fold_right (fun v P => canon false v /\ P) True vs
  | EBetween e l h _ _ => atom = false /\ canon true e /\ canon true l /\ canon true h
  | EParen e _ => canon false e
  | EParameter i _ => 1 <= i <= umax 16
  | ECurrentUser _ => True
  | ECast e t _ => canon false e /\ type_prints t
  | EFunction name args over _ =>
      ident_prints name /\ over = None /\ fold_right (fun v P => canon false v /\ P) True args
  | EInSubquery _ _ _ _ | EExists _ _ _ | EScalarSubquery _ _ => False
  end.

(** ** The pieces of an expression's text *)

Definition kw_piece (s : bool) (kw : Keyword) : piece := mkPiece s (TKeyword kw) (write_keyword kw).
Definition punct_piece (s : bool) (p : Punctuation) : piece :=
  mkPiece s (TPunct p) [match p with LParen => x28 | RParen => x29 | Comma => x2c | Semicolon => x3b
                                 | Dot => x2e | Star => x2a end].
Definition ident_piece (s : bool) (i : Ident) : piece :=
  mkPiece s (if forallb is_simple_ident (id_value i) then TIdent else TQuotedIdent (id_value i)) (write_ident i).
Definition word_piece (s : bool) (w : string) : piece := mkPiece s TIdent (bs w).
Definition int_piece (s : bool) (n : Z) : piece := mkPiece s (TInteger n) (show_Z n).

Section printed.
Context `{FloatText}.

Definition literal_piece (s : bool) (l : Literal) : piece :=
  mkPiece s match l with
            | LNull _ => TKeyword KwNull
            | LInteger n _ => TInteger n
            | LFloat f _ => TFloat f
            | LString v _ => TString v
            | LBoolean b _ => TKeyword (if b then KwTrue else KwFalse)
            end (write_literal l).

Definition type_pieces (s : bool) (t : SqlType) : list piece :=
  match t with
  | TyInt => [word_piece s "INT"] | TyBoolean => [word_piece s "BOOLEAN"] | TyFloat => [word_piece s "FLOAT"]
  | TyText => [word_piece s "TEXT"] | TyDate => [word_piece s "DATE"] | TyTimestamp => [word_piece s "TIMESTAMP"]
  | TyVarchar None => [word_piece s "VARCHAR"]
  | TyVarchar (Some n) =>
      [word_piece s "VARCHAR"; punct_piece false LParen; int_piece false n; punct_piece false RParen]
  | TyVector n => [word_piece s "VECTOR"; punct_piece false LParen; int_piece false n; punct_piece false RParen]
  | TyNamed _ => []
  end.

Definition column_pieces (s : bool) (c : ColumnRef) : list piece :=
  match c with
  | Named None c => [ident_piece s c]
  | Named (Some t) c => [ident_piece s t; punct_piece false Dot; ident_piece false c]
  | ColStar _ => [punct_piece s Star]
  | QualifiedStar t _ => [ident_piece s t; punct_piece false Dot; punct_piece false Star]
  end.

Definition not_pieces (n : bool) : list piece := if n then [kw_piece true KwNot] else [].

(** Comma-separated lists: no space before the first element *)
Definition list_pieces {A} (f : bool -> A -> list piece) (vs : list A) : list piece :=
  match vs with
  | [] => []
  | v :: r => f false v ++ concat (map (fun v => punct_piece false Comma :: f true v) r)
  end.

Fixpoint expr_pieces (s : bool) (e : Expr) : list piece :=
  match e with
  | ELiteral l => [literal_piece s l]
  | EColumn c => column_pieces s c
  | EBinary op l r _ => expr_pieces s l ++ [mkPiece true (op_token op) (binary_op op)] ++ expr_pieces true r
  | EUnary UNot e _ => kw_piece s KwNot :: expr_pieces true e
  | EUnary UMinus e _ => mkPiece s (TOp OpMinus) [x2d] :: expr_pieces false e
  | EIsNull e n _ => expr_pieces s e ++ [kw_piece true KwIs] ++ not_pieces n ++ [kw_piece true KwNull]
  | EIn e vs n _ =>
      expr_pieces s e ++ not_pieces n ++ [kw_piece true KwIn; punct_piece true LParen] ++
      list_pieces expr_pieces vs ++ [punct_piece false RParen]
  | EBetween e l h n _ =>
      expr_pieces s e ++ not_pieces n ++ [kw_piece true KwBetween] ++ expr_pieces true l ++
      [kw_piece true KwAnd] ++ expr_pieces true h
  | EParen e _ => punct_piece s LParen :: expr_pieces false e ++ [punct_piece false RParen]
  | EParameter i _ => [mkPiece s (TParameter i) ([x24] ++ show_Z i)]
  | ECurrentUser _ => [kw_piece s KwCurrentUser]
  | ECast e t _ =>
      [kw_piece s KwCast; punct_piece false LParen] ++ expr_pieces false e ++ [kw_piece true KwAs] ++
      type_pieces true t ++ [punct_piece false RParen]
  | EFunction name args over _ =>
      [ident_piece s name; punct_piece false LParen] ++ list_pieces expr_pieces args ++ [punct_piece false RParen]
  | EInSubquery _ _ _ _ | EExists _ _ _ | EScalarSubquery _ _ => []
  end.

(** ** The pieces make the text *)

Definition expr_size (e : Expr) : nat := length (expr_pieces false e).

Lemma column_pieces_length s c : length (column_pieces s c) = length (column_pieces false c).
Proof. by destruct c as [[]| |]. Qed.

Lemma list_pieces_in {A} (f : bool -> A -> list piece) vs v :
  (forall s v, length (f s v) = length (f false v)) -> v ∈ vs ->
  (length (f false v) <= length (list_pieces f vs))%nat.
Proof.
  intros Hf Hv. destruct vs as [|w vs]; [by apply elem_of_nil in Hv|]. simpl. rewrite length_app.
  apply elem_of_cons in Hv as [->|Hv]; [lia|]. apply list_elem_of_split in Hv as (l1 & l2 & ->).
  rewrite map_app, concat_app, length_app. simpl. rewrite length_app, (Hf true v). lia.
Qed.

Lemma expr_pieces_length s e : length (expr_pieces s e) = expr_size e.
Proof.
  unfold expr_size. revert s. induction e; intros s'; simpl; rewrite ?length_app; auto.
  - apply column_pieces_length.
  - destruct op; done.
Qed.

(** Strong induction on the number of pieces *)
Lemma expr_size_ind (P : Expr -> Prop) :
  (forall e, (forall e', (expr_size e' < expr_size e)%nat -> P e') -> P e) -> forall e, P e.
Proof.
  intros HP e. remember (expr_size e) as n eqn:En. revert e En. induction (lt_wf n) as [n _ IH].
  intros e ->. apply HP. intros e' He'. by apply (IH (expr_size e')).
Qed.

Definition lead (s : bool) : bytes := if s then [x20] else [].

Lemma sep_by_cons sep x l : sep_by sep (x :: l) = x ++ concat (map (fun y => sep ++ y) l).
Proof.
  revert x. induction l as [|y l IH]; intros x; [simpl; by rewrite app_nil_r|].
  change (sep_by sep (x :: y :: l)) with (x ++ sep ++ sep_by sep (y :: l)). rewrite IH. simpl.
  by rewrite <- app_assoc.
Qed.

Lemma text_concat l : text_of (concat l) = concat (map text_of l).
Proof. induction l as [|x l IH]; [done|]. simpl. by rewrite text_of_app, IH. Qed.

Lemma list_text vs :
  (forall v s, v ∈ vs -> text_of (expr_pieces s v) = lead s ++ write_expr v) ->
  text_of (list_pieces expr_pieces vs) = sep_by comma_sp (map write_expr vs).
Proof.
  intros Hv. destruct vs as [|v vs]; [done|]. cbn [map list_pieces].
  rewrite sep_by_cons, text_of_app, text_concat, !map_map, Hv by left. simpl. f_equal. f_equal.
  apply map_ext_in. intros w Hw. rewrite text_of_cons, Hv; [done|]. right. by apply list_elem_of_In.
Qed.

Lemma fold_canon vs : fold_right (fun v P => canon false v /\ P) True vs <-> forall v, v ∈ vs -> canon false v.
Proof.
  induction vs as [|v vs IH]; simpl.
  - split; [|done]. by intros _ v ?%elem_of_nil.
  - rewrite IH. split.
    + intros [Hv Hvs] w [->|Hw]%elem_of_cons; auto.
    + intros Hall. split; [apply Hall; left|]. intros w Hw. apply Hall. by right.
Qed.

Lemma list_pieces_size vs v : v ∈ vs -> (expr_size v <= length (list_pieces expr_pieces vs))%nat.
Proof. apply list_pieces_in. intros. apply expr_pieces_length. Qed.

Ltac size_lia :=
  unfold expr_size in *; cbn [expr_pieces length app] in *; do 2 (rewrite ?length_app in *; cbn [length] in * );
  rewrite ?expr_pieces_length in *; unfold expr_size in *; lia.

Lemma text_single p : text_of [p] = piece_text p.
Proof. unfold text_of. simpl. by rewrite app_nil_r. Qed.

Lemma column_text s c : text_of (column_pieces s c) = lead s ++ write_column c.
Proof.
  destruct c as [[t|] c|s'|t s']; unfold text_of; simpl; rewrite ?app_nil_r; unfold piece_text; simpl;
    rewrite ?app_nil_r, <- ?app_assoc; done.
Qed.

Lemma type_text s t : type_prints t -> text_of (type_pieces s t) = lead s ++ write_type t.
Proof.
  destruct t as [| | |[]| | | | |]; intros Ht; try done; unfold text_of; simpl; rewrite ?app_nil_r;
    unfold piece_text, in_parens; simpl; by rewrite <- ?app_assoc.
Qed.

Lemma not_text n : text_of (not_pieces n) = write_not n.
Proof. by destruct n. Qed.

Lemma expr_text e : forall a s, canon a e -> text_of (expr_pieces s e) = lead s ++ write_expr e.
Proof.
  induction e as [e IH] using expr_size_ind; intros a s Hc.
  assert (forall vs, (length (list_pieces expr_pieces vs) < expr_size e)%nat ->
    fold_right (fun v P => canon false v /\ P) True vs ->
    text_of (list_pieces expr_pieces vs) = sep_by comma_sp (map write_expr vs)) as Hlist.
  { intros vs Hsz Hvs. apply list_text. intros v s' Hv. eapply IH.
    - pose proof (list_pieces_size vs v Hv). lia.
    - by apply (proj1 (fold_canon vs) Hvs). }
  destruct e as [l|c|op e1 e2 sp0|op e sp0|e n sp0|e vs n sp0| | | |e l h n sp0|e sp0|ix sp0|sp0|e t sp0|nm args o sp0];
    cbn [canon] in Hc; try contradiction; cbn [expr_pieces write_expr].
  - rewrite text_single. done.
  - apply column_text.
  - destruct Hc as (_ & H1 & H2). rewrite !text_of_app, text_single.
    rewrite (IH e1 ltac:(size_lia) _ _ H1), (IH e2 ltac:(size_lia) _ _ H2). unfold piece_text. simpl.
    by rewrite <- !app_assoc.
  - destruct Hc as (_ & H1). destruct op; rewrite text_of_cons, (IH e ltac:(size_lia) _ _ H1);
      unfold piece_text; simpl; by rewrite <- !app_assoc.
  - destruct Hc as (_ & H1). rewrite !text_of_app, (IH e ltac:(size_lia) _ _ H1), not_text, !text_single.
    unfold piece_text. simpl. by rewrite <- !app_assoc.
  - destruct Hc as (_ & H1 & H2). rewrite !text_of_app, (IH e ltac:(size_lia) _ _ H1), not_text, Hlist;
      [|size_lia|done]. rewrite text_of_cons, !text_single. unfold piece_text, in_parens. simpl.
    by rewrite <- !app_assoc.
  - destruct Hc as (_ & H1 & H2 & H3). rewrite !text_of_app, not_text, !text_single.
    rewrite (IH e ltac:(size_lia) _ _ H1), (IH l ltac:(size_lia) _ _ H2), (IH h ltac:(size_lia) _ _ H3).
    unfold piece_text. simpl. by rewrite <- !app_assoc.
  - rewrite text_of_cons, text_of_app, text_single, (IH e ltac:(size_lia) _ _ Hc).
    unfold piece_text, in_parens. simpl. by rewrite <- !app_assoc.
  - rewrite text_single. done.
  - rewrite text_single. done.
  - destruct Hc as (H1 & H2). rewrite !text_of_app, (IH e ltac:(size_lia) _ _ H1), type_text by done.
    rewrite text_of_cons, !text_single. unfold piece_text. simpl. by rewrite <- !app_assoc.
  - destruct Hc as (H1 & -> & H2). rewrite !text_of_app, Hlist; [|size_lia|done].
    rewrite text_of_cons, !text_single. unfold piece_text, in_parens. simpl. by rewrite <- !app_assoc, app_nil_r.
Qed.

(** ** The pieces are read as tokens *)

Context `{Unicode}.

(** What may follow an expression: the end, a space, a closing parenthesis or a comma. *)
Definition hard_end (rest : bytes) : bool :=
  match rest with [] => true | c :: _ => byte_is x20 c || byte_is x29 c || byte_is x2c c end.
(** What may follow a word: also an opening parenthesis or a dot. *)
Definition soft_end (rest : bytes) : bool :=
  hard_end rest || match rest with [] => true | c :: _ => byte_is x28 c || byte_is x2e c end.

Lemma soft_word rest : soft_end rest = true -> word_end rest.
Proof.
  destruct rest as [|c r]; [done|]. unfold soft_end, hard_end, word_end. revert c.
  apply (forall_byte (fun c => byte_is x20 c || byte_is x29 c || byte_is x2c c || (byte_is x28 c || byte_is x2e c) = true ->
    b2z c < 0x80 /\ is_simple_ident c = false)). vm_compute. reflexivity.
Qed.
Lemma hard_soft rest : hard_end rest = true -> soft_end rest = true.
Proof. unfold soft_end. by intros ->. Qed.
Lemma hard_number rest : hard_end rest = true -> number_end rest.
Proof.
  destruct rest as [|c r]; [done|]. unfold hard_end, number_end. revert c.
  apply (forall_byte (fun c => byte_is x20 c || byte_is x29 c || byte_is x2c c = true ->
    b2z c < 0x80 /\ is_ascii_digit c || byte_is x2e c || is_e c = false)). vm_compute. reflexivity.
Qed.
Lemma soft_not_quote q rest : q = x22 \/ q = x27 -> soft_end rest = true -> head rest <> Some q.
Proof.
  destruct rest as [|c r]; [done|]. intros Hq E Hc. injection Hc as ->. by destruct Hq as [-> | ->].
Qed.

(** A piece before a text *)
Definition piece_ok (p : piece) (rest : bytes) : Prop :=
  lexes (pc_tok p) (pc_text p) rest /\ pc_text p <> [] /\
  (pc_tok p = TIdent -> ascii_head (pc_text p) /\ ascii_head rest).

Lemma pieces_ok_cons p ps rest : pieces_ok (p :: ps) rest <-> piece_ok p (text_of ps ++ rest) /\ pieces_ok ps rest.
Proof. unfold piece_ok. simpl. tauto. Qed.
Lemma pieces_ok_one p rest : piece_ok p rest -> pieces_ok [p] rest.
Proof. intros Hp. apply pieces_ok_cons. by split. Qed.

(** The keywords that are printed by their name *)
Lemma kw_ok s kw rest :
  keyword_lookup (write_keyword kw) = Some kw -> soft_end rest = true -> piece_ok (kw_piece s kw) rest.
Proof.
  intros Hk Hr. assert (exists b w, write_keyword kw = b :: w /\ is_ident_start b = true /\
    Forall (fun b => is_simple_ident b = true) w) as (b & w & E & Hb & Hw).
  { destruct kw; eexists _, _; (split; [vm_compute; reflexivity|split; [reflexivity|]]);
      by apply (bool_decide_eq_true_1 _). }
  unfold piece_ok, kw_piece. cbn [pc_tok pc_text]. rewrite E in *. split; [|done].
  pose proof (lexes_word b w rest Hb Hw (soft_word _ Hr)) as Hl. by rewrite Hk in Hl.
Qed.

Lemma word_ok s w rest :
  plain_word w = true -> soft_end rest = true -> piece_ok (mkPiece s TIdent w) rest.
Proof.
  unfold plain_word, piece_ok. cbn [pc_tok pc_text]. intros Hw Hr.
  destruct w as [|b r]; [done|]. apply andb_true_iff in Hw as [Hw Hk]. apply andb_true_iff in Hw as [Hb Hw].
  split; [|split; [done|]].
  - pose proof (lexes_word b r rest Hb) as Hl. destruct (keyword_lookup (b :: r)); [done|]. apply Hl; [|by apply soft_word].
    apply Forall_forall. intros x Hx. rewrite forallb_forall in Hw. by apply Hw, list_elem_of_In.
  - intros _. split; [by apply simple_ascii, ident_start_simple|]. by apply word_end_ascii, soft_word.
Qed.

Lemma quoted_ok s q mk cs rest :
  (q = x27 /\ mk = TString \/ q = x22 /\ mk = TQuotedIdent) -> Forall is_char cs -> soft_end rest = true ->
  piece_ok (mkPiece s (mk (utf8 cs)) (quoted q (utf8 cs))) rest.
Proof.
  intros Hq Hcs Hr. split; [|split; [done|]].
  - apply lexes_quoted; [done..|]. apply soft_not_quote; [|done]. destruct Hq as [[-> _]|[-> _]]; auto.
  - simpl. by destruct Hq as [[_ ->]|[_ ->]].
Qed.

Lemma ident_ok s i rest : ident_prints i -> soft_end rest = true -> piece_ok (ident_piece s i) rest.
Proof.
  unfold ident_prints, ident_piece, write_ident. intros Hi Hr.
  destruct (forallb is_simple_ident (id_value i)) eqn:E.
  - by apply word_ok.
  - destruct Hi as (cs & Hcs & ->). by apply (quoted_ok s x22 TQuotedIdent cs rest ltac:(auto)).
Qed.

Lemma punct_ok s p rest : p <> Dot -> p <> Semicolon -> piece_ok (punct_piece s p) rest.
Proof.
  intros Hp Hs. split; [|by split; [|]]. destruct p; try done; by apply lexes_punct.
Qed.
Lemma dot_ok s rest : next_is is_ascii_digit (head rest) = false -> piece_ok (punct_piece s Dot) rest.
Proof. intros Hr. split; [by apply lexes_dot|by split]. Qed.
Lemma minus_ok s rest : head rest <> Some x2d -> piece_ok (mkPiece s (TOp OpMinus) [x2d]) rest.
Proof.
  intros Hr. split; [|by split]. apply lexes_minus. destruct rest as [|c r]; [done|]. simpl.
  apply bool_decide_eq_false. simpl in Hr. congruence.
Qed.
Lemma op_ok s op rest : piece_ok (mkPiece s (op_token op) (binary_op op)) (x20 :: rest).
Proof. split; [apply lexes_op|]. split; [by destruct op|]. intros E. by destruct op. Qed.

Lemma show_Z_ne n : 0 <= n -> exists d ds, show_Z n = d :: ds /\ is_ascii_digit d = true.
Proof.
  intros Hn. unfold show_Z. rewrite (proj2 (Z.ltb_ge _ _)) by lia.
  destruct (show_nat_spec n) as (d & ds & -> & Hds & _); [lia|]. exists d, ds. split; [done|]. by apply Forall_inv in Hds.
Qed.
Lemma int_ok s n rest : 0 <= n <= i64_max -> hard_end rest = true -> piece_ok (int_piece s n) rest.
Proof.
  intros Hn Hr. split; [by apply lexes_integer, hard_number|]. split; [|done]. simpl.
  destruct (show_Z_ne n) as (d & ds & -> & _); [lia|done].
Qed.
Lemma param_ok s n rest :
  1 <= n <= umax 16 -> hard_end rest = true -> piece_ok (mkPiece s (TParameter n) ([x24] ++ show_Z n)) rest.
Proof. intros Hn Hr. split; [|done]. by apply lexes_parameter, hard_number. Qed.

Lemma literal_ok s l rest : literal_prints l -> hard_end rest = true -> piece_ok (literal_piece s l) rest.
Proof.
  intros Hl Hr. destruct l as [|n|f|v|b]; cbn [literal_prints] in Hl; try done.
  - by apply (kw_ok s KwNull), hard_soft.
  - by apply int_ok.
  - destruct Hl as (cs & Hcs & ->). by apply (quoted_ok s x27 TString cs rest ltac:(auto)), hard_soft.
  - destruct b; [by apply (kw_ok s KwTrue), hard_soft|by apply (kw_ok s KwFalse), hard_soft].
Qed.

(** A name does not begin with a digit. *)
Lemma ident_no_digit i rest : ident_prints i -> next_is is_ascii_digit (head (write_ident i ++ rest)) = false.
Proof.
  unfold ident_prints, write_ident. destruct (forallb _ _) eqn:E; [|done]. unfold plain_word.
  destruct (id_value i) as [|b w]; [done|]. intros Hw. apply andb_true_iff in Hw as [Hw _].
  apply andb_true_iff in Hw as [Hb _]. simpl. destruct (is_ascii_digit b) eqn:Ed; [|done].
  apply digit_not_start in Ed. congruence.
Qed.

Lemma column_ok s c rest : column_prints c -> soft_end rest = true -> pieces_ok (column_pieces s c) rest.
Proof.
  intros Hc Hr. destruct c as [[t|] c|sp0|t sp0]; cbn [column_pieces column_prints] in *;
    rewrite ?pieces_ok_cons; repeat split_and; try done.
  all: try (apply punct_ok; done); try (apply ident_ok; naive_solver).
  - apply dot_ok. unfold text_of. simpl. rewrite app_nil_r. unfold piece_text. simpl. apply ident_no_digit, Hc.
  - by apply dot_ok.
Qed.

Lemma type_ok s t rest : type_prints t -> hard_end rest = true -> pieces_ok (type_pieces s t) rest.
Proof.
  assert (umax 32 <= i64_max) by done.
  assert (forall n, 0 <= n <= umax 32 -> pieces_ok [int_piece false n; punct_piece false RParen] rest) as Hn.
  { intros n Hn. rewrite !pieces_ok_cons. split; [apply int_ok; [lia|done]|]. split; [by apply punct_ok|done]. }
  intros Ht Hr. pose proof (hard_soft _ Hr).
  destruct t as [| | |[n|]| | | |n|]; try done; cbn [type_prints type_pieces] in *;
    try (by apply pieces_ok_one, word_ok);
    (rewrite pieces_ok_cons; split; [by apply word_ok|]; rewrite pieces_ok_cons; split; [by apply punct_ok|]; by apply Hn).
Qed.

(** The first token of an expression, and of an atom *)
Definition starts_atom (k : Token) : Prop :=
  match k with
  | TKeyword (KwNull | KwTrue | KwFalse | KwCurrentUser | KwCast)
  | TIdent | TQuotedIdent _ | TInteger _ | TString _ | TParameter _ | TPunct (LParen | Star) => True
  | _ => False
  end.
Definition starts_expr (k : Token) : Prop := starts_atom k \/ k = TKeyword KwNot \/ k = TOp OpMinus.

Lemma ident_start i : starts_atom (pc_tok (ident_piece false i)).
Proof. unfold ident_piece. simpl. by destruct (forallb _ _). Qed.

Lemma no_minus_ident i : ident_prints i -> head (write_ident i) <> Some x2d.
Proof.
  unfold ident_prints, write_ident. destruct (forallb _ _); [|done]. unfold plain_word.
  destruct (id_value i) as [|b w]; [done|]. intros Hw E. injection E as ->. done.
Qed.

Lemma atom_first e s :
  canon true e ->
  exists p ps, expr_pieces s e = p :: ps /\ pc_space p = s /\ starts_atom (pc_tok p) /\ head (pc_text p) <> Some x2d.
Proof.
  destruct e as [l|c|op e1 e2 sp0|op e sp0|e n sp0|e vs n sp0| | | |e l h n sp0|e sp0|ix sp0|sp0|e t sp0|nm args o sp0];
    cbn [canon]; intros Hc; try (by destruct Hc); try done; cbn [expr_pieces].
  - eexists _, _. do 2 (split; [reflexivity|]). destruct l as [|n|f|v|[]]; try done. split; [done|]. simpl in *.
    destruct (show_Z_ne n) as (d & ds & -> & Hd); [lia|]. simpl. intros E. by injection E as ->.
  - destruct c as [[t|] c|sp0|t sp0]; eexists _, _; do 2 (split; [reflexivity|]);
      (split; [by apply ident_start|apply no_minus_ident; naive_solver]) || done.
  - eexists _, _. by do 3 (split; [reflexivity|]).
  - eexists _, _. by do 3 (split; [reflexivity|]).
  - eexists _, _. by do 3 (split; [reflexivity|]).
  - eexists _, _. by do 3 (split; [reflexivity|]).
  - eexists _, _. do 2 (split; [reflexivity|]). split; [by apply ident_start|]. apply no_minus_ident. naive_solver.
Qed.

Lemma expr_first e a s :
  canon a e -> exists p ps, expr_pieces s e = p :: ps /\ pc_space p = s /\ starts_expr (pc_tok p).
Proof.
  unfold starts_expr. intros Hc. destruct (decide (a = true)) as [->|Ha].
  { destruct (atom_first e s Hc) as (p & ps & ? & ? & ? & _). eauto 8. }
  assert (forall e', canon true e' -> forall ps, exists p qs, expr_pieces s e' ++ ps = p :: qs /\ pc_space p = s /\
    (starts_atom (pc_tok p) \/ pc_tok p = TKeyword KwNot \/ pc_tok p = TOp OpMinus)) as Hop.
  { intros e' He ps. destruct (atom_first e' s He) as (p & qs & -> & Hs & Hp & _). exists p, (qs ++ ps). auto. }
  pose proof (atom_first e s) as Hat.
  destruct e as [l|c|op e1 e2 sp0|op e sp0|e n sp0|e vs n sp0| | | |e l h n sp0|e sp0|ix sp0|sp0|e t sp0|nm args o sp0];
    cbn [canon] in Hc; try (by destruct Hc); try (apply Hop; naive_solver).
  all: try (destruct (Hat Hc) as (p & ps & ? & ? & ? & _); eauto 8; done).
  destruct op; eexists _, _; split; try reflexivity; split; try reflexivity; auto.
Qed.

Lemma head_space p ps rest : pc_space p = true -> text_of (p :: ps) ++ rest = x20 :: pc_text p ++ text_of ps ++ rest.
Proof. intros Hs. rewrite text_of_cons. unfold piece_text. rewrite Hs. by rewrite <- !app_assoc. Qed.

Lemma expr_space e a ps rest : canon a e -> exists r, text_of (expr_pieces true e ++ ps) ++ rest = x20 :: r.
Proof.
  intros Hc. destruct (expr_first e a true Hc) as (p & qs & -> & Hs & _). eexists. by apply head_space.
Qed.

Definition ends_hard (e : Expr) : Prop :=
  forall a s rest, canon a e -> hard_end rest = true -> pieces_ok (expr_pieces s e) rest.

Lemma list_ok vs rest :
  (forall v, v ∈ vs -> canon false v /\ ends_hard v) -> hard_end rest = true ->
  pieces_ok (list_pieces expr_pieces vs) rest.
Proof.
  intros Hv Hr. assert (forall v, v ∈ vs -> forall s rest, hard_end rest = true -> pieces_ok (expr_pieces s v) rest) as Hp.
  { intros v [Hc He]%Hv s rest' Hr'. by apply (He false). }
  destruct vs as [|v vs]; [done|]. cbn [list_pieces]. apply pieces_ok_app. split.
  - apply Hp; [left|]. destruct vs as [|w vs]; [done|]. done.
  - assert (forall ws, (forall w, w ∈ ws -> w ∈ v :: vs) ->
      pieces_ok (concat (map (fun v => punct_piece false Comma :: expr_pieces true v) ws)) rest) as He;
      [|apply He; intros; by right].
    intros ws. induction ws as [|w ws IH]; intros Hws; [done|]. cbn [map concat]. cbn [app].
    rewrite pieces_ok_cons. split; [by apply punct_ok|]. apply pieces_ok_app. split.
    + apply Hp; [apply Hws; left|]. by destruct ws.
    + apply IH. intros x Hx. apply Hws. by right.
Qed.

Lemma expr_ok e : ends_hard e.
Proof.
  induction e as [e IH] using expr_size_ind; intros a s rest Hc Hr. pose proof (hard_soft _ Hr) as Hsr.
  assert (forall vs rest, (length (list_pieces expr_pieces vs) < expr_size e)%nat ->
    fold_right (fun v P => canon false v /\ P) True vs -> hard_end rest = true ->
    pieces_ok (list_pieces expr_pieces vs) rest) as Hlist.
  { intros vs rest' Hsz Hvs Hr'. apply list_ok; [|done]. intros v Hv. split; [by apply (proj1 (fold_canon vs) Hvs)|].
    apply IH. pose proof (list_pieces_size vs v Hv). lia. }
  assert (forall n ps rest, pieces_ok ps rest -> soft_end (text_of ps ++ rest) = true -> pieces_ok (not_pieces n ++ ps) rest) as Hnot.
  { intros [] ps rest' Hps Hs; [|done]. cbn [not_pieces app]. rewrite pieces_ok_cons. split; [by apply kw_ok|done]. }
  destruct e as [l|c|op e1 e2 sp0|op e sp0|e n sp0|e vs n sp0| | | |e l h n sp0|e sp0|ix sp0|sp0|e t sp0|nm args o sp0];
    cbn [canon] in Hc; try contradiction; cbn [expr_pieces].
  - by apply pieces_ok_one, literal_ok.
  - by apply column_ok.
  - destruct Hc as (_ & H1 & H2). apply pieces_ok_app. split; [by apply (IH e1 ltac:(size_lia) true)|].
    cbn [app]. rewrite pieces_ok_cons. split; [|by apply (IH e2 ltac:(size_lia) true)].
    destruct (expr_space e2 _ [] rest H2) as [r Er]. rewrite app_nil_r in Er. rewrite Er. apply op_ok.
  - destruct Hc as (_ & H1). pose proof (IH e ltac:(destruct op; size_lia) true) as He.
    destruct op; rewrite pieces_ok_cons; (split; [|by apply He]).
    + apply minus_ok. destruct (atom_first e false H1) as (p & ps & Ep & Hs & _ & Hh).
      specialize (He false rest H1 Hr). rewrite Ep in He |- *. destruct He as (_ & Hne & _).
      rewrite text_of_cons. unfold piece_text. rewrite Hs. by destruct (pc_text p).
    + destruct (expr_space e _ [] rest H1) as [r Er]. rewrite app_nil_r in Er. rewrite Er. by apply kw_ok.
  - destruct Hc as (_ & H1). apply pieces_ok_app. split; [by apply (IH e ltac:(size_lia) true); [|destruct n]|].
    cbn [app]. rewrite pieces_ok_cons. split; [by apply kw_ok; [|destruct n]|]. apply Hnot; [|done].
    by apply pieces_ok_one, kw_ok.
  - destruct Hc as (_ & H1 & H2). apply pieces_ok_app. split; [by apply (IH e ltac:(size_lia) true); [|destruct n]|].
    apply Hnot; [|done]. cbn [app]. rewrite !pieces_ok_cons. split; [by apply kw_ok|]. split; [by apply punct_ok|].
    apply pieces_ok_app. split; [apply Hlist; [size_lia|done|done]|]. by apply pieces_ok_one, punct_ok.
  - destruct Hc as (_ & H1 & H2 & H3). apply pieces_ok_app. split; [by apply (IH e ltac:(size_lia) true); [|destruct n]|].
    apply Hnot; [|done]. destruct (expr_space l _ ([kw_piece true KwAnd] ++ expr_pieces true h) rest H2) as [r Er].
    destruct (expr_space h _ [] rest H3) as [r' Er']. rewrite app_nil_r in Er'.
    cbn [app] in *. rewrite pieces_ok_cons. split; [rewrite Er; by apply kw_ok|]. apply pieces_ok_app.
    split; [by apply (IH l ltac:(size_lia) true)|]. rewrite pieces_ok_cons. split; [rewrite Er'; by apply kw_ok|].
    by apply (IH h ltac:(size_lia) true).
  - rewrite pieces_ok_cons. split; [by apply punct_ok|]. apply pieces_ok_app.
    split; [by apply (IH e ltac:(size_lia) false)|]. by apply pieces_ok_one, punct_ok.
  - by apply pieces_ok_one, param_ok.
  - by apply pieces_ok_one, kw_ok.
  - destruct Hc as (H1 & H2). cbn [app]. rewrite !pieces_ok_cons. split; [by apply kw_ok|]. split; [by apply punct_ok|].
    apply pieces_ok_app. split; [by apply (IH e ltac:(size_lia) false)|]. rewrite pieces_ok_cons.
    split; [|apply pieces_ok_app; split; [by apply type_ok|by apply pieces_ok_one, punct_ok]].
    apply kw_ok; [done|]. by destruct t as [| | |[]| | | | |].
  - destruct Hc as (H1 & -> & H2). cbn [app]. rewrite !pieces_ok_cons. split; [by apply ident_ok|].
    split; [by apply punct_ok|]. apply pieces_ok_app. split; [apply Hlist; [size_lia|done|done]|].
    by apply pieces_ok_one, punct_ok.
Qed.
End printed.
