(* ===== verification/ParsePrint.v ===== *)
(** * The parser on printed text

    The parser reads the tokens of a printed expression or statement as the
    syntax tree that was printed, up to the spans. *)

From S2P Require Import Prelude BTree Text Float64 Tokens Lexer Ast Display LexPrint Parser Statements RoundTrip.

Local Open Scope nat_scope.

(** ** Runs of the parser *)

Definition runs {S E A} (m : SM S E A) (s : S) (x : A) (s' : S) : Prop := m s = (Ok x, s').

Lemma runs_bind {S E A B} (m : SM S E A) (k : A -> SM S E B) s x s1 y s2 :
  runs m s x s1 -> runs (k x) s1 y s2 -> runs (sbind m k) s y s2.
Proof. unfold runs, sbind. by intros ->. Qed.
Lemma runs_ret {S E A} (x : A) (s : S) : runs (E:=E) (sret x) s x s.
Proof. done. Qed.
Lemma runs_map {S E A B} (f : A -> B) (m : SM S E A) s x s1 : runs m s x s1 -> runs (smap f m) s (f x) s1.
Proof. intros Hm. eapply runs_bind; [done|]. apply runs_ret. Qed.

(** The same for runs whose result only satisfies a property *)
Definition finds {S E A} (m : SM S E A) (s s' : S) (Q : A -> Prop) : Prop := exists x, runs m s x s' /\ Q x.

Lemma finds_bind {S E A B} (m : SM S E A) (k : A -> SM S E B) s s1 s2 P Q :
  finds m s s1 P -> (forall x, P x -> finds (k x) s1 s2 Q) -> finds (sbind m k) s s2 Q.
Proof. intros (x & Hx & Px) Hk. destruct (Hk x Px) as (y & Hy & Qy). exists y. split; [by eapply runs_bind|done]. Qed.
Lemma finds_any {S E A} (m : SM S E A) s s' : (exists x, runs m s x s') -> finds m s s' (fun _ => True).
Proof. intros [x Hx]. by exists x. Qed.
Lemma finds_runs {S E A} (m : SM S E A) s x s' : runs m s x s' -> finds m s s' (eq x).
Proof. intros Hx. by exists x. Qed.
Lemma finds_ret {S E A} (x : A) (s : S) Q : Q x -> finds (E:=E) (sret x) s s Q.
Proof. intros Hx. by exists x. Qed.

Lemma finds_assoc {S E A B C} (m : SM S E A) (g : A -> SM S E B) (k : B -> SM S E C) s s' Q :
  finds (sbind (sbind m g) k) s s' Q -> finds (sbind m (fun x => sbind (g x) k)) s s' Q.
Proof.
  intros (x & Hx & Qx). exists x. split; [|done]. unfold runs, sbind in *. by destruct (m s) as [[y|e|] s1].
Qed.

Section tokens.
Context (src : bytes) (tokens : list SpannedToken).

(** The token at an index *)
Definition has (pos : nat) (p : piece) : Prop := exists t, tokens !! pos = Some t /\ token_of src p t.
Definition has_kind (pos : nat) (k : Token) : Prop := exists t, tokens !! pos = Some t /\ tok_kind t = k.

Definition has_all (pos : nat) (ps : list piece) : Prop := forall i p, ps !! i = Some p -> has (pos + i) p.

Lemma has_all_cons pos p ps : has_all pos (p :: ps) <-> has pos p /\ has_all (S pos) ps.
Proof.
  split.
  - intros Ha. split; [rewrite <- (Nat.add_0_r pos); by apply Ha|]. intros i q Hi.
    rewrite Nat.add_succ_comm. by apply Ha.
  - intros [Hp Hps] [|i] q Hi; [injection Hi as <-; by rewrite Nat.add_0_r|]. rewrite <- Nat.add_succ_comm. by apply Hps.
Qed.
Lemma has_all_app pos ps qs : has_all pos (ps ++ qs) <-> has_all pos ps /\ has_all (pos + length ps) qs.
Proof.
  revert pos. induction ps as [|p ps IH]; intros pos; cbn [app length].
  - rewrite Nat.add_0_r. split; [|tauto]. intros Hq. split; [|done]. intros i q Hi. done.
  - rewrite !has_all_cons, IH, <- Nat.add_succ_comm. tauto.
Qed.
Lemma has_all_nil pos : has_all pos [].
Proof. intros i p Hi. done. Qed.

Lemma has_has_kind pos p : has pos p -> has_kind pos (pc_tok p).
Proof. intros (t & Ht & Hk & _). by exists t. Qed.

Local Abbreviation match_keyword := (match_keyword tokens).
Local Abbreviation peek_kind := (peek_kind tokens).

Lemma run_peek_kind pos k : has_kind pos k -> runs peek_kind pos k pos.
Proof. intros (t & Ht & <-). unfold runs, Parser.peek_kind, smap, sbind, peek, token_at. by rewrite Ht. Qed.
Lemma run_peek_span pos k : has_kind pos k -> exists s, runs (peek_span tokens) pos s pos.
Proof. intros (t & Ht & _). exists (tok_span t). unfold runs, peek_span, smap, sbind, peek, token_at. by rewrite Ht. Qed.
Lemma run_at_punct pos k p : has_kind pos k -> runs (at_punct tokens p) pos (bool_decide (k = TPunct p)) pos.
Proof. intros Hk. unfold at_punct. eapply (runs_map (fun _ => _)). by apply run_peek_kind. Qed.
Lemma run_at_keyword pos k kw : has_kind pos k -> runs (at_keyword tokens kw) pos (bool_decide (k = TKeyword kw)) pos.
Proof. intros Hk. unfold at_keyword. eapply (runs_map (fun _ => _)). by apply run_peek_kind. Qed.
Lemma bump_runs pos t : tokens !! pos = Some t -> tok_kind t <> TEof -> runs (bump_token tokens) pos t (S pos).
Proof.
  intros Ht Hk. unfold runs, bump_token, sbind, peek, token_at, smodify, sret. rewrite Ht.
  by rewrite bool_decide_eq_false_2.
Qed.
Lemma run_match pos k kw :
  has_kind pos k -> runs (match_keyword kw) pos (bool_decide (k = TKeyword kw))
    (if bool_decide (k = TKeyword kw) then S pos else pos).
Proof.
  intros Hk. unfold Parser.match_keyword. eapply runs_bind; [by apply run_peek_kind|]. destruct Hk as (t & Ht & <-).
  case_bool_decide as E; [|apply runs_ret]. eapply runs_bind; [by apply bump_runs; [|rewrite E]|]. apply runs_ret.
Qed.
Lemma run_match_hit pos kw : has_kind pos (TKeyword kw) -> runs (match_keyword kw) pos true (S pos).
Proof. intros Hk. pose proof (run_match pos _ kw Hk) as Hm. by rewrite bool_decide_eq_true_2 in Hm. Qed.
Lemma run_match_miss pos k kw : has_kind pos k -> k <> TKeyword kw -> runs (match_keyword kw) pos false pos.
Proof. intros Hk Hne. pose proof (run_match pos _ kw Hk) as Hm. by rewrite bool_decide_eq_false_2 in Hm. Qed.
Lemma run_expect_keyword pos kw :
  has_kind pos (TKeyword kw) -> exists s, runs (expect_keyword tokens kw) pos s (S pos).
Proof.
  intros (t & Ht & Hk). exists (tok_span t). unfold expect_keyword. eapply runs_bind; [apply bump_runs; [done|by rewrite Hk]|].
  rewrite bool_decide_eq_true_2 by done. apply runs_ret.
Qed.
Lemma run_expect_punct pos p : has_kind pos (TPunct p) -> exists s, runs (expect_punct tokens p) pos s (S pos).
Proof.
  intros (t & Ht & Hk). exists (tok_span t). unfold expect_punct. eapply runs_bind; [apply bump_runs; [done|by rewrite Hk]|].
  rewrite bool_decide_eq_true_2 by done. apply runs_ret.
Qed.
Lemma run_prev_span pos k : has_kind pos k -> exists s, runs (prev_span tokens) (S pos) s (S pos).
Proof.
  intros (t & Ht & _). exists (tok_span t). unfold runs, prev_span, smap, sbind, token_at. simpl.
  by rewrite Nat.sub_0_r, Ht.
Qed.
Lemma ident_runs pos s i : has pos (ident_piece s i) ->
  exists i', runs (parse_ident src tokens) pos i' (S pos) /\ strip_ident i' = strip_ident i.
Proof.
  intros (t & Ht & Hk & Hl). unfold ident_piece in Hk, Hl. cbn [pc_tok pc_text] in *. unfold parse_ident.
  assert (tok_kind t <> TEof) as Hne by (rewrite Hk; by destruct (forallb _ _)).
  destruct (forallb is_simple_ident (id_value i)) eqn:E.
  - eexists. split; [eapply runs_bind; [by apply bump_runs|]; rewrite Hk, Hl by done; apply runs_ret|].
    unfold strip_ident, write_ident. simpl. by rewrite E.
  - eexists. split; [eapply runs_bind; [by apply bump_runs|]; rewrite Hk; apply runs_ret|]. done.
Qed.

(** ** What may follow an expression *)

Definition stops (min : Prec) (k : Token) : Prop :=
  Forall (fun x => k <> x) [TKeyword KwIs; TKeyword KwNot; TKeyword KwIn; TKeyword KwBetween; TKeyword KwOver;
    TKeyword KwLike; TPunct Star; TPunct LParen; TPunct Dot] /\
  (forall op, k <> TOp op) /\
  (prec_le min PrOr = true -> k <> TKeyword KwOr) /\ (prec_le min PrAnd = true -> k <> TKeyword KwAnd).

Lemma stops_weaken min k : stops PrOr k -> stops min k.
Proof. intros (H1 & H2 & H3 & H4). repeat split; auto. Qed.
Lemma stops_not_name k min : stops min k -> k <> TPunct LParen /\ k <> TPunct Dot.
Proof. intros [Hf _]. rewrite !Forall_cons in Hf. naive_solver. Qed.

(** One test of a keyword that is not there *)
Ltac miss := eapply runs_bind;
  [eapply run_match_miss; [eassumption|first [assumption|discriminate]]|]; cbn iota beta.
Ltac hit := eapply runs_bind; [eapply run_match_hit; eassumption|]; cbn iota beta.
Ltac look := eapply runs_bind; [eapply run_peek_kind; eassumption|]; cbn beta.
Ltac look1 := eapply (runs_bind (peek_ahead _ _)); [reflexivity|]; cbn beta.
(** A call that is known to run *)
Ltac call H := let x := fresh "x" in let Hx := fresh "Hx" in
  destruct H as [x Hx]; eapply runs_bind; [exact Hx|]; clear Hx; cbn beta.
Ltac no_kind := rewrite bool_decide_eq_false_2 by (first [assumption|discriminate|congruence]); cbn iota.
Ltac is_kind := rewrite bool_decide_eq_true_2 by reflexivity; cbn iota.

Section loop.
Context (re : Prec -> SM nat ParseError Expr) (rs : bool -> bool -> SM nat ParseError SelectStmt).
Local Abbreviation expr_loop := (expr_loop src tokens re rs).

Lemma loop_stop fuel min left pos k :
  has_kind pos k -> stops min k -> runs (expr_loop (S fuel) min left) pos left pos.
Proof.
  intros Hk (Hf & Hop & Hor & Hand). rewrite !Forall_cons in Hf.
  destruct Hf as (H1 & H2 & H3 & H4 & H5 & H6 & H7 & H8 & H9 & _). cbn [Parser.expr_loop].
  miss. look. look1. no_kind. cbn [andb]. miss.
  eapply (runs_bind (match_not_between tokens)); [unfold match_not_between; miss; apply runs_ret|]. cbn iota beta.
  do 3 miss.
  eapply (runs_bind (if prec_le min PrOr then _ else _) _ _ false pos).
  { destruct (prec_le min PrOr); [|apply runs_ret]. eapply run_match_miss; [done|]. by apply Hor. }
  cbn iota beta. eapply (runs_bind (if prec_le min PrAnd then _ else _) _ _ false pos).
  { destruct (prec_le min PrAnd); [|apply runs_ret]. eapply run_match_miss; [done|]. by apply Hand. }
  cbn iota beta. look. destruct k as [| | | | | |op|[]| |]; try done; try apply runs_ret. by destruct (Hop op).
Qed.

Definition right_prec (op : BinaryOp) : Prec :=
  match op with
  | BOr => PrAnd | BAnd | BLike | BEq | BNe | BLt | BGt | BLe | BGe | BDistance => PrCompare
  | BPlus | BMinus | BMul | BDiv | BMod => PrAdd
  end.

Lemma loop_binary fuel op left r pos q k :
  has_kind pos (op_token op) -> runs (re (right_prec op)) (S pos) r q -> has_kind q k -> stops PrOr k ->
  exists s, runs (expr_loop (S (S fuel)) PrOr left) pos (EBinary op left r s) q.
Proof.
  intros Hop Hr Hk Hs. exists (merge_span (expr_span left) (expr_span r)).
  assert (runs (let* e := parse_right re op left (right_prec op) in expr_loop (S fuel) PrOr e) (S pos)
    (EBinary op left r (merge_span (expr_span left) (expr_span r))) q) as Hgo.
  { eapply runs_bind; [|by eapply loop_stop]. eapply runs_bind; [exact Hr|]. apply runs_ret. }
  assert (forall k', has_kind pos k' -> k' <> TEof -> forall (m : SM nat ParseError Expr) x,
    runs (let* e := m in expr_loop (S fuel) PrOr e) (S pos) x q ->
    runs (let* e := (let* _ := bump_token tokens in m) in expr_loop (S fuel) PrOr e) pos x q) as Hbump.
  { intros k' (t & Ht & Ek) Hne m x Hm. unfold runs, sbind in *. rewrite (bump_runs pos t Ht) by congruence. exact Hm. }
  destruct op; cbn [op_token right_prec] in *; cbn [Parser.expr_loop]; miss; look; look1; no_kind; cbn [andb]; miss;
    (eapply (runs_bind (match_not_between tokens)); [unfold match_not_between; miss; apply runs_ret|]; cbn iota beta);
    do 2 miss;
    first [hit; exact Hgo|miss]; change (prec_le PrOr PrOr) with true; cbn iota;
    first [hit; exact Hgo|miss]; change (prec_le PrOr PrAnd) with true; cbn iota;
    first [hit; exact Hgo|miss]; look; cbn [prec_le andb is_compare_op is_add_op prec_u8 Z.leb Z.compare];
    by eapply Hbump.
Qed.

Lemma not_has n pos ps :
  has_all pos (not_pieces n ++ ps) ->
  if n then has_kind pos (TKeyword KwNot) /\ has_all (S pos) ps else has_all pos ps.
Proof.
  destruct n; [|done]. cbn [not_pieces app]. rewrite has_all_cons. intros [Hp Hps]. split; [|done].
  by apply (has_has_kind _ _ Hp).
Qed.

Lemma has_kinds_cons pos p ps : has_all pos (p :: ps) -> has_kind pos (pc_tok p) /\ has_all (S pos) ps.
Proof. rewrite has_all_cons. intros [Hp Hps]. split; [by apply has_has_kind|done]. Qed.

Lemma ahead_at pos k : has_kind (S pos) k -> runs (peek_ahead tokens 1) pos (Some k) pos.
Proof. intros (t & Ht & <-). unfold runs, peek_ahead. by rewrite Nat.add_1_r, Ht. Qed.

Lemma loop_is_null fuel n left pos k :
  has_all pos ([kw_piece true KwIs] ++ not_pieces n ++ [kw_piece true KwNull]) ->
  has_kind (pos + length ([kw_piece true KwIs] ++ not_pieces n ++ [kw_piece true KwNull])) k -> stops PrOr k ->
  exists s, runs (expr_loop (S (S fuel)) PrOr left) pos (EIsNull left n s)
    (pos + length ([kw_piece true KwIs] ++ not_pieces n ++ [kw_piece true KwNull])).
Proof.
  intros Ha Hk Hs. destruct (run_peek_span _ _ Hk) as [sp Hsp]. exists (merge_span (expr_span left) sp).
  cbn [app] in Ha. apply has_kinds_cons in Ha as [Hi Ha]. apply not_has in Ha. cbn [Parser.expr_loop]. hit.
  eapply runs_bind; [|by eapply loop_stop].
  eapply runs_bind with (x := n) (s1 := if n then S (S pos) else S pos).
  { destruct n; [apply run_match_hit; tauto|]. apply has_kinds_cons in Ha as [Ha _]. by eapply run_match_miss. }
  assert (has_kind (if n then S (S pos) else S pos) (TKeyword KwNull)) as Hn.
  { destruct n; [destruct Ha as [_ Ha]|]; by apply has_kinds_cons in Ha as [Ha _]. }
  call (run_expect_keyword _ _ Hn). eapply runs_bind; [|apply runs_ret].
  replace (S (if n then S (S pos) else S pos)) with
    (pos + length ([kw_piece true KwIs] ++ not_pieces n ++ [kw_piece true KwNull]))%nat; [done|].
  destruct n; simpl; lia.
Qed.

Lemma loop_in fuel n left pos k vs q :
  has_all pos (not_pieces n ++ [kw_piece true KwIn]) ->
  runs (parse_in_rhs src tokens re rs) (pos + length (not_pieces n ++ [kw_piece true KwIn])) (vs, None) q ->
  has_kind q k -> stops PrOr k ->
  exists s, runs (expr_loop (S (S fuel)) PrOr left) pos (EIn left vs n s) q.
Proof.
  intros Ha Hrhs Hk Hs. destruct (run_peek_span _ _ Hk) as [sp Hsp]. exists (merge_span (expr_span left) sp).
  assert (forall p, p = (pos + length (not_pieces n ++ [kw_piece true KwIn]))%nat ->
    runs (parse_in src tokens re rs left n) p (EIn left vs n (merge_span (expr_span left) sp)) q) as Hin.
  { intros p ->. eapply runs_bind; [done|]. eapply runs_bind; [done|]. apply runs_ret. }
  apply not_has in Ha. cbn [Parser.expr_loop]. destruct n.
  - destruct Ha as [Hn Ha]. apply has_kinds_cons in Ha as [Hi _]. miss. look.
    eapply runs_bind; [by apply ahead_at|]. cbn beta. is_kind. is_kind. cbn [andb].
    eapply runs_bind; [|by eapply loop_stop]. destruct Hn as (t & Ht & Et).
    eapply runs_bind; [apply bump_runs; [done|by rewrite Et]|]. call (run_expect_keyword _ _ Hi). apply Hin. simpl. lia.
  - apply has_kinds_cons in Ha as [Hi _]. miss. look. look1. no_kind. cbn [andb]. hit.
    eapply runs_bind; [|by eapply loop_stop]. apply Hin. simpl. lia.
Qed.

Lemma loop_between fuel n left low high pos k p q :
  has_all pos (not_pieces n ++ [kw_piece true KwBetween]) ->
  runs (re PrCompare) (pos + length (not_pieces n ++ [kw_piece true KwBetween])) low p ->
  has_kind p (TKeyword KwAnd) -> runs (re PrCompare) (S p) high q -> has_kind q k -> stops PrOr k ->
  exists s, runs (expr_loop (S (S fuel)) PrOr left) pos (EBetween left low high n s) q.
Proof.
  intros Ha Hlow Hand Hhigh Hk Hs. destruct (run_peek_span _ _ Hk) as [sp Hsp].
  exists (merge_span (expr_span left) sp).
  assert (forall p, p = (pos + length (not_pieces n ++ [kw_piece true KwBetween]))%nat ->
    runs (parse_between tokens re left n) p (EBetween left low high n (merge_span (expr_span left) sp)) q) as Hb.
  { intros p' ->. eapply runs_bind; [done|]. call (run_expect_keyword _ _ Hand).
    eapply runs_bind; [done|]. eapply runs_bind; [done|]. apply runs_ret. }
  apply not_has in Ha. cbn [Parser.expr_loop]. destruct n.
  - destruct Ha as [Hn Ha]. apply has_kinds_cons in Ha as [Hi _]. miss. look.
    eapply runs_bind; [by apply ahead_at|]. cbn beta. is_kind. no_kind. cbn [andb]. miss.
    eapply (runs_bind (match_not_between tokens)); [unfold match_not_between; hit; by apply run_match_hit|].
    cbn iota beta. eapply runs_bind; [|by eapply loop_stop]. apply Hb. simpl. lia.
  - apply has_kinds_cons in Ha as [Hi _]. miss. look. look1. no_kind. cbn [andb]. miss.
    eapply (runs_bind (match_not_between tokens)); [unfold match_not_between; miss; apply runs_ret|]. cbn iota beta.
    hit. eapply runs_bind; [|by eapply loop_stop]. apply Hb. simpl. lia.
Qed.

(** ** Prefixes *)

Local Abbreviation parse_prefix := (parse_prefix src tokens re rs).

Lemma prefix_atom pos k e q :
  has_kind pos k ->
  Forall (fun x => k <> x) [TKeyword KwCast; TKeyword KwNot; TOp OpMinus; TKeyword KwExists; TPunct LParen;
    TKeyword KwCurrentUser] -> (forall n, k <> TParameter n) ->
  runs (parse_atom src tokens re) pos e q -> runs parse_prefix pos e q.
Proof.
  intros Hk Hf Hp Ha. rewrite !Forall_cons in Hf. destruct Hf as (H1 & H2 & H3 & H4 & H5 & H6 & _).
  unfold Parser.parse_prefix. miss. look. look1. no_kind. cbn [andb]. miss. no_kind. miss. no_kind. miss.
  destruct k; try done. by destruct (Hp n).
Qed.

Lemma prefix_literal `{FloatText} s l pos :
  literal_prints l -> has pos (literal_piece s l) ->
  exists e', runs parse_prefix pos e' (S pos) /\ strip_expr e' = strip_expr (ELiteral l).
Proof.
  intros Hl (t & Ht & Hk & _). unfold literal_piece in Hk. cbn [pc_tok] in Hk.
  assert (exists l', literal_of t = Some l' /\ strip_literal l' = strip_literal l) as (l' & El & Es).
  { unfold literal_of. rewrite Hk. destruct l as [| | | |[]]; eexists; split; reflexivity || done. }
  exists (ELiteral l'). split; [|simpl; by rewrite Es]. eapply (prefix_atom pos (tok_kind t)); [by exists t|..].
  - rewrite Hk. rewrite !Forall_cons. destruct l as [| | | |[]]; repeat split; try done; by apply Forall_nil.
  - intros n. rewrite Hk. by destruct l.
  - unfold parse_atom. eapply runs_bind; [apply bump_runs; [done|]|].
    + rewrite Hk. by destruct l as [| | | |[]].
    + cbn beta. rewrite El. apply runs_ret.
Qed.

(** A name leads to [parse_ident_expr]. *)
Lemma prefix_ident s i pos e q :
  has pos (ident_piece s i) -> runs (parse_ident_expr src tokens re) pos e q -> runs parse_prefix pos e q.
Proof.
  intros Hh He. pose proof (has_has_kind _ _ Hh) as Hk. destruct Hh as (t & Ht & Et & _).
  assert (exists b, pc_tok (ident_piece s i) = if b : bool then TIdent else TQuotedIdent (id_value i)) as [b Eb].
  { by exists (forallb is_simple_ident (id_value i)). }
  eapply prefix_atom; [done|..].
  - rewrite Eb, !Forall_cons. destruct b; repeat split; try done; by apply Forall_nil.
  - intros n. rewrite Eb. by destruct b.
  - unfold parse_atom. eapply runs_bind; [apply bump_runs; [done|]|].
    + rewrite Et, Eb. by destruct b.
    + cbn beta. unfold literal_of. rewrite Et, Eb.
      assert (runs (let* _ := smodify (fun pos => pos - 1)%nat in parse_ident_expr src tokens re) (S pos) e q)
        as Hgo; [|by destruct b].
      eapply runs_bind; [reflexivity|]. simpl. by rewrite Nat.sub_0_r.
Qed.

Lemma prefix_column s c pos k :
  column_prints c -> has_all pos (column_pieces s c) -> has_kind (pos + length (column_pieces s c)) k ->
  k <> TPunct LParen -> k <> TPunct Dot ->
  exists e', runs parse_prefix pos e' (pos + length (column_pieces s c)) /\ strip_expr e' = strip_expr (EColumn c).
Proof.
  intros Hc Ha Hk Hlp Hdot. destruct c as [[t|] c|sp0|t sp0]; cbn [column_pieces length] in *.
  - apply has_all_cons in Ha as [H1 Ha]. apply has_all_cons in Ha as [H2%has_has_kind Ha].
    apply has_all_cons in Ha as [H3 _]. destruct (ident_runs _ _ _ H1) as (t' & Ht & Et).
    destruct (ident_runs _ _ _ H3) as (c' & Hc' & Ec). eexists. split.
    + eapply prefix_ident; [done|]. unfold parse_ident_expr. call (run_peek_span _ _ (has_has_kind _ _ H1)).
      eapply runs_bind; [done|]. eapply runs_bind; [by eapply run_at_punct|]. no_kind.
      unfold parse_column_from_ident. eapply runs_bind; [by eapply run_at_punct|]. is_kind.
      destruct H2 as (d & Hd & Ed). eapply runs_bind; [apply bump_runs; [done|by rewrite Ed]|].
      eapply runs_bind; [eapply run_at_punct; by apply has_has_kind|]. rewrite bool_decide_eq_false_2.
      * eapply runs_bind; [done|]. rewrite Nat.add_succ_r, !Nat.add_succ_r, Nat.add_0_r. apply runs_ret.
      * unfold ident_piece. simpl. by destruct (forallb _ _).
    + simpl. by rewrite Et, Ec.
  - apply has_all_cons in Ha as [H1 _]. destruct (ident_runs _ _ _ H1) as (t' & Ht & Et). rewrite Nat.add_1_r in *.
    eexists. split.
    + eapply prefix_ident; [done|]. unfold parse_ident_expr. call (run_peek_span _ _ (has_has_kind _ _ H1)).
      eapply runs_bind; [done|]. eapply runs_bind; [by eapply run_at_punct|]. no_kind.
      unfold parse_column_from_ident. eapply runs_bind; [by eapply run_at_punct|]. no_kind. apply runs_ret.
    + simpl. by rewrite Et.
  - apply has_kinds_cons in Ha as [H1 _]. rewrite Nat.add_1_r. destruct H1 as (t & Ht & Et). eexists. split.
    + eapply prefix_atom; [by exists t| |done|].
      * rewrite !Forall_cons. repeat split; try done.
      * unfold parse_atom. eapply runs_bind; [apply bump_runs; [done|by rewrite Et]|]. cbn beta. unfold literal_of.
        rewrite Et. apply runs_ret.
    + done.
  - apply has_all_cons in Ha as [H1 Ha]. apply has_all_cons in Ha as [H2%has_has_kind Ha].
    apply has_all_cons in Ha as [H3%has_has_kind _]. destruct (ident_runs _ _ _ H1) as (t' & Ht & Et).
    pose proof H3 as (st & Hst & Est). eexists. split.
    + eapply prefix_ident; [done|]. unfold parse_ident_expr. call (run_peek_span _ _ (has_has_kind _ _ H1)).
      eapply runs_bind; [done|]. eapply runs_bind; [by eapply run_at_punct|]. no_kind.
      unfold parse_column_from_ident. eapply runs_bind; [by eapply run_at_punct|]. is_kind.
      destruct H2 as (d & Hd & Ed). eapply runs_bind; [apply bump_runs; [done|by rewrite Ed]|].
      eapply runs_bind; [by eapply run_at_punct|]. is_kind.
      eapply runs_bind; [apply bump_runs; [done|by rewrite Est]|].
      rewrite Nat.add_succ_r, !Nat.add_succ_r, Nat.add_0_r. apply runs_ret.
    + simpl. by rewrite Et.
Qed.
End loop.

(** ** Comma-separated lists *)

Section lists.
Context {A B : Type} (item : SM nat ParseError A) (f : bool -> B -> list piece) (rel : B -> A -> Prop)
  (ends : Token -> Prop) (ends_comma : ends (TPunct Comma)).

Lemma comma_loop_finds xs : forall x s fuel out pos k,
  (forall y, y ∈ x :: xs -> forall s pos k, has_all pos (f s y) -> has_kind (pos + length (f s y)) k -> ends k ->
     finds item pos (pos + length (f s y)) (rel y)) ->
  (forall s y, length (f s y) = length (f false y)) ->
  has_all pos (f s x ++ concat (map (fun v => punct_piece false Comma :: f true v) xs)) ->
  has_kind (pos + length (f s x ++ concat (map (fun v => punct_piece false Comma :: f true v) xs))) k ->
  ends k -> k <> TPunct Comma -> length xs < fuel ->
  finds (comma_loop tokens fuel item out) pos
    (pos + length (f s x ++ concat (map (fun v => punct_piece false Comma :: f true v) xs)))
    (fun ys => exists zs, ys = out ++ zs /\ Forall2 rel (x :: xs) zs).
Proof.
  induction xs as [|y xs IH]; intros x s fuel out pos k Hit Hlen Ha Hk Hend Hne Hf;
    (destruct fuel as [|fuel]; [simpl in Hf; lia|]); cbn [map concat] in *; rewrite ?app_nil_r in *; cbn [comma_loop].
  - eapply finds_bind; [by eapply Hit; [left|..]|]. intros a Hrel.
    eapply finds_bind; [eapply finds_runs; by eapply run_at_punct|]. intros ? <-. rewrite bool_decide_eq_false_2 by done.
    apply finds_ret. exists [a]. split; [done|]. by constructor.
  - apply has_all_app in Ha as [Hx Ha]. cbn [app] in Ha. pose proof Ha as Hall. apply has_all_cons in Ha as [Hc Ha].
    pose proof (has_has_kind _ _ Hc) as Hck.
    eapply finds_bind; [by eapply Hit; [left|..]|]. intros a Hrel.
    eapply finds_bind; [eapply finds_runs; by eapply run_at_punct|]. intros ? <-. rewrite bool_decide_eq_true_2 by done.
    destruct Hc as (t & Ht & Et & _). eapply finds_bind; [eapply finds_runs, bump_runs; [done|by rewrite Et]|]. intros ? _.
    rewrite length_app in *. cbn [app length] in *. rewrite Nat.add_assoc in Hk |- *. rewrite Nat.add_succ_r in Hk |- *.
    rewrite <- Nat.add_succ_l in Hk |- *.
    destruct (IH y true fuel (out ++ [a]) (S (pos + length (f s x))) k) as (ys & Hys & zs & -> & Hzs);
      [intros z Hz; apply Hit; by right|done..|lia|].
    eexists. split; [exact Hys|]. exists (a :: zs). rewrite <- app_assoc. split; [done|]. by constructor.
Qed.

Lemma comma_list_finds xs pos k :
  xs <> [] ->
  (forall y, y ∈ xs -> forall s pos k, has_all pos (f s y) -> has_kind (pos + length (f s y)) k -> ends k ->
     finds item pos (pos + length (f s y)) (rel y)) ->
  (forall s y, length (f s y) = length (f false y)) -> (forall y, y ∈ xs -> f false y <> []) ->
  has_all pos (list_pieces f xs) -> has_kind (pos + length (list_pieces f xs)) k -> ends k -> k <> TPunct Comma ->
  finds (comma_list tokens item) pos (pos + length (list_pieces f xs)) (Forall2 rel xs).
Proof.
  intros Hne Hit Hlen Hfne Ha Hk Hend Hc. destruct xs as [|x xs]; [done|]. cbn [list_pieces] in *.
  destruct (comma_loop_finds xs x false (S (length tokens)) [] pos k) as (ys & Hys & zs & -> & Hzs); [done..| |].
  - destruct Hk as (t & Ht%lookup_lt_Some & _). rewrite length_app in Ht.
    assert (length xs <= length (concat (map (fun v => punct_piece false Comma :: f true v) xs))) as Hl; [|lia].
    clear. induction xs as [|y xs IH]; [done|]. cbn [map concat]. rewrite length_app. simpl. lia.
  - by exists zs.
Qed.
End lists.

(** ** Types *)

Lemma run_word pos s w : has pos (word_piece s w) ->
  finds (parse_ident src tokens) pos (S pos) (fun i => id_value i = bs w).
Proof.
  intros (t & Ht & Hk & Hl). cbn [word_piece pc_tok pc_text] in *. exists (mkIdent (bs w) (tok_span t)).
  split; [|done]. unfold parse_ident. eapply runs_bind; [apply bump_runs; [done|by rewrite Hk]|].
  rewrite Hk, Hl by done. apply runs_ret.
Qed.

Lemma run_type_length pos s n :
  (0 <= n <= umax 32)%Z -> has pos (int_piece s n) -> runs (parse_type_length tokens) pos n (S pos).
Proof.
  intros Hn (t & Ht & Hk & _). unfold parse_type_length. eapply runs_bind; [apply bump_runs; [done|by rewrite Hk]|].
  rewrite Hk. cbn [int_piece pc_tok]. rewrite (proj2 (Z.leb_le _ _)), (proj2 (Z.leb_le _ _)) by lia. apply runs_ret.
Qed.

Lemma run_type s t pos k :
  type_prints t -> has_all pos (type_pieces s t) -> has_kind (pos + length (type_pieces s t)) k ->
  k <> TPunct LParen -> finds (parse_sql_type src tokens) pos (pos + length (type_pieces s t)) (eq t).
Proof.
  intros Ht Ha Hk Hlp.
  assert (forall n q, (0 <= n <= umax 32)%Z -> has_all (S q) [int_piece false n; punct_piece false RParen] ->
    runs (parse_type_length tokens) (S q) n (S (S q)) /\
    exists x, runs (expect_punct tokens RParen) (S (S q)) x (S (S (S q)))) as Hlen.
  { intros n q Hn Hq. apply has_all_cons in Hq as [Hi Hq]. apply has_kinds_cons in Hq as [Hr _].
    split; [by eapply run_type_length|by apply run_expect_punct]. }
  destruct t as [| | |[n|]| | | |n|]; cbn [type_prints type_pieces length] in *; try done;
    apply has_all_cons in Ha as [Hw Ha];
    (eapply finds_bind; [by apply (run_word _ _ _ Hw)|]); intros i Hi; cbv beta zeta; rewrite Hi;
    repeat match goal with |- context [bool_decide (to_upper ?x = ?y)] =>
      let b := eval vm_compute in (bool_decide (to_upper x = y)) in
      change (bool_decide (to_upper x = y)) with b end; cbn [orb]; cbn iota.
  all: try (rewrite Nat.add_1_r; by apply finds_ret).
  - apply has_kinds_cons in Ha as [Hl Ha]. destruct (Hlen n (S pos) Ht Ha) as [H1 H2].
    eapply finds_bind; [eapply finds_runs, run_at_punct, Hl|]. intros ? <-. rewrite bool_decide_eq_true_2 by done.
    destruct Hl as (t & Htk & Ek). eapply finds_bind; [eapply finds_runs, bump_runs; [done|by rewrite Ek]|]. intros ? _.
    eapply finds_bind; [by eapply finds_runs|]. intros ? <-. eapply finds_bind; [by apply finds_any|]. intros ? _.
    replace (pos + 4) with (S (S (S (S pos)))) by lia. by apply finds_ret.
  - rewrite Nat.add_1_r in *. eapply finds_bind; [eapply finds_runs; by eapply run_at_punct|]. intros ? <-.
    rewrite bool_decide_eq_false_2 by done. by apply finds_ret.
  - apply has_kinds_cons in Ha as [Hl Ha]. destruct (Hlen n (S pos) Ht Ha) as [H1 H2].
    eapply finds_bind; [by apply finds_any, run_expect_punct|]. intros ? _.
    eapply finds_bind; [by eapply finds_runs|]. intros ? <-. eapply finds_bind; [by apply finds_any|]. intros ? _.
    replace (pos + 4) with (S (S (S (S pos)))) by lia. by apply finds_ret.
Qed.

(** ** Expressions *)

Context `{FloatText}.
Local Abbreviation PE n := (p_expr (parsers_at src tokens n)).
Local Abbreviation PS n := (p_select (parsers_at src tokens n)).

Definition same_expr (e e' : Expr) : Prop := strip_expr e' = strip_expr e.

Definition reads (e : Expr) : Prop := forall n a min s pos k,
  canon a e -> (a = false -> min = PrOr) -> has_all pos (expr_pieces s e) -> has_kind (pos + expr_size e) k ->
  stops min k -> expr_size e <= n -> finds (PE (S n) min) pos (pos + expr_size e) (same_expr e).

Lemma stops_comma : stops PrOr (TPunct Comma).
Proof. repeat split; try done. rewrite !Forall_cons. repeat split; done. Qed.
Lemma stops_rparen min : stops min (TPunct RParen).
Proof. repeat split; try done. rewrite !Forall_cons. repeat split; done. Qed.
Lemma stops_kw kw :
  bool_decide (kw ∉ [KwIs; KwNot; KwIn; KwBetween; KwOver; KwLike; KwOr; KwAnd]) = true -> stops PrOr (TKeyword kw).
Proof.
  intros Hkw%bool_decide_eq_true_1. rewrite !not_elem_of_cons in Hkw. destruct Hkw as (? & ? & ? & ? & ? & ? & ? & ? & _).
  repeat split; try (intros; congruence). rewrite !Forall_cons. repeat split; try congruence. by apply Forall_nil.
Qed.
Lemma stops_eof : stops PrOr TEof.
Proof. repeat split; try done. rewrite !Forall_cons. repeat split; done. Qed.

Lemma expr_size_pos e a : canon a e -> expr_pieces false e <> [].
Proof. intros Hc. destruct (expr_first e a false Hc) as (p & ps & -> & _). done. Qed.

(** A list of expressions before a closing parenthesis *)
Lemma args_read n vs pos :
  (forall v, v ∈ vs -> reads v /\ canon false v) -> has_all pos (list_pieces expr_pieces vs) ->
  has_kind (pos + length (list_pieces expr_pieces vs)) (TPunct RParen) ->
  length (list_pieces expr_pieces vs) <= n ->
  finds (args_until_rparen tokens (PE (S n))) pos (pos + length (list_pieces expr_pieces vs)) (Forall2 same_expr vs).
Proof.
  intros Hvs Ha Hk Hn. unfold args_until_rparen. destruct vs as [|v vs].
  - cbn [list_pieces length] in *. rewrite Nat.add_0_r in *.
    eapply finds_bind; [eapply finds_runs, run_at_punct, Hk|]. intros ? <-. rewrite bool_decide_eq_true_2 by done.
    by apply finds_ret.
  - assert (exists k, has_kind pos k /\ k <> TPunct RParen) as (k & Hk0 & Hne).
    { destruct (Hvs v) as [_ Hc]; [left|]. destruct (expr_first v _ false Hc) as (p & ps & Ep & _ & Hp).
      cbn [list_pieces] in Ha. rewrite Ep in Ha. cbn [app] in Ha. apply has_kinds_cons in Ha as [Hk0 _].
      eexists. split; [done|]. intros E. rewrite E in Hp. destruct Hp as [Hp|[Hp|Hp]]; done. }
    eapply finds_bind; [eapply finds_runs, run_at_punct, Hk0|]. intros ? <-. rewrite bool_decide_eq_false_2 by done.
    cbn [negb]. unfold parse_comma_exprs, parse_expr.
    eapply (comma_list_finds _ _ same_expr (stops PrOr) stops_comma); try done.
    + intros y Hy s pos' k' Hp Hk' Hs. rewrite expr_pieces_length in *. destruct (Hvs y Hy) as [Hr Hc].
      apply (Hr n false PrOr s pos' k'); try done. pose proof (list_pieces_size (v :: vs) y Hy). lia.
    + intros s y. apply expr_pieces_length.
    + intros y Hy. destruct (Hvs y Hy) as [_ Hc]. by apply (expr_size_pos _ _ Hc).
    + apply stops_rparen.
Qed.

(** The pieces of a smaller expression inside a larger one *)
Lemma has_expr s e pos ps :
  has_all pos (expr_pieces s e ++ ps) -> has_all pos (expr_pieces s e) /\ has_all (pos + expr_size e) ps.
Proof. rewrite has_all_app, expr_pieces_length. done. Qed.

(** A call on a smaller expression *)
Lemma sub_read n b e' a min s' pos' k' :
  (forall e', expr_size e' < b -> reads e') -> b <= n ->
  expr_size e' < b -> canon a e' -> (a = false -> min = PrOr) -> has_all pos' (expr_pieces s' e') ->
  has_kind (pos' + expr_size e') k' -> stops min k' ->
  finds (PE n min) pos' (pos' + expr_size e') (same_expr e').
Proof.
  intros Hsub Hn Hsz Hc Hmin Hp Hk' Hs. destruct n as [|m]; [lia|]. eapply Hsub; try done. lia.
Qed.

Ltac fmiss := eapply finds_bind;
  [eapply finds_runs, run_match_miss; [eassumption|first [assumption|discriminate]]|]; intros ? <-; cbn iota beta.
Ltac fhit := eapply finds_bind; [eapply finds_runs, run_match_hit; eassumption|]; intros ? <-; cbn iota beta.
Ltac flook := eapply finds_bind; [eapply finds_runs, run_peek_kind; eassumption|]; intros ? <-; cbn beta.
Ltac flook1 := eapply (finds_bind (peek_ahead _ _)); [eapply finds_runs; reflexivity|]; intros ? <-; cbn beta.
Ltac fcall H := eapply finds_bind; [eapply finds_any, H; eassumption|]; intros ? _; cbn beta.
Ltac fbump H := let t := fresh "t" in let Ht := fresh "Ht" in let Et := fresh "Et" in
  pose proof H as (t & Ht & Et); eapply finds_bind; [eapply finds_runs, bump_runs; [exact Ht|by rewrite Et]|];
  intros ? <-; cbn beta.

Definition prefix_reads (e : Expr) : Prop := forall n s pos k,
  (forall e', expr_size e' < expr_size e -> reads e') -> has_all pos (expr_pieces s e) ->
  has_kind (pos + expr_size e) k -> k <> TPunct LParen -> k <> TPunct Dot -> expr_size e <= n ->
  finds (parse_prefix src tokens (PE n) (PS n)) pos (pos + expr_size e) (same_expr e).

Lemma same_list vs vs' : Forall2 same_expr vs vs' -> map strip_expr vs' = map strip_expr vs.
Proof. induction 1 as [|v v' vs vs' Hv _ IH]; [done|]. simpl. by rewrite Hv, IH. Qed.

Lemma prefix_paren i sp0 : canon false i -> prefix_reads (EParen i sp0).
Proof.
  intros Hc n s pos k Hsub Ha Hk Hlp Hdot Hn. cbn [expr_pieces] in *.
  assert (expr_size (EParen i sp0) = S (expr_size i + 1)) as Esz by (unfold expr_size; simpl; by rewrite length_app).
  rewrite Esz in *. destruct (expr_first i _ false Hc) as (p & ps & Ep & _ & Hp).
  apply has_kinds_cons in Ha as [H1 Hi]. apply has_expr in Hi as [Hi Hr]. apply has_kinds_cons in Hr as [Hr _].
  assert (has_kind (S pos) (pc_tok p)) as Hfst by (rewrite Ep in Hi; by apply has_kinds_cons in Hi as [? _]).
  unfold Parser.parse_prefix. fmiss. flook. flook1. no_kind. cbn [andb]. fmiss. no_kind. fmiss. is_kind.
  unfold parse_parenthesized.
  eapply finds_bind; [apply finds_any; destruct H1 as (t & Ht & Et); eexists; eapply runs_map, bump_runs; [done|by rewrite Et]|].
  intros ? _. cbn beta. flook.
  assert (pc_tok p <> TKeyword KwSelect /\ pc_tok p <> TKeyword KwWith) as [Hs Hw].
  { split; intros E; rewrite E in Hp; destruct Hp as [Hp|[Hp|Hp]]; done. }
  rewrite !bool_decide_eq_false_2 by done. cbn [orb]. unfold parse_expr.
  eapply finds_bind; [eapply (sub_read _ _ i false PrOr false); [exact Hsub|lia|lia|done|done|done|exact Hr|apply stops_rparen]|].
  intros i' Hi'. fcall run_expect_punct.
  replace (pos + S (expr_size i + 1)) with (S (S pos + expr_size i)) by lia. apply finds_ret.
  unfold same_expr in *. simpl. by rewrite Hi'.
Qed.

Lemma prefix_cast i t sp0 : canon false i -> type_prints t -> prefix_reads (ECast i t sp0).
Proof.
  intros Hc Ht n s pos k Hsub Ha Hk Hlp Hdot Hn. cbn [expr_pieces] in *.
  assert (expr_size (ECast i t sp0) = S (S (expr_size i + S (length (type_pieces true t) + 1)))) as Esz.
  { unfold expr_size. cbn [expr_pieces app length]. rewrite !length_app. cbn [app length]. by rewrite length_app. }
  rewrite Esz in *. cbn [app] in Ha. apply has_kinds_cons in Ha as [H1 Ha']. apply has_kinds_cons in Ha' as [H2 Ha'].
  apply has_expr in Ha' as [Hi Ha']. apply has_kinds_cons in Ha' as [Has Ha']. apply has_all_app in Ha' as [Hty Ha'].
  apply has_kinds_cons in Ha' as [Hr _]. unfold Parser.parse_prefix. fhit. unfold parse_cast.
  fcall run_prev_span. fcall run_expect_punct. unfold parse_expr.
  eapply finds_bind; [eapply (sub_read _ _ i false PrOr false); [exact Hsub|lia|lia|done|done|done|exact Has|by apply stops_kw]|].
  intros i' Hi'. fcall run_expect_keyword. eapply finds_bind; [by eapply run_type|]. intros ? <-. fcall run_expect_punct.
  replace (pos + _) with (S (S (S (S pos) + expr_size i) + length (type_pieces true t))) by lia. apply finds_ret.
  unfold same_expr in *. simpl. by rewrite Hi'.
Qed.

Lemma prefix_function nm args sp0 :
  fold_right (fun v P => canon false v /\ P) True args -> prefix_reads (EFunction nm args None sp0).
Proof.
  intros Hc n s pos k Hsub Ha Hk Hlp Hdot Hn. cbn [expr_pieces] in *. rewrite fold_canon in Hc.
  assert (expr_size (EFunction nm args None sp0) = S (S (length (list_pieces expr_pieces args) + 1))) as Esz.
  { unfold expr_size. cbn [expr_pieces app length]. by rewrite !length_app. }
  rewrite Esz in *. cbn [app] in Ha. apply has_all_cons in Ha as [H1 Ha']. apply has_kinds_cons in Ha' as [H2 Ha'].
  apply has_all_app in Ha' as [Hargs Ha']. apply has_kinds_cons in Ha' as [Hr _].
  assert (finds (parse_ident_expr src tokens (PE n)) pos (pos + S (S (length (list_pieces expr_pieces args) + 1)))
    (same_expr (EFunction nm args None sp0))) as (e' & He' & Hs); [|exists e'; split; [by eapply prefix_ident|done]].
  unfold parse_ident_expr. pose proof (has_has_kind _ _ H1) as Hk1. fcall run_peek_span.
  eapply finds_bind; [exact (ident_runs _ _ _ H1)|]. intros i' Hi'.
  eapply finds_bind; [eapply finds_runs, run_at_punct, H2|]. intros ? <-. is_kind. fbump H2.
  eapply finds_bind.
  { destruct n as [|m]; [lia|]. eapply args_read; [|done|done|lia]. intros v Hv. split; [|by apply Hc].
    apply Hsub. pose proof (list_pieces_size args v Hv). lia. }
  intros args' Hargs'. cbn beta. fcall run_expect_punct.
  replace (pos + _) with (S (S (S pos) + length (list_pieces expr_pieces args))) by lia. apply finds_ret.
  unfold same_expr in *. simpl. by rewrite Hi', (same_list _ _ Hargs').
Qed.

Lemma prefix_canon e : canon true e -> prefix_reads e.
Proof.
  intros Hc n s pos k Hsub Ha Hk Hlp Hdot Hn.
  destruct e as [l|c|op e1 e2 sp0|op i sp0|i m sp0|i vs m sp0| | | |i l h m sp0|i sp0|ix sp0|sp0|i t sp0|nm args o sp0];
    cbn [canon] in Hc; try (by destruct Hc); cbn [expr_pieces] in *.
  - unfold expr_size in *. cbn [expr_pieces length] in *. rewrite Nat.add_1_r in *.
    apply has_all_cons in Ha as [Hl _]. by eapply prefix_literal.
  - unfold expr_size in *. cbn [expr_pieces] in *. rewrite <- (column_pieces_length s) in *. by eapply prefix_column.
  - by eapply prefix_paren.
  - unfold expr_size in *. cbn [expr_pieces length] in *. rewrite Nat.add_1_r in *. apply has_kinds_cons in Ha as [Hp _].
    unfold Parser.parse_prefix. fmiss. flook. flook1. no_kind. cbn [andb]. fmiss. no_kind. fmiss. no_kind. fmiss.
    cbn [pc_tok]. fbump Hp. by apply finds_ret.
  - unfold expr_size in *. cbn [expr_pieces length] in *. rewrite Nat.add_1_r in *. apply has_kinds_cons in Ha as [Hp _].
    unfold Parser.parse_prefix. fmiss. flook. flook1. no_kind. cbn [andb]. fmiss. no_kind. fmiss. no_kind. fhit.
    fcall run_prev_span. by apply finds_ret.
  - destruct Hc. by eapply prefix_cast.
  - destruct Hc as (? & -> & ?). by eapply prefix_function.
Qed.

Ltac sizes := unfold expr_size; cbn [expr_pieces app length]; do 3 (rewrite ?length_app; cbn [app length]);
  rewrite ?expr_pieces_length; unfold expr_size; lia.

(** The body of [parse_expr_prec]: an operand, then the loop *)
Lemma body_finds n min pos p q e Q (P : Expr -> Prop) :
  finds (parse_prefix src tokens (PE n) (PS n)) pos p P ->
  (forall e', P e' -> finds (expr_loop src tokens (PE n) (PS n) (S (length tokens)) min e') p q Q) ->
  e = S n -> finds (PE e min) pos q Q.
Proof. intros Hp Hl ->. change (PE (S n) min) with (parse_expr_prec_body src tokens (PE n) (PS n) min). by eapply finds_bind. Qed.

Lemma loop_fuel pos k : has_kind pos k -> exists m, length tokens = S m.
Proof. intros (t & Ht%lookup_lt_Some & _). exists (length tokens - 1). lia. Qed.

(** The left operand of an operator *)
Lemma operand_finds n b e s pos k :
  (forall e', expr_size e' < b -> reads e') -> b <= n -> expr_size e < b -> canon true e ->
  has_all pos (expr_pieces s e) -> has_kind (pos + expr_size e) k -> k <> TPunct LParen -> k <> TPunct Dot ->
  finds (parse_prefix src tokens (PE n) (PS n)) pos (pos + expr_size e) (same_expr e).
Proof. intros Hsub Hn Hsz Hc Ha Hk H1 H2. eapply prefix_canon; try done; [|lia]. intros. apply Hsub. lia. Qed.

Definition op_reads (e : Expr) : Prop := forall n s pos k,
  (forall e', expr_size e' < expr_size e -> reads e') -> has_all pos (expr_pieces s e) ->
  has_kind (pos + expr_size e) k -> stops PrOr k -> expr_size e <= n ->
  finds (PE (S n) PrOr) pos (pos + expr_size e) (same_expr e).

Lemma reads_binary op l r sp0 : canon true l -> canon true r -> op_reads (EBinary op l r sp0).
Proof.
  intros Hl Hr n s pos k Hsub Ha Hk Hs Hn. cbn [expr_pieces] in Ha.
  assert (expr_size (EBinary op l r sp0) = expr_size l + S (expr_size r)) as Esz by sizes. rewrite Esz in *.
  apply has_expr in Ha as [Ha1 Ha]. cbn [app] in Ha. apply has_kinds_cons in Ha as [Hop Ha2].
  replace (pos + (expr_size l + S (expr_size r))) with (S (pos + expr_size l) + expr_size r) in * by lia.
  destruct (loop_fuel _ _ Hop) as [m Em]. eapply body_finds; [|intros l' Hl'|done].
  - eapply (operand_finds n _ l); [exact Hsub|done|lia|done|done|exact Hop|by destruct op|by destruct op].
  - destruct (sub_read n _ r true (right_prec op) true (S (pos + expr_size l)) k Hsub) as (r' & Hr' & Er);
      [lia|lia|done|done|done|done|by apply stops_weaken|].
    destruct (loop_binary (PE n) (PS n) m op l' r' _ _ k Hop Hr' Hk Hs) as [sp' Hsp]. rewrite Em.
    eexists. split; [exact Hsp|]. unfold same_expr in *. simpl. by rewrite Hl', Er.
Qed.

Lemma reads_unary op i sp0 : canon true i -> op_reads (EUnary op i sp0).
Proof.
  intros Hi n s pos k Hsub Ha Hk Hs Hn.
  assert (expr_size (EUnary op i sp0) = S (expr_size i)) as Esz by (destruct op; sizes). rewrite Esz in *.
  rewrite Nat.add_succ_r, <- Nat.add_succ_l in *.
  destruct (loop_fuel _ _ Hk) as [m Em].
  eapply (body_finds n PrOr pos (S pos + expr_size i) _ _ _ (same_expr (EUnary op i sp0)));
    [|intros e' He'; exists e'; split; [rewrite Em; by eapply loop_stop|done]|done].
  assert (forall min, finds (PE n min) (S pos) (S pos + expr_size i) (same_expr i)) as Hsubread.
  { intros min. eapply (sub_read n _ i true min (match op with UNot => true | UMinus => false end));
      [exact Hsub|lia|lia|done|done| |exact Hk|by apply stops_weaken].
    destruct op; cbn [expr_pieces] in Ha; by apply has_kinds_cons in Ha as [_ ?]. }
  destruct op; cbn [expr_pieces] in Ha; apply has_kinds_cons in Ha as [Hop Ha]; cbn [pc_tok kw_piece] in Hop;
    unfold Parser.parse_prefix; fmiss; flook.
  - flook1. no_kind. cbn [andb]. fmiss. is_kind.
    eapply finds_bind; [apply finds_any; destruct Hop as (t & Ht & Et); eexists; eapply runs_map, bump_runs; [done|by rewrite Et]|].
    intros ? _. cbn beta. eapply finds_bind; [apply Hsubread|]. intros i' Hi'. apply finds_ret.
    unfold same_expr in *. simpl. by rewrite Hi'.
  - destruct (expr_first i _ true Hi) as (p & ps & Ep & _ & Hp). pose proof Ha as Ha'. rewrite Ep in Ha'.
    apply has_kinds_cons in Ha' as [Hfst _]. eapply finds_bind; [eapply finds_runs; by apply ahead_at|]. intros ? <-. cbn beta.
    rewrite bool_decide_eq_true_2 by done. rewrite bool_decide_eq_false_2.
    2: { intros E. injection E as E. rewrite E in Hp. destruct Hp as [Hp|[Hp|Hp]]; done. }
    cbn [andb]. fhit. fcall run_peek_span. eapply finds_bind; [apply Hsubread|]. intros i' Hi'. apply finds_ret.
    unfold same_expr in *. simpl. by rewrite Hi'.
Qed.

Lemma reads_is_null i n0 sp0 : canon true i -> op_reads (EIsNull i n0 sp0).
Proof.
  intros Hi n s pos k Hsub Ha Hk Hs Hn. cbn [expr_pieces] in Ha.
  set (ps := [kw_piece true KwIs] ++ not_pieces n0 ++ [kw_piece true KwNull]) in *.
  assert (expr_size (EIsNull i n0 sp0) = expr_size i + length ps) as Esz by (unfold ps; sizes). rewrite Esz in *.
  apply has_expr in Ha as [Ha1 Ha]. pose proof Ha as Ha'. cbn [ps app] in Ha'. apply has_kinds_cons in Ha' as [Hop _].
  rewrite Nat.add_assoc in *. assert (1 <= length ps) by (unfold ps; simpl; lia). destruct (loop_fuel _ _ Hop) as [m Em].
  eapply body_finds; [|intros i' Hi'|done].
  - eapply (operand_finds n _ i); [exact Hsub|done|lia|done|done|exact Hop|done|done].
  - destruct (loop_is_null (PE n) (PS n) m n0 i' _ k Ha Hk Hs) as [sp' Hsp]. rewrite Em. eexists. split; [exact Hsp|].
    unfold same_expr in *. simpl. by rewrite Hi'.
Qed.

Lemma not_first n0 kw pos :
  has_all pos (not_pieces n0 ++ [kw_piece true kw]) -> exists kw', has_kind pos (TKeyword kw').
Proof. destruct n0; cbn [not_pieces app]; intros [Hk _]%has_kinds_cons; eexists; exact Hk. Qed.

Lemma reads_between i l h n0 sp0 : canon true i -> canon true l -> canon true h -> op_reads (EBetween i l h n0 sp0).
Proof.
  intros Hi Hl Hh n s pos k Hsub Ha Hk Hs Hn. cbn [expr_pieces] in Ha.
  set (ps := not_pieces n0 ++ [kw_piece true KwBetween]) in *.
  assert (expr_size (EBetween i l h n0 sp0) = expr_size i + (length ps + (expr_size l + S (expr_size h)))) as Esz
    by (unfold ps; sizes).
  rewrite Esz in *. apply has_expr in Ha as [Ha1 Ha]. rewrite app_assoc in Ha. fold ps in Ha. apply has_all_app in Ha as [Hps Ha].
  apply has_expr in Ha as [Ha2 Ha]. cbn [app] in Ha. apply has_kinds_cons in Ha as [Hand Ha3]. cbn [pc_tok kw_piece] in Hand.
  destruct (not_first _ _ _ Hps) as [kw Hkw]. destruct (loop_fuel _ _ Hand) as [m Em].
  assert (1 <= length ps) by (unfold ps; rewrite length_app; simpl; lia).
  replace (pos + (expr_size i + (length ps + (expr_size l + S (expr_size h))))) with
    (S (pos + expr_size i + length ps + expr_size l) + expr_size h) in * by lia.
  eapply body_finds; [|intros i' Hi'|done].
  - eapply (operand_finds n _ i); [exact Hsub|done|lia|done|done|exact Hkw|done|done].
  - destruct (sub_read n _ l true PrCompare true (pos + expr_size i + length ps) (TKeyword KwAnd) Hsub) as (l' & Hl' & El);
      [lia|lia|done|done|done|exact Hand| |].
    { repeat split; try done. rewrite !Forall_cons. repeat split; done. }
    destruct (sub_read n _ h true PrCompare true (S (pos + expr_size i + length ps + expr_size l)) k Hsub) as (h' & Hh' & Eh);
      [lia|lia|done|done|done|exact Hk|by apply stops_weaken|].
    destruct (loop_between (PE n) (PS n) m n0 i' l' h' _ k _ _ Hps Hl' Hand Hh' Hk Hs) as [sp' Hsp]. rewrite Em.
    eexists. split; [exact Hsp|]. unfold same_expr in *. simpl. by rewrite Hi', El, Eh.
Qed.

Lemma reads_in i vs n0 sp0 :
  canon true i -> (forall v, v ∈ vs -> canon false v) -> op_reads (EIn i vs n0 sp0).
Proof.
  intros Hi Hvs n s pos k Hsub Ha Hk Hs Hn. cbn [expr_pieces] in Ha.
  set (ps := not_pieces n0 ++ [kw_piece true KwIn]) in *. set (vp := list_pieces expr_pieces vs) in *.
  assert (expr_size (EIn i vs n0 sp0) = expr_size i + (length ps + S (length vp + 1))) as Esz by (unfold ps, vp; sizes).
  rewrite Esz in *. apply has_expr in Ha as [Ha1 Ha].
  assert (has_all (pos + expr_size i) (ps ++ punct_piece true LParen :: vp ++ [punct_piece false RParen])) as Ha'.
  { unfold ps. by rewrite <- app_assoc. }
  clear Ha. apply has_all_app in Ha' as [Hps Ha]. apply has_kinds_cons in Ha as [Hl Ha]. apply has_all_app in Ha as [Hv Ha].
  apply has_kinds_cons in Ha as [Hr _]. cbn [pc_tok punct_piece] in Hl, Hr.
  destruct (not_first _ _ _ Hps) as [kw Hkw]. destruct (loop_fuel _ _ Hl) as [m Em].
  replace (pos + (expr_size i + (length ps + S (length vp + 1)))) with
    (S (S (pos + expr_size i + length ps) + length vp)) in * by lia.
  assert (finds (parse_in_rhs src tokens (PE n) (PS n)) (pos + expr_size i + length ps)
    (S (S (pos + expr_size i + length ps) + length vp))
    (fun rhs => exists vs', rhs = (vs', None) /\ Forall2 same_expr vs vs')) as (rhs & Hrhs & vs' & -> & Hvs').
  { unfold parse_in_rhs. fcall run_expect_punct.
    assert (exists k', has_kind (S (pos + expr_size i + length ps)) k' /\ k' <> TKeyword KwSelect) as (k' & Hk' & Hne).
    { unfold vp in *. destruct vs as [|v vs]; [exists (TPunct RParen); split; [|done]; by rewrite Nat.add_0_r in Hr|].
      destruct (expr_first v false false) as (p & qs & Ep & _ & Hp); [apply Hvs; left|].
      cbn [list_pieces] in Hv. rewrite Ep in Hv. cbn [app] in Hv. apply has_kinds_cons in Hv as [Hk' _].
      eexists. split; [done|]. intros E. rewrite E in Hp. destruct Hp as [Hp|[Hp|Hp]]; done. }
    eapply finds_bind; [eapply finds_runs, run_at_keyword, Hk'|]. intros ? <-. no_kind.
    eapply finds_bind.
    { destruct n as [|m']; [lia|]. apply (args_read m' vs); [|done|done|unfold vp in *; lia]. intros v Hin. split; [|by apply Hvs].
      apply Hsub. pose proof (list_pieces_size vs v Hin). unfold vp. lia. }
    intros vs' Hvs'. fcall run_expect_punct. apply finds_ret. by exists vs'. }
  eapply body_finds; [|intros i' Hi'|done].
  - eapply (operand_finds n _ i); [exact Hsub|done|lia|done|done|exact Hkw|done|done].
  - destruct (loop_in (PE n) (PS n) m n0 i' _ k vs' _ Hps Hrhs Hk Hs) as [sp' Hsp]. rewrite Em.
    eexists. split; [exact Hsp|]. unfold same_expr in *. simpl. by rewrite Hi', (same_list _ _ Hvs').
Qed.

Lemma reads_atom e n min s pos k :
  canon true e -> (forall e', expr_size e' < expr_size e -> reads e') -> has_all pos (expr_pieces s e) ->
  has_kind (pos + expr_size e) k -> stops min k -> expr_size e <= n ->
  finds (PE (S n) min) pos (pos + expr_size e) (same_expr e).
Proof.
  intros Hc Hsub Ha Hk Hs Hn. destruct (loop_fuel _ _ Hk) as [m Em]. destruct (stops_not_name _ _ Hs).
  eapply (body_finds n min pos (pos + expr_size e) _ _ _ (same_expr e)); [by eapply prefix_canon| |done].
  intros e' He'. exists e'. split; [rewrite Em; by eapply loop_stop|done].
Qed.

(** Every printed expression is read as it was. *)
Lemma expr_reads e : reads e.
Proof.
  induction e as [e IH] using expr_size_ind. intros n a min s pos k Hc Hmin Ha Hk Hs Hn.
  destruct (decide (a = true)) as [->|Hf]; [by eapply reads_atom|].
  destruct a; [done|]. specialize (Hmin eq_refl) as ->. pose proof (reads_atom e n PrOr s pos k) as Hat.
  destruct e as [l|c|op e1 e2 sp0|op i sp0|i n0 sp0|i vs n0 sp0| | | |i l h n0 sp0|i sp0|ix sp0|sp0|i t sp0|nm args o sp0];
    try (by destruct Hc); try (by apply Hat); cbn [canon] in Hc.
  - eapply reads_binary; naive_solver.
  - eapply reads_unary; naive_solver.
  - eapply reads_is_null; naive_solver.
  - destruct Hc as (_ & Hi & Hv). eapply reads_in; try done. by apply fold_canon.
  - eapply reads_between; naive_solver.
Qed.
End tokens.
