(* ===== verification/PrintStmt.v ===== *)
(** * Statements that print and parse back

    Queries with projections, tables, joins and a condition, DELETE and DROP
    TABLE: the clauses whose printed keywords are those of the lexer. *)

From S2P Require Import Prelude BTree Text Float64 Tokens Lexer Ast Display LexPrint Parser Statements RoundTrip ParsePrint.

(** ** The statements *)

Definition alias_prints (a : option Ident) : Prop := match a with Some a => ident_prints a | None => True end.
Definition item_prints (i : SelectItem) : Prop :=
  match i with mkSelectItem e a => canon false e /\ alias_prints a end.
Definition table_prints (t : TableRef) : Prop := ident_prints (tr_name t) /\ alias_prints (tr_alias t).
Definition from_prints (f : option FromItem) : Prop :=
  match f with
  | Some (FromTable t) => table_prints t
  | Some (FromSubquery _ _ _) => False
  | None => True
  end.
Definition join_prints (j : Join) : Prop := match j with mkJoin _ t e _ => table_prints t /\ canon false e end.
Definition where_prints (w : option Expr) : Prop := match w with Some e => canon false e | None => True end.

Definition select_prints (q : SelectStmt) : Prop :=
  match q with
  | mkSelectStmt w _ items from joins wh group having order limit offset compound _ =>
      w = None /\ items <> [] /\ Forall item_prints items /\ from_prints from /\ Forall join_prints joins /\
      where_prints wh /\ group = [] /\ having = None /\ order = [] /\ limit = None /\ offset = None /\ compound = None
  end.

Definition stmt_prints (s : Statement) : Prop :=
  match s with
  | SSelect q => select_prints q
  | SDelete d => ident_prints (del_table d) /\ where_prints (del_where d)
  | SDropTable d => ident_prints (dt_name d)
  | _ => False
  end.

(** Equality up to the spans *)
Definition same_stmt (s s' : Statement) : Prop :=
  match s, s' with
  | SSelect q, SSelect q' => strip_select q' = strip_select q
  | SDelete d, SDelete d' =>
      strip_ident (del_table d') = strip_ident (del_table d) /\
      (strip_expr <$> del_where d') = (strip_expr <$> del_where d)
  | SDropTable d, SDropTable d' => strip_ident (dt_name d') = strip_ident (dt_name d)
  | _, _ => False
  end.

(** ** Their pieces *)

Section pieces.
Context `{FloatText}.

Definition alias_pieces (a : option Ident) : list piece :=
  match a with Some a => [kw_piece true KwAs; ident_piece true a] | None => [] end.
Definition item_pieces (s : bool) (i : SelectItem) : list piece :=
  match i with mkSelectItem e a => expr_pieces s e ++ alias_pieces a end.
Definition table_pieces (t : TableRef) : list piece := ident_piece true (tr_name t) :: alias_pieces (tr_alias t).
Definition from_pieces (f : option FromItem) : list piece :=
  match f with Some (FromTable t) => kw_piece true KwFrom :: table_pieces t | _ => [] end.
Definition join_pieces (j : Join) : list piece :=
  match j with
  | mkJoin k t e _ =>
      kw_piece true (match k with JInner => KwInner | JLeft => KwLeft end) :: kw_piece true KwJoin ::
      table_pieces t ++ kw_piece true KwOn :: expr_pieces true e
  end.
Definition where_pieces (w : option Expr) : list piece :=
  match w with Some e => kw_piece true KwWhere :: expr_pieces true e | None => [] end.
Definition items_pieces (l : list SelectItem) : list piece :=
  match l with
  | [] => []
  | i :: r => item_pieces true i ++ concat (map (fun i => punct_piece false Comma :: item_pieces true i) r)
  end.

Definition select_pieces (q : SelectStmt) : list piece :=
  match q with
  | mkSelectStmt _ d items from joins wh _ _ _ _ _ _ _ =>
      kw_piece false KwSelect :: (if d then [kw_piece true KwDistinct] else []) ++ items_pieces items ++
      from_pieces from ++ concat (map join_pieces joins) ++ where_pieces wh
  end.

Definition stmt_pieces (s : Statement) : list piece :=
  match s with
  | SSelect q => select_pieces q
  | SDelete d =>
      kw_piece false KwDelete :: kw_piece true KwFrom :: ident_piece true (del_table d) :: where_pieces (del_where d)
  | SDropTable d => [kw_piece false KwDrop; kw_piece true KwTable; ident_piece true (dt_name d)]
  | _ => []
  end.

(** ** The pieces make the text *)

Lemma alias_text a : text_of (alias_pieces a) = write_alias a.
Proof. destruct a as [a|]; [|done]. unfold text_of. simpl. by rewrite app_nil_r. Qed.
Lemma item_text s i : item_prints i -> text_of (item_pieces s i) = lead s ++ write_item i.
Proof.
  destruct i as [e a]. intros [Hc _]. cbn [item_pieces write_item]. rewrite text_of_app, alias_text.
  rewrite (expr_text e _ s Hc). by rewrite <- app_assoc.
Qed.
Lemma table_text t : text_of (table_pieces t) = sp ++ write_table_ref t.
Proof. unfold table_pieces, write_table_ref. by rewrite text_of_cons, alias_text. Qed.
Lemma where_text w : where_prints w -> text_of (where_pieces w) = write_where w.
Proof.
  destruct w as [e|]; [|done]. intros Hc. cbn [where_pieces write_where]. by rewrite text_of_cons, (expr_text e _ true Hc).
Qed.
Lemma join_text j : join_prints j -> text_of (join_pieces j) = sp ++ write_join j.
Proof.
  destruct j as [k t e sp0]. intros [_ Hc]. cbn [join_pieces write_join].
  rewrite !text_of_cons, text_of_app, table_text, text_of_cons, (expr_text e _ true Hc).
  destruct k; unfold piece_text, write_join_kind; cbn [kw_piece pc_space pc_text lead]; by rewrite <- ?app_assoc.
Qed.
Lemma from_text f :
  from_prints f ->
  text_of (from_pieces f) = match f with Some f => sp ++ write_keyword KwFrom ++ sp ++ write_from f | None => [] end.
Proof.
  destruct f as [[t|q a s]|]; [|done|done]. intros _. cbn [from_pieces write_from]. by rewrite text_of_cons, table_text.
Qed.
Lemma joins_text l : Forall join_prints l -> text_of (concat (map join_pieces l)) = concat (map (fun j => sp ++ write_join j) l).
Proof.
  intros Hl. rewrite text_concat, map_map. f_equal. apply map_ext_in. intros j Hj%list_elem_of_In.
  rewrite Forall_forall in Hl. by apply join_text, Hl.
Qed.
Lemma items_text l : Forall item_prints l -> l <> [] -> text_of (items_pieces l) = sp ++ sep_by comma_sp (map write_item l).
Proof.
  intros Hl Hne. destruct l as [|i l]; [done|]. apply Forall_cons in Hl as [Hi Hl]. cbn [items_pieces map].
  rewrite sep_by_cons, text_of_app, text_concat, !map_map, (item_text true i Hi). cbn [lead]. rewrite <- app_assoc.
  f_equal. f_equal. f_equal. apply map_ext_in. intros j Hj%list_elem_of_In. rewrite Forall_forall in Hl.
  by rewrite text_of_cons, (item_text true j (Hl j Hj)).
Qed.

Lemma stmt_text s : stmt_prints s -> text_of (stmt_pieces s) = write_statement s.
Proof.
  destruct s as [q| | |d| |d| | | | | | | | | | |]; cbn [stmt_prints]; try done.
  - destruct q as [w d items from joins wh group having order limit offset compound sp0].
    intros (-> & Hne & Hi & Hf & Hj & Hw & -> & -> & -> & -> & -> & ->). cbn [stmt_pieces select_pieces write_statement write_select].
    rewrite text_of_cons, !text_of_app, (items_text _ Hi Hne), (from_text _ Hf), (joins_text _ Hj), (where_text _ Hw).
    unfold piece_text, write_where. cbn [kw_piece pc_space pc_text].
    destruct d, wh; cbn [app]; unfold text_of; simpl; by rewrite ?app_nil_r, <- ?app_assoc.
  - intros [_ Hw]. cbn [stmt_pieces write_statement]. rewrite !text_of_cons, (where_text _ Hw). unfold write_delete.
    unfold piece_text. cbn [ident_piece kw_piece pc_space pc_text]. by rewrite <- ?app_assoc.
  - intros _. cbn [stmt_pieces write_statement]. rewrite !text_of_cons. unfold piece_text, text_of.
    cbn [ident_piece kw_piece pc_space pc_text map concat]. by rewrite app_nil_r, <- ?app_assoc.
Qed.

(** ** The pieces are read as tokens *)

Context `{Unicode}.

(** Pieces that begin with a space, or none *)
Definition spaced (ps : list piece) : Prop := match ps with [] => True | p :: _ => pc_space p = true end.

Lemma spaced_app ps qs : spaced ps -> spaced qs -> spaced (ps ++ qs).
Proof. by destruct ps. Qed.
Lemma spaced_hard ps rest : spaced ps -> hard_end rest = true -> hard_end (text_of ps ++ rest) = true.
Proof. destruct ps as [|p ps]; [done|]. intros Hs _. by rewrite head_space. Qed.
Lemma spaced_concat {A} (f : A -> list piece) l : (forall x, spaced (f x)) -> spaced (concat (map f l)).
Proof. intros Hf. induction l as [|x l IH]; [done|]. simpl. by apply spaced_app. Qed.
Lemma spaced_alias a : spaced (alias_pieces a).
Proof. by destruct a. Qed.
Lemma spaced_from f : spaced (from_pieces f).
Proof. by destruct f as [[]|]. Qed.
Lemma spaced_where w : spaced (where_pieces w).
Proof. by destruct w. Qed.
Lemma spaced_join j : spaced (join_pieces j).
Proof. by destruct j. Qed.
Hint Resolve spaced_app spaced_hard spaced_concat spaced_alias spaced_from spaced_where spaced_join : spaced.

Lemma alias_ok a rest : alias_prints a -> hard_end rest = true -> pieces_ok (alias_pieces a) rest.
Proof.
  intros Ha Hr. destruct a as [a|]; [|done]. cbn [alias_pieces]. rewrite !pieces_ok_cons.
  split; [by apply kw_ok|]. split; [|done]. by apply ident_ok, hard_soft.
Qed.
Lemma table_ok t rest : table_prints t -> hard_end rest = true -> pieces_ok (table_pieces t) rest.
Proof.
  intros [Hn Ha] Hr. unfold table_pieces. rewrite pieces_ok_cons. split; [|by apply alias_ok].
  apply ident_ok; [done|]. apply hard_soft. auto with spaced.
Qed.
Lemma where_ok w rest : where_prints w -> hard_end rest = true -> pieces_ok (where_pieces w) rest.
Proof.
  intros Hc Hr. destruct w as [e|]; [|done]. cbn [where_pieces]. rewrite pieces_ok_cons. split; [|by eapply expr_ok].
  destruct (expr_space e _ [] rest Hc) as [r Er]. rewrite app_nil_r in Er. rewrite Er. by apply kw_ok.
Qed.
Lemma item_ok s i rest : item_prints i -> hard_end rest = true -> pieces_ok (item_pieces s i) rest.
Proof.
  destruct i as [e a]. intros [Hc Ha] Hr. cbn [item_pieces]. apply pieces_ok_app. split; [|by apply alias_ok].
  eapply expr_ok; [done|]. auto with spaced.
Qed.
Lemma from_ok f rest : from_prints f -> hard_end rest = true -> pieces_ok (from_pieces f) rest.
Proof.
  destruct f as [[t|]|]; [|done..]. intros Ht Hr. cbn [from_pieces]. rewrite pieces_ok_cons.
  split; [by apply kw_ok|]. by apply table_ok.
Qed.
Lemma join_ok j rest : join_prints j -> hard_end rest = true -> pieces_ok (join_pieces j) rest.
Proof.
  destruct j as [k t e sp0]. intros [Ht Hc] Hr. cbn [join_pieces]. rewrite !pieces_ok_cons.
  destruct (expr_space e _ [] rest Hc) as [r Er]. rewrite app_nil_r in Er.
  split; [destruct k; by apply kw_ok|]. split; [by apply kw_ok|]. apply pieces_ok_app. split; [by apply table_ok|].
  rewrite pieces_ok_cons, Er. split; [by apply kw_ok|]. by eapply expr_ok.
Qed.
Lemma joins_ok l rest : Forall join_prints l -> hard_end rest = true -> pieces_ok (concat (map join_pieces l)) rest.
Proof.
  intros Hl Hr. induction Hl as [|j l Hj Hl IH]; [done|]. simpl. apply pieces_ok_app. split; [|done].
  apply join_ok; auto with spaced.
Qed.
Lemma items_ok l rest : Forall item_prints l -> hard_end rest = true -> pieces_ok (items_pieces l) rest.
Proof.
  intros Hl Hr. destruct Hl as [|i l Hi Hl]; [done|]. cbn [items_pieces].
  assert (hard_end (text_of (concat (map (fun i => punct_piece false Comma :: item_pieces true i) l)) ++ rest) = true /\
    pieces_ok (concat (map (fun i => punct_piece false Comma :: item_pieces true i) l)) rest) as [Hh Hok].
  { induction Hl as [|j l Hj Hl [IH1 IH2]]; [done|]. cbn [map concat app]. split; [done|].
    rewrite pieces_ok_cons. split; [by apply punct_ok|]. apply pieces_ok_app. split; [by apply item_ok|done]. }
  apply pieces_ok_app. split; [by apply item_ok|done].
Qed.

Lemma items_space l ps rest : l <> [] -> Forall item_prints l -> exists r, text_of (items_pieces l ++ ps) ++ rest = x20 :: r.
Proof.
  intros Hne Hl. destruct Hl as [|[e a] l [Hc _] Hl]; [done|]. cbn [items_pieces item_pieces].
  rewrite <- !app_assoc. by eapply expr_space.
Qed.

Lemma stmt_ok s : stmt_prints s -> pieces_ok (stmt_pieces s) [].
Proof.
  destruct s as [q| | |d| |d| | | | | | | | | | |]; cbn [stmt_prints]; try done.
  - destruct q as [w d items from joins wh group having order limit offset compound sp0].
    intros (-> & Hne & Hi & Hf & Hj & Hw & _). cbn [stmt_pieces select_pieces].
    set (r := from_pieces from ++ concat (map join_pieces joins) ++ where_pieces wh).
    assert (pieces_ok (items_pieces items ++ r) []) as Hok.
    { unfold r. rewrite !pieces_ok_app. split; [apply items_ok|split; [apply from_ok|split; [apply joins_ok|by apply where_ok]]];
        auto 8 with spaced. }
    destruct (items_space items r [] Hne Hi) as [t Et]. rewrite pieces_ok_cons. split; [|destruct d; [|done]].
    + apply kw_ok; [done|]. apply hard_soft. destruct d; [done|]. cbn [app]. by rewrite Et.
    + cbn [app]. rewrite pieces_ok_cons, Et. split; [by apply kw_ok|done].
  - intros [Hn Hw]. cbn [stmt_pieces]. rewrite !pieces_ok_cons. split; [by apply kw_ok|]. split; [by apply kw_ok|].
    split; [|by apply where_ok]. apply ident_ok; [done|]. apply hard_soft. auto with spaced.
  - intros Hn. cbn [stmt_pieces]. rewrite !pieces_ok_cons. split; [by apply kw_ok|]. split; [by apply kw_ok|].
    split; [by apply ident_ok|done].
Qed.
End pieces.

(** ** The parser on the pieces *)

Local Open Scope nat_scope.

Section parsing.
Context `{FloatText} (src : bytes) (tokens : list SpannedToken).

Local Abbreviation has_all := (has_all src tokens).
Local Abbreviation has_kind := (has_kind tokens).
Local Abbreviation PE n := (p_expr (parsers_at src tokens n)).
Local Abbreviation PS n := (p_select (parsers_at src tokens n)).

Lemma expr_at m e s pos k :
  length tokens <= m -> canon false e -> has_all pos (expr_pieces s e) -> has_kind (pos + expr_size e) k ->
  stops PrOr k -> finds (PE m PrOr) pos (pos + expr_size e) (same_expr e).
Proof.
  intros Hm Hc Ha Hk Hs. pose proof Hk as (t & Ht%lookup_lt_Some & _). destruct m as [|m]; [lia|].
  eapply expr_reads; try done. lia.
Qed.

(** A token after an item or a table *)
Definition ends_item (k : Token) : Prop := stops PrOr k /\ k <> TKeyword KwAs /\ is_ident_token k = false.

Lemma ends_item_kw kw :
  bool_decide (kw ∉ [KwIs; KwNot; KwIn; KwBetween; KwOver; KwLike; KwOr; KwAnd; KwAs]) = true ->
  ends_item (TKeyword kw).
Proof.
  intros Hkw. apply bool_decide_eq_true_1 in Hkw. split; [|split; [|done]].
  - apply stops_kw. apply bool_decide_eq_true_2. set_solver.
  - intros E. injection E as ->. set_solver.
Qed.
Lemma ends_item_eof : ends_item TEof.
Proof. split; [apply stops_eof|done]. Qed.
Lemma ends_item_comma : ends_item (TPunct Comma).
Proof. split; [apply stops_comma|done]. Qed.

Definition same_alias (a a' : option Ident) : Prop := (strip_ident <$> a') = (strip_ident <$> a).

(** Both alias parsers *)
Lemma alias_finds (rest : SM nat ParseError (option Ident)) a pos k :
  has_all pos (alias_pieces a) -> has_kind (pos + length (alias_pieces a)) k -> k <> TKeyword KwAs ->
  (a = None -> runs rest pos None pos) ->
  finds (let* x := match_keyword tokens KwAs in if x then smap Some (parse_ident src tokens) else rest)
    pos (pos + length (alias_pieces a)) (same_alias a).
Proof.
  intros Ha Hk Hne Hrest. destruct a as [a|]; cbn [alias_pieces length] in *.
  - apply has_kinds_cons in Ha as [Has Ha]. apply has_all_cons in Ha as [Hi _]. cbn [kw_piece pc_tok] in Has.
    eapply finds_bind; [eapply finds_runs, run_match_hit; eassumption|]; intros ? <-; cbn iota beta.
    destruct (ident_runs _ _ _ _ _ Hi) as (i & Hr & Ei). exists (Some i).
    split; [replace (pos + 2) with (S (S pos)) by lia; by eapply runs_map|]. unfold same_alias. simpl. by rewrite Ei.
  - rewrite Nat.add_0_r in *.
    eapply finds_bind; [eapply finds_runs, run_match_miss; eassumption|]; intros ? <-; cbn iota beta.
    exists None. split; [by apply Hrest|done].
Qed.

Lemma no_alias (test : option Token -> bool) pos k :
  has_kind pos k -> is_ident_token k = false ->
  runs (let* k := peek_kind tokens in let* k1 := peek_ahead tokens 1 in
        if is_ident_token k && test k1 then smap Some (parse_ident src tokens) else sret None) pos None pos.
Proof.
  intros Hk Hi. eapply runs_bind; [by eapply run_peek_kind|]. cbn beta. eapply runs_bind; [reflexivity|]. cbn beta.
  rewrite Hi. apply runs_ret.
Qed.

Lemma optional_alias_finds a pos k :
  has_all pos (alias_pieces a) -> has_kind (pos + length (alias_pieces a)) k -> ends_item k ->
  finds (parse_optional_alias src tokens) pos (pos + length (alias_pieces a)) (same_alias a).
Proof.
  intros Ha Hk (_ & Hne & Hi). eapply alias_finds; try done. intros ->. cbn in Hk. rewrite Nat.add_0_r in Hk.
  by eapply no_alias.
Qed.
Lemma table_alias_finds b a pos k :
  has_all pos (alias_pieces a) -> has_kind (pos + length (alias_pieces a)) k -> ends_item k ->
  finds (parse_table_alias src tokens b) pos (pos + length (alias_pieces a)) (same_alias a).
Proof.
  intros Ha Hk (_ & Hne & Hi). eapply alias_finds; try done. intros ->. cbn in Hk. rewrite Nat.add_0_r in Hk.
  by eapply (no_alias (fun k1 => is_table_alias_boundary k1 b)).
Qed.

Lemma alias_start a pos k :
  has_all pos (alias_pieces a) -> has_kind (pos + length (alias_pieces a)) k -> ends_item k ->
  exists k', has_kind pos k' /\ stops PrOr k'.
Proof.
  intros Ha Hk (Hs & _). destruct a; cbn [alias_pieces length] in *.
  - apply has_kinds_cons in Ha as [Ha _]. eexists. split; [done|]. by apply stops_kw.
  - rewrite Nat.add_0_r in Hk. by exists k.
Qed.

Definition same_item (i i' : SelectItem) : Prop := strip_item i' = strip_item i.
Definition same_table (t t' : TableRef) : Prop := strip_table t' = strip_table t.
Definition same_join (j j' : Join) : Prop := strip_join j' = strip_join j.

Lemma item_finds m i s pos k :
  length tokens <= m -> item_prints i -> has_all pos (item_pieces s i) ->
  has_kind (pos + length (item_pieces s i)) k -> ends_item k ->
  finds (parse_select_item src tokens (PE m)) pos (pos + length (item_pieces s i)) (same_item i).
Proof.
  destruct i as [e a]. cbn [item_prints item_pieces]. intros Hm [Hc _] Ha Hk Hend.
  apply has_expr in Ha as [He Ha]. rewrite length_app, expr_pieces_length, Nat.add_assoc in *.
  destruct (alias_start _ _ _ Ha Hk Hend) as (k' & Hk' & Hs').
  unfold parse_select_item, parse_expr. eapply finds_bind; [by eapply expr_at|]. intros e' He'.
  eapply finds_bind; [by eapply optional_alias_finds|]. intros a' Ha'. apply finds_ret.
  unfold same_item, same_expr, same_alias in *. simpl. by rewrite He', Ha'.
Qed.

Lemma table_finds b t pos k :
  has_all pos (table_pieces t) -> has_kind (pos + length (table_pieces t)) k -> ends_item k ->
  finds (parse_table_ref src tokens b) pos (pos + length (table_pieces t)) (same_table t).
Proof.
  unfold table_pieces. cbn [length]. intros Ha Hk Hend. apply has_all_cons in Ha as [Hi Ha].
  rewrite Nat.add_succ_r, <- Nat.add_succ_l in *. unfold parse_table_ref.
  eapply finds_bind; [eapply finds_any, run_peek_span, has_has_kind, Hi|]. intros s _.
  eapply finds_bind; [exact (ident_runs _ _ _ _ _ Hi)|]. intros n' Hn'.
  eapply finds_bind; [by eapply table_alias_finds|]. intros a' Ha'. apply finds_ret.
  unfold same_table, strip_table, same_alias in *. cbn [tr_name tr_alias]. by rewrite Hn', Ha'.
Qed.

Lemma join_finds m b j pos k :
  length tokens <= m -> join_prints j -> has_all pos (join_pieces j) -> has_kind (pos + length (join_pieces j)) k ->
  ends_item k -> finds (parse_join src tokens (PE m) b) pos (pos + length (join_pieces j)) (same_join j).
Proof.
  destruct j as [jk t e sp0]. cbn [join_prints join_pieces]. intros Hm [Ht Hc] Ha Hk Hend.
  apply has_kinds_cons in Ha as [H1 Ha]. apply has_kinds_cons in Ha as [H2 Ha]. apply has_all_app in Ha as [Ht' Ha].
  apply has_kinds_cons in Ha as [Hon He]. cbn [kw_piece pc_tok] in *.
  cbn [length] in *. rewrite length_app in *. cbn [length] in *. rewrite expr_pieces_length in *.
  replace (pos + _) with (S (S (S pos) + length (table_pieces t)) + expr_size e) in * by lia.
  unfold parse_join. eapply finds_bind; [eapply finds_any, run_peek_span, H1|]. intros s _.
  assert (finds (let* table := parse_table_ref src tokens b in let* _ := expect_keyword tokens KwOn in
      let* on := parse_expr (PE m) in sret (mkJoin jk table on (merge_span s (expr_span on))))
    (S (S pos)) (S (S (S pos) + length (table_pieces t)) + expr_size e) (same_join (mkJoin jk t e sp0))) as Htail.
  { eapply finds_bind; [eapply table_finds; [done|exact Hon|by apply ends_item_kw]|]. intros t' Et.
    eapply finds_bind; [by eapply finds_any, run_expect_keyword|]. intros ? _. unfold parse_expr.
    eapply finds_bind; [eapply expr_at; try done; apply Hend|]. intros e' Ee. apply finds_ret.
    unfold same_join, same_table, same_expr in *. simpl. by rewrite Et, Ee. }
  destruct jk.
  - eapply finds_bind; [by eapply finds_runs, run_match_hit|]. intros ? <-. cbn iota beta.
    eapply (finds_bind _ _ _ _ _ (eq JInner)); [|intros ? <-; exact Htail].
    eapply finds_bind; [by eapply finds_any, run_expect_keyword|]. intros ? _. by apply finds_ret.
  - eapply finds_bind; [by eapply finds_runs, run_match_miss|]. intros ? <-. cbn iota beta.
    eapply (finds_bind _ _ _ _ _ (eq JLeft)); [|intros ? <-; exact Htail].
    eapply finds_bind; [by eapply finds_runs, run_match_hit|]. intros ? <-. cbn iota beta.
    eapply finds_bind; [by eapply finds_runs, run_match_miss|]. intros ? _.
    eapply finds_bind; [by eapply finds_any, run_expect_keyword|]. intros ? _. by apply finds_ret.
Qed.

(** What follows the tables: WHERE or the end *)
Lemma where_start w pos :
  has_all pos (where_pieces w) -> has_kind (pos + length (where_pieces w)) TEof ->
  has_kind pos (if w then TKeyword KwWhere else TEof).
Proof.
  destruct w; cbn [where_pieces length]; intros Ha Hk; [by apply has_kinds_cons in Ha as [Ha _]|].
  by rewrite Nat.add_0_r in Hk.
Qed.

Lemma joins_start l pos k :
  has_all pos (concat (map join_pieces l)) -> has_kind (pos + length (concat (map join_pieces l))) k ->
  match l with
  | mkJoin JInner _ _ _ :: _ => has_kind pos (TKeyword KwInner)
  | mkJoin JLeft _ _ _ :: _ => has_kind pos (TKeyword KwLeft)
  | [] => has_kind pos k
  end.
Proof.
  destruct l as [|[[] t e s] l]; cbn [map concat join_pieces length app]; intros Ha Hk.
  - by rewrite Nat.add_0_r in Hk.
  - by apply has_kinds_cons in Ha as [Ha _].
  - by apply has_kinds_cons in Ha as [Ha _].
Qed.

Lemma joins_finds m b l : forall fuel pos k out,
  length tokens <= m -> Forall join_prints l -> has_all pos (concat (map join_pieces l)) ->
  has_kind (pos + length (concat (map join_pieces l))) k -> ends_item k ->
  bool_decide (k ∉ [TKeyword KwInner; TKeyword KwLeft; TKeyword KwJoin]) = true -> length l < fuel ->
  finds (parse_joins src tokens (PE m) fuel b out) pos (pos + length (concat (map join_pieces l)))
    (fun js => exists js', js = out ++ js' /\ Forall2 same_join l js').
Proof.
  induction l as [|j l IH]; intros fuel pos k out Hm Hl Ha Hk Hend Hno Hf; (destruct fuel as [|fuel]; [simpl in Hf; lia|]);
    cbn [parse_joins].
  - cbn in Hk |- *. rewrite Nat.add_0_r in *. eapply finds_bind; [eapply finds_runs; by eapply run_peek_kind|].
    intros ? <-. assert (finds (E:=ParseError) (sret out) pos pos (fun js => exists js', js = out ++ js' /\ Forall2 same_join [] js')) as Hret.
    { apply finds_ret. exists []. by rewrite app_nil_r. }
    destruct k as [[]| | | | | | | | |]; try done; exfalso; by apply bool_decide_eq_true_1 in Hno; set_solver.
  - pose proof (joins_start _ _ _ Ha Hk) as Hst. apply Forall_cons in Hl as [Hj Hl]. cbn [map concat] in *.
    apply has_all_app in Ha as [Haj Ha]. rewrite length_app, Nat.add_assoc in *.
    pose proof (joins_start _ _ _ Ha Hk) as Hst'.
    assert (exists k', has_kind (pos + length (join_pieces j)) k' /\ ends_item k') as (k' & Hk' & He').
    { destruct l as [|[[] t e s] l]; eexists; (split; [exact Hst'|]); first [done|by apply ends_item_kw]. }
    assert (finds (let* j := parse_join src tokens (PE m) b in parse_joins src tokens (PE m) fuel b (out ++ [j])) pos
      (pos + length (join_pieces j) + length (concat (map join_pieces l)))
      (fun js => exists js', js = out ++ js' /\ Forall2 same_join (j :: l) js')) as Hgo.
    { eapply finds_bind; [by eapply join_finds|]. intros j' Ej.
      destruct (IH fuel (pos + length (join_pieces j)) k (out ++ [j'])) as (js & Hjs & js' & -> & Hrel); try done; [simpl in Hf; lia|].
      eexists. split; [exact Hjs|]. exists (j' :: js'). rewrite <- app_assoc. split; [done|]. by constructor. }
    destruct j as [[] t e s]; (eapply finds_bind; [eapply finds_runs; by eapply run_peek_kind|]); intros ? <-; exact Hgo.
Qed.

Definition same_from (f f' : option FromItem) : Prop := (strip_from <$> f') = (strip_from <$> f).
Definition same_where (w w' : option Expr) : Prop := (strip_expr <$> w') = (strip_expr <$> w).

Lemma where_finds m w pos :
  length tokens <= m -> where_prints w -> has_all pos (where_pieces w) -> has_kind (pos + length (where_pieces w)) TEof ->
  finds (let* w := match_keyword tokens KwWhere in if w then smap Some (PE m PrOr) else sret None) pos
    (pos + length (where_pieces w)) (same_where w).
Proof.
  intros Hm Hc Ha Hk. pose proof (where_start _ _ Ha Hk) as Hst. destruct w as [e|]; cbn [where_pieces length] in *.
  - apply has_kinds_cons in Ha as [_ Ha]. rewrite expr_pieces_length, Nat.add_succ_r, <- Nat.add_succ_l in *.
    eapply finds_bind; [by eapply finds_runs, run_match_hit|]. intros ? <-. cbn iota beta.
    destruct (expr_at m e true (S pos) TEof Hm Hc Ha Hk stops_eof) as (e' & He' & Es).
    exists (Some e'). split; [by eapply runs_map|]. unfold same_where. simpl. by rewrite Es.
  - rewrite Nat.add_0_r. eapply finds_bind; [by eapply finds_runs, run_match_miss|]. intros ? <-. by apply finds_ret.
Qed.

Lemma from_finds m b f pos k :
  from_prints f -> has_all pos (from_pieces f) -> has_kind (pos + length (from_pieces f)) k -> ends_item k ->
  k <> TKeyword KwFrom ->
  finds (let* x := match_keyword tokens KwFrom in
         if x then smap Some (parse_from_item src tokens (PS m) b) else sret None) pos
    (pos + length (from_pieces f)) (same_from f).
Proof.
  intros Hf Ha Hk Hend Hne. destruct f as [[t|]|]; [|done|]; cbn [from_pieces length] in *.
  - apply has_kinds_cons in Ha as [Hfrom Ha]. rewrite Nat.add_succ_r, <- Nat.add_succ_l in *.
    eapply finds_bind; [by eapply finds_runs, run_match_hit|]. intros ? <-. cbn iota beta.
    destruct (table_finds b t (S pos) k Ha Hk Hend) as (t' & Ht' & Et). exists (Some (FromTable t')).
    split; [|unfold same_from; simpl; by rewrite Et]. eapply runs_map. unfold parse_from_item.
    apply has_all_cons in Ha as [Hi _]. apply has_has_kind in Hi.
    eapply runs_bind; [by eapply run_at_punct|]. rewrite bool_decide_eq_false_2.
    + by eapply runs_map.
    + unfold ident_piece. simpl. by destruct (forallb _ _).
  - rewrite Nat.add_0_r in *. eapply finds_bind; [by eapply finds_runs, run_match_miss|]. intros ? <-. by apply finds_ret.
Qed.

Lemma same_items l l' : Forall2 same_item l l' -> map strip_item l' = map strip_item l.
Proof. induction 1 as [|v v' vs vs' Hv _ IH]; [done|]. simpl. by rewrite Hv, IH. Qed.
Lemma same_joins l l' : Forall2 same_join l l' -> map strip_join l' = map strip_join l.
Proof. induction 1 as [|v v' vs vs' Hv _ IH]; [done|]. simpl. by rewrite Hv, IH. Qed.

Lemma items_finds m l pos k :
  length tokens <= m -> l <> [] -> Forall item_prints l -> has_all pos (items_pieces l) ->
  has_kind (pos + length (items_pieces l)) k -> ends_item k -> k <> TPunct Comma ->
  finds (comma_list tokens (parse_select_item src tokens (PE m))) pos (pos + length (items_pieces l)) (Forall2 same_item l).
Proof.
  intros Hm Hne Hl Ha Hk Hend Hc. destruct l as [|i l]; [done|]. cbn [items_pieces] in *.
  destruct (comma_loop_finds src tokens (parse_select_item src tokens (PE m)) item_pieces same_item ends_item ends_item_comma
    l i true (S (length tokens)) [] pos k) as (ys & Hys & zs & -> & Hzs); try done.
  - intros y Hy s pos' k' Hp Hk' He'. rewrite Forall_forall in Hl. eapply item_finds; try done. by apply Hl.
  - intros s [e a]. cbn [item_pieces]. by rewrite !length_app, !expr_pieces_length.
  - destruct Hk as (t & Ht%lookup_lt_Some & _). rewrite length_app in Ht.
    assert (length l <= length (concat (map (fun v => punct_piece false Comma :: item_pieces true v) l))) as Hlen; [|lia].
    clear. induction l as [|y l IH]; [done|]. cbn [map concat]. rewrite length_app. simpl. lia.
  - by exists zs.
Qed.

(** The clauses that are not printed are not found at the end. *)
Ltac absent := eapply finds_bind; [eapply finds_runs, run_match_miss; [eassumption|discriminate]|]; intros ? <-; cbn [negb]; cbn iota beta.

Lemma tail_clauses m pos :
  has_kind pos TEof ->
  runs (parse_group_by tokens (PE m)) pos [] pos /\ runs (parse_having tokens (PE m)) pos None pos /\
  runs (parse_order_by tokens (PE m)) pos [] pos /\ runs (parse_limit_offset tokens) pos (None, None) pos.
Proof.
  intros Hk. assert (forall kw, runs (match_keyword tokens kw) pos false pos) as Hno.
  { intros kw. by eapply run_match_miss. }
  repeat split.
  - by eapply runs_bind; [apply Hno|apply runs_ret].
  - by eapply runs_bind; [apply Hno|apply runs_ret].
  - by eapply runs_bind; [apply Hno|apply runs_ret].
  - eapply runs_bind; [apply Hno|]. eapply runs_bind; [apply runs_ret|]. eapply runs_bind; [apply Hno|].
    eapply runs_bind; [apply runs_ret|]. apply runs_ret.
Qed.

Lemma select_query_finds d items from joins wh sp0 :
  let q := mkSelectStmt None d items from joins wh [] None [] None None None sp0 in
  select_prints q -> has_all 0 (select_pieces q) -> has_kind (length (select_pieces q)) TEof ->
  finds (parse_select_query src tokens) 0 (length (select_pieces q)) (fun q' => strip_select q' = strip_select q /\
    exists i f j w s, q' = mkSelectStmt None d i f j w [] None [] None None None s).
Proof.
  cbn zeta. cbn [select_prints select_pieces]. intros (_ & Hne & Hi & Hf & Hj & Hw & _) Ha Hk.
  apply has_kinds_cons in Ha as [Hsel Ha]. cbn [kw_piece pc_tok length] in *.
  apply has_all_app in Ha as [Hd Ha]. apply has_all_app in Ha as [Hai Ha]. apply has_all_app in Ha as [Haf Ha].
  apply has_all_app in Ha as [Haj Haw]. rewrite !length_app in Hk |- *.
  set (p1 := 1 + length (if d then [kw_piece true KwDistinct] else [])) in *.
  set (p2 := p1 + length (items_pieces items)) in *. set (p3 := p2 + length (from_pieces from)) in *.
  set (p4 := p3 + length (concat (map join_pieces joins))) in *.
  replace (S _) with (p4 + length (where_pieces wh)) in * by (unfold p4, p3, p2, p1; lia).
  pose proof (where_start _ _ Haw Hk) as Hk4.
  assert (ends_item (if wh then TKeyword KwWhere else TEof)) as He4 by (destruct wh; [by apply ends_item_kw|apply ends_item_eof]).
  assert (exists k, has_kind p3 k /\ ends_item k /\ k <> TKeyword KwFrom /\ k <> TPunct Comma) as (k3 & Hk3 & He3 & Hne3 & Hc3).
  { pose proof (joins_start _ _ _ Haj Hk4) as Hs. destruct joins as [|[[] t e s] joins]; eexists; (split; [exact Hs|]);
      (split; [first [done|by apply ends_item_kw]|]); by destruct wh. }
  assert (exists k, has_kind p2 k /\ ends_item k /\ k <> TPunct Comma) as (k2 & Hk2 & He2 & Hc2).
  { unfold p3 in Hk3. destruct from as [[t|]|]; cbn [from_pieces length] in *.
    - apply has_kinds_cons in Haf as [Hfr _]. eexists. split; [exact Hfr|]. split; [by apply ends_item_kw|done].
    - done.
    - rewrite Nat.add_0_r in Hk3. by exists k3. }
  change (parse_select_query src tokens) with
    (parse_select_inner_body src tokens (PE (length tokens)) (PS (length tokens)) false false).
  unfold parse_select_inner_body.
  eapply finds_bind; [by eapply finds_any, run_expect_keyword|]. intros start _.
  eapply (finds_bind _ _ _ p1 _ (eq d)).
  { unfold p1. destruct d; cbn [length] in *.
    - apply has_kinds_cons in Hd as [Hd _]. by eapply finds_runs, run_match_hit.
    - destruct items as [|[e a] items]; [done|]. apply Forall_cons in Hi as [[Hc _] _].
      destruct (expr_first e _ true Hc) as (p & ps & Ep & _ & Hp). cbn [items_pieces item_pieces] in Hai.
      rewrite Ep in Hai. cbn [app] in Hai. apply has_kinds_cons in Hai as [Hp1 _].
      eapply finds_runs, run_match_miss; [exact Hp1|]. intros E. rewrite E in Hp. destruct Hp as [Hp|[Hp|Hp]]; done. }
  intros ? <-. eapply finds_bind; [by eapply items_finds|]. intros items' Hitems.
  apply finds_assoc. eapply finds_bind; [by eapply from_finds|]. intros from' Hfrom.
  eapply finds_bind.
  { eapply joins_finds; try done; [by destruct wh|]. destruct Hk4 as (t & Ht%lookup_lt_Some & _). unfold p4 in Ht.
    assert (length joins <= length (concat (map join_pieces joins))) as Hlen; [|lia].
    clear. induction joins as [|[k t e s] l IH]; [done|]. cbn [map concat]. rewrite length_app. simpl. lia. }
  intros joins' (js & -> & Hjoins). cbn [app]. apply finds_assoc. eapply finds_bind; [by eapply where_finds|].
  intros wh' Hwh. destruct (tail_clauses (length tokens) _ Hk) as (Hg & Hh & Ho & Hlo).
  eapply finds_bind; [exact (finds_runs _ _ _ _ Hg)|]. intros ? <-.
  eapply finds_bind; [exact (finds_runs _ _ _ _ Hh)|]. intros ? <-.
  eapply finds_bind; [exact (finds_runs _ _ _ _ Ho)|]. intros ? <-.
  eapply finds_bind; [exact (finds_runs _ _ _ _ Hlo)|]. intros ? <-.
  eapply finds_bind; [by eapply finds_runs, run_peek_kind|]. intros ? <-. cbn [andb].
  eapply finds_bind; [by apply finds_runs, runs_ret|]. intros ? <-.
  assert (exists p, p4 + length (where_pieces wh) = S p) as [p5 Ep5].
  { exists (p4 + length (where_pieces wh) - 1). unfold p4, p3, p2, p1. lia. }
  rewrite Ep5 in *. assert (exists k, has_kind p5 k) as [k5 Hk5].
  { destruct Hk as (t & Ht%lookup_lt_Some & _). destruct (lookup_lt_is_Some_2 tokens p5) as [t' Ht']; [lia|]. by eexists _, t'. }
  eapply finds_bind.
  { eapply finds_any. destruct (run_prev_span _ _ _ Hk5) as [sp1 Hsp1]. exists sp1. unfold last_span.
    eapply runs_bind; [reflexivity|]. exact Hsp1. }
  intros sp2 _. apply finds_ret. split; [|by eexists _, _, _, _, _].
  unfold same_from, same_where in *. cbn [strip_select fst snd].
  rewrite (same_items _ _ Hitems), (same_joins _ _ Hjoins). f_equal.
  - destruct from', from; simpl in *; congruence.
  - destruct wh', wh; simpl in *; congruence.
Qed.

Lemma run_expect_eof pos : has_kind pos TEof -> runs (expect_eof tokens) pos tt pos.
Proof.
  intros Hk. eapply runs_bind; [by eapply run_peek_kind|]. cbn beta. rewrite bool_decide_eq_true_2 by done. apply runs_ret.
Qed.

Lemma select_finds q :
  select_prints q -> has_all 0 (select_pieces q) -> has_kind (length (select_pieces q)) TEof ->
  finds (parse_select src tokens) 0 (length (select_pieces q)) (fun q' => strip_select q' = strip_select q).
Proof.
  intros Hq Ha Hk. destruct q as [w d items from joins wh group having order limit offset compound sp0].
  pose proof Hq as (-> & _ & _ & _ & _ & _ & -> & -> & -> & -> & -> & ->).
  pose proof Ha as Hsel. cbn [select_pieces] in Hsel. apply has_kinds_cons in Hsel as [Hsel _]. unfold parse_select, parse_with.
  eapply finds_bind.
  { eapply finds_runs. unfold parse_optional_with. eapply runs_bind; [by eapply run_match_miss|]. apply runs_ret. }
  intros ? <-. eapply finds_bind; [by eapply select_query_finds|]. intros q' (Hs & i & f & j & w & s & ->).
  eapply finds_bind.
  { eapply finds_runs. cbn [parse_compound_chain]. eapply runs_bind; [by eapply run_peek_kind|]. apply runs_ret. }
  intros ? <-. eapply finds_bind; [by eapply finds_runs, run_expect_eof|]. intros ? _. apply finds_ret. exact Hs.
Qed.

Lemma delete_finds d :
  where_prints (del_where d) -> has_all 0 (stmt_pieces (SDelete d)) -> has_kind (length (stmt_pieces (SDelete d))) TEof ->
  finds (parse_delete src tokens) 0 (length (stmt_pieces (SDelete d))) (fun d' => same_stmt (SDelete d) (SDelete d')).
Proof.
  cbn [stmt_pieces length]. intros Hw Ha Hk. apply has_kinds_cons in Ha as [H1 Ha]. apply has_kinds_cons in Ha as [H2 Ha].
  apply has_all_cons in Ha as [H3 Ha]. unfold parse_delete.
  eapply finds_bind; [by eapply finds_any, run_expect_keyword|]. intros ? _.
  eapply finds_bind; [by eapply finds_any, run_expect_keyword|]. intros ? _.
  eapply finds_bind; [exact (ident_runs _ _ _ _ _ H3)|]. intros i Hi.
  eapply finds_bind; [apply (where_finds (parse_fuel tokens) (del_where d) 3); try done; unfold parse_fuel; lia|]. intros w Hwh.
  eapply finds_bind; [by eapply finds_runs, run_expect_eof|]. intros ? _.
  assert (exists k, has_kind (2 + length (where_pieces (del_where d))) k) as [k5 Hk5].
  { destruct Hk as (t & Ht%lookup_lt_Some & _).
    destruct (lookup_lt_is_Some_2 tokens (2 + length (where_pieces (del_where d)))) as [t' Ht']; [simpl; lia|]. by eexists _, t'. }
  eapply finds_bind; [eapply finds_any; exact (run_prev_span _ _ _ Hk5)|]. intros ? _. apply finds_ret. by split.
Qed.

Lemma drop_finds d :
  has_all 0 (stmt_pieces (SDropTable d)) -> has_kind (length (stmt_pieces (SDropTable d))) TEof ->
  finds (parse_drop_table src tokens) 0 (length (stmt_pieces (SDropTable d)))
    (fun d' => same_stmt (SDropTable d) (SDropTable d')).
Proof.
  cbn [stmt_pieces length]. intros Ha Hk. apply has_kinds_cons in Ha as [H1 Ha]. apply has_kinds_cons in Ha as [H2 Ha].
  apply has_all_cons in Ha as [H3 _]. unfold parse_drop_table.
  eapply finds_bind; [by eapply finds_any, run_expect_keyword|]. intros ? _.
  eapply finds_bind; [by eapply finds_any, run_expect_keyword|]. intros ? _.
  eapply finds_bind; [exact (ident_runs _ _ _ _ _ H3)|]. intros i Hi.
  eapply finds_bind; [by eapply finds_runs, run_expect_eof|]. intros ? _.
  by apply finds_ret.
Qed.

Lemma dispatch_finds s fuel :
  stmt_prints s -> has_all 0 (stmt_pieces s) -> has_kind (length (stmt_pieces s)) TEof ->
  finds (dispatch_statement src tokens (S fuel)) 0 (length (stmt_pieces s)) (same_stmt s).
Proof.
  intros Hs Ha Hk. cbn [dispatch_statement].
  destruct s as [[]| | |d| |d| | | | | | | | | | |]; try done; cbn [stmt_prints] in Hs; pose proof Ha as Ha';
    cbn [stmt_pieces select_pieces] in Ha'; apply has_kinds_cons in Ha' as [Hfst _];
    (eapply finds_bind; [by eapply finds_runs, run_peek_kind|]); intros ? <-; cbn [kw_piece pc_tok].
  - destruct (select_finds _ Hs Ha Hk) as (q' & Hq & E). exists (SSelect q'). split; [by eapply runs_map|done].
  - destruct Hs as [_ Hw]. destruct (delete_finds _ Hw Ha Hk) as (d' & Hd & E). exists (SDelete d'). split; [by eapply runs_map|done].
  - destruct (drop_finds _ Ha Hk) as (d' & Hd & E). exists (SDropTable d'). split; [by eapply runs_map|done].
Qed.
End parsing.

Lemma has_all_tokens src ps toks rest : Forall2 (token_of src) ps toks -> has_all src (toks ++ rest) 0 ps.
Proof.
  intros Hf i p Hi. destruct (Forall2_lookup_l _ _ _ _ _ Hf Hi) as (t & Ht & Hp). exists t. split; [|done].
  simpl. by apply lookup_app_l_Some.
Qed.

(** C31. Printing and parsing: the text of a statement, if it is shorter than 4 GiB, parses to
    the statement, up to the spans.  This covers DELETE, DROP TABLE and queries with
    projections and aliases, a table, joins and a condition; not the clauses whose keywords
    print as KEYWORD (GROUP BY, ORDER BY, LIMIT and the like: limit_does_not_round_trip),
    WITH and set operations.  The expressions are atoms and operators on atoms; atoms are
    columns, parameters, literals (integers not negative, no floating-point number),
    parenthesized expressions, calls of functions and CAST to a built-in type; excluded are
    subqueries, window functions with OVER, which do not round-trip
    (window_does_not_round_trip), and CAST to a type that is only named.  A name is a word
    that is no keyword, or has a char that makes it print in quotes. *)
Theorem print_parse `{FloatText, Unicode} (s : Statement) :
  stmt_prints s -> (len (write_statement s) < 2 ^ 32)%Z ->
  exists s', parse (write_statement s) = Ok s' /\ same_stmt s s'.
Proof.
  intros Hs Hlen. rewrite <- (stmt_text s Hs) in Hlen |- *.
  destruct (tokenize_pieces (stmt_pieces s) (stmt_ok s Hs) Hlen) as (toks & eof & Ht & He & Hf).
  unfold parse, parse_statement. rewrite Ht. cbn [map_err obind]. unfold parse_statement_inner.
  pose proof (has_all_tokens _ _ _ [eof] Hf) as Ha.
  assert (has_kind (toks ++ [eof]) (length (stmt_pieces s)) TEof) as Hk.
  { exists eof. split; [|done]. rewrite (Forall2_length _ _ _ Hf). by apply list_lookup_middle. }
  destruct (dispatch_finds _ _ s (length (toks ++ [eof])) Hs Ha Hk) as (s' & Hr & Hsame).
  unfold runs in Hr. rewrite Hr. by exists s'.
Qed.

(** A query with quoted names, a join, a list and parentheses *)
Definition sample_query : Statement :=
  let id s := mkIdent (bs s) no_span in
  let col s := EColumn (Named None (id s)) in
  SSelect (mkSelectStmt None true
    [mkSelectItem (col "a") None; mkSelectItem (col "b c") (Some (id "x"))]
    (Some (FromTable (mkTableRef (id "t") None no_span)))
    [mkJoin JInner (mkTableRef (id "u") (Some (id "v")) no_span)
       (EBinary BEq (col "a")
          (EParen (EBinary BPlus (EColumn (Named (Some (id "t")) (id "b"))) (ELiteral (LInteger 1 no_span)) no_span)
             no_span) no_span) no_span]
    (Some (EUnary UNot (EParen (EIn (col "a") [ELiteral (LString (bs "it's") no_span); EParameter 1 no_span] true
       no_span) no_span) no_span))
    [] None [] None None None no_span).

Lemma ascii_chars (v : bytes) : Forall (fun b => (b2z b < 0x80)%Z) v -> exists cs, Forall is_char cs /\ v = utf8 cs.
Proof. intros Hv. destruct (bs_utf8 v Hv) as [E Hc]. eauto. Qed.

Lemma print_parse_witness :
  let _ := {| f64_to_string := fun _ => [] |} in
  let _ := ascii_unicode in
  stmt_prints sample_query /\ len (write_statement sample_query) = 106%Z /\
  exists s', parse (write_statement sample_query) = Ok s' /\ same_stmt sample_query s'.
Proof.
  assert (stmt_prints sample_query) as Hs.
  { assert (forall v, plain_word v = true -> ident_prints (mkIdent v no_span)) as Hid.
    { intros v Hv. unfold ident_prints. cbn [id_value]. destruct (forallb _ _) eqn:E; [done|].
      unfold plain_word in Hv. destruct v as [|b w]; [done|]. apply andb_true_iff in Hv as [Hv _].
      apply andb_true_iff in Hv as [Hb Hw]. simpl in E. by rewrite (ident_start_simple _ Hb), Hw in E. }
    assert (ident_prints (mkIdent (bs "b c") no_span)) as Hbc
      by (apply ascii_chars; by apply (bool_decide_eq_true_1 _)).
    assert (exists cs, Forall is_char cs /\ bs "it's" = utf8 cs) as Hits
      by (apply ascii_chars; by apply (bool_decide_eq_true_1 _)).
    repeat split; try done; repeat constructor; try done; try (apply Hid; vm_compute; reflexivity). }
  split; [done|]. split; [vm_compute; reflexivity|].
  apply (@print_parse {| f64_to_string := fun _ => [] |} ascii_unicode); [done|vm_compute; reflexivity].
Defined.

(** ** How the parser groups operators: texts whose tree is not what SQL prescribes, and printed texts that read differently *)

Section facts.
Context `{Unicode}.

(** The statement that a text parses to, without its spans *)
Definition parses_to (text : string) (s : Statement) : Prop :=
  exists s', parse (bs text) = Ok s' /\ same_stmt s s'.

Definition col (c : string) : Expr := EColumn (Named None (mkIdent (bs c) no_span)).
Definition int (n : Z) : Expr := ELiteral (LInteger n no_span).
Definition select_where (items : list Expr) (from : option string) (wh : option Expr) : Statement :=
  SSelect (mkSelectStmt None false (map (fun e => mkSelectItem e None) items)
    (option_map (fun t => FromTable (mkTableRef (mkIdent (bs t) no_span) None no_span)) from) [] wh [] None [] None
    None None no_span).

Ltac by_parsing := eexists; split; [vm_compute; reflexivity|vm_compute; reflexivity].

(** [a NOT LIKE b] parses as [a LIKE b]: the test for NOT BETWEEN consumes the NOT
    although no BETWEEN follows. *)
Theorem not_like_parses_as_like :
  parses_to "SELECT a FROM t WHERE a NOT LIKE b"
    (select_where [col "a"] (Some "t") (Some (EBinary BLike (col "a") (col "b") no_span))).
Proof. by_parsing. Qed.

(** Additive operators group to the right, and [*] binds no tighter than [+]. *)
Theorem arithmetic_groups_to_the_right :
  parses_to "SELECT 10 - 3 - 2"
    (select_where [EBinary BMinus (int 10) (EBinary BMinus (int 3) (int 2) no_span) no_span] None None) /\
  parses_to "SELECT a * b + c"
    (select_where [EBinary BMul (col "a") (EBinary BPlus (col "b") (col "c") no_span) no_span] None None).
Proof. split; by_parsing. Qed.

(** NOT takes a whole conjunction: [NOT a AND b] is read as [NOT (a AND b)]. *)
Theorem not_takes_conjunction :
  parses_to "SELECT a FROM t WHERE NOT a AND b"
    (select_where [col "a"] (Some "t") (Some (EUnary UNot (EBinary BAnd (col "a") (col "b") no_span) no_span))).
Proof. by_parsing. Qed.

(** IS NULL binds to the right operand of a comparison or a sum. *)
Theorem is_null_binds_to_right_operand :
  parses_to "SELECT a FROM t WHERE a = b IS NULL"
    (select_where [col "a"] (Some "t") (Some (EBinary BEq (col "a") (EIsNull (col "b") false no_span) no_span))).
Proof. by_parsing. Qed.

(** A statement that ends with a semicolon is an error. *)
Theorem trailing_semicolon_rejected :
  exists s, parse (bs "SELECT 1;") = Err (UnexpectedToken s "end of statement").
Proof. eexists. vm_compute. reflexivity. Qed.

(** LIMIT prints as the word KEYWORD, which parses as an alias or not at all. *)
Theorem limit_does_not_round_trip `{FloatText} :
  exists s, parse (bs "SELECT a FROM t LIMIT 5") = Ok s /\
    write_statement s = bs "SELECT a FROM t KEYWORD 5" /\
    exists e, parse (write_statement s) = Err e.
Proof.
  eexists. split; [vm_compute; reflexivity|]. split; [vm_compute; reflexivity|]. eexists. vm_compute. reflexivity.
Qed.
(** So does the PARTITION BY of a window function. *)
Theorem window_does_not_round_trip `{FloatText} :
  exists s, parse (bs "SELECT SUM(x) OVER (PARTITION BY y) FROM t") = Ok s /\
    exists e, parse (write_statement s) = Err e.
Proof. eexists. split; [vm_compute; reflexivity|]. eexists. vm_compute. reflexivity. Qed.
End facts.
