(* ===== verification/Utf8.v ===== *)
(** * Checking and repairing UTF-8

    [core::str::from_utf8] and [String::from_utf8_lossy] of the standard library,
    which the row codecs use on stored bytes. *)

From S2P Require Import Prelude Text.

(** Bytes that may follow the lead byte [x] of a char of three or four bytes *)
Definition second_of_3 (x y : Z) : bool :=
  (x =? 0xE0) && char_in 0xA0 0xBF y || char_in 0xE1 0xEC x && char_in 0x80 0xBF y ||
  (x =? 0xED) && char_in 0x80 0x9F y || char_in 0xEE 0xEF x && char_in 0x80 0xBF y.
Definition second_of_4 (x y : Z) : bool :=
  (x =? 0xF0) && char_in 0x90 0xBF y || char_in 0xF1 0xF3 x && char_in 0x80 0xBF y ||
  (x =? 0xF4) && char_in 0x80 0x8F y.

(** The first char of a non-empty slice: its length and [true], or the length of
    the invalid sequence at the start and [false].  Reading past the end gives 0. *)
Definition utf8_chunk (b : byte) (r : bytes) : nat * bool :=
  let x := b2z b in
  let at_ i := match r !! i with Some c => b2z c | None => 0 end in
  let cont i := char_in 0x80 0xBF (at_ i) in
  if x <? 0x80 then (1%nat, true)
  else if char_in 0xC2 0xDF x then
    if cont 0%nat then (2%nat, true) else (1%nat, false)
  else if char_in 0xE0 0xEF x then
    if second_of_3 x (at_ 0%nat) then
      if cont 1%nat then (3%nat, true) else (2%nat, false)
    else (1%nat, false)
  else if char_in 0xF0 0xF4 x then
    if second_of_4 x (at_ 0%nat) then
      if cont 1%nat then
        if cont 2%nat then (4%nat, true) else (3%nat, false)
      else (2%nat, false)
    else (1%nat, false)
  else (1%nat, false).

(** U+FFFD *)
Definition replacement : bytes := [xef; xbf; xbd].

Fixpoint lossy_loop (fuel : nat) (s : bytes) : bytes :=
  match fuel, s with
  | S fuel', b :: r =>
      let '(n, ok) := utf8_chunk b r in
      (if ok then take n s else replacement) ++ lossy_loop fuel' (drop n s)
  | _, _ => []
  end.
Definition from_utf8_lossy (s : bytes) : bytes := lossy_loop (length s) s.

Fixpoint utf8_valid_loop (fuel : nat) (s : bytes) : bool :=
  match s with
  | [] => true
  | b :: r =>
      match fuel with
      | O => false
      | S fuel' => let '(n, ok) := utf8_chunk b r in ok && utf8_valid_loop fuel' (drop n s)
      end
  end.
Definition from_utf8 (s : bytes) : option bytes :=
  if utf8_valid_loop (length s) s then Some s else None.

(** ** Chars and white space *)

(** [char::is_whitespace] and [trim()] *)
Definition is_space (c : Z) : bool :=
  char_in 9 13 c || (c =? 0x20) || (c =? 0x85) || (c =? 0xA0) || (c =? 0x1680) || char_in 0x2000 0x200A c ||
  (c =? 0x2028) || (c =? 0x2029) || (c =? 0x202F) || (c =? 0x205F) || (c =? 0x3000).

Fixpoint chars (fuel : nat) (s : bytes) : list Z :=
  match fuel, next_char s with
  | S fuel', Some c => c :: chars fuel' (drop (len_utf8 c) s)
  | _, _ => []
  end.
Fixpoint skip_spaces (cs : list Z) : list Z :=
  match cs with c :: r => if is_space c then skip_spaces r else cs | [] => [] end.
Definition trim (s : bytes) : bytes :=
  utf8 (rev (skip_spaces (rev (skip_spaces (chars (length s) s))))).

(** [split(sep)]: always at least one piece *)
Fixpoint split_at (sep : byte) (s : bytes) : list bytes :=
  match s with
  | [] => [[]]
  | b :: r =>
      if bool_decide (b = sep) then [] :: split_at sep r
      else match split_at sep r with
           | p :: ps => (b :: p) :: ps
           | [] => [[b]]
           end
  end.

(** ** Strings are valid *)

(** Decide the tests of [utf8_chunk] from bounds on the bytes. *)
Ltac chunk_tests :=
  repeat (case_test; try done); exfalso;
  repeat match goal with
  | H : (_ || _) = false |- _ => apply orb_false_iff in H as [? ?]
  | H : (_ && _) = false |- _ => apply andb_false_iff in H as [?|?]
  end; bool_to_prop; lia.

Lemma chunk_2 b0 b1 s :
  0xC2 <= b2z b0 <= 0xDF -> 0x80 <= b2z b1 <= 0xBF -> utf8_chunk b0 (b1 :: s) = (2%nat, true).
Proof. intros H0 H1. unfold utf8_chunk, char_in. cbn [lookup list_lookup]. chunk_tests. Qed.

Lemma chunk_3 b0 b1 b2 s :
  0xE0 <= b2z b0 <= 0xEF -> 0x80 <= b2z b1 <= 0xBF -> (b2z b0 = 0xE0 -> 0xA0 <= b2z b1) ->
  (b2z b0 = 0xED -> b2z b1 <= 0x9F) -> 0x80 <= b2z b2 <= 0xBF -> utf8_chunk b0 (b1 :: b2 :: s) = (3%nat, true).
Proof.
  intros H0 H1 Ha Hb H2. assert (second_of_3 (b2z b0) (b2z b1) = true) as Hs.
  { unfold second_of_3, char_in. destruct (_ || _) eqn:E; [done|]. chunk_tests. }
  unfold utf8_chunk, char_in. cbn [lookup list_lookup]. rewrite Hs. chunk_tests.
Qed.

Lemma chunk_4 b0 b1 b2 b3 s :
  0xF0 <= b2z b0 <= 0xF4 -> 0x80 <= b2z b1 <= 0xBF -> (b2z b0 = 0xF0 -> 0x90 <= b2z b1) ->
  (b2z b0 = 0xF4 -> b2z b1 <= 0x8F) -> 0x80 <= b2z b2 <= 0xBF -> 0x80 <= b2z b3 <= 0xBF ->
  utf8_chunk b0 (b1 :: b2 :: b3 :: s) = (4%nat, true).
Proof.
  intros H0 H1 Ha Hb H2 H3. assert (second_of_4 (b2z b0) (b2z b1) = true) as Hs.
  { unfold second_of_4, char_in. destruct (_ || _) eqn:E; [done|]. chunk_tests. }
  unfold utf8_chunk, char_in. cbn [lookup list_lookup]. rewrite Hs. chunk_tests.
Qed.

Lemma chunk_utf8 c s : is_char c ->
  exists b r, utf8_char c = b :: r /\ utf8_chunk b (r ++ s) = (len_utf8 c, true).
Proof.
  intros [Hc Hs]. unfold utf8_char, len_utf8.
  repeat case_test; eexists _, _; (split; [reflexivity|]); cbn [app];
    [|apply chunk_2|apply chunk_3|apply chunk_4]; rewrite ?byte_of by (Z.div_mod_to_equations; lia);
    try (Z.div_mod_to_equations; lia).
  unfold utf8_chunk. rewrite byte_of by lia. by rewrite (proj2 (Z.ltb_lt _ _)) by lia.
Qed.

Lemma chunk_pos b r : (0 < (utf8_chunk b r).1)%nat.
Proof. unfold utf8_chunk. repeat case_test; simpl; lia. Qed.

Lemma take_utf8_char c s : take (len_utf8 c) (utf8_char c ++ s) = utf8_char c.
Proof. rewrite <- length_utf8_char. apply take_app_length. Qed.
Lemma drop_utf8_char c s : drop (len_utf8 c) (utf8_char c ++ s) = s.
Proof. rewrite <- length_utf8_char. apply drop_app_length. Qed.

Lemma lossy_loop_utf8 cs fuel : Forall is_char cs -> (length (utf8 cs) <= fuel)%nat -> lossy_loop fuel (utf8 cs) = utf8 cs.
Proof.
  intros Hcs. revert fuel. induction Hcs as [|c cs Hc Hcs IH]; intros fuel Hf; [by destruct fuel|].
  rewrite utf8_cons in *. destruct (chunk_utf8 c (utf8 cs) Hc) as (b & r & E & Hch).
  pose proof (take_utf8_char c (utf8 cs)) as Ht. pose proof (drop_utf8_char c (utf8 cs)) as Hd.
  rewrite E in *. cbn [app] in *. destruct fuel as [|fuel]; [simpl in Hf; lia|]. cbn [lossy_loop]. rewrite Hch, Ht, Hd.
  rewrite IH; [done|]. simpl in Hf. rewrite length_app in Hf. lia.
Qed.
Lemma from_utf8_lossy_id cs : Forall is_char cs -> from_utf8_lossy (utf8 cs) = utf8 cs.
Proof. intros Hcs. by apply lossy_loop_utf8. Qed.

Lemma valid_loop_utf8 cs fuel : Forall is_char cs -> (length (utf8 cs) <= fuel)%nat -> utf8_valid_loop fuel (utf8 cs) = true.
Proof.
  intros Hcs. revert fuel. induction Hcs as [|c cs Hc Hcs IH]; intros fuel Hf; [by destruct fuel|].
  rewrite utf8_cons in *. destruct (chunk_utf8 c (utf8 cs) Hc) as (b & r & E & Hch).
  pose proof (drop_utf8_char c (utf8 cs)) as Hd. rewrite E in *. cbn [app] in *.
  destruct fuel as [|fuel]; [simpl in Hf; lia|]. cbn [utf8_valid_loop]. rewrite Hch, Hd.
  apply IH. simpl in Hf. rewrite length_app in Hf. lia.
Qed.
Lemma from_utf8_ok cs : Forall is_char cs -> from_utf8 (utf8 cs) = Some (utf8 cs).
Proof. intros Hcs. unfold from_utf8. by rewrite valid_loop_utf8. Qed.

(** ** Text has no byte 255 *)

Lemma chunk_no_ff b r n : utf8_chunk b r = (n, true) -> Forall (fun c => b2z c <> 255) (take n (b :: r)).
Proof.
  unfold utf8_chunk, second_of_3, second_of_4, char_in. cbv zeta. intros E.
  destruct r as [|c0 [|c1 [|c2 r]]]; cbn [lookup list_lookup] in E;
    repeat match type of E with (if ?c then _ else _) = _ => destruct c eqn:? end; try discriminate E; injection E as <-;
    cbn [take]; repeat constructor; bool_to_prop; lia.
Qed.

Lemma lossy_loop_no_ff fuel s : Forall (fun c => b2z c <> 255) (lossy_loop fuel s).
Proof.
  revert s. induction fuel as [|fuel IH]; intros [|b r]; [constructor..|]. cbn [lossy_loop].
  destruct (utf8_chunk b r) as [n [|]] eqn:E; apply Forall_app; (split; [|apply IH]).
  - by apply chunk_no_ff.
  - repeat constructor; discriminate.
Qed.

Lemma lossy_no_ff s : xff ∉ from_utf8_lossy s.
Proof.
  intros Hin. pose proof (lossy_loop_no_ff (length s) s) as F. rewrite Forall_forall in F. by apply (F xff Hin).
Qed.
