(* ===== verification/RowPack.v ===== *)
(** * Packed rows (crates/noedb-storage/src/rowpack.rs)

    One stored value per row: a magic, a 16-bit number of columns, then each name
    with a 16-bit length and each value with a 32-bit length. *)

From S2P Require Import Prelude StorageError Text Utf8.

Definition ROWPACK_MAGIC : bytes := bs "NRP1".

Abbreviation Row := (list (bytes * bytes)).

(** [u16::try_from(n).unwrap_or(u16::MAX)] *)
Definition clamp (w n : Z) : Z := Z.min n (umax w).

Definition encode_column (column : bytes * bytes) : bytes :=
  let '(name, value) := column in
  let name_len := clamp 16 (len name) in
  let val_len := clamp 32 (len value) in
  le_bytes 2 name_len ++ take (Z.to_nat name_len) name ++ le_bytes 4 val_len ++ take (Z.to_nat val_len) value.

Definition encode_row (columns : Row) : bytes :=
  let count := clamp 16 (len columns) in
  ROWPACK_MAGIC ++ le_bytes 2 count ++ concat (map encode_column (take (Z.to_nat count) columns)).

Definition is_packed_row (data : bytes) : bool :=
  (6 <=? len data) && bool_decide (take 4 data = ROWPACK_MAGIC).

Section decode.
Context (data : bytes).

(** [u16::from_le_bytes([data[off], data[off + 1]])] and the same for 32 bits *)
Definition read_u16 {E} (off : Z) : outcome E Z :=
  let? b0 := index data off in
  let? b1 := index data (off + 1) in
  Ok (le_val [b0; b1]).
Definition read_u32 {E} (off : Z) : outcome E Z :=
  let? b0 := index data off in
  let? b1 := index data (off + 1) in
  let? b2 := index data (off + 2) in
  let? b3 := index data (off + 3) in
  Ok (le_val [b0; b1; b2; b3]).

Fixpoint decode_columns (count : nat) (off : Z) (out : Row) : outcome unit (option Row) :=
  match count with
  | O => Ok (Some out)
  | S count' =>
      if off + 2 >? len data then Ok None
      else
      let? name_len := read_u16 off in
      let off := off + 2 in
      if off + name_len + 4 >? len data then Ok None
      else
      let? raw := index_range data off name_len in
      let name := from_utf8_lossy raw in
      let off := off + name_len in
      let? val_len := read_u32 off in
      let off := off + 4 in
      if off + val_len >? len data then Ok None
      else
      let? val := index_range data off val_len in
      decode_columns count' (off + val_len) (out ++ [(name, val)])
  end.
End decode.

Definition decode_row (data : bytes) : outcome unit (option Row) :=
  if negb (is_packed_row data) then Ok None
  else
    let? count := read_u16 data 4 in
    decode_columns data (Z.to_nat count) 6 [].

(** ** The borrowing iterator *)

Record PackedRowIter : Type := mkPackedRowIter { pr_bytes : bytes; pr_off : Z; pr_remaining : nat }.

Definition iter_row (data : bytes) : outcome unit PackedRowIter :=
  let? count := if is_packed_row data then read_u16 data 4 else Ok 0 in
  Ok (mkPackedRowIter data 6 (Z.to_nat count)).

(** [PackedRowIter::next]: a malformed column ends the iteration; a name that is
    no UTF-8 does so after its length was read, without clearing [remaining]. *)
Definition PackedRowIter_next (it : PackedRowIter) : outcome unit (option (bytes * bytes) * PackedRowIter) :=
  let '(mkPackedRowIter data off remaining) := it in
  if (remaining =? 0)%nat || (off + 2 >? len data) then Ok (None, it)
  else
  let? name_len := read_u16 data off in
  let off := off + 2 in
  if off + name_len + 4 >? len data then Ok (None, mkPackedRowIter data off 0)
  else
  let? raw := index_range data off name_len in
  match from_utf8 raw with
  | None => Ok (None, mkPackedRowIter data off remaining)
  | Some name =>
      let off := off + name_len in
      let? val_len := read_u32 data off in
      let off := off + 4 in
      if off + val_len >? len data then Ok (None, mkPackedRowIter data off 0)
      else
      let? val := index_range data off val_len in
      Ok (Some (name, val), mkPackedRowIter data (off + val_len) (remaining - 1))
  end.

(** [collect()]: [next] until [None] *)
Fixpoint collect_row (fuel : nat) (it : PackedRowIter) : outcome unit Row :=
  match fuel with
  | O => Panic
  | S fuel' =>
      let? r := PackedRowIter_next it in
      match r.1 with
      | None => Ok []
      | Some x => let? xs := collect_row fuel' r.2 in Ok (x :: xs)
      end
  end.
Definition collect_iter (it : PackedRowIter) : outcome unit Row := collect_row (S (pr_remaining it)) it.

Definition packed_row_key (table row_id : bytes) : bytes := table ++ [x00] ++ row_id.

(** ** Reading what was written *)

(** What a column becomes when its lengths do not fit *)
Definition stored_name (name : bytes) : bytes := take (Z.to_nat (clamp 16 (len name))) name.
Definition stored_value (value : bytes) : bytes := take (Z.to_nat (clamp 32 (len value))) value.

Lemma clamp_range w n : 0 <= w -> 0 <= n -> 0 <= clamp w n < 2 ^ w /\ clamp w n <= n.
Proof. intros Hw Hn. unfold clamp, umax. pose proof (Z.pow_pos_nonneg 2 w). lia. Qed.

Lemma len_take_clamp {A} w (l : list A) : 0 <= w -> len (take (Z.to_nat (clamp w (len l))) l) = clamp w (len l).
Proof.
  intros Hw. pose proof (clamp_range w (len l) Hw (len_nonneg l)). unfold len in *. rewrite length_take. lia.
Qed.

Lemma encode_column_eq n v :
  encode_column (n, v) =
    le_bytes 2 (len (stored_name n)) ++ stored_name n ++ le_bytes 4 (len (stored_value v)) ++ stored_value v.
Proof. unfold encode_column, stored_name, stored_value. by rewrite !len_take_clamp by lia. Qed.

Lemma read_u16_at {E} p z s off :
  0 <= z < 2 ^ 16 -> off = len p -> read_u16 (E:=E) (p ++ le_bytes 2 z ++ s) off = Ok z.
Proof.
  intros Hz ->. pose proof (le_val_le_bytes 2 z ltac:(lia)) as Hv. cbn [le_bytes] in *.
  unfold read_u16. rewrite (index_app p (z2b (z / 256) :: s) (z2b z)) by done. cbn [obind].
  replace (p ++ [z2b z; z2b (z / 256)] ++ s) with ((p ++ [z2b z]) ++ z2b (z / 256) :: s) by (by rewrite <- app_assoc).
  rewrite index_app by len_lia. cbn [obind]. by rewrite Hv.
Qed.

Lemma read_u32_at {E} p z s off :
  0 <= z < 2 ^ 32 -> off = len p -> read_u32 (E:=E) (p ++ le_bytes 4 z ++ s) off = Ok z.
Proof.
  intros Hz ->. pose proof (le_val_le_bytes 4 z ltac:(lia)) as Hv.
  unfold read_u32. destruct (le_bytes 4 z) as [|b0 [|b1 [|b2 [|b3 [|]]]]] eqn:E4; try discriminate.
  assert (forall q b r i, [b0; b1; b2; b3] = q ++ b :: r -> i = len p + len q ->
    index (E:=E) (p ++ [b0; b1; b2; b3] ++ s) i = Ok b) as Hi.
  { intros q b r i -> ->. rewrite <- app_assoc. cbn [app]. rewrite app_assoc. apply index_app. by rewrite len_app. }
  rewrite (Hi [] b0 _ (len p) eq_refl) by len_lia. cbn [obind].
  rewrite (Hi [b0] b1 _ (len p + 1) eq_refl eq_refl). cbn [obind].
  rewrite (Hi [b0; b1] b2 _ (len p + 2) eq_refl eq_refl). cbn [obind].
  rewrite (Hi [b0; b1; b2] b3 _ (len p + 3) eq_refl eq_refl). cbn [obind]. by rewrite Hv.
Qed.

(** One column, in the middle of a record *)
Lemma column_fits p n v s :
  let c := encode_column (n, v) in
  len (stored_name n) < 2 ^ 16 /\ len (stored_value v) < 2 ^ 32 /\
  len c = 2 + len (stored_name n) + 4 + len (stored_value v) /\
  read_u16 (E:=unit) (p ++ c ++ s) (len p) = Ok (len (stored_name n)) /\
  index_range (E:=unit) (p ++ c ++ s) (len p + 2) (len (stored_name n)) = Ok (stored_name n) /\
  read_u32 (E:=unit) (p ++ c ++ s) (len p + 2 + len (stored_name n)) = Ok (len (stored_value v)) /\
  index_range (E:=unit) (p ++ c ++ s) (len p + 2 + len (stored_name n) + 4) (len (stored_value v)) = Ok (stored_value v).
Proof.
  cbn zeta. rewrite encode_column_eq.
  assert (len (stored_name n) < 2 ^ 16 /\ len (stored_value v) < 2 ^ 32) as [Hn Hv].
  { unfold stored_name, stored_value. rewrite !len_take_clamp by lia.
    pose proof (clamp_range 16 (len n)). pose proof (clamp_range 32 (len v)). pose proof (len_nonneg n).
    pose proof (len_nonneg v). lia. }
  pose proof (len_nonneg (stored_name n)). pose proof (len_nonneg (stored_value v)).
  generalize dependent (stored_name n). generalize dependent (stored_value v). intros v' Hv' _ n' Hn' _.
  pose proof (len_nonneg n'). pose proof (len_nonneg v'). rewrite <- !app_assoc.
  repeat split; try done.
  - len_lia.
  - by apply read_u16_at.
  - apply index_range_ok. rewrite (app_assoc p). apply slice_app3; len_lia.
  - rewrite (app_assoc p), (app_assoc (p ++ _)). apply read_u32_at; [done|len_lia].
  - apply index_range_ok. rewrite (app_assoc p), (app_assoc (p ++ _)), (app_assoc ((p ++ _) ++ _)).
    apply slice_app3; len_lia.
Qed.

Definition stored_column (c : bytes * bytes) : bytes * bytes := (from_utf8_lossy (stored_name c.1), stored_value c.2).

Lemma gtb_false a b : a <= b -> (a >? b) = false.
Proof. intros. rewrite Z.gtb_ltb. by apply Z.ltb_ge. Qed.

Lemma decode_columns_encode cols p out :
  decode_columns (p ++ concat (map encode_column cols)) (length cols) (len p) out =
    Ok (Some (out ++ map stored_column cols)).
Proof.
  revert p out. induction cols as [|[n v] cols IH]; intros p out; cbn [length map concat decode_columns]; [by rewrite app_nil_r|].
  destruct (column_fits p n v (concat (map encode_column cols))) as (Hn & Hv & Hlen & H1 & H2 & H3 & H4).
  pose proof (len_nonneg (stored_name n)). pose proof (len_nonneg (stored_value v)).
  pose proof (len_nonneg (concat (map encode_column cols))).
  rewrite H1. cbn [obind]. rewrite !gtb_false by len_lia. rewrite H2. cbn [obind]. rewrite H3. cbn [obind].
  rewrite gtb_false by len_lia. rewrite H4. cbn [obind].
  replace (len p + 2 + len (stored_name n) + 4 + len (stored_value v)) with (len (p ++ encode_column (n, v))) by len_lia.
  rewrite app_assoc, IH, <- app_assoc. done.
Qed.

Lemma encode_row_packed cols : is_packed_row (encode_row cols) = true.
Proof.
  unfold is_packed_row, encode_row. apply andb_true_iff. split.
  - apply Z.leb_le. pose proof (len_nonneg (concat (map encode_column (take (Z.to_nat (clamp 16 (len cols))) cols)))).
    assert (len ROWPACK_MAGIC = 4) by done. len_lia.
  - apply bool_decide_eq_true_2. done.
Qed.

Lemma encode_row_count {E} cols : read_u16 (E:=E) (encode_row cols) 4 = Ok (clamp 16 (len cols)).
Proof.
  unfold encode_row. apply read_u16_at; [|done]. pose proof (clamp_range 16 (len cols)). pose proof (len_nonneg cols). lia.
Qed.

(** What [decode_row] gives for any row that was written: the first 65535 columns,
    names cut to 65535 bytes and values to 2^32 - 1. *)
Lemma decode_encode_row cols :
  decode_row (encode_row cols) = Ok (Some (map stored_column (take (Z.to_nat (clamp 16 (len cols))) cols))).
Proof.
  unfold decode_row. rewrite encode_row_packed, encode_row_count. cbn [negb obind].
  unfold encode_row. set (cs := take _ cols).
  assert (length cs = Z.to_nat (clamp 16 (len cols))) as Hl.
  { pose proof (len_take_clamp 16 cols ltac:(lia)) as Hl. fold cs in Hl. unfold len in *. lia. }
  rewrite <- Hl, app_assoc.
  replace 6 with (len (ROWPACK_MAGIC ++ le_bytes 2 (clamp 16 (len cols)))) by (by rewrite len_app, len_le_bytes).
  apply decode_columns_encode.
Qed.

(** ** The iterator *)

Lemma collect_encode cols p fuel :
  Forall (fun c => from_utf8 (stored_name c.1) = Some (stored_name c.1)) cols -> (length cols < fuel)%nat ->
  collect_row fuel (mkPackedRowIter (p ++ concat (map encode_column cols)) (len p) (length cols)) =
    Ok (map (fun c => (stored_name c.1, stored_value c.2)) cols).
Proof.
  intros Hu. revert p fuel. induction Hu as [|[n v] cols Hn Hu IH]; intros p fuel Hf;
    (destruct fuel as [|fuel]; [simpl in Hf; lia|]); [done|]. cbn [fst] in Hn.
  cbn [collect_row length map concat PackedRowIter_next Nat.eqb orb].
  destruct (column_fits p n v (concat (map encode_column cols))) as (Hln & Hlv & Hlen & H1 & H2 & H3 & H4).
  pose proof (len_nonneg (stored_name n)). pose proof (len_nonneg (stored_value v)).
  pose proof (len_nonneg (concat (map encode_column cols))).
  rewrite H1. cbn [obind]. rewrite !gtb_false by len_lia. rewrite H2. cbn [obind]. rewrite Hn, H3. cbn [obind].
  rewrite gtb_false by len_lia. rewrite H4. cbn [obind fst snd].
  replace (len p + 2 + len (stored_name n) + 4 + len (stored_value v)) with (len (p ++ encode_column (n, v))) by len_lia.
  rewrite app_assoc, Nat.sub_succ, Nat.sub_0_r, IH; [done|simpl in Hf; lia].
Qed.

(** A row that the format can hold *)
Definition row_fits (cols : Row) : Prop :=
  len cols <= umax 16 /\
  Forall (fun c => len c.1 <= umax 16 /\ len c.2 <= umax 32 /\ exists cs, Forall is_char cs /\ c.1 = utf8 cs) cols.

Lemma clamp_all {A} w (l : list A) : len l <= umax w -> take (Z.to_nat (clamp w (len l))) l = l.
Proof. intros Hl. unfold clamp. rewrite Z.min_l by done. unfold len. rewrite Nat2Z.id. by rewrite firstn_all. Qed.

Lemma stored_id cols :
  row_fits cols ->
  Forall (fun c => stored_name c.1 = c.1 /\ stored_value c.2 = c.2 /\ from_utf8 c.1 = Some c.1 /\ from_utf8_lossy c.1 = c.1) cols.
Proof.
  intros [_ Hc]. eapply Forall_impl; [exact Hc|]. intros [n v] (Hn & Hv & cs & Hcs & E). cbn [fst snd] in *.
  unfold stored_name, stored_value. rewrite !clamp_all by done. rewrite E, from_utf8_ok, from_utf8_lossy_id by done. done.
Qed.

(** Packed rows: a row that fits the format (at most 65535 columns, UTF-8 names of
    at most 65535 bytes, values below 4 GiB) is recognized, decodes to itself with
    its columns in order, and the borrowing iterator yields the same columns. *)
Theorem row_pack_round_trip (cols : Row) :
  row_fits cols ->
  is_packed_row (encode_row cols) = true /\ decode_row (encode_row cols) = Ok (Some cols) /\
  (let? it := iter_row (encode_row cols) in collect_iter it) = Ok cols.
Proof.
  intros Hf. pose proof (stored_id _ Hf) as Hs. destruct Hf as [Hlen _].
  split; [apply encode_row_packed|]. split.
  - rewrite decode_encode_row, clamp_all by done. do 2 f_equal. induction Hs as [|[n v] cols (H1 & H2 & _ & H4) _ IH]; [done|].
    simpl in *. unfold stored_column at 1. cbn [fst snd]. rewrite H1, H2, H4. f_equal. apply IH.
    rewrite len_cons in Hlen. lia.
  - unfold iter_row. rewrite encode_row_packed, encode_row_count. cbn [obind]. unfold collect_iter. cbn [pr_remaining].
    assert (Z.to_nat (clamp 16 (len cols)) = length cols) as ->.
    { unfold clamp, len. rewrite Z.min_l by done. by rewrite Nat2Z.id. }
    unfold encode_row. rewrite clamp_all, app_assoc by done.
    replace 6 with (len (ROWPACK_MAGIC ++ le_bytes 2 (clamp 16 (len cols)))) by (by rewrite len_app, len_le_bytes).
    rewrite collect_encode; [|eapply Forall_impl; [exact Hs|]; intros [n v] (-> & _ & H3 & _); exact H3|lia].
    f_equal. induction Hs as [|[n v] cols (H1 & H2 & _) _ IH]; [done|]. simpl in *. rewrite H1, H2. f_equal. apply IH.
    rewrite len_cons in Hlen. lia.
Qed.

Lemma row_pack_round_trip_witness :
  let cols := [(bs "id", bs "42"); (bs "name", []); (bs "id", bs "7")] in
  row_fits cols /\ decode_row (encode_row cols) = Ok (Some cols).
Proof.
  cbn zeta. assert (row_fits [(bs "id", bs "42"); (bs "name", []); (bs "id", bs "7")]) as Hf.
  { split; [done|]. repeat constructor; try done; eexists; apply and_comm, bs_utf8; by apply (bool_decide_eq_true_1 _). }
  split; [exact Hf|]. apply (row_pack_round_trip _ Hf).
Defined.

(** ** Malformed records *)

Lemma read_u16_total data off : 0 <= off -> off + 2 <= len data -> exists z, read_u16 (E:=unit) data off = Ok z /\ 0 <= z < 2 ^ 16.
Proof.
  intros H0 H1. unfold read_u16. destruct (index_in_bounds (E:=unit) data off) as [b0 ->]; [lia|].
  destruct (index_in_bounds (E:=unit) data (off + 1)) as [b1 ->]; [lia|]. cbn [obind]. eexists. split; [done|].
  apply (le_val_range [b0; b1]).
Qed.
Lemma read_u32_total data off : 0 <= off -> off + 4 <= len data -> exists z, read_u32 (E:=unit) data off = Ok z /\ 0 <= z < 2 ^ 32.
Proof.
  intros H0 H1. unfold read_u32. destruct (index_in_bounds (E:=unit) data off) as [b0 ->]; [lia|].
  destruct (index_in_bounds (E:=unit) data (off + 1)) as [b1 ->]; [lia|].
  destruct (index_in_bounds (E:=unit) data (off + 2)) as [b2 ->]; [lia|].
  destruct (index_in_bounds (E:=unit) data (off + 3)) as [b3 ->]; [lia|]. cbn [obind]. eexists. split; [done|].
  apply (le_val_range [b0; b1; b2; b3]).
Qed.
Lemma index_range_total data off n :
  0 <= off -> 0 <= n -> off + n <= len data -> exists s, index_range (E:=unit) data off n = Ok s.
Proof. intros H0 H1 H2. destruct (slice_in_bounds data off n H0 H1 H2) as [s Hs]. exists s. by apply index_range_ok. Qed.

Lemma gtb_cases a b : (a >? b) = true /\ b < a \/ (a >? b) = false /\ a <= b.
Proof. destruct (a >? b) eqn:E; bool_to_prop; auto. Qed.

Lemma decode_columns_total data count off out : 0 <= off -> exists r, decode_columns data count off out = Ok r.
Proof.
  revert off out. induction count as [|count IH]; intros off out Hoff; cbn [decode_columns]; [eauto|].
  destruct (gtb_cases (off + 2) (len data)) as [[-> _]|[-> H1]]; [eauto|].
  destruct (read_u16_total data off Hoff H1) as (n & -> & Hn). cbn [obind].
  destruct (gtb_cases (off + 2 + n + 4) (len data)) as [[-> _]|[-> H2]]; [eauto|].
  destruct (index_range_total data (off + 2) n) as [s ->]; [lia..|]. cbn [obind].
  destruct (read_u32_total data (off + 2 + n)) as (v & -> & Hv); [lia..|]. cbn [obind].
  destruct (gtb_cases (off + 2 + n + 4 + v) (len data)) as [[-> _]|[-> H3]]; [eauto|].
  destruct (index_range_total data (off + 2 + n + 4) v) as [s' ->]; [lia..|]. cbn [obind]. apply IH. lia.
Qed.

(** Stored bytes never make the decoder panic. *)
Lemma decode_row_total data : exists r, decode_row data = Ok r.
Proof.
  unfold decode_row. destruct (is_packed_row data) eqn:E; [|eauto]. cbn [negb]. unfold is_packed_row in E.
  apply andb_true_iff in E as [E _]. apply Z.leb_le in E.
  destruct (read_u16_total data 4) as (z & -> & _); [lia..|]. cbn [obind]. by apply decode_columns_total.
Qed.

(** Reads inside a prefix *)
Lemma index_prefix (l r : bytes) i : 0 <= i < len l -> index (E:=unit) l i = index (l ++ r) i.
Proof. intros Hi. unfold index, len in *. by rewrite lookup_app_l by lia. Qed.
Lemma read_u16_prefix l r off : 0 <= off -> off + 2 <= len l -> read_u16 (E:=unit) l off = read_u16 (l ++ r) off.
Proof. intros H0 H1. unfold read_u16. by rewrite !(index_prefix l r) by lia. Qed.
Lemma read_u32_prefix l r off : 0 <= off -> off + 4 <= len l -> read_u32 (E:=unit) l off = read_u32 (l ++ r) off.
Proof. intros H0 H1. unfold read_u32. by rewrite !(index_prefix l r) by lia. Qed.

(** A list that is as long as a prefix of a concatenation starts with it. *)
Lemma prefix_split (c l q r : bytes) :
  q ++ r = c ++ l -> len c <= len q -> exists q', q = c ++ q' /\ q' ++ r = l.
Proof.
  intros E Hl. apply app_eq_inv in E as [(k & E1 & E2)|(k & E1 & E2)]; [by exists k|].
  assert (k = []) as ->; [|exists []; rewrite app_nil_r in E1 |- *; by subst].
  apply (f_equal len) in E1. rewrite len_app in E1. by destruct k; [|rewrite len_cons in *; pose proof (len_nonneg k); lia].
Qed.

Lemma decode_columns_truncated cols p q r out :
  q ++ r = concat (map encode_column cols) -> r <> [] ->
  decode_columns (p ++ q) (length cols) (len p) out = Ok None.
Proof.
  revert p q out. induction cols as [|[n v] cols IH]; intros p q out E Hr; cbn [map concat length] in *.
  { by destruct q, r. }
  destruct (column_fits p n v (concat (map encode_column cols))) as (Hn & Hv & Hlen & H1 & _ & H3 & _).
  pose proof (len_nonneg (stored_name n)). pose proof (len_nonneg (stored_value v)). pose proof (len_nonneg p).
  rewrite <- E, app_assoc in H1, H3.
  destruct (decide (len (encode_column (n, v)) <= len q)) as [Hq|Hq].
  - assert (exists q', q = encode_column (n, v) ++ q' /\ q' ++ r = concat (map encode_column cols)) as (q' & -> & E').
    { by apply prefix_split. }
    rewrite app_assoc. destruct (column_fits p n v q') as (_ & _ & _ & G1 & G2 & G3 & G4).
    rewrite app_assoc in G1, G2, G3, G4. pose proof (len_nonneg q'). cbn [decode_columns].
    rewrite G1. cbn [obind]. rewrite !gtb_false by len_lia. rewrite G2. cbn [obind]. rewrite G3. cbn [obind].
    rewrite gtb_false by len_lia. rewrite G4. cbn [obind].
    replace (len p + 2 + len (stored_name n) + 4 + len (stored_value v)) with (len (p ++ encode_column (n, v))) by len_lia.
    by apply IH.
  - cbn [decode_columns]. destruct (gtb_cases (len p + 2) (len (p ++ q))) as [[-> _]|[-> F2]]; [done|].
    rewrite (read_u16_prefix _ r), H1 by len_lia. cbn [obind].
    destruct (gtb_cases (len p + 2 + len (stored_name n) + 4) (len (p ++ q))) as [[-> _]|[-> F4]]; [done|].
    destruct (index_range_total (p ++ q) (len p + 2) (len (stored_name n))) as [s ->]; [lia..|]. cbn [obind].
    rewrite (read_u32_prefix _ r), H3 by len_lia. cbn [obind].
    destruct (gtb_cases (len p + 2 + len (stored_name n) + 4 + len (stored_value v)) (len (p ++ q))) as [[-> _]|[_ F5]]; [done|].
    len_lia.
Qed.

(** A record that lost its end is rejected, whatever row it held: the caller then
    treats the bytes as a plain cell. *)
Theorem truncated_row_rejected (cols : Row) (data r : bytes) :
  encode_row cols = data ++ r -> r <> [] -> decode_row data = Ok None.
Proof.
  intros E Hr. unfold decode_row. destruct (is_packed_row data) eqn:Ep; [|done]. cbn [negb].
  apply andb_true_iff in Ep as [Hl%Z.leb_le _].
  rewrite (read_u16_prefix _ r), <- E, encode_row_count by lia. cbn [obind].
  assert (len (take (Z.to_nat (clamp 16 (len cols))) cols) = clamp 16 (len cols)) as Hc by (by apply len_take_clamp).
  unfold encode_row in E. set (cs := take _ cols) in *. set (h := ROWPACK_MAGIC ++ le_bytes 2 (clamp 16 (len cols))).
  rewrite app_assoc in E. fold h in E. assert (len h = 6) as Hh by (unfold h; by rewrite len_app, len_le_bytes).
  assert (exists q, data = h ++ q /\ q ++ r = concat (map encode_column cs)) as (q & -> & Eq).
  { apply prefix_split; [done|lia]. }
  replace (Z.to_nat (clamp 16 (len cols))) with (length cs) by (rewrite <- Hc; unfold len; lia).
  rewrite <- Hh. by eapply decode_columns_truncated.
Qed.

Lemma truncated_row_rejected_witness :
  let row := encode_row [(bs "col", bs "value")] in
  row = take 16 row ++ drop 16 row /\ decode_row (take 16 row) = Ok None.
Proof.
  cbn zeta. split; [reflexivity|].
  apply (truncated_row_rejected [(bs "col", bs "value")] _ (drop 16 (encode_row [(bs "col", bs "value")])));
    [reflexivity|vm_compute; discriminate].
Defined.

(** Rows with more than 65535 columns lose the rest, without an error. *)
Lemma row_pack_drops_columns cols :
  umax 16 < len cols -> exists row, decode_row (encode_row cols) = Ok (Some row) /\ len row = umax 16.
Proof.
  intros Hl. rewrite decode_encode_row. eexists. split; [done|]. unfold len at 1. rewrite length_map.
  pose proof (len_take_clamp 16 cols ltac:(lia)) as Ht. unfold len at 1 in Ht. rewrite Ht. unfold clamp. lia.
Qed.
