(* ===== verification/Manifest.v ===== *)
(** * The manifest file (crates/noedb-storage/src/manifest.rs)

    The text that [ManifestSnapshot::commit] writes and [load] reads: the number
    of the snapshot and the paths of the two levels.  A path is its bytes. *)

From S2P Require Import Prelude StorageError Text Utf8 Float64 Display.

(** ** Lines, fields and numbers ([str] methods) *)

Definition newline : byte := x0a.
Definition carriage_return : byte := x0d.
Definition comma : byte := x2c.

Definition strip_cr (l : bytes) : bytes :=
  match rev l with b :: r => if bool_decide (b = carriage_return) then rev r else l | [] => l end.

(** [lines()]: a final newline ends the last line, and every line that a newline
    ends loses a trailing carriage return. *)
Fixpoint line_pieces (ps : list bytes) : list bytes :=
  match ps with
  | [] => []
  | [p] => match p with [] => [] | _ => [p] end
  | p :: ps' => strip_cr p :: line_pieces ps'
  end.
Definition lines (s : bytes) : list bytes := line_pieces (split_at newline s).

Fixpoint strip_prefix (p s : bytes) : option bytes :=
  match p, s with
  | [], _ => Some s
  | a :: p', b :: s' => if bool_decide (a = b) then strip_prefix p' s' else None
  | _, [] => None
  end.

(** [str::parse::<u64>]: an optional [+] and at least one digit, without overflow *)
Definition parse_u64 (s : bytes) : option Z :=
  let ds := match s with b :: r => if bool_decide (b = x2b) then r else s | [] => [] end in
  match ds with
  | [] => None
  | _ => if forallb is_ascii_digit ds && (digits_val ds <=? u64_max) then Some (digits_val ds) else None
  end.

(** ** The manifest *)

Record Snapshot : Type := mkSnapshot { sn_level0 : list bytes; sn_level1 : list bytes; sn_sequence : Z }.

Definition manifest_encode (snap : Snapshot) : bytes :=
  bs "seq=" ++ show_nat (sn_sequence snap) ++ [newline] ++
  bs "level0=" ++ sep_by [comma] (map from_utf8_lossy (sn_level0 snap)) ++ [newline] ++
  bs "level1=" ++ sep_by [comma] (map from_utf8_lossy (sn_level1 snap)) ++ [newline].

Definition split_paths (raw : bytes) : list bytes := filter (fun p => p <> []) (split_at comma raw).

Fixpoint parse_lines (ls : list bytes) (snap : Snapshot) : outcome StorageError Snapshot :=
  match ls with
  | [] => Ok snap
  | l :: ls' =>
      match strip_prefix (bs "seq=") l with
      | Some rest =>
          let? seq := ok_or (parse_u64 (trim rest)) (CorruptSstable "bad manifest seq") in
          parse_lines ls' (mkSnapshot (sn_level0 snap) (sn_level1 snap) seq)
      | None =>
          match strip_prefix (bs "level0=") l with
          | Some rest => parse_lines ls' (mkSnapshot (split_paths rest) (sn_level1 snap) (sn_sequence snap))
          | None =>
              match strip_prefix (bs "level1=") l with
              | Some rest => parse_lines ls' (mkSnapshot (sn_level0 snap) (split_paths rest) (sn_sequence snap))
              | None => parse_lines ls' snap
              end
          end
      end
  end.

Definition manifest_parse (raw : bytes) : outcome StorageError (option Snapshot) :=
  let? snap := parse_lines (lines raw) (mkSnapshot [] [] 0) in Ok (Some snap).

(** [load]: [None] without a file; [read_to_string] refuses bytes that are no UTF-8. *)
Definition manifest_load (file : option bytes) : outcome StorageError (option Snapshot) :=
  match file with
  | None => Ok None
  | Some data =>
      let? raw := ok_or (from_utf8 data) (Io "stream did not contain valid UTF-8") in
      manifest_parse raw
  end.

(** ** Splitting what was joined *)

(** A path that the format can hold *)
Definition path_fits (p : bytes) : Prop :=
  p <> [] /\ comma ∉ p /\ newline ∉ p /\ carriage_return ∉ p /\ exists cs, Forall is_char cs /\ p = utf8 cs.

Lemma split_none sep s : sep ∉ s -> split_at sep s = [s].
Proof.
  induction s as [|b s IH]; [done|]. rewrite not_elem_of_cons. intros [Hb Hs]. cbn [split_at].
  rewrite bool_decide_eq_false_2 by congruence. by rewrite IH.
Qed.
Lemma split_app sep s t : sep ∉ s -> split_at sep (s ++ sep :: t) = s :: split_at sep t.
Proof.
  induction s as [|b s IH]; intros Hs; cbn [app split_at].
  - by rewrite bool_decide_eq_true_2.
  - rewrite not_elem_of_cons in Hs. destruct Hs as [Hb Hs]. rewrite bool_decide_eq_false_2 by congruence. by rewrite IH.
Qed.

Lemma split_join sep l :
  l <> [] -> Forall (fun p => sep ∉ p) l -> split_at sep (sep_by [sep] l) = l.
Proof.
  intros Hne Hl. induction Hl as [|p l Hp Hl IH]; [done|]. destruct l as [|q l]; [by apply split_none|].
  change (sep_by [sep] (p :: q :: l)) with (p ++ sep :: sep_by [sep] (q :: l)).
  rewrite split_app by done. by rewrite IH.
Qed.

Lemma split_paths_join l : Forall (fun p => p <> [] /\ comma ∉ p) l -> split_paths (sep_by [comma] l) = l.
Proof.
  intros Hl. unfold split_paths. destruct l as [|p l]; [done|]. rewrite split_join; [|done|].
  - induction Hl as [|q r [Hq _] Hr IH]; [done|]. rewrite filter_cons_True by done. by rewrite IH.
  - eapply Forall_impl; [exact Hl|]. by intros ? [_ ?].
Qed.

Lemma not_in_join sep b l : b <> sep -> Forall (fun p => b ∉ p) l -> b ∉ sep_by [sep] l.
Proof.
  intros Hb Hl. induction Hl as [|p l Hp Hl IH]; [apply not_elem_of_nil|]. destruct l as [|q l]; [done|].
  change (sep_by [sep] (p :: q :: l)) with (p ++ [sep] ++ sep_by [sep] (q :: l)).
  rewrite !elem_of_app, list_elem_of_singleton. by intros [?|[?|?]].
Qed.

Lemma strip_cr_none l : carriage_return ∉ l -> strip_cr l = l.
Proof.
  intros Hl. unfold strip_cr. destruct (rev l) as [|b r] eqn:E; [done|].
  rewrite bool_decide_eq_false_2; [done|]. intros ->. apply Hl. rewrite <- (rev_involutive l), E. simpl.
  rewrite elem_of_app, list_elem_of_singleton. by right.
Qed.

Lemma lines_cons l s : newline ∉ l -> carriage_return ∉ l -> lines (l ++ newline :: s) = l :: lines s.
Proof.
  intros Hn Hc. unfold lines. rewrite split_app by done. destruct (split_at newline s) as [|p ps] eqn:E.
  - destruct s as [|b s]; [done|]. cbn [split_at] in E. case_bool_decide; [done|]. by destruct (split_at newline s).
  - cbn [line_pieces]. by rewrite strip_cr_none.
Qed.

Lemma strip_prefix_app p s : strip_prefix p (p ++ s) = Some s.
Proof. induction p as [|b p IH]; [done|]. cbn [app strip_prefix]. by rewrite bool_decide_eq_true_2. Qed.

(** ** Numbers *)

Lemma chars_ascii s fuel :
  Forall (fun b => b2z b < 0x80) s -> (length s <= fuel)%nat -> chars fuel s = map b2z s.
Proof.
  intros Hs. revert fuel. induction Hs as [|b s Hb Hs IH]; intros fuel Hf; [by destruct fuel|].
  destruct fuel as [|fuel]; [simpl in Hf; lia|]. pose proof (b2z_range b). cbn [chars next_char].
  rewrite (proj2 (Z.ltb_lt _ _)) by done. unfold len_utf8. rewrite (proj2 (Z.ltb_lt _ _)) by done. cbn [drop map].
  rewrite drop_0, IH; [done|]. simpl in Hf. lia.
Qed.

Lemma digit_no_space b : is_ascii_digit b = true -> b2z b < 0x80 /\ is_space (b2z b) = false.
Proof.
  revert b. apply (forall_byte (fun b => is_ascii_digit b = true -> b2z b < 0x80 /\ is_space (b2z b) = false)).
  vm_compute. reflexivity.
Qed.

Lemma skip_spaces_none cs : Forall (fun c => is_space c = false) cs -> skip_spaces cs = cs.
Proof. destruct 1 as [|c cs Hc _]; [done|]. simpl. by rewrite Hc. Qed.

Lemma trim_digits ds : Forall (fun b => is_ascii_digit b = true) ds -> trim ds = ds.
Proof.
  intros Hds. assert (Forall (fun b => b2z b < 0x80) ds) as Ha.
  { eapply Forall_impl; [exact Hds|]. intros b Hb. by apply digit_no_space. }
  assert (Forall (fun c => is_space c = false) (map b2z ds)) as Hs.
  { apply Forall_fmap. eapply Forall_impl; [exact Hds|]. intros b Hb. by apply digit_no_space. }
  unfold trim. rewrite chars_ascii by done. rewrite (skip_spaces_none (map b2z ds)) by done.
  rewrite skip_spaces_none by (by apply Forall_rev). rewrite rev_involutive. by destruct (bs_utf8 ds Ha) as [<- _].
Qed.

Lemma parse_u64_show n : 0 <= n <= u64_max -> parse_u64 (trim (show_nat n)) = Some n.
Proof.
  intros Hn. destruct (show_nat_spec n) as (d & ds & -> & Hds & Hv & _); [lia|]. rewrite trim_digits by done.
  unfold parse_u64. rewrite bool_decide_eq_false_2.
  - rewrite (proj2 (forallb_forall _ _)).
    + rewrite Hv. by rewrite (proj2 (Z.leb_le _ _)) by lia.
    + intros b Hb. rewrite Forall_forall in Hds. by apply Hds, list_elem_of_In.
  - intros ->. by apply Forall_inv in Hds.
Qed.

(** ** The round trip *)

Definition snapshot_fits (snap : Snapshot) : Prop :=
  Forall path_fits (sn_level0 snap) /\ Forall path_fits (sn_level1 snap) /\ 0 <= sn_sequence snap <= u64_max.

(** The line of a level *)
Lemma level_line (key : string) l :
  newline ∉ bs key -> carriage_return ∉ bs key -> Forall path_fits l ->
  let t := bs key ++ sep_by [comma] (map from_utf8_lossy l) in
  newline ∉ t /\ carriage_return ∉ t /\ split_paths (sep_by [comma] (map from_utf8_lossy l)) = l.
Proof.
  intros Hn Hr Hl. assert (map from_utf8_lossy l = l) as ->.
  { induction Hl as [|p l (_ & _ & _ & _ & cs & Hcs & ->) Hl IH]; [done|]. simpl. by rewrite from_utf8_lossy_id, IH. }
  cbn zeta. rewrite !elem_of_app. repeat split.
  - intros [?|Hin]; [done|]. revert Hin. apply not_in_join; [done|]. eapply Forall_impl; [exact Hl|]. by intros p (_ & _ & ? & _).
  - intros [?|Hin]; [done|]. revert Hin. apply not_in_join; [done|]. eapply Forall_impl; [exact Hl|]. by intros p (_ & _ & _ & ? & _).
  - apply split_paths_join. eapply Forall_impl; [exact Hl|]. by intros p (? & ? & _).
Qed.

Lemma digits_no_control n b : 0 <= n -> is_ascii_digit b = false -> b ∉ show_nat n.
Proof.
  intros Hn Hb Hin. destruct (show_nat_spec n Hn) as (d & ds & E & Hds & _). rewrite E in Hin.
  rewrite Forall_forall in Hds. apply Hds in Hin. congruence.
Qed.

Lemma manifest_lines snap :
  snapshot_fits snap ->
  lines (manifest_encode snap) =
    [bs "seq=" ++ show_nat (sn_sequence snap);
     bs "level0=" ++ sep_by [comma] (map from_utf8_lossy (sn_level0 snap));
     bs "level1=" ++ sep_by [comma] (map from_utf8_lossy (sn_level1 snap))].
Proof.
  intros (H0 & H1 & Hs). unfold manifest_encode.
  destruct (level_line "level0=" (sn_level0 snap)) as (Hn0 & Hr0 & _); [by apply (bool_decide_eq_true_1 _)..|done|].
  destruct (level_line "level1=" (sn_level1 snap)) as (Hn1 & Hr1 & _); [by apply (bool_decide_eq_true_1 _)..|done|].
  assert (forall b, is_ascii_digit b = false -> b ∉ bs "seq=" -> b ∉ bs "seq=" ++ show_nat (sn_sequence snap)) as Hseq.
  { intros b Hd Hb. rewrite elem_of_app. intros [?|Hin]; [done|]. by apply (digits_no_control (sn_sequence snap) b) in Hin; [|lia|]. }
  rewrite (app_assoc (bs "seq=")). cbn [app]. rewrite lines_cons by (apply Hseq; [done|by apply (bool_decide_eq_true_1 _)]).
  rewrite (app_assoc (bs "level0=")). cbn [app]. rewrite lines_cons by done.
  rewrite (app_assoc (bs "level1=")). cbn [app]. rewrite lines_cons by done. done.
Qed.

(** A committed manifest is read back: when no path is empty or contains a comma,
    a newline or a carriage return, the text that [commit] writes parses to the
    same snapshot. *)
Theorem manifest_round_trip (snap : Snapshot) :
  snapshot_fits snap -> manifest_parse (manifest_encode snap) = Ok (Some snap).
Proof.
  intros Hf. unfold manifest_parse. rewrite (manifest_lines snap Hf). destruct Hf as (H0 & H1 & Hs).
  destruct (level_line "level0=" (sn_level0 snap)) as (_ & _ & E0); [by apply (bool_decide_eq_true_1 _)..|done|].
  destruct (level_line "level1=" (sn_level1 snap)) as (_ & _ & E1); [by apply (bool_decide_eq_true_1 _)..|done|].
  cbn [parse_lines]. rewrite strip_prefix_app, parse_u64_show by lia. cbn [ok_or obind].
  assert (forall s, strip_prefix (bs "seq=") (bs "level0=" ++ s) = None) as -> by done.
  rewrite strip_prefix_app, E0. assert (forall s, strip_prefix (bs "seq=") (bs "level1=" ++ s) = None) as -> by done.
  assert (forall s, strip_prefix (bs "level0=") (bs "level1=" ++ s) = None) as -> by done.
  rewrite strip_prefix_app, E1. cbn [obind sn_level0 sn_level1 sn_sequence]. by destruct snap.
Qed.

Lemma manifest_round_trip_witness :
  let snap := mkSnapshot [bs "/db/sst/L0-000000001.sst"; bs "/db/sst/L0-000000002.sst"] [] 42 in
  snapshot_fits snap /\ manifest_parse (manifest_encode snap) = Ok (Some snap).
Proof.
  cbn zeta. assert (snapshot_fits (mkSnapshot [bs "/db/sst/L0-000000001.sst"; bs "/db/sst/L0-000000002.sst"] [] 42)) as Hf.
  { repeat constructor; try (by apply (bool_decide_eq_true_1 _)); try done;
      eexists; apply and_comm, bs_utf8; by apply (bool_decide_eq_true_1 _). }
  split; [exact Hf|]. apply (manifest_round_trip _ Hf).
Defined.

(** A comma in the name of the data directory makes the manifest list two paths
    where one was written. *)
Lemma manifest_splits_comma_path :
  let snap := mkSnapshot [bs "/data,1/sst/L0-000000001.sst"] [] 1 in
  manifest_parse (manifest_encode snap) =
    Ok (Some (mkSnapshot [bs "/data"; bs "1/sst/L0-000000001.sst"] [] 1)).
Proof. vm_compute. reflexivity. Qed.
