(* ===== verification/DiskIo.v ===== *)
(** * Files of the storage engine (crates/noedb-storage/src: atomic_io.rs, compress.rs,
      mmap_io.rs, the file names of wal/segments.rs, commit and load of manifest.rs)

    The disk is a map from paths to contents; an operation on it may be cut short by a
    crash.  Directories are implicit and their creation is not an operation.  A file is
    synced before it is renamed, and what was done before a crash is on the disk after
    it.  [Wal] keeps the segments by number; here they are the files that carry the
    numbers in their names.  LZ4 is third-party code. *)

From stdpp Require Import list gmap.
From S2P Require Import Prelude BTree StorageError MemTable Wal Text Float64 Display Utf8 Manifest.

(** ** The disk *)

Abbreviation Disk := (gmap bytes bytes).
Inductive DiskOp : Type :=
| WriteFile (path content : bytes)
| AppendFile (path content : bytes)
| Rename (from to : bytes)
| RemoveFile (path : bytes).

Definition run_op (d : Disk) (op : DiskOp) : Disk :=
  match op with
  | WriteFile path content => <[path := content]> d
  | AppendFile path content => <[path := default [] (d !! path) ++ content]> d
  | Rename from to => match d !! from with Some c => <[to := c]> (delete from d) | None => d end
  | RemoveFile path => delete path d
  end.
Definition run_ops (ops : list DiskOp) (d : Disk) : Disk := fold_left run_op ops d.

(** What a crash leaves: some operations done, and a prefix of the next write. *)
Inductive crashed : Disk -> list DiskOp -> Disk -> Prop :=
| crash_here d ops : crashed d ops d
| crash_in_write d path content ops n : crashed d (WriteFile path content :: ops) (<[path := take n content]> d)
| crash_in_append d path content ops n :
    crashed d (AppendFile path content :: ops) (<[path := default [] (d !! path) ++ take n content]> d)
| crash_later d op ops d' : crashed (run_op d op) ops d' -> crashed d (op :: ops) d'.

(** ** Paths *)

Definition slash : byte := x2f.
Definition full_stop : byte := x2e.

(** [Path::join] with the name of a file *)
Definition join (dir name : bytes) : bytes := dir ++ slash :: name.

(** The text before and after the last [b] *)
Fixpoint rsplit (b : byte) (s : bytes) : option (bytes * bytes) :=
  match s with
  | [] => None
  | c :: s' =>
      match rsplit b s' with
      | Some (x, y) => Some (c :: x, y)
      | None => if bool_decide (c = b) then Some ([], s') else None
      end
  end.

(** [Path::parent] of a path that does not end in a slash *)
Definition parent (path : bytes) : option bytes :=
  match path with
  | [] => None
  | _ => if bool_decide (path = [slash]) then None
         else Some (match rsplit slash path with Some (dir, _) => dir | None => [] end)
  end.

(** [Path::file_stem] of a name: a leading dot does not start an extension. *)
Definition file_stem (name : bytes) : bytes :=
  match rsplit full_stop name with
  | Some (stem, _) => if bool_decide (stem = []) then name else stem
  | None => name
  end.

(** [Path::with_extension] of a path that ends in the name of a file *)
Definition with_extension (path ext : bytes) : bytes :=
  match rsplit slash path with
  | Some (dir, name) => join dir (file_stem name ++ full_stop :: ext)
  | None => file_stem path ++ full_stop :: ext
  end.

(** ** atomic_io.rs *)

Definition atomic_write (path content : bytes) : outcome StorageError (list DiskOp) :=
  let? _ := ok_or (parent path) (InvalidInput "atomic write path has no parent") in
  let tmp := with_extension path (bs "tmp") in
  Ok [WriteFile tmp content; Rename tmp path].

(** ** compress.rs and mmap_io.rs *)

Definition BLOCK_RAW : byte := x00.
Definition BLOCK_LZ4 : byte := x01.

Section lz4.
Context (compress_prepend_size : bytes -> bytes) (decompress_size_prepended : bytes -> string + bytes).

Definition maybe_compress_block (data : bytes) : bytes :=
  if len data <? 64 then BLOCK_RAW :: data
  else
    let compressed := compress_prepend_size data in
    if len compressed + 1 <? len data then BLOCK_LZ4 :: compressed else BLOCK_RAW :: data.

Definition decompress_block (stored : bytes) : outcome StorageError bytes :=
  match stored with
  | [] => Err (CorruptSstable "empty SST block")
  | b :: rest =>
      if bool_decide (b = BLOCK_RAW) then Ok rest
      else if bool_decide (b = BLOCK_LZ4) then
        match decompress_size_prepended rest with inr d => Ok d | inl e => Err (Io ("LZ4 decompress: " ++ e)%string) end
      else Err (CorruptSstable "unknown SST block codec")
  end.
End lz4.

(** [usize] has 64 bits; the slices panic out of bounds. *)
Definition read_block_from_slice (data : bytes) (offset : Z) : outcome StorageError bytes :=
  if Z.min (offset + 4) u64_max >? len data then Err (CorruptSstable "block length header past EOF")
  else
    let? b := index_range data offset 4 in
    let n := le_val b in
    let start := offset + 4 in
    if start + n >? u64_max then Err (CorruptSstable "block length overflow")
    else if start + n >? len data then Err (CorruptSstable "block past EOF")
    else index_range data start n.

Definition map_read_only (path : bytes) (d : Disk) : outcome StorageError bytes :=
  ok_or (d !! path) (Io "No such file or directory").

(** ** wal/segments.rs *)

Definition WAL_DIR : bytes := bs "wal".
Definition CURRENT_FILE : bytes := bs "CURRENT".
Definition SEGMENT_EXT : bytes := bs "wal".
Definition CURRENT_PATH : bytes := join WAL_DIR CURRENT_FILE.

(** [{id:020}] *)
Definition padded (id : Z) : bytes := replicate (20 - length (show_nat id)) x30 ++ show_nat id.
Definition segment_name (id : Z) : bytes := padded id ++ full_stop :: SEGMENT_EXT.
Definition segment_path (id : Z) : bytes := join WAL_DIR (segment_name id).

Definition strip_suffix (suffix s : bytes) : option bytes := @rev byte <$> strip_prefix (rev suffix) (rev s).

(** One entry of [list_segment_ids] *)
Definition segment_id (name : bytes) : option Z :=
  match from_utf8 name with
  | None => None
  | Some n => match strip_suffix (full_stop :: SEGMENT_EXT) n with Some stem => parse_u64 stem | None => None end
  end.

(** The names in the directory; [read_dir] lists them in some order. *)
Definition wal_names (d : Disk) : list bytes :=
  filter (fun n => slash ∉ n) (omap (strip_prefix (WAL_DIR ++ [slash])) (map_to_list d).*1).
Definition list_segment_ids (names : list bytes) : list Z := omap segment_id names.

Definition read_current (d : Disk) : outcome StorageError Z :=
  let? data := ok_or (d !! CURRENT_PATH) (Io "No such file or directory") in
  let? buf := ok_or (from_utf8 data) (Io "stream did not contain valid UTF-8") in
  ok_or (parse_u64 (trim buf)) (CorruptWal "invalid CURRENT file").

Definition write_current (id : Z) : outcome StorageError (list DiskOp) :=
  atomic_write CURRENT_PATH (show_nat id ++ [newline]).

(** [Wal::open] on the disk *)
Definition wal_open_ops (path : bytes) (d : Disk) : outcome StorageError (list DiskOp) :=
  let? f := Wal_open (d !! path) in
  Ok (if len (default [] (d !! path)) =? 0 then [WriteFile path f] else []).

(** The manager: the number of the active segment and the sync mode *)
Record SegmentFiles : Type := mkSegmentFiles { sf_active_id : Z; sf_sync_mode : WalSyncMode }.

Definition files_open (mode : WalSyncMode) (d : Disk) : outcome StorageError (list DiskOp * SegmentFiles) :=
  let active_id := match read_current d with Ok id => id | _ => 1 end in
  let? ops := wal_open_ops (segment_path active_id) d in
  Ok (ops, mkSegmentFiles active_id mode).

Definition files_append (e : LogEntry) (m : SegmentFiles) : outcome StorageError (list DiskOp) :=
  let? b := LogEntry_encode e in Ok [AppendFile (segment_path (sf_active_id m)) b].

Definition files_rotate (m : SegmentFiles) (d : Disk) : outcome StorageError (Z * (list DiskOp * SegmentFiles)) :=
  let id := wrap 64 (sf_active_id m + 1) in
  let? opened := wal_open_ops (segment_path id) d in
  let? current := write_current id in
  Ok (sf_active_id m, (opened ++ current, mkSegmentFiles id (sf_sync_mode m))).

Definition files_delete_segment (id : Z) (d : Disk) : list DiskOp :=
  if bool_decide (is_Some (d !! segment_path id)) then [RemoveFile (segment_path id)] else [].

Fixpoint replay_ids (d : Disk) (ids : list Z) (t : MemTable) (total : Z) : outcome StorageError (Z * MemTable) :=
  match ids with
  | [] => Ok (total, t)
  | id :: ids' =>
      let? '(n, t') := replay_into_memtable (d !! segment_path id) t in
      replay_ids d ids' t' (total + n)
  end.

Definition files_replay_all (d : Disk) (names : list bytes) (t : MemTable) : outcome StorageError (Z * MemTable) :=
  replay_ids d (merge_sort Z.le (list_segment_ids names)) t 0.

(** ** manifest.rs on the disk *)

Definition MANIFEST : bytes := bs "MANIFEST".
Definition ManifestSnapshot_load (data_dir : bytes) (d : Disk) : outcome StorageError (option Snapshot) :=
  manifest_load (d !! join data_dir MANIFEST).
Definition ManifestSnapshot_commit (data_dir : bytes) (snap : Snapshot) : outcome StorageError (list DiskOp) :=
  atomic_write (join data_dir MANIFEST) (manifest_encode snap).

(** ** Crashes *)

Lemma run_ops_app a b d : run_ops (a ++ b) d = run_ops b (run_ops a d).
Proof. apply fold_left_app. Qed.

Lemma crashed_app d a b d' : crashed d (a ++ b) d' -> crashed d a d' \/ crashed (run_ops a d) b d'.
Proof.
  revert d. induction a as [|op a IH]; intros d C; [by right|].
  rewrite <- app_comm_cons in C. inversion C as [| | |? ? ? ? C']; subst; [left; constructor..|].
  destruct (IH _ C') as [|]; [left; by constructor|by right].
Qed.

Lemma crashed_nil d d' : crashed d [] d' -> d' = d.
Proof. by inversion 1. Qed.

(** Writing a temporary file and renaming it: a crash leaves the old file or the new
    one, whole, and touches no file but the two. *)
Lemma run_replace tmp path c d q : tmp <> path ->
  run_ops [WriteFile tmp c; Rename tmp path] d !! q =
    if bool_decide (q = path) then Some c else if bool_decide (q = tmp) then None else d !! q.
Proof.
  intros N. unfold run_ops. cbn [fold_left run_op]. rewrite lookup_insert_eq. repeat case_bool_decide; subst.
  - by rewrite lookup_insert_eq.
  - by rewrite lookup_insert_ne, lookup_delete_eq.
  - by rewrite lookup_insert_ne, lookup_delete_ne, lookup_insert_ne.
Qed.

Lemma crashed_replace tmp path c d d' : crashed d [WriteFile tmp c; Rename tmp path] d' ->
  (forall q, q <> tmp -> d' !! q = d !! q) \/ d' = run_ops [WriteFile tmp c; Rename tmp path] d.
Proof.
  intros C. assert (N : forall q v, q <> tmp -> <[tmp := v]> d !! q = d !! q) by (intros; by apply lookup_insert_ne).
  inversion C as [| | |? ? ? ? C']; subst; [by left|left; intros; by apply N|].
  inversion C' as [| | |? ? ? ? C'']; subst; [left; intros; by apply N|].
  apply crashed_nil in C'' as ->. by right.
Qed.

(** A crash during [atomic_write] leaves the old content of the file or the new one,
    and every file but the temporary one as it was. *)
Lemma atomic_write_crash path content ops d d' :
  with_extension path (bs "tmp") <> path -> atomic_write path content = Ok ops -> crashed d ops d' ->
  (d' !! path = d !! path \/ d' !! path = Some content) /\
  forall q, q <> path -> q <> with_extension path (bs "tmp") -> d' !! q = d !! q.
Proof.
  intros N E C. unfold atomic_write in E. destruct (parent path); [|done]. cbn [ok_or obind] in E. injection E as <-.
  destruct (crashed_replace _ _ _ _ _ C) as [S| ->].
  - split; [left; by apply S|]. intros q _ Hq. by apply S.
  - split; [right; rewrite run_replace by done; by rewrite bool_decide_eq_true_2|].
    intros q H1 H2. rewrite run_replace by done. by rewrite !bool_decide_eq_false_2.
Qed.

Lemma rsplit_join b dir name : b ∉ name -> rsplit b (dir ++ b :: name) = Some (dir, name).
Proof.
  intros N. assert (rsplit b name = None) as E.
  { induction name as [|c name IH]; [done|]. apply not_elem_of_cons in N as [H1 H2]. cbn [rsplit]. rewrite IH by done.
    by rewrite bool_decide_eq_false_2 by congruence. }
  induction dir as [|c dir IH]; cbn [app rsplit]; [by rewrite E, bool_decide_eq_true_2|by rewrite IH].
Qed.

(** What [atomic_write] does to a file of a directory *)
Lemma atomic_write_ops dir name content : slash ∉ name -> name <> [] ->
  atomic_write (join dir name) content =
    Ok [WriteFile (join dir (file_stem name ++ full_stop :: bs "tmp")) content;
        Rename (join dir (file_stem name ++ full_stop :: bs "tmp")) (join dir name)].
Proof.
  intros N Hn. unfold atomic_write, with_extension, join. rewrite rsplit_join by done.
  assert (exists p, parent (dir ++ slash :: name) = Some p) as [p ->]; [|done].
  unfold parent. destruct (dir ++ slash :: name) as [|b r] eqn:E; [by destruct dir|].
  rewrite bool_decide_eq_false_2; [eauto|]. intros E'. rewrite E' in E. destruct dir as [|c [|]]; simplify_eq/=.
Qed.

(** Text: the UTF-8 of some characters *)
Definition is_text (s : bytes) : Prop := exists cs, Forall is_char cs /\ s = utf8 cs.

Lemma text_app a b : is_text a -> is_text b -> is_text (a ++ b).
Proof.
  intros (ca & Ha & ->) (cb & Hb & ->). exists (ca ++ cb). split; [by apply Forall_app|].
  unfold utf8. by rewrite map_app, concat_app.
Qed.
Lemma text_ascii s : Forall (fun b => b2z b < 0x80) s -> is_text s.
Proof. intros H. destruct (bs_utf8 s H). eexists. eauto. Qed.
Lemma text_digits s : Forall (fun b => is_ascii_digit b = true) s -> is_text s.
Proof. intros H. apply text_ascii. eapply Forall_impl; [exact H|]. intros b Hb. by apply digit_no_space. Qed.
Lemma text_number n : 0 <= n -> is_text (show_nat n).
Proof. intros Hn. destruct (show_nat_spec n Hn) as (d & ds & -> & H & _). by apply text_digits. Qed.
Lemma text_join sep l : is_text sep -> Forall is_text l -> is_text (sep_by sep l).
Proof.
  intros Hs. induction 1 as [|p l Hp Hl IH]; [by apply text_ascii|]. destruct l as [|q l]; [done|].
  change (sep_by sep (p :: q :: l)) with (p ++ sep ++ sep_by sep (q :: l)). by repeat apply text_app.
Qed.
Lemma text_valid s : is_text s -> from_utf8 s = Some s.
Proof. intros (cs & H & ->). by apply from_utf8_ok. Qed.

Ltac text_solve :=
  repeat apply text_app; try (by apply text_ascii, (bool_decide_eq_true_1 _)); try (apply text_number; lia).

Lemma manifest_text snap : snapshot_fits snap -> is_text (manifest_encode snap).
Proof.
  intros (H0 & H1 & Hs). assert (L : forall l, Forall path_fits l -> is_text (sep_by [comma] (map from_utf8_lossy l))).
  { intros l Hl. apply text_join; [text_solve|]. apply Forall_fmap. eapply Forall_impl; [exact Hl|].
    intros p (_ & _ & _ & _ & cs & Hcs & ->). cbn. rewrite from_utf8_lossy_id by done. by exists cs. }
  unfold manifest_encode. text_solve; by apply L.
Qed.

(** A crash while a manifest is committed leaves a directory whose manifest loads as it
    did before or as the new snapshot; without a crash it loads as the new one. *)
Theorem manifest_commit_atomic data_dir snap d :
  snapshot_fits snap ->
  exists ops, ManifestSnapshot_commit data_dir snap = Ok ops /\
    ManifestSnapshot_load data_dir (run_ops ops d) = Ok (Some snap) /\
    forall d', crashed d ops d' ->
      ManifestSnapshot_load data_dir d' = ManifestSnapshot_load data_dir d \/
      ManifestSnapshot_load data_dir d' = Ok (Some snap).
Proof.
  intros F. assert (L : forall e : Disk, e !! join data_dir MANIFEST = Some (manifest_encode snap) -> ManifestSnapshot_load data_dir e = Ok (Some snap)).
  { intros e E. unfold ManifestSnapshot_load, manifest_load. rewrite E, text_valid by by apply manifest_text.
    cbn [ok_or obind]. by apply manifest_round_trip. }
  assert (N : with_extension (join data_dir MANIFEST) (bs "tmp") <> join data_dir MANIFEST).
  { unfold with_extension, join. rewrite rsplit_join by by apply (bool_decide_eq_true_1 _). intros E. by apply app_inj_1 in E as [_ E]. }
  unfold ManifestSnapshot_commit. rewrite (atomic_write_ops data_dir MANIFEST) by by apply (bool_decide_eq_true_1 _).
  eexists. split; [done|]. split.
  - apply L. rewrite run_replace; [by rewrite bool_decide_eq_true_2|]. intros E. by apply app_inj_1 in E as [_ E].
  - intros d' C. destruct (atomic_write_crash (join data_dir MANIFEST) (manifest_encode snap) _ d d' N
      ltac:(by rewrite (atomic_write_ops data_dir MANIFEST) by by apply (bool_decide_eq_true_1 _)) C) as [[E|E] _].
    + left. unfold ManifestSnapshot_load. by rewrite E.
    + right. by apply L.
Qed.

(** ** Blocks *)

(** What [maybe_compress_block] stores is read back, and takes at most one byte more
    than the data, whatever LZ4 makes of it. *)
Theorem block_round_trip compress decompress (data : bytes) :
  (forall s, decompress (compress s) = inr s) ->
  decompress_block decompress (maybe_compress_block compress data) = Ok data /\
  len (maybe_compress_block compress data) <= len data + 1.
Proof.
  intros L. unfold maybe_compress_block. assert (forall b s, len (b :: s : bytes) = len s + 1) as E by (intros; unfold len; simpl; lia).
  repeat case_match; bool_to_prop; split; rewrite ?E; try lia; try done. cbn. by rewrite L.
Qed.

(** A block framed by its length is read from any position of the buffer; no offset
    makes [read_block_from_slice] panic. *)
Theorem read_block_total (data : bytes) (offset : Z) :
  0 <= offset <= u64_max -> len data < u64_max -> read_block_from_slice data offset <> Panic.
Proof.
  intros Ho Hd. unfold read_block_from_slice. destruct (Z.gtb_spec (Z.min (offset + 4) u64_max) (len data)); [done|].
  pose proof (len_nonneg data). unfold index_range, slice at 1. fold (len data).
  rewrite (proj2 (Z.leb_le 0 offset)), (proj2 (Z.leb_le _ (len data))) by lia. cbn [andb Z.leb Z.compare obind].
  set (n := le_val _). pose proof (le_val_range (take (Z.to_nat 4) (drop (Z.to_nat offset) data))) as Hn. fold n in Hn.
  destruct (Z.gtb_spec (offset + 4 + n) u64_max); [done|]. destruct (Z.gtb_spec (offset + 4 + n) (len data)); [done|].
  unfold slice. fold (len data). by rewrite !(proj2 (Z.leb_le _ _)) by lia.
Qed.

Theorem read_block_framed (before block after : bytes) :
  len block < 2 ^ 32 -> len (before ++ block ++ after) + 4 < u64_max ->
  read_block_from_slice (before ++ le_bytes 4 (len block) ++ block ++ after) (len before) = Ok block.
Proof.
  intros Hb Hl. rewrite !len_app in Hl. pose proof (len_nonneg before). pose proof (len_nonneg block). pose proof (len_nonneg after).
  unfold read_block_from_slice. assert (len (before ++ le_bytes 4 (len block) ++ block ++ after) = len before + 4 + len block + len after) as ->.
  { rewrite !len_app, len_le_bytes. lia. }
  destruct (Z.gtb_spec (Z.min (len before + 4) u64_max) (len before + 4 + len block + len after)); [lia|].
  unfold index_range. rewrite (slice_app3 before (le_bytes 4 (len block)) (block ++ after)) by (by rewrite ?len_le_bytes).
  cbn [obind]. rewrite le_val_le_bytes by lia.
  destruct (Z.gtb_spec (len before + 4 + len block) u64_max); [lia|].
  destruct (Z.gtb_spec (len before + 4 + len block) (len before + 4 + len block + len after)); [lia|].
  rewrite (app_assoc before), (slice_app3 (before ++ le_bytes 4 (len block)) block after); [done| |done].
  rewrite len_app, len_le_bytes. lia.
Qed.

(** ** Segment names *)

Lemma padded_spec id : 0 <= id ->
  exists b ds, padded id = b :: ds /\ Forall (fun c => is_ascii_digit c = true) (b :: ds) /\ digits_val (b :: ds) = id.
Proof.
  intros Hi. destruct (show_nat_spec id Hi) as (d & ds & E & H & V & _). unfold padded. rewrite E.
  generalize (20 - length (d :: ds))%nat as n. intros n.
  assert (Z0 : digits_val (replicate n x30) = 0) by (unfold digits_val; induction n as [|n IH]; [done|exact IH]).
  assert (digits_val (replicate n x30 ++ d :: ds) = id) as V' by (rewrite digits_val_app, Z0; exact V).
  assert (Forall (fun c => is_ascii_digit c = true) (replicate n x30 ++ d :: ds)) as F
    by (apply Forall_app; split; [by apply Forall_replicate|done]).
  destruct (replicate n x30 ++ d :: ds) as [|b r] eqn:El; [by destruct n|]. by exists b, r.
Qed.

Lemma strip_suffix_app p s : strip_suffix s (p ++ s) = Some p.
Proof. unfold strip_suffix. rewrite rev_app_distr, strip_prefix_app. cbn. by rewrite rev_involutive. Qed.

(** A segment is listed under its number. *)
Lemma segment_id_name id : 0 <= id <= u64_max -> segment_id (segment_name id) = Some id.
Proof.
  intros Hi. destruct (padded_spec id) as (b & ds & E & F & V); [lia|]. unfold segment_id, segment_name. rewrite E.
  rewrite text_valid by (apply text_app; [by apply text_digits|text_solve]). rewrite strip_suffix_app.
  unfold parse_u64. rewrite bool_decide_eq_false_2 by (intros ->; by apply Forall_inv in F).
  rewrite (proj2 (forallb_forall _ _)) by (intros c Hc; rewrite Forall_forall in F; by apply F, list_elem_of_In).
  rewrite V. by rewrite (proj2 (Z.leb_le _ _)) by lia.
Qed.

Lemma segment_path_inj i j : 0 <= i <= u64_max -> 0 <= j <= u64_max -> segment_path i = segment_path j -> i = j.
Proof.
  intros Hi Hj E. unfold segment_path, join in E. simplify_eq. apply (f_equal segment_id) in E.
  rewrite !segment_id_name in E by done. congruence.
Qed.

Definition CURRENT_TMP : bytes := join WAL_DIR (bs "CURRENT.tmp").

Lemma segment_path_not_current id : 0 <= id -> segment_path id <> CURRENT_PATH /\ segment_path id <> CURRENT_TMP.
Proof.
  intros Hi. destruct (padded_spec id Hi) as (b & ds & E & F & _). unfold segment_path, segment_name, join. rewrite E.
  apply Forall_inv in F. split; intros E'; apply (f_equal (drop 4)) in E'; cbn in E'; assert (b = x43) as -> by congruence; done.
Qed.

Lemma segment_name_no_slash id : 0 <= id -> slash ∉ segment_name id.
Proof.
  intros Hi. destruct (padded_spec id Hi) as (b & ds & E & F & _). unfold segment_name. rewrite E, elem_of_app.
  intros [Hin|Hin]; [|by revert Hin; apply (bool_decide_eq_true_1 _)]. rewrite Forall_forall in F. by apply F in Hin.
Qed.

Lemma parse_u64_range s n : parse_u64 s = Some n -> 0 <= n <= u64_max.
Proof.
  unfold parse_u64. set (ds := match s with b :: r => _ | [] => _ end). clearbody ds. destruct ds as [|b ds]; [done|].
  destruct (forallb is_ascii_digit (b :: ds)) eqn:F; [|done]. destruct (Z.leb_spec (digits_val (b :: ds)) u64_max); [|done].
  cbn [andb]. intros [= <-]. split; [|done]. unfold digits_val. rewrite forallb_forall in F.
  assert (G : forall l acc, 0 <= acc -> (forall c, In c l -> is_ascii_digit c = true) -> 0 <= fold_left (fun n c => n * 10 + digit_val c) l acc).
  { induction l as [|c l IH]; intros acc Ha Hl; [done|]. cbn. apply IH; [|intros; apply Hl; by right].
    specialize (Hl c (or_introl eq_refl)). unfold is_ascii_digit, in_byte in Hl. bool_to_prop. unfold digit_val. lia. }
  by apply G.
Qed.

(** ** The directory of segments as files *)

(** Calls of the manager, on the numbered segments of [Wal] and on files.  Opening again
    after a stop is one of them. *)
Inductive WalCall : Type := CallOpen (mode : WalSyncMode) | CallAppend (e : LogEntry) | CallRotate | CallDelete (id : Z).

Definition call_model (c : WalCall) (w : WalSegmentManager) : outcome StorageError WalSegmentManager :=
  match c with
  | CallOpen mode => open_with_sync (ws_dir w) mode
  | CallAppend e => WalSegmentManager_append w e
  | CallRotate => let? '(_, w') := rotate w in Ok w'
  | CallDelete id => Ok (mkWalSegmentManager (delete_segment (ws_dir w) id) (ws_active_id w) (ws_sync_mode w))
  end.

Definition call_files (c : WalCall) (s : SegmentFiles * Disk) : outcome StorageError (SegmentFiles * Disk) :=
  let '(m, d) := s in
  match c with
  | CallOpen mode => let? '(ops, m') := files_open mode d in Ok (m', run_ops ops d)
  | CallAppend e => let? ops := files_append e m in Ok (m, run_ops ops d)
  | CallRotate => let? '(_, (ops, m')) := files_rotate m d in Ok (m', run_ops ops d)
  | CallDelete id => Ok (m, run_ops (files_delete_segment id d) d)
  end.

(** The files that stand for a directory of segments: one per number, under its name, no
    other name that lists as a number, and [CURRENT]. *)
Record dir_files (d : Disk) (w : wal_dir) : Prop := {
  df_segment : forall id, 0 <= id <= u64_max -> d !! segment_path id = fst <$> wd_segments w !! id;
  df_range : forall id f, wd_segments w !! id = Some f -> 0 <= id <= u64_max;
  df_names : forall n id, is_Some (d !! join WAL_DIR n) -> segment_id n = Some id -> n = segment_name id;
  df_current : wd_current w = match read_current d with Ok id => Some id | _ => None end;
}.
Record manager_files (s : SegmentFiles * Disk) (w : WalSegmentManager) : Prop := {
  mf_dir : dir_files s.2 (ws_dir w);
  mf_active : sf_active_id s.1 = ws_active_id w;
  mf_mode : sf_sync_mode s.1 = ws_sync_mode w;
  mf_range : 0 <= ws_active_id w <= u64_max;
  mf_present : is_Some (wd_segments (ws_dir w) !! ws_active_id w);
}.

Lemma read_current_range d id : read_current d = Ok id -> 0 <= id <= u64_max.
Proof.
  unfold read_current. intros E. apply obind_ok_inv in E as (b & _ & E). apply obind_ok_inv in E as (c & _ & E).
  destruct (parse_u64 (trim c)) eqn:P; [|done]. cbn in E. injection E as <-. by eapply parse_u64_range.
Qed.

Lemma read_current_same d d' : d' !! CURRENT_PATH = d !! CURRENT_PATH -> read_current d' = read_current d.
Proof. intros E. unfold read_current. by rewrite E. Qed.

(** A segment is written, whole or longer. *)
Lemma dir_files_set d w id f n : 0 <= id <= u64_max -> dir_files d w ->
  dir_files (<[segment_path id := f]> d) (set_segment w id (f, n)).
Proof.
  intros Hi [S R N C]. pose proof (segment_path_not_current id ltac:(lia)) as [H1 H2]. split; cbn [set_segment wd_segments wd_current].
  - intros j Hj. destruct (decide (j = id)) as [->|Hne]; [by rewrite !lookup_insert_eq|].
    rewrite !lookup_insert_ne; [by apply S|done|]. intros E. by apply segment_path_inj in E.
  - intros j g. destruct (decide (j = id)) as [->|Hne]; [done|]. rewrite lookup_insert_ne by done. apply R.
  - intros m j. destruct (decide (m = segment_name id)) as [->|Hne].
    + intros _. rewrite segment_id_name by done. congruence.
    + rewrite lookup_insert_ne; [apply N|]. intros E. apply Hne. unfold segment_path, join in E. by simplify_eq.
  - rewrite C, (read_current_same d (<[segment_path id := f]> d)); [done|]. by apply lookup_insert_ne.
Qed.

Lemma dir_files_delete d w id : 0 <= id <= u64_max -> dir_files d w ->
  dir_files (delete (segment_path id) d) (delete_segment w id).
Proof.
  intros Hi [S R N C]. pose proof (segment_path_not_current id ltac:(lia)) as [H1 H2]. split; cbn [delete_segment wd_segments wd_current].
  - intros j Hj. destruct (decide (j = id)) as [->|Hne]; [by rewrite !lookup_delete_eq|].
    rewrite !lookup_delete_ne; [by apply S|done|]. intros E. by apply segment_path_inj in E.
  - intros j g. destruct (decide (j = id)) as [->|Hne]; [done|]. rewrite lookup_delete_ne by done. apply R.
  - intros m j [x Hx]. apply lookup_delete_Some in Hx as [_ Hx]. apply N. by exists x.
  - rewrite C, (read_current_same d (delete (segment_path id) d)); [done|]. by apply lookup_delete_ne.
Qed.

(** [CURRENT] is replaced. *)
Lemma write_current_ops id : write_current id =
  Ok [WriteFile CURRENT_TMP (show_nat id ++ [newline]); Rename CURRENT_TMP CURRENT_PATH].
Proof. unfold write_current, CURRENT_PATH. by rewrite (atomic_write_ops WAL_DIR CURRENT_FILE) by by apply (bool_decide_eq_true_1 _). Qed.

Lemma trim_number n : 0 <= n -> trim (show_nat n ++ [newline]) = show_nat n.
Proof.
  intros Hn. destruct (show_nat_spec n Hn) as (d & ds & E & F & _). rewrite E. clear E.
  assert (Forall (fun b => b2z b < 0x80) (d :: ds)) as A.
  { eapply Forall_impl; [exact F|]. intros b Hb. by apply digit_no_space. }
  assert (Forall (fun c => is_space c = false) (map b2z (d :: ds))) as P.
  { apply Forall_fmap. eapply Forall_impl; [exact F|]. intros b Hb. by apply digit_no_space. }
  unfold trim. rewrite chars_ascii by (first [lia|apply Forall_app; split; [done|by repeat constructor]]).
  rewrite map_app. assert (skip_spaces (map b2z (d :: ds) ++ map b2z [newline]) = map b2z (d :: ds) ++ map b2z [newline]) as ->.
  { cbn [map app skip_spaces]. apply Forall_inv in P. by rewrite P. }
  rewrite rev_app_distr. change (rev (map b2z [newline]) ++ rev (map b2z (d :: ds))) with (10 :: rev (map b2z (d :: ds))).
  assert (forall cs, skip_spaces (10 :: cs) = skip_spaces cs) as -> by done.
  rewrite skip_spaces_none by (by apply Forall_rev). rewrite rev_involutive. by destruct (bs_utf8 _ A) as [<- _].
Qed.

Lemma read_current_written d id : 0 <= id <= u64_max -> d !! CURRENT_PATH = Some (show_nat id ++ [newline]) -> read_current d = Ok id.
Proof.
  intros Hi E. unfold read_current. rewrite E. cbn [ok_or obind]. rewrite text_valid by text_solve. cbn [ok_or obind].
  rewrite trim_number by lia. pose proof (parse_u64_show id Hi) as P. destruct (show_nat_spec id) as (b & ds & Es & F & _); [lia|].
  rewrite Es in *. rewrite trim_digits in P by done. by rewrite P.
Qed.

Lemma dir_files_current d w id ops : 0 <= id <= u64_max -> dir_files d w -> write_current id = Ok ops ->
  dir_files (run_ops ops d) (mkWalDir (wd_segments w) (Some id)).
Proof.
  intros Hi [S R N C] E. rewrite write_current_ops in E. injection E as <-.
  assert (G : forall q, run_ops [WriteFile CURRENT_TMP (show_nat id ++ [newline]); Rename CURRENT_TMP CURRENT_PATH] d !! q =
    if bool_decide (q = CURRENT_PATH) then Some (show_nat id ++ [newline]) else if bool_decide (q = CURRENT_TMP) then None else d !! q)
    by (intros; by apply run_replace). split; cbn [wd_segments wd_current].
  - intros j Hj. pose proof (segment_path_not_current j ltac:(lia)) as [H1 H2]. rewrite G, !bool_decide_eq_false_2 by done. by apply S.
  - done.
  - intros n j. rewrite G. case_bool_decide as E1.
    { intros _. unfold CURRENT_PATH, join in E1. simplify_eq. vm_compute. discriminate. }
    case_bool_decide; [by intros []|]. apply N.
  - rewrite (read_current_written _ id); [done|done|]. by rewrite G, bool_decide_eq_true_2.
Qed.

(** Both fail alike, or both succeed in related states. *)
Definition same_result {A B} (R : A -> B -> Prop) (a : outcome StorageError A) (b : outcome StorageError B) : Prop :=
  match a, b with
  | Ok x, Ok y => R x y
  | Err e, Err e' => e = e'
  | Panic, Panic => True
  | _, _ => False
  end.

Lemma dir_files_same d w id f n : dir_files d w -> 0 <= id <= u64_max -> d !! segment_path id = Some f ->
  dir_files d (set_segment w id (f, n)).
Proof. intros D Hi E. rewrite <-(insert_id d (segment_path id) f) by done. by apply dir_files_set. Qed.

Lemma open_segment_files d w id : dir_files d w -> 0 <= id <= u64_max ->
  same_result (fun ops w' => dir_files (run_ops ops d) w' /\ wd_current w' = wd_current w /\ is_Some (wd_segments w' !! id))
    (wal_open_ops (segment_path id) d) (open_segment w id).
Proof.
  intros D Hi. unfold wal_open_ops, open_segment. rewrite (df_segment _ _ D id Hi).
  destruct (Wal_open (fst <$> wd_segments w !! id)) as [f| |] eqn:O; cbn [obind same_result]; [|done..].
  split; [|split; [done|cbn; rewrite lookup_insert_eq; eauto]].
  destruct (len (default [] (fst <$> wd_segments w !! id)) =? 0) eqn:L; [by apply dir_files_set|].
  change (run_ops [] d) with d. apply dir_files_same; [done|done|]. rewrite (df_segment _ _ D id Hi).
  destruct (wd_segments w !! id) as [[g n]|]; [|done]. cbn in *. unfold Wal_open in O. cbn in O. rewrite L in O.
  destruct (_ <? _); [done|]. destruct (validate_header g); cbn in O; congruence.
Qed.

Lemma sync_files d w : dir_files d (ws_dir w) -> 0 <= ws_active_id w <= u64_max ->
  is_Some (wd_segments (ws_dir w) !! ws_active_id w) -> dir_files d (ws_dir (WalSegmentManager_sync w)).
Proof.
  intros D Hi [[f n] E]. unfold WalSegmentManager_sync, active_file. rewrite E. cbn. apply dir_files_same; [done|done|].
  by rewrite (df_segment _ _ D _ Hi), E.
Qed.

Lemma sync_present w : is_Some (wd_segments (ws_dir w) !! ws_active_id w) ->
  is_Some (wd_segments (ws_dir (WalSegmentManager_sync w)) !! ws_active_id w).
Proof. intros [[f n] E]. unfold WalSegmentManager_sync, active_file. rewrite E. cbn. rewrite lookup_insert_eq. eauto. Qed.

(** Numbers are 64-bit, and the segment in use is not deleted. *)
Definition call_ok (c : WalCall) (w : WalSegmentManager) : Prop :=
  match c with CallDelete id => 0 <= id <= u64_max /\ id <> ws_active_id w | _ => True end.

Lemma open_files_sim s w mode : manager_files s w -> same_result manager_files (call_files (CallOpen mode) s) (call_model (CallOpen mode) w).
Proof.
  intros [D A M R P]. destruct s as [m d]. cbn [fst snd] in *. unfold call_files, call_model, files_open, open_with_sync.
  rewrite (df_current _ _ D). set (id := match read_current d with Ok id => id | _ => 1 end).
  assert (default 1 (match read_current d with Ok id => Some id | _ => None end) = id) as -> by (subst id; by destruct (read_current d)).
  assert (0 <= id <= u64_max) as Hi by (subst id; destruct (read_current d) eqn:E; [by eapply read_current_range|done..]).
  pose proof (open_segment_files d (ws_dir w) id D Hi) as O.
  destruct (wal_open_ops _ _), (open_segment _ _); cbn in *; try done. destruct O as (O1 & O2 & O3). by split.
Qed.

Lemma append_files_sim s w e : manager_files s w -> same_result manager_files (call_files (CallAppend e) s) (call_model (CallAppend e) w).
Proof.
  intros [D A M R [[f n] P]]. destruct s as [m d]. cbn [fst snd] in *.
  unfold call_files, call_model, files_append, WalSegmentManager_append, append_unsynced, Wal_append, active_file. rewrite P, A. change (default ([], 0) (Some (f, n))) with (f, n).
  destruct (LogEntry_encode e) as [b| |]; cbn [obind same_result]; [|done..]. cbn [run_ops fold_left run_op].
  rewrite (df_segment _ _ D _ R), P. change (default [] (fst <$> Some (f, n))) with f.
  set (w' := with_active w (f ++ b, n)). assert (dir_files (<[segment_path (ws_active_id w) := f ++ b]> d) (ws_dir w')) as D' by by apply dir_files_set.
  assert (is_Some (wd_segments (ws_dir w') !! ws_active_id w')) as P' by (cbn; rewrite lookup_insert_eq; eauto).
  case_bool_decide; [|by split].
  assert (ws_active_id (WalSegmentManager_sync w') = ws_active_id w /\ ws_sync_mode (WalSegmentManager_sync w') = ws_sync_mode w) as [E1 E2]
    by (unfold WalSegmentManager_sync; by destruct (active_file w')).
  split; rewrite ?E1, ?E2; try done; [by apply sync_files|exact (sync_present w' P')].
Qed.

Lemma rotate_files_sim s w : manager_files s w -> same_result manager_files (call_files CallRotate s) (call_model CallRotate w).
Proof.
  intros [D A M R P]. destruct s as [m d]. cbn [fst snd] in *. unfold call_files, call_model, files_rotate, rotate. rewrite A, M.
  assert (ws_active_id (WalSegmentManager_sync w) = ws_active_id w /\ ws_sync_mode (WalSegmentManager_sync w) = ws_sync_mode w) as [-> ->]
    by (unfold WalSegmentManager_sync; by destruct (active_file w)).
  set (id := wrap 64 (ws_active_id w + 1)).
  assert (0 <= id <= u64_max) as Hi by (subst id; unfold wrap, u64_max; pose proof (Z.mod_pos_bound (ws_active_id w + 1) (2 ^ 64)); lia).
  pose proof (open_segment_files d _ id (sync_files d w D R P) Hi) as O. rewrite write_current_ops.
  destruct (wal_open_ops _ _) as [ops| |], (open_segment _ _) as [w'| |]; cbn [obind same_result] in *; try done.
  destruct O as (O1 & O2 & O3). split; cbn [fst snd ws_dir ws_active_id sf_active_id ws_sync_mode sf_sync_mode]; try done.
  rewrite run_ops_app. eapply dir_files_current; [done|done|apply write_current_ops].
Qed.

Lemma delete_files_sim s w id : manager_files s w -> 0 <= id <= u64_max -> id <> ws_active_id w ->
  same_result manager_files (call_files (CallDelete id) s) (call_model (CallDelete id) w).
Proof.
  intros [D A M R P] Hi Hn. destruct s as [m d]. cbn [fst snd] in *. cbn [call_files call_model same_result].
  split; cbn [fst snd ws_dir ws_active_id ws_sync_mode delete_segment wd_segments]; try done; [|by rewrite lookup_delete_ne].
  unfold files_delete_segment. case_bool_decide as E; cbn [run_ops fold_left run_op].
  - by apply dir_files_delete.
  - pose proof (dir_files_delete d _ id Hi D) as D'. rewrite delete_id in D'; [done|]. by destruct (d !! segment_path id); [destruct E|].
Qed.

Lemma call_sim c s w : manager_files s w -> call_ok c w -> same_result manager_files (call_files c s) (call_model c w).
Proof.
  intros H K. destruct c; [by apply open_files_sim|by apply append_files_sim|by apply rotate_files_sim|]. destruct K. by apply delete_files_sim.
Qed.

(** *** Replay *)

Lemma NoDup_omap {A B} (f : A -> option B) l :
  (forall x y z, x ∈ l -> y ∈ l -> f x = Some z -> f y = Some z -> x = y) -> NoDup l -> NoDup (omap f l).
Proof.
  intros I. induction l as [|a l IH]; [constructor|]. rewrite NoDup_cons. intros [H1 H2]. cbn.
  assert (NoDup (omap f l)) as H3 by (apply IH; [|done]; intros x y z Hx Hy; apply I; by right).
  destruct (f a) as [b|] eqn:E; [|done]. apply NoDup_cons. split; [|done]. rewrite list_elem_of_omap. intros (a' & Ha & E').
  apply H1. by rewrite (I a a' b); [|left|right|..].
Qed.

Lemma strip_prefix_eq p s r : strip_prefix p s = Some r -> s = p ++ r.
Proof.
  revert s. induction p as [|a p IH]; [by intros s [= ->]|]. intros [|b s]; cbn [strip_prefix]; [done|].
  case_bool_decide; [|done]. subst. intros E. cbn. f_equal. by apply IH.
Qed.

Lemma wal_names_spec d n : n ∈ wal_names d <-> slash ∉ n /\ is_Some (d !! join WAL_DIR n).
Proof.
  unfold wal_names. rewrite list_elem_of_filter, list_elem_of_omap. change (join WAL_DIR n) with ((WAL_DIR ++ [slash]) ++ n).
  split; intros [Hs H]; (split; [done|]).
  - destruct H as (k & Hk & ->%strip_prefix_eq). apply list_elem_of_fmap in Hk as ([k' v] & -> & Hk). apply elem_of_map_to_list in Hk. eauto.
  - destruct H as [v Hv]. exists ((WAL_DIR ++ [slash]) ++ n). split; [|by apply strip_prefix_app].
    apply list_elem_of_fmap. exists ((WAL_DIR ++ [slash]) ++ n, v). split; [done|]. by apply elem_of_map_to_list.
Qed.

Lemma NoDup_wal_names d : NoDup (wal_names d).
Proof.
  unfold wal_names. apply NoDup_filter, NoDup_omap; [|apply NoDup_fst_map_to_list].
  intros x y z _ _ Hx Hy. by rewrite (strip_prefix_eq _ _ _ Hx), (strip_prefix_eq _ _ _ Hy).
Qed.

(** The numbers listed are those of the segments, in whatever order the names come. *)
Lemma listed_ids d w names : dir_files d w -> names ≡ₚ wal_names d ->
  list_segment_ids names ≡ₚ (btree_iter (wd_segments w)).*1.
Proof.
  intros D N. assert (forall n, n ∈ names -> is_Some (d !! join WAL_DIR n)) as H1 by (intros n; rewrite N, wal_names_spec; tauto).
  apply NoDup_Permutation; [|auto with noedb|].
  - apply NoDup_omap; [|rewrite N; apply NoDup_wal_names]. intros x y z Hx Hy Ex Ey.
    by rewrite (df_names _ _ D x z), (df_names _ _ D y z) by auto.
  - intros id. unfold list_segment_ids. rewrite list_elem_of_omap, list_elem_of_fmap. split.
    + intros (n & Hn & E). pose proof (df_names _ _ D n id (H1 n Hn) E) as ->. destruct (H1 _ Hn) as [f Hf].
      assert (0 <= id <= u64_max) as Hi.
      { unfold segment_id in E. destruct (from_utf8 _); [|done]. destruct (strip_suffix _ _); [|done]. by eapply parse_u64_range. }
      pose proof (df_segment _ _ D id Hi) as S. unfold segment_path in S. rewrite Hf in S.
      destruct (wd_segments w !! id) as [g|] eqn:G; [|done]. exists (id, g). by rewrite elem_of_btree_iter.
    + intros ([id' g] & -> & G). apply elem_of_btree_iter in G. pose proof (df_range _ _ D _ _ G) as Hi. cbn.
      exists (segment_name id'). split; [|by apply segment_id_name]. rewrite N, wal_names_spec.
      split; [apply segment_name_no_slash; lia|]. pose proof (df_segment _ _ D id' Hi) as S. rewrite G in S. by exists g.1.
Qed.

Lemma replay_ids_segments d l t total :
  Forall (fun x => d !! segment_path x.1 = Some x.2.1) l -> replay_ids d l.*1 t total = replay_segments l t total.
Proof.
  intros H. revert t total. induction H as [|[id [f n]] l E Hl IH]; intros t total; [done|]. cbn in E |- *. rewrite E.
  destruct (replay_into_memtable (Some f) t) as [[k t']| |]; cbn; [apply IH|done..].
Qed.

Lemma replay_files d w names t : dir_files d w -> names ≡ₚ wal_names d ->
  files_replay_all d names t = replay_all (Some w) t.
Proof.
  intros D N. unfold files_replay_all, replay_all.
  assert (merge_sort Z.le (list_segment_ids names) = (btree_iter (wd_segments w)).*1) as ->.
  { apply (StronglySorted_unique Z.le).
    - apply StronglySorted_merge_sort; apply _.
    - pose proof (btree_iter_sorted (wd_segments w)) as S. induction S as [|x l Hl IH Hx]; cbn; constructor; [done|].
      apply Forall_fmap. eapply Forall_impl; [exact Hx|]. intros y Hy.
      unfold entry_lt in Hy. apply klt_cmp in Hy. by apply Z.lt_le_incl.
    - rewrite merge_sort_Permutation. by apply (listed_ids d). }
  apply replay_ids_segments. apply Forall_forall. intros [id [f n]] H. apply elem_of_btree_iter in H. cbn [fst snd].
  rewrite (df_segment _ _ D id); [by rewrite H|]. by eapply (df_range _ _ D).
Qed.

(** *** The refinement *)

Fixpoint run_calls {A} (f : WalCall -> A -> outcome StorageError A) (cs : list WalCall) (a : A) : outcome StorageError A :=
  match cs with [] => Ok a | c :: cs' => let? a' := f c a in run_calls f cs' a' end.
Fixpoint calls_ok (cs : list WalCall) (w : WalSegmentManager) : Prop :=
  match cs with
  | [] => True
  | c :: cs' => call_ok c w /\ match call_model c w with Ok w' => calls_ok cs' w' | _ => True end
  end.

(** What a state of the files stands for, and that a replay of its files is one of the
    numbered segments *)
Definition refines (s : SegmentFiles * Disk) (w : WalSegmentManager) : Prop :=
  manager_files s w /\
  forall names t, names ≡ₚ wal_names s.2 -> files_replay_all s.2 names t = replay_all (Some (ws_dir w)) t.

(** C13. The files implement the numbered segments: a sequence of calls on the files (open,
    append, rotate, delete) fails exactly when the calls on the numbered segments fail,
    with the same error, and otherwise leaves files that stand for the segments, so that
    a replay of the directory, in whatever order it is listed, yields the same table. *)
Theorem wal_files_refine (calls : list WalCall) (s : SegmentFiles * Disk) (w : WalSegmentManager) :
  manager_files s w -> calls_ok calls w ->
  same_result refines (run_calls call_files calls s) (run_calls call_model calls w).
Proof.
  revert s w. induction calls as [|c calls IH]; intros s w M K; cbn [run_calls].
  - split; [done|]. intros names t. apply replay_files, (mf_dir _ _ M).
  - destruct K as [K1 K2]. pose proof (call_sim c s w M K1) as S.
    destruct (call_files c s), (call_model c w); cbn [same_result obind] in *; try done. by apply IH.
Qed.

(** The operations of a rotation onto a number without a file *)
Lemma rotate_ops m d old ops m' : d !! segment_path (sf_active_id m') = None -> files_rotate m d = Ok (old, (ops, m')) ->
  0 <= sf_active_id m' <= u64_max /\
  ops = [WriteFile (segment_path (sf_active_id m')) wal_header;
         WriteFile CURRENT_TMP (show_nat (sf_active_id m') ++ [newline]); Rename CURRENT_TMP CURRENT_PATH].
Proof.
  unfold files_rotate. set (id := wrap 64 (sf_active_id m + 1)). rewrite write_current_ops. intros Hn E.
  assert (0 <= id <= u64_max) as Hi by (subst id; unfold wrap, u64_max; pose proof (Z.mod_pos_bound (sf_active_id m + 1) (2 ^ 64)); lia).
  assert (sf_active_id m' = id) as E' by (destruct (wal_open_ops _ _); cbn [obind] in E; [by injection E as _ _ <-|done..]).
  rewrite E' in *. split; [done|]. unfold wal_open_ops in E. rewrite Hn in E. change (Wal_open None) with (@Ok StorageError _ wal_header) in E.
  change (len (default [] None) =? 0) with true in E. cbn [obind] in E. by injection E as _ <- _.
Qed.

(** A crash while a segment is rotated keeps every other segment, and [CURRENT] names
    the old segment or the new one, which then has its whole header. *)
Theorem rotation_crash (m : SegmentFiles) (d d' : Disk) (old : Z) (ops : list DiskOp) (m' : SegmentFiles) :
  d !! segment_path (sf_active_id m') = None -> files_rotate m d = Ok (old, (ops, m')) -> crashed d ops d' ->
  (forall id, 0 <= id <= u64_max -> id <> sf_active_id m' -> d' !! segment_path id = d !! segment_path id) /\
  (read_current d' = read_current d /\
     (d' !! segment_path (sf_active_id m') = None \/ exists n, d' !! segment_path (sf_active_id m') = Some (take n wal_header)) \/
   read_current d' = Ok (sf_active_id m') /\ d' !! segment_path (sf_active_id m') = Some wal_header).
Proof.
  intros Hn E C. destruct (rotate_ops _ _ _ _ _ Hn E) as [Hi ->]. set (new := sf_active_id m') in *.
  destruct (segment_path_not_current new) as [N1 N2]; [lia|].
  assert (W : forall f, (forall id, 0 <= id <= u64_max -> id <> new -> <[segment_path new := f]> d !! segment_path id = d !! segment_path id)
    /\ read_current (<[segment_path new := f]> d) = read_current d).
  { intros f. split; [|apply read_current_same; by apply lookup_insert_ne]. intros id H1 H2. apply lookup_insert_ne. intros E1. by apply segment_path_inj in E1. }
  inversion C as [| | |? ? ? ? C']; subst; [by auto|destruct (W (take n wal_header)); split; [done|]; left; split; [done|]; right; exists n; apply lookup_insert_eq|].
  cbn [run_op] in C'. destruct (W wal_header) as [W1 W2].
  apply crashed_replace in C' as [S| ->].
  - assert (forall id, 0 <= id -> segment_path id <> CURRENT_TMP) as T by (intros; by apply segment_path_not_current).
    split; [intros id H1 H2; rewrite S by (apply T; lia); by apply W1|]. left. split.
    + rewrite <-W2. apply read_current_same, S. by apply (bool_decide_eq_true_1 _).
    + right. exists (length wal_header). rewrite S, firstn_all by done. apply lookup_insert_eq.
  - assert (G : forall id, 0 <= id -> run_ops [WriteFile CURRENT_TMP (show_nat new ++ [newline]); Rename CURRENT_TMP CURRENT_PATH]
      (<[segment_path new:=wal_header]> d) !! segment_path id = <[segment_path new:=wal_header]> d !! segment_path id).
    { intros id H1. destruct (segment_path_not_current id H1). by rewrite run_replace, !bool_decide_eq_false_2 by done. }
    split; [intros id H1 H2; rewrite G by lia; by apply W1|]. right. split; [|rewrite G by lia; apply lookup_insert_eq].
    apply read_current_written; [done|]. by rewrite run_replace, bool_decide_eq_true_2 by done.
Qed.

(** A directory that has a segment without its whole header cannot be replayed. *)
Lemma short_header_fails d w id n t names : dir_files d w -> 0 <= id <= u64_max -> (n < length wal_header)%nat ->
  d !! segment_path id = Some (take n wal_header) -> names ≡ₚ wal_names d -> forall r, files_replay_all d names t <> Ok r.
Proof.
  intros D Hi Hn E N r R. rewrite (replay_files d w) in R by done. unfold replay_all in R.
  pose proof (df_segment _ _ D _ Hi) as S. rewrite E in S. destruct (wd_segments w !! id) as [[f k]|] eqn:G; [|done].
  cbn in S. injection S as S. apply elem_of_btree_iter in G. revert R. generalize 0 as total. revert t. revert G.
  generalize (btree_iter (wd_segments w)) as l. induction l as [|[j [g k']] l IH]; [by intros ?%elem_of_nil|].
  intros G t total R. cbn in R. apply obind_ok_inv in R as ([c t'] & R1 & R2). apply elem_of_cons in G as [G|G]; [|by eapply IH].
  injection G as <- <- <-. unfold replay_into_memtable, Wal_read_all in R1. rewrite <-S in R1.
  do 6 (destruct n as [|n]; [by vm_compute in R1|]). vm_compute in Hn. lia.
Qed.

(** A crash between the creation of the new segment and the end of its header leaves a
    directory that no replay reads: the store cannot be opened any more. *)
Theorem torn_rotation_blocks_replay (m m' : SegmentFiles) (d : Disk) (w : wal_dir) (old : Z) (ops : list DiskOp) :
  dir_files d w -> d !! segment_path (sf_active_id m') = None -> files_rotate m d = Ok (old, (ops, m')) ->
  exists d', crashed d ops d' /\
    forall names t r, names ≡ₚ wal_names d' -> files_replay_all d' names t <> Ok r.
Proof.
  intros D Hn E. destruct (rotate_ops _ _ _ _ _ Hn E) as [Hi ->].
  eexists. split; [apply (crash_in_write _ _ _ _ 0)|]. intros names t r N.
  apply (short_header_fails _ (set_segment w (sf_active_id m') (take 0 wal_header, 0)) (sf_active_id m') 0); [by apply dir_files_set|done| |apply lookup_insert_eq|done].
  vm_compute. lia.
Qed.

(** *** A run *)

Definition demo_files : SegmentFiles * Disk := (mkSegmentFiles 1 EveryAppend, {[segment_path 1 := wal_header]}).
Definition demo_manager : WalSegmentManager := mkWalSegmentManager (mkWalDir {[1 := (wal_header, 6)]} None) 1 EveryAppend.

(** What opening an empty directory leaves *)
Lemma demo_manager_files :
  (let? '(ops, m) := files_open EveryAppend ∅ in Ok (m, run_ops ops ∅)) = Ok demo_files /\ manager_files demo_files demo_manager.
Proof.
  assert (files_open EveryAppend ∅ = Ok ([WriteFile (segment_path 1) wal_header], mkSegmentFiles 1 EveryAppend)) as -> by reflexivity.
  split; [done|]. split; try done.
  apply (dir_files_set ∅ (mkWalDir ∅ None) 1 wal_header 6); [done|]. split; try done.
  intros n id [x Hx]. by rewrite lookup_empty in Hx.
Qed.

Definition demo_calls : list WalCall :=
  [CallAppend (mkLogEntry OpPut (bs "k") (bs "1")); CallRotate; CallAppend (mkLogEntry OpPut (bs "k") (bs "2")); CallDelete 1; CallOpen OnFlush].

Lemma wal_files_refine_witness :
  same_result refines (run_calls call_files demo_calls demo_files) (run_calls call_model demo_calls demo_manager) /\
  is_ok (run_calls call_model demo_calls demo_manager) = true.
Proof.
  split; [|vm_compute; reflexivity]. apply (wal_files_refine demo_calls demo_files demo_manager (proj2 demo_manager_files)).
  vm_compute. repeat split; discriminate.
Defined.

Lemma manifest_commit_atomic_witness :
  let snap := mkSnapshot [] [] 7 in
  exists ops, ManifestSnapshot_commit (bs "/db") snap = Ok ops /\
    ManifestSnapshot_load (bs "/db") (run_ops ops ∅) = Ok (Some snap) /\
    forall d', crashed ∅ ops d' ->
      ManifestSnapshot_load (bs "/db") d' = ManifestSnapshot_load (bs "/db") ∅ \/ ManifestSnapshot_load (bs "/db") d' = Ok (Some snap).
Proof. apply (manifest_commit_atomic (bs "/db") (mkSnapshot [] [] 7) ∅). by repeat constructor. Defined.
