(* ===== verification/SnapshotStore.v ===== *)
(** * Snapshot reads (crates/noedb-storage/src/mvcc/snapshot_store.rs)

    A read-only view over three sources: the writes of a transaction, the version
    table in memory, and the LSM tree.  [range] merges the three sorted streams;
    the theorem says that this is the ordered content of the merged map. *)

From S2P Require Import Prelude BTree StorageError Mvcc MvccMemTable MemTable Wal Filter SSTable Compaction Lsm LsmScan.

(** ** The three-way merge *)

Inductive Src : Type := SrcOverlay | SrcMvcc | SrcBase.
Definition src_rank (s : Src) : Z := match s with SrcOverlay => 0 | SrcMvcc => 1 | SrcBase => 2 end.

Record MergedRange : Type := mkMergedRange {
  mr_overlay : list (bytes * option bytes);
  mr_mvcc : list (bytes * bytes);
  mr_base : list (bytes * bytes) }.

(** [(k, src)] pairs are compared by key, then by source. *)
Definition cand_ltb (a b : bytes * Src) : bool :=
  match bytes_cmp a.1 b.1 with
  | Lt => true
  | Eq => src_rank a.2 <? src_rank b.2
  | Gt => false
  end.

(** [Iterator::min]: the first least element *)
Fixpoint min_candidate (cs : list (bytes * Src)) : option (bytes * Src) :=
  match cs with
  | [] => None
  | c :: cs' =>
      match min_candidate cs' with
      | Some d => Some (if cand_ltb d c then d else c)
      | None => Some c
      end
  end.

Definition peek_as {A} (s : Src) (l : list (bytes * A)) : list (bytes * Src) :=
  match l with e :: _ => [(e.1, s)] | [] => [] end.

(** [while peek().is_some_and(|(k, _)| k == key) { next(); }] *)
Fixpoint skip_key {A} (key : bytes) (l : list (bytes * A)) : list (bytes * A) :=
  match l with
  | e :: l' => if bool_decide (e.1 = key) then skip_key key l' else l
  | [] => []
  end.

Definition skip_shadowed (key : bytes) (skip_mvcc : bool) (r : MergedRange) : MergedRange :=
  mkMergedRange (mr_overlay r) (if skip_mvcc then skip_key key (mr_mvcc r) else mr_mvcc r)
    (skip_key key (mr_base r)).

(** [next]: deleted keys are swallowed, hence the loop.  Out of fuel is [Panic]. *)
Fixpoint MergedRange_next (fuel : nat) (r : MergedRange) : outcome unit (option (bytes * bytes) * MergedRange) :=
  match fuel with
  | O => Panic
  | S fuel' =>
      match min_candidate (peek_as SrcOverlay (mr_overlay r) ++ peek_as SrcMvcc (mr_mvcc r) ++
                           peek_as SrcBase (mr_base r)) with
      | None => Ok (None, r)
      | Some (_, SrcOverlay) =>
          match mr_overlay r with
          | [] => Ok (None, r)
          | (k, op) :: o' =>
              let r' := skip_shadowed k true (mkMergedRange o' (mr_mvcc r) (mr_base r)) in
              match op with
              | Some v => Ok (Some (k, v), r')
              | None => MergedRange_next fuel' r'
              end
          end
      | Some (_, SrcMvcc) =>
          match mr_mvcc r with
          | [] => Ok (None, r)
          | (k, v) :: m' => Ok (Some (k, v), skip_shadowed k false (mkMergedRange (mr_overlay r) m' (mr_base r)))
          end
      | Some (_, SrcBase) =>
          match mr_base r with
          | [] => Ok (None, r)
          | e :: b' => Ok (Some e, mkMergedRange (mr_overlay r) (mr_mvcc r) b')
          end
      end
  end.

(** All items, as a [for] loop or [collect] sees them *)
Fixpoint merged_items (fuel : nat) (r : MergedRange) : outcome unit (list (bytes * bytes)) :=
  match fuel with
  | O => Panic
  | S fuel' =>
      let? n := MergedRange_next (S (length (mr_overlay r))) r in
      match n.1 with
      | None => Ok []
      | Some e => let? es := merged_items fuel' n.2 in Ok (e :: es)
      end
  end.
Definition merged_size (r : MergedRange) : nat :=
  (length (mr_overlay r) + length (mr_mvcc r) + length (mr_base r))%nat.
Definition collect_merged (r : MergedRange) : outcome unit (list (bytes * bytes)) :=
  merged_items (S (merged_size r)) r.

(** ** The merged map *)

Definition merged_map (r : MergedRange) : gmap bytes bytes :=
  merge (fun (w : option (option bytes)) (x : option bytes) => match w with Some op => op | None => x end)
    (list_to_map (mr_overlay r)) (list_to_map (mr_mvcc r) ∪ list_to_map (mr_base r) : gmap bytes bytes).

Definition merged_sorted (r : MergedRange) : Prop :=
  StronglySorted entry_lt (mr_overlay r) /\ StronglySorted entry_lt (mr_mvcc r) /\ StronglySorted entry_lt (mr_base r).

Lemma merged_lookup r k :
  merged_map r !! k =
    match (list_to_map (mr_overlay r) : gmap bytes (option bytes)) !! k with
    | Some op => op
    | None => match (list_to_map (mr_mvcc r) : gmap bytes bytes) !! k with
              | Some v => Some v
              | None => (list_to_map (mr_base r) : gmap bytes bytes) !! k
              end
    end.
Proof.
  unfold merged_map. rewrite lookup_merge, lookup_union.
  destruct (list_to_map (mr_overlay r) !! k), (list_to_map (mr_mvcc r) !! k), (list_to_map (mr_base r) !! k); done.
Qed.

(** All keys of a list are above [k]. *)
Definition above {A} (k : bytes) (l : list (bytes * A)) : Prop := Forall (fun e => bytes_lt k e.1) l.

Lemma above_lookup {A} k (l : list (bytes * A)) k' :
  above k l -> ~ bytes_lt k k' -> (list_to_map l : gmap bytes A) !! k' = None.
Proof.
  intros Hl Hk. apply not_elem_of_list_to_map. intros Hin. apply list_elem_of_fmap in Hin as (e & -> & He).
  unfold above in Hl. rewrite Forall_forall in Hl. by apply Hk, Hl.
Qed.

Lemma skip_key_lookup {A} k (l : list (bytes * A)) k' :
  k' <> k -> (list_to_map (skip_key k l) : gmap bytes A) !! k' = (list_to_map l : gmap bytes A) !! k'.
Proof.
  intros Hk. induction l as [|[k0 v0] l IH]; [done|]. cbn [skip_key fst]. case_bool_decide; [|done].
  subst. rewrite IH. cbn. by rewrite lookup_insert_ne.
Qed.

(** The keys of a sorted list are above a key that is below its first one. *)
Lemma sorted_above {A} k (l : list (bytes * A)) :
  StronglySorted entry_lt l -> (forall e, head l = Some e -> bytes_lt k e.1) -> above k l.
Proof.
  intros Hs Hh. destruct Hs as [|e l Hs Hall]; [constructor|]. specialize (Hh e eq_refl). constructor; [done|].
  eapply Forall_impl; [exact Hall|]. intros e' He'. by eapply bytes_lt_trans.
Qed.

Lemma skip_key_above {A} k (l : list (bytes * A)) :
  StronglySorted entry_lt l -> (forall e, head l = Some e -> bytes_le k e.1) ->
  StronglySorted entry_lt (skip_key k l) /\ above k (skip_key k l) /\ (length (skip_key k l) <= length l)%nat.
Proof.
  intros Hs Hh. destruct Hs as [|[k0 v0] l Hs Hall]; [by repeat split; constructor|]. cbn [skip_key fst].
  case_bool_decide as E.
  - subst k0. assert (above k l) as Habove by exact Hall. assert (skip_key k l = l) as ->; [|repeat split; [done|done|simpl; lia]].
    destruct l as [|e l]; [done|]. cbn [skip_key]. rewrite bool_decide_eq_false_2; [done|]. intros Ee.
    apply Forall_inv in Habove. rewrite Ee in Habove. by apply bytes_lt_ne in Habove.
  - assert (StronglySorted entry_lt ((k0, v0) :: l)) as Hs' by (by constructor).
    repeat split; [done| |simpl; lia]. apply sorted_above; [done|]. intros e [= <-].
    specialize (Hh (k0, v0) eq_refl). apply bytes_le_lt_eq in Hh as [?|?]; [done|]. simpl in *. congruence.
Qed.

Lemma btree_iter_insert_least {V} (k : bytes) (v : V) (m : gmap bytes V) :
  (forall k', ~ bytes_lt k k' -> m !! k' = None) -> btree_iter (<[k := v]> m) = (k, v) :: btree_iter m.
Proof.
  intros Hm. apply btree_iter_unique.
  - constructor; [apply btree_iter_sorted|]. apply Forall_forall. intros [k' v'] Hin%elem_of_btree_iter.
    unfold entry_lt. simpl. destruct (decide (bytes_lt k k')) as [?|Hn]; [done|]. rewrite Hm in Hin by done. done.
  - intros k' v'. rewrite elem_of_cons, elem_of_btree_iter, lookup_insert_Some. split.
    + intros [[= -> ->]|Hin]; [by left|]. right. split; [|done]. intros ->.
      rewrite Hm in Hin; [done|]. intros Hlt. by apply bytes_lt_ne in Hlt.
    + intros [[-> ->]|[_ ?]]; auto.
Qed.

Lemma cand_ltb_false a b : cand_ltb a b = false -> bytes_le b.1 a.1 /\ (a.1 = b.1 -> src_rank b.2 <= src_rank a.2).
Proof.
  unfold cand_ltb, bytes_leb. intros Hc. rewrite (bytes_cmp_antisym a.1 b.1).
  destruct (bytes_cmp a.1 b.1) eqn:E; simpl; try done.
  - apply bytes_cmp_eq in E. apply Z.ltb_ge in Hc. done.
  - split; [done|]. intros Heq. apply bytes_cmp_eq in Heq. congruence.
Qed.
Lemma cand_ltb_true a b : cand_ltb a b = true -> bytes_le a.1 b.1 /\ (a.1 = b.1 -> src_rank a.2 <= src_rank b.2).
Proof.
  unfold cand_ltb, bytes_leb. intros Hc. destruct (bytes_cmp a.1 b.1) eqn:E; try done.
  - apply Z.ltb_lt in Hc. split; [done|]. lia.
  - split; [done|]. intros Heq. apply bytes_cmp_eq in Heq. congruence.
Qed.

Lemma min_candidate_spec cs : match min_candidate cs with
  | None => cs = []
  | Some c => c ∈ cs /\ forall d, d ∈ cs -> bytes_le c.1 d.1 /\ (c.1 = d.1 -> src_rank c.2 <= src_rank d.2)
  end.
Proof.
  induction cs as [|c cs IH]; [done|]. cbn [min_candidate]. destruct (min_candidate cs) as [d|].
  - destruct IH as [Hin Hmin]. assert (forall a : bytes, bytes_le a a) as Hrefl by apply bytes_leb_refl.
    destruct (cand_ltb d c) eqn:E.
    + split; [by right|]. intros x [->|Hx]%elem_of_cons; [by apply cand_ltb_true|by apply Hmin].
    + apply cand_ltb_false in E as [E1 E2]. split; [by left|]. intros x [->|Hx]%elem_of_cons; [split; [done|lia]|].
      destruct (Hmin x Hx) as [H1 H2]. split; [by eapply bytes_le_trans|]. intros Heq.
      assert (d.1 = c.1) as Ed by (apply bytes_le_antisym; [by rewrite Heq|done]). rewrite E2, H2; [done|congruence|done].
  - subst cs. split; [by left|]. intros x [->|Hx%elem_of_nil]%elem_of_cons; [|done]. split; [apply bytes_leb_refl|lia].
Qed.

Lemma peek_as_head {A} s (l : list (bytes * A)) e : head l = Some e -> (e.1, s) ∈ peek_as s l.
Proof. destruct l; [done|]. intros [= ->]. by left. Qed.
Lemma peek_as_src {A} s (l : list (bytes * A)) c : c ∈ peek_as s l -> c.2 = s /\ exists e l', l = e :: l' /\ c.1 = e.1.
Proof. destruct l as [|e l]; [by intros ?%elem_of_nil|]. intros [->|?%elem_of_nil]%elem_of_cons; [|done]. eauto. Qed.

Definition merged_above (k : bytes) (r : MergedRange) : Prop :=
  above k (mr_overlay r) /\ above k (mr_mvcc r) /\ above k (mr_base r).

Lemma merged_above_lookup k r k' : merged_above k r -> ~ bytes_lt k k' -> merged_map r !! k' = None.
Proof.
  intros (H1 & H2 & H3) Hk. rewrite merged_lookup. by rewrite (above_lookup k), (above_lookup k), (above_lookup k).
Qed.

(** What one call of [next] does on sorted streams: nothing is left, or the least
    key is taken off. *)
Lemma next_spec fuel r :
  merged_sorted r -> (length (mr_overlay r) < fuel)%nat ->
  exists o r', MergedRange_next fuel r = Ok (o, r') /\
    match o with
    | None => merged_map r = ∅
    | Some (k, v) => merged_sorted r' /\ merged_above k r' /\ (merged_size r' < merged_size r)%nat /\
                     merged_map r = <[k := v]> (merged_map r')
    end.
Proof.
  revert r. induction fuel as [|fuel IH]; intros r (Ho & Hm & Hb) Hf; [lia|]. cbn [MergedRange_next].
  pose proof (min_candidate_spec (peek_as SrcOverlay (mr_overlay r) ++ peek_as SrcMvcc (mr_mvcc r) ++ peek_as SrcBase (mr_base r))) as Hmin.
  destruct (min_candidate _) as [[k s]|].
  2: { eexists _, _. split; [done|]. apply app_nil in Hmin as [E1 [E2 E3]%app_nil]. apply map_eq. intros k.
       rewrite merged_lookup. by destruct r as [[|] [|] [|]]. }
  destruct Hmin as [Hin Hmin]. cbn [fst snd] in Hmin.
  assert (forall e, head (mr_overlay r) = Some e -> bytes_le k e.1 /\ (k = e.1 -> src_rank s <= 0)) as Ho'.
  { intros e He. apply (Hmin (e.1, SrcOverlay)). apply elem_of_app. left. by apply peek_as_head. }
  assert (forall e, head (mr_mvcc r) = Some e -> bytes_le k e.1 /\ (k = e.1 -> src_rank s <= 1)) as Hm'.
  { intros e He. apply (Hmin (e.1, SrcMvcc)). rewrite !elem_of_app. right. left. by apply peek_as_head. }
  assert (forall e, head (mr_base r) = Some e -> bytes_le k e.1) as Hb'.
  { intros e He. apply (Hmin (e.1, SrcBase)). rewrite !elem_of_app. right. right. by apply peek_as_head. }
  rewrite !elem_of_app in Hin.
  destruct Hin as [Hin|[Hin|Hin]]; apply peek_as_src in Hin as (Es & e & l' & El & Ek); cbn [fst snd] in Es, Ek; subst s.
  - rewrite El in *. destruct e as [k0 op]. cbn [fst] in Ek. subst k0. apply StronglySorted_inv in Ho as [Hso Hao].
    destruct (skip_key_above k (mr_mvcc r) Hm (fun e He => proj1 (Hm' e He))) as (Hsm & Ham & Hlm).
    destruct (skip_key_above k (mr_base r) Hb Hb') as (Hsb & Hab & Hlb).
    set (r' := skip_shadowed k true (mkMergedRange l' (mr_mvcc r) (mr_base r))).
    assert (merged_sorted r' /\ merged_above k r' /\ (merged_size r' < merged_size r)%nat) as (H1 & H2 & H3).
    { unfold merged_sorted, merged_above, merged_size. rewrite El. cbn. repeat split; try done. lia. }
    assert (forall k', merged_map r !! k' = if decide (k = k') then op else merged_map r' !! k') as Hmap.
    { intros k'. rewrite !merged_lookup, El. cbn [r' skip_shadowed mr_overlay mr_mvcc mr_base list_to_map foldr].
      cbn. case_decide as Ek; [subst k'; by rewrite lookup_insert_eq|].
      rewrite lookup_insert_ne by done. by rewrite !skip_key_lookup by done. }
    destruct op as [v|].
    + eexists _, _. split; [done|]. split; [done|]. split; [done|]. split; [done|]. apply map_eq. intros k'. rewrite Hmap.
      case_decide; [subst; by rewrite lookup_insert_eq|by rewrite lookup_insert_ne].
    + assert (merged_map r = merged_map r') as ->.
      { apply map_eq. intros k'. rewrite Hmap. case_decide; [subst|done]. symmetry. eapply merged_above_lookup; [done|].
        intros Hlt. by apply bytes_lt_ne in Hlt. }
      destruct (IH r') as (o & r2 & Hn & Hr2); [done|simpl in *; lia|]. exists o, r2. split; [done|].
      destruct o as [[k2 v2]|]; [|done]. destruct Hr2 as (G1 & G2 & G3 & G4). split; [done|]. split; [done|]. split; [lia|done].
  - rewrite El in *. destruct e as [k0 v]. cbn [fst] in Ek. subst k0. apply StronglySorted_inv in Hm as [Hsm Ham].
    destruct (skip_key_above k (mr_base r) Hb Hb') as (Hsb & Hab & Hlb).
    assert (above k (mr_overlay r)) as Hao.
    { apply sorted_above; [done|]. intros e He. destruct (Ho' e He) as [Hle Hne]. apply bytes_le_lt_eq in Hle as [?|Heq]; [done|].
      specialize (Hne Heq). simpl in Hne. lia. }
    eexists _, _. split; [done|]. unfold merged_sorted, merged_above, merged_size. rewrite El.
    cbn [mr_overlay mr_mvcc mr_base skip_shadowed length].
    split; [done|]. split; [done|]. split; [lia|]. apply map_eq. intros k'.
    destruct (decide (k = k')) as [<-|Hk].
    + rewrite lookup_insert_eq, merged_lookup, El, (above_lookup k) by (done || (intros Hlt; by apply bytes_lt_ne in Hlt)).
      cbn. by rewrite lookup_insert_eq.
    + rewrite lookup_insert_ne, !merged_lookup, El by done. cbn. rewrite lookup_insert_ne by done. by rewrite skip_key_lookup.
  - rewrite El in *. destruct e as [k0 v]. cbn [fst] in Ek. subst k0. apply StronglySorted_inv in Hb as [Hsb Hab].
    assert (above k (mr_overlay r) /\ above k (mr_mvcc r)) as [Hao Ham].
    { split; (apply sorted_above; [done|]); intros e He; [destruct (Ho' e He) as [Hle Hne]|destruct (Hm' e He) as [Hle Hne]];
        (apply bytes_le_lt_eq in Hle as [?|Heq]; [done|]); specialize (Hne Heq); simpl in Hne; lia. }
    eexists _, _. split; [done|]. unfold merged_sorted, merged_above, merged_size. rewrite El.
    cbn [mr_overlay mr_mvcc mr_base skip_shadowed length].
    split; [done|]. split; [done|]. split; [lia|]. apply map_eq. intros k'.
    destruct (decide (k = k')) as [<-|Hk].
    + rewrite lookup_insert_eq, merged_lookup, El, !(above_lookup k) by (done || (intros Hlt; by apply bytes_lt_ne in Hlt)).
      cbn. by rewrite lookup_insert_eq.
    + rewrite lookup_insert_ne, !merged_lookup, El by done. cbn. by rewrite lookup_insert_ne by done.
Qed.

Lemma merged_items_spec fuel r :
  merged_sorted r -> (merged_size r < fuel)%nat -> merged_items fuel r = Ok (btree_iter (merged_map r)).
Proof.
  revert r. induction fuel as [|fuel IH]; intros r Hs Hf; [lia|]. cbn [merged_items].
  destruct (next_spec (S (length (mr_overlay r))) r Hs ltac:(lia)) as (o & r' & -> & Hr). cbn [obind fst snd].
  destruct o as [[k v]|].
  - destruct Hr as (H1 & H2 & H3 & ->). rewrite IH by (done || lia). cbn [obind]. rewrite btree_iter_insert_least; [done|].
    intros k' Hk'. by eapply merged_above_lookup.
  - by rewrite Hr.
Qed.

(** The three-way merge behind [range] yields exactly the ordered content of the
    merged map: a write of the transaction (put or delete) beats the version
    table, which beats the LSM tree; it terminates on every sorted input. *)
Theorem merged_range_equiv (r : MergedRange) :
  merged_sorted r -> collect_merged r = Ok (btree_iter (merged_map r)).
Proof. intros Hs. apply merged_items_spec; [done|]. lia. Qed.

Lemma merged_range_equiv_witness :
  let r := mkMergedRange [(bs "b", None); (bs "c", Some (bs "3"))] [(bs "a", bs "1"); (bs "b", bs "2")]
             [(bs "b", bs "x"); (bs "c", bs "y"); (bs "d", bs "4")] in
  merged_sorted r /\ collect_merged r = Ok (btree_iter (merged_map r)) /\
  collect_merged r = Ok [(bs "a", bs "1"); (bs "c", bs "3"); (bs "d", bs "4")].
Proof.
  cbn zeta. match goal with |- ?P /\ _ => assert P as Hs end.
  { repeat split; repeat constructor. }
  split; [exact Hs|]. split; [by apply merged_range_equiv|]. vm_compute. reflexivity.
Defined.

(** ** The store *)

Section store.
Context (crc32c : bytes -> Z) (sort : list (candidate bytes) -> list (candidate bytes))
  (sort_keys : list (candidate unit) -> list (candidate unit)).

(** The write set of the transaction; [ss_hook]: whether reads are reported. *)
Record SnapshotStore : Type := mkSnapshotStore {
  ss_base : LsmTree; ss_mvcc : MvccMemTable; ss_view : ReadView;
  ss_writes : option (gmap bytes (option bytes)); ss_hook : bool }.

Definition SnapshotStore_new (base : LsmTree) (mvcc : MvccMemTable) (view : ReadView)
    (writes : option (gmap bytes (option bytes))) : SnapshotStore :=
  mkSnapshotStore base mvcc view writes false.
Definition with_read_hook (s : SnapshotStore) : SnapshotStore :=
  mkSnapshotStore (ss_base s) (ss_mvcc s) (ss_view s) (ss_writes s) true.

(** The result, and the keys that were reported to the hook *)
Definition resolve_key (s : SnapshotStore) (key : bytes) : outcome StorageError (option bytes) * list bytes :=
  (match match ss_writes s with Some writes => writes !! key | None => None end with
   | Some op => Ok op
   | None =>
       let? v := MvccMemTable_get (ss_mvcc s) key (ss_view s) in
       match v with
       | Some v => Ok (Some v)
       | None => get_visible crc32c (ss_base s) key (ss_view s)
       end
   end, if ss_hook s then [key] else []).

Definition SnapshotStore_get (s : SnapshotStore) (key : bytes) : outcome StorageError (option bytes) :=
  (resolve_key s key).1.
Definition SnapshotStore_put (s : SnapshotStore) (key value : bytes) : outcome StorageError unit :=
  Err (InvalidInput "SnapshotStore is read-only").
Definition SnapshotStore_delete (s : SnapshotStore) (key : bytes) : outcome StorageError bool :=
  Err (InvalidInput "SnapshotStore is read-only").

(** One entry of the tree in [iter]: a key that is not there yet gets the value the
    view sees or, when the view sees none, the latest one. *)
Definition iter_base_entry (s : SnapshotStore) (merged : gmap bytes bytes) (e : bytes * bytes) : gmap bytes bytes :=
  match merged !! e.1 with
  | Some _ => merged
  | None => <[e.1 := match get_visible crc32c (ss_base s) e.1 (ss_view s) with
                     | Ok (Some vv) => vv
                     | _ => e.2
                     end]> merged
  end.
Definition apply_write (merged : gmap bytes bytes) (w : bytes * option bytes) : gmap bytes bytes :=
  match w.2 with Some v => <[w.1 := v]> merged | None => delete w.1 merged end.

Definition SnapshotStore_iter (s : SnapshotStore) : outcome StorageError (list (bytes * bytes)) :=
  let? rows := MvccMemTable_scan (ss_mvcc s) (ss_view s) in
  let merged := insert_all rows ∅ in
  let? base := LsmTree_iter crc32c sort (ss_base s) in
  let merged := fold_left (iter_base_entry s) base merged in
  let merged := match ss_writes s with
                | Some writes => fold_left apply_write (btree_iter writes) merged
                | None => merged
                end in
  Ok (btree_iter merged).

(** [k >= start && (end.is_empty() || k < end)] *)
Definition in_bounds (start end_ k : bytes) : bool :=
  bytes_leb start k && (bool_decide (end_ = []) || bytes_ltb k end_).

Fixpoint take_while {A} (f : A -> bool) (l : list A) : list A :=
  match l with x :: r => if f x then x :: take_while f r else [] | [] => [] end.

Definition overlay_of {E} (s : SnapshotStore) (start end_ : bytes) : outcome E (list (bytes * option bytes)) :=
  match ss_writes s with
  | None => Ok []
  | Some writes =>
      let? es := btree_range writes (Included start) Unbounded in
      Ok (take_while (fun e : bytes * option bytes => in_bounds start end_ e.1) es)
  end.

(** The items that [range] yields *)
Definition SnapshotStore_range (s : SnapshotStore) (start end_ : bytes)
    : outcome StorageError (list (bytes * bytes)) :=
  let? overlay := overlay_of s start end_ in
  let? mvcc := MvccMemTable_scan_range (ss_mvcc s) (ss_view s) start end_ in
  let? base := range_visible crc32c sort (ss_base s) start end_ (ss_view s) in
  map_err (fun _ => InvalidInput "") (collect_merged (mkMergedRange overlay mvcc base)).

Definition no_value {A} (k : bytes) : bytes * list A := (k, []).

Definition SnapshotStore_range_keys (s : SnapshotStore) (start end_ : bytes) : outcome StorageError (list bytes) :=
  let? overlay := overlay_of s start end_ in
  let overlay := map (fun e : bytes * option bytes => (e.1, match e.2 with Some _ => Some [] | None => None end)) overlay in
  let? mvcc := MvccMemTable_scan_range_keys (ss_mvcc s) (ss_view s) start end_ in
  let? base := range_visible_keys crc32c sort_keys (ss_base s) start end_ (ss_view s) in
  let? items := map_err (fun _ => InvalidInput "")
                  (collect_merged (mkMergedRange overlay (map no_value mvcc) (map no_value base))) in
  Ok (map fst items).
End store.

(** ** What a range scan returns *)

Lemma take_while_sorted {A} start end_ (l : list (bytes * A)) :
  StronglySorted entry_lt l -> Forall (fun e => bytes_le start e.1) l ->
  take_while (fun e : bytes * A => in_bounds start end_ e.1) l = filter (fun e => in_bounds start end_ e.1 = true) l.
Proof.
  intros Hs Hl. induction Hs as [|e l Hs IH Hall]; [done|]. apply Forall_cons in Hl as [He Hl]. cbn [take_while].
  destruct (in_bounds start end_ e.1) eqn:E; [by rewrite filter_cons_True, IH|].
  rewrite filter_cons_False by congruence. symmetry.
  assert (forall x, x ∈ l -> in_bounds start end_ x.1 = true -> False) as Hno.
  { intros x Hx Hin. unfold in_bounds in *. rewrite Forall_forall in Hall. specialize (Hall x Hx).
    apply andb_true_iff in Hin as [_ Hin]. rewrite He in E. cbn [andb] in E.
    apply orb_false_iff in E as [E1 E2]. rewrite E1 in Hin. cbn [orb] in Hin.
    assert (bytes_lt e.1 end_) as Hlt by (by eapply bytes_lt_trans). congruence. }
  destruct (filter _ l) as [|x r] eqn:Ef; [done|]. exfalso.
  assert (x ∈ filter (fun e : bytes * A => in_bounds start end_ e.1 = true) l) as Hx by (rewrite Ef; by left).
  apply list_elem_of_filter in Hx as [Hb Hx]. by eapply Hno.
Qed.

Lemma overlay_spec {E} s start end_ :
  exists o, overlay_of (E:=E) s start end_ = Ok o /\ StronglySorted entry_lt o /\
    forall k op, (k, op) ∈ o <->
      in_bounds start end_ k = true /\ match ss_writes s with Some w => w !! k = Some op | None => False end.
Proof.
  unfold overlay_of. destruct (ss_writes s) as [w|].
  - destruct (btree_range_total (E:=E) w (Included start) Unbounded eq_refl) as [es Hes]. rewrite Hes. cbn [obind].
    destruct (btree_range_ok w _ _ es Hes) as [Hs Hin]. eexists. split; [done|].
    assert (Forall (fun e => bytes_le start e.1) es) as Hge.
    { apply Forall_forall. intros [k v] Hk. apply Hin in Hk as (_ & Hk & _). exact Hk. }
    rewrite (take_while_sorted start end_ es Hs Hge). split; [by apply StronglySorted_filter|].
    intros k op. rewrite list_elem_of_filter, Hin. cbn [fst]. unfold in_bounds. split; [tauto|].
    intros [Hb Hw]. split; [done|]. split; [done|]. split; [|done]. apply andb_true_iff in Hb as [Hb _]. exact Hb.
  - exists []. split; [done|]. split; [constructor|]. intros k op. rewrite elem_of_nil. tauto.
Qed.

Lemma sorted_map_lookup {A} (l : list (bytes * A)) k v :
  StronglySorted entry_lt l -> (list_to_map l : gmap bytes A) !! k = Some v <-> (k, v) ∈ l.
Proof.
  intros Hs. symmetry. apply elem_of_list_to_map. induction Hs as [|e l Hs IH Hall]; [constructor|]. cbn. constructor; [|done].
  intros Hin. apply list_elem_of_fmap in Hin as (e' & Ee & Hin). rewrite Forall_forall in Hall. specialize (Hall e' Hin).
  unfold entry_lt in Hall. rewrite <- Ee in Hall. by apply klt_irrefl in Hall.
Qed.

(** The write of the snapshot's own transaction to a key. *)
Definition own_write (s : SnapshotStore) (k : bytes) : option (option bytes) :=
  match ss_writes s with Some w => w !! k | None => None end.

(** The three sources of a range scan and their order of precedence. *)
Lemma snapshot_range_merge crc32c sort s ms start end_ :
  sorts sort -> mem_wf (l_active (ss_base s)) ->
  tables crc32c (l_sst (ss_base s)) (l_level1 (ss_base s) ++ l_level0 (ss_base s)) ms ->
  end_ <> [] -> bytes_le start end_ ->
  exists mvcc cs base out,
    newest_per_key (scan_candidate (fun v => v) (mem_map (l_active (ss_base s)) :: ms) (ss_view s) start end_) cs /\
    base = live_pairs cs /\
    MvccMemTable_scan_range (E:=StorageError) (ss_mvcc s) (ss_view s) start end_ = Ok mvcc /\
    range_visible crc32c sort (ss_base s) start end_ (ss_view s) = Ok base /\
    SnapshotStore_range crc32c sort s start end_ = Ok out /\
    StronglySorted entry_lt out /\
    forall k v, (k, v) ∈ out <->
      match (if in_bounds start end_ k then own_write s k else None) with
      | Some op => op = Some v
      | None => (k, v) ∈ mvcc \/ (forall v', (k, v') ∉ mvcc) /\ (k, v) ∈ base
      end.
Proof.
  intros Hsort Hwf Ht He Hse.
  destruct (overlay_spec (E:=StorageError) s start end_) as (o & Ho & Hso & Hino).
  assert (exists mvcc, MvccMemTable_scan_range (E:=StorageError) (ss_mvcc s) (ss_view s) start end_ = Ok mvcc /\
    StronglySorted entry_lt mvcc) as (mvcc & Hm & Hsm).
  { unfold MvccMemTable_scan_range, latest_in_range, range_guard. rewrite bool_decide_eq_false_2 by done.
    destruct (btree_range_total (E:=StorageError) (mt_data (ss_mvcc s)) (Included start) (Excluded (end_ ++ replicate 9 xff))) as [es Hes].
    { apply range_incl_excl_ok. eapply bytes_le_trans; [done|apply bytes_le_app]. }
    rewrite Hes. cbn [obind]. eexists. split; [done|]. apply live_entries_spec. }
  destruct (scan_newest crc32c (fun v => v) sort Hsort (ss_base s) ms (ss_view s) start end_ Hwf Ht He Hse)
    as (cs & Hcs & Hn). pose proof (proj1 Hn) as Hsc.
  set (base := live_pairs cs). assert (range_visible crc32c sort (ss_base s) start end_ (ss_view s) = Ok base) as Hb.
  { unfold range_visible. by rewrite Hcs. }
  set (r := mkMergedRange o mvcc base). assert (merged_sorted r) as Hr by (split; [done|split; [done|by apply live_pairs_sorted]]).
  exists mvcc, cs, base, (btree_iter (merged_map r)). split; [done|]. split; [done|]. split; [done|]. split; [done|]. split; [|split; [apply btree_iter_sorted|]].
  - unfold SnapshotStore_range. rewrite Ho, Hm, Hb. cbn [obind]. unfold collect_merged. by rewrite merged_items_spec by (done || lia).
  - intros k v. unfold own_write. rewrite elem_of_btree_iter, merged_lookup. cbn [r mr_overlay mr_mvcc mr_base].
    pose proof (sorted_map_lookup o k) as Lo. pose proof (sorted_map_lookup mvcc k) as Lm.
    pose proof (fun x => sorted_map_lookup base k x (live_pairs_sorted cs Hsc)) as Lb.
    destruct ((list_to_map o : gmap bytes (option bytes)) !! k) as [op|] eqn:Eo.
    + assert ((k, op) ∈ o) as [Hbk Hw]%Hino by (by apply Lo). rewrite Hbk. destruct (ss_writes s) as [w|]; [|done].
      by rewrite Hw.
    + assert ((if in_bounds start end_ k then match ss_writes s with Some w => w !! k | None => None end else None) = None) as ->.
      { destruct (in_bounds start end_ k) eqn:Hbk; [|done]. destruct (ss_writes s) as [w|] eqn:Ew; [|done].
        destruct (w !! k) as [op|] eqn:Ewk; [|done]. assert ((k, op) ∈ o) as Hin by (by apply Hino).
        apply Lo in Hin; [|done]. congruence. }
      destruct ((list_to_map mvcc : gmap bytes bytes) !! k) as [x|] eqn:Em.
      * assert ((k, x) ∈ mvcc) as Hx by (by apply Lm). split; [intros [= <-]; by left|].
        intros [Hv|[Hno _]]; [|by destruct (Hno x)]. apply Lm in Hv; [|done]. congruence.
      * rewrite Lb. split; [|intros [Hv|[_ ?]]; [apply Lm in Hv; [congruence|done]|done]].
        intros Hv. right. split; [|done]. intros v' Hin. apply Lm in Hin; [congruence|done].
Qed.

(** The versions the table in memory shows a scan of an interval: all those of a key that
    is not a proper prefix of the interval's end. *)
Lemma scan_range_window (t : MvccMemTable) (view : ReadView) start end_ mvcc k :
  mt_wf t -> end_ <> [] -> bytes_le start k -> bytes_lt k end_ ->
  (forall r, end_ <> k ++ r) \/ is_newest t view (of_key k) None ->
  MvccMemTable_scan_range (E:=StorageError) t view start end_ = Ok mvcc ->
  exists nv, is_newest t view (of_key k) nv /\ forall x, (k, x) ∈ mvcc <-> live_value nv = Some x.
Proof.
  intros Hwf He Hlo Hhi Hk. unfold MvccMemTable_scan_range, latest_in_range, range_guard. rewrite bool_decide_false by done.
  destruct (btree_range _ _ _) as [l|e|] eqn:Hr; cbn [obind]; [|done..]. intros [= <-]. apply btree_range_ok in Hr as [_ Hl].
  destruct (live_entries_spec (fold_left (latest_step view (mt_intents t) start end_) l ∅)) as [_ Hm].
  set (nv := newest_visible view (mt_intents t) (filter (fun e => of_key k e.1) l)).
  assert (MvccMemTable.in_window start end_ k = true) as Hw.
  { unfold MvccMemTable.in_window. rewrite bool_decide_false by done. cbn [negb andb]. by rewrite bytes_ltb_leb, (bytes_leb_ltb end_), Hlo, Hhi. }
  assert (forall x, (k, x) ∈ map (fun e : bytes * Version => (e.1, v_value e.2))
    (live_entries (fold_left (latest_step view (mt_intents t) start end_) l ∅)) <-> live_value nv = Some x) as Hx.
  { intros x. rewrite Hm. setoid_rewrite latest_fold_lookup. rewrite Hw. fold nv. destruct nv as [v|]; [|naive_solver].
    split; [intros (v' & [= <-] & E); exact E|intros E; by exists v]. }
  exists nv. split; [|exact Hx]. destruct Hk as [Hk|Hk].
  - apply (newest_of_key t view _ l k Hl). intros ik v Hd Hik. destruct (of_key_prefix t k ik v Hwf Hd Hik) as [s ->].
    split; [eapply bytes_le_trans; [exact Hlo|apply bytes_le_app]|].
    eapply bytes_lt_le_trans; [apply bytes_lt_app_l; [exact Hhi|exact Hk]|apply bytes_le_app].
  - replace nv with (None : option Version); [done|]. subst nv.
    pose proof (newest_visible_spec view (mt_intents t) (filter (fun e => of_key k e.1) l)) as Hn.
    destruct (newest_visible _ _ _) as [v|]; [|done]. destruct Hn as [[ik [Hin Hv]] _]. exfalso.
    apply list_elem_of_filter in Hin as [Hof Hin]. apply Hl in Hin as [Hd _]. by apply (Hk ik v).
Qed.

Lemma scan_range_bounds (t : MvccMemTable) (view : ReadView) start end_ mvcc k x : end_ <> [] ->
  MvccMemTable_scan_range (E:=StorageError) t view start end_ = Ok mvcc -> (k, x) ∈ mvcc -> bytes_le start k /\ bytes_lt k end_.
Proof.
  intros He. unfold MvccMemTable_scan_range, latest_in_range. destruct (btree_range _ _ _) as [l|e|]; cbn [obind]; [|done..].
  intros [= <-] Hin. apply (proj2 (live_entries_spec _)) in Hin as (v & Hv & _). rewrite latest_fold_lookup in Hv.
  destruct (MvccMemTable.in_window start end_ k) eqn:Hw; [|done]. unfold MvccMemTable.in_window in Hw. rewrite bool_decide_false in Hw by done.
  cbn [negb andb] in Hw. by rewrite bytes_ltb_leb, (bytes_leb_ltb end_), negb_orb, !negb_involutive, andb_true_iff in Hw.
Qed.

(** The candidates [all] of an LSM scan read as [o] at [k]: the value of a newest candidate
    of [k] that is not a tombstone; nothing if there is none or if it is a tombstone. *)
Definition stored_read (all : candidate bytes -> Prop) (k : bytes) (o : option bytes) : Prop :=
  match o with
  | Some v => exists ts, all (k, ts, false, v) /\ forall c, all c -> c_user c = k -> c_ts c <= ts
  | None => (forall c, all c -> c_user c <> k) \/
      exists ts v, all (k, ts, true, v) /\ forall c, all c -> c_user c = k -> c_ts c <= ts
  end.

(** What a snapshot reads at [k]: the transaction's own write, else the newest version of
    the table in memory that the view sees, if it is live, else the LSM tree. *)
Definition snapshot_reads (s : SnapshotStore) (all : candidate bytes -> Prop) (k : bytes) (o : option bytes) : Prop :=
  match own_write s k with
  | Some op => o = op
  | None => exists nv, is_newest (ss_mvcc s) (ss_view s) (of_key k) nv /\
      match live_value nv with Some x => o = Some x | None => stored_read all k o end
  end.

Lemma newest_stored_read all cs k o : newest_per_key all cs ->
  (forall v, (k, v) ∈ live_pairs cs <-> o = Some v) -> stored_read all k o.
Proof.
  intros (_ & Hmax & Hall) Ho. assert (forall v, (k, v) ∈ live_pairs cs <-> exists ts, (k, ts, false, v) ∈ cs) as Hlive.
  { intros v. unfold live_pairs. rewrite list_elem_of_omap. split.
    - intros ([[[k' ts] [|]] v'] & Hin & E); [done|]. injection E as -> ->. by exists ts.
    - intros [ts Hin]. by exists (k, ts, false, v). }
  destruct o as [v|]; cbn [stored_read].
  - destruct (proj1 (Hlive v)) as [ts Hin]; [by apply Ho|]. exists ts. destruct (Hmax _ Hin) as [Ha Hm]. split; [exact Ha|].
    intros c Hc Hk. by apply Hm.
  - destruct (decide (k ∈ map c_user cs)) as [Hin|Hno].
    + apply list_elem_of_fmap in Hin as ([[[k' ts] d] v] & -> & Hin). right. destruct d.
      * exists ts, v. destruct (Hmax _ Hin) as [Ha Hm]. split; [exact Ha|]. intros c Hc Hk. by apply Hm.
      * assert (None = Some v) as E; [|done]. apply Ho, Hlive. by exists ts.
    + left. intros c Hc Hk. destruct (Hall c Hc) as (c' & Hin & Hu). apply Hno. apply list_elem_of_fmap. exists c'. by rewrite Hu.
Qed.

(** C16. A range scan of a snapshot, over a range that has an end and is not upside down,
    returns keys of the range only, in ascending order, and what it returns for a key is
    what the snapshot reads there: the write of the transaction if it has one (nothing if
    that is a delete), else the newest version of the table in memory that the view
    sees, else, where that table shows no version or a tombstone, the newest version of
    the LSM tree (its memtable and its table files) that is committed and not later than
    the snapshot, nothing if that one is a tombstone.  So a tombstone of the table in
    memory does not hide a version of the LSM tree.  Of the versions of one key with equal
    timestamps in the LSM tree any may count as the newest.  Excluded are the keys of the
    table in memory that are proper prefixes of the range's end, which the scan misses
    (scan_range_misses_prefix_of_end). *)
Theorem snapshot_range_spec crc32c sort s ms start end_ :
  sorts sort -> mem_wf (l_active (ss_base s)) -> mt_wf (ss_mvcc s) ->
  tables crc32c (l_sst (ss_base s)) (l_level1 (ss_base s) ++ l_level0 (ss_base s)) ms ->
  end_ <> [] -> bytes_le start end_ ->
  let stored := scan_candidate (fun v => v) (mem_map (l_active (ss_base s)) :: ms) (ss_view s) start end_ in
  exists out, SnapshotStore_range crc32c sort s start end_ = Ok out /\
    StronglySorted entry_lt out /\
    (forall k v, (k, v) ∈ out -> bytes_le start k /\ bytes_lt k end_) /\
    forall k, bytes_le start k -> bytes_lt k end_ ->
      (forall r, end_ <> k ++ r) \/ is_newest (ss_mvcc s) (ss_view s) (of_key k) None ->
      snapshot_reads s stored k ((list_to_map out : gmap bytes bytes) !! k).
Proof.
  intros Hsort Hwf Hmt Ht He Hse stored.
  destruct (snapshot_range_merge crc32c sort s ms start end_ Hsort Hwf Ht He Hse)
    as (mvcc & cs & base & out & Hcs & -> & Hm & _ & Ho & Hs & Hin).
  exists out. split; [exact Ho|]. split; [exact Hs|]. split.
  - intros k v Hv. apply Hin in Hv. destruct (in_bounds start end_ k) eqn:Hb.
    + unfold in_bounds in Hb. rewrite bool_decide_false in Hb by done. by apply andb_true_iff in Hb.
    + destruct Hv as [Hv|[_ Hv]]; [by eapply scan_range_bounds|].
      destruct (live_pairs_candidate _ _ _ _ Hcs Hv) as (ts & m & ik & raw & user & ts' & d & v' & _ & _ & _ & Hlo & Hhi & _ & _ & E).
      by injection E as -> _ _ _.
  - intros k Hlo Hhi Hk. destruct (scan_range_window _ _ _ _ _ _ Hmt He Hlo Hhi Hk Hm) as (nv & Hnv & Hx).
    set (o := (list_to_map out : gmap bytes bytes) !! k).
    assert (forall v, o = Some v <-> (k, v) ∈ out) as Hov by (intros v; by apply sorted_map_lookup).
    unfold snapshot_reads.
    assert (in_bounds start end_ k = true) as Hb by (unfold in_bounds; by rewrite Hlo, Hhi, orb_true_r).
    setoid_rewrite Hin in Hov. rewrite Hb in Hov || setoid_rewrite Hb in Hov.
    destruct (own_write s k) as [op|].
    + destruct o as [v|]; [symmetry; specialize (Hov v)|]; cycle 1.
      * destruct op as [v|]; [|done]. by apply Hov.
      * by apply Hov.
    + exists nv. split; [exact Hnv|].
      destruct (live_value nv) as [x|].
      * apply Hov. left. by apply Hx.
      * apply (newest_stored_read stored cs k o Hcs). intros v. rewrite Hov. split; [intros Hv; right|intros [Hv|[_ Hv]]; [by apply Hx in Hv|done]].
        split; [|done]. intros v' Hv'. by apply Hx in Hv'.
Qed.

(** A store whose transaction deletes [k], adds [m]; [j] is in the version table. *)
Definition demo_store : SnapshotStore :=
  mkSnapshotStore demo_scan_tree (MvccMemTable_put MvccMemTable_new (bs "j") (bs "1") 3) (ReadView_new 9 8 ∅)
    (Some (<[bs "k" := None]> {[bs "m" := Some (bs "2")]})) false.

Lemma demo_store_mt_wf : mt_wf (ss_mvcc demo_store).
Proof. cbn [ss_mvcc demo_store]. rewrite put_write. apply mt_wf_write; [cbn; lia|apply mt_wf_new]. Qed.

Lemma snapshot_range_spec_witness :
  exists out, SnapshotStore_range crc32 stable_sort demo_store (bs "a") (bs "z") = Ok out /\
    out = [(bs "j", bs "1"); (bs "m", bs "2")] /\
    snapshot_reads demo_store
      (scan_candidate (fun v => v) [mem_map (l_active demo_scan_tree); mem_map old_table; mem_map new_table]
         (ss_view demo_store) (bs "a") (bs "z")) (bs "j") ((list_to_map out : gmap bytes bytes) !! bs "j").
Proof.
  destruct (snapshot_range_spec crc32 stable_sort demo_store [mem_map old_table; mem_map new_table] (bs "a") (bs "z"))
    as (out & Eo & _ & _ & Hin).
  - apply stable_sort_sorts.
  - split; reflexivity.
  - exact demo_store_mt_wf.
  - apply demo_tables.
  - discriminate.
  - reflexivity.
  - exists out. split; [exact Eo|]. split; [vm_compute in Eo; by injection Eo as <-|].
    apply Hin; [reflexivity|reflexivity|left; intros r; discriminate].
Defined.

(** [iter] ignores the view for keys of the LSM tree: it lists a value that was
    committed after the snapshot, which [get] and [range] do not see. *)
Theorem snapshot_iter_shows_invisible :
  on_fresh tiny_config (put_version crc32 demo_sizing (bs "q") (mkVersion 7 (bs "new") false))
    (fun _ l =>
       let s := SnapshotStore_new l MvccMemTable_new (ReadView_new 9 5 ∅) None in
       let? got := SnapshotStore_get crc32 s (bs "q") in
       let? ranged := SnapshotStore_range crc32 stable_sort s (bs "a") (bs "z") in
       let? listed := SnapshotStore_iter crc32 stable_sort s in
       Ok (got, ranged, listed)) =
  Ok (None, [], [(bs "q", bs "new")]).
Proof. vm_compute. reflexivity. Qed.
