(* ===== verification/Value.v ===== *)
(** * Runtime values (crates/noedb-planner/src/value.rs and the errors of lib.rs)

    The cells of a row, their bytes as index and join keys, and equality with
    SQL's NULL.  Doubles are those of [Float64]; single precision is the same
    format with 24 bits.  The sign and payload of a NaN are not modelled. *)

From S2P Require Import Prelude Text Float64 Tokens Ast Display Utf8 StorageError.

(** ** What the evaluator takes from its build and from std

    Integer overflow panics where the build checks it and wraps otherwise; the
    Unicode case tables and the shortest decimal form of a float are std's. *)
Class ExecEnv : Type := {
  overflow_checks : bool;
  to_uppercase : bytes -> bytes;
  to_lowercase : bytes -> bytes;
  exec_float_text :: FloatText;
  show_f32 : f64 -> bytes }.

(** [z] as a signed [w]-bit integer *)
Definition wrap_signed (w z : Z) : Z := wrap w (z + 2 ^ (w - 1)) - 2 ^ (w - 1).
Definition in_signed (w z : Z) : bool := (- 2 ^ (w - 1) <=? z) && (z <? 2 ^ (w - 1)).

Definition signed_result `{ExecEnv} {E} (w z : Z) : outcome E Z :=
  if in_signed w z then Ok z else if overflow_checks then Panic else Ok (wrap_signed w z).

(** ** Float formats *)

(** [to_bits] of a float of [prec] bits and [w] bits in all *)
Definition float_bits (prec w : Z) (f : f64) : Z :=
  let sign (s : bool) := if s then 2 ^ (w - 1) else 0 in
  let top := 2 ^ (w - 1) - 2 ^ (prec - 1) in
  match f with
  | S754_zero s => sign s
  | S754_infinity s => sign s + top
  | S754_nan => top + 2 ^ (prec - 2)
  | S754_finite s m e =>
      sign s +
      (if Z.pos m <? 2 ^ (prec - 1) then Z.pos m
       else (e - (3 - 2 ^ (w - prec - 1) - prec) + 1) * 2 ^ (prec - 1) + (Z.pos m - 2 ^ (prec - 1)))
  end.

Definition float_of_bits (prec w z : Z) : f64 :=
  let s := 2 ^ (w - 1) <=? z in
  let r := z mod 2 ^ (w - 1) in
  let e := r / 2 ^ (prec - 1) in
  let m := r mod 2 ^ (prec - 1) in
  let emin := 3 - 2 ^ (w - prec - 1) - prec in
  if e =? 2 ^ (w - prec) - 1 then if m =? 0 then S754_infinity s else S754_nan
  else if e =? 0 then match m with Z.pos p => S754_finite s p emin | _ => S754_zero s end
  else match m + 2 ^ (prec - 1) with Z.pos p => S754_finite s p (emin + e - 1) | _ => S754_zero s end.

Definition f64_be_bytes (f : f64) : bytes := be_bytes 8 (float_bits 53 64 f).
Definition f32_le_bytes (f : f64) : bytes := le_bytes 4 (float_bits 24 32 f).

(** [f64::from(f32)], which is exact *)
Definition f64_of_f32 (f : f64) : f64 :=
  match f with
  | S754_finite s m e => binary_normalize 53 1024 (if s then Z.neg m else Z.pos m) e s
  | _ => f
  end.

Example float_bits_samples :
  (float_bits 53 64 (f64_of_Z 1), float_bits 53 64 (S754_finite true 1 (-1074)), float_bits 53 64 (S754_infinity true),
   float_bits 24 32 (SFdiv 24 128 (binary_normalize 24 128 1 0 false) (binary_normalize 24 128 3 0 false))) =
  (0x3FF0000000000000, 0x8000000000000001, 0xFFF0000000000000, 0x3EAAAAAB) /\
  float_of_bits 24 32 0x3EAAAAAB =
    SFdiv 24 128 (binary_normalize 24 128 1 0 false) (binary_normalize 24 128 3 0 false) /\
  float_of_bits 53 64 0x8000000000000001 = S754_finite true 1 (-1074).
Proof. vm_compute. auto. Qed.

(** ** [str::parse] for floats and [i64] *)

Definition eq_ignore_case (a b : bytes) : bool := bool_decide (to_lower a = to_lower b).

(** The value of [m * 10 ^ e] in the format *)
Definition of_decimal (prec emax m e : Z) : f64 :=
  match m with
  | Z.pos _ =>
      if 0 <=? e then binary_normalize prec emax (m * 10 ^ e) 0 false
      else let '(mz, ez, lz) := SFdiv_core_binary prec emax m 0 (10 ^ (- e)) 0 in
           binary_round_aux prec emax false mz ez lz
  | _ => S754_zero false
  end.

(** Digits with an optional fraction and exponent *)
Definition parse_decimal (prec emax : Z) (s : bytes) : option f64 :=
  let '(ip, r1) := take_digits s in
  let '(fp, r2) := match r1 with x2e :: r => take_digits r | _ => ([], r1) end in
  match ip ++ fp with
  | [] => None
  | ds =>
      let done e := Some (of_decimal prec emax (digits_val ds) (e - len fp)) in
      match r2 with
      | [] => done 0
      | (x65 | x45) :: r =>
          let '(sign, r') := match r with
                             | x2d :: r' => (-1, r')
                             | x2b :: r' => (1, r')
                             | _ => (1, r)
                             end in
          match take_digits r' with
          | ((_ :: _) as ex, []) => done (sign * digits_val ex)
          | _ => None
          end
      | _ => None
      end
  end.

Definition parse_float (prec emax : Z) (s : bytes) : option f64 :=
  let '(neg, r) := match s with
                   | x2d :: r => (true, r)
                   | x2b :: r => (false, r)
                   | _ => (false, s)
                   end in
  let v := if eq_ignore_case r (bs "inf") || eq_ignore_case r (bs "infinity") then Some (S754_infinity false)
           else if eq_ignore_case r (bs "nan") then Some S754_nan
           else parse_decimal prec emax r in
  option_map (fun f => if neg : bool then SFopp f else f) v.

Definition parse_f64_str : bytes -> option f64 := parse_float 53 1024.
Definition parse_f32_str : bytes -> option f64 := parse_float 24 128.

Definition parse_i64 (s : bytes) : option Z :=
  let '(neg, ds) := match s with
                    | x2d :: r => (true, r)
                    | x2b :: r => (false, r)
                    | _ => (false, s)
                    end in
  match ds with
  | [] => None
  | _ =>
      let n := if neg : bool then - digits_val ds else digits_val ds in
      if forallb is_ascii_digit ds && in_signed 64 n then Some n else None
  end.

Example parse_samples :
  (parse_f64_str (bs "-1.5e1"), parse_f64_str (bs "+Inf"), parse_f64_str (bs "nAn"), parse_f64_str (bs "1 "),
   parse_f32_str (bs "0.5")) =
  (Some (f64_of_Z (-15)), Some (S754_infinity false), Some S754_nan, None, Some (S754_finite false 8388608 (-24))) /\
  (parse_i64 (bs "-9223372036854775808"), parse_i64 (bs "9223372036854775808"), parse_i64 (bs "-"), parse_i64 (bs "+7")) =
  (Some i64_min, None, None, Some 7).
Proof. vm_compute. auto. Qed.

(** ** Values *)

Inductive Value : Type :=
| VNull
| VInteger (n : Z)
| VFloat (f : f64)
| VBytes (b : bytes)
| VBool (b : bool)
| VDate (b : bytes)
| VTimestamp (ts : Z)
| VVector (v : list f64).
#[global] Instance Value_eq_dec : EqDecision Value.
Proof. solve_decision. Defined.

Definition parse_bytes_as_f64 (b : bytes) : option f64 :=
  match from_utf8 b with Some s => parse_f64_str (trim s) | None => None end.

Definition as_bytes (v : Value) : bytes :=
  match v with
  | VNull => []
  | VInteger n => be_bytes 8 n
  | VFloat f => f64_be_bytes f
  | VBool b => [if b then x01 else x00]
  | VBytes b => b
  | VDate b => b
  | VTimestamp ts => be_bytes 8 ts
  | VVector v => bs "NDV1" ++ concat (map f32_le_bytes v)
  end.

Fixpoint f32s_eqb (a b : list f64) : bool :=
  match a, b with
  | [], [] => true
  | x :: a', y :: b' => SFeqb x y && f32s_eqb a' b'
  | _, _ => false
  end.

(** [None] is SQL's UNKNOWN. *)
Definition sql_eq (l r : Value) : option bool :=
  match l, r with
  | VNull, VNull => Some true
  | VNull, _ | _, VNull => None
  | VInteger a, VInteger b => Some (a =? b)
  | VFloat a, VFloat b => Some (SFeqb a b)
  | VBool a, VBool b => Some (bool_decide (a = b))
  | VBool a, VBytes [b] => Some (bool_decide (a = negb (b2z b =? 0)))
  | VBytes [b], VBool a => Some (bool_decide (a = negb (b2z b =? 0)))
  | VBytes a, VBytes b => Some (bool_decide (a = b))
  | VDate a, VDate b => Some (bool_decide (a = b))
  | VTimestamp a, VTimestamp b => Some (a =? b)
  | VVector a, VVector b => Some (f32s_eqb a b)
  | VInteger a, VFloat b => Some (SFeqb (f64_of_Z a) b)
  | VFloat a, VInteger b => Some (SFeqb a (f64_of_Z b))
  | VBytes a, VInteger b => option_map (fun x => SFeqb x (f64_of_Z b)) (parse_bytes_as_f64 a)
  | VInteger a, VBytes b => option_map (fun x => SFeqb (f64_of_Z a) x) (parse_bytes_as_f64 b)
  | VBytes a, VFloat b => option_map (fun x => SFeqb x b) (parse_bytes_as_f64 a)
  | VFloat a, VBytes b => option_map (fun x => SFeqb a x) (parse_bytes_as_f64 b)
  | _, _ => Some false
  end.

(** A row: column names with values; [Record] wraps one. *)
Abbreviation RowMap := (list (bytes * Value)).
Record Record_ : Type := mkRecord { rec_fields : RowMap }.
Definition cells (r : Record_) : list Value := map snd (rec_fields r).

(** ** Errors *)

Inductive PlanError : Type := UnsupportedStatement | UnknownTable (name : bytes) | MissingSchema.

(** A message is its text with the values and strings it formats. *)
Inductive ExecError : Type :=
| UnsupportedExpr
| UnsupportedOperator
| UnknownColumn (name : bytes)
| TypeMismatch (text : bytes) (values : list Value) (strings : list bytes)
| ExecPlan (e : PlanError)
| ExecStorage (e : StorageError).

Definition type_err {A} (text : string) : outcome ExecError A := Err (TypeMismatch (bs text) [] []).
