(* ===== verification/Cast.v ===== *)
(** * CAST (crates/noedb-planner/src/cast.rs)

    Conversions between runtime values, and the calendar behind DATE. *)

From S2P Require Import Prelude Text Float64 Tokens Ast Display Utf8 StorageError Value.

(** [collect::<Result<Vec<_>, _>>()]: the first error wins. *)
Fixpoint traverse {E A B} (f : A -> outcome E B) (l : list A) : outcome E (list B) :=
  match l with
  | [] => Ok []
  | x :: l' => let? y := f x in let? ys := traverse f l' in Ok (y :: ys)
  end.

Fixpoint skip_byte (b : byte) (s : bytes) : bytes :=
  match s with c :: r => if bool_decide (c = b) then skip_byte b r else s | [] => [] end.

(** [s.trim().trim_start_matches('[').trim_end_matches(']')] *)
Definition strip_brackets (s : bytes) : bytes :=
  rev (skip_byte x5d (rev (skip_byte x5b (trim s)))).

(** [split(',').map(str::trim).filter(|p| !p.is_empty())] *)
Definition comma_parts (s : bytes) : list bytes := filter (fun p => p <> []) (map trim (split_at x2c s)).

(** ** Dates *)

Definition is_leap (y : Z) : bool :=
  (Z.rem y 4 =? 0) && negb (Z.rem y 100 =? 0) || (Z.rem y 400 =? 0).

Definition month_days (y : Z) : list Z :=
  if is_leap y then [31; 29; 31; 30; 31; 30; 31; 31; 30; 31; 30; 31]
  else [31; 28; 31; 30; 31; 30; 31; 31; 30; 31; 30; 31].

(** [{n:0w}] for a number that is not negative *)
Definition show_padded (w : nat) (n : Z) : bytes :=
  let s := show_Z n in replicate (w - length s) x30 ++ s.

Section cast.
Context `{ExecEnv}.

(** The walk over the years; [fuel] bounds the number of rounds. *)
Fixpoint year_loop (fuel : nat) (days y : Z) : outcome ExecError (Z * Z) :=
  match fuel with
  | O => Panic
  | S fuel' =>
      let diy := if is_leap y then 366 else 365 in
      if days <? diy then Ok (y, days)
      else let? y' := signed_result 32 (y + 1) in year_loop fuel' (days - diy) y'
  end.

Fixpoint month_loop (idx : Z) (mds : list Z) (y days : Z) : Z * Z * Z :=
  match mds with
  | md :: mds' => if days <? md then (y, idx + 1, days + 1) else month_loop (idx + 1) mds' y (days - md)
  | [] => (y, 12, 31)
  end.

Definition epoch_day_to_ymd (days : Z) : outcome ExecError (Z * Z * Z) :=
  let? yd := year_loop (S (Z.to_nat (days / 365))) days 1970 in
  let '(y, d) := yd in Ok (month_loop 0 (month_days y) y d).

(** [UNIX_EPOCH + ts] is in range for every [i64]. *)
Definition timestamp_to_date_bytes (ts : Z) : outcome ExecError bytes :=
  let secs := Z.max ts 0 in
  let? ymd := epoch_day_to_ymd (secs / 86400) in
  let '(y, m, d) := ymd in
  Ok (show_padded 4 y ++ [x2d] ++ show_padded 2 m ++ [x2d] ++ show_padded 2 d).

(** [s.as_bytes()[i]] *)
Definition byte_at (s : bytes) (i : nat) : outcome ExecError byte :=
  match s !! i with Some b => Ok b | None => Panic end.

Definition normalize_date_bytes (b : bytes) : outcome ExecError bytes :=
  match from_utf8 b with
  | None => type_err "invalid UTF-8 for DATE"
  | Some s =>
      let s := trim s in
      let? dashed :=
        if (length s =? 10)%nat then
          let? c := byte_at s 4 in
          if bool_decide (c = x2d) then let? c := byte_at s 7 in Ok (bool_decide (c = x2d)) else Ok false
        else Ok false in
      if dashed : bool then Ok s else type_err "DATE must be YYYY-MM-DD"
  end.

(** ** Text to numbers *)

Definition parse_int_bytes (b : bytes) : outcome ExecError Z :=
  match from_utf8 b with
  | None => type_err "invalid UTF-8 for integer CAST"
  | Some s => match parse_i64 (trim s) with Some n => Ok n | None => type_err "invalid integer literal for CAST" end
  end.

Definition parse_float_bytes (b : bytes) : outcome ExecError f64 :=
  match from_utf8 b with
  | None => type_err "invalid UTF-8 for float CAST"
  | Some s => match parse_f64_str (trim s) with Some f => Ok f | None => type_err "invalid float literal for CAST" end
  end.

Definition parse_bool_bytes (b : bytes) : outcome ExecError bool :=
  match from_utf8 b with
  | None => type_err "invalid UTF-8 for boolean CAST"
  | Some s =>
      let l := to_lower (trim s) in
      if bool_decide (l ∈ [bs "true"; bs "t"; bs "1"; bs "yes"]) then Ok true
      else if bool_decide (l ∈ [bs "false"; bs "f"; bs "0"; bs "no"; bs ""]) then Ok false
      else type_err "invalid boolean literal for CAST"
  end.

Definition parse_timestamp_bytes (b : bytes) : outcome ExecError Z :=
  match from_utf8 b with
  | None => type_err "invalid UTF-8 for TIMESTAMP"
  | Some s =>
      let s := trim s in
      if forallb (fun c => is_ascii_digit c || bool_decide (c = x2d)) s then
        if (length s =? 10)%nat then Ok 0
        else match parse_i64 s with Some n => Ok n | None => type_err "invalid TIMESTAMP literal" end
      else type_err "unsupported TIMESTAMP format"
  end.

Definition parse_vector_literal (b : bytes) (dim : Z) : outcome ExecError (list f64) :=
  match from_utf8 b with
  | None => type_err "invalid UTF-8 for VECTOR"
  | Some s =>
      let? floats := traverse (fun p =>
        match parse_f32_str p with
        | Some f => Ok f
        | None => Err (TypeMismatch (bs "invalid float in VECTOR") [] [p])
        end) (comma_parts (strip_brackets s)) in
      if len floats =? dim then Ok floats
      else Err (TypeMismatch (bs "VECTOR literal elements") [VInteger dim; VInteger (len floats)] [])
  end.

Definition value_to_string (v : Value) : bytes :=
  match v with
  | VNull => bs "NULL"
  | VInteger n => show_Z n
  | VFloat f => f64_to_string f
  | VBool b => bs (if b then "true" else "false")
  | VBytes b => from_utf8_lossy b
  | VDate b => from_utf8_lossy b
  | VTimestamp ts => show_Z ts
  | VVector v => [x5b] ++ sep_by [x2c] (map show_f32 v) ++ [x5d]
  end.

(** ** The conversions; [VNull] is handled by [cast_value], hence [unreachable!]. *)

Definition cast_to_int (v : Value) : outcome ExecError Value :=
  let? n := match v with
            | VInteger n => Ok n
            | VFloat f => Ok (f64_to_i64 f)
            | VBool b => Ok (if b then 1 else 0)
            | VBytes b => parse_int_bytes b
            | VDate b => parse_int_bytes b
            | VTimestamp ts => Ok ts
            | VNull => Panic
            | VVector _ => type_err "cannot CAST VECTOR to INT"
            end in
  Ok (VInteger n).

Definition cast_to_float (v : Value) : outcome ExecError Value :=
  let? f := match v with
            | VInteger n => Ok (f64_of_Z n)
            | VFloat f => Ok f
            | VBool b => Ok (f64_of_Z (if b then 1 else 0))
            | VBytes b => parse_float_bytes b
            | VDate b => parse_float_bytes b
            | VTimestamp ts => Ok (f64_of_Z ts)
            | VNull => Panic
            | VVector _ => type_err "cannot CAST VECTOR to FLOAT"
            end in
  Ok (VFloat f).

Definition cast_to_bool (v : Value) : outcome ExecError Value :=
  let? b := match v with
            | VBool b => Ok b
            | VInteger n => Ok (negb (n =? 0))
            | VFloat f => Ok (negb (SFeqb f (S754_zero false)))
            | VBytes b => parse_bool_bytes b
            | VDate b => Ok (negb (bool_decide (b = [])))
            | VTimestamp ts => Ok (negb (ts =? 0))
            | VNull => Panic
            | VVector _ => type_err "cannot CAST VECTOR to BOOLEAN"
            end in
  Ok (VBool b).

Definition cast_to_date (v : Value) : outcome ExecError Value :=
  let? b := match v with
            | VDate b => normalize_date_bytes b
            | VBytes b => normalize_date_bytes b
            | VTimestamp ts => timestamp_to_date_bytes ts
            | VInteger n => timestamp_to_date_bytes n
            | VFloat f => timestamp_to_date_bytes (f64_to_i64 f)
            | VBool _ => Err (TypeMismatch (bs "cannot CAST boolean to DATE") [v] [])
            | VNull => Panic
            | VVector _ => type_err "cannot CAST VECTOR to DATE"
            end in
  Ok (VDate b).

Definition cast_to_vector (v : Value) (dim : Z) : outcome ExecError Value :=
  let? floats := match v with
                 | VVector v => Ok v
                 | VBytes b => parse_vector_literal b dim
                 | other => Err (TypeMismatch (bs "cannot CAST to VECTOR") [other; VInteger dim] [])
                 end in
  if len floats =? dim then Ok (VVector floats)
  else Err (TypeMismatch (bs "VECTOR elements") [VInteger dim; VInteger (len floats)] []).

Definition cast_to_timestamp (v : Value) : outcome ExecError Value :=
  let? ts := match v with
             | VTimestamp ts => Ok ts
             | VInteger n => Ok n
             | VFloat f => Ok (f64_to_i64 f)
             | VBytes b | VDate b => parse_timestamp_bytes b
             | VBool _ => Err (TypeMismatch (bs "cannot CAST boolean to TIMESTAMP") [v] [])
             | VNull => Panic
             | VVector _ => type_err "cannot CAST VECTOR to TIMESTAMP"
             end in
  Ok (VTimestamp ts).

Definition cast_to_text (v : Value) : outcome ExecError Value := Ok (VBytes (value_to_string v)).

Definition cast_value (v : Value) (ty : SqlType) : outcome ExecError Value :=
  match v with
  | VNull => Ok VNull
  | _ =>
      match ty with
      | TyInt => cast_to_int v
      | TyFloat => cast_to_float v
      | TyBoolean => cast_to_bool v
      | TyVarchar _ | TyText => cast_to_text v
      | TyDate => cast_to_date v
      | TyTimestamp => cast_to_timestamp v
      | TyVector dim => cast_to_vector v dim
      | TyNamed name =>
          let upper := to_upper name in
          if eq_ignore_case name (bs "TEXT") then cast_to_text v
          else if bool_decide (upper ∈ [bs "INT"; bs "INTEGER"; bs "BIGINT"]) then cast_to_int v
          else if bool_decide (upper ∈ [bs "FLOAT"; bs "REAL"; bs "DOUBLE"]) then cast_to_float v
          else if bool_decide (upper ∈ [bs "BOOLEAN"; bs "BOOL"]) then cast_to_bool v
          else if bool_decide (upper = bs "DATE") then cast_to_date v
          else if bool_decide (upper ∈ [bs "TIMESTAMP"; bs "TIMESTAMPTZ"]) then cast_to_timestamp v
          else if bool_decide (upper = bs "VECTOR") then type_err "VECTOR requires VECTOR(n) dimension"
          else Err (TypeMismatch (bs "unsupported CAST target type") [] [name])
      end
  end.
End cast.

(** ** The Gregorian calendar *)

(** Days from 1970-01-01 to January 1 of year [y], in closed form *)
Definition days_before_year (y : Z) : Z :=
  365 * (y - 1970) + ((y - 1) / 4 - (y - 1) / 100 + (y - 1) / 400) - 477.

Definition days_before_month (y m : Z) : Z := fold_right Z.add 0 (take (Z.to_nat (m - 1)) (month_days y)).
Definition civil_days (y m d : Z) : Z := days_before_year y + days_before_month y m + (d - 1).
Definition valid_date (y m d : Z) : Prop :=
  1 <= m /\ exists md, month_days y !! Z.to_nat (m - 1) = Some md /\ 1 <= d <= md.

Definition year_days (y : Z) : Z := if is_leap y then 366 else 365.

Lemma days_before_succ y : 1 <= y -> days_before_year (y + 1) = days_before_year y + year_days y.
Proof.
  intros Hy. unfold days_before_year, year_days, is_leap. rewrite !Z.rem_mod_nonneg by lia.
  replace (y + 1 - 1) with y by lia.
  destruct (y mod 4 =? 0) eqn:E4, (y mod 100 =? 0) eqn:E100, (y mod 400 =? 0) eqn:E400; simpl; bool_to_prop;
    Z.div_mod_to_equations; lia.
Qed.

Lemma days_before_mono y z : 1 <= y -> y <= z -> days_before_year y <= days_before_year z.
Proof.
  intros Hy Hz. replace z with (y + (z - y)) by lia. assert (0 <= z - y) as Hk by lia. revert Hk. generalize (z - y).
  apply natlike_ind; [by rewrite Z.add_0_r|]. intros k Hk IH. replace (y + Z.succ k) with (y + k + 1) by lia.
  rewrite days_before_succ by lia. unfold year_days. case_match; lia.
Qed.

Lemma month_days_total y : fold_right Z.add 0 (month_days y) = year_days y.
Proof. unfold month_days, year_days. by destruct (is_leap y). Qed.

Section dates.
Context `{ExecEnv}.

Lemma year_loop_spec fuel days y :
  0 <= days < 365 * Z.of_nat fuel -> 1970 <= y < 2 ^ 31 ->
  days_before_year y + days < days_before_year (2 ^ 31) ->
  exists y' d, year_loop fuel days y = Ok (y', d) /\ y <= y' < 2 ^ 31 /\ 0 <= d < year_days y' /\
    days_before_year y' + d = days_before_year y + days.
Proof.
  revert days y. induction fuel as [|fuel IH]; intros days y Hd Hy Hmax; [lia|].
  cbn [year_loop]. fold (year_days y). destruct (days <? year_days y) eqn:E; bool_to_prop.
  - exists y, days. split; [done|]. lia.
  - pose proof (days_before_succ y ltac:(lia)) as Hs. assert (365 <= year_days y) by (unfold year_days; case_match; lia).
    assert (y + 1 < 2 ^ 31) as Hlt.
    { destruct (decide (y + 1 = 2 ^ 31)) as [Heq|]; [|lia]. rewrite <- Heq in Hmax. lia. }
    unfold signed_result, in_signed. rewrite (proj2 (Z.leb_le _ _)), (proj2 (Z.ltb_lt _ _)) by lia. cbn [andb obind].
    destruct (IH (days - year_days y) (y + 1)) as (y' & d & -> & Hy' & Hd' & Hsum); [lia..|].
    exists y', d. split; [done|]. lia.
Qed.

Lemma month_loop_spec mds idx y days :
  0 <= days < fold_right Z.add 0 mds -> 0 <= idx ->
  exists i md, mds !! i = Some md /\
    month_loop idx mds y days = (y, idx + Z.of_nat i + 1, days - fold_right Z.add 0 (take i mds) + 1) /\
    0 <= days - fold_right Z.add 0 (take i mds) < md.
Proof.
  revert idx days. induction mds as [|md mds IH]; intros idx days Hd Hi; cbn [fold_right month_loop] in *; [lia|].
  destruct (days <? md) eqn:E; bool_to_prop.
  - exists 0%nat, md. split; [done|]. cbn [take fold_right]. split; [f_equal; [f_equal|]; lia|lia].
  - destruct (IH (idx + 1) (days - md)) as (i & md' & Hl & -> & Hr); [lia..|].
    exists (S i), md'. split; [done|]. cbn [take fold_right]. split; [f_equal; [f_equal|]; lia|lia].
Qed.

Lemma epoch_day_spec days :
  0 <= days < days_before_year (2 ^ 31) ->
  exists y m d, epoch_day_to_ymd days = Ok (y, m, d) /\ 1970 <= y < 2 ^ 31 /\ valid_date y m d /\ civil_days y m d = days.
Proof.
  intros Hd. unfold epoch_day_to_ymd.
  destruct (year_loop_spec (S (Z.to_nat (days / 365))) days 1970) as (y & r & -> & Hy & Hr & Hsum).
  - rewrite Nat2Z.inj_succ, Z2Nat.id by (Z.div_mod_to_equations; lia). Z.div_mod_to_equations. lia.
  - lia.
  - exact (proj2 Hd).
  - cbn [obind]. rewrite <- month_days_total in Hr.
    destruct (month_loop_spec (month_days y) 0 y r Hr ltac:(lia)) as (i & md & Hi & -> & Hd').
    eexists y, _, _. split; [done|]. split; [lia|]. unfold valid_date, civil_days, days_before_month.
    replace (0 + Z.of_nat i + 1 - 1) with (Z.of_nat i) by lia. rewrite Nat2Z.id.
    change (days_before_year 1970) with 0 in Hsum. split; [split; [lia|]|lia]. exists md. split; [done|]. lia.
Qed.
End dates.

(** ** A day has one date *)

Lemma month_prefix_le mds i : Forall (fun md => 0 < md) mds ->
  fold_right Z.add 0 (take i mds) <= fold_right Z.add 0 mds.
Proof.
  intros Hall. revert i. induction Hall as [|md mds Hmd Hall IH]; intros [|i]; cbn [take fold_right]; try lia.
  - specialize (IH 0%nat). rewrite take_0 in IH. cbn [fold_right] in IH. lia.
  - specialize (IH i). lia.
Qed.

Lemma prefix_sum_step (mds : list Z) i md :
  mds !! i = Some md -> fold_right Z.add 0 (take (S i) mds) = fold_right Z.add 0 (take i mds) + md.
Proof.
  revert i. induction mds as [|x mds IH]; intros [|i] E; simplify_eq/=; [lia|]. rewrite (IH i E). lia.
Qed.

Lemma prefix_sum_mono mds i j : Forall (fun md => 0 < md) mds -> (i <= j)%nat ->
  fold_right Z.add 0 (take i mds) <= fold_right Z.add 0 (take j mds).
Proof.
  intros Hall Hij. replace (take i mds) with (take i (take j mds)) by (rewrite take_take; f_equal; lia). apply month_prefix_le. by apply Forall_take.
Qed.

Lemma month_days_pos y : Forall (fun md => 0 < md) (month_days y).
Proof. unfold month_days. destruct (is_leap y); repeat constructor. Qed.

Lemma day_of_year y m d : valid_date y m d -> 0 <= days_before_month y m + (d - 1) < year_days y.
Proof.
  intros (Hm & md & E & Hd). unfold days_before_month. rewrite <- month_days_total.
  pose proof (prefix_sum_mono _ 0 (Z.to_nat (m - 1)) (month_days_pos y) ltac:(lia)) as H0. rewrite take_0 in H0. cbn [fold_right] in H0.
  pose proof (prefix_sum_step _ _ _ E). pose proof (month_prefix_le _ (S (Z.to_nat (m - 1))) (month_days_pos y)).
  lia.
Qed.

Lemma civil_days_inj y m d y' m' d' :
  1 <= y -> 1 <= y' -> valid_date y m d -> valid_date y' m' d' ->
  civil_days y m d = civil_days y' m' d' -> (y, m, d) = (y', m', d').
Proof.
  intros Hy Hy' V V' E. pose proof (day_of_year _ _ _ V) as B. pose proof (day_of_year _ _ _ V') as B'.
  unfold civil_days in E. assert (y = y') as <-.
  { pose proof (days_before_succ y Hy). pose proof (days_before_succ y' Hy').
    destruct (Z.lt_total y y') as [Hlt|[|Hlt]]; [|done|].
    - pose proof (days_before_mono (y + 1) y'). lia.
    - pose proof (days_before_mono (y' + 1) y). lia. }
  destruct V as (Hm & md & Em & Hd), V' as (Hm' & md' & Em' & Hd'). unfold days_before_month in *.
  pose proof (prefix_sum_step _ _ _ Em). pose proof (prefix_sum_step _ _ _ Em').
  pose proof (month_days_pos y) as Hpos. assert (m = m') as <-.
  { destruct (Z.lt_total m m') as [Hlt|[|Hlt]]; [|done|].
    - pose proof (prefix_sum_mono _ (S (Z.to_nat (m - 1))) (Z.to_nat (m' - 1)) Hpos). lia.
    - pose proof (prefix_sum_mono _ (S (Z.to_nat (m' - 1))) (Z.to_nat (m - 1)) Hpos). lia. }
  f_equal. lia.
Qed.

(** CAST of a time stamp to DATE, from the epoch to the end of the year 2^31 - 1,
    returns the date of the Gregorian calendar that contains it, and no other. *)
Theorem timestamp_date_correct `{ExecEnv} (ts : Z) :
  0 <= ts < days_before_year (2 ^ 31) * 86400 ->
  exists y m d, 1970 <= y < 2 ^ 31 /\ valid_date y m d /\ civil_days y m d = ts / 86400 /\
    (forall y' m' d', 1 <= y' -> valid_date y' m' d' -> civil_days y' m' d' = ts / 86400 -> (y', m', d') = (y, m, d)) /\
    cast_value (VTimestamp ts) TyDate =
      Ok (VDate (show_padded 4 y ++ [x2d] ++ show_padded 2 m ++ [x2d] ++ show_padded 2 d)).
Proof.
  intros Hts. destruct (epoch_day_spec (ts / 86400)) as (y & m & d & E & Hy & V & Hc).
  { split; [Z.div_mod_to_equations; lia|]. apply Z.div_lt_upper_bound; lia. }
  exists y, m, d. split; [lia|]. split; [done|]. split; [done|]. split.
  - intros y' m' d' Hy' V' E'. apply civil_days_inj; [done|lia|done..|congruence].
  - unfold cast_value, cast_to_date, timestamp_to_date_bytes. rewrite Z.max_l by lia. by rewrite E.
Qed.

(** Leap day of the year 2000 *)
Definition demo_env : ExecEnv :=
  {| overflow_checks := true; to_uppercase := to_upper; to_lowercase := to_lower;
     exec_float_text := {| f64_to_string := fun _ => [] |}; show_f32 := fun _ => [] |}.
#[local] Existing Instance demo_env.

Lemma timestamp_date_correct_witness :
  exists y m d, (y, m, d) = (2000, 2, 29) /\ civil_days y m d = 951827696 / 86400 /\
    cast_value (VTimestamp 951827696) TyDate = Ok (VDate (bs "2000-02-29")).
Proof.
  destruct (timestamp_date_correct (H := demo_env) 951827696) as (y & m & d & _ & _ & E & U & C).
  - split; [discriminate|vm_compute; reflexivity].
  - exists y, m, d. split; [symmetry; apply U|split; [exact E|vm_compute; reflexivity]].
    + discriminate.
    + split; [discriminate|]. exists 29. split; [reflexivity|lia].
    + reflexivity.
Defined.

(** ** Types of results *)

Inductive SqlKind : Type := KInt | KFloat | KBool | KText | KDate | KTimestamp | KVector (dim : Z).

(** The kind a type name stands for; [None] is not a target of CAST. *)
Definition cast_target (ty : SqlType) : option SqlKind :=
  match ty with
  | TyInt => Some KInt
  | TyFloat => Some KFloat
  | TyBoolean => Some KBool
  | TyVarchar _ | TyText => Some KText
  | TyDate => Some KDate
  | TyTimestamp => Some KTimestamp
  | TyVector dim => Some (KVector dim)
  | TyNamed name =>
      list_find (fun p => p.1 = to_upper name)
        [(bs "INT", KInt); (bs "INTEGER", KInt); (bs "BIGINT", KInt); (bs "FLOAT", KFloat); (bs "REAL", KFloat);
         (bs "DOUBLE", KFloat); (bs "BOOLEAN", KBool); (bs "BOOL", KBool); (bs "TEXT", KText); (bs "DATE", KDate);
         (bs "TIMESTAMP", KTimestamp); (bs "TIMESTAMPTZ", KTimestamp)] ≫= fun r => Some r.2.2
  end.

(** The seconds that CAST to DATE starts from *)
Definition date_seconds (v : Value) : option Z :=
  match v with
  | VTimestamp n | VInteger n => Some n
  | VFloat f => Some (f64_to_i64 f)
  | _ => None
  end.

(** The date that CAST makes of a value: of a text the text itself, without the spaces
    around it, which has ten bytes and the dashes of YYYY-MM-DD, and of which nothing else
    is checked; of seconds since the epoch the day of the Gregorian calendar, for
    years below 2^31 (those before the epoch count as the epoch). *)
Definition date_from (v : Value) (b : bytes) : Prop :=
  match v with
  | VBytes t | VDate t =>
      exists s, from_utf8 t = Some s /\ b = trim s /\ length b = 10%nat /\ b !! 4%nat = Some x2d /\ b !! 7%nat = Some x2d
  | _ => forall n, date_seconds v = Some n -> n < days_before_year (2 ^ 31) * 86400 ->
      exists y m d, 1970 <= y < 2 ^ 31 /\ valid_date y m d /\ civil_days y m d = Z.max n 0 / 86400 /\
        b = show_padded 4 y ++ [x2d] ++ show_padded 2 m ++ [x2d] ++ show_padded 2 d
  end.

(** [w] is of kind [k], as a cast of [v] *)
Definition has_kind (k : SqlKind) (v w : Value) : Prop :=
  match k, w with
  | KInt, VInteger _ | KFloat, VFloat _ | KBool, VBool _ | KText, VBytes _ | KTimestamp, VTimestamp _ => True
  | KDate, VDate b => date_from v b
  | KVector dim, VVector fs => len fs = dim
  | _, _ => False
  end.

(** Integers are 64 bits wide. *)
Definition value_ok (v : Value) : Prop :=
  match v with VInteger n | VTimestamp n => in_signed 64 n = true | _ => True end.

Lemma in_signed_range w z : in_signed w z = true <-> - 2 ^ (w - 1) <= z < 2 ^ (w - 1).
Proof. unfold in_signed. rewrite andb_true_iff, Z.leb_le, Z.ltb_lt. done. Qed.

Lemma f64_to_i64_ok f : in_signed 64 (f64_to_i64 f) = true.
Proof.
  apply in_signed_range. unfold f64_to_i64. change (2 ^ (64 - 1)) with (2 ^ 63). destruct f as [|[]| |]; lia.
Qed.

Lemma parse_i64_ok s n : parse_i64 s = Some n -> in_signed 64 n = true.
Proof.
  unfold parse_i64. destruct (match s with x2d :: _ => _ | _ => _ end) as [neg [|d ds]]; [done|].
  destruct (_ && _) eqn:E; intros [= <-]. by apply andb_true_iff in E as [_ ?].
Qed.

Section types.
Context `{ExecEnv}.

Lemma parse_int_ok b n : parse_int_bytes b = Ok n -> in_signed 64 n = true.
Proof.
  unfold parse_int_bytes. destruct (from_utf8 b); [|done]. destruct (parse_i64 _) eqn:E; intros [= <-].
  by eapply parse_i64_ok.
Qed.

Lemma parse_timestamp_ok b n : parse_timestamp_bytes b = Ok n -> in_signed 64 n = true.
Proof.
  unfold parse_timestamp_bytes. destruct (from_utf8 b) as [s|]; [|done]. cbv zeta. destruct (forallb _ _); [|done].
  destruct (_ =? _)%nat; [by intros [= <-]|]. destruct (parse_i64 _) eqn:E; intros [= <-]. by eapply parse_i64_ok.
Qed.

Lemma normalize_date_text b s : normalize_date_bytes b = Ok s ->
  exists t, from_utf8 b = Some t /\ s = trim t /\ length s = 10%nat /\ s !! 4%nat = Some x2d /\ s !! 7%nat = Some x2d.
Proof.
  unfold normalize_date_bytes. destruct (from_utf8 b) as [t|]; [|done]. cbv zeta. intros E.
  apply obind_ok_inv in E as (dashed & Ed & E). destruct dashed; [|done]. injection E as <-. exists t.
  destruct (length (trim t) =? 10)%nat eqn:El; [|done]. apply Nat.eqb_eq in El. apply obind_ok_inv in Ed as (c4 & E4 & Ed).
  case_bool_decide as H4; [|done]. apply obind_ok_inv in Ed as (c7 & E7 & [= H7]). apply bool_decide_eq_true_1 in H7.
  unfold byte_at in *. destruct (trim t !! 4%nat) as [?|]; [|done]. destruct (trim t !! 7%nat) as [?|]; [|done]. by simplify_eq.
Qed.

Lemma date_bytes_day n b : timestamp_to_date_bytes n = Ok b -> n < days_before_year (2 ^ 31) * 86400 ->
  exists y m d, 1970 <= y < 2 ^ 31 /\ valid_date y m d /\ civil_days y m d = Z.max n 0 / 86400 /\
    b = show_padded 4 y ++ [x2d] ++ show_padded 2 m ++ [x2d] ++ show_padded 2 d.
Proof.
  intros E Hn. unfold timestamp_to_date_bytes in E. destruct (epoch_day_spec (Z.max n 0 / 86400)) as (y & m & d & Ed & Hy & V & C).
  { split; [Z.div_mod_to_equations; lia|]. apply Z.div_lt_upper_bound; [lia|].
    assert (0 < days_before_year (2 ^ 31)) by reflexivity. lia. }
  rewrite Ed in E. injection E as <-. by exists y, m, d.
Qed.

(** Each conversion gives a value of its kind. *)
Lemma cast_to_int_kind v w : value_ok v -> cast_to_int v = Ok w -> has_kind KInt v w /\ value_ok w.
Proof.
  intros Hv E. unfold cast_to_int in E. apply obind_ok_inv in E as (n & En & [= <-]). split; [done|]. cbn [value_ok] in *.
  destruct v as [|?|?|?|[]|?|?|?]; simplify_eq/=; eauto using f64_to_i64_ok, parse_int_ok.
Qed.
Lemma cast_to_float_kind v w : cast_to_float v = Ok w -> has_kind KFloat v w /\ value_ok w.
Proof. intros E. by apply obind_ok_inv in E as (? & _ & [= <-]). Qed.
Lemma cast_to_bool_kind v w : cast_to_bool v = Ok w -> has_kind KBool v w /\ value_ok w.
Proof. intros E. by apply obind_ok_inv in E as (? & _ & [= <-]). Qed.
Lemma cast_to_text_kind v w : cast_to_text v = Ok w -> has_kind KText v w /\ value_ok w.
Proof. by intros [= <-]. Qed.
Lemma cast_to_date_kind v w : cast_to_date v = Ok w -> has_kind KDate v w /\ value_ok w.
Proof.
  intros E. unfold cast_to_date in E. apply obind_ok_inv in E as (b & Eb & [= <-]). split; [|done]. cbn [has_kind].
  destruct v; try done; cbn [date_from];
    first [by apply normalize_date_text|intros ? [= <-]; by apply date_bytes_day].
Qed.
Lemma cast_to_timestamp_kind v w : value_ok v -> cast_to_timestamp v = Ok w -> has_kind KTimestamp v w /\ value_ok w.
Proof.
  intros Hv E. unfold cast_to_timestamp in E. apply obind_ok_inv in E as (n & En & [= <-]). split; [done|].
  cbn [value_ok] in *. destruct v; simplify_eq/=; eauto using f64_to_i64_ok, parse_timestamp_ok.
Qed.
Lemma cast_to_vector_kind v dim w : cast_to_vector v dim = Ok w -> has_kind (KVector dim) v w /\ value_ok w.
Proof.
  intros E. unfold cast_to_vector in E. apply obind_ok_inv in E as (fs & _ & E). destruct (len fs =? dim) eqn:El; [|done].
  injection E as <-. bool_to_prop. done.
Qed.
End types.

Lemma byte_lower_upper b : byte_upper (byte_lower b) = byte_upper b.
Proof. revert b. apply (forall_byte (fun b => byte_upper (byte_lower b) = byte_upper b)). reflexivity. Qed.

Lemma eq_ignore_case_upper a b : eq_ignore_case a b = true -> to_upper a = to_upper b.
Proof.
  unfold eq_ignore_case, to_upper, to_lower. intros E%bool_decide_eq_true_1. apply (f_equal (map byte_upper)) in E.
  rewrite !map_map in E. by rewrite !(map_ext _ _ byte_lower_upper) in E.
Qed.

#[local] Hint Resolve cast_to_int_kind cast_to_float_kind cast_to_bool_kind cast_to_text_kind cast_to_date_kind
  cast_to_timestamp_kind cast_to_vector_kind : core.

(** Which conversion a type name selects *)
Ltac named_case u :=
  match goal with
  | H : bool_decide (u = _) = true |- _ => apply bool_decide_eq_true_1 in H; subst u
  | H : bool_decide (u ∈ _) = true |- _ =>
      apply bool_decide_eq_true_1 in H; rewrite ?elem_of_cons in H; destruct_or? H; [subst u..|by apply elem_of_nil in H]
  end.

Lemma cast_named_sound `{ExecEnv} v name w :
  value_ok v -> v <> VNull -> cast_value v (TyNamed name) = Ok w ->
  exists k, cast_target (TyNamed name) = Some k /\ has_kind k v w /\ value_ok w.
Proof.
  intros Hv Hn E. destruct (eq_ignore_case name (bs "TEXT")) eqn:Et.
  - exists KText. cbn [cast_target]. rewrite (eq_ignore_case_upper _ _ Et). split; [reflexivity|].
    apply (cast_to_text_kind v). destruct v; [done|..]; cbn [cast_value] in E; by rewrite Et in E.
  - assert (cast_value v (TyNamed name) =
      (let upper := to_upper name in
       if bool_decide (upper ∈ [bs "INT"; bs "INTEGER"; bs "BIGINT"]) then cast_to_int v
       else if bool_decide (upper ∈ [bs "FLOAT"; bs "REAL"; bs "DOUBLE"]) then cast_to_float v
       else if bool_decide (upper ∈ [bs "BOOLEAN"; bs "BOOL"]) then cast_to_bool v
       else if bool_decide (upper = bs "DATE") then cast_to_date v
       else if bool_decide (upper ∈ [bs "TIMESTAMP"; bs "TIMESTAMPTZ"]) then cast_to_timestamp v
       else if bool_decide (upper = bs "VECTOR") then type_err "VECTOR requires VECTOR(n) dimension"
       else Err (TypeMismatch (bs "unsupported CAST target type") [] [name]))) as E2.
    { destruct v; [done|..]; cbn [cast_value]; by rewrite Et. }
    rewrite E2 in E. clear E2. cbv zeta in E. cbn [cast_target]. generalize dependent (to_upper name). intros u E.
    repeat match type of E with context [if bool_decide ?P then _ else _] =>
      let D := fresh "D" in destruct (bool_decide P) eqn:D end; try discriminate E; named_case u;
      eexists; (split; [reflexivity|eauto]).
Qed.

(** C27. CAST keeps NULL and otherwise returns a value of the kind that the target type
    names, with integers in 64 bits and vectors of the declared dimension.  A DATE made of
    seconds since the epoch is the day of the Gregorian calendar that contains them (the
    epoch for times before it), with a year of four or more digits, for years below 2^31.
    A DATE made of a text is that text without the spaces around it, of exactly ten bytes
    and with the two dashes of YYYY-MM-DD; the code checks no more than that, so the other
    eight bytes need not be digits (cast_dates_lose_information). *)
Theorem cast_type_sound `{ExecEnv} (v : Value) (ty : SqlType) (w : Value) :
  value_ok v -> cast_value v ty = Ok w ->
  if bool_decide (v = VNull) then w = VNull
  else exists k, cast_target ty = Some k /\ has_kind k v w /\ value_ok w.
Proof.
  intros Hv E. case_bool_decide as Hn; [subst v; by injection E as <-|].
  destruct ty as [| | | | | | |dim|name]; [..|by eapply cast_named_sound];
    (eexists; split; [reflexivity|]); (destruct v; [done|..]); cbn [cast_value] in E; eauto.
Qed.

Lemma cast_type_sound_witness :
  cast_value (VBytes (bs " 2024-02-30 ")) (TyNamed (bs "date")) = Ok (VDate (bs "2024-02-30")) /\
  date_from (VBytes (bs " 2024-02-30 ")) (bs "2024-02-30").
Proof.
  assert (cast_value (VBytes (bs " 2024-02-30 ")) (TyNamed (bs "date")) = Ok (VDate (bs "2024-02-30"))) as E
    by (vm_compute; reflexivity).
  split; [exact E|]. pose proof (cast_type_sound (VBytes (bs " 2024-02-30 ")) _ _ I E) as T. rewrite bool_decide_eq_false_2 in T by discriminate.
  destruct T as (k & Ek & Hk & _). vm_compute in Ek. injection Ek as <-. exact Hk.
Defined.

(** ** Failures are errors *)

Lemma obind_no_panic {E A B} (m : outcome E A) (k : A -> outcome E B) :
  m <> Panic -> (forall a, k a <> Panic) -> obind m k <> Panic.
Proof. intros Hm Hk. destruct m; simpl; [apply Hk|done|done]. Qed.

Lemma traverse_no_panic {E A B} (f : A -> outcome E B) l : (forall a, f a <> Panic) -> traverse f l <> Panic.
Proof. intros Hf. induction l as [|a l IH]; simpl; [done|]. by repeat (apply obind_no_panic; [done|intros ?]). Qed.

Section no_panic.
Context `{ExecEnv}.

Lemma parse_text_no_panic b dim :
  parse_int_bytes b <> Panic /\ parse_float_bytes b <> Panic /\ parse_bool_bytes b <> Panic /\
  normalize_date_bytes b <> Panic /\ parse_timestamp_bytes b <> Panic /\ parse_vector_literal b dim <> Panic.
Proof.
  unfold parse_int_bytes, parse_float_bytes, parse_bool_bytes, normalize_date_bytes, parse_timestamp_bytes,
    parse_vector_literal.
  destruct (from_utf8 b) as [s|]; [|done]. cbv zeta. split_and!; try (by repeat case_match).
  { destruct (length (trim s) =? 10)%nat eqn:El; [|done]. apply Nat.eqb_eq in El. unfold byte_at.
    destruct (lookup_lt_is_Some_2 (trim s) 4) as [c4 ->]; [lia|]. destruct (lookup_lt_is_Some_2 (trim s) 7) as [c7 ->]; [lia|].
    cbn [obind]. by repeat case_bool_decide. }
  apply obind_no_panic; [apply traverse_no_panic; intros p; by case_match|]. intros fs. by case_match.
Qed.

Lemma date_no_panic n : n < days_before_year (2 ^ 31) * 86400 -> timestamp_to_date_bytes n <> Panic.
Proof.
  intros Hn. unfold timestamp_to_date_bytes. destruct (epoch_day_spec (Z.max n 0 / 86400)) as (y & m & d & -> & _); [|done].
  split; [Z.div_mod_to_equations; lia|]. apply Z.div_lt_upper_bound; [lia|].
  assert (0 < days_before_year (2 ^ 31)) by reflexivity. lia.
Qed.

(** Only the walk over the years can panic. *)
Lemma cast_panics_in_date v ty :
  (forall n, date_seconds v = Some n -> timestamp_to_date_bytes n <> Panic) -> cast_value v ty <> Panic.
Proof.
  intros Hn. destruct (decide (v = VNull)) as [->|Hv]; [done|].
  assert (cast_to_int v <> Panic /\ cast_to_float v <> Panic /\ cast_to_bool v <> Panic /\ cast_to_text v <> Panic /\
    cast_to_date v <> Panic /\ cast_to_timestamp v <> Panic /\ (forall dim, cast_to_vector v dim <> Panic)) as Hall.
  { pose proof (fun b => parse_text_no_panic b) as Hb. split_and!; [| | |discriminate| | |intros dim];
      (apply obind_no_panic; [|intros ?; by repeat case_match]); destruct v; try done; try apply (Hb _ 0); try apply Hb;
      apply Hn; reflexivity. }
  destruct Hall as (? & ? & ? & ? & ? & ? & ?).
  destruct v; [done|..]; destruct ty; try done; cbn [cast_value]; try done; by repeat case_match.
Qed.

(** CAST never panics on a value whose year fits in 32 bits. *)
Theorem cast_no_panic (v : Value) (ty : SqlType) :
  (forall n, date_seconds v = Some n -> n < days_before_year (2 ^ 31) * 86400) -> cast_value v ty <> Panic.
Proof. intros Hn. apply cast_panics_in_date. intros n En. by apply date_no_panic, Hn. Qed.
End no_panic.

Lemma cast_no_panic_witness : cast_value (VTimestamp 253402300800) TyDate <> Panic.
Proof.
  apply (cast_no_panic (H := demo_env) (VTimestamp 253402300800) TyDate). intros n [= <-]. vm_compute. reflexivity.
Defined.

(** ** What the conversions accept

    Any ten chars with two dashes are a date; ten digits or dashes are midnight of
    the epoch as a time stamp, also the number of seconds 1700000000 and any date;
    a time before the epoch becomes the epoch. *)
Theorem cast_dates_lose_information `{ExecEnv} :
  cast_value (VBytes (bs "abcd-ef-gh")) TyDate = Ok (VDate (bs "abcd-ef-gh")) /\
  cast_value (VBytes (bs "2024-05-01")) TyTimestamp = Ok (VTimestamp 0) /\
  cast_value (VBytes (bs "1700000000")) TyTimestamp = Ok (VTimestamp 0) /\
  (forall n, n < 0 -> cast_value (VTimestamp n) TyDate = Ok (VDate (bs "1970-01-01"))).
Proof.
  split_and!; [vm_compute; reflexivity..|]. intros n Hn. unfold cast_value, cast_to_date, timestamp_to_date_bytes.
  rewrite Z.max_r by lia. vm_compute. reflexivity.
Qed.
