(* ===== verification/Eval.v ===== *)
(** * Expressions (crates/noedb-planner/src/eval.rs)

    The evaluator of scalar expressions over one row, with SQL's LIKE, arithmetic
    in double precision and vector distances. *)

From S2P Require Import Prelude BTree Text Float64 Tokens Ast Display Utf8 StorageError Value Cast.

(** A [for] loop over a mutable state *)
Fixpoint for_each {E S A} (f : A -> S -> outcome E S) (l : list A) (s : S) : outcome E S :=
  match l with
  | [] => Ok s
  | x :: l' => let? s' := f x s in for_each f l' s'
  end.

(** ** Doubles: remainder, rounding *)

(** [a % b]: the exact remainder, with the sign of [a] *)
Definition f64_rem (a b : f64) : f64 :=
  match a, b with
  | S754_nan, _ | _, S754_nan | S754_infinity _, _ | _, S754_zero _ => S754_nan
  | S754_zero _, _ | _, S754_infinity _ => a
  | S754_finite s1 m1 e1, S754_finite _ m2 e2 =>
      let e := Z.min e1 e2 in
      let r := (Z.pos m1 * 2 ^ (e1 - e)) mod (Z.pos m2 * 2 ^ (e2 - e)) in
      binary_normalize 53 1024 (if s1 then - r else r) e s1
  end.

(** [f.round()]: half away from zero *)
Definition f64_round (f : f64) : f64 :=
  match f with
  | S754_finite s m e =>
      if 0 <=? e then f
      else let q := (Z.pos m + 2 ^ (- e - 1)) / 2 ^ (- e) in
           binary_normalize 53 1024 (if s then - q else q) 0 s
  | _ => f
  end.

Example f64_rem_samples :
  (f64_rem (f64_of_Z (-7)) (f64_of_Z 3), f64_rem (f64_of_Z 7) (S754_infinity true),
   f64_round (f64_div (f64_of_Z (-5)) (f64_of_Z 2)), f64_round (f64_div (f64_of_Z 1) (f64_of_Z (-3)))) =
  (f64_of_Z (-1), f64_of_Z 7, f64_of_Z (-3), S754_zero true).
Proof. vm_compute. reflexivity. Qed.

(** ** LIKE *)

Definition dp_get {E} (dp : list (list bool)) (i j : nat) : outcome E bool :=
  match dp !! i with
  | Some r => match r !! j with Some b => Ok b | None => Panic end
  | None => Panic
  end.
Definition dp_set {E} (dp : list (list bool)) (i j : nat) (b : bool) : outcome E (list (list bool)) :=
  match dp !! i with
  | Some r => if (j <? length r)%nat then Ok (<[i := <[j := b]> r]> dp) else Panic
  | None => Panic
  end.
Definition char_at {E} (s : list Z) (i : nat) : outcome E Z :=
  match s !! i with Some c => Ok c | None => Panic end.

Definition percent : Z := 37.
Definition underscore : Z := 95.

Definition like_row0 {E} (p : list Z) (j : nat) (dp : list (list bool)) : outcome E (list (list bool)) :=
  let? c := char_at p (j - 1) in
  if c =? percent then let? b := dp_get dp 0 (j - 1) in dp_set dp 0 j b else Ok dp.

Definition like_cell {E} (t p : list Z) (i j : nat) (dp : list (list bool)) : outcome E (list (list bool)) :=
  let? c := char_at p (j - 1) in
  if c =? percent then
    let? a := dp_get dp i (j - 1) in
    let? b := if a then Ok true else dp_get dp (i - 1) j in
    dp_set dp i j b
  else
    let? ok := if c =? underscore then Ok true else let? x := char_at t (i - 1) in Ok (x =? c) in
    if ok : bool then let? b := dp_get dp (i - 1) (j - 1) in dp_set dp i j b else Ok dp.

Definition sql_like {E} (text pattern : bytes) : outcome E bool :=
  let t := chars (length text) text in
  let p := chars (length pattern) pattern in
  let m := S (length t) in
  let n := S (length p) in
  let dp := replicate m (replicate n false) in
  let? dp := dp_set dp 0 0 true in
  let? dp := for_each (like_row0 p) (seq 1 (length p)) dp in
  let? dp := for_each (fun i => for_each (like_cell t p i) (seq 1 (length p))) (seq 1 (length t)) dp in
  dp_get dp (length t) (length p).

Definition like_match (left pattern : Value) : outcome ExecError bool :=
  match left, pattern with
  | VBytes text, VBytes pat => sql_like (from_utf8_lossy text) (from_utf8_lossy pat)
  | _, _ => Ok false
  end.

(** ** Comparison and arithmetic *)

Definition coerce_numeric (v : Value) : option f64 :=
  match v with
  | VInteger n => Some (f64_of_Z n)
  | VFloat f => Some f
  | VBool b => Some (f64_of_Z (if b then 1 else 0))
  | VBytes b => parse_bytes_as_f64 b
  | VTimestamp ts => Some (f64_of_Z ts)
  | _ => None
  end.

Definition apply_cmp (a b : Z) (op : BinaryOp) : bool :=
  match op with BLt => a <? b | BGt => b <? a | BLe => a <=? b | BGe => b <=? a | _ => false end.
Definition apply_cmp_f (a b : f64) (op : BinaryOp) : bool :=
  match op with BLt => SFltb a b | BGt => SFltb b a | BLe => SFleb a b | BGe => SFleb b a | _ => false end.
Definition apply_cmp_bytes (a b : bytes) (op : BinaryOp) : bool :=
  match op with
  | BLt => bytes_ltb a b | BGt => bytes_ltb b a | BLe => negb (bytes_ltb b a) | BGe => negb (bytes_ltb a b)
  | _ => false
  end.

Definition cmp_values (l r : Value) (op : BinaryOp) : outcome ExecError bool :=
  match l, r with
  | VNull, _ | _, VNull => Ok false
  | _, _ =>
      match coerce_numeric l, coerce_numeric r with
      | Some a, Some b => Ok (apply_cmp_f a b op)
      | _, _ =>
          match l, r with
          | VBytes a, VBytes b | VDate a, VDate b => Ok (apply_cmp_bytes a b op)
          | VTimestamp a, VTimestamp b => Ok (apply_cmp a b op)
          | _, _ => type_err "incompatible types in comparison"
          end
      end
  end.

Definition is_zero (f : f64) : bool := SFeqb f (S754_zero false).

Definition eval_arithmetic (op : BinaryOp) (l r : Value) : outcome ExecError Value :=
  match l, r with
  | VNull, _ | _, VNull => Ok VNull
  | _, _ =>
      match coerce_numeric l with
      | None => Err (TypeMismatch (bs "arithmetic on") [l] [])
      | Some a =>
          match coerce_numeric r with
          | None => Err (TypeMismatch (bs "arithmetic on") [r] [])
          | Some b =>
              match op with
              | BPlus => Ok (VFloat (f64_add a b))
              | BMinus => Ok (VFloat (f64_sub a b))
              | BDiv => if is_zero b then type_err "division by zero" else Ok (VFloat (f64_div a b))
              | BMul => Ok (VFloat (f64_mul a b))
              | BMod => if is_zero b then type_err "modulo by zero" else Ok (VFloat (f64_rem a b))
              | _ => Err UnsupportedExpr
              end
          end
      end
  end.

(** ** Vectors *)

Fixpoint chunks4 (b : bytes) : list f64 :=
  match b with
  | b0 :: b1 :: b2 :: b3 :: r => float_of_bits 24 32 (le_val [b0; b1; b2; b3]) :: chunks4 r
  | _ => []
  end.

(** [&bytes[..4]] and [&bytes[4..]] *)
Definition magic_slices (b : bytes) : outcome ExecError (bytes * bytes) :=
  if (length b <? 4)%nat then Panic else Ok (take 4 b, drop 4 b).

Definition decode_ndv1 (b : bytes) : outcome ExecError (list f64) :=
  if len b <? 4 then type_err "invalid VECTOR bytes"
  else
    let? '(magic, payload) := magic_slices b in
    if negb (bool_decide (magic = bs "NDV1")) then type_err "invalid VECTOR bytes"
    else if negb (len payload mod 4 =? 0) then type_err "invalid VECTOR payload" else Ok (chunks4 payload).

Definition parse_vector_literal_flexible (b : bytes) : outcome ExecError (list f64) :=
  match from_utf8 b with
  | None => type_err "invalid UTF-8 for VECTOR literal"
  | Some s =>
      let s := strip_brackets s in
      match s with
      | [] => Ok []
      | _ => traverse (fun p => match parse_f32_str p with
                                | Some f => Ok f
                                | None => Err (TypeMismatch (bs "invalid float in VECTOR literal") [] [p])
                                end) (comma_parts s)
      end
  end.

Definition vector_as_f32s (v : Value) : outcome ExecError (list f64) :=
  match v with
  | VVector v => Ok v
  | VBytes b => if starts_with (bs "NDV1") b then decode_ndv1 b else parse_vector_literal_flexible b
  | VNull => type_err "VECTOR distance with NULL"
  | other => Err (TypeMismatch (bs "expected VECTOR value") [other] [])
  end.

(** [sum] of an iterator of doubles starts from -0.0. *)
Definition vector_l2_distance (left right : Value) : outcome ExecError f64 :=
  let? a := vector_as_f32s left in
  let? b := vector_as_f32s right in
  if negb (length a =? length b)%nat
  then Err (TypeMismatch (bs "VECTOR dimension mismatch") [VInteger (len a); VInteger (len b)] [])
  else Ok (f64_sqrt (fold_left (fun s xy => let d := f64_sub (f64_of_f32 xy.1) (f64_of_f32 xy.2) in
                                            f64_add s (f64_mul d d)) (combine a b) (S754_zero true))).

(** ** Columns *)

(** [rsplit_once('.')] *)
Fixpoint split_first (sep : byte) (s : bytes) : option (bytes * bytes) :=
  match s with
  | [] => None
  | b :: r => if bool_decide (b = sep) then Some ([], r)
              else match split_first sep r with Some (x, y) => Some (b :: x, y) | None => None end
  end.
Definition rsplit_once (sep : byte) (s : bytes) : option (bytes * bytes) :=
  match split_first sep (rev s) with Some (x, y) => Some (rev y, rev x) | None => None end.

Definition dot : byte := x2e.
Definition bare_name (n : bytes) : option bytes :=
  match rsplit_once dot n with Some (_, b) => Some b | None => None end.

Definition row_find (f : bytes -> bool) (row : RowMap) : option (bytes * Value) :=
  match filter (fun c => f c.1 = true) row with c :: _ => Some c | [] => None end.
Definition row_get (n : bytes) (row : RowMap) : option Value :=
  option_map snd (row_find (fun m => bool_decide (m = n)) row).

Definition eval_column (col : ColumnRef) (row : RowMap) : outcome ExecError Value :=
  match col with
  | Named (Some t) column =>
      let qual := id_value t ++ [dot] ++ id_value column in
      match row_get qual row with
      | Some v => Ok v
      | None => match row_get (id_value column) row with
                | Some v => Ok v
                | None => Err (UnknownColumn qual)
                end
      end
  | Named None column =>
      match row_get (id_value column) row with
      | Some v => Ok v
      | None =>
          match filter (fun c => bare_name c.1 = Some (id_value column)) row with
          | [c] => Ok c.2
          | _ => Err (UnknownColumn (id_value column))
          end
      end
  | ColStar _ | QualifiedStar _ _ => Err UnsupportedExpr
  end.

Definition literal_to_value (l : Literal) : Value :=
  match l with
  | LNull _ => VNull
  | LInteger n _ => VInteger n
  | LFloat f _ => VFloat f
  | LString s _ => VBytes s
  | LBoolean b _ => VBool b
  end.

Definition is_sql_null (v : Value) : bool :=
  match v with VNull => true | VBytes [] => true | _ => false end.

(** ** Operators over an evaluator [ev] of the operands *)

Section operators.
Context `{ExecEnv} (ev : Expr -> RowMap -> outcome ExecError Value).

Definition string_unary (v : Value) (f : bytes -> bytes) : outcome ExecError Value :=
  match v with
  | VNull => Ok VNull
  | VBytes b => Ok (VBytes (f (from_utf8_lossy b)))
  | _ => type_err "expected text argument"
  end.

(** [args[0]] *)
Definition eval_arg0 (args : list Expr) (row : RowMap) : outcome ExecError Value :=
  match args with a :: _ => ev a row | [] => Panic end.

Definition eval_coalesce (row : RowMap) : list Expr -> outcome ExecError Value :=
  fix go args :=
    match args with
    | [] => Ok VNull
    | a :: args' => let? v := ev a row in match v with VNull => go args' | _ => Ok v end
    end.

Definition eval_scalar_function (name : bytes) (args : list Expr) (row : RowMap) : outcome ExecError Value :=
  let up := to_upper name in
  if bool_decide (up = bs "UPPER") then let? v := eval_arg0 args row in string_unary v to_uppercase
  else if bool_decide (up = bs "LOWER") then let? v := eval_arg0 args row in string_unary v to_lowercase
  else if bool_decide (up = bs "LENGTH") then
    let? v := eval_arg0 args row in
    match v with
    | VNull => Ok VNull
    | VBytes b => let s := from_utf8_lossy b in Ok (VInteger (Z.min (len (chars (length s) s)) i64_max))
    | _ => type_err "LENGTH expects text"
    end
  else if bool_decide (up = bs "TRIM") then let? v := eval_arg0 args row in string_unary v trim
  else if bool_decide (up = bs "COALESCE") then eval_coalesce row args
  else if bool_decide (up = bs "ABS") then
    let? v := eval_arg0 args row in
    match v with
    | VNull => Ok VNull
    | VInteger n => let? r := signed_result 64 (Z.abs n) in Ok (VInteger r)
    | VFloat f => Ok (VFloat (SFabs f))
    | other => Err (TypeMismatch (bs "ABS expects numeric") [other] [])
    end
  else if bool_decide (up = bs "ROUND") then
    let? v := eval_arg0 args row in
    match v with
    | VNull => Ok VNull
    | VInteger n => Ok (VInteger n)
    | VFloat f => Ok (VFloat (f64_round f))
    | VBytes b => match parse_bytes_as_f64 b with
                  | Some n => Ok (VFloat (f64_round n))
                  | None => type_err "ROUND expects numeric"
                  end
    | other => Err (TypeMismatch (bs "ROUND expects numeric") [other] [])
    end
  else Err UnsupportedExpr.

(** Literals and parameters of an IN list are evaluated without a row. *)
Definition eval_in_rhs (e : Expr) (row : RowMap) : outcome ExecError Value :=
  match e with ELiteral _ | EParameter _ _ => ev e [] | _ => ev e row end.

Definition eval_in (v : Value) (row : RowMap) : list Expr -> outcome ExecError bool :=
  fix go values :=
    match values with
    | [] => Ok false
    | e :: values' =>
        let? w := eval_in_rhs e row in
        match sql_eq v w with Some true => Ok true | _ => go values' end
    end.

Definition eval_unary (op : UnaryOp) (e : Expr) (row : RowMap) : outcome ExecError Value :=
  let? v := ev e row in
  match op with
  | UNot =>
      match v with
      | VBool b => Ok (VBool (negb b))
      | VNull => Ok VNull
      | other => Err (TypeMismatch (bs "NOT applied to") [other] [])
      end
  | UMinus =>
      match v with
      | VInteger n => let? r := signed_result 64 (- n) in Ok (VInteger r)
      | VFloat f => Ok (VFloat (SFopp f))
      | VNull => Ok VNull
      | other => Err (TypeMismatch (bs "unary minus on") [other] [])
      end
  end.

Definition eval_binary (op : BinaryOp) (left right : Expr) (row : RowMap) : outcome ExecError Value :=
  match op with
  | BAnd =>
      let? l := ev left row in
      match l with
      | VBool false => Ok (VBool false)
      | VNull => let? r := ev right row in match r with VBool false => Ok (VBool false) | _ => Ok VNull end
      | VBool true => ev right row
      | other => Err (TypeMismatch (bs "AND applied to") [other] [])
      end
  | BOr =>
      let? l := ev left row in
      match l with
      | VBool true => Ok (VBool true)
      | VNull => let? r := ev right row in match r with VBool true => Ok (VBool true) | _ => Ok VNull end
      | VBool false => ev right row
      | other => Err (TypeMismatch (bs "OR applied to") [other] [])
      end
  | BEq =>
      let? l := ev left row in
      let? r := ev right row in
      Ok match sql_eq l r with Some b => VBool b | None => VNull end
  | BNe =>
      let? l := ev left row in
      let? r := ev right row in
      Ok match sql_eq l r with Some b => VBool (negb b) | None => VNull end
  | BLt | BGt | BLe | BGe =>
      let? l := ev left row in
      let? r := ev right row in
      let? b := cmp_values l r op in Ok (VBool b)
  | BLike =>
      let? l := ev left row in
      let? r := ev right row in
      let? b := like_match l r in Ok (VBool b)
  | BPlus | BMinus | BDiv | BMul | BMod =>
      let? l := ev left row in
      let? r := ev right row in
      eval_arithmetic op l r
  | BDistance =>
      let? l := ev left row in
      let? r := ev right row in
      let? d := vector_l2_distance l r in Ok (VFloat d)
  end.

Definition eval_between (expr low high : Expr) (negated : bool) (row : RowMap) : outcome ExecError Value :=
  let? v := ev expr row in
  let? lo := ev low row in
  let? hi := ev high row in
  match v, lo, hi with
  | VNull, _, _ | _, VNull, _ | _, _, VNull => Ok (VBool false)
  | _, _, _ =>
      let? ge := cmp_values v lo BGe in
      let? le := cmp_values v hi BLe in
      Ok (VBool (if negated then negb (ge && le) else ge && le))
  end.
End operators.

Section eval.
Context `{ExecEnv}.

Fixpoint eval_expr (expr : Expr) (row : RowMap) {struct expr} : outcome ExecError Value :=
  match expr with
  | ELiteral l => Ok (literal_to_value l)
  | EColumn c => eval_column c row
  | EUnary op e _ => eval_unary eval_expr op e row
  | EBinary op l r _ => eval_binary eval_expr op l r row
  | EIsNull e negated _ =>
      let? v := eval_expr e row in
      Ok (VBool (if negated then negb (is_sql_null v) else is_sql_null v))
  | EIn e values negated _ =>
      let? v := eval_expr e row in
      let? found := eval_in eval_expr v row values in
      Ok (VBool (if negated then negb found else found))
  | ECast e ty _ => let? v := eval_expr e row in cast_value v ty
  | EBetween e low high negated _ => eval_between eval_expr e low high negated row
  | EInSubquery _ _ _ _ | EExists _ _ _ | EScalarSubquery _ _ | EParameter _ _ | ECurrentUser _ => Err UnsupportedExpr
  | EFunction name args over _ =>
      match over with
      | Some _ => Err UnsupportedExpr
      | None => eval_scalar_function eval_expr (id_value name) args row
      end
  | EParen inner _ => eval_expr inner row
  end.

(** NULL counts as false. *)
Definition eval_predicate (expr : Expr) (row : RowMap) : outcome ExecError bool :=
  let? v := eval_expr expr row in
  match v with
  | VBool true => Ok true
  | VBool false | VNull => Ok false
  | other => Err (TypeMismatch (bs "expected boolean predicate") [other] [])
  end.
End eval.
