(* ===== verification/EvalSpec.v ===== *)
(** * What expressions evaluate to

    LIKE against its definition by pieces of text, the three-valued connectives,
    the absence of panics, and where the evaluator leaves SQL's rules for NULL. *)

From S2P Require Import Prelude BTree Text Float64 Tokens Ast Display Utf8 StorageError Value Cast Eval.

Local Open Scope nat_scope.

(** ** LIKE *)

(** [%] stands for any text, [_] for one char, any other char for itself. *)
Definition piece_ok (piece : list Z) (c : Z) : Prop :=
  if (c =? percent)%Z then True else if (c =? underscore)%Z then length piece = 1 else piece = [c].
Definition like (t p : list Z) : Prop := exists pieces, t = concat pieces /\ Forall2 piece_ok pieces p.

(** The same on reversed text and pattern, as a function *)
Fixpoint like_rev (p : list Z) : list Z -> bool :=
  match p with
  | [] => fun t => match t with [] => true | _ => false end
  | c :: p' =>
      if (c =? percent)%Z then
        fix any t := like_rev p' t || match t with [] => false | _ :: t' => any t' end
      else fun t => match t with
                    | x :: t' => ((c =? underscore)%Z || (x =? c)%Z) && like_rev p' t'
                    | [] => false
                    end
  end.

Lemma like_snoc t p c :
  like t (p ++ [c]) <-> exists t1 piece, t = t1 ++ piece /\ like t1 p /\ piece_ok piece c.
Proof.
  split.
  - intros (ps & -> & F). apply Forall2_app_inv_r in F as (ps1 & ps2 & F1 & F2 & ->).
    inversion F2 as [|piece ? ps3 ? Hp F3]; subst. inversion F3; subst.
    exists (concat ps1), piece. rewrite concat_app. cbn [concat]. rewrite app_nil_r. split; [done|]. split; [by exists ps1|done].
  - intros (t1 & piece & -> & (ps & -> & F) & Hp). exists (ps ++ [piece]). rewrite concat_app. cbn [concat].
    rewrite app_nil_r. split; [done|]. by apply Forall2_app; [|constructor].
Qed.

Lemma like_nil t : like t [] <-> t = [].
Proof.
  split; [intros (ps & -> & F); by inversion F|]. intros ->. exists []. split; [done|constructor].
Qed.

Lemma like_rev_correct p t : like_rev p t = true <-> like (rev t) (rev p).
Proof.
  revert t. induction p as [|c p IH]; intros t; cbn [rev].
  { rewrite like_nil. destruct t as [|x t]; cbn [like_rev rev]; [done|].
    split; [done|]. intros E%app_eq_nil. by destruct E. }
  rewrite like_snoc. cbn [like_rev]. unfold piece_ok. destruct (c =? percent)%Z.
  - induction t as [|x t IHt]; cbn [rev].
    + rewrite orb_false_r, IH. split; [intros Hl; by exists [], []|]. intros (t1 & piece & E & Hl & _).
      symmetry in E. apply app_eq_nil in E as [-> _]. done.
    + rewrite orb_true_iff, IH, IHt. split.
      * intros [Hl|(t1 & piece & E & Hl & _)]; [exists (rev (x :: t)), []; by rewrite app_nil_r|].
        exists t1, (piece ++ [x]). rewrite app_assoc, <- E. done.
      * intros (t1 & piece & E & Hl & _). destruct piece as [|y piece _] using rev_ind.
        { left. rewrite app_nil_r in E. cbn [rev]. by rewrite E. }
        right. rewrite app_assoc in E. apply app_inj_tail in E as [E _]. exists t1, piece. done.
  - assert (forall piece, (if (c =? underscore)%Z then length piece = 1 else piece = [c]) <->
      exists x, piece = [x] /\ ((c =? underscore)%Z || (x =? c)%Z) = true) as Hone.
    { intros piece. destruct (c =? underscore)%Z; cbn [orb].
      - split; [destruct piece as [|x [|]]; [done| |done]; intros _; by exists x|]. by intros (x & -> & _).
      - split; [intros ->; exists c; by rewrite Z.eqb_refl|]. intros (x & -> & E%Z.eqb_eq). by subst. }
    destruct t as [|x t]; cbn [rev].
    + split; [done|]. intros (t1 & piece & E & _ & (y & -> & _)%Hone). by destruct t1.
    + rewrite andb_true_iff, IH. split.
      * intros [Hx Hl]. exists (rev t), [x]. split; [done|]. split; [done|]. apply Hone. by exists x.
      * intros (t1 & piece & E & Hl & (y & -> & Hy)%Hone). apply app_inj_tail in E as [<- <-]. done.
Qed.

(** A loop over [seq] keeps an invariant indexed by the counter. *)
Lemma for_each_seq {E S} (f : nat -> S -> outcome E S) (I : nat -> S -> Prop) start n s :
  (forall k s, start <= k < start + n -> I k s -> exists s', f k s = Ok s' /\ I (Datatypes.S k) s') ->
  I start s -> exists s', for_each f (seq start n) s = Ok s' /\ I (start + n) s'.
Proof.
  revert start s. induction n as [|n IH]; intros start s Hf Hs; cbn [seq for_each].
  - exists s. by rewrite Nat.add_0_r.
  - destruct (Hf start s ltac:(lia) Hs) as (s1 & -> & H1). cbn [obind].
    destruct (IH (Datatypes.S start) s1) as (s' & E' & H'); [|done|].
    + intros k s2 Hk. apply Hf. lia.
    + exists s'. split; [done|]. by replace (start + Datatypes.S n) with (Datatypes.S start + n) by lia.
Qed.

(** [dp] is an [m] by [n] table with the entries [P]. *)
Definition is_table (m n : nat) (P : nat -> nat -> bool) (dp : list (list bool)) : Prop :=
  length dp = m /\ forall i, i < m -> exists r, dp !! i = Some r /\ length r = n /\
    forall j, j < n -> r !! j = Some (P i j).

Lemma table_get {E} m n P dp i j : is_table m n P dp -> i < m -> j < n -> dp_get (E:=E) dp i j = Ok (P i j).
Proof. intros [_ H] Hi Hj. destruct (H i Hi) as (r & Er & _ & Hr). unfold dp_get. by rewrite Er, Hr. Qed.

Lemma table_set {E} m n P dp i j b (Q : nat -> nat -> bool) : is_table m n P dp -> i < m -> j < n ->
  (forall i' j', i' < m -> j' < n -> Q i' j' = if (i' =? i) && (j' =? j) then b else P i' j') ->
  exists dp', dp_set (E:=E) dp i j b = Ok dp' /\ is_table m n Q dp'.
Proof.
  intros [Hl H] Hi Hj HQ. destruct (H i Hi) as (r & Er & Hlr & Hr). unfold dp_set. rewrite Er, Hlr.
  rewrite (proj2 (Nat.ltb_lt _ _)) by done. eexists. split; [done|]. split; [by rewrite length_insert|].
  intros i' Hi'. destruct (decide (i' = i)) as [->|Hne].
  - exists (<[j:=b]> r). rewrite list_lookup_insert_eq by lia. rewrite length_insert. split; [done|]. split; [done|].
    intros j' Hj'. rewrite HQ, Nat.eqb_refl by done. cbn [andb]. destruct (j' =? j) eqn:Ej; [apply Nat.eqb_eq in Ej as ->|apply Nat.eqb_neq in Ej].
    + by rewrite list_lookup_insert_eq by lia.
    + rewrite list_lookup_insert_ne by done. auto.
  - rewrite list_lookup_insert_ne by done. destruct (H i' Hi') as (r' & Er' & Hl' & Hr'). exists r'.
    split; [done|]. split; [done|]. intros j' Hj'. rewrite HQ by done. apply Nat.eqb_neq in Hne. rewrite Hne. auto.
Qed.

Lemma table_ext m n P Q dp : is_table m n P dp -> (forall i j, i < m -> j < n -> P i j = Q i j) -> is_table m n Q dp.
Proof.
  intros [Hl H] HPQ. split; [done|]. intros i Hi. destruct (H i Hi) as (r & Er & Hlr & Hr). exists r.
  split; [done|]. split; [done|]. intros j Hj. rewrite <- HPQ by done. auto.
Qed.

Section like_table.
Context (t p : list Z).

(** The entry for the first [i] chars of the text and [j] of the pattern *)
Definition like_at (i j : nat) : bool := like_rev (rev (take j p)) (rev (take i t)).

Lemma rev_take_S {A} (l : list A) k x : l !! k = Some x -> rev (take (S k) l) = x :: rev (take k l).
Proof. intros E. rewrite (take_S_r _ _ _ E), rev_app_distr. done. Qed.

Lemma like_at_row0 j c : p !! j = Some c -> like_at 0 (S j) = if (c =? percent)%Z then like_at 0 j else false.
Proof.
  intros E. unfold like_at. rewrite (rev_take_S _ _ _ E). cbn [like_rev take rev]. destruct (c =? percent)%Z; [|done].
  apply orb_false_r.
Qed.
Lemma like_at_col0 i : i < length t -> like_at (S i) 0 = false.
Proof.
  intros Hi. destruct (lookup_lt_is_Some_2 t i Hi) as [x E]. unfold like_at. by rewrite (rev_take_S _ _ _ E).
Qed.
Lemma like_at_step i j x c : t !! i = Some x -> p !! j = Some c ->
  like_at (S i) (S j) = if (c =? percent)%Z then like_at (S i) j || like_at i (S j)
                        else ((c =? underscore)%Z || (x =? c)%Z) && like_at i j.
Proof.
  intros Et Ep. unfold like_at. rewrite (rev_take_S _ _ _ Et), (rev_take_S _ _ _ Ep). cbn [like_rev].
  by destruct (c =? percent)%Z.
Qed.

Local Abbreviation m := (S (length t)).
Local Abbreviation n := (S (length p)).

(** The entries computed before cell [i0], [j0], row by row *)
Definition filled (i0 j0 i j : nat) : bool := ((i <? i0) || (i =? i0) && (j <? j0)) && like_at i j.

(** Decide the tests of [filled] from the order of the indices. *)
Ltac fill :=
  repeat match goal with
  | |- context [?a <? ?b] => destruct (Nat.ltb_spec a b)
  | |- context [?a =? ?b] => destruct (Nat.eqb_spec a b)
  end; subst; cbn [andb orb]; try lia; try done.

Lemma like_row0_step {E} j dp : 1 <= j < n -> is_table m n (filled 0 j) dp ->
  exists dp', like_row0 (E:=E) p j dp = Ok dp' /\ is_table m n (filled 0 (S j)) dp'.
Proof.
  intros Hj Ht. destruct j as [|j]; [lia|]. destruct (lookup_lt_is_Some_2 p j ltac:(lia)) as [c Ec].
  unfold like_row0, char_at. replace (S j - 1) with j by lia. rewrite Ec. cbn [obind].
  pose proof (like_at_row0 j c Ec) as R. destruct (c =? percent)%Z.
  - rewrite (table_get _ _ _ _ _ _ Ht) by lia. cbn [obind]. eapply table_set; [done|lia..|].
    intros i' j' Hi Hj'. unfold filled. fill.
  - exists dp. split; [done|]. eapply table_ext; [done|]. intros i' j' Hi Hj'. unfold filled. fill. rewrite <- R. f_equal. lia.
Qed.

Lemma like_cell_step {E} i j dp : 1 <= i < m -> 1 <= j < n -> is_table m n (filled i j) dp ->
  exists dp', like_cell (E:=E) t p i j dp = Ok dp' /\ is_table m n (filled i (S j)) dp'.
Proof.
  intros Hi Hj Ht. destruct i as [|i], j as [|j]; [lia..|].
  destruct (lookup_lt_is_Some_2 p j ltac:(lia)) as [c Ec]. destruct (lookup_lt_is_Some_2 t i ltac:(lia)) as [x Ex].
  unfold like_cell, char_at. replace (S j - 1) with j by lia. replace (S i - 1) with i by lia. rewrite Ec, Ex. cbn [obind].
  pose proof (like_at_step i j x c Ex Ec) as R.
  assert (forall a b, a <= i -> b < n -> filled (S i) (S j) a b = like_at a b) as Habove by (intros; unfold filled; fill).
  assert (filled (S i) (S j) (S i) j = like_at (S i) j) as Hleft by (unfold filled; fill).
  assert (forall b, like_at (S i) (S j) = b -> exists dp', dp_set (E:=E) dp (S i) (S j) b = Ok dp' /\
    is_table m n (filled (S i) (S (S j))) dp') as Hset.
  { intros b Hb. eapply table_set; [done|lia..|]. intros i' j' Hi' Hj'. unfold filled. fill. }
  destruct (c =? percent)%Z.
  - rewrite (table_get _ _ _ _ _ _ Ht), Hleft by lia. cbn [obind]. destruct (like_at (S i) j).
    + apply Hset. done.
    + rewrite (table_get _ _ _ _ _ _ Ht), Habove by lia. cbn [obind]. apply Hset. done.
  - assert (((c =? underscore)%Z || (x =? c)%Z) = false -> exists dp', Ok (E:=E) dp = Ok dp' /\
      is_table m n (filled (S i) (S (S j))) dp') as Hskip.
    { intros Hno. rewrite Hno in R. exists dp. split; [done|]. eapply table_ext; [done|]. intros i' j' Hi' Hj'.
      unfold filled. fill. cbn [andb] in R. rewrite <- R. f_equal. lia. }
    destruct (c =? underscore)%Z; [|destruct (x =? c)%Z; [|by apply Hskip]]; cbn [obind andb orb] in *;
      rewrite (table_get _ _ _ _ _ _ Ht), Habove by lia; cbn [obind]; by apply Hset.
Qed.

Lemma like_row_step {E} i dp : 1 <= i < m -> is_table m n (filled i 0) dp ->
  exists dp', for_each (like_cell (E:=E) t p i) (seq 1 (length p)) dp = Ok dp' /\ is_table m n (filled (S i) 0) dp'.
Proof.
  intros Hi Ht. destruct (for_each_seq (like_cell (E:=E) t p i) (fun j => is_table m n (filled i j)) 1 (length p) dp)
    as (dp' & Edp & Hdp).
  - intros j s Hj Hs. apply like_cell_step; [done|lia|done].
  - eapply table_ext; [done|]. intros i' j' Hi' Hj'. unfold filled. fill.
    destruct i as [|i]; [lia|]. replace j' with 0 by lia. by rewrite like_at_col0 by lia.
  - exists dp'. split; [done|]. eapply table_ext; [done|]. intros i' j' Hi' Hj'. unfold filled. fill.
Qed.
End like_table.

Lemma sql_like_decides (text pattern : bytes) :
  exists b, sql_like (E:=ExecError) text pattern = Ok b /\
    (b = true <-> like (chars (length text) text) (chars (length pattern) pattern)).
Proof.
  unfold sql_like. cbv zeta. generalize (chars (length text) text), (chars (length pattern) pattern). clear. intros t p.
  destruct (table_set (E:=ExecError) (S (length t)) (S (length p)) (fun _ _ => false)
    (replicate (S (length t)) (replicate (S (length p)) false)) 0 0 true (filled t p 0 1)) as (dp0 & -> & H0).
  { split; [by rewrite length_replicate|]. intros i Hi. exists (replicate (S (length p)) false).
    rewrite lookup_replicate_2 by done. rewrite length_replicate. split; [done|]. split; [done|].
    intros j Hj. by rewrite lookup_replicate_2. }
  1,2: lia.
  { intros i j Hi Hj. unfold filled. destruct i, j; try done. }
  cbn [obind]. destruct (for_each_seq (like_row0 (E:=ExecError) p) (fun j => is_table (S (length t)) (S (length p)) (filled t p 0 j))
    1 (length p) dp0) as (dp1 & -> & H1); [intros j s Hj; apply like_row0_step; lia|done|].
  cbn [obind]. destruct (for_each_seq (fun i => for_each (like_cell (E:=ExecError) t p i) (seq 1 (length p)))
    (fun i => is_table (S (length t)) (S (length p)) (filled t p i 0)) 1 (length t) dp1) as (dp2 & -> & H2).
  { intros i s Hi. apply like_row_step. lia. }
  { eapply table_ext; [done|]. intros i j Hi Hj. unfold filled. destruct i as [|[|i]]; [|done..].
    rewrite (proj2 (Nat.ltb_lt j (1 + length p))) by lia. done. }
  cbn [obind]. rewrite (table_get _ _ _ _ _ _ H2) by lia. eexists. split; [done|]. unfold filled.
  rewrite (proj2 (Nat.ltb_lt _ _)) by lia. cbn [orb andb]. unfold like_at.
  rewrite !take_ge by lia. rewrite like_rev_correct, !rev_involutive. done.
Qed.

(** The table that LIKE fills decides, without leaving its bounds, whether the
    text splits into pieces that the chars of the pattern stand for: any text
    for [%], one char for [_], itself for any other char. *)
Theorem sql_like_spec (text pattern : bytes) :
  exists b, sql_like (E:=ExecError) text pattern = Ok b /\
    (b = true <-> like (chars (length text) text) (chars (length pattern) pattern)).
Proof. apply sql_like_decides. Qed.

Example sql_like_samples :
  (sql_like (E:=unit) (bs "database") (bs "d%b_s%"), sql_like (E:=unit) (bs "database") (bs "d_b%"),
   sql_like (E:=unit) (bs "") (bs "%%"), sql_like (E:=unit) (bs "a%c") (bs "a_c")) = (Ok true, Ok false, Ok true, Ok true).
Proof. vm_compute. reflexivity. Qed.

(** ** Induction over scalar expressions *)

Lemma expr_rec (P : Expr -> Prop) :
  (forall l, P (ELiteral l)) -> (forall c, P (EColumn c)) ->
  (forall op l r s, P l -> P r -> P (EBinary op l r s)) -> (forall op e s, P e -> P (EUnary op e s)) ->
  (forall e n s, P e -> P (EIsNull e n s)) -> (forall e vs n s, P e -> Forall P vs -> P (EIn e vs n s)) ->
  (forall e q n s, P e -> P (EInSubquery e q n s)) -> (forall q n s, P (EExists q n s)) ->
  (forall q s, P (EScalarSubquery q s)) ->
  (forall e lo hi n s, P e -> P lo -> P hi -> P (EBetween e lo hi n s)) -> (forall e s, P e -> P (EParen e s)) ->
  (forall i s, P (EParameter i s)) -> (forall s, P (ECurrentUser s)) -> (forall e t s, P e -> P (ECast e t s)) ->
  (forall f args o s, Forall P args -> P (EFunction f args o s)) -> forall e, P e.
Proof.
  intros H1 H2 H3 H4 H5 H6 H7 H8 H9 H10 H11 H12 H13 H14 H15. fix IH 1.
  intros [l|c|op l r s|op e s|e n s|e vs n s|e q n s|q n s|q s|e lo hi n s|e s|i s|s|e t s|f args o s];
    [apply H1|apply H2|apply H3|apply H4|apply H5|apply H6|apply H7|apply H8|apply H9|apply H10|apply H11|apply H12
    |apply H13|apply H14|apply H15]; try apply IH.
  - induction vs; constructor; [apply IH|assumption].
  - induction args; constructor; [apply IH|assumption].
Qed.

(** ** Three-valued logic *)

Definition of_truth (a : option bool) : Value := match a with Some b => VBool b | None => VNull end.
Definition kleene_and (a b : option bool) : option bool :=
  match a, b with
  | Some false, _ | _, Some false => Some false
  | Some true, Some true => Some true
  | _, _ => None
  end.
Definition kleene_not (a : option bool) : option bool := option_map negb a.
Definition kleene_or (a b : option bool) : option bool := kleene_not (kleene_and (kleene_not a) (kleene_not b)).

(** AND, OR and NOT of truth values follow Kleene's tables, NULL being unknown. *)
Theorem connectives_kleene `{ExecEnv} (l r : Expr) (row : RowMap) (a b : option bool) (s : Span) :
  eval_expr l row = Ok (of_truth a) -> eval_expr r row = Ok (of_truth b) ->
  eval_expr (EBinary BAnd l r s) row = Ok (of_truth (kleene_and a b)) /\
  eval_expr (EBinary BOr l r s) row = Ok (of_truth (kleene_or a b)) /\
  eval_expr (EUnary UNot l s) row = Ok (of_truth (kleene_not a)).
Proof.
  intros El Er. cbn [eval_expr]. unfold eval_binary, eval_unary. rewrite El. cbn [obind].
  destruct a as [[]|], b as [[]|]; cbn [of_truth obind]; rewrite ?Er; done.
Qed.

(** ** Panics *)

Definition takes_argument (name : bytes) : bool :=
  bool_decide (to_upper name ∈ [bs "UPPER"; bs "LOWER"; bs "LENGTH"; bs "TRIM"; bs "ABS"; bs "ROUND"]).

(** Every scalar function that takes an argument has one. *)
Fixpoint calls_ok (e : Expr) : bool :=
  match e with
  | EBinary _ l r _ => calls_ok l && calls_ok r
  | EUnary _ e _ | EIsNull e _ _ | EParen e _ | ECast e _ _ => calls_ok e
  | EIn e vs _ _ => calls_ok e && forallb calls_ok vs
  | EBetween e lo hi _ _ => calls_ok e && calls_ok lo && calls_ok hi
  | EFunction f args _ _ =>
      forallb calls_ok args && (negb (takes_argument (id_value f)) || negb (length args =? 0))
  | _ => true
  end.

Lemma like_no_panic l r : like_match l r <> Panic.
Proof.
  unfold like_match. destruct l; try done. destruct r; try done.
  by destruct (sql_like_decides (from_utf8_lossy b) (from_utf8_lossy b0)) as (x & -> & _).
Qed.

Lemma vector_no_panic v : vector_as_f32s v <> Panic.
Proof.
  destruct v; try done. cbn [vector_as_f32s]. destruct (starts_with _ _).
  - unfold decode_ndv1, magic_slices, len. destruct (Z.ltb_spec (Z.of_nat (length b)) 4); [done|].
    rewrite (proj2 (Nat.ltb_ge _ _)) by lia. cbn [obind]. by repeat case_match.
  - unfold parse_vector_literal_flexible. destruct (from_utf8 b); [|done]. cbv zeta. case_match; [done|].
    apply traverse_no_panic. intros p. by case_match.
Qed.

Lemma distance_no_panic l r : vector_l2_distance l r <> Panic.
Proof.
  unfold vector_l2_distance. apply obind_no_panic; [apply vector_no_panic|]. intros a.
  apply obind_no_panic; [apply vector_no_panic|]. intros b. by case_match.
Qed.

Section unchecked.
Context `{ExecEnv} (unchecked : overflow_checks = false).

Lemma signed_no_panic {E} w z : signed_result (E:=E) w z <> Panic.
Proof. unfold signed_result. rewrite unchecked. by case_match. Qed.

Lemma year_loop_no_panic fuel days y : (0 <= days < 365 * Z.of_nat fuel)%Z -> year_loop fuel days y <> Panic.
Proof.
  revert days y. induction fuel as [|fuel IH]; intros days y Hd; [lia|]. cbn [year_loop]. fold (year_days y).
  destruct (days <? year_days y)%Z eqn:E; bool_to_prop; [done|]. apply obind_no_panic; [apply signed_no_panic|].
  intros y'. apply IH. unfold year_days in *. destruct (is_leap y); lia.
Qed.

Lemma date_unchecked ts : timestamp_to_date_bytes ts <> Panic.
Proof.
  unfold timestamp_to_date_bytes, epoch_day_to_ymd. cbv zeta.
  apply obind_no_panic; [|by intros [[? ?] ?]]. apply obind_no_panic; [|by intros [? ?]]. apply year_loop_no_panic.
  rewrite Nat2Z.inj_succ, Z2Nat.id by (Z.div_mod_to_equations; lia). Z.div_mod_to_equations. lia.
Qed.

Lemma cast_unchecked v ty : cast_value v ty <> Panic.
Proof. apply cast_panics_in_date. intros n _. apply date_unchecked. Qed.

#[local] Hint Resolve like_no_panic distance_no_panic signed_no_panic cast_unchecked : no_panic.

Ltac no_panic :=
  repeat first [apply obind_no_panic; [eauto with no_panic|intros ?] | done | solve [eauto with no_panic] | case_match].

Lemma cmp_no_panic l r op : cmp_values l r op <> Panic.
Proof. unfold cmp_values. by repeat case_match. Qed.
Lemma arithmetic_no_panic op l r : eval_arithmetic op l r <> Panic.
Proof. unfold eval_arithmetic. by repeat case_match. Qed.
#[local] Hint Resolve cmp_no_panic arithmetic_no_panic : no_panic.

Lemma function_no_panic name args row :
  Forall (fun e => eval_expr e row <> Panic) args -> negb (takes_argument name) || negb (length args =? 0) = true ->
  eval_scalar_function eval_expr name args row <> Panic.
Proof.
  intros Hargs Hn. assert (takes_argument name = true -> eval_arg0 eval_expr args row <> Panic) as H0.
  { intros Ht. rewrite Ht in Hn. by destruct Hargs. }
  assert (eval_coalesce eval_expr row args <> Panic) as Hc.
  { clear Hn H0. induction Hargs as [|e args He _ IH]; [done|]. cbn [eval_coalesce]. apply obind_no_panic; [done|].
    intros v. by destruct v. }
  unfold takes_argument in H0. unfold eval_scalar_function, string_unary. generalize dependent (to_upper name). intros u H0.
  assert (forall f, u ∈ [bs "UPPER"; bs "LOWER"; bs "LENGTH"; bs "TRIM"; bs "ABS"; bs "ROUND"] ->
    (forall v, f v <> Panic) -> (let? v := eval_arg0 eval_expr args row in f v) <> Panic (A:=Value)) as Harg.
  { intros f Hu Hf. apply obind_no_panic; [|done]. apply H0. by apply bool_decide_eq_true_2. }
  repeat match goal with |- context [bool_decide (u = ?w)] => destruct (decide (u = w)) as [->|?];
    [rewrite bool_decide_eq_true_2 by done|rewrite bool_decide_eq_false_2 by done] end;
    try done; (apply Harg; [set_solver|intros v; destruct v; no_panic]).
Qed.
End unchecked.

(** C37. Where the build does not check overflow, no expression panics, provided its
    scalar functions have an argument. *)
Theorem eval_never_panics `{ExecEnv} (e : Expr) (row : RowMap) :
  overflow_checks = false -> calls_ok e = true -> eval_expr e row <> Panic.
Proof.
  intros Hu. revert row. pattern e. apply expr_rec; clear e; try done.
  - intros [[t|] c|?|? ?] row _; cbn [eval_expr eval_column]; by repeat case_match.
  - intros op l r s IHl IHr row [Hl Hr]%andb_true_iff. specialize (IHl row Hl). specialize (IHr row Hr).
    cbn [eval_expr]. pose proof cmp_no_panic. pose proof arithmetic_no_panic. pose proof like_no_panic. pose proof distance_no_panic.
    unfold eval_binary. destruct op; repeat first [apply obind_no_panic; [done|intros ?]|done|case_match].
  - intros op e s IH row Hc. cbn [eval_expr]. unfold eval_unary. pose proof (signed_no_panic (E:=ExecError) Hu).
    apply obind_no_panic; [auto|]. intros v. destruct op, v; try done; by apply obind_no_panic.
  - intros e n s IH row Hc. cbn [eval_expr]. apply obind_no_panic; [auto|done].
  - intros e vs n s IH IHvs row [He Hvs]%andb_true_iff. cbn [eval_expr]. apply obind_no_panic; [auto|]. intros v.
    apply obind_no_panic; [|done]. induction IHvs as [|w vs Hw _ IHl]; [done|].
    cbn [forallb] in Hvs. apply andb_true_iff in Hvs as [Hcw Hvs]. cbn [eval_in]. apply obind_no_panic.
    + unfold eval_in_rhs. by destruct w; apply Hw.
    + intros x. destruct (sql_eq v x) as [[]|]; auto.
  - intros e lo hi n s IH1 IH2 IH3 row [[Hc1 Hc2]%andb_true_iff Hc3]%andb_true_iff. cbn [eval_expr]. unfold eval_between.
    pose proof cmp_no_panic. apply obind_no_panic; [auto|intros v]. apply obind_no_panic; [auto|intros x].
    apply obind_no_panic; [auto|intros y]. destruct v, x, y; try done; by repeat (apply obind_no_panic; [done|intros ?]).
  - intros e t s IH row Hc. cbn [eval_expr]. apply obind_no_panic; [auto|]. intros v. by apply cast_unchecked.
  - intros f args o s IH row [Hc Hn]%andb_true_iff. cbn [eval_expr]. destruct o; [done|].
    apply function_no_panic; [done| |done]. rewrite forallb_forall in Hc. eapply Forall_impl; [apply Forall_and; split; [exact IH|]|].
    + apply Forall_forall. intros x Hx. apply Hc. by apply list_elem_of_In.
    + cbn. intros x [Hx Hcx]. auto.
Qed.

Definition release_env : ExecEnv :=
  {| overflow_checks := false; to_uppercase := to_upper; to_lowercase := to_lower;
     exec_float_text := {| f64_to_string := fun _ => [] |}; show_f32 := fun _ => [] |}.

(** [LENGTH('ab') + ABS(-9223372036854775808)] *)
Definition s0 : Span := mkSpan 0 0.
Definition int_lit (n : Z) : Expr := ELiteral (LInteger n s0).
Definition str_lit (s : bytes) : Expr := ELiteral (LString s s0).
Definition null_lit : Expr := ELiteral (LNull s0).
Definition call (f : string) (args : list Expr) : Expr := EFunction (mkIdent (bs f) s0) args None s0.

Lemma eval_never_panics_witness :
  calls_ok (EBinary BPlus (call "length" [str_lit (bs "ab")]) (call "abs" [int_lit i64_min]) s0) = true /\
  eval_expr (H := release_env) (EBinary BPlus (call "length" [str_lit (bs "ab")]) (call "abs" [int_lit i64_min]) s0) [] <> Panic.
Proof. split; [reflexivity|]. apply (eval_never_panics (H := release_env)); reflexivity. Defined.

Lemma connectives_kleene_witness :
  eval_expr (H := demo_env) (EBinary BAnd null_lit (ELiteral (LBoolean false s0)) s0) [] = Ok (VBool false) /\
  eval_expr (H := demo_env) (EUnary UNot null_lit s0) [] = Ok VNull.
Proof.
  destruct (connectives_kleene (H := demo_env) null_lit (ELiteral (LBoolean false s0)) [] None (Some false) s0 eq_refl eq_refl)
    as (Ha & _ & Hn). split; [exact Ha|exact Hn].
Defined.

(** ** NULL, overflow and precision

    A comparison with NULL is false instead of unknown, so that its negation is
    true; NULL equals NULL; [1 NOT IN (NULL)] is true; the empty string is NULL; a
    function without argument panics; sums of integers are rounded to doubles. *)
Theorem eval_leaves_sql `{ExecEnv} (row : RowMap) :
  eval_expr (EUnary UNot (EBinary BLt null_lit (int_lit 1) s0) s0) row = Ok (VBool true) /\
  eval_expr (EBinary BEq null_lit null_lit s0) row = Ok (VBool true) /\
  eval_expr (EIn (int_lit 1) [null_lit] true s0) row = Ok (VBool true) /\
  eval_expr (EIsNull (str_lit []) false s0) row = Ok (VBool true) /\
  eval_expr (call "UPPER" []) row = Panic /\
  eval_expr (EBinary BEq (EBinary BPlus (int_lit 9007199254740992) (int_lit 1) s0) (int_lit 9007199254740992) s0) row =
    Ok (VBool true).
Proof. split_and!; vm_compute; reflexivity. Qed.
