(* ===== verification/Plan.v ===== *)
(** * Query plans (crates/noedb-planner/src: logical.rs, physical.rs, join.rs, lower.rs)

    The two plan trees, the join-key helpers and the one-to-one lowering.  Table
    and column names are UTF-8 bytes. *)

From S2P Require Import Prelude BTree Text Float64 Tokens Ast Display Utf8 StorageError Value Cast Eval.

Inductive AggFunc : Type :=
| CountStar
| CountCol (col : bytes)
| AggSum (col : bytes)
| AggAvg (col : bytes)
| AggMin (col : bytes)
| AggMax (col : bytes).

Record WindowCompute : Type := mkWindowCompute {
  wc_func : WindowFunc; wc_arg : option Expr; wc_spec : WindowSpec; wc_output_name : bytes }.

Inductive LogicalPlan : Type :=
| LScan (table prefix : bytes)
| LFilter (input : LogicalPlan) (predicate : Expr)
| LProject (input : LogicalPlan) (items : list SelectItem)
| LJoin (left right : LogicalPlan) (on : Expr) (left_outer : bool)
| LAggregate (input : LogicalPlan) (group_by : list bytes) (aggs : list (bytes * AggFunc))
| LSort (input : LogicalPlan) (keys : list (bytes * bool))
| LLimit (input : LogicalPlan) (limit offset : Z)
| LWindow (input : LogicalPlan) (windows : list WindowCompute)
| LSemiJoin (left right : LogicalPlan) (left_key right_key : bytes) (corr_on : option Expr) (negated : bool)
| LCteScan (name prefix : bytes)
| LSubqueryScan (input : LogicalPlan) (alias : bytes)
| LSetOp (left right : LogicalPlan) (op : SetOpKind) (all : bool)
| LDistinct (input : LogicalPlan).

Inductive PhysicalPlan : Type :=
| PSeqScan (table prefix : bytes) (columns : option (list bytes))
| PPkLookup (table row_id : bytes) (columns : option (list bytes))
| PIndexScan (table column : bytes) (point_key : option bytes) (columns : option (list bytes))
| PFilter (input : PhysicalPlan) (predicate : Expr)
| PProject (input : PhysicalPlan) (items : list SelectItem)
| PHashJoin (left right : PhysicalPlan) (on : Expr) (left_key right_key : bytes) (left_outer : bool)
| PNestedLoopJoin (left right : PhysicalPlan) (on : Expr)
| PMergeJoin (left right : PhysicalPlan) (on : Expr) (left_key right_key : bytes)
| PAggregate (input : PhysicalPlan) (group_by : list bytes) (aggs : list (bytes * AggFunc))
| PSort (input : PhysicalPlan) (keys : list (bytes * bool)) (top_k : option Z)
| PLimit (input : PhysicalPlan) (limit offset : Z)
| PWindow (input : PhysicalPlan) (windows : list WindowCompute)
| PSemiJoin (left right : PhysicalPlan) (left_key right_key : bytes) (corr_on : option Expr) (negated : bool)
| PCteScan (name prefix : bytes) (columns : option (list bytes))
| PSubqueryScan (input : PhysicalPlan) (prefix : bytes) (columns : option (list bytes))
| PSetOp (left right : PhysicalPlan) (op : SetOpKind) (all : bool)
| PDedup (input : PhysicalPlan).

(** ** Join keys *)

Record EquiJoinKeys : Type := mkEquiJoinKeys { ej_left : bytes; ej_right : bytes }.

(** [column_name] of join.rs: qualified where the reference is *)
Definition join_column_name (e : Expr) : option bytes :=
  match e with
  | EColumn (Named (Some t) c) => Some (id_value t ++ [dot] ++ id_value c)
  | EColumn (Named None c) => Some (id_value c)
  | _ => None
  end.

Fixpoint extract_equi_join (e : Expr) : option EquiJoinKeys :=
  match e with
  | EBinary BEq l r _ =>
      match join_column_name l with
      | None => None
      | Some a => match join_column_name r with None => None | Some b => Some (mkEquiJoinKeys a b) end
      end
  | EParen inner _ => extract_equi_join inner
  | _ => None
  end.

Fixpoint table_aliases (plan : LogicalPlan) : list bytes :=
  match plan with
  | LScan _ prefix | LCteScan _ prefix => match prefix with [] => [] | _ => [prefix] end
  | LSubqueryScan input alias => table_aliases input ++ [alias]
  | LJoin l r _ _ | LSetOp l r _ _ => table_aliases l ++ table_aliases r
  | LFilter input _ | LProject input _ | LAggregate input _ _ | LSort input _ | LLimit input _ _
  | LWindow input _ | LDistinct input => table_aliases input
  | LSemiJoin l _ _ _ _ _ => table_aliases l
  end.

Definition column_table_alias (col : bytes) : option bytes :=
  match rsplit_once dot col with Some (t, _) => Some t | None => None end.

Definition orient_join_keys (left right : LogicalPlan) (keys : EquiJoinKeys) : EquiJoinKeys :=
  let on plan col := match column_table_alias col with
                     | Some a => bool_decide (a ∈ table_aliases plan)
                     | None => false
                     end in
  if on left (ej_left keys) && on right (ej_right keys) then keys
  else if on left (ej_right keys) && on right (ej_left keys) then mkEquiJoinKeys (ej_right keys) (ej_left keys)
  else keys.

(** Exact, bare and qualified names match. *)
Definition column_name_matches (stored wanted : bytes) : bool :=
  bool_decide (stored = wanted) || bool_decide (bare_name stored = Some wanted) ||
  match bare_name wanted with
  | Some bare => bool_decide (stored = bare) || bool_decide (bare_name stored = Some bare)
  | None => false
  end.

Definition join_key_value (row : RowMap) (column : bytes) : option bytes :=
  option_map (fun c => as_bytes c.2) (row_find (fun n => column_name_matches n column) row).

(** ** Lowering *)

(** The keys of a join: empty names when the condition is no equality of columns *)
Definition join_keys (left right : LogicalPlan) (on : Expr) : bytes * bytes :=
  match extract_equi_join on with
  | Some k => let k := orient_join_keys left right k in (ej_left k, ej_right k)
  | None => ([], [])
  end.

Fixpoint lower (plan : LogicalPlan) : PhysicalPlan :=
  match plan with
  | LScan table prefix => PSeqScan table prefix None
  | LFilter input predicate => PFilter (lower input) predicate
  | LProject input items => PProject (lower input) items
  | LJoin l r on left_outer =>
      let keys := join_keys l r on in PHashJoin (lower l) (lower r) on keys.1 keys.2 left_outer
  | LAggregate input group_by aggs => PAggregate (lower input) group_by aggs
  | LSort input keys => PSort (lower input) keys None
  | LLimit input limit offset => PLimit (lower input) limit offset
  | LWindow input windows => PWindow (lower input) windows
  | LSemiJoin l r lk rk corr negated => PSemiJoin (lower l) (lower r) lk rk corr negated
  | LCteScan name prefix => PCteScan name prefix None
  | LSubqueryScan input alias => PSubqueryScan (lower input) alias None
  | LSetOp l r op all => PSetOp (lower l) (lower r) op all
  | LDistinct input => PDedup (lower input)
  end.
