(* ===== verification/TableScan.v ===== *)
(** * Rows and secondary indexes in storage (crates/noedb-planner/src: parallel.rs,
      pk.rs, index.rs and the row loading of executor.rs)

    A table's rows are packed records under [table 0 row_id] and single cells
    under [table 0 row_id 0 column]; a scan groups them by row, in parallel when
    there are many.  [RowStore] is what the executor uses of a storage engine.  An index
    is a set of keys in the store, one per indexed value and row, and a marker that it
    exists. *)

From S2P Require Import Prelude BTree StorageError Mvcc MemTable Text Float64 Tokens Ast Display Utf8 RowPack Value Cast Eval Plan.

(** ** The store *)

Class RowStore (T : Type) : Type := {
  rs_get : T -> bytes -> outcome StorageError (option bytes);
  rs_range : T -> bytes -> bytes -> list (bytes * bytes);
  rs_range_keys : T -> bytes -> bytes -> list bytes }.

(** The store stands for a map: a read returns its entry and a range its entries
    in ascending order of the key. *)
Class RowStoreLaws (T : Type) `{RowStore T} : Type := {
  rs_content : T -> gmap bytes bytes;
  rs_ok : T -> Prop;
  rs_get_law : forall s k, rs_ok s -> k <> [] -> rs_get s k = Ok (rs_content s !! k);
  rs_range_law : forall s start end_, rs_ok s ->
    rs_range s start end_ = filter (fun e => bytes_ltb e.1 start = false /\ bytes_lt e.1 end_) (btree_iter (rs_content s));
  rs_keys_law : forall s start end_, rs_ok s -> rs_range_keys s start end_ = map fst (rs_range s start end_) }.

(** Every engine with the trait's own [range] *)
#[global] Instance engine_rows {T} `{StorageEngine T} : RowStore T := {
  rs_get := se_get; rs_range := default_range; rs_range_keys := default_range_keys }.

(** ** Keys *)

Definition zero : byte := x00.
Definition table_prefix_key (table : bytes) : bytes := table ++ [zero].
Definition table_cell_key (table row_id column : bytes) : bytes := table ++ [zero] ++ row_id ++ [zero] ++ column.

(** [rest.iter().position(|&b| b == 0)]: the row id and, of a cell, the column *)
Definition split_row_id (rest : bytes) : bytes * option bytes :=
  match split_first zero rest with Some (id, col) => (id, Some col) | None => (rest, None) end.

(** Column pruning: [None] keeps every column. *)
Definition wanted (columns : option (list bytes)) (name : bytes) : bool :=
  match columns with Some cols => bool_decide (name ∈ cols) | None => true end.

(** ** Entries *)

Inductive EntryKind : Type :=
| Packed (record : bytes)
| Cell (col val : bytes).
Record Entry : Type := mkEntry { en_row_id : bytes; en_kind : EntryKind }.

(** [decode_row(..).unwrap_or_default()] *)
Definition decode_row_or_default (b : bytes) : Row := match decode_row b with Ok (Some r) => r | _ => [] end.

Definition entry_of (prefix : bytes) (columns : option (list bytes)) (e : bytes * bytes) : option Entry :=
  let '(key, val) := e in
  if starts_with prefix key then
    let rest := drop (length prefix) key in
    match split_row_id rest with
    | (row_id, Some col) =>
        let col_name := from_utf8_lossy col in
        if wanted columns col_name then Some (mkEntry row_id (Cell col_name val)) else None
    | (row_id, None) =>
        Some (mkEntry row_id (if is_packed_row val then Packed val else Cell (bs "value") val))
    end
  else None.

Definition decode_packed (b : bytes) (columns : option (list bytes)) : RowMap :=
  map (fun c => (c.1, VBytes c.2)) (filter (fun c => wanted columns c.1 = true) (decode_row_or_default b)).

(** [if let Some(slot) = row.iter_mut().find(..)]: overwrite the first cell of that
    name or append one *)
Fixpoint set_row_column (row : RowMap) (col : bytes) (val : Value) : RowMap :=
  match row with
  | [] => [(col, val)]
  | c :: row' => if bool_decide (c.1 = col) then (col, val) :: row' else c :: set_row_column row' col val
  end.

Definition merge_row (packed : option RowMap) (cells : RowMap) : RowMap :=
  match packed with
  | None => cells
  | Some row => fold_left (fun row c => set_row_column row c.1 c.2) cells row
  end.

Abbreviation Slot := (option RowMap * RowMap)%type.
Abbreviation Grouped := (gmap bytes (option RowMap * RowMap)).
Definition empty_slot : Slot := (None, []).

Definition slot_add (columns : option (list bytes)) (kind : EntryKind) (slot : Slot) : Slot :=
  match kind with
  | Packed record => (Some (decode_packed record columns), slot.2)
  | Cell col val => (slot.1, slot.2 ++ [(col, VBytes val)])
  end.

Definition ingest (columns : option (list bytes)) (acc : Grouped) (e : Entry) : Grouped :=
  <[en_row_id e := slot_add columns (en_kind e) (default empty_slot (acc !! en_row_id e))]> acc.

(** [into_values().map(..)] *)
Definition finish_rows (g : Grouped) : list RowMap := map (fun e => merge_row e.2.1 e.2.2) (btree_iter g).

Definition group_entries (entries : list Entry) (columns : option (list bytes)) : list RowMap :=
  finish_rows (fold_left (ingest columns) entries ∅).

(** ** The parallel path

    Rayon splits the entries into a tree of consecutive chunks, folds every chunk
    and reduces the results in order; the tree is up to the scheduler. *)

Inductive Splitting (A : Type) : Type :=
| Chunk (l : list A)
| Fork (l r : Splitting A).
Arguments Chunk {A} l.
Arguments Fork {A} l r.

Fixpoint unsplit {A} (t : Splitting A) : list A :=
  match t with Chunk l => l | Fork l r => unsplit l ++ unsplit r end.

Definition slot_append (slot : Slot) (right : Slot) : Slot :=
  (match right.1 with Some p => Some p | None => slot.1 end, slot.2 ++ right.2).

Definition merge_grouped (left right : Grouped) : Grouped :=
  fold_left (fun acc e => <[e.1 := slot_append (default empty_slot (acc !! e.1)) e.2]> acc) (btree_iter right) left.

Fixpoint reduce_grouped (columns : option (list bytes)) (t : Splitting Entry) : Grouped :=
  match t with
  | Chunk l => fold_left (ingest columns) l ∅
  | Fork l r => merge_grouped (reduce_grouped columns l) (reduce_grouped columns r)
  end.

Definition group_entries_parallel (t : Splitting Entry) (columns : option (list bytes)) : list RowMap :=
  finish_rows (reduce_grouped columns t).

Definition PARALLEL_THRESHOLD : nat := 512.

(** The scheduler's choice, which keeps the order of the entries *)
Class Scheduler : Type := {
  split_entries : list Entry -> Splitting Entry;
  split_entries_law : forall l, unsplit (split_entries l) = l }.

Section scan.
Context {T} `{RowStore T} `{Scheduler}.

Definition collect_entries (store : T) (table : bytes) (columns : option (list bytes)) : list Entry :=
  let prefix := table_prefix_key table in
  omap (entry_of prefix columns) (rs_range store prefix (prefix_end prefix)).

Definition load_table_rows (store : T) (table : bytes) (columns : option (list bytes)) : list RowMap :=
  let entries := collect_entries store table columns in
  if (length entries <? PARALLEL_THRESHOLD)%nat then group_entries entries columns
  else group_entries_parallel (split_entries entries) columns.

(** A row by its id: the packed record, then the cells over it. *)
Definition load_row_by_id (store : T) (table row_id : bytes) (columns : option (list bytes)) : option RowMap :=
  let packed_key := table ++ [zero] ++ row_id in
  let row := match rs_get store packed_key with
             | Ok (Some b) => if is_packed_row b then decode_packed b columns else []
             | _ => []
             end in
  let row :=
    match columns with
    | Some cols =>
        fold_left (fun row col => match rs_get store (table_cell_key table row_id col) with
                                  | Ok (Some val) => set_row_column row col (VBytes val)
                                  | _ => row
                                  end) cols row
    | None =>
        let prefix := packed_key ++ [zero] in
        fold_left (fun row e => if starts_with prefix e.1
                                then set_row_column row (from_utf8_lossy (drop (length prefix) e.1)) (VBytes e.2)
                                else row)
          (rs_range store prefix (prefix_end prefix)) row
    end in
  match row with [] => None | _ => Some row end.

(** pk.rs: the column whose value is the row id *)
Definition PK_MARKER_PREFIX : bytes := x02 :: bs "pk_meta" ++ [zero].
Definition marker_key (table : bytes) : bytes := PK_MARKER_PREFIX ++ table.
Definition row_id_column (store : T) (table : bytes) : option bytes :=
  match rs_get store (marker_key table) with
  | Ok (Some v) => Some (from_utf8_lossy v)
  | _ => None
  end.
End scan.

Definition mark_row_id_column {T} `{StorageEngine T} (store : T) (table column : bytes) : outcome StorageError T :=
  se_put store (marker_key table) column.
Definition unmark_row_id_column {T} `{StorageEngine T} (store : T) (table : bytes) : outcome StorageError T :=
  let? r := se_delete store (marker_key table) in Ok r.2.

Definition prefix_rows (rows : list RowMap) (prefix : bytes) : list RowMap :=
  match prefix with
  | [] => rows
  | _ => map (map (fun c => (prefix ++ [dot] ++ c.1, c.2))) rows
  end.

Definition prune_cte_rows (rows : list RowMap) (columns : option (list bytes)) : list RowMap :=
  match columns with
  | None => rows
  | Some cols => map (fun row => omap (fun c => row_find (fun n => column_name_matches n c) row) cols) rows
  end.

(** ** Any splitting groups as the serial loop does *)

Lemma merge_grouped_lookup (l r : Grouped) k :
  merge_grouped l r !! k =
  match r !! k with Some slot => Some (slot_append (default empty_slot (l !! k)) slot) | None => l !! k end.
Proof.
  unfold merge_grouped. assert (forall es (acc : Grouped), NoDup es.*1 ->
    fold_left (fun acc e => <[e.1 := slot_append (default empty_slot (acc !! e.1)) e.2]> acc) es acc !! k =
    match (list_to_map es : Grouped) !! k with
    | Some slot => Some (slot_append (default empty_slot (acc !! k)) slot)
    | None => acc !! k
    end) as Hfold.
  { intros es. induction es as [|[k' slot] es IH]; intros acc Hnd; cbn [fold_left list_to_map foldr]; [by rewrite lookup_empty|].
    inversion Hnd as [|? ? Hni Hnd']; subst. rewrite IH by done. cbn [fst snd]. destruct (decide (k' = k)) as [->|Hne].
    - rewrite !lookup_insert_eq. by rewrite (not_elem_of_list_to_map_1 _ _ Hni).
    - by rewrite !lookup_insert_ne by done. }
  rewrite Hfold by apply NoDup_btree_iter_keys.
  destruct (r !! k) as [slot|] eqn:E.
  - rewrite (elem_of_list_to_map_1 _ k slot); [done|apply NoDup_btree_iter_keys|by apply elem_of_btree_iter].
  - rewrite not_elem_of_list_to_map_1; [done|]. intros Hin. apply list_elem_of_fmap in Hin as ([k' s] & -> & Hin).
    apply elem_of_btree_iter in Hin. cbn in E. congruence.
Qed.

Lemma ingest_merge (columns : option (list bytes)) (l r : Grouped) e : merge_grouped l (ingest columns r e) = ingest columns (merge_grouped l r) e.
Proof.
  apply map_eq. intros k. unfold ingest. rewrite merge_grouped_lookup. destruct (decide (en_row_id e = k)) as [->|Hne].
  - rewrite !lookup_insert_eq, merge_grouped_lookup.
    destruct (r !! k) as [[p cs]|], (l !! k) as [[p' cs']|], (en_kind e); unfold slot_append, slot_add; cbn;
      rewrite ?app_assoc, ?app_nil_r; try done; by destruct p.
  - rewrite !lookup_insert_ne by done. by rewrite merge_grouped_lookup.
Qed.

Lemma merge_grouped_empty (l : Grouped) : merge_grouped l ∅ = l.
Proof. apply map_eq. intros k. by rewrite merge_grouped_lookup, lookup_empty. Qed.

Lemma reduce_grouped_serial (columns : option (list bytes)) (t : Splitting Entry) (acc : Grouped) :
  merge_grouped acc (reduce_grouped columns t) = fold_left (ingest columns) (unsplit t) acc.
Proof.
  assert (forall es (l r : Grouped), merge_grouped l (fold_left (ingest columns) es r) =
    fold_left (ingest columns) es (merge_grouped l r)) as Hfold.
  { intros es. induction es as [|e es IH]; intros l r; [done|]. cbn [fold_left]. by rewrite IH, ingest_merge. }
  revert acc. induction t as [es|l IHl r IHr]; intros acc; cbn [reduce_grouped unsplit].
  - by rewrite Hfold, merge_grouped_empty.
  - rewrite fold_left_app, <- IHl, <- IHr. assert (forall a b c : Grouped,
      merge_grouped a (merge_grouped b c) = merge_grouped (merge_grouped a b) c) as ->; [|done].
    intros a b c. apply map_eq. intros k. rewrite !merge_grouped_lookup.
    destruct (c !! k) as [[p cs]|], (b !! k) as [[p' cs']|]; unfold slot_append; cbn; try done.
    all: rewrite ?app_assoc; destruct p; done || by destruct p'.
Qed.

Lemma reduce_grouped_eq (columns : option (list bytes)) (t : Splitting Entry) : reduce_grouped columns t = fold_left (ingest columns) (unsplit t) ∅.
Proof.
  rewrite <- reduce_grouped_serial. apply map_eq. intros k. rewrite merge_grouped_lookup, lookup_empty.
  destruct (_ !! k) as [[[p|] cs]|]; done.
Qed.

Lemma load_table_rows_serial {T} `{RowStore T} `{Scheduler} (store : T) (table : bytes) (columns : option (list bytes)) :
  load_table_rows store table columns = group_entries (collect_entries store table columns) columns.
Proof.
  unfold load_table_rows. destruct (_ <? _)%nat; [done|]. unfold group_entries_parallel, group_entries.
  by rewrite reduce_grouped_eq, split_entries_law.
Qed.

(** However the scheduler splits the entries of a large table, the parallel scan
    returns the rows of the serial one, in the same order. *)
Theorem parallel_scan_serial {T} `{RowStore T} `{Scheduler} (store : T) (table : bytes) (columns : option (list bytes)) :
  load_table_rows store table columns = group_entries (collect_entries store table columns) columns.
Proof. apply load_table_rows_serial. Qed.

(** Two halves, folded apart *)
#[program] Definition demo_scheduler : Scheduler :=
  {| split_entries := fun l => Fork (Chunk (take (length l / 2) l)) (Chunk (drop (length l / 2) l)) |}.
Next Obligation. intros l. cbn. apply take_drop. Qed.

Lemma parallel_scan_serial_witness :
  exists entries : list Entry, length entries = 3%nat /\
    unsplit (split_entries (Scheduler := demo_scheduler) entries) = entries /\
    group_entries_parallel (split_entries (Scheduler := demo_scheduler) entries) None = group_entries entries None /\
    forall store : MemTable, load_table_rows (H0 := demo_scheduler) store (bs "t") None = group_entries (collect_entries store (bs "t") None) None.
Proof.
  exists [mkEntry (bs "1") (Cell (bs "a") (bs "x")); mkEntry (bs "1") (Cell (bs "b") (bs "y")); mkEntry (bs "2") (Cell (bs "a") (bs "z"))].
  split; [reflexivity|]. split; [reflexivity|]. split; [vm_compute; reflexivity|].
  intros store. apply (parallel_scan_serial (H0 := demo_scheduler)).
Defined.


(** ** index.rs *)

Definition META_PREFIX : bytes := x02 :: bs "idx_meta" ++ [zero].
Definition ENTRY_PREFIX : bytes := x02 :: bs "idx" ++ [zero].

Definition meta_key (table column : bytes) : bytes := META_PREFIX ++ table ++ [zero] ++ column.
Definition entry_prefix (table column : bytes) : bytes := ENTRY_PREFIX ++ table ++ [zero] ++ column ++ [zero].
Definition entry_key (table column key row_id : bytes) : bytes := entry_prefix table column ++ key ++ [zero] ++ row_id.

(** ** The in-memory view *)

Record BTreeIndex : Type := mkBTreeIndex { ix_entries : gmap bytes (list bytes) }.
Definition BTreeIndex_new : BTreeIndex := mkBTreeIndex ∅.
Definition BTreeIndex_insert (ix : BTreeIndex) (key row_id : bytes) : BTreeIndex :=
  mkBTreeIndex (<[key := default [] (ix_entries ix !! key) ++ [row_id]]> (ix_entries ix)).
Definition BTreeIndex_lookup (ix : BTreeIndex) (key : bytes) : list bytes := default [] (ix_entries ix !! key).
Definition BTreeIndex_iter (ix : BTreeIndex) : list (bytes * list bytes) := btree_iter (ix_entries ix).
Definition BTreeIndex_len (ix : BTreeIndex) : Z := Z.of_nat (size (ix_entries ix)).
Definition BTreeIndex_is_empty (ix : BTreeIndex) : bool := bool_decide (ix_entries ix = ∅).

(** ** Reads *)

(** The keys of a range that start with its prefix, without it *)
Definition prefixed_rests {T} `{RowStore T} (store : T) (prefix : bytes) : list bytes :=
  map (fun e => drop (length prefix) e.1)
    (filter (fun e => starts_with prefix e.1 = true) (rs_range store prefix (prefix_end prefix))).

Section reads.
Context {T} `{RowStore T}.

Definition index_exists (store : T) (table column : bytes) : bool :=
  match rs_get store (meta_key table column) with Ok (Some _) => true | _ => false end.

Definition index_lookup (store : T) (table column key : bytes) : list bytes :=
  prefixed_rests store (entry_prefix table column ++ key ++ [zero]).

Definition index_load (store : T) (table column : bytes) : BTreeIndex :=
  fold_left (fun ix rest => match split_first zero rest with
                            | Some (key, row_id) => BTreeIndex_insert ix key row_id
                            | None => ix
                            end) (prefixed_rests store (entry_prefix table column)) BTreeIndex_new.

Definition indexed_columns (store : T) (table : bytes) : list bytes :=
  map from_utf8_lossy (prefixed_rests store (META_PREFIX ++ table ++ [zero])).
End reads.

Definition entry_key_for (table column value row_id : bytes) : bytes := entry_key table column value row_id.

(** ** Building *)

(** The indexed value and the row id of a stored entry *)
Definition index_entry_of (prefix column : bytes) (e : bytes * bytes) : option (bytes * bytes) :=
  let '(key, val) := e in
  if starts_with prefix key then
    match split_row_id (drop (length prefix) key) with
    | (row_id, Some col) => if bool_decide (col = column) then Some (val, row_id) else None
    | (row_id, None) =>
        if is_packed_row val then
          match decode_row val with
          | Ok (Some cols) => match filter (fun c => c.1 = column) cols with c :: _ => Some (c.2, row_id) | [] => None end
          | _ => None
          end
        else None
    end
  else None.

Section build.
Context {T} `{RowStore T} `{StorageEngine T}.

Definition index_persist (store : T) (table column : bytes) (ix : BTreeIndex) : outcome StorageError T :=
  let? store := se_put store (meta_key table column) (bs "1") in
  for_each (fun e store =>
    for_each (fun row_id store => se_put store (entry_key table column e.1 row_id) []) e.2 store) (BTreeIndex_iter ix) store.

Definition index_build (store : T) (table column : bytes) : outcome StorageError T :=
  let prefix := table_prefix_key table in
  let ix := fold_left (fun ix e => BTreeIndex_insert ix e.1 e.2)
              (omap (index_entry_of prefix column) (rs_range store prefix (prefix_end prefix))) BTreeIndex_new in
  index_persist store table column ix.
End build.
