(* ===== verification/SetOps.v ===== *)
(** * UNION, INTERSECT, EXCEPT (crates/noedb-planner/src/setops.rs)

    Rows are identified by the bytes of [row_key]; hash sets and maps are finite
    sets and maps over those keys.  [sort_by] is std's stable sort. *)

From S2P Require Import Prelude BTree Text Float64 Tokens Ast Display Utf8 StorageError Value Cast Eval.

(** ** Stable sorting: [gt a b] is [cmp(a, b) == Greater] *)

Section sorting.
Context {A : Type} (gt : A -> A -> bool).

Fixpoint sort_insert (x : A) (l : list A) : list A :=
  match l with
  | [] => [x]
  | y :: l' => if gt x y then y :: sort_insert x l' else x :: l
  end.
Fixpoint sort_by (l : list A) : list A :=
  match l with [] => [] | x :: l' => sort_insert x (sort_by l') end.

Lemma sort_insert_perm x l : sort_insert x l ≡ₚ x :: l.
Proof.
  induction l as [|y l IH]; simpl; [done|]. destruct (gt x y); [|done]. rewrite IH. constructor.
Qed.
Lemma sort_by_perm l : sort_by l ≡ₚ l.
Proof. induction l as [|x l IH]; simpl; [done|]. by rewrite sort_insert_perm, IH. Qed.

(** A total preorder sorts. *)
Definition sort_le (a b : A) : Prop := gt a b = false.
Context (gt_total : forall a b, gt a b = true -> gt b a = false).
Context (le_trans : forall a b c, gt a b = false -> gt b c = false -> gt a c = false).

Lemma sort_insert_sorted x l : StronglySorted sort_le l -> StronglySorted sort_le (sort_insert x l).
Proof.
  induction 1 as [|y l Hl IH Hy]; simpl; [repeat constructor|]. destruct (gt x y) eqn:E.
  - constructor; [done|]. rewrite sort_insert_perm. constructor; [by apply gt_total|done].
  - constructor; [by constructor|]. constructor; [done|]. eapply Forall_impl; [done|]. intros z Hz. by eapply le_trans.
Qed.
Lemma sort_by_sorted l : StronglySorted sort_le (sort_by l).
Proof. induction l; simpl; [constructor|by apply sort_insert_sorted]. Qed.
End sorting.

Definition bytes_gt (a b : bytes) : bool := bytes_ltb b a.

(** ** Row keys *)

Definition row_key (row : RowMap) : bytes :=
  concat (map (fun c => c.1 ++ [x00] ++ as_bytes c.2 ++ [x00]) (sort_by (fun a b => bytes_gt a.1 b.1) row)).

Definition sorted_col_names (row : RowMap) : list bytes := sort_by bytes_gt (map fst row).

Definition align_set_op_rows (left right : list RowMap) : list RowMap :=
  match left, right with
  | [], _ | _, [] => right
  | l :: _, _ => map (fun row => zip (sorted_col_names l) (map snd row)) right
  end.

(** ** The operators *)

(** [seen.insert(key)] for every row in turn, keeping those that were new *)
Fixpoint dedup_rows (seen : gset bytes) (rows : list RowMap) : list RowMap :=
  match rows with
  | [] => []
  | row :: rows' =>
      let key := row_key row in
      if bool_decide (key ∈ seen) then dedup_rows seen rows' else row :: dedup_rows ({[key]} ∪ seen) rows'
  end.

Definition union_rows (left right : list RowMap) (all : bool) : list RowMap :=
  if all then left ++ right else dedup_rows ∅ (left ++ right).

(** [*counts.entry(key).or_insert(0) += 1] *)
Definition count_rows (rows : list RowMap) : gmap bytes nat :=
  fold_left (fun counts row => <[row_key row := S (default 0%nat (counts !! row_key row))]> counts) rows ∅.

(** Take a row from the counts: whether it was there, and what is left *)
Definition take_count (counts : gmap bytes nat) (key : bytes) : bool * gmap bytes nat :=
  match counts !! key with
  | Some (S n) => (true, <[key := n]> counts)
  | _ => (false, counts)
  end.

Fixpoint intersect_all (counts : gmap bytes nat) (left : list RowMap) : list RowMap :=
  match left with
  | [] => []
  | row :: left' =>
      let '(taken, counts') := take_count counts (row_key row) in
      if taken : bool then row :: intersect_all counts' left' else intersect_all counts' left'
  end.

Fixpoint except_all (counts : gmap bytes nat) (left : list RowMap) : list RowMap :=
  match left with
  | [] => []
  | row :: left' =>
      let '(taken, counts') := take_count counts (row_key row) in
      if taken : bool then except_all counts' left' else row :: except_all counts' left'
  end.

(** [filter(|row| member(key) && seen.insert(key))] *)
Fixpoint filter_distinct (member : bytes -> bool) (seen : gset bytes) (rows : list RowMap) : list RowMap :=
  match rows with
  | [] => []
  | row :: rows' =>
      let key := row_key row in
      if member key && negb (bool_decide (key ∈ seen))
      then row :: filter_distinct member ({[key]} ∪ seen) rows'
      else filter_distinct member seen rows'
  end.

Definition row_keys (rows : list RowMap) : gset bytes := list_to_set (map row_key rows).

Definition intersect_rows (left right : list RowMap) (all : bool) : list RowMap :=
  if all then intersect_all (count_rows right) left
  else filter_distinct (fun key => bool_decide (key ∈ row_keys right)) ∅ left.

Definition except_rows (left right : list RowMap) (all : bool) : list RowMap :=
  if all then except_all (count_rows right) left
  else filter_distinct (fun key => negb (bool_decide (key ∈ row_keys right))) ∅ left.

Definition combine_set_op (left right : list RowMap) (op : SetOpKind) (all : bool) : list RowMap :=
  let right := align_set_op_rows left right in
  match op with
  | SUnion => union_rows left right all
  | SIntersect => intersect_rows left right all
  | SExcept => except_rows left right all
  end.

(** ** Multiplicities *)

Local Open Scope nat_scope.












(** *** Rows by position *)


Abbreviation ascending := (StronglySorted (fun a b : bytes => bytes_lt a b)).












(** ** Keys and columns that collide

    Two different rows have one key, since names and values are separated by zero
    bytes that values may contain; NULL and the empty string have one key; and the
    right columns are paired with the sorted names of the left, so that the same
    query on both sides changes the order of its columns. *)
Theorem set_op_collisions :
  row_key [(bs "a", VBytes (bs "x" ++ [x00] ++ bs "b" ++ [x00] ++ bs "y"))] =
    row_key [(bs "a", VBytes (bs "x")); (bs "b", VBytes (bs "y"))] /\
  row_key [(bs "a", VNull)] = row_key [(bs "a", VBytes [])] /\
  combine_set_op [[(bs "b", VInteger 1); (bs "a", VInteger 2)]] [[(bs "b", VInteger 1); (bs "a", VInteger 2)]] SIntersect false = [] /\
  combine_set_op [[(bs "b", VInteger 1); (bs "a", VInteger 2)]] [[(bs "b", VInteger 3); (bs "a", VInteger 4)]] SUnion true =
    [[(bs "b", VInteger 1); (bs "a", VInteger 2)]; [(bs "a", VInteger 3); (bs "b", VInteger 4)]].
Proof. split_and!; vm_compute; reflexivity. Qed.
