(* ===== verification/RowOps.v ===== *)
(** * Operators on rows (crates/noedb-planner/src/executor.rs)

    Sorting, the three joins, semi-joins and aggregation, as functions on lists of
    rows; [Executor] composes them.  What std leaves open (the order in which a
    hash map is iterated, the result of an unstable selection) is a class. *)

From S2P Require Import Prelude BTree StorageError Text Float64 Tokens Ast Display Utf8 Value Cast Eval Plan SetOps.

(** ** What std leaves open *)

Class StdChoices : Type := {
  (** the order of [HashMap::into_iter] *)
  hash_iter : forall {K V : Type}, list (K * V) -> list (K * V);
  hash_iter_perm : forall {K V : Type} (l : list (K * V)), hash_iter l ≡ₚ l;
  (** [select_nth_unstable_by(n, cmp)]: the elements before the n-th are not greater
      than it, those after it not less *)
  select_nth : (RowMap -> RowMap -> bool) -> nat -> list RowMap -> list RowMap;
  select_nth_perm : forall gt n l, select_nth gt n l ≡ₚ l;
  select_nth_law : forall gt n l, (n < length l)%nat ->
    (forall a b, gt a b = true -> gt b a = false) -> (forall a b c, gt a b = false -> gt b c = false -> gt a c = false) ->
    forall i j a b, (i <= n)%nat -> (n <= j)%nat ->
      select_nth gt n l !! i = Some a -> select_nth gt n l !! j = Some b -> gt a b = false }.

(** ** Sorting *)

Definition opt_cmp {A} (cmp : A -> A -> comparison) (a b : option A) : comparison :=
  match a, b with
  | None, None => Eq
  | None, Some _ => Lt
  | Some _, None => Gt
  | Some x, Some y => cmp x y
  end.

(** NULLS LAST; a missing column is a NULL. *)
Definition compare_sort_values (a b : option Value) : comparison :=
  match a, b with
  | None, None | Some VNull, Some VNull => Eq
  | None, Some _ | Some VNull, Some _ => Gt
  | Some _, None | Some _, Some VNull => Lt
  | Some va, Some vb => bytes_cmp (as_bytes va) (as_bytes vb)
  end.

Definition find_column (row : RowMap) (col : bytes) : option Value :=
  option_map snd (row_find (fun n => column_name_matches n col) row).

Fixpoint compare_rows (a b : RowMap) (keys : list (bytes * bool)) : comparison :=
  match keys with
  | [] => Eq
  | (col, asc) :: keys' =>
      match compare_sort_values (find_column a col) (find_column b col) with
      | Eq => compare_rows a b keys'
      | ord => if asc : bool then ord else CompOpp ord
      end
  end.

Definition rows_gt (keys : list (bytes * bool)) (a b : RowMap) : bool :=
  match compare_rows a b keys with Gt => true | _ => false end.

(** ** Joins *)

Definition merge_rows (left right : RowMap) : RowMap := left ++ right.

(** [buckets.entry(key).or_default().push(row)] *)
Definition build_buckets (rows : list RowMap) (key : bytes) : gmap bytes (list RowMap) :=
  fold_left (fun b row => match join_key_value row key with
                          | Some k => <[k := default [] (b !! k) ++ [row]]> b
                          | None => b
                          end) rows ∅.

(** The columns of the right side, in order of appearance *)
Definition right_columns (rows : list RowMap) : list bytes :=
  fold_left (fun cols c => if bool_decide (c ∈ cols) then cols else cols ++ [c]) (map fst (concat rows)) [].

(** An unmatched left row of an outer join *)
Definition pad_row (row : RowMap) (right_cols : list bytes) : RowMap :=
  fold_left (fun row col => if bool_decide (col ∈ map fst row) then row else row ++ [(col, VNull)]) right_cols row.

Definition hash_join (left right : list RowMap) (left_key right_key : bytes) (left_outer : bool) : list RowMap :=
  let right_cols := if left_outer then right_columns right else [] in
  let buckets := build_buckets right right_key in
  concat (map (fun lrow =>
    match (match join_key_value lrow left_key with Some k => buckets !! k | None => None end) with
    | Some ((_ :: _) as matches) => map (merge_rows lrow) matches
    | _ => if left_outer then [pad_row lrow right_cols] else []
    end) left).

(** [sort_by_key(|row| join_key_value(row, key))] *)
Definition sort_by_join_key (key : bytes) : list RowMap -> list RowMap :=
  sort_by (fun a b => match opt_cmp bytes_cmp (join_key_value a key) (join_key_value b key) with Gt => true | _ => false end).

Section evaluated.
Context `{ExecEnv}.

(** The cursors [i] and [j] are the rest of each side. *)
Fixpoint merge_join_loop (fuel : nat) (on : Expr) (left_key right_key : bytes) (left right : list RowMap)
    : outcome ExecError (list RowMap) :=
  match fuel with
  | O => Panic
  | S fuel' =>
      match left, right with
      | l :: left', r :: right' =>
          match opt_cmp bytes_cmp (join_key_value l left_key) (join_key_value r right_key) with
          | Lt => merge_join_loop fuel' on left_key right_key left' right
          | Gt => merge_join_loop fuel' on left_key right_key left right'
          | Eq =>
              let merged := merge_rows l r in
              let? keep := eval_predicate on merged in
              let? rest := merge_join_loop fuel' on left_key right_key left right' in
              Ok (if keep : bool then merged :: rest else rest)
          end
      | _, _ => Ok []
      end
  end.

Definition merge_join (on : Expr) (left_key right_key : bytes) (left right : list RowMap) : outcome ExecError (list RowMap) :=
  merge_join_loop (S (length left + length right)) on left_key right_key
    (sort_by_join_key left_key left) (sort_by_join_key right_key right).

(** ** Semi-joins *)

Definition semi_join_rows_hash (left right : list RowMap) (left_key right_key : bytes) (negated : bool) : list RowMap :=
  let right_keys : gset bytes := list_to_set (omap (fun r => join_key_value r right_key) right) in
  filter (fun lrow => match join_key_value lrow left_key with
                      | Some k => xorb negated (bool_decide (k ∈ right_keys))
                      | None => false
                      end = true) left.

Fixpoint any_match (corr_on : Expr) (lrow : RowMap) (candidates : list RowMap) : outcome ExecError bool :=
  match candidates with
  | [] => Ok false
  | rrow :: candidates' =>
      let? ok := eval_predicate corr_on (merge_rows lrow rrow) in
      if ok : bool then Ok true else any_match corr_on lrow candidates'
  end.

Fixpoint semi_join_correlated (buckets : gmap bytes (list RowMap)) (left_key : bytes) (corr_on : Expr) (negated : bool)
    (left : list RowMap) : outcome ExecError (list RowMap) :=
  match left with
  | [] => Ok []
  | lrow :: left' =>
      match join_key_value lrow left_key with
      | None => semi_join_correlated buckets left_key corr_on negated left'
      | Some k =>
          let? matched := any_match corr_on lrow (default [] (buckets !! k)) in
          let? rest := semi_join_correlated buckets left_key corr_on negated left' in
          Ok (if xorb negated matched then lrow :: rest else rest)
      end
  end.

Definition semi_join_rows (left right : list RowMap) (left_key right_key : bytes) (corr_on : option Expr) (negated : bool)
    : outcome ExecError (list RowMap) :=
  match corr_on with
  | Some corr => semi_join_correlated (build_buckets right right_key) left_key corr negated left
  | None => Ok (semi_join_rows_hash left right left_key right_key negated)
  end.
End evaluated.

(** ** Aggregates *)

Record AggSlot : Type := mkAggSlot {
  count_star : Z; count_col : Z; agg_sum : f64; sum_count : Z; agg_min : option f64; agg_max : option f64 }.
Definition AggSlot_default : AggSlot := mkAggSlot 0 0 (S754_zero false) 0 None None.

Definition is_nan (f : f64) : bool := match f with S754_nan => true | _ => false end.
(** [f64::min] and [f64::max] ignore a NaN. *)
Definition f64_min (a b : f64) : f64 := if is_nan a then b else if is_nan b then a else if SFltb b a then b else a.
Definition f64_max (a b : f64) : f64 := if is_nan a then b else if is_nan b then a else if SFltb a b then b else a.

Definition row_value (row : RowMap) (col : bytes) : Value := default VNull (find_column row col).

Definition numeric_value (v : Value) : option f64 :=
  match v with
  | VInteger n => Some (f64_of_Z n)
  | VFloat f => Some f
  | VBytes b => parse_bytes_as_f64 b
  | _ => None
  end.

Definition AggSlot_update (func : AggFunc) (row : RowMap) (s : AggSlot) : AggSlot :=
  match func with
  | CountStar => mkAggSlot (count_star s + 1) (count_col s) (agg_sum s) (sum_count s) (agg_min s) (agg_max s)
  | CountCol col =>
      match row_value row col with
      | VNull => s
      | _ => mkAggSlot (count_star s) (count_col s + 1) (agg_sum s) (sum_count s) (agg_min s) (agg_max s)
      end
  | AggSum col | AggAvg col =>
      match numeric_value (row_value row col) with
      | Some n => mkAggSlot (count_star s) (count_col s) (f64_add (agg_sum s) n) (sum_count s + 1) (agg_min s) (agg_max s)
      | None => s
      end
  | AggMin col =>
      match numeric_value (row_value row col) with
      | Some n => mkAggSlot (count_star s) (count_col s) (agg_sum s) (sum_count s)
                    (Some match agg_min s with Some m => f64_min m n | None => n end) (agg_max s)
      | None => s
      end
  | AggMax col =>
      match numeric_value (row_value row col) with
      | Some n => mkAggSlot (count_star s) (count_col s) (agg_sum s) (sum_count s) (agg_min s)
                    (Some match agg_max s with Some m => f64_max m n | None => n end)
      | None => s
      end
  end.

Definition AggSlot_finish (func : AggFunc) (s : AggSlot) : Value :=
  match func with
  | CountStar => VInteger (Z.min (count_star s) i64_max)
  | CountCol _ => VInteger (Z.min (count_col s) i64_max)
  | AggSum _ => VFloat (agg_sum s)
  | AggAvg _ => if sum_count s =? 0 then VNull else VFloat (f64_div (agg_sum s) (f64_of_Z (sum_count s)))
  | AggMin _ => match agg_min s with Some m => VFloat m | None => VNull end
  | AggMax _ => match agg_max s with Some m => VFloat m | None => VNull end
  end.

Abbreviation GroupKey := (list (bytes * bytes)).
Definition group_key (group_by : list bytes) (row : RowMap) : GroupKey :=
  map (fun col => (col, as_bytes (row_value row col))) group_by.

(** The slots of a group by output name: two aggregates of one name share a slot. *)
Definition update_named (aggs : list (bytes * AggFunc)) (row : RowMap) (slots : gmap bytes AggSlot) : gmap bytes AggSlot :=
  fold_left (fun slots a => <[a.1 := AggSlot_update a.2 row (default AggSlot_default (slots !! a.1))]> slots) aggs slots.

Definition find_agg (aggs : list (bytes * AggFunc)) (name : bytes) : option AggFunc :=
  match filter (fun a => a.1 = name) aggs with a :: _ => Some a.2 | [] => None end.

Definition key_fields (k : GroupKey) : RowMap := map (fun c => (c.1, VBytes c.2)) k.

Section aggregates.
Context `{StdChoices}.

Definition aggregate_rows (rows : list RowMap) (group_by : list bytes) (aggs : list (bytes * AggFunc)) : list RowMap :=
  let groups : gmap GroupKey (gmap bytes AggSlot) :=
    fold_left (fun g row => let k := group_key group_by row in <[k := update_named aggs row (default ∅ (g !! k))]> g) rows ∅ in
  let groups := if bool_decide (groups = ∅) && bool_decide (group_by = [])
                then {[ [] := list_to_map (map (fun a => (a.1, AggSlot_default)) aggs) ]} else groups in
  map (fun g : GroupKey * gmap bytes AggSlot =>
    key_fields g.1 ++
    omap (fun s : bytes * AggSlot => match find_agg aggs s.1 with
                                     | Some func => Some (s.1, AggSlot_finish func s.2)
                                     | None => None
                                     end) (hash_iter (map_to_list g.2))) (hash_iter (map_to_list groups)).

Definition sort_rows (rows : list RowMap) (keys : list (bytes * bool)) (top_k : option Z) : list RowMap :=
  let rows := match top_k with
              | Some k => if (0 <? k) && (k <? len rows)
                          then take (Z.to_nat k) (select_nth (rows_gt keys) (Z.to_nat k - 1) rows) else rows
              | None => rows
              end in
  sort_by (rows_gt keys) rows.
End aggregates.

(** ** Projection *)

Definition item_expr (i : SelectItem) : Expr := let 'mkSelectItem e _ := i in e.
Definition item_alias (i : SelectItem) : option Ident := let 'mkSelectItem _ a := i in a.

Definition cell_name (item : SelectItem) : bytes :=
  match item_alias item, item_expr item with
  | Some a, _ => id_value a
  | None, EColumn (Named _ c) => id_value c
  | None, _ => bs "col"
  end.
Definition record_from_cells (items : list SelectItem) (cells : list Value) : RowMap :=
  zip (map cell_name items) cells.

Definition project_row `{ExecEnv} (items : list SelectItem) (row : RowMap) : outcome ExecError RowMap :=
  let? cells := traverse (fun i => eval_expr (item_expr i) row) items in Ok (record_from_cells items cells).

(** ** An instance: insertion order for hash maps, sorting for selection *)

Lemma sorted_lookup {A} (R : A -> A -> Prop) l i j a b :
  StronglySorted R l -> (i < j)%nat -> l !! i = Some a -> l !! j = Some b -> R a b.
Proof.
  intros S. revert i j. induction S as [|x l S IH Hx]; intros i j Hij Hi Hj; [done|]. destruct i as [|i], j as [|j]; [lia| |lia|].
  - simplify_eq/=. rewrite Forall_forall in Hx. by eapply Hx, list_elem_of_lookup_2.
  - eapply (IH i j); [lia|done..].
Qed.

#[program] Definition demo_choices : StdChoices :=
  {| hash_iter := fun K V l => l; select_nth := fun gt n l => sort_by gt l |}.
Next Obligation. done. Qed.
Next Obligation. intros. apply sort_by_perm. Qed.
Next Obligation.
  intros gt n l _ Htot Htr i j a b Hi Hj Ea Eb. destruct (decide (i = j)) as [->|].
  - assert (a = b) as -> by congruence. destruct (gt b b) eqn:E; [|done]. pose proof (Htot _ _ E). congruence.
  - apply (sorted_lookup _ _ i j _ _ (sort_by_sorted gt Htot Htr l)); [lia|done..].
Qed.
