(* ===== verification/WindowExec.v ===== *)
(** * Window functions (crates/noedb-planner/src/window_exec.rs)

    Rows are partitioned, sorted and extended by one column per function.  The
    column is appended row by row, so later frames see the rows already
    extended. *)

From S2P Require Import Prelude BTree StorageError Text Float64 Tokens Ast Display Utf8 Value Cast Eval Plan SetOps RowOps.

Definition spec_partition_by (s : WindowSpec) : list Expr := let 'mkWindowSpec p _ _ := s in p.
Definition spec_order_by (s : WindowSpec) : list OrderKey := let 'mkWindowSpec _ o _ := s in o.
Definition spec_frame (s : WindowSpec) : option WindowFrame := let 'mkWindowSpec _ _ f := s in f.
Definition key_expr (k : OrderKey) : Expr := let 'mkOrderKey e _ := k in e.
Definition key_asc (k : OrderKey) : bool := let 'mkOrderKey _ a := k in a.

Definition value_as_f64 (v : Value) : option f64 :=
  match v with
  | VNull => None
  | VInteger n => Some (f64_of_Z n)
  | VFloat f => Some f
  | VBool b => Some (f64_of_Z (if b then 1 else 0))
  | VBytes b | VDate b => parse_bytes_as_f64 b
  | VTimestamp ts => Some (f64_of_Z ts)
  | VVector _ => None
  end.

(** [window_exec::column_name_from_expr]: the bare column *)
Definition order_keys_to_sort (order_by : list OrderKey) : list (bytes * bool) :=
  omap (fun k => match key_expr k with EColumn (Named _ c) => Some (id_value c, key_asc k) | _ => None end) order_by.

Definition effective_frame (spec : WindowSpec) : WindowFrame :=
  match spec_frame spec with
  | Some f => f
  | None => mkWindowFrame FrameRows UnboundedPreceding
              (match spec_order_by spec with [] => UnboundedFollowing | _ => CurrentRow end)
  end.

(** [sum.fract() == 0.0] *)
Definition is_integral (f : f64) : bool :=
  match f with
  | S754_zero _ => true
  | S754_finite _ m e => (0 <=? e) || (Z.pos m mod 2 ^ (- e) =? 0)
  | _ => false
  end.
Definition number_value (f : f64) : Value := if is_integral f then VInteger (f64_to_i64 f) else VFloat f.

Section windows.
Context `{ExecEnv} `{StdChoices}.

Definition usize_add (a b : Z) : outcome ExecError Z :=
  if a + b <? 2 ^ 64 then Ok (a + b) else if overflow_checks then Panic else Ok (wrap 64 (a + b)).

Definition bound_to_index (bound : FrameBound) (n row_idx : Z) : outcome ExecError Z :=
  let last := Z.max 0 (n - 1) in
  let? i := match bound with
            | UnboundedPreceding => Ok 0
            | Preceding k => Ok (Z.max 0 (row_idx - k))
            | CurrentRow => Ok row_idx
            | Following k => let? s := usize_add row_idx k in Ok (Z.min s last)
            | UnboundedFollowing => Ok last
            end in
  Ok (Z.min i last).

Definition frame_row_range (n row_idx : Z) (frame : WindowFrame) : outcome ExecError (Z * Z) :=
  let? start := bound_to_index (wf_start frame) n row_idx in
  let? end_ := bound_to_index (wf_end frame) n row_idx in
  Ok (start, Z.min end_ (Z.max 0 (n - 1))).

(** [&part[start..=end]] *)
Definition frame_rows (part : list RowMap) (start end_ : Z) : outcome ExecError (list RowMap) :=
  if (start <=? end_ + 1) && (end_ <? len part)
  then Ok (take (Z.to_nat (end_ + 1 - start)) (drop (Z.to_nat start) part)) else Panic.

Definition frame_sum (arg : Expr) (rows : list RowMap) : outcome ExecError (f64 * Z) :=
  for_each (fun row acc =>
    let? v := eval_expr arg row in
    Ok match value_as_f64 v with
       | Some x => (f64_add acc.1 x, acc.2 + 1)
       | None => acc
       end) rows (S754_zero false, 0).

(** [part[i].push((output, value))] *)
Definition push_cell (i : nat) (output : bytes) (v : Value) (part : list RowMap) : list RowMap :=
  alter (fun row => row ++ [(output, v)]) i part.

Definition assign_aggregate_values (func : WindowFunc) (arg : Expr) (output : bytes) (frame : WindowFrame)
    (part : list RowMap) : outcome ExecError (list RowMap) :=
  for_each (fun i part =>
    let? range := frame_row_range (len part) (Z.of_nat i) frame in
    let? rows := frame_rows part range.1 range.2 in
    let? sc := frame_sum arg rows in
    let '(sum, count) := sc in
    let? value := match func with
                  | WSum => Ok (if count =? 0 then VNull else number_value sum)
                  | WAvg => Ok (if count =? 0 then VNull else number_value (f64_div sum (f64_of_Z count)))
                  | _ => Err UnsupportedExpr
                  end in
    Ok (push_cell i output value part)) (seq 0 (length part)) part.

(** The loop keeps the dense rank and the rank of the previous row. *)
Definition ranking_step (func : WindowFunc) (output : bytes) (sort_keys : list (bytes * bool)) (i : nat)
    (acc : Z * Z * list RowMap) : Z * Z * list RowMap :=
  let '(dense, rank, part) := acc in
  let same := match i with
              | O => false
              | S j => match part !! j, part !! i with
                       | Some a, Some b => match compare_rows a b sort_keys with Eq => true | _ => false end
                       | _, _ => false
                       end
              end in
  let '(dense, rank) := if (0 <? i)%nat && negb same then (dense + 1, Z.of_nat i + 1) else (dense, rank) in
  let part := match func with
              | RowNumber => push_cell i output (VInteger (Z.of_nat i + 1)) part
              | Rank => push_cell i output (VInteger rank) part
              | DenseRank => push_cell i output (VInteger dense) part
              | _ => part
              end in
  (dense, rank, part).

Definition assign_ranking_values (func : WindowFunc) (output : bytes) (sort_keys : list (bytes * bool))
    (part : list RowMap) : list RowMap :=
  (fold_left (fun acc i => ranking_step func output sort_keys i acc) (seq 0 (length part)) (1, 1, part)).2.

Definition partition_key (row : RowMap) (partition_by : list Expr) : outcome ExecError bytes :=
  let? vs := traverse (fun e => eval_expr e row) partition_by in
  Ok (concat (map (fun v => as_bytes v ++ [x00]) vs)).

Definition partition_rows (rows : list RowMap) (partition_by : list Expr) : outcome ExecError (list (list RowMap)) :=
  match partition_by with
  | [] => Ok [rows]
  | _ =>
      let? groups := for_each (fun row (g : gmap bytes (list RowMap)) =>
        let? k := partition_key row partition_by in
        Ok (<[k := default [] (g !! k) ++ [row]]> g)) rows ∅ in
      Ok (map snd (hash_iter (map_to_list groups)))
  end.

Definition window_partition (win : WindowCompute) (sort_keys : list (bytes * bool)) (part : list RowMap)
    : outcome ExecError (list RowMap) :=
  let part := match sort_keys with [] => part | _ => sort_by (rows_gt sort_keys) part end in
  if WindowFunc_is_ranking (wc_func win)
  then Ok (assign_ranking_values (wc_func win) (wc_output_name win) sort_keys part)
  else match wc_arg win with
       | None => Err UnsupportedExpr
       | Some arg => assign_aggregate_values (wc_func win) arg (wc_output_name win) (effective_frame (wc_spec win)) part
       end.

Definition apply_one_window (rows : list RowMap) (win : WindowCompute) : outcome ExecError (list RowMap) :=
  if WindowFunc_is_ranking (wc_func win) && bool_decide (length (spec_order_by (wc_spec win)) = 0%nat)
  then Err UnsupportedExpr
  else
    let sort_keys := order_keys_to_sort (spec_order_by (wc_spec win)) in
    let? parts := partition_rows rows (spec_partition_by (wc_spec win)) in
    let? done := traverse (window_partition win sort_keys) parts in
    Ok (concat done).

Definition apply_windows (rows : list RowMap) (windows : list WindowCompute) : outcome ExecError (list RowMap) :=
  for_each (fun win rows => apply_one_window rows win) windows rows.
End windows.
