(* ===== verification/StreamAgg.v ===== *)
(** * Streaming aggregation (crates/noedb-planner/src/stream_agg.rs)

    Aggregates over one table are computed in a pass over the storage range that
    keeps only the columns it needs. *)

From S2P Require Import Prelude BTree StorageError Mvcc MemTable Text Float64 Tokens Ast Display Utf8 RowPack Value Cast Eval Plan TableScan SetOps RowOps.

Fixpoint expr_is_streamable (e : Expr) : bool :=
  match e with
  | ELiteral _ => true
  | EColumn (Named _ _) => true
  | EColumn _ => false
  | EBinary _ l r _ => expr_is_streamable l && expr_is_streamable r
  | EUnary _ e _ | EIsNull e _ _ | ECast e _ _ => expr_is_streamable e
  | EParen e _ => expr_is_streamable e
  | EIn e vs _ _ => expr_is_streamable e && forallb expr_is_streamable vs
  | EBetween e lo hi _ _ => expr_is_streamable e && expr_is_streamable lo && expr_is_streamable hi
  | EFunction _ args over _ => match over with None => forallb expr_is_streamable args | Some _ => false end
  | _ => false
  end.

(** [collect_predicate_columns], the columns in order of appearance *)
Fixpoint predicate_columns (e : Expr) : list bytes :=
  match e with
  | EColumn (Named table c) =>
      [match table with Some t => id_value t ++ [dot] ++ id_value c | None => id_value c end]
  | EBinary _ l r _ => predicate_columns l ++ predicate_columns r
  | EUnary _ e _ | EIsNull e _ _ | ECast e _ _ => predicate_columns e
  | EParen e _ => predicate_columns e
  | EIn e vs _ _ => predicate_columns e ++ concat (map predicate_columns vs)
  | EBetween e lo hi _ _ => predicate_columns e ++ predicate_columns lo ++ predicate_columns hi
  | EFunction _ args _ _ => concat (map predicate_columns args)
  | _ => []
  end.

Definition agg_column (func : AggFunc) : option bytes :=
  match func with
  | CountStar => None
  | CountCol c | AggSum c | AggAvg c | AggMin c | AggMax c => Some c
  end.

(** The bare names that the pass extracts, without repetition *)
Definition needed_columns (group_by : list bytes) (aggs : list (bytes * AggFunc)) (predicate : option Expr) : list bytes :=
  fold_left (fun needed name =>
    let bare := default name (bare_name name) in
    if bool_decide (bare ∈ needed) then needed else needed ++ [bare])
    (group_by ++ omap (fun a => agg_column a.2) aggs ++ match predicate with Some p => predicate_columns p | None => [] end) [].

(** [upsert]: later writes win. *)
Definition upsert (row : RowMap) (name val : bytes) : RowMap := set_row_column row name (VBytes val).

(** The pairs of [iter_row] *)
Definition packed_items (val : bytes) : outcome ExecError Row :=
  match (let? it := iter_row val in collect_iter it) with Ok r => Ok r | _ => Panic end.

Abbreviation StreamGroups := (gmap (list (bytes * bytes)) (list AggSlot)).

Definition fold_row (groups : StreamGroups) (row : RowMap) (group_by : list bytes) (aggs : list (bytes * AggFunc))
    : StreamGroups :=
  let key := group_key group_by row in
  let slots := default (replicate (length aggs) AggSlot_default) (groups !! key) in
  <[key := zip_with (fun a s => AggSlot_update a.2 row s) aggs slots]> groups.

(** Distinct row ids in a run of keys: the ids of one row are consecutive. *)
Fixpoint count_row_ids (prefix : bytes) (last_id : option bytes) (keys : list bytes) : Z :=
  match keys with
  | [] => 0
  | key :: keys' =>
      if starts_with prefix key then
        let id := (split_row_id (drop (length prefix) key)).1 in
        if bool_decide (last_id = Some id) then count_row_ids prefix last_id keys'
        else 1 + count_row_ids prefix (Some id) keys'
      else count_row_ids prefix last_id keys'
  end.

Record StreamState : Type := mkStream { st_groups : StreamGroups; st_current : option bytes; st_row : RowMap }.

Section stream.
Context {T} `{RowStore T} `{ExecEnv} `{StdChoices}.
Context (predicate : option Expr) (group_by : list bytes) (aggs : list (bytes * AggFunc)) (needed : list bytes).

Definition flush (s : StreamState) : outcome ExecError StreamState :=
  let? keep := match predicate with Some p => eval_predicate p (st_row s) | None => Ok true end in
  Ok (mkStream (if keep : bool then fold_row (st_groups s) (st_row s) group_by aggs else st_groups s) (st_current s) []).

Definition stream_entry (prefix : bytes) (e : bytes * bytes) (s : StreamState) : outcome ExecError StreamState :=
  let '(key, val) := e in
  if starts_with prefix key then
    let '(row_id, cell_col) := split_row_id (drop (length prefix) key) in
    let? s := if bool_decide (st_current s = Some row_id) then Ok s
              else let? s := match st_current s with Some _ => flush s | None => Ok s end in
                   Ok (mkStream (st_groups s) (Some row_id) (st_row s)) in
    let? row :=
      match cell_col with
      | None =>
          if is_packed_row val then
            let? items := packed_items val in
            Ok (fold_left (fun row c => if bool_decide (c.1 ∈ needed) then upsert row c.1 c.2 else row) items (st_row s))
          else Ok (if bool_decide (bs "value" ∈ needed) then upsert (st_row s) (bs "value") val else st_row s)
      | Some col =>
          match from_utf8 col with
          | None => Ok (st_row s)
          | Some name => Ok (if bool_decide (name ∈ needed) then upsert (st_row s) name val else st_row s)
          end
      end in
    Ok (mkStream (st_groups s) (st_current s) row)
  else Ok s.

(** [run]: the key-only count, or the pass over the entries *)
Definition stream_run (store : T) (table : bytes) : outcome ExecError (list RowMap) :=
  let prefix := table_prefix_key table in
  let end_ := prefix_end prefix in
  if bool_decide (needed = []) && bool_decide (group_by = []) && negb (bool_decide (is_Some predicate)) then
    let rows := count_row_ids prefix None (rs_range_keys store prefix end_) in
    let slot := mkAggSlot rows 0 (S754_zero false) 0 None None in
    Ok [map (fun a : bytes * AggFunc => (a.1, AggSlot_finish a.2 slot)) aggs]
  else
    let? s := for_each (stream_entry prefix) (rs_range store prefix end_) (mkStream ∅ None []) in
    let? s := match st_current s with Some _ => flush s | None => Ok s end in
    let groups := if bool_decide (st_groups s = ∅) && bool_decide (group_by = [])
                  then {[ [] := replicate (length aggs) AggSlot_default ]} else st_groups s in
    Ok (map (fun g : list (bytes * bytes) * list AggSlot =>
          key_fields g.1 ++ zip_with (fun (a : bytes * AggFunc) s => (a.1, AggSlot_finish a.2 s)) aggs g.2)
        (hash_iter (map_to_list groups))).
End stream.

(** [Some] when the plan under the aggregate is a scan of a table, filtered or not *)
Definition try_streaming_aggregate {T} `{RowStore T} `{ExecEnv} `{StdChoices} (input : PhysicalPlan) (group_by : list bytes)
    (aggs : list (bytes * AggFunc)) (store : T) : option (outcome ExecError (list RowMap)) :=
  let go table predicate :=
    Some (stream_run predicate group_by aggs (needed_columns group_by aggs predicate) store table) in
  match input with
  | PSeqScan table _ _ => match table with [] => None | _ => go table None end
  | PFilter (PSeqScan table _ _) predicate =>
      match table with
      | [] => None
      | _ => if expr_is_streamable predicate then go table (Some predicate) else None
      end
  | _ => None
  end.
