(* ===== verification/Executor.v ===== *)
(** * The executor (crates/noedb-planner/src/executor.rs)

    A physical plan becomes a tree of pull iterators; [next_row] pulls one row.
    Loops and nested pulls take fuel; [exec_measure] is enough of it. *)

From S2P Require Import Prelude BTree StorageError Mvcc MemTable Text Float64 Tokens Ast Display Utf8 RowPack Value Cast Eval Plan TableScan SetOps RowOps WindowExec StreamAgg.

(** The operators whose rows are ready when they are built *)
Inductive ReadyKind : Type :=
| KSeqScan | KIndexScan | KHashJoin | KMergeJoin | KAggregate | KSort | KWindow | KSemiJoin | KSetOp.

Inductive ExecState : Type :=
| ExDone
| ExLiteralProject (items : list SelectItem) (emitted : bool)
| ExReady (kind : ReadyKind) (rows : list RowMap)
| ExFilter (predicate : Expr) (child : ExecState)
| ExProject (items : list SelectItem) (child : ExecState)
| ExNestedLoopJoin (on : Expr) (left right : list RowMap) (li ri : nat)
| ExLimit (limit : Z) (child : ExecState)
| ExDedup (child : ExecState) (seen : gset bytes).

(** Enough fuel for every pull from the state on *)
Fixpoint exec_measure (s : ExecState) : nat :=
  match s with
  | ExDone => 1
  | ExLiteralProject _ emitted => if emitted then 1 else 2
  | ExReady _ rows => S (length rows)
  | ExFilter _ c | ExProject _ c | ExLimit _ c | ExDedup c _ => S (exec_measure c)
  | ExNestedLoopJoin _ ls rs li ri => S ((length ls - li) * S (length rs) - ri)
  end.

Section executor.
Context `{ExecEnv}.

Fixpoint next_row (fuel : nat) (s : ExecState) : outcome ExecError (option RowMap * ExecState) :=
  match fuel with
  | O => Panic
  | S fuel' =>
      match s with
      | ExDone => Ok (None, ExDone)
      | ExLiteralProject items emitted =>
          if emitted then Ok (None, ExDone)
          else let? row := project_row items [] in Ok (Some row, ExLiteralProject items true)
      | ExReady k rows =>
          match rows with
          | row :: rows' => Ok (Some row, ExReady k rows')
          | [] => Ok (None, ExDone)
          end
      | ExFilter p child =>
          let? r := next_row fuel' child in
          match r with
          | (Some row, child') =>
              let? keep := eval_predicate p row in
              if keep : bool then Ok (Some row, ExFilter p child') else next_row fuel' (ExFilter p child')
          | (None, _) => Ok (None, ExDone)
          end
      | ExProject items child =>
          let? r := next_row fuel' child in
          match r with
          | (Some row, child') => let? out := project_row items row in Ok (Some out, ExProject items child')
          | (None, _) => Ok (None, ExDone)
          end
      | ExNestedLoopJoin on ls rs li ri =>
          match ls !! li with
          | Some lrow =>
              match rs !! ri with
              | Some rrow =>
                  let merged := merge_rows lrow rrow in
                  let? keep := eval_predicate on merged in
                  if keep : bool then Ok (Some merged, ExNestedLoopJoin on ls rs li (S ri))
                  else next_row fuel' (ExNestedLoopJoin on ls rs li (S ri))
              | None => next_row fuel' (ExNestedLoopJoin on ls rs (S li) 0)
              end
          | None => Ok (None, ExDone)
          end
      | ExDedup child seen =>
          let? r := next_row fuel' child in
          match r with
          | (Some row, child') =>
              let key := row_key row in
              if bool_decide (key ∈ seen) then next_row fuel' (ExDedup child' seen)
              else Ok (Some row, ExDedup child' ({[key]} ∪ seen))
          | (None, _) => Ok (None, ExDone)
          end
      | ExLimit limit child =>
          if limit =? 0 then Ok (None, ExDone)
          else let? r := next_row fuel' child in
               match r with
               | (Some row, child') => Ok (Some row, ExLimit (limit - 1) child')
               | (None, _) => Ok (None, ExDone)
               end
      end
  end.

(** [Executor::collect] *)
Fixpoint collect_loop (fuel : nat) (s : ExecState) : outcome ExecError (list RowMap) :=
  match fuel with
  | O => Panic
  | S fuel' =>
      let? r := next_row (exec_measure s) s in
      match r with
      | (Some row, s') => let? rows := collect_loop fuel' s' in Ok (row :: rows)
      | (None, _) => Ok []
      end
  end.
Definition exec_collect (s : ExecState) : outcome ExecError (list RowMap) := collect_loop (exec_measure s) s.

(** The skip loop of LIMIT: [None] when the child ends before *)
Fixpoint skip_rows (fuel : nat) (offset : Z) (s : ExecState) : outcome ExecError (option ExecState) :=
  if offset =? 0 then Ok (Some s)
  else match fuel with
       | O => Panic
       | S fuel' =>
           let? r := next_row (exec_measure s) s in
           match r with
           | (Some _, s') => skip_rows fuel' (offset - 1) s'
           | (None, _) => Ok None
           end
       end.

Context {T I : Type} `{RowStore T} `{RowStore I} `{Scheduler} `{StdChoices}.

Record ExecutionContext : Type := mkExecutionContext {
  ctx_store : T; ctx_index_catalog : I; ctx_cte_tables : option (gmap bytes (list RowMap)) }.

Fixpoint build_state (plan : PhysicalPlan) (ctx : ExecutionContext) {struct plan} : outcome ExecError ExecState :=
  let execute_to_rows p := let? s := build_state p ctx in exec_collect s in
  match plan with
  | PSeqScan [] _ _ => Ok (ExLiteralProject [] false)
  | PSeqScan table prefix columns =>
      let storage_cols := option_map (map (fun c => default c (bare_name c))) columns in
      Ok (ExReady KSeqScan (prefix_rows (load_table_rows (ctx_store ctx) table storage_cols) prefix))
  | PCteScan name prefix columns =>
      let rows := default [] (match ctx_cte_tables ctx with Some t => t !! name | None => None end) in
      Ok (ExReady KSeqScan (prune_cte_rows (prefix_rows rows prefix) columns))
  | PSubqueryScan input prefix _ =>
      let? rows := execute_to_rows input in Ok (ExReady KSeqScan (prefix_rows rows prefix))
  | PPkLookup table row_id columns =>
      Ok (ExReady KIndexScan (match load_row_by_id (ctx_store ctx) table row_id columns with Some row => [row] | None => [] end))
  | PIndexScan table column point_key columns =>
      let row_ids := match point_key with
                     | Some key => index_lookup (ctx_index_catalog ctx) table column key
                     | None => concat (map snd (BTreeIndex_iter (index_load (ctx_index_catalog ctx) table column)))
                     end in
      Ok (ExReady KIndexScan (omap (fun id => load_row_by_id (ctx_store ctx) table id columns) row_ids))
  | PFilter input predicate => let? child := build_state input ctx in Ok (ExFilter predicate child)
  | PProject input items =>
      match input with
      | PSeqScan [] _ _ => Ok (ExLiteralProject items false)
      | _ => let? child := build_state input ctx in Ok (ExProject items child)
      end
  | PHashJoin l r _ left_key right_key left_outer =>
      let? left_rows := execute_to_rows l in
      let? right_rows := execute_to_rows r in
      Ok (ExReady KHashJoin (hash_join left_rows right_rows left_key right_key left_outer))
  | PNestedLoopJoin l r on =>
      let? left_rows := execute_to_rows l in
      let? right_rows := execute_to_rows r in
      Ok (ExNestedLoopJoin on left_rows right_rows 0 0)
  | PMergeJoin l r on left_key right_key =>
      let? left_rows := execute_to_rows l in
      let? right_rows := execute_to_rows r in
      let? pairs := merge_join on left_key right_key left_rows right_rows in
      Ok (ExReady KMergeJoin pairs)
  | PAggregate input group_by aggs =>
      match try_streaming_aggregate input group_by aggs (ctx_store ctx) with
      | Some result => let? rows := result in Ok (ExReady KAggregate rows)
      | None => let? rows := execute_to_rows input in Ok (ExReady KAggregate (aggregate_rows rows group_by aggs))
      end
  | PSort input keys top_k =>
      let? rows := execute_to_rows input in Ok (ExReady KSort (sort_rows rows keys top_k))
  | PLimit input limit offset =>
      let? child := build_state input ctx in
      let? rest := skip_rows (exec_measure child) offset child in
      Ok match rest with Some child => ExLimit limit child | None => ExDone end
  | PWindow input windows =>
      let? rows := execute_to_rows input in
      let? rows := apply_windows rows windows in
      Ok (ExReady KWindow rows)
  | PSemiJoin l r left_key right_key corr_on negated =>
      let? left_rows := execute_to_rows l in
      let? right_rows := execute_to_rows r in
      let? rows := semi_join_rows left_rows right_rows left_key right_key corr_on negated in
      Ok (ExReady KSemiJoin rows)
  | PSetOp l r op all =>
      let? left_rows := execute_to_rows l in
      let? right_rows := execute_to_rows r in
      Ok (ExReady KSetOp (combine_set_op left_rows right_rows op all))
  | PDedup input => let? child := build_state input ctx in Ok (ExDedup child ∅)
  end.

Definition execute_to_rows (plan : PhysicalPlan) (ctx : ExecutionContext) : outcome ExecError (list RowMap) :=
  let? s := build_state plan ctx in exec_collect s.

Definition execute (plan : PhysicalPlan) (ctx : ExecutionContext) : outcome ExecError (list Record_) :=
  let? rows := execute_to_rows plan ctx in Ok (map mkRecord rows).
End executor.
Arguments ExecutionContext : clear implicits.
