(* ===== verification/ExecutorSpec.v ===== *)
(** * What the executor returns

    A pull iterator stands for a stream: the rows it yields and how it ends.  The
    iterators terminate and yield their stream; from this follow the meaning of
    plans, of LIMIT over ORDER BY and of the joins. *)

From S2P Require Import Prelude BTree StorageError Mvcc MemTable Text Float64 Tokens Ast Display Utf8 RowPack Value Cast Eval Plan TableScan SetOps RowOps WindowExec StreamAgg Executor.

Local Open Scope nat_scope.

(** ** Streams *)

Abbreviation Stream := (list RowMap * outcome ExecError unit)%type.

(** The stream as the result of [collect] *)
Definition collected (s : Stream) : outcome ExecError (list RowMap) := let? _ := s.2 in Ok s.1.

Fixpoint stream_filter (p : RowMap -> outcome ExecError bool) (l : list RowMap) (e : outcome ExecError unit) : Stream :=
  match l with
  | [] => ([], e)
  | row :: l' =>
      match p row with
      | Ok true => let '(rows, e') := stream_filter p l' e in (row :: rows, e')
      | Ok false => stream_filter p l' e
      | Err x => ([], Err x)
      | Panic => ([], Panic)
      end
  end.

Fixpoint stream_map (f : RowMap -> outcome ExecError RowMap) (l : list RowMap) (e : outcome ExecError unit) : Stream :=
  match l with
  | [] => ([], e)
  | row :: l' =>
      match f row with
      | Ok out => let '(rows, e') := stream_map f l' e in (out :: rows, e')
      | Err x => ([], Err x)
      | Panic => ([], Panic)
      end
  end.

(** A limit that is reached hides what comes after it, errors included. *)
Definition stream_take (n : Z) (s : Stream) : Stream :=
  if (n <=? len s.1)%Z then (take (Z.to_nat n) s.1, Ok tt) else s.
Definition stream_skip (n : Z) (s : Stream) : Stream := (drop (Z.to_nat n) s.1, s.2).

(** The pairs that a nested loop visits from its cursors on *)
Definition loop_pairs (ls rs : list RowMap) (li ri : nat) : list RowMap :=
  match drop li ls with
  | [] => []
  | l :: ls' => map (merge_rows l) (drop ri rs) ++ concat (map (fun l => map (merge_rows l) rs) ls')
  end.

Section spec.
Context `{ExecEnv}.

Fixpoint stream_of (s : ExecState) : Stream :=
  match s with
  | ExDone => ([], Ok tt)
  | ExLiteralProject items emitted => if emitted then ([], Ok tt) else stream_map (project_row items) [[]] (Ok tt)
  | ExReady _ rows => (rows, Ok tt)
  | ExFilter p c => stream_filter (eval_predicate p) (stream_of c).1 (stream_of c).2
  | ExProject items c => stream_map (project_row items) (stream_of c).1 (stream_of c).2
  | ExNestedLoopJoin on ls rs li ri => stream_filter (eval_predicate on) (loop_pairs ls rs li ri) (Ok tt)
  | ExLimit n c => stream_take n (stream_of c)
  | ExDedup c seen => (dedup_rows seen (stream_of c).1, (stream_of c).2)
  end.

(** Limits are not negative, cursors within the right side. *)
Fixpoint state_ok (s : ExecState) : Prop :=
  match s with
  | ExFilter _ c | ExProject _ c | ExDedup c _ => state_ok c
  | ExLimit n c => (0 <= n)%Z /\ state_ok c
  | ExNestedLoopJoin _ _ rs _ ri => ri <= length rs
  | _ => True
  end.

(** A pull agrees with a stream: it yields the first row and leaves the rest, in a
    state of a smaller measure. *)
Definition pulls (st : Stream) (m : nat) (r : outcome ExecError (option RowMap * ExecState)) : Prop :=
  match st with
  | (row :: rows, e) => exists s', r = Ok (Some row, s') /\ stream_of s' = (rows, e) /\ state_ok s' /\ exec_measure s' < m
  | ([], Ok _) => exists s', r = Ok (None, s')
  | ([], Err x) => r = Err x
  | ([], Panic) => r = Panic
  end.

Lemma loop_pairs_row ls rs li ri l r :
  ls !! li = Some l -> rs !! ri = Some r -> loop_pairs ls rs li ri = merge_rows l r :: loop_pairs ls rs li (S ri).
Proof. intros El Er. unfold loop_pairs. by rewrite (drop_S _ _ _ El), (drop_S _ _ _ Er). Qed.
Lemma loop_pairs_next ls rs li ri l :
  ls !! li = Some l -> rs !! ri = None -> loop_pairs ls rs li ri = loop_pairs ls rs (S li) 0.
Proof.
  intros El Er%lookup_ge_None_1. unfold loop_pairs. rewrite (drop_S _ _ _ El), (drop_ge rs ri) by done. cbn [map app].
  destruct (drop (S li) ls); [done|]. by rewrite drop_0.
Qed.
Lemma loop_pairs_end ls rs li ri : ls !! li = None -> loop_pairs ls rs li ri = [].
Proof. intros E%lookup_ge_None_1. unfold loop_pairs. by rewrite drop_ge. Qed.

(** The measure of a nested loop goes down with its cursors. *)
Lemma loop_measure (ls rs : list RowMap) li ri l r :
  ls !! li = Some l -> rs !! ri = Some r -> (length ls - li) * S (length rs) - S ri < (length ls - li) * S (length rs) - ri.
Proof.
  intros El%lookup_lt_Some Er%lookup_lt_Some. assert (1 * S (length rs) <= (length ls - li) * S (length rs)) by
    (apply Nat.mul_le_mono_r; lia). lia.
Qed.
Lemma loop_measure_next (ls rs : list RowMap) li ri l :
  ls !! li = Some l -> ri <= length rs -> (length ls - S li) * S (length rs) - 0 < (length ls - li) * S (length rs) - ri.
Proof.
  intros El%lookup_lt_Some Hr. replace (length ls - li) with (S (length ls - S li)) by lia.
  rewrite Nat.mul_succ_l. generalize ((length ls - S li) * S (length rs)). lia.
Qed.

Lemma pulls_mono st m1 m2 r : m1 <= m2 -> pulls st m1 r -> pulls st m2 r.
Proof.
  intros Hm. unfold pulls. destruct st as [[|row rows] e]; [done|].
  intros (s' & ? & ? & ? & ?). exists s'. split_and!; [done..|lia].
Qed.

(** Case analysis on what the child [c] of an iterator pulls, by [Hc] *)
Ltac child_pull c Hc :=
  cbn [stream_of];
  destruct (stream_of c) as [[|row rows] e] eqn:Estream; cbn [fst snd stream_filter stream_map] in *;
  [destruct e as [[]|x|]; [destruct Hc as [? Hc]| |]|destruct Hc as (c' & Hc & Hs & Hok' & Hm)]; rewrite Hc; cbn [obind];
  [by eexists|done|done|].

Lemma next_row_pulls fuel s : state_ok s -> exec_measure s <= fuel -> pulls (stream_of s) (exec_measure s) (next_row fuel s).
Proof.
  revert s. induction fuel as [|fuel IH]; intros s Hok Hf; [destruct s as [|? []| | | | | |]; simpl in Hf; lia|].
  destruct s as [|items emitted|k rows|p c|items c|on ls rs li ri|n c|c seen]; cbn [next_row exec_measure state_ok] in *.
  - by eexists.
  - destruct emitted; [by eexists|]. cbn [stream_of stream_map].
    destruct (project_row items []); cbn [obind]; try done. eexists. split_and!; [done..|cbn; lia].
  - destruct rows as [|row rows]; [by eexists|]. eexists. split_and!; [done..|]. cbn. lia.
  - pose proof (IH c Hok ltac:(lia)) as Hc. child_pull c Hc.
    destruct (eval_predicate p row) as [[]|x'|] eqn:Ep; cbn [obind]; [| |done..].
    + destruct (stream_filter _ rows _) as [out e'] eqn:Ef. eexists. split; [done|]. cbn [stream_of]. rewrite Hs.
      split_and!; [done..|cbn; lia].
    + pose proof (IH (ExFilter p c') Hok') as Hrec. cbn [stream_of exec_measure] in Hrec. rewrite Hs in Hrec.
      eapply pulls_mono; [|apply Hrec]; lia.
  - pose proof (IH c Hok ltac:(lia)) as Hc. child_pull c Hc.
    destruct (project_row items row) as [out|x'|] eqn:Ep; cbn [obind]; [|done..].
    destruct (stream_map _ rows _) as [outs e'] eqn:Ef. eexists. split; [done|]. cbn [stream_of]. rewrite Hs.
    split_and!; [done..|cbn; lia].
  - cbn [stream_of]. destruct (ls !! li) as [l|] eqn:El; [|rewrite loop_pairs_end by done; by eexists].
    destruct (rs !! ri) as [r|] eqn:Er.
    + pose proof (loop_measure ls rs li ri l r El Er) as Hm. rewrite (loop_pairs_row _ _ _ _ _ _ El Er). cbn [stream_filter].
      pose proof (lookup_lt_Some _ _ _ Er). destruct (eval_predicate on (merge_rows l r)) as [[]|x|] eqn:Ep; cbn [obind]; [| |done..].
      * destruct (stream_filter _ _ _) as [outs e'] eqn:Ef. eexists. split; [done|]. cbn [stream_of state_ok exec_measure].
        split_and!; [done|lia|lia].
      * eapply pulls_mono; [|apply (IH (ExNestedLoopJoin on ls rs li (S ri)))]; cbn [state_ok exec_measure]; lia.
    + pose proof (loop_measure_next ls rs li ri l El Hok). rewrite (loop_pairs_next _ _ _ _ _ El Er).
      eapply pulls_mono; [|apply (IH (ExNestedLoopJoin on ls rs (S li) 0))]; cbn [state_ok exec_measure]; lia.
  - destruct Hok as [Hn Hok]. destruct (n =? 0)%Z eqn:E0; bool_to_prop.
    { subst n. cbn [stream_of]. unfold stream_take. rewrite (proj2 (Z.leb_le _ _)) by apply len_nonneg. by eexists. }
    pose proof (IH c Hok ltac:(lia)) as Hc. cbn [stream_of]. unfold stream_take.
    destruct (stream_of c) as [[|row rows] e] eqn:Estream; cbn [fst snd] in *.
    { rewrite (proj2 (Z.leb_gt _ _)) by (rewrite len_nil; lia). destruct e as [[]|x|]; [destruct Hc as [? Hc]| |];
        rewrite Hc; cbn [obind]; [by eexists|done..]. }
    destruct Hc as (c' & Hc & Hs & Hok' & Hm). rewrite Hc, len_cons. cbn [obind]. destruct (Z.leb_spec n (1 + len rows)%Z).
    + replace (Z.to_nat n) with (S (Z.to_nat (n - 1))) by lia. cbn [take]. eexists. split; [done|].
      cbn [stream_of state_ok exec_measure]. rewrite Hs. unfold stream_take. cbn [fst snd].
      rewrite (proj2 (Z.leb_le _ _)) by lia. split_and!; [done|lia|done|lia].
    + eexists. split; [done|]. cbn [stream_of state_ok exec_measure]. rewrite Hs. unfold stream_take. cbn [fst snd].
      rewrite (proj2 (Z.leb_gt _ _)) by lia. split_and!; [done|lia|done|lia].
  - pose proof (IH c Hok ltac:(lia)) as Hc. child_pull c Hc. cbn [dedup_rows]. cbv zeta. case_bool_decide as Ek.
    + pose proof (IH (ExDedup c' seen) Hok') as Hrec. cbn [stream_of exec_measure] in Hrec. rewrite Hs in Hrec.
      eapply pulls_mono; [|apply Hrec]; lia.
    + eexists. split; [done|]. cbn [stream_of]. rewrite Hs. split_and!; [done..|cbn; lia].
Qed.

Lemma collect_loop_stream fuel s : state_ok s -> exec_measure s <= fuel -> collect_loop fuel s = collected (stream_of s).
Proof.
  revert s. induction fuel as [|fuel IH]; intros s Hok Hf; [destruct s as [|? []| | | | | |]; simpl in Hf; lia|].
  cbn [collect_loop]. pose proof (next_row_pulls (exec_measure s) s Hok ltac:(lia)) as Hp. unfold collected.
  destruct (stream_of s) as [[|row rows] e]; cbn [pulls fst snd] in *.
  - destruct e as [[]|x|]; [destruct Hp as [s' Hp]| |]; by rewrite Hp.
  - destruct Hp as (s' & -> & Es & Hok' & Hm). cbn [obind]. rewrite IH by (done || lia). unfold collected. rewrite Es.
    by destruct e.
Qed.

(** Collecting terminates and gives the rows of the stream, or its error. *)
Lemma collect_stream s : state_ok s -> exec_collect s = collected (stream_of s).
Proof. intros. by apply collect_loop_stream. Qed.

Lemma skip_rows_stream fuel offset s : state_ok s -> exec_measure s <= fuel -> (0 <= offset)%Z ->
  match skip_rows fuel offset s with
  | Ok (Some s') => state_ok s' /\ stream_of s' = stream_skip offset (stream_of s) /\ (offset <= len (stream_of s).1)%Z
  | Ok None => (len (stream_of s).1 < offset)%Z /\ (stream_of s).2 = Ok tt
  | Err x => (len (stream_of s).1 < offset)%Z /\ (stream_of s).2 = Err x
  | Panic => (len (stream_of s).1 < offset)%Z /\ (stream_of s).2 = Panic
  end.
Proof.
  revert s offset. induction fuel as [|fuel IH]; intros s offset Hok Hf Ho; [destruct s as [|? []| | | | | |]; simpl in Hf; lia|].
  cbn [skip_rows]. destruct (offset =? 0)%Z eqn:E0; bool_to_prop.
  { subst offset. split; [done|]. unfold stream_skip. cbn [Z.to_nat drop]. split; [|apply len_nonneg].
    rewrite drop_0. by destruct (stream_of s). }
  pose proof (next_row_pulls (exec_measure s) s Hok ltac:(lia)) as Hp.
  destruct (stream_of s) as [[|row rows] e] eqn:Es; cbn [pulls fst snd] in *.
  - destruct e as [[]|x|]; [destruct Hp as [s' Hp]| |]; rewrite Hp; cbn [obind]; (split; [rewrite len_nil; lia|done]).
  - destruct Hp as (s' & -> & Es' & Hok' & Hm). cbn [obind]. rewrite len_cons.
    specialize (IH s' (offset - 1)%Z Hok' ltac:(lia) ltac:(lia)). rewrite Es' in IH. cbn [fst snd] in IH.
    destruct (skip_rows fuel (offset - 1) s') as [[s''|]|x|]; [|split; [lia|apply IH]..].
    destruct IH as (? & IH & ?). split; [done|]. split; [|lia]. rewrite IH. unfold stream_skip. cbn [fst snd].
    by replace (Z.to_nat offset) with (S (Z.to_nat (offset - 1))) by lia.
Qed.
End spec.

(** ** Plans *)

(** LIMIT and OFFSET are unsigned. *)
Fixpoint plan_ok (plan : PhysicalPlan) : Prop :=
  match plan with
  | PSeqScan _ _ _ | PPkLookup _ _ _ | PIndexScan _ _ _ _ | PCteScan _ _ _ => True
  | PFilter i _ | PProject i _ | PAggregate i _ _ | PSort i _ _ | PWindow i _ | PSubqueryScan i _ _ | PDedup i => plan_ok i
  | PLimit i limit offset => (0 <= limit)%Z /\ (0 <= offset)%Z /\ plan_ok i
  | PHashJoin l r _ _ _ _ | PNestedLoopJoin l r _ | PMergeJoin l r _ _ _ | PSemiJoin l r _ _ _ _ | PSetOp l r _ _ =>
      plan_ok l /\ plan_ok r
  end.

(** OFFSET, then LIMIT; a child that ends within the offset gives no rows. *)
Definition stream_limit (limit offset : Z) (s : Stream) : outcome ExecError Stream :=
  if (offset <=? len s.1)%Z then Ok (stream_take limit (stream_skip offset s))
  else let? _ := s.2 in Ok ([], Ok tt).

Section plans.
Context `{ExecEnv} {T I : Type} `{RowStore T} `{RowStore I} `{Scheduler} `{StdChoices}.
Context (ctx : ExecutionContext T I).

Definition ready (rows : list RowMap) : outcome ExecError Stream := Ok (rows, Ok tt).

(** The meaning of a plan, operator by operator *)
Fixpoint plan_stream (plan : PhysicalPlan) : outcome ExecError Stream :=
  let rows_of p := let? s := plan_stream p in collected s in
  match plan with
  | PSeqScan [] _ _ => ready [[]]
  | PSeqScan table prefix columns =>
      ready (prefix_rows (load_table_rows (ctx_store ctx) table
        (option_map (map (fun c => default c (bare_name c))) columns)) prefix)
  | PCteScan name prefix columns =>
      ready (prune_cte_rows (prefix_rows (default [] (match ctx_cte_tables ctx with Some t => t !! name | None => None end))
        prefix) columns)
  | PSubqueryScan i prefix _ => let? rows := rows_of i in ready (prefix_rows rows prefix)
  | PPkLookup table row_id columns =>
      ready (match load_row_by_id (ctx_store ctx) table row_id columns with Some row => [row] | None => [] end)
  | PIndexScan table column point_key columns =>
      ready (omap (fun id => load_row_by_id (ctx_store ctx) table id columns)
        (match point_key with
         | Some key => index_lookup (ctx_index_catalog ctx) table column key
         | None => concat (map snd (BTreeIndex_iter (index_load (ctx_index_catalog ctx) table column)))
         end))
  | PFilter i p => let? s := plan_stream i in Ok (stream_filter (eval_predicate p) s.1 s.2)
  | PProject i items =>
      match i with
      | PSeqScan [] _ _ => Ok (stream_map (project_row items) [[]] (Ok tt))
      | _ => let? s := plan_stream i in Ok (stream_map (project_row items) s.1 s.2)
      end
  | PHashJoin l r _ lk rk left_outer =>
      let? ls := rows_of l in let? rs := rows_of r in ready (hash_join ls rs lk rk left_outer)
  | PNestedLoopJoin l r on =>
      let? ls := rows_of l in let? rs := rows_of r in
      Ok (stream_filter (eval_predicate on) (concat (map (fun l => map (merge_rows l) rs) ls)) (Ok tt))
  | PMergeJoin l r on lk rk =>
      let? ls := rows_of l in let? rs := rows_of r in
      let? pairs := merge_join on lk rk ls rs in ready pairs
  | PAggregate i group_by aggs =>
      let? rows := match try_streaming_aggregate i group_by aggs (ctx_store ctx) with
                   | Some result => result
                   | None => let? rows := rows_of i in Ok (aggregate_rows rows group_by aggs)
                   end in ready rows
  | PSort i keys top_k => let? rows := rows_of i in ready (sort_rows rows keys top_k)
  | PLimit i limit offset => let? s := plan_stream i in stream_limit limit offset s
  | PWindow i windows => let? rows := rows_of i in let? rows := apply_windows rows windows in ready rows
  | PSemiJoin l r lk rk corr negated =>
      let? ls := rows_of l in let? rs := rows_of r in
      let? rows := semi_join_rows ls rs lk rk corr negated in ready rows
  | PSetOp l r op all => let? ls := rows_of l in let? rs := rows_of r in ready (combine_set_op ls rs op all)
  | PDedup i => let? s := plan_stream i in Ok (dedup_rows ∅ s.1, s.2)
  end.

(** A built iterator stands for the stream of its plan. *)
Definition agrees (b : outcome ExecError ExecState) (m : outcome ExecError Stream) : Prop :=
  match b with
  | Ok s => state_ok s /\ m = Ok (stream_of s)
  | Err x => m = Err x
  | Panic => m = Panic
  end.

Lemma agrees_rows b m : agrees b m -> (let? s := b in exec_collect s) = (let? s := m in collected s).
Proof. destruct b as [s|x|]; cbn [agrees]; [intros [Hok ->]|intros ->..]; [by apply collect_stream|done..]. Qed.

Lemma agrees_bind b m k f : agrees b m -> (forall s, state_ok s -> agrees (k s) (f (stream_of s))) ->
  agrees (let? s := b in k s) (let? s := m in f s).
Proof. destruct b as [s|x|]; cbn [agrees obind]; [intros [Hok ->]|intros ->..]; auto. Qed.

Lemma agrees_bind_rows {A} (b m : outcome ExecError A) k f :
  b = m -> (forall a, agrees (k a) (f a)) -> agrees (let? a := b in k a) (let? a := m in f a).
Proof. intros -> Hk. destruct m; cbn [obind agrees]; auto. Qed.

Lemma agrees_limit limit offset s : state_ok s -> (0 <= limit)%Z -> (0 <= offset)%Z ->
  agrees (let? rest := skip_rows (exec_measure s) offset s in
          Ok match rest with Some c => ExLimit limit c | None => ExDone end) (stream_limit limit offset (stream_of s)).
Proof.
  intros Hok Hl Ho. pose proof (skip_rows_stream (exec_measure s) offset s Hok ltac:(lia) Ho) as Hs. unfold stream_limit.
  destruct (skip_rows _ _ _) as [[c|]|x|]; cbn [obind agrees].
  - destruct Hs as (Hc & Es & Hlen). rewrite (proj2 (Z.leb_le _ _)) by done. cbn [stream_of state_ok]. by rewrite Es.
  - destruct Hs as [Hlen ->]. rewrite (proj2 (Z.leb_gt _ _)) by done. done.
  - destruct Hs as [Hlen ->]. by rewrite (proj2 (Z.leb_gt _ _)) by done.
  - destruct Hs as [Hlen ->]. by rewrite (proj2 (Z.leb_gt _ _)) by done.
Qed.

Lemma build_stream plan : plan_ok plan -> agrees (build_state plan ctx) (plan_stream plan).
Proof.
  induction plan as [table prefix columns|table row_id columns|table column key columns|i IH p|i IH items
    |l IHl r IHr on lk rk lo|l IHl r IHr on|l IHl r IHr on lk rk|i IH group_by aggs|i IH keys top_k|i IH limit offset
    |i IH windows|l IHl r IHr lk rk corr neg|name prefix columns|i IH prefix columns|l IHl r IHr op all|i IH];
    cbn [plan_ok build_state plan_stream]; intros Hok.
  all: try destruct Hok as [Hokl Hokr].
  all: repeat match goal with
  | IH : plan_ok ?p -> _, H : plan_ok ?p |- _ => specialize (IH H); pose proof (agrees_rows _ _ IH)
  end.
  - by destruct table.
  - done.
  - done.
  - apply agrees_bind; [done|]. intros s Hs. done.
  - assert (agrees (let? child := build_state i ctx in Ok (ExProject items child))
      (let? s := plan_stream i in Ok (stream_map (project_row items) s.1 s.2))) as Hgen by (by apply agrees_bind).
    destruct i as [[|b table] prefix columns| | | | | | | | | | | | | | | |]; done.
  - apply agrees_bind_rows; [done|intros ls]. apply agrees_bind_rows; [done|intros rs]. done.
  - apply agrees_bind_rows; [done|intros ls]. apply agrees_bind_rows; [done|intros rs]. split; [cbn; lia|]. cbn [stream_of].
    do 2 f_equal. unfold loop_pairs. rewrite drop_0. destruct ls; [done|]. by rewrite drop_0.
  - apply agrees_bind_rows; [done|intros ls]. apply agrees_bind_rows; [done|intros rs].
    apply agrees_bind_rows; [done|intros pairs]. done.
  - destruct (try_streaming_aggregate _ _ _ _) as [result|].
    + by apply agrees_bind_rows.
    + match goal with E : _ = (let? s := plan_stream i in collected s) |- _ => rewrite E end.
      destruct (let? s := plan_stream i in collected s); done.
  - by apply agrees_bind_rows.
  - destruct Hokr as [Ho Hi]. apply agrees_bind; [by apply IH|]. intros s Hs. by apply agrees_limit.
  - apply agrees_bind_rows; [done|intros rows]. by apply agrees_bind_rows.
  - apply agrees_bind_rows; [done|intros ls]. apply agrees_bind_rows; [done|intros rs]. by apply agrees_bind_rows.
  - done.
  - by apply agrees_bind_rows.
  - apply agrees_bind_rows; [done|intros ls]. by apply agrees_bind_rows.
  - apply agrees_bind; [done|]. done.
Qed.

Lemma execute_stream plan : plan_ok plan -> execute_to_rows plan ctx = let? s := plan_stream plan in collected s.
Proof. intros Hok. apply agrees_rows. by apply build_stream. Qed.
End plans.

(** C21. Executing a plan terminates with the rows that its operators mean, one by one:
    pulling row by row through nested iterators with cursors, offsets and the
    state of DISTINCT gives the rows of the compositional stream semantics, and the
    error of the first row that fails, unless a limit is reached before. *)
Theorem executor_refines_streams `{ExecEnv} {T I} `{RowStore T} `{RowStore I} `{Scheduler} `{StdChoices}
    (ctx : ExecutionContext T I) (plan : PhysicalPlan) :
  plan_ok plan ->
  execute plan ctx = let? s := plan_stream ctx plan in let? rows := collected s in Ok (map mkRecord rows).
Proof.
  intros Hok. unfold execute. rewrite execute_stream by done. by destruct (plan_stream ctx plan).
Qed.

(** [SELECT col FROM t WHERE col LIMIT 1 OFFSET 1] over a common table expression:
    the second row that passes is returned before the error of the last. *)
Definition demo_plan : PhysicalPlan :=
  PLimit (PFilter (PCteScan (bs "c") [] None) (EColumn (Named None (mkIdent (bs "x") (mkSpan 0 0))))) 1 1.
Definition demo_cte : gmap bytes (list RowMap) :=
  {[ bs "c" := [[(bs "x", VBool true)]; [(bs "x", VNull)]; [(bs "x", VBool true); (bs "y", VInteger 2)]; [(bs "x", VInteger 3)]] ]}.

Lemma executor_refines_streams_witness :
  plan_ok demo_plan /\
  execute (H := demo_env) (H2 := demo_scheduler) (H3 := demo_choices) demo_plan (mkExecutionContext MemTable_new MemTable_new (Some demo_cte)) =
    Ok [mkRecord [(bs "x", VBool true); (bs "y", VInteger 2)]].
Proof.
  assert (plan_ok demo_plan) as Hok by (cbn; lia). split; [exact Hok|].
  rewrite (executor_refines_streams (H := demo_env) (H2 := demo_scheduler) (H3 := demo_choices)) by exact Hok.
  vm_compute. reflexivity.
Defined.
