(* ===== verification/Optimize.v ===== *)
(** * Statistics, costs and the optimizer
      (crates/noedb-planner/src: stats.rs, adaptive.rs, cost.rs, optimize.rs)

    Costs are doubles, computed as the source computes them. *)

From S2P Require Import Prelude BTree StorageError Mvcc MemTable Text Float64 Tokens Ast Display Utf8 RowPack Value Cast Eval Plan TableScan SetOps RowOps WindowExec.

(** ** Statistics *)

Record ColumnStats : Type := mkColumnStats { ndv : Z }.
Record TableStats : Type := mkTableStats { row_count : Z; ts_columns : gmap bytes ColumnStats }.
Definition TableStats_default : TableStats := mkTableStats 0 ∅.

Definition ndv_for (t : TableStats) (column : bytes) : Z :=
  match ts_columns t !! column with Some c => Z.max (ndv c) 1 | None => Z.max (row_count t) 1 end.
Definition TableStats_estimated_eq_rows (t : TableStats) (column : bytes) : Z :=
  Z.max (row_count t / ndv_for t column) 1.

Definition STATS_PREFIX : bytes := x03 :: bs "stats" ++ [zero].
Definition table_rows_key (table : bytes) : bytes := STATS_PREFIX ++ table ++ [zero] ++ bs "rows".
Definition column_ndv_key (table column : bytes) : bytes := STATS_PREFIX ++ table ++ [zero] ++ column ++ [zero] ++ bs "ndv".

(** What [ANALYZE] collects: row ids and the values of each column *)
Record Analysis : Type := mkAnalysis { an_row_ids : gset bytes; an_values : gmap bytes (gset bytes) }.

Definition add_value (col val : bytes) (vals : gmap bytes (gset bytes)) : gmap bytes (gset bytes) :=
  <[col := {[val]} ∪ default ∅ (vals !! col)]> vals.

Definition analyze_entry (prefix : bytes) (a : Analysis) (e : bytes * bytes) : Analysis :=
  let '(key, val) := e in
  if starts_with prefix key then
    match split_row_id (drop (length prefix) key) with
    | (row_id, None) =>
        mkAnalysis ({[row_id]} ∪ an_row_ids a)
          (match decode_row val with
           | Ok (Some cols) => fold_left (fun vals c => add_value c.1 c.2 vals) cols (an_values a)
           | _ => add_value (bs "value") val (an_values a)
           end)
    | (row_id, Some col) => mkAnalysis ({[row_id]} ∪ an_row_ids a) (add_value (from_utf8_lossy col) val (an_values a))
    end
  else a.

Definition analyze_table {T} `{StorageEngine T} (store : T) (table : bytes) : TableStats :=
  let a := fold_left (analyze_entry (table_prefix_key table)) (se_iter store) (mkAnalysis ∅ ∅) in
  mkTableStats (Z.of_nat (size (an_row_ids a))) ((fun vals => mkColumnStats (Z.of_nat (size vals))) <$> an_values a).

Definition persist_table_stats {T} `{StorageEngine T} `{StdChoices} (store : T) (table : bytes) (stats : TableStats)
    : outcome StorageError T :=
  let? store := se_put store (table_rows_key table) (be_bytes 8 (row_count stats)) in
  for_each (fun (c : bytes * ColumnStats) store => se_put store (column_ndv_key table c.1) (be_bytes 8 (ndv c.2)))
    (hash_iter (map_to_list (ts_columns stats))) store.

(** ** Plan statistics *)

Record PlanStats : Type := mkPlanStats { default_rows : Z; ps_tables : gmap bytes TableStats }.

Definition load_entry (tables : gmap bytes TableStats) (e : bytes * bytes) : gmap bytes TableStats :=
  let '(key, val) := e in
  if starts_with STATS_PREFIX key then
    match split_at zero (drop (length STATS_PREFIX) key) with
    | table :: rest =>
        let name := from_utf8_lossy table in
        let t := default TableStats_default (tables !! name) in
        let n := be_val val in
        let t' := match rest with
                  | [r] => if bool_decide (r = bs "rows") && (length val =? 8)%nat
                           then mkTableStats n (ts_columns t) else t
                  | [c; k] => if bool_decide (k = bs "ndv") && (length val =? 8)%nat
                              then mkTableStats (row_count t) (<[from_utf8_lossy c := mkColumnStats n]> (ts_columns t)) else t
                  | _ => t
                  end in
        <[name := t']> tables
    | [] => tables
    end
  else tables.

Definition load_plan_stats {T} `{RowStore T} (store : T) : PlanStats :=
  mkPlanStats 0 (fold_left load_entry (rs_range store STATS_PREFIX (prefix_end STATS_PREFIX)) ∅).

Definition increment_row_count {T} `{StorageEngine T} (store : T) (table : bytes) (delta : Z) : outcome StorageError T :=
  let key := table_rows_key table in
  let? got := se_get store key in
  let current := match got with Some b => if (length b =? 8)%nat then be_val b else 0 | None => 0 end in
  se_put store key (be_bytes 8 (sat 64 (current + delta))).

(** adaptive.rs and [record_execution] *)
Definition ExecutionFeedback : Type := gmap bytes Z.
Definition record_table (f : ExecutionFeedback) (table : bytes) (rows : Z) : ExecutionFeedback := <[table := rows]> f.
Definition feedback_rows_for (f : ExecutionFeedback) (table : bytes) (dflt : Z) : Z := default dflt (f !! table).

Definition UNKNOWN_TABLE_ROWS : Z := 1024.
Definition rows_for (s : PlanStats) (table : bytes) : Z :=
  match ps_tables s !! table with
  | Some t => Z.max (row_count t) 1
  | None => Z.max (default_rows s) UNKNOWN_TABLE_ROWS
  end.
Definition estimated_eq_rows (s : PlanStats) (table column : bytes) : Z :=
  match ps_tables s !! table with Some t => TableStats_estimated_eq_rows t column | None => 1 end.

(** ** Costs *)

Definition SEQ_SCAN_ROW_COST : f64 := f64_of_decimal 1 0.
Definition INDEX_LOOKUP_COST : f64 := f64_of_decimal 4 0.
Definition FILTER_ROW_COST : f64 := f64_of_decimal 5 (-2).
Definition HASH_JOIN_ROW_COST : f64 := f64_of_decimal 12 (-1).
Definition NESTED_LOOP_ROW_COST : f64 := f64_of_decimal 2 0.

(** [column_name] of cost.rs and optimize.rs: the bare column *)
Definition bare_column_name (e : Expr) : option bytes :=
  match e with EColumn (Named _ c) => Some (id_value c) | _ => None end.

Fixpoint equality_column (e : Expr) : option bytes :=
  match e with
  | EBinary BEq l r _ => match bare_column_name l with Some c => Some c | None => bare_column_name r end
  | EParen inner _ => equality_column inner
  | _ => None
  end.

Fixpoint output_rows (plan : PhysicalPlan) (stats : PlanStats) : Z :=
  match plan with
  | PSeqScan table _ _ => rows_for stats table
  | PIndexScan table column _ _ => estimated_eq_rows stats table column
  | PPkLookup _ _ _ => 1
  | PFilter input predicate =>
      match input with
      | PSeqScan table _ _ =>
          match equality_column predicate with
          | Some col => estimated_eq_rows stats table col
          | None => rows_for stats table
          end
      | _ => output_rows input stats
      end
  | PLimit input limit _ => Z.min (output_rows input stats) limit
  | PProject input _ | PSort input _ _ | PDedup input => output_rows input stats
  | PHashJoin l r _ _ _ _ | PMergeJoin l r _ _ _ | PNestedLoopJoin l r _ => Z.max (output_rows l stats) (output_rows r stats)
  | PSemiJoin l _ _ _ _ _ => output_rows l stats
  | PAggregate input group_by _ => match group_by with [] => 1 | _ => Z.min (output_rows input stats) 1024 end
  | _ => default_rows stats
  end.

Definition estimated_filter_rows (input : PhysicalPlan) (predicate : Expr) (stats : PlanStats) : Z :=
  output_rows (PFilter input predicate) stats.

Fixpoint estimate (plan : PhysicalPlan) (stats : PlanStats) : f64 :=
  let rows n := f64_of_Z n in
  match plan with
  | PSeqScan table _ _ => f64_mul (rows (rows_for stats table)) SEQ_SCAN_ROW_COST
  | PIndexScan table column _ _ =>
      f64_add INDEX_LOOKUP_COST (f64_mul (rows (estimated_eq_rows stats table column)) SEQ_SCAN_ROW_COST)
  | PPkLookup _ _ _ => INDEX_LOOKUP_COST
  | PFilter input predicate =>
      f64_add (estimate input stats) (f64_mul (rows (estimated_filter_rows input predicate stats)) FILTER_ROW_COST)
  | PProject input _ => estimate input stats
  | PHashJoin l r _ _ _ _ =>
      f64_add (f64_add (estimate l stats) (estimate r stats))
        (f64_mul (rows (Z.max (output_rows l stats) (output_rows r stats))) HASH_JOIN_ROW_COST)
  | PNestedLoopJoin l r _ =>
      f64_add (estimate l stats)
        (f64_mul (f64_mul (estimate r stats) (rows (output_rows l stats))) NESTED_LOOP_ROW_COST)
  | PMergeJoin l r _ _ _ =>
      f64_add (f64_add (estimate l stats) (estimate r stats)) (rows (output_rows l stats))
  | PAggregate input _ _ => f64_add (estimate input stats) (f64_mul (rows (output_rows input stats)) (f64_of_decimal 5 (-1)))
  | PSort input _ _ => f64_add (estimate input stats) (f64_mul (rows (output_rows input stats)) (f64_of_decimal 15 (-1)))
  | PLimit input limit _ => f64_min (estimate input stats) (f64_mul (rows limit) SEQ_SCAN_ROW_COST)
  | PWindow input windows =>
      f64_add (estimate input stats)
        (f64_mul (f64_mul (rows (len windows)) (rows (output_rows input stats))) (f64_of_decimal 8 (-1)))
  | PSemiJoin l r _ _ _ _ =>
      f64_add (f64_add (estimate l stats) (estimate r stats)) (f64_mul (rows (output_rows l stats)) NESTED_LOOP_ROW_COST)
  | PCteScan _ _ _ => f64_of_decimal 5 (-1)
  | PSetOp l r _ _ =>
      f64_add (f64_add (estimate l stats) (estimate r stats)) (f64_mul (rows (output_rows l stats)) (f64_of_decimal 2 (-1)))
  | PDedup input => f64_add (estimate input stats) (f64_mul (rows (output_rows input stats)) (f64_of_decimal 1 (-1)))
  | PSubqueryScan input _ _ => estimate input stats
  end.

Definition index_beats_seq_scan (table column : bytes) (stats : PlanStats) : bool :=
  SFltb (f64_add INDEX_LOOKUP_COST (f64_mul (f64_of_Z (estimated_eq_rows stats table column)) SEQ_SCAN_ROW_COST))
    (f64_mul (f64_of_Z (rows_for stats table)) SEQ_SCAN_ROW_COST).

(** [index_wins] *)
Definition index_wins (table_rows : Z) (column : bytes) : bool :=
  index_beats_seq_scan (bs "t") column
    (mkPlanStats table_rows {[ bs "t" := mkTableStats table_rows {[ column := mkColumnStats table_rows ]} ]}).

(** ** Predicates *)

Fixpoint plan_height (plan : LogicalPlan) : nat :=
  match plan with
  | LScan _ _ | LCteScan _ _ => 1
  | LFilter input _ | LProject input _ | LAggregate input _ _ | LSort input _ | LLimit input _ _ | LWindow input _
  | LSubqueryScan input _ | LDistinct input => S (plan_height input)
  | LJoin l r _ _ | LSemiJoin l r _ _ _ _ | LSetOp l r _ _ => S (Nat.max (plan_height l) (plan_height r))
  end.

(** An equality of columns above an inner join becomes its condition.  The rewritten
    join is traversed again, hence the fuel. *)
Fixpoint pushdown_loop (fuel : nat) (plan : LogicalPlan) : LogicalPlan :=
  match fuel with
  | O => plan
  | S fuel' =>
      let go := pushdown_loop fuel' in
      match plan with
      | LFilter (LJoin l r on left_outer) predicate =>
          match left_outer, extract_equi_join predicate with
          | false, Some _ => go (LJoin (go l) (go r) predicate false)
          | _, _ => LFilter (LJoin (go l) (go r) on left_outer) predicate
          end
      | LFilter input predicate => LFilter (go input) predicate
      | LProject input items => LProject (go input) items
      | LJoin l r on left_outer => LJoin (go l) (go r) on left_outer
      | LAggregate input group_by aggs => LAggregate (go input) group_by aggs
      | LSort input keys => LSort (go input) keys
      | LLimit input limit offset => LLimit (go input) limit offset
      | LWindow input windows => LWindow (go input) windows
      | LSemiJoin l r lk rk corr negated => LSemiJoin (go l) (go r) lk rk corr negated
      | LSetOp l r op all => LSetOp (go l) (go r) op all
      | LDistinct input => LDistinct (go input)
      | LSubqueryScan input alias => LSubqueryScan (go input) alias
      | LCteScan _ _ | LScan _ _ => plan
      end
  end.
Definition pushdown_predicates (plan : LogicalPlan) : LogicalPlan := pushdown_loop (plan_height plan) plan.

(** ** Physical operators *)

Section physical.
Context {I : Type} `{RowStore I} `{FloatText}.

Record PlanContext : Type := mkPlanContext { pc_store : I; pc_stats : PlanStats }.

Definition literal_bytes (e : Expr) : option bytes :=
  match e with
  | ELiteral (LNull _) => Some []
  | ELiteral (LInteger n _) => Some (show_Z n)
  | ELiteral (LFloat f _) => Some (f64_to_string f)
  | ELiteral (LString s _) => Some s
  | ELiteral (LBoolean b _) => Some [if b then x01 else x00]
  | _ => None
  end.

Fixpoint extract_equality_predicate (e : Expr) : option (bytes * bytes) :=
  match e with
  | EBinary BEq l r _ =>
      match bare_column_name l, literal_bytes r with
      | Some col, Some val => Some (col, val)
      | _, _ =>
          match bare_column_name r, literal_bytes l with
          | Some col, Some val => Some (col, val)
          | _, _ => None
          end
      end
  | EParen inner _ => extract_equality_predicate inner
  | _ => None
  end.

Definition f64_le (a b : f64) : bool := SFleb a b.

Definition pick_join (hash nested merge : PhysicalPlan) (ctx : PlanContext) : PhysicalPlan :=
  let h := estimate hash (pc_stats ctx) in
  let n := estimate nested (pc_stats ctx) in
  let m := estimate merge (pc_stats ctx) in
  if f64_le h n && f64_le h m then hash else if f64_le m n then merge else nested.

(** The point lookup that replaces a filter over a scan, if any *)
Definition point_lookup (table : bytes) (predicate : Expr) (ctx : PlanContext) : option PhysicalPlan :=
  match extract_equality_predicate predicate with
  | Some (column, key) =>
      if bool_decide (row_id_column (pc_store ctx) table = Some column) then Some (PPkLookup table key None)
      else if index_exists (pc_store ctx) table column then Some (PIndexScan table column (Some key) None)
      else None
  | None => None
  end.

Fixpoint to_physical (plan : LogicalPlan) (ctx : PlanContext) : PhysicalPlan :=
  match plan with
  | LScan table prefix => PSeqScan table prefix None
  | LFilter input predicate =>
      match (match input with LScan table _ => point_lookup table predicate ctx | _ => None end) with
      | Some p => p
      | None => PFilter (to_physical input ctx) predicate
      end
  | LProject input items => PProject (to_physical input ctx) items
  | LJoin l r on left_outer =>
      let keys := join_keys l r on in
      let lp := to_physical l ctx in
      let rp := to_physical r ctx in
      let hash := PHashJoin lp rp on keys.1 keys.2 left_outer in
      if left_outer then hash
      else pick_join hash (PNestedLoopJoin lp rp on) (PMergeJoin lp rp on keys.1 keys.2) ctx
  | LAggregate input group_by aggs => PAggregate (to_physical input ctx) group_by aggs
  | LSort input keys => PSort (to_physical input ctx) keys None
  | LLimit input limit offset => PLimit (to_physical input ctx) limit offset
  | LWindow input windows => PWindow (to_physical input ctx) windows
  | LSemiJoin l r lk rk corr negated => PSemiJoin (to_physical l ctx) (to_physical r ctx) lk rk corr negated
  | LCteScan name prefix => PCteScan name prefix None
  | LSubqueryScan input alias => PSubqueryScan (to_physical input ctx) alias None
  | LSetOp l r op all => PSetOp (to_physical l ctx) (to_physical r ctx) op all
  | LDistinct input => PDedup (to_physical input ctx)
  end.
End physical.
Arguments PlanContext : clear implicits.

(** ** Column pruning *)

Fixpoint columns_in_expr (e : Expr) : list bytes :=
  match e with
  | EColumn (Named (Some t) c) => [id_value t ++ [dot] ++ id_value c]
  | EColumn (Named None c) => [id_value c]
  | EUnary _ e _ | EIsNull e _ _ | ECast e _ _ => columns_in_expr e
  | EBinary _ l r _ => columns_in_expr l ++ columns_in_expr r
  | EParen e _ => columns_in_expr e
  | EFunction _ args _ _ => concat (map columns_in_expr args)
  | _ => []
  end.

(** [sort] and [dedup], which removes equal neighbours *)
Fixpoint dedup_adjacent (l : list bytes) : list bytes :=
  match l with
  | a :: ((b :: _) as l') => if bool_decide (a = b) then dedup_adjacent l' else a :: dedup_adjacent l'
  | _ => l
  end.
Definition dedup_columns (cols : list bytes) : list bytes := dedup_adjacent (sort_by bytes_gt cols).

Definition non_empty (cols : list bytes) : option (list bytes) := match cols with [] => None | _ => Some cols end.

Definition window_columns (w : WindowCompute) : list bytes :=
  match wc_arg w with Some a => columns_in_expr a | None => [] end ++
  concat (map columns_in_expr (spec_partition_by (wc_spec w))) ++
  concat (map (fun k => columns_in_expr (key_expr k)) (spec_order_by (wc_spec w))).

Definition agg_input_columns (aggs : list (bytes * AggFunc)) : list bytes :=
  omap (fun a => match a.2 with
                 | CountStar => None
                 | CountCol c | AggSum c | AggAvg c | AggMin c | AggMax c => Some c
                 end) aggs.

Fixpoint collect_columns (plan : PhysicalPlan) : option (list bytes) :=
  let cols p := default [] (collect_columns p) in
  match plan with
  | PSeqScan _ _ _ | PIndexScan _ _ _ _ | PPkLookup _ _ _ | PCteScan _ _ _ => None
  | PFilter input predicate => Some (dedup_columns (cols input ++ columns_in_expr predicate))
  | PProject input items =>
      non_empty (dedup_columns (cols input ++ concat (map (fun i => columns_in_expr (item_expr i)) items)))
  | PHashJoin l r _ lk rk _ | PMergeJoin l r _ lk rk => Some (dedup_columns (cols l ++ cols r ++ [lk; rk]))
  | PNestedLoopJoin l r on => Some (dedup_columns (cols l ++ cols r ++ columns_in_expr on))
  | PAggregate input group_by aggs => non_empty (dedup_columns (cols input ++ group_by ++ agg_input_columns aggs))
  | PSort input keys _ => Some (dedup_columns (cols input ++ map fst keys))
  | PLimit input _ _ => collect_columns input
  | PWindow input windows => Some (dedup_columns (cols input ++ concat (map window_columns windows)))
  | PSemiJoin l r lk rk corr _ =>
      Some (dedup_columns (cols l ++ cols r ++ [lk] ++ match corr with Some p => columns_in_expr p | None => [] end ++ [rk]))
  | PSetOp l r _ _ => Some (dedup_columns (cols l ++ cols r))
  | PDedup input => collect_columns input
  | PSubqueryScan input _ _ => collect_columns input
  end.

Fixpoint apply_columns (plan : PhysicalPlan) (columns : option (list bytes)) : PhysicalPlan :=
  match plan with
  | PSeqScan table prefix _ => PSeqScan table prefix columns
  | PIndexScan table column point_key _ => PIndexScan table column point_key columns
  | PPkLookup table row_id _ => PPkLookup table row_id columns
  | PFilter input predicate => PFilter (apply_columns input columns) predicate
  | PProject input items => PProject (apply_columns input columns) items
  | PHashJoin l r on lk rk left_outer => PHashJoin (apply_columns l columns) (apply_columns r columns) on lk rk left_outer
  | PNestedLoopJoin l r on => PNestedLoopJoin (apply_columns l columns) (apply_columns r columns) on
  | PMergeJoin l r on lk rk => PMergeJoin (apply_columns l columns) (apply_columns r columns) on lk rk
  | PAggregate input group_by aggs => PAggregate (apply_columns input columns) group_by aggs
  | PSort input keys top_k => PSort (apply_columns input columns) keys top_k
  | PLimit input limit offset => PLimit (apply_columns input columns) limit offset
  | PWindow input windows => PWindow (apply_columns input columns) windows
  | PSemiJoin l r lk rk corr negated => PSemiJoin (apply_columns l columns) (apply_columns r columns) lk rk corr negated
  | PCteScan name prefix _ => PCteScan name prefix columns
  | PSubqueryScan input prefix _ => PSubqueryScan (apply_columns input columns) prefix columns
  | PSetOp l r op all => PSetOp (apply_columns l columns) (apply_columns r columns) op all
  | PDedup input => PDedup (apply_columns input columns)
  end.

Definition pushdown_columns (plan : PhysicalPlan) : PhysicalPlan := apply_columns plan (collect_columns plan).

(** ** LIMIT over ORDER BY *)

Definition MAX_TOP_K : Z := 256.

Fixpoint fuse_top_k_sort (plan : PhysicalPlan) : PhysicalPlan :=
  match plan with
  | PLimit input limit offset =>
      match input with
      | PSort sorted keys None =>
          if (offset =? 0) && (limit <=? MAX_TOP_K) && (length keys =? 1)%nat then PSort sorted keys (Some limit)
          else PLimit (fuse_top_k_sort input) limit offset
      | _ => PLimit (fuse_top_k_sort input) limit offset
      end
  | PFilter input predicate => PFilter (fuse_top_k_sort input) predicate
  | PProject input items => PProject (fuse_top_k_sort input) items
  | PHashJoin l r on lk rk left_outer => PHashJoin (fuse_top_k_sort l) (fuse_top_k_sort r) on lk rk left_outer
  | PNestedLoopJoin l r on => PNestedLoopJoin (fuse_top_k_sort l) (fuse_top_k_sort r) on
  | PMergeJoin l r on lk rk => PMergeJoin (fuse_top_k_sort l) (fuse_top_k_sort r) on lk rk
  | PAggregate input group_by aggs => PAggregate (fuse_top_k_sort input) group_by aggs
  | PSort input keys top_k => PSort (fuse_top_k_sort input) keys top_k
  | PWindow input windows => PWindow (fuse_top_k_sort input) windows
  | PSemiJoin l r lk rk corr negated => PSemiJoin (fuse_top_k_sort l) (fuse_top_k_sort r) lk rk corr negated
  | PSetOp l r op all => PSetOp (fuse_top_k_sort l) (fuse_top_k_sort r) op all
  | PDedup input => PDedup (fuse_top_k_sort input)
  | PSubqueryScan input prefix columns => PSubqueryScan (fuse_top_k_sort input) prefix columns
  | other => other
  end.

Definition optimize {I} `{RowStore I} `{FloatText} (plan : LogicalPlan) (ctx : PlanContext I) : PhysicalPlan :=
  fuse_top_k_sort (pushdown_columns (to_physical (pushdown_predicates plan) ctx)).
