(* ===== verification/SortJoin.v ===== *)
(** * ORDER BY, LIMIT and joins: what the operators compute

    ORDER BY compares by a total preorder, a fused LIMIT selects its first rows up
    to ties, and the hash join is the nested loop on equal keys. *)

From S2P Require Import Prelude BTree StorageError Mvcc MemTable Text Float64 Tokens Ast Display Utf8 RowPack Value Cast Eval EvalSpec Plan TableScan SetOps RowOps WindowExec StreamAgg Executor ExecutorSpec Optimize.

(** ** Comparators *)

(** A comparator of a total preorder *)
Definition preorder {A} (c : A -> A -> comparison) : Prop :=
  (forall a b, c b a = CompOpp (c a b)) /\ (forall a b d, c a b <> Gt -> c b d <> Gt -> c a d <> Gt).

Definition lex {A} (c1 c2 : A -> A -> comparison) (a b : A) : comparison :=
  match c1 a b with Eq => c2 a b | o => o end.

Lemma preorder_opp {A} (c : A -> A -> comparison) : preorder c -> preorder (fun a b => CompOpp (c a b)).
Proof.
  intros [Ha Ht]. split; [intros a b; by rewrite Ha|]. intros a b d.
  rewrite <- (Ha a b), <- (Ha b d), <- (Ha a d). intros H1 H2. by apply (Ht d b a).
Qed.

Lemma preorder_lex {A} (c1 c2 : A -> A -> comparison) : preorder c1 -> preorder c2 -> preorder (lex c1 c2).
Proof.
  intros [Ha1 Ht1] [Ha2 Ht2]. split.
  - intros a b. unfold lex. rewrite Ha1, Ha2. by destruct (c1 a b).
  - intros a b d. unfold lex. intros H1 H2. pose proof (Ht1 a b d) as T. pose proof (Ht1 b d a) as T1. pose proof (Ht1 d a b) as T2.
    rewrite (Ha1 a d), (Ha1 a b) in T1. rewrite (Ha1 a d), (Ha1 b d) in T2. specialize (Ht2 a b d).
    destruct (c1 a b), (c1 b d), (c1 a d); cbn [CompOpp] in *; auto; try (by apply T); try (by destruct T1); by destruct T2.
Qed.

Lemma preorder_map {A B} (f : A -> B) (c : B -> B -> comparison) : preorder c -> preorder (fun a b => c (f a) (f b)).
Proof. intros [Ha Ht]. split; [intros; apply Ha|intros a b d; apply Ht]. Qed.

Lemma preorder_bytes : preorder bytes_cmp.
Proof.
  split; [intros; apply bytes_cmp_antisym|]. intros a b d. pose proof (bytes_cmp_trans Lt a b d) as Tl.
  destruct (bytes_cmp a b) eqn:E1; [apply bytes_cmp_eq in E1 as ->; done| |done].
  destruct (bytes_cmp b d) eqn:E2; [apply bytes_cmp_eq in E2 as ->; by rewrite E1|by rewrite Tl|done].
Qed.

(** NULL after all bytes, a missing column after NULL *)
Definition sort_key (v : option Value) : option (option bytes) :=
  match v with None => None | Some VNull => Some None | Some v => Some (Some (as_bytes v)) end.
Definition none_last {A} (c : A -> A -> comparison) (a b : option A) : comparison :=
  match a, b with
  | None, None => Eq
  | None, Some _ => Gt
  | Some _, None => Lt
  | Some x, Some y => c x y
  end.

Lemma compare_sort_values_key a b : compare_sort_values a b = none_last (none_last bytes_cmp) (sort_key a) (sort_key b).
Proof. by destruct a as [[]|], b as [[]|]. Qed.

Lemma preorder_none_last {A} (c : A -> A -> comparison) : preorder c -> preorder (none_last c).
Proof.
  intros [Ha Ht]. split.
  - intros [a|] [b|]; cbn; auto.
  - intros [a|] [b|] [d|]; cbn; first [apply Ht|congruence].
Qed.

Lemma compare_rows_preorder keys : preorder (fun a b => compare_rows a b keys).
Proof.
  induction keys as [|[col asc] keys IH]; cbn [compare_rows]; [by split|].
  set (c := fun a b : RowMap => compare_sort_values (find_column a col) (find_column b col)).
  assert (preorder c) as Hc.
  { unfold c. destruct (preorder_none_last _ (preorder_none_last _ preorder_bytes)) as [Ha Ht]. split; intros *; rewrite !compare_sort_values_key; [apply Ha|apply Ht]. }
  set (c' := fun a b => if asc then c a b else CompOpp (c a b)).
  assert (preorder c') as Hc' by (unfold c'; destruct asc; [done|by apply preorder_opp]).
  destruct (preorder_lex c' _ Hc' IH) as [Ha Ht]. split.
  - intros a b. specialize (Ha a b). unfold lex, c', c in Ha. by destruct asc; destruct (compare_sort_values _ _) in Ha |- *;
      destruct (compare_sort_values _ _) in Ha |- *.
  - intros a b d. specialize (Ht a b d). unfold lex, c', c in Ht. destruct asc; [done|].
    by destruct (compare_sort_values (find_column a col) (find_column b col)),
      (compare_sort_values (find_column b col) (find_column d col)), (compare_sort_values (find_column a col) (find_column d col)).
Qed.

Lemma rows_gt_total keys a b : rows_gt keys a b = true -> rows_gt keys b a = false.
Proof. unfold rows_gt. destruct (compare_rows_preorder keys) as [Ha _]. rewrite (Ha a b). by destruct (compare_rows a b keys). Qed.
Lemma rows_gt_trans keys a b d : rows_gt keys a b = false -> rows_gt keys b d = false -> rows_gt keys a d = false.
Proof.
  unfold rows_gt. destruct (compare_rows_preorder keys) as [_ Ht]. specialize (Ht a b d). cbn beta in Ht.
  destruct (compare_rows a b keys), (compare_rows b d keys), (compare_rows a d keys); try done; by destruct Ht.
Qed.

(** Rows that ORDER BY does not tell apart *)
Definition ties (keys : list (bytes * bool)) (a b : RowMap) : Prop := compare_rows a b keys = Eq.

Lemma ties_le keys a b : rows_gt keys a b = false -> rows_gt keys b a = false -> ties keys a b.
Proof.
  unfold ties, rows_gt. destruct (compare_rows_preorder keys) as [Ha _]. rewrite (Ha a b). by destruct (compare_rows a b keys).
Qed.
Lemma ties_gt keys a b : ties keys a b -> rows_gt keys a b = false /\ rows_gt keys b a = false.
Proof. unfold ties, rows_gt. destruct (compare_rows_preorder keys) as [Ha _]. intros E. by rewrite (Ha a b), E. Qed.
Lemma ties_trans keys a b d : ties keys a b -> ties keys b d -> ties keys a d.
Proof. intros [? ?]%ties_gt [? ?]%ties_gt. apply ties_le; by eapply rows_gt_trans. Qed.
Lemma ties_sym keys a b : ties keys a b -> ties keys b a.
Proof. intros [? ?]%ties_gt. by apply ties_le. Qed.
Lemma ties_refl keys a : ties keys a a.
Proof. apply ties_le; destruct (rows_gt keys a a) eqn:E; try done; by rewrite (rows_gt_total _ _ _ E) in E. Qed.

(** ** Two ways to sort the same rows agree up to ties *)

Section sorted.
Context (keys : list (bytes * bool)).
Local Abbreviation le := (sort_le (rows_gt keys)).

Lemma sorted_unique l1 l2 l' :
  StronglySorted le l1 -> StronglySorted le l2 -> l1 ≡ₚ l' -> Forall2 (ties keys) l' l2 -> Forall2 (ties keys) l1 l2.
Proof.
  intros S1. revert l2 l'. induction S1 as [|x l1 S1 IH Hx]; intros l2 l' S2 P F.
  { apply Permutation_nil in P. subst l'. inversion F; subst. constructor. }
  destruct S2 as [|y l2 S2 Hy]; [inversion F; subst; symmetry in P; by apply Permutation_nil in P|].
  inversion F as [|y' ? l'' ? Hy' F'']; subst.
  destruct (ties_gt _ _ _ Hy') as [Gy1 Gy2]. assert (ties keys x y) as Hxy.
  { apply ties_le.
    - assert (y' ∈ x :: l1) as [<-|Hin]%elem_of_cons by (rewrite P; apply elem_of_cons; by left); [done|].
      rewrite Forall_forall in Hx. eapply rows_gt_trans; [by apply Hx|done].
    - assert (x ∈ y' :: l'') as [->|Hin]%elem_of_cons by (rewrite <- P; apply elem_of_cons; by left); [done|].
      apply list_elem_of_lookup in Hin as [i Hi]. destruct (Forall2_lookup_l _ _ _ _ _ F'' Hi) as (z & Hz & [Gz1 Gz2]%ties_gt).
      rewrite Forall_forall in Hy. eapply rows_gt_trans; [by eapply Hy, list_elem_of_lookup_2|done]. }
  constructor; [done|]. assert (x ∈ y' :: l'') as [->|Hin]%elem_of_cons by (rewrite <- P; apply elem_of_cons; by left).
  { apply (IH _ l''); [done| |done]. by apply Permutation_cons_inv in P. }
  apply list_elem_of_split in Hin as (a & b & ->).
  apply Forall2_app_inv_l in F'' as (ra & rb & Fa & Fb & ->). inversion Fb as [|? z ? rb' Hxz Fb']; subst.
  apply (IH _ (a ++ y' :: b)); [done| |].
  - rewrite <- Permutation_middle in P. rewrite perm_swap in P. apply Permutation_cons_inv in P. by rewrite P, Permutation_middle.
  - apply Forall2_app; [done|]. constructor; [|done]. eapply ties_trans; [done|]. eapply ties_trans; [by apply ties_sym|done].
Qed.

Lemma sort_by_le l : StronglySorted le (sort_by (rows_gt keys) l).
Proof. apply sort_by_sorted; [apply rows_gt_total|apply rows_gt_trans]. Qed.

Lemma sorted_app l1 l2 : StronglySorted le l1 -> StronglySorted le l2 ->
  (forall a b, a ∈ l1 -> b ∈ l2 -> le a b) -> StronglySorted le (l1 ++ l2).
Proof.
  intros S1 S2 H. induction S1 as [|x l1 S1 IH Hx]; cbn [app]; [done|]. constructor.
  - apply IH. intros a b Ha. apply H. apply elem_of_cons. by right.
  - apply Forall_app. split; [done|]. apply Forall_forall. intros b Hb. apply H; [apply elem_of_cons; by left|done].
Qed.
End sorted.

(** ** LIMIT fused into ORDER BY *)

Section top_k.
Context `{StdChoices} (keys : list (bytes * bool)) (rows : list RowMap).

Lemma select_split (k : nat) : (0 < k < length rows)%nat ->
  let sel := select_nth (rows_gt keys) (k - 1) rows in
  sort_by (rows_gt keys) (take k sel) ++ sort_by (rows_gt keys) (drop k sel) ≡ₚ rows /\
  StronglySorted (sort_le (rows_gt keys)) (sort_by (rows_gt keys) (take k sel) ++ sort_by (rows_gt keys) (drop k sel)).
Proof.
  intros Hk sel. split.
  - rewrite !sort_by_perm, take_drop. apply select_nth_perm.
  - apply sorted_app; [apply sort_by_le..|]. intros a b. rewrite !sort_by_perm.
    intros (i & Hi)%list_elem_of_lookup (j & Hj)%list_elem_of_lookup.
    rewrite lookup_take_Some in Hi. rewrite lookup_drop in Hj. destruct Hi as [Hi Hik].
    eapply (select_nth_law (rows_gt keys) (k - 1) rows); [lia|apply rows_gt_total|apply rows_gt_trans| | |exact Hi|exact Hj]; lia.
Qed.

(** C29. With a limit of at least one row, the fused operator, which selects and then
    sorts, returns rows of the input, as many as sorting and then limiting, and
    position by position the same up to ties. *)
Theorem top_k_sort_correct (k : Z) :
  0 < k ->
  Forall2 (ties keys) (sort_rows rows keys (Some k)) (take (Z.to_nat k) (sort_rows rows keys None)) /\
  sort_rows rows keys (Some k) ⊆+ rows.
Proof.
  intros Hk. unfold sort_rows. rewrite (proj2 (Z.ltb_lt 0 k)) by done. cbn [andb]. destruct (k <? len rows) eqn:El.
  - assert (0 < Z.to_nat k < length rows)%nat as Hr by (unfold len in El; bool_to_prop; lia).
    destruct (select_split _ Hr) as [P S]. set (sel := select_nth (rows_gt keys) (Z.to_nat k - 1) rows) in *. split.
    + assert (Forall2 (ties keys) (sort_by (rows_gt keys) (take (Z.to_nat k) sel) ++ sort_by (rows_gt keys) (drop (Z.to_nat k) sel))
        (sort_by (rows_gt keys) rows)) as F.
      { eapply (sorted_unique _ _ _ (sort_by (rows_gt keys) rows)); [done|apply sort_by_le|by rewrite P, sort_by_perm|].
        apply Forall2_same_length_lookup_2; [done|]. intros i x y Hx Hy. simplify_eq. apply ties_refl. }
      apply (Forall2_take _ _ _ (Z.to_nat k)) in F. rewrite take_app_le, take_ge in F; [done|..];
        rewrite (Permutation_length (sort_by_perm _ _)), length_take; unfold sel;
        rewrite (Permutation_length (select_nth_perm _ _ _)); lia.
    + rewrite sort_by_perm. etrans; [apply submseteq_take|]. unfold sel. by rewrite select_nth_perm.
  - bool_to_prop. split; [|by rewrite sort_by_perm]. rewrite take_ge.
    + apply Forall2_same_length_lookup_2; [done|]. intros i x y Hx Hy. simplify_eq. apply ties_refl.
    + rewrite (Permutation_length (sort_by_perm _ _)). unfold len in El. lia.
Qed.

(** [LIMIT 0] fused into the sort does not limit: every row is returned. *)
Theorem top_0_returns_all : sort_rows rows keys (Some 0) = sort_rows rows keys None.
Proof. done. Qed.
End top_k.

Lemma top_k_sort_correct_witness :
  0 < 1 /\
  Forall2 (ties [(bs "x", true)])
    (sort_rows (H := demo_choices) [[(bs "x", VBytes (bs "b"))]; [(bs "x", VBytes (bs "a"))]] [(bs "x", true)] (Some 1))
    [[(bs "x", VBytes (bs "a"))]].
Proof.
  split; [lia|]. exact (proj1 (top_k_sort_correct (H := demo_choices) [(bs "x", true)]
    [[(bs "x", VBytes (bs "b"))]; [(bs "x", VBytes (bs "a"))]] 1 ltac:(lia))).
Defined.

(** ** Names *)

(** The name under which a column is stored *)
Definition bare (n : bytes) : bytes := default n (bare_name n).

Lemma elem_rev (b : byte) l : b ∈ rev l <-> b ∈ l.
Proof. rewrite !list_elem_of_In. symmetry. apply in_rev. Qed.

Lemma split_first_none sep s : split_first sep s = None <-> sep ∉ s.
Proof.
  induction s as [|b s IH]; cbn [split_first]; [split; [intros _; apply not_elem_of_nil|done]|]. rewrite not_elem_of_cons.
  case_bool_decide as E; [naive_solver|]. destruct (split_first sep s) as [[x y]|]; naive_solver.
Qed.

Lemma split_first_some sep s x y : split_first sep s = Some (x, y) -> sep ∉ x /\ s = x ++ sep :: y.
Proof.
  revert x. induction s as [|b s IH]; intros x; cbn [split_first]; [done|]. case_bool_decide as E.
  - intros [= <- <-]. subst. split; [apply not_elem_of_nil|done].
  - destruct (split_first sep s) as [[x' y']|]; [|done]. intros [= <- <-]. destruct (IH x' eq_refl) as [H1 ->].
    split; [|done]. rewrite not_elem_of_cons. split; [congruence|done].
Qed.

Lemma split_first_at sep x y : sep ∉ x -> split_first sep (x ++ sep :: y) = Some (x, y).
Proof.
  induction x as [|b x IH]; cbn [app split_first]; [by rewrite bool_decide_eq_true_2|]. rewrite not_elem_of_cons. intros [H1 H2].
  rewrite bool_decide_eq_false_2 by congruence. by rewrite IH.
Qed.

Lemma bare_name_some n b : bare_name n = Some b <-> dot ∉ b /\ exists t, n = t ++ [dot] ++ b.
Proof.
  unfold bare_name, rsplit_once. split.
  - destruct (split_first dot (rev n)) as [[x y]|] eqn:E; [|done]. intros [= <-]. apply split_first_some in E as [H1 H2].
    split; [by rewrite elem_rev|]. exists (rev y). apply (f_equal (@rev byte)) in H2. rewrite rev_involutive in H2.
    rewrite H2, rev_app_distr. cbn [rev]. by rewrite <-app_assoc.
  - intros [H1 [t ->]]. rewrite !rev_app_distr. cbn [rev app]. rewrite <-app_assoc. cbn [app].
    rewrite split_first_at by by rewrite elem_rev. by rewrite rev_involutive.
Qed.

Lemma bare_name_none n : bare_name n = None <-> dot ∉ n.
Proof.
  unfold bare_name, rsplit_once. rewrite <-(elem_rev dot n), <-split_first_none. destruct (split_first dot (rev n)) as [[x y]|]; naive_solver.
Qed.

Lemma bare_plain n : dot ∉ n -> bare n = n.
Proof. intros H. unfold bare. by rewrite (proj2 (bare_name_none n) H). Qed.
Lemma bare_no_dot n : dot ∉ bare n.
Proof.
  unfold bare. destruct (bare_name n) eqn:E; cbn; [|by apply bare_name_none]. by apply bare_name_some in E as [? _].
Qed.
Lemma bare_name_bare n b : bare_name n = Some b -> bare n = b /\ bare b = b.
Proof. intros E. unfold bare at 1. rewrite E. split; [done|]. apply bare_plain. by apply bare_name_some in E as [? _]. Qed.
Lemma bare_qualified t c : bare (t ++ [dot] ++ c) = bare c.
Proof.
  unfold bare at 2. destruct (bare_name c) as [b|] eqn:E; cbn.
  - apply bare_name_some in E as [H [t' ->]]. unfold bare. rewrite (proj2 (bare_name_some _ b)); [done|].
    split; [done|]. exists (t ++ [dot] ++ t'). by rewrite <-!app_assoc.
  - apply bare_name_none in E. unfold bare. rewrite (proj2 (bare_name_some _ c)); [done|]. split; [done|]. by exists t.
Qed.

Lemma matches_bare stored wanted : column_name_matches stored wanted = true <-> bare stored = bare wanted.
Proof.
  unfold column_name_matches. rewrite !orb_true_iff, !bool_decide_eq_true. split.
  - intros [[->|E]|E]; [done| |].
    + by apply bare_name_bare in E as [-> ->].
    + destruct (bare_name wanted) as [b|] eqn:Ew; [|done]. apply bare_name_bare in Ew as [-> Eb].
      rewrite orb_true_iff, !bool_decide_eq_true in E. destruct E as [->|E]; [done|]. by apply bare_name_bare in E as [-> _].
  - unfold bare. destruct (bare_name stored) as [a|] eqn:Es, (bare_name wanted) as [b|] eqn:Ew; cbn; intros E; subst; try by auto.
    + right. rewrite orb_true_iff, !bool_decide_eq_true. auto.
    + right. rewrite orb_true_iff, !bool_decide_eq_true. auto.
Qed.

(** ** Hash join *)

Lemma build_buckets_lookup rows key k :
  default [] (build_buckets rows key !! k) = filter (fun r => join_key_value r key = Some k) rows.
Proof.
  unfold build_buckets. assert (forall b : gmap bytes (list RowMap),
    default [] (fold_left (fun b row => match join_key_value row key with
      | Some k => <[k := default [] (b !! k) ++ [row]]> b | None => b end) rows b !! k) =
    default [] (b !! k) ++ filter (fun r => join_key_value r key = Some k) rows) as Hb.
  { induction rows as [|row rows IH]; intros b; cbn [fold_left]; [by rewrite app_nil_r|]. rewrite IH, filter_cons.
    destruct (join_key_value row key) as [k'|] eqn:E; [|by rewrite decide_False by done].
    destruct (decide (k' = k)) as [->|Hne].
    - rewrite lookup_insert_eq, decide_True by done. simpl. by rewrite <- app_assoc.
    - rewrite lookup_insert_ne by done. by rewrite decide_False by congruence. }
  by rewrite Hb, lookup_empty.
Qed.

(** The bytes of the first column of a row that has the wanted name, apart from the names of
    tables before the dots *)
Definition key_of (row : RowMap) (column k : bytes) : Prop :=
  exists before n v after, row = before ++ (n, v) :: after /\ Forall (fun c : bytes * Value => bare c.1 <> bare column) before /\
    bare n = bare column /\ k = as_bytes v.

Lemma key_of_value row column k : key_of row column k <-> join_key_value row column = Some k.
Proof.
  unfold join_key_value, row_find, key_of. induction row as [|[n v] row IH].
  { split; [intros ([] & ? & ? & ? & ? & _); done|done]. }
  rewrite filter_cons. case_decide as Hm; cbn [fst] in Hm.
  - apply matches_bare in Hm. cbn. split.
    + intros (before & n' & v' & after & E & Hb & Hn & ->). destruct before as [|c before]; [by simplify_eq/=|].
      simplify_eq/=. by apply Forall_inv in Hb.
    + intros [= <-]. by exists [], n, v, row.
  - assert (bare n <> bare column) as Hne by (intros E%matches_bare; congruence). rewrite <-IH. split.
    + intros (before & n' & v' & after & E & Hb & Hn & ->). destruct before as [|c before]; simplify_eq/=.
      apply Forall_cons in Hb as [_ Hb]. by exists before, n', v', after.
    + intros (before & n' & v' & after & -> & Hb & Hn & ->). exists ((n, v) :: before), n', v', after.
      split; [done|]. split; [by constructor|done].
Qed.

(** Two rows whose keys are equal *)
Definition equi (lk rk : bytes) (l r : RowMap) : Prop := exists k, key_of l lk k /\ key_of r rk k.

Lemma equi_value lk rk l r : equi lk rk l r <-> is_Some (join_key_value l lk) /\ join_key_value r rk = join_key_value l lk.
Proof.
  unfold equi. setoid_rewrite key_of_value. split.
  - intros (k & -> & ->). by split; [eexists|].
  - intros [[k El] Er]. exists k. split; [done|congruence].
Qed.
#[global] Instance equi_dec lk rk l r : Decision (equi lk rk l r).
Proof. refine (cast_if (decide (is_Some (join_key_value l lk) /\ join_key_value r rk = join_key_value l lk))); by rewrite equi_value. Defined.

(** A list without its later duplicates *)
Fixpoint nub (l : list bytes) : list bytes := match l with [] => [] | x :: l => x :: filter (fun y => y <> x) (nub l) end.

(** A NULL for every column of the right rows, in order of appearance, that [l] does not have *)
Definition nulls_for (l : RowMap) (rs : list RowMap) : RowMap :=
  map (fun c => (c, VNull)) (filter (fun c => c ∉ map fst l) (nub (map fst (concat rs)))).

Lemma elem_of_nub l x : x ∈ nub l <-> x ∈ l.
Proof.
  induction l as [|y l IH]; [done|]. cbn [nub]. rewrite !elem_of_cons, list_elem_of_filter, IH.
  destruct (decide (x = y)); naive_solver.
Qed.
Lemma NoDup_nub l : NoDup (nub l).
Proof. induction l as [|y l IH]; cbn [nub]; constructor; [rewrite list_elem_of_filter; naive_solver|by apply NoDup_filter]. Qed.

Lemma right_columns_nub rs : right_columns rs = nub (map fst (concat rs)).
Proof.
  unfold right_columns. generalize (map fst (concat rs)) as l. intros l.
  assert (forall cols, fold_left (fun cols c => if bool_decide (c ∈ cols) then cols else cols ++ [c]) l cols =
    cols ++ filter (fun c => c ∉ cols) (nub l)) as Hg.
  { induction l as [|x l IH]; intros cols; cbn [fold_left nub]; [by rewrite app_nil_r|]. rewrite IH, filter_cons, list_filter_filter.
    case_bool_decide as Hx.
    - rewrite decide_False by tauto. f_equal. apply list_filter_iff. intros c. naive_solver.
    - rewrite decide_True by done. rewrite <-app_assoc. cbn [app]. do 2 f_equal. apply list_filter_iff. intros c.
      rewrite elem_of_app, list_elem_of_singleton. naive_solver. }
  rewrite Hg. cbn [app]. transitivity (filter (fun _ => True) (nub l)); [|].
  - apply list_filter_iff. intros c. split; [done|]. intros _. apply not_elem_of_nil.
  - clear Hg. induction (nub l) as [|x k IH]; [done|]. rewrite filter_cons_True by done. f_equal. exact IH.
Qed.

Lemma pad_row_nulls row cols : NoDup cols ->
  pad_row row cols = row ++ map (fun c => (c, VNull)) (filter (fun c => c ∉ map fst row) cols).
Proof.
  unfold pad_row. intros N. revert row. induction N as [|c cols Hc N IH]; intros row; cbn [fold_left]; [by rewrite app_nil_r|].
  rewrite filter_cons. case_bool_decide as Hin; [rewrite decide_False by tauto; apply IH|]. rewrite decide_True by done.
  rewrite IH, <-app_assoc. cbn [map app]. do 3 f_equal. revert Hc. clear. intros Hc.
  induction cols as [|c' cols IH]; [done|]. apply not_elem_of_cons in Hc as [Hne Hc]. rewrite !filter_cons, (IH Hc).
  apply decide_ext. rewrite map_app, elem_of_app. cbn [map]. rewrite list_elem_of_singleton. cbn [fst]. naive_solver.
Qed.

(** C28. The hash join is the nested loop over the rows whose keys are equal, in the order of
    both sides.  The key of a row is the bytes of its first column with the name of the
    join column, where the names of tables before the dots do not count; a NULL has the
    bytes of the empty text and joins with it.  A joined row has the columns of the left
    row, then those of the right row.  An outer join keeps a left row without a partner,
    with a NULL for every column of the right rows that the left row does not have, in
    order of appearance; an inner join drops it. *)
Theorem hash_join_nested_loop (ls rs : list RowMap) (lk rk : bytes) (left_outer : bool) :
  hash_join ls rs lk rk left_outer =
  concat (map (fun l => match filter (equi lk rk l) rs with
                        | [] => if left_outer then [l ++ nulls_for l rs] else []
                        | partners => map (fun r => l ++ r) partners
                        end) ls).
Proof.
  unfold hash_join. f_equal. apply map_ext. intros l.
  assert (filter (equi lk rk l) rs = default [] (match join_key_value l lk with Some k => build_buckets rs rk !! k | None => None end)) as ->.
  { transitivity (filter (fun r => is_Some (join_key_value l lk) /\ join_key_value r rk = join_key_value l lk) rs).
    { apply list_filter_iff. intros r. apply equi_value. }
    destruct (join_key_value l lk) as [k|] eqn:E.
    - rewrite build_buckets_lookup. apply list_filter_iff. intros r. split; [by intros [_ ?]|]. intros ?. split; [by eexists|done].
    - destruct (filter _ rs) as [|r l'] eqn:F; [done|]. exfalso.
      assert (r ∈ r :: l') as Hr by (apply elem_of_cons; by left). rewrite <- F in Hr.
      apply list_elem_of_filter in Hr as [[[? ?] _] _]. done. }
  assert (pad_row l (right_columns rs) = l ++ nulls_for l rs) as Hpad.
  { rewrite right_columns_nub. apply pad_row_nulls, NoDup_nub. }
  destruct (match join_key_value l lk with Some k => _ | None => None end) as [[|m ms]|]; cbn [default]; try done;
    destruct left_outer; by rewrite ?Hpad.
Qed.

(** ** What the optimizer changes: plans that return other rows after [optimize] than after the one-to-one [lower] *)

#[local] Existing Instance demo_env.
#[local] Existing Instance demo_choices.
#[local] Existing Instance demo_scheduler.

(** ** Tables of packed rows *)

Definition put_packed (t : MemTable) (r : string * string * list (string * string)) : MemTable :=
  let '(table, row, cols) := r in
  match MemTable_put t (packed_row_key (bs table) (bs row)) (encode_row (map (fun c => (bs c.1, bs c.2)) cols)) with
  | Ok t' => t'
  | _ => t
  end.
Definition packed_tables (rows : list (string * string * list (string * string))) : MemTable :=
  fold_left put_packed rows MemTable_new.

Definition run_plan (t : MemTable) (p : PhysicalPlan) : outcome ExecError (list Record_) :=
  execute p (mkExecutionContext t t None).
Definition optimized (t : MemTable) (p : LogicalPlan) : outcome ExecError (list Record_) :=
  run_plan t (optimize p (mkPlanContext t (load_plan_stats t))).
Definition lowered (t : MemTable) (p : LogicalPlan) : outcome ExecError (list Record_) := run_plan t (lower p).

Definition col_ref (t c : string) : Expr := EColumn (Named (Some (mkIdent (bs t) s0)) (mkIdent (bs c) s0)).
Definition bare_ref (c : string) : Expr := EColumn (Named None (mkIdent (bs c) s0)).
Definition item (e : Expr) : SelectItem := mkSelectItem e None.
Definition row1 (n v : string) : Record_ := mkRecord [(bs n, VBytes (bs v))].

(** Two orders of one user *)
Definition shop : MemTable := packed_tables
  [("orders", "1", [("user_id", "7"); ("sku", "book")]); ("orders", "2", [("user_id", "7"); ("sku", "pen")]);
   ("users", "7", [("id", "7"); ("name", "ada")])]%string.
Definition orders_users (on : Expr) : LogicalPlan :=
  LProject (LJoin (LScan (bs "orders") (bs "o")) (LScan (bs "users") (bs "u")) on false) [item (col_ref "o" "sku")].

(** For two tables the optimizer prefers the merge join, and the merge join moves
    past a right row at its first match: the second order of a user is lost. *)
Theorem merge_join_loses_rows :
  lowered shop (orders_users (EBinary BEq (col_ref "o" "user_id") (col_ref "u" "id") s0)) = Ok [row1 "sku" "book"; row1 "sku" "pen"] /\
  optimized shop (orders_users (EBinary BEq (col_ref "o" "user_id") (col_ref "u" "id") s0)) = Ok [row1 "sku" "book"].
Proof. split; vm_compute; reflexivity. Qed.

Definition order_ids (r : string) : Record_ :=
  mkRecord [(bs "sku", VBytes (bs r)); (bs "user_id", VBytes (bs "7")); (bs "id", VBytes (bs "7"))].
Definition all_ids : list SelectItem := [item (col_ref "o" "sku"); item (col_ref "o" "user_id"); item (col_ref "u" "id")].
Definition le_ids : Expr := EBinary BLe (col_ref "o" "user_id") (col_ref "u" "id") s0.

(** A condition that is no equality of columns has no keys, so every row of the merge
    join has the same missing key and only the first left row is joined. *)
Theorem inequality_join_loses_rows :
  run_plan shop (PProject (PNestedLoopJoin (PSeqScan (bs "orders") (bs "o") None) (PSeqScan (bs "users") (bs "u") None) le_ids)
    all_ids) = Ok [order_ids "book"; order_ids "pen"] /\
  optimized shop (LProject (LJoin (LScan (bs "orders") (bs "o")) (LScan (bs "users") (bs "u")) le_ids false) all_ids) =
    Ok [order_ids "book"].
Proof. split; vm_compute; reflexivity. Qed.

Definition where_on : LogicalPlan :=
  LProject (LFilter (LJoin (LScan (bs "orders") (bs "o")) (LScan (bs "users") (bs "u"))
    (EBinary BEq (col_ref "o" "user_id") (col_ref "u" "id") s0) false)
    (EBinary BEq (col_ref "o" "city") (col_ref "u" "city") s0)) [item (col_ref "u" "name")].
Definition cities : MemTable := packed_tables
  [("orders", "1", [("user_id", "7"); ("city", "oslo")]); ("users", "7", [("id", "7"); ("name", "ada"); ("city", "rome")]);
   ("users", "8", [("id", "8"); ("name", "bob"); ("city", "oslo")])]%string.

(** A WHERE clause that equates two columns replaces the ON condition of an inner
    join instead of being added to it: the order of user 7 is joined with user 8. *)
Theorem where_equality_replaces_on :
  pushdown_predicates where_on =
    LProject (LJoin (LScan (bs "orders") (bs "o")) (LScan (bs "users") (bs "u"))
      (EBinary BEq (col_ref "o" "city") (col_ref "u" "city") s0) false) [item (col_ref "u" "name")] /\
  lowered cities where_on = Ok [] /\ optimized cities where_on = Ok [row1 "name" "bob"].
Proof. split_and!; vm_compute; reflexivity. Qed.

Definition people : MemTable := packed_tables
  [("people", "1", [("name", "ada"); ("age", "36")]); ("people", "2", [("name", "bob"); ("age", "70")])]%string.
Definition by_age (predicate : Expr) : LogicalPlan :=
  LProject (LFilter (LScan (bs "people") []) predicate) [item (bare_ref "name")].

(** Column pruning does not look into BETWEEN and IN: the column that only they
    mention is not loaded, and the query fails. *)
Theorem between_column_pruned :
  lowered people (by_age (EBetween (bare_ref "age") (int_lit 30) (int_lit 40) false s0)) = Ok [row1 "name" "ada"] /\
  optimized people (by_age (EBetween (bare_ref "age") (int_lit 30) (int_lit 40) false s0)) = Err (UnknownColumn (bs "age")) /\
  optimized people (by_age (EIn (bare_ref "age") [int_lit 36] false s0)) = Err (UnknownColumn (bs "age")).
Proof. split_and!; vm_compute; reflexivity. Qed.

Definition first_names (n : Z) : LogicalPlan :=
  LLimit (LSort (LProject (LScan (bs "people") []) [item (bare_ref "name")]) [(bs "name", true)]) n 0.
(** [ORDER BY name LIMIT 0] returns every row. *)
Theorem limit_0_returns_rows :
  lowered people (first_names 0) = Ok [] /\ optimized people (first_names 0) = Ok [row1 "name" "ada"; row1 "name" "bob"] /\
  optimized people (first_names 1) = Ok [row1 "name" "ada"].
Proof. split_and!; vm_compute; reflexivity. Qed.

Definition two_sums (input : LogicalPlan) : LogicalPlan :=
  LAggregate input [] [(bs "sum", AggSum (bs "a")); (bs "sum", AggSum (bs "b"))].
Definition numbers : MemTable := packed_tables [("t", "1", [("a", "1"); ("b", "10")])]%string.
(** Two sums without alias share one accumulator when the rows are materialized, and
    have their own when they are streamed. *)
Theorem equal_names_share_a_slot :
  lowered numbers (two_sums (LScan (bs "t") [])) =
    Ok [mkRecord [(bs "sum", VFloat (f64_of_Z 1)); (bs "sum", VFloat (f64_of_Z 10))]] /\
  lowered numbers (two_sums (LSubqueryScan (LScan (bs "t") []) [])) = Ok [mkRecord [(bs "sum", VFloat (f64_of_Z 11))]].
Proof. split; vm_compute; reflexivity. Qed.

(** SUM over no rows is 0, not NULL as the comment on the empty input says. *)
Theorem sum_of_nothing_is_zero :
  lowered MemTable_new (LAggregate (LScan (bs "t") []) [] [(bs "s", AggSum (bs "a")); (bs "m", AggMax (bs "a"))]) =
  Ok [mkRecord [(bs "s", VFloat (S754_zero false)); (bs "m", VNull)]].
Proof. vm_compute. reflexivity. Qed.
