(* ===== verification/Pruning.v ===== *)
(** * Column pruning keeps the results (crates/noedb-planner/src/optimize.rs:
      pushdown_columns)

    [pushdown_columns] gives every scan of a plan the columns that the plan mentions, by
    their bare names.  The rows below the first projection or aggregation then lack the
    other columns; everything that reads them looks up a name that was kept. *)

From stdpp Require Import list gmap.
From S2P Require Import Prelude BTree StorageError Mvcc MemTable Text Float64 Tokens Ast Display Utf8 RowPack Value Cast Eval EvalSpec Plan TableScan SetOps RowOps WindowExec StreamAgg Executor ExecutorSpec Optimize SortJoin.

(** ** Rows with the columns [W] only *)

Definition restrict (W : list bytes) (row : RowMap) : RowMap := filter (fun c => bare c.1 ∈ W) row.

(** Every name of the list is kept. *)
Definition kept (W cols : list bytes) : Prop := Forall (fun c => bare c ∈ W) cols.

Section rows.
Context (W : list bytes).

Lemma filter_restrict (P : bytes * Value -> Prop) `{!forall c, Decision (P c)} row :
  (forall c, P c -> bare c.1 ∈ W) -> filter P (restrict W row) = filter P row.
Proof. intros K. unfold restrict. rewrite list_filter_filter. apply list_filter_iff. naive_solver. Qed.

Lemma row_find_restrict f row : (forall n, f n = true -> bare n ∈ W) -> row_find f (restrict W row) = row_find f row.
Proof. intros H. unfold row_find. rewrite filter_restrict; [done|]. intros c. apply H. Qed.

Lemma row_get_restrict n row : bare n ∈ W -> row_get n (restrict W row) = row_get n row.
Proof. intros H. unfold row_get. rewrite row_find_restrict; [done|]. intros m. by rewrite bool_decide_eq_true; intros ->. Qed.

Lemma find_matching_restrict c row : bare c ∈ W ->
  row_find (fun n => column_name_matches n c) (restrict W row) = row_find (fun n => column_name_matches n c) row.
Proof. intros H. apply row_find_restrict. intros n E%matches_bare. by rewrite E. Qed.

Lemma find_column_restrict c row : bare c ∈ W -> find_column (restrict W row) c = find_column row c.
Proof. intros H. unfold find_column. by rewrite find_matching_restrict. Qed.
Lemma join_key_restrict c row : bare c ∈ W -> join_key_value (restrict W row) c = join_key_value row c.
Proof. intros H. unfold join_key_value. by rewrite find_matching_restrict. Qed.
Lemma row_value_restrict c row : bare c ∈ W -> row_value (restrict W row) c = row_value row c.
Proof. intros H. unfold row_value. by rewrite find_column_restrict. Qed.

Lemma restrict_merge l r : restrict W (merge_rows l r) = merge_rows (restrict W l) (restrict W r).
Proof. apply filter_app. Qed.
End rows.

(** ** Expressions *)

(** The expressions whose columns [columns_in_expr] finds *)
Fixpoint seen_expr (e : Expr) : bool :=
  match e with
  | EBinary _ l r _ => seen_expr l && seen_expr r
  | EUnary _ e _ | EIsNull e _ _ | ECast e _ _ => seen_expr e
  | EParen e _ => seen_expr e
  | EFunction _ args _ _ => forallb seen_expr args
  | EIn _ _ _ _ | EBetween _ _ _ _ _ => false
  | _ => true
  end.

Section eval.
Context `{ExecEnv} (W : list bytes).

Lemma eval_column_restrict c row : kept W (columns_in_expr (EColumn c)) -> eval_column c (restrict W row) = eval_column c row.
Proof.
  destruct c as [[t|] c| |]; cbn [columns_in_expr eval_column]; try done; intros K%Forall_inv.
  - rewrite row_get_restrict by done. rewrite bare_qualified in K. by rewrite row_get_restrict.
  - rewrite row_get_restrict by done. rewrite filter_restrict; [done|]. intros m E%bare_name_bare. destruct E as [-> E]. by rewrite <-E.
Qed.

Lemma eval_function_ext name args row row' : Forall (fun e => eval_expr e row' = eval_expr e row) args ->
  eval_scalar_function eval_expr name args row' = eval_scalar_function eval_expr name args row.
Proof.
  intros F. assert (eval_arg0 eval_expr args row' = eval_arg0 eval_expr args row) as E0 by by destruct F.
  assert (eval_coalesce eval_expr row' args = eval_coalesce eval_expr row args) as E1.
  { clear E0. induction F as [|e args E F IH]; [done|]. cbn [eval_coalesce]. by rewrite E, IH. }
  unfold eval_scalar_function. by rewrite E0, E1.
Qed.

Lemma eval_restrict e row : seen_expr e = true -> kept W (columns_in_expr e) -> eval_expr e (restrict W row) = eval_expr e row.
Proof.
  revert row. pattern e. apply expr_rec; clear e; try done; unfold kept.
  - intros c row _ K. by apply eval_column_restrict.
  - intros op l r s IHl IHr row [Sl Sr]%andb_true_iff [Kl Kr]%Forall_app. cbn [eval_expr]. unfold eval_binary.
    by rewrite IHl, IHr by done.
  - intros op e s IH row S K. cbn [eval_expr]. unfold eval_unary. rewrite (IH row S K). done.
  - intros e n s IH row S K. cbn [eval_expr]. by rewrite IH.
  - intros e t s IH row S K. cbn [eval_expr]. by rewrite IH.
  - intros f args o s IH row S K. cbn [eval_expr]. destruct o; [done|]. apply eval_function_ext.
    cbn [seen_expr columns_in_expr] in S, K. induction IH as [|a args IHa IH' IHl]; [constructor|].
    cbn [forallb map concat] in S, K. apply andb_true_iff in S as [S1 S2]. apply Forall_app in K as [K1 K2]. constructor; auto.
Qed.

Lemma predicate_restrict e row : seen_expr e = true -> kept W (columns_in_expr e) ->
  eval_predicate e (restrict W row) = eval_predicate e row.
Proof. intros S K. unfold eval_predicate. by rewrite eval_restrict. Qed.

Definition item_columns (items : list SelectItem) : list bytes := concat (map (fun i => columns_in_expr (item_expr i)) items).

Lemma project_restrict items row : forallb (fun i => seen_expr (item_expr i)) items = true -> kept W (item_columns items) ->
  project_row items (restrict W row) = project_row items row.
Proof.
  intros S K. unfold project_row. assert (traverse (fun i => eval_expr (item_expr i) (restrict W row)) items =
    traverse (fun i => eval_expr (item_expr i) row) items) as ->; [|done].
  unfold item_columns, kept in *. induction items as [|i items IH]; [done|]. cbn [forallb map concat traverse] in *.
  apply andb_true_iff in S as [S1 S2]. apply Forall_app in K as [K1 K2]. by rewrite eval_restrict, IH.
Qed.
End eval.

(** ** Operators commute with the restriction *)

Section operators.
Context `{ExecEnv} (W : list bytes).

Lemma sort_insert_map {A B} (f : A -> B) (gt : B -> B -> bool) (gt' : A -> A -> bool) x l :
  (forall a b, gt (f a) (f b) = gt' a b) -> sort_insert gt (f x) (map f l) = map f (sort_insert gt' x l).
Proof.
  intros G. induction l as [|y l IH]; [done|]. cbn [map sort_insert]. rewrite G. destruct (gt' x y); [|done]. cbn [map]. by rewrite IH.
Qed.
Lemma sort_by_map {A B} (f : A -> B) (gt : B -> B -> bool) (gt' : A -> A -> bool) l :
  (forall a b, gt (f a) (f b) = gt' a b) -> sort_by gt (map f l) = map f (sort_by gt' l).
Proof. intros G. induction l as [|y l IH]; [done|]. cbn [map sort_by]. rewrite IH. by apply sort_insert_map. Qed.

Lemma rows_gt_restrict keys a b : kept W (map fst keys) -> rows_gt keys (restrict W a) (restrict W b) = rows_gt keys a b.
Proof.
  intros K. unfold rows_gt. assert (compare_rows (restrict W a) (restrict W b) keys = compare_rows a b keys) as ->; [|done].
  induction keys as [|[c asc] keys IH]; [done|]. apply Forall_cons in K as [K1 K2]. cbn [compare_rows].
  rewrite !find_column_restrict by done. by rewrite IH.
Qed.

Lemma sort_rows_restrict `{StdChoices} rows keys : kept W (map fst keys) ->
  sort_rows (map (restrict W) rows) keys None = map (restrict W) (sort_rows rows keys None).
Proof. intros K. unfold sort_rows. apply sort_by_map. intros a b. by apply rows_gt_restrict. Qed.

Lemma stream_filter_restrict p l e : (forall row, p (restrict W row) = p row) ->
  stream_filter p (map (restrict W) l) e = (map (restrict W) (stream_filter p l e).1, (stream_filter p l e).2).
Proof.
  intros E. induction l as [|row l IH]; [done|]. cbn [map stream_filter]. rewrite E.
  destruct (p row) as [[]| |]; [|done..]. rewrite IH. by destruct (stream_filter p l e).
Qed.
Lemma stream_map_restrict f l e : (forall row, f (restrict W row) = f row) -> stream_map f (map (restrict W) l) e = stream_map f l e.
Proof.
  intros E. induction l as [|row l IH]; [done|]. cbn [map stream_map]. rewrite E. destruct (f row); [|done..]. by rewrite IH.
Qed.

(** *** Joins *)

(** Changes of a row that keep the columns [W] *)
Definition keeps (f : RowMap -> RowMap) : Prop := forall row, restrict W (f row) = restrict W row.

Lemma keeps_restrict : keeps (restrict W).
Proof. intros row. by apply filter_restrict. Qed.

Lemma join_key_keeps f key row : keeps f -> bare key ∈ W -> join_key_value (f row) key = join_key_value row key.
Proof. intros F K. by rewrite <-(join_key_restrict W key (f row)), F, join_key_restrict. Qed.
Lemma predicate_keeps f g e l r : keeps f -> keeps g -> seen_expr e = true -> kept W (columns_in_expr e) ->
  eval_predicate e (merge_rows (f l) (g r)) = eval_predicate e (merge_rows l r).
Proof.
  intros F G S K. rewrite <-(predicate_restrict W e (merge_rows (f l) (g r))), restrict_merge, F, G, <-restrict_merge by done.
  by apply predicate_restrict.
Qed.

Lemma build_buckets_keeps f rows key k : keeps f -> bare key ∈ W ->
  build_buckets (map f rows) key !! k = map f <$> (build_buckets rows key !! k).
Proof.
  intros F K. unfold build_buckets. assert (forall b b' : gmap bytes (list RowMap), (forall k, b' !! k = map f <$> (b !! k)) ->
    fold_left (fun b row => match join_key_value row key with Some k => <[k := default [] (b !! k) ++ [row]]> b | None => b end) (map f rows) b' !! k =
    map f <$> (fold_left (fun b row => match join_key_value row key with Some k => <[k := default [] (b !! k) ++ [row]]> b | None => b end) rows b !! k)) as G.
  { induction rows as [|row rows IH]; intros b b' E; [apply E|]. cbn [map fold_left]. rewrite join_key_keeps by done.
    destruct (join_key_value row key) as [v|]; [|by apply IH]. apply IH. intros j. destruct (decide (j = v)) as [->|Hne].
    - rewrite !lookup_insert_eq, E. cbn. f_equal. rewrite map_app. cbn. f_equal. by destruct (b !! v).
    - by rewrite !lookup_insert_ne by done. }
  apply G. intros j. by rewrite !lookup_empty.
Qed.

Lemma right_columns_restrict rows : right_columns (map (restrict W) rows) = filter (fun n => bare n ∈ W) (right_columns rows).
Proof.
  unfold right_columns. assert (map fst (concat (map (restrict W) rows)) = filter (fun n => bare n ∈ W) (map fst (concat rows))) as ->.
  { induction rows as [|row rows IH]; [done|]. cbn [map concat]. rewrite !map_app, filter_app, IH. f_equal. unfold restrict.
    induction row as [|[n v] row IHr]; [done|]. cbn [map]. rewrite !filter_cons. cbn [fst]. destruct (decide _); [cbn [map]; by rewrite IHr|done]. }
  generalize (map fst (concat rows)) as l. assert (G : forall l cols,
    fold_left (fun cols c => if bool_decide (c ∈ cols) then cols else cols ++ [c]) (filter (fun n => bare n ∈ W) l) (filter (fun n => bare n ∈ W) cols) =
    filter (fun n => bare n ∈ W) (fold_left (fun cols c => if bool_decide (c ∈ cols) then cols else cols ++ [c]) l cols)); [|intros l; apply (G l [])].
  induction l as [|c l IH]; intros cols; [done|]. cbn [fold_left]. rewrite <-IH, filter_cons. destruct (decide (bare c ∈ W)) as [Hc|Hc].
  - cbn [fold_left]. f_equal. rewrite (bool_decide_ext (c ∈ filter _ cols) (c ∈ cols)) by (rewrite list_elem_of_filter; tauto).
    case_bool_decide; [done|]. by rewrite filter_app, filter_cons_True, filter_nil by done.
  - f_equal. case_bool_decide; [done|]. by rewrite filter_app, filter_cons_False, filter_nil, app_nil_r by done.
Qed.

Lemma pad_row_restrict row cols : restrict W (pad_row row cols) = pad_row (restrict W row) (filter (fun n => bare n ∈ W) cols).
Proof.
  unfold pad_row. revert row. induction cols as [|c cols IH]; intros row; [done|]. cbn [fold_left]. rewrite IH, filter_cons.
  assert (E : bare c ∈ W -> (c ∈ map fst (restrict W row) <-> c ∈ map fst row)).
  { intros Hc. unfold restrict. rewrite !list_elem_of_fmap. setoid_rewrite list_elem_of_filter. naive_solver. }
  destruct (decide (bare c ∈ W)) as [Hc|Hc].
  - cbn [fold_left]. f_equal. rewrite (bool_decide_ext _ _ (E Hc)). case_bool_decide; [done|].
    unfold restrict. by rewrite filter_app, filter_cons_True, filter_nil by done.
  - f_equal. case_bool_decide; [done|]. unfold restrict. by rewrite filter_app, filter_cons_False, filter_nil, app_nil_r by done.
Qed.

Lemma hash_join_restrict ls rs lk rk left_outer : bare lk ∈ W -> bare rk ∈ W ->
  hash_join (map (restrict W) ls) (map (restrict W) rs) lk rk left_outer = map (restrict W) (hash_join ls rs lk rk left_outer).
Proof.
  intros Kl Kr. unfold hash_join. rewrite concat_map, !map_map. f_equal. apply map_ext. intros l. rewrite join_key_restrict by done.
  assert (M : forall ms, map (restrict W) (map (merge_rows l) ms) = map (merge_rows (restrict W l)) (map (restrict W) ms)).
  { intros ms. rewrite !map_map. apply map_ext. intros r. apply restrict_merge. }
  assert (P : map (restrict W) (if left_outer then [pad_row l (if left_outer then right_columns rs else [])] else []) =
    (if left_outer then [pad_row (restrict W l) (if left_outer then right_columns (map (restrict W) rs) else [])] else [])).
  { destruct left_outer; [|done]. cbn [map]. by rewrite pad_row_restrict, right_columns_restrict. }
  destruct (join_key_value l lk) as [k|]; [|by rewrite P]. rewrite (build_buckets_keeps (restrict W)) by (done || apply keeps_restrict).
  destruct (build_buckets rs rk !! k) as [[|m ms]|]; cbn [fmap option_fmap option_map map]; [by rewrite P| |by rewrite P].
  apply (eq_sym (M (m :: ms))).
Qed.

Lemma loop_restrict ls rs :
  concat (map (fun l => map (merge_rows l) (map (restrict W) rs)) (map (restrict W) ls)) =
  map (restrict W) (concat (map (fun l => map (merge_rows l) rs) ls)).
Proof.
  rewrite concat_map, !map_map. f_equal. apply map_ext. intros l. rewrite !map_map. apply map_ext. intros r. symmetry. apply restrict_merge.
Qed.

Lemma merge_loop_restrict fuel on lk rk ls rs :
  seen_expr on = true -> kept W (columns_in_expr on) -> bare lk ∈ W -> bare rk ∈ W ->
  merge_join_loop fuel on lk rk (map (restrict W) ls) (map (restrict W) rs) =
  (let? rows := merge_join_loop fuel on lk rk ls rs in Ok (map (restrict W) rows)).
Proof.
  intros S K Kl Kr. revert ls rs. induction fuel as [|fuel IH]; intros ls rs; [done|]. destruct ls as [|l ls]; [done|].
  destruct rs as [|r rs]; [done|]. cbn [map merge_join_loop]. rewrite !join_key_restrict by done.
  destruct (opt_cmp _ _ _); [|apply (IH ls (r :: rs))|apply (IH (l :: ls) rs)].
  rewrite <-restrict_merge, predicate_restrict by done. destruct (eval_predicate on (merge_rows l r)) as [keep| |]; cbn [obind]; [|done..].
  change (restrict W l :: map (restrict W) ls) with (map (restrict W) (l :: ls)). rewrite IH.
  destruct (merge_join_loop fuel on lk rk (l :: ls) rs); cbn [obind]; [|done..]. by destruct keep.
Qed.

Lemma merge_join_restrict on lk rk ls rs :
  seen_expr on = true -> kept W (columns_in_expr on) -> bare lk ∈ W -> bare rk ∈ W ->
  merge_join on lk rk (map (restrict W) ls) (map (restrict W) rs) =
  (let? rows := merge_join on lk rk ls rs in Ok (map (restrict W) rows)).
Proof.
  intros S K Kl Kr. unfold merge_join. rewrite !length_map.
  assert (J : forall key l, bare key ∈ W -> sort_by_join_key key (map (restrict W) l) = map (restrict W) (sort_by_join_key key l)).
  { intros key l Hk. apply sort_by_map. intros a b. by rewrite !join_key_restrict. }
  rewrite !J by done. by apply merge_loop_restrict.
Qed.

(** The sides of a semi-join may be restricted or not. *)
Lemma semi_join_hash_keeps f g ls rs lk rk negated : keeps f -> keeps g -> bare lk ∈ W -> bare rk ∈ W ->
  semi_join_rows_hash (map f ls) (map g rs) lk rk negated = map f (semi_join_rows_hash ls rs lk rk negated).
Proof.
  intros F G Kl Kr. unfold semi_join_rows_hash.
  assert (omap (fun r => join_key_value r rk) (map g rs) = omap (fun r => join_key_value r rk) rs) as ->.
  { induction rs as [|r rs IH]; [done|]. cbn. by rewrite join_key_keeps, IH. }
  induction ls as [|l ls IH]; [done|]. cbn [map]. rewrite !filter_cons, join_key_keeps by done.
  destruct (decide _); cbn [map]; by rewrite IH.
Qed.

Lemma any_match_keeps f g corr l rs : keeps f -> keeps g -> seen_expr corr = true -> kept W (columns_in_expr corr) ->
  any_match corr (f l) (map g rs) = any_match corr l rs.
Proof.
  intros F G S K. induction rs as [|r rs IH]; [done|]. cbn [map any_match]. by rewrite predicate_keeps, IH.
Qed.

Lemma semi_join_keeps f g ls rs lk rk corr negated : keeps f -> keeps g -> bare lk ∈ W -> bare rk ∈ W ->
  match corr with Some p => seen_expr p = true /\ kept W (columns_in_expr p) | None => True end ->
  semi_join_rows (map f ls) (map g rs) lk rk corr negated =
  (let? rows := semi_join_rows ls rs lk rk corr negated in Ok (map f rows)).
Proof.
  intros F G Kl Kr C. unfold semi_join_rows. destruct corr as [p|]; [|cbn [obind]; by rewrite semi_join_hash_keeps].
  destruct C as [S K]. induction ls as [|l ls IH]; [done|]. cbn [map semi_join_correlated]. rewrite join_key_keeps by done.
  destruct (join_key_value l lk) as [k|]; [|done]. rewrite build_buckets_keeps, IH by done.
  assert (default [] (map g <$> (build_buckets rs rk !! k)) = map g (default [] (build_buckets rs rk !! k))) as ->
    by by destruct (build_buckets rs rk !! k).
  rewrite any_match_keeps by done. destruct (any_match p l _) as [matched| |]; cbn [obind]; [|done..].
  destruct (semi_join_correlated _ _ _ _ ls); cbn [obind]; [|done..]. by destruct (xorb negated matched).
Qed.

(** *** Aggregation *)

Lemma slot_update_restrict func row s : kept W (option_list (agg_column func)) ->
  AggSlot_update func (restrict W row) s = AggSlot_update func row s.
Proof. intros K. destruct func; cbn in K; try apply Forall_inv in K; cbn [AggSlot_update]; by rewrite ?row_value_restrict. Qed.

Lemma aggregate_restrict `{StdChoices} rows group_by aggs : kept W group_by -> kept W (agg_input_columns aggs) ->
  aggregate_rows (map (restrict W) rows) group_by aggs = aggregate_rows rows group_by aggs.
Proof.
  intros Kg Ka. unfold aggregate_rows. set (f := fun g row => _).
  assert (forall g, fold_left f (map (restrict W) rows) g = fold_left f rows g) as ->; [|done].
  assert (U : forall row slots, update_named aggs (restrict W row) slots = update_named aggs row slots).
  { intros row. unfold update_named. clear f. induction aggs as [|[name func] aggs IH]; intros slots; [done|]. cbn [fold_left fst snd].
    unfold agg_input_columns in Ka. cbn in Ka. rewrite slot_update_restrict, IH; [done| |]; destruct func; cbn in Ka |- *;
      try apply Forall_cons in Ka as [Ka1 Ka2]; try done; by repeat constructor. }
  assert (G : forall row, group_key group_by (restrict W row) = group_key group_by row).
  { intros row. unfold group_key. apply map_ext_in. intros c Hc. rewrite row_value_restrict; [done|].
    unfold kept in Kg. rewrite Forall_forall in Kg. apply Kg. by apply list_elem_of_In. }
  induction rows as [|row rows IH]; intros g; [done|]. cbn [map fold_left]. rewrite <-IH. f_equal. unfold f. by rewrite G, U.
Qed.
End operators.

(** ** Scans *)

(** A table of packed rows (what INSERT writes) whose columns have no dot in their names *)
Definition table_packed {T} `{RowStore T} (store : T) (table : bytes) : Prop :=
  Forall (fun e => match en_kind e with
                   | Packed record => Forall (fun c => dot ∉ c.1) (decode_row_or_default record)
                   | Cell _ _ => False
                   end) (collect_entries store table None).

Lemma decode_packed_restrict W record : Forall (fun c => dot ∉ c.1) (decode_row_or_default record) ->
  decode_packed record (Some W) = restrict W (decode_packed record None).
Proof.
  unfold decode_packed, restrict. assert (filter (fun c => wanted None c.1 = true) (decode_row_or_default record) = decode_row_or_default record) as ->.
  { induction (decode_row_or_default record) as [|c cs IH]; [done|]. rewrite filter_cons_True by done. by rewrite IH. }
  induction 1 as [|[n v] cs Hn _ IH]; [done|]. cbn [map]. rewrite !filter_cons. cbn [wanted fst snd] in *. rewrite bare_plain by done.
  destruct (decide (bool_decide (n ∈ W) = true)) as [E|E]; rewrite bool_decide_eq_true in E.
  - rewrite decide_True by done. cbn [map]. by rewrite IH.
  - by rewrite decide_False by done.
Qed.

Section scans.
Context {T : Type} `{RowStore T} `{Scheduler} (store : T) (W : list bytes).

Lemma entries_columns table columns : table_packed store table -> collect_entries store table columns = collect_entries store table None.
Proof.
  unfold table_packed, collect_entries. generalize (rs_range store (table_prefix_key table) (prefix_end (table_prefix_key table))) as l.
  induction l as [|[k v] l IH]; [done|]. cbn [omap list_omap].
  assert (match entry_of (table_prefix_key table) None (k, v) with
          | Some e => match en_kind e with Packed _ => entry_of (table_prefix_key table) columns (k, v) = Some e | Cell _ _ => True end
          | None => entry_of (table_prefix_key table) columns (k, v) = None end) as E.
  { unfold entry_of. destruct (starts_with _ k); [|done]. destruct (split_row_id _) as [row_id [col|]]; [done|]. cbn. by destruct (is_packed_row v). }
  destruct (entry_of _ None (k, v)) as [e|]; [|rewrite E; exact IH]. intros [H1 H2]%Forall_cons.
  destruct (en_kind e); [|done]. rewrite E. f_equal. by apply IH.
Qed.

(** The slots of packed rows *)
Definition prune_slot (s : Slot) : Slot := (restrict W <$> s.1, s.2).
Definition packed_slots (g : Grouped) : Prop := forall k s, g !! k = Some s -> s.2 = [].

Lemma group_restrict (entries : list Entry) (g : Grouped) :
  Forall (fun e => match en_kind e with
                   | Packed record => Forall (fun c => dot ∉ c.1) (decode_row_or_default record)
                   | Cell _ _ => False
                   end) entries ->
  packed_slots g ->
  fold_left (ingest (Some W)) entries (prune_slot <$> g) = prune_slot <$> (fold_left (ingest None) entries g) /\
  packed_slots (fold_left (ingest None) entries g).
Proof.
  intros F. revert g. induction F as [|e entries He F IH]; intros g P; [done|]. cbn [fold_left].
  destruct (en_kind e) as [record|] eqn:Ek; [|done].
  assert (ingest (Some W) (prune_slot <$> g) e = prune_slot <$> ingest None g e) as ->.
  { unfold ingest. rewrite fmap_insert, Ek. cbn [slot_add]. f_equal. unfold prune_slot at 2. cbn [fst snd].
    rewrite decode_packed_restrict by done. rewrite lookup_fmap. cbn. f_equal. by destruct (g !! en_row_id e). }
  apply IH. intros k s. unfold ingest. rewrite Ek. destruct (decide (k = en_row_id e)) as [->|Hne].
  - rewrite lookup_insert_eq. intros [= <-]. cbn. destruct (g !! en_row_id e) as [s|] eqn:E; [by apply P in E|done].
  - rewrite lookup_insert_ne by done. apply P.
Qed.

(** A pruned scan returns the rows of the full one without the other columns. *)
Lemma load_restrict table : table_packed store table ->
  load_table_rows store table (Some W) = map (restrict W) (load_table_rows store table None).
Proof.
  intros P. rewrite !load_table_rows_serial, (entries_columns table (Some W)) by done. unfold group_entries, finish_rows.
  destruct (group_restrict (collect_entries store table None) ∅ P) as [E S]; [by intros k s; rewrite lookup_empty|].
  rewrite fmap_empty in E. rewrite E, btree_iter_fmap, !map_map. apply map_ext_in. intros [k s] Hin%list_elem_of_In.
  apply elem_of_btree_iter in Hin. apply S in Hin. destruct s as [[row|] cells]; cbn in Hin |- *; subst; done.
Qed.
End scans.

Lemma prefix_restrict W rows prefix : prefix_rows (map (restrict W) rows) prefix = map (restrict W) (prefix_rows rows prefix).
Proof.
  unfold prefix_rows. destruct prefix as [|b prefix]; [done|]. rewrite !map_map. apply map_ext. intros row. unfold restrict.
  induction row as [|[n v] row IH]; [done|]. cbn [map]. rewrite !filter_cons. cbn [fst snd].
  rewrite (bare_qualified (b :: prefix) n). destruct (decide (bare n ∈ W)); cbn [map]; by rewrite IH.
Qed.

(** ** Plans *)

(** How a plan comes out of pruning: [Some true] with the same rows, [Some false] with
    its rows restricted to the columns kept, [None] when neither is claimed: scans of
    common table expressions and lookups prune differently, DISTINCT and windows look at
    whole rows, [columns_in_expr] does not find the columns of IN and BETWEEN, and of the
    condition of a merge join only the keys are kept. *)
Fixpoint pruning (plan : PhysicalPlan) : option bool :=
  match plan with
  | PSeqScan [] _ None => Some true
  | PSeqScan _ _ None => Some false
  | PFilter i p => match pruning i with Some false => if seen_expr p then Some false else None | r => r end
  | PProject i items =>
      match pruning i with
      | Some false => if forallb (fun i => seen_expr (item_expr i)) items then Some true else None
      | r => r
      end
  | PAggregate i _ _ => match pruning i with Some _ => Some true | None => None end
  | PSort i _ top_k => match pruning i, top_k with Some false, Some _ => None | r, _ => r end
  | PLimit i _ _ => pruning i
  | PSubqueryScan i _ None => pruning i
  | PWindow i _ | PDedup i => match pruning i with Some true => Some true | _ => None end
  | PHashJoin l r _ _ _ _ =>
      match pruning l, pruning r with
      | Some true, Some true => Some true
      | Some false, Some false => Some false
      | _, _ => None
      end
  | PNestedLoopJoin l r on =>
      match pruning l, pruning r with
      | Some true, Some true => Some true
      | Some false, Some false => if seen_expr on then Some false else None
      | _, _ => None
      end
  | PMergeJoin l r on lk rk =>
      match pruning l, pruning r with
      | Some true, Some true => Some true
      | Some false, Some false =>
          if seen_expr on && bool_decide (Forall (fun c => c ∈ [lk; rk]) (columns_in_expr on)) then Some false else None
      | _, _ => None
      end
  | PSemiJoin l r _ _ corr _ =>
      match pruning l, pruning r with
      | Some a, Some _ => if match corr with Some p => seen_expr p | None => true end then Some a else None
      | _, _ => None
      end
  | PSetOp l r _ _ => match pruning l, pruning r with Some true, Some true => Some true | _, _ => None end
  | _ => None
  end.

(** Every column that the operators of a plan mention has [S]. *)
Fixpoint plan_uses (S : bytes -> Prop) (plan : PhysicalPlan) : Prop :=
  match plan with
  | PFilter i p => plan_uses S i /\ Forall S (columns_in_expr p)
  | PProject i items => plan_uses S i /\ Forall S (item_columns items)
  | PAggregate i group_by aggs => plan_uses S i /\ Forall S group_by /\ Forall S (agg_input_columns aggs)
  | PSort i keys _ => plan_uses S i /\ Forall S (map fst keys)
  | PLimit i _ _ | PWindow i _ | PSubqueryScan i _ _ | PDedup i => plan_uses S i
  | PHashJoin l r _ lk rk _ => plan_uses S l /\ plan_uses S r /\ S lk /\ S rk
  | PMergeJoin l r on lk rk => plan_uses S l /\ plan_uses S r /\ S lk /\ S rk
  | PNestedLoopJoin l r on => plan_uses S l /\ plan_uses S r /\ Forall S (columns_in_expr on)
  | PSemiJoin l r lk rk corr _ =>
      plan_uses S l /\ plan_uses S r /\ S lk /\ S rk /\ match corr with Some p => Forall S (columns_in_expr p) | None => True end
  | PSetOp l r _ _ => plan_uses S l /\ plan_uses S r
  | _ => True
  end.

Lemma Forall_dedup (S : bytes -> Prop) l : Forall S (dedup_columns l) -> Forall S l.
Proof.
  unfold dedup_columns. intros F. rewrite <-(sort_by_perm bytes_gt l). revert F. generalize (sort_by bytes_gt l) as m.
  induction m as [|a [|b m] IH]; [done..|]. cbn [dedup_adjacent] in *. case_bool_decide as E.
  - subst. intros F. specialize (IH F). constructor; [by apply Forall_inv in IH|done].
  - intros [F1 F2]%Forall_cons. constructor; [done|by apply IH].
Qed.
Lemma default_non_empty l : default [] (non_empty l) = l.
Proof. by destruct l. Qed.

Lemma collect_uses (S : bytes -> Prop) plan : Forall S (default [] (collect_columns plan)) -> plan_uses S plan.
Proof.
  induction plan; cbn [collect_columns plan_uses]; rewrite ?default_non_empty; cbn [default]; unfold item_columns; try done;
    intros F; try (apply Forall_dedup in F); rewrite ?Forall_app, ?Forall_cons in F; try tauto.
  all: try (destruct corr_on; naive_solver).
Qed.

Section plans.
Context `{ExecEnv} {T I : Type} `{RowStore T} `{RowStore I} `{Scheduler} `{StdChoices}.
Context (ctx : ExecutionContext T I).

(** Every table that the plan scans is packed. *)
Fixpoint scans_packed (plan : PhysicalPlan) : Prop :=
  match plan with
  | PSeqScan table _ _ => table <> [] -> table_packed (ctx_store ctx) table
  | PFilter i _ | PProject i _ | PAggregate i _ _ | PSort i _ _ | PLimit i _ _ | PWindow i _ | PSubqueryScan i _ _ | PDedup i =>
      scans_packed i
  | PHashJoin l r _ _ _ _ | PNestedLoopJoin l r _ | PMergeJoin l r _ _ _ | PSemiJoin l r _ _ _ _ | PSetOp l r _ _ =>
      scans_packed l /\ scans_packed r
  | _ => True
  end.

Definition cut (W : list bytes) (exact : bool) (row : RowMap) : RowMap := if exact then row else restrict W row.
Definition cut_stream (W : list bytes) (exact : bool) (o : outcome ExecError Stream) : outcome ExecError Stream :=
  let? s := o in Ok (map (cut W exact) s.1, s.2).

Lemma cut_exact W rows : map (cut W true) rows = rows.
Proof. apply map_id. Qed.
Lemma cut_stream_exact W o : cut_stream W true o = o.
Proof. unfold cut_stream. destruct o as [[rows e]| |]; [|done..]. cbn [obind fst snd]. by rewrite cut_exact. Qed.
Lemma keeps_cut W exact : keeps W (cut W exact).
Proof. destruct exact; [done|]. intros row. apply keeps_restrict. Qed.

Lemma cut_rows W exact o : (let? s := cut_stream W exact o in collected s) = (let? rows := (let? s := o in collected s) in Ok (map (cut W exact) rows)).
Proof. unfold cut_stream, collected. destruct o as [[rows e]| |]; [|done..]. cbn [obind fst snd]. by destruct e. Qed.

Lemma project_stream i items : plan_stream ctx (PProject i items) =
  let? s := plan_stream ctx i in Ok (stream_map (project_row items) s.1 s.2).
Proof. cbn [plan_stream]. by destruct i as [[|b table] prefix columns| | | | | | | | | | | | | | | |]. Qed.

Lemma streaming_columns i group_by aggs columns :
  try_streaming_aggregate (apply_columns i columns) group_by aggs (ctx_store ctx) = try_streaming_aggregate i group_by aggs (ctx_store ctx).
Proof. destruct i as [| | |i p| | | | | | | | | | | | |]; try done. by destruct i. Qed.

Lemma limit_cut W exact limit offset s :
  stream_limit limit offset (map (cut W exact) s.1, s.2) = cut_stream W exact (stream_limit limit offset s).
Proof.
  unfold stream_limit, cut_stream, stream_take, stream_skip. cbn [fst snd]. unfold len. rewrite length_map. destruct (_ <=? _); cbn [obind fst snd].
  - rewrite skipn_map, !length_map. destruct (_ <=? _); cbn [fst snd]; by rewrite ?firstn_map.
  - destruct s.2; by cbn.
Qed.

(** *** One operator over a pruned input *)

Section operator.
Context (W : list bytes).

Lemma filter_cut p o : seen_expr p = true -> kept W (columns_in_expr p) ->
  (let? s := cut_stream W false o in Ok (stream_filter (eval_predicate p) s.1 s.2)) =
  cut_stream W false (let? s := o in Ok (stream_filter (eval_predicate p) s.1 s.2)).
Proof.
  intros S K. unfold cut_stream. destruct o as [[rows e]| |]; [|done..]. cbn [obind fst snd]. change (cut W false) with (restrict W).
  rewrite stream_filter_restrict; [done|]. intros row. by apply predicate_restrict.
Qed.

Lemma project_cut items o : forallb (fun i => seen_expr (item_expr i)) items = true -> kept W (item_columns items) ->
  (let? s := cut_stream W false o in Ok (stream_map (project_row items) s.1 s.2)) =
  (let? s := o in Ok (stream_map (project_row items) s.1 s.2)).
Proof.
  intros S K. unfold cut_stream. destruct o as [[rows e]| |]; [|done..]. cbn [obind fst snd]. change (cut W false) with (restrict W).
  rewrite stream_map_restrict; [done|]. intros row. by apply project_restrict.
Qed.

(** The operators that collect the rows of one input or of two *)
Lemma rows_cut {A} exact o (k k' : list RowMap -> outcome ExecError A) :
  (forall rows, k (map (cut W exact) rows) = k' rows) ->
  (let? rows := (let? s := cut_stream W exact o in collected s) in k rows) = (let? rows := (let? s := o in collected s) in k' rows).
Proof. intros E. rewrite cut_rows. destruct (let? s := o in collected s); cbn [obind]; [apply E|done..]. Qed.

Lemma rows_cut2 a b ol or (k k' : list RowMap -> list RowMap -> outcome ExecError Stream) exact :
  (forall ls rs, k (map (cut W a) ls) (map (cut W b) rs) = cut_stream W exact (k' ls rs)) ->
  (let? ls := (let? s := cut_stream W a ol in collected s) in let? rs := (let? s := cut_stream W b or in collected s) in k ls rs) =
  cut_stream W exact (let? ls := (let? s := ol in collected s) in let? rs := (let? s := or in collected s) in k' ls rs).
Proof.
  intros E. rewrite !cut_rows. destruct (let? s := ol in collected s); cbn [obind]; [|done..].
  destruct (let? s := or in collected s); cbn [obind]; [apply E|done..].
Qed.
End operator.

(** Pruning the scans of a covered plan changes its rows as [pruning] says. *)
Definition prunes (cols : list bytes) (plan : PhysicalPlan) : Prop :=
  forall exact, pruning plan = Some exact -> scans_packed plan -> plan_uses (fun c => bare c ∈ map bare cols) plan ->
  plan_stream ctx (apply_columns plan (Some cols)) = cut_stream (map bare cols) exact (plan_stream ctx plan).

Section induction.
Context (cols : list bytes).
Notation W := (map bare cols).

Lemma prune_scan table prefix columns : prunes cols (PSeqScan table prefix columns).
Proof.
  intros exact E P _. cbn [pruning scans_packed apply_columns] in *. destruct columns; [by destruct table|].
  destruct table as [|b table]; injection E as <-; [by rewrite cut_stream_exact|].
  cbn [plan_stream option_map]. fold bare. change (fun c => default c (bare_name c)) with bare.
  rewrite (load_restrict (ctx_store ctx) W) by by apply P. by rewrite prefix_restrict.
Qed.

Lemma prune_filter i p : prunes cols i -> prunes cols (PFilter i p).
Proof.
  intros IH exact E P [U K]. cbn [pruning scans_packed apply_columns plan_stream] in *. destruct (pruning i) as [[]|] eqn:Ei; [| |done].
  - injection E as <-. by rewrite (IH true), !cut_stream_exact.
  - destruct (seen_expr p) eqn:S; [|done]. injection E as <-. rewrite (IH false) by done. by apply filter_cut.
Qed.

Lemma prune_project i items : prunes cols i -> prunes cols (PProject i items).
Proof.
  intros IH exact E P [U K]. cbn [pruning scans_packed apply_columns] in *. rewrite !project_stream. destruct (pruning i) as [[]|] eqn:Ei; [| |done].
  - injection E as <-. by rewrite (IH true), !cut_stream_exact.
  - destruct (forallb _ items) eqn:S; [|done]. injection E as <-. rewrite (IH false), cut_stream_exact by done. by apply project_cut.
Qed.

Lemma prune_aggregate i group_by aggs : prunes cols i -> prunes cols (PAggregate i group_by aggs).
Proof.
  intros IH exact E P (U & Kg & Ka). cbn [pruning scans_packed apply_columns plan_stream] in *. destruct (pruning i) as [m|] eqn:Ei; [|done].
  injection E as <-. rewrite cut_stream_exact, streaming_columns, (IH m) by done. destruct (try_streaming_aggregate _ _ _ _); [done|].
  f_equal. apply rows_cut. intros rows. destruct m; [by rewrite cut_exact|]. change (cut W false) with (restrict W). by rewrite aggregate_restrict.
Qed.

Lemma prune_sort i keys top_k : prunes cols i -> prunes cols (PSort i keys top_k).
Proof.
  intros IH exact E P [U K]. cbn [pruning scans_packed apply_columns plan_stream] in *. destruct (pruning i) as [[]|] eqn:Ei; [| |done].
  - injection E as <-. by rewrite (IH true), !cut_stream_exact.
  - destruct top_k; [done|]. injection E as <-. rewrite (IH false), cut_rows by done.
    unfold ready, cut_stream. destruct (let? s := plan_stream ctx i in collected s); cbn [obind fst snd]; [|done..]. change (cut W false) with (restrict W). by rewrite sort_rows_restrict.
Qed.

Lemma prune_limit i limit offset : prunes cols i -> prunes cols (PLimit i limit offset).
Proof.
  intros IH exact E P U. cbn [pruning scans_packed apply_columns plan_stream] in *. rewrite (IH exact) by done.
  destruct (plan_stream ctx i) as [s| |]; [|done..]. apply limit_cut.
Qed.

Lemma prune_subquery i prefix columns : prunes cols i -> prunes cols (PSubqueryScan i prefix columns).
Proof.
  intros IH exact E P U. cbn [pruning scans_packed apply_columns plan_stream] in *. destruct columns; [done|]. rewrite (IH exact), cut_rows by done.
  unfold ready, cut_stream. destruct (let? s := plan_stream ctx i in collected s); cbn [obind fst snd]; [|done..]. destruct exact; [by rewrite !cut_exact|].
  change (cut W false) with (restrict W). by rewrite prefix_restrict.
Qed.

Lemma prune_window i windows : prunes cols i -> prunes cols (PWindow i windows).
Proof.
  intros IH exact E P U. cbn [pruning scans_packed apply_columns plan_stream] in *. destruct (pruning i) as [[]|] eqn:Ei; [|done..].
  injection E as <-. by rewrite (IH true), !cut_stream_exact.
Qed.
Lemma prune_dedup i : prunes cols i -> prunes cols (PDedup i).
Proof.
  intros IH exact E P U. cbn [pruning scans_packed apply_columns plan_stream] in *. destruct (pruning i) as [[]|] eqn:Ei; [|done..].
  injection E as <-. by rewrite (IH true), !cut_stream_exact.
Qed.
Lemma prune_set_op l r op all : prunes cols l -> prunes cols r -> prunes cols (PSetOp l r op all).
Proof.
  intros IHl IHr exact E [Pl Pr] [Ul Ur]. cbn [pruning apply_columns plan_stream] in *. destruct (pruning l) as [[]|] eqn:El; [|done..].
  destruct (pruning r) as [[]|] eqn:Er; [|done..]. injection E as <-. by rewrite (IHl true), (IHr true), !cut_stream_exact.
Qed.

Lemma prune_hash_join l r on lk rk lo : prunes cols l -> prunes cols r -> prunes cols (PHashJoin l r on lk rk lo).
Proof.
  intros IHl IHr exact E [Pl Pr] (Ul & Ur & Kl & Kr). cbn [pruning apply_columns plan_stream] in *.
  destruct (pruning l) as [[]|] eqn:El, (pruning r) as [[]|] eqn:Er; try done; injection E as <-.
  - by rewrite (IHl true), (IHr true), !cut_stream_exact.
  - rewrite (IHl false), (IHr false) by done. apply rows_cut2. intros ls rs. change (cut W false) with (restrict W).
    by rewrite hash_join_restrict.
Qed.

Lemma prune_nested_loop l r on : prunes cols l -> prunes cols r -> prunes cols (PNestedLoopJoin l r on).
Proof.
  intros IHl IHr exact E [Pl Pr] (Ul & Ur & K). cbn [pruning apply_columns plan_stream] in *.
  destruct (pruning l) as [[]|] eqn:El, (pruning r) as [[]|] eqn:Er; try done.
  - injection E as <-. by rewrite (IHl true), (IHr true), !cut_stream_exact.
  - destruct (seen_expr on) eqn:S; [|done]. injection E as <-. rewrite (IHl false), (IHr false) by done. apply rows_cut2. intros ls rs.
    change (cut W false) with (restrict W). rewrite loop_restrict, stream_filter_restrict; [done|]. intros row. by apply predicate_restrict.
Qed.

Lemma prune_merge_join l r on lk rk : prunes cols l -> prunes cols r -> prunes cols (PMergeJoin l r on lk rk).
Proof.
  intros IHl IHr exact E [Pl Pr] (Ul & Ur & Kl & Kr). cbn [pruning apply_columns plan_stream] in *.
  destruct (pruning l) as [[]|] eqn:El, (pruning r) as [[]|] eqn:Er; try done.
  - injection E as <-. by rewrite (IHl true), (IHr true), !cut_stream_exact.
  - destruct (seen_expr on) eqn:S; [|done]. cbn [andb] in E. case_bool_decide as K; [|done]. injection E as <-.
    rewrite (IHl false), (IHr false) by done. apply rows_cut2. intros ls rs. change (cut W false) with (restrict W).
    rewrite merge_join_restrict; try done; [|eapply Forall_impl; [exact K|]; set_solver]. by destruct (merge_join _ _ _ _ _).
Qed.

Lemma prune_semi_join l r lk rk corr neg : prunes cols l -> prunes cols r -> prunes cols (PSemiJoin l r lk rk corr neg).
Proof.
  intros IHl IHr exact E [Pl Pr] (Ul & Ur & Kl & Kr & Kc). cbn [pruning apply_columns plan_stream] in *.
  destruct (pruning l) as [a|] eqn:El; [|done]. destruct (pruning r) as [b|] eqn:Er; [|done]. destruct (match corr with Some p => _ | None => _ end) eqn:S; [|done].
  injection E as <-. rewrite (IHl a), (IHr b) by done. apply rows_cut2. intros ls rs.
  rewrite (semi_join_keeps W (cut W a) (cut W b)); try done; [|apply keeps_cut..|by destruct corr]. by destruct (semi_join_rows _ _ _ _ _ _).
Qed.

Lemma prune_stream plan : prunes cols plan.
Proof.
  induction plan; try done; auto using prune_scan, prune_filter, prune_project, prune_aggregate, prune_sort, prune_limit, prune_subquery,
    prune_window, prune_dedup, prune_set_op, prune_hash_join, prune_nested_loop, prune_merge_join, prune_semi_join.
Qed.
End induction.
End plans.

Lemma apply_columns_none plan exact : pruning plan = Some exact -> apply_columns plan None = plan.
Proof.
  assert (G : forall p, is_Some (pruning p) -> apply_columns p None = p); [|intros E; apply G; by rewrite E].
  clear plan. intros p. induction p; cbn [pruning apply_columns]; intros E; try by destruct E.
  all: try (destruct columns as [|]; [by destruct E|]); try (destruct table, columns; by destruct E).
  all: repeat match goal with IH : is_Some (pruning ?q) -> _ |- _ =>
    let H := fresh in assert (H : is_Some (pruning q)) by (destruct (pruning q); [eauto|by repeat case_match; destruct E]); rewrite (IH H); clear IH end; done.
Qed.

Lemma apply_columns_ok plan columns : plan_ok (apply_columns plan columns) <-> plan_ok plan.
Proof. induction plan; cbn [apply_columns plan_ok]; try done; tauto. Qed.

(** C22. Column pruning keeps results where it finds the columns that a plan reads: executing
    the plan with pruned scans gives what the plan gives, errors included, when the tables
    hold packed rows whose column names have no dot, for the plans with
    [pruning plan = Some true]: filters, hash joins (also outer), nested-loop, merge and
    semi-joins, sorts, limits, derived tables over table scans under a projection or an
    aggregation, any operator above.  Not covered: IN or BETWEEN in a filter, join
    condition or projection below the top one (its columns are not found:
    between_column_pruned), a merge join whose condition reads more than the two keys, as
    one that is no equality does (join_condition_pruned), columns with a dot
    (dotted_column_pruned); and, with no claim either way, a top-k sort, DISTINCT, window
    or set operation over unprojected rows, a join of a projected with an unprojected
    input, and scans of common table expressions, primary keys and indexes. *)
Theorem column_pruning_sound `{ExecEnv} {T I} `{RowStore T} `{RowStore I} `{Scheduler} `{StdChoices}
    (ctx : ExecutionContext T I) (plan : PhysicalPlan) :
  plan_ok plan -> pruning plan = Some true -> scans_packed ctx plan ->
  execute (pushdown_columns plan) ctx = execute plan ctx.
Proof.
  intros Hok E P. unfold execute, pushdown_columns. rewrite !execute_stream by (try apply apply_columns_ok; done).
  destruct (collect_columns plan) as [cols|] eqn:C; [|by rewrite (apply_columns_none plan true)].
  rewrite (prune_stream ctx cols plan true), cut_stream_exact; [done..|]. apply collect_uses. rewrite C. cbn.
  apply Forall_forall. intros c Hc. by apply list_elem_of_fmap_2.
Qed.

(** *** Samples *)

Definition packed_entry (e : Entry) : bool :=
  match en_kind e with
  | Packed record => forallb (fun c => negb (bool_decide (dot ∈ c.1))) (decode_row_or_default record)
  | Cell _ _ => false
  end.
Lemma packed_check {T} `{RowStore T} (store : T) table :
  forallb packed_entry (collect_entries store table None) = true -> table_packed store table.
Proof.
  unfold table_packed. intros F. apply Forall_forall. intros e He. rewrite forallb_forall in F. apply list_elem_of_In, F in He. unfold packed_entry in He.
  destruct (en_kind e); [|done]. apply Forall_forall. intros c Hc. rewrite forallb_forall in He. apply list_elem_of_In, He in Hc.
  by rewrite negb_true_iff, bool_decide_eq_false in Hc.
Qed.

(** [SELECT name FROM orders o LEFT JOIN users u ON o.user_id = u.id WHERE LENGTH(sku) > 3 ORDER BY sku] *)
Definition joined : PhysicalPlan :=
  PProject (PSort (PFilter (PHashJoin (PSeqScan (bs "orders") (bs "o") None) (PSeqScan (bs "users") (bs "u") None)
      (EBinary BEq (col_ref "o" "user_id") (col_ref "u" "id") s0) (bs "o.user_id") (bs "u.id") true)
    (EBinary BGt (call "length" [bare_ref "sku"]) (int_lit 3) s0)) [(bs "sku", true)] None) [item (bare_ref "name")].

Lemma column_pruning_sound_witness :
  collect_columns joined = Some (map bs ["name"; "o.user_id"; "sku"; "u.id"]%string) /\
  run_plan shop (pushdown_columns joined) = run_plan shop joined /\ run_plan shop joined = Ok [row1 "name" "ada"].
Proof.
  split; [vm_compute; reflexivity|]. split; [|vm_compute; reflexivity].
  apply (column_pruning_sound (mkExecutionContext shop shop None) joined); [cbn; tauto|reflexivity|].
  split; intros _; apply packed_check; vm_compute; reflexivity.
Defined.

Definition dotted : MemTable := packed_tables [("t", "1", [("a.b", "1")])]%string.

(** The scan is given bare names, so a column whose own name has a dot is lost. *)
Theorem dotted_column_pruned :
  let plan := PProject (PSeqScan (bs "t") [] None) [item (bare_ref "a.b")] in
  run_plan dotted plan = Ok [row1 "a.b" "1"] /\ run_plan dotted (pushdown_columns plan) = Err (UnknownColumn (bs "a.b")).
Proof. split; vm_compute; reflexivity. Qed.

(** The columns of a join condition that is no equality are not kept: the query fails
    unless it selects them too. *)
Theorem join_condition_pruned :
  is_ok (lowered shop (orders_users le_ids)) = true /\
  optimized shop (orders_users le_ids) = Err (UnknownColumn (bs "o.user_id")).
Proof. split; vm_compute; reflexivity. Qed.
