(* ===== verification/Build.v ===== *)
(** * Logical plans of SELECT statements
      (crates/noedb-planner/src: schema.rs, star.rs, window.rs, aggregate.rs,
      subquery.rs, build.rs)

    Stars are expanded, window functions and aggregates split off, subqueries in
    WHERE become semi-joins.  Nested queries are built by recursion on a statement
    that the code edits first, so [build_select_scoped] takes fuel. *)

From S2P Require Import Prelude BTree StorageError Text Float64 Tokens Ast Display Utf8 Value Cast Eval Plan SetOps RowOps WindowExec.

(** ** Fields of a statement *)

Definition sel_with (q : SelectStmt) : option WithClause := let 'mkSelectStmt w _ _ _ _ _ _ _ _ _ _ _ _ := q in w.
Definition sel_distinct (q : SelectStmt) : bool := let 'mkSelectStmt _ d _ _ _ _ _ _ _ _ _ _ _ := q in d.
Definition sel_items (q : SelectStmt) : list SelectItem := let 'mkSelectStmt _ _ i _ _ _ _ _ _ _ _ _ _ := q in i.
Definition sel_from (q : SelectStmt) : option FromItem := let 'mkSelectStmt _ _ _ f _ _ _ _ _ _ _ _ _ := q in f.
Definition sel_joins (q : SelectStmt) : list Join := let 'mkSelectStmt _ _ _ _ j _ _ _ _ _ _ _ _ := q in j.
Definition sel_where (q : SelectStmt) : option Expr := let 'mkSelectStmt _ _ _ _ _ w _ _ _ _ _ _ _ := q in w.
Definition sel_group_by (q : SelectStmt) : list Expr := let 'mkSelectStmt _ _ _ _ _ _ g _ _ _ _ _ _ := q in g.
Definition sel_having (q : SelectStmt) : option Expr := let 'mkSelectStmt _ _ _ _ _ _ _ h _ _ _ _ _ := q in h.
Definition sel_order_by (q : SelectStmt) : list OrderKey := let 'mkSelectStmt _ _ _ _ _ _ _ _ o _ _ _ _ := q in o.
Definition sel_limit (q : SelectStmt) : option Z := let 'mkSelectStmt _ _ _ _ _ _ _ _ _ l _ _ _ := q in l.
Definition sel_offset (q : SelectStmt) : option Z := let 'mkSelectStmt _ _ _ _ _ _ _ _ _ _ o _ _ := q in o.
Definition sel_compound (q : SelectStmt) : option CompoundSelect := let 'mkSelectStmt _ _ _ _ _ _ _ _ _ _ _ c _ := q in c.
Definition set_where (w : option Expr) (q : SelectStmt) : SelectStmt :=
  let 'mkSelectStmt wi d i f j _ g h o l off c s := q in mkSelectStmt wi d i f j w g h o l off c s.
Definition set_items (i : list SelectItem) (q : SelectStmt) : SelectStmt :=
  let 'mkSelectStmt wi d _ f j w g h o l off c s := q in mkSelectStmt wi d i f j w g h o l off c s.

Definition join_kind (j : Join) : JoinKind := let 'mkJoin k _ _ _ := j in k.
Definition join_table (j : Join) : TableRef := let 'mkJoin _ t _ _ := j in t.
Definition join_on (j : Join) : Expr := let 'mkJoin _ _ e _ := j in e.

Definition qualified (table column : bytes) : bytes := table ++ [dot] ++ column.
Definition ends_with (suffix s : bytes) : bool :=
  bool_decide ((length suffix <= length s)%nat) && bool_decide (drop (length s - length suffix) s = suffix).

(** ** The catalog (schema.rs) *)

Record QuerySchema : Type := mkQuerySchema { qs_tables : gmap bytes (list bytes) }.
Definition QuerySchema_new : QuerySchema := mkQuerySchema ∅.
Definition from_tables (tables : list (bytes * list bytes)) : QuerySchema :=
  mkQuerySchema (fold_left (fun m t => <[t.1 := t.2]> m) tables ∅).
Definition columns_for (schema : QuerySchema) (table : bytes) : option (list bytes) := qs_tables schema !! table.

(** ** Stars (star.rs) *)

Definition table_matches (t : TableRef) (name : bytes) : bool :=
  eq_ignore_case (id_value (tr_name t)) name ||
  match tr_alias t with Some a => eq_ignore_case (id_value a) name | None => false end.

Definition from_matches (from : FromItem) (name : bytes) : bool :=
  match from with
  | FromTable t => table_matches t name
  | FromSubquery _ alias _ => eq_ignore_case (id_value alias) name
  end.

Definition resolve_from_item (stmt : SelectStmt) (name : bytes) : outcome PlanError FromItem :=
  let by_join := match List.find (fun j => table_matches (join_table j) name) (sel_joins stmt) with
                 | Some j => Ok (FromTable (join_table j))
                 | None => Err (UnknownTable name)
                 end in
  match sel_from stmt with
  | Some from => if from_matches from name then Ok from else by_join
  | None => by_join
  end.

(** One expanded column: qualified, with the qualified name as its alias, when there
    is a prefix *)
Definition star_item (prefix col : bytes) (span : Span) : SelectItem :=
  match prefix with
  | [] => mkSelectItem (EColumn (Named None (mkIdent col span))) None
  | _ => mkSelectItem (EColumn (Named (Some (mkIdent prefix span)) (mkIdent col span)))
           (Some (mkIdent (qualified prefix col) span))
  end.

Definition table_prefix (t : TableRef) (qualify : bool) : bytes :=
  if qualify then match tr_alias t with Some a => id_value a | None => id_value (tr_name t) end else [].

Definition expand_table_columns (t : TableRef) (schema : option QuerySchema) (span : Span) (qualify : bool)
    : outcome PlanError (list SelectItem) :=
  match schema with
  | None => Err MissingSchema
  | Some catalog =>
      match columns_for catalog (id_value (tr_name t)) with
      | None => Err (UnknownTable (id_value (tr_name t)))
      | Some cols => Ok (map (fun col => star_item (table_prefix t qualify) col span) cols)
      end
  end.

Definition projection_label (e : Expr) : bytes :=
  match e with
  | EColumn (Named _ c) => id_value c
  | EFunction name _ _ _ => to_lower (id_value name)
  | _ => bs "col"
  end.

Definition expand_subquery_columns (query : SelectStmt) (alias : Ident) (span : Span) (qualify : bool) : list SelectItem :=
  map (fun i => star_item (if qualify then id_value alias else [])
         (match item_alias i with Some a => id_value a | None => projection_label (item_expr i) end) span)
    (sel_items query).

Definition expand_from_item (from : FromItem) (schema : option QuerySchema) (span : Span) (qualify : bool)
    : outcome PlanError (list SelectItem) :=
  match from with
  | FromTable t => expand_table_columns t schema span qualify
  | FromSubquery query alias _ => Ok (expand_subquery_columns query alias span qualify)
  end.

(** Whether columns are qualified: the statement has joins *)
Definition has_joins (stmt : SelectStmt) : bool := match sel_joins stmt with [] => false | _ => true end.

Definition expand_bare_star (stmt : SelectStmt) (schema : option QuerySchema) (span : Span) (qualify : bool)
    : outcome PlanError (list SelectItem) :=
  match sel_from stmt with
  | None => Err UnsupportedStatement
  | Some from =>
      let? items := expand_from_item from schema span qualify in
      let? joined := traverse (fun j => expand_table_columns (join_table j) schema span true) (sel_joins stmt) in
      Ok (items ++ concat joined)
  end.

Definition expand_qualified_star (stmt : SelectStmt) (schema : option QuerySchema) (qualifier : Ident) (span : Span) (qualify : bool)
    : outcome PlanError (list SelectItem) :=
  let? from := resolve_from_item stmt (id_value qualifier) in
  expand_from_item from schema span (qualify || has_joins stmt).

Definition expand_select_items (stmt : SelectStmt) (schema : option QuerySchema) (items : list SelectItem)
    : outcome PlanError (list SelectItem) :=
  let? parts := traverse (fun i =>
      match item_expr i with
      | EColumn (ColStar span) => expand_bare_star stmt schema span (has_joins stmt)
      | EColumn (QualifiedStar table span) => expand_qualified_star stmt schema table span (has_joins stmt)
      | _ => Ok [i]
      end) items in
  Ok (concat parts).

(** ** Window functions (window.rs) *)

Definition window_of_item (i : SelectItem) : option (WindowCompute * SelectItem) :=
  match item_expr i with
  | EFunction name args (Some spec) span =>
      let func_and_arg :=
        match args with
        | [] => option_map (fun f => (f, None)) (WindowFunc_parse_name (id_value name))
        | [arg] => option_map (fun f => (f, Some arg)) (WindowFunc_parse_agg_name (id_value name))
        | _ => None
        end in
      match func_and_arg with
      | None => None
      | Some (func, arg) =>
          let output_name := match item_alias i with Some a => id_value a | None => to_lower (id_value name) end in
          Some (mkWindowCompute func arg spec output_name,
                mkSelectItem (EColumn (Named None (mkIdent output_name span))) (item_alias i))
      end
  | _ => None
  end.

Definition split_window_items (items : list SelectItem) : list WindowCompute * list SelectItem :=
  (omap (fun i => option_map fst (window_of_item i)) items,
   map (fun i => match window_of_item i with Some (_, i') => i' | None => i end) items).

Definition wrap_window (plan : LogicalPlan) (items : list SelectItem) : LogicalPlan * list SelectItem :=
  let '(windows, projected) := split_window_items items in
  match windows with [] => (plan, projected) | _ => (LWindow plan windows, projected) end.

(** ** Aggregates (aggregate.rs) *)

(** [column_name_from_expr] *)
Definition column_name_from_expr (e : Expr) : outcome PlanError bytes :=
  match e with
  | EColumn (Named (Some t) c) => Ok (qualified (id_value t) (id_value c))
  | EColumn (Named None c) => Ok (id_value c)
  | _ => Err UnsupportedStatement
  end.

Fixpoint expr_column_key (e : Expr) : outcome PlanError bytes :=
  match e with
  | EColumn (Named _ _) => column_name_from_expr e
  | ECast inner _ _ => expr_column_key inner
  | _ => Err UnsupportedStatement
  end.

Definition column_arg (args : list Expr) : outcome PlanError bytes :=
  match args with [arg] => expr_column_key arg | _ => Err UnsupportedStatement end.

Definition parse_count_args (args : list Expr) : outcome PlanError AggFunc :=
  match args with
  | [] => Ok CountStar
  | [arg] =>
      match arg with
      | EColumn (ColStar _ | QualifiedStar _ _) => Ok CountStar
      | EColumn (Named _ _) => let? c := column_name_from_expr arg in Ok (CountCol c)
      | ELiteral _ => Ok CountStar
      | _ => Err UnsupportedStatement
      end
  | _ => Err UnsupportedStatement
  end.

(** [Result::ok] *)
Definition ok {E A} (r : outcome E A) : option A := match r with Ok x => Some x | _ => None end.

Definition parse_agg_args (name : bytes) (args : list Expr) : option AggFunc :=
  let upper := to_upper name in
  if bool_decide (upper = bs "COUNT") then ok (parse_count_args args)
  else if bool_decide (upper = bs "SUM") then option_map AggSum (ok (column_arg args))
  else if bool_decide (upper = bs "AVG") then option_map AggAvg (ok (column_arg args))
  else if bool_decide (upper = bs "MIN") then option_map AggMin (ok (column_arg args))
  else if bool_decide (upper = bs "MAX") then option_map AggMax (ok (column_arg args))
  else None.

(** The source wraps the result in [Ok]. *)
Definition agg_func_from_item (e : Expr) : option AggFunc :=
  match e with EFunction name args None _ => parse_agg_args (id_value name) args | _ => None end.

(** [projection_name] of aggregate.rs *)
Definition agg_projection_name (i : SelectItem) : bytes :=
  match item_alias i with
  | Some a => id_value a
  | None =>
      match item_expr i with
      | EFunction name _ _ _ => to_lower (id_value name)
      | EColumn (Named (Some t) c) => qualified (id_value t) (id_value c)
      | EColumn (Named None c) => id_value c
      | _ => bs "col"
      end
  end.

Definition extract_aggs (items : list SelectItem) : list (bytes * AggFunc) :=
  omap (fun i => option_map (fun f => (agg_projection_name i, f)) (agg_func_from_item (item_expr i))) items.

Definition group_by_columns (group_by : list Expr) : outcome PlanError (list bytes) :=
  traverse column_name_from_expr group_by.

Fixpoint validate_items (keys : list bytes) (items : list SelectItem) : outcome PlanError unit :=
  match items with
  | [] => Ok tt
  | i :: items' =>
      match agg_func_from_item (item_expr i) with
      | Some _ => validate_items keys items'
      | None =>
          let? col := column_name_from_expr (item_expr i) in
          if existsb (fun k => bool_decide (k = col) || ends_with ([dot] ++ col) k) keys then validate_items keys items'
          else Err UnsupportedStatement
      end
  end.

Definition validate_grouped_select (items : list SelectItem) (group_by : list Expr) : outcome PlanError unit :=
  match group_by with
  | [] => Ok tt
  | _ => let? keys := group_by_columns group_by in validate_items keys items
  end.

Definition maybe_build_aggregate (input : LogicalPlan) (stmt : SelectStmt) (items : list SelectItem)
    : outcome PlanError LogicalPlan :=
  match extract_aggs items with
  | [] => Ok input
  | aggs =>
      let? _ := validate_grouped_select items (sel_group_by stmt) in
      let? group_by := group_by_columns (sel_group_by stmt) in
      Ok (LAggregate input group_by aggs)
  end.

Definition opt_ident_value_eq (a b : option Ident) : bool :=
  match a, b with
  | Some x, Some y => bool_decide (id_value x = id_value y)
  | None, None => true
  | _, _ => false
  end.

Definition literal_value_eq (a b : Literal) : bool :=
  match a, b with
  | LNull _, LNull _ => true
  | LInteger x _, LInteger y _ => x =? y
  | LFloat x _, LFloat y _ => SFeqb x y
  | LString x _, LString y _ => bool_decide (x = y)
  | LBoolean x _, LBoolean y _ => Bool.eqb x y
  | _, _ => false
  end.

Definition no_window (over : option WindowSpec) : bool := match over with None => true | Some _ => false end.

Fixpoint having_expr_matches (a b : Expr) {struct a} : bool :=
  match a, b with
  | EFunction n1 a1 o1 _, EFunction n2 a2 o2 _ =>
      eq_ignore_case (id_value n1) (id_value n2) && no_window o1 && no_window o2 &&
      bool_decide (length a1 = length a2) &&
      (fix all l1 l2 := match l1, l2 with
                        | x :: l1', y :: l2' => having_expr_matches x y && all l1' l2'
                        | _, _ => true
                        end) a1 a2
  | ECast e1 t1 _, ECast e2 t2 _ => bool_decide (t1 = t2) && having_expr_matches e1 e2
  | EColumn (Named t1 c1), EColumn (Named t2 c2) => opt_ident_value_eq t1 t2 && bool_decide (id_value c1 = id_value c2)
  | EColumn (ColStar _), EColumn (ColStar _) => true
  | EColumn (QualifiedStar t1 _), EColumn (QualifiedStar t2 _) => bool_decide (id_value t1 = id_value t2)
  | ELiteral l1, ELiteral l2 => literal_value_eq l1 l2
  | EBinary o1 l1 r1 _, EBinary o2 l2 r2 _ =>
      bool_decide (o1 = o2) && having_expr_matches l1 l2 && having_expr_matches r1 r2
  | EUnary o1 e1 _, EUnary o2 e2 _ => bool_decide (o1 = o2) && having_expr_matches e1 e2
  | EParen e1 _, EParen e2 _ => having_expr_matches e1 e2
  | _, _ => false
  end.

Definition match_having_aggregate (e : Expr) (items : list SelectItem) : Expr :=
  match List.find (fun i => having_expr_matches (item_expr i) e) items with
  | Some i => EColumn (Named None (mkIdent (agg_projection_name i) (expr_span e)))
  | None => e
  end.

Fixpoint rewrite_having_for_aggregate (having : Expr) (items : list SelectItem) : Expr :=
  match having with
  | EFunction _ _ _ _ => match_having_aggregate having items
  | EBinary op l r s => EBinary op (rewrite_having_for_aggregate l items) (rewrite_having_for_aggregate r items) s
  | EUnary op e s => EUnary op (rewrite_having_for_aggregate e items) s
  | EIsNull e n s => EIsNull (rewrite_having_for_aggregate e items) n s
  | EBetween e lo hi n s =>
      EBetween (rewrite_having_for_aggregate e items) (rewrite_having_for_aggregate lo items)
        (rewrite_having_for_aggregate hi items) n s
  | EParen inner s => EParen (rewrite_having_for_aggregate inner items) s
  | other => other
  end.

(** ** Subqueries (subquery.rs) *)

Record InSubqueryPred : Type := mkInPred { in_outer : Expr; in_query : SelectStmt; in_negated : bool }.
Record ExistsSubqueryPred : Type := mkExistsPred { ex_query : SelectStmt; ex_negated : bool }.

(** The conjunction of what remains of both sides *)
Definition and_rest (l r : option Expr) (s : Span) : option Expr :=
  match l, r with
  | None, None => None
  | Some a, None => Some a
  | None, Some b => Some b
  | Some a, Some b => Some (EBinary BAnd a b s)
  end.

(** [peel_expr]: the rest and the predicates in order of appearance *)
Fixpoint peel_expr (e : Expr) : option Expr * list InSubqueryPred :=
  match e with
  | EInSubquery outer query negated _ => (None, [mkInPred outer query negated])
  | EBinary BAnd l r s =>
      let '(l', subs1) := peel_expr l in
      let '(r', subs2) := peel_expr r in
      (and_rest l' r' s, subs1 ++ subs2)
  | other => (Some other, [])
  end.
Definition peel_in_subqueries (e : option Expr) : option Expr * list InSubqueryPred :=
  match e with None => (None, []) | Some e => peel_expr e end.

Fixpoint peel_exists_expr (e : Expr) : option Expr * list ExistsSubqueryPred :=
  match e with
  | EExists query negated _ => (None, [mkExistsPred query negated])
  | EBinary BAnd l r s =>
      let '(l', subs1) := peel_exists_expr l in
      let '(r', subs2) := peel_exists_expr r in
      (and_rest l' r' s, subs1 ++ subs2)
  | other => (Some other, [])
  end.
Definition peel_exists_subqueries (e : option Expr) : option Expr * list ExistsSubqueryPred :=
  match e with None => (None, []) | Some e => peel_exists_expr e end.

Definition push_table_ref (t : TableRef) : list bytes :=
  id_value (tr_name t) :: match tr_alias t with Some a => [id_value a] | None => [] end.
Definition push_from_item (from : FromItem) : list bytes :=
  match from with FromTable t => push_table_ref t | FromSubquery _ alias _ => [id_value alias] end.
Definition table_names (stmt : SelectStmt) : list bytes :=
  match sel_from stmt with Some from => push_from_item from | None => [] end ++
  concat (map (fun j => push_table_ref (join_table j)) (sel_joins stmt)).

Definition column_qualifier (e : Expr) : option bytes :=
  match e with EColumn (Named (Some t) _) => Some (id_value t) | _ => None end.

(** An equality between a column of the outer and one of the inner query *)
Definition is_correlation_eq (e : Expr) (outer_tables inner_tables : list bytes) : bool :=
  match e with
  | EBinary BEq l r _ =>
      match column_qualifier l, column_qualifier r with
      | Some a, Some b =>
          (bool_decide (a ∈ outer_tables) && bool_decide (b ∈ inner_tables)) ||
          (bool_decide (a ∈ inner_tables) && bool_decide (b ∈ outer_tables))
      | _, _ => false
      end
  | _ => false
  end.

Fixpoint flatten_and (e : Expr) : list Expr :=
  match e with EBinary BAnd l r _ => flatten_and l ++ flatten_and r | other => [other] end.

Definition and_exprs (exprs : list Expr) : option Expr :=
  match exprs with
  | [] => None
  | first :: rest => Some (fold_left (fun acc e => EBinary BAnd acc e (expr_span acc)) rest first)
  end.

Definition split_correlated_where (where_clause : option Expr) (outer_tables inner_tables : list bytes)
    : list Expr * option Expr :=
  match where_clause with
  | None => ([], None)
  | Some e =>
      let parts := flatten_and e in
      (List.filter (fun p => is_correlation_eq p outer_tables inner_tables) parts,
       and_exprs (List.filter (fun p => negb (is_correlation_eq p outer_tables inner_tables)) parts))
  end.

Definition expr_column_name (e : Expr) : option bytes :=
  match e with EColumn (Named _ c) => Some (id_value c) | _ => None end.

Definition subquery_column_name (query : SelectStmt) : outcome PlanError bytes :=
  match sel_items query with
  | [] => Err UnsupportedStatement
  | i :: _ =>
      match item_expr i, item_alias i with
      | EColumn (Named _ c), _ => Ok (id_value c)
      | _, Some alias => Ok (id_value alias)
      | _, None => Err UnsupportedStatement
      end
  end.

(** The side of a qualified column: [true] for the outer query *)
Definition side_column (e : Expr) (outer_tables inner_tables : list bytes) : option (bool * bytes) :=
  match e with
  | EColumn (Named (Some t) c) =>
      if existsb (fun x => eq_ignore_case x (id_value t)) outer_tables then Some (true, id_value c)
      else if existsb (fun x => eq_ignore_case x (id_value t)) inner_tables then Some (false, id_value c)
      else None
  | _ => None
  end.

Definition unqualified_column (name : bytes) : bytes := default name (bare_name name).

(** The outer and the inner column of an equality, in either order *)
Definition outer_inner (e : Expr) (outer_tables inner_tables : list bytes) : option (bytes * bytes) :=
  match e with
  | EBinary BEq l r _ =>
      match side_column l outer_tables inner_tables, side_column r outer_tables inner_tables with
      | Some (true, o), Some (false, i) | Some (false, i), Some (true, o) => Some (o, i)
      | _, _ => None
      end
  | _ => None
  end.

Definition find_map {A B} (f : A -> option B) (l : list A) : option B := head (omap f l).

Definition exists_join_keys (corr : list Expr) (outer_tables inner_tables : list bytes) : option (bytes * bytes) :=
  find_map (fun e => option_map (fun k => (unqualified_column k.1, unqualified_column k.2))
    (outer_inner e outer_tables inner_tables)) corr.

Definition corr_pair (e : Expr) (outer_tables inner_tables : list bytes) (inner_key : bytes) : option (bytes * bytes) :=
  match outer_inner e outer_tables inner_tables with
  | Some (o, i) =>
      if bool_decide (i = inner_key) || ends_with ([dot] ++ inner_key) i then Some (unqualified_column o, inner_key) else None
  | None => None
  end.
Definition extract_exists_join_keys (corr : list Expr) (inner_key : bytes) (outer_tables inner_tables : list bytes)
    : option (bytes * bytes) :=
  find_map (fun e => corr_pair e outer_tables inner_tables inner_key) corr.

Definition bare_column_item (col : bytes) (span : Span) : SelectItem :=
  mkSelectItem (EColumn (Named None (mkIdent col span))) None.

(** ** Order keys (build.rs) *)

Definition is_agg_func (name : bytes) : bool :=
  let upper := to_upper name in
  bool_decide (upper = bs "COUNT") || bool_decide (upper = bs "SUM") || bool_decide (upper = bs "AVG") ||
  bool_decide (upper = bs "MIN") || bool_decide (upper = bs "MAX").
Definition is_agg_item (i : SelectItem) : bool :=
  match item_expr i with EFunction name _ None _ => is_agg_func (id_value name) | _ => false end.
Definition contains_aggregate (items : list SelectItem) : bool := existsb is_agg_item items.
Definition aggregate_output_items (stmt : SelectStmt) (items : list SelectItem) : list SelectItem :=
  map (fun e => mkSelectItem e None) (sel_group_by stmt) ++ List.filter is_agg_item items.

(** [projection_name] of build.rs *)
Definition projection_name (i : SelectItem) : bytes :=
  match item_alias i with
  | Some a => id_value a
  | None =>
      match item_expr i with
      | EColumn (Named (Some t) c) => qualified (id_value t) (id_value c)
      | EColumn (Named None c) => id_value c
      | _ => bs "col"
      end
  end.

(** The output name that an item gives a sort column, when it is the one meant *)
Definition sort_column_of_item (table : option Ident) (column : Ident) (i : SelectItem) : option bytes :=
  let by_expr :=
    match item_expr i with
    | EColumn (Named item_table item_col) =>
        let table_match := match table, item_table with
                           | None, None => true
                           | Some t, Some it => eq_ignore_case (id_value t) (id_value it)
                           | _, _ => false
                           end in
        if table_match && eq_ignore_case (id_value item_col) (id_value column) then Some (projection_name i) else None
    | _ => None
    end in
  match item_alias i with
  | Some a => if eq_ignore_case (id_value a) (id_value column) then Some (id_value a) else by_expr
  | None => by_expr
  end.

Definition resolve_sort_column (items : list SelectItem) (e : Expr) : outcome PlanError bytes :=
  match e with
  | EColumn (Named table column) =>
      Ok match find_map (sort_column_of_item table column) items with
         | Some name => name
         | None => match table with Some t => qualified (id_value t) (id_value column) | None => id_value column end
         end
  | _ => Err UnsupportedStatement
  end.

(** Keys that are no columns become extra items [__sort_i__]. *)
Fixpoint order_keys (items : list SelectItem) (i : Z) (order_by : list OrderKey) : list SelectItem * list (bytes * bool) :=
  match order_by with
  | [] => ([], [])
  | key :: order_by' =>
      let '(extra, keys) := order_keys items (i + 1) order_by' in
      match resolve_sort_column items (key_expr key) with
      | Ok name => (extra, (name, key_asc key) :: keys)
      | _ =>
          let alias := bs "__sort_" ++ show_Z i ++ bs "__" in
          (mkSelectItem (key_expr key) (Some (mkIdent alias (expr_span (key_expr key)))) :: extra, (alias, key_asc key) :: keys)
      end
  end.
Definition prepare_order_by (items : list SelectItem) (order_by : list OrderKey) : list SelectItem * list (bytes * bool) :=
  order_keys items 0 order_by.

(** ** Statements (build.rs) *)

Definition cte_name (c : CteDef) : bytes := let 'mkCteDef name _ _ := c in id_value name.
Definition with_ctes (w : WithClause) : list CteDef := let 'mkWithClause _ ctes _ := w in ctes.
Definition cte_names_from (w : option WithClause) : gset bytes :=
  match w with Some w => list_to_set (map cte_name (with_ctes w)) | None => ∅ end.

Definition table_scan (t : TableRef) (cte_scope : gset bytes) (qualify : bool) : LogicalPlan :=
  let name := id_value (tr_name t) in
  let prefix := table_prefix t qualify in
  if bool_decide (name ∈ cte_scope) then LCteScan name prefix else LScan name prefix.

Section build.
(** the recursive call *)
Context (build_select : SelectStmt -> gset bytes -> option QuerySchema -> outcome PlanError LogicalPlan).

Definition decorrelate_one (plan : LogicalPlan) (pred : InSubqueryPred) (outer_tables : list bytes) (cte_scope : gset bytes)
    : outcome PlanError LogicalPlan :=
  match expr_column_name (in_outer pred) with
  | None => Err UnsupportedStatement
  | Some left_key =>
      let? inner_key := subquery_column_name (in_query pred) in
      let inner_tables := table_names (in_query pred) in
      let '(corr, inner_where) := split_correlated_where (sel_where (in_query pred)) outer_tables inner_tables in
      let? inner_plan := build_select (set_where inner_where (in_query pred)) cte_scope None in
      Ok (LSemiJoin plan inner_plan left_key inner_key (and_exprs corr) (in_negated pred))
  end.

Definition apply_in_subqueries (plan : LogicalPlan) (preds : list InSubqueryPred) (outer : SelectStmt) (cte_scope : gset bytes)
    : outcome PlanError LogicalPlan :=
  for_each (fun pred plan => decorrelate_one plan pred (table_names outer) cte_scope) preds plan.

Definition is_empty_scan (plan : LogicalPlan) : bool := match plan with LScan [] _ => true | _ => false end.

Definition decorrelate_exists (plan : LogicalPlan) (pred : ExistsSubqueryPred) (outer_tables : list bytes) (cte_scope : gset bytes)
    : outcome PlanError LogicalPlan :=
  let inner_tables := table_names (ex_query pred) in
  let '(corr, inner_where) := split_correlated_where (sel_where (ex_query pred)) outer_tables inner_tables in
  let inner_stmt := set_where inner_where (ex_query pred) in
  match corr with
  | [] =>
      let? inner_plan := build_select inner_stmt cte_scope None in
      let has_rows := negb (is_empty_scan inner_plan) && negb (bool_decide (inner_tables = [])) in
      Ok (if Bool.eqb (ex_negated pred) has_rows || (negb (ex_negated pred) && negb has_rows)
          then LFilter plan (ELiteral (LBoolean false (select_span (ex_query pred))))
          else plan)
  | _ =>
      let? keys :=
        match subquery_column_name (ex_query pred) with
        | Ok inner_key =>
            Ok (inner_stmt, default (bs "__exists_outer__", inner_key)
                              (extract_exists_join_keys corr inner_key outer_tables inner_tables))
        | _ =>
            match exists_join_keys corr outer_tables inner_tables with
            | Some (lk, rk) => Ok (set_items [bare_column_item rk (select_span (ex_query pred))] inner_stmt, (lk, rk))
            | None => Err UnsupportedStatement
            end
        end in
      let '(inner_stmt, (left_key, right_key)) := keys in
      let? inner_plan := build_select inner_stmt cte_scope None in
      Ok (LSemiJoin plan inner_plan left_key right_key (and_exprs corr) (ex_negated pred))
  end.

Definition apply_exists_subqueries (plan : LogicalPlan) (preds : list ExistsSubqueryPred) (outer : SelectStmt) (cte_scope : gset bytes)
    : outcome PlanError LogicalPlan :=
  for_each (fun pred plan => decorrelate_exists plan pred (table_names outer) cte_scope) preds plan.

Definition build_from_item (from : FromItem) (cte_scope : gset bytes) (qualify : bool) (schema : option QuerySchema)
    : outcome PlanError LogicalPlan :=
  match from with
  | FromTable t => Ok (table_scan t cte_scope qualify)
  | FromSubquery query alias _ => let? plan := build_select query cte_scope schema in Ok (LSubqueryScan plan (id_value alias))
  end.

(** The filtered source of the rows: FROM, joins, WHERE and its subqueries *)
Definition build_source (stmt : SelectStmt) (cte_scope : gset bytes) (schema : option QuerySchema) : outcome PlanError LogicalPlan :=
  let? plan := match sel_from stmt with
               | Some from => build_from_item from cte_scope (has_joins stmt) schema
               | None => Ok (LScan [] [])
               end in
  let plan := fold_left (fun plan j =>
    LJoin plan (table_scan (join_table j) cte_scope true) (join_on j) (bool_decide (join_kind j = JLeft))) (sel_joins stmt) plan in
  let '(where_rest, in_subs) := peel_in_subqueries (sel_where stmt) in
  let '(where_rest, exists_subs) := peel_exists_subqueries where_rest in
  let plan := match where_rest with Some pred => LFilter plan pred | None => plan end in
  let? plan := apply_in_subqueries plan in_subs stmt cte_scope in
  apply_exists_subqueries plan exists_subs stmt cte_scope.

(** Projection, DISTINCT and ORDER BY over the aggregated rows *)
Definition build_output (plan : LogicalPlan) (stmt : SelectStmt) (window_items : list SelectItem) : LogicalPlan :=
  let order_needs_extra :=
    match sel_order_by stmt with [] => false | _ => negb (bool_decide (length (prepare_order_by window_items (sel_order_by stmt)).1 = 0%nat)) end in
  let plan := if negb (contains_aggregate window_items) && negb order_needs_extra then LProject plan window_items else plan in
  let plan := if sel_distinct stmt then LDistinct plan else plan in
  let order_items := if contains_aggregate window_items then aggregate_output_items stmt window_items else window_items in
  match sel_order_by stmt with
  | [] => plan
  | _ =>
      let '(extra, keys) := prepare_order_by order_items (sel_order_by stmt) in
      LSort (match extra with [] => plan | _ => LProject plan (order_items ++ extra) end) keys
  end.

Definition build_body (stmt : SelectStmt) (cte_scope : gset bytes) (schema : option QuerySchema) : outcome PlanError LogicalPlan :=
  let? plan := build_source stmt cte_scope schema in
  let? items := expand_select_items stmt schema (sel_items stmt) in
  let '(plan, window_items) := wrap_window plan items in
  let? plan := maybe_build_aggregate plan stmt window_items in
  let plan := match sel_having stmt with
              | Some having => LFilter plan (rewrite_having_for_aggregate having window_items)
              | None => plan
              end in
  let plan := build_output plan stmt window_items in
  let plan := match sel_limit stmt, sel_offset stmt with
              | None, None => plan
              | l, o => LLimit plan (default (2 ^ 64 - 1) l) (default 0 o)
              end in
  match sel_compound stmt with
  | Some (mkCompoundSelect op all rhs) =>
      let? right_plan := build_select rhs cte_scope schema in Ok (LSetOp plan right_plan op all)
  | None => Ok plan
  end.
End build.

Fixpoint build_select_fuel (fuel : nat) (stmt : SelectStmt) (cte_scope : gset bytes) (schema : option QuerySchema)
    : outcome PlanError LogicalPlan :=
  match fuel with
  | O => Panic
  | S fuel' => build_body (build_select_fuel fuel') stmt cte_scope schema
  end.

(** The nesting of the queries that planning descends into *)
Fixpoint select_depth (q : SelectStmt) : nat :=
  match q with
  | mkSelectStmt _ _ _ from _ where_clause _ _ _ _ _ compound _ =>
      S (Nat.max (match from with Some (FromSubquery q _ _) => select_depth q | _ => 0%nat end)
           (Nat.max (match where_clause with Some e => expr_depth e | None => 0%nat end)
              (match compound with Some (mkCompoundSelect _ _ rhs) => select_depth rhs | None => 0%nat end)))
  end
with expr_depth (e : Expr) : nat :=
  match e with
  | EInSubquery _ q _ _ | EExists q _ _ => select_depth q
  | EBinary BAnd l r _ => Nat.max (expr_depth l) (expr_depth r)
  | _ => 0%nat
  end.

Definition build_select_scoped (stmt : SelectStmt) (cte_scope : gset bytes) (schema : option QuerySchema) : outcome PlanError LogicalPlan :=
  build_select_fuel (select_depth stmt) stmt cte_scope schema.
Definition build_select_with_schema (stmt : SelectStmt) (schema : option QuerySchema) : outcome PlanError LogicalPlan :=
  build_select_scoped stmt (cte_names_from (sel_with stmt)) schema.
Definition build_select (stmt : SelectStmt) : outcome PlanError LogicalPlan := build_select_with_schema stmt None.
Definition build_with_schema (stmt : Statement) (schema : option QuerySchema) : outcome PlanError LogicalPlan :=
  match stmt with SSelect s => build_select_with_schema s schema | _ => Err UnsupportedStatement end.
Definition build (stmt : Statement) : outcome PlanError LogicalPlan := build_with_schema stmt None.
