(* ===== verification/BuildSpec.v ===== *)
(** * Planning ends

    The body of [build_select_scoped] only calls itself on queries that are less
    deeply nested, so the depth of a statement is enough fuel, and planning returns a
    plan or an error for every statement. *)

From S2P Require Import Prelude BTree StorageError Text Float64 Tokens Ast Display Utf8 Value Cast Eval Plan SetOps RowOps WindowExec Build.

Local Open Scope nat_scope.

(** ** Depth *)

Definition opt_expr_depth (e : option Expr) : nat := match e with Some e => expr_depth e | None => 0 end.
Definition from_depth (f : option FromItem) : nat := match f with Some (FromSubquery q _ _) => select_depth q | _ => 0 end.
Definition compound_depth (c : option CompoundSelect) : nat :=
  match c with Some (mkCompoundSelect _ _ q) => select_depth q | None => 0 end.

Lemma select_depth_eq q :
  select_depth q =
  S (Nat.max (from_depth (sel_from q)) (Nat.max (opt_expr_depth (sel_where q)) (compound_depth (sel_compound q)))).
Proof. by destruct q as [w d i [[]|] j [] g h o l off [[]|] s]. Qed.

Lemma expr_depth_and l r s : expr_depth (EBinary BAnd l r s) = Nat.max (expr_depth l) (expr_depth r).
Proof. done. Qed.

(** A bound on the depth of what remains and of what was peeled off *)
Lemma and_rest_depth l r s n :
  opt_expr_depth l <= n -> opt_expr_depth r <= n -> opt_expr_depth (and_rest l r s) <= n.
Proof. destruct l, r; cbn -[expr_depth]; rewrite ?expr_depth_and; lia. Qed.

Definition is_and (e : Expr) : bool := match e with EBinary BAnd _ _ _ => true | _ => false end.

Section peel.
Context {A : Type} (peel : Expr -> option Expr * list A) (query : A -> SelectStmt).
Hypothesis peel_and : forall l r s,
  peel (EBinary BAnd l r s) = (and_rest (peel l).1 (peel r).1 s, (peel l).2 ++ (peel r).2).
Hypothesis peel_other : forall e, is_and e = false ->
  peel e = (Some e, []) \/ exists p, peel e = (None, [p]) /\ select_depth (query p) <= expr_depth e.

Lemma peel_depth e :
  opt_expr_depth (peel e).1 <= expr_depth e /\ Forall (fun p => select_depth (query p) <= expr_depth e) (peel e).2.
Proof.
  assert (Hother : forall e, is_and e = false ->
    opt_expr_depth (peel e).1 <= expr_depth e /\ Forall (fun p => select_depth (query p) <= expr_depth e) (peel e).2).
  { intros x [->|(p & -> & Hp)]%peel_other; (split; [cbn; lia|]); repeat constructor. done. }
  revert e. fix IH 1. intros e. destruct e as [| |op l r s| | | | | | | | | | | |]; try (by apply Hother).
  destruct op; try (by apply Hother). rewrite peel_and, expr_depth_and. cbn [fst snd].
  destruct (IH l) as [Hl Fl], (IH r) as [Hr Fr]. split.
  - apply and_rest_depth; lia.
  - apply Forall_app. split; (eapply Forall_impl; [eassumption|]); cbn beta; lia.
Qed.
End peel.

Lemma peel_in_depth e :
  opt_expr_depth (peel_in_subqueries e).1 <= opt_expr_depth e /\
  Forall (fun p => select_depth (in_query p) <= opt_expr_depth e) (peel_in_subqueries e).2.
Proof.
  destruct e as [e|]; [|by split]. apply (peel_depth peel_expr in_query).
  - intros l r s. cbn [peel_expr]. by destruct (peel_expr l), (peel_expr r).
  - intros x Hx. destruct x as [| |[]| | | | | | | | | | | |]; try done; try (by left). right. by eexists.
Qed.

Lemma peel_exists_depth e :
  opt_expr_depth (peel_exists_subqueries e).1 <= opt_expr_depth e /\
  Forall (fun p => select_depth (ex_query p) <= opt_expr_depth e) (peel_exists_subqueries e).2.
Proof.
  destruct e as [e|]; [|by split]. apply (peel_depth peel_exists_expr ex_query).
  - intros l r s. cbn [peel_exists_expr]. by destruct (peel_exists_expr l), (peel_exists_expr r).
  - intros x Hx. destruct x as [| |[]| | | | | | | | | | | |]; try done; try (by left). right. by eexists.
Qed.

(** The part of a WHERE clause that stays with the subquery *)
Lemma flatten_and_depth e : Forall (fun x => expr_depth x <= expr_depth e) (flatten_and e).
Proof.
  revert e. fix IH 1. intros e. assert (Hone : Forall (fun x => expr_depth x <= expr_depth e) [e]) by (repeat constructor).
  destruct e as [| |op l r s| | | | | | | | | | | |]; try exact Hone. destruct op; try exact Hone.
  cbn [flatten_and]. rewrite expr_depth_and. apply Forall_app.
  split; (eapply Forall_impl; [apply IH|]); cbn beta; lia.
Qed.

Lemma and_exprs_depth l n : Forall (fun x => expr_depth x <= n) l -> opt_expr_depth (and_exprs l) <= n.
Proof.
  destruct 1 as [|e l He Hl]; cbn [and_exprs opt_expr_depth]; [lia|].
  revert e He. induction Hl as [|x l Hx Hl IH]; intros e He; cbn [fold_left]; [done|].
  apply IH. rewrite expr_depth_and. lia.
Qed.

Lemma inner_where_depth w outer inner : opt_expr_depth (split_correlated_where w outer inner).2 <= opt_expr_depth w.
Proof.
  destruct w as [e|]; [|done]. cbn [split_correlated_where snd]. apply and_exprs_depth.
  apply List.Forall_forall. intros x Hx%filter_In. pose proof (flatten_and_depth e) as F.
  rewrite List.Forall_forall in F. apply F, Hx.
Qed.

Lemma set_where_depth w q : opt_expr_depth w <= opt_expr_depth (sel_where q) -> select_depth (set_where w q) <= select_depth q.
Proof. rewrite !select_depth_eq. destruct q; cbn [set_where sel_from sel_where sel_compound]. lia. Qed.
Lemma set_items_depth i q : select_depth (set_items i q) = select_depth q.
Proof. rewrite !select_depth_eq. by destruct q. Qed.

(** ** What is planned without recursion *)

Lemma expand_table_no_panic t schema span q : expand_table_columns t schema span q <> Panic.
Proof. unfold expand_table_columns. destruct schema as [c|]; [|done]. by destruct (columns_for c _). Qed.

Lemma expand_from_no_panic f schema span q : expand_from_item f schema span q <> Panic.
Proof. destruct f; cbn [expand_from_item]; [apply expand_table_no_panic|done]. Qed.

Lemma expand_no_panic stmt schema items : expand_select_items stmt schema items <> Panic.
Proof.
  unfold expand_select_items. pose proof (traverse_no_panic (fun i =>
    match item_expr i with
    | EColumn (ColStar span) => expand_bare_star stmt schema span (has_joins stmt)
    | EColumn (QualifiedStar table span) => expand_qualified_star stmt schema table span (has_joins stmt)
    | _ => Ok [i]
    end) items) as T.
  destruct (traverse _ items); cbn [obind]; try done. exfalso. apply T; [|done]. clear. intros i.
  destruct (item_expr i) as [|[]| | | | | | | | | | | | |]; try done.
  - unfold expand_bare_star. destruct (sel_from stmt) as [from|]; [|done].
    pose proof (expand_from_no_panic from schema s (has_joins stmt)) as F.
    destruct (expand_from_item _ _ _ _); cbn [obind]; try done.
    pose proof (traverse_no_panic (fun j => expand_table_columns (join_table j) schema s true) (sel_joins stmt)
      (fun j => expand_table_no_panic _ _ _ _)) as T.
    by destruct (traverse _ _); cbn [obind].
  - unfold expand_qualified_star, resolve_from_item.
    assert (R : (match List.find (fun j => table_matches (join_table j) (id_value table)) (sel_joins stmt) with
                 | Some j => Ok (FromTable (join_table j)) | None => Err (UnknownTable (id_value table)) end) <> Panic)
      by (by destruct (List.find _ _)).
    destruct (sel_from stmt) as [from|]; [destruct (from_matches from _)|];
      try (destruct (List.find _ _)); cbn [obind]; try done; apply expand_from_no_panic.
Qed.

Lemma column_name_no_panic e : column_name_from_expr e <> Panic.
Proof. by destruct e as [|[[]| |]| | | | | | | | | | | | |]. Qed.

Lemma group_by_no_panic g : group_by_columns g <> Panic.
Proof. apply traverse_no_panic, column_name_no_panic. Qed.

Lemma validate_no_panic keys items : validate_items keys items <> Panic.
Proof.
  induction items as [|i items IH]; cbn [validate_items]; [done|]. destruct (agg_func_from_item _); [done|].
  pose proof (column_name_no_panic (item_expr i)). destruct (column_name_from_expr _); cbn [obind]; try done.
  by destruct (existsb _ _).
Qed.

Lemma aggregate_no_panic plan stmt items : maybe_build_aggregate plan stmt items <> Panic.
Proof.
  unfold maybe_build_aggregate. destruct (extract_aggs items); [done|]. unfold validate_grouped_select.
  pose proof (group_by_no_panic (sel_group_by stmt)) as G.
  assert (V : forall keys, validate_items keys items <> Panic) by (intros; apply validate_no_panic).
  destruct (sel_group_by stmt) eqn:E; cbn [obind].
  - by destruct (group_by_columns []); cbn [obind].
  - destruct (group_by_columns _) as [keys| |]; cbn [obind]; try done.
    specialize (V keys). by destruct (validate_items keys items); cbn [obind].
Qed.

Lemma subquery_column_no_panic q : subquery_column_name q <> Panic.
Proof.
  unfold subquery_column_name. destruct (sel_items q) as [|[e [a|]] l]; [done| |]; cbn [item_expr item_alias];
  by destruct e as [|[]| | | | | | | | | | | | |].
Qed.

(** ** The body on smaller queries *)

Section body.
Context (f g : SelectStmt -> gset bytes -> option QuerySchema -> outcome PlanError LogicalPlan) (n : nat).
Hypothesis calls : forall q scope schema, select_depth q <= n -> f q scope schema = g q scope schema /\ f q scope schema <> Panic.

(** Equal and no panic *)
Definition agree {A} (x y : outcome PlanError A) : Prop := x = y /\ x <> Panic.

Lemma agree_bind {A B} (x y : outcome PlanError A) (k h : A -> outcome PlanError B) :
  agree x y -> (forall a, x = Ok a -> agree (k a) (h a)) -> agree (obind x k) (obind y h).
Proof. intros [<- Hx] Hk. destruct x; cbn [obind]; [by apply Hk|by split|done]. Qed.
Lemma agree_refl {A} (x : outcome PlanError A) : x <> Panic -> agree x x.
Proof. by split. Qed.

Lemma for_each_agree {A S} (a b : A -> S -> outcome PlanError S) l s :
  (forall x s, x ∈ l -> agree (a x s) (b x s)) -> agree (for_each a l s) (for_each b l s).
Proof.
  revert s. induction l as [|x l IH]; intros s Hl; cbn [for_each]; [by apply agree_refl|].
  apply agree_bind; [apply Hl; constructor|]. intros s' _. apply IH. intros; apply Hl. by constructor.
Qed.

Lemma decorrelate_one_agree plan p outer scope :
  select_depth (in_query p) <= n -> agree (decorrelate_one f plan p outer scope) (decorrelate_one g plan p outer scope).
Proof.
  intros Hp. unfold decorrelate_one. destruct (expr_column_name _); [|by split].
  apply agree_bind; [apply agree_refl, subquery_column_no_panic|]. intros key _.
  pose proof (inner_where_depth (sel_where (in_query p)) outer (table_names (in_query p))) as Hw.
  destruct (split_correlated_where _ _ _) as [corr inner]. cbn [snd] in Hw.
  apply agree_bind; [|intros; by apply agree_refl]. apply calls. pose proof (set_where_depth _ _ Hw). lia.
Qed.

Lemma decorrelate_exists_agree plan p outer scope :
  select_depth (ex_query p) <= n -> agree (decorrelate_exists f plan p outer scope) (decorrelate_exists g plan p outer scope).
Proof.
  intros Hp. unfold decorrelate_exists.
  pose proof (inner_where_depth (sel_where (ex_query p)) outer (table_names (ex_query p))) as Hw.
  destruct (split_correlated_where _ _ _) as [corr inner]. cbn [snd] in Hw. pose proof (set_where_depth _ _ Hw) as Hd.
  destruct corr as [|c corr].
  { apply agree_bind; [apply calls; lia|]. intros; by apply agree_refl. }
  apply agree_bind.
  { apply agree_refl. pose proof (subquery_column_no_panic (ex_query p)).
    destruct (subquery_column_name _); try done. by destruct (exists_join_keys _ _ _) as [[]|]. }
  intros [stmt [lk rk]] Hk. assert (select_depth stmt <= n).
  { destruct (subquery_column_name _); [|destruct (exists_join_keys _ _ _) as [[]|]..]; simplify_eq; rewrite ?set_items_depth; lia. }
  apply agree_bind; [by apply calls|]. intros; by apply agree_refl.
Qed.

Lemma build_source_agree stmt scope schema :
  select_depth stmt <= S n -> agree (build_source f stmt scope schema) (build_source g stmt scope schema).
Proof.
  rewrite select_depth_eq. intros Hd. unfold build_source. apply agree_bind.
  { destruct (sel_from stmt) as [[t|q a s]|]; [by apply agree_refl| |by apply agree_refl].
    cbn [build_from_item]. apply agree_bind; [|intros; by apply agree_refl]. apply calls. cbn [from_depth] in Hd. lia. }
  intros plan _. pose proof (peel_in_depth (sel_where stmt)) as [Hr1 F1].
  destruct (peel_in_subqueries _) as [rest1 ins]. cbn [fst snd] in *.
  pose proof (peel_exists_depth rest1) as [_ F2]. destruct (peel_exists_subqueries rest1) as [rest2 exs]. cbn [snd] in *.
  rewrite List.Forall_forall in F1, F2. apply agree_bind.
  { apply for_each_agree. intros p ? Hp%list_elem_of_In. apply decorrelate_one_agree. specialize (F1 p Hp). cbn beta in F1. lia. }
  intros plan' _. apply for_each_agree. intros p ? Hp%list_elem_of_In. apply decorrelate_exists_agree.
  specialize (F2 p Hp). cbn beta in F2. lia.
Qed.

Lemma build_body_agree stmt scope schema :
  select_depth stmt <= S n -> agree (build_body f stmt scope schema) (build_body g stmt scope schema).
Proof.
  intros Hd. unfold build_body. apply agree_bind; [by apply build_source_agree|]. intros plan _.
  apply agree_bind; [apply agree_refl, expand_no_panic|]. intros items _. destruct (wrap_window plan items) as [plan' witems].
  apply agree_bind; [apply agree_refl, aggregate_no_panic|]. intros plan'' _. cbv zeta.
  rewrite select_depth_eq in Hd. destruct (sel_compound stmt) as [[op all q]|]; [|by apply agree_refl].
  apply agree_bind; [|intros; by apply agree_refl]. apply calls. cbn [compound_depth] in Hd. lia.
Qed.
End body.

Lemma build_fuel_enough n m stmt scope schema :
  select_depth stmt <= n -> select_depth stmt <= m ->
  agree (build_select_fuel n stmt scope schema) (build_select_fuel m stmt scope schema).
Proof.
  revert m stmt scope schema. induction n as [|n IH]; intros m stmt scope schema Hn Hm.
  - rewrite select_depth_eq in Hn. lia.
  - destruct m as [|m]; [rewrite select_depth_eq in Hm; lia|]. cbn [build_select_fuel].
    apply (build_body_agree _ _ (Nat.min n m)); [|lia]. intros q sc sch Hq. apply IH; lia.
Qed.

(** Planning ends for every SELECT statement, however its subqueries are nested, with a
    plan or an error: more fuel than the nesting depth changes nothing. *)
Theorem build_total (stmt : SelectStmt) (scope : gset bytes) (schema : option QuerySchema) (extra : nat) :
  build_select_scoped stmt scope schema <> Panic /\
  build_select_fuel (select_depth stmt + extra) stmt scope schema = build_select_scoped stmt scope schema.
Proof.
  unfold build_select_scoped. destruct (build_fuel_enough (select_depth stmt) (select_depth stmt + extra) stmt scope schema)
    as [-> H]; [lia..|]. by split.
Qed.
