(* ===== verification/Query.v ===== *)
(** * Running statements
      (crates/noedb-planner/src: cte.rs, fold.rs, ddl.rs, simd_pred.rs, lib.rs)

    Scalar subqueries are run and replaced by literals, common table expressions are
    materialized, and the statement is planned, optimized and executed.  A recursive
    table expression need not reach a fixed point: [Running] computations take fuel,
    and [None] says that they have not ended yet. *)

From S2P Require Import Prelude BTree StorageError Mvcc MemTable Text Float64 Tokens Ast Display Utf8 RowPack Value Cast Eval Plan TableScan SetOps RowOps WindowExec StreamAgg Executor Optimize Build.

(** ** Computations that may not end *)

Definition Running (A : Type) : Type := option (outcome ExecError A).
Definition running_bind {A B} (m : Running A) (k : A -> Running B) : Running B :=
  match m with
  | Some (Ok x) => k x
  | Some (Err e) => Some (Err e)
  | Some Panic => Some Panic
  | None => None
  end.
Notation "'let^' x := m 'in' k" := (running_bind m (fun x => k)) (at level 200, x pattern, m at level 100, k at level 200).
Definition done {A} (x : A) : Running A := Some (Ok x).

Section query.
Context {T I : Type} `{RowStore T} `{RowStore I} `{ExecEnv} `{Scheduler} `{StdChoices}.
Context (exec_store : T) (index_store : I) (schema : option QuerySchema).

(** Plan, optimize and execute with the tables of a WITH clause *)
Definition run_logical (logical : LogicalPlan) (cte_tables : option (gmap bytes (list RowMap)))
    : outcome ExecError (list Record_) :=
  execute (optimize logical (mkPlanContext index_store (load_plan_stats index_store)))
    (mkExecutionContext exec_store index_store cte_tables).

(** ** Common table expressions (cte.rs) *)

Definition run_select (stmt : SelectStmt) (cte_scope : gset bytes) (cte_tables : gmap bytes (list RowMap))
    : outcome ExecError (list RowMap) :=
  let? logical := map_err ExecPlan (build_select_scoped stmt (cte_scope ∪ cte_names_from (sel_with stmt)) schema) in
  let? records := run_logical logical (Some cte_tables) in
  Ok (map rec_fields records).

(** The rows whose key was not seen before *)
Fixpoint fresh_rows (seen : gset bytes) (rows : list RowMap) : list RowMap :=
  match rows with
  | [] => []
  | row :: rows' =>
      if bool_decide (row_key row ∈ seen) then fresh_rows seen rows'
      else row :: fresh_rows ({[row_key row]} ∪ seen) rows'
  end.

(** The loop of [materialize_recursive]: rounds until one adds nothing *)
Fixpoint recursive_rounds (fuel : nat) (name : bytes) (recursive : SelectStmt) (scope : gset bytes)
    (prior_tables : gmap bytes (list RowMap)) (acc : list RowMap) : Running (list RowMap) :=
  match fuel with
  | O => None
  | S fuel' =>
      match run_select recursive scope (<[name := acc]> prior_tables) with
      | Ok new_rows =>
          match fresh_rows (list_to_set (map row_key acc)) new_rows with
          | [] => done acc
          | added => recursive_rounds fuel' name recursive scope prior_tables (acc ++ added)
          end
      | Err e => Some (Err e)
      | Panic => Some Panic
      end
  end.

Definition materialize_recursive (fuel : nat) (name : bytes) (anchor recursive : SelectStmt) (prior_scope : gset bytes)
    (prior_tables : gmap bytes (list RowMap)) : Running (list RowMap) :=
  let^ acc := Some (run_select anchor prior_scope prior_tables) in
  recursive_rounds fuel name recursive ({[name]} ∪ prior_scope) prior_tables acc.

Definition materialize_cte (fuel : nat) (is_recursive : bool) (cte : CteDef) (scope : gset bytes)
    (tables : gmap bytes (list RowMap)) : Running (list RowMap) :=
  match cte with
  | mkCteDef _ (CteSelect stmt) _ => Some (run_select stmt scope tables)
  | mkCteDef _ (CteUnion anchor _ recursive) _ =>
      if is_recursive then materialize_recursive fuel (cte_name cte) anchor recursive scope tables
      else Some (Err UnsupportedExpr)
  end.

Fixpoint materialize_ctes (fuel : nat) (is_recursive : bool) (ctes : list CteDef) (scope : gset bytes)
    (tables : gmap bytes (list RowMap)) : Running (gmap bytes (list RowMap)) :=
  match ctes with
  | [] => done tables
  | cte :: ctes' =>
      let^ rows := materialize_cte fuel is_recursive cte scope tables in
      materialize_ctes fuel is_recursive ctes' ({[cte_name cte]} ∪ scope) (<[cte_name cte := rows]> tables)
  end.

Definition materialize_with_clause (fuel : nat) (with_ : WithClause) : Running (gmap bytes (list RowMap)) :=
  let 'mkWithClause is_recursive ctes _ := with_ in materialize_ctes fuel is_recursive ctes ∅ ∅.

(** ** Scalar subqueries (fold.rs) *)

Definition value_to_literal (v : Value) (span : Span) : Literal :=
  match v with
  | VNull => LNull span
  | VInteger n => LInteger n span
  | VFloat f => LFloat f span
  | VBool b => LBoolean b span
  | VBytes b | VDate b => match b with [] => LNull span | _ => LString (from_utf8_lossy b) span end
  | VTimestamp ts => LInteger ts span
  | VVector v => LString (bs "[" ++ sep_by (bs ",") (map show_f32 v) ++ bs "]") span
  end.

Section fold.
(** [execute_sql_on_with_schema] *)
Context (run : Statement -> Running (list Record_)).

(** The first cell of the first row, or NULL *)
Definition eval_scalar (query : SelectStmt) : Running Value :=
  let^ rows := run (SSelect query) in
  done (match rows with
        | r :: _ => match rec_fields r with (_, v) :: _ => v | [] => VNull end
        | [] => VNull
        end).

(** The rewritten expression, and whether it [changed] *)
Fixpoint fold_expr (e : Expr) : Running (Expr * bool) :=
  match e with
  | EScalarSubquery query span =>
      let^ v := eval_scalar query in done (ELiteral (value_to_literal v span), true)
  | EBinary op l r s =>
      let^ (l', c1) := fold_expr l in
      let^ (r', c2) := fold_expr r in
      done (EBinary op l' r' s, c1 || c2)
  | EUnary op x s => let^ (x', c) := fold_expr x in done (EUnary op x' s, c)
  | EIsNull x n s => let^ (x', c) := fold_expr x in done (EIsNull x' n s, c)
  | ECast x ty s => let^ (x', c) := fold_expr x in done (ECast x' ty s, c)
  | EParen x s => let^ (x', c) := fold_expr x in done (EParen x' s, c)
  | EIn x values n s =>
      let^ (x', c1) := fold_expr x in
      let^ (values', c2) := (fix go l := match l with
                                         | [] => done ([], false)
                                         | v :: l' => let^ (v', c) := fold_expr v in
                                                      let^ (l'', cs) := go l' in done (v' :: l'', c || cs)
                                         end) values in
      done (EIn x' values' n s, c1 || c2)
  | EBetween x lo hi n s =>
      let^ (x', c1) := fold_expr x in
      let^ (lo', c2) := fold_expr lo in
      let^ (hi', c3) := fold_expr hi in
      done (EBetween x' lo' hi' n s, c1 || c2 || c3)
  | EFunction name args over s =>
      let^ (args', c) := (fix go l := match l with
                                      | [] => done ([], false)
                                      | v :: l' => let^ (v', c) := fold_expr v in
                                                   let^ (l'', cs) := go l' in done (v' :: l'', c || cs)
                                      end) args in
      done (EFunction name args' over s, c)
  | EInSubquery _ _ _ _ | EExists _ _ _ | ELiteral _ | EColumn _ | EParameter _ _ | ECurrentUser _ => done (e, false)
  end.

Fixpoint fold_each {A} (f : A -> Running (A * bool)) (l : list A) : Running (list A * bool) :=
  match l with
  | [] => done ([], false)
  | x :: l' =>
      let^ (x', c) := f x in
      let^ (l'', cs) := fold_each f l' in
      done (x' :: l'', c || cs)
  end.
Definition fold_opt {A} (f : A -> Running (A * bool)) (o : option A) : Running (option A * bool) :=
  match o with None => done (None, false) | Some x => let^ (x', c) := f x in done (Some x', c) end.

Definition fold_item (i : SelectItem) : Running (SelectItem * bool) :=
  let^ (e, c) := fold_expr (item_expr i) in done (mkSelectItem e (item_alias i), c).
Definition fold_key (k : OrderKey) : Running (OrderKey * bool) :=
  let^ (e, c) := fold_expr (key_expr k) in done (mkOrderKey e (key_asc k), c).
Definition fold_join (j : Join) : Running (Join * bool) :=
  let 'mkJoin k t on s := j in let^ (on', c) := fold_expr on in done (mkJoin k t on' s, c).

Fixpoint fold_select (q : SelectStmt) : Running (SelectStmt * bool) :=
  match q with
  | mkSelectStmt with_ distinct items from joins where_clause group_by having order_by limit offset compound s =>
      let^ (items', c1) := fold_each fold_item items in
      let^ (where', c2) := fold_opt fold_expr where_clause in
      let^ (having', c3) := fold_opt fold_expr having in
      let^ (group_by', c4) := fold_each fold_expr group_by in
      let^ (order_by', c5) := fold_each fold_key order_by in
      let^ (joins', c6) := fold_each fold_join joins in
      let^ (compound', c7) := match compound with
                              | None => done (None, false)
                              | Some (mkCompoundSelect op all rhs) =>
                                  let^ (rhs', c) := fold_select rhs in done (Some (mkCompoundSelect op all rhs'), c)
                              end in
      done (mkSelectStmt with_ distinct items' from joins' where' group_by' having' order_by' limit offset compound' s,
            c1 || c2 || c3 || c4 || c5 || c6 || c7)
  end.

Definition fold_assignment (a : Ident * Expr) : Running ((Ident * Expr) * bool) :=
  let^ (e, c) := fold_expr a.2 in done ((a.1, e), c).

(** [Some] of the rewritten statement when there was a scalar subquery *)
Definition fold_scalar_subqueries (stmt : Statement) : Running (option Statement) :=
  let^ (stmt', changed) :=
    match stmt with
    | SSelect q => let^ (q', c) := fold_select q in done (SSelect q', c)
    | SUpdate u =>
        let^ (assignments, c1) := fold_each fold_assignment (up_assignments u) in
        let^ (w, c2) := fold_opt fold_expr (up_where u) in
        done (SUpdate (mkUpdateStmt (up_table u) assignments w (up_span u)), c1 || c2)
    | SDelete d =>
        let^ (w, c) := fold_opt fold_expr (del_where d) in
        done (SDelete (mkDeleteStmt (del_table d) w (del_span d)), c)
    | _ => done (stmt, false)
    end in
  done (if changed : bool then Some stmt' else None).
End fold.

(** ** Statements (lib.rs) *)

Definition execute_statement (run : Statement -> Running (list Record_)) (fuel : nat) (stmt : Statement) : Running (list Record_) :=
  let^ folded := fold_scalar_subqueries run stmt in
  let stmt := default stmt folded in
  let^ cte_tables := match stmt with
                     | SSelect q => match sel_with q with Some w => materialize_with_clause fuel w | None => done ∅ end
                     | _ => done ∅
                     end in
  let^ logical := Some (map_err ExecPlan (build_with_schema stmt schema)) in
  Some (run_logical logical (if bool_decide (cte_tables = ∅) then None else Some cte_tables)).

Fixpoint execute_sql_on_with_schema (fuel : nat) (stmt : Statement) : Running (list Record_) :=
  match fuel with
  | O => None
  | S fuel' => execute_statement (execute_sql_on_with_schema fuel') fuel' stmt
  end.
End query.

(** [apply_statement] on one store; [None] while the query runs *)
Section apply.
Context {T : Type} `{StorageEngine T} `{ExecEnv} `{Scheduler} `{StdChoices}.

Definition analyze_and_persist (store : T) (table : bytes) : outcome ExecError T :=
  map_err ExecStorage (persist_table_stats store table (analyze_table store table)).

Definition create_index (store : T) (table column : bytes) : outcome StorageError T := index_build store table column.

Definition apply_statement (fuel : nat) (stmt : Statement) (store : T) : Running (list Record_ * T) :=
  match stmt with
  | SCreateIndex idx =>
      match ci_columns idx with
      | [column] =>
          let^ store := Some (map_err ExecStorage (create_index store (id_value (ci_table idx)) (id_value column))) in
          let^ store := Some (analyze_and_persist store (id_value (ci_table idx))) in
          done ([], store)
      | _ => Some (Err UnsupportedExpr)
      end
  | SAnalyzeTable a =>
      let^ store := Some (analyze_and_persist store (id_value (an_table a))) in
      done ([], store)
  | _ =>
      let^ rows := execute_sql_on_with_schema store store None fuel stmt in
      done (rows, store)
  end.

(** ** Dropping a table (ddl.rs) *)

Definition table_prefixes (table : bytes) : list bytes :=
  [table ++ [zero]; ENTRY_PREFIX ++ table ++ [zero]; META_PREFIX ++ table ++ [zero]; STATS_PREFIX ++ table ++ [zero]].

Definition purge_prefix (prefix : bytes) (s : Z * T) : outcome StorageError (Z * T) :=
  for_each (fun key (s : Z * T) => let? r := se_delete s.2 key in Ok (s.1 + 1, r.2))
    (rs_range_keys s.2 prefix (prefix_end prefix)) s.

Definition purge_table_data (store : T) (table : bytes) : outcome StorageError (Z * T) :=
  let? s := for_each purge_prefix (table_prefixes table) (0, store) in
  let? store := unmark_row_id_column s.2 table in
  Ok (s.1, store).
End apply.

Definition record_execution (stats : PlanStats) (feedback : ExecutionFeedback) : PlanStats :=
  mkPlanStats (default_rows stats)
    (map_fold (fun table rows tables =>
       <[table := mkTableStats rows (ts_columns (default TableStats_default (tables !! table)))]> tables) (ps_tables stats) feedback).

(** ** Integer masks in steps of eight (simd_pred.rs) *)

Definition LANES : nat := 8.

(** The unrolled loop writes eight slots per round, then the rest one by one. *)
Fixpoint mask_loop (fuel : nat) (p : Z -> bool) (values : list Z) (out : list bool) (i : nat) : outcome ExecError (list bool) :=
  match fuel with
  | O => Panic
  | S fuel' =>
      if (i + LANES <=? length values)%nat then
        let? out := for_each (fun base out =>
          match values !! base with
          | Some v => if (base <? length out)%nat then Ok (<[base := p v]> out) else Panic
          | None => Panic
          end) (seq i LANES) out in
        mask_loop fuel' p values out (i + LANES)
      else Ok (take i out ++ zip_with (fun _ v => p v) (drop i out) (drop i values))
  end.
Definition mask (p : Z -> bool) (values : list Z) : outcome ExecError (list bool) :=
  mask_loop (S (length values)) p values (replicate (length values) false) 0.
Definition filter_eq_i64 (values : list Z) (needle : Z) : outcome ExecError (list bool) := mask (fun v => v =? needle) values.
Definition filter_range_i64 (values : list Z) (lo hi : Z) : outcome ExecError (list bool) :=
  mask (fun v => (lo <=? v) && (v <? hi)) values.
