(* ===== verification/QuerySpec.v ===== *)
(** * What running a statement returns

    Recursive table expressions reach a fixed point or run for ever; every other query
    ends; COUNT over a table counts the rows that a scan returns; dropping a table
    removes its keys and no other. *)

From S2P Require Import Prelude BTree StorageError Mvcc MemTable Text Float64 Tokens Ast Display Utf8 RowPack Value Cast Eval EvalSpec Plan TableScan SetOps RowOps WindowExec StreamAgg Executor Optimize Build BuildSpec Query Lexer Parser Statements ExecutorSpec SortJoin.

(** ** Recursive table expressions *)

Definition key_set (rows : list RowMap) : gset bytes := list_to_set (map row_key rows).

Lemma key_set_nil : key_set [] = ∅.
Proof. done. Qed.
Lemma key_set_cons r l : key_set (r :: l) = {[row_key r]} ∪ key_set l.
Proof. done. Qed.
Lemma key_set_app l1 l2 : key_set (l1 ++ l2) = key_set l1 ∪ key_set l2.
Proof. unfold key_set. by rewrite map_app, list_to_set_app_L. Qed.
Lemma elem_of_key_set k l : k ∈ key_set l <-> k ∈ map row_key l.
Proof. apply elem_of_list_to_set. Qed.
Lemma key_set_def l : list_to_set (map row_key l) = key_set l.
Proof. done. Qed.
#[local] Opaque key_set row_key.

(** Goals about key sets, as statements about their members *)
Ltac keys := rewrite ?key_set_app, ?key_set_cons, ?key_set_nil in *; set_solver.

Lemma fresh_rows_spec seen rows :
  key_set (fresh_rows seen rows) = key_set rows ∖ seen /\ NoDup (map row_key (fresh_rows seen rows)).
Proof.
  revert seen. induction rows as [|row rows IH]; intros seen; cbn [fresh_rows].
  { split; [keys|constructor]. }
  case_bool_decide as Hk.
  - destruct (IH seen) as [E N]. split; [keys|done].
  - destruct (IH ({[row_key row]} ∪ seen)) as [E N]. rewrite !key_set_cons, E. cbn [map]. split; [apply set_eq; intros k|].
    + rewrite !elem_of_union, !elem_of_difference, !elem_of_union, !elem_of_singleton.
      destruct (decide (k = row_key row)) as [->|]; naive_solver.
    + constructor; [|done]. rewrite <-elem_of_key_set, E. set_solver.
Qed.

Lemma fresh_rows_nil seen rows : fresh_rows seen rows = [] <-> key_set rows ⊆ seen.
Proof.
  destruct (fresh_rows_spec seen rows) as [E _]. split.
  - intros F. rewrite F, key_set_nil in E. intros k Hk. destruct (decide (k ∈ seen)); [done|].
    assert (k ∈ key_set rows ∖ seen) by set_solver. rewrite <-E in *. set_solver.
  - intros S. destruct (fresh_rows seen rows) as [|r l]; [done|]. exfalso. rewrite key_set_cons in E.
    assert (row_key r ∈ key_set rows ∖ seen) by (rewrite <-E; set_solver). set_solver.
Qed.

Section recursive.
Context {T I : Type} `{RowStore T} `{RowStore I} `{ExecEnv} `{Scheduler} `{StdChoices}.
Context (store : T) (index : I) (schema : option QuerySchema).

(** One round over the rows accumulated so far *)
Let round (name : bytes) (recursive : SelectStmt) (scope : gset bytes) (tables : gmap bytes (list RowMap)) (acc : list RowMap) :=
  run_select store index schema recursive scope (<[name := acc]> tables).

Lemma rounds_fixpoint (fuel : nat) (name : bytes) (recursive : SelectStmt) (scope : gset bytes) (tables : gmap bytes (list RowMap)) (acc rows : list RowMap) :
  recursive_rounds store index schema fuel name recursive scope tables acc = Some (Ok rows) ->
  exists added new, rows = acc ++ added /\ NoDup (map row_key added) /\ key_set added ## key_set acc /\
    round name recursive scope tables rows = Ok new /\ key_set new ⊆ key_set rows.
Proof.
  revert acc. induction fuel as [|fuel IH]; intros acc; cbn [recursive_rounds]; [done|]. fold (round name recursive scope tables acc).
  destruct (round name recursive scope tables acc) as [new| |] eqn:E; [|done..]. rewrite key_set_def.
  destruct (fresh_rows (key_set acc) new) as [|r l] eqn:F.
  - intros [= <-]. exists [], new. rewrite app_nil_r. apply fresh_rows_nil in F.
    split_and!; [done|constructor|keys|done|done].
  - intros (added & new' & -> & N & D & E' & K)%IH. destruct (fresh_rows_spec (key_set acc) new) as [F1 F2].
    rewrite F in F1, F2. exists ((r :: l) ++ added), new'. rewrite <-(assoc_L (++)) in *. split_and!; try done.
    + rewrite map_app. apply NoDup_app. split_and!; [done| |done]. intros k Hk%elem_of_key_set Hk'%elem_of_key_set.
      apply (D k); [done|]. rewrite key_set_app. by apply elem_of_union_r.
    + rewrite !key_set_app in *. intros k. specialize (D k).
      assert (k ∈ key_set (r :: l) -> k ∉ key_set acc) by (rewrite F1; set_solver). set_solver.
Qed.

(** What WITH RECURSIVE materializes starts with the anchor's rows, adds every row once,
    and is a fixed point: the recursive part over it returns no further row. *)
Theorem recursive_cte_fixpoint (fuel : nat) (name : bytes) (anchor recursive : SelectStmt) (scope : gset bytes) (tables : gmap bytes (list RowMap)) (rows : list RowMap) :
  materialize_recursive store index schema fuel name anchor recursive scope tables = Some (Ok rows) ->
  exists base added new, run_select store index schema anchor scope tables = Ok base /\
    rows = base ++ added /\ NoDup (map row_key added) /\ key_set added ## key_set base /\
    run_select store index schema recursive ({[name]} ∪ scope) (<[name := rows]> tables) = Ok new /\
    key_set new ⊆ key_set rows.
Proof.
  unfold materialize_recursive. destruct (run_select _ _ _ anchor scope tables) as [base| |]; cbn [running_bind]; try done.
  intros (added & new & ?)%rounds_fixpoint. by exists base, added, new.
Qed.

(** The rows accumulated at the beginning of a round, from the rows of the anchor on: a
    round that returns rows not seen before adds them. *)
Inductive accumulates (name : bytes) (recursive : SelectStmt) (scope : gset bytes) (tables : gmap bytes (list RowMap)) (base : list RowMap) : list RowMap -> Prop :=
| acc_base : accumulates name recursive scope tables base base
| acc_round acc new : accumulates name recursive scope tables base acc ->
    run_select store index schema recursive scope (<[name := acc]> tables) = Ok new -> ~ key_set new ⊆ key_set acc ->
    accumulates name recursive scope tables base (acc ++ fresh_rows (key_set acc) new).

Lemma rounds_end (name : bytes) (recursive : SelectStmt) (scope : gset bytes) (tables : gmap bytes (list RowMap)) (K : gset bytes) (fuel : nat) (base acc : list RowMap) :
  (forall acc, accumulates name recursive scope tables base acc ->
     exists new : list RowMap, round name recursive scope tables acc = Ok new /\ key_set new ⊆ K) ->
  accumulates name recursive scope tables base acc ->
  (size (K ∖ key_set acc) < fuel)%nat ->
  exists rows, recursive_rounds store index schema fuel name recursive scope tables acc = Some (Ok rows) /\
    accumulates name recursive scope tables base rows.
Proof.
  intros HK. revert acc. induction fuel as [|fuel IH]; intros acc Hacc Hf; [lia|]. cbn [recursive_rounds].
  fold (round name recursive scope tables acc). destruct (HK acc Hacc) as (new & Enew & Hnew). rewrite Enew, key_set_def.
  destruct (fresh_rows (key_set acc) new) as [|r l] eqn:F; [by exists acc|]. apply IH.
  - rewrite <-F. apply (acc_round _ _ _ _ _ acc new); [done..|]. intros Hsub%fresh_rows_nil. by rewrite F in Hsub.
  - destruct (fresh_rows_spec (key_set acc) new) as [F1 _]. rewrite F in F1.
    assert (Hr : row_key r ∈ key_set new ∖ key_set acc) by (rewrite <-F1, key_set_cons; set_solver).
    assert (Hsub : K ∖ key_set (acc ++ r :: l) ⊂ K ∖ key_set acc).
    { rewrite key_set_app, key_set_cons. split; [set_solver|]. intros S. specialize (S (row_key r)). set_solver. }
    apply subset_size in Hsub. lia.
Qed.

Lemma accumulates_prefix (name : bytes) (recursive : SelectStmt) (scope : gset bytes) (tables : gmap bytes (list RowMap)) (base acc : list RowMap) :
  accumulates name recursive scope tables base acc ->
  exists added, acc = base ++ added /\ NoDup (map row_key added) /\ key_set added ## key_set base.
Proof.
  induction 1 as [|acc new _ (added & -> & N & D) _ _]; [exists []; rewrite app_nil_r; split_and!; [done|constructor|keys]|].
  destruct (fresh_rows_spec (key_set (base ++ added)) new) as [F1 F2].
  exists (added ++ fresh_rows (key_set (base ++ added)) new). rewrite (assoc_L (++)). split; [done|]. split.
  - rewrite map_app. apply NoDup_app. split_and!; [done| |done]. intros k Hk%elem_of_key_set Hk'%elem_of_key_set.
    rewrite F1, key_set_app in Hk'. set_solver.
  - rewrite key_set_app, F1, key_set_app. set_solver.
Qed.

(** C25. WITH RECURSIVE is materialized when its rows come from a finite set: if the anchor
    returns [base], and every round that occurs, that is the recursive part over the rows
    accumulated so far, succeeds with rows whose keys lie in a finite set [K], then the
    rounds end, at most one more of them than [K] has keys, with a table that starts with
    the anchor's rows, adds rows of [K], each once, and is closed: the recursive part over
    it returns no further row. *)
Theorem recursive_cte_ends (name : bytes) (anchor recursive : SelectStmt) (scope : gset bytes) (tables : gmap bytes (list RowMap)) (K : gset bytes) (base : list RowMap) (fuel : nat) :
  run_select store index schema anchor scope tables = Ok base ->
  (forall acc, accumulates name recursive ({[name]} ∪ scope) tables base acc -> exists new : list RowMap,
     run_select store index schema recursive ({[name]} ∪ scope) (<[name := acc]> tables) = Ok new /\ key_set new ⊆ K) ->
  (size K < fuel)%nat ->
  exists added new, let rows := base ++ added in
    materialize_recursive store index schema fuel name anchor recursive scope tables = Some (Ok rows) /\
    NoDup (map row_key added) /\ key_set added ## key_set base /\ key_set added ⊆ K /\
    run_select store index schema recursive ({[name]} ∪ scope) (<[name := rows]> tables) = Ok new /\ key_set new ⊆ key_set rows.
Proof.
  intros E HK Hf. unfold materialize_recursive. rewrite E. cbn [running_bind].
  destruct (rounds_end name recursive ({[name]} ∪ scope) tables K fuel base base HK) as (rows & Er & Ha); [constructor|..].
  { assert (K ∖ key_set base ⊆ K) as ?%subseteq_size by set_solver. lia. }
  assert (key_set rows ⊆ key_set base ∪ K) as Hin.
  { clear Er. induction Ha as [|acc new Ha IH En _]; [set_solver|]. destruct (HK acc Ha) as (new' & En' & Hn).
    rewrite En in En'. injection En' as <-. rewrite key_set_app. destruct (fresh_rows_spec (key_set acc) new) as [-> _]. set_solver. }
  destruct (accumulates_prefix _ _ _ _ _ _ Ha) as (added & -> & N & D). apply rounds_fixpoint in Er as Hfix.
  destruct Hfix as (_ & new & _ & _ & _ & En & Hsub). exists added, new. cbv zeta. split_and!; try done.
  rewrite key_set_app in Hin. intros k Hk. specialize (D k). specialize (Hin k). set_solver.
Qed.
End recursive.

(** ** Masks *)

Lemma mask_step (p : Z -> bool) (values : list Z) (n i : nat) (out : list bool) :
  (i + n <= length values)%nat -> length out = length values -> take i out = take i (map p values) ->
  exists out', for_each (E:=ExecError) (fun base out =>
      match values !! base with
      | Some v => if (base <? length out)%nat then Ok (<[base := p v]> out) else Panic
      | None => Panic
      end) (seq i n) out = Ok out' /\
    length out' = length values /\ take (i + n) out' = take (i + n) (map p values).
Proof.
  revert i out. induction n as [|n IH]; intros i out Hi Ho Ht; cbn [seq for_each].
  { exists out. by rewrite Nat.add_0_r. }
  destruct (lookup_lt_is_Some_2 values i) as [v Hv]; [lia|]. rewrite Hv, (proj2 (Nat.ltb_lt _ _)) by lia. cbn [obind].
  destruct (IH (S i) (<[i := p v]> out)) as (out' & E & L & Tk); [lia|by rewrite length_insert| |].
  - rewrite (take_S_r (<[i := p v]> out) i (p v)), (take_S_r (map p values) i (p v)).
    + by rewrite take_insert_ge by lia; rewrite Ht.
    + by rewrite list_lookup_fmap, Hv.
    + apply list_lookup_insert_eq. lia.
  - exists out'. by rewrite <-Nat.add_succ_comm.
Qed.

Lemma mask_loop_spec (p : Z -> bool) (values : list Z) (fuel i : nat) (out : list bool) :
  (length values - i < fuel)%nat -> (i <= length values)%nat -> length out = length values ->
  take i out = take i (map p values) ->
  mask_loop fuel p values out i = Ok (map p values).
Proof.
  revert i out. induction fuel as [|fuel IH]; intros i out Hf Hi Ho Ht; [lia|]. cbn [mask_loop].
  destruct (Nat.leb_spec (i + LANES) (length values)) as [Hle|Hgt].
  - destruct (mask_step p values LANES i out Hle Ho Ht) as (out' & -> & L & Tk). cbn [obind]. apply IH; try done. unfold LANES in *. lia.
  - rewrite Ht. f_equal. rewrite <-(take_drop i (map p values)) at 2. f_equal. rewrite <-fmap_drop.
    assert (Hl : length (drop i out) = length (drop i values)) by (rewrite !length_drop; lia).
    revert Hl. generalize (drop i out) as a. generalize (drop i values) as b. clear.
    induction b as [|x b IH]; intros [|y a] Hl; try done. cbn. f_equal. apply IH. by injection Hl.
Qed.

(** The masks computed eight integers at a time are the masks of the plain
    comparisons, at every length, and stay within their slices. *)
Theorem masks_pointwise (values : list Z) (needle lo hi : Z) :
  filter_eq_i64 values needle = Ok (map (fun v => v =? needle) values) /\
  filter_range_i64 values lo hi = Ok (map (fun v => (lo <=? v) && (v <? hi)) values).
Proof.
  split; apply mask_loop_spec; try done; try lia; by rewrite length_replicate.
Qed.

(** ** Queries without recursion end *)

(** The scalar subqueries that are folded, in the expression or statement itself *)
Fixpoint scalar_queries (e : Expr) : list SelectStmt :=
  match e with
  | EScalarSubquery q _ => [q]
  | EBinary _ l r _ => scalar_queries l ++ scalar_queries r
  | EUnary _ x _ | EIsNull x _ _ | ECast x _ _ => scalar_queries x
  | EParen x _ => scalar_queries x
  | EIn x vs _ _ => scalar_queries x ++ concat (map scalar_queries vs)
  | EBetween x lo hi _ _ => scalar_queries x ++ scalar_queries lo ++ scalar_queries hi
  | EFunction _ args _ _ => concat (map scalar_queries args)
  | _ => []
  end.
Definition opt_scalars (e : option Expr) : list SelectStmt := match e with Some e => scalar_queries e | None => [] end.
Fixpoint select_scalars (q : SelectStmt) : list SelectStmt :=
  match q with
  | mkSelectStmt _ _ items _ joins where_clause group_by having order_by _ _ compound _ =>
      concat (map (fun i => scalar_queries (item_expr i)) items) ++ opt_scalars where_clause ++ opt_scalars having ++
      concat (map scalar_queries group_by) ++ concat (map (fun k => scalar_queries (key_expr k)) order_by) ++
      concat (map (fun j => scalar_queries (join_on j)) joins) ++
      match compound with Some (mkCompoundSelect _ _ rhs) => select_scalars rhs | None => [] end
  end.

Definition with_recursive (w : option WithClause) : bool :=
  match w with Some (mkWithClause r _ _) => r | None => false end.

(** No WITH RECURSIVE in the query and in the scalar subqueries that it runs *)
Inductive finite_query : SelectStmt -> Prop :=
| FiniteQuery q :
    with_recursive (sel_with q) = false -> (forall q', q' ∈ select_scalars q -> finite_query q') -> finite_query q.

Lemma bind_ends {A B} (m : Running A) (k : A -> Running B) : m <> None -> (forall x, k x <> None) -> running_bind m k <> None.
Proof. destruct m as [[]|]; cbn [running_bind]; auto. Qed.

Section ends.
Context (run : Statement -> Running (list Record_)).
Let runs (qs : list SelectStmt) : Prop := forall q, q ∈ qs -> run (SSelect q) <> None.

Lemma runs_app qs1 qs2 : runs (qs1 ++ qs2) -> runs qs1 /\ runs qs2.
Proof. intros Hr. split; intros q Hq; apply Hr; set_solver. Qed.

Context `{ExecEnv}.

Lemma fold_each_ends {A} (f : A -> Running (A * bool)) (scalars : A -> list SelectStmt) l :
  Forall (fun x => runs (scalars x) -> f x <> None) l -> runs (concat (map scalars l)) -> fold_each f l <> None.
Proof.
  induction 1 as [|x l Hx _ IH]; cbn [fold_each map concat]; [done|]. intros [H1 H2]%runs_app.
  apply bind_ends; [auto|]. intros [x' c]. apply bind_ends; [auto|]. by intros [].
Qed.

Lemma fold_list_each l :
  (fix go l := match l with
               | [] => done ([], false)
               | v :: l' => let^ (v', c) := fold_expr run v in let^ (l'', cs) := go l' in done (v' :: l'', c || cs)
               end) l = fold_each (fold_expr run) l.
Proof. induction l as [|v l IH]; [done|]. cbn [fold_each]. by rewrite IH. Qed.

Lemma fold_expr_ends e : runs (scalar_queries e) -> fold_expr run e <> None.
Proof.
  pattern e. apply expr_rec; clear e; intros; cbn [fold_expr scalar_queries] in *; rewrite ?fold_list_each;
    repeat match goal with H : runs (_ ++ _) |- _ => apply runs_app in H as [? ?] end;
    repeat first [apply bind_ends; [auto|intros [? ?]]|done].
  - by apply (fold_each_ends _ scalar_queries).
  - apply bind_ends; [|done]. unfold eval_scalar. apply bind_ends; [|done].
    match goal with H : runs _ |- _ => apply H end. constructor.
  - by apply (fold_each_ends _ scalar_queries).
Qed.

Lemma fold_opt_ends e : runs (opt_scalars e) -> fold_opt (fold_expr run) e <> None.
Proof. destruct e as [e|]; [|done]. intros Hr. apply bind_ends; [by apply fold_expr_ends|by intros []]. Qed.

Ltac fold_ends scalars :=
  apply (fold_each_ends _ scalars); [|done]; apply List.Forall_forall; intros;
  first [by apply fold_expr_ends|apply bind_ends; [by apply fold_expr_ends|by intros []]].

Lemma fold_select_ends q : runs (select_scalars q) -> fold_select run q <> None.
Proof.
  revert q. fix IH 1. intros [w d items from joins wh g h o l off c s]. cbn [fold_select select_scalars]. intros Hr.
  repeat match goal with H : runs (_ ++ _) |- _ => apply runs_app in H as [? ?] end.
  apply bind_ends; [fold_ends (fun i => scalar_queries (item_expr i))|intros [? ?]].
  apply bind_ends; [by apply fold_opt_ends|intros [? ?]]. apply bind_ends; [by apply fold_opt_ends|intros [? ?]].
  apply bind_ends; [fold_ends scalar_queries|intros [? ?]].
  apply bind_ends; [fold_ends (fun k => scalar_queries (key_expr k))|intros [? ?]].
  apply bind_ends; [|intros [? ?]].
  { apply (fold_each_ends _ (fun j => scalar_queries (join_on j))); [|done]. apply List.Forall_forall. intros [] _ Hj.
    cbn [fold_join]. apply bind_ends; [by apply fold_expr_ends|by intros []]. }
  apply bind_ends; [|by intros []]. destruct c as [[op all rhs]|]; [|done].
  apply bind_ends; [by apply IH|by intros []].
Qed.

(** Folding keeps the WITH clause. *)
Lemma fold_select_with q q' c : fold_select run q = Some (Ok (q', c)) -> sel_with q' = sel_with q.
Proof.
  destruct q as [w d items from joins wh g h o l off cm s]. cbn [fold_select sel_with]. intros E.
  repeat match type of E with
         | running_bind ?m _ = _ => destruct m as [[[? ?]| |]|]; cbn [running_bind] in E; try discriminate E
         end.
  unfold done in E. by simplify_eq.
Qed.
End ends.

Section query_ends.
Context {T I : Type} `{RowStore T} `{RowStore I} `{ExecEnv} `{Scheduler} `{StdChoices}.
Context (store : T) (index : I) (schema : option QuerySchema).

Lemma ctes_end (fuel : nat) (ctes : list CteDef) (scope : gset bytes) (tables : gmap bytes (list RowMap)) :
  materialize_ctes store index schema fuel false ctes scope tables <> None.
Proof.
  revert scope tables. induction ctes as [|cte ctes IH]; intros; cbn [materialize_ctes]; [done|].
  apply bind_ends; [|done]. by destruct cte as [? [] ?].
Qed.

Lemma statement_ends run (fuel : nat) (q : SelectStmt) :
  with_recursive (sel_with q) = false -> (forall q', q' ∈ select_scalars q -> run (SSelect q') <> None) ->
  execute_statement store index schema run fuel (SSelect q) <> None.
Proof.
  intros Hw Hr. unfold execute_statement, fold_scalar_subqueries. pose proof (fold_select_ends run q Hr) as He.
  destruct (fold_select run q) as [[[q' c]| |]|] eqn:E; cbn [running_bind done]; try done.
  apply fold_select_with in E. set (stmt := default (SSelect q) _).
  assert (exists q'', stmt = SSelect q'' /\ sel_with q'' = sel_with q) as (q'' & -> & Ew).
  { subst stmt. destruct c; cbn; by eexists. }
  rewrite Ew. apply bind_ends.
  - destruct (sel_with q) as [[r ctes s]|]; [|done]. cbn in Hw. subst r. cbn [materialize_with_clause]. apply ctes_end.
  - intros tables. by destruct (map_err _ _).
Qed.

(** A query without WITH RECURSIVE, in itself and in the scalar subqueries that it runs,
    ends: from some number of steps on it has returned its rows, an error or a panic. *)
Theorem query_ends (q : SelectStmt) :
  finite_query q -> exists n, forall fuel, (n <= fuel)%nat -> execute_sql_on_with_schema store index schema fuel (SSelect q) <> None.
Proof.
  induction 1 as [q Hw _ IH].
  assert (exists n, forall q', q' ∈ select_scalars q -> forall fuel, (n <= fuel)%nat ->
    execute_sql_on_with_schema store index schema fuel (SSelect q') <> None) as [n Hn].
  { induction (select_scalars q) as [|q' qs IHqs]; [exists 0%nat; set_solver|].
    destruct (IH q') as [n1 H1']; [constructor|]. destruct IHqs as [n2 H2']; [intros; apply IH; by constructor|].
    exists (Nat.max n1 n2). intros x [->|Hx]%elem_of_cons fuel Hf; [apply H1'|apply H2']; by try lia. }
  exists (S n). intros [|fuel] Hf; [lia|]. cbn [execute_sql_on_with_schema]. apply statement_ends; [done|].
  intros q' Hq'. apply Hn; [done|lia].
Qed.
End query_ends.

(** ** The hypotheses on small queries *)

Section demo.
#[local] Existing Instance demo_env.
#[local] Existing Instance demo_choices.
#[local] Existing Instance demo_scheduler.

(** [SELECT e AS k FROM from] *)
Definition select_k (e : Expr) (from : option FromItem) : SelectStmt :=
  mkSelectStmt None false [mkSelectItem e (Some (mkIdent (bs "k") s0))] from [] None [] None [] None None None s0.
Definition select_1 : SelectStmt := select_k (int_lit 1) None.

Lemma recursive_cte_fixpoint_witness :
  materialize_recursive MemTable_new MemTable_new None 2 (bs "n") select_1 select_1 ∅ ∅ =
    Some (Ok [[(bs "k", VInteger 1)]]) /\
  exists new, run_select MemTable_new MemTable_new None select_1 ({[bs "n"]} ∪ ∅) (<[bs "n" := [[(bs "k", VInteger 1)]]]> ∅) = Ok new /\
    key_set new ⊆ key_set [[(bs "k", VInteger 1)]].
Proof.
  assert (E : materialize_recursive MemTable_new MemTable_new None 2 (bs "n") select_1 select_1 ∅ ∅ =
    Some (Ok [[(bs "k", VInteger 1)]])) by (vm_compute; reflexivity).
  split; [exact E|]. destruct (recursive_cte_fixpoint MemTable_new MemTable_new None 2 _ _ _ _ _ _ E) as (_ & _ & new & _ & _ & _ & _ & R & S).
  exists new. split; [exact R|exact S].
Defined.

(** [SELECT k + 1 AS k FROM n WHERE k < 3] *)
Definition count_up : SelectStmt :=
  mkSelectStmt None false [mkSelectItem (EBinary BPlus (bare_ref "k") (int_lit 1) s0) (Some (mkIdent (bs "k") s0))]
    (Some (FromTable (mkTableRef (mkIdent (bs "n") s0) None s0))) [] (Some (EBinary BLt (bare_ref "k") (int_lit 3) s0)) [] None [] None None None s0.

(** The sum is a float. *)
Definition upto (n : nat) : list RowMap := map (fun v => [(bs "k", v)]) (take n [VInteger 1; VFloat (f64_of_Z 2); VFloat (f64_of_Z 3)]).
Definition counted (acc : list RowMap) : outcome ExecError (list RowMap) :=
  run_select MemTable_new MemTable_new None count_up ({[bs "n"]} ∪ ∅) (<[bs "n" := acc]> ∅).

Lemma count_up_rounds acc : accumulates MemTable_new MemTable_new None (bs "n") count_up ({[bs "n"]} ∪ ∅) ∅ (upto 1) acc ->
  acc = upto 1 \/ acc = upto 2 \/ acc = upto 3.
Proof.
  assert (counted (upto 1) = Ok (drop 1 (upto 2))) as E1 by (vm_compute; reflexivity).
  assert (counted (upto 2) = Ok (drop 1 (upto 3))) as E2 by (vm_compute; reflexivity).
  assert (counted (upto 3) = Ok (drop 1 (upto 3))) as E3 by (vm_compute; reflexivity).
  induction 1 as [|acc new _ [->|[->| ->]] En Hnew]; [by left|..];
    fold (counted (upto 1)) (counted (upto 2)) (counted (upto 3)) in En.
  - rewrite E1 in En. injection En as <-. right. left. vm_compute. reflexivity.
  - rewrite E2 in En. injection En as <-. right. right. vm_compute. reflexivity.
  - rewrite E3 in En. injection En as <-. destruct Hnew. apply fresh_rows_nil. vm_compute. reflexivity.
Qed.

(** [WITH RECURSIVE n AS (SELECT 1 AS k UNION SELECT k + 1 AS k FROM n WHERE k < 3)] *)
Lemma recursive_cte_ends_witness :
  exists added new, let rows := upto 1 ++ added in
    materialize_recursive MemTable_new MemTable_new None 4 (bs "n") select_1 count_up ∅ ∅ = Some (Ok rows) /\
    rows = upto 3 /\ NoDup (map row_key added) /\ key_set added ## key_set (upto 1) /\ key_set added ⊆ key_set (upto 3) /\
    counted rows = Ok new /\ key_set new ⊆ key_set rows.
Proof.
  destruct (recursive_cte_ends MemTable_new MemTable_new None (bs "n") select_1 count_up ∅ ∅ (key_set (upto 3)) (upto 1) 4)
    as (added & new & Er & H).
  - vm_compute. reflexivity.
  - intros acc [->|[->| ->]]%count_up_rounds; [exists (drop 1 (upto 2))|exists (drop 1 (upto 3))|exists (drop 1 (upto 3))];
      (split; [vm_compute; reflexivity|]); apply fresh_rows_nil; vm_compute; reflexivity.
  - vm_compute. lia.
  - exists added, new. split; [exact Er|]. split; [|exact H].
    assert (forall a b : list RowMap, Some (Ok (E:=ExecError) a) = Some (Ok b) -> a = b) as inj by (intros a b [= ->]; reflexivity).
    apply inj. rewrite <-Er. vm_compute. reflexivity.
Defined.

(** [SELECT (SELECT 1 AS k) AS k] *)
Lemma query_ends_witness :
  exists n, forall fuel, (n <= fuel)%nat ->
    execute_sql_on_with_schema MemTable_new MemTable_new None fuel (SSelect (select_k (EScalarSubquery select_1 s0) None)) <> None.
Proof.
  apply (query_ends MemTable_new MemTable_new None). constructor; [reflexivity|]. cbn.
  intros q' Hq. apply list_elem_of_singleton in Hq as ->. constructor; [reflexivity|]. cbn. intros q' Hq. by apply elem_of_nil in Hq.
Defined.
End demo.

(** ** SQL text end to end: lexer, parser, planner, optimizer and executor on texts and small tables *)

#[local] Existing Instance demo_env.
#[local] Existing Instance demo_choices.
#[local] Existing Instance demo_scheduler.
#[local] Existing Instance ascii_unicode.

(** A text run on a table, with the catalog of [people] and enough fuel for its nesting *)
Definition catalog : QuerySchema := from_tables [(bs "people", [bs "name"; bs "age"])].
Definition sql (t : MemTable) (text : string) : option (outcome ExecError (list RowMap)) :=
  match parse (bs text) with
  | Ok stmt => option_map (fun r => let? rows := r in Ok (map rec_fields rows)) (execute_sql_on_with_schema t t (Some catalog) 20 stmt)
  | _ => None
  end.

Definition text_row (cells : list (string * string)) : RowMap := map (fun c => (bs c.1, VBytes (bs c.2))) cells.
Definition names (l : list string) : option (outcome ExecError (list RowMap)) :=
  Some (Ok (map (fun n => text_row [("name", n)]) l))%string.

(** Filters, stars, IN subqueries, scalar subqueries, common table expressions, outer joins
    and grouping, from text to rows. *)
Theorem queries_run :
  sql people "SELECT name FROM people WHERE age > 30 AND age < 40" = names ["ada"] /\
  sql people "SELECT * FROM people" =
    Some (Ok [text_row [("name", "ada"); ("age", "36")]; text_row [("name", "bob"); ("age", "70")]]) /\
  sql people "SELECT name FROM people WHERE name IN (SELECT name FROM people WHERE age > 40)" = names ["bob"] /\
  sql people "SELECT name FROM people WHERE age > (SELECT AVG(age) FROM people)" = names ["bob"] /\
  sql people "WITH old AS (SELECT name FROM people WHERE age > 40) SELECT name FROM old" = names ["bob"] /\
  sql cities "SELECT u.name, o.city FROM users u LEFT JOIN orders o ON o.user_id = u.id" =
    Some (Ok [text_row [("name", "ada"); ("city", "oslo")]; text_row [("name", "bob")] ++ [(bs "city", VNull)]]) /\
  sql people "SELECT age, COUNT(*) FROM people GROUP BY age" =
    Some (Ok [text_row [("age", "36")] ++ [(bs "count", VInteger 1)]; text_row [("age", "70")] ++ [(bs "count", VInteger 1)]]).
Proof. split_and!; vm_compute; reflexivity. Qed.

(** An ORDER BY column that is not selected is dropped by the projection before the sort,
    so it does not order the rows; an ORDER BY expression adds a column to the result. *)
Theorem order_by_needs_selected_column :
  sql people "SELECT name FROM people ORDER BY age DESC" = names ["ada"; "bob"] /\
  sql people "SELECT name FROM people ORDER BY age + 0 DESC" =
    Some (Ok [text_row [("name", "bob")] ++ [(bs "__sort_0__", VFloat (f64_of_Z 70))];
              text_row [("name", "ada")] ++ [(bs "__sort_0__", VFloat (f64_of_Z 36))]]).
Proof. split_and!; vm_compute; reflexivity. Qed.

(** An aggregate of an expression is neither computed nor refused: the rows come back. *)
Theorem aggregate_of_expression_ignored :
  sql people "SELECT SUM(age + 1) FROM people" =
    Some (Ok [text_row [("name", "ada"); ("age", "36")]; text_row [("name", "bob"); ("age", "70")]]).
Proof. vm_compute. reflexivity. Qed.

(** EXISTS of a query without correlation is true and NOT EXISTS false whenever the query
    names a table, whether or not it has rows. *)
Theorem uncorrelated_exists_ignores_data :
  sql people "SELECT name FROM people WHERE EXISTS (SELECT 1 FROM nobody)" = names ["ada"; "bob"] /\
  sql people "SELECT name FROM people WHERE NOT EXISTS (SELECT 1 FROM nobody)" = names [] /\
  sql people "SELECT name FROM nobody" = names [].
Proof. split_and!; vm_compute; reflexivity. Qed.

(** The correlation of a subquery is evaluated over its projected rows, where the inner
    column is gone and its name finds the outer one: ada of Rome is returned although her
    order is from Oslo. *)
Theorem correlation_compares_outer_with_itself :
  sql cities "SELECT u.name FROM users u WHERE u.id IN (SELECT o.user_id FROM orders o WHERE o.city = u.city)" = names ["ada"] /\
  sql cities "SELECT u.name FROM users u WHERE EXISTS (SELECT 1 FROM orders o WHERE o.user_id = u.id AND o.city = u.city)" =
    names ["ada"] /\
  sql cities "SELECT u.name FROM users u WHERE EXISTS (SELECT 1 FROM orders o WHERE o.city = u.city)" = names ["bob"].
Proof. split_and!; vm_compute; reflexivity. Qed.
