(* ===== verification/StoreSpec.v ===== *)
(** * Tables in a store

    What the planner's reads of a table rely on: the keys of one row are consecutive in
    key order, so the key-only COUNT counts rows; dropping a table removes exactly its
    keys.  Proved for every store with [RowStoreLaws] or [EngineLaws]. *)

From S2P Require Import Prelude BTree StorageError Mvcc MemTable Text Float64 Tokens Ast Display Utf8 RowPack Value Cast Eval EvalSpec Plan TableScan SetOps RowOps WindowExec StreamAgg Executor ExecutorSpec Optimize SortJoin Build Query.

(** ** Engines as row stores *)

#[global] Program Instance engine_rows_laws {T} `{EngineLaws T} : RowStoreLaws T :=
  {| rs_content := contents; rs_ok := engine_ok |}.
Next Obligation. intros. by apply get_law. Qed.
Next Obligation.
  intros T HT HL s start end_ Hok. cbn. unfold default_range. rewrite iter_law by done.
  rewrite window_filter by apply btree_iter_sorted. apply list_filter_iff. intros e. cbn.
  rewrite (bytes_ltb_leb e.1 start), andb_true_iff. destruct (bytes_leb start e.1); naive_solver.
Qed.
Next Obligation. done. Qed.

(** ** Row ids in key order *)

Definition row_id (rest : bytes) : bytes := (split_row_id rest).1.

Lemma row_id_nil : row_id [] = [].
Proof. done. Qed.
Lemma row_id_cons b r : row_id (b :: r) = if bool_decide (b = zero) then [] else b :: row_id r.
Proof. unfold row_id, split_row_id. cbn [split_first]. case_bool_decide; [done|]. by destruct (split_first zero r) as [[]|]. Qed.

(** Zero is the least byte, so cutting at it keeps the order. *)
Lemma row_id_mono a b : bytes_le a b -> bytes_le (row_id a) (row_id b).
Proof.
  revert b. induction a as [|x a IH]; intros [|y b]; rewrite ?row_id_nil, ?row_id_cons; try done.
  - intros _. apply bytes_le_nil.
  - intros Hle. case_bool_decide as Hx; [apply bytes_le_nil|].
    unfold bytes_leb in Hle. cbn [bytes_cmp] in Hle. destruct (Z.compare_spec (b2z x) (b2z y)) as [E|E|E]; [| |done].
    + apply b2z_inj in E as <-. rewrite bool_decide_eq_false_2 by done.
      unfold bytes_leb. cbn [bytes_cmp]. rewrite Z.compare_refl. by apply IH.
    + rewrite bool_decide_eq_false_2.
      2:{ intros ->. change (b2z zero) with 0 in E. pose proof (b2z_range x). lia. }
      unfold bytes_leb. cbn [bytes_cmp]. apply Z.compare_lt_iff in E. by rewrite E.
Qed.

(** The row ids of the keys with a prefix *)
Definition key_id (prefix key : bytes) : option bytes :=
  if starts_with prefix key then Some (row_id (drop (length prefix) key)) else None.
Definition key_ids (prefix : bytes) (keys : list bytes) : list bytes := omap (key_id prefix) keys.

Lemma key_ids_sorted prefix (l : list (bytes * bytes)) :
  StronglySorted entry_lt l -> StronglySorted (fun a b => bytes_le a b) (key_ids prefix (map fst l)).
Proof.
  induction 1 as [|e l _ IH Hall]; [constructor|]. cbn [map key_ids omap list_omap]. unfold key_id at 1.
  destruct (starts_with prefix e.1) eqn:E; [|done]. constructor; [done|].
  apply Forall_forall. intros id (k & Hk & Hid)%list_elem_of_omap. apply list_elem_of_fmap in Hk as (e' & -> & He').
  unfold key_id in Hid. destruct (starts_with prefix e'.1) eqn:E'; [|done]. injection Hid as <-.
  apply starts_with_spec in E as [s Es], E' as [s' Es']. rewrite Es, Es', !drop_app_length. apply row_id_mono.
  rewrite Forall_forall in Hall. specialize (Hall _ He'). unfold entry_lt in Hall. apply klt_cmp in Hall. cbn in Hall.
  rewrite Es, Es', bytes_cmp_app in Hall. apply bytes_lt_le. by apply bytes_lt_cmp.
Qed.

Lemma count_sorted prefix keys last :
  StronglySorted (fun a b => bytes_le a b) (key_ids prefix keys) ->
  (forall i l, i ∈ key_ids prefix keys -> last = Some l -> bytes_le l i) ->
  count_row_ids prefix last keys =
  Z.of_nat (size (list_to_set (key_ids prefix keys) ∖ match last with Some l => {[l]} | None => ∅ end : gset bytes)).
Proof.
  revert last. induction keys as [|k keys IH]; intros last Hs Hl; cbn [count_row_ids key_ids omap list_omap] in *.
  { rewrite (proj2 (size_empty_iff _)); [done|]. set_solver. }
  unfold key_id at 1. unfold key_id at 1 in Hs. unfold key_id at 1 in Hl. fold (key_ids prefix keys) in *. unfold row_id in *.
  destruct (starts_with prefix k) eqn:E; [|by apply IH]. set (id := (split_row_id (drop (length prefix) k)).1) in *.
  apply StronglySorted_inv in Hs as [Hs Hall]. rewrite Forall_forall in Hall. cbn [list_to_set].
  case_bool_decide as Hlast.
  - subst last. rewrite IH; [|done|]; [|intros i l Hi; apply Hl; by constructor]. do 2 f_equal. set_solver.
  - rewrite IH; [|done|]; [|intros i l Hi [= <-]; by apply Hall].
    assert (Hid : id ∉ (match last with Some l => {[l]} | None => ∅ end : gset bytes)) by (destruct last; set_solver).
    assert (Hd : (match last with Some l => {[l]} | None => ∅ end : gset bytes) ## list_to_set (key_ids prefix keys) ∖ {[id]}).
    { destruct last as [l|]; [|set_solver]. intros x ->%elem_of_singleton [Hx%elem_of_list_to_set Hne]%elem_of_difference.
      apply Hne, elem_of_singleton. apply bytes_le_antisym; [|by apply Hall]. apply Hl; [constructor|done]. }
    set (L := match last with Some l => {[l]} | None => ∅ end : gset bytes) in *.
    set (ids := list_to_set (key_ids prefix keys) : gset bytes) in *.
    assert (({[id]} ∪ ids) ∖ L = {[id]} ∪ ids ∖ {[id]}) as ->.
    { apply set_eq. intros x. destruct (decide (x = id)) as [->|]; set_solver. }
    assert (size ({[id]} ∪ ids ∖ {[id]}) = (1 + size (ids ∖ {[id]}))%nat) as ->; [|lia].
    rewrite size_union by set_solver. by rewrite size_singleton.
Qed.

(** ** Rows of a table *)

Lemma dom_ingest (columns : option (list bytes)) (es : list Entry) (acc : Grouped) :
  dom (fold_left (ingest columns) es acc) = dom acc ∪ list_to_set (map en_row_id es).
Proof.
  revert acc. induction es as [|e es IH]; intros acc; cbn [fold_left map list_to_set]; [set_solver|].
  rewrite IH. unfold ingest. rewrite dom_insert_L. set_solver.
Qed.

Lemma entry_ids (prefix : bytes) (l : list (bytes * bytes)) :
  map en_row_id (omap (entry_of prefix None) l) = key_ids prefix (map fst l).
Proof.
  induction l as [|[k v] l IH]; [done|]. cbn [map key_ids omap list_omap]. unfold entry_of at 1, key_id at 1, row_id. cbn [fst].
  destruct (starts_with prefix k); [|exact IH]. destruct (split_row_id _) as [id [col|]]; cbn [wanted map en_row_id fst]; by rewrite IH.
Qed.

(** A pass over the keys counts the rows of a scan, if they are the keys of the range, in
    order. *)
Lemma count_rows_of_keys {T} `{RowStore T} `{Scheduler} (store : T) (table : bytes) :
  let prefix := table_prefix_key table in
  StronglySorted entry_lt (rs_range store prefix (prefix_end prefix)) ->
  rs_range_keys store prefix (prefix_end prefix) = map fst (rs_range store prefix (prefix_end prefix)) ->
  count_row_ids prefix None (rs_range_keys store prefix (prefix_end prefix)) = len (load_table_rows store table None).
Proof.
  intros prefix Hs Hkeys. rewrite Hkeys, count_sorted; [|by apply key_ids_sorted|done].
  rewrite load_table_rows_serial. unfold group_entries, finish_rows, collect_entries, len.
  rewrite length_map, length_btree_iter, <-size_dom, dom_ingest, entry_ids. do 2 f_equal. set_solver.
Qed.

(** ** COUNT over a table *)

Definition count_star_query (table : bytes) (s : Span) : SelectStmt :=
  mkSelectStmt None false [mkSelectItem (EFunction (mkIdent (bs "COUNT") s) [EColumn (ColStar s)] None s) None]
    (Some (FromTable (mkTableRef (mkIdent table s) None s))) [] None [] None [] None None None s.

(** [SELECT COUNT( * ) FROM t] counts the row ids in one pass over the keys. *)
Lemma count_star_by_keys {T I} `{RowStore T} `{RowStore I} `{ExecEnv} `{Scheduler} `{StdChoices}
    (store : T) (index : I) (schema : option QuerySchema) (table : bytes) (s : Span) (fuel : nat) :
  table <> [] ->
  execute_sql_on_with_schema store index schema (S fuel) (SSelect (count_star_query table s)) =
    Some (Ok [mkRecord [(bs "count", VInteger (Z.min (count_row_ids (table_prefix_key table) None
      (rs_range_keys store (table_prefix_key table) (prefix_end (table_prefix_key table)))) i64_max))]]).
Proof.
  intros Ht. destruct table as [|b table]; [done|]. set (n := count_row_ids _ _ _).
  cbn [execute_sql_on_with_schema]. reflexivity.
Qed.

(** ** Dropping a table *)

Definition has_prefix (prefixes : list bytes) (k : bytes) : bool := existsb (fun p => starts_with p k) prefixes.

(** The entries whose key does not satisfy [p] *)
Definition without (p : bytes -> bool) (m : gmap bytes bytes) : gmap bytes bytes := filter (fun e => p e.1 = false) m.

Lemma without_lookup p m k : without p m !! k = if p k then None else m !! k.
Proof.
  unfold without. destruct (m !! k) as [v|] eqn:E; [|rewrite (map_lookup_filter_None_2); [by destruct (p k)|by left]].
  destruct (p k) eqn:Ep.
  - apply map_lookup_filter_None_2. right. intros v' _. cbn. by rewrite Ep.
  - by apply map_lookup_filter_Some_2.
Qed.

Lemma zero_end_range (prefix k : bytes) :
  (bytes_le (prefix ++ [zero]) k /\ bytes_lt k (prefix_end (prefix ++ [zero]))) <-> starts_with (prefix ++ [zero]) k = true.
Proof.
  rewrite starts_with_spec. apply prefix_end_range. unfold all_ff. intros [_ Hf]%Forall_app. inversion Hf. done.
Qed.

Section purge.
Context {T} `{EngineLaws T}.

Lemma delete_keys (keys : list bytes) (n : Z) (store : T) :
  engine_ok store -> NoDup keys -> (forall k, k ∈ keys -> k <> [] /\ is_Some (contents store !! k)) ->
  exists store', for_each (fun key (s : Z * T) => let? r := se_delete s.2 key in Ok (s.1 + 1, r.2)) keys (n, store) =
      Ok (n + len keys, store') /\
    engine_ok store' /\ contents store' = without (fun k => bool_decide (k ∈ keys)) (contents store).
Proof.
  revert n store. induction keys as [|k keys IH]; intros n store Hok Hnd Hk; cbn [for_each].
  { exists store. rewrite Z.add_0_r. split_and!; [done..|]. apply map_eq. intros k. rewrite without_lookup.
    by rewrite bool_decide_eq_false_2 by set_solver. }
  apply NoDup_cons in Hnd as [Hnin Hnd]. destruct (Hk k) as [Hne Hin]; [constructor|].
  destruct (delete_law store k Hok Hne) as (store1 & E & Hok1 & C1). cbn [snd fst]. rewrite E. cbn [obind snd fst].
  destruct (IH (n + 1) store1) as (store' & E' & Hok' & C'); [done|done| |].
  { intros k' Hk'. destruct (Hk k') as [? Hin']; [by constructor|]. split; [done|]. rewrite C1, lookup_delete_ne; [done|congruence]. }
  exists store'. rewrite E'. split_and!; [rewrite len_cons; do 2 f_equal; lia|done|]. rewrite C', C1. apply map_eq. intros x.
  rewrite !without_lookup. destruct (decide (x = k)) as [->|Hx].
  - rewrite lookup_delete_eq, (bool_decide_eq_true_2 (k ∈ k :: keys)) by set_solver. by destruct (bool_decide (k ∈ keys)).
  - rewrite lookup_delete_ne by done. by rewrite (bool_decide_ext (x ∈ k :: keys) (x ∈ keys)) by set_solver.
Qed.

Definition msize (m : gmap bytes bytes) : Z := Z.of_nat (size m).

Lemma without_size (p : bytes -> bool) (m : gmap bytes bytes) (keys : list bytes) :
  NoDup keys -> (forall k, k ∈ keys <-> p k = true /\ is_Some (m !! k)) -> msize m = msize (without p m) + len keys.
Proof.
  intros Hnd Hk. unfold msize, without, len. rewrite <-(map_filter_union_complement (fun e => p e.1 = false) m) at 1.
  rewrite map_size_disj_union by apply map_disjoint_filter_complement.
  enough (length keys = size (filter (fun e => ~ p e.1 = false) m)) as -> by lia.
  rewrite <-size_dom. rewrite <-(size_list_to_set (C := gset bytes) keys) by done. f_equal. apply set_eq. intros k.
  rewrite elem_of_list_to_set, Hk, elem_of_dom. split.
  - intros [Hp [v Hv]]. exists v. apply map_lookup_filter_Some_2; [done|]. cbn. by rewrite Hp.
  - intros [v [Hv Hp]%map_lookup_filter_Some]. cbn in Hp. split; [by destruct (p k)|by eexists].
Qed.

Lemma purge_prefix_spec (prefix : bytes) (n : Z) (store : T) :
  engine_ok store ->
  exists store', purge_prefix (prefix ++ [zero]) (n, store) = Ok (n + (msize (contents store) - msize (contents store')), store') /\
    engine_ok store' /\ contents store' = without (starts_with (prefix ++ [zero])) (contents store).
Proof.
  intros Hok. unfold purge_prefix. cbn [snd]. rewrite rs_keys_law, rs_range_law by done. cbn [rs_content engine_rows_laws].
  set (keys := map fst _). set (p := starts_with (prefix ++ [zero])).
  assert (Hnd : NoDup keys).
  { subst keys. eapply sublist_NoDup; [apply (NoDup_btree_iter_keys (contents store))|]. apply fmap_sublist, sublist_filter. }
  assert (Hk : forall k, k ∈ keys <-> p k = true /\ is_Some (contents store !! k)).
  { intros k. subst keys p. rewrite <-zero_end_range, list_elem_of_fmap. split.
    - intros ([k' v] & -> & [[H1 H2] Hin]%list_elem_of_filter). cbn in *. apply elem_of_btree_iter in Hin.
      rewrite bytes_leb_ltb, H1. split; [done|by eexists].
    - intros [[H1 H2] [v Hv]]. exists (k, v). split; [done|]. apply list_elem_of_filter. cbn. rewrite elem_of_btree_iter.
      rewrite bytes_leb_ltb in H1. split; [|done]. split; [by apply negb_true_iff|done]. }
  destruct (delete_keys keys n store Hok Hnd) as (store' & -> & Hok' & C').
  { intros k [Hp Hs]%Hk. split; [|done]. intros ->. subst p. apply starts_with_spec in Hp as [s Hs']. by destruct prefix. }
  assert (C : contents store' = without p (contents store)).
  { rewrite C'. apply map_eq. intros k. rewrite !without_lookup. case_bool_decide as Hin; [apply Hk in Hin as [-> _]; done|].
    destruct (p k) eqn:E; [|done]. destruct (contents store !! k) eqn:Ek; [|done]. destruct Hin. apply Hk. split; [done|by eexists]. }
  exists store'. split_and!; [|done..]. do 2 f_equal. rewrite (without_size p _ keys) by done. rewrite C. lia.
Qed.

Lemma purge_prefixes_spec (prefixes : list bytes) (n : Z) (store : T) :
  engine_ok store ->
  exists store', for_each purge_prefix (map (fun p => p ++ [zero]) prefixes) (n, store) =
      Ok (n + (msize (contents store) - msize (contents store')), store') /\
    engine_ok store' /\ contents store' = without (has_prefix (map (fun p => p ++ [zero]) prefixes)) (contents store).
Proof.
  revert n store. induction prefixes as [|p prefixes IH]; intros n store Hok; cbn [map for_each].
  - exists store. split_and!; [do 2 f_equal; lia|done|]. apply map_eq. intros k. by rewrite without_lookup.
  - destruct (purge_prefix_spec p n store Hok) as (s1 & -> & Hok1 & C1). cbn [obind].
    destruct (IH (n + (msize (contents store) - msize (contents s1))) s1 Hok1) as (s2 & -> & Hok2 & C2).
    exists s2. split_and!; [do 2 f_equal; lia|done|]. rewrite C2, C1. apply map_eq. intros k. rewrite !without_lookup.
    unfold has_prefix. cbn [existsb]. by destruct (starts_with _ k), (existsb _ _).
Qed.

(** DROP TABLE leaves no entry of the table's rows, indexes and statistics and no primary-key
    marker, keeps every other entry, and returns the number of entries it removed. *)
Theorem purge_table_data_spec (store : T) (table : bytes) :
  engine_ok store ->
  exists n store', purge_table_data store table = Ok (n, store') /\ engine_ok store' /\
    (forall k, contents store' !! k =
       if has_prefix (table_prefixes table) k || bool_decide (k = marker_key table) then None else contents store !! k) /\
    n = msize (contents store) - msize (without (has_prefix (table_prefixes table)) (contents store)).
Proof.
  intros Hok. unfold purge_table_data.
  replace (table_prefixes table) with (map (fun p => p ++ [zero])
    [table; ENTRY_PREFIX ++ table; META_PREFIX ++ table; STATS_PREFIX ++ table])
    by (cbn [map]; unfold table_prefixes; by rewrite <-!app_assoc).
  destruct (purge_prefixes_spec [table; ENTRY_PREFIX ++ table; META_PREFIX ++ table; STATS_PREFIX ++ table] 0 store Hok)
    as (s1 & -> & Hok1 & C1). cbn [obind snd fst]. unfold unmark_row_id_column.
  destruct (delete_law s1 (marker_key table) Hok1) as (s2 & -> & Hok2 & C2); [done|]. cbn [obind snd fst].
  eexists _, s2. split_and!; [reflexivity|done| |by rewrite C1].
  intros k. rewrite C2, C1. case_bool_decide as Hk; [subst k; rewrite lookup_delete_eq; by destruct (has_prefix _ _)|].
  rewrite lookup_delete_ne by done. rewrite without_lookup, orb_false_r. done.
Qed.
End purge.

(** ** The hypotheses on small tables *)

Lemma packed_tables_ok rows : engine_ok (packed_tables rows).
Proof.
  unfold packed_tables. assert (engine_ok MemTable_new) as Hok by apply mem_wf_new. revert Hok. generalize MemTable_new.
  induction rows as [|[[table row] cols] rows IH]; intros t Hok; [done|]. cbn [fold_left]. apply IH. cbn [put_packed].
  set (k := packed_row_key _ _). assert (k <> []) as Hk by (subst k; unfold packed_row_key; by destruct (bs table)).
  by destruct (MemTable_put_ok t k (encode_row (map (fun c => (bs c.1, bs c.2)) cols)) Hok Hk) as (t' & -> & Hok' & _).
Qed.

Lemma purge_table_data_spec_witness :
  engine_ok shop /\ exists n store', purge_table_data shop (bs "orders") = Ok (n, store') /\ n = 2 /\
    contents store' !! packed_row_key (bs "orders") (bs "1") = None.
Proof.
  assert (Hok : engine_ok shop) by apply packed_tables_ok. split; [exact Hok|].
  destruct (purge_table_data_spec shop (bs "orders") Hok) as (n & store' & E & _ & C & N).
  exists n, store'. split; [exact E|]. split; [rewrite N; vm_compute; reflexivity|]. rewrite C. vm_compute. reflexivity.
Defined.
