(* ===== verification/Catalog.v ===== *)
(** * Errors of the engine, the schema catalog and authorization
      (crates/noedb-engine/src: error.rs, txn.rs: txn_err, schema.rs, session.rs, security.rs)

    The error type joins the errors of the other crates, with the conversions into it
    and its gRPC code.  The catalog is a map of tables by name with an epoch; it is saved as a JSON
    snapshot whose text form (serde_json) is a parameter.  The last part decides
    which statements a role may run. *)

From S2P Require Import Prelude BTree StorageError Txn Raft Text Float64 Tokens Lexer Ast Parser Utf8 Value Build.

(** ** error.rs *)

(** [schema.rs]: SchemaError *)
Inductive SchemaError : Type :=
| TableExists (name : bytes)
| SchemaUnknownTable (name : bytes)
| ColumnExists (name : bytes).

(** Messages that the code formats from other errors are their text only. *)
Inductive EngineError : Type :=
| InvalidSql (msg : string)
| EParse (e : ParseError)
| EExec (e : ExecError)
| ERaft (e : RaftError)
| EStorage (e : StorageError)
| ECodec (msg : string)
| CommandTooLarge
| NoLeader
| EUnsupportedStatement
| ESerializationFailure (msg : string)
| AccessDenied (msg : string)
| RateLimited (msg : string)
| Timeout (ms : Z)
| Crypto (msg : string)
| ESchema (e : SchemaError).

Definition grpc_code (e : EngineError) : Z :=
  match e with
  | EStorage (ResourceExhausted _) | RateLimited _ => 8
  | AccessDenied _ => 7
  | Timeout _ => 4
  | _ => 1
  end.

Definition is_resource_exhausted (e : EngineError) : bool :=
  match e with EStorage (ResourceExhausted _) => true | _ => false end.

Definition txn_err (e : TxnError) : EngineError :=
  match e with
  | TxnStorage msg => EStorage (Io msg)
  | SerializationFailure msg => ESerializationFailure msg
  | DeadlockVictim => ESerializationFailure "deadlock detected"
  | WaitTimeout => ESerializationFailure "transaction wait timeout"
  | NoActiveTxn => InvalidSql "no active transaction"
  | TxnAlreadyActive => InvalidSql "transaction already in progress"
  end.


(** ** schema.rs *)

Record ColumnMeta : Type := mkColumnMeta {
  cm_name : bytes; cm_type : SqlType; cm_not_null : bool; cm_primary_key : bool; cm_unique : bool }.
Record TableSchema : Type := mkTableSchema {
  ts_name : bytes; ts_columns : list ColumnMeta; ts_primary_key : list bytes; ts_version : Z }.
Record SchemaCatalog : Type := mkSchemaCatalog { sc_epoch : Z; sc_tables : gmap bytes TableSchema }.

Definition SchemaCatalog_default : SchemaCatalog := mkSchemaCatalog 0 ∅.

Definition sc_contains (c : SchemaCatalog) (name : bytes) : bool := bool_decide (is_Some (sc_tables c !! name)).

Definition create_table (c : SchemaCatalog) (name : bytes) (version_ts : Z) (columns : list ColumnMeta)
    (primary_key : list bytes) : outcome SchemaError SchemaCatalog :=
  if bool_decide (is_Some (sc_tables c !! name)) then Err (TableExists name)
  else Ok (mkSchemaCatalog (Z.max (sc_epoch c) version_ts)
             (<[name := mkTableSchema name columns primary_key version_ts]> (sc_tables c))).

Definition drop_table (c : SchemaCatalog) (name : bytes) : outcome SchemaError SchemaCatalog :=
  match sc_tables c !! name with
  | None => Err (SchemaUnknownTable name)
  | Some _ => Ok (mkSchemaCatalog (sc_epoch c) (delete name (sc_tables c)))
  end.

Definition add_column (c : SchemaCatalog) (table : bytes) (column : ColumnMeta) (version_ts : Z)
    : outcome SchemaError SchemaCatalog :=
  match sc_tables c !! table with
  | None => Err (SchemaUnknownTable table)
  | Some entry =>
      if existsb (fun m => bool_decide (cm_name m = cm_name column)) (ts_columns entry)
      then Err (ColumnExists (cm_name column))
      else
        let pk := if cm_primary_key column && negb (bool_decide (cm_name column ∈ ts_primary_key entry))
                  then ts_primary_key entry ++ [cm_name column] else ts_primary_key entry in
        Ok (mkSchemaCatalog (Z.max (sc_epoch c) version_ts)
              (<[table := mkTableSchema (ts_name entry) (ts_columns entry ++ [column]) pk version_ts]> (sc_tables c)))
  end.

Definition column_names (c : SchemaCatalog) (table : bytes) : option (list bytes) :=
  (fun t => map cm_name (ts_columns t)) <$> sc_tables c !! table.

Definition sc_column (c : SchemaCatalog) (table column : bytes) : option ColumnMeta :=
  t ← sc_tables c !! table; List.find (fun m => bool_decide (cm_name m = column)) (ts_columns t).

Definition query_schema (c : SchemaCatalog) : QuerySchema :=
  from_tables (map (fun e => (e.1, map cm_name (ts_columns e.2))) (btree_iter (sc_tables c))).

Definition rollback_create (c : SchemaCatalog) (name : bytes) : SchemaCatalog :=
  mkSchemaCatalog (sc_epoch c) (delete name (sc_tables c)).

Definition sc_version (c : SchemaCatalog) : Z := sc_epoch c.

(** *** The snapshot *)

Record PersistedColumn : Type := mkPersistedColumn {
  pc_name : bytes; pc_type : bytes; pc_vector_dim : option Z; pc_not_null : bool; pc_primary_key : bool; pc_unique : bool }.
Record PersistedTable : Type := mkPersistedTable {
  pt_name : bytes; pt_columns : list PersistedColumn; pt_primary_key : list bytes; pt_version : Z }.
Record SchemaSnapshot : Type := mkSchemaSnapshot { ss_epoch : Z; ss_tables : list PersistedTable }.

Definition sql_type_tag (ty : SqlType) : bytes :=
  match ty with
  | TyInt => bs "INT"
  | TyBoolean => bs "BOOL"
  | TyFloat => bs "FLOAT"
  | TyVarchar _ => bs "VARCHAR"
  | TyText => bs "TEXT"
  | TyDate => bs "DATE"
  | TyTimestamp => bs "TIMESTAMP"
  | TyVector _ => bs "VECTOR"
  | TyNamed s => s
  end.

Definition decode_sql_type (tag : bytes) (vector_dim : option Z) : SqlType :=
  if bool_decide (tag ∈ [bs "INT"; bs "INTEGER"]) then TyInt
  else if bool_decide (tag ∈ [bs "BOOL"; bs "BOOLEAN"]) then TyBoolean
  else if bool_decide (tag ∈ [bs "FLOAT"; bs "REAL"; bs "DOUBLE"]) then TyFloat
  else if bool_decide (tag = bs "TEXT") then TyText
  else if bool_decide (tag = bs "DATE") then TyDate
  else if bool_decide (tag = bs "TIMESTAMP") then TyTimestamp
  else if bool_decide (tag = bs "VECTOR") then TyVector (default 0 vector_dim)
  else if bool_decide (tag = bs "VARCHAR") then TyVarchar None
  else TyNamed tag.

Definition persist_column (m : ColumnMeta) : PersistedColumn :=
  mkPersistedColumn (cm_name m) (sql_type_tag (cm_type m))
    (match cm_type m with TyVector dim => Some dim | _ => None end) (cm_not_null m) (cm_primary_key m) (cm_unique m).
Definition snapshot_of (c : SchemaCatalog) : SchemaSnapshot :=
  mkSchemaSnapshot (sc_epoch c)
    (map (fun e : bytes * TableSchema =>
            mkPersistedTable (ts_name e.2) (map persist_column (ts_columns e.2)) (ts_primary_key e.2) (ts_version e.2))
       (btree_iter (sc_tables c))).

Definition restore_column (p : PersistedColumn) : ColumnMeta :=
  mkColumnMeta (pc_name p) (decode_sql_type (pc_type p) (pc_vector_dim p)) (pc_not_null p) (pc_primary_key p) (pc_unique p).
Definition catalog_of (s : SchemaSnapshot) : SchemaCatalog :=
  mkSchemaCatalog (ss_epoch s)
    (fold_left (fun m t => <[pt_name t := mkTableSchema (pt_name t) (map restore_column (pt_columns t)) (pt_primary_key t)
                                            (pt_version t)]> m) (ss_tables s) ∅).

(** serde_json: writing a snapshot and reading one *)
Class JsonText (A : Type) : Type := { to_json : A -> bytes; from_json : bytes -> option A }.
Class JsonLaws (A : Type) `{JsonText A} : Type := {
  json_round_trip : forall a, from_json (to_json a) = Some a;
  json_utf8 : forall a, exists cs, Forall is_char cs /\ to_json a = utf8 cs }.

(** The file [schema.catalog.json]: [None] when it does not exist. *)
Definition SchemaCatalog_load `{JsonText SchemaSnapshot} (file : option bytes) : outcome string SchemaCatalog :=
  match file with
  | None => Ok SchemaCatalog_default
  | Some raw =>
      match from_utf8 raw with
      | None => Err "stream did not contain valid UTF-8"%string
      | Some raw => match from_json raw with
                    | Some snap => Ok (catalog_of snap)
                    | None => Err "invalid snapshot"%string
                    end
      end
  end.
Definition SchemaCatalog_save `{JsonText SchemaSnapshot} (c : SchemaCatalog) : option bytes := Some (to_json (snapshot_of c)).

(** ** session.rs *)

Record SessionContext : Type := mkSessionContext { se_tenant : bytes; se_role : bytes }.
Definition SessionContext_dev : SessionContext := mkSessionContext (bs "default") (bs "noedb_admin").

(** ** security.rs *)

Definition ADMIN_ROLES : list bytes := [bs "admin"; bs "root"; bs "noedb_admin"].
Definition is_admin_role (role : bytes) : bool := existsb (fun r => eq_ignore_case role r) ADMIN_ROLES.

(** [trim_end_matches(';')] *)
Fixpoint drop_semicolons (r : bytes) : bytes :=
  match r with
  | x3b :: r => drop_semicolons r
  | _ => r
  end.
Definition trim_end_semicolons (s : bytes) : bytes := rev (drop_semicolons (rev s)).

Definition reject_multi_statement (sql : bytes) : outcome EngineError unit :=
  let body := trim (trim_end_semicolons (trim sql)) in
  if existsb (fun b => bool_decide (b = x3b)) body
  then Err (InvalidSql "multiple statements per request are forbidden")
  else Ok tt.

Definition requires_admin (stmt : Statement) : bool :=
  match stmt with
  | SCreateTable _ | SDropTable _ | SCreateIndex _ | SEnableRls _ | SCreatePolicy _ | SAnalyzeTable _ | SAlterTable _ => true
  | _ => false
  end.

Definition authorize_statement (role : bytes) (stmt : Statement) : outcome EngineError unit :=
  if is_admin_role role then Ok tt
  else if requires_admin stmt then Err (AccessDenied "DDL and security statements require admin role")
  else Ok tt.

Definition authorize_role_change (current new_role : bytes) : outcome EngineError unit :=
  if is_admin_role new_role && negb (is_admin_role current)
  then Err (AccessDenied "SET ROLE to admin requires admin privileges")
  else Ok tt.

(** ** The snapshot reads back *)

Lemma insert_all_rev {V} (l : list (bytes * V)) : insert_all l ∅ = list_to_map (reverse l).
Proof. unfold insert_all, reverse, rev'. by rewrite <-fold_left_rev_right, rev_alt. Qed.

(** Inserting what an iteration returns rebuilds the map. *)
Lemma insert_all_fmap {V W} (g : V -> W) (m : gmap bytes V) :
  insert_all (map (fun e => (e.1, g e.2)) (btree_iter m)) ∅ = g <$> m.
Proof.
  rewrite insert_all_rev, <-(list_to_map_to_list (g <$> m)). rewrite map_to_list_fmap.
  assert (E : forall l : list (bytes * V), (map (fun e => (e.1, g e.2)) l).*1 = l.*1).
  { intros l. change (map ?h l) with (h <$> l). rewrite <-list_fmap_compose. by apply list_fmap_ext. }
  apply list_to_map_proper.
  - rewrite fmap_reverse, reverse_Permutation, E. apply NoDup_btree_iter_keys.
  - rewrite reverse_Permutation. unfold btree_iter. by rewrite merge_sort_Permutation.
Qed.

Definition reload_column (m : ColumnMeta) : ColumnMeta := restore_column (persist_column m).
Definition reload_table (t : TableSchema) : TableSchema :=
  mkTableSchema (ts_name t) (map reload_column (ts_columns t)) (ts_primary_key t) (ts_version t).

(** What every operation keeps: tables are stored under their own names, no table is
    newer than the catalog, column names are distinct within a table. *)
Record catalog_wf (c : SchemaCatalog) : Prop := {
  wf_names : forall name t, sc_tables c !! name = Some t -> ts_name t = name;
  wf_versions : forall name t, sc_tables c !! name = Some t -> ts_version t <= sc_epoch c;
  wf_columns : forall name t, sc_tables c !! name = Some t -> NoDup (map cm_name (ts_columns t)) }.

Lemma reload_catalog c : catalog_wf c ->
  catalog_of (snapshot_of c) = mkSchemaCatalog (sc_epoch c) (reload_table <$> sc_tables c).
Proof.
  intros wf. unfold catalog_of, snapshot_of. cbn [ss_epoch ss_tables]. f_equal. rewrite <-insert_all_fmap.
  assert (H : forall e, e ∈ btree_iter (sc_tables c) -> ts_name e.2 = e.1).
  { intros [k t] Hin. apply elem_of_btree_iter in Hin. by apply (wf_names _ wf). }
  revert H. unfold insert_all. generalize (∅ : gmap bytes TableSchema), (btree_iter (sc_tables c)). intros m l. revert m.
  induction l as [|[k t] l IH]; intros m Hl; [done|]. cbn [map fold_left pt_name pt_columns pt_primary_key pt_version fst snd].
  pose proof (Hl (k, t) ltac:(left)) as Hk. cbn [fst snd] in Hk. subst k. rewrite map_map. apply IH. intros e He. apply Hl. by right.
Qed.

(** The types that a reload keeps: not a VARCHAR with a length, nor a named type that
    is spelled like a built-in one. *)
Definition BUILTIN_TAGS : list bytes :=
  [bs "INT"; bs "INTEGER"; bs "BOOL"; bs "BOOLEAN"; bs "FLOAT"; bs "REAL"; bs "DOUBLE"; bs "TEXT"; bs "DATE"; bs "TIMESTAMP";
   bs "VECTOR"; bs "VARCHAR"].
Definition type_survives (ty : SqlType) : bool :=
  match ty with
  | TyVarchar max_len => bool_decide (max_len = None)
  | TyNamed s => bool_decide (s ∉ BUILTIN_TAGS)
  | _ => true
  end.

Lemma decode_named s dim : decode_sql_type s dim = TyNamed s <-> s ∉ BUILTIN_TAGS.
Proof.
  unfold decode_sql_type, BUILTIN_TAGS.
  repeat case_bool_decide; set_unfold; naive_solver.
Qed.

Lemma reload_type ty dim : dim = match ty with TyVector d => Some d | _ => None end ->
  decode_sql_type (sql_type_tag ty) dim = ty <-> type_survives ty = true.
Proof.
  intros ->. destruct ty; try (split; intros; [done|vm_compute; reflexivity]).
  - split; [|by intros ->%bool_decide_eq_true]. vm_compute. intros [= <-]. reflexivity.
  - cbn [type_survives sql_type_tag]. by rewrite bool_decide_eq_true, decode_named.
Qed.

Lemma reload_column_id m : reload_column m = m <-> type_survives (cm_type m) = true.
Proof.
  destruct m as [n ty nn pk u]. unfold reload_column, restore_column, persist_column.
  cbn [cm_name cm_type cm_not_null cm_primary_key cm_unique pc_name pc_type pc_vector_dim pc_not_null pc_primary_key pc_unique].
  rewrite <-(reload_type ty _ eq_refl). split; [by intros [= E]|by intros ->].
Qed.

Lemma map_id_iff {A} (f : A -> A) l : map f l = l <-> forall x, x ∈ l -> f x = x.
Proof.
  induction l as [|a l IH]; [by split; [intros _ x ?%not_elem_of_nil|]|]. cbn [map]. split.
  - intros [= E1 E2] x [->|Hx]%elem_of_cons; [done|]. by apply IH.
  - intros H. rewrite (H a) by left. f_equal. apply IH. intros x Hx. apply H. by right.
Qed.

Lemma reload_table_id t : reload_table t = t <-> forall m, m ∈ ts_columns t -> type_survives (cm_type m) = true.
Proof.
  destruct t as [n cols pk v]. unfold reload_table. cbn [ts_name ts_columns ts_primary_key ts_version].
  setoid_rewrite <-reload_column_id. rewrite <-map_id_iff. split; [by intros [= E]|by intros ->].
Qed.

Lemma fmap_id_iff {V} (g : V -> V) (m : gmap bytes V) : g <$> m = m <-> forall k v, m !! k = Some v -> g v = v.
Proof.
  rewrite map_eq_iff. setoid_rewrite lookup_fmap. split; intros H k.
  - intros v E. specialize (H k). rewrite E in H. by injection H.
  - destruct (m !! k) as [v|] eqn:E; [cbn; f_equal; by apply (H k)|done].
Qed.

(** C40. Saving the catalog and loading it again gives the same catalog exactly when no
    column has a type that its tag does not keep: VARCHAR(n) loses its length, and a
    named type spelled like a built-in one becomes that one. *)
Theorem catalog_reload `{JsonLaws SchemaSnapshot} (c : SchemaCatalog) : catalog_wf c ->
  SchemaCatalog_load (SchemaCatalog_save c) = Ok c <->
  forall name t m, sc_tables c !! name = Some t -> m ∈ ts_columns t -> type_survives (cm_type m) = true.
Proof.
  intros wf. unfold SchemaCatalog_load, SchemaCatalog_save. destruct (json_utf8 (snapshot_of c)) as (cs & Hcs & E).
  rewrite E, from_utf8_ok by done. rewrite <-E, json_round_trip, (reload_catalog c wf).
  transitivity (reload_table <$> sc_tables c = sc_tables c).
  - destruct c as [e ts]. cbn. split; [by intros [= ->]|by intros ->].
  - rewrite fmap_id_iff. setoid_rewrite reload_table_id. naive_solver.
Qed.

(** ** Histories of the catalog *)

Inductive catalog_step (c : SchemaCatalog) : SchemaCatalog -> Prop :=
| step_create name ts cols pk c' : NoDup (map cm_name cols) -> create_table c name ts cols pk = Ok c' -> catalog_step c c'
| step_drop name c' : drop_table c name = Ok c' -> catalog_step c c'
| step_add table col ts c' : add_column c table col ts = Ok c' -> catalog_step c c'
| step_rollback name : catalog_step c (rollback_create c name)
| step_reload : catalog_step c (catalog_of (snapshot_of c)).

Lemma wf_insert c name t ts : catalog_wf c -> ts_name t = name -> ts_version t = ts -> NoDup (map cm_name (ts_columns t)) ->
  catalog_wf (mkSchemaCatalog (Z.max (sc_epoch c) ts) (<[name := t]> (sc_tables c))).
Proof.
  intros wf Hn Hv Hc. split; cbn [sc_tables sc_epoch]; intros n' t' [[<- <-]|[? E]]%lookup_insert_Some; try done; try lia.
  - by apply (wf_names _ wf).
  - pose proof (wf_versions _ wf _ _ E). lia.
  - by apply (wf_columns _ wf _ _ E).
Qed.

Lemma wf_delete c name : catalog_wf c -> catalog_wf (mkSchemaCatalog (sc_epoch c) (delete name (sc_tables c))).
Proof. intros [? ? ?]. split; cbn [sc_tables sc_epoch]; intros n' t' [? E]%lookup_delete_Some; eauto. Qed.

Lemma catalog_step_wf c c' : catalog_wf c -> catalog_step c c' -> catalog_wf c'.
Proof.
  intros wf [name ts cols pk c2 Hnd E|name c2 E|table col ts c2 E|name|].
  - unfold create_table in E. case_bool_decide; [done|]. injection E as <-. by apply wf_insert.
  - unfold drop_table in E. case_match; [|done]. injection E as <-. by apply wf_delete.
  - unfold add_column in E. destruct (sc_tables c !! table) as [t|] eqn:Et; [|done].
    destruct (existsb _ _) eqn:Hx; [done|]. injection E as <-. apply wf_insert; try done.
    { by apply (wf_names _ wf _ _ Et). }
    cbn [ts_columns]. rewrite map_app. apply NoDup_app. split; [by apply (wf_columns _ wf _ _ Et)|].
    split; [|apply NoDup_singleton]. intros n Hn ->%list_elem_of_singleton.
    apply list_elem_of_fmap in Hn as (m & Hm & Hin). rewrite <-not_true_iff_false, existsb_exists in Hx. apply Hx.
    exists m. rewrite bool_decide_eq_true. by rewrite <-list_elem_of_In.
  - by apply wf_delete.
  - rewrite (reload_catalog c wf). split; cbn [sc_tables sc_epoch]; intros n' t' (t & <- & E)%lookup_fmap_Some.
    + by apply (wf_names _ wf _ _ E).
    + by apply (wf_versions _ wf _ _ E).
    + cbn [reload_table ts_columns]. rewrite map_map. by apply (wf_columns _ wf _ _ E).
Qed.

Lemma catalog_history_wf c : rtc catalog_step SchemaCatalog_default c -> catalog_wf c.
Proof.
  remember SchemaCatalog_default as c0 eqn:E0. assert (H0 : catalog_wf c0) by (subst; by split).
  clear E0. induction 1; [done|]. eauto using catalog_step_wf.
Qed.

(** In every history of the catalog (tables created with distinct columns, dropped,
    extended, rolled back, the catalog reloaded) tables stay under their own names,
    no table is newer than the catalog's epoch, no table gets two columns of one name,
    and the planner's view of a table has exactly its column names. *)
Theorem catalog_invariant (c : SchemaCatalog) : rtc catalog_step SchemaCatalog_default c ->
  catalog_wf c /\ forall table, columns_for (query_schema c) table = column_names c table.
Proof.
  intros Hrtc. split; [by apply catalog_history_wf|]. intros table.
  unfold columns_for, query_schema, from_tables, column_names. cbn [qs_tables].
  change (fold_left _ ?l ∅) with (insert_all l ∅).
  rewrite (insert_all_fmap (fun t => map cm_name (ts_columns t))). apply lookup_fmap.
Qed.

(** ** A text codec

    Any countable type has a text form with the laws of [JsonLaws]: a brace and the
    binary digits of its code. *)
Fixpoint digits_of (p : positive) : bytes :=
  match p with xH => [] | xO p => x30 :: digits_of p | xI p => x31 :: digits_of p end.
Fixpoint of_digits (b : bytes) : positive :=
  match b with [] => xH | x31 :: b => xI (of_digits b) | _ :: b => xO (of_digits b) end.

Definition digit_codes (p : positive) : list Z := map b2z (digits_of p).

Lemma of_digits_of p : of_digits (digits_of p) = p.
Proof. induction p as [p IH|p IH|]; cbn; by rewrite ?IH. Qed.
Lemma digits_codes p : digits_of p = utf8 (digit_codes p) /\ Forall is_char (digit_codes p).
Proof.
  unfold digit_codes, utf8. induction p as [p [E F]|p [E F]|]; cbn [digits_of map concat].
  1-2: split; [by rewrite E at 1|constructor; [unfold is_char; cbn; lia|done]].
  by split; [|constructor].
Qed.

Definition coded_text {A} `{Countable A} : JsonText A :=
  {| to_json a := x7b :: digits_of (encode a); from_json b := match b with [] => None | _ :: b => decode (of_digits b) end |}.
#[program] Definition coded_text_laws {A} `{Countable A} : @JsonLaws A coded_text := {| json_round_trip := _; json_utf8 := _ |}.
Next Obligation. intros A ?? a. cbn. by rewrite of_digits_of, decode_encode. Qed.
Next Obligation.
  intros A ?? a. cbn. destruct (digits_codes (encode a)) as [E F]. exists (0x7b :: digit_codes (encode a)).
  split; [constructor; [unfold is_char; lia|done]|]. cbn. by rewrite E.
Qed.

#[global] Instance PersistedColumn_eq_dec : EqDecision PersistedColumn.
Proof. solve_decision. Defined.
#[global] Instance PersistedTable_eq_dec : EqDecision PersistedTable.
Proof. solve_decision. Defined.
#[global] Instance SchemaSnapshot_eq_dec : EqDecision SchemaSnapshot.
Proof. solve_decision. Defined.
#[global] Instance PersistedColumn_countable : Countable PersistedColumn.
Proof.
  refine (inj_countable' (fun p => (pc_name p, pc_type p, pc_vector_dim p, pc_not_null p, pc_primary_key p, pc_unique p))
    (fun '(n, t, d, nn, pk, u) => mkPersistedColumn n t d nn pk u) _). by intros [].
Defined.
#[global] Instance PersistedTable_countable : Countable PersistedTable.
Proof.
  refine (inj_countable' (fun p => (pt_name p, pt_columns p, pt_primary_key p, pt_version p))
    (fun '(n, c, k, v) => mkPersistedTable n c k v) _). by intros [].
Defined.
#[global] Instance SchemaSnapshot_countable : Countable SchemaSnapshot.
Proof.
  refine (inj_countable' (fun s => (ss_epoch s, ss_tables s)) (fun '(e, t) => mkSchemaSnapshot e t) _). by intros [].
Defined.

(** A catalog with one table, built by two steps *)
Definition demo_column (name : string) (ty : SqlType) : ColumnMeta := mkColumnMeta (bs name) ty false false false.
Definition demo_catalog (ty : SqlType) : SchemaCatalog :=
  mkSchemaCatalog 2 {[ bs "t" := mkTableSchema (bs "t") [demo_column "a" TyInt; demo_column "b" ty] [] 2 ]}.

Lemma demo_catalog_history ty : rtc catalog_step SchemaCatalog_default (demo_catalog ty).
Proof.
  eapply rtc_l; [apply (step_create _ (bs "t") 1 [demo_column "a" TyInt] []); [apply NoDup_singleton|reflexivity]|].
  eapply rtc_l; [apply (step_add _ (bs "t") (demo_column "b" ty) 2); vm_compute; reflexivity|]. apply rtc_refl.
Qed.

Lemma catalog_reload_witness :
  let load := @SchemaCatalog_load coded_text in let save := @SchemaCatalog_save coded_text in
  load (save (demo_catalog TyText)) = Ok (demo_catalog TyText) /\
  load (save (demo_catalog (TyVarchar (Some 10)))) <> Ok (demo_catalog (TyVarchar (Some 10))).
Proof.
  cbv zeta. split.
  - apply (catalog_reload (H0 := coded_text_laws)); [by apply catalog_history_wf, demo_catalog_history|].
    cbn [sc_tables demo_catalog]. intros name t m [<- <-]%lookup_singleton_Some Hm. cbn [ts_columns] in Hm.
    apply elem_of_cons in Hm as [->|[->|Hm]%elem_of_cons]; [done|done|by apply not_elem_of_nil in Hm].
  - intros E.
    pose proof (proj1 (catalog_reload (H0 := coded_text_laws) _ (catalog_history_wf _ (demo_catalog_history _))) E) as A.
    by specialize (A (bs "t") _ (demo_column "b" (TyVarchar (Some 10))) eq_refl ltac:(right; left)).
Defined.

Lemma catalog_invariant_witness :
  rtc catalog_step SchemaCatalog_default (demo_catalog TyText) /\ catalog_wf (demo_catalog TyText) /\
  columns_for (query_schema (demo_catalog TyText)) (bs "t") = Some [bs "a"; bs "b"].
Proof.
  split; [apply demo_catalog_history|]. destruct (catalog_invariant (demo_catalog TyText) (demo_catalog_history _)) as [wf E].
  split; [done|]. by rewrite E.
Defined.
