(* ===== verification/Guards.v ===== *)
(** * Resource guards of the engine
      (crates/noedb-engine/src: memory.rs, ratelimit.rs, shard.rs)

    The memory budget with its compare-and-swap loop as steps that threads
    interleave, the token bucket and the statement deadline.  Clock readings are
    arguments, in nanoseconds. *)

From S2P Require Import Prelude StorageError Text Float64 Value Catalog.

(** ** memory.rs *)

Definition DEFAULT_MEM_BUDGET_BYTES : Z := 6 * 1024 * 1024 * 1024.

Record MemoryBudget : Type := mkMemoryBudget { mb_limit : Z; mb_reserved : Z }.
Definition MemoryBudget_new (limit : Z) : MemoryBudget := mkMemoryBudget limit 0.
(** The environment variable, already parsed *)
Definition MemoryBudget_from_env (var : option Z) : MemoryBudget :=
  MemoryBudget_new (default DEFAULT_MEM_BUDGET_BYTES var).

Definition mb_gate_write (b : MemoryBudget) (memtable_bytes extra : Z) : outcome EngineError unit :=
  let need := sat 64 (memtable_bytes + extra) in
  if need >? mb_limit b
  then Err (EStorage (ResourceExhausted "memory budget exceeded - flush or retry later"))
  else Ok tt.

(** One round of the loop of [try_reserve]: the load and its test, ... *)
Definition reserve_load (b : MemoryBudget) (n : Z) : outcome EngineError Z :=
  let cur := mb_reserved b in
  if sat 64 (cur + n) >? mb_limit b then Err (EStorage (ResourceExhausted "memory reservation failed")) else Ok cur.
(** ... and the compare-and-exchange, which fails when another thread was faster.
    [cur + bytes] wraps around, as in a release build; with overflow checks it panics
    where it would. *)
Definition reserve_cas (b : MemoryBudget) (cur n : Z) : option MemoryBudget :=
  if mb_reserved b =? cur then Some (mkMemoryBudget (mb_limit b) (wrap 64 (cur + n))) else None.

(** [try_reserve] without other threads *)
Definition try_reserve (b : MemoryBudget) (n : Z) : outcome EngineError MemoryBudget :=
  let? cur := reserve_load b n in
  match reserve_cas b cur n with Some b' => Ok b' | None => Panic end.

(** [fetch_sub] wraps around. *)
Definition release (b : MemoryBudget) (n : Z) : MemoryBudget := mkMemoryBudget (mb_limit b) (wrap 64 (mb_reserved b - n)).

(** *** Threads

    [held]: the guards that exist; [waiting]: the threads between their load and
    their compare-and-exchange. *)
Record mem_threads : Type := mkMemThreads { th_budget : MemoryBudget; th_held : list Z; th_waiting : list (Z * Z) }.

Inductive mem_step : mem_threads -> mem_threads -> Prop :=
| mem_load b held w n cur : 0 <= n <= u64_max -> reserve_load b n = Ok cur ->
    mem_step (mkMemThreads b held w) (mkMemThreads b held ((cur, n) :: w))
| mem_swap b held w w' n cur b' : w ≡ₚ (cur, n) :: w' -> reserve_cas b cur n = Some b' ->
    mem_step (mkMemThreads b held w) (mkMemThreads b' (n :: held) w')
| mem_retry b held w w' n cur : w ≡ₚ (cur, n) :: w' -> reserve_cas b cur n = None ->
    mem_step (mkMemThreads b held w) (mkMemThreads b held w')
| mem_drop b held held' w n : held ≡ₚ n :: held' ->
    mem_step (mkMemThreads b held w) (mkMemThreads (release b n) held' w).

(** ** ratelimit.rs *)

Definition f64_ltb (a b : f64) : bool := match SFcompare a b with Some Lt => true | _ => false end.
(** [f64::max] and [f64::min] ignore a NaN. *)
Definition f64_max (a b : f64) : f64 :=
  match SFcompare a b with Some Lt => b | None => match a with S754_nan => b | _ => a end | _ => a end.
Definition f64_min (a b : f64) : f64 :=
  match SFcompare a b with Some Gt => b | None => match a with S754_nan => b | _ => a end | _ => a end.

Record Bucket : Type := mkBucket { bk_tokens : f64; bk_last : Z }.
Record RateLimiter : Type := mkRateLimiter { rl_qps : f64; rl_burst : f64; rl_buckets : gmap Z Bucket }.

Definition DEFAULT_QPS : f64 := f64_of_Z 5000.
Definition DEFAULT_BURST : f64 := f64_of_Z 10000.
Definition RateLimiter_new (qps burst : f64) : RateLimiter :=
  mkRateLimiter (f64_max qps (f64_of_Z 1)) (f64_max burst (f64_of_Z 1)) ∅.
Definition RateLimiter_from_env (qps burst : option f64) : RateLimiter :=
  RateLimiter_new (default DEFAULT_QPS qps) (default DEFAULT_BURST burst).

(** [now.duration_since(last).as_secs_f64()]; the difference saturates at zero. *)
Definition secs_since (now last : Z) : f64 :=
  let d := Z.max 0 (now - last) in
  f64_add (f64_of_Z (d / 1000000000)) (f64_div (f64_of_Z (d mod 1000000000)) (f64_of_Z 1000000000)).

Definition acquire (r : RateLimiter) (session_id now : Z) : outcome EngineError unit * RateLimiter :=
  let bucket := default (mkBucket (rl_burst r) now) (rl_buckets r !! session_id) in
  let elapsed := secs_since now (bk_last bucket) in
  let tokens := f64_min (f64_add (bk_tokens bucket) (f64_mul elapsed (rl_qps r))) (rl_burst r) in
  let set tokens := mkRateLimiter (rl_qps r) (rl_burst r) (<[session_id := mkBucket tokens now]> (rl_buckets r)) in
  if f64_ltb tokens (f64_of_Z 1) then (Err (RateLimited "session statement rate exceeded"), set tokens)
  else (Ok tt, set (f64_sub tokens (f64_of_Z 1))).

Definition forget (r : RateLimiter) (session_id : Z) : RateLimiter :=
  mkRateLimiter (rl_qps r) (rl_burst r) (delete session_id (rl_buckets r)).

Record Deadline : Type := mkDeadline { dl_start : Z; dl_limit_ms : Z }.
Definition Deadline_new (limit_ms now : Z) : Deadline := mkDeadline now limit_ms.
Definition dl_is_active (d : Deadline) : bool := negb (dl_limit_ms d =? 0).
Definition dl_check (d : Deadline) (now : Z) : outcome EngineError unit :=
  if dl_is_active d && (Z.max 0 (now - dl_start d) >=? dl_limit_ms d * 1000000) then Err (Timeout (dl_limit_ms d)) else Ok tt.

(** ** shard.rs

    The hasher of the standard library is a parameter. *)
Record ShardRouter : Type := mkShardRouter { sh_shards : Z }.
Definition ShardRouter_new (shards : Z) : ShardRouter := mkShardRouter (Z.max shards 1).
Definition shard_count (r : ShardRouter) : Z := sh_shards r.
Definition route (hash : bytes -> bytes -> Z) (r : ShardRouter) (table row : bytes) : Z := hash table row mod sh_shards r.

(** ** The memory budget is never exceeded *)

Definition mem_sum (l : list Z) : Z := fold_right Z.add 0 l.

Record mem_inv (limit : Z) (s : mem_threads) : Prop := {
  mi_limit : mb_limit (th_budget s) = limit;
  mi_sum : mb_reserved (th_budget s) = mem_sum (th_held s);
  mi_bound : mb_reserved (th_budget s) <= limit;
  mi_held : Forall (fun n => 0 <= n) (th_held s);
  mi_waiting : Forall (fun w => 0 <= w.1 /\ 0 <= w.2 /\ w.1 + w.2 <= limit) (th_waiting s) }.

Lemma mem_sum_perm l l' : l ≡ₚ l' -> mem_sum l = mem_sum l'.
Proof. unfold mem_sum. induction 1; cbn; lia. Qed.
Lemma mem_sum_nonneg l : Forall (fun n => 0 <= n) l -> 0 <= mem_sum l.
Proof. unfold mem_sum. induction 1; cbn; lia. Qed.

Lemma reserve_load_ok b n cur : reserve_load b n = Ok cur -> 0 <= mb_reserved b -> 0 <= n -> mb_limit b < u64_max ->
  cur = mb_reserved b /\ cur + n <= mb_limit b.
Proof.
  unfold reserve_load. destruct (Z.gtb_spec (sat 64 (mb_reserved b + n)) (mb_limit b)); [done|]. intros [= <-] ? ? ?. unfold sat, umax in *. change u64_max with (2 ^ 64 - 1) in *. lia.
Qed.

Lemma mem_step_inv limit s s' : 0 <= limit < u64_max -> mem_inv limit s -> mem_step s s' -> mem_inv limit s'.
Proof.
  intros Hl [I1 I2 I3 I4 I5] Hs. destruct Hs as [b held w n cur Hn E|b held w w' n cur b' P E|b held w w' n cur P E|b held held' w n P];
    cbn [th_budget th_held th_waiting] in *; try rewrite P in I5.
  - pose proof (mem_sum_nonneg _ I4). apply reserve_load_ok in E as [-> ?]; [|lia..]. split; try done. cbn. constructor; [cbn; lia|done].
  - apply Forall_cons in I5 as [(H1 & H2 & H3) ?]. cbn [fst snd] in H1, H2, H3. unfold reserve_cas in E.
    assert (W : wrap 64 (cur + n) = cur + n) by (unfold wrap; apply Z.mod_small; change u64_max with (2 ^ 64 - 1) in Hl; lia).
    rewrite W in E. destruct (Z.eqb_spec (mb_reserved b) cur); [|done]. injection E as <-.
    split; cbn; try done; [unfold mem_sum in *; lia|by constructor].
  - apply Forall_cons in I5 as [_ ?]. by split.
  - rewrite P in I4. apply Forall_cons in I4 as [? I4]. rewrite (mem_sum_perm _ _ P) in I2. change (mem_sum (n :: held')) with (n + mem_sum held') in I2.
    pose proof (mem_sum_nonneg _ I4). change u64_max with (2 ^ 64 - 1) in *.
    assert (W : wrap 64 (mb_reserved b - n) = mb_reserved b - n) by (unfold wrap; apply Z.mod_small; lia).
    split; cbn; rewrite ?W; try done; fold (mem_sum held') in *; lia.
Qed.

(** C39. For every limit but usize::MAX: however threads interleave the loads and the
    compare-and-exchanges of their reservations with releases, the counter is the sum
    of the guards that exist, which never exceeds the limit; so no addition wraps
    around, and no release below zero.  (With usize::MAX as limit the test saturates
    and the addition wraps: [unlimited_budget_wraps].) *)
Theorem memory_never_exceeded (limit : Z) (s : mem_threads) : 0 <= limit < u64_max ->
  rtc mem_step (mkMemThreads (MemoryBudget_new limit) [] []) s ->
  mb_reserved (th_budget s) = mem_sum (th_held s) /\ mem_sum (th_held s) <= limit.
Proof.
  intros Hl Hr. assert (I : mem_inv limit s).
  { remember (mkMemThreads _ [] []) as s0 eqn:E0. assert (I0 : mem_inv limit s0) by (subst; split; cbn; try done; try lia; constructor).
    clear E0. induction Hr; [done|]. eauto using mem_step_inv. }
  destruct I as [_ <- ? _ _]. by split.
Qed.

(** Two threads race for 100 bytes; the second one has to retry. *)
Lemma memory_never_exceeded_witness :
  let s := mkMemThreads (mkMemoryBudget 100 60) [60] [] in
  rtc mem_step (mkMemThreads (MemoryBudget_new 100) [] []) s /\
  mb_reserved (th_budget s) = mem_sum (th_held s) /\ mem_sum (th_held s) <= 100.
Proof.
  cbv zeta.
  assert (R : rtc mem_step (mkMemThreads (MemoryBudget_new 100) [] []) (mkMemThreads (mkMemoryBudget 100 60) [60] [])).
  { eapply rtc_l; [apply (mem_load _ _ _ 60 0); [unfold u64_max; lia|reflexivity]|].
    eapply rtc_l; [apply (mem_load _ _ _ 50 0); [unfold u64_max; lia|reflexivity]|].
    eapply rtc_l; [apply (mem_swap _ _ [(0, 50); (0, 60)] [(0, 50)] 60 0); [apply Permutation_swap|reflexivity]|].
    eapply rtc_l; [apply (mem_retry _ _ [(0, 50)] [] 50 0); [done|reflexivity]|]. apply rtc_refl. }
  split; [done|]. apply memory_never_exceeded; [unfold u64_max; lia|done].
Defined.

(** With the largest limit the saturating test always passes: two guards of 2^63 and
    2^63 + 4 bytes exist and the counter stands at 4. *)
Theorem unlimited_budget_wraps :
  rtc mem_step (mkMemThreads (MemoryBudget_new u64_max) [] []) (mkMemThreads (mkMemoryBudget u64_max 4) [2 ^ 63 + 4; 2 ^ 63] []).
Proof.
  eapply rtc_l; [apply (mem_load _ _ _ (2 ^ 63) 0); [unfold u64_max; lia|reflexivity]|].
  eapply rtc_l; [apply (mem_swap _ _ [(0, 2 ^ 63)] [] (2 ^ 63) 0); [done|reflexivity]|].
  eapply rtc_l; [apply (mem_load _ _ _ (2 ^ 63 + 4) (2 ^ 63)); [unfold u64_max; lia|reflexivity]|].
  eapply rtc_l; [apply (mem_swap _ _ [(2 ^ 63, 2 ^ 63 + 4)] [] (2 ^ 63 + 4) (2 ^ 63)); [done|reflexivity]|]. apply rtc_refl.
Qed.

(** The token bucket: a burst of three, one statement per second, and a session of its
    own for everybody. *)
Definition demo_limiter : RateLimiter := RateLimiter_new (f64_of_Z 1) (f64_of_Z 3).
Fixpoint acquire_all (r : RateLimiter) (calls : list (Z * Z)) : list bool :=
  match calls with
  | [] => []
  | (session, now) :: calls => let '(o, r) := acquire r session now in is_ok o :: acquire_all r calls
  end.
Lemma limiter_runs :
  acquire_all demo_limiter [(7, 0); (7, 0); (7, 0); (7, 0); (8, 0); (7, 500000000); (7, 1000000000); (7, 1000000001)] =
  [true; true; true; false; true; false; true; false].
Proof. vm_compute. reflexivity. Qed.
