(* ===== verification/Caches.v ===== *)
(** * Statement and result caches (crates/noedb-engine/src: stmt_cache.rs, query_cache.rs)

    The cache of parsed statements keeps a use stamp per entry and evicts the least
    stamp; it refines a list in order of use.  The result cache is over the [lru]
    crate, an interface with laws. *)

From S2P Require Import Prelude StorageError Text Float64 Tokens Ast Value Plan SetOps RowOps.

(** ** stmt_cache.rs *)

Definition DEFAULT_STMT_CACHE_CAPACITY : Z := 256.

Record StatementCache : Type := mkStatementCache {
  stc_capacity : Z; stc_clock : Z; stc_entries : gmap bytes (Statement * Z); stc_hits : Z; stc_misses : Z }.

Definition StatementCache_with_capacity (capacity : Z) : StatementCache := mkStatementCache capacity 0 ∅ 0 0.

Definition StatementCache_get (c : StatementCache) (sql : bytes) : option Statement * StatementCache :=
  let clock := wrap 64 (stc_clock c + 1) in
  match stc_entries c !! sql with
  | Some (stmt, _) =>
      (Some stmt, mkStatementCache (stc_capacity c) clock (<[sql := (stmt, clock)]> (stc_entries c)) (stc_hits c + 1) (stc_misses c))
  | None => (None, mkStatementCache (stc_capacity c) clock (stc_entries c) (stc_hits c) (stc_misses c + 1))
  end.

(** [min_by_key]: the first of the least elements *)
Fixpoint min_by_key {A} (key : A -> Z) (l : list A) : option A :=
  match l with
  | [] => None
  | x :: l => match min_by_key key l with
              | Some y => Some (if key x <=? key y then x else y)
              | None => Some x
              end
  end.

Section evict.
Context `{StdChoices}.

Definition oldest (entries : gmap bytes (Statement * Z)) : option bytes :=
  fst <$> min_by_key (fun e => e.2.2) (hash_iter (map_to_list entries)).

Definition StatementCache_insert (c : StatementCache) (sql : bytes) (stmt : Statement) : StatementCache :=
  if stc_capacity c =? 0 then c
  else
    let clock := wrap 64 (stc_clock c + 1) in
    let full := (Z.of_nat (size (stc_entries c)) >=? stc_capacity c) && negb (bool_decide (is_Some (stc_entries c !! sql))) in
    let entries := if full then match oldest (stc_entries c) with
                                | Some k => delete k (stc_entries c)
                                | None => stc_entries c
                                end
                   else stc_entries c in
    mkStatementCache (stc_capacity c) clock (<[sql := (stmt, clock)]> entries) (stc_hits c) (stc_misses c).
End evict.

Definition StatementCache_stats (c : StatementCache) : Z * Z := (stc_hits c, stc_misses c).
Definition StatementCache_len (c : StatementCache) : Z := Z.of_nat (size (stc_entries c)).
Definition StatementCache_is_empty (c : StatementCache) : bool := bool_decide (stc_entries c = ∅).

(** ** query_cache.rs *)

(** The operations of [lru::LruCache] that the code uses, and what the crate documents
    of them: a lookup returns the stored value and keeps the contents, a store adds the
    entry and may evict others. *)
Class LruOps (C : Type) (K V : Type) : Type := {
  lru_new : nat -> C;
  lru_get : C -> K -> option V * C;
  lru_put : C -> K -> V -> C;
  lru_clear : C -> C }.
Class LruLaws (C K V : Type) `{LruOps C K V} : Type := {
  lru_has : C -> K -> V -> Prop;
  lru_has_fun : forall c k v w, lru_has c k v -> lru_has c k w -> v = w;
  lru_new_law : forall n k v, ~ lru_has (lru_new n) k v;
  lru_get_law : forall c k v, (lru_get c k).1 = Some v <-> lru_has c k v;
  lru_get_keeps : forall c k k' v, lru_has (lru_get c k).2 k' v <-> lru_has c k' v;
  lru_put_law : forall c k v k' v', lru_has (lru_put c k v) k' v' -> k' = k /\ v' = v \/ k' <> k /\ lru_has c k' v';
  lru_clear_law : forall c k v, ~ lru_has (lru_clear c) k v }.

Definition CacheKey : Type := Z * bytes * bytes.
Definition DEFAULT_CAPACITY : nat := 4096.

Section query_cache.
Context {C V : Type} `{LruOps C CacheKey V}.

Record QueryCache : Type := mkQueryCache { qc_inner : C; qc_epoch : Z }.

Definition QueryCache_new (capacity : nat) : QueryCache := mkQueryCache (lru_new (capacity `max` 1)) 0.
Definition QueryCache_default : QueryCache := QueryCache_new DEFAULT_CAPACITY.

Definition invalidate_table (c : QueryCache) (table : bytes) : QueryCache :=
  mkQueryCache (lru_clear (qc_inner c)) (wrap 64 (qc_epoch c + 1)).

Definition QueryCache_get (c : QueryCache) (role sql : bytes) : option V * QueryCache :=
  let '(r, inner) := lru_get (qc_inner c) (qc_epoch c, role, sql) in (r, mkQueryCache inner (qc_epoch c)).

Definition QueryCache_put (c : QueryCache) (role sql : bytes) (result : V) : QueryCache :=
  mkQueryCache (lru_put (qc_inner c) (qc_epoch c, role, sql) result) (qc_epoch c).
End query_cache.
Arguments QueryCache : clear implicits.

(** ** The reference: a list in order of use, most recent first *)

Definition lru_list : Type := list (bytes * Statement).
Definition without_key {V} (k : bytes) (l : list (bytes * V)) : list (bytes * V) := filter (fun e => e.1 <> k) l.
Fixpoint assoc_key {V} (k : bytes) (l : list (bytes * V)) : option V :=
  match l with
  | [] => None
  | (k', v) :: l => if bool_decide (k' = k) then Some v else assoc_key k l
  end.

Inductive cache_call : Type := CacheGet (sql : bytes) | CacheInsert (sql : bytes) (stmt : Statement).

Definition ref_call (capacity : Z) (l : lru_list) (c : cache_call) : option Statement * lru_list :=
  match c with
  | CacheGet sql => match assoc_key sql l with
                    | Some stmt => (Some stmt, (sql, stmt) :: without_key sql l)
                    | None => (None, l)
                    end
  | CacheInsert sql stmt =>
      (None, if capacity =? 0 then l else take (Z.to_nat capacity) ((sql, stmt) :: without_key sql l))
  end.

Definition cache_do `{StdChoices} (s : StatementCache) (c : cache_call) : option Statement * StatementCache :=
  match c with
  | CacheGet sql => StatementCache_get s sql
  | CacheInsert sql stmt => (None, StatementCache_insert s sql stmt)
  end.

Fixpoint results {S C R} (step : S -> C -> R * S) (s : S) (cs : list C) : list R :=
  match cs with
  | [] => []
  | c :: cs => let '(r, s) := step s c in r :: results step s cs
  end.

(** *** The relation

    [t] is the list with its stamps: strictly falling, none above the clock. *)
Record lru_rel (s : StatementCache) (t : list (bytes * (Statement * Z))) : Prop := {
  lr_entries : stc_entries s = list_to_map t;
  lr_keys : NoDup t.*1;
  lr_sorted : StronglySorted (fun a b => b.2.2 < a.2.2) t;
  lr_clock : Forall (fun e => e.2.2 <= stc_clock s) t;
  lr_capacity : Z.of_nat (length t) <= stc_capacity s;
  lr_range : 0 <= stc_clock s }.

Definition unstamp (t : list (bytes * (Statement * Z))) : lru_list := map (fun e => (e.1, e.2.1)) t.

(** *** Lists of entries *)

Lemma without_key_map {V} k (t : list (bytes * V)) :
  (list_to_map (without_key k t) : gmap bytes V) = delete k (list_to_map t).
Proof.
  unfold without_key. induction t as [|[k' v] t IH]; [symmetry; apply delete_empty|]. rewrite filter_cons. cbn [fst].
  case_decide as Hk; cbn [list_to_map foldr fst snd].
  all: change (foldr _ ∅ ?l) with (list_to_map l : gmap bytes V).
  - rewrite IH. by rewrite delete_insert_ne by congruence.
  - subst k'. by rewrite delete_insert_eq.
Qed.

Lemma without_key_id {V} k (t : list (bytes * V)) : k ∉ t.*1 -> without_key k t = t.
Proof.
  unfold without_key. induction t as [|[k' v] t IH]; [done|]. rewrite fmap_cons, not_elem_of_cons. intros [Hk ?]. cbn in Hk.
  rewrite filter_cons_True by (cbn; congruence). by rewrite IH.
Qed.
Lemma without_key_sublist {V} k (t : list (bytes * V)) : sublist (without_key k t) t.
Proof. apply sublist_filter. Qed.
Lemma without_key_fresh {V} k (t : list (bytes * V)) : k ∉ (without_key k t).*1.
Proof. intros ([k' v] & -> & [? ?]%list_elem_of_filter)%list_elem_of_fmap. done. Qed.

Lemma without_key_unstamp k t : without_key k (unstamp t) = unstamp (without_key k t).
Proof.
  unfold without_key, unstamp. induction t as [|[k' v] t IH]; [done|]. cbn [map]. rewrite !filter_cons. cbn [fst].
  case_decide; cbn [map]; by rewrite IH.
Qed.

Lemma assoc_key_map {V} k (t : list (bytes * V)) : assoc_key k t = (list_to_map t : gmap bytes V) !! k.
Proof.
  induction t as [|[k' v] t IH]; [done|]. cbn [assoc_key list_to_map foldr fst snd]. case_bool_decide as E.
  - subst k'. by rewrite lookup_insert_eq.
  - rewrite lookup_insert_ne by done. apply IH.
Qed.
Lemma assoc_unstamp k t : assoc_key k (unstamp t) = fst <$> assoc_key k t.
Proof. induction t as [|[k' [v u]] t IH]; [done|]. cbn. by case_bool_decide. Qed.

Lemma sublist_forall {A} (P : A -> Prop) l l' : sublist l l' -> Forall P l' -> Forall P l.
Proof. rewrite !Forall_forall. intros Hl HP x Hx. apply HP. by eapply elem_of_sublist. Qed.
Lemma sublist_sorted {A} (R : relation A) l l' : sublist l l' -> StronglySorted R l' -> StronglySorted R l.
Proof.
  induction 1 as [|x l l' Hl IH|x l l' Hl IH]; intros Hs; [done|..]; apply StronglySorted_inv in Hs as [Hs Hx].
  - constructor; [by apply IH|]. by eapply sublist_forall.
  - by apply IH.
Qed.

(** *** The victim *)

Lemma min_by_key_spec {A} (key : A -> Z) l x : min_by_key key l = Some x -> x ∈ l /\ forall y, y ∈ l -> key x <= key y.
Proof.
  revert x. induction l as [|a l IH]; intros x; [done|]. cbn [min_by_key].
  destruct (min_by_key key l) as [y|] eqn:E.
  - destruct (IH y eq_refl) as [Hy Hmin]. destruct (Z.leb_spec (key a) (key y)); intros [= <-]; (split; [by constructor|]);
      intros z [->|Hz]%elem_of_cons; try lia; specialize (Hmin z Hz); lia.
  - intros [= <-]. destruct l as [|b l]; [|cbn in E; by destruct (min_by_key key l)].
    split; [left|]. intros z [->|?%not_elem_of_nil]%elem_of_cons; [lia|done].
Qed.
Lemma min_by_key_some {A} (key : A -> Z) l : l <> [] -> is_Some (min_by_key key l).
Proof. destruct l as [|a l]; [done|]. cbn. destruct (min_by_key key l); eauto. Qed.

Lemma sorted_last_least {A} (key : A -> Z) t e : StronglySorted (fun a b => key b < key a) (t ++ [e]) ->
  forall x, x ∈ t -> key e < key x.
Proof.
  induction t as [|a t IH]; intros Hs x Hx; [by apply not_elem_of_nil in Hx|]. cbn in Hs. apply StronglySorted_inv in Hs as [Hs Ha].
  apply elem_of_cons in Hx as [->|Hx]; [|by apply IH]. rewrite Forall_forall in Ha. apply Ha. apply elem_of_app. right. left.
Qed.

Lemma oldest_last `{StdChoices} t e : NoDup (t ++ [e]).*1 ->
  StronglySorted (fun a b : bytes * (Statement * Z) => b.2.2 < a.2.2) (t ++ [e]) -> oldest (list_to_map (t ++ [e])) = Some e.1.
Proof.
  intros Hnd Hs. unfold oldest.
  assert (P : hash_iter (map_to_list (list_to_map (t ++ [e]) : gmap bytes (Statement * Z))) ≡ₚ t ++ [e])
    by (rewrite hash_iter_perm; by apply map_to_list_to_map).
  destruct (min_by_key_some (fun e : bytes * (Statement * Z) => e.2.2) (hash_iter (map_to_list (list_to_map (t ++ [e]) : gmap bytes (Statement * Z)))))
    as [x Hx]; [intros E; rewrite E in P; by apply Permutation_nil_l, eq_sym, app_nil in P as [_ ?]|].
  rewrite Hx. cbn. f_equal. apply min_by_key_spec in Hx as [Hin Hmin].
  assert (He : x.2.2 <= e.2.2) by (apply Hmin; rewrite P; apply elem_of_app; right; left).
  rewrite P in Hin. apply elem_of_app in Hin as [Hin|Hin]; [|by apply list_elem_of_singleton in Hin as ->].
  pose proof (sorted_last_least (fun e => e.2.2) t e Hs x Hin). cbn in *. lia.
Qed.

(** *** One call *)

Lemma rel_push s t t2 k stmt hits misses : lru_rel s t -> sublist t2 t -> stc_clock s < u64_max ->
  Z.of_nat (length (without_key k t2)) < stc_capacity s ->
  lru_rel (mkStatementCache (stc_capacity s) (wrap 64 (stc_clock s + 1))
             (<[k := (stmt, wrap 64 (stc_clock s + 1))]> (list_to_map t2)) hits misses)
          ((k, (stmt, wrap 64 (stc_clock s + 1))) :: without_key k t2).
Proof.
  intros [E Hk Hs Hc Hcap Hr] Hsub Hmax Hlen. change u64_max with (2 ^ 64 - 1) in Hmax.
  replace (wrap 64 (stc_clock s + 1)) with (stc_clock s + 1) by (unfold wrap; rewrite Z.mod_small; lia).
  assert (Hsub2 : sublist (without_key k t2) t) by (etrans; [apply without_key_sublist|done]).
  assert (Hin : forall x, x ∈ without_key k t2 -> x.2.2 <= stc_clock s).
  { intros x Hx. revert x Hx. apply Forall_forall. by eapply sublist_forall. }
  split; cbn [stc_entries stc_clock stc_capacity]; try lia.
  - cbn [list_to_map foldr fst snd]. change (foldr _ ∅ ?l) with (list_to_map l : gmap bytes (Statement * Z)).
    by rewrite without_key_map, insert_delete_eq.
  - rewrite fmap_cons. apply NoDup_cons. split; [apply without_key_fresh|]. by eapply sublist_NoDup; [|apply fmap_sublist].
  - constructor; [by eapply sublist_sorted|]. apply Forall_forall. intros x Hx. cbn. specialize (Hin x Hx). lia.
  - constructor; [cbn; lia|]. apply Forall_forall. intros x Hx. specialize (Hin x Hx). lia.
  - cbn [length]. lia.
Qed.

Lemma rel_get s t sql : lru_rel s t -> stc_clock s < u64_max ->
  exists t', lru_rel (StatementCache_get s sql).2 t' /\ stc_capacity (StatementCache_get s sql).2 = stc_capacity s /\
    stc_clock (StatementCache_get s sql).2 = stc_clock s + 1 /\
    ref_call (stc_capacity s) (unstamp t) (CacheGet sql) = ((StatementCache_get s sql).1, unstamp t').
Proof.
  intros R Hmax. pose proof R as [E Hk Hs Hc Hcap Hr]. unfold StatementCache_get. cbn [ref_call].
  assert (W : wrap 64 (stc_clock s + 1) = stc_clock s + 1) by (change u64_max with (2 ^ 64 - 1) in *; unfold wrap; rewrite Z.mod_small; lia).
  rewrite assoc_unstamp, assoc_key_map, <-E. destruct (stc_entries s !! sql) as [[stmt u]|] eqn:El; cbn [fst snd fmap option_fmap option_map].
  - exists ((sql, (stmt, wrap 64 (stc_clock s + 1))) :: without_key sql t). split; [rewrite E; apply (rel_push s t)|]; try done.
    + assert (L : (length (without_key sql t) < length t)%nat); [|lia].
      rewrite E in El. apply elem_of_list_to_map in El; [|done]. unfold without_key.
      apply length_filter_lt with (sql, (stmt, u)); [done|]. cbn. by intros ?.
    + cbn. by rewrite W, without_key_unstamp.
  - exists t. split; [|by rewrite W]. split; cbn; rewrite ?W; try done; [|lia].
    eapply Forall_impl; [done|]. cbn. intros ? ?. lia.
Qed.

Lemma unstamp_key_fresh sql t : (list_to_map t : gmap bytes (Statement * Z)) !! sql = None -> sql ∉ (unstamp t).*1.
Proof.
  intros E. apply not_elem_of_list_to_map in E. unfold unstamp. change (map ?f t) with (f <$> t).
  by rewrite <-list_fmap_compose.
Qed.

Lemma rel_insert `{StdChoices} s t sql stmt : lru_rel s t -> stc_clock s < u64_max ->
  exists t', lru_rel (StatementCache_insert s sql stmt) t' /\
    stc_capacity (StatementCache_insert s sql stmt) = stc_capacity s /\
    stc_clock (StatementCache_insert s sql stmt) <= stc_clock s + 1 /\
    (ref_call (stc_capacity s) (unstamp t) (CacheInsert sql stmt)).2 = unstamp t'.
Proof.
  intros R Hmax. pose proof R as [E Hk Hs Hc Hcap Hr]. unfold StatementCache_insert. cbn [ref_call snd].
  destruct (Z.eqb_spec (stc_capacity s) 0) as [|H0]; [exists t; repeat split; try done; lia|].
  assert (W : wrap 64 (stc_clock s + 1) = stc_clock s + 1) by (change u64_max with (2 ^ 64 - 1) in *; unfold wrap; rewrite Z.mod_small; lia).
  cbn [stc_capacity stc_clock]. rewrite W. rewrite E, map_size_list_to_map by done.
  set (full := _ && _). destruct full eqn:Hf; subst full.
  - apply andb_true_iff in Hf as [Hf Hn]. rewrite negb_true_iff, bool_decide_eq_false, <-eq_None_not_Some in Hn.
    apply Z.geb_le in Hf. destruct t as [|e t _] using rev_ind; [cbn in *; lia|].
    rewrite oldest_last by done. rewrite length_app in *. cbn [length] in *.
    assert (D : delete e.1 (list_to_map (t ++ [e]) : gmap bytes (Statement * Z)) = list_to_map t).
    { rewrite <-without_key_map. f_equal. unfold without_key. rewrite filter_app, filter_cons_False by (by intros ?).
      rewrite filter_nil, app_nil_r. apply without_key_id. rewrite fmap_app in Hk. apply NoDup_app in Hk as (_ & Hd & _).
      intros Hin. apply (Hd _ Hin). left. }
    rewrite D. exists ((sql, (stmt, stc_clock s + 1)) :: without_key sql t). rewrite <-W at 1 2 3.
    assert (Hne : sql ∉ t.*1).
    { apply not_elem_of_list_to_map in Hn. rewrite fmap_app, elem_of_app in Hn. tauto. }
    split; [apply (rel_push s (t ++ [e]) t); [done|by apply sublist_inserts_r|done|]|].
    { rewrite without_key_id by done. lia. }
    split_and!; [done|lia|]. rewrite without_key_id by (by apply unstamp_key_fresh).
    rewrite without_key_id by done. unfold unstamp. rewrite map_app. cbn [map fst snd].
    replace (Z.to_nat (stc_capacity s)) with (S (length t)) by lia. cbn [take]. f_equal.
    rewrite take_app_le by (by rewrite length_map). apply take_ge. by rewrite length_map.
  - exists ((sql, (stmt, stc_clock s + 1)) :: without_key sql t). rewrite <-W at 1 2 3.
    assert (L : Z.of_nat (length (without_key sql t)) < stc_capacity s).
    { apply andb_false_iff in Hf as [Hf|Hf].
      - rewrite Z.geb_leb in Hf. apply Z.leb_gt in Hf. pose proof (sublist_length _ _ (without_key_sublist sql t)). lia.
      - apply negb_false_iff, bool_decide_eq_true in Hf as [v Hv]. apply elem_of_list_to_map in Hv; [|done].
        assert (length (without_key sql t) < length t)%nat; [|lia]. unfold without_key.
        apply length_filter_lt with (sql, v); [done|]. cbn. by intros ?. }
    split; [by apply (rel_push s t)|]. split_and!; [done|lia|]. rewrite without_key_unstamp.
    change (unstamp (?a :: ?l)) with ((a.1, a.2.1) :: unstamp l). cbn [fst snd]. apply take_ge. cbn [length].
    unfold unstamp. rewrite length_map. lia.
Qed.

(** C26. The statement cache is an LRU cache: for every sequence of lookups and insertions
    (fewer than the clock can count), whatever order the hash map iterates in, it
    answers as a list kept in order of use that drops its last element when it grows
    beyond the capacity; it never holds more than its capacity. *)
Theorem statement_cache_is_lru `{StdChoices} (capacity : Z) (calls : list cache_call) :
  0 <= capacity -> len calls < u64_max ->
  results cache_do (StatementCache_with_capacity capacity) calls = results (ref_call capacity) [] calls /\
  StatementCache_len (fold_left (fun s c => (cache_do s c).2) calls (StatementCache_with_capacity capacity)) <= capacity.
Proof.
  intros Hcap. change (@nil (bytes * Statement)) with (unstamp []).
  assert (R : lru_rel (StatementCache_with_capacity capacity) []) by (split; cbn; try done; try constructor; lia).
  assert (Hc0 : stc_capacity (StatementCache_with_capacity capacity) = capacity) by done.
  assert (Hclk : stc_clock (StatementCache_with_capacity capacity) = 0) by done.
  revert R Hc0 Hclk. generalize (StatementCache_with_capacity capacity), (@nil (bytes * (Statement * Z))). intros s t R Hc0 Hclk Hlen.
  assert (Hb : stc_clock s + len calls < u64_max) by lia. clear Hclk Hlen. revert s t R Hc0 Hb.
  induction calls as [|c calls IH]; intros s t R Hc0 Hb.
  - split; [done|]. cbn. unfold StatementCache_len. destruct R as [-> ? _ _ ? _]. rewrite map_size_list_to_map by done. lia.
  - rewrite len_cons in Hb. pose proof (len_nonneg calls). assert (Hs : stc_clock s < u64_max) by lia.
    destruct c as [sql|sql stmt]; cbn [results fold_left cache_do ref_call].
    + destruct (rel_get s t sql R Hs) as (t' & R' & C' & K' & E). subst capacity. cbn [ref_call] in E. rewrite E.
      destruct (StatementCache_get s sql) as [r s'] eqn:Eg. cbn [fst snd] in *.
      destruct (IH s' t' R' C') as [I1 I2]; [lia|]. split; [by rewrite I1|done].
    + destruct (rel_insert s t sql stmt R Hs) as (t' & R' & C' & K' & E). subst capacity. cbn [ref_call snd] in E. rewrite E.
      cbn [fst snd]. destruct (IH _ t' R' C') as [I1 I2]; [lia|]. split; [by rewrite I1|done].
Qed.

Lemma statement_cache_is_lru_witness :
  let q (n : Z) := SSelect (mkSelectStmt None false [mkSelectItem (ELiteral (LInteger n (mkSpan 0 0))) None] None [] None [] None [] None None None (mkSpan 0 0)) in
  let calls := [CacheInsert (bs "a") (q 1); CacheInsert (bs "b") (q 2); CacheGet (bs "a"); CacheInsert (bs "c") (q 3);
                CacheGet (bs "a"); CacheGet (bs "b"); CacheGet (bs "c")] in
  results (cache_do (H := demo_choices)) (StatementCache_with_capacity 2) calls = [None; None; Some (q 1); None; Some (q 1); None; Some (q 3)].
Proof.
  cbv zeta. etrans; [apply (statement_cache_is_lru (H := demo_choices)); [lia|vm_compute; reflexivity]|]. vm_compute. reflexivity.
Defined.

(** ** An instance of the interface: a map that evicts nothing *)

#[global] Instance map_lru {V} : LruOps (gmap CacheKey V) CacheKey V := {
  lru_new _ := ∅; lru_get c k := (c !! k, c); lru_put c k v := <[k := v]> c; lru_clear _ := ∅ }.
#[global] Program Instance map_lru_laws {V} : LruLaws (gmap CacheKey V) CacheKey V := {
  lru_has c k v := c !! k = Some v }.
Next Obligation. intros V c k v w E1 E2. congruence. Qed.
Next Obligation. intros V n k v. cbn. by rewrite lookup_empty. Qed.
Next Obligation. done. Qed.
Next Obligation. done. Qed.
Next Obligation.
  intros V c k v k' v' E. cbn in E. destruct (decide (k' = k)) as [->|Hne].
  - rewrite lookup_insert_eq in E. injection E as <-. by left.
  - rewrite lookup_insert_ne in E by done. by right.
Qed.
Next Obligation. intros V c k v. cbn. by rewrite lookup_empty. Qed.
