(* ===== verification/AuditTrail.v ===== *)
(** * Audit log, redaction and sealed values
      (crates/noedb-engine/src: audit.rs, redact.rs, crypto.rs)

    The audit log is a file of JSON lines in which every entry carries a hash of the
    previous hash and of its own fields.  SHA-256 (in hexadecimal), serde_json and the
    cipher are parameters; clock readings and random nonces are arguments. *)

From S2P Require Import Prelude StorageError Text Float64 Tokens Ast Display Utf8 Manifest Value Cast Catalog.

(** ** audit.rs *)

Definition GENESIS : bytes := bs "0000000000000000000000000000000000000000000000000000000000000000".

Record AuditEntry : Type := mkAuditEntry {
  au_ts : Z; au_tenant : bytes; au_user : bytes; au_query : bytes; au_rows : Z; au_hash : bytes }.

(** The file (absent before the first entry) and the hash kept in memory *)
Record AuditLog : Type := mkAuditLog { al_file : option bytes; al_last : bytes }.

(** A JSON line is not empty and has no raw control characters. *)
Class JsonLine (A : Type) `{JsonText A} : Prop := {
  json_line : forall a, to_json a <> [] /\ newline ∉ to_json a /\ carriage_return ∉ to_json a }.

Section audit.
Context (sha256_hex : bytes -> bytes) `{JsonText AuditEntry}.

Definition chain_link (prev : bytes) (ts_unix_ms : Z) (tenant user query : bytes) (rows_affected : Z) : bytes :=
  sha256_hex (prev ++ le_bytes 8 ts_unix_ms ++ tenant ++ user ++ query ++ le_bytes 8 rows_affected).

Definition read_to_string (file : option bytes) : outcome EngineError bytes :=
  match file with
  | None => Err (ECodec "audit io: no such file")
  | Some raw => match from_utf8 raw with
                | Some s => Ok s
                | None => Err (ECodec "audit io: stream did not contain valid UTF-8")
                end
  end.

Definition entry_lines (content : bytes) : list bytes := filter (fun l => l <> []) (lines content).

Definition parse_entry (line : bytes) : outcome EngineError AuditEntry :=
  match from_json line with Some e => Ok e | None => Err (ECodec "json") end.

Definition load_last_hash (file : option bytes) : outcome EngineError bytes :=
  let? content := read_to_string file in
  match last (entry_lines content) with
  | None => Ok GENESIS
  | Some l => let? e := parse_entry l in Ok (au_hash e)
  end.

Definition AuditLog_open (file : option bytes) : outcome EngineError AuditLog :=
  let? last_hash := match file with Some _ => load_last_hash file | None => Ok GENESIS end in
  Ok (mkAuditLog file last_hash).

Definition AuditLog_append (l : AuditLog) (e : AuditEntry) : AuditLog :=
  mkAuditLog (Some (default [] (al_file l) ++ to_json e ++ [newline])) (au_hash e).

(** [record] reads the last hash under the lock, releases it, and appends. *)
Definition record_entry (prev : bytes) (now : Z) (tenant user query : bytes) (rows : Z) : AuditEntry :=
  mkAuditEntry now tenant user query rows (chain_link prev now tenant user query rows).
Definition AuditLog_record (l : AuditLog) (now : Z) (tenant user query : bytes) (rows : Z) : AuditLog :=
  AuditLog_append l (record_entry (al_last l) now tenant user query rows).

Definition AuditLog_read_all (l : AuditLog) : outcome EngineError (list AuditEntry) :=
  let? content := read_to_string (al_file l) in traverse parse_entry (entry_lines content).

Definition entry_ok (prev : bytes) (e : AuditEntry) : bool :=
  bool_decide (au_hash e = chain_link prev (au_ts e) (au_tenant e) (au_user e) (au_query e) (au_rows e)).

Fixpoint verify_lines (prev : bytes) (ls : list bytes) : outcome EngineError unit :=
  match ls with
  | [] => Ok tt
  | l :: ls =>
      let? e := parse_entry l in
      if entry_ok prev e then verify_lines (au_hash e) ls else Err (ECodec "audit chain tampered")
  end.
Definition verify_chain (l : AuditLog) : outcome EngineError unit :=
  let? content := read_to_string (al_file l) in verify_lines GENESIS (entry_lines content).
End audit.

(** ** redact.rs *)

Definition SENSITIVE_KEYWORDS : list bytes :=
  map bs ["password"; "identified by"; "secret"; "token"; "api_key"; "apikey"; "private_key"]%string.
Definition MASK : bytes := bs "'***'".

(** [str::find] of a substring *)
Fixpoint find_sub (p s : bytes) : option nat :=
  if starts_with p s then Some 0%nat
  else match s with [] => None | _ :: s => S <$> find_sub p s end.

(** [(b as char).is_whitespace()] of a byte read as Latin-1 *)
Definition latin1_space (b : byte) : bool := char_in 9 13 (b2z b) || bool_decide (b2z b ∈ [0x20; 0x85; 0xa0]).

Fixpoint skip_white (s : bytes) (i : nat) : nat :=
  match s with
  | b :: s => if latin1_space b then skip_white s (S i) else i
  | [] => i
  end.
Fixpoint closing_quote (s : bytes) (i : nat) : option nat :=
  match s with
  | [] => None
  | b :: s => if bool_decide (b = x27) then Some (S i) else closing_quote s (S i)
  end.

Definition next_literal_span (s : bytes) (from : nat) : option (nat * nat) :=
  let i := skip_white (drop from s) from in
  let i := if bool_decide (s !! i = Some x3d) then skip_white (drop (S i) s) (S i) else i in
  if bool_decide (s !! i = Some x27)
  then (fun e => (i, e)) <$> closing_quote (drop (S i) s) (S i)
  else None.

(** The slices of [sql] and [lower] start behind an ASCII keyword or a quote, so they
    never cut a char.  A round moves [search_from] by at least the keyword. *)
Fixpoint keyword_spans (fuel : nat) (sql lower kw : bytes) (search_from : nat) : list (nat * nat) :=
  match fuel with
  | O => []
  | S fuel =>
      match find_sub kw (drop search_from lower) with
      | None => []
      | Some rel =>
          let kw_end := (search_from + rel + length kw)%nat in
          match next_literal_span sql kw_end with
          | Some (start, e) => (start, e) :: keyword_spans fuel sql lower kw e
          | None => keyword_spans fuel sql lower kw kw_end
          end
      end
  end.

Definition span_leb (a b : nat * nat) : bool := (a.1 <? b.1)%nat || ((a.1 =? b.1)%nat && (a.2 <=? b.2)%nat).
Fixpoint insert_span (a : nat * nat) (l : list (nat * nat)) : list (nat * nat) :=
  match l with
  | [] => [a]
  | b :: l' => if span_leb a b then a :: l else b :: insert_span a l'
  end.
(** [sort_unstable] then [dedup]; equal spans are indistinguishable. *)
Definition sort_spans (l : list (nat * nat)) : list (nat * nat) := foldr insert_span [] l.
Fixpoint dedup_spans (l : list (nat * nat)) : list (nat * nat) :=
  match l with
  | a :: (b :: _) as l' => if bool_decide (a = b) then dedup_spans l' else a :: dedup_spans l'
  | _ => l
  end.

Fixpoint mask_spans (sql : bytes) (spans : list (nat * nat)) (cursor : nat) : bytes :=
  match spans with
  | [] => drop cursor sql
  | (start, e) :: spans =>
      if (start <? cursor)%nat then mask_spans sql spans cursor
      else take (start - cursor) (drop cursor sql) ++ MASK ++ mask_spans sql spans e
  end.

Definition redact_sql (sql : bytes) : bytes :=
  let lower := to_lower sql in
  let spans := concat (map (fun kw => keyword_spans (S (length sql)) sql lower kw 0) SENSITIVE_KEYWORDS) in
  match spans with
  | [] => sql
  | _ => mask_spans sql (dedup_spans (sort_spans spans)) 0
  end.

Definition is_sensitive (sql : bytes) : bool :=
  existsb (fun kw => bool_decide (is_Some (find_sub kw (to_lower sql)))) SENSITIVE_KEYWORDS.

(** ** crypto.rs *)

Definition SEAL_VERSION : byte := x01.
Definition NONCE_LEN : Z := 24.
Definition MIN_SEALED : Z := 1 + NONCE_LEN + 16.

(** XChaCha20-Poly1305 and SHA-256, with what their documentation says: the ciphertext
    has a 16-byte tag, and decryption inverts encryption under the same associated data. *)
Class Aead : Type := {
  aead_key : bytes -> bytes;
  aead_encrypt : bytes -> bytes -> bytes -> bytes -> option bytes;
  aead_decrypt : bytes -> bytes -> bytes -> bytes -> option bytes }.
Class AeadLaws `{Aead} : Prop := {
  aead_inverse : forall key nonce aad msg ct, aead_encrypt key nonce aad msg = Some ct -> aead_decrypt key nonce aad ct = Some msg;
  aead_length : forall key nonce aad msg ct, aead_encrypt key nonce aad msg = Some ct -> len ct = len msg + 16 }.

Section crypto.
Context `{Aead}.

Record DataKey : Type := mkDataKey { dk_cipher : bytes }.
Definition DataKey_from_secret (secret : bytes) : DataKey := mkDataKey (aead_key (bs "noedb-at-rest-v1" ++ secret)).
Definition DataKey_from_env (var : option bytes) : option DataKey :=
  match var with Some [] => None | Some s => Some (DataKey_from_secret s) | None => None end.

Definition seal (k : DataKey) (nonce aad plaintext : bytes) : outcome EngineError bytes :=
  match aead_encrypt (dk_cipher k) nonce aad plaintext with
  | Some ct => Ok (SEAL_VERSION :: nonce ++ ct)
  | None => Err (Crypto "seal failed")
  end.

Definition open_sealed (k : DataKey) (aad sealed : bytes) : outcome EngineError bytes :=
  if len sealed <? MIN_SEALED then Err (Crypto "sealed value too short")
  else
    let? v := index sealed 0 in
    if negb (bool_decide (v = SEAL_VERSION)) then Err (Crypto "unknown seal version")
    else
      let? nonce := index_range sealed 1 NONCE_LEN in
      let ct := drop (Z.to_nat (1 + NONCE_LEN)) sealed in
      match aead_decrypt (dk_cipher k) nonce aad ct with
      | Some m => Ok m
      | None => Err (Crypto "open failed (wrong key or tampered)")
      end.

Definition is_sealed (value : bytes) : bool :=
  (MIN_SEALED <=? len value) && bool_decide (value !! 0%nat = Some SEAL_VERSION).
End crypto.

Definition cell_aad (table row column : bytes) : bytes := table ++ [x00] ++ row ++ [x00] ++ column.

(** ** The hash chain *)

Definition entry_input (e : AuditEntry) : bytes :=
  le_bytes 8 (au_ts e) ++ au_tenant e ++ au_user e ++ au_query e ++ le_bytes 8 (au_rows e).
Definition chain_last (es : list AuditEntry) : bytes := default GENESIS (au_hash <$> last es).
Definition log_text `{JsonText AuditEntry} (es : list AuditEntry) : bytes := concat (map (fun e => to_json e ++ [newline]) es).

Section chain.
Context (sha256_hex : bytes -> bytes).

Fixpoint chained (prev : bytes) (es : list AuditEntry) : Prop :=
  match es with
  | [] => True
  | e :: es => entry_ok sha256_hex prev e = true /\ chained (au_hash e) es
  end.

Lemma chained_snoc prev es e : chained prev (es ++ [e]) <->
  chained prev es /\ entry_ok sha256_hex (default prev (au_hash <$> last es)) e = true.
Proof.
  revert prev. induction es as [|e' es IH]; intros prev; cbn; [tauto|]. rewrite IH.
  destruct es as [|e2 es]; [cbn; tauto|]. rewrite last_cons_cons.
  destruct (last (e2 :: es)) as [x|] eqn:E; [cbn; tauto|]. by apply last_None in E.
Qed.

Lemma entry_ok_hash prev e : entry_ok sha256_hex prev e = true <-> au_hash e = sha256_hex (prev ++ entry_input e).
Proof. unfold entry_ok. by rewrite bool_decide_eq_true. Qed.

Lemma chain_last_snoc es e : chain_last (es ++ [e]) = au_hash e.
Proof. unfold chain_last. by rewrite last_snoc. Qed.

(** What is hashed when the entries are checked one after the other *)
Fixpoint hashed (prev : bytes) (es : list AuditEntry) : list bytes :=
  match es with
  | [] => []
  | e :: es => (prev ++ entry_input e) :: hashed (au_hash e) es
  end.

Lemma hashed_snoc prev es e :
  hashed prev (es ++ [e]) = hashed prev es ++ [default prev (au_hash <$> last es) ++ entry_input e].
Proof.
  revert prev. induction es as [|e' es IH]; intros prev; [done|]. cbn [app hashed]. rewrite IH. do 3 f_equal.
  destruct es as [|e2 es]; [done|]. rewrite last_cons_cons. by destruct (last (e2 :: es)) eqn:E; [|apply last_None in E].
Qed.

(** A collision of the hash, or a preimage of the genesis hash, among what is hashed when
    the two lists are checked *)
Definition hash_broken (es es' : list AuditEntry) : Prop :=
  (exists x y, x ∈ hashed GENESIS es /\ y ∈ hashed GENESIS es' /\ x <> y /\ sha256_hex x = sha256_hex y) \/
  (exists x, x ∈ hashed GENESIS es ++ hashed GENESIS es' /\ sha256_hex x = GENESIS).

Lemma hash_broken_snoc es es' e e' : hash_broken es es' -> hash_broken (es ++ [e]) (es' ++ [e']).
Proof.
  unfold hash_broken. rewrite !hashed_snoc. intros [(x & y & ? & ? & ? & ?)|(x & Hx & ?)]; [left; exists x, y|right; exists x]; set_solver.
Qed.

Lemma chained_same_end (hash_length : forall x, length (sha256_hex x) = 64%nat) (es es' : list AuditEntry) :
  chained GENESIS es -> chained GENESIS es' -> chain_last es = chain_last es' ->
  map entry_input es = map entry_input es' \/ hash_broken es es'.
Proof.
  assert (Hprev : forall l, chained GENESIS l -> length (chain_last l) = 64%nat).
  { intros l. destruct l as [|e l _] using rev_ind; [done|]. rewrite chain_last_snoc. intros [_ ->%entry_ok_hash]%chained_snoc.
    apply hash_length. }
  assert (Hin : forall l e, chain_last l ++ entry_input e ∈ hashed GENESIS (l ++ [e])).
  { intros l e. rewrite hashed_snoc. apply elem_of_app. right. by apply list_elem_of_singleton. }
  revert es'. induction es as [|e es IH] using rev_ind; intros es' C C' E.
  - destruct es' as [|e' es' _] using rev_ind; [by left|]. right. right. rewrite chain_last_snoc in E.
    apply chained_snoc in C' as [_ Hh%entry_ok_hash]. rewrite Hh in E. eexists. split; [apply elem_of_app; right; apply Hin|done].
  - apply chained_snoc in C as [C Hh%entry_ok_hash]. rewrite chain_last_snoc in E. fold (chain_last es) in Hh.
    destruct es' as [|e' es' _] using rev_ind.
    { right. right. eexists. split; [apply elem_of_app; left; apply Hin|]. rewrite <- Hh. exact E. }
    rewrite chain_last_snoc in E. apply chained_snoc in C' as [C' Hh'%entry_ok_hash]. fold (chain_last es') in Hh'. rewrite Hh, Hh' in E.
    destruct (decide (chain_last es ++ entry_input e = chain_last es' ++ entry_input e')) as [D|D];
      [|right; left; eexists _, _; split; [apply Hin|]; split; [apply Hin|done]].
    apply app_inj_1 in D as [D1 D2]; [|by rewrite !Hprev].
    destruct (IH es' C C' D1) as [Hm|Hx]; [left|right; by apply hash_broken_snoc]. rewrite !map_app, Hm. cbn [map]. by rewrite D2.
Qed.

(** The bounds themselves are not covered: moving bytes between the tenant, the user
    and the query of an entry leaves every hash valid. *)
Theorem audit_fields_can_move (es1 es2 : list AuditEntry) (e : AuditEntry) (tenant user query : bytes) :
  chained GENESIS (es1 ++ e :: es2) -> tenant ++ user ++ query = au_tenant e ++ au_user e ++ au_query e ->
  chained GENESIS (es1 ++ mkAuditEntry (au_ts e) tenant user query (au_rows e) (au_hash e) :: es2).
Proof.
  intros C E. revert C. generalize GENESIS. induction es1 as [|e1 es1 IH]; intros prev; cbn [chained app].
  - intros [H1 H2]. split; [|done]. rewrite entry_ok_hash in *. rewrite H1 at 1. cbn [au_hash]. f_equal. f_equal.
    unfold entry_input. cbn [au_ts au_tenant au_user au_query au_rows].
    f_equal. pose proof (f_equal (fun x => x ++ le_bytes 8 (au_rows e)) E) as E2. cbn beta in E2. by rewrite <-!(assoc_L (++)) in E2.
  - intros [H1 H2]. split; [done|]. by apply IH.
Qed.

Section tamper.
Context `{JsonText AuditEntry}.

(** A file that reads as entries: checking it is checking them, and its last hash is
    theirs. *)
Lemma verify_lines_chained ls : forall prev es,
  traverse parse_entry ls = Ok es -> verify_lines sha256_hex prev ls = Ok tt -> chained prev es.
Proof.
  induction ls as [|x ls IH]; intros prev es; cbn [traverse verify_lines]; [by intros [= <-]|].
  destruct (parse_entry x) as [e| |]; cbn [obind]; [|done..]. destruct (traverse parse_entry ls) as [es1| |]; cbn [obind]; [|done..].
  intros [= <-]. cbn [chained]. destruct (entry_ok sha256_hex prev e); [|done]. intros V. split; [done|]. by apply IH.
Qed.

Lemma last_line_hash ls : forall es h, traverse parse_entry ls = Ok es ->
  match last ls with None => Ok GENESIS | Some x => let? e := parse_entry x in Ok (au_hash e) end = Ok h -> chain_last es = h.
Proof.
  induction ls as [|x ls IH] using rev_ind; intros es h; [by intros [= <-] [= <-]|].
  rewrite last_snoc. intros E. assert (exists es1 e, parse_entry x = Ok e /\ es = es1 ++ [e]) as (es1 & e & -> & ->).
  { clear IH. revert es E. induction ls as [|y ls IH]; intros es; cbn [app traverse].
    - destruct (parse_entry x) as [e| |]; cbn [obind]; [|done..]. intros [= <-]. by exists [], e.
    - destruct (parse_entry y) as [e1| |]; cbn [obind]; [|done..]. destruct (traverse parse_entry (ls ++ [x])) as [es1| |]; cbn [obind]; [|done..].
      intros [= <-]. destruct (IH es1 eq_refl) as (es2 & e & -> & ->). by exists (e1 :: es2), e. }
  cbn [obind]. intros [= <-]. apply chain_last_snoc.
Qed.

(** C38. Take two log files, of whatever origin, that are read and verified without an error
    and end in the same hash.  Then they hold the same entries, up to the bounds
    between the text fields of an entry; or among the very strings that are hashed when
    the two files are verified there are two different ones with the same hash, or one
    whose hash is the genesis value.  So who keeps the last hash of a log cannot be shown
    a changed, reordered, longer or shorter one without a break of SHA-256. *)
Theorem audit_tamper_evident (hash_length : forall x, length (sha256_hex x) = 64%nat) (l l' : AuditLog) (es es' : list AuditEntry) (h : bytes) :
  AuditLog_read_all l = Ok es -> verify_chain sha256_hex l = Ok tt -> load_last_hash (al_file l) = Ok h ->
  AuditLog_read_all l' = Ok es' -> verify_chain sha256_hex l' = Ok tt -> load_last_hash (al_file l') = Ok h ->
  map entry_input es = map entry_input es' \/ hash_broken es es'.
Proof.
  unfold AuditLog_read_all, verify_chain, load_last_hash. destruct (read_to_string (al_file l)) as [c| |]; cbn [obind]; [|done..].
  destruct (read_to_string (al_file l')) as [c'| |]; cbn [obind]; [|done..]. intros R V L R' V' L'.
  apply chained_same_end; [done|by eapply verify_lines_chained..|].
  rewrite (last_line_hash _ _ _ R L). symmetry. by eapply last_line_hash.
Qed.
End tamper.

Section log.
Context `{JsonLaws AuditEntry} `{!JsonLine AuditEntry}.

Lemma lines_text es : entry_lines (log_text es) = map to_json es.
Proof.
  unfold entry_lines. assert (E : lines (log_text es) = map to_json es).
  { induction es as [|e es IH]; [done|]. unfold log_text. cbn [map concat]. rewrite <-(assoc_L (++)). cbn [app].
    destruct (json_line e) as (_ & ? & ?). rewrite lines_cons by done. f_equal. exact IH. }
  rewrite E. clear E. induction es as [|e es IH]; [done|]. cbn [map]. rewrite filter_cons_True by apply json_line. by rewrite IH.
Qed.

Lemma text_utf8 es : from_utf8 (log_text es) = Some (log_text es).
Proof.
  assert (exists cs, Forall is_char cs /\ log_text es = utf8 cs) as (cs & Hcs & ->); [|by apply from_utf8_ok].
  induction es as [|e es (cs & Hcs & E)]; [by exists []; split; [constructor|]|].
  destruct (json_utf8 e) as (ce & Hce & Ee). exists (ce ++ 10 :: cs). split.
  - apply Forall_app. split; [done|]. constructor; [unfold is_char; lia|done].
  - unfold log_text in *. cbn [map concat]. rewrite E, Ee. unfold utf8. rewrite map_app, concat_app. cbn [map concat].
    by rewrite <-(assoc_L (++)).
Qed.

Lemma parse_text es : traverse parse_entry (map to_json es) = Ok es.
Proof. induction es as [|e es IH]; [done|]. cbn. unfold parse_entry at 1. by rewrite json_round_trip; cbn; rewrite IH. Qed.

Lemma verify_text prev es : verify_lines sha256_hex prev (map to_json es) = Ok tt <-> chained prev es.
Proof.
  revert prev. induction es as [|e es IH]; intros prev; [done|]. cbn. unfold parse_entry at 1. rewrite json_round_trip. cbn.
  destruct (entry_ok sha256_hex prev e); [rewrite IH; tauto|]. split; [done|by intros [? _]].
Qed.

(** A log and the entries recorded in it, over calls of [record] and reopenings *)
Inductive audit_run : AuditLog -> list AuditEntry -> Prop :=
| audit_start l : AuditLog_open None = Ok l -> audit_run l []
| audit_next l es now tenant user query rows : audit_run l es ->
    audit_run (AuditLog_record sha256_hex l now tenant user query rows)
      (es ++ [record_entry sha256_hex (al_last l) now tenant user query rows])
| audit_reopen l l' es : audit_run l es -> AuditLog_open (al_file l) = Ok l' -> audit_run l' es.

Lemma load_text es : load_last_hash (Some (log_text es)) = Ok (chain_last es).
Proof.
  unfold load_last_hash, read_to_string. rewrite text_utf8. cbn [obind]. rewrite lines_text.
  change (map to_json es) with (to_json <$> es). rewrite fmap_last. unfold chain_last. destruct (last es) as [e|]; [|done].
  cbn. unfold parse_entry. by rewrite json_round_trip.
Qed.

Lemma audit_run_inv l es : audit_run l es ->
  al_last l = chain_last es /\ chained GENESIS es /\ al_file l = match es with [] => None | _ => Some (log_text es) end.
Proof.
  induction 1 as [l E|l es now tenant user query rows R (L & C & F)|l l' es R (L & C & F) E].
  - by injection E as <-.
  - split; [by rewrite chain_last_snoc|]. split.
    + apply chained_snoc. split; [done|]. fold (chain_last es). rewrite <-L. unfold entry_ok, record_entry. by apply bool_decide_eq_true_2.
    + cbn [AuditLog_record AuditLog_append al_file]. rewrite F. unfold log_text. rewrite map_app, concat_app. cbn [map concat].
      rewrite app_nil_r. by destruct es.
  - unfold AuditLog_open in E. rewrite F in E. destruct es as [|e es]; [by injection E as <-|].
    rewrite load_text in E. by injection E as <-.
Qed.

(** After any sequence of records and reopenings that wrote something, the log reads back
    as exactly the recorded entries, its chain verifies, and opening it again gives the
    same log. *)
Theorem audit_log_verifies (l : AuditLog) (es : list AuditEntry) : audit_run l es -> es <> [] ->
  AuditLog_read_all l = Ok es /\ verify_chain sha256_hex l = Ok tt /\ AuditLog_open (al_file l) = Ok l.
Proof.
  intros R Hne. destruct (audit_run_inv l es R) as (L & C & F). destruct l as [f h]. cbn [al_file al_last] in *. subst h.
  destruct es as [|e es]; [done|]. subst f. unfold AuditLog_read_all, verify_chain, read_to_string, AuditLog_open. cbn [al_file].
  rewrite load_text, text_utf8. cbn [obind]. rewrite lines_text, parse_text. split_and!; [done| |done].
  by apply verify_text.
Qed.
End log.
End chain.

(** ** Sealed values *)

Section sealed.
Context `{AeadLaws}.

(** A sealed value opens to its plaintext under the associated data it was sealed with,
    and has the shape of a sealed value.  Opening never panics: a value that is too short
    or has another version byte is refused before the cipher is asked. *)
Theorem seal_round_trip (k : DataKey) (nonce aad plaintext : bytes) : len nonce = NONCE_LEN ->
  (forall s, seal k nonce aad plaintext = Ok s -> open_sealed k aad s = Ok plaintext /\ is_sealed s = true) /\
  (forall s, is_sealed s = false -> exists m, open_sealed k aad s = Err (Crypto m)) /\
  (forall s, open_sealed k aad s <> Panic).
Proof.
  unfold NONCE_LEN, seal, open_sealed, is_sealed, MIN_SEALED, NONCE_LEN. intros Hn. split_and!.
  - intros s. destruct (aead_encrypt _ _ _ _) as [ct|] eqn:E; [|done]. intros [= <-]. pose proof (aead_length _ _ _ _ _ E) as Hl.
    pose proof (len_nonneg plaintext). rewrite len_cons, len_app.
    replace (_ <? _) with false by (symmetry; apply Z.ltb_ge; lia). replace (_ <=? _) with true by (symmetry; apply Z.leb_le; lia).
    split; [|done]. cbn [index Z.to_nat]. change (index (SEAL_VERSION :: nonce ++ ct) 0) with (Ok (E := EngineError) SEAL_VERSION).
    cbn [obind]. rewrite bool_decide_eq_true_2 by done. cbn [negb].
    rewrite (index_range_ok _ _ _ nonce) by (apply (slice_app3 [SEAL_VERSION] nonce ct); [done|lia]). cbn [obind].
    replace (drop (Z.to_nat (1 + 24)) (SEAL_VERSION :: nonce ++ ct)) with ct.
    + by rewrite (aead_inverse _ _ _ _ _ E).
    + change (Z.to_nat (1 + 24)) with 25%nat. cbn [drop]. unfold len in Hn. replace 24%nat with (length nonce) by lia. by rewrite drop_app_length.
  - intros s. destruct (Z.ltb_spec (len s) (1 + 24 + 16)) as [|Hl]; [eauto|]. replace (_ <=? _) with true by (symmetry; apply Z.leb_le; lia).
    destruct s as [|v s]; [rewrite len_nil in Hl; lia|]. cbn [andb lookup list_lookup]. intros Hv. apply bool_decide_eq_false in Hv.
    change (index (v :: s) 0) with (Ok (E := EngineError) v). cbn [obind]. rewrite bool_decide_eq_false_2 by congruence. cbn [negb]. eauto.
  - intros s. destruct (Z.ltb_spec (len s) (1 + 24 + 16)) as [|Hl]; [done|]. destruct s as [|v s]; [rewrite len_nil in Hl; lia|].
    change (index (v :: s) 0) with (Ok (E := EngineError) v). cbn [obind]. destruct (negb _); [done|].
    destruct (slice_in_bounds (v :: s) 1 24) as [m Hm]; [lia..|]. unfold index_range. rewrite Hm. cbn [obind]. by destruct (aead_decrypt _ _ _ _).
Qed.
End sealed.

(** Without zero bytes in the names, different cells have different associated data. *)
Lemma cell_aad_inj table row column table' row' column' :
  x00 ∉ table -> x00 ∉ row -> x00 ∉ table' -> x00 ∉ row' ->
  cell_aad table row column = cell_aad table' row' column' -> table = table' /\ row = row' /\ column = column'.
Proof.
  assert (S : forall a a' b b' : bytes, x00 ∉ a -> x00 ∉ a' -> a ++ [x00] ++ b = a' ++ [x00] ++ b' -> a = a' /\ b = b').
  { induction a as [|x a IH]; intros [|y a'] b b' Ha Ha' E; cbn in E.
    - by injection E.
    - injection E as <- _. by destruct Ha'; left.
    - injection E as -> _. by destruct Ha; left.
    - injection E as -> E. apply not_elem_of_cons in Ha as [_ Ha]. apply not_elem_of_cons in Ha' as [_ Ha'].
      destruct (IH a' b b' Ha Ha' E) as [-> ->]. done. }
  unfold cell_aad. intros H1 H2 H3 H4 E. apply S in E as [-> E]; [|done..]. by apply S in E as [-> ->].
Qed.

(** ** Redaction *)

Lemma keyword_spans_none fuel sql lower kw : find_sub kw lower = None -> keyword_spans fuel sql lower kw 0 = [].
Proof. intros E. destruct fuel as [|fuel]; [done|]. cbn [keyword_spans]. by rewrite drop_0, E. Qed.

(** Text without a sensitive keyword is recorded as it is. *)
Lemma redact_plain sql : is_sensitive sql = false -> redact_sql sql = sql.
Proof.
  unfold is_sensitive, redact_sql. rewrite <-not_true_iff_false, existsb_exists. intros Hs.
  assert (E : concat (map (fun kw => keyword_spans (S (length sql)) sql (to_lower sql) kw 0) SENSITIVE_KEYWORDS) = []); [|by rewrite E].
  assert (A : forall kws, incl kws SENSITIVE_KEYWORDS ->
    concat (map (fun kw => keyword_spans (S (length sql)) sql (to_lower sql) kw 0) kws) = []); [|apply A, incl_refl].
  induction kws as [|kw kws IH]; intros Hi; [done|]. cbn [map concat]. rewrite keyword_spans_none.
  - apply IH. intros x Hx. apply Hi. by right.
  - apply eq_None_not_Some. intros Hx. apply Hs. exists kw. split; [apply Hi; by left|]. by apply bool_decide_eq_true_2.
Qed.

(** Literals behind a keyword are masked, but not all of a secret is: a doubled quote
    ends the masked part, and a secret that ends in a keyword makes the search take its
    closing quote for an opening one, so that the next secret is written out. *)
Theorem redact_leaks :
  redact_sql (bs "SET api_key = 'abc'; X token 'aaa' and SECRET 'bbb'") = bs "SET api_key = '***'; X token '***' and SECRET '***'" /\
  redact_sql (bs "PASSWORD 'it''s'") = bs "PASSWORD '***''s'" /\
  redact_sql (bs "PASSWORD 'mytoken' token 'abc'") = bs "PASSWORD '***' token 'abc'".
Proof. vm_compute. done. Qed.

(** ** Instances for the witnesses *)

Definition demo_hash (x : bytes) : bytes := take 64 (rev x ++ replicate 64 x30).
Lemma demo_hash_length x : length (demo_hash x) = 64%nat.
Proof. unfold demo_hash. rewrite length_take, length_app, length_replicate. lia. Qed.

#[global] Instance AuditEntry_eq_dec : EqDecision AuditEntry.
Proof. solve_decision. Defined.
#[global] Instance AuditEntry_countable : Countable AuditEntry.
Proof.
  refine (inj_countable' (fun e => (au_ts e, au_tenant e, au_user e, au_query e, au_rows e, au_hash e))
    (fun '(t, te, u, q, r, h) => mkAuditEntry t te u q r h) _). by intros [].
Defined.
Lemma coded_line : @JsonLine AuditEntry coded_text.
Proof.
  split. intros a. cbn. split; [done|].
  assert (D : forall p b, b ∈ digits_of p -> b = x30 \/ b = x31).
  { induction p as [p IH|p IH|]; intros b Hb; cbn in Hb; [| |by apply not_elem_of_nil in Hb];
      apply elem_of_cons in Hb as [->|Hb]; eauto. }
  split; intros [E|[E|E]%D]%elem_of_cons; discriminate E.
Qed.

Definition demo_entries : list AuditEntry :=
  let e1 := record_entry demo_hash GENESIS 1 (bs "t") (bs "alice") (bs "SELECT 1") 1 in
  let e2 := record_entry demo_hash (au_hash e1) 2 (bs "t") (bs "bob") (bs "SELECT 2") 1 in [e1; e2].

Lemma demo_chained : chained demo_hash GENESIS demo_entries.
Proof. vm_compute. done. Qed.

Definition demo_log0 : AuditLog := mkAuditLog None GENESIS.
Definition demo_log1 : AuditLog := AuditLog_record demo_hash (H := coded_text) demo_log0 1 (bs "t") (bs "alice") (bs "SELECT 1") 1.
Definition demo_log2 : AuditLog := AuditLog_record demo_hash (H := coded_text) demo_log1 2 (bs "t") (bs "bob") (bs "SELECT 2") 1.
Definition demo_recorded : list AuditEntry :=
  [record_entry demo_hash (al_last demo_log0) 1 (bs "t") (bs "alice") (bs "SELECT 1") 1;
   record_entry demo_hash (al_last demo_log1) 2 (bs "t") (bs "bob") (bs "SELECT 2") 1].

Lemma demo_audit_run : audit_run demo_hash (H := coded_text) demo_log2 demo_recorded.
Proof.
  exact (audit_next demo_hash (H := coded_text) demo_log1 _ 2 (bs "t") (bs "bob") (bs "SELECT 2") 1
    (audit_next demo_hash (H := coded_text) demo_log0 [] 1 (bs "t") (bs "alice") (bs "SELECT 1") 1
      (audit_start demo_hash (H := coded_text) demo_log0 eq_refl))).
Qed.

Lemma audit_log_verifies_witness :
  AuditLog_read_all (H := coded_text) demo_log2 = Ok demo_recorded /\ verify_chain demo_hash (H := coded_text) demo_log2 = Ok tt.
Proof.
  destruct (audit_log_verifies demo_hash (H := coded_text) (H0 := coded_text_laws) (JsonLine0 := coded_line) _ _ demo_audit_run) as (A & B & _); [done|].
  exact (conj A B).
Defined.

Lemma audit_tamper_evident_witness :
  AuditLog_read_all (H := coded_text) demo_log2 = Ok demo_recorded /\
  (map entry_input demo_recorded = map entry_input demo_recorded \/ hash_broken demo_hash demo_recorded demo_recorded).
Proof.
  destruct (audit_log_verifies demo_hash (H := coded_text) (H0 := coded_text_laws) (JsonLine0 := coded_line) _ _ demo_audit_run) as (A & B & _); [done|].
  split; [exact A|].
  assert (L : load_last_hash (H := coded_text) (al_file demo_log2) = Ok (chain_last demo_recorded)).
  { destruct (audit_run_inv demo_hash (H := coded_text) (H0 := coded_text_laws) (JsonLine0 := coded_line) _ _ demo_audit_run) as (_ & _ & ->).
    apply (load_text (H := coded_text) (H0 := coded_text_laws) (JsonLine0 := coded_line)). }
  exact (audit_tamper_evident demo_hash (H := coded_text) demo_hash_length demo_log2 demo_log2 _ _ _ A B L A B L).
Defined.

Lemma audit_fields_can_move_witness : chained demo_hash GENESIS
  (map (fun e => mkAuditEntry (au_ts e) (au_tenant e ++ au_user e) [] (au_query e) (au_rows e) (au_hash e)) demo_entries).
Proof.
  apply (audit_fields_can_move demo_hash [] _ (record_entry demo_hash GENESIS 1 (bs "t") (bs "alice") (bs "SELECT 1") 1) (bs "talice") [] (bs "SELECT 1")); [|done].
  apply (audit_fields_can_move demo_hash [record_entry demo_hash GENESIS 1 (bs "t") (bs "alice") (bs "SELECT 1") 1] []
    (record_entry demo_hash (chain_link demo_hash GENESIS 1 (bs "t") (bs "alice") (bs "SELECT 1") 1) 2 (bs "t") (bs "bob") (bs "SELECT 2") 1)
    (bs "tbob") [] (bs "SELECT 2")); [apply demo_chained|done].
Defined.

(** A cipher that appends its key, cut to 16 bytes, as the tag *)
Definition demo_tag (key aad : bytes) : bytes := take 16 (key ++ aad ++ replicate 16 x00).
#[global] Instance demo_aead : Aead := {
  aead_key s := s;
  aead_encrypt key nonce aad msg := Some (msg ++ demo_tag key aad);
  aead_decrypt key nonce aad ct :=
    if bool_decide (drop (length ct - 16) ct = demo_tag key aad) then Some (take (length ct - 16) ct) else None }.
Lemma length_demo_tag key aad : length (demo_tag key aad) = 16%nat.
Proof. unfold demo_tag. rewrite length_take, !length_app, length_replicate. lia. Qed.
#[global] Instance demo_aead_laws : AeadLaws.
Proof.
  split; intros key nonce aad msg ct [= <-].
  - cbn. rewrite length_app, length_demo_tag, Nat.add_sub, drop_app_length, take_app_length. by rewrite bool_decide_eq_true_2.
  - unfold len. rewrite length_app, length_demo_tag. lia.
Qed.

Lemma seal_round_trip_witness :
  let k := DataKey_from_secret (bs "secret") in let nonce := replicate 24 x07 in let aad := cell_aad (bs "t") (bs "1") (bs "c") in
  (s ← match seal k nonce aad (bs "hello") with Ok s => Some s | _ => None end; Some (open_sealed k aad s)) = Some (Ok (bs "hello")).
Proof.
  cbv zeta. destruct (seal_round_trip (DataKey_from_secret (bs "secret")) (replicate 24 x07) (cell_aad (bs "t") (bs "1") (bs "c")) (bs "hello") eq_refl)
    as [A _]. specialize (A _ eq_refl) as [A _]. cbn [seal aead_encrypt demo_aead mbind option_bind]. by f_equal.
Defined.

(** Two statements that record at the same time read the same last hash; the log then
    does not verify, although nobody tampered with it. *)
Theorem concurrent_records_break_chain :
  let first := record_entry demo_hash GENESIS 1 (bs "t") (bs "alice") (bs "SELECT 1") 1 in
  let second := record_entry demo_hash GENESIS 2 (bs "t") (bs "bob") (bs "SELECT 2") 1 in
  ~ chained demo_hash GENESIS [first; second].
Proof. cbv zeta. cbn [chained]. intros (_ & E & _). vm_compute in E. discriminate E. Qed.
