(* ===== verification/Bind.v ===== *)
(** * Prepared statements and row-level security
      (crates/noedb-engine/src: prepared.rs, rls.rs)

    Both rewrite a statement before it runs: the parameters of a prepared statement
    become literals, and the policies of a table become part of the WHERE clause.  A
    walk with a callback is the list of the expressions it visits, in its order. *)

From S2P Require Import Prelude StorageError Text Float64 Tokens Ast Display Utf8 Value Cast Eval Plan SetOps RowOps WindowExec Build Catalog.

(** ** prepared.rs *)

Fixpoint walk_expr (e : Expr) : list Expr :=
  e :: match e with
       | EBinary _ l r _ => walk_expr l ++ walk_expr r
       | EUnary _ x _ | EIsNull x _ _ => walk_expr x
       | EIn x values _ _ => walk_expr x ++ concat (map walk_expr values)
       | EInSubquery x query _ _ =>
           walk_expr x ++
           match query with
           | mkSelectStmt _ _ items _ _ where_clause _ _ _ _ _ _ _ =>
               (match where_clause with Some w => walk_expr w | None => [] end) ++
               concat (map (fun i => let 'mkSelectItem e _ := i in walk_expr e) items)
           end
       | EBetween x lo hi _ _ => walk_expr x ++ walk_expr lo ++ walk_expr hi
       | EFunction _ args over _ =>
           concat (map walk_expr args) ++
           match over with
           | Some (mkWindowSpec partition_by order_by _) =>
               concat (map walk_expr partition_by) ++ concat (map (fun k => let 'mkOrderKey e _ := k in walk_expr e) order_by)
           | None => []
           end
       | EParen x _ | ECast x _ _ => walk_expr x
       | _ => []
       end.

Definition walk_items (items : list SelectItem) : list Expr := concat (map (fun i => walk_expr (item_expr i)) items).
Definition walk_where (w : option Expr) : list Expr := match w with Some w => walk_expr w | None => [] end.

Fixpoint walk_select_stmt (s : SelectStmt) : list Expr :=
  match s with
  | mkSelectStmt _ _ items _ _ where_clause _ _ _ _ _ compound _ =>
      (match compound with Some (mkCompoundSelect _ _ rhs) => walk_select_stmt rhs | None => [] end) ++
      walk_items items ++ walk_where where_clause
  end.
Definition walk_cte_body (body : CteBody) : list Expr :=
  match body with
  | CteSelect s => walk_select_stmt s
  | CteUnion anchor _ recursive => walk_select_stmt anchor ++ walk_select_stmt recursive
  end.
Definition walk_stmt (stmt : Statement) : list Expr :=
  match stmt with
  | SSelect s =>
      (match sel_with s with
       | Some (mkWithClause _ ctes _) => concat (map (fun c => let 'mkCteDef _ body _ := c in walk_cte_body body) ctes)
       | None => []
       end) ++ walk_items (sel_items s) ++ walk_where (sel_where s)
  | _ => []
  end.

Definition param_index (e : Expr) : Z := match e with EParameter index _ => index | _ => 0 end.
Definition max_param_index (stmt : Statement) : Z := fold_left (fun m e => Z.max m (param_index e)) (walk_stmt stmt) 0.

Section substitute.
Context (params : list Literal).

(** [params.get(index - 1)], NULL when there is none; [index] is unsigned. *)
Definition bound_literal (index : Z) (span : Span) : Literal :=
  default (LNull span) (params !! Z.to_nat (Z.max 0 (index - 1))).

Fixpoint substitute_expr (e : Expr) : Expr :=
  match e with
  | EParameter index span => ELiteral (bound_literal index span)
  | EBinary op l r s => EBinary op (substitute_expr l) (substitute_expr r) s
  | EUnary op x s => EUnary op (substitute_expr x) s
  | EIsNull x n s => EIsNull (substitute_expr x) n s
  | EIn x values n s => EIn (substitute_expr x) (map substitute_expr values) n s
  | EInSubquery x query n s => EInSubquery (substitute_expr x) (substitute_select query) n s
  | EExists query n s => EExists (substitute_select query) n s
  | EBetween x lo hi n s => EBetween (substitute_expr x) (substitute_expr lo) (substitute_expr hi) n s
  | EParen x s => EParen (substitute_expr x) s
  | ECast x ty s => ECast (substitute_expr x) ty s
  | other => other
  end
with substitute_item (i : SelectItem) : SelectItem :=
  match i with mkSelectItem e alias => mkSelectItem (substitute_expr e) alias end
with substitute_select (q : SelectStmt) : SelectStmt :=
  match q with
  | mkSelectStmt with_clause distinct items from joins where_clause group_by having order_by limit offset compound s =>
      mkSelectStmt (match with_clause with Some w => Some (substitute_with w) | None => None end) distinct
        (map substitute_item items) from joins
        (match where_clause with Some e => Some (substitute_expr e) | None => None end)
        (map substitute_expr group_by)
        (match having with Some e => Some (substitute_expr e) | None => None end)
        order_by limit offset
        (match compound with Some c => Some (substitute_compound c) | None => None end) s
  end
with substitute_compound (c : CompoundSelect) : CompoundSelect :=
  match c with mkCompoundSelect op all rhs => mkCompoundSelect op all (substitute_select rhs) end
with substitute_cte_body (b : CteBody) : CteBody :=
  match b with
  | CteSelect s => CteSelect (substitute_select s)
  | CteUnion anchor all recursive => CteUnion (substitute_select anchor) all (substitute_select recursive)
  end
with substitute_cte (c : CteDef) : CteDef :=
  match c with mkCteDef name body s => mkCteDef name (substitute_cte_body body) s end
with substitute_with (w : WithClause) : WithClause :=
  match w with mkWithClause recursive ctes s => mkWithClause recursive (map substitute_cte ctes) s end.

Definition substitute_params (stmt : Statement) : Statement :=
  match stmt with SSelect s => SSelect (substitute_select s) | other => other end.
End substitute.

Definition bind_parameters (stmt : Statement) (params : list Literal) : outcome EngineError Statement :=
  if negb (Z.min (len params) 65535 =? max_param_index stmt) then Err (InvalidSql "parameter count mismatch")
  else Ok (substitute_params params stmt).

Record PreparedStatement : Type := mkPreparedStatement { pp_stmt : Statement; pp_param_count : Z }.
Record PrepareCache : Type := mkPrepareCache { pp_stmts : gmap bytes PreparedStatement }.
Definition PrepareCache_default : PrepareCache := mkPrepareCache ∅.
Definition PrepareCache_insert (c : PrepareCache) (name : bytes) (stmt : Statement) : outcome EngineError PrepareCache :=
  Ok (mkPrepareCache (<[name := mkPreparedStatement stmt (max_param_index stmt)]> (pp_stmts c))).
Definition PrepareCache_get (c : PrepareCache) (name : bytes) : option PreparedStatement := pp_stmts c !! name.

(** ** rls.rs *)

Record Policy : Type := mkPolicy { po_name : bytes; po_using : Expr }.
Record RlsCatalog : Type := mkRlsCatalog { rls_enabled : gset bytes; rls_policies : gmap bytes (list Policy) }.
Definition RlsCatalog_default : RlsCatalog := mkRlsCatalog ∅ ∅.

Definition rls_enable (c : RlsCatalog) (table : bytes) : RlsCatalog :=
  mkRlsCatalog ({[to_lower table]} ∪ rls_enabled c) (rls_policies c).
Definition add_policy (c : RlsCatalog) (stmt : CreatePolicyStmt) : RlsCatalog :=
  let table := to_lower (id_value (cp_table stmt)) in
  mkRlsCatalog (rls_enabled c)
    (<[table := default [] (rls_policies c !! table) ++ [mkPolicy (id_value (cp_name stmt)) (cp_using stmt)]]> (rls_policies c)).
Definition rls_is_enabled (c : RlsCatalog) (table : bytes) : bool := bool_decide (to_lower table ∈ rls_enabled c).

Definition and_expr (left right : Expr) : Expr := EBinary BAnd left right (expr_span left).
Definition merge_where (existing : option Expr) (pred : Expr) : Expr :=
  match existing with None => pred | Some e => and_expr e pred end.

Fixpoint materialize_session (role : bytes) (e : Expr) : Expr :=
  match e with
  | ECurrentUser span => ELiteral (LString role span)
  | EBinary op l r s => EBinary op (materialize_session role l) (materialize_session role r) s
  | EUnary op x s => EUnary op (materialize_session role x) s
  | EIsNull x n s => EIsNull (materialize_session role x) n s
  | EIn x values n s => EIn (materialize_session role x) (map (materialize_session role) values) n s
  | EBetween x lo hi n s =>
      EBetween (materialize_session role x) (materialize_session role lo) (materialize_session role hi) n s
  | EParen x s => EParen (materialize_session role x) s
  | other => other
  end.

Definition policy_predicate (c : RlsCatalog) (table role : bytes) : option Expr :=
  if negb (rls_is_enabled c table) then None
  else
    policies ← rls_policies c !! to_lower table;
    fold_left (fun combined p =>
      let pred := materialize_session role (po_using p) in
      Some (match combined with None => pred | Some existing => and_expr existing pred end)) policies None.

Definition apply_select (c : RlsCatalog) (q : SelectStmt) (role : bytes) : SelectStmt :=
  match sel_from q with
  | Some (FromTable t) => match policy_predicate c (id_value (tr_name t)) role with
                          | Some pred => set_where (Some (merge_where (sel_where q) pred)) q
                          | None => q
                          end
  | _ => q
  end.
Definition apply_update (c : RlsCatalog) (u : UpdateStmt) (role : bytes) : UpdateStmt :=
  match policy_predicate c (id_value (up_table u)) role with
  | Some pred => mkUpdateStmt (up_table u) (up_assignments u) (Some (merge_where (up_where u) pred)) (up_span u)
  | None => u
  end.
Definition apply_delete (c : RlsCatalog) (d : DeleteStmt) (role : bytes) : DeleteStmt :=
  match policy_predicate c (id_value (del_table d)) role with
  | Some pred => mkDeleteStmt (del_table d) (Some (merge_where (del_where d) pred)) (del_span d)
  | None => d
  end.
Definition apply_rls (stmt : Statement) (c : RlsCatalog) (role : bytes) : Statement :=
  match stmt with
  | SSelect s => SSelect (apply_select c s role)
  | SUpdate u => SUpdate (apply_update c u role)
  | SDelete d => SDelete (apply_delete c d role)
  | other => other
  end.

(** ** Binding leaves no parameter *)

Definition is_param (e : Expr) : bool := match e with EParameter _ _ => true | _ => false end.
Definition is_function (e : Expr) : bool := match e with EFunction _ _ _ _ => true | _ => false end.

Lemma existsb_concat {A B} (p : B -> bool) (f : A -> list B) l : existsb p (concat (map f l)) = existsb (fun x => existsb p (f x)) l.
Proof. induction l as [|x l IH]; [done|]. cbn [map concat existsb]. by rewrite existsb_app, IH. Qed.

Lemma substitute_expr_clean params (e : Expr) :
  existsb is_function (walk_expr e) = false -> existsb is_param (walk_expr (substitute_expr params e)) = false.
Proof.
  revert e. fix IH 1. intros [l|c|op l r s|op e s|e n s|e vs n s|e q n s|q n s|q s|e lo hi n s|e s|i s|s|e t s|f args o s];
    cbn [walk_expr substitute_expr existsb is_function is_param orb]; rewrite ?existsb_app, ?orb_false_iff; try done.
  - intros [? ?]. split; by apply IH.
  - apply IH.
  - apply IH.
  - intros [H1 H2]. split; [by apply IH|]. rewrite existsb_concat in *. clear -IH H2.
    induction vs as [|v vs IHvs]; [done|]. cbn [map existsb] in *. apply orb_false_iff in H2 as [H2 H3]. apply orb_false_iff. split; [by apply IH|by apply IHvs].
  - destruct q as [w d items f j wh g h o l off c sp]. cbn [substitute_select]. rewrite ?existsb_app, ?orb_false_iff, !existsb_concat.
    intros (H1 & H2 & H3). split_and!; [by apply IH|destruct wh; [by apply IH|done]|]. clear -IH H3.
    induction items as [|[x a] items IHi]; [done|]. cbn [map existsb substitute_item] in *. apply orb_false_iff in H3 as [H3 H4].
    apply orb_false_iff. split; [by apply IH|by apply IHi].
  - intros (? & ? & ?). split_and!; by apply IH.
  - apply IH.
  - apply IH.
Qed.

Lemma substitute_items_clean params items :
  existsb is_function (walk_items items) = false -> existsb is_param (walk_items (map (substitute_item params) items)) = false.
Proof.
  unfold walk_items. rewrite !existsb_concat. induction items as [|[x a] items IH]; [done|]. cbn [map existsb substitute_item item_expr].
  rewrite !orb_false_iff. intros [? ?]. split; [by apply substitute_expr_clean|by apply IH].
Qed.
Lemma substitute_where_clean params w :
  existsb is_function (walk_where w) = false ->
  existsb is_param (walk_where (match w with Some e => Some (substitute_expr params e) | None => None end)) = false.
Proof. destruct w; [apply substitute_expr_clean|done]. Qed.

Lemma substitute_select_clean params q :
  existsb is_function (walk_select_stmt q) = false -> existsb is_param (walk_select_stmt (substitute_select params q)) = false.
Proof.
  revert q. fix IH 1. intros [w d items f j wh g h o l off [[op all right_]|] sp];
    cbn [substitute_select substitute_compound walk_select_stmt]; rewrite !existsb_app, !orb_false_iff.
  - intros (? & ? & ?). split_and!; [by apply IH|by apply substitute_items_clean|by apply substitute_where_clean].
  - intros (? & ? & ?). split_and!; [done|by apply substitute_items_clean|by apply substitute_where_clean].
Qed.

Lemma fold_max_ge l m : m <= fold_left (fun m e => Z.max m (param_index e)) l m.
Proof. revert m. induction l as [|e l IH]; intros m; cbn; [lia|]. specialize (IH (Z.max m (param_index e))). lia. Qed.
Lemma fold_max_in l m i s : EParameter i s ∈ l -> i <= fold_left (fun m e => Z.max m (param_index e)) l m.
Proof.
  revert m. induction l as [|e l IH]; intros m Hin; [by apply not_elem_of_nil in Hin|]. cbn.
  apply elem_of_cons in Hin as [<-|Hin]; [|by apply IH]. cbn. pose proof (fold_max_ge l (Z.max m i)). lia.
Qed.

(** [EXECUTE] binds completely: with the right number of arguments (fewer than 2^16) every parameter
    that binding looks for, numbered from 1, has an argument, and no parameter is left in
    the bound statement, as long as the statement calls no functions. *)
Theorem bind_complete (q : SelectStmt) (params : list Literal) (stmt : Statement) :
  bind_parameters (SSelect q) params = Ok stmt -> len params < 65535 ->
  existsb is_function (walk_stmt (SSelect q)) = false ->
  existsb is_param (walk_stmt stmt) = false /\
  (forall i s, EParameter i s ∈ walk_stmt (SSelect q) -> 1 <= i -> exists v, params !! Z.to_nat (i - 1) = Some v).
Proof.
  unfold bind_parameters. destruct (Z.eqb_spec (Z.min (len params) 65535) (max_param_index (SSelect q))) as [Hn|]; [|done].
  intros [= <-] Hlen Hf. split.
  - destruct q as [w d items f j wh g h o l off c sp]. cbn [walk_stmt substitute_params substitute_select sel_with sel_items sel_where] in *.
    rewrite !existsb_app, !orb_false_iff in *. destruct Hf as (H1 & H2 & H3).
    split_and!; [|by apply substitute_items_clean|by apply substitute_where_clean].
    destruct w as [[rc ctes sw]|]; [|done]. cbn [substitute_with]. rewrite existsb_concat in *.
    clear -H1. induction ctes as [|[n b sc] ctes IH]; [done|]. cbn [map existsb substitute_cte] in *.
    apply orb_false_iff in H1 as [H1 H2]. apply orb_false_iff. split; [|by apply IH].
    destruct b as [s|a al r]; cbn [walk_cte_body substitute_cte_body] in *; rewrite ?existsb_app, ?orb_false_iff in *.
    + by apply substitute_select_clean.
    + destruct H1. split; by apply substitute_select_clean.
  - intros i s Hin Hi. apply (fold_max_in _ 0) in Hin. fold (max_param_index (SSelect q)) in Hin.
    apply lookup_lt_is_Some. unfold len in *. lia.
Qed.

Definition at0 : Span := mkSpan 0 0.
Definition demo_named (c : string) : Expr := EColumn (Named None (mkIdent (bs c) at0)).
Definition demo_select (items : list Expr) (where_ : option Expr) (having : option Expr) : SelectStmt :=
  mkSelectStmt None false (map (fun e => mkSelectItem e None) items) (Some (FromTable (mkTableRef (mkIdent (bs "t") at0) None at0))) [] where_
    [] having [] None None None at0.

Lemma bind_complete_witness :
  let q := demo_select [demo_named "a"] (Some (EBinary BEq (demo_named "b") (EParameter 1 at0) at0)) None in
  exists stmt, bind_parameters (SSelect q) [LInteger 7 at0] = Ok stmt /\ existsb is_param (walk_stmt stmt) = false.
Proof.
  cbv zeta. eexists. split; [vm_compute; reflexivity|].
  eapply (bind_complete (demo_select [demo_named "a"] (Some (EBinary BEq (demo_named "b") (EParameter 1 at0) at0)) None) [LInteger 7 at0]);
    [vm_compute; reflexivity|vm_compute; reflexivity|reflexivity].
Defined.

(** Binding does not look everywhere: a parameter in HAVING is not counted, so that the
    statement binds without arguments and the parameter becomes NULL; one in a function
    call is counted but stays. *)
Theorem bind_misses_parameters :
  let p := EParameter 1 at0 in
  let upper := EFunction (mkIdent (bs "UPPER") at0) [p] None at0 in
  bind_parameters (SSelect (demo_select [demo_named "a"] None (Some p))) [] =
    Ok (SSelect (demo_select [demo_named "a"] None (Some (ELiteral (LNull at0))))) /\
  bind_parameters (SSelect (demo_select [demo_named "a"] None (Some p))) [LInteger 7 at0] = Err (InvalidSql "parameter count mismatch") /\
  bind_parameters (SSelect (demo_select [upper] None None)) [LString (bs "x") at0] = Ok (SSelect (demo_select [upper] None None)).
Proof. vm_compute. done. Qed.

(** ** Policies are conjuncts *)

Section policies.
Context `{ExecEnv}.

Lemma predicate_and l r s row : eval_predicate (EBinary BAnd l r s) row = Ok true <->
  eval_predicate l row = Ok true /\ eval_predicate r row = Ok true.
Proof.
  unfold eval_predicate. cbn [eval_expr eval_binary].
  destruct (eval_expr l row) as [[| | | |[|]| | |]|e|]; cbn [obind]; try (split; [discriminate|intros [E _]; discriminate E]; fail).
  - destruct (eval_expr r row) as [[| | | |[|]| | |]|e|]; cbn [obind];
      (split; [discriminate|intros [E _]; discriminate E]).
  - tauto.
Qed.

Lemma merge_where_true w pred row : eval_predicate (merge_where w pred) row = Ok true <->
  (forall e, w = Some e -> eval_predicate e row = Ok true) /\ eval_predicate pred row = Ok true.
Proof.
  destruct w as [e|]; cbn [merge_where].
  - unfold and_expr. rewrite predicate_and. split; intros [? ?]; (split; [|done]); [by intros ? [= <-]|auto].
  - split; [|tauto]. intros ?. by split.
Qed.

(** The policies of a table under a role: none, or the conjunction of all of them *)
Definition table_policies (c : RlsCatalog) (table role : bytes) : list Expr :=
  if rls_is_enabled c table then map (fun p => materialize_session role (po_using p)) (default [] (rls_policies c !! to_lower table)) else [].

Lemma policy_predicate_spec c table role row :
  match policy_predicate c table role with
  | None => table_policies c table role = []
  | Some pred => eval_predicate pred row = Ok true <-> Forall (fun e => eval_predicate e row = Ok true) (table_policies c table role)
  end.
Proof.
  unfold policy_predicate, table_policies. destruct (rls_is_enabled c table); cbn [negb]; [|done].
  destruct (rls_policies c !! to_lower table) as [ps|]; [|done]. cbn [mbind option_bind default].
  assert (G : forall acc,
    match fold_left (fun combined p => Some (match combined with None => materialize_session role (po_using p)
                                             | Some existing => and_expr existing (materialize_session role (po_using p)) end)) ps acc with
    | None => acc = None /\ ps = []
    | Some pred => eval_predicate pred row = Ok true <->
        (forall e, acc = Some e -> eval_predicate e row = Ok true) /\
        Forall (fun e => eval_predicate e row = Ok true) (map (fun p => materialize_session role (po_using p)) ps)
    end).
  { induction ps as [|p ps IH]; intros acc; cbn [fold_left map].
    - destruct acc as [e|]; [|done]. split; [intros ?; split; [by intros ? [= <-]|constructor]|intros [A _]; auto].
    - specialize (IH (Some (match acc with None => materialize_session role (po_using p) | Some existing => and_expr existing (materialize_session role (po_using p)) end))).
      destruct (fold_left _ ps _) as [pred|]; [|by destruct IH]. rewrite IH, Forall_cons. unfold and_expr. split.
      + intros [A B]. specialize (A _ eq_refl). destruct acc as [e|]; [apply predicate_and in A as [? ?]|]; split_and!; try done. by intros ? [= <-].
      + intros (A & B & C). split; [|done]. intros x [= <-]. destruct acc as [e|]; [|done]. apply predicate_and. auto. }
  specialize (G None). destruct (fold_left _ ps None); [|by destruct G as [_ ->]]. rewrite G. split; [tauto|done].
Qed.
End policies.
