(* ===== verification/Hnsw.v ===== *)
(** * Vector indexes
      (crates/noedb-storage/src/hnsw.rs, crates/noedb-engine/src/vector_index.rs)

    An index keeps a vector per row and a neighbour graph; the catalog keeps one index
    per VECTOR column.  Single-precision numbers are doubles with 24 bits, as in
    [Value].  [sort_by] with a comparison that is not total (a NaN distance) is left
    open by the standard library; here it compares as equal. *)

From S2P Require Import Prelude BTree StorageError Text Float64 Tokens Ast Display Utf8 Value Cast Eval Plan SetOps RowOps Catalog.

(** ** hnsw.rs *)

Definition f32_add : f64 -> f64 -> f64 := SFadd 24 128.
Definition f32_sub : f64 -> f64 -> f64 := SFsub 24 128.
Definition f32_mul : f64 -> f64 -> f64 := SFmul 24 128.
Definition f32_sqrt : f64 -> f64 := SFsqrt 24 128.
Definition F32_MAX : f64 := S754_finite false (2 ^ 24 - 1) 104.

(** [zip] stops at the shorter vector; the sum of an iterator starts from -0.0. *)
Definition l2 (a b : list f64) : f64 :=
  f32_sqrt (fold_left (fun s xy => let d := f32_sub xy.1 xy.2 in f32_add s (f32_mul d d)) (combine a b) (S754_zero true)).

Definition f32_gt (a b : f64) : bool := match SFcompare a b with Some Gt => true | _ => false end.

Record HnswIndex : Type := mkHnswIndex {
  hn_dim : Z; hn_m : nat; hn_nodes : gmap bytes (list f64); hn_graph : gmap bytes (list bytes) }.

Definition HnswIndex_new (dim : Z) : HnswIndex := mkHnswIndex dim 16 ∅ ∅.

Section hnsw.
Context `{StdChoices}.

Definition scored (nodes : gmap bytes (list f64)) (query : list f64) : list (bytes * f64) :=
  map (fun e => (e.1, l2 query e.2)) (hash_iter (map_to_list nodes)).
Definition by_distance (l : list (bytes * f64)) : list (bytes * f64) := sort_by (fun a b => f32_gt a.2 b.2) l.

(** One neighbour of [id]: it gets a link back, and the links nearest to [id] stay. *)
Definition link_back (nodes : gmap bytes (list f64)) (m : nat) (id : bytes) (graph : gmap bytes (list bytes)) (n : bytes)
    : gmap bytes (list bytes) :=
  let entry := default [] (graph !! n) in
  let entry := if existsb (fun x => bool_decide (x = id)) entry then entry else entry ++ [id] in
  let dist a := match nodes !! a with Some v => l2 v (default v (nodes !! id)) | None => F32_MAX end in
  let entry := if (m <? length entry)%nat then take m (sort_by (fun a b => f32_gt (dist a) (dist b)) entry) else entry in
  <[n := entry]> graph.

Definition relink (ix : HnswIndex) (id : bytes) : HnswIndex :=
  match hn_nodes ix !! id with
  | None => ix
  | Some vec =>
      let others := filter (fun e => e.1 <> id) (hash_iter (map_to_list (hn_nodes ix))) in
      let near := by_distance (map (fun e => (e.1, l2 vec e.2)) others) in
      let neighbors := map fst (take (hn_m ix) near) in
      let graph := <[id := neighbors]> (hn_graph ix) in
      mkHnswIndex (hn_dim ix) (hn_m ix) (hn_nodes ix) (fold_left (link_back (hn_nodes ix) (hn_m ix) id) neighbors graph)
  end.

(** The debug assertion on the dimension is a panic in debug builds. *)
Definition HnswIndex_insert (debug : bool) (ix : HnswIndex) (id : bytes) (vector : list f64) : outcome EngineError HnswIndex :=
  if debug && negb (len vector =? hn_dim ix) then Panic
  else Ok (relink (mkHnswIndex (hn_dim ix) (hn_m ix) (<[id := vector]> (hn_nodes ix)) (hn_graph ix)) id).

Definition HnswIndex_remove (ix : HnswIndex) (id : bytes) : HnswIndex :=
  mkHnswIndex (hn_dim ix) (hn_m ix) (delete id (hn_nodes ix))
    (filter (fun n => n <> id) <$> delete id (hn_graph ix)).

Definition HnswIndex_search (ix : HnswIndex) (query : list f64) (k : nat) : list (bytes * f64) :=
  if bool_decide (hn_nodes ix = ∅) || (k =? 0)%nat then [] else take k (by_distance (scored (hn_nodes ix) query)).

(** ** vector_index.rs *)

Record VectorIndexCatalog : Type := mkVectorIndexCatalog { vi_indexes : gmap (bytes * bytes) HnswIndex }.
Definition VectorIndexCatalog_default : VectorIndexCatalog := mkVectorIndexCatalog ∅.

Definition register_column (c : VectorIndexCatalog) (table column : bytes) (dim : Z) : VectorIndexCatalog :=
  mkVectorIndexCatalog (<[(table, column) := HnswIndex_new dim]> (vi_indexes c)).
Definition vi_drop_table (c : VectorIndexCatalog) (table : bytes) : VectorIndexCatalog :=
  mkVectorIndexCatalog (filter (fun e => eq_ignore_case e.1.1 table = false) (vi_indexes c)).

(** The float literals of a text, for [None] when one does not parse *)
Definition parse_floats (parts : list bytes) : option (list f64) :=
  match traverse (E := unit) (fun p => match parse_f32_str p with Some f => Ok f | None => Err tt end) parts with
  | Ok l => Some l
  | _ => None
  end.
Definition parse_vector_text_bytes (b : bytes) : option (list f64) :=
  s ← from_utf8 b;
  let s := strip_brackets s in
  match s with [] => Some [] | _ => parse_floats (comma_parts s) end.

(** dml.rs: the stored form of a vector *)
Definition VECTOR_MAGIC : bytes := bs "NDV1".
Definition vector_to_bytes (values : list f64) : bytes := VECTOR_MAGIC ++ concat (map f32_le_bytes values).
Definition vector_from_bytes (b : bytes) : option (list f64) :=
  if negb (starts_with VECTOR_MAGIC b) then None
  else let payload := drop (length VECTOR_MAGIC) b in
       if negb (len payload mod 4 =? 0) then None else Some (chunks4 payload).

Definition value_as_f32s (v : Value) : option (list f64) :=
  match v with
  | VVector v => Some v
  | VBytes b => match vector_from_bytes b with Some v => Some v | None => parse_vector_text_bytes b end
  | _ => None
  end.

Definition upsert (debug : bool) (c : VectorIndexCatalog) (table column row_id : bytes) (value : Value)
    : outcome EngineError VectorIndexCatalog :=
  match vi_indexes c !! (table, column) with
  | None => Ok c
  | Some ix => match value_as_f32s value with
               | None => Ok c
               | Some vec => let? ix' := HnswIndex_insert debug ix row_id vec in
                             Ok (mkVectorIndexCatalog (<[(table, column) := ix']> (vi_indexes c)))
               end
  end.
Definition vi_remove (c : VectorIndexCatalog) (table column row_id : bytes) : VectorIndexCatalog :=
  match vi_indexes c !! (table, column) with
  | None => c
  | Some ix => mkVectorIndexCatalog (<[(table, column) := HnswIndex_remove ix row_id]> (vi_indexes c))
  end.
Definition vi_search (c : VectorIndexCatalog) (table column : bytes) (query : list f64) (k : nat) : list (bytes * f64) :=
  match vi_indexes c !! (table, column) with None => [] | Some ix => HnswIndex_search ix query k end.
Definition register_table_schema (c : VectorIndexCatalog) (table : bytes) (columns : list ColumnMeta) : VectorIndexCatalog :=
  fold_left (fun c col => match cm_type col with TyVector dim => register_column c table (cm_name col) dim | _ => c end) columns c.
End hnsw.
