(* ===== verification/Dml.v ===== *)
(** * INSERT, UPDATE and DELETE
      (crates/noedb-engine/src: machine.rs, dml.rs, txn.rs)

    Statements write packed rows, index entries and tombstones either to the storage
    tree, each with a timestamp of its own, or to the write set of an open
    transaction.  The tree is an interface: what the engine calls of [LsmTree].  A
    call that fails keeps what it has written so far, so a statement is a function on
    the state that returns an outcome and the new state. *)

From S2P Require Import Prelude BTree StorageError Mvcc MvccMemTable Txn TxnManager MemTable Text Float64 Tokens Ast Display Utf8 RowPack Value Cast Eval Plan TableScan SetOps RowOps Optimize Catalog Hnsw.

(** ** The tree *)

Class TreeOps (T : Type) : Type := {
  tr_get : T -> bytes -> outcome StorageError (option bytes);
  tr_get_visible : T -> bytes -> ReadView -> outcome StorageError (option bytes);
  tr_iter : T -> list (bytes * bytes);
  tr_range : T -> bytes -> bytes -> list (bytes * bytes);
  tr_range_keys : T -> bytes -> bytes -> list bytes;
  tr_range_visible : T -> bytes -> bytes -> ReadView -> list (bytes * bytes);
  tr_put : bytes -> bytes -> SM T StorageError unit;
  tr_delete : bytes -> SM T StorageError bool;
  tr_put_version : bytes -> Version -> SM T StorageError unit;
  tr_gc_active : Z -> T -> T;
  tr_pressure : T -> Z }.

(** The planner's view of the tree: reads, and the writes of a plain engine *)
#[global] Instance tree_rows {T} `{TreeOps T} : RowStore T | 0 := {
  rs_get := tr_get; rs_range := tr_range; rs_range_keys := tr_range_keys }.
#[global] Instance tree_engine {T} `{TreeOps T} : StorageEngine T := {
  se_get := tr_get;
  se_put t k v := match tr_put k v t with (Ok _, t') => Ok t' | (Err e, _) => Err e | (Panic, _) => Panic end;
  se_delete t k := match tr_delete k t with (Ok b, t') => Ok (b, t') | (Err e, _) => Err e | (Panic, _) => Panic end;
  se_iter := tr_iter }.

(** ** machine.rs *)

Definition cell_key (table row column : bytes) : bytes := table ++ [zero] ++ row ++ [zero] ++ column.

(** ** State *)

Record DmlState (T : Type) : Type := mkDmlState { d_tree : T; d_txn : TxnManager; d_vectors : option VectorIndexCatalog }.
Arguments mkDmlState {T}. Arguments d_tree {T}. Arguments d_txn {T}. Arguments d_vectors {T}.

Section dml.
Context {T : Type} `{TreeOps T} `{ExecEnv} `{StdChoices}.
Abbreviation DM A := (SM (DmlState T) EngineError A).

Definition on_tree {A} (p : SM T StorageError A) : DM A := fun s =>
  let '(r, t) := p (d_tree s) in (map_err EStorage r, mkDmlState t (d_txn s) (d_vectors s)).
Definition on_txn {A} (p : TM A) : DM A := fun s =>
  let '(r, m) := p (d_txn s) in (map_err txn_err r, mkDmlState (d_tree s) m (d_vectors s)).
Definition lift {A} (o : outcome EngineError A) : DM A := fun s => (o, s).
Definition exec {A} (o : outcome ExecError A) : outcome EngineError A := map_err EExec o.
(** A planner operation on the tree: [outcome] of the new tree *)
Definition on_engine (f : T -> outcome StorageError T) : DM unit := fun s =>
  match f (d_tree s) with
  | Ok t => (Ok tt, mkDmlState t (d_txn s) (d_vectors s))
  | Err e => (Err (EStorage e), s)
  | Panic => (Panic, s)
  end.
Definition on_vectors (f : VectorIndexCatalog -> outcome EngineError VectorIndexCatalog) : DM unit := fun s =>
  match d_vectors s with
  | None => (Ok tt, s)
  | Some v => match f v with
              | Ok v' => (Ok tt, mkDmlState (d_tree s) (d_txn s) (Some v'))
              | Err e => (Err e, s)
              | Panic => (Panic, s)
              end
  end.

Fixpoint for_each_do {A} (f : A -> DM unit) (l : list A) : DM unit :=
  match l with [] => sret tt | x :: l => let* _ := f x in for_each_do f l end.

(** ** txn.rs *)

Definition put_key_in_txn (session_id : Z) (key value : bytes) : DM unit := on_txn (txn_put session_id key value).
Definition delete_cell_in_txn (session_id : Z) (key : bytes) : DM unit := on_txn (txn_delete session_id key).
Definition put_row_in_txn (session_id : Z) (table row column value : bytes) : DM unit :=
  on_txn (txn_put session_id (cell_key table row column) value).

Record TxnOverlayStore : Type := mkTxnOverlayStore { ov_base : T; ov_view : ReadView; ov_overlay : gmap bytes (option bytes) }.

Definition op_entry (op : WriteOp) : option bytes := match op with WPut v => Some v | WDelete => None end.

Definition build_read_overlay (session_id : Z) (view : ReadView) : TM (gmap bytes (option bytes)) := fun m =>
  match MvccMemTable_scan (tm_mvcc m) view with
  | Ok rows =>
      let overlay := fold_left (fun o (e : bytes * bytes) => <[e.1 := Some e.2]> o) rows ∅ in
      with_txn session_id (fun txn =>
        (fold_left (fun o (e : bytes * WriteOp) => <[e.1 := op_entry e.2]> o) (btree_iter (tx_write_set txn)) overlay, txn)) m
  | Err e => (Err e, m)
  | Panic => (Panic, m)
  end.

Definition TxnOverlayStore_for_session (session_id : Z) : DM TxnOverlayStore :=
  let* view := on_txn (read_view session_id) in
  let* overlay := on_txn (build_read_overlay session_id view) in
  fun s => (Ok (mkTxnOverlayStore (d_tree s) view overlay), s).

Definition overlay_get (st : TxnOverlayStore) (key : bytes) : outcome StorageError (option bytes) :=
  match ov_overlay st !! key with
  | Some op => Ok op
  | None => tr_get_visible (ov_base st) key (ov_view st)
  end.

Definition overlay_merge (m : gmap bytes bytes) (e : bytes * option bytes) : gmap bytes bytes :=
  match e.2 with Some v => <[e.1 := v]> m | None => delete e.1 m end.

Definition overlay_iter (st : TxnOverlayStore) : list (bytes * bytes) :=
  let base := fold_left (fun m (e : bytes * bytes) =>
      <[e.1 := match tr_get_visible (ov_base st) e.1 (ov_view st) with Ok (Some vv) => vv | _ => e.2 end]> m)
    (tr_iter (ov_base st)) ∅ in
  btree_iter (fold_left overlay_merge (btree_iter (ov_overlay st)) base).

(** The overlay is read from [start] on, up to the first key outside the range. *)
Definition overlay_range (st : TxnOverlayStore) (start end_ : bytes) : list (bytes * bytes) :=
  let in_range k := negb (bytes_ltb k start) && (bool_decide (end_ = []) || bytes_ltb k end_) in
  let merged := fold_left (fun m (e : bytes * bytes) => <[e.1 := e.2]> m) (tr_range_visible (ov_base st) start end_ (ov_view st)) ∅ in
  let own := take_while (fun e : bytes * option bytes => in_range e.1)
               (filter (fun e : bytes * option bytes => bytes_ltb e.1 start = false) (btree_iter (ov_overlay st))) in
  btree_iter (fold_left overlay_merge own merged).

#[global] Instance overlay_rows : RowStore TxnOverlayStore := {
  rs_get := overlay_get; rs_range := overlay_range; rs_range_keys st start end_ := map fst (overlay_range st start end_) }.

(** [COMMIT]: the pending writes go to the tree with the commit timestamp, before the
    transaction table takes them over; then both are collected. *)
Fixpoint write_pending (commit_ts : Z) (pending : list (bytes * WriteOp)) (t : T) : outcome TxnError unit * T :=
  match pending with
  | [] => (Ok tt, t)
  | (key, op) :: pending =>
      let version := match op with WPut v => Version_put commit_ts v | WDelete => Version_tombstone commit_ts end in
      match tr_put_version key version t with
      | (Ok _, t') => write_pending commit_ts pending t'
      | (Err e, t') => (Err (TxnStorage "storage"), t')
      | (Panic, t') => (Panic, t')
      end
  end.

(** [commit_with_durable] takes the hook as a function of the timestamp and the pending
    writes; the tree after the hook is computed beside it. *)
Definition commit_to_storage (session_id now : Z) : DM unit := fun s =>
  match commit_prepare session_id now (d_txn s) with
  | (Ok (_, commit_ts, pending), _) =>
      let '(r, t) := write_pending commit_ts pending (d_tree s) in
      let '(r2, m) := commit_with_durable session_id now (fun _ _ => r) (d_txn s) in
      match r2 with
      | Ok _ =>
          let min_retain := Z.max 0 (TimestampOracle_now (tm_oracle m) - 1) in
          let '(_, m) := gc min_retain m in
          (Ok tt, mkDmlState (tr_gc_active min_retain t) m (d_vectors s))
      | Err e => (Err (txn_err e), mkDmlState t m (d_vectors s))
      | Panic => (Panic, mkDmlState t m (d_vectors s))
      end
  | (Err e, m) => (Err (txn_err e), mkDmlState (d_tree s) m (d_vectors s))
  | (Panic, m) => (Panic, mkDmlState (d_tree s) m (d_vectors s))
  end.
(** ** dml.rs: single cells *)

Definition put_cell (key value : bytes) : DM unit :=
  let* ts := on_txn alloc_ts in on_tree (tr_put_version key (Version_put ts value)).
Definition delete_cell (key : bytes) : DM unit :=
  let* ts := on_txn alloc_ts in on_tree (tr_put_version key (Version_tombstone ts)).

(** [txn] is the session of the open transaction. *)
Definition write_key (txn : option Z) (key value : bytes) : DM unit :=
  match txn with Some sid => put_key_in_txn sid key value | None => put_cell key value end.
Definition erase_key (txn : option Z) (key : bytes) : DM unit :=
  match txn with Some sid => delete_cell_in_txn sid key | None => delete_cell key end.

Definition index_entry_put (txn : option Z) (table column value row_id : bytes) : DM unit :=
  write_key txn (entry_key_for table column value row_id) [].
Definition index_entry_delete (txn : option Z) (table column value row_id : bytes) : DM unit :=
  erase_key txn (entry_key_for table column value row_id).
Definition write_packed_row (txn : option Z) (table row_id : bytes) (columns : Row) : DM unit :=
  write_key txn (packed_row_key table row_id) (encode_row columns).

Definition row_prefix (table row_id : bytes) : bytes := table ++ [zero] ++ row_id ++ [zero].

(** The keys of a range that start with [prefix] *)
Definition keys_below {S} `{RowStore S} (store : S) (prefix : bytes) : list bytes :=
  map fst (filter (fun e => starts_with prefix e.1 = true) (rs_range store prefix (prefix_end prefix))).

Definition tombstone_row_cells (txn : option Z) (table row_id : bytes) : DM unit :=
  let prefix := row_prefix table row_id in
  match txn with
  | Some sid =>
      let* overlay := TxnOverlayStore_for_session sid in
      for_each_do (delete_cell_in_txn sid) (keys_below overlay prefix)
  | None => fun s => for_each_do delete_cell (keys_below (d_tree s) prefix) s
  end.

Definition delete_row (table row_id : bytes) : DM unit := fun s =>
  let packed_key := packed_row_key table row_id in
  match tr_get (d_tree s) packed_key with
  | Ok found =>
      (let* _ := match found with Some _ => delete_cell packed_key | None => sret tt end in
       fun s => for_each_do delete_cell (keys_below (d_tree s) (row_prefix table row_id)) s) s
  | Err e => (Err (EStorage e), s)
  | Panic => (Panic, s)
  end.

Definition delete_row_in_txn (sid : Z) (schema : SchemaCatalog) (table row_id : bytes) : DM unit :=
  let* _ := delete_cell_in_txn sid (packed_row_key table row_id) in
  match column_names schema table with
  | None => lift (Err (EExec (UnknownColumn (bs "table not in schema"))))
  | Some cols => for_each_do (fun col => delete_cell_in_txn sid (cell_key table row_id col)) cols
  end.

(** ** Scanning a table *)

Abbreviation RowSlot := (option RowMap * RowMap)%type.

Definition scan_entry (prefix : bytes) (grouped : gmap bytes RowSlot) (e : bytes * bytes) : gmap bytes RowSlot :=
  let '(key, val) := e in
  if negb (starts_with prefix key) then grouped
  else
    match split_row_id (drop (length prefix) key) with
    | (row_id, Some col) =>
        let slot := default (None, []) (grouped !! row_id) in
        <[row_id := (slot.1, slot.2 ++ [(from_utf8_lossy col, VBytes val)])]> grouped
    | (row_id, None) =>
        match decode_row val with
        | Ok (Some cols) =>
            let slot := default (None, []) (grouped !! row_id) in
            <[row_id := (Some (map (fun c => (c.1, VBytes c.2)) cols), slot.2)]> grouped
        | _ => grouped
        end
    end.

Definition scan_table {S} `{RowStore S} (store : S) (table : bytes) : list (bytes * RowMap) :=
  let prefix := table_prefix_key table in
  let grouped := fold_left (scan_entry prefix) (rs_range store prefix (prefix_end prefix)) ∅ in
  map (fun e : bytes * RowSlot => (from_utf8_lossy e.1, merge_row e.2.1 e.2.2)) (btree_iter grouped).

(** The rows a statement sees: the transaction's, or the tree's *)
Definition visible_rows (txn : option Z) (table : bytes) : DM (list (bytes * RowMap)) :=
  match txn with
  | Some sid => let* overlay := TxnOverlayStore_for_session sid in sret (scan_table overlay table)
  | None => fun s => (Ok (scan_table (d_tree s) table), s)
  end.

(** ** Values *)

Definition value_to_row_id (v : Value) : bytes :=
  match v with
  | VNull => bs "null"
  | VInteger n => show_Z n
  | VFloat f => f64_to_string f
  | VBool b => bs (if b then "true" else "false")
  | VBytes b | VDate b => from_utf8_lossy b
  | VTimestamp ts => show_Z ts
  | VVector v => match v with f :: _ => show_f32 f | [] => bs "0" end
  end.

Definition value_to_bytes (v : Value) : bytes :=
  match v with
  | VNull => []
  | VInteger n => show_Z n
  | VFloat f => f64_to_string f
  | VBool b => [if b then x01 else x00]
  | VBytes b | VDate b => b
  | VTimestamp ts => show_Z ts
  | VVector v => vector_to_bytes v
  end.

Definition mismatch {A} (text : string) (strings : list bytes) : outcome EngineError A := Err (EExec (TypeMismatch (bs text) [] strings)).

Definition parse_vector_text (b : bytes) (dim : Z) : outcome EngineError (list f64) :=
  match from_utf8 b with
  | None => mismatch "invalid UTF-8 for VECTOR literal" []
  | Some s =>
      let? floats := traverse (fun p => match parse_f32_str p with
                                        | Some f => Ok f
                                        | None => mismatch "invalid float in VECTOR literal" [p]
                                        end) (comma_parts (strip_brackets s)) in
      if len floats =? dim then Ok floats else mismatch "VECTOR literal elements" []
  end.

Definition encode_vector (v : Value) (dim : Z) : outcome EngineError bytes :=
  let? floats := match v with
                 | VVector v => Ok v
                 | VBytes b => parse_vector_text b dim
                 | other => Err (EExec (TypeMismatch (bs "expected VECTOR value") [other] []))
                 end in
  if len floats =? dim then Ok (vector_to_bytes floats) else mismatch "VECTOR dimension mismatch" [].

Definition encode_for_type (v : Value) (ty : SqlType) : outcome EngineError bytes :=
  match ty with TyVector dim => encode_vector v dim | _ => Ok (value_to_bytes v) end.

(** ** Constraints *)

Definition position (names : list bytes) (name : bytes) : option nat :=
  fst <$> list_find (fun n => n = name) names.

(** [values[i]] *)
Definition value_at (values : list Value) (i : nat) : outcome EngineError Value :=
  match values !! i with Some v => Ok v | None => Panic end.

Definition key_exists (txn : option Z) (key : bytes) : DM bool :=
  match txn with
  | Some sid => let* v := on_txn (TxnManager.get sid key) in sret (bool_decide (is_Some v))
  | None => fun s => (map_err EStorage (let? v := tr_get (d_tree s) key in Ok (bool_decide (is_Some v))), s)
  end.

Definition enforce_pk_column (txn : option Z) (table : bytes) (col_names : list bytes) (values : list Value) (pk : bytes) : DM unit :=
  match position col_names pk with
  | None => lift (mismatch "PRIMARY KEY column missing from INSERT" [pk])
  | Some idx =>
      let* v := lift (value_at values idx) in
      match v with
      | VNull => lift (mismatch "NOT NULL constraint failed for PRIMARY KEY" [table; pk])
      | _ =>
          let pk_row := value_to_row_id v in
          let* packed := key_exists txn (packed_row_key table pk_row) in
          let* exists_ := if packed then sret true else key_exists txn (cell_key table pk_row pk) in
          if exists_ then lift (mismatch "PRIMARY KEY constraint failed: duplicate" [pk; pk_row]) else sret tt
      end
  end.

(** Does some existing row hold this value in the column? *)
Definition duplicates (existing : list (bytes * RowMap)) (col : bytes) (v : Value) : bool :=
  existsb (fun e : bytes * RowMap =>
    match list_find (fun c : bytes * Value => c.1 = col) e.2 with
    | Some (_, (_, prev)) => default false (sql_eq prev v)
    | None => false
    end) existing.

Fixpoint check_unique (existing : list (bytes * RowMap)) (col_names : list bytes) (values : list Value) (cols : list bytes)
    : outcome EngineError unit :=
  match cols with
  | [] => Ok tt
  | col :: cols =>
      match position col_names col with
      | None => check_unique existing col_names values cols
      | Some idx =>
          let? v := value_at values idx in
          match v with
          | VNull => check_unique existing col_names values cols
          | _ => if duplicates existing col v then mismatch "UNIQUE constraint failed: duplicate" [col]
                 else check_unique existing col_names values cols
          end
      end
  end.

Definition unique_cols (table_schema : TableSchema) : list bytes :=
  map cm_name (filter (fun c => cm_unique c = true /\ cm_primary_key c = false) (ts_columns table_schema)).

Definition enforce_unique_columns (txn : option Z) (table : bytes) (col_names : list bytes) (values : list Value)
    (table_schema : TableSchema) : DM unit :=
  match unique_cols table_schema with
  | [] => sret tt
  | cols => let* existing := visible_rows txn table in lift (check_unique existing col_names values cols)
  end.

Definition enforce_primary_key (txn : option Z) (table : bytes) (col_names : list bytes) (values : list Value)
    (schema : SchemaCatalog) : DM unit :=
  match sc_tables schema !! table with
  | None => sret tt
  | Some table_schema =>
      let* _ := for_each_do (enforce_pk_column txn table col_names values) (ts_primary_key table_schema) in
      enforce_unique_columns txn table col_names values table_schema
  end.

(** ** Statements *)

(** A column to write: its name, its stored form, and the vector for the index *)
Abbreviation Pending := (bytes * bytes * option Value)%type.

(** NOT NULL and the type are checked and the value encoded, before anything is written. *)
Definition prepare_column (schema : SchemaCatalog) (table : bytes) (c : bytes * Value) : outcome EngineError Pending :=
  let '(col, v) := c in
  match sc_column schema table col with
  | Some meta =>
      if cm_not_null meta && bool_decide (v = VNull) then mismatch "NOT NULL constraint failed" [table; col]
      else
        let? b := encode_for_type v (cm_type meta) in
        Ok (col, b, match cm_type meta with TyVector _ => Some v | _ => None end)
  | None => Ok (col, value_to_bytes v, None)
  end.

Definition upsert_vector (table col row_id : bytes) (vector : option Value) : DM unit :=
  match vector with
  | Some v => on_vectors (fun c => upsert overflow_checks c table col row_id v)
  | None => sret tt
  end.

Definition is_indexed (indexed : list bytes) (col : bytes) : bool := existsb (fun c => bool_decide (c = col)) indexed.

Definition insert_row (txn : option Z) (schema : SchemaCatalog) (table : bytes) (col_names indexed : list bytes)
    (row_exprs : list Expr) : DM unit :=
  if negb (length row_exprs =? length col_names)%nat
  then lift (Err (EExec (TypeMismatch (bs "INSERT column count mismatch") [VInteger (len col_names); VInteger (len row_exprs)] [])))
  else
    let* values := lift (exec (traverse (fun e => eval_expr e []) row_exprs)) in
    let* first := lift (value_at values 0) in
    let row_id := value_to_row_id first in
    let* _ := enforce_primary_key txn table col_names values schema in
    let* pending := lift (traverse (prepare_column schema table) (combine col_names values)) in
    let* _ := write_packed_row txn table row_id (map (fun p : Pending => (p.1.1, p.1.2)) pending) in
    let* _ := for_each_do (fun p : Pending =>
        let '(col, b, vector) := p in
        let* _ := if is_indexed indexed col then index_entry_put txn table col b row_id else sret tt in
        upsert_vector table col row_id vector) pending in
    match txn with None => on_engine (fun t => increment_row_count t table 1) | Some _ => sret tt end.

Definition execute_insert (txn : option Z) (ins : InsertStmt) (schema : SchemaCatalog) : DM unit := fun s =>
  let table := id_value (ins_table ins) in
  match match ins_columns ins with
        | Some cols => Some (map id_value cols)
        | None => column_names schema table
        end with
  | None => (Err (EExec (UnknownColumn (bs "table not in schema - CREATE TABLE first"))), s)
  | Some col_names =>
      let indexed := indexed_columns (d_tree s) table in
      for_each_do (insert_row txn schema table col_names indexed) (ins_values ins) s
  end.

(** The rows that satisfy the WHERE clause, up to the first one on which it fails *)
Fixpoint matching (where_ : option Expr) (rows : list (bytes * RowMap)) : outcome EngineError (list (bytes * RowMap)) :=
  match rows with
  | [] => Ok []
  | (row_id, row) :: rows =>
      let? keep := match where_ with Some pred => exec (eval_predicate pred row) | None => Ok true end in
      let? rest := matching where_ rows in
      Ok (if keep then (row_id, row) :: rest else rest)
  end.

(** The stored value of an indexed column *)
Definition old_bytes (row : RowMap) (col : bytes) : option bytes :=
  snd <$> (head (omap (fun c : bytes * Value => match c.2 with VBytes b => if bool_decide (c.1 = col) then Some (c.1, b) else None | _ => None end) row)).

Fixpoint set_cell (cells : Row) (col b : bytes) : Row :=
  match cells with
  | [] => [(col, b)]
  | (n, v) :: cells => if bool_decide (n = col) then (n, b) :: cells else (n, v) :: set_cell cells col b
  end.

Definition update_row (txn : option Z) (schema : SchemaCatalog) (table : bytes) (indexed : list bytes)
    (assignments : list (Ident * Expr)) (r : bytes * RowMap) : DM unit :=
  let '(row_id, row) := r in
  let* pending := lift (traverse (fun a : Ident * Expr =>
      let? v := exec (eval_expr a.2 row) in prepare_column schema table (id_value a.1, v)) assignments) in
  let merged := fold_left (fun cells (p : Pending) => set_cell cells p.1.1 p.1.2) pending
                  (map (fun c : bytes * Value => (c.1, value_to_bytes c.2)) row) in
  let* _ := write_packed_row txn table row_id merged in
  let* _ := tombstone_row_cells txn table row_id in
  for_each_do (fun p : Pending =>
    let '(col, b, vector) := p in
    let* _ := if is_indexed indexed col then
                if bool_decide (old_bytes row col = Some b) then sret tt
                else
                  let* _ := match old_bytes row col with
                            | Some old => index_entry_delete txn table col old row_id
                            | None => sret tt
                            end in
                  index_entry_put txn table col b row_id
              else sret tt in
    upsert_vector table col row_id vector) pending.

Definition execute_update (txn : option Z) (upd : UpdateStmt) (schema : SchemaCatalog) : DM Z := fun s =>
  let table := id_value (up_table upd) in
  let indexed := indexed_columns (d_tree s) table in
  (let* all := visible_rows txn table in
   let* rows := lift (matching (up_where upd) all) in
   let* _ := for_each_do (update_row txn schema table indexed (up_assignments upd)) rows in
   sret (len rows)) s.

Definition delete_one (txn : option Z) (schema : SchemaCatalog) (table : bytes) (indexed : list bytes) (r : bytes * RowMap) : DM unit :=
  let '(row_id, row) := r in
  let* _ := match txn with Some sid => delete_row_in_txn sid schema table row_id | None => delete_row table row_id end in
  let* _ := for_each_do (fun col => match old_bytes row col with
                                    | Some old => index_entry_delete txn table col old row_id
                                    | None => sret tt
                                    end) indexed in
  match sc_tables schema !! table with
  | Some table_schema =>
      for_each_do (fun col => match cm_type col with
                              | TyVector _ => on_vectors (fun c => Ok (vi_remove c table (cm_name col) row_id))
                              | _ => sret tt
                              end) (ts_columns table_schema)
  | None => sret tt
  end.

Definition execute_delete (txn : option Z) (del : DeleteStmt) (schema : SchemaCatalog) : DM Z := fun s =>
  let table := id_value (del_table del) in
  let indexed := indexed_columns (d_tree s) table in
  (let* all := visible_rows txn table in
   let* rows := lift (matching (del_where del) all) in
   let* _ := for_each_do (delete_one txn schema table indexed) rows in
   let* _ := match txn with
             | None => if 0 <? len rows then on_engine (fun t => increment_row_count t table (- Z.min (len rows) i64_max)) else sret tt
             | Some _ => sret tt
             end in
   sret (len rows)) s.
End dml.
