(* ===== verification/Engine.v ===== *)
(** * The single-node engine (crates/noedb-engine/src: engine.rs, knn.rs)

    [LocalEngine] joins the parser, the planner, the storage tree, transactions and the
    catalogs.  A call takes what it reads of the outside (clocks, the keys that the
    read hook reports) in a [Call]; a query may run for ever, so a call is a function
    of a number of rounds, [None] while it is still running.  Metrics and tracing are
    left out.  The locks of the source are held for one component at a time; here a
    call is one step. *)

From S2P Require Import Prelude BTree StorageError Mvcc MvccMemTable Txn TxnManager MemTable Text Float64 Tokens Ast Display Parser Statements Utf8 RowPack Value Cast Eval Plan TableScan SetOps RowOps WindowExec StreamAgg Executor Optimize Build Query Catalog Guards Caches AuditTrail Bind Hnsw Dml.

(** ** Results *)

Definition DEFAULT_SESSION : Z := 1.
Definition MAX_SQL_BYTES : Z := 64 * 1024.

Record QueryResult : Type := mkQueryResult { qr_columns : list bytes; qr_rows : list (list bytes) }.
Definition empty_ok : QueryResult := mkQueryResult [] [].

Section result.
Context `{ExecEnv}.

Definition show_vector (v : list f64) : bytes := [x5b] ++ sep_by [x2c] (map show_f32 v) ++ [x5d].

Definition result_to_string (v : Value) : bytes :=
  match v with
  | VNull => bs "[NULL]"
  | VInteger n => show_Z n
  | VFloat f => f64_to_string f
  | VBool b => bs (if b then "true" else "false")
  | VBytes b | VDate b =>
      match b with
      | [x00] => bs "false"
      | [x01] => bs "true"
      | _ => match vector_from_bytes b with Some v => show_vector v | None => from_utf8_lossy b end
      end
  | VTimestamp ts => show_Z ts
  | VVector v => show_vector v
  end.

Definition from_records (records : list Record_) : QueryResult :=
  match records with
  | [] => mkQueryResult [] []
  | first :: _ =>
      let columns := map fst (rec_fields first) in
      mkQueryResult columns
        (map (fun r => map (fun col => match list_find (fun c : bytes * Value => c.1 = col) (rec_fields r) with
                                       | Some (_, (_, v)) => result_to_string v
                                       | None => []
                                       end) columns) records)
  end.
End result.

Definition validate_sql (sql : bytes) : outcome EngineError unit :=
  match sql with
  | [] => Err (InvalidSql "empty query")
  | _ => if len sql >? MAX_SQL_BYTES then Err (InvalidSql "query too long")
         else if existsb (fun b => bool_decide (b = x00)) sql then Err (InvalidSql "NUL byte in query")
         else reject_multi_statement sql
  end.

(** ** State *)

Record Call : Type := mkCall {
  ca_unix_ms : Z;        (* audit entries *)
  ca_start : Z;          (* the deadline, in nanoseconds *)
  ca_acquire : Z;        (* the rate limiter *)
  ca_checks : Z * Z * Z; (* the three deadline checks *)
  ca_txn_now : Z;        (* BEGIN and COMMIT *)
  ca_reads : list bytes  (* the keys a SELECT in a transaction reads one by one *) }.

Record LocalEngine (T C : Type) : Type := mkLocalEngine {
  le_tree : T;
  le_sessions : gmap Z SessionContext;
  le_prepare : PrepareCache;
  le_rls : RlsCatalog;
  le_audit : AuditLog;
  le_txn : TxnManager;
  le_cache : QueryCache C;
  le_schema : SchemaCatalog;
  le_schema_file : option bytes;
  le_vectors : VectorIndexCatalog;
  le_memory : MemoryBudget;
  le_limiter : RateLimiter;
  le_timeout_ms : Z;
  le_data_key : option DataKey;
  le_stmt_cache : StatementCache }.
Arguments mkLocalEngine {T C}. Arguments le_tree {T C}. Arguments le_sessions {T C}. Arguments le_prepare {T C}.
Arguments le_rls {T C}. Arguments le_audit {T C}. Arguments le_txn {T C}. Arguments le_cache {T C}. Arguments le_schema {T C}.
Arguments le_schema_file {T C}. Arguments le_vectors {T C}. Arguments le_memory {T C}. Arguments le_limiter {T C}.
Arguments le_timeout_ms {T C}. Arguments le_data_key {T C}. Arguments le_stmt_cache {T C}.

Section engine.
Context {T C : Type} `{TreeOps T} `{LruOps C CacheKey QueryResult} `{ExecEnv} `{Scheduler} `{StdChoices} `{Unicode} `{Aead}.
Context `{JsonText SchemaSnapshot} `{JsonText AuditEntry} (sha256_hex : bytes -> bytes).

(** Field updates *)
Definition with_tree (t : T) (e : LocalEngine T C) : LocalEngine T C :=
  mkLocalEngine t (le_sessions e) (le_prepare e) (le_rls e) (le_audit e) (le_txn e) (le_cache e) (le_schema e) (le_schema_file e)
    (le_vectors e) (le_memory e) (le_limiter e) (le_timeout_ms e) (le_data_key e) (le_stmt_cache e).
Definition with_sessions (x : gmap Z SessionContext) (e : LocalEngine T C) : LocalEngine T C :=
  mkLocalEngine (le_tree e) x (le_prepare e) (le_rls e) (le_audit e) (le_txn e) (le_cache e) (le_schema e) (le_schema_file e)
    (le_vectors e) (le_memory e) (le_limiter e) (le_timeout_ms e) (le_data_key e) (le_stmt_cache e).
Definition with_prepare (x : PrepareCache) (e : LocalEngine T C) : LocalEngine T C :=
  mkLocalEngine (le_tree e) (le_sessions e) x (le_rls e) (le_audit e) (le_txn e) (le_cache e) (le_schema e) (le_schema_file e)
    (le_vectors e) (le_memory e) (le_limiter e) (le_timeout_ms e) (le_data_key e) (le_stmt_cache e).
Definition with_rls (x : RlsCatalog) (e : LocalEngine T C) : LocalEngine T C :=
  mkLocalEngine (le_tree e) (le_sessions e) (le_prepare e) x (le_audit e) (le_txn e) (le_cache e) (le_schema e) (le_schema_file e)
    (le_vectors e) (le_memory e) (le_limiter e) (le_timeout_ms e) (le_data_key e) (le_stmt_cache e).
Definition with_audit (x : AuditLog) (e : LocalEngine T C) : LocalEngine T C :=
  mkLocalEngine (le_tree e) (le_sessions e) (le_prepare e) (le_rls e) x (le_txn e) (le_cache e) (le_schema e) (le_schema_file e)
    (le_vectors e) (le_memory e) (le_limiter e) (le_timeout_ms e) (le_data_key e) (le_stmt_cache e).
Definition with_mgr (x : TxnManager) (e : LocalEngine T C) : LocalEngine T C :=
  mkLocalEngine (le_tree e) (le_sessions e) (le_prepare e) (le_rls e) (le_audit e) x (le_cache e) (le_schema e) (le_schema_file e)
    (le_vectors e) (le_memory e) (le_limiter e) (le_timeout_ms e) (le_data_key e) (le_stmt_cache e).
Definition with_cache (x : QueryCache C) (e : LocalEngine T C) : LocalEngine T C :=
  mkLocalEngine (le_tree e) (le_sessions e) (le_prepare e) (le_rls e) (le_audit e) (le_txn e) x (le_schema e) (le_schema_file e)
    (le_vectors e) (le_memory e) (le_limiter e) (le_timeout_ms e) (le_data_key e) (le_stmt_cache e).
Definition with_schema (x : SchemaCatalog) (f : option bytes) (e : LocalEngine T C) : LocalEngine T C :=
  mkLocalEngine (le_tree e) (le_sessions e) (le_prepare e) (le_rls e) (le_audit e) (le_txn e) (le_cache e) x f
    (le_vectors e) (le_memory e) (le_limiter e) (le_timeout_ms e) (le_data_key e) (le_stmt_cache e).
Definition with_vectors (x : VectorIndexCatalog) (e : LocalEngine T C) : LocalEngine T C :=
  mkLocalEngine (le_tree e) (le_sessions e) (le_prepare e) (le_rls e) (le_audit e) (le_txn e) (le_cache e) (le_schema e) (le_schema_file e)
    x (le_memory e) (le_limiter e) (le_timeout_ms e) (le_data_key e) (le_stmt_cache e).
Definition with_memory (x : MemoryBudget) (e : LocalEngine T C) : LocalEngine T C :=
  mkLocalEngine (le_tree e) (le_sessions e) (le_prepare e) (le_rls e) (le_audit e) (le_txn e) (le_cache e) (le_schema e) (le_schema_file e)
    (le_vectors e) x (le_limiter e) (le_timeout_ms e) (le_data_key e) (le_stmt_cache e).
Definition with_limiter (x : RateLimiter) (e : LocalEngine T C) : LocalEngine T C :=
  mkLocalEngine (le_tree e) (le_sessions e) (le_prepare e) (le_rls e) (le_audit e) (le_txn e) (le_cache e) (le_schema e) (le_schema_file e)
    (le_vectors e) (le_memory e) x (le_timeout_ms e) (le_data_key e) (le_stmt_cache e).
Definition with_stmt_cache (x : StatementCache) (e : LocalEngine T C) : LocalEngine T C :=
  mkLocalEngine (le_tree e) (le_sessions e) (le_prepare e) (le_rls e) (le_audit e) (le_txn e) (le_cache e) (le_schema e) (le_schema_file e)
    (le_vectors e) (le_memory e) (le_limiter e) (le_timeout_ms e) (le_data_key e) x.

(** ** Calls *)

Definition EM (A : Type) : Type := LocalEngine T C -> option (outcome EngineError A * LocalEngine T C).
Definition eret {A} (a : A) : EM A := fun e => Some (Ok a, e).
Definition ebind {A B} (p : EM A) (k : A -> EM B) : EM B := fun e =>
  match p e with
  | None => None
  | Some (Ok a, e') => k a e'
  | Some (Err x, e') => Some (Err x, e')
  | Some (Panic, e') => Some (Panic, e')
  end.
Notation "'let@' x := p 'in' k" := (ebind p (fun x => k)) (at level 200, x pattern, p at level 100, k at level 200).
Definition eget {A} (f : LocalEngine T C -> A) : EM A := fun e => Some (Ok (f e), e).
Definition emodify (f : LocalEngine T C -> LocalEngine T C) : EM unit := fun e => Some (Ok tt, f e).
Definition elift {A} (o : outcome EngineError A) : EM A := fun e => Some (o, e).
Definition edml {A} (p : SM (DmlState T) EngineError A) : EM A := fun e =>
  let '(r, s) := p (mkDmlState (le_tree e) (le_txn e) (Some (le_vectors e))) in
  Some (r, with_vectors (default (le_vectors e) (d_vectors s)) (with_mgr (d_txn s) (with_tree (d_tree s) e))).
Definition etree (f : T -> outcome StorageError T) : EM unit := edml (on_engine f).
Definition erun {A} (r : Running A) : EM A := fun e => match r with None => None | Some o => Some (map_err EExec o, e) end.

Definition session_role_for (session_id : Z) (e : LocalEngine T C) : bytes :=
  match le_sessions e !! session_id with Some s => se_role s | None => bs "anonymous" end.

Definition audit_record (now session_id : Z) (sql : bytes) (rows : Z) : EM unit := emodify (fun e =>
  let '(tenant, role) := match le_sessions e !! session_id with
                         | Some s => (se_tenant s, se_role s)
                         | None => (bs "default", bs "anonymous")
                         end in
  with_audit (AuditLog_record sha256_hex (le_audit e) now tenant role (redact_sql sql) rows) e).

Definition invalidate (table : bytes) : EM unit := emodify (fun e => with_cache (invalidate_table (le_cache e) table) e).
Definition persist_schema : EM unit := emodify (fun e => with_schema (le_schema e) (SchemaCatalog_save (le_schema e)) e).

Definition parse_cached (sql : bytes) : EM Statement := fun e =>
  let '(hit, c) := StatementCache_get (le_stmt_cache e) sql in
  let e := with_stmt_cache c e in
  match hit with
  | Some stmt => Some (Ok stmt, e)
  | None => match parse sql with
            | Ok stmt => Some (Ok stmt, with_stmt_cache (StatementCache_insert c sql stmt) e)
            | Err x => Some (Err (EParse x), e)
            | Panic => Some (Panic, e)
            end
  end.

(** ** Direct writes *)

Definition put_row (session_id : Z) (table row column value : bytes) : EM unit := fun e =>
  if in_txn (le_txn e) session_id then edml (put_row_in_txn session_id table row column value) e
  else (let@ _ := edml (put_cell (cell_key table row column) value) in invalidate table) e.

Definition put_packed_row (table row : bytes) (columns : Row) : EM unit :=
  let@ _ := edml (put_cell (packed_row_key table row) (encode_row columns)) in invalidate table.

Definition put_row_encrypted (nonce : bytes) (session_id : Z) (table row column plaintext : bytes) : EM unit :=
  let@ key := eget le_data_key in
  match key with
  | None => elift (Err (Crypto "no data key configured"))
  | Some k => let@ sealed := elift (seal k nonce (cell_aad table row column) plaintext) in put_row session_id table row column sealed
  end.

Definition get_row_decrypted (table row column : bytes) : EM (option bytes) :=
  let@ key := eget le_data_key in
  match key with
  | None => elift (Err (Crypto "no data key configured"))
  | Some k =>
      let@ tree := eget le_tree in
      let@ sealed := elift (map_err EStorage (tr_get tree (cell_key table row column))) in
      match sealed with
      | Some b => let@ m := elift (open_sealed k (cell_aad table row column) b) in eret (Some m)
      | None => eret None
      end
  end.

(** ** Nearest neighbours (knn.rs) *)

Record KnnQuery : Type := mkKnnQuery {
  kn_table : bytes; kn_column : bytes; kn_query : list f64; kn_limit : nat; kn_items : list SelectItem }.

(** [n as f32] and [f as f32] *)
Definition f32_of_Z (n : Z) : f64 := binary_normalize 24 128 n 0 false.
Definition f32_of_f64 (f : f64) : f64 :=
  match f with S754_finite s m e => binary_normalize 24 128 (if s then Z.neg m else Z.pos m) e s | _ => f end.

Definition literal_vector (e : Expr) : option (list f64) :=
  match e with
  | ELiteral (LString s _) =>
      let s := strip_brackets s in match s with [] => Some [] | _ => parse_floats (comma_parts s) end
  | ELiteral (LFloat f _) => Some [f32_of_f64 f]
  | ELiteral (LInteger n _) => Some [f32_of_Z n]
  | _ => None
  end.

Definition distance_spec (e : Expr) : option (bytes * list f64) :=
  match e with
  | EBinary BDistance (EColumn (Named None column)) rhs _ => q ← literal_vector rhs; Some (id_value column, q)
  | _ => None
  end.

Definition is_simple_column (i : SelectItem) : bool := match item_expr i with EColumn (Named None _) => true | _ => false end.

Definition detect_knn (q : SelectStmt) : option KnnQuery :=
  if sel_distinct q || negb (bool_decide (length (sel_group_by q) = 0%nat)) || bool_decide (is_Some (sel_having q))
     || bool_decide (is_Some (sel_compound q)) || negb (bool_decide (length (sel_joins q) = 0%nat))
     || bool_decide (is_Some (sel_offset q)) || bool_decide (is_Some (sel_where q))
  then None
  else
    limit ← sel_limit q;
    match sel_order_by q, sel_from q with
    | [key], Some (FromTable t) =>
        if (limit <=? 0) then None
        else
          '(col, query) ← distance_spec (key_expr key);
          if forallb is_simple_column (sel_items q)
          then Some (mkKnnQuery (id_value (tr_name t)) col query (Z.to_nat limit) (sel_items q))
          else None
    | _, _ => None
    end.

Definition knn_field (tree : T) (table row_id : bytes) (i : SelectItem) : option (bytes * Value) :=
  match item_expr i with
  | EColumn (Named _ column) =>
      let name := match item_alias i with Some a => id_value a | None => id_value column end in
      match tr_get tree (cell_key table row_id (id_value column)) with
      | Ok (Some b) => Some (name, VBytes b)
      | _ => None
      end
  | _ => None
  end.
Definition build_record (tree : T) (table row_id : bytes) (items : list SelectItem) : option Record_ :=
  mkRecord <$> mapM (knn_field tree table row_id) items.

Definition try_hnsw_select (e : LocalEngine T C) (q : SelectStmt) : option QueryResult :=
  spec ← detect_knn q;
  let hits := vi_search (le_vectors e) (kn_table spec) (kn_column spec) (kn_query spec) (kn_limit spec) in
  match hits with
  | [] => None
  | _ =>
      let records := omap (fun h : bytes * f64 => build_record (le_tree e) (kn_table spec) h.1 (kn_items spec)) hits in
      if (length records =? length hits)%nat then Some (from_records records) else None
  end.

(** ** Statements *)

Definition execute_select_in_txn (fuel : nat) (reads : list bytes) (session_id : Z) (stmt : Statement) : EM QueryResult :=
  let@ overlay := edml (TxnOverlayStore_for_session session_id) in
  let@ qschema := eget (fun e => query_schema (le_schema e)) in
  let@ tree := eget le_tree in
  (** the read hook; a transaction that is gone is ignored *)
  let@ _ := emodify (fun e => with_mgr (fold_left (fun m key =>
      (with_txn session_id (fun txn => (tt, Transaction_record_read txn key)) m).2) reads (le_txn e)) e) in
  let@ records := erun (execute_sql_on_with_schema overlay tree (Some qschema) fuel stmt) in
  eret (from_records records).

Definition select_cached (fuel : nat) (session_id : Z) (stmt : Statement) (sql : bytes) : EM QueryResult := fun e =>
  let role := session_role_for session_id e in
  let '(hit, c) := QueryCache_get (le_cache e) role sql in
  let e := with_cache c e in
  match hit with
  | Some r => Some (Ok r, e)
  | None =>
      (let@ records := erun (execute_sql_on_with_schema (le_tree e) (le_tree e) (Some (query_schema (le_schema e))) fuel stmt) in
       let qr := from_records records in
       let@ _ := emodify (fun e => with_cache (QueryCache_put (le_cache e) role sql qr) e) in
       eret qr) e
  end.

Definition run_data_statement (fuel : nat) (ca : Call) (session_id : Z) (stmt : Statement) (sql : bytes) : EM QueryResult :=
  let@ in_txn := eget (fun e => in_txn (le_txn e) session_id) in
  let txn := if in_txn then Some session_id else None in
  let@ schema := eget le_schema in
  let@ result :=
    match stmt with
    | SSelect q =>
        if in_txn then execute_select_in_txn fuel (ca_reads ca) session_id stmt
        else fun e => match try_hnsw_select e q with
                      | Some hit => Some (Ok hit, e)
                      | None => select_cached fuel session_id stmt sql e
                      end
    | SInsert i =>
        let@ _ := invalidate (id_value (ins_table i)) in
        let@ _ := edml (execute_insert txn i schema) in eret (from_records [])
    | SUpdate u =>
        let@ _ := invalidate (id_value (up_table u)) in
        let@ _ := edml (execute_update txn u schema) in eret (from_records [])
    | SDelete d =>
        let@ _ := invalidate (id_value (del_table d)) in
        let@ _ := edml (execute_delete txn d schema) in eret (from_records [])
    | other =>
        let@ tree := eget le_tree in
        let@ (records, tree) := erun (apply_statement fuel other tree) in
        let@ _ := emodify (with_tree tree) in eret (from_records records)
    end in
  let@ _ := audit_record (ca_unix_ms ca) session_id sql (len (qr_rows result)) in
  eret result.

(** [CREATE TABLE] and [ALTER TABLE]: a column definition as catalog entry *)
Definition column_meta (c : ColumnDef) : ColumnMeta :=
  mkColumnMeta (id_value (cd_name c)) (cd_type c) (cd_not_null c || cd_primary_key c) (cd_primary_key c) (cd_unique c).

Definition create_table_stmt (t : CreateTableStmt) : EM unit :=
  let name := id_value (ct_name t) in
  let@ ts := edml (on_txn alloc_ts) in
  let cols := map column_meta (ct_columns t) in
  let pk := match map id_value (ct_primary_key t) with
            | [] => map cm_name (filter (fun c => cm_primary_key c = true) cols)
            | pk => pk
            end in
  let@ _ := match pk, cols with
            | [k], c :: _ => if bool_decide (cm_name c = k) then etree (fun t => mark_row_id_column t name k)
                             else etree (fun t => unmark_row_id_column t name)
            | _, _ => etree (fun t => unmark_row_id_column t name)
            end in
  let@ schema := eget le_schema in
  let@ schema := elift (map_err ESchema (create_table schema name ts cols pk)) in
  let@ file := eget le_schema_file in
  let@ _ := emodify (with_schema schema file) in
  let@ _ := emodify (fun e => with_vectors (register_table_schema (le_vectors e) name cols) e) in
  let@ _ := invalidate [] in
  persist_schema.

Definition alter_table_stmt (a : AlterTableStmt) : EM unit :=
  let 'AddColumn col := at_action a in
  let table := id_value (at_table a) in
  let@ ts := edml (on_txn alloc_ts) in
  let@ schema := eget le_schema in
  let@ schema := elift (map_err ESchema (add_column schema table (column_meta col) ts)) in
  let@ file := eget le_schema_file in
  let@ _ := emodify (with_schema schema file) in
  let@ _ := invalidate table in
  persist_schema.

Definition drop_table_stmt (t : DropTableStmt) : EM unit :=
  let name := id_value (dt_name t) in
  let@ schema := eget le_schema in
  let@ schema := elift (map_err ESchema (drop_table schema name)) in
  let@ file := eget le_schema_file in
  let@ _ := emodify (with_schema schema file) in
  let@ _ := emodify (fun e => with_vectors (vi_drop_table (le_vectors e) name) e) in
  let@ _ := invalidate name in
  let@ _ := etree (fun t => let? r := purge_table_data t name in Ok r.2) in
  persist_schema.

Definition set_role_stmt (session_id : Z) (s : SetRoleStmt) : EM unit :=
  let@ role := eget (session_role_for session_id) in
  let@ _ := elift (authorize_role_change role (sr_role s)) in
  emodify (fun e =>
    let tenant := match le_sessions e !! session_id with Some ctx => se_tenant ctx | None => bs "default" end in
    with_sessions (<[session_id := mkSessionContext tenant (sr_role s)]> (le_sessions e)) e).

Definition dispatch (fuel : nat) (ca : Call) (session_id : Z) (stmt : Statement) (sql : bytes) : EM QueryResult :=
  let@ role := eget (session_role_for session_id) in
  let@ _ := elift (authorize_statement role stmt) in
  let finish (p : EM unit) : EM QueryResult :=
    let@ _ := p in let@ _ := audit_record (ca_unix_ms ca) session_id sql 0 in eret empty_ok in
  match stmt with
  | SPrepare name inner _ =>
      match inner with
      | SSelect _ =>
          finish (let@ c := eget le_prepare in
                  let@ c := elift (PrepareCache_insert c (id_value name) inner) in emodify (with_prepare c))
      | _ => elift (Err (InvalidSql "PREPARE only supports SELECT"))
      end
  | SExecute x =>
      let@ c := eget le_prepare in
      match PrepareCache_get c (id_value (ex_name x)) with
      | None => elift (Err (InvalidSql "unknown prepared statement"))
      | Some prep =>
          let@ bound := elift (bind_parameters (pp_stmt prep) (ex_params x)) in
          let@ rls := eget le_rls in
          run_data_statement fuel ca session_id (apply_rls bound rls role) sql
      end
  | SSetRole s => finish (set_role_stmt session_id s)
  | SEnableRls x => finish (emodify (fun e => with_rls (rls_enable (le_rls e) (id_value (rls_table x))) e))
  | SAlterTable a => finish (alter_table_stmt a)
  | SCreatePolicy p => finish (emodify (fun e => with_rls (add_policy (le_rls e) p) e))
  | SCreateTable t =>
      let@ exists_ := eget (fun e => sc_contains (le_schema e) (id_value (ct_name t))) in
      if ct_if_not_exists t && exists_ then finish (eret tt) else finish (create_table_stmt t)
  | SDropTable t => finish (drop_table_stmt t)
  | SBeginTxn _ => finish (let@ _ := edml (on_txn (begin session_id (ca_txn_now ca))) in eret tt)
  | SCommitTxn _ => finish (let@ _ := edml (commit_to_storage session_id (ca_txn_now ca)) in invalidate [])
  | SRollbackTxn _ => finish (edml (on_txn (rollback session_id)))
  | SAnalyzeTable a =>
      let table := id_value (an_table a) in
      finish (let@ _ := etree (fun t => persist_table_stats t table (analyze_table t table)) in invalidate table)
  | other =>
      let@ rls := eget le_rls in
      run_data_statement fuel ca session_id (apply_rls other rls role) sql
  end.

(** [execute_session]: the memory reservation is released when the call ends. *)
Definition execute_session (fuel : nat) (ca : Call) (session_id : Z) (sql : bytes) : EM QueryResult := fun e =>
  let deadline := Deadline_new (le_timeout_ms e) (ca_start ca) in
  let '(check1, check2, check3) := ca_checks ca in
  (let@ _ := elift (validate_sql sql) in
   let@ _ := (fun e => let '(r, l) := acquire (le_limiter e) session_id (ca_acquire ca) in Some (r, with_limiter l e)) in
   let@ _ := elift (dl_check deadline check1) in
   let@ _ := (fun e => Some (mb_gate_write (le_memory e) (tr_pressure (le_tree e)) (sat 64 (len sql * 4096)), e)) in
   let n := Z.max (len sql) 4096 in
   let@ _ := (fun e => match try_reserve (le_memory e) n with
                       | Ok m => Some (Ok tt, with_memory m e)
                       | Err x => Some (Err x, e)
                       | Panic => Some (Panic, e)
                       end) in
   fun e =>
     match (let@ stmt := parse_cached sql in
            let@ _ := elift (dl_check deadline check2) in
            fun e => match dispatch fuel ca session_id stmt sql e with
                     | None => None
                     | Some (out, e) => (let@ _ := elift (dl_check deadline check3) in elift out) e
                     end) e with
     | None => None
     | Some (r, e) => Some (r, with_memory (release (le_memory e) n) e)
     end) e.

Definition execute (fuel : nat) (ca : Call) (sql : bytes) : EM QueryResult := execute_session fuel ca DEFAULT_SESSION sql.

(** [open_with_config] on the opened tree, the audit file and the schema file; the
    numbers of the environment variables are parsed already. *)
Definition LocalEngine_open (tree : T) (audit schema : option bytes) (mem_budget : option Z) (qps burst : option f64)
    (timeout_ms : Z) (data_key : option bytes) : outcome EngineError (LocalEngine T C) :=
  let? audit := AuditLog_open audit in
  let? catalog := map_err ECodec (SchemaCatalog_load schema) in
  Ok (mkLocalEngine tree {[ DEFAULT_SESSION := SessionContext_dev ]} PrepareCache_default RlsCatalog_default audit TxnManager_new
        QueryCache_default catalog schema VectorIndexCatalog_default (MemoryBudget_from_env mem_budget)
        (RateLimiter_from_env qps burst) timeout_ms (DataKey_from_env data_key)
        (StatementCache_with_capacity DEFAULT_STMT_CACHE_CAPACITY)).
End engine.
