(* ===== verification/EngineFacts.v ===== *)
(** * Sessions run from SQL text

    The LSM tree as the tree of the engine, and the engine over it, run on texts. *)

From S2P Require Import Prelude BTree StorageError Mvcc MvccMemTable MemTable Wal Filter SSTable Compaction Lsm LsmScan Text Txn TxnManager Float64 Tokens Ast Display Lexer Parser Statements Utf8 RowPack Value Cast Eval Plan TableScan SetOps RowOps WindowExec StreamAgg Executor Optimize Build Query StoreSpec Catalog Guards Caches AuditTrail Bind Hnsw Dml Engine.

(** ** The LSM tree as a tree of the engine *)

Definition or_nil {E A} (o : outcome E (list A)) : list A := match o with Ok l => l | _ => [] end.

Definition lsm_tree (crc32c : bytes -> Z) (sizing : Z -> Z * Z) (sort : list (candidate bytes) -> list (candidate bytes))
    (sort_keys : list (candidate unit) -> list (candidate unit)) : TreeOps LsmTree := {|
  tr_get := LsmTree_get crc32c;
  tr_get_visible := Lsm.get_visible crc32c;
  tr_iter l := or_nil (LsmTree_iter crc32c sort l);
  tr_range l start end_ := or_nil (LsmTree_range crc32c sort l start end_);
  tr_range_keys l start end_ := or_nil (range_visible_keys crc32c sort_keys l start end_ latest_view);
  tr_range_visible l start end_ view := or_nil (range_visible crc32c sort l start end_ view);
  tr_put := LsmTree_put crc32c sizing;
  tr_delete := LsmTree_delete crc32c sizing;
  tr_put_version := put_version crc32c sizing;
  tr_gc_active min_retain l := (gc_mvcc_active min_retain l).2;
  tr_pressure l := MemTable_approx_bytes (l_active l) |}.

(** ** COUNT over the LSM tree *)

Lemma prefix_end_zero (p : bytes) : prefix_end (p ++ [zero]) = p ++ [x01].
Proof. unfold prefix_end. rewrite rev_app_distr. cbn. by rewrite rev_involutive. Qed.

(** C23. [SELECT COUNT( * ) FROM t] over the LSM tree is answered by a pass over its keys
    (range_visible_keys, which merges memtable and tables without their values), and gives
    the number of rows that a scan of the table (range_visible) loads, up to the largest
    integer.  The tree may be any with readable tables, the two sorts any that sort; no key
    of the table may have a live version and a tombstone with the same timestamp. *)
Theorem count_star_counts_rows {I} `{RowStore I} `{ExecEnv} `{Scheduler} `{StdChoices} crc32c sizing sort sort_keys
    (l : LsmTree) ms (index : I) (schema : option QuerySchema) (table : bytes) (s : Span) (fuel : nat) :
  let store_ops := lsm_tree crc32c sizing sort sort_keys in
  let prefix := table_prefix_key table in
  sorts sort -> sorts sort_keys -> mem_wf (l_active l) -> tables crc32c (l_sst l) (l_level1 l ++ l_level0 l) ms ->
  no_split_ties (scan_candidate (fun v => v) (mem_map (l_active l) :: ms) latest_view prefix (prefix_end prefix)) ->
  table <> [] ->
  exists keys rows, range_visible_keys crc32c sort_keys l prefix (prefix_end prefix) latest_view = Ok keys /\
    range_visible crc32c sort l prefix (prefix_end prefix) latest_view = Ok rows /\
    execute_sql_on_with_schema l index schema (S fuel) (SSelect (count_star_query table s)) =
      Some (Ok [mkRecord [(bs "count", VInteger (Z.min (count_row_ids prefix None keys) i64_max))]]) /\
    count_row_ids prefix None keys = len (load_table_rows l table None).
Proof.
  intros store_ops prefix Hs Hk Hwf Ht Hties Hne.
  destruct (keys_of_range crc32c sort sort_keys l ms latest_view prefix (prefix_end prefix)) as (rows & Hr & Hsorted & Hkeys); try done.
  { unfold prefix, table_prefix_key. rewrite prefix_end_zero. by destruct table. }
  { unfold prefix, table_prefix_key. rewrite prefix_end_zero. apply bytes_lt_le. by apply bytes_lt_app. }
  assert (tr_range_keys l prefix (prefix_end prefix) = map fst rows) as Ek by (cbn; by rewrite Hkeys).
  assert (tr_range l prefix (prefix_end prefix) = rows) as Er by (cbn; unfold LsmTree_range; by rewrite Hr).
  exists (map fst rows), rows. split_and!; [done..| |].
  - rewrite count_star_by_keys by done. cbn [rs_range_keys tree_rows]. fold prefix. by rewrite Ek.
  - pose proof (count_rows_of_keys l table) as X. cbn [rs_range rs_range_keys tree_rows] in X. fold prefix in X.
    rewrite Ek, Er in X. by apply X.
Qed.

(** A tree whose memtable holds one row of [people], version 7. *)
Definition one_row_tree : LsmTree :=
  mkLsmTree (mkWalSegmentManager fresh_dir 1 EveryAppend)
    (mkMemTable {[encode_internal_key (packed_row_key (bs "people") (bs "1")) 7 :=
                   demo_version 7 "row"]} 37)
    [] [] tiny_config 0 0 0 ∅ None.

Lemma one_row_no_ties view start end_ :
  no_split_ties (scan_candidate (fun v => v) [mem_map (l_active one_row_tree)] view start end_).
Proof.
  intros k ts v v' (m & ik & raw & u & ts1 & d & v1 & Hm & Hl & Hst & _ & _ & _ & _ & E)
    (m' & ik' & raw' & u' & ts1' & d' & v1' & Hm' & Hl' & Hst' & _ & _ & _ & _ & E').
  apply list_elem_of_singleton in Hm as ->, Hm' as ->. cbn [l_active one_row_tree mem_map] in Hl, Hl'.
  apply lookup_singleton_Some in Hl as [<- <-], Hl' as [<- <-]. injection E as _ _ <- _. injection E' as _ _ <- _.
  by destruct (stores_version_det _ _ _ _ _ _ _ _ _ _ Hst Hst') as (_ & _ & ? & _).
Qed.

#[local] Existing Instance demo_env.
#[local] Existing Instance demo_choices.
#[local] Existing Instance demo_scheduler.
#[local] Existing Instance ascii_unicode.
#[local] Existing Instance demo_aead.
Definition demo_tree : TreeOps LsmTree := lsm_tree crc32 demo_sizing stable_sort stable_sort.
#[local] Existing Instance demo_tree.
#[local] Existing Instance coded_text.

Lemma count_star_counts_rows_witness :
  exists keys rows, range_visible_keys crc32 stable_sort one_row_tree (bs "people" ++ [x00]) (bs "people" ++ [x01]) latest_view = Ok keys /\
    execute_sql_on_with_schema one_row_tree one_row_tree None 1 (SSelect (count_star_query (bs "people") (mkSpan 0 0))) =
      Some (Ok [mkRecord [(bs "count", VInteger (Z.min (count_row_ids (bs "people" ++ [x00]) None keys) i64_max))]]) /\
    rows = [(packed_row_key (bs "people") (bs "1"), bs "row")] /\ count_row_ids (bs "people" ++ [x00]) None keys = 1.
Proof.
  destruct (count_star_counts_rows crc32 demo_sizing stable_sort stable_sort one_row_tree [] one_row_tree None (bs "people") (mkSpan 0 0) 0)
    as (keys & rows & Hk & Hr & He & _).
  - apply stable_sort_sorts.
  - apply stable_sort_sorts.
  - split; reflexivity.
  - constructor.
  - apply one_row_no_ties.
  - discriminate.
  - exists keys, rows. split; [exact Hk|]. split; [exact He|]. vm_compute in Hk, Hr. injection Hk as <-. injection Hr as <-.
    split; reflexivity.
Defined.

Abbreviation Eng := (LocalEngine LsmTree (gmap CacheKey QueryResult)).
Definition fresh_engine : option Eng :=
  match LsmTree_open fresh_disk LsmConfig_default with
  | Ok t => match LocalEngine_open t None None None None None 0 None with Ok e => Some e | _ => None end
  | _ => None
  end.

(** A session: each text with its session id; the results, as rows, or the error. *)
Inductive Answer : Type := Rows (rows : list (list bytes)) | Failed (code : Z) | Crashed | Running_on.
Definition demo_call : Call := mkCall 0 0 0 (0, 0, 0) 0 [].
Fixpoint session (e : Eng) (texts : list (Z * string)) : list Answer :=
  match texts with
  | [] => []
  | (sid, text) :: texts =>
      match execute_session demo_hash 20 demo_call sid (bs text) e with
      | None => [Running_on]
      | Some (Ok r, e) => Rows (qr_rows r) :: session e texts
      | Some (Err x, e) => Failed (grpc_code x) :: session e texts
      | Some (Panic, e) => Crashed :: session e texts
      end
  end.
Definition run_session (texts : list (Z * string)) : list Answer :=
  match fresh_engine with Some e => session e texts | None => [] end.
Definition admin (texts : list string) : list Answer := run_session (map (fun t => (1, t)) texts).
Definition rows (l : list (list string)) : Answer := Rows (map (map bs) l).
Definition done_ : Answer := Rows [].

(** Tables, rows, indexes and transactions, from text to answers: writes are seen by
    later statements, duplicates of a first-column key are refused, a rolled back
    transaction leaves nothing, a dropped table comes back empty. *)
Theorem engine_runs :
  admin ["CREATE TABLE t (id INT PRIMARY KEY, v TEXT)"; "INSERT INTO t VALUES (1, 'a'), (2, 'b')"; "SELECT * FROM t";
         "UPDATE t SET v = 'z' WHERE id = 1"; "SELECT v FROM t WHERE id = 1"; "INSERT INTO t VALUES (2, 'c')";
         "DELETE FROM t WHERE id = 1"; "SELECT * FROM t"] =
    [done_; done_; rows [["1"; "a"]; ["2"; "b"]]; done_; rows [["z"]]; Failed 1; done_; rows [["2"; "b"]]] /\
  admin ["CREATE TABLE t (a INT PRIMARY KEY, b INT)"; "INSERT INTO t VALUES (1, 7), (2, 8), (3, 7)"; "CREATE INDEX i ON t (b)";
         "SELECT a FROM t WHERE b = 7"; "UPDATE t SET b = 9 WHERE a = 1"; "SELECT a FROM t WHERE b = 7"; "SELECT a FROM t WHERE b = 9"] =
    [done_; done_; done_; rows [["1"]; ["3"]]; done_; rows [["3"]]; rows [["1"]]] /\
  admin ["CREATE TABLE t (a INT PRIMARY KEY)"; "BEGIN"; "INSERT INTO t VALUES (1)"; "SELECT a FROM t"; "ROLLBACK"; "SELECT a FROM t";
         "BEGIN"; "INSERT INTO t VALUES (2)"; "COMMIT"; "SELECT a FROM t"; "DROP TABLE t"; "CREATE TABLE t (a INT PRIMARY KEY)"; "SELECT a FROM t"] =
    [done_; done_; done_; rows [["1"]]; done_; done_; done_; done_; done_; rows [["2"]]; done_; done_; done_].
Proof. split_and!; vm_compute; reflexivity. Qed.

(** Write, close the engine, open it again on the same directory, and go on. *)
Fixpoint session_end (e : Eng) (texts : list string) : option Eng :=
  match texts with
  | [] => Some e
  | text :: texts => match execute_session demo_hash 20 demo_call 1 (bs text) e with Some (_, e) => session_end e texts | None => None end
  end.
Definition reopened (e : Eng) : option Eng :=
  match LsmTree_open (disk_of (le_tree e)) LsmConfig_default with
  | Ok t => match LocalEngine_open t None (le_schema_file e) None None None 0 None with Ok e => Some e | _ => None end
  | _ => None
  end.
Definition reopened_session (first second : list string) : list Answer :=
  match (match fresh_engine with Some e => session_end e first | None => None end) with
  | Some e => match reopened e with Some e => session e (map (fun t => (1, t)) second) | None => [] end
  | None => []
  end.

(** Opening an engine starts the clock at zero again, while the tree keeps its versions:
    after a restart a DELETE and an UPDATE of old rows report success and change nothing,
    because their versions are older than the stored ones. *)
Theorem writes_after_reopen_lost :
  reopened_session ["CREATE TABLE t (id INT PRIMARY KEY, v TEXT)"; "INSERT INTO t VALUES (1, 'a'), (2, 'b')";
                    "UPDATE t SET v = 'c'"; "UPDATE t SET v = 'd'"]
    ["SELECT id, v FROM t"; "DELETE FROM t"; "SELECT v FROM t"; "UPDATE t SET v = 'z'"; "SELECT id, v FROM t WHERE v > 'a'"] =
    [rows [["1"; "d"]; ["2"; "d"]]; done_; rows [["d"]; ["d"]]; done_; rows [["1"; "d"]; ["2"; "d"]]].
Proof. vm_compute. reflexivity. Qed.

(** A CREATE TABLE that fails because the table exists has already changed which column
    the table's rows are looked up by: an equality on the new column then finds the row
    whose key is that value. *)
Theorem failed_create_changes_lookup :
  admin ["CREATE TABLE t (id INT PRIMARY KEY, v TEXT)"; "INSERT INTO t VALUES (1, 'a'), (2, '1')";
         "SELECT id FROM t WHERE v = '1'"; "CREATE TABLE t (v TEXT PRIMARY KEY)"; "SELECT id, v FROM t WHERE v = '1'"] =
    [done_; done_; rows [["2"]]; Failed 1; rows [["1"; "a"]]].
Proof. vm_compute. reflexivity. Qed.

(** A row committed by a transaction stays in the version table and hides what a later
    statement outside of a transaction writes to the tree: the next transaction reads
    the old value. *)
Theorem transaction_reads_overwritten_value :
  admin ["CREATE TABLE t (id INT PRIMARY KEY, v TEXT)"; "BEGIN"; "INSERT INTO t VALUES (1, 'a')"; "COMMIT";
         "UPDATE t SET v = 'b' WHERE id = 1"; "SELECT v FROM t"; "BEGIN"; "SELECT v FROM t"] =
    [done_; done_; done_; done_; done_; rows [["b"]]; done_; rows [["a"]]].
Proof. vm_compute. reflexivity. Qed.

(** Row-level security: a policy filters new queries, but a query that was answered before
    is still answered from the cache, and a table inside a subquery, a common table
    expression or the right side of a UNION is not filtered. *)
Theorem policies_can_be_bypassed :
  run_session [(1, "CREATE TABLE t (id INT PRIMARY KEY, o TEXT)"); (1, "INSERT INTO t VALUES (1, 'bob'), (2, 'eve')");
               (2, "SET ROLE bob"); (2, "SELECT id FROM t");
               (1, "ALTER TABLE t ENABLE ROW LEVEL SECURITY"); (1, "CREATE POLICY p ON t USING (o = CURRENT_USER)");
               (2, "SELECT id FROM t WHERE id > 0"); (2, "SELECT id FROM t"); (2, "SELECT id FROM (SELECT id FROM t) x");
               (2, "WITH c AS (SELECT id FROM t) SELECT id FROM c")]%string =
    [done_; done_; done_; rows [["1"]; ["2"]]; done_; done_;
     rows [["1"]]; rows [["1"]; ["2"]]; rows [["1"]; ["2"]]; rows [["1"]; ["2"]]].
Proof. vm_compute. reflexivity. Qed.

(** Results are cached by role and text: a prepared statement that is prepared anew still
    returns the result of the old one. *)
Theorem prepared_result_is_stale :
  admin ["CREATE TABLE t (a INT PRIMARY KEY, b INT)"; "INSERT INTO t VALUES (1, 7)"; "PREPARE q AS SELECT a FROM t"; "EXECUTE q";
         "PREPARE q AS SELECT b FROM t"; "EXECUTE q"] =
    [done_; done_; done_; rows [["1"]]; done_; rows [["1"]]].
Proof. vm_compute. reflexivity. Qed.

(** Constraints that are not kept: a key that is not the first column is compared with the
    values of the first column; an update checks neither PRIMARY KEY nor UNIQUE; inside a
    transaction a key that is only in the tree is not found, and the row is overwritten;
    without a key, rows with an equal first column overwrite each other. *)
Theorem constraints_not_kept :
  admin ["CREATE TABLE t (a INT, b INT PRIMARY KEY)"; "INSERT INTO t VALUES (1, 7)"; "INSERT INTO t VALUES (2, 7)";
         "INSERT INTO t VALUES (3, 1)"; "SELECT * FROM t"] =
    [done_; done_; done_; Failed 1; rows [["1"; "7"]; ["2"; "7"]]] /\
  admin ["CREATE TABLE t (a INT PRIMARY KEY, b INT UNIQUE)"; "INSERT INTO t VALUES (1, 7), (2, 8)";
         "UPDATE t SET a = 2, b = 8 WHERE a = 1"; "SELECT a, b FROM t"; "SELECT a FROM t WHERE a = 1"] =
    [done_; done_; done_; rows [["2"; "8"]; ["2"; "8"]]; rows [["2"]]] /\
  admin ["CREATE TABLE t (a INT PRIMARY KEY, b INT)"; "INSERT INTO t VALUES (1, 7)"; "BEGIN"; "INSERT INTO t VALUES (1, 9)"; "COMMIT";
         "SELECT a, b FROM t"] = [done_; done_; done_; done_; done_; rows [["1"; "9"]]] /\
  admin ["CREATE TABLE t (a INT, b INT)"; "INSERT INTO t VALUES (1, 1), (1, 2)"; "SELECT * FROM t"] = [done_; done_; rows [["1"; "2"]]].
Proof. split_and!; vm_compute; reflexivity. Qed.

(** A semicolon inside a string literal counts as a second statement. *)
Theorem semicolon_in_literal_rejected :
  admin ["CREATE TABLE t (a TEXT PRIMARY KEY)"; "INSERT INTO t VALUES ('x;y')"] = [done_; Failed 1].
Proof. vm_compute. reflexivity. Qed.
