(* ===== verification/EngineSpec.v ===== *)
(** * What every call of the engine keeps

    A call is composed of steps that each touch a part of the state.  [keeps f p] says
    that [p] leaves [f] of the state as it is, whatever it returns; it is compositional,
    and a hint database collects it for every operation. *)

From S2P Require Import Prelude BTree StorageError Mvcc MvccMemTable Txn TxnManager MemTable Text Float64 Tokens Ast Display Lexer Parser Statements Utf8 RowPack Value Cast Eval Plan TableScan SetOps RowOps WindowExec StreamAgg Executor Optimize Build Query Catalog Guards Caches AuditTrail Bind Hnsw Dml EngineFacts Engine.

Create HintDb keeps discriminated.

Section spec.
Context {T C : Type} `{TreeOps T} `{LruOps C CacheKey QueryResult} `{ExecEnv} `{Scheduler} `{StdChoices} `{Unicode} `{Aead}.
Context `{JsonText SchemaSnapshot} `{JsonText AuditEntry} (sha256_hex : bytes -> bytes).
Abbreviation Eng := (LocalEngine T C).
Abbreviation Step A := (EM (T := T) (C := C) A).
Implicit Types e : Eng.

(** ** Steps that keep a part of the state *)

Definition keeps {X A} (f : Eng -> X) (p : EM A) : Prop := forall e r e', p e = Some (r, e') -> f e' = f e.

Lemma ekeeps_ret {X A} (f : Eng -> X) (a : A) : keeps f (eret a).
Proof. intros e r e' [= <- <-]. done. Qed.
Lemma keeps_lift {X A} (f : Eng -> X) (o : outcome EngineError A) : keeps f (elift o).
Proof. intros e r e' [= <- <-]. done. Qed.
Lemma ekeeps_get {X A} (f : Eng -> X) (g : Eng -> A) : keeps f (eget g).
Proof. intros e r e' [= <- <-]. done. Qed.
Lemma keeps_modify {X} (f : Eng -> X) (g : Eng -> Eng) : (forall e, f (g e) = f e) -> keeps f (emodify g).
Proof. intros Hg e r e' [= <- <-]. apply Hg. Qed.
Lemma ekeeps_bind {X A B} (f : Eng -> X) (p : EM A) (k : A -> EM B) : keeps f p -> (forall a, keeps f (k a)) -> keeps f (ebind p k).
Proof.
  intros Hp Hk e r e'. unfold ebind. destruct (p e) as [[[a|x|] e1]|] eqn:E; [|by intros [= <- <-]; eapply Hp..|done].
  intros Ek. rewrite (Hk a _ _ _ Ek). by eapply Hp.
Qed.
Lemma keeps_run {X A} (f : Eng -> X) (r : Running A) : keeps f (erun r).
Proof. intros e o e'. unfold erun. destruct r; [by intros [= <- <-]|done]. Qed.
Lemma keeps_dml {X A} (f : Eng -> X) (p : SM (DmlState T) EngineError A) :
  (forall e t m v, f (with_vectors v (with_mgr m (with_tree t e))) = f e) -> keeps f (edml p).
Proof. intros Hf e r e'. unfold edml. destruct (p _) as [o s]. intros [= <- <-]. apply Hf. Qed.

(** What the steps below the level of sessions and policies never touch *)
Definition protected (e : Eng) : gmap Z SessionContext * PrepareCache * RlsCatalog * MemoryBudget * RateLimiter * StatementCache :=
  (le_sessions e, le_prepare e, le_rls e, le_memory e, le_limiter e, le_stmt_cache e).

Ltac keep :=
  repeat first
    [ assumption | apply ekeeps_ret | apply keeps_lift | apply ekeeps_get | apply keeps_run
    | apply ekeeps_bind; [|intros ?] | apply keeps_modify; intros ?; try (by repeat case_match); done
    | apply keeps_dml; intros; done | progress case_match | solve [auto with keeps] ].

Lemma audit_keeps now sid sql rows : keeps protected (audit_record sha256_hex now sid sql rows).
Proof. apply keeps_modify. intros e. by case_match. Qed.
Lemma audit_keeps_schema now sid sql rows : keeps le_schema (audit_record sha256_hex now sid sql rows).
Proof. apply keeps_modify. intros e. by case_match. Qed.

Lemma select_in_txn_keeps fuel reads sid stmt : keeps (fun e => (protected e, le_schema e, le_audit e)) (execute_select_in_txn fuel reads sid stmt).
Proof. unfold execute_select_in_txn. keep. Qed.

Lemma select_cached_keeps fuel sid stmt sql : keeps (fun e => (protected e, le_schema e, le_audit e)) (select_cached fuel sid stmt sql).
Proof.
  intros e r e'. unfold select_cached. destruct (QueryCache_get _ _ _) as [[hit|] c]; [by intros [= <- <-]|]. intros E.
  assert (K : keeps (fun e => (protected e, le_schema e, le_audit e))
    (ebind (erun (execute_sql_on_with_schema (le_tree (with_cache c e)) (le_tree (with_cache c e)) (Some (query_schema (le_schema (with_cache c e)))) fuel stmt))
       (fun records => ebind (emodify (fun e0 : Eng => with_cache (QueryCache_put (le_cache e0) (session_role_for sid e) sql (from_records records)) e0))
          (fun _ => eret (from_records records))))) by keep.
  by rewrite (K _ _ _ E).
Qed.
(** The part of a data statement before it is audited *)
Definition rest (e : Eng) := (protected e, le_schema e, le_audit e).

Lemma hnsw_or_cached_keeps fuel sid q sql :
  keeps rest (fun e => match try_hnsw_select e q with Some hit => Some (Ok hit, e) | None => select_cached fuel sid (SSelect q) sql e end).
Proof. intros e r e'. destruct (try_hnsw_select e q); [by intros [= <- <-]|]. apply select_cached_keeps. Qed.

(** The session's names as the audit log records them *)
Definition audit_user (e : Eng) (sid : Z) : bytes * bytes :=
  match le_sessions e !! sid with Some s => (se_tenant s, se_role s) | None => (bs "default", bs "anonymous") end.
Definition audited (e e' : Eng) (sid : Z) (sql : bytes) : Prop :=
  exists now rows, le_audit e' = AuditLog_record sha256_hex (le_audit e) now (audit_user e' sid).1 (audit_user e' sid).2 (redact_sql sql) rows.

Lemma audit_step now sid sql rows e r e' : audit_record sha256_hex now sid sql rows e = Some (r, e') ->
  le_audit e' = AuditLog_record sha256_hex (le_audit e) now (audit_user e' sid).1 (audit_user e' sid).2 (redact_sql sql) rows.
Proof.
  unfold audit_record, emodify, audit_user. intros [= <- <-]. by destruct (le_sessions e !! sid) as [s|] eqn:E; cbn; rewrite E.
Qed.

(** Only a statement that fails may leave no entry. *)
Definition logged {A} (e : Eng) (r : outcome EngineError A) (e' : Eng) (sid : Z) (sql : bytes) : Prop :=
  le_audit e' = le_audit e /\ is_ok r = false \/ audited e e' sid sql.

(** A step that leaves the log alone, then an audit entry *)
Lemma then_audited {A B} (p : EM A) (rows : A -> Z) (k : A -> B) now sid sql e r e' : keeps le_audit p ->
  ebind p (fun a => ebind (audit_record sha256_hex now sid sql (rows a)) (fun _ => eret (k a))) e = Some (r, e') -> logged e r e' sid sql.
Proof.
  intros Hp. unfold ebind at 1. destruct (p e) as [[[a|x|] e1]|] eqn:E; [|intros [= <- <-]; left; split; [by eapply Hp|done]..|done].
  unfold ebind. destruct (audit_record _ _ _ _ _ e1) as [[[u|x|] e2]|] eqn:Ea; [|discriminate Ea..]. intros [= <- <-].
  apply audit_step in Ea. rewrite (Hp _ _ _ E) in Ea. right. by eexists _, _.
Qed.

Lemma keeps_part {X Y A} (f : Eng -> X) (g : X -> Y) (p : EM A) : keeps f p -> keeps (fun e => g (f e)) p.
Proof. intros Hp e r e' E. by rewrite (Hp _ _ _ E). Qed.

Lemma keeps_audit_of {A} (p : EM A) : keeps rest p -> keeps le_audit p.
Proof. apply (keeps_part rest snd). Qed.

(** [run_data_statement] without its audit entry *)
Definition data_body (fuel : nat) (ca : Call) (sid : Z) (stmt : Statement) (sql : bytes) : EM QueryResult :=
  ebind (eget (fun e => in_txn (le_txn e) sid)) (fun in_txn =>
  let txn := if in_txn then Some sid else None in
  ebind (eget le_schema) (fun schema =>
    match stmt with
    | SSelect q =>
        if in_txn then execute_select_in_txn fuel (ca_reads ca) sid stmt
        else fun e => match try_hnsw_select e q with Some hit => Some (Ok hit, e) | None => select_cached fuel sid stmt sql e end
    | SInsert i =>
        ebind (invalidate (id_value (ins_table i))) (fun _ => ebind (edml (execute_insert txn i schema)) (fun _ => eret (from_records [])))
    | SUpdate u =>
        ebind (invalidate (id_value (up_table u))) (fun _ => ebind (edml (execute_update txn u schema)) (fun _ => eret (from_records [])))
    | SDelete d =>
        ebind (invalidate (id_value (del_table d))) (fun _ => ebind (edml (execute_delete txn d schema)) (fun _ => eret (from_records [])))
    | other =>
        ebind (eget le_tree) (fun tree =>
        ebind (erun (apply_statement fuel other tree)) (fun '(records, tree) =>
        ebind (emodify (with_tree tree)) (fun _ => eret (from_records records))))
    end)).

Lemma ebind_assoc {A B D} (p : EM A) (k : A -> EM B) (h : B -> EM D) e : ebind (ebind p k) h e = ebind p (fun a => ebind (k a) h) e.
Proof. unfold ebind. destruct (p e) as [[[a|x|] e1]|]; done. Qed.

Lemma data_statement_body fuel ca sid stmt sql e :
  run_data_statement sha256_hex fuel ca sid stmt sql e =
  ebind (data_body fuel ca sid stmt sql) (fun r => ebind (audit_record sha256_hex (ca_unix_ms ca) sid sql (len (qr_rows r))) (fun _ => eret r)) e.
Proof. by destruct stmt. Qed.

Lemma data_body_keeps fuel ca sid stmt sql : keeps rest (data_body fuel ca sid stmt sql).
Proof.
  apply ekeeps_bind; [apply ekeeps_get|intros b]. apply ekeeps_bind; [apply ekeeps_get|intros schema].
  destruct stmt; try (destruct b; [apply select_in_txn_keeps|apply hnsw_or_cached_keeps]); unfold invalidate; keep.
Qed.

Lemma data_statement_keeps fuel ca sid stmt sql : keeps (fun e => (protected e, le_schema e)) (run_data_statement sha256_hex fuel ca sid stmt sql).
Proof.
  intros e r e'. rewrite data_statement_body. revert e r e'. apply ekeeps_bind.
  - apply (keeps_part rest fst), data_body_keeps.
  - intros a. apply ekeeps_bind; [|intros ?; apply ekeeps_ret]. apply keeps_modify. intros e. by case_match.
Qed.

Lemma data_statement_audited fuel ca sid stmt sql e r e' :
  run_data_statement sha256_hex fuel ca sid stmt sql e = Some (r, e') -> logged e r e' sid sql.
Proof. rewrite data_statement_body. apply (then_audited _ (fun r => len (qr_rows r)) (fun r => r)). apply keeps_audit_of, data_body_keeps. Qed.

(** ** Dispatch *)

Definition finish (now sid : Z) (sql : bytes) (p : Step unit) : Step QueryResult :=
  ebind p (fun _ => ebind (audit_record sha256_hex now sid sql 0) (fun _ => eret empty_ok)).

Lemma finish_keeps {X} (f : Eng -> X) now sid sql p : (forall e a, f (with_audit a e) = f e) -> keeps f p -> keeps f (finish now sid sql p).
Proof.
  intros Hf Hp. apply ekeeps_bind; [done|intros ?]. apply ekeeps_bind; [|intros ?; apply ekeeps_ret].
  apply keeps_modify. intros e. case_match. apply Hf.
Qed.
Lemma finish_audited now sid sql p e r e' : keeps le_audit p -> finish now sid sql p e = Some (r, e') -> logged e r e' sid sql.
Proof. intros Hp. by apply (then_audited p (fun _ => 0) (fun _ => empty_ok)). Qed.

Lemma create_table_keeps t : keeps (fun e => (protected e, le_audit e)) (create_table_stmt t).
Proof. unfold create_table_stmt, etree, invalidate, persist_schema. keep. Qed.
Lemma alter_table_keeps a : keeps (fun e => (protected e, le_audit e)) (alter_table_stmt a).
Proof. unfold alter_table_stmt, invalidate, persist_schema. destruct (at_action a). keep. Qed.
Lemma drop_table_keeps t : keeps (fun e => (protected e, le_audit e)) (drop_table_stmt t).
Proof. unfold drop_table_stmt, etree, invalidate, persist_schema. keep. Qed.
Lemma set_role_keeps sid s : keeps (fun e => (le_prepare e, le_rls e, le_memory e, le_limiter e, le_stmt_cache e, le_schema e, le_audit e)) (set_role_stmt sid s).
Proof. unfold set_role_stmt. keep. Qed.

(** SET ROLE sets the session's own role, to an administrator's only from one. *)
Lemma set_role_sessions sid s e r e' : set_role_stmt sid s e = Some (r, e') ->
  le_sessions e' = le_sessions e \/
  exists tenant, le_sessions e' = <[sid := mkSessionContext tenant (sr_role s)]> (le_sessions e) /\
    (is_admin_role (sr_role s) = true -> is_admin_role (session_role_for sid e) = true).
Proof.
  unfold set_role_stmt, ebind, eget, elift, authorize_role_change.
  destruct (is_admin_role (sr_role s)) eqn:E1, (is_admin_role (session_role_for sid e)) eqn:E2; cbn [andb negb];
    try (intros [= <- <-]; by left); intros [= <- <-]; right; cbn; by eexists.
Qed.

(** One dispatched statement: whose role may change, what a session without
    administrator rights cannot touch, and what is audited *)
Record dispatch_spec (sid : Z) (sql : bytes) (e : Eng) (r : outcome EngineError QueryResult) (e' : Eng) : Prop := {
  ds_sessions : le_sessions e' = le_sessions e \/
    exists ctx, le_sessions e' = <[sid := ctx]> (le_sessions e) /\
      (is_admin_role (se_role ctx) = true -> is_admin_role (session_role_for sid e) = true);
  ds_catalogs : is_admin_role (session_role_for sid e) = false -> le_schema e' = le_schema e /\ le_rls e' = le_rls e;
  ds_guards : le_memory e' = le_memory e /\ le_limiter e' = le_limiter e /\ le_stmt_cache e' = le_stmt_cache e;
  ds_log : logged e r e' sid sql }.

Lemma dispatch_data {A} (f : A -> Statement) (o : outcome EngineError A) fuel ca sid sql e r e' :
  ebind (elift o) (fun a => run_data_statement sha256_hex fuel ca sid (f a) sql) e = Some (r, e') -> dispatch_spec sid sql e r e'.
Proof.
  unfold ebind, elift. destruct o as [a|x|]; [|intros [= <- <-]; split; try done; [by left|by left]..]. intros E.
  pose proof (data_statement_keeps _ _ _ _ _ _ _ _ E) as K. unfold protected in K. injection K as K1 K2 K3 K4 K5 K6 K7. split; try done.
  - by left.
  - by eapply data_statement_audited.
Qed.

(** Statements that end in one audit entry and keep sessions and guards *)
Lemma dispatch_finish now sid sql p e r e' :
  keeps (fun e => (le_sessions e, le_memory e, le_limiter e, le_stmt_cache e, le_audit e)) p ->
  (is_admin_role (session_role_for sid e) = false -> keeps (fun e => (le_schema e, le_rls e)) p) ->
  finish now sid sql p e = Some (r, e') -> dispatch_spec sid sql e r e'.
Proof.
  intros K1 K2 E.
  assert (P1 : keeps (fun e => (le_sessions e, le_memory e, le_limiter e, le_stmt_cache e)) (finish now sid sql p)).
  { apply finish_keeps; [done|]. apply (keeps_part _ fst _ K1). }
  specialize (P1 _ _ _ E). injection P1 as A1 A2 A3 A4. split; [by left| |done|].
  - intros Ha. assert (P2 : keeps (fun e => (le_schema e, le_rls e)) (finish now sid sql p)) by (apply finish_keeps; [done|by apply K2]).
    specialize (P2 _ _ _ E). by injection P2 as -> ->.
  - eapply finish_audited; [|done]. apply (keeps_part _ snd _ K1).
Qed.

(** A statement that stops before it does anything *)
Lemma dispatch_err sid sql e x : dispatch_spec sid sql e (Err x) e.
Proof. split; try done; by left. Qed.

Lemma set_role_dispatch now sid sql s e r e' : finish now sid sql (set_role_stmt sid s) e = Some (r, e') -> dispatch_spec sid sql e r e'.
Proof.
  intros E.
  assert (P : keeps (fun e => (le_rls e, le_memory e, le_limiter e, le_stmt_cache e, le_schema e)) (finish now sid sql (set_role_stmt sid s)))
    by (apply finish_keeps; [done|unfold set_role_stmt; keep]).
  specialize (P _ _ _ E). injection P as A1 A2 A3 A4 A5. split; [|done..|].
  - unfold finish, ebind in E. destruct (set_role_stmt sid s e) as [[[u|x|] e1]|] eqn:Es; [|simplify_eq..|done].
    + assert (S : le_sessions e' = le_sessions e1).
      { revert E. unfold audit_record, emodify, eret. intros [= <- <-]. by case_match. }
      rewrite S. destruct (set_role_sessions _ _ _ _ _ Es) as [?|(tenant & ? & ?)]; [by left|right]. by eexists.
    + destruct (set_role_sessions _ _ _ _ _ Es) as [?|(tenant & ? & ?)]; [by left|right]. by eexists.
    + destruct (set_role_sessions _ _ _ _ _ Es) as [?|(tenant & ? & ?)]; [by left|right]. by eexists.
  - eapply finish_audited; [|done]. apply (keeps_part _ snd _ (set_role_keeps sid s)).
Qed.

Lemma guards_of {A} (p : EM A) : keeps (fun e => (protected e, le_audit e)) p ->
  keeps (fun e => (le_sessions e, le_memory e, le_limiter e, le_stmt_cache e, le_audit e)) p.
Proof.
  intros K. apply (keeps_part _ (fun x => let '((a, _, _, b, c, d), l) := x in (a, b, c, d, l)) _ K).
Qed.

Lemma dispatch_ok fuel ca sid stmt sql e r e' : dispatch sha256_hex fuel ca sid stmt sql e = Some (r, e') -> dispatch_spec sid sql e r e'.
Proof.
  unfold dispatch, ebind at 1, eget at 1, ebind at 1, elift at 1.
  assert (Ha : authorize_statement (session_role_for sid e) stmt = Ok tt ->
               is_admin_role (session_role_for sid e) = true \/ requires_admin stmt = false).
  { unfold authorize_statement. destruct (is_admin_role _); [by left|]. destruct (requires_admin stmt); [done|by right]. }
  destruct (authorize_statement _ stmt) as [[]|x|] eqn:Eau; [specialize (Ha eq_refl)|intros [= <- <-]; apply dispatch_err|].
  2: { unfold authorize_statement in Eau. by repeat case_match. }
  destruct stmt as [q|i|u|d|t|t|i|name inner sp|x|s|x|a|p|sp|sp|sp|a]; cbn [requires_admin] in Ha;
    try (apply (dispatch_data (fun q => apply_rls _ q _) (Ok (le_rls e)))).
  - unfold ebind at 1, eget at 1. destruct (ct_if_not_exists t && _).
    all: apply dispatch_finish; [|intros Hn; destruct Ha; congruence].
    + apply ekeeps_ret.
    + apply guards_of, create_table_keeps.
  - apply dispatch_finish; [|intros Hn; destruct Ha; congruence]. apply guards_of, drop_table_keeps.
  - destruct inner; try (intros [= <- <-]; apply dispatch_err). apply dispatch_finish; [|intros _]; keep.
  - unfold ebind at 1, eget at 1. destruct (PrepareCache_get _ _) as [prep|]; [|intros [= <- <-]; apply dispatch_err].
    apply (dispatch_data (fun b => apply_rls b (le_rls e) (session_role_for sid e)) (bind_parameters (pp_stmt prep) (ex_params x))).
  - apply set_role_dispatch.
  - apply dispatch_finish; [keep|intros Hn; destruct Ha; congruence].
  - apply dispatch_finish; [|intros Hn; destruct Ha; congruence]. apply guards_of, alter_table_keeps.
  - apply dispatch_finish; [keep|intros Hn; destruct Ha; congruence].
  - apply dispatch_finish; [|intros _]; keep.
  - apply dispatch_finish; [|intros _]; unfold invalidate; keep.
  - apply dispatch_finish; [|intros _]; keep.
  - apply dispatch_finish; [|intros Hn; destruct Ha; congruence]. unfold etree, invalidate. keep.
Qed.

(** ** Calls *)

(** The statement cache holds what the parser returns. *)
Definition cache_ok (c : StatementCache) : Prop := forall sql stmt ts, stc_entries c !! sql = Some (stmt, ts) -> parse sql = Ok stmt.

Lemma cache_get_ok c sql : cache_ok c ->
  cache_ok (StatementCache_get c sql).2 /\ (forall stmt, (StatementCache_get c sql).1 = Some stmt -> parse sql = Ok stmt).
Proof.
  intros Hc. unfold StatementCache_get. destruct (stc_entries c !! sql) as [[stmt ts]|] eqn:E; cbn; [|by split].
  split; [|by intros ? [= <-]; eapply Hc]. intros k st t. cbn. intros [[<- [= <- <-]]|[_ Hk]]%lookup_insert_Some; by eapply Hc.
Qed.
Lemma cache_insert_ok c sql stmt : cache_ok c -> parse sql = Ok stmt -> cache_ok (StatementCache_insert c sql stmt).
Proof.
  intros Hc Hp. unfold StatementCache_insert. case_match; [done|]. intros k st t. cbn.
  intros [[<- [= <- <-]]|[_ Hk]]%lookup_insert_Some; [done|]. revert Hk. repeat case_match; try apply Hc.
  intros [_ Hk]%lookup_delete_Some. by eapply Hc.
Qed.

(** Parsing through the cache is parsing. *)
Lemma parse_cached_spec sql e r e' : parse_cached sql e = Some (r, e') -> cache_ok (le_stmt_cache e) ->
  r = map_err EParse (parse sql) /\ cache_ok (le_stmt_cache e').
Proof.
  unfold parse_cached. intros E Hc. destruct (cache_get_ok _ sql Hc) as [G1 G2].
  destruct (StatementCache_get (le_stmt_cache e) sql) as [[stmt|] c] eqn:Eg; cbn [fst snd] in G1, G2.
  - rewrite (G2 stmt eq_refl). by injection E as <- <-.
  - destruct (parse sql) as [stmt|x|] eqn:Ep; injection E as <- <-; (split; [done|]); [|done..]. by apply cache_insert_ok.
Qed.
Lemma parse_cached_keeps sql : keeps (fun e => (le_sessions e, le_schema e, le_rls e, le_memory e, le_audit e)) (parse_cached sql).
Proof. intros e r e'. unfold parse_cached. repeat case_match; intros; by simplify_eq. Qed.

Definition mem_ok (m : MemoryBudget) : Prop := 0 <= mb_reserved m <= mb_limit m /\ mb_limit m < u64_max.

Lemma reserve_release m n m' : mem_ok m -> 0 <= n -> try_reserve m n = Ok m' -> release m' n = m.
Proof.
  intros [? ?] Hn. unfold try_reserve. destruct (reserve_load m n) as [cur|?|] eqn:E; [|done..]. cbn [obind].
  apply reserve_load_ok in E as [-> Hb]; [|lia..]. unfold reserve_cas. rewrite Z.eqb_refl. intros [= <-].
  unfold release. cbn. unfold wrap. change u64_max with (2 ^ 64 - 1) in *. rewrite (Z.mod_small (mb_reserved m + n)) by lia.
  rewrite Z.mod_small by lia. destruct m. cbn. f_equal. lia.
Qed.

(** One call of [execute_session], and (with [M] for true) its part under the reservation *)
Record call_spec (M : Prop) (sid : Z) (sql : bytes) (e : Eng) (r : outcome EngineError QueryResult) (e' : Eng) : Prop := {
  cs_sessions : le_sessions e' = le_sessions e \/
    exists ctx, le_sessions e' = <[sid := ctx]> (le_sessions e) /\
      (is_admin_role (se_role ctx) = true -> is_admin_role (session_role_for sid e) = true);
  cs_catalogs : is_admin_role (session_role_for sid e) = false -> le_schema e' = le_schema e /\ le_rls e' = le_rls e;
  cs_memory : M -> le_memory e' = le_memory e;
  cs_cache : cache_ok (le_stmt_cache e) -> cache_ok (le_stmt_cache e');
  cs_parsed : cache_ok (le_stmt_cache e) -> is_ok r = true -> is_ok (parse sql) = true;
  cs_log : logged e r e' sid sql }.

(** A call that fails early changes at most the limiter, the reservation and the statement cache. *)
Lemma call_stops {M : Prop} sid sql e r e' :
  (le_sessions e', le_schema e', le_rls e', le_audit e') = (le_sessions e, le_schema e, le_rls e, le_audit e) ->
  (M -> le_memory e' = le_memory e) -> (cache_ok (le_stmt_cache e) -> cache_ok (le_stmt_cache e')) -> is_ok r = false ->
  call_spec M sid sql e r e'.
Proof. intros [= E1 E2 E3 E4] Hm Hc Hr. split; try done; [by left|by rewrite Hr|by left]. Qed.

(** Steps that keep what the specification reads *)
Definition core (e : Eng) := (le_sessions e, le_schema e, le_rls e, le_memory e, le_stmt_cache e, le_audit e).
Lemma call_after (M : Prop) sid sql e e1 r e' : core e1 = core e -> call_spec M sid sql e1 r e' -> call_spec M sid sql e r e'.
Proof.
  unfold core. intros [= E1 E2 E3 E4 E5 E6] [S1 S2 S3 S4 S5 S6]. unfold session_role_for, logged, audited in *. rewrite E1, E2, E3, E4, E5, E6 in *. by split.
Qed.

(** The part under the memory reservation *)
Definition reserved_part (fuel : nat) (ca : Call) (d : Deadline) (sid : Z) (sql : bytes) : Step QueryResult :=
  ebind (parse_cached sql) (fun stmt => ebind (elift (dl_check d (ca_checks ca).1.2)) (fun _ e =>
    match dispatch sha256_hex fuel ca sid stmt sql e with
    | None => None
    | Some (out, e) => ebind (elift (dl_check d (ca_checks ca).2)) (fun _ => elift out) e
    end)).

Lemma reserved_ok fuel ca d sid sql e r e' : reserved_part fuel ca d sid sql e = Some (r, e') -> call_spec True sid sql e r e'.
Proof.
  unfold reserved_part, ebind at 1. destruct (parse_cached sql e) as [[o e1]|] eqn:Ep; [|done].
  pose proof (parse_cached_keeps sql _ _ _ Ep) as K. injection K as K1 K2 K3 K4 K5.
  assert (Hc : cache_ok (le_stmt_cache e) -> o = map_err EParse (parse sql) /\ cache_ok (le_stmt_cache e1)) by (by apply parse_cached_spec).
  destruct o as [stmt|x|]; [|intros [= <- <-]; apply call_stops; [congruence|done|apply Hc|done]..].
  unfold ebind at 1, elift at 1. destruct (dl_check _ _); [|intros [= <- <-]; apply call_stops; [congruence|done|apply Hc|done]..].
  destruct (dispatch _ _ _ _ _ _ e1) as [[out e2]|] eqn:Ed; [|done]. apply dispatch_ok in Ed as [D1 D2 (D3 & D4 & D5) D6].
  intros E. assert (F : e' = e2 /\ (is_ok r = true -> is_ok out = true)).
  { revert E. unfold ebind, elift. by destruct (dl_check _ _); intros [= <- <-]. }
  destruct F as [-> F]. unfold session_role_for in D1, D2. rewrite K1 in D1, D2. rewrite K2, K3 in D2. split.
  - done.
  - done.
  - congruence.
  - rewrite D5. apply Hc.
  - intros Hk _. destruct (Hc Hk) as [Hp _]. by destruct (parse sql).
  - destruct D6 as [[D6 D7]|D6]; [left; split; [congruence|]|right; unfold audited in *; by rewrite K5 in D6].
    destruct (is_ok r) eqn:Er; [|done]. rewrite (F eq_refl) in D7. done.
Qed.

Lemma execute_session_ok fuel ca sid sql e r e' :
  execute_session sha256_hex fuel ca sid sql e = Some (r, e') -> call_spec (mem_ok (le_memory e)) sid sql e r e'.
Proof.
  unfold execute_session. generalize (Deadline_new (le_timeout_ms e) (ca_start ca)) as d. intros d. destruct (ca_checks ca) as [[c1 c2] c3] eqn:Eck.
  unfold ebind at 1, elift at 1. destruct (validate_sql sql); [|intros [= <- <-]; by apply call_stops..].
  unfold ebind at 1. destruct (acquire _ _ _) as [[u1|x|] l]; [|intros [= <- <-]; by apply call_stops..].
  set (e1 := with_limiter l e). intros E. apply (call_after _ _ _ e e1); [done|]. change (le_memory e) with (le_memory e1). revert E. generalize e1. clear e e1 l.
  intros e. unfold ebind at 1, elift at 1. destruct (dl_check _ _); [|intros [= <- <-]; by apply call_stops..].
  unfold ebind at 1. destruct (mb_gate_write _ _ _); [|intros [= <- <-]; by apply call_stops..].
  unfold ebind at 1. destruct (try_reserve _ _) as [m|x|] eqn:Em; [|intros [= <- <-]; by apply call_stops..].
  pose proof (reserved_ok fuel ca d sid sql (with_memory m e)) as R. revert R. unfold reserved_part. rewrite Eck. cbn [fst snd].
  match goal with |- context [match ?p with _ => _ end = Some (r, e')] => destruct p as [[r1 e1]|] end; [|done].
  intros R [= <- <-]. destruct (R _ _ eq_refl) as [S1 S2 S3 S4 S5 S6]. split; try done.
  intros Hm. cbn. rewrite (S3 I). apply (reserve_release _ _ _ Hm); [lia|done].
Qed.

(** ** Any number of calls, of any sessions *)

Inductive calls (e : Eng) : list (Z * bytes * bool) -> Eng -> Prop :=
| calls_nil : calls e [] e
| calls_snoc tr e1 fuel ca sid sql r e2 : calls e tr e1 -> execute_session sha256_hex fuel ca sid sql e1 = Some (r, e2) ->
    calls e (tr ++ [(sid, sql, is_ok r)]) e2.

Lemma call_role M sid sql e r e' sid' : call_spec M sid sql e r e' ->
  is_admin_role (session_role_for sid' e) = false -> is_admin_role (session_role_for sid' e') = false.
Proof.
  intros [S _ _ _ _ _] Ha. destruct S as [S|(ctx & S & Hs)]; unfold session_role_for in *; rewrite S; [done|].
  destruct (decide (sid' = sid)) as [->|]; [rewrite lookup_insert_eq|by rewrite lookup_insert_ne].
  destruct (is_admin_role (se_role ctx)); [|done]. by rewrite (Hs eq_refl) in Ha.
Qed.

Lemma calls_role e tr e' sid : calls e tr e' -> is_admin_role (session_role_for sid e) = false -> is_admin_role (session_role_for sid e') = false.
Proof. induction 1 as [|tr e1 fuel ca sid' sql r e2 _ IH E]; [done|]. intros Ha. eapply call_role; [by eapply execute_session_ok|auto]. Qed.

(** C4. A session without administrator rights never gets them, whatever statements it and
    the other sessions run; and calls of such sessions alone leave the schema and the
    row-level security policies as they are. *)
Theorem no_privilege_escalation (e e' : Eng) (tr : list (Z * bytes * bool)) (sid : Z) : calls e tr e' ->
  is_admin_role (session_role_for sid e) = false ->
  is_admin_role (session_role_for sid e') = false /\
  (Forall (fun c => c.1.1 = sid) tr -> le_schema e' = le_schema e /\ le_rls e' = le_rls e).
Proof.
  intros Hc Ha. split; [by eapply calls_role|]. induction Hc as [|tr e1 fuel ca sid' sql r e2 Hc IH E]; [done|].
  intros [Ht [Hs _]%Forall_cons]%Forall_app. cbn in Hs. subst sid'. destruct (IH Ht) as [<- <-].
  apply execute_session_ok in E. apply E. by eapply calls_role.
Qed.

(** C20. Calls give back the memory that they reserve, on every path, and what the statement
    cache answers is what the parser would. *)
Theorem calls_keep_resources (e e' : Eng) (tr : list (Z * bytes * bool)) : calls e tr e' ->
  mem_ok (le_memory e) -> cache_ok (le_stmt_cache e) ->
  le_memory e' = le_memory e /\
  forall sql, exists e'', parse_cached sql e' = Some (map_err EParse (parse sql), e'').
Proof.
  intros Hc Hm Hk. assert (R : le_memory e' = le_memory e /\ cache_ok (le_stmt_cache e')).
  { induction Hc as [|tr e1 fuel ca sid sql r e2 Hc (M & K) E]; [done|]. apply execute_session_ok in E as [_ _ S3 S4 _ _].
    rewrite S3 by (by rewrite M). by split; [|apply S4]. }
  destruct R as [M K]. split; [done|]. intros sql. destruct (parse_cached sql e') as [[r e'']|] eqn:E.
  - exists e''. by destruct (parse_cached_spec _ _ _ _ E K) as [-> _].
  - unfold parse_cached in E. by repeat case_match.
Qed.
End spec.

(** ** The audit trail of the engine *)
Section trail.
Context {T C : Type} `{TreeOps T} `{LruOps C CacheKey QueryResult} `{ExecEnv} `{Scheduler} `{StdChoices} `{Unicode} `{Aead}.
Context `{JsonText SchemaSnapshot} {J : JsonText AuditEntry} {JL : JsonLaws AuditEntry} {JN : JsonLine AuditEntry} (sha256_hex : bytes -> bytes).

Definition ok_calls (tr : list (Z * bytes * bool)) : list (Z * bytes * bool) := filter (fun c => c.2 = true) tr.
Definition logged_text (c : Z * bytes * bool) : bytes := redact_sql c.1.2.

Lemma calls_logged (e e' : LocalEngine T C) tr : calls sha256_hex e tr e' -> audit_run sha256_hex (le_audit e) [] ->
  exists es, audit_run sha256_hex (le_audit e') es /\
    map logged_text (ok_calls tr) `sublist_of` map au_query es /\ map au_query es `sublist_of` map logged_text tr.
Proof.
  intros Hc R0. induction Hc as [|tr e1 fuel ca sid sql r e2 Hc (es & R & S1 & S2) E].
  - exists []. split_and!; [done|apply sublist_nil_l|done].
  - apply execute_session_ok in E as [_ _ _ _ _ L]. unfold ok_calls in *. rewrite filter_app, !map_app.
    destruct L as [[L Hr]|(now & rows & L)].
    + exists es. rewrite L, Hr. cbn [filter]. split_and!; [done| |by apply sublist_inserts_r].
      rewrite filter_cons_False by done. by rewrite app_nil_r.
    + eexists. rewrite L. split; [by apply audit_next|]. rewrite map_app. split; [|by apply sublist_app].
      apply sublist_app; [done|]. rewrite filter_cons. case_decide; [done|apply sublist_nil_l].
Qed.

(** C11. An engine opened without a log file, and calls one after the other: there are entries,
    which contain every statement that was answered, in order and as [redact_sql] writes
    it, and nothing that was not called; as soon as there is one, the log file reads back
    as these entries and its hash chain verifies; before that there is no file.  (Two
    statements that record at the same time break the chain:
    [concurrent_records_break_chain].) *)
Theorem engine_audit_trail (e e' : LocalEngine T C) (tr : list (Z * bytes * bool)) : calls sha256_hex e tr e' ->
  AuditLog_open None = Ok (le_audit e) ->
  exists es, map logged_text (ok_calls tr) `sublist_of` map au_query es /\ map au_query es `sublist_of` map logged_text tr /\
    match es with
    | [] => al_file (le_audit e') = None
    | _ => AuditLog_read_all (le_audit e') = Ok es /\ verify_chain sha256_hex (le_audit e') = Ok tt
    end.
Proof.
  intros Hc E0. destruct (calls_logged _ _ _ Hc) as (es & R & S1 & S2); [by constructor|]. exists es. split; [done|]. split; [done|].
  destruct es as [|x es]; [by destruct (audit_run_inv sha256_hex _ _ R) as (_ & _ & ->)|].
  by destruct (audit_log_verifies sha256_hex _ _ R) as (V1 & V2 & _).
Qed.
End trail.

(** ** A run: session 2, without rights, tries to create a table and to become an administrator *)

#[local] Existing Instance demo_env.
#[local] Existing Instance demo_choices.
#[local] Existing Instance demo_scheduler.
#[local] Existing Instance ascii_unicode.
#[local] Existing Instance demo_aead.
#[local] Existing Instance demo_tree.
#[local] Existing Instance coded_text.

Fixpoint run_calls (e : EngineFacts.Eng) (texts : list (Z * bytes)) : option (list (Z * bytes * bool) * EngineFacts.Eng) :=
  match texts with
  | [] => Some ([], e)
  | (sid, sql) :: texts =>
      '(r, e1) ← execute_session demo_hash 20 demo_call sid sql e; '(tr, e2) ← run_calls e1 texts; Some ((sid, sql, is_ok r) :: tr, e2)
  end.

Lemma calls_cons e sid sql fuel ca r e1 tr e2 : execute_session demo_hash fuel ca sid sql e = Some (r, e1) ->
  calls demo_hash e1 tr e2 -> calls (T := Lsm.LsmTree) (C := gmap CacheKey QueryResult) demo_hash e ((sid, sql, is_ok r) :: tr) e2.
Proof.
  intros E Hc. induction Hc as [|tr e2 fuel' ca' sid' sql' r' e3 Hc IH E'].
  - apply (calls_snoc _ _ [] e fuel ca); [constructor|done].
  - rewrite app_comm_cons. by eapply calls_snoc.
Qed.

Lemma run_calls_ok e texts tr e' : run_calls e texts = Some (tr, e') -> calls demo_hash e tr e'.
Proof.
  revert e tr. induction texts as [|[sid sql] texts IH]; intros e tr; cbn [run_calls]; [intros [= <- <-]; constructor|].
  destruct (execute_session demo_hash 20 demo_call sid sql e) as [[r e1]|] eqn:E; [|done]. cbn. destruct (run_calls e1 texts) as [[tr1 e2]|] eqn:Er; [|done].
  intros [= <- <-]. eapply calls_cons; [done|]. by apply IH.
Qed.

Definition demo_texts : list (Z * bytes) :=
  [(2, bs "CREATE TABLE t (a INT)"); (2, bs "SET ROLE admin"); (2, bs "SET ROLE reader"); (2, bs "SELECT 1")].
Definition demo_trace : list (Z * bytes * bool) :=
  [(2, bs "CREATE TABLE t (a INT)", false); (2, bs "SET ROLE admin", false); (2, bs "SET ROLE reader", true); (2, bs "SELECT 1", true)].
Definition demo_run : option (EngineFacts.Eng * list (Z * bytes * bool) * EngineFacts.Eng) :=
  e ← fresh_engine; '(tr, e') ← run_calls e demo_texts; Some (e, tr, e').

Lemma demo_calls : exists e e', fresh_engine = Some e /\ demo_run = Some (e, demo_trace, e') /\ calls demo_hash e demo_trace e'.
Proof.
  assert (E : (fun x => x.1.2) <$> demo_run = Some demo_trace) by (vm_compute; reflexivity).
  destruct demo_run as [[[e tr] e']|] eqn:Ed; [|discriminate E]. injection E as E. cbn [fst snd] in E. subst tr.
  unfold demo_run, mbind, option_bind in Ed. destruct fresh_engine as [e0|]; [|discriminate Ed].
  destruct (run_calls e0 demo_texts) as [[tr e1]|] eqn:Er; [|discriminate Ed]. injection Ed as -> -> ->.
  exists e, e'. split_and!; [done..|]. by eapply run_calls_ok.
Qed.

(** What is read of the fresh engine *)
Lemma fresh_reads (P : EngineFacts.Eng -> bool) e : fresh_engine = Some e -> P <$> fresh_engine = Some true -> P e = true.
Proof. intros ->. cbn. congruence. Qed.

Lemma no_privilege_escalation_witness : exists e e', demo_run = Some (e, demo_trace, e') /\
  is_admin_role (session_role_for 2 e') = false /\ le_schema e' = le_schema e /\ le_rls e' = le_rls e.
Proof.
  destruct demo_calls as (e & e' & E0 & E & Hc). exists e, e'. split; [done|].
  destruct (no_privilege_escalation demo_hash e e' demo_trace 2 Hc) as [A B].
  - apply negb_true_iff. apply (fresh_reads (fun e => negb (is_admin_role (session_role_for 2 e))) e E0). vm_compute. reflexivity.
  - split; [done|]. apply B. by repeat constructor.
Defined.

Lemma calls_keep_resources_witness : exists e e', demo_run = Some (e, demo_trace, e') /\ le_memory e' = le_memory e.
Proof.
  destruct demo_calls as (e & e' & E0 & E & Hc). exists e, e'. split; [done|].
  apply (calls_keep_resources demo_hash e e' demo_trace Hc).
  - pose (f := fun m => (0 <=? mb_reserved m) && (mb_reserved m <=? mb_limit m) && (mb_limit m <? u64_max)).
    assert (M : f (le_memory e) = true) by (apply (fresh_reads (fun e => f (le_memory e)) e E0); vm_compute; reflexivity).
    unfold f in M. unfold mem_ok. lia.
  - assert (M : bool_decide (stc_entries (le_stmt_cache e) = ∅) = true)
      by (apply (fresh_reads (fun e => bool_decide (stc_entries (le_stmt_cache e) = ∅)) e E0); vm_compute; reflexivity).
    apply bool_decide_eq_true in M. intros sql stmt ts. by rewrite M, lookup_empty.
Defined.

Lemma engine_audit_trail_witness : exists e e' es, demo_run = Some (e, demo_trace, e') /\
  AuditLog_read_all (le_audit e') = Ok es /\ verify_chain demo_hash (le_audit e') = Ok tt /\
  [bs "SET ROLE reader"; bs "SELECT 1"] `sublist_of` map au_query es.
Proof.
  destruct demo_calls as (e & e' & E0 & E & Hc).
  destruct (engine_audit_trail (JL := coded_text_laws) (JN := coded_line) demo_hash e e' demo_trace Hc) as (es & D & _ & R).
  - assert (M : bool_decide (al_file (le_audit e) = None) && bool_decide (al_last (le_audit e) = GENESIS) = true)
      by (apply (fresh_reads (fun e => bool_decide (al_file (le_audit e) = None) && bool_decide (al_last (le_audit e) = GENESIS)) e E0); vm_compute; reflexivity).
    apply andb_true_iff in M as [M1%bool_decide_eq_true M2%bool_decide_eq_true]. destruct (le_audit e) as [f h]. cbn in M1, M2. by subst.
  - destruct es as [|x es]; [by apply sublist_nil_r in D|]. destruct R as [A B].
    exists e, e', (x :: es). split_and!; [done..|]. exact D.
Defined.
