(* ===== verification/DmlSpec.v ===== *)
(** * What the statements that write do to tables

    The engine's tree is used through [TreeLaws].  Every key of a row belongs to one
    table and row id; a table's rows are a function of the entries it owns, so a
    statement is described by the entries it writes.  Autocommit INSERT, UPDATE and
    DELETE change exactly the rows they name, and no other table. *)

From S2P Require Import Prelude BTree StorageError Mvcc MvccMemTable Txn TxnManager MemTable Text Float64 Tokens Ast Display Utf8 RowPack Value Cast Eval Plan TableScan SetOps RowOps WindowExec StreamAgg Executor Optimize Build Query StoreSpec Catalog Bind Hnsw Dml.

#[local] Arguments from_utf8_lossy : simpl never.

(** ** Who owns a key *)

Definition owner (k : bytes) : option (bytes * bytes) :=
  match split_first zero k with Some (t, rest) => Some (t, row_id rest) | None => None end.

Definition zero_free (s : bytes) : Prop := zero ∉ s.
(** The engine's own keys, of indexes and statistics, start with a control byte. *)
Definition own_key (k : bytes) : Prop := head k = Some x02 \/ head k = Some x03.
(** A table name of a statement: no key of the engine's own starts with it, and it is text,
    in which no byte is 255. *)
Definition plain (t : bytes) : Prop := zero_free t /\ head t <> Some x02 /\ head t <> Some x03 /\ xff ∉ t.
Lemma plain_not_own t s : plain t -> ~ own_key (t ++ [zero] ++ s).
Proof. intros (_ & H2 & H3 & _). unfold own_key. destruct t as [|b t]; cbn in *; naive_solver. Qed.

Lemma split_first_app t rest : zero_free t -> split_first zero (t ++ [zero] ++ rest) = Some (t, rest).
Proof.
  unfold zero_free. induction t as [|b t IH]; intros Ht; cbn [app split_first]; [by rewrite bool_decide_eq_true_2|].
  apply not_elem_of_cons in Ht as [Hb Ht]. rewrite bool_decide_eq_false_2 by congruence. cbn [app] in IH. by rewrite IH.
Qed.
Lemma split_first_inv s t rest : split_first zero s = Some (t, rest) -> zero_free t /\ s = t ++ [zero] ++ rest.
Proof.
  unfold zero_free. revert t. induction s as [|b s IH]; intros t; cbn [split_first]; [done|]. case_bool_decide as Hb.
  - intros [= <- <-]. subst b. by split; [apply not_elem_of_nil|].
  - destruct (split_first zero s) as [[t' r']|] eqn:E; [|done]. intros [= <- <-]. destruct (IH t' eq_refl) as [Ht ->].
    split; [|done]. apply not_elem_of_cons. split; [congruence|done].
Qed.

(** The keys that the scan of [t] gives to row [r] are those that [t] and [r] own. *)
Lemma key_id_owner t r k : zero_free t -> key_id (table_prefix_key t) k = Some r <-> owner k = Some (t, r).
Proof.
  intros Ht. unfold key_id, owner, table_prefix_key. destruct (starts_with (t ++ [zero]) k) eqn:E.
  - apply starts_with_spec in E as [rest ->]. rewrite drop_app_length, <-(assoc_L (++)), split_first_app by done. naive_solver.
  - split; [done|]. destruct (split_first zero k) as [[t' rest]|] eqn:Es; [|done]. intros [= -> <-].
    apply split_first_inv in Es as [_ ->]. apply not_true_iff_false in E. destruct E. apply starts_with_spec. exists rest. by rewrite <-(assoc_L (++)).
Qed.

Lemma row_id_free r : zero_free r -> row_id r = r.
Proof. unfold zero_free. induction r as [|b r IH]; [done|]. intros [Hb Hr]%not_elem_of_cons. rewrite row_id_cons, bool_decide_eq_false_2 by congruence. by rewrite IH. Qed.
Lemma row_id_app r rest : zero_free r -> row_id (r ++ [zero] ++ rest) = r.
Proof. intros Hr. unfold row_id, split_row_id. by rewrite split_first_app. Qed.
Lemma row_id_zero_free s : zero_free (row_id s).
Proof.
  unfold zero_free. induction s as [|b s IH]; [apply not_elem_of_nil|]. rewrite row_id_cons. case_bool_decide; [apply not_elem_of_nil|].
  apply not_elem_of_cons. split; [congruence|done].
Qed.

Lemma owner_packed t r : zero_free t -> zero_free r -> owner (packed_row_key t r) = Some (t, r).
Proof. intros Ht Hr. unfold owner, packed_row_key. change [x00] with [zero]. by rewrite split_first_app, row_id_free. Qed.
Lemma owner_cell t r c : zero_free t -> zero_free r -> owner (row_prefix t r ++ c) = Some (t, r).
Proof. intros Ht Hr. unfold owner, row_prefix. rewrite <-!(assoc_L (++)). by rewrite split_first_app, row_id_app. Qed.

(** The keys of a row are its packed record and its cells. *)
Lemma owner_cases t r k : owner k = Some (t, r) -> k = packed_row_key t r \/ starts_with (row_prefix t r) k = true.
Proof.
  unfold owner. destruct (split_first zero k) as [[t' rest]|] eqn:E; [|done]. intros [= -> <-]. apply split_first_inv in E as [_ ->].
  unfold row_id, split_row_id. destruct (split_first zero rest) as [[r col]|] eqn:Er; [right|by left].
  apply split_first_inv in Er as [_ ->]. apply starts_with_spec. exists col. unfold row_prefix. cbn [fst]. by rewrite <-!(assoc_L (++)).
Qed.
Lemma packed_not_cell t r : zero_free r -> starts_with (row_prefix t r) (packed_row_key t r) = false.
Proof.
  intros Hr. apply not_true_iff_false. rewrite starts_with_spec. intros [s E]. apply (f_equal length) in E.
  unfold packed_row_key, row_prefix in E. rewrite !length_app in E. cbn in E. lia.
Qed.

(** The engine's own keys belong to no table of a statement. *)
Lemma owner_special b p s t r : zero_free (b :: p) -> (b = x02 \/ b = x03) -> owner ((b :: p ++ [zero]) ++ s) = Some (t, r) -> ~ plain t.
Proof.
  intros Hz Hb. unfold owner. rewrite app_comm_cons, <-(assoc_L (++)), split_first_app by done. intros [= <- _] (_ & H2 & H3 & _). cbn in *. naive_solver.
Qed.
Lemma owner_index table col v r t r' : owner (entry_key_for table col v r) = Some (t, r') -> ~ plain t.
Proof.
  unfold entry_key_for, entry_key, entry_prefix, ENTRY_PREFIX. rewrite <-(assoc_L (++) (x02 :: bs "idx" ++ [zero])).
  apply owner_special; [|by left]. unfold zero_free. by apply (bool_decide_eq_false_1 (zero ∈ x02 :: bs "idx")).
Qed.
Lemma owner_stats table t r : owner (table_rows_key table) = Some (t, r) -> ~ plain t.
Proof. apply owner_special; [|by right]. unfold zero_free. by apply (bool_decide_eq_false_1 (zero ∈ x03 :: bs "stats")). Qed.

(** ** A table as a function of the entries it owns *)

Implicit Types (c : gmap bytes bytes) (t r k : bytes).

Definition slot_step (prefix : bytes) (slot : option Slot) (e : bytes * bytes) : option Slot :=
  match split_row_id (drop (length prefix) e.1) with
  | (_, Some col) => let s := default (None, []) slot in Some (s.1, s.2 ++ [(from_utf8_lossy col, VBytes e.2)])
  | (_, None) => match decode_row e.2 with
                 | Ok (Some cols) => let s := default (None, []) slot in Some (Some (map (fun x => (x.1, VBytes x.2)) cols), s.2)
                 | _ => slot
                 end
  end.

Lemma scan_entry_lookup (prefix : bytes) (g : gmap bytes Slot) e r :
  scan_entry prefix g e !! r = if bool_decide (key_id prefix e.1 = Some r) then slot_step prefix (g !! r) e else g !! r.
Proof.
  destruct e as [k v]. unfold scan_entry, key_id, slot_step, row_id. cbn [fst snd]. destruct (starts_with prefix k); [|done]. cbn [negb].
  destruct (split_row_id _) as [id [col|]]; cbn [fst].
  - case_bool_decide as E; [injection E as ->; by rewrite lookup_insert_eq|]. rewrite lookup_insert_ne; [done|congruence].
  - destruct (decode_row v) as [[cols|]|e|]; try (case_bool_decide; done).
    case_bool_decide as E; [injection E as ->; by rewrite lookup_insert_eq|]. rewrite lookup_insert_ne; [done|congruence].
Qed.

Lemma scan_fold (prefix : bytes) (l : list (bytes * bytes)) (g : gmap bytes Slot) r :
  fold_left (scan_entry prefix) l g !! r =
  fold_left (slot_step prefix) (filter (fun e => key_id prefix e.1 = Some r) l) (g !! r).
Proof.
  revert g. induction l as [|e l IH]; intros g; [done|]. cbn [fold_left]. rewrite IH, scan_entry_lookup, filter_cons.
  case_bool_decide; case_decide; done.
Qed.

(** The slots of a table's rows, and the entries of one row *)
Definition slots c t : gmap bytes Slot :=
  let prefix := table_prefix_key t in
  fold_left (scan_entry prefix) (filter (fun e => bytes_ltb e.1 prefix = false /\ bytes_lt e.1 (prefix_end prefix)) (btree_iter c)) ∅.
Definition owned c t r : gmap bytes bytes := filter (fun e => owner e.1 = Some (t, r)) c.

Lemma btree_iter_filter {V} (P : bytes * V -> Prop) `{!forall e, Decision (P e)} (m : gmap bytes V) :
  btree_iter (filter P m) = filter P (btree_iter m).
Proof.
  apply btree_iter_unique; [apply StronglySorted_filter, btree_iter_sorted|]. intros k v.
  rewrite list_elem_of_filter, elem_of_btree_iter, map_lookup_filter_Some. tauto.
Qed.

Lemma slots_lookup c t r : zero_free t ->
  slots c t !! r = fold_left (slot_step (table_prefix_key t)) (btree_iter (owned c t r)) None.
Proof.
  intros Ht. unfold slots, owned. rewrite scan_fold, btree_iter_filter, list_filter_filter, lookup_empty. f_equal. apply list_filter_iff.
  intros [k v]. cbn. rewrite key_id_owner by done. split; [by intros [? _]|]. intros Ho. split; [done|].
  apply (key_id_owner _ _ _ Ht) in Ho. unfold key_id in Ho. destruct (starts_with _ k) eqn:E; [|done].
  apply zero_end_range in E as [E1 E2]. rewrite bytes_leb_ltb in E1. split; [by apply negb_true_iff|done].
Qed.

Lemma slots_local c c' t r : zero_free t -> (forall k, owner k = Some (t, r) -> c !! k = c' !! k) -> slots c t !! r = slots c' t !! r.
Proof.
  intros Ht Hk. rewrite !slots_lookup by done. do 2 f_equal. apply map_eq. intros k. unfold owned. apply option_eq. intros v.
  rewrite !map_lookup_filter_Some. cbn. split; intros [Hv Ho]; (split; [|done]); [by rewrite <-Hk|by rewrite Hk].
Qed.

Lemma slots_none c t r : zero_free t -> (forall k, owner k = Some (t, r) -> c !! k = None) -> slots c t !! r = None.
Proof. intros Ht Hk. rewrite (slots_local c ∅ t r Ht); [by rewrite slots_lookup|]. intros k Ho. by rewrite Hk, lookup_empty. Qed.

(** A row as it reads back from its packed record *)
Definition stored_row (cols : Row) : RowMap := map (fun x => (x.1, VBytes x.2)) (decode_row_or_default (encode_row cols)).

Lemma stored_row_fits cols : row_fits cols -> stored_row cols = map (fun x => (x.1, VBytes x.2)) cols.
Proof.
  intros Hf. destruct (row_pack_round_trip cols Hf) as (_ & E & _). unfold stored_row, decode_row_or_default. by rewrite E.
Qed.

(** A row that only has its packed record *)
Lemma slots_packed c t r cols : zero_free t -> zero_free r ->
  c !! packed_row_key t r = Some (encode_row cols) -> (forall k, owner k = Some (t, r) -> k <> packed_row_key t r -> c !! k = None) ->
  slots c t !! r = Some (Some (stored_row cols), []).
Proof.
  intros Ht Hr Hc Hn. rewrite (slots_local c {[packed_row_key t r := encode_row cols]}); [|done|].
  2:{ intros k Ho. destruct (decide (k = packed_row_key t r)) as [->|Hne]; [by rewrite lookup_singleton_eq|].
      by rewrite lookup_singleton_ne, Hn by done. }
  rewrite slots_lookup by done.
  assert (btree_iter (owned {[packed_row_key t r := encode_row cols]} t r) = [(packed_row_key t r, encode_row cols)]) as ->.
  { apply btree_iter_unique; [repeat constructor|]. intros k v. unfold owned.
    rewrite list_elem_of_singleton, map_lookup_filter_Some, lookup_singleton_Some. cbn. pose proof (owner_packed t r Ht Hr). naive_solver. }
  cbn [fold_left]. unfold slot_step. cbn [fst snd].
  assert (drop (length (table_prefix_key t)) (packed_row_key t r) = r) as ->.
  { unfold packed_row_key, table_prefix_key. change [x00] with [zero]. by rewrite (assoc_L (++)), drop_app_length. }
  assert (split_row_id r = (r, None)) as ->.
  { unfold split_row_id. destruct (split_first zero r) as [[a b]|] eqn:E; [|done]. apply split_first_inv in E as [_ ->].
    destruct Hr. rewrite !elem_of_app. set_solver. }
  unfold stored_row, decode_row_or_default. by rewrite decode_encode_row.
Qed.

(** ** The tree, as statements use it *)

(** [tl_ok ts room t]: no version in [t] is later than [ts], and there is room for [room]
    more writes, on the clock too.  [tl_fits] says which keys and values a table can hold.
    The content is that of the versions: the engine's own keys also have plain
    entries, which statements write (the row counter) but do not read back.  What the laws
    say of writes is what they do when they succeed. *)
Class TreeLaws (T : Type) `{TreeOps T} : Type := {
  tl_content : T -> gmap bytes bytes;
  tl_ok : Z -> Z -> T -> Prop;
  tl_fits : bytes * option bytes -> Prop;
  tl_fits_length : forall k (v v' : bytes), length v = length v' -> tl_fits (k, Some v) -> tl_fits (k, Some v');
  tl_clock : forall ts room (t : T), tl_ok ts room t -> ts + room <= u64_max;
  tl_less : forall ts room room' (t : T), tl_ok ts room t -> 0 <= room' <= room -> tl_ok ts room' t;
  tl_get : forall ts room (t : T) k, tl_ok ts room t -> k <> [] -> ~ own_key k -> xff ∉ k -> tr_get t k = Ok (tl_content t !! k);
  tl_range : forall ts room (t : T) (p : bytes), tl_ok ts room t -> ~ own_key (p ++ [zero]) ->
    tr_range t (p ++ [zero]) (prefix_end (p ++ [zero])) =
    filter (fun e => bytes_ltb e.1 (p ++ [zero]) = false /\ bytes_lt e.1 (prefix_end (p ++ [zero]))) (btree_iter (tl_content t));
  tl_put_version : forall ts room (t : T) k v (t' : T), tl_ok ts room t -> 1 <= room -> k <> [] -> v_commit_ts v = ts + 1 ->
    tl_fits (k, if v_deleted v then None else Some (v_value v)) -> (v_deleted v = true -> v_value v = []) ->
    tr_put_version k v t = (Ok tt, t') ->
    tl_ok (ts + 1) (room - 1) t' /\ tl_content t' = if v_deleted v then delete k (tl_content t) else <[k := v_value v]> (tl_content t);
  tl_put_rows : forall ts room (t : T) table v (t' : T), tl_ok ts room t -> 1 <= room -> plain table ->
    tl_fits (table_rows_key table, Some v) -> length v = 8%nat -> tr_put (table_rows_key table) v t = (Ok tt, t') ->
    tl_ok ts (room - 1) t' /\ tl_content t' = tl_content t }.

(** A write to the content; the row counters are not part of it. *)
Definition is_counter k : bool := starts_with STATS_PREFIX k.
Definition put_entry c (w : bytes * option bytes) : gmap bytes bytes :=
  if is_counter w.1 then c else match w.2 with Some v => <[w.1 := v]> c | None => delete w.1 c end.
Definition puts c (ws : list (bytes * option bytes)) : gmap bytes bytes := fold_left put_entry ws c.

Lemma puts_app c ws ws' : puts c (ws ++ ws') = puts (puts c ws) ws'.
Proof. apply fold_left_app. Qed.
Lemma puts_other c ws k : k ∉ ws.*1 -> puts c ws !! k = c !! k.
Proof.
  revert c. induction ws as [|[k' o] ws IH]; intros c Hk; [done|]. apply not_elem_of_cons in Hk as [Hne Hk].
  change (puts c ((k', o) :: ws)) with (puts (put_entry c (k', o)) ws). rewrite IH by done. unfold put_entry. cbn [fst snd] in *.
  destruct (is_counter k'); [done|]. destruct o; [by rewrite lookup_insert_ne|by rewrite lookup_delete_ne].
Qed.

Section effects.
Context {T : Type} `{TreeLaws T} `{ExecEnv} `{StdChoices}.
Abbreviation DM A := (SM (DmlState T) EngineError A).
Implicit Types s : DmlState T.

Definition clock s : Z := TimestampOracle_now (tm_oracle (d_txn s)).
Definition cont s : gmap bytes bytes := tl_content (d_tree s).
Definition st_ok (room : Z) s : Prop := 0 <= clock s /\ tl_ok (clock s) room (d_tree s).

(** [does p f]: if [p] succeeds it writes the entries [f], each with a timestamp of its
    own; there must be room for them, and they must fit. *)
Definition does {A} (p : DM A) (f : gmap bytes bytes -> list (bytes * option bytes)) : Prop := forall s a s' room, 0 <= room ->
  st_ok (len (f (cont s)) + room) s -> Forall tl_fits (f (cont s)) -> p s = (Ok a, s') ->
  cont s' = puts (cont s) (f (cont s)) /\ st_ok room s'.

(** Steps that leave the tree and the clock alone *)
Definition quiet {A} (p : DM A) : Prop := forall s a s', p s = (Ok a, s') -> d_tree s' = d_tree s /\ d_txn s' = d_txn s.
Lemma does_quiet {A} (p : DM A) : quiet p -> does p (fun _ => []).
Proof. intros Hq s a s' room Hr Hs _ E. apply Hq in E as [E1 E2]. unfold st_ok, cont, clock in *. rewrite E1, E2. split; [done|exact Hs]. Qed.

Lemma does_seq {A B} (p : DM A) (q : DM B) f g : does p f -> does q g ->
  does (let* _ := p in q) (fun c => f c ++ g (puts c (f c))).
Proof.
  intros Hp Hq s b s' room Hr Hs Hf E. unfold sbind in E. destruct (p s) as [[a|x|] s1] eqn:Ep; [|done..].
  apply Forall_app in Hf as [Hf1 Hf2]. rewrite len_app, <-Z.add_assoc in Hs.
  pose proof (len_nonneg (g (puts (cont s) (f (cont s))))) as Hg.
  destruct (Hp s a s1 (len (g (puts (cont s) (f (cont s)))) + room) ltac:(lia) Hs Hf1 Ep) as (C1 & S1). clear Hg. rewrite <-C1 in *.
  destruct (Hq _ _ _ _ Hr S1 Hf2 E) as (C2 & S2). split; [|done]. by rewrite puts_app, <-C1.
Qed.

Lemma does_bind_lift {A B} (o : outcome EngineError A) (k : A -> DM B) f : (forall a, o = Ok a -> does (k a) f) -> does (let* a := lift o in k a) f.
Proof. intros Hk s b s' room Hr Hs Hl E. unfold sbind, lift in E. destruct o as [a|x|]; [|done..]. by eapply Hk. Qed.
Lemma does_ext {A} (p : DM A) f g : (forall c, f c = g c) -> does p f -> does p g.
Proof. intros Hfg Hp s a s' room Hr Hs Hl E. rewrite <-Hfg in *. by eapply Hp. Qed.

(** Writes of a list, each computed from what the ones before it left *)
Fixpoint each {A} (g : A -> gmap bytes bytes -> list (bytes * option bytes)) (l : list A) c : list (bytes * option bytes) :=
  match l with [] => [] | x :: l => g x c ++ each g l (puts c (g x c)) end.
Lemma does_each {A} (f : A -> DM unit) g (l : list A) : (forall x, x ∈ l -> does (f x) (g x)) -> does (for_each_do f l) (each g l).
Proof.
  induction l as [|x l IH]; intros Hf; [apply does_quiet; by intros ??? [= <- <-]|]. cbn [for_each_do each].
  apply (does_seq _ _ (g x) (each g l)); [apply Hf; constructor|]. apply IH. intros y Hy. apply Hf. by constructor.
Qed.

(** *** Single keys *)

Lemma alloc_step s : 0 <= clock s -> clock s + 1 <= u64_max ->
  on_txn alloc_ts s = (Ok (clock s + 1), mkDmlState (d_tree s) (set_oracle (clock s + 1) (d_txn s)) (d_vectors s)).
Proof.
  intros H0' H1'. unfold on_txn, alloc_ts, TimestampOracle_next, TimestampOracle_fetch_add, clock, TimestampOracle_now in *. cbn.
  change u64_max with (2 ^ 64 - 1) in *. unfold sat, umax, wrap. rewrite Z.mod_small by lia. do 2 f_equal. f_equal. lia.
Qed.

Lemma does_version k (v : Z -> Version) o : k <> [] -> is_counter k = false -> (forall ts, v_commit_ts (v ts) = ts) ->
  (forall ts, (if v_deleted (v ts) then None else Some (v_value (v ts))) = o) -> (forall ts, v_deleted (v ts) = true -> v_value (v ts) = []) ->
  does (let* ts := on_txn alloc_ts in on_tree (tr_put_version k (v ts))) (fun _ => [(k, o)]).
Proof.
  intros Hk Hc Hts Ho Hv s [] s' room Hr [Hc0 Hs] Hf E. change (len [(k, o)]) with 1 in Hs. unfold sbind in E.
  pose proof (tl_clock _ _ _ Hs) as Hclock. rewrite alloc_step in E by lia.
  unfold on_tree in E. cbn [d_tree] in E. destruct (tr_put_version _ _ _) as [[[]|x|] t'] eqn:Ep; [|done..]. injection E as <-.
  apply Forall_inv in Hf. specialize (Ho (clock s + 1)).
  apply (tl_put_version (clock s) (1 + room)) in Ep as [Hok Hcon]; [|done|lia|done|by rewrite Hts|by rewrite Ho|apply Hv].
  replace (1 + room - 1) with room in Hok by lia. split.
  - unfold cont. cbn [d_tree puts fold_left]. rewrite Hcon. unfold put_entry. cbn [fst snd]. rewrite Hc, <-Ho. by destruct (v_deleted _).
  - split; [|exact Hok]. unfold clock in *. cbn. unfold TimestampOracle_now in *. lia.
Qed.
Lemma does_put_cell k v : k <> [] -> is_counter k = false -> does (put_cell k v) (fun _ => [(k, Some v)]).
Proof. intros Hk Hc. by apply (does_version k (fun ts => Version_put ts v)). Qed.
Lemma does_delete_cell k : k <> [] -> is_counter k = false -> does (delete_cell k) (fun _ => [(k, None)]).
Proof. intros Hk Hc. by apply (does_version k Version_tombstone). Qed.

Lemma does_vectors f : does (on_vectors f) (fun _ => []).
Proof.
  apply does_quiet. intros s [] s'. unfold on_vectors. destruct (d_vectors s); [|by intros [= <-]]. destruct (f _); [by intros [= <-]|done..].
Qed.

(** The row counter of the statistics: eight bytes under its key *)
Definition count_writes table : list (bytes * option bytes) := [(table_rows_key table, Some (replicate 8 x00))].
Lemma does_count table delta : plain table ->
  does (on_engine (fun t : T => increment_row_count t table delta)) (fun _ => count_writes table).
Proof.
  intros Hp s [] s' room Hr [Hc Hs] Hf E. unfold on_engine, increment_row_count in E. cbn [se_get se_put tree_engine] in E.
  destruct (tr_get _ _) as [o|x|]; [|done..]. cbn [obind] in E. apply Forall_inv in Hf.
  destruct (tr_put _ _ _) as [[[]|x|] t'] eqn:Ep; [|done..]. injection E as <-. change (len (count_writes table)) with 1 in Hs.
  apply (tl_put_rows (clock s) (1 + room)) in Ep as [Hok Hcon]; [|done|lia|done|by eapply tl_fits_length; [|exact Hf]|apply length_be_bytes].
  replace (1 + room - 1) with room in Hok by lia. split; [|done].
  unfold cont. cbn [d_tree]. rewrite Hcon. unfold count_writes, puts. cbn [fold_left]. unfold put_entry. cbn [fst snd].
  assert (is_counter (table_rows_key table) = true) as -> by (apply starts_with_spec; by eexists). done.
Qed.

(** *** Rows *)

Lemma packed_row_key_ne t r : packed_row_key t r <> [].
Proof. by destruct t. Qed.
Lemma entry_key_ne table col v r : entry_key_for table col v r <> [].
Proof. done. Qed.
Lemma not_own_counter k : ~ own_key k -> is_counter k = false.
Proof.
  intros Hk. apply not_true_is_false. intros [s ->]%starts_with_spec. apply Hk. by right.
Qed.
Lemma packed_not_counter t r : plain t -> is_counter (packed_row_key t r) = false.
Proof. intros Hp. apply not_own_counter. by apply plain_not_own. Qed.
Lemma entry_not_counter table col v r : is_counter (entry_key_for table col v r) = false.
Proof. done. Qed.

(** The keys of a content with a prefix that ends in a zero byte *)
Definition below c (prefix : bytes) : list bytes := map fst (filter (fun e => starts_with prefix e.1 = true) (btree_iter c)).

Lemma elem_of_below c (prefix : bytes) k : k ∈ below c prefix <-> starts_with prefix k = true /\ is_Some (c !! k).
Proof.
  unfold below. rewrite list_elem_of_fmap. split.
  - intros ([k' v] & -> & [Hp Hin]%list_elem_of_filter). apply elem_of_btree_iter in Hin. split; [done|by eexists].
  - intros [Hp [v Hv]]. exists (k, v). split; [done|]. apply list_elem_of_filter. by rewrite elem_of_btree_iter.
Qed.

Lemma keys_below_content ts room (tree : T) (p : bytes) : tl_ok ts room tree -> ~ own_key (p ++ [zero]) -> keys_below tree (p ++ [zero]) = below (tl_content tree) (p ++ [zero]).
Proof.
  intros Hok Hp0. unfold keys_below, below. cbn [rs_range tree_rows]. rewrite (tl_range ts room) by done. rewrite list_filter_filter. f_equal. apply list_filter_iff.
  intros [k v]. cbn. split; [by intros [? _]|]. intros Hp. split; [done|]. apply zero_end_range in Hp as [E1 E2].
  rewrite bytes_leb_ltb in E1. split; [by apply negb_true_iff|done].
Qed.

Definition erase (keys : list bytes) : list (bytes * option bytes) := map (fun k => (k, None)) keys.

Lemma does_erase keys : Forall (fun k => k <> [] /\ is_counter k = false) keys -> does (for_each_do delete_cell keys) (fun _ => erase keys).
Proof.
  intros Hk. apply (does_ext _ (each (fun k _ => [(k, None)]) keys)).
  - intros c. revert c. induction keys as [|k keys IH]; intros c; [done|]. cbn [each erase map app]. f_equal. apply IH.
    by apply Forall_cons in Hk as [_ Hk].
  - apply does_each. intros k Hin. rewrite Forall_forall in Hk. by apply does_delete_cell; apply Hk.
Qed.

Definition cell_keys c t r : list bytes := below c (row_prefix t r).
Lemma row_prefix_zero t r : row_prefix t r = (t ++ [zero] ++ r) ++ [zero].
Proof. unfold row_prefix. by rewrite <-!(assoc_L (++)). Qed.

Lemma does_erase_cells t r : plain t -> does (fun s => for_each_do delete_cell (keys_below (d_tree s) (row_prefix t r)) s) (fun c => erase (cell_keys c t r)).
Proof.
  intros Hp s a s' room Hr Hs Hl E. destruct Hs as [Hc Hok].
  assert (~ own_key ((t ++ [zero] ++ r) ++ [zero])) as Hown by (rewrite <-!(assoc_L (++)); by apply plain_not_own).
  rewrite row_prefix_zero, (keys_below_content _ _ _ _ Hok Hown), <-row_prefix_zero in E.
  refine (does_erase (cell_keys (cont s) t r) _ s a s' room Hr (conj Hc Hok) Hl E).
  apply Forall_forall. intros k [Hk _]%elem_of_below. apply starts_with_spec in Hk as [x ->].
  unfold row_prefix. rewrite <-!(assoc_L (++)). split; [by destruct t|]. apply not_own_counter. by apply plain_not_own.
Qed.

(** What deleting a row writes *)
Definition packed_writes t r c : list (bytes * option bytes) :=
  if bool_decide (is_Some (c !! packed_row_key t r)) then erase [packed_row_key t r] else [].
Definition delete_row_writes t r c : list (bytes * option bytes) :=
  packed_writes t r c ++ erase (cell_keys (puts c (packed_writes t r c)) t r).

Lemma does_delete_row t r : plain t -> xff ∉ r -> does (delete_row t r) (delete_row_writes t r).
Proof.
  intros Hp Hff s a s' room Hr Hs Hl E. unfold delete_row in E.
  rewrite (tl_get (clock s) (len (delete_row_writes t r (cont s)) + room)) in E; [|apply Hs|apply packed_row_key_ne|by apply plain_not_own|].
  2:{ destruct Hp as (_ & _ & _ & Ht). unfold packed_row_key. rewrite !not_elem_of_app, not_elem_of_cons. split_and!; [done|done|apply not_elem_of_nil|done]. }
  fold (cont s) in E.
  assert (D : does (match cont s !! packed_row_key t r with Some _ => delete_cell (packed_row_key t r) | None => sret tt end)
                (fun _ => packed_writes t r (cont s))).
  { unfold packed_writes. destruct (cont s !! packed_row_key t r); [apply does_delete_cell; [apply packed_row_key_ne|by apply packed_not_counter]|].
    apply does_quiet. by intros ??? [= <- <-]. }
  exact (does_seq _ _ _ _ D (does_erase_cells t r Hp) s a s' room Hr Hs Hl E).
Qed.

(** Entries of indexes *)
Definition unindex_writes t (indexed : list bytes) (r : bytes * RowMap) : list (bytes * option bytes) :=
  erase (omap (fun col => (fun old => entry_key_for t col old r.1) <$> old_bytes r.2 col) indexed).

Lemma does_unindex t indexed (r : bytes * RowMap) :
  does (for_each_do (fun col => match old_bytes r.2 col with
                                | Some old => index_entry_delete None t col old r.1
                                | None => sret tt
                                end) indexed) (fun _ => unindex_writes t indexed r).
Proof.
  apply (does_ext _ (each (fun col _ => match old_bytes r.2 col with Some old => [(entry_key_for t col old r.1, None)] | None => [] end) indexed)).
  - unfold unindex_writes. intros c. revert c. induction indexed as [|col l IH]; intros c; [done|]. cbn [each omap list_omap].
    rewrite IH. by destruct (old_bytes r.2 col).
  - apply does_each. intros col _. destruct (old_bytes r.2 col); [by apply does_delete_cell|]. apply does_quiet. by intros ??? [= <- <-].
Qed.

Lemma does_drop_vectors (schema : SchemaCatalog) t r :
  does (match sc_tables schema !! t with
        | Some table_schema =>
            for_each_do (fun col => match cm_type col with
                                    | TyVector _ => on_vectors (fun v => Ok (vi_remove v t (cm_name col) r))
                                    | _ => sret tt
                                    end) (ts_columns table_schema)
        | None => sret tt
        end) (fun _ => []).
Proof.
  destruct (sc_tables schema !! t) as [ts|]; [|apply does_quiet; by intros ??? [= <- <-]].
  apply (does_ext _ (each (fun _ _ => []) (ts_columns ts))).
  - intros c. revert c. induction (ts_columns ts) as [|x l IH]; intros c; [done|apply IH].
  - apply does_each. intros col _. destruct (cm_type col); try (apply does_quiet; by intros ??? [= <- <-]). apply does_vectors.
Qed.

Definition delete_one_writes t (indexed : list bytes) (r : bytes * RowMap) c : list (bytes * option bytes) :=
  delete_row_writes t r.1 c ++ unindex_writes t indexed r.

Lemma does_delete_one (schema : SchemaCatalog) t indexed (r : bytes * RowMap) : plain t -> xff ∉ r.1 -> does (delete_one None schema t indexed r) (delete_one_writes t indexed r).
Proof.
  intros Hp Hff. destruct r as [r row]. eapply does_ext; [|apply does_seq; [by apply does_delete_row|apply does_seq; [apply (does_unindex t indexed (r, row))|apply does_drop_vectors]]].
  intros c. unfold delete_one_writes. cbn. by rewrite app_nil_r.
Qed.
End effects.

(** ** Deleted rows *)

Lemma owner_not_counter k t r : plain t -> owner k = Some (t, r) -> is_counter k = false.
Proof.
  intros Hp Ho. apply not_own_counter. apply owner_cases in Ho as [->|[x ->]%starts_with_spec]; [by apply plain_not_own|].
  unfold row_prefix. rewrite <-!(assoc_L (++)). by apply plain_not_own.
Qed.

Lemma puts_erase c keys k : is_counter k = false -> puts c (erase keys) !! k = if bool_decide (k ∈ keys) then None else c !! k.
Proof.
  intros Hk. revert c. induction keys as [|k' keys IH]; intros c; [done|]. cbn [erase map]. change (puts c _) with (puts (put_entry c (k', None)) (erase keys)).
  unfold put_entry. cbn [fst snd]. destruct (is_counter k') eqn:Hk'.
  { rewrite IH. by rewrite (bool_decide_ext (k ∈ k' :: keys) (k ∈ keys)) by (assert (k <> k') by congruence; set_solver). }
  rewrite IH. destruct (decide (k = k')) as [->|Hne].
  - rewrite lookup_delete_eq, (bool_decide_eq_true_2 (k' ∈ k' :: keys)) by constructor. by case_bool_decide.
  - rewrite lookup_delete_ne by done. by rewrite (bool_decide_ext (k ∈ k' :: keys) (k ∈ keys)) by set_solver.
Qed.

Lemma packed_writes_lookup c t r k : is_counter k = false ->
  puts c (packed_writes t r c) !! k = if bool_decide (k = packed_row_key t r) then None else c !! k.
Proof.
  intros Hk. unfold packed_writes. case_bool_decide as Hs.
  - rewrite puts_erase by done. by rewrite (bool_decide_ext (k ∈ [packed_row_key t r]) (k = packed_row_key t r)) by set_solver.
  - cbn. case_bool_decide; [subst k|done]. by apply eq_None_not_Some.
Qed.

Lemma delete_row_lookup c t r k : zero_free t -> zero_free r -> is_counter k = false ->
  puts c (delete_row_writes t r c) !! k = if bool_decide (owner k = Some (t, r)) then None else c !! k.
Proof.
  intros Ht Hr Hc. unfold delete_row_writes. rewrite puts_app, puts_erase by done. unfold cell_keys.
  rewrite (bool_decide_ext _ _ (elem_of_below _ _ k)), packed_writes_lookup by done.
  destruct (decide (k = packed_row_key t r)) as [->|Hne].
  { rewrite (bool_decide_eq_true_2 (owner _ = _)) by (by apply owner_packed). rewrite (bool_decide_eq_true_2 (_ = _)) by done. by case_bool_decide. }
  rewrite (bool_decide_eq_false_2 (k = _)) by done. destruct (starts_with (row_prefix t r) k) eqn:E.
  - assert (owner k = Some (t, r)) as -> by (apply starts_with_spec in E as [x ->]; by apply owner_cell).
    rewrite (bool_decide_eq_true_2 (Some _ = _)) by done. case_bool_decide as Hs; [done|]. apply eq_None_not_Some. naive_solver.
  - rewrite bool_decide_eq_false_2 by naive_solver. rewrite bool_decide_eq_false_2; [done|]. intros Ho.
    apply owner_cases in Ho as [?|?]; congruence.
Qed.

(** Index entries are not entries of tables. *)
Lemma unindex_lookup c t indexed (r : bytes * RowMap) k t' r' : plain t' -> owner k = Some (t', r') ->
  puts c (unindex_writes t indexed r) !! k = c !! k.
Proof.
  intros Hp Ho. unfold unindex_writes. rewrite puts_erase, bool_decide_eq_false_2; [done| |by eapply owner_not_counter].
  intros (col & Hc & Hk)%list_elem_of_omap. apply fmap_Some in Hk as (old & _ & ->). by apply owner_index in Ho.
Qed.

Lemma delete_one_lookup c t indexed (r : bytes * RowMap) k t' r' : zero_free t -> zero_free r.1 -> plain t' -> owner k = Some (t', r') ->
  puts c (delete_one_writes t indexed r c) !! k = if bool_decide (t' = t /\ r' = r.1) then None else c !! k.
Proof.
  intros Ht Hr Hp Ho. unfold delete_one_writes. rewrite puts_app, (unindex_lookup _ _ _ _ _ _ _ Hp Ho), delete_row_lookup by (done || by eapply owner_not_counter).
  rewrite Ho. by rewrite (bool_decide_ext (Some (t', r') = Some (t, r.1)) (t' = t /\ r' = r.1)) by naive_solver.
Qed.

Lemma delete_each_lookup c t indexed (rows : list (bytes * RowMap)) k t' r' : zero_free t -> Forall (fun e => zero_free e.1) rows -> plain t' ->
  owner k = Some (t', r') ->
  puts c (each (delete_one_writes t indexed) rows c) !! k = if bool_decide (t' = t /\ r' ∈ rows.*1) then None else c !! k.
Proof.
  intros Ht Hr Hp Ho. revert c. induction Hr as [|r rows Hr _ IH]; intros c; cbn [each].
  { rewrite bool_decide_eq_false_2; [done|]. intros [_ Hn]. by apply not_elem_of_nil in Hn. }
  rewrite puts_app, IH, (delete_one_lookup _ _ _ _ _ _ _ Ht Hr Hp Ho). rewrite fmap_cons.
  destruct (decide (t' = t)) as [->|Ht']; [|by rewrite !bool_decide_eq_false_2 by tauto].
  destruct (decide (r' = r.1)) as [->|Hr']; [rewrite (bool_decide_eq_true_2 (t = t /\ r.1 = r.1)), (bool_decide_eq_true_2 (t = t /\ r.1 ∈ r.1 :: _)) by (split; [done|constructor] || done); by case_bool_decide|].
  rewrite (bool_decide_eq_false_2 (t = t /\ r' = r.1)) by tauto. by rewrite (bool_decide_ext (t = t /\ r' ∈ r.1 :: rows.*1) (t = t /\ r' ∈ rows.*1)) by set_solver.
Qed.

Lemma slots_deleted c c' t t' (ids : list bytes) : plain t' ->
  (forall k r, owner k = Some (t', r) -> c' !! k = if bool_decide (t' = t /\ r ∈ ids) then None else c !! k) ->
  slots c' t' = filter (fun e => ~ (t' = t /\ e.1 ∈ ids)) (slots c t').
Proof.
  intros [Ht _] Hk. apply map_eq. intros r. destruct (decide (t' = t /\ r ∈ ids)) as [Hd|Hd].
  - rewrite slots_none; [|done|]. 2:{ intros k Ho. rewrite (Hk k r Ho). by rewrite bool_decide_eq_true_2. }
    symmetry. apply map_lookup_filter_None_2. right. intros x _ Hn. by apply Hn.
  - rewrite (slots_local c' c); [|done|]. 2:{ intros k Ho. rewrite (Hk k r Ho). by rewrite bool_decide_eq_false_2. }
    apply option_eq. intros x. rewrite map_lookup_filter_Some. tauto.
Qed.

(** ** Scans *)

Definition show_row (e : bytes * Slot) : bytes * RowMap := (from_utf8_lossy e.1, merge_row e.2.1 e.2.2).
Definition rows_of c t : list (bytes * RowMap) := map show_row (btree_iter (slots c t)).
(** The row ids of a table are text. *)
Definition text_ids c t : Prop := forall r, is_Some (slots c t !! r) -> from_utf8_lossy r = r.

Lemma slots_owned c t r : zero_free t -> is_Some (slots c t !! r) -> exists k, owner k = Some (t, r) /\ is_Some (c !! k).
Proof.
  intros Ht. rewrite slots_lookup by done. intros Hs. destruct (btree_iter (owned c t r)) as [|[k v] l] eqn:E; [by destruct Hs|].
  assert (Hin : (k, v) ∈ btree_iter (owned c t r)) by (rewrite E; constructor). apply elem_of_btree_iter, map_lookup_filter_Some in Hin as [Hv Ho]. eauto.
Qed.
Lemma slots_zero_free c t r : zero_free t -> is_Some (slots c t !! r) -> zero_free r.
Proof.
  intros Ht (k & Ho & _)%slots_owned; [|done]. unfold owner in Ho. destruct (split_first zero k) as [[t' rest]|]; [|done].
  injection Ho as _ <-. apply row_id_zero_free.
Qed.

Lemma rows_ids c t : text_ids c t -> (rows_of c t).*1 = (btree_iter (slots c t)).*1.
Proof.
  intros Hu. unfold rows_of. change (map show_row ?l) with (show_row <$> l). rewrite <-list_fmap_compose. apply list_fmap_ext.
  intros i [r slot] He%list_elem_of_lookup_2. apply elem_of_btree_iter in He. apply Hu. by eexists.
Qed.

Lemma filter_ext_in {A} (P Q : A -> Prop) `{!forall x, Decision (P x), !forall x, Decision (Q x)} (l : list A) :
  (forall x, x ∈ l -> P x <-> Q x) -> filter P l = filter Q l.
Proof.
  induction l as [|x l IH]; intros HPQ; [done|]. rewrite !filter_cons, (IH ltac:(intros; apply HPQ; by constructor)).
  specialize (HPQ x ltac:(constructor)). repeat case_decide; tauto.
Qed.

Lemma filter_map {A B} (f : A -> B) (P : B -> Prop) `{!forall x, Decision (P x)} (l : list A) :
  filter P (map f l) = map f (filter (fun x => P (f x)) l).
Proof. induction l as [|x l IH]; [done|]. cbn [map]. rewrite !filter_cons, IH. by case_decide. Qed.

(** The rows that a WHERE clause selects *)
Definition selects `{ExecEnv} (w : option Expr) (row : RowMap) : bool :=
  match w with Some p => match eval_predicate p row with Ok b => b | _ => false end | None => true end.

Lemma matching_spec `{ExecEnv} w (all rows : list (bytes * RowMap)) : matching w all = Ok rows -> rows = filter (fun e => selects w e.2 = true) all.
Proof.
  revert rows. induction all as [|[r row] all IH]; intros rows; cbn [matching]; [by intros [= <-]|].
  destruct (match w with Some p => exec (eval_predicate p row) | None => Ok true end) as [keep|x|] eqn:E; [|done..]. cbn [obind].
  destruct (matching w all) as [rest|x|]; [|done..]. cbn [obind]. intros [= <-]. rewrite filter_cons, (IH rest eq_refl).
  assert (selects w row = keep) as Hk.
  { unfold selects. destruct w as [p|]; [|by injection E]. unfold exec in E. destruct (eval_predicate p row) as [b|x|]; [|done..].
    by injection E as <-. }
  cbn [snd]. rewrite Hk. destruct keep; case_decide; done.
Qed.

(** Deleting the selected rows leaves the others, in order. *)
Lemma rows_deleted `{ExecEnv} c c' t w : zero_free t -> text_ids c t ->
  slots c' t = filter (fun e => ~ (t = t /\ e.1 ∈ (filter (fun e => selects w e.2 = true) (rows_of c t)).*1)) (slots c t) ->
  rows_of c' t = filter (fun e => selects w e.2 = false) (rows_of c t).
Proof.
  intros Ht Hu Hs. transitivity (map show_row (btree_iter (slots c' t))); [done|]. rewrite Hs, btree_iter_filter.
  transitivity (filter (fun e => selects w e.2 = false) (map show_row (btree_iter (slots c t)))); [|done].
  rewrite (filter_map show_row (fun e => selects w e.2 = false)). f_equal. apply filter_ext_in. intros [r slot] Hin. cbn [fst].
  pose proof Hin as Hl. apply elem_of_btree_iter in Hl. assert (Hr : from_utf8_lossy r = r) by (apply Hu; by eexists).
  split.
  - intros Hn. destruct (selects w (show_row (r, slot)).2) eqn:E; [|done]. destruct Hn. split; [done|]. apply list_elem_of_fmap.
    exists (show_row (r, slot)). split; [by unfold show_row; cbn [fst]; rewrite Hr|]. apply list_elem_of_filter. split; [done|]. by apply list_elem_of_fmap_2.
  - intros E [_ Hd]. apply list_elem_of_fmap in Hd as (e & Ee & [Hsel Hine]%list_elem_of_filter).
    apply list_elem_of_fmap in Hine as ([r2 slot2] & -> & Hin2). apply elem_of_btree_iter in Hin2.
    unfold show_row in Ee. cbn [fst] in Ee. rewrite Hu in Ee by (by eexists). subst r2. rewrite Hl in Hin2. injection Hin2 as <-. congruence.
Qed.

(** ** DELETE *)
Section statements.
Context {T : Type} `{TreeLaws T} `{ExecEnv} `{StdChoices}.
Implicit Types s : DmlState T.

Lemma scan_rows room s t : st_ok room s -> plain t -> scan_table (d_tree s) t = rows_of (cont s) t.
Proof.
  intros [_ Hs] Hp. unfold scan_table, table_prefix_key. cbn [rs_range tree_rows]. rewrite (tl_range _ _ _ _ Hs); [done|].
  rewrite <-(app_nil_r (t ++ [zero])), <-(assoc_L (++)). by apply plain_not_own.
Qed.

(** Room for some writes, which fit, and for [room] more *)
Definition has_room (ws : list (bytes * option bytes)) (room : Z) s : Prop := 0 <= room /\ st_ok (len ws + room) s /\ Forall tl_fits ws.

(** What a DELETE writes: tombstones, and the row counter *)
Definition delete_writes (del : DeleteStmt) s : list (bytes * option bytes) :=
  let t := id_value (del_table del) in
  each (delete_one_writes t (indexed_columns (d_tree s) t)) (filter (fun e => selects (del_where del) e.2 = true) (rows_of (cont s) t)) (cont s) ++
  count_writes t.

Lemma does_row_count (rows : Z) t : plain t -> exists f, (forall c, f c = [] \/ f c = count_writes t) /\
  does (T := T) (if 0 <? rows then on_engine (fun tree : T => increment_row_count tree t (- Z.min rows i64_max)) else sret tt) f.
Proof.
  intros Hp. destruct (0 <? rows).
  - exists (fun _ => count_writes t). split; [by right|]. by apply does_count.
  - exists (fun _ => []). split; [by left|]. apply does_quiet. by intros ??? [= <- <-].
Qed.

Lemma delete_core (del : DeleteStmt) (schema : SchemaCatalog) s n s' room : let t := id_value (del_table del) in
  has_room (delete_writes del s) room s -> plain t -> text_ids (cont s) t ->
  execute_delete None del schema s = (Ok n, s') ->
  st_ok room s' /\ text_ids (cont s') t /\ n = len (filter (fun e => selects (del_where del) e.2 = true) (rows_of (cont s) t)) /\
  rows_of (cont s') t = filter (fun e => selects (del_where del) e.2 = false) (rows_of (cont s) t) /\
  (forall t', plain t' -> t' <> t -> rows_of (cont s') t' = rows_of (cont s) t').
Proof.
  intros t (Hroom & Hs & Hf0) Hp Hu E. unfold execute_delete in E. fold t in E. unfold sbind at 1, visible_rows in E. rewrite (scan_rows _ _ _ Hs Hp) in E.
  unfold sbind at 1, lift in E. destruct (matching (del_where del) (rows_of (cont s) t)) as [rows|x|] eqn:Em; [|done..].
  apply matching_spec in Em. unfold delete_writes in Hs, Hf0. fold t in Hs, Hf0. rewrite <-Em in *.
  destruct (does_row_count (len rows) t Hp) as (f & Hf & Hdf).
  assert (Hids : forall e, e ∈ rows -> zero_free e.1 /\ xff ∉ e.1).
  { subst rows. intros e [_ He]%list_elem_of_filter. apply list_elem_of_fmap in He as ([r0 slot] & -> & Hin).
    apply elem_of_btree_iter in Hin. unfold show_row. cbn [fst]. split; [|apply lossy_no_ff]. rewrite Hu by (by eexists).
    eapply slots_zero_free; [apply Hp|by eexists]. }
  pose proof (does_seq _ _ _ _ (does_each (delete_one None schema t (indexed_columns (d_tree s) t)) (delete_one_writes t (indexed_columns (d_tree s) t)) rows
    (fun e He => does_delete_one schema t (indexed_columns (d_tree s) t) e Hp (proj2 (Hids e He)))) Hdf) as D.
  set (ws := each _ _ _) in Hs, Hf0.
  unfold sbind at 1 in E. destruct (for_each_do _ rows s) as [[[]|x|] s1] eqn:E1; [|done..]. unfold sbind in E.
  match type of E with (let (_, _) := ?p in _) = _ => destruct p as [[[]|x|] s2] eqn:E2 end; [|done..]. injection E as <- <-.
  apply Forall_app in Hf0 as [Hf1 Hf2]. rewrite len_app in Hs.
  assert (Hpre : 0 <= len (count_writes t) + room - len (f (puts (cont s) ws)) /\ Forall tl_fits (f (puts (cont s) ws)))
    by (destruct (Hf (puts (cont s) ws)) as [-> | ->]; split; [change (len (count_writes t)) with 1; change (len []) with 0; lia|constructor|lia|done]).
  specialize (D s tt s2 (len (count_writes t) + room - len (f (puts (cont s) ws))) (proj1 Hpre)). unfold sbind in D. rewrite E1, E2, len_app in D. fold ws in D.
  destruct D as (C & S); [|apply Forall_app; split; [exact Hf1|apply Hpre]|done|].
  { match goal with |- st_ok ?r s => replace r with (len ws + len (count_writes t) + room) by lia end. exact Hs. } rewrite puts_app in C. fold ws in C.
  assert (S0 : st_ok room s2).
  { destruct S as [S1 S2]; split; [done|]; eapply tl_less; [exact S2|]. destruct (Hf (puts (cont s) ws)) as [-> | ->]; change (len (count_writes t)) with 1; [change (len []) with 0|]; lia. } clear S.
  assert (Hk : forall k t' r, plain t' -> owner k = Some (t', r) -> cont s2 !! k = if bool_decide (t' = t /\ r ∈ rows.*1) then None else cont s !! k).
  { intros k t' r Hp' Ho. rewrite C, puts_other; [unfold ws; apply delete_each_lookup; [apply Hp| |done|done]|].
    - apply Forall_forall. intros e He. by apply Hids.
    - destruct (Hf (puts (cont s) ws)) as [-> | ->]; [apply not_elem_of_nil|]. intros ->%list_elem_of_singleton. by apply owner_stats in Ho. }
  split_and!; [done| |done|apply rows_deleted; [apply Hp|done|]|].
  - intros r Hr. apply Hu. rewrite (slots_deleted (cont s) (cont s2) t t rows.*1) in Hr; [|done|intros k r'; by apply Hk].
    destruct Hr as [slot Hr]. apply map_lookup_filter_Some in Hr as [Hr _]. by eexists.
  - rewrite <-Em. apply slots_deleted; [done|]. intros k r. by apply Hk.
  - intros t' Hp' Hne. unfold rows_of. do 2 f_equal. rewrite (slots_deleted (cont s) (cont s2) t t' rows.*1); [|done|].
    + apply map_filter_id. intros i x _ [? _]. done.
    + intros k r. by apply Hk.
Qed.
End statements.

(** ** UPDATE *)
Section update.
Context {T : Type} `{TreeLaws T} `{ExecEnv} `{StdChoices}.
Implicit Types s : DmlState T.

Abbreviation Pending := (bytes * bytes * option Value)%type.

(** The columns that an UPDATE computes for a row, and the row it stores *)
Definition assigned (schema : SchemaCatalog) t (assignments : list (Ident * Expr)) (row : RowMap) : outcome EngineError (list Pending) :=
  traverse (fun a : Ident * Expr => let? v := exec (eval_expr a.2 row) in prepare_column schema t (id_value a.1, v)) assignments.
Definition merged (row : RowMap) (pending : list Pending) : Row :=
  fold_left (fun cells (p : Pending) => set_cell cells p.1.1 p.1.2) pending (map (fun c : bytes * Value => (c.1, value_to_bytes c.2)) row).

Definition reindex_writes t (indexed : list bytes) (r : bytes * RowMap) (p : Pending) : list (bytes * option bytes) :=
  let '(col, b, _) := p in
  if is_indexed indexed col && negb (bool_decide (old_bytes r.2 col = Some b)) then
    match old_bytes r.2 col with Some old => [(entry_key_for t col old r.1, None)] | None => [] end ++ [(entry_key_for t col b r.1, Some [])]
  else [].

Lemma does_reindex t indexed (r : bytes * RowMap) (p : Pending) :
  does (T := T) (let '(col, b, vector) := p in
        let* _ := if is_indexed indexed col then
                    if bool_decide (old_bytes r.2 col = Some b) then sret tt
                    else
                      let* _ := match old_bytes r.2 col with
                                | Some old => index_entry_delete None t col old r.1
                                | None => sret tt
                                end in
                      index_entry_put None t col b r.1
                  else sret tt in
        upsert_vector t col r.1 vector) (fun _ => reindex_writes t indexed r p).
Proof.
  destruct p as [[col b] vector]. unfold reindex_writes.
  assert (V : does (T := T) (upsert_vector t col r.1 vector) (fun _ => [])).
  { destruct vector; [apply does_vectors|]. apply does_quiet. by intros ??? [= <- <-]. }
  assert (N : does (T := T) (sret tt) (fun _ => [])) by (apply does_quiet; by intros ??? [= <- <-]).
  set (del := match old_bytes r.2 col with Some old => [(entry_key_for t col old r.1, None)] | None => [] end).
  assert (D : does (T := T) (match old_bytes r.2 col with Some old => index_entry_delete None t col old r.1 | None => sret tt end) (fun _ => del)).
  { unfold del. destruct (old_bytes r.2 col); [by apply does_delete_cell|exact N]. }
  eapply (does_ext _ (fun c => _ ++ [])); [intros c; apply app_nil_r|]. apply (does_seq _ _ (fun _ => _) (fun _ => [])); [|exact V].
  destruct (is_indexed indexed col); [|exact N]. cbn [andb]. destruct (bool_decide (old_bytes r.2 col = Some b)); [exact N|]. cbn [negb].
  apply (does_seq _ _ (fun _ => del) (fun _ => [(entry_key_for t col b r.1, Some [])])); [exact D|]. by apply does_put_cell.
Qed.

(** What an UPDATE writes for a row *)
Definition update_row_writes (schema : SchemaCatalog) t (indexed : list bytes) assignments (r : bytes * RowMap) c : list (bytes * option bytes) :=
  match assigned schema t assignments r.2 with
  | Ok pending =>
      let packed := [(packed_row_key t r.1, Some (encode_row (merged r.2 pending)))] in
      packed ++ erase (cell_keys (puts c packed) t r.1) ++ concat (map (reindex_writes t indexed r) pending)
  | _ => []
  end.

Lemma does_constant {A} (f : A -> SM (DmlState T) EngineError unit) (g : A -> list (bytes * option bytes)) (l : list A) :
  (forall x, does (f x) (fun _ => g x)) -> does (for_each_do f l) (fun _ => concat (map g l)).
Proof.
  intros Hf. apply (does_ext _ (each (fun x _ => g x) l)); [|apply does_each; auto].
  intros c. revert c. induction l as [|x l IH]; intros c; [done|]. cbn. by rewrite IH.
Qed.

Lemma does_update_row (schema : SchemaCatalog) t indexed assignments (r : bytes * RowMap) :
  plain t -> does (T := T) (update_row None schema t indexed assignments r) (update_row_writes schema t indexed assignments r).
Proof.
  intros Hp. destruct r as [r row]. unfold update_row, update_row_writes. fold (assigned schema t assignments row). cbn [snd fst].
  apply does_bind_lift. intros pending ->. fold (merged row pending).
  apply (does_seq _ _ (fun _ => [(packed_row_key t r, Some (encode_row (merged row pending)))])
    (fun c => erase (cell_keys c t r) ++ concat (map (reindex_writes t indexed (r, row)) pending))).
  { apply does_put_cell; [apply packed_row_key_ne|by apply packed_not_counter]. }
  apply (does_seq _ _ (fun c => erase (cell_keys c t r)) (fun _ => concat (map (reindex_writes t indexed (r, row)) pending))).
  { by apply does_erase_cells. }
  apply does_constant. intros p. apply (does_reindex t indexed (r, row) p).
Qed.

Lemma reindex_other t indexed (r : bytes * RowMap) (pending : list Pending) c k t' r' : plain t' -> owner k = Some (t', r') ->
  puts c (concat (map (reindex_writes t indexed r) pending)) !! k = c !! k.
Proof.
  intros Hp Ho. apply puts_other. intros Hin. apply list_elem_of_fmap in Hin as (w & -> & Hw). apply list_elem_of_In, in_concat in Hw as (l & Hl%list_elem_of_In & Hw%list_elem_of_In).
  apply list_elem_of_fmap in Hl as ([[col b] vec] & -> & _). unfold reindex_writes in Hw. destruct (_ && _); [|by apply not_elem_of_nil in Hw].
  apply elem_of_app in Hw as [Hw|Hw].
  - destruct (old_bytes r.2 col); [|by apply not_elem_of_nil in Hw]. apply list_elem_of_singleton in Hw as ->. by apply owner_index in Ho.
  - apply list_elem_of_singleton in Hw as ->. by apply owner_index in Ho.
Qed.

(** An updated row is its new record alone; other rows and other tables keep theirs. *)
Definition new_row (schema : SchemaCatalog) t assignments (row : RowMap) : RowMap :=
  match assigned schema t assignments row with Ok pending => stored_row (merged row pending) | _ => row end.

Lemma update_row_lookup (schema : SchemaCatalog) t indexed assignments (r : bytes * RowMap) pending c k t' r' :
  plain t -> zero_free r.1 -> plain t' -> assigned schema t assignments r.2 = Ok pending -> owner k = Some (t', r') ->
  puts c (update_row_writes schema t indexed assignments r c) !! k =
  if bool_decide (t' = t /\ r' = r.1) then if bool_decide (k = packed_row_key t r.1) then Some (encode_row (merged r.2 pending)) else None else c !! k.
Proof.
  intros Hpt Hr Hp E Ho. pose proof (proj1 Hpt) as Ht. unfold update_row_writes. rewrite E. cbv zeta.
  rewrite !puts_app, (reindex_other _ _ _ _ _ _ _ _ Hp Ho), puts_erase by (by eapply owner_not_counter).
  unfold cell_keys. rewrite (bool_decide_ext _ _ (elem_of_below _ _ k)).
  cbn [puts fold_left]. unfold put_entry. cbn [fst snd]. rewrite packed_not_counter by done. destruct (decide (k = packed_row_key t r.1)) as [->|Hne].
  - rewrite owner_packed in Ho by done. injection Ho as <- <-. rewrite lookup_insert_eq, packed_not_cell by done.
    rewrite bool_decide_eq_false_2 by naive_solver. by rewrite !bool_decide_eq_true_2.
  - rewrite lookup_insert_ne, (bool_decide_eq_false_2 (k = _)) by done. case_bool_decide as Hc.
    + destruct Hc as [Hsw _]. assert (Ho' : owner k = Some (t, r.1)) by (apply starts_with_spec in Hsw as [x ->]; by apply owner_cell).
      rewrite Ho' in Ho. injection Ho as <- <-. by rewrite bool_decide_eq_true_2.
    + case_bool_decide as Ho'; [|done]. destruct Ho' as [-> ->]. apply owner_cases in Ho as [?|Hsw]; [done|].
      apply eq_None_not_Some. intros Hs. by apply Hc.
Qed.

Lemma update_row_slots (schema : SchemaCatalog) t indexed assignments (r : bytes * RowMap) pending c t' :
  plain t -> zero_free r.1 -> plain t' -> assigned schema t assignments r.2 = Ok pending ->
  slots (puts c (update_row_writes schema t indexed assignments r c)) t' =
  if bool_decide (t' = t) then <[r.1 := (Some (new_row schema t assignments r.2), [])]> (slots c t') else slots c t'.
Proof.
  intros Hpt Hr Hp E. pose proof (proj1 Hpt) as Ht. pose proof (fun k r' => update_row_lookup schema t indexed assignments r pending c k t' r' Hpt Hr Hp E) as Hk.
  assert (Hother : forall r', ~ (t' = t /\ r' = r.1) -> slots (puts c (update_row_writes schema t indexed assignments r c)) t' !! r' = slots c t' !! r').
  { intros r' Hn. apply slots_local; [apply Hp|]. intros k Ho. rewrite (Hk k r' Ho). by rewrite bool_decide_eq_false_2. }
  apply map_eq. intros r'. case_bool_decide as Et; [|apply Hother; tauto]. subst t'.
  destruct (decide (r' = r.1)) as [->|Hne]; [|rewrite lookup_insert_ne by done; apply Hother; tauto].
  rewrite lookup_insert_eq. unfold new_row. rewrite E. apply slots_packed; [done|done| |].
  - rewrite (Hk _ r.1) by (by apply owner_packed). by rewrite !bool_decide_eq_true_2.
  - intros k Ho Hne. rewrite (Hk k r.1 Ho), bool_decide_eq_true_2 by done. by rewrite bool_decide_eq_false_2.
Qed.

Definition set_row (f : RowMap -> RowMap) (m : gmap bytes Slot) (e : bytes * RowMap) : gmap bytes Slot := <[e.1 := (Some (f e.2), [])]> m.
Lemma set_rows_some (f : RowMap -> RowMap) (rows : list (bytes * RowMap)) (m : gmap bytes Slot) r : is_Some (fold_left (set_row f) rows m !! r) -> is_Some (m !! r) \/ r ∈ rows.*1.
Proof.
  revert m. induction rows as [|e rows IH]; intros m Hr; [by left|]. cbn [fold_left] in Hr. apply IH in Hr as [[x Hr]|Hr]; [|right; by right].
  unfold set_row in Hr. apply lookup_insert_Some in Hr as [[<- _]|[_ Hr]]; [right; left|left; by eexists].
Qed.

Lemma update_each_slots (schema : SchemaCatalog) t indexed assignments (rows : list (bytes * RowMap)) c t' :
  plain t -> plain t' -> Forall (fun e => zero_free e.1 /\ exists pending, assigned schema t assignments e.2 = Ok pending) rows ->
  slots (puts c (each (update_row_writes schema t indexed assignments) rows c)) t' =
  if bool_decide (t' = t) then fold_left (set_row (new_row schema t assignments)) rows (slots c t') else slots c t'.
Proof.
  intros Ht Hp Hr. revert c. induction Hr as [|e rows [Hz [pending E]] _ IH]; intros c; cbn [each fold_left]; [by case_bool_decide|].
  rewrite puts_app, IH, (update_row_slots _ _ _ _ _ _ _ _ Ht Hz Hp E). by case_bool_decide.
Qed.

Lemma set_rows_lookup (f : RowMap -> RowMap) (rows : list (bytes * RowMap)) (m : gmap bytes Slot) r v : NoDup rows.*1 ->
  fold_left (set_row f) rows m !! r = Some v <->
  (exists row, (r, row) ∈ rows /\ v = (Some (f row), [])) \/ (r ∉ rows.*1 /\ m !! r = Some v).
Proof.
  revert m. induction rows as [|[r0 row0] rows IH]; intros m Hnd; cbn [fold_left].
  { split; [intros Hm; right; split; [apply not_elem_of_nil|done]|]. intros [(row & Hin & _)|[_ ?]]; [by apply not_elem_of_nil in Hin|done]. }
  apply NoDup_cons in Hnd as [Hn0 Hnd]. rewrite IH by done. unfold set_row. cbn [fst snd]. rewrite fmap_cons, not_elem_of_cons. cbn [fst].
  rewrite lookup_insert_Some. split.
  - intros [(row & Hin & ->)|[Hn [[<- <-]|[Hne Hm]]]]; [left; exists row; split; [by constructor|done]|left; exists row0; split; [constructor|done]|].
    right. split_and!; [congruence|done|done].
  - intros [(row & [[= -> ->]|Hin]%elem_of_cons & ->)|[[Hne Hn] Hm]]; [right; split; [done|by left]|left; by exists row|].
    right. split; [done|]. right. split; [congruence|done].
Qed.

Lemma sorted_map_keys {V} (g : bytes * V -> bytes * V) (l : list (bytes * V)) : (forall e, (g e).1 = e.1) ->
  StronglySorted entry_lt l -> StronglySorted entry_lt (map g l).
Proof.
  intros Hg. induction 1 as [|e l _ IH Hall]; [constructor|]. cbn [map]. constructor; [done|]. rewrite Forall_forall in *.
  intros x (y & -> & Hy)%list_elem_of_fmap. unfold entry_lt in *. rewrite !Hg. by apply Hall.
Qed.

(** Updating the selected rows: each becomes its new record, in place. *)
Lemma rows_updated c c' t w (f : RowMap -> RowMap) : text_ids c t ->
  slots c' t = fold_left (set_row f) (filter (fun e => selects w e.2 = true) (rows_of c t)) (slots c t) ->
  rows_of c' t = map (fun e => if selects w e.2 then (e.1, f e.2) else e) (rows_of c t).
Proof.
  intros Hu Hs. pose (g := fun e : bytes * Slot => if selects w (show_row e).2 then (e.1, (Some (f (show_row e).2), [])) else e).
  set (l := btree_iter (slots c t)). set (rows := filter _ _) in Hs.
  assert (Hid : forall e, e ∈ l -> (show_row e).1 = e.1).
  { intros [r slot] Hin. apply elem_of_btree_iter in Hin. unfold show_row. cbn [fst]. apply Hu. by eexists. }
  assert (Hnd : NoDup rows.*1).
  { subst rows. eapply sublist_NoDup; [|apply fmap_sublist, sublist_filter]. rewrite rows_ids by done. apply NoDup_btree_iter_keys. }
  assert (Hrow : forall r row, (r, row) ∈ rows <-> exists slot, slots c t !! r = Some slot /\ row = merge_row slot.1 slot.2 /\ selects w row = true).
  { intros r row. subst rows. rewrite list_elem_of_filter. unfold rows_of. fold l. split.
    - intros [Hsel Hin]. apply list_elem_of_fmap in Hin as ([r0 slot] & E & Hin). pose proof (Hid _ Hin) as Hr. injection E as -> ->.
      cbn in Hr. rewrite Hr. apply elem_of_btree_iter in Hin. eauto.
    - intros (slot & Hl & -> & Hsel). split; [done|]. apply list_elem_of_fmap. exists (r, slot). apply elem_of_btree_iter in Hl.
      split; [|done]. pose proof (Hid _ Hl) as Hr. unfold show_row in *. cbn in *. by rewrite Hr. }
  assert (Hb : btree_iter (slots c' t) = map g l).
  { apply btree_iter_unique; [apply sorted_map_keys; [|apply btree_iter_sorted]; intros e; unfold g; by destruct (selects _ _)|].
    intros r v. rewrite Hs, set_rows_lookup by done. rewrite (list_elem_of_fmap g l). split.
    - intros ([r0 slot] & E & Hin). pose proof (proj1 (elem_of_btree_iter _ _ _) Hin) as Hl. unfold g in E. cbn in E.
      destruct (selects w (merge_row slot.1 slot.2)) eqn:Esel; injection E as -> ->.
      + left. exists (merge_row slot.1 slot.2). split; [|done]. apply Hrow. eauto.
      + right. split; [|by apply elem_of_btree_iter]. intros ([r1 row] & -> & Hr)%list_elem_of_fmap. apply Hrow in Hr as (slot' & Hl' & -> & Hsel). cbn in Hl.
        rewrite Hl in Hl'. injection Hl' as <-. congruence.
    - intros [(row & Hin & ->)|[Hn Hl]].
      + apply Hrow in Hin as (slot & Hl & -> & Hsel). exists (r, slot). split; [unfold g; cbn; by rewrite Hsel|by apply elem_of_btree_iter].
      + exists (r, v). split; [|by apply elem_of_btree_iter]. unfold g. cbn. destruct (selects w (merge_row v.1 v.2)) eqn:Esel; [|done].
        destruct Hn. apply list_elem_of_fmap. exists (r, merge_row v.1 v.2). split; [done|]. apply Hrow. eauto. }
  unfold rows_of. rewrite Hb. fold l. rewrite !map_map. apply map_ext_in. intros e He%list_elem_of_In. unfold g.
  destruct (selects w (show_row e).2) eqn:Esel; [|done]. unfold show_row. by cbn.
Qed.

Lemma update_assigned (schema : SchemaCatalog) t indexed assignments (rows : list (bytes * RowMap)) s s' :
  for_each_do (update_row None schema t indexed assignments) rows s = (Ok tt, s') ->
  Forall (fun e => exists pending, assigned schema t assignments e.2 = Ok pending) rows.
Proof.
  revert s. induction rows as [|[r row] rows IH]; intros s; cbn [for_each_do]; [constructor|]. unfold sbind at 1.
  destruct (update_row None schema t indexed assignments (r, row) s) as [[[]|x|] s1] eqn:E; [|done..]. intros E1. constructor; [|by eapply IH].
  unfold update_row in E. fold (assigned schema t assignments row) in E. unfold sbind at 1, lift in E. cbn [snd].
  destruct (assigned schema t assignments row) as [pending|x|]; [by exists pending|done..].
Qed.

(** What an UPDATE writes *)
Definition update_writes (schema : SchemaCatalog) (upd : UpdateStmt) s : list (bytes * option bytes) :=
  let t := id_value (up_table upd) in
  each (update_row_writes schema t (indexed_columns (d_tree s) t) (up_assignments upd))
    (filter (fun e => selects (up_where upd) e.2 = true) (rows_of (cont s) t)) (cont s).

Lemma update_core (upd : UpdateStmt) (schema : SchemaCatalog) s n s' room : let t := id_value (up_table upd) in
  has_room (update_writes schema upd s) room s -> plain t -> text_ids (cont s) t ->
  execute_update None upd schema s = (Ok n, s') ->
  st_ok room s' /\ text_ids (cont s') t /\ n = len (filter (fun e => selects (up_where upd) e.2 = true) (rows_of (cont s) t)) /\
  rows_of (cont s') t = map (fun e => if selects (up_where upd) e.2 then (e.1, new_row schema t (up_assignments upd) e.2) else e) (rows_of (cont s) t) /\
  (forall t', plain t' -> t' <> t -> rows_of (cont s') t' = rows_of (cont s) t').
Proof.
  intros t (Hroom & Hs & Hf) Hp Hu E. unfold execute_update in E. fold t in E. unfold sbind at 1, visible_rows in E. rewrite (scan_rows _ _ _ Hs Hp) in E.
  unfold sbind at 1, lift in E. destruct (matching (up_where upd) (rows_of (cont s) t)) as [rows|x|] eqn:Em; [|done..].
  apply matching_spec in Em. unfold update_writes in Hs, Hf. fold t in Hs, Hf. rewrite <-Em in *.
  unfold sbind at 1 in E. destruct (for_each_do _ rows s) as [[[]|x|] s1] eqn:E1; [|done..]. injection E as <- <-.
  pose proof (update_assigned _ _ _ _ _ _ _ E1) as Has.
  destruct (does_each _ _ rows (fun e _ => does_update_row schema t (indexed_columns (d_tree s) t) (up_assignments upd) e Hp) _ _ _ room Hroom Hs Hf E1) as (C & S).
  assert (Hsl : forall t', plain t' -> slots (cont s1) t' =
    if bool_decide (t' = t) then fold_left (set_row (new_row schema t (up_assignments upd))) rows (slots (cont s) t') else slots (cont s) t').
  { intros t' Hp'. rewrite C. apply update_each_slots; [done|done|]. rewrite Forall_forall in *. intros e He. split; [|by apply Has].
    subst rows. apply list_elem_of_filter in He as [_ He]. apply list_elem_of_fmap in He as ([r0 slot] & -> & Hin).
    apply elem_of_btree_iter in Hin. cbn. rewrite Hu by (by eexists). eapply slots_zero_free; [apply Hp|by eexists]. }
  split_and!; [done| |done| |].
  - intros r Hr. rewrite Hsl, bool_decide_eq_true_2 in Hr by done. apply set_rows_some in Hr as [Hr|Hr]; [by apply Hu|].
    apply list_elem_of_fmap in Hr as (e & -> & He). subst rows. apply list_elem_of_filter in He as [_ He].
    apply list_elem_of_fmap in He as ([r0 slot] & -> & Hin). apply elem_of_btree_iter in Hin. cbn. assert (is_Some (slots (cont s) t !! r0)) by (by eexists).
    rewrite (Hu r0) by done. by apply Hu.
  - apply rows_updated; [done|]. rewrite <-Em, Hsl by done. by rewrite bool_decide_eq_true_2.
  - intros t' Hp' Hne. unfold rows_of. rewrite Hsl by done. by rewrite bool_decide_eq_false_2.
Qed.
End update.

(** ** INSERT *)
Section insert.
Context {T : Type} `{TreeLaws T} `{ExecEnv} `{StdChoices}.
Implicit Types s : DmlState T.
Abbreviation DM A := (SM (DmlState T) EngineError A).
Abbreviation Pending := (bytes * bytes * option Value)%type.

(** *** Checks read only *)

Lemma quiet_ret {A} (a : A) : quiet (T := T) (sret a).
Proof. by intros ??? [= <- <-]. Qed.
Lemma quiet_lift {A} (o : outcome EngineError A) : quiet (T := T) (lift o).
Proof. intros s a s'. unfold lift. by intros [= _ <-]. Qed.
Lemma quiet_bind {A B} (p : DM A) (k : A -> DM B) : quiet p -> (forall a, quiet (k a)) -> quiet (sbind p k).
Proof.
  intros Hp Hk s b s'. unfold sbind. destruct (p s) as [[a|x|] s1] eqn:E; [|done..]. intros E1.
  apply Hp in E as [<- <-]. by apply Hk in E1.
Qed.
Lemma quiet_exists k : quiet (T := T) (key_exists None k).
Proof. intros s a s'. unfold key_exists. by intros [= _ <-]. Qed.
Lemma quiet_each {A} (f : A -> DM unit) (l : list A) : (forall x, quiet (f x)) -> quiet (for_each_do f l).
Proof. intros Hf. induction l as [|x l IH]; [apply quiet_ret|]. by apply quiet_bind. Qed.

Lemma quiet_pk t col_names values pk : quiet (T := T) (enforce_pk_column None t col_names values pk).
Proof.
  unfold enforce_pk_column. destruct (position col_names pk) as [i|]; [|apply quiet_lift]. apply quiet_bind; [apply quiet_lift|]. intros v.
  assert (Q : forall packed : bool, quiet (T := T) (let* e := if packed then sret true else key_exists None (cell_key t (value_to_row_id v) pk) in
                if e then lift (mismatch "PRIMARY KEY constraint failed: duplicate" [pk; value_to_row_id v]) else sret tt)).
  { intros packed. apply quiet_bind; [destruct packed; [apply quiet_ret|apply quiet_exists]|]. intros [|]; [apply quiet_lift|apply quiet_ret]. }
  destruct v; try apply quiet_lift; (apply quiet_bind; [apply quiet_exists|exact Q]).
Qed.
Lemma quiet_unique t col_names values ts : quiet (T := T) (enforce_unique_columns None t col_names values ts).
Proof.
  unfold enforce_unique_columns. destruct (unique_cols ts); [apply quiet_ret|]. apply quiet_bind; [|intros ?; apply quiet_lift].
  intros s a s'. unfold visible_rows. by intros [= _ <-].
Qed.
Lemma quiet_primary_key t col_names values (schema : SchemaCatalog) : quiet (T := T) (enforce_primary_key None t col_names values schema).
Proof.
  unfold enforce_primary_key. destruct (sc_tables schema !! t); [|apply quiet_ret].
  apply quiet_bind; [apply quiet_each, quiet_pk|intros ?; apply quiet_unique].
Qed.

(** The row that an INSERT stores: its id, its columns *)
Definition insert_values (schema : SchemaCatalog) t (col_names : list bytes) (exprs : list Expr) : outcome EngineError (list Value * Value * list Pending) :=
  let? values := exec (traverse (fun e => eval_expr e []) exprs) in
  let? first := value_at values 0 in
  let? pending := traverse (prepare_column schema t) (combine col_names values) in
  Ok (values, first, pending).
Definition insert_id (x : list Value * Value * list Pending) : bytes := value_to_row_id x.1.2.
Definition insert_cols (x : list Value * Value * list Pending) : Row := map (fun p : Pending => (p.1.1, p.1.2)) x.2.

Definition index_writes t (indexed : list bytes) r (p : Pending) : list (bytes * option bytes) :=
  if is_indexed indexed p.1.1 then [(entry_key_for t p.1.1 p.1.2 r, Some [])] else [].
Definition insert_row_writes (schema : SchemaCatalog) t (col_names indexed : list bytes) (exprs : list Expr) c : list (bytes * option bytes) :=
  match insert_values schema t col_names exprs with
  | Ok x =>
      let rest := (packed_row_key t (insert_id x), Some (encode_row (insert_cols x))) :: concat (map (index_writes t indexed (insert_id x)) x.2) in
      rest ++ count_writes t
  | _ => []
  end.

Lemma does_quiet_then {A B} (p : DM A) (q : DM B) f : quiet p -> does q f -> does (let* _ := p in q) f.
Proof. intros Hp Hq. apply (does_ext _ (fun c => [] ++ f (puts c []))); [done|]. apply does_seq; [by apply does_quiet|done]. Qed.

Lemma does_insert_row (schema : SchemaCatalog) t col_names indexed exprs :
  plain t -> does (T := T) (insert_row None schema t col_names indexed exprs) (insert_row_writes schema t col_names indexed exprs).
Proof.
  intros Hp. unfold insert_row. destruct (negb _); [intros s a s' room _ _ _ E; discriminate E|]. apply does_bind_lift. intros values Ev.
  apply does_bind_lift. intros first Ef. apply does_quiet_then; [apply quiet_primary_key|]. apply does_bind_lift. intros pending Ep.
  unfold insert_row_writes, insert_values. rewrite Ev. cbn [obind]. rewrite Ef. cbn [obind]. rewrite Ep. cbn [obind].
  unfold insert_id, insert_cols. cbn [fst snd]. set (r := value_to_row_id first).
  eapply does_ext; [|apply (does_seq _ _ (fun _ => [(packed_row_key t r, Some (encode_row (map (fun p : Pending => (p.1.1, p.1.2)) pending)))])
    (fun c => concat (map (index_writes t indexed r) pending) ++ count_writes t))].
  - intros c. cbn. done.
  - apply does_put_cell; [apply packed_row_key_ne|by apply packed_not_counter].
  - apply (does_seq _ _ (fun _ => concat (map (index_writes t indexed r) pending)) (fun _ => count_writes t)); [|by apply does_count].
    apply does_constant. intros [[col b] vector]. unfold index_writes. cbn [fst snd].
    apply (does_ext _ (fun c => (if is_indexed indexed col then [(entry_key_for t col b r, Some [])] else []) ++ [])); [intros c; apply app_nil_r|].
    apply (does_seq _ _ (fun _ => _) (fun _ => [])).
    + destruct (is_indexed indexed col); [by apply does_put_cell|apply does_quiet, quiet_ret].
    + destruct vector; [apply does_vectors|apply does_quiet, quiet_ret].
Qed.

(** *** New rows *)

Definition packed_only c t : Prop := forall k r, owner k = Some (t, r) -> is_Some (c !! k) -> k = packed_row_key t r.

Lemma insert_row_lookup (schema : SchemaCatalog) t col_names indexed exprs x c k t' r' :
  plain t -> zero_free (insert_id x) -> plain t' -> insert_values schema t col_names exprs = Ok x -> owner k = Some (t', r') ->
  puts c (insert_row_writes schema t col_names indexed exprs c) !! k =
  if bool_decide (k = packed_row_key t (insert_id x)) then Some (encode_row (insert_cols x)) else c !! k.
Proof.
  intros Hpt Hr Hp E Ho. pose proof (proj1 Hpt) as Ht. unfold insert_row_writes. rewrite E. cbv zeta. rewrite puts_app, (puts_other _ (count_writes _)).
  2:{ unfold count_writes. cbn. intros ->%list_elem_of_singleton. by apply owner_stats in Ho. }
  match goal with |- puts c (?w :: ?l) !! k = _ => change (puts c (w :: l)) with (puts (put_entry c w) l) end. rewrite puts_other.
  - unfold put_entry. cbn [fst snd]. rewrite packed_not_counter by done. case_bool_decide; [subst k; by rewrite lookup_insert_eq|by rewrite lookup_insert_ne].
  - intros Hin. apply list_elem_of_fmap in Hin as (w & -> & Hw). apply list_elem_of_In, in_concat in Hw as (l & Hl%list_elem_of_In & Hw%list_elem_of_In).
    apply list_elem_of_fmap in Hl as (p & -> & _). unfold index_writes in Hw. destruct (is_indexed _ _); [|by apply not_elem_of_nil in Hw].
    apply list_elem_of_singleton in Hw as ->. by apply owner_index in Ho.
Qed.

Lemma insert_row_slots (schema : SchemaCatalog) t col_names indexed exprs x c t' :
  plain t -> zero_free (insert_id x) -> plain t' -> insert_values schema t col_names exprs = Ok x ->
  packed_only c t -> c !! packed_row_key t (insert_id x) = None ->
  let c' := puts c (insert_row_writes schema t col_names indexed exprs c) in
  slots c' t' = (if bool_decide (t' = t) then <[insert_id x := (Some (stored_row (insert_cols x)), [])]> (slots c t') else slots c t') /\
  slots c t !! insert_id x = None /\ (plain t -> packed_only c' t).
Proof.
  intros Hpt Hr Hp E Hpo Hf c'. pose proof (proj1 Hpt) as Ht.
  assert (Hk : forall t' k r', plain t' -> owner k = Some (t', r') -> c' !! k = if bool_decide (k = packed_row_key t (insert_id x)) then Some (encode_row (insert_cols x)) else c !! k)
    by (intros; by eapply insert_row_lookup).
  assert (Hfree : forall k, owner k = Some (t, insert_id x) -> c !! k = None).
  { intros k Ho. destruct (c !! k) eqn:Ek; [|done]. rewrite (Hpo k _ Ho ltac:(by eexists)) in Ek. congruence. }
  assert (Hother : forall r', ~ (t' = t /\ r' = insert_id x) -> slots c' t' !! r' = slots c t' !! r').
  { intros r' Hn. apply slots_local; [apply Hp|]. intros k Ho. rewrite (Hk t' k r') by done. rewrite bool_decide_eq_false_2; [done|].
    intros ->. rewrite owner_packed in Ho by done. naive_solver. }
  split_and!.
  - apply map_eq. intros r'. case_bool_decide as Et; [|apply Hother; tauto]. subst t'.
    destruct (decide (r' = insert_id x)) as [->|Hne]; [|rewrite lookup_insert_ne by done; apply Hother; tauto].
    rewrite lookup_insert_eq. apply slots_packed; [done|done| |].
    + rewrite (Hk t _ (insert_id x)) by (done || by apply owner_packed). by rewrite bool_decide_eq_true_2.
    + intros k Ho Hne. rewrite (Hk t k _ Hp Ho). rewrite bool_decide_eq_false_2 by done. by apply Hfree.
  - by apply slots_none.
  - intros _ k r' Ho Hs. rewrite (Hk t k r' Hpt Ho) in Hs. case_bool_decide as Ek; [|by apply Hpo].
    subst k. rewrite owner_packed in Ho by done. by injection Ho as <-.
Qed.

(** The primary key is the first column. *)
Definition keyed (schema : SchemaCatalog) t (col_names : list bytes) : Prop :=
  exists ts pk, sc_tables schema !! t = Some ts /\ ts_primary_key ts = [pk] /\ position col_names pk = Some 0%nat.

Lemma pk_column_fresh t col_names values pk first room s s' : st_ok room s -> plain t -> xff ∉ value_to_row_id first -> position col_names pk = Some 0%nat -> value_at values 0 = Ok first ->
  enforce_pk_column None t col_names values pk s = (Ok tt, s') -> cont s !! packed_row_key t (value_to_row_id first) = None.
Proof.
  intros [_ Hs] Hp Hff Hpk Hv. unfold enforce_pk_column. rewrite Hpk. unfold sbind at 1, lift at 1. rewrite Hv.
  assert (G : forall k : bool -> DM unit, (forall s, exists x, k true s = (Err x, s)) -> (let* packed := key_exists None (packed_row_key t (value_to_row_id first)) in k packed) s = (Ok tt, s') ->
              cont s !! packed_row_key t (value_to_row_id first) = None).
  { intros k Hk. unfold sbind, key_exists. rewrite (tl_get _ _ _ _ Hs); [|apply packed_row_key_ne|by apply plain_not_own|].
    2:{ destruct Hp as (_ & _ & _ & Ht). unfold packed_row_key. rewrite !not_elem_of_app, not_elem_of_cons. split_and!; [done|done|apply not_elem_of_nil|done]. }
    fold (cont s). cbn [obind map_err].
    case_bool_decide as Hx; [destruct (Hk s) as [x ->]; done|]. intros _. by apply eq_None_not_Some. }
  destruct first; try (intros E; discriminate E); (eapply G; intros s0; unfold sbind, sret, lift; by eexists).
Qed.

Lemma insert_row_fresh (schema : SchemaCatalog) t col_names indexed exprs room s s' : st_ok room s -> plain t -> keyed schema t col_names ->
  (forall x, insert_values schema t col_names exprs = Ok x -> xff ∉ insert_id x) ->
  insert_row None schema t col_names indexed exprs s = (Ok tt, s') ->
  exists x, insert_values schema t col_names exprs = Ok x /\ cont s !! packed_row_key t (insert_id x) = None.
Proof.
  intros Hs Hp (ts & pk & E1 & E2 & E3) Hff. unfold insert_row. destruct (negb _); [done|]. unfold sbind at 1, lift at 1.
  destruct (exec _) as [values|y|] eqn:Ev; [|done..]. unfold sbind at 1, lift at 1. destruct (value_at values 0) as [first|y|] eqn:Ef; [|done..].
  unfold sbind at 1. destruct (enforce_primary_key _ _ _ _ _ s) as [[[]|y|] s1] eqn:Ek; [|done..]. unfold sbind at 1, lift at 1.
  destruct (traverse (prepare_column _ _) _) as [pending|y|] eqn:Ep; [|done..]. intros _. exists (values, first, pending).
  assert (Ex : insert_values schema t col_names exprs = Ok (values, first, pending)).
  { unfold insert_values. rewrite Ev. cbn [obind]. rewrite Ef. cbn [obind]. by rewrite Ep. }
  split; [exact Ex|].
  - specialize (Hff _ Ex). unfold insert_id in *. cbn [fst snd]. unfold enforce_primary_key in Ek. rewrite E1, E2 in Ek. unfold sbind at 1 in Ek. cbn [for_each_do] in Ek.
    unfold sbind at 1 in Ek. destruct (enforce_pk_column _ _ _ _ _ s) as [[[]|y|] s2] eqn:Epk; [|done..]. by eapply pk_column_fresh.
Qed.

Definition good_id (x : list Value * Value * list Pending) : Prop := zero_free (insert_id x) /\ from_utf8_lossy (insert_id x) = insert_id x.
Definition add_row (m : gmap bytes Slot) (x : list Value * Value * list Pending) : gmap bytes Slot :=
  <[insert_id x := (Some (stored_row (insert_cols x)), [])]> m.
Definition inserted_row (x : list Value * Value * list Pending) : bytes * RowMap := (insert_id x, stored_row (insert_cols x)).

(** One statement's rows, one after the other *)
Inductive adds : gmap bytes Slot -> list (list Value * Value * list Pending) -> gmap bytes Slot -> Prop :=
| adds_nil m : adds m [] m
| adds_cons m x xs m' : m !! insert_id x = None -> adds (add_row m x) xs m' -> adds m (x :: xs) m'.

Lemma insert_each_slots (schema : SchemaCatalog) t col_names indexed rows s s' room : 0 <= room ->
  st_ok (len (each (insert_row_writes schema t col_names indexed) rows (cont s)) + room) s -> plain t -> keyed schema t col_names -> packed_only (cont s) t ->
  (forall exprs x, exprs ∈ rows -> insert_values schema t col_names exprs = Ok x -> good_id x) ->
  Forall tl_fits (each (insert_row_writes schema t col_names indexed) rows (cont s)) ->
  for_each_do (insert_row None schema t col_names indexed) rows s = (Ok tt, s') ->
  exists xs, Forall2 (fun exprs x => insert_values schema t col_names exprs = Ok x) rows xs /\ adds (slots (cont s) t) xs (slots (cont s') t) /\
    (forall t', plain t' -> t' <> t -> slots (cont s') t' = slots (cont s) t') /\ packed_only (cont s') t /\ st_ok room s'.
Proof.
  intros Hr Hs Hp Hkey. revert s Hs. induction rows as [|exprs rows IH]; intros s Hs Hpo Hg Hl; cbn [for_each_do].
  { intros [= <-]. exists []. split_and!; [constructor|constructor|done|done|exact Hs]. }
  unfold sbind. destruct (insert_row None schema t col_names indexed exprs s) as [[[]|y|] s1] eqn:E1; [|done..]. intros E2.
  cbn [each] in Hs, Hl. rewrite len_app, <-Z.add_assoc in Hs. set (c1 := puts _ _) in Hs, Hl. apply Forall_app in Hl as [Hl1 Hl2].
  pose proof (len_nonneg (each (insert_row_writes schema t col_names indexed) rows c1)).
  destruct (does_insert_row schema t col_names indexed exprs Hp s tt s1 (len (each (insert_row_writes schema t col_names indexed) rows c1) + room) ltac:(lia) Hs Hl1 E1) as (C1 & S1). fold c1 in C1.
  assert (Hff : forall x, insert_values schema t col_names exprs = Ok x -> xff ∉ insert_id x).
  { intros x Ex. destruct (Hg exprs x ltac:(constructor) Ex) as [_ <-]. apply lossy_no_ff. }
  destruct (insert_row_fresh _ _ _ _ _ _ _ _ Hs Hp Hkey Hff E1) as (x & Ex & Hfresh).
  destruct (Hg exprs x ltac:(constructor) Ex) as [Hz Hu].
  pose proof (fun t' Hp' => insert_row_slots schema t col_names indexed exprs x (cont s) t' Hp Hz Hp' Ex Hpo Hfresh) as Hsl.
  cbv zeta in Hsl. fold c1 in Hsl. rewrite <-C1 in *. destruct (Hsl t Hp) as (Hs1 & Hnone & Hpo1). rewrite bool_decide_eq_true_2 in Hs1 by done.
  destruct (IH s1 S1 (Hpo1 Hp)) as (xs & F & A & O & P & S); [|done|done|].
  { intros e y He. apply Hg. by constructor. }
  exists (x :: xs). split_and!; [by constructor| |intros t' Hp' Hne|done|done].
  - constructor; [done|]. unfold add_row. by rewrite <-Hs1.
  - rewrite O by done. destruct (Hsl t' Hp') as [-> _]. by rewrite bool_decide_eq_false_2.
Qed.

(** The new rows join the old ones. *)
Lemma adds_rows (m m' : gmap bytes Slot) xs : adds m xs m' -> Forall good_id xs ->
  map show_row (btree_iter m') ≡ₚ map inserted_row xs ++ map show_row (btree_iter m).
Proof.
  induction 1 as [m|m x xs m' Hn _ IH]; intros Hg; [done|]. apply Forall_cons in Hg as [[Hz Hu] Hg]. rewrite (IH Hg). cbn [map].
  assert (map show_row (btree_iter (add_row m x)) ≡ₚ inserted_row x :: map show_row (btree_iter m)) as ->; [|by rewrite <-Permutation_middle].
  unfold btree_iter. rewrite !merge_sort_Permutation. unfold add_row. rewrite map_to_list_insert by done. cbn [map]. unfold show_row at 1. cbn [fst snd].
  by rewrite Hu.
Qed.

Lemma adds_text (m m' : gmap bytes Slot) xs : adds m xs m' -> Forall good_id xs ->
  (forall r, is_Some (m !! r) -> from_utf8_lossy r = r) -> forall r, is_Some (m' !! r) -> from_utf8_lossy r = r.
Proof.
  induction 1 as [m|m x xs m' _ _ IH]; intros Hg Hm; [done|]. apply Forall_cons in Hg as [[Hz Hu] Hg]. apply IH; [done|].
  intros r. unfold add_row. destruct (decide (insert_id x = r)) as [<-|]; [done|]. rewrite lookup_insert_ne by done. apply Hm.
Qed.

Definition insert_columns (ins : InsertStmt) (schema : SchemaCatalog) : option (list bytes) :=
  match ins_columns ins with Some cols => Some (map id_value cols) | None => column_names schema (id_value (ins_table ins)) end.
(** What an INSERT writes *)
Definition insert_writes (schema : SchemaCatalog) (ins : InsertStmt) (col_names : list bytes) s : list (bytes * option bytes) :=
  let t := id_value (ins_table ins) in
  each (insert_row_writes schema t col_names (indexed_columns (d_tree s) t)) (ins_values ins) (cont s).

Lemma insert_core (ins : InsertStmt) (schema : SchemaCatalog) col_names s s' room : let t := id_value (ins_table ins) in
  0 <= room -> st_ok (len (insert_writes schema ins col_names s) + room) s -> Forall tl_fits (insert_writes schema ins col_names s) ->
  plain t -> insert_columns ins schema = Some col_names -> keyed schema t col_names -> packed_only (cont s) t ->
  (forall exprs x, exprs ∈ ins_values ins -> insert_values schema t col_names exprs = Ok x -> good_id x) ->
  execute_insert None ins schema s = (Ok tt, s') ->
  exists xs, Forall2 (fun exprs x => insert_values schema t col_names exprs = Ok x) (ins_values ins) xs /\
    rows_of (cont s') t ≡ₚ map inserted_row xs ++ rows_of (cont s) t /\
    (forall t', plain t' -> t' <> t -> rows_of (cont s') t' = rows_of (cont s) t') /\ packed_only (cont s') t /\ st_ok room s' /\
    (text_ids (cont s) t -> text_ids (cont s') t).
Proof.
  intros t Hr Hs Hl Hp Hcols Hkey Hpo Hg E. unfold execute_insert in E. fold t in E. unfold insert_columns in Hcols. fold t in Hcols. rewrite Hcols in E.
  destruct (insert_each_slots schema t col_names (indexed_columns (d_tree s) t) (ins_values ins) s s' room Hr Hs Hp Hkey Hpo Hg Hl E) as (xs & F & A & O & P & S).
  assert (G : Forall good_id xs); [|exists xs; split_and!; [done|by apply adds_rows|intros t' Hp' Hne; unfold rows_of; by rewrite O|done|done|intros Ht; exact (adds_text _ _ _ A G Ht)]].
  apply Forall_forall. intros x Hx. apply list_elem_of_lookup in Hx as [i Hi].
  destruct (Forall2_lookup_r _ _ _ _ _ F Hi) as (exprs & He & Ex). eapply Hg; [by eapply list_elem_of_lookup_2|done].
Qed.
End insert.
