(* ===== verification/DmlExact.v ===== *)
(** * INSERT, UPDATE and DELETE change exactly the rows they name

    The statements as the engine runs them outside transactions, with the policies of
    row-level security added to their WHERE clause, on the LSM tree.  First the tree is
    shown to have [TreeLaws]: as long as every row is stored as versions not later than the
    clock, a read of a key finds the newest of its versions in the memtable and the tables
    of both levels, a scan finds those of a range, and a write makes the newest version,
    also when it flushes the memtable or compacts level 0. *)

From S2P Require Import Prelude BTree StorageError Mvcc MvccMemTable Txn TxnManager MemTable Wal Filter SSTable Compaction Lsm LsmScan SnapshotStore Text Float64 Tokens Ast Display Lexer Parser Statements Utf8 RowPack Value Cast Eval Plan TableScan SetOps RowOps WindowExec StreamAgg Executor Optimize Build Query StoreSpec Catalog Bind Hnsw Dml Guards Caches AuditTrail Engine EngineFacts DmlSpec.

(** ** The rows of an LSM tree *)

(** The version that an entry stores under an internal key *)
Definition version_of (e : bytes * bytes) : option (candidate bytes) :=
  if starts_with MAGIC e.2 && (len e.1 >? 8) then
    match decode_version_ref e.2 with Ok (Some (ts, deleted, v)) => Some (decode_user_key e.1, ts, deleted, v) | _ => None end
  else None.
Definition versions (ms : list (gmap bytes bytes)) (c : candidate bytes) : Prop := exists e, some_has ms e /\ version_of e = Some c.

(** One version for each user key and timestamp *)
Definition functional (all : candidate bytes -> Prop) : Prop :=
  forall k ts d v d' v', all (k, ts, d, v) -> all (k, ts, d', v') -> d = d' /\ v = v'.

Lemma stored_read_unique all k o o' : functional all -> stored_read all k o -> stored_read all k o' -> o = o'.
Proof.
  intros Hf. destruct o as [v|], o' as [v'|]; cbn [stored_read]; [| | |done].
  - intros (ts & Ha & Hm) (ts' & Ha' & Hm'). pose proof (Hm _ Ha' eq_refl). pose proof (Hm' _ Ha eq_refl). unfold c_ts in *. cbn [fst snd] in *.
    assert (ts = ts') as <- by lia. by destruct (Hf _ _ _ _ _ _ Ha Ha') as [_ <-].
  - intros (ts & Ha & Hm) [Hno|(ts' & v' & Ha' & Hm')]; [by destruct (Hno _ Ha)|].
    pose proof (Hm _ Ha' eq_refl). pose proof (Hm' _ Ha eq_refl). unfold c_ts in *. cbn [fst snd] in *.
    assert (ts = ts') as <- by lia. by destruct (Hf _ _ _ _ _ _ Ha Ha').
  - intros [Hno|(ts' & v & Ha' & Hm')] (ts & Ha & Hm); [by destruct (Hno _ Ha)|].
    pose proof (Hm _ Ha' eq_refl). pose proof (Hm' _ Ha eq_refl). unfold c_ts in *. cbn [fst snd] in *.
    assert (ts = ts') as <- by lia. by destruct (Hf _ _ _ _ _ _ Ha Ha').
Qed.

Lemma stored_read_ext (all all' : candidate bytes -> Prop) k o : (forall c, c_user c = k -> all c <-> all' c) ->
  stored_read all k o -> stored_read all' k o.
Proof.
  intros He. destruct o as [v|]; cbn [stored_read].
  - intros (ts & Ha & Hm). exists ts. split; [by apply He|]. intros c Hc Hk. apply Hm; [by apply He|done].
  - intros [Hno|(ts & v & Ha & Hm)]; [left; intros c Hc Hk; apply (Hno c); [by apply He|done]|right].
    exists ts, v. split; [by apply He|]. intros c Hc Hk. apply Hm; [by apply He|done].
Qed.

(** ** Internal keys *)

Lemma le_bytes_add n m z : le_bytes (n + m) z = le_bytes n z ++ le_bytes m (z / 256 ^ Z.of_nat n).
Proof.
  revert z. induction n as [|n IH]; intros z; [cbn [Nat.add le_bytes app]; by rewrite Z.div_1_r|].
  cbn [Nat.add le_bytes app]. rewrite IH, Z.div_div, Nat2Z.inj_succ, Z.pow_succ_r by lia. done.
Qed.

(** Below 2^56 the timestamp of an internal key starts with a byte 255. *)
Lemma internal_has_ff k ts : 0 <= ts < 2 ^ 56 -> xff ∈ encode_internal_key k ts.
Proof.
  intros Hts. unfold encode_internal_key. apply elem_of_app. right. unfold be_bytes, not64. apply list_elem_of_In, in_rev.
  rewrite rev_involutive. change 8%nat with (7 + 1)%nat. rewrite le_bytes_add. apply in_or_app. right.
  assert ((u64_max - ts) / 256 ^ Z.of_nat 7 = 255) as ->.
  { change u64_max with (2 ^ 64 - 1). symmetry. apply (Z.div_unique _ _ _ (2 ^ 56 - 1 - ts)); lia. }
  by left.
Qed.

Lemma version_of_encoded k v raw : k <> [] -> version_wf v -> encode_version v = Ok raw ->
  version_of (encode_internal_key k (v_commit_ts v), raw) = Some (k, v_commit_ts v, v_deleted v, v_value v).
Proof.
  intros Hk Hwf E. unfold version_of. cbn [fst snd].
  assert (starts_with MAGIC raw = true) as -> by (apply encode_version_ok in E as [_ ->]; apply starts_with_spec; by eexists).
  assert ((len (encode_internal_key k (v_commit_ts v)) >? 8) = true) as ->.
  { rewrite Z.gtb_lt. unfold len. rewrite length_encode_internal_key. destruct k; [done|]. cbn [length]. lia. }
  cbn [andb]. pose proof (decode_encode_version v raw [] Hwf E) as D. rewrite app_nil_r in D.
  destruct (decode_version_ref_agrees raw) as [_ ->]. rewrite D. by rewrite decode_encode_internal_key.
Qed.

Section lsm_rows.
Context (crc32c : bytes -> Z) (crc32c_u32 : forall l, 0 <= crc32c l < 2 ^ 32).
Context (sizing : Z -> Z * Z) (sizing_clamped : sizing_ok sizing).
Context (sort : list (candidate bytes) -> list (candidate bytes)) (sort_sorts : sorts sort).
Context (sort_keys : list (candidate unit) -> list (candidate unit)).

Definition lsm_entries (l : LsmTree) : list (bytes * bytes) :=
  or_nil (tables_entries crc32c l None (l_level1 l ++ l_level0 l)) ++ MemTable_iter (l_active l).
(** The newest version of every user key, if it is live *)
Definition lsm_content (l : LsmTree) : gmap bytes bytes :=
  list_to_map (live_of (dedup_runs None (stable_sort (omap version_of (lsm_entries l))))).

Lemma all_entries l paths ms : tables crc32c (l_sst l) paths ms ->
  exists es, tables_entries crc32c l None paths = Ok es /\ forall e, e ∈ es <-> some_has ms e.
Proof.
  induction 1 as [|p m paths ms (file & Hf & (r & Hr & _ & Hs & _) & _) Ht (es & IH & Hes)].
  { exists []. split; [done|]. intros e. split; [by intros ?%elem_of_nil|by intros (? & ?%elem_of_nil & _)]. }
  cbn [tables_entries]. unfold table_entries, open_table. rewrite Hf. cbn [ok_or obind]. rewrite Hr, Hs, flatten_ok, IH. cbn [obind].
  eexists. split; [done|]. intros [k v]. rewrite elem_of_app, Hes, elem_of_btree_iter. unfold some_has. cbn [fst snd]. split.
  - intros [Hm|(m' & Hm' & Hl)]; [exists m; split; [left|done]|exists m'; split; [by right|done]].
  - intros (m' & [->|Hm']%elem_of_cons & Hl); [by left|right; by exists m'].
Qed.

Lemma elem_of_entries l ms : tables crc32c (l_sst l) (l_level1 l ++ l_level0 l) ms ->
  forall e, e ∈ lsm_entries l <-> some_has (mem_map (l_active l) :: ms) e.
Proof.
  intros Ht [k v]. unfold lsm_entries. destruct (all_entries l _ ms Ht) as (es & -> & Hes). cbn [or_nil].
  unfold MemTable_iter. rewrite elem_of_app, Hes, elem_of_btree_iter. unfold some_has. cbn [fst snd]. split.
  - intros [(m & Hm & Hl)|Hl]; [exists m; split; [by right|done]|exists (mem_map (l_active l)); split; [left|done]].
  - intros (m & [->|Hm]%elem_of_cons & Hl); [by right|left; by exists m].
Qed.

Lemma content_reads l ms k : tables crc32c (l_sst l) (l_level1 l ++ l_level0 l) ms ->
  stored_read (versions (mem_map (l_active l) :: ms)) k (lsm_content l !! k).
Proof.
  intros Ht. set (cs := dedup_runs None (stable_sort (omap version_of (lsm_entries l)))).
  assert (newest_per_key (versions (mem_map (l_active l) :: ms)) cs) as Hn.
  { destruct (stable_sort_sorts (omap version_of (lsm_entries l))) as [Hp Hs].
    eapply newest_per_key_ext; [|apply dedup_runs_spec; [exact Hs|done]]. intros c. cbn beta. rewrite Hp, list_elem_of_omap.
    unfold versions. setoid_rewrite <-(elem_of_entries l ms Ht). naive_solver. }
  apply (newest_stored_read _ cs k _ Hn). intros v. change (live_pairs cs) with (live_of cs). symmetry.
  apply (sorted_map_lookup (live_of cs) k v). apply live_sorted. apply Hn.
Qed.

(** *** The trees that statements keep *)

(** An entry of a version not later than [ts], under its internal key *)
Definition versioned (ts : Z) (e : bytes * bytes) : Prop := exists k v, k <> [] /\ e.1 = encode_internal_key k (v_commit_ts v) /\
  encode_version v = Ok e.2 /\ version_wf v /\ v_commit_ts v <= ts.
(** A plain entry under a key of the engine's own: no version *)
Definition own_plain (e : bytes * bytes) : Prop := own_key e.1 /\ xff ∉ e.1 /\ version_of e = None.
Definition sizes (ms : list (gmap bytes bytes)) : Z := Z.of_nat (sum_list_with size ms).

(** The tables of the levels read as [ms0] and [ms1]; every entry is a version not later
    than [ts] or a plain one of the engine's own; one internal key has one version; and
    there is room for [room] more entries and timestamps. *)
Record rows_in (ts room : Z) (l : LsmTree) (ms0 ms1 : list (gmap bytes bytes)) : Prop := {
  ri_wf : mem_wf (l_active l);
  ri_level0 : tables crc32c (l_sst l) (l_level0 l) ms0;
  ri_level1 : tables crc32c (l_sst l) (l_level1 l) ms1;
  ri_paths : NoDup (l_level0 l ++ l_level1 l);
  ri_entries : forall e, some_has (mem_map (l_active l) :: ms0 ++ ms1) e -> entry_fits e /\ (versioned ts e \/ own_plain e);
  ri_agree : forall k r r', some_has (mem_map (l_active l) :: ms0 ++ ms1) (k, r) ->
    some_has (mem_map (l_active l) :: ms0 ++ ms1) (k, r') -> version_of (k, r) <> None -> r = r';
  ri_size : sizes (mem_map (l_active l) :: ms0 ++ ms1) + room < 2 ^ 29;
  ri_clock : 0 <= ts /\ 0 <= room /\ ts + room < 2 ^ 56;
}.
Definition lsm_ok (ts room : Z) (l : LsmTree) : Prop := exists ms0 ms1, rows_in ts room l ms0 ms1.

(** What the levels hold, as the versions of one list of tables *)
Definition held (l : LsmTree) (ms0 ms1 : list (gmap bytes bytes)) : candidate bytes -> Prop := versions (mem_map (l_active l) :: ms0 ++ ms1).

Lemma some_has_perm ms ms' e : ms ≡ₚ ms' -> some_has ms e -> some_has ms' e.
Proof. intros Hp (m & Hm & Hl). exists m. split; [by rewrite <-Hp|done]. Qed.
Lemma versions_perm ms ms' c : ms ≡ₚ ms' -> versions ms c <-> versions ms' c.
Proof. intros Hp. split; intros (e & He & Hv); exists e; (split; [by eapply some_has_perm|done]). Qed.

Lemma tables_app dir ps ps' ms ms' : tables crc32c dir ps ms -> tables crc32c dir ps' ms' -> tables crc32c dir (ps ++ ps') (ms ++ ms').
Proof. apply Forall2_app. Qed.
Lemma tables_rev dir ps ms : tables crc32c dir ps ms -> tables crc32c dir (rev ps) (rev ms).
Proof. induction 1 as [|p m ps ms Hp Ht IH]; [constructor|]. cbn [rev]. apply tables_app; [done|]. by constructor. Qed.

Lemma versioned_version ts e : versioned ts e -> exists c, version_of e = Some c.
Proof. destruct e as [ik raw]. intros (k & v & Hk & Ek & E & Hwf & _). cbn [fst snd] in *. subst ik. rewrite (version_of_encoded k v raw) by done. eauto. Qed.

(** The entry of a version *)
Lemma version_entry ts room l ms0 ms1 e k t d v : rows_in ts room l ms0 ms1 -> some_has (mem_map (l_active l) :: ms0 ++ ms1) e ->
  version_of e = Some (k, t, d, v) ->
  k <> [] /\ e.1 = encode_internal_key k t /\ encode_version (mkVersion t v d) = Ok e.2 /\ 0 < t <= ts.
Proof.
  intros Hr He Hv. destruct (ri_entries _ _ _ _ _ Hr e He) as [_ [(k' & ver & Hk & Ek & Ev & Hwf & Hts)|(_ & _ & Hn)]]; [|congruence].
  destruct e as [ik raw], ver as [t' v' d']. cbn [fst snd v_commit_ts] in *. subst ik.
  pose proof (version_of_encoded k' (mkVersion t' v' d') raw Hk Hwf Ev) as D. cbn in D. rewrite D in Hv. injection Hv as -> -> -> ->.
  split_and!; try done; destruct Hwf; cbn in *; lia.
Qed.

Lemma held_functional ts room l ms0 ms1 : rows_in ts room l ms0 ms1 -> functional (held l ms0 ms1).
Proof.
  intros Hr k t d v d' v' (e & He & Hv) (e' & He' & Hv').
  destruct (version_entry _ _ _ _ _ _ _ _ _ _ Hr He Hv) as (_ & E1 & E2 & _), (version_entry _ _ _ _ _ _ _ _ _ _ Hr He' Hv') as (_ & E1' & E2' & _).
  destruct e as [ik raw], e' as [ik' raw']. cbn [fst snd] in *. subst ik ik'.
  assert (raw = raw') as <- by (apply (ri_agree _ _ _ _ _ Hr _ _ _ He He'); by rewrite Hv). rewrite Hv in Hv'. by injection Hv' as -> ->.
Qed.

Lemma held_content ts room l ms0 ms1 k : rows_in ts room l ms0 ms1 -> stored_read (held l ms0 ms1) k (lsm_content l !! k).
Proof.
  intros Hr. eapply stored_read_ext; [|apply (content_reads l (ms1 ++ ms0) k); apply tables_app; [apply (ri_level1 _ _ _ _ _ Hr)|apply (ri_level0 _ _ _ _ _ Hr)]].
  intros c _. apply versions_perm. by rewrite (comm (++) ms1 ms0).
Qed.

(** The content is determined by what the levels hold. *)
Lemma content_is ts room l ms0 ms1 k o : rows_in ts room l ms0 ms1 -> stored_read (held l ms0 ms1) k o -> lsm_content l !! k = o.
Proof. intros Hr Ho. eapply stored_read_unique; [by eapply held_functional|by eapply held_content|exact Ho]. Qed.

(** *** Reading one key *)

(** [b] is a newest of the versions [P] *)
Definition best_of (P : Version -> Prop) (b : option Version) : Prop :=
  match b with Some v => P v /\ forall v', P v' -> v_commit_ts v' <= v_commit_ts v | None => forall v, ~ P v end.
Lemma best_ext (P Q : Version -> Prop) b : (forall v, P v <-> Q v) -> best_of P b -> best_of Q b.
Proof. intros Hpq. destruct b as [v|]; cbn; [intros [Hv Hm]; split; [by apply Hpq|]; intros v' Hv'; apply Hm; by apply Hpq|intros Hn v Hv; apply (Hn v); by apply Hpq]. Qed.

(** An entry that a read of [k] takes for a version of it *)
Definition for_key (k : bytes) (e : bytes * bytes) : Prop := decode_user_key e.1 = k \/ e.1 = k.
Definition reads_well (k : bytes) (e : bytes * bytes) : Prop := for_key k e -> exists v, decode_or_legacy e.2 = Ok v /\ 0 < v_commit_ts v <= u64_max.
Definition version_at (k : bytes) (e : bytes * bytes) (v : Version) : Prop := for_key k e /\ decode_or_legacy e.2 = Ok v.

Lemma consider_best P b v : 0 < v_commit_ts v <= u64_max -> best_of P b -> best_of (fun x => P x \/ x = v) (consider latest_view b v).
Proof.
  intros Hv Hb. unfold consider, is_visible, latest_view. cbn [snapshot_ts ReadView_new].
  rewrite (proj2 (Z.eqb_neq _ _)), Z.gtb_ltb, (proj2 (Z.ltb_ge _ _)) by lia. cbn [negb]. destruct b as [w|]; cbn [best_of] in *.
  - destruct Hb as [Hw Hm]. rewrite Z.gtb_ltb. destruct (Z.ltb_spec (v_commit_ts w) (v_commit_ts v)); cbn [best_of].
    + split; [by right|]. intros x [Hx| ->]; [apply Hm in Hx; lia|lia].
    + split; [by left|]. intros x [Hx| ->]; [by apply Hm|lia].
  - split; [by right|]. intros x [Hx| ->]; [by apply Hb in Hx|lia].
Qed.

Lemma consider_entries_best k es P b : Forall (reads_well k) es -> best_of P b ->
  exists b', consider_entries k latest_view b es = Ok b' /\ best_of (fun v => P v \/ exists e, e ∈ es /\ version_at k e v) b'.
Proof.
  intros Hes. revert P b. induction Hes as [|[ik raw] es He Hes IH]; intros P b Hb; cbn [consider_entries].
  { exists b. split; [done|]. eapply best_ext; [|exact Hb]. intros v. split; [auto|]. intros [Hv|(e & Hin & _)]; [done|by apply elem_of_nil in Hin]. }
  destruct (negb (bool_decide (decode_user_key ik = k)) && negb (bool_decide (ik = k))) eqn:E.
  - apply andb_true_iff in E as [E1%negb_true_iff%bool_decide_eq_false_1 E2%negb_true_iff%bool_decide_eq_false_1].
    destruct (IH P b Hb) as (b' & -> & Hb'). exists b'. split; [done|]. eapply best_ext; [|exact Hb']. intros v. split.
    + intros [Hv|(e & Hin & Hv)]; [auto|]. right. exists e. split; [by right|done].
    + intros [Hv|(e & [->|Hin]%elem_of_cons & Hv)]; [auto| |right; by exists e]. destruct Hv as [[?|?] _]; done.
  - assert (for_key k (ik, raw)) as Hk.
    { unfold for_key. cbn. destruct (decide (decode_user_key ik = k)); [by left|]. destruct (decide (ik = k)); [by right|].
      rewrite !bool_decide_eq_false_2 in E by done. done. }
    destruct (He Hk) as (v & Hd & Hv). cbn [snd] in Hd. rewrite Hd. cbn [obind].
    destruct (IH _ _ (consider_best P b v Hv Hb)) as (b' & -> & Hb'). exists b'. split; [done|]. eapply best_ext; [|exact Hb']. intros x. split.
    + intros [[Hx| ->]|(e & Hin & Hx)]; [auto| |right; exists e; split; [by right|done]]. right. exists (ik, raw). split; [left|done].
    + intros [Hx|(e & [->|Hin]%elem_of_cons & Hx)]; [auto| |right; by exists e]. left. right. destruct Hx as [_ Hx]. cbn in Hx. congruence.
Qed.

(** An entry for [k] is in the range that a read of [k] scans. *)
Lemma for_key_range k e : ~ all_ff k -> for_key k e -> in_range k (user_key_prefix_end k) e.
Proof.
  intros Hff Hk. apply in_range_iff. apply prefix_end_range; [done|]. unfold for_key, decode_user_key in Hk. destruct Hk as [<-|<-].
  - exists (drop (length e.1 - 8) e.1). by rewrite take_drop.
  - exists []. by rewrite app_nil_r.
Qed.

Lemma consider_range_best k m P b : ~ all_ff k -> (forall e, m !! e.1 = Some e.2 -> reads_well k e) -> best_of P b ->
  exists b', consider_entries k latest_view b (filter (in_range k (user_key_prefix_end k)) (btree_iter m)) = Ok b' /\
    best_of (fun v => P v \/ exists e, m !! e.1 = Some e.2 /\ version_at k e v) b'.
Proof.
  intros Hff Hm Hb. destruct (consider_entries_best k (filter (in_range k (user_key_prefix_end k)) (btree_iter m)) P b) as (b' & E & Hb'); [|done|].
  { apply Forall_forall. intros [x y] [_ Hin]%list_elem_of_filter. apply Hm. by apply elem_of_btree_iter. }
  exists b'. split; [done|]. eapply best_ext; [|exact Hb']. intros v. split; (intros [Hp|([x y] & Hin & Hv)]; [by left|right]); exists (x, y); (split; [|done]).
  - apply list_elem_of_filter in Hin as [_ Hin]. by apply elem_of_btree_iter in Hin.
  - apply list_elem_of_filter. split; [by apply for_key_range, Hv|]. by apply elem_of_btree_iter.
Qed.

Lemma consider_tables_best l k paths ms P b : ~ all_ff k -> tables crc32c (l_sst l) paths ms ->
  (forall e, some_has ms e -> reads_well k e) -> best_of P b ->
  exists b', consider_tables crc32c l k k (user_key_prefix_end k) latest_view b paths = Ok b' /\
    best_of (fun v => P v \/ exists e, some_has ms e /\ version_at k e v) b'.
Proof.
  intros Hff Ht. revert P b. induction Ht as [|p m paths ms (file & Hf & (r & Hr & _ & _ & Hs & _) & _) Ht IH]; intros P b Hms Hb; cbn [consider_tables].
  { exists b. split; [done|]. eapply best_ext; [|exact Hb]. intros v. split; [auto|]. intros [Hv|(e & (m & Hin & _) & _)]; [done|by apply elem_of_nil in Hin]. }
  unfold open_table. rewrite Hf. cbn [ok_or obind]. rewrite Hr. cbn [obind]. rewrite Hs, flatten_ok.
  destruct (consider_range_best k m P b) as (b1 & -> & Hb1); [done| |done|].
  { intros e He. apply Hms. exists m. split; [left|done]. }
  cbn [obind]. destruct (IH _ _ ltac:(intros e (m' & Hin & He); apply Hms; exists m'; split; [by right|done]) Hb1) as (b' & -> & Hb').
  exists b'. split; [done|]. eapply best_ext; [|exact Hb']. intros v. split.
  - intros [[Hv|(e & He & Hv)]|(e & (m' & Hin & He) & Hv)]; [auto|right; exists e; split; [exists m; split; [left|done]|done]|].
    right. exists e. split; [exists m'; split; [by right|done]|done].
  - intros [Hv|(e & (m' & [->|Hin]%elem_of_cons & He) & Hv)]; [auto|left; right; by exists e|]. right. exists e. split; [by exists m'|done].
Qed.

Lemma decode_or_legacy_encoded v raw : version_wf v -> encode_version v = Ok raw -> decode_or_legacy raw = Ok v.
Proof.
  intros Hwf E. unfold decode_or_legacy. pose proof (decode_encode_version v raw [] Hwf E) as D. rewrite app_nil_r in D.
  assert (starts_with MAGIC raw = true) as ->; [|done]. apply encode_version_ok in E as [_ ->]. apply starts_with_spec. by eexists.
Qed.

(** What a read of [k] meets: the versions of [k] and nothing else *)
Lemma entry_for_key ts room l ms0 ms1 k e : rows_in ts room l ms0 ms1 -> some_has (mem_map (l_active l) :: ms0 ++ ms1) e ->
  k <> [] -> ~ own_key k -> xff ∉ k -> for_key k e ->
  exists v, decode_or_legacy e.2 = Ok v /\ 0 < v_commit_ts v <= ts /\ version_of e = Some (k, v_commit_ts v, v_deleted v, v_value v).
Proof.
  intros Hr He Hk Ho Hf Hfor. destruct (ri_entries _ _ _ _ _ Hr e He) as [_ [(k' & v & Hk' & Ek & Ev & Hwf & Hts)|(Hown & _ & _)]].
  - destruct e as [ik raw]. cbn [fst snd] in *. subst ik. pose proof (ri_clock _ _ _ _ _ Hr) as Hc.
    destruct Hfor as [Hd|Hd]; cbn [fst] in Hd.
    + rewrite decode_encode_internal_key in Hd. subst k'. exists v. split_and!; [by apply decode_or_legacy_encoded|apply Hwf|done|by apply version_of_encoded].
    + destruct Hf. rewrite <-Hd. apply internal_has_ff. destruct Hwf. lia.
  - destruct Ho. destruct Hfor as [Hd|<-]; [|done]. unfold decode_user_key in Hd. unfold own_key in *. rewrite <-Hd.
    destruct e.1 as [|b s]; [by rewrite take_nil in Hd; subst k|]. destruct (length (b :: s) - 8)%nat; [by subst k|done].
Qed.

Lemma version_reads ts room l ms0 ms1 k e t d v : rows_in ts room l ms0 ms1 -> some_has (mem_map (l_active l) :: ms0 ++ ms1) e ->
  version_of e = Some (k, t, d, v) -> version_at k e (mkVersion t v d).
Proof.
  intros Hr He Hv. destruct (ri_entries _ _ _ _ _ Hr e He) as [_ [(k' & ver & Hk & Ek & Ev & Hwf & Hts)|(_ & _ & Hn)]]; [|congruence].
  destruct e as [ik raw]. cbn [fst snd] in *. subst ik. rewrite (version_of_encoded k' ver raw Hk Hwf Ev) in Hv. injection Hv as <- <- <- <-.
  split; [left; cbn [fst]; by apply decode_encode_internal_key|]. cbn [snd]. rewrite (decode_or_legacy_encoded ver raw Hwf Ev). by destruct ver.
Qed.

Lemma best_reads ts room l ms0 ms1 k b : rows_in ts room l ms0 ms1 -> k <> [] -> ~ own_key k -> xff ∉ k ->
  best_of (fun v => exists e, some_has (mem_map (l_active l) :: ms0 ++ ms1) e /\ version_at k e v) b ->
  stored_read (held l ms0 ms1) k (match b with Some ver => if v_deleted ver then None else Some (v_value ver) | None => None end).
Proof.
  intros Hr Hk Ho Hf.
  assert (forall c, held l ms0 ms1 c -> c_user c = k -> exists e, some_has (mem_map (l_active l) :: ms0 ++ ms1) e /\
    version_at k e (mkVersion (c_ts c) c.2 c.1.2)) as Hheld.
  { intros [[[k' t] d] v] (e & He & Hv). unfold c_user, c_ts. cbn. intros ->. exists e. split; [done|]. by eapply version_reads. }
  destruct b as [ver|]; cbn [best_of].
  - intros ((e & He & Hfor & Hd) & Hm). destruct (entry_for_key _ _ _ _ _ k e Hr He Hk Ho Hf Hfor) as (v & Hd' & _ & Hv).
    rewrite Hd in Hd'. injection Hd' as <-.
    assert (forall c, held l ms0 ms1 c -> c_user c = k -> c_ts c <= v_commit_ts ver) as Hmax.
    { intros c Hc Hu. destruct (Hheld c Hc Hu) as (e' & He' & Hat). apply (Hm (mkVersion (c_ts c) c.2 c.1.2)). by exists e'. }
    destruct (v_deleted ver) eqn:Ed; cbn [stored_read].
    + right. exists (v_commit_ts ver), (v_value ver). split; [by exists e|done].
    + exists (v_commit_ts ver). split; [by exists e|done].
  - intros Hn. left. intros c Hc Hu. destruct (Hheld c Hc Hu) as (e & He & Hat). apply (Hn (mkVersion (c_ts c) c.2 c.1.2)). by exists e.
Qed.

Lemma not_ff k : k <> [] -> xff ∉ k -> ~ all_ff k.
Proof.
  intros Hk Hf Ha. destruct k as [|b k]; [done|]. apply Forall_inv in Ha. destruct Hf.
  assert (b = xff) as ->; [|left]. apply b2z_inj. exact Ha.
Qed.

Lemma no_raw ts room l ms0 ms1 k v : rows_in ts room l ms0 ms1 -> ~ own_key k -> xff ∉ k -> ~ some_has (mem_map (l_active l) :: ms0 ++ ms1) (k, v).
Proof.
  intros Hr Ho Hf He. destruct (ri_entries _ _ _ _ _ Hr _ He) as [_ [(k' & ver & Hk & Ek & Ev & Hwf & Hts)|(Hown & _ & _)]]; [|done].
  cbn [fst] in Ek. destruct Hf. rewrite Ek. pose proof (ri_clock _ _ _ _ _ Hr). destruct Hwf. apply internal_has_ff. lia.
Qed.

Lemma first_of_none ms k : (forall v, ~ some_has ms (k, v)) -> first_of ms k = None.
Proof.
  induction ms as [|m ms IH]; intros Hn; [done|]. cbn [first_of]. destruct (m !! k) as [v|] eqn:E.
  - destruct (Hn v). exists m. split; [left|done].
  - apply IH. intros v (m' & Hm' & Hl). apply (Hn v). exists m'. split; [by right|done].
Qed.

Lemma lsm_get_law ts room l ms0 ms1 k : rows_in ts room l ms0 ms1 -> k <> [] -> ~ own_key k -> xff ∉ k ->
  LsmTree_get crc32c l k = Ok (lsm_content l !! k).
Proof.
  intros Hr Hk Ho Hf. pose proof (not_ff k Hk Hf) as Hff. set (ms := mem_map (l_active l) :: ms0 ++ ms1).
  assert (tables crc32c (l_sst l) (table_paths l) (rev ms0 ++ rev ms1)) as Ht.
  { apply tables_app; apply tables_rev; [apply (ri_level0 _ _ _ _ _ Hr)|apply (ri_level1 _ _ _ _ _ Hr)]. }
  assert (rev ms0 ++ rev ms1 ≡ₚ ms0 ++ ms1) as Hp by (by rewrite <-!Permutation_rev).
  assert (forall e, some_has ms e -> reads_well k e) as Hwell.
  { intros e He Hfor. destruct (entry_for_key _ _ _ _ _ k e Hr He Hk Ho Hf Hfor) as (v & Hd & Hv & _). exists v. split; [done|].
    pose proof (ri_clock _ _ _ _ _ Hr). change u64_max with (2 ^ 64 - 1). lia. }
  assert (mem_map (l_active l) !! k = None) as Ha.
  { destruct (mem_map (l_active l) !! k) as [v|] eqn:E; [|done]. destruct (no_raw _ _ _ _ _ k v Hr Ho Hf). exists (mem_map (l_active l)). split; [left|done]. }
  unfold LsmTree_get. rewrite MemTable_get_ok, Ha by done. cbn [obind]. unfold get_below, find_visible_version.
  rewrite memtable_range_plain by done. cbn [obind].
  destruct (consider_range_best k (mem_map (l_active l)) (fun _ => False) None Hff) as (b1 & -> & Hb1); [|by intros v []|].
  { intros e He. apply Hwell. exists (mem_map (l_active l)). split; [left|done]. }
  cbn [obind]. fold (table_paths l).
  assert (forall e, some_has (rev ms0 ++ rev ms1) e -> reads_well k e) as Hwell'.
  { intros e He. apply Hwell. destruct He as (m & Hm & Hl). exists m. split; [right; by rewrite <-Hp|done]. }
  destruct (consider_tables_best l k _ _ _ b1 Hff Ht Hwell' Hb1) as (b & -> & Hb).
  cbn [obind]. assert (stored_read (held l ms0 ms1) k (match b with Some ver => if v_deleted ver then None else Some (v_value ver) | None => None end)) as Hst.
  { apply (best_reads _ _ _ _ _ _ _ Hr Hk Ho Hf). eapply best_ext; [|exact Hb]. intros v. split.
    - intros [[[]|(e & He & Hv)]|(e & (m & Hm & He) & Hv)]; exists e; (split; [|done]); [exists (mem_map (l_active l)); split; [left|done]|].
      exists m. split; [right; by rewrite <-Hp|done].
    - intros (e & (m & [->|Hm]%elem_of_cons & He) & Hv); [left; right; by exists e|right]. exists e. split; [exists m; split; [by rewrite Hp|done]|done]. }
  rewrite (content_is _ _ _ _ _ _ _ Hr Hst). destruct b as [ver|]; [done|]. fold (table_paths l). rewrite (get_raw_tables crc32c l k _ _ Ht).
  f_equal. apply first_of_none. intros v (m & Hm & Hl). apply (no_raw _ _ _ _ _ k v Hr Ho Hf). exists m. split; [right; by rewrite <-Hp|done].
Qed.

(** *** Scanning *)

Lemma range_not_own (p k : bytes) : ~ own_key (p ++ [zero]) -> starts_with (p ++ [zero]) k = true -> ~ own_key k.
Proof. intros Hp [s ->]%starts_with_spec. unfold own_key in *. by destruct p. Qed.

Lemma candidate_held ts room l ms0 ms1 (p : bytes) c : rows_in ts room l ms0 ms1 -> ~ own_key (p ++ [zero]) ->
  scan_candidate (fun v => v) (mem_map (l_active l) :: ms1 ++ ms0) latest_view (p ++ [zero]) (prefix_end (p ++ [zero])) c <->
  held l ms0 ms1 c /\ starts_with (p ++ [zero]) (c_user c) = true.
Proof.
  intros Hr Hp. assert (mem_map (l_active l) :: ms1 ++ ms0 ≡ₚ mem_map (l_active l) :: ms0 ++ ms1) as Hperm by (by rewrite (comm (++) ms1 ms0)). split.
  - intros (m & ik & raw & user & t & d & v & Hm & Hl & Hst & Hlo & Hhi & Hz & Hs & ->). unfold c_user. cbn [fst].
    assert (starts_with (p ++ [zero]) user = true) as Hw by (by apply zero_end_range). split; [|done].
    assert (some_has (mem_map (l_active l) :: ms0 ++ ms1) (ik, raw)) as He by (exists m; split; [by rewrite <-Hperm|done]).
    exists (ik, raw). split; [done|]. apply stores_decoded in Hst. unfold version_of. cbn [fst snd].
    destruct (starts_with MAGIC raw && (len ik >? 8)) eqn:E; [by destruct Hst as [-> ->]|]. exfalso. destruct Hst as [_ ->].
    destruct (ri_entries _ _ _ _ _ Hr _ He) as [_ [Hv|(Hown & _)]].
    + apply versioned_version in Hv as [c Hc]. unfold version_of in Hc. cbn [fst snd] in Hc. by rewrite E in Hc.
    + by apply (range_not_own p ik).
  - intros [([ik raw] & He & Hv) Hw]. destruct c as [[[user t] d] v]. unfold c_user in Hw. cbn [fst] in Hw.
    destruct (version_entry _ _ _ _ _ _ _ _ _ _ Hr He Hv) as (_ & _ & _ & Ht). destruct He as (m & Hm & Hl). cbn [fst snd] in Hl.
    apply zero_end_range in Hw as [Hlo Hhi]. exists m, ik, raw, user, t, d, v. pose proof (ri_clock _ _ _ _ _ Hr).
    split_and!; [by rewrite Hperm|done| |done|done|lia| |done].
    + apply stores_decoded. unfold version_of in Hv. cbn [fst snd] in Hv. destruct (_ && _); [|done].
      destruct (decode_version_ref raw) as [[[[t' d'] v']|]|x|]; [|done..]. by injection Hv as -> -> -> ->.
    + cbn. change u64_max with (2 ^ 64 - 1). lia.
Qed.

Lemma lsm_range_law ts room l ms0 ms1 (p : bytes) : rows_in ts room l ms0 ms1 -> ~ own_key (p ++ [zero]) ->
  or_nil (LsmTree_range crc32c sort l (p ++ [zero]) (prefix_end (p ++ [zero]))) =
  filter (fun e => bytes_ltb e.1 (p ++ [zero]) = false /\ bytes_lt e.1 (prefix_end (p ++ [zero]))) (btree_iter (lsm_content l)).
Proof.
  intros Hr Hp. set (all := scan_candidate (fun v => v) (mem_map (l_active l) :: ms1 ++ ms0) latest_view (p ++ [zero]) (prefix_end (p ++ [zero]))).
  destruct (scan_newest crc32c (fun v => v) sort sort_sorts l (ms1 ++ ms0) latest_view (p ++ [zero]) (prefix_end (p ++ [zero]))) as (cs & Ecs & Hcs).
  { apply (ri_wf _ _ _ _ _ Hr). }
  { apply tables_app; [apply (ri_level1 _ _ _ _ _ Hr)|apply (ri_level0 _ _ _ _ _ Hr)]. }
  { rewrite prefix_end_zero. by destruct p. }
  { rewrite prefix_end_zero. apply bytes_lt_le. by apply bytes_lt_app. }
  unfold LsmTree_range, range_visible. rewrite Ecs. cbn [obind or_nil]. rewrite <-btree_iter_filter. symmetry.
  pose proof (live_pairs_sorted cs (proj1 Hcs)) as Hsorted.
  assert (forall k, starts_with (p ++ [zero]) k = true -> lsm_content l !! k = (list_to_map (live_pairs cs) : gmap bytes bytes) !! k) as Hmap.
  { intros k Hk. apply (content_is _ _ _ _ _ _ _ Hr). apply (stored_read_ext all).
    - intros c <-. unfold all. rewrite candidate_held by done. tauto.
    - apply (newest_stored_read all cs k _ Hcs). intros v. symmetry. by apply sorted_map_lookup. }
  apply btree_iter_unique; [done|]. intros k v. rewrite map_lookup_filter_Some. cbn [fst].
  assert (bytes_ltb k (p ++ [zero]) = false /\ bytes_lt k (prefix_end (p ++ [zero])) <-> starts_with (p ++ [zero]) k = true) as ->.
  { rewrite <-zero_end_range. by rewrite bytes_leb_ltb, negb_true_iff. }
  split.
  - intros Hin. destruct (live_pairs_candidate _ _ _ _ Hcs Hin) as [t Hc]. apply (candidate_held _ _ _ _ _ _ _ Hr Hp) in Hc as [_ Hk].
    unfold c_user in Hk. cbn [fst] in Hk. split; [|done]. rewrite Hmap by done. by apply sorted_map_lookup.
  - intros [Hv Hk]. rewrite Hmap in Hv by done. by apply sorted_map_lookup in Hv.
Qed.

(** *** Writing *)

(** Steps that leave the memtable, the levels and the table files alone *)
Definition same_rows (l l' : LsmTree) : Prop :=
  l_active l' = l_active l /\ l_level0 l' = l_level0 l /\ l_level1 l' = l_level1 l /\ l_sst l' = l_sst l.
Definition keeps_rows {A : Type} (p : LM A) : Prop := forall l a l', p l = (Ok a, l') -> same_rows l l'.

Lemma rows_bind {A B : Type} (p : LM A) (q : A -> LM B) : keeps_rows p -> (forall a, keeps_rows (q a)) -> keeps_rows (lbind p q).
Proof.
  intros Hp Hq l b l'. unfold lbind. destruct (p l) as [[a|x|] l1] eqn:E; [|done..]. intros E'. apply Hp in E as (H1 & H2 & H3 & H4).
  apply Hq in E' as (H1' & H2' & H3' & H4'). repeat split; congruence.
Qed.
Lemma rows_modify f : (forall l, same_rows l (f l)) -> keeps_rows (lmodify f).
Proof. intros Hf l [] l' [= <-]. apply Hf. Qed.
Lemma rows_lift {A : Type} (o : outcome StorageError A) : keeps_rows (llift o).
Proof. intros l a l' [= _ <-]. done. Qed.
Lemma rows_get : keeps_rows lget.
Proof. intros l a l' [= _ <-]. done. Qed.
Lemma rows_ret {A : Type} (a : A) : keeps_rows (lret a).
Proof. intros l b l' [= _ <-]. done. Qed.
Ltac keep_rows := repeat first [apply rows_get | apply rows_lift | apply rows_ret | apply rows_modify; by intros |
  apply rows_bind; [|intros ?] | case_match].
Lemma rows_log_write e : keeps_rows (log_write e).
Proof. unfold log_write, lwal, maybe_sync_wal, LsmTree_sync, lwal. keep_rows. Qed.
Lemma rows_gate : keeps_rows lsm_gate_write.
Proof. unfold lsm_gate_write. keep_rows. Qed.
Lemma rows_manifest : keeps_rows persist_manifest.
Proof. unfold persist_manifest. keep_rows. Qed.
Lemma rows_truncate : keeps_rows flush_truncate_wal.
Proof. unfold flush_truncate_wal. keep_rows. Qed.

Lemma rows_in_same ts room l l' ms0 ms1 : same_rows l l' -> rows_in ts room l ms0 ms1 -> rows_in ts room l' ms0 ms1.
Proof. intros (H1 & H2 & H3 & H4) [? ? ? ? ? ? ? ?]. split; rewrite ?H1, ?H2, ?H3, ?H4; done. Qed.
Lemma held_same l l' ms0 ms1 c : same_rows l l' -> held l' ms0 ms1 c <-> held l ms0 ms1 c.
Proof. intros (H1 & _). unfold held. by rewrite H1. Qed.

(** A tree with the same tables and another memtable *)
Lemma some_has_insert m ms k v e : some_has (<[k := v]> m :: ms) e -> e = (k, v) \/ some_has (m :: ms) e /\ (e.1 = k -> some_has ms e).
Proof.
  intros (m' & [->|Hm]%elem_of_cons & Hl).
  - apply lookup_insert_Some in Hl as [[Ek Ev]|[Hne Hl]]; [left; destruct e; cbn in *; congruence|right].
    split; [exists m; split; [left|done]|]. congruence.
  - right. split; [exists m'; split; [by right|done]|]. intros _. by exists m'.
Qed.
Lemma some_has_cons m ms e : some_has ms e -> some_has (m :: ms) e.
Proof. intros (m' & Hm & Hl). exists m'. split; [by right|done]. Qed.

Lemma insert_rows ts ts' room l ms0 ms1 k v t : rows_in ts room l ms0 ms1 -> 1 <= room -> ts <= ts' -> ts' + (room - 1) < 2 ^ 56 ->
  entry_fits (k, v) -> versioned ts' (k, v) \/ own_plain (k, v) ->
  (forall r, some_has (mem_map (l_active l) :: ms0 ++ ms1) (k, r) -> version_of (k, r) = None /\ version_of (k, v) = None) ->
  mem_wf t -> mem_map t = <[k := v]> (mem_map (l_active l)) ->
  rows_in ts' (room - 1) (set_memtable t l) ms0 ms1 /\
  forall c, held (set_memtable t l) ms0 ms1 c <-> held l ms0 ms1 c \/ version_of (k, v) = Some c.
Proof.
  intros [Hwf Ht0 Ht1 Hnd Hes Hag Hsz Hcl] Hroom Hts Hclock Hfit Hkv Hold Hwt Hmt. split; [split; lsm_fields; rewrite ?Hmt; try done|].
  - intros e [->|[He _]]%some_has_insert; [done|]. destruct (Hes e He) as [Hf [(k' & ver & Hk' & Ek & Ev & Hw & Hle)|Hown]]; (split; [done|]); [left|by right].
    exists k', ver. split_and!; try done. lia.
  - intros x r r' Hr Hr' Hv. apply some_has_insert in Hr as [E|[Hr Hr2]], Hr' as [E'|[Hr' Hr2']].
    + congruence.
    + injection E as -> ->. apply Hold in Hr'. destruct Hr' as [_ ?]. congruence.
    + injection E' as -> ->. apply Hold in Hr as [? _]. congruence.
    + by eapply Hag.
  - unfold sizes in *. cbn [sum_list_with] in *. rewrite map_size_insert. destruct (mem_map (l_active l) !! k); cbn [id]; lia.
  - lia.
  - intros c. unfold held, versions. lsm_fields. rewrite Hmt. split.
    + intros (e & [->|[He _]]%some_has_insert & Hv); [by right|left; by exists e].
    + intros [(e & He & Hv)|Hv]; [|exists (k, v); split; [|done]; exists (<[k := v]> (mem_map (l_active l))); split; [left|by rewrite lookup_insert_eq]].
      exists e. split; [|done]. destruct e as [x r]. destruct (decide (x = k)) as [->|Hne]; [apply Hold in He as [? _]; congruence|].
      destruct He as (m & [->|Hm]%elem_of_cons & Hl); [exists (<[k := v]> (mem_map (l_active l))); split; [left|]|exists m; split; [by right|done]].
      cbn [fst snd] in *. by rewrite lookup_insert_ne.
Qed.

(** Tables of these entries fit the format. *)
Lemma total_bytes_bound (m : gmap bytes bytes) : (forall e, m !! e.1 = Some e.2 -> entry_fits e) -> total_bytes m <= Z.of_nat (size m) * 2 ^ 32.
Proof.
  induction m as [|k v m Hk IH] using map_ind; intros Hf; [done|].
  rewrite map_size_insert_None, total_bytes_insert by done.
  assert (total_bytes m <= Z.of_nat (size m) * 2 ^ 32).
  { apply IH. intros e He. apply Hf. rewrite lookup_insert_ne; [done|]. intros Ek. congruence. }
  destruct (Hf (k, v)) as [_ Hb]; [by rewrite lookup_insert_eq|]. unfold entry_bytes. cbn [fst snd] in Hb. lia.
Qed.
Lemma fits_from t : (forall e, mem_map t !! e.1 = Some e.2 -> entry_fits e) -> Z.of_nat (size (mem_map t)) < 2 ^ 29 -> table_fits t.
Proof.
  intros Hf Hs. pose proof (total_bytes_bound _ Hf). split_and!; [|unfold MemTable_len; lia|lia].
  apply Forall_forall. intros [k v] Hin%elem_of_btree_iter. by apply Hf.
Qed.

Lemma flush_rows ts room l ms0 ms1 l' : rows_in ts room l ms0 ms1 -> flush_active crc32c sizing l = (Ok tt, l') ->
  exists ms0', rows_in ts room l' ms0' ms1 /\ forall c, held l' ms0' ms1 c <-> held l ms0 ms1 c.
Proof.
  intros Hr E. unfold flush_active, lbind at 1 2, lget, lmodify in E. unfold MemTable_is_empty in E. case_bool_decide as Hem.
  - injection E as <-. exists ms0. assert (mem_map MemTable_new = mem_map (l_active l)) as Em by done.
    split; [|intros c; unfold held; lsm_fields; by rewrite Em].
    destruct Hr as [? ? ? ? ? ? ? ?]. split; lsm_fields; rewrite ?Em; done.
  - assert (forall e, mem_map (l_active l) !! e.1 = Some e.2 -> entry_fits e) as Hf.
    { intros e He. apply (ri_entries _ _ _ _ _ Hr). exists (mem_map (l_active l)). split; [left|done]. }
    pose proof (ri_size _ _ _ _ _ Hr) as Hsz. pose proof (ri_clock _ _ _ _ _ Hr) as Hcl. unfold sizes in Hsz. cbn [sum_list_with] in Hsz.
    destruct (written_reads_as crc32c sizing (l_active l) crc32c_u32 sizing_clamped) as (file & Hw & Hread); [apply fits_from; [done|lia]|].
    unfold lbind at 1, flush_write, lbind at 1 2 3, lget, llift, lmodify in E. cbn [l_sst set_memtable] in E. rewrite Hw in E.
    match type of E with lbind _ _ ?l2 = _ => set (l1 := l2) in E end.
    apply (rows_bind _ _ rows_truncate (fun _ => rows_manifest)) in E.
    exists (ms0 ++ [mem_map (l_active l)]).
    assert (mem_map (l_active l1) :: (ms0 ++ [mem_map (l_active l)]) ++ ms1 ≡ₚ ∅ :: mem_map (l_active l) :: ms0 ++ ms1) as Hp.
    { unfold l1. lsm_fields. change (mem_map MemTable_new) with (∅ : gmap bytes bytes). constructor. rewrite <-(assoc_L (++)). symmetry. apply Permutation_middle. }
    assert (forall e, some_has (mem_map (l_active l1) :: (ms0 ++ [mem_map (l_active l)]) ++ ms1) e <-> some_has (mem_map (l_active l) :: ms0 ++ ms1) e) as Hhas.
    { intros e. split.
      - intros He. apply (some_has_perm _ _ _ Hp) in He as (m & [->|Hm]%elem_of_cons & Hl); [by rewrite lookup_empty in Hl|by exists m].
      - intros He. apply (some_has_perm _ _ _ (symmetry Hp)). by apply some_has_cons. }
    split.
    + apply (rows_in_same ts room l1); [done|]. destruct Hr as [Hwf Ht0 Ht1 Hnd Hes Hag _ _].
      pose proof (alloc_fresh (l_sst l) 0) as Hfresh. assert (alloc_sst_path (l_sst l) 0 ∉ l_level0 l ++ l_level1 l) as Hnin.
      { intros [Hin|Hin]%elem_of_app; apply list_elem_of_lookup_1 in Hin as [i Hi];
          [destruct (Forall2_lookup_l _ _ _ _ _ Ht0 Hi) as (m & _ & f & Hf' & _)|destruct (Forall2_lookup_l _ _ _ _ _ Ht1 Hi) as (m & _ & f & Hf' & _)]; congruence. }
      split.
      * done.
      * unfold l1. lsm_fields. apply tables_app; [by apply tables_insert|]. constructor; [|constructor]. exists file.
        rewrite lookup_insert_eq. split; [done|]. split; [done|apply Hwf].
      * unfold l1. lsm_fields. by apply tables_insert.
      * unfold l1. lsm_fields. rewrite <-(assoc_L (++)). apply NoDup_app. apply NoDup_app in Hnd as (N1 & N2 & N3). split_and!; [done| |].
        -- intros x Hx. cbn [app]. apply not_elem_of_cons. split; [|by apply N2]. intros ->. apply Hnin. apply elem_of_app. by left.
        -- cbn [app]. constructor; [|done]. intros Hx. apply Hnin. apply elem_of_app. by right.
      * intros e He. apply Hes. by apply Hhas.
      * intros k r r' Hr1 Hr2. apply Hag; by apply Hhas.
      * unfold sizes. rewrite Hp. cbn [sum_list_with]. rewrite map_size_empty. lia.
      * done.
    + intros c. rewrite (held_same l1 l' _ ms1 c E). unfold held, versions. split; intros (e & He & Hv); exists e; (split; [by apply Hhas|done]).
Qed.

Lemma size_le_sum (t : gmap bytes bytes) (ms : list (gmap bytes bytes)) :
  (forall k v, t !! k = Some v -> exists m, m ∈ ms /\ m !! k = Some v) -> (size t <= sum_list_with size ms)%nat.
Proof.
  revert t. induction ms as [|m ms IH]; intros t Ht; cbn [sum_list_with].
  - assert (t = ∅) as ->; [|by rewrite map_size_empty]. apply map_empty. intros k. destruct (t !! k) as [v|] eqn:E; [|done].
    apply Ht in E as (m & Hm & _). by apply elem_of_nil in Hm.
  - rewrite <-(map_filter_union_complement (fun e => m !! e.1 = Some e.2) t), map_size_disj_union by apply map_disjoint_filter_complement.
    apply Nat.add_le_mono.
    + apply map_subseteq_size. apply map_subseteq_spec. intros k v [_ Hv]%map_lookup_filter_Some. done.
    + apply IH. intros k v [Hk Hv]%map_lookup_filter_Some. destruct (Ht k v Hk) as (m' & [->|Hm]%elem_of_cons & Hl); [done|by exists m'].
Qed.

(** What the merged table of level 0 holds: the versions of the tables it merges *)
Lemma merged_has ts room l ms0 ms1 (t : MemTable) : rows_in ts room l ms0 ms1 ->
  (forall k v, mem_map t !! k = Some v <-> (exists m, m ∈ ms0 /\ m !! k = Some v) /\ forall m v', m ∈ ms0 -> m !! k = Some v' -> bytes_le v' v) ->
  (forall e, some_has (mem_map (l_active l) :: ms1 ++ [mem_map t]) e -> some_has (mem_map (l_active l) :: ms0 ++ ms1) e) /\
  (forall e, some_has (mem_map (l_active l) :: ms0 ++ ms1) e -> version_of e <> None -> some_has (mem_map (l_active l) :: ms1 ++ [mem_map t]) e).
Proof.
  intros Hr Hm. split.
  - intros e (m & [->|[Hm1|Ht%list_elem_of_singleton]%elem_of_app]%elem_of_cons & Hl); [exists (mem_map (l_active l)); split; [left|done]|..].
    + exists m. split; [right; apply elem_of_app; by right|done].
    + subst m. apply Hm in Hl as [(m & Hin & Hl) _]. exists m. split; [right; apply elem_of_app; by left|done].
  - intros [k v] He Hv. pose proof He as (m & [->|[Hm0|Hm1]%elem_of_app]%elem_of_cons & Hl); [exists (mem_map (l_active l)); split; [left|done]|..].
    + exists (mem_map t). split; [right; apply elem_of_app; right; by left|]. cbn [fst snd] in *. apply Hm. split; [by exists m|].
      intros m' v' Hm' Hl'. assert (v = v') as <-; [|by apply bytes_leb_refl]. apply (ri_agree _ _ _ _ _ Hr k); [done| |done].
      exists m'. split; [right; apply elem_of_app; by left|done].
    + exists m. split; [right; apply elem_of_app; by left|done].
Qed.

Lemma tables_keep dir dir' paths ms : tables crc32c dir paths ms -> (forall p, p ∈ paths -> dir' !! p = dir !! p) -> tables crc32c dir' paths ms.
Proof.
  induction 1 as [|p m paths ms (f & Hf & Hread) Ht IH]; intros Hd; [constructor|]. constructor.
  - exists f. split; [|done]. rewrite Hd; [done|left].
  - apply IH. intros q Hq. apply Hd. by right.
Qed.

Lemma compaction_rows ts room l ms0 ms1 l' : rows_in ts room l ms0 ms1 -> run_compaction crc32c sizing l = (Ok tt, l') ->
  exists ms0' ms1', rows_in ts room l' ms0' ms1' /\ forall c, held l' ms0' ms1' c <-> held l ms0 ms1 c.
Proof.
  intros Hr E. unfold run_compaction, lbind at 1, lget in E. destruct (decide (l_level0 l = [])) as [H0|H0].
  { unfold compact_level0_to_l1, compact_merge in E. rewrite H0 in E. done. }
  pose proof (ri_paths _ _ _ _ _ Hr) as Hnd. apply NoDup_app in Hnd as (N1 & N2 & N3).
  destruct (compaction_keeps_largest_value crc32c sizing (l_sst l) (l_level0 l) ms0) as (t & _ & Hm & Hc); [done|done|apply (ri_level0 _ _ _ _ _ Hr)|done|done|].
  destruct (merged_has ts room l ms0 ms1 t Hr Hm) as [Has1 Has2].
  pose proof (ri_size _ _ _ _ _ Hr) as Hsz. pose proof (ri_clock _ _ _ _ _ Hr) as Hcl. unfold sizes in Hsz. cbn [sum_list_with] in Hsz. rewrite sum_list_with_app in Hsz.
  assert (size (mem_map t) <= sum_list_with size ms0)%nat as Hle by (apply size_le_sum; intros k v Hk; by apply Hm in Hk as [? _]).
  destruct Hc as (dir' & out & file & Ec & Hout & Hfresh & Hfile & Hread & Hrest).
  { apply fits_from; [|lia]. intros e He. apply (ri_entries _ _ _ _ _ Hr), Has1. exists (mem_map t). split; [|done].
    right. apply elem_of_app. right. by left. }
  rewrite Ec in E. unfold lbind at 1 2 3, llift, lmodify in E. apply rows_manifest in E.
  match type of E with same_rows ?l2 _ => set (l1 := l2) in E end.
  exists [], (ms1 ++ [mem_map t]). split.
  - apply (rows_in_same ts room l1); [done|]. destruct Hr as [Hwf Ht0 Ht1 _ Hes Hag _ _].
    assert (forall p, p ∈ l_level1 l -> p <> out /\ p ∉ l_level0 l) as Hl1.
    { intros p Hp. split; [|intros Hp0; by apply (N2 p)]. intros ->. apply list_elem_of_lookup_1 in Hp as [i Hi].
      destruct (Forall2_lookup_l _ _ _ _ _ Ht1 Hi) as (m & _ & f & Hf & _). congruence. }
    split; unfold l1; lsm_fields.
    + done.
    + constructor.
    + apply tables_app.
      * eapply tables_keep; [exact Ht1|]. intros p Hp. destruct (Hl1 p Hp) as [H1 H2]. rewrite Hrest by done. by rewrite bool_decide_eq_false_2.
      * constructor; [|constructor]. exists file. split; [done|]. split; [done|]. destruct (mem_map t !! []) as [v|] eqn:En; [|done].
        apply Hm in En as [(m & Hin & Hl) _]. apply list_elem_of_lookup_1 in Hin as [i Hi].
        destruct (Forall2_lookup_r _ _ _ _ _ Ht0 Hi) as (q & _ & f & _ & _ & Hn). congruence.
    + cbn [app]. apply NoDup_app. split_and!; [done| |apply NoDup_singleton]. intros x Hx ->%list_elem_of_singleton. by destruct (Hl1 out Hx).
    + intros e He. by apply Hes, Has1.
    + intros k r r' Hr1 Hr2. apply Hag; by apply Has1.
    + unfold sizes. cbn [sum_list_with app]. rewrite sum_list_with_app. cbn [sum_list_with]. lia.
    + done.
  - intros c. rewrite (held_same l1 l' _ _ c E). unfold held, versions, l1. lsm_fields. split; intros (e & He & Hv); exists e; (split; [|done]).
    + by apply Has1.
    + apply Has2; [done|congruence].
Qed.

Lemma maybe_flush_rows ts room l ms0 ms1 l' : rows_in ts room l ms0 ms1 -> maybe_flush_and_compact crc32c sizing l = (Ok tt, l') ->
  exists ms0' ms1', rows_in ts room l' ms0' ms1' /\ forall c, held l' ms0' ms1' c <-> held l ms0 ms1 c.
Proof.
  intros Hr E. unfold maybe_flush_and_compact, lbind at 1, lget in E. destruct (_ <? _); [injection E as <-; eauto|].
  unfold lbind at 1 in E. destruct (flush_active crc32c sizing l) as [[[]|x|] l1] eqn:Ef; [|done..].
  apply (flush_rows _ _ _ _ _ _ Hr) in Ef as (ms0' & Hr1 & Hh1). unfold lbind, lget in E. destruct (_ >=? _); [|injection E as <-; eauto].
  apply (compaction_rows _ _ _ _ _ _ Hr1) in E as (ms0'' & ms1' & Hr2 & Hh2). exists ms0'', ms1'. split; [done|]. intros c. by rewrite Hh2.
Qed.

(** The keys and values that a table file can hold, with the internal key's timestamp and
    the header of a version *)
Definition lsm_fits (w : bytes * option bytes) : Prop := len w.1 + 8 < 2 ^ 16 /\ 32 + len w.1 + len (default [] w.2) < 2 ^ 32.

Lemma put_rows ts ts' room l ms0 ms1 (p : LM unit) k v l' : rows_in ts room l ms0 ms1 -> 1 <= room -> ts <= ts' -> ts' + (room - 1) < 2 ^ 56 ->
  entry_fits (k, v) -> versioned ts' (k, v) \/ own_plain (k, v) ->
  (forall r, some_has (mem_map (l_active l) :: ms0 ++ ms1) (k, r) -> version_of (k, r) = None /\ version_of (k, v) = None) ->
  keeps_rows p -> k <> [] -> lbind p (fun _ => let& _ := active_put k v in maybe_flush_and_compact crc32c sizing) l = (Ok tt, l') ->
  exists ms0' ms1', rows_in ts' (room - 1) l' ms0' ms1' /\ forall c, held l' ms0' ms1' c <-> held l ms0 ms1 c \/ version_of (k, v) = Some c.
Proof.
  intros Hr Hroom Hts Hcl Hfit Hkv Hold Hp Hk E. unfold lbind at 1 in E. destruct (p l) as [[[]|x|] l1] eqn:Ep; [|done..]. apply Hp in Ep.
  pose proof (rows_in_same _ _ _ _ _ _ Ep Hr) as Hr1. destruct (MemTable_put_ok (l_active l1) k v (ri_wf _ _ _ _ _ Hr1) Hk) as (t & Et & Hwt & Hmt).
  unfold lbind at 1, active_put, lbind at 1 2, lget, llift, lmodify in E. rewrite Et in E.
  destruct (insert_rows ts ts' room l1 ms0 ms1 k v t Hr1) as [Hr2 Hh2]; try done.
  { intros r He. apply Hold. by rewrite (proj1 Ep) in He. }
  apply (maybe_flush_rows _ _ _ _ _ _ Hr2) in E as (ms0' & ms1' & Hr3 & Hh3). exists ms0', ms1'. split; [done|]. intros c.
  by rewrite Hh3, Hh2, (held_same _ _ _ _ _ Ep).
Qed.

(** A new version of a key, later than every other one, is what the key reads as. *)
Lemma newer_reads (all all' : candidate bytes -> Prop) k t d v o x : (forall c, all c -> c_ts c < t) ->
  (forall c, all' c <-> all c \/ (k, t, d, v) = c) -> stored_read all x o ->
  stored_read all' x (if decide (x = k) then if d then None else Some v else o).
Proof.
  intros Hnew Hall Ho. case_decide as Hx; [subst x|].
  - assert (forall c, all' c -> c_user c = k -> c_ts c <= t) as Hmax by (intros c [Hc%Hnew|<-]%Hall _; unfold c_ts in *; cbn in *; lia).
    destruct d; cbn [stored_read]; [right; exists t, v|exists t]; (split; [apply Hall; by right|done]).
  - eapply stored_read_ext; [|exact Ho]. intros c Hc. rewrite Hall. split; [by left|]. intros [?|<-]; [done|]. unfold c_user in Hc. cbn in Hc. congruence.
Qed.

Lemma held_before ts room l ms0 ms1 c : rows_in ts room l ms0 ms1 -> held l ms0 ms1 c -> c_ts c < ts + 1.
Proof. intros Hr (e & He & Hv). destruct c as [[[k t] d] v]. destruct (version_entry _ _ _ _ _ _ _ _ _ _ Hr He Hv) as (_ & _ & _ & Ht). unfold c_ts. cbn. lia. Qed.

Lemma lsm_put_version_law ts room l k v l' : lsm_ok ts room l -> 1 <= room -> k <> [] -> v_commit_ts v = ts + 1 ->
  lsm_fits (k, if v_deleted v then None else Some (v_value v)) -> (v_deleted v = true -> v_value v = []) ->
  put_version crc32c sizing k v l = (Ok tt, l') ->
  lsm_ok (ts + 1) (room - 1) l' /\ lsm_content l' = if v_deleted v then delete k (lsm_content l) else <[k := v_value v]> (lsm_content l).
Proof.
  intros (ms0 & ms1 & Hr) Hroom Hk Hts [Hf1 Hf2] Hdel E. pose proof (ri_clock _ _ _ _ _ Hr) as Hcl. cbn [fst snd] in Hf1, Hf2.
  assert (32 + len k + len (v_value v) < 2 ^ 32) as Hf3 by (destruct (v_deleted v); [by rewrite Hdel|done]).
  assert (version_wf v) as Hwf by (split; [lia|]; pose proof (len_nonneg k); lia).
  unfold put_version, lbind at 1, llift in E. destruct (encode_version v) as [raw|x|] eqn:Ev; [|done..].
  set (ik := encode_internal_key k (v_commit_ts v)) in *.
  assert (version_of (ik, raw) = Some (k, v_commit_ts v, v_deleted v, v_value v)) as Hv by (by apply version_of_encoded).
  assert (len ik = len k + 8) as Hik by (unfold len, ik; rewrite length_encode_internal_key; lia).
  assert (len raw = 18 + len (v_value v)) as Hraw by (apply encode_version_ok in Ev as [_ ->]; autorewrite with len; cbn; lia).
  apply (put_rows ts (ts + 1) room l ms0 ms1) in E as (ms0' & ms1' & Hr' & Hh); try done; try lia.
  2: { split; cbn [fst snd]; lia. }
  2: { left. exists k, v. split_and!; try done. lia. }
  2: { intros r He. exfalso. destruct (ri_entries _ _ _ _ _ Hr _ He) as [_ [(k' & v' & Hk' & Ek & Ev' & Hwf' & Hts')|(_ & Hnf & _)]].
       - cbn [fst] in Ek. apply encode_internal_key_inj in Ek as [_ Ek]; [lia|..]; destruct Hwf, Hwf'; lia.
       - apply Hnf. apply internal_has_ff. lia. }
  2: apply rows_log_write.
  2: { unfold ik, encode_internal_key. by destruct k. }
  split; [by exists ms0', ms1'|]. rewrite Hv in Hh. apply map_eq. intros x. rewrite (content_is _ _ _ _ _ x _ Hr'
    (newer_reads _ _ k (v_commit_ts v) (v_deleted v) (v_value v) _ x ltac:(intros c Hc; rewrite Hts; by eapply held_before) ltac:(intros c; rewrite Hh; naive_solver)
       (held_content _ _ _ _ _ x Hr))).
  case_decide as Hx; [subst x|]; destruct (v_deleted v); rewrite ?lookup_delete_eq, ?lookup_insert_eq, ?lookup_delete_ne, ?lookup_insert_ne by done; done.
Qed.

Lemma lsm_put_rows_law ts room l table v l' : lsm_ok ts room l -> 1 <= room -> plain table -> lsm_fits (table_rows_key table, Some v) ->
  length v = 8%nat -> LsmTree_put crc32c sizing (table_rows_key table) v l = (Ok tt, l') -> lsm_ok ts (room - 1) l' /\ lsm_content l' = lsm_content l.
Proof.
  intros (ms0 & ms1 & Hr) Hroom (_ & _ & _ & Hff) [Hf1 Hf2] Hlen E. pose proof (ri_clock _ _ _ _ _ Hr) as Hcl. cbn [fst snd default from_option id] in Hf1, Hf2.
  set (k := table_rows_key table) in *.
  assert (own_key k) as Hown by (by right).
  assert (xff ∉ k) as Hnf.
  { unfold k, table_rows_key. rewrite !elem_of_app. intros [Hin|[Hin|[Hin|Hin]]]; [|done|..]; revert Hin.
    - by apply (bool_decide_eq_false_1 (xff ∈ STATS_PREFIX)).
    - by apply (bool_decide_eq_false_1 (xff ∈ [zero])).
    - by apply (bool_decide_eq_false_1 (xff ∈ bs "rows")). }
  assert (forall r, length r = 8%nat -> version_of (k, r) = None) as Hnv.
  { intros r Hr'. unfold version_of. cbn [fst snd]. destruct (_ && _); [|done]. destruct (decode_version_short r) as [_ ->]; [|done].
    unfold len. rewrite version_header_value. lia. }
  unfold LsmTree_put in E. unfold lbind at 1 in E. destruct (lsm_gate_write l) as [[[]|x|] l1] eqn:Eg; [|done..]. apply rows_gate in Eg.
  pose proof (rows_in_same _ _ _ _ _ _ Eg Hr) as Hr1.
  apply (put_rows ts ts room l1 ms0 ms1) in E as (ms0' & ms1' & Hr' & Hh); try done; try lia.
  2: { pose proof (len_nonneg k). split; cbn [fst snd]; lia. }
  2: { right. split_and!; [done|done|]. by apply Hnv. }
  2: { intros r He. split; [|by apply Hnv]. destruct (ri_entries _ _ _ _ _ Hr1 _ He) as [_ [(k' & v' & Hk' & Ek & Ev' & Hwf' & Hts')|(_ & _ & ?)]]; [|done].
       cbn [fst] in Ek. destruct Hnf. rewrite Ek. apply internal_has_ff. destruct Hwf'. lia. }
  2: apply rows_log_write.
  split; [by exists ms0', ms1'|]. apply map_eq. intros x. apply (content_is _ _ _ _ _ _ _ Hr').
  eapply stored_read_ext; [|exact (held_content _ _ _ _ _ x Hr)]. intros c _. rewrite Hh, Hnv by done. rewrite (held_same _ _ _ _ _ Eg). naive_solver.
Qed.


Lemma rows_less ts room room' l ms0 ms1 : rows_in ts room l ms0 ms1 -> 0 <= room' <= room -> rows_in ts room' l ms0 ms1.
Proof. intros [? ? ? ? ? ? ? ?] Hroom. split; try done; lia. Qed.

Definition lsm_laws : @TreeLaws LsmTree (lsm_tree crc32c sizing sort sort_keys).
Proof.
  refine (@Build_TreeLaws LsmTree (lsm_tree crc32c sizing sort sort_keys) lsm_content lsm_ok lsm_fits _ _ _ _ _ _ _).
  - intros k v v' Hl [H1 H2]. split; [done|]. unfold len in *. cbn [fst snd default from_option id] in *. by rewrite <-Hl.
  - intros ts room t (ms0 & ms1 & Hr). pose proof (ri_clock _ _ _ _ _ Hr). change u64_max with (2 ^ 64 - 1). lia.
  - intros ts room room' t (ms0 & ms1 & Hr) Hroom. exists ms0, ms1. by eapply rows_less.
  - intros ts room t k (ms0 & ms1 & Hr) Hk Ho Hf. by eapply lsm_get_law.
  - intros ts room t p (ms0 & ms1 & Hr) Ho. by eapply lsm_range_law.
  - intros ts room t k v t'. apply lsm_put_version_law.
  - intros ts room t table v t'. apply lsm_put_rows_law.
Defined.

(** A new tree *)
Lemma fresh_ok cfg l room : cfg_wal_sync cfg = EveryAppend -> 0 < max_mem_bytes cfg -> 0 <= room < 2 ^ 29 ->
  LsmTree_open fresh_disk cfg = Ok l -> lsm_ok 0 room l /\ lsm_content l = ∅.
Proof.
  intros Hsync Hmem Hroom Ho. destruct (fresh_inv crc32c cfg Hmem l Ho) as ([Hwf _ _ Ht _ _ _ _ _ _ _ _] & _ & Hem).
  apply Forall2_nil_inv_r in Ht. unfold table_paths in Ht. apply app_eq_nil in Ht as [E0 E1].
  apply (f_equal (@rev _)) in E0, E1. rewrite rev_involutive in E0, E1. cbn [rev] in E0, E1.
  assert (forall e, ~ some_has (mem_map (l_active l) :: [] ++ []) e) as Hno.
  { intros e (m & [->|Hm]%elem_of_cons & Hl); [by rewrite Hem, lookup_empty in Hl|by apply elem_of_nil in Hm]. }
  assert (rows_in 0 room l [] []) as Hr.
  { split; rewrite ?E0, ?E1; try done; try (constructor; fail); [by intros e He%Hno|by intros k r r' He%Hno| |lia].
    unfold sizes. cbn [sum_list_with app]. rewrite Hem, map_size_empty. lia. }
  split; [by exists [], []|]. apply map_eq. intros k. rewrite lookup_empty. apply (content_is _ _ _ _ _ _ _ Hr). left.
  intros c (e & He & _). by apply Hno in He.
Qed.
End lsm_rows.

(** ** The statements *)

(** The rows that the policies of a table let a role change *)
Definition allowed `{ExecEnv} (rls : RlsCatalog) (table role : bytes) (row : RowMap) : bool :=
  forallb (fun e => selects (Some e) row) (table_policies rls table role).

Lemma selects_true `{ExecEnv} e row : selects (Some e) row = true <-> eval_predicate e row = Ok true.
Proof. cbn. destruct (eval_predicate e row) as [[]|x|]; naive_solver. Qed.

Lemma selects_policies `{ExecEnv} rls table role w row :
  selects (match policy_predicate rls table role with Some pred => Some (merge_where w pred) | None => w end) row =
  selects w row && allowed rls table role row.
Proof.
  pose proof (policy_predicate_spec rls table role row) as P. unfold allowed. destruct (policy_predicate rls table role) as [pred|].
  2: { rewrite P. cbn [forallb]. by rewrite andb_true_r. }
  apply eq_true_iff_eq. rewrite selects_true, merge_where_true, P, andb_true_iff, forallb_forall, Forall_forall.
  assert (W : (forall e, w = Some e -> eval_predicate e row = Ok true) <-> selects w row = true).
  { destruct w as [e|]; [|done]. rewrite selects_true. naive_solver. }
  rewrite W. f_equiv. apply forall_proper. intros e. rewrite list_elem_of_In, selects_true. done.
Qed.

Section exact.
Context (crc32c : bytes -> Z) (crc32c_u32 : forall l, 0 <= crc32c l < 2 ^ 32).
Context (sizing : Z -> Z * Z) (sizing_clamped : sizing_ok sizing).
Context (sort : list (candidate bytes) -> list (candidate bytes)) (sort_sorts : sorts sort).
Context (sort_keys : list (candidate unit) -> list (candidate unit)).
Context `{ExecEnv} `{StdChoices}.
Implicit Types s : DmlState LsmTree.
#[local] Instance the_tree : TreeOps LsmTree := lsm_tree crc32c sizing sort sort_keys.
#[local] Instance the_laws : TreeLaws LsmTree := lsm_laws crc32c crc32c_u32 sizing sizing_clamped sort sort_sorts sort_keys.

(** A state from which a statement that writes [ws] may start, with room for [room] more
    writes: the rows of the tree are versions not later than the clock ([lsm_ok]), what is
    written fits a table file, the table's name is ordinary and its row ids are text. *)
Record ready (ws : list (bytes * option bytes)) (room : Z) (table : bytes) s : Prop := {
  rd_clock : 0 <= clock s;
  rd_room : 0 <= room;
  rd_tree : lsm_ok crc32c (clock s) (len ws + room) (d_tree s);
  rd_fits : Forall lsm_fits ws;
  rd_table : plain table;
  rd_ids : text_ids (lsm_content crc32c (d_tree s)) table;
}.
Lemma ready_room ws room table s : ready ws room table s -> has_room ws room s.
Proof. intros []. repeat split; done. Qed.
Lemma ready_after room table s : 0 <= room -> st_ok room s -> plain table -> text_ids (cont s) table -> ready [] room table s.
Proof. intros Hr [Hc Hs] Hp Hu. by split. Qed.

(** C3. Outside transactions, on the LSM tree, a DELETE under row-level security that
    succeeds removes exactly the rows that satisfy both its WHERE clause and every policy
    of the table; it returns their number, the rows of every other table stay as they are,
    and the tree is left as the next statement needs it.  Conditions ([ready]): rows are
    stored as versions, none later than the engine's clock (true from a new tree on, but
    broken by reopening, see writes_after_reopen_lost), the other entries being the
    engine's own; at most 2^29 entries and a clock below 2^56 with the tombstones; keys
    and values that a table file can hold; table names without zero or 255 bytes that do
    not start with byte 2 or 3; row ids that are text. *)
Theorem delete_exact (rls : RlsCatalog) (role : bytes) (del : DeleteStmt) (schema : SchemaCatalog) s s' (n room : Z) :
  let table := id_value (del_table del) in
  let hit e := selects (del_where del) (snd e) && allowed rls table role (snd e) in
  ready (delete_writes (apply_delete rls del role) s) room table s ->
  execute_delete None (apply_delete rls del role) schema s = (Ok n, s') ->
  scan_table (d_tree s') table = filter (fun e => hit e = false) (scan_table (d_tree s) table) /\
  n = len (filter (fun e => hit e = true) (scan_table (d_tree s) table)) /\
  (forall other, plain other -> other <> table -> scan_table (d_tree s') other = scan_table (d_tree s) other) /\
  ready [] room table s'.
Proof.
  intros table hit Hready E. pose proof (ready_room _ _ _ _ Hready) as Hroom. destruct Hready as [_ H0' _ _ Hp Hu].
  assert (Et : id_value (del_table (apply_delete rls del role)) = table) by (unfold apply_delete; by destruct (policy_predicate _ _ _)).
  assert (Ew : forall row, selects (del_where (apply_delete rls del role)) row = selects (del_where del) row && allowed rls table role row).
  { intros row. rewrite <-selects_policies. unfold apply_delete. fold table. by destruct (policy_predicate _ _ _). }
  pose proof (proj1 (proj2 Hroom)) as Hs.
  apply (delete_core _ _ _ _ _ room) in E; rewrite ?Et; try done. rewrite Et in E. destruct E as (S' & U & -> & R & O).
  rewrite (scan_rows _ s table Hs), (scan_rows _ s' table S') by done. split_and!.
  - rewrite R. apply list_filter_iff. intros e. by rewrite Ew.
  - f_equal. apply list_filter_iff. intros e. by rewrite Ew.
  - intros other Ho Hne. rewrite (scan_rows _ s other Hs), (scan_rows _ s' other S') by done. auto.
  - by apply ready_after.
Qed.


(** C5. On the LSM tree, an INSERT that succeeds adds exactly its rows: the scan afterwards
    is a permutation of the old one and the new rows, each under the text of its first
    value; so no key was there before, and none is given twice; the rows of every other
    table stay as they are.  Conditions: the table's primary key is one column, the first
    one of the statement's columns ([keyed]; for another one see constraints_not_kept);
    the table has no row stored cell by cell ([packed_only]: rows that statements write are
    packed records, and the INSERT keeps it so); the new ids have no zero byte and are text
    ([good_id]); and those of DELETE ([ready]): rows stored as versions not later than the
    clock, which reopening the engine breaks (writes_after_reopen_lost), room, and keys and
    values that a table file can hold. *)
Theorem insert_exact (ins : InsertStmt) (schema : SchemaCatalog) (col_names : list bytes) s s' (room : Z) :
  let table := id_value (ins_table ins) in
  ready (insert_writes schema ins col_names s) room table s -> packed_only (lsm_content crc32c (d_tree s)) table ->
  insert_columns ins schema = Some col_names -> keyed schema table col_names ->
  (forall exprs x, exprs ∈ ins_values ins -> insert_values schema table col_names exprs = Ok x -> good_id x) ->
  execute_insert None ins schema s = (Ok tt, s') ->
  exists new, Forall2 (fun exprs x => insert_values schema table col_names exprs = Ok x) (ins_values ins) new /\
    scan_table (d_tree s') table ≡ₚ map inserted_row new ++ scan_table (d_tree s) table /\
    NoDup (map fst (scan_table (d_tree s') table)) /\
    (forall other, plain other -> other <> table -> scan_table (d_tree s') other = scan_table (d_tree s) other) /\
    ready [] room table s' /\ packed_only (lsm_content crc32c (d_tree s')) table.
Proof.
  intros table Hready Hpo Hc Hk Hg E. destruct (ready_room _ _ _ _ Hready) as (H0' & Hs & Hf). destruct Hready as [_ _ _ _ Hp Hu].
  destruct (insert_core ins schema col_names s s' room H0' Hs Hf Hp Hc Hk Hpo Hg E) as (new & F & P & O & Po & S' & U). fold table in P, O, Po, U.
  specialize (U Hu). exists new. rewrite (scan_rows _ s table Hs), (scan_rows _ s' table S') by done. split_and!; [done|done| | | |done].
  - change (map fst ?l) with l.*1. rewrite (rows_ids _ _ U). apply NoDup_btree_iter_keys.
  - intros other Ho Hne. rewrite (scan_rows _ s other Hs), (scan_rows _ s' other S') by done. auto.
  - by apply ready_after.
Qed.
End exact.

(** ** A table of two rows, a policy on one of them *)

#[local] Existing Instance demo_env.
#[local] Existing Instance demo_choices.
#[local] Existing Instance ascii_unicode.
#[local] Existing Instance demo_tree.
Definition demo_laws : TreeLaws LsmTree := lsm_laws crc32 crc32_range demo_sizing demo_sizing_ok stable_sort stable_sort_sorts stable_sort.
#[local] Existing Instance demo_laws.

Definition demo_schema : SchemaCatalog :=
  match create_table SchemaCatalog_default (bs "t") 1
    [mkColumnMeta (bs "id") TyInt true true false; mkColumnMeta (bs "owner") TyText false false false] [bs "id"] with
  | Ok c => c
  | _ => SchemaCatalog_default
  end.
(** A new tree that flushes at every write and compacts at the fourth flush *)
Definition new_tree : LsmTree :=
  match LsmTree_open fresh_disk tiny_config with
  | Ok l => l
  | _ => mkLsmTree (mkWalSegmentManager fresh_dir 1 EveryAppend) MemTable_new [] [] tiny_config 0 0 0 ∅ None
  end.
Definition demo_state : DmlState LsmTree := mkDmlState new_tree TxnManager_new None.

Definition no_span : Span := mkSpan 0 0.
Definition demo_insert : InsertStmt :=
  match parse (bs "INSERT INTO t VALUES (1, 'ann'), (2, 'bob')") with Ok (SInsert i) => i | _ => mkInsertStmt (mkIdent [] no_span) None [] no_span end.
Definition demo_delete : DeleteStmt :=
  match parse (bs "DELETE FROM t") with Ok (SDelete d) => d | _ => mkDeleteStmt (mkIdent [] no_span) None no_span end.
Definition demo_update : UpdateStmt :=
  match parse (bs "UPDATE t SET owner = 'eve'") with Ok (SUpdate u) => u | _ => mkUpdateStmt (mkIdent [] no_span) [] None no_span end.
(** ann may change her own rows. *)
Definition demo_rls : RlsCatalog :=
  match parse (bs "CREATE POLICY p ON t USING (owner = 'ann')") with
  | Ok (SCreatePolicy p) => add_policy (rls_enable RlsCatalog_default (bs "t")) p
  | _ => RlsCatalog_default
  end.
Definition demo_cols : list bytes := [bs "id"; bs "owner"].

Definition two_rows : DmlState LsmTree := (execute_insert None demo_insert demo_schema demo_state).2.
Definition demo_rows : list (bytes * RowMap) :=
  [(bs "1", [(bs "id", VBytes (bs "1")); (bs "owner", VBytes (bs "ann"))]); (bs "2", [(bs "id", VBytes (bs "2")); (bs "owner", VBytes (bs "bob"))])].

Lemma demo_names : id_value (del_table demo_delete) = bs "t" /\ id_value (up_table demo_update) = bs "t" /\ id_value (ins_table demo_insert) = bs "t".
Proof. vm_compute. done. Qed.
Lemma demo_plain : plain (bs "t").
Proof. unfold plain, zero_free. split_and!; [by apply (bool_decide_eq_false_1 (zero ∈ bs "t"))|done|done|by apply (bool_decide_eq_false_1 (xff ∈ bs "t"))]. Qed.
Lemma fits_all ws : forallb (fun w => (len w.1 + 8 <? 2 ^ 16) && (32 + len w.1 + len (default [] w.2) <? 2 ^ 32)) ws = true -> Forall lsm_fits ws.
Proof.
  rewrite forallb_forall. intros Hw. apply Forall_forall. intros w Hin%list_elem_of_In%Hw. apply andb_true_iff in Hin as [?%Z.ltb_lt ?%Z.ltb_lt]. by split.
Qed.

Lemma new_tree_ok room : 0 <= room < 2 ^ 29 -> lsm_ok crc32 0 room new_tree /\ lsm_content crc32 new_tree = ∅.
Proof. intros Hroom. apply (fresh_ok crc32 crc32_range tiny_config); [reflexivity|reflexivity|exact Hroom|vm_compute; reflexivity]. Qed.
Lemma new_ready ws : Forall lsm_fits ws -> len ws <= 1000 -> ready crc32 ws 1000 (bs "t") demo_state.
Proof.
  intros Hf Hl. pose proof (len_nonneg ws). destruct (new_tree_ok (len ws + 1000)) as [Hok Hem]; [lia|]. split; [done|lia|done|done|apply demo_plain|].
  cbn [d_tree demo_state]. rewrite Hem. intros r [x Hx]. vm_compute in Hx. done.
Qed.
Lemma new_packed : packed_only (lsm_content crc32 new_tree) (bs "t").
Proof. rewrite (proj2 (new_tree_ok 0 ltac:(lia))). intros k r _ [v Hv]. by rewrite lookup_empty in Hv. Qed.
Lemma demo_writes : Forall lsm_fits (insert_writes demo_schema demo_insert demo_cols demo_state) /\ len (insert_writes demo_schema demo_insert demo_cols demo_state) <= 1000.
Proof. split; [apply fits_all; vm_compute; reflexivity|]. vm_compute. discriminate. Qed.
Lemma demo_keyed : keyed demo_schema (bs "t") demo_cols.
Proof. eexists _, _. split_and!; vm_compute; reflexivity. Qed.
Lemma demo_ids exprs x : exprs ∈ ins_values demo_insert -> insert_values demo_schema (bs "t") demo_cols exprs = Ok x -> good_id x.
Proof.
  assert (B : forallb (fun exprs => match insert_values demo_schema (bs "t") demo_cols exprs with
      | Ok x => bool_decide (zero ∉ insert_id x) && bool_decide (from_utf8_lossy (insert_id x) = insert_id x) | _ => true end) (ins_values demo_insert) = true)
    by (vm_compute; reflexivity).
  rewrite forallb_forall in B. intros Hx Ex. specialize (B exprs (proj1 (list_elem_of_In _ _) Hx)). cbn beta in B.
  rewrite Ex in B. apply andb_true_iff in B as [B1%bool_decide_eq_true B2%bool_decide_eq_true]. by split.
Qed.

(** The tree after the INSERT *)
Lemma two_rows_ready ws : Forall lsm_fits ws -> len ws <= 1000 -> ready crc32 ws (1000 - len ws) (bs "t") two_rows.
Proof.
  intros Hf Hl. unfold two_rows. destruct (execute_insert None demo_insert demo_schema demo_state) as [r s'] eqn:E.
  assert (Er : r = Ok tt) by (change r with (r, s').1; rewrite <-E; vm_compute; reflexivity). subst r. cbn [snd].
  destruct demo_writes as [Hw1 Hw2]. pose proof (new_ready _ Hw1 Hw2) as Hready.
  destruct (ready_room crc32 crc32_range demo_sizing demo_sizing_ok stable_sort stable_sort_sorts stable_sort _ _ _ _ Hready) as (_ & Hs & _).
  destruct (insert_core demo_insert demo_schema demo_cols demo_state s' 1000) as (new & _ & _ & _ & _ & [Hc Hok] & U); rewrite ?(proj2 (proj2 demo_names)).
  - lia.
  - exact Hs.
  - exact Hw1.
  - apply demo_plain.
  - vm_compute. reflexivity.
  - apply demo_keyed.
  - exact new_packed.
  - apply demo_ids.
  - exact E.
  - rewrite (proj2 (proj2 demo_names)) in U. split; [done|lia| |done|apply demo_plain|apply U; apply Hready].
    replace (len ws + (1000 - len ws)) with 1000 by lia. exact Hok.
Qed.

Lemma delete_exact_witness :
  let run := execute_delete None (apply_delete demo_rls demo_delete (bs "ann")) demo_schema two_rows in
  run.1 = Ok 1 /\ len (l_level1 (d_tree two_rows)) = 1 /\ scan_table (d_tree two_rows) (bs "t") = demo_rows /\
  scan_table (d_tree run.2) (bs "t") = [(bs "2", [(bs "id", VBytes (bs "2")); (bs "owner", VBytes (bs "bob"))])].
Proof.
  cbv zeta. destruct (execute_delete _ _ _ _) as [r s'] eqn:E. assert (Er : r = Ok 1).
  { change r with (r, s').1. rewrite <-E. vm_compute. reflexivity. }
  subst r. cbn [fst snd].
  destruct (delete_exact crc32 crc32_range demo_sizing demo_sizing_ok stable_sort stable_sort_sorts stable_sort
    demo_rls (bs "ann") demo_delete demo_schema two_rows s' 1
    (1000 - len (delete_writes (apply_delete demo_rls demo_delete (bs "ann")) two_rows))) as (A & _ & _).
  - rewrite (proj1 demo_names). apply two_rows_ready; [apply fits_all; vm_compute; reflexivity|]. vm_compute. discriminate.
  - exact E.
  - split; [done|]. split; [vm_compute; reflexivity|]. split; [vm_compute; reflexivity|]. rewrite (proj1 demo_names) in A.
    refine (eq_trans A _). vm_compute. reflexivity.
Defined.


Lemma insert_exact_witness : exists new, length new = 2%nat /\
  scan_table (d_tree two_rows) (bs "t") ≡ₚ map inserted_row new ++ scan_table (d_tree demo_state) (bs "t") /\
  NoDup (map fst (scan_table (d_tree two_rows) (bs "t"))).
Proof.
  unfold two_rows. destruct (execute_insert None demo_insert demo_schema demo_state) as [r s'] eqn:E. assert (Er : r = Ok tt).
  { change r with (r, s').1. rewrite <-E. vm_compute. reflexivity. }
  subst r. cbn [snd]. destruct demo_writes as [Hw1 Hw2].
  destruct (insert_exact crc32 crc32_range demo_sizing demo_sizing_ok stable_sort stable_sort_sorts stable_sort
    demo_insert demo_schema demo_cols demo_state s' 1000) as (new & F & P & N & _); rewrite ?(proj2 (proj2 demo_names)).
  - exact (new_ready _ Hw1 Hw2).
  - exact new_packed.
  - vm_compute. reflexivity.
  - exact demo_keyed.
  - exact demo_ids.
  - exact E.
  - rewrite (proj2 (proj2 demo_names)) in P, N. exists new. split; [|by split]. apply Forall2_length in F. rewrite <-F. vm_compute. reflexivity.
Defined.
