(* ===== verification/HnswSpec.v ===== *)
(** * Vector indexes: the graph stays well formed, searches return the nearest rows *)

From S2P Require Import Prelude BTree StorageError Text Float64 Tokens Ast Display Utf8 Value Cast Eval Plan SetOps RowOps Catalog Hnsw.

(** ** The order of floats *)

Definition rank (f : f64) : Z * Z * Z :=
  match f with
  | S754_infinity true => (-2, 0, 0)
  | S754_finite true m e => (-1, - e, - Z.pos m)
  | S754_zero _ | S754_nan => (0, 0, 0)
  | S754_finite false m e => (1, e, Z.pos m)
  | S754_infinity false => (2, 0, 0)
  end.
Definition rank_lt (a b : Z * Z * Z) : Prop :=
  a.1.1 < b.1.1 \/ a.1.1 = b.1.1 /\ (a.1.2 < b.1.2 \/ a.1.2 = b.1.2 /\ a.2 < b.2).
Definition is_num (f : f64) : bool := match f with S754_nan => false | _ => true end.

Lemma f32_gt_rank a b : is_num a = true -> is_num b = true -> f32_gt a b = true <-> rank_lt (rank b) (rank a).
Proof.
  unfold f32_gt, SFcompare, rank_lt.
  destruct a as [sa|sa| |sa ma ea], b as [sb|sb| |sb mb eb]; try done; intros _ _;
    try (destruct sa, sb || destruct sa || destruct sb); cbn [rank fst snd]; try (split; [done|lia]); try (split; [lia|done]); try lia.
  all: change (Pos.compare_cont Eq ma mb) with (Pos.compare ma mb); destruct (Z.compare_spec ea eb), (Pos.compare_spec ma mb); cbn [CompOpp];
    subst; split; intros; try done; lia.
Qed.

(** The order of the distances, total without the NaNs *)
Definition nearer (a b : bytes * f64) : bool := f32_gt b.2 a.2.
Definition clean (f : f64) : f64 := match f with S754_nan => S754_zero false | _ => f end.
Definition clean_gt (a b : bytes * f64) : bool := f32_gt (clean a.2) (clean b.2).

Lemma clean_num f : is_num (clean f) = true.
Proof. by destruct f. Qed.
Lemma clean_total a b : clean_gt a b = true -> clean_gt b a = false.
Proof.
  unfold clean_gt. rewrite f32_gt_rank by apply clean_num. intros Hl. apply not_true_iff_false. rewrite f32_gt_rank by apply clean_num.
  unfold rank_lt in *. lia.
Qed.
Lemma clean_trans a b c : clean_gt a b = false -> clean_gt b c = false -> clean_gt a c = false.
Proof.
  unfold clean_gt. rewrite <-!not_true_iff_false, !f32_gt_rank by apply clean_num. unfold rank_lt. lia.
Qed.

Lemma sort_insert_ext {A} (f g : A -> A -> bool) x l : (forall y, y ∈ l -> f x y = g x y) -> sort_insert f x l = sort_insert g x l.
Proof. induction l as [|y l IH]; intros E; [done|]. cbn. rewrite E by constructor. case_match; [|done]. f_equal. apply IH. intros z Hz. apply E. by constructor. Qed.
Lemma sort_by_ext {A} (f g : A -> A -> bool) l : (forall x y, x ∈ l -> y ∈ l -> f x y = g x y) -> sort_by f l = sort_by g l.
Proof.
  induction l as [|x l IH]; intros E; [done|]. cbn. rewrite IH by (intros; apply E; by constructor). apply sort_insert_ext.
  intros y Hy. apply E; [constructor|]. rewrite sort_by_perm in Hy. by constructor.
Qed.

Section search.
Context `{StdChoices}.

Lemma search_take (ix : HnswIndex) (query : list f64) (k : nat) :
  HnswIndex_search ix query k = take k (by_distance (scored (hn_nodes ix) query)).
Proof.
  unfold HnswIndex_search. case_bool_decide as E; cbn [orb].
  - unfold by_distance, scored. rewrite E, map_to_list_empty.
    pose proof (hash_iter_perm (K := bytes) (V := list f64) []) as P. apply Permutation_nil_r in P. rewrite P. cbn. by rewrite take_nil.
  - destruct (Nat.eqb_spec k 0) as [->|]; [by rewrite take_0|done].
Qed.

Lemma scored_perm (nodes : gmap bytes (list f64)) (query : list f64) :
  by_distance (scored nodes query) ≡ₚ map (fun e => (e.1, l2 query e.2)) (map_to_list nodes).
Proof. unfold by_distance, scored. rewrite sort_by_perm. by rewrite hash_iter_perm. Qed.

Lemma scored_in (nodes : gmap bytes (list f64)) (query : list f64) id d :
  (id, d) ∈ by_distance (scored nodes query) <-> exists v, nodes !! id = Some v /\ d = l2 query v.
Proof.
  rewrite scored_perm, list_elem_of_fmap. split.
  - intros ([i v] & [= -> ->] & Hin%elem_of_map_to_list). eauto.
  - intros (v & Hv & ->). exists (id, v). split; [done|]. by apply elem_of_map_to_list.
Qed.

Lemma scored_sorted (nodes : gmap bytes (list f64)) (query : list f64) : map_Forall (fun _ v => is_num (l2 query v) = true) nodes ->
  StronglySorted (fun a b => f32_gt a.2 b.2 = false) (by_distance (scored nodes query)).
Proof.
  intros Hn. assert (C : forall x, x ∈ scored nodes query -> clean x.2 = x.2).
  { intros [id d] Hx. assert (Hin : (id, d) ∈ by_distance (scored nodes query)) by (unfold by_distance; by rewrite sort_by_perm).
    apply scored_in in Hin as (v & Hv & ->). specialize (Hn id v Hv). cbn in *. by destruct (l2 query v). }
  unfold by_distance. assert (E : sort_by (fun a b => f32_gt a.2 b.2) (scored nodes query) = sort_by clean_gt (scored nodes query)).
  { apply sort_by_ext. intros x y Hx Hy. unfold clean_gt. by rewrite !C. }
  rewrite E. pose proof (sort_by_sorted clean_gt clean_total clean_trans (scored nodes query)) as Hs.
  assert (Hin : forall x, x ∈ sort_by clean_gt (scored nodes query) -> clean x.2 = x.2) by (intros x; rewrite sort_by_perm; apply C).
  clear E. induction Hs as [|x l Hs IH Hall]; [constructor|]. constructor; [apply IH; intros; apply Hin; by constructor|].
  rewrite Forall_forall in *. intros y Hy. specialize (Hall y Hy). unfold sort_le, clean_gt in Hall. by rewrite !Hin in Hall by (by constructor || constructor).
Qed.

(** A search returns as many rows as asked for and present, each once and with its
    distance to the query; if no distance is a NaN they come nearest first, and no row
    that is left out is nearer than one returned.  (The graph of neighbours is not
    read.) *)
Theorem search_returns_nearest (ix : HnswIndex) (query : list f64) (k : nat) :
  let hits := HnswIndex_search ix query k in
  length hits = (k `min` size (hn_nodes ix))%nat /\ NoDup hits.*1 /\
  (forall id d, (id, d) ∈ hits -> exists v, hn_nodes ix !! id = Some v /\ d = l2 query v) /\
  (map_Forall (fun _ v => is_num (l2 query v) = true) (hn_nodes ix) ->
   StronglySorted (fun a b => f32_gt a.2 b.2 = false) hits /\
   forall id d id' v, (id, d) ∈ hits -> hn_nodes ix !! id' = Some v -> id' ∉ hits.*1 -> f32_gt d (l2 query v) = false).
Proof.
  intros hits. unfold hits. rewrite search_take. set (l := by_distance (scored (hn_nodes ix) query)).
  assert (Hnd : NoDup l.*1).
  { unfold l. rewrite (scored_perm (hn_nodes ix) query). change (map ?f ?l) with (f <$> l). rewrite <-list_fmap_compose. apply NoDup_fst_map_to_list. }
  split_and!.
  - rewrite length_take. unfold l. by rewrite (Permutation_length (scored_perm _ _)), length_map, length_map_to_list.
  - rewrite fmap_take. eapply sublist_NoDup; [exact Hnd|apply sublist_take].
  - intros id d Hin. apply scored_in. eapply elem_of_sublist; [exact Hin|apply sublist_take].
  - intros Hn. pose proof (scored_sorted _ query Hn) as Hs. fold l in Hs. rewrite <-(take_drop k l) in Hs. apply StronglySorted_app in Hs as (Hc & Ht & _).
    split; [done|]. intros id d id' v Hin Hv Hni. apply (Hc (id, d) (id', l2 query v)); [done|].
    assert (Hl : (id', l2 query v) ∈ take k l ++ drop k l) by (rewrite take_drop; apply scored_in; eauto).
    apply elem_of_app in Hl as [Hl|Hl]; [|done]. destruct Hni. apply list_elem_of_fmap. by exists (id', l2 query v).
Qed.
End search.

(** ** The graph *)

Section graph.
Context `{StdChoices}.

Record links_ok (nodes : gmap bytes (list f64)) (m : nat) (id : bytes) (ns : list bytes) : Prop := {
  lo_length : (length ns <= m)%nat;
  lo_nodup : NoDup ns;
  lo_self : id ∉ ns;
  lo_nodes : forall n, n ∈ ns -> n ∈ dom nodes }.
Definition graph_ok (nodes : gmap bytes (list f64)) (m : nat) (graph : gmap bytes (list bytes)) : Prop :=
  dom graph = dom nodes /\ map_Forall (links_ok nodes m) graph.

Lemma links_take nodes m id ns k : NoDup ns -> id ∉ ns -> (forall n, n ∈ ns -> n ∈ dom nodes) -> (k <= m)%nat -> links_ok nodes m id (take k ns).
Proof.
  intros Hnd Hs Hn Hk. assert (Hsub : take k ns `sublist_of` ns) by apply sublist_take.
  split; [rewrite length_take; lia|by eapply sublist_NoDup|..].
  - intros Hin. apply Hs. by eapply elem_of_sublist.
  - intros n Hin. apply Hn. by eapply elem_of_sublist.
Qed.

Lemma link_back_ok nodes m id graph n : graph_ok nodes m graph -> id ∈ dom nodes -> n ∈ dom nodes -> n <> id ->
  graph_ok nodes m (link_back nodes m id graph n).
Proof.
  intros [Hd Hg] Hid Hn Hne. unfold link_back. set (e0 := default [] (graph !! n)).
  assert (L : links_ok nodes m n e0).
  { unfold e0. destruct (graph !! n) as [ns|] eqn:E; [by apply Hg|]. split; cbn; [lia|constructor|apply not_elem_of_nil|]. intros x Hx. by apply not_elem_of_nil in Hx. }
  set (e1 := if existsb _ e0 then e0 else e0 ++ [id]).
  assert (L1 : NoDup e1 /\ n ∉ e1 /\ forall x, x ∈ e1 -> x ∈ dom nodes).
  { destruct L as [L1 L2 L3 L4]. unfold e1. destruct (existsb _ e0) eqn:Ex; [done|].
    assert (Hni : id ∉ e0).
    { intros Hin. apply not_true_iff_false in Ex. apply Ex, existsb_exists. exists id. split; [by apply list_elem_of_In|by apply bool_decide_eq_true]. }
    split_and!; [apply NoDup_app; split_and!; [done|intros x Hx ->%list_elem_of_singleton; done|apply NoDup_singleton]|set_solver|].
    intros x [Hx| ->%list_elem_of_singleton]%elem_of_app; [by apply L4|done]. }
  destruct L1 as (N1 & N2 & N3). cbv zeta. fold e1.
  split; [rewrite dom_insert_L, Hd; set_solver|]. apply map_Forall_insert_2; [|done].
  destruct (Nat.ltb_spec m (length e1)).
  - apply links_take; [by rewrite sort_by_perm|by rewrite sort_by_perm|intros x; rewrite sort_by_perm; apply N3|done].
  - by split.
Qed.

Lemma relink_ok ix id : dom (hn_graph ix) ∪ {[id]} = dom (hn_nodes ix) -> map_Forall (links_ok (hn_nodes ix) (hn_m ix)) (hn_graph ix) ->
  graph_ok (hn_nodes ix) (hn_m ix) (hn_graph (relink ix id)).
Proof.
  intros Hd Hg. unfold relink. destruct (hn_nodes ix !! id) as [vec|] eqn:E; [|apply not_elem_of_dom in E; set_solver].
  set (near := by_distance _). set (ns := map fst (take (hn_m ix) near)). cbn [hn_graph].
  assert (Hp : near.*1 ≡ₚ (filter (fun e => e.1 <> id) (map_to_list (hn_nodes ix))).*1).
  { unfold near, by_distance. rewrite sort_by_perm. change (map ?f ?l) with (f <$> l). rewrite <-list_fmap_compose, hash_iter_perm. done. }
  assert (Hns : links_ok (hn_nodes ix) (hn_m ix) id ns).
  { unfold ns. change (map fst ?l) with l.*1. rewrite fmap_take. apply links_take; [| | |done]; [rewrite Hp|rewrite Hp|intros x; rewrite Hp].
    - eapply sublist_NoDup; [apply (NoDup_fst_map_to_list (hn_nodes ix))|apply fmap_sublist, sublist_filter].
    - intros (e & Ee & [He _]%list_elem_of_filter)%list_elem_of_fmap. congruence.
    - intros ([i v] & -> & [_ Hin]%list_elem_of_filter)%list_elem_of_fmap. apply elem_of_map_to_list in Hin. by apply elem_of_dom_2 in Hin. }
  assert (Hid : id ∈ dom (hn_nodes ix)) by (by eapply elem_of_dom_2).
  assert (G : graph_ok (hn_nodes ix) (hn_m ix) (<[id := ns]> (hn_graph ix))).
  { split; [rewrite dom_insert_L, <-Hd; set_solver|]. by apply map_Forall_insert_2. }
  assert (Hn : forall n, n ∈ ns -> n ∈ dom (hn_nodes ix) /\ n <> id).
  { intros n Hn. split; [by eapply lo_nodes|]. intros ->. by eapply lo_self. }
  clear - G Hn Hid. revert G. generalize (<[id := ns]> (hn_graph ix)). induction ns as [|n ns IH]; intros g G; [done|]. cbn [fold_left].
  apply IH; [intros; apply Hn; by constructor|]. apply link_back_ok; [done|done|apply Hn; constructor..].
Qed.

Inductive hnsw_run (debug : bool) : HnswIndex -> Prop :=
| hnsw_new dim : hnsw_run debug (HnswIndex_new dim)
| hnsw_insert ix id v ix' : hnsw_run debug ix -> HnswIndex_insert debug ix id v = Ok ix' -> hnsw_run debug ix'
| hnsw_remove ix id : hnsw_run debug ix -> hnsw_run debug (HnswIndex_remove ix id).

(** After any insertions and removals every row has a list of neighbours: at most 16,
    without duplicates, without itself, all of them rows of the index. *)
Theorem hnsw_graph_invariant (debug : bool) (ix : HnswIndex) : hnsw_run debug ix ->
  hn_m ix = 16%nat /\ graph_ok (hn_nodes ix) 16 (hn_graph ix).
Proof.
  induction 1 as [dim|ix id v ix' _ [Hm [Hd Hg]] E|ix id _ [Hm [Hd Hg]]].
  - done.
  - unfold HnswIndex_insert in E. destruct (debug && _); [done|]. injection E as <-.
    set (ix1 := mkHnswIndex _ _ _ _). assert (R : graph_ok (hn_nodes ix1) (hn_m ix1) (hn_graph (relink ix1 id))).
    { apply relink_ok; cbn [ix1 hn_graph hn_nodes hn_m].
      - rewrite dom_insert_L, Hd. set_solver.
      - rewrite Hm. intros i ns Hi. destruct (Hg i ns Hi) as [L1 L2 L3 L4]. split; [done..|]. intros n Hn. rewrite dom_insert_L. apply elem_of_union_r. auto. }
    assert (P : hn_nodes (relink ix1 id) = hn_nodes ix1 /\ hn_m (relink ix1 id) = hn_m ix1) by (unfold relink; by case_match).
    destruct P as [-> ->]. cbn [ix1 hn_m] in *. by rewrite Hm in *.
  - split; [done|]. cbn [HnswIndex_remove hn_nodes hn_graph]. split; [rewrite dom_fmap_L, !dom_delete_L, Hd; done|].
    intros i ns Hi. rewrite lookup_fmap in Hi. apply fmap_Some in Hi as (ns0 & Hi & ->). apply lookup_delete_Some in Hi as [Hne Hi].
    destruct (Hg i ns0 Hi) as [L1 L2 L3 L4]. split.
    + etrans; [apply length_filter|done].
    + by apply NoDup_filter.
    + intros [_ ?]%list_elem_of_filter. done.
    + intros n [Hn Hin]%list_elem_of_filter. rewrite dom_delete_L. apply elem_of_difference. split; [by apply L4|]. by rewrite elem_of_singleton.
Qed.
End graph.

#[local] Existing Instance demo_choices.
Definition add_point (ix : HnswIndex) (e : string * Z) : HnswIndex :=
  match HnswIndex_insert true ix (bs e.1) [f64_of_Z e.2] with Ok ix' => ix' | _ => ix end.
Definition demo_index : HnswIndex :=
  HnswIndex_remove (fold_left add_point [("a", 1); ("b", 5); ("c", 2)]%string (HnswIndex_new 1)) (bs "b").

Lemma add_points_run l ix : hnsw_run true ix -> hnsw_run true (fold_left add_point l ix).
Proof.
  revert ix. induction l as [|e l IH]; intros ix Hr; [done|]. apply IH. unfold add_point.
  destruct (HnswIndex_insert _ _ _ _) eqn:E; [by eapply hnsw_insert|done..].
Qed.

Lemma hnsw_graph_invariant_witness : hn_m demo_index = 16%nat /\ graph_ok (hn_nodes demo_index) 16 (hn_graph demo_index).
Proof. apply (hnsw_graph_invariant true). apply hnsw_remove, add_points_run, hnsw_new. Defined.

Lemma search_returns_nearest_witness :
  StronglySorted (fun a b => f32_gt a.2 b.2 = false) (HnswIndex_search demo_index [f64_of_Z 3] 1) /\
  map fst (HnswIndex_search demo_index [f64_of_Z 3] 1) = [bs "c"].
Proof.
  destruct (search_returns_nearest demo_index [f64_of_Z 3] 1) as (_ & _ & _ & S). split; [|vm_compute; reflexivity].
  apply S. apply (bool_decide_eq_true_1 (map_Forall _ _)). vm_compute. reflexivity.
Defined.
