(* ===== verification/Distributed.v ===== *)
(** * The replicated engine
      (crates/noedb-engine/src: command.rs, machine.rs, region.rs, engine.rs)

    [DistributedEngine] is a cluster of Raft nodes with a storage tree for each: writes
    are proposed to the leader, and what a node has applied is replayed into its tree.
    Commands are bytes of the bincode crate, a parameter.  Metrics are left out; calls
    take the number of messages that a delivery may take. *)

From S2P Require Import Prelude BTree StorageError Mvcc MvccMemTable Txn TxnManager MemTable Text Float64 Tokens Ast Display Lexer Parser Statements Utf8 RowPack Value Cast Eval Plan TableScan SetOps RowOps WindowExec StreamAgg Executor Optimize Build Query Catalog Guards Caches AuditTrail Bind Hnsw Dml Engine.
From S2P Require Import Raft RaftNode.

(** ** command.rs *)

Definition MAX_COMMAND_BYTES : Z := 64 * 1024.

Inductive Command : Type :=
| CPut (table row column value : bytes)
| CCreateIndex (table column : bytes).

(** bincode: serialization may fail; what it returns reads back. *)
Class Bincode : Type := { cmd_ser : Command -> option bytes; cmd_deser : bytes -> option Command }.
Class BincodeLaws `{Bincode} : Prop := { bincode_round_trip : forall c b, cmd_ser c = Some b -> cmd_deser b = Some c }.

Section command.
Context `{Bincode}.

Definition Command_encode (c : Command) : outcome EngineError bytes :=
  match cmd_ser c with
  | None => Err (ECodec "bincode")
  | Some b => if len b >? MAX_COMMAND_BYTES then Err CommandTooLarge else Ok b
  end.
Definition Command_decode (b : bytes) : outcome EngineError Command :=
  if len b >? MAX_COMMAND_BYTES then Err CommandTooLarge
  else match cmd_deser b with Some c => Ok c | None => Err (ECodec "bincode") end.
End command.

(** ** region.rs *)
Definition RegionId_LOCAL : Z := 0.

Section distributed.
Context {T : Type} `{TreeOps T} `{ExecEnv} `{Scheduler} `{StdChoices} `{Unicode} `{Bincode}.
Context (conf_ser : ConfChange -> bytes) (conf_deser : bytes -> option ConfChange).

(** ** machine.rs *)

Definition apply_command (cmd : Command) : SM T ExecError unit := fun tree =>
  match cmd with
  | CPut table row column value =>
      let '(r, tree) := tr_put (cell_key table row column) value tree in (map_err ExecStorage r, tree)
  | CCreateIndex table column =>
      match create_index tree table column with
      | Ok tree => (Ok tt, tree)
      | Err e => (Err (ExecStorage e), tree)
      | Panic => (Panic, tree)
      end
  end.

(** ** engine.rs *)

Record DistributedEngine : Type := mkDistributedEngine {
  de_cluster : Cluster;
  de_stores : gmap Z T;
  de_voter_ids : list Z;
  de_watermark : gmap Z nat;
  de_leader : option Z;
  de_region : Z;
  de_shards : ShardRouter }.

(** [opened]: the trees that [LsmTree::open] returns for fresh directories *)
Definition DistributedEngine_new_voters (n : nat) (opened : T) : DistributedEngine :=
  let cluster := Cluster_new_voters n in
  let ids := cluster_voter_ids cluster in
  mkDistributedEngine cluster (list_to_map (map (fun id => (id, opened)) ids)) ids (list_to_map (map (fun id => (id, 0%nat)) ids)) None
    RegionId_LOCAL (ShardRouter_new (Z.max (len ids) 1)).

Definition with_cluster (c : Cluster) (e : DistributedEngine) : DistributedEngine :=
  mkDistributedEngine c (de_stores e) (de_voter_ids e) (de_watermark e) (de_leader e) (de_region e) (de_shards e).
Definition with_store (id : Z) (t : T) (e : DistributedEngine) : DistributedEngine :=
  mkDistributedEngine (de_cluster e) (<[id := t]> (de_stores e)) (de_voter_ids e) (de_watermark e) (de_leader e) (de_region e) (de_shards e).
Definition with_watermark (id : Z) (n : nat) (e : DistributedEngine) : DistributedEngine :=
  mkDistributedEngine (de_cluster e) (de_stores e) (de_voter_ids e) (<[id := n]> (de_watermark e)) (de_leader e) (de_region e) (de_shards e).
Definition with_leader (id : Z) (e : DistributedEngine) : DistributedEngine :=
  mkDistributedEngine (de_cluster e) (de_stores e) (de_voter_ids e) (de_watermark e) (Some id) (de_region e) (de_shards e).

Abbreviation DE A := (SM DistributedEngine EngineError A).
Definition draise {A} (x : EngineError) : DE A := fun e => (Err x, e).
Definition dpanic {A} : DE A := fun e => (Panic, e).
Definition dlift {A} (o : outcome EngineError A) : DE A := fun e => (o, e).
Definition on_cluster {A} (p : Cluster -> outcome RaftError A * Cluster) : DE A := fun e =>
  let '(r, c) := p (de_cluster e) in (map_err ERaft r, with_cluster c e).

(** The commands of [applied] from the watermark on *)
Fixpoint replay (commands : list bytes) : SM T EngineError unit :=
  match commands with
  | [] => sret tt
  | b :: commands => fun tree =>
      match Command_decode b with
      | Ok cmd => match apply_command cmd tree with
                  | (Ok _, tree) => replay commands tree
                  | (Err x, tree) => (Err (EExec x), tree)
                  | (Panic, tree) => (Panic, tree)
                  end
      | Err x => (Err x, tree)
      | Panic => (Panic, tree)
      end
  end.

Definition sync_node (id : Z) : DE unit := fun e =>
  match applied_at (de_cluster e) id with
  | None => (Panic, e)
  | Some applied =>
      let start := default 0%nat (de_watermark e !! id) in
      match de_stores e !! id with
      | None => (Ok tt, e)
      | Some tree =>
          if (length applied <? start)%nat then (Panic, e)
          else
            let '(r, tree) := replay (drop start applied) tree in
            let e := with_store id tree e in
            match r with
            | Ok _ => (Ok tt, with_watermark id (length applied) e)
            | Err x => (Err x, e)
            | Panic => (Panic, e)
            end
      end
  end.
Fixpoint sync_nodes (ids : list Z) : DE unit :=
  match ids with [] => sret tt | id :: ids => let* _ := sync_node id in sync_nodes ids end.
Definition sync_applied : DE unit := fun e => sync_nodes (de_voter_ids e) e.

Definition de_tick (fuel rounds : nat) : DE unit :=
  let* _ := on_cluster (fun c => (Ok tt, run_rounds conf_deser fuel rounds c)) in sync_applied.

Definition ensure_leader (fuel : nat) : DE Z := fun e =>
  let elect (e : DistributedEngine) : outcome EngineError Z * DistributedEngine :=
    match cluster_leader (de_cluster e) with
    | Some id => (Ok id, with_leader id e)
    | None =>
        let e := with_cluster (run_rounds conf_deser fuel 8 (de_cluster e)) e in
        match cluster_leader (de_cluster e) with
        | Some id => (Ok id, with_leader id e)
        | None => (Err NoLeader, e)
        end
    end in
  match de_leader e with
  | Some id => match raft_role (de_cluster e) id with
               | None => (Panic, e)
               | Some role => if bool_decide (role = Leader) then (Ok id, e) else elect e
               end
  | None => elect e
  end.

Definition replicate_cmd (fuel : nat) (cmd : Command) : DE unit :=
  let* b := dlift (Command_encode cmd) in
  let* _ := on_cluster (propose_on_leader conf_deser fuel b) in sync_applied.

Definition de_put_row (fuel : nat) (table row column value : bytes) : DE unit := replicate_cmd fuel (CPut table row column value).

Definition leader_store (leader : Z) : DE T := fun e =>
  match de_stores e !! leader with
  | Some t => (Ok t, e)
  | None => (Err (ERaft (Internal "leader store missing")), e)
  end.

(** Past the log: for tests and bulk loads *)
Definition seed_leader_row (fuel : nat) (table row column value : bytes) : DE unit :=
  let* leader := ensure_leader fuel in
  let* tree := leader_store leader in
  fun e => let '(r, tree) := apply_command (CPut table row column value) tree in (map_err EExec r, with_store leader tree e).

Definition de_add_voter (fuel : nat) (id : Z) : DE unit := on_cluster (add_voter conf_ser conf_deser fuel id).
Definition de_voter_count (e : DistributedEngine) : nat := voter_count (de_cluster e).

(** A query: [None] while it runs.  The barrier moves the cluster, not the stores. *)
Definition execute_select_linearizable (fuel rounds : nat) (stmt : Statement) (e : DistributedEngine)
    : option (outcome EngineError QueryResult * DistributedEngine) :=
  match (let* leader := ensure_leader fuel in
         let* _ := on_cluster (linearizable_barrier conf_deser fuel) in
         leader_store leader) e with
  | (Ok tree, e) =>
      match execute_sql_on_with_schema tree tree None rounds stmt with
      | None => None
      | Some r => Some (match r with Ok records => Ok (from_records records) | Err x => Err (EExec x) | Panic => Panic end, e)
      end
  | (Err x, e) => Some (Err x, e)
  | (Panic, e) => Some (Panic, e)
  end.

Definition de_execute (fuel rounds : nat) (sql : bytes) (e : DistributedEngine) : option (outcome EngineError QueryResult * DistributedEngine) :=
  match validate_sql sql with
  | Ok _ =>
      match parse sql with
      | Ok (SSelect q) => execute_select_linearizable fuel rounds (SSelect q) e
      | Ok (SCreateIndex idx) =>
          match ci_columns idx with
          | [column] =>
              let '(r, e) := replicate_cmd fuel (CCreateIndex (id_value (ci_table idx)) (id_value column)) e in
              Some (let? _ := r in Ok empty_ok, e)
          | _ => Some (Err (EExec UnsupportedExpr), e)
          end
      | Ok _ => Some (Err EUnsupportedStatement, e)
      | Err x => Some (Err (EParse x), e)
      | Panic => Some (Panic, e)
      end
  | Err x => Some (Err x, e)
  | Panic => Some (Panic, e)
  end.
End distributed.
