(* ===== verification/DistributedSpec.v ===== *)
(** * Replicas are their logs

    What a node has applied only grows, and the tree of a node is the replay of the
    commands up to its watermark; so replicas whose nodes applied the same commands
    hold the same tree. *)

From S2P Require Import Prelude BTree StorageError Mvcc MvccMemTable Txn TxnManager MemTable Text Float64 Tokens Ast Display Lexer Parser Statements Utf8 RowPack Value Cast Eval Plan TableScan SetOps RowOps WindowExec StreamAgg Executor Optimize Build Query Catalog Guards Caches AuditTrail Bind Hnsw Dml Engine.
From S2P Require Import Raft RaftNode Distributed EngineFacts.

(** ** Applied commands only grow *)

Section grows.
Context (conf_ser : ConfChange -> bytes) (conf_deser : bytes -> option ConfChange).
Abbreviation MemNode := (RaftNode MemStorage).
Implicit Types (n : MemNode) (c : Cluster).

Definition node_grows n n' : Prop := n_applied n `prefix_of` n_applied n'.
#[local] Instance node_grows_po : PreOrder node_grows.
Proof. split; [intros n; unfold node_grows; done|intros a b d; unfold node_grows; apply PreOrder_Transitive]. Qed.

Lemma exec_action_grows n out a : node_grows n (exec_action (n, out) a).1.
Proof. destruct a; unfold node_grows; cbn; try done. by apply prefix_app_r. Qed.
Lemma exec_fold_grows actions n out : node_grows n (fold_left exec_action actions (n, out)).1.
Proof.
  revert n out. induction actions as [|a actions IH]; intros n out; [done|]. cbn [fold_left].
  pose proof (exec_action_grows n out a) as G. destruct (exec_action (n, out) a) as [n1 out1]. etrans; [exact G|apply IH].
Qed.
Lemma exec_grows n r actions : node_grows n (exec_actions (with_raft n r) actions).1.
Proof. apply (exec_fold_grows actions (with_raft n r) []). Qed.

Lemma tick_grows et ms n : node_grows n (RaftNode_tick_ms et ms n).1.
Proof. unfold RaftNode_tick_ms. destruct (tick et ms (n_raft n)). apply exec_grows. Qed.
Lemma step_grows et from msg n n' resp out : RaftNode_step conf_deser et from msg n = (n', resp, out) -> node_grows n n'.
Proof.
  unfold RaftNode_step. destruct (dispatch _ _ _ _ _) as [[r rs] actions]. pose proof (exec_grows n r actions) as G.
  destruct (exec_actions _ _) as [n1 out1]. by intros [= <- <- <-].
Qed.
Lemma request_grows m n n' sends : run_request m n = Ok (n', sends) -> node_grows n n'.
Proof.
  unfold run_request. destruct m as [[r actions]|e|]; [|done..]. cbn [obind]. pose proof (exec_grows n r actions) as G.
  destruct (exec_actions _ _) as [n1 out1]. by intros [= <- <-].
Qed.

Definition grows c c' : Prop := forall id n, cl_nodes c !! id = Some n -> exists n', cl_nodes c' !! id = Some n' /\ node_grows n n'.
#[local] Instance grows_po : PreOrder grows.
Proof.
  split; [intros c id n Hn; by exists n|]. intros a b d H1 H2 id n Hn. destruct (H1 id n Hn) as (n1 & E1 & G1). destruct (H2 id n1 E1) as (n2 & E2 & G2).
  exists n2. split; [done|by etrans].
Qed.

Lemma grows_refl c : grows c c.
Proof. reflexivity. Qed.

Lemma post_grows id sends c : grows c (post id sends c).
Proof. intros i n Hn. by exists n. Qed.
Lemma set_node_grows id n n' c : cl_nodes c !! id = Some n -> node_grows n n' -> grows c (set_node id n' c).
Proof.
  intros E G i m Hm. cbn. destruct (decide (i = id)) as [->|Hne]; [|rewrite lookup_insert_ne by done; by exists m].
  rewrite lookup_insert_eq. exists n'. split; [done|]. by simplify_eq.
Qed.
Lemma set_new_grows id n' c : cl_nodes c !! id = None -> grows c (set_node id n' c).
Proof. intros E i m Hm. cbn. rewrite lookup_insert_ne by congruence. by exists m. Qed.

Lemma tick_all_grows ms c : grows c (tick_all ms c).
Proof.
  unfold tick_all. generalize ((btree_iter (cl_nodes c)).*1). intros ids. revert c. induction ids as [|id ids IH]; intros c; [done|]. cbn [fold_left].
  destruct (cl_nodes c !! id) as [n|] eqn:E; [|apply IH]. pose proof (tick_grows 0 ms n) as G. destruct (RaftNode_tick_ms 0 ms n) as [n' sends].
  etrans; [by eapply set_node_grows|]. etrans; [apply post_grows|apply IH].
Qed.
Lemma deliver_one_grows c : grows c (deliver_one conf_deser c).
Proof.
  unfold deliver_one. destruct (cl_inbox c) as [|[[from to] msg] rest]; [done|].
  assert (G0 : grows c (mkCluster (cl_nodes c) rest)) by (intros i n Hn; by exists n). etrans; [exact G0|]. cbn [cl_nodes].
  destruct (cl_nodes c !! to) as [n|] eqn:E; [|done]. destruct (RaftNode_step conf_deser 0 from msg n) as [[n' resp] sends] eqn:Es.
  apply step_grows in Es. etrans; [apply (set_node_grows to n n' (mkCluster (cl_nodes c) rest)); done|].
  etrans; [|apply post_grows]. destruct resp; [apply post_grows|done].
Qed.
Lemma deliver_all_grows fuel c : grows c (deliver_all conf_deser fuel c).
Proof. revert c. induction fuel as [|fuel IH]; intros c; [done|]. cbn [deliver_all]. destruct (cl_inbox c); [done|]. etrans; [apply deliver_one_grows|apply IH]. Qed.
Lemma drive_grows fuel rounds c : grows c (drive_quiescent conf_deser fuel rounds c).
Proof. revert c. induction rounds as [|k IH]; intros c; [done|]. cbn [drive_quiescent]. etrans; [apply deliver_all_grows|]. etrans; [apply tick_all_grows|apply IH]. Qed.
Lemma deliver_rounds_grows fuel rounds c : grows c (deliver_rounds conf_deser fuel rounds c).
Proof. revert c. induction rounds as [|k IH]; intros c; [done|]. cbn [deliver_rounds]. destruct (cl_inbox c); [done|]. etrans; [apply deliver_all_grows|apply IH]. Qed.
Lemma run_rounds_grows fuel rounds c : grows c (run_rounds conf_deser fuel rounds c).
Proof. revert c. induction rounds as [|k IH]; intros c; [done|]. cbn [run_rounds]. etrans; [apply tick_all_grows|]. etrans; [apply deliver_rounds_grows|apply IH]. Qed.

Lemma on_leader_grows {A} req (k : Z -> Cluster -> outcome RaftError A * Cluster) c :
  (forall n n' sends, req n = Ok (n', sends) -> node_grows n n') -> (forall id c, grows c (k id c).2) -> grows c (on_leader req k c).2.
Proof.
  intros Hr Hk. unfold on_leader. destruct (cluster_leader c) as [id|]; [|done]. destruct (cl_nodes c !! id) as [n|] eqn:E; [|done].
  destruct (req n) as [[n' sends]|e|] eqn:Er; [|done..]. apply Hr in Er.
  etrans; [by eapply set_node_grows|]. etrans; [apply post_grows|apply Hk].
Qed.

Lemma propose_grows fuel cmd c : grows c (propose_on_leader conf_deser fuel cmd c).2.
Proof.
  apply on_leader_grows; [intros; by eapply request_grows|]. intros id c0. cbv zeta. case_match; apply drive_grows.
Qed.
Lemma barrier_loop_grows fuel tries leader target c : grows c (barrier_loop conf_deser fuel tries leader target c).2.
Proof.
  revert c. induction tries as [|k IH]; intros c; [done|]. cbn [barrier_loop]. cbv zeta. destruct (cluster_commit_index _ _); [|apply drive_grows].
  case_match; [apply drive_grows|]. etrans; [apply drive_grows|apply IH].
Qed.
Lemma barrier_grows fuel c : grows c (linearizable_barrier conf_deser fuel c).2.
Proof. apply on_leader_grows; [intros; by eapply request_grows|]. intros id c0. case_match; [apply barrier_loop_grows|done]. Qed.
Lemma add_voter_grows fuel id c : grows c (add_voter conf_ser conf_deser fuel id c).2.
Proof.
  unfold add_voter. case_bool_decide as E; [done|]. apply eq_None_not_Some in E. etrans; [by apply set_new_grows|]. etrans; [apply run_rounds_grows|].
  apply on_leader_grows; [intros; by eapply request_grows|]. intros i c0. apply drive_grows.
Qed.
End grows.

(** ** The trees *)

Section replicas.
Context {T : Type} `{TreeOps T} `{ExecEnv} `{Scheduler} `{StdChoices} `{Unicode} `{Bincode}.
Context (conf_ser : ConfChange -> bytes) (conf_deser : bytes -> option ConfChange) (opened : T).
Abbreviation Eng := (DistributedEngine (T := T)).
Implicit Types e : Eng.

Lemma replay_app l1 l2 (t : T) : replay (l1 ++ l2) t = match replay l1 t with (Ok _, t') => replay l2 t' | (Err x, t') => (Err x, t') | (Panic, t') => (Panic, t') end.
Proof.
  revert t. induction l1 as [|b l1 IH]; intros t; [done|]. cbn [app replay]. destruct (Command_decode b) as [cmd|x|]; [|done..].
  destruct (apply_command cmd t) as [[u|x|] t']; [apply IH|done..].
Qed.

(** The tree of a node is the replay of its log up to the watermark. *)
Definition replica_ok e (id : Z) (tree : T) : Prop :=
  exists node, cl_nodes (de_cluster e) !! id = Some node /\
    (default 0 (de_watermark e !! id) <= length (n_applied node))%nat /\
    replay (take (default 0%nat (de_watermark e !! id)) (n_applied node)) opened = (Ok tt, tree).

(** A change of the engine keeps a replica with its log if its tree stays or its watermark
    moves. *)
Definition kept e e' (id : Z) : Prop := de_stores e' !! id = de_stores e !! id \/ de_watermark e' !! id <> de_watermark e !! id.

(** The replicas of [K] are the replay of their logs; the voters have a list. *)
Record replicas_ok (K : Z -> Prop) e : Prop := {
  ro_replicas : forall id tree, de_stores e !! id = Some tree -> K id -> replica_ok e id tree;
  ro_listed : forall id, is_Some (de_stores e !! id) -> id ∈ de_voter_ids e;
  ro_nodup : NoDup (de_voter_ids e) }.

Lemma cluster_moves K e c l : replicas_ok K e -> grows (de_cluster e) c -> 
  replicas_ok K (mkDistributedEngine c (de_stores e) (de_voter_ids e) (de_watermark e) l (de_region e) (de_shards e)).
Proof.
  intros [Hr Hl Hn] Hg. split; [|done|done]. intros id tree Ht Hk. destruct (Hr id tree Ht Hk) as (n & En & Hle & Ep). destruct (Hg id n En) as (n' & En' & [x El]).
  exists n'. cbn [de_cluster de_watermark]. rewrite El, length_app. split_and!; [done|lia|]. by rewrite take_app_le.
Qed.

Lemma replicas_weaken (K K' : Z -> Prop) e : (forall id, K' id -> K id) -> replicas_ok K e -> replicas_ok K' e.
Proof. intros H' [Hr Hl Hn]. split; [|done|done]. intros id tree Ht Hk. by apply Hr, H'. Qed.

(** Catching up one node, whatever comes of it *)
Lemma sync_node_ok K id e r e' : replicas_ok K e -> sync_node id e = (r, e') ->
  replicas_ok (fun i => K i /\ kept e e' i) e' /\ de_cluster e' = de_cluster e /\
  (forall i, i <> id -> de_watermark e' !! i = de_watermark e !! i /\ de_stores e' !! i = de_stores e !! i) /\
  (r = Ok tt -> kept e e' id /\ forall node tree, cl_nodes (de_cluster e) !! id = Some node -> de_stores e' !! id = Some tree ->
     default 0%nat (de_watermark e' !! id) = length (n_applied node)).
Proof.
  intros R. unfold sync_node, applied_at.
  assert (N : forall o, o <> Ok tt -> (o, e) = (r, e') -> replicas_ok (fun i => K i /\ kept e e' i) e' /\ de_cluster e' = de_cluster e /\
    (forall i, i <> id -> de_watermark e' !! i = de_watermark e !! i /\ de_stores e' !! i = de_stores e !! i) /\
    (r = Ok tt -> kept e e' id /\ forall node tree, cl_nodes (de_cluster e) !! id = Some node -> de_stores e' !! id = Some tree ->
      default 0%nat (de_watermark e' !! id) = length (n_applied node))).
  { intros o Ho [= <- <-]. split_and!; [|done|done|done]. by apply (replicas_weaken K); [intros ? [? _]|]. }
  destruct (cl_nodes (de_cluster e) !! id) as [n|] eqn:En; [|by apply N]. cbn [fmap option_fmap option_map].
  destruct (de_stores e !! id) as [tree|] eqn:Et.
  2: { intros [= <- <-]. split_and!; [by apply (replicas_weaken K); [intros ? [? _]|]|done|done|]. intros _. split; [by left|]. congruence. }
  destruct (Nat.ltb_spec (length (n_applied n)) (default 0%nat (de_watermark e !! id))); [by apply N|]. clear N.
  destruct R as [Hr Hl Hn]. destruct (replay _ tree) as [o tree'] eqn:Ep.
  assert (Hother : forall w i t, i <> id -> <[id := tree']> (de_stores e) !! i = Some t -> K i ->
    replica_ok (mkDistributedEngine (de_cluster e) (<[id := tree']> (de_stores e)) (de_voter_ids e) w (de_leader e) (de_region e) (de_shards e)) i t \/
    w !! i <> de_watermark e !! i).
  { intros w i t Hne Ht Hk. rewrite lookup_insert_ne in Ht by done. destruct (decide (w !! i = de_watermark e !! i)) as [E|]; [left|by right].
    destruct (Hr i t Ht Hk) as (n' & En' & ? & ?). exists n'. cbn. by rewrite E. }
  assert (Hls : forall i, is_Some (<[id := tree']> (de_stores e) !! i) -> i ∈ de_voter_ids e).
  { intros i [t Ht]. apply Hl. apply lookup_insert_Some in Ht as [[<- _]|[_ Ht]]; eauto. }
  destruct o as [[]|x|]; intros [= <- <-]; cbn [with_watermark with_store de_cluster de_watermark de_stores].
  - split_and!; [split; cbn [de_stores de_voter_ids]; [|done|done]|done|intros i Hne; by rewrite !lookup_insert_ne|].
    + intros i t Ht [Hk _]. cbn in Ht. destruct (decide (i = id)) as [->|Hne].
      * rewrite lookup_insert_eq in Ht. injection Ht as <-. exists n. cbn. rewrite lookup_insert_eq. cbn. rewrite firstn_all. split_and!; [done|done|].
        destruct (Hr id tree Et Hk) as (n' & En' & Hle & E1). assert (n' = n) as -> by congruence.
        rewrite <-(take_drop (default 0%nat (de_watermark e !! id)) (n_applied n)), replay_app, E1. exact Ep.
      * destruct (Hother (<[id := length (n_applied n)]> (de_watermark e)) i t Hne Ht Hk) as [?|Hw]; [done|]. by rewrite lookup_insert_ne in Hw.
    + intros _. unfold kept. cbn. rewrite !lookup_insert_eq. split; [|intros ? ? [= <-]; done].
      destruct (decide (Some (length (n_applied n)) = de_watermark e !! id)) as [E|]; [left|by right].
      rewrite <-E in Ep. cbn in Ep. rewrite drop_all in Ep. rewrite Et. by injection Ep as <-.
  - split_and!; [split; cbn [de_stores de_voter_ids]; [|done|done]|done|intros i Hne; by rewrite lookup_insert_ne|done].
    intros i t Ht [Hk Hkept]. unfold kept in Hkept. cbn in Ht, Hkept. destruct Hkept as [Hs|[]]; [|done]. rewrite Hs in Ht.
    destruct (Hr i t Ht Hk) as (n' & ? & ? & ?). by exists n'.
  - split_and!; [split; cbn [de_stores de_voter_ids]; [|done|done]|done|intros i Hne; by rewrite lookup_insert_ne|done].
    intros i t Ht [Hk Hkept]. unfold kept in Hkept. cbn in Ht, Hkept. destruct Hkept as [Hs|[]]; [|done]. rewrite Hs in Ht.
    destruct (Hr i t Ht Hk) as (n' & ? & ? & ?). by exists n'.
Qed.

Lemma sync_node_ids id e r e' : sync_node id e = (r, e') -> de_voter_ids e' = de_voter_ids e.
Proof. unfold sync_node. repeat case_match; intros; by simplify_eq. Qed.

Lemma sync_nodes_ok ids : forall K e r e', NoDup ids -> replicas_ok K e -> sync_nodes ids e = (r, e') ->
  replicas_ok (fun i => K i /\ kept e e' i) e' /\ de_cluster e' = de_cluster e /\ de_voter_ids e' = de_voter_ids e /\
  (forall i, i ∉ ids -> de_watermark e' !! i = de_watermark e !! i /\ de_stores e' !! i = de_stores e !! i) /\
  (r = Ok tt -> forall i, kept e e' i /\ forall node tree, i ∈ ids -> cl_nodes (de_cluster e) !! i = Some node -> de_stores e' !! i = Some tree ->
     default 0%nat (de_watermark e' !! i) = length (n_applied node)).
Proof.
  induction ids as [|id ids IH]; intros K e r e' ND R; cbn [sync_nodes].
  { intros [= <- <-]. split_and!; [by apply (replicas_weaken K); [intros ? [? _]|]|done|done|done|]. intros _ i. split; [by left|]. intros ? ? Hi. by apply not_elem_of_nil in Hi. }
  apply NoDup_cons in ND as [Hid ND]. unfold sbind. destruct (sync_node id e) as [o e1] eqn:E1. pose proof (sync_node_ids _ _ _ _ E1) as I1.
  destruct (sync_node_ok K id e o e1 R E1) as (R1 & C1 & W1 & F1).
  destruct o as [[]|x|]; [|intros [= <- <-]; split_and!; [done|done|done| |done]; intros i [? _]%not_elem_of_cons; by apply W1..].
  destruct (F1 eq_refl) as [K1 F1']. intros E2. destruct (IH _ e1 r e' ND R1 E2) as (R2 & C2 & I2 & W2 & F2).
  assert (Hk : forall i, kept e e' i -> kept e e1 i /\ kept e1 e' i).
  { intros i Hi. destruct (decide (i = id)) as [->|Hne]; unfold kept in *.
    - destruct (W2 id Hid) as [-> ->]. split; [done|by left].
    - destruct (W1 i Hne) as [Ew Es]. rewrite Ew, Es. split; [by left|exact Hi]. }
  split_and!; [|congruence|congruence| |].
  - apply (replicas_weaken (fun i => (K i /\ kept e e1 i) /\ kept e1 e' i)); [|done]. intros i [? Hi]. destruct (Hk i Hi). done.
  - intros i [Hne Hi]%not_elem_of_cons. destruct (W2 i Hi) as [-> ->]. by apply W1.
  - intros Hr i. destruct (F2 Hr i) as [K2 F2']. split.
    + destruct (decide (i = id)) as [->|Hne]; unfold kept in *; [by destruct (W2 id Hid) as [-> ->]|]. by destruct (W1 i Hne) as [<- <-].
    + intros node tree Hi Hn Ht. destruct (decide (i ∈ ids)) as [Hin|Hni]; [apply (F2' node tree); [done|by rewrite C1|done]|].
      apply elem_of_cons in Hi as [->|Hi]; [|done]. destruct (W2 id Hni) as [-> Es]. rewrite Es in Ht. by apply (F1' node tree).
Qed.

(** ... and the watermark is the end of the log. *)
Definition caught_up e (id : Z) (tree : T) : Prop :=
  exists node, cl_nodes (de_cluster e) !! id = Some node /\ replay (n_applied node) opened = (Ok tt, tree).

Lemma sync_applied_ok K e r e' : replicas_ok K e -> sync_applied e = (r, e') ->
  replicas_ok (fun i => K i /\ kept e e' i) e' /\
  (r = Ok tt -> (forall i, kept e e' i) /\ forall id tree, de_stores e' !! id = Some tree -> K id -> caught_up e' id tree).
Proof.
  intros R E. destruct (sync_nodes_ok _ K e r e' (ro_nodup _ _ R) R E) as (R' & C & I & W & F). split; [done|]. intros Hr. split; [intros i; by apply F|].
  intros id tree Ht Hk. destruct (ro_replicas _ _ R' id tree Ht) as (node & En & _ & Ep); [split; [done|by apply F]|]. exists node. split; [done|].
  assert (Hin : id ∈ de_voter_ids e) by (rewrite <-I; by apply (ro_listed _ _ R')).
  destruct (F Hr id) as [_ F']. rewrite C in En. by rewrite (F' node tree Hin En Ht), firstn_all in Ep.
Qed.

(** *** Calls *)

(** A change that leaves the trees and the watermarks alone *)
Definition trees_stay e e' : Prop := de_stores e' = de_stores e /\ de_watermark e' = de_watermark e.
Lemma stay_kept e e' id : trees_stay e e' -> kept e e' id.
Proof. intros [E _]. left. by rewrite E. Qed.

Lemma on_cluster_ok {A} K (p : Cluster -> outcome RaftError A * Cluster) e r e' : (forall c, grows c (p c).2) ->
  replicas_ok K e -> on_cluster p e = (r, e') -> replicas_ok K e' /\ trees_stay e e'.
Proof.
  intros Hp R. unfold on_cluster. specialize (Hp (de_cluster e)). destruct (p (de_cluster e)) as [o c]. intros [= <- <-].
  split; [by apply cluster_moves|done].
Qed.
Lemma ensure_leader_ok K fuel e r e' : replicas_ok K e -> ensure_leader conf_deser fuel e = (r, e') -> replicas_ok K e' /\ trees_stay e e'.
Proof.
  intros R. assert (G : forall c l, grows (de_cluster e) c ->
    replicas_ok K (mkDistributedEngine c (de_stores e) (de_voter_ids e) (de_watermark e) l (de_region e) (de_shards e))) by (intros; by apply cluster_moves).
  pose proof (run_rounds_grows conf_deser fuel 8 (de_cluster e)) as Hg.
  unfold ensure_leader. repeat case_match; intros; simplify_eq; (split; [|done]); 
    first [done|apply (G (run_rounds conf_deser fuel 8 (de_cluster e))); done|apply (G (de_cluster e)), grows_refl].
Qed.
Lemma replicate_ok K fuel cmd e r e' : replicas_ok K e -> replicate_cmd conf_deser fuel cmd e = (r, e') ->
  replicas_ok (fun i => K i /\ kept e e' i) e' /\
  (r = Ok tt -> (forall i, kept e e' i) /\ forall id tree, de_stores e' !! id = Some tree -> K id -> caught_up e' id tree).
Proof.
  intros R. assert (Hw : forall e1, replicas_ok K e1 -> replicas_ok (fun i => K i /\ kept e e1 i) e1) by (intros e1; apply replicas_weaken; by intros ? [? _]).
  unfold replicate_cmd, sbind, dlift. destruct (Command_encode cmd) as [b|x|]; [|intros [= <- <-]; split; [by apply Hw|done]..].
  destruct (on_cluster _ e) as [o e1] eqn:E1. destruct (on_cluster_ok K _ _ _ _ (propose_grows conf_deser fuel b) R E1) as [R1 [S1 W1]].
  destruct o as [[]|x|]; [|intros [= <- <-]; split; [by apply Hw|done]..].
  intros E2. destruct (sync_applied_ok K e1 r e' R1 E2) as [R2 F2]. unfold kept in *. by rewrite S1, W1 in *.
Qed.
Lemma select_ok K fuel rounds stmt e r e' : replicas_ok K e ->
  execute_select_linearizable conf_deser fuel rounds stmt e = Some (r, e') -> replicas_ok K e' /\ trees_stay e e'.
Proof.
  intros R. unfold execute_select_linearizable, sbind.
  destruct (ensure_leader conf_deser fuel e) as [o e1] eqn:E1. destruct (ensure_leader_ok _ _ _ _ _ R E1) as [R1 [S1 W1]].
  destruct o as [leader|x|]; [|by intros [= <- <-]..].
  destruct (on_cluster _ e1) as [o e2] eqn:E2. destruct (on_cluster_ok _ _ _ _ _ (barrier_grows conf_deser fuel) R1 E2) as [R2 [S2 W2]].
  assert (T2 : trees_stay e e2) by (split; congruence). destruct o as [i|x|]; [|by intros [= <- <-]..].
  unfold leader_store. destruct (de_stores e2 !! leader); [|by intros [= <- <-]]. destruct (execute_sql_on_with_schema _ _ _ _ _); [|done]. by intros [= <- <-].
Qed.

(** *** The theorem *)

(** The calls of the engine and whether they succeed; [false] for all calls of
    [seed_leader_row], which writes past the log *)
Inductive de_call (e e' : Eng) : bool -> Prop :=
| call_tick fuel rounds r : de_tick conf_deser fuel rounds e = (r, e') -> de_call e e' (is_ok r)
| call_put fuel table row column value r : de_put_row conf_deser fuel table row column value e = (r, e') -> de_call e e' (is_ok r)
| call_seed fuel table row column value r : seed_leader_row conf_deser fuel table row column value e = (r, e') -> de_call e e' false
| call_voter fuel id r : de_add_voter conf_ser conf_deser fuel id e = (r, e') -> de_call e e' (is_ok r)
| call_leader fuel r : ensure_leader conf_deser fuel e = (r, e') -> de_call e e' (is_ok r)
| call_sql fuel rounds sql r : de_execute conf_deser fuel rounds sql e = Some (r, e') -> de_call e e' (is_ok r).

(** A cluster, any calls on it, and the replicas that every one of them kept with their logs *)
Inductive de_run : Eng -> (Z -> Prop) -> Prop :=
| run_new n : de_run (DistributedEngine_new_voters n opened) (fun _ => True)
| run_call e K e' ok : de_run e K -> de_call e e' ok -> de_run e' (fun id => K id /\ kept e e' id).

Lemma call_ok K e e' ok : replicas_ok K e -> de_call e e' ok ->
  replicas_ok (fun i => K i /\ kept e e' i) e' /\ (ok = true -> forall i, kept e e' i).
Proof.
  intros R Hc. assert (Hw : forall e1, replicas_ok K e1 -> replicas_ok (fun i => K i /\ kept e e1 i) e1) by (intros e1; apply replicas_weaken; by intros ? [? _]).
  assert (Hst : replicas_ok K e' /\ trees_stay e e' -> replicas_ok (fun i => K i /\ kept e e' i) e' /\ (ok = true -> forall i, kept e e' i)).
  { intros [R' S']. split; [by apply Hw|]. intros _ i. by apply stay_kept. }
  destruct Hc as [fuel rounds r E|fuel table row column value r E|fuel table row column value r E|fuel id r E|fuel r E|fuel rounds sql r E].
  - unfold de_tick, sbind in E. destruct (on_cluster _ e) as [o e1] eqn:E1.
    destruct (on_cluster_ok K (fun c => (Ok tt, run_rounds conf_deser fuel rounds c)) e o e1) as [R1 [S1 W1]]; [intros; apply run_rounds_grows|done|done|].
    destruct o as [[]|x|]; [|injection E as <- <-; split; [by apply Hw|done]..].
    destruct (sync_applied_ok K e1 r e' R1 E) as [R2 F2]. unfold kept in *. rewrite S1, W1 in *. split; [done|]. intros Hr. apply F2. by destruct r as [[]| |].
  - destruct (replicate_ok K fuel _ e r e' R E) as [R2 F2]. split; [done|]. intros Hr. apply F2. by destruct r as [[]| |].
  - split; [|done]. unfold seed_leader_row, sbind in E. destruct (ensure_leader conf_deser fuel e) as [o e1] eqn:E1.
    destruct (ensure_leader_ok _ _ _ _ _ R E1) as [R1 [S1 W1]]. destruct o as [leader|x|]; [|injection E as <- <-; by apply Hw..].
    unfold leader_store in E. destruct (de_stores e1 !! leader) as [tree|] eqn:Et; [|injection E as <- <-; by apply Hw].
    destruct (apply_command _ tree) as [o tree']. injection E as <- <-. destruct R1 as [Hr Hl Hn]. split; cbn; [|intros i [t Ht]|done].
    + intros i t Ht [Hk Hkept]. unfold kept in Hkept. cbn in Hkept. rewrite <-S1, <-W1 in Hkept. destruct Hkept as [Hs|[]]; [|done].
      rewrite Hs in Ht. destruct (Hr i t Ht Hk) as (n & ? & ? & ?). by exists n.
    + apply Hl. apply lookup_insert_Some in Ht as [[<- _]|[_ Ht]]; eauto.
  - apply Hst. apply (on_cluster_ok K _ _ _ _ (add_voter_grows conf_ser conf_deser fuel id) R E).
  - apply Hst. by eapply ensure_leader_ok.
  - unfold de_execute in E. assert (Hsame : forall o, Some (o, e) = Some (r, e') -> replicas_ok K e' /\ trees_stay e e') by (by intros o [= <- <-]).
    destruct (validate_sql sql); [|by eauto..]. destruct (parse sql) as [[]|x|]; try by eauto.
    + apply Hst. by eapply select_ok.
    + destruct (ci_columns s) as [|column [|]]; try by eauto. destruct (replicate_cmd _ _ _ e) as [o e1] eqn:E1. injection E as <- <-.
      destruct (replicate_ok K _ _ e o e1 R E1) as [R2 F2]. split; [done|]. intros Hr. apply F2. by destruct o as [[]| |].
Qed.

Lemma new_voters_ok n : replicas_ok (fun _ => True) (DistributedEngine_new_voters n opened).
Proof.
  unfold DistributedEngine_new_voters. set (ids := cluster_voter_ids _).
  assert (L : forall id t, (list_to_map (map (fun id => (id, opened)) ids) : gmap Z T) !! id = Some t -> id ∈ ids /\ t = opened).
  { intros id t Ht. apply elem_of_list_to_map_2, list_elem_of_fmap in Ht as (i & [= -> ->] & Hi). done. }
  split; cbn.
  - intros id tree Ht _. apply L in Ht as [Hi ->]. unfold ids, cluster_voter_ids in Hi. apply list_elem_of_fmap in Hi as ([i node] & -> & Hin).
    apply elem_of_btree_iter in Hin. exists node. cbn [de_cluster de_watermark fst]. fold ids.
    assert (W : default 0%nat ((list_to_map (map (fun id => (id, 0%nat)) ids) : gmap Z nat) !! i) = 0%nat).
    { destruct ((list_to_map _ : gmap Z nat) !! i) eqn:E; [|done]. apply elem_of_list_to_map_2, list_elem_of_fmap in E as (j & [= _ ->] & _). done. }
    rewrite W. split_and!; [done|lia|done].
  - intros id [t Ht]. by apply L in Ht as [? _].
  - apply NoDup_btree_iter_keys.
Qed.

Lemma run_ok e K : de_run e K -> replicas_ok K e.
Proof. induction 1 as [n|e K e' ok _ IH Hc]; [apply new_voters_ok|by eapply call_ok]. Qed.

(** C10. Take any run of the replicated engine: ticks, writes, queries, new voters and rows
    seeded past the log, in any order, each with any result.  A replica that no call took
    off its log, by changing its tree and not its watermark, is the replay, from the tree it
    was opened with, of the commands that its Raft node applied up to its watermark.  A call
    that succeeds, other than the seeding of a row, takes no replica off; and after a write
    that succeeds these replicas have replayed all that their nodes applied, so that two of
    them whose nodes applied the same commands hold the same tree.  (The replicas that are
    taken off are the leader that a row is seeded into and the one whose replay fails.) *)
Theorem replicas_follow_log (e : Eng) (K : Z -> Prop) : de_run e K ->
  (forall id tree, de_stores e !! id = Some tree -> K id -> replica_ok e id tree) /\
  (forall e', de_call e e' true -> forall id, kept e e' id) /\
  (forall fuel table row column value e', de_put_row conf_deser fuel table row column value e = (Ok tt, e') ->
     (forall id tree, de_stores e' !! id = Some tree -> K id -> caught_up e' id tree) /\
     forall i j ti tj ni nj, K i -> K j -> de_stores e' !! i = Some ti -> de_stores e' !! j = Some tj ->
       cl_nodes (de_cluster e') !! i = Some ni -> cl_nodes (de_cluster e') !! j = Some nj ->
       n_applied ni = n_applied nj -> ti = tj).
Proof.
  intros Hr. pose proof (run_ok e K Hr) as R. split; [apply R|]. split; [intros e' Hc; by apply (call_ok K e e' true R Hc)|].
  intros fuel table row column value e' E. destruct (replicate_ok K fuel _ e _ e' R E) as [_ F]. destruct (F eq_refl) as [_ C].
  split; [done|]. intros i j ti tj ni nj Ki Kj Hi Hj Ni Nj Ea.
  destruct (C i ti Hi Ki) as (n1 & E1 & P1). destruct (C j tj Hj Kj) as (n2 & E2 & P2). simplify_eq. rewrite Ea in P1. congruence.
Qed.
End replicas.

(** ** A cluster of three *)

#[local] Existing Instance demo_env.
#[local] Existing Instance demo_choices.
#[local] Existing Instance demo_scheduler.
#[local] Existing Instance ascii_unicode.
#[local] Existing Instance EngineFacts.demo_tree.
#[local] Existing Instance coded_text.

#[local] Instance Command_eq_dec : EqDecision Command.
Proof. solve_decision. Defined.
#[local] Instance Command_countable : Countable Command.
Proof.
  refine (inj_countable' (fun c => match c with CPut t r c v => inl (t, r, c, v) | CCreateIndex t c => inr (t, c) end)
    (fun x => match x with inl (t, r, c, v) => CPut t r c v | inr (t, c) => CCreateIndex t c end) _). by intros [].
Defined.
#[local] Instance demo_bincode : Bincode := {| cmd_ser c := Some (to_json c); cmd_deser b := from_json b |}.
Lemma demo_bincode_laws : BincodeLaws.
Proof. split. intros c b [= <-]. apply (json_round_trip (JsonLaws := coded_text_laws)). Qed.

Definition demo_conf_ser (cc : ConfChange) : bytes := match cc with AddVoter i => [x01; z2b i] | RemoveVoter i => [x02; z2b i] end.
Definition demo_conf_deser (b : bytes) : option ConfChange :=
  match b with [x01; i] => Some (AddVoter (b2z i)) | [x02; i] => Some (RemoveVoter (b2z i)) | _ => None end.

Definition demo_opened : option Lsm.LsmTree := match Lsm.LsmTree_open Lsm.fresh_disk Lsm.LsmConfig_default with Ok t => Some t | _ => None end.

(** From a fresh cluster: elect, write, and what comes of it *)
Definition after_write : option (DistributedEngine (T := Lsm.LsmTree)) :=
  t ← demo_opened;
  match de_tick demo_conf_deser 200 20 (DistributedEngine_new_voters 3 t) with
  | (Ok _, e) => match de_put_row demo_conf_deser 200 (bs "t") (bs "1") (bs "v") (bs "x") e with (Ok _, e) => Some e | _ => None end
  | _ => None
  end.

(** A write goes through the log of three nodes into three trees, and a query reads it. *)
Theorem cluster_runs :
  (fun e => (map (fun id => de_watermark e !! id) [1; 2; 3], fst <$> de_execute demo_conf_deser 200 20 (bs "SELECT v FROM t") e)) <$> after_write =
  Some ([Some 1; Some 1; Some 1]%nat, Some (Ok (mkQueryResult [bs "v"] [[bs "x"]]))).
Proof. vm_compute. reflexivity. Qed.

(** [add_voter] adds the node to the Raft cluster but gives it no tree: it applies later
    writes, and nothing is stored for it; should it become the leader, every query fails
    for a missing store. *)
Theorem added_voter_has_no_store :
  (e ← after_write;
   match de_add_voter demo_conf_ser demo_conf_deser 200 4 e with
   | (Ok _, e) => match de_put_row demo_conf_deser 400 (bs "t") (bs "2") (bs "v") (bs "y") e with
                  | (Ok _, e) => Some (de_voter_count e, length <$> applied_at (de_cluster e) 4, bool_decide (is_Some (de_stores e !! 4)),
                                       (leader_store 4 e).1)
                  | _ => None
                  end
   | _ => None
   end) = Some (4%nat, Some 2%nat, false, Err (ERaft (Internal "leader store missing"))).
Proof. vm_compute. reflexivity. Qed.

(** [propose_on_leader] reports success once the leader has ever applied something: with
    both followers gone, a second proposal is accepted and never applied. *)
Theorem unreplicated_proposal_succeeds :
  (e ← after_write;
   let '(r, c) := propose_on_leader demo_conf_deser 200 (bs "lost") (remove_node 2 (remove_node 3 (de_cluster e))) in
   Some (r, cluster_leader c, existsb (fun b => bool_decide (b = bs "lost")) (default [] (applied_at c 1)))) = Some (Ok tt, Some 1, false).
Proof. vm_compute. reflexivity. Qed.

(** A seeded row is only in the tree of the leader. *)
Theorem seeded_row_not_replicated :
  (e ← after_write;
   match seed_leader_row demo_conf_deser 200 (bs "t") (bs "2") (bs "v") (bs "y") e with
   | (Ok _, e) => Some (map (fun id => match de_stores e !! id with Some t => len (tr_iter t) | None => 0 end) [1; 2; 3])
   | _ => None
   end) = Some [2; 1; 1].
Proof. vm_compute. reflexivity. Qed.

Lemma replicas_follow_log_witness :
  match demo_opened with
  | Some t => exists e, de_run demo_conf_ser demo_conf_deser t e (fun id => True /\ kept (DistributedEngine_new_voters 3 t) e id) /\
      forall id tree, de_stores e !! id = Some tree -> replica_ok t e id tree
  | None => False
  end.
Proof.
  assert (E : (t ← demo_opened; Some (is_ok (de_tick demo_conf_deser 200 20 (DistributedEngine_new_voters 3 t)).1)) = Some true) by (vm_compute; reflexivity).
  destruct demo_opened as [t|]; [|discriminate E]. unfold mbind, option_bind in E. destruct (de_tick demo_conf_deser 200 20 (DistributedEngine_new_voters 3 t)) as [r e] eqn:Ed.
  assert (Hc : de_call demo_conf_ser demo_conf_deser (DistributedEngine_new_voters 3 t) e true).
  { injection E as <-. by eapply call_tick. }
  pose proof (run_new demo_conf_ser demo_conf_deser t 3) as R0. pose proof (run_call demo_conf_ser demo_conf_deser t _ _ e _ R0 Hc) as R.
  exists e. split; [exact R|]. intros id tree Ht.
  apply (proj1 (replicas_follow_log demo_conf_ser demo_conf_deser t e _ R) id tree Ht). split; [exact I|].
  exact (proj1 (proj2 (replicas_follow_log demo_conf_ser demo_conf_deser t _ _ R0)) e Hc id).
Defined.

(** ** Commands *)

(** What a command is encoded to decodes to it, and never exceeds the limit; longer
    payloads are refused on both sides. *)
Theorem command_round_trip `{BincodeLaws} (c : Command) (b : bytes) :
  (Command_encode c = Ok b -> Command_decode b = Ok c /\ len b <= MAX_COMMAND_BYTES) /\
  (MAX_COMMAND_BYTES < len b -> Command_decode b = Err CommandTooLarge).
Proof.
  unfold Command_encode, Command_decode. split.
  - destruct (cmd_ser c) as [b'|] eqn:E; [|done]. destruct (Z.gtb_spec (len b') MAX_COMMAND_BYTES); [done|]. intros [= <-].
    destruct (Z.gtb_spec (len b') MAX_COMMAND_BYTES); [lia|]. by rewrite (bincode_round_trip _ _ E).
  - intros Hl. destruct (Z.gtb_spec (len b) MAX_COMMAND_BYTES); [done|lia].
Qed.
Lemma command_round_trip_witness : exists b, Command_decode b = Ok (CPut (bs "t") (bs "1") (bs "v") (bs "x")) /\ len b <= MAX_COMMAND_BYTES.
Proof.
  exists (to_json (CPut (bs "t") (bs "1") (bs "v") (bs "x"))). apply (command_round_trip (H := demo_bincode) (H0 := demo_bincode_laws)). vm_compute. reflexivity.
Defined.
