(* ===== verification/Explain.v ===== *)
(** * EXPLAIN (crates/noedb-planner/src/explain.rs, lib.rs: explain_sql,
      explain_sql_with_schema; crates/noedb-engine/src/engine.rs: explain of both engines)

    The physical plan as indented lines, and its estimated cost.  The debug form of a
    string and the two-digit form of a float are the standard library's and are
    parameters. *)

From S2P Require Import Prelude BTree StorageError Mvcc MemTable Text Float64 Tokens Ast Display Utf8 RowPack Value Cast Eval Plan TableScan SetOps RowOps WindowExec StreamAgg Executor Optimize Build Query Lexer Parser Statements Txn TxnManager Catalog Guards Caches AuditTrail Bind Hnsw Dml EngineFacts Engine Raft RaftNode Distributed.

Class DebugText : Type := { debug_str : bytes -> bytes; fixed2 : f64 -> bytes }.

(** ** Columns *)

(** [rsplit('.').next()] *)
Definition last_part (name : bytes) : bytes := default name (last (split_at dot name)).
Definition is_internal_column (name : bytes) : bool :=
  starts_with (bs "__") (last_part name) && ends_with (bs "__") (last_part name).

(** [split_once('.')]: what stands before the first dot *)
Definition qualifier (c : bytes) : option bytes :=
  match split_at dot c with q :: _ :: _ => Some q | _ => None end.

Definition keep_column (table : option bytes) (c : bytes) : bool :=
  negb (is_internal_column c) &&
  match table, qualifier c with
  | Some t, Some q => bool_decide (q = t)
  | _, _ => true
  end.

Definition display_columns (columns : option (list bytes)) (table : option bytes) : bytes :=
  match columns with
  | None => bs "*"
  | Some cols =>
      match dedup_adjacent (filter (fun c => keep_column table c = true) cols) with
      | [] => bs "*"
      | visible => sep_by (bs ", ") visible
      end
  end.

(** ** Lines *)

Section text.
Context `{DebugText}.

Definition pad (indent : nat) : bytes := concat (replicate indent (bs "  ")).
(** "rows≈" *)
Definition rows_about : bytes := bs "rows" ++ [xe2; x89; x88].
(** [{k:?}] of a byte vector *)
Definition debug_bytes (k : bytes) : bytes := bs "[" ++ sep_by (bs ", ") (map (fun b => show_Z (b2z b)) k) ++ bs "]".
Definition cols_text (cols : bytes) : bytes := bs ", columns=[" ++ cols ++ bs "])".

Definition op_name (plan : PhysicalPlan) : bytes :=
  match plan with
  | PSeqScan _ _ _ => bs "SeqScan"
  | PIndexScan _ _ _ _ => bs "IndexScan"
  | PPkLookup _ _ _ => bs "PkLookup"
  | PFilter _ _ => bs "Filter"
  | PProject _ _ => bs "Project"
  | PHashJoin _ _ _ _ _ _ => bs "HashJoin"
  | PNestedLoopJoin _ _ _ => bs "NestedLoopJoin"
  | PMergeJoin _ _ _ _ _ => bs "MergeJoin"
  | PAggregate _ _ _ => bs "Aggregate"
  | PSort _ _ _ => bs "Sort"
  | PLimit _ _ _ => bs "Limit"
  | PWindow _ _ => bs "Window"
  | PSemiJoin _ _ _ _ _ _ => bs "SemiJoin"
  | PCteScan _ _ _ => bs "CteScan"
  | PSetOp _ _ _ _ => bs "SetOp"
  | PDedup _ => bs "Dedup"
  | PSubqueryScan _ _ _ => bs "SubqueryScan"
  end.

(** What follows the name of the operator on its line *)
Definition op_detail (stats : PlanStats) (plan : PhysicalPlan) : bytes :=
  match plan with
  | PSeqScan table _ columns =>
      bs "(table=" ++ table ++ bs ", " ++ rows_about ++ show_Z (rows_for stats table) ++
      cols_text (display_columns columns (Some table))
  | PIndexScan table column point_key columns =>
      bs "(table=" ++ table ++ bs ", index=" ++ column ++ bs ", key=" ++
      match point_key with None => bs "?" | Some k => debug_bytes k end ++ bs ", " ++ rows_about ++
      show_Z (estimated_eq_rows stats table column) ++ cols_text (display_columns columns (Some table))
  | PPkLookup table row_id columns =>
      bs "(table=" ++ table ++ bs ", row_id=" ++ debug_str (from_utf8_lossy row_id) ++ bs ", " ++ rows_about ++ bs "1" ++
      cols_text (display_columns columns (Some table))
  | PFilter _ _ | PNestedLoopJoin _ _ _ | PDedup _ => []
  | PProject _ items => bs "(cols=" ++ show_Z (len items) ++ bs ")"
  | PHashJoin _ _ _ lk rk _ | PMergeJoin _ _ _ lk rk => bs "(keys=" ++ lk ++ bs "=" ++ rk ++ bs ")"
  | PAggregate _ group_by aggs =>
      bs "(groups=" ++ show_Z (len group_by) ++ bs ", aggs=" ++ show_Z (len aggs) ++ bs ")"
  | PSort _ keys top_k =>
      bs "(keys=" ++ show_Z (len keys) ++ match top_k with Some k => bs ", top_k=" ++ show_Z k | None => [] end ++ bs ")"
  | PLimit _ limit offset => bs "(limit=" ++ show_Z limit ++ bs ", offset=" ++ show_Z offset ++ bs ")"
  | PWindow _ windows => bs "(funcs=" ++ show_Z (len windows) ++ bs ")"
  | PSemiJoin _ _ lk rk _ negated =>
      bs "(" ++ (if negated then bs "NOT IN" else bs "IN") ++ bs ", keys=" ++ lk ++ bs "=" ++ rk ++ bs ")"
  | PCteScan name _ columns => bs "(name=" ++ name ++ cols_text (display_columns columns None)
  | PSetOp _ _ op all =>
      bs "(" ++ match op with SUnion => bs "UNION" | SIntersect => bs "INTERSECT" | SExcept => bs "EXCEPT" end ++
      (if all then bs " ALL" else []) ++ bs ")"
  | PSubqueryScan _ prefix columns => bs "(alias=" ++ prefix ++ cols_text (display_columns columns None)
  end.

Definition plan_line (stats : PlanStats) (indent : nat) (plan : PhysicalPlan) : bytes :=
  pad indent ++ op_name plan ++ op_detail stats plan.

Fixpoint write_plan (stats : PlanStats) (plan : PhysicalPlan) (indent : nat) : list bytes :=
  plan_line stats indent plan ::
  match plan with
  | PSeqScan _ _ _ | PIndexScan _ _ _ _ | PPkLookup _ _ _ | PCteScan _ _ _ => []
  | PFilter input _ | PProject input _ | PAggregate input _ _ | PSort input _ _ | PLimit input _ _ | PWindow input _
  | PDedup input | PSubqueryScan input _ _ => write_plan stats input (S indent)
  | PHashJoin l r _ _ _ _ | PNestedLoopJoin l r _ | PMergeJoin l r _ _ _ | PSemiJoin l r _ _ _ _ | PSetOp l r _ _ =>
      write_plan stats l (S indent) ++ write_plan stats r (S indent)
  end.

Definition explain_finish (lines : list bytes) (total_cost : f64) : bytes :=
  concat (map (fun l => l ++ [x0a]) lines) ++ bs "Total cost: " ++ fixed2 total_cost ++ [x0a].

Definition explain (plan : PhysicalPlan) (stats : PlanStats) : bytes :=
  explain_finish (write_plan stats plan 0) (estimate plan stats).
End text.

(** ** Statements *)

Section statements.
Context {T : Type} `{RowStore T} `{ExecEnv} `{Scheduler} `{StdChoices} `{DebugText}.

(** [None] while a scalar subquery runs; a subquery that fails is left in place *)
Definition explain_sql_with_schema (fuel : nat) (stmt : Statement) (store : T) (schema : option QuerySchema)
    : option (outcome PlanError bytes) :=
  match fold_scalar_subqueries (execute_sql_on_with_schema store store schema fuel) stmt with
  | None => None
  | Some folded =>
      let stmt := match folded with Ok (Some stmt') => stmt' | _ => stmt end in
      Some (match folded with
            | Panic => Panic
            | _ =>
                let? logical := build_with_schema stmt schema in
                let stats := load_plan_stats store in
                Ok (explain (optimize logical (mkPlanContext store stats)) stats)
            end)
  end.
Definition explain_sql (fuel : nat) (stmt : Statement) (store : T) : option (outcome PlanError bytes) :=
  explain_sql_with_schema fuel stmt store None.
End statements.

Definition plan_err (e : PlanError) : EngineError := EExec (ExecPlan e).
Definition explained (o : option (outcome PlanError bytes)) : option (outcome EngineError bytes) :=
  match o with None => None | Some r => Some (map_err plan_err r) end.

Section engines.
Context {T C : Type} `{TreeOps T} `{LruOps C CacheKey QueryResult} `{ExecEnv} `{Scheduler} `{StdChoices} `{Unicode} `{DebugText}.

Definition LocalEngine_explain (fuel : nat) (sql : bytes) (e : LocalEngine T C) : option (outcome EngineError bytes) :=
  match validate_sql sql with
  | Err x => Some (Err x)
  | Panic => Some Panic
  | Ok _ =>
      match parse sql with
      | Err x => Some (Err (EParse x))
      | Panic => Some Panic
      | Ok stmt =>
          let stmt := apply_rls stmt (le_rls e) (session_role_for DEFAULT_SESSION e) in
          explained (explain_sql_with_schema fuel stmt (le_tree e) (Some (query_schema (le_schema e))))
      end
  end.
End engines.

Section distributed.
Context {T : Type} `{TreeOps T} `{ExecEnv} `{Scheduler} `{StdChoices} `{Unicode} `{DebugText}.
Context (conf_deser : bytes -> option ConfChange).

Definition de_explain (fuel rounds : nat) (sql : bytes) (e : DistributedEngine (T := T))
    : option (outcome EngineError bytes * DistributedEngine (T := T)) :=
  match validate_sql sql with
  | Err x => Some (Err x, e)
  | Panic => Some (Panic, e)
  | Ok _ =>
      match parse sql with
      | Err x => Some (Err (EParse x), e)
      | Panic => Some (Panic, e)
      | Ok stmt =>
          match (let* leader := ensure_leader conf_deser fuel in leader_store leader) e with
          | (Ok tree, e) => match explained (explain_sql rounds stmt tree) with None => None | Some r => Some (r, e) end
          | (Err x, e) => Some (Err x, e)
          | (Panic, e) => Some (Panic, e)
          end
      end
  end.
End distributed.

(** ** The outline of a plan is read back from its lines *)

Inductive Outline : Type := Op (name : bytes) (inputs : list Outline).

Fixpoint plan_outline (plan : PhysicalPlan) : Outline :=
  Op (op_name plan)
    match plan with
    | PSeqScan _ _ _ | PIndexScan _ _ _ _ | PPkLookup _ _ _ | PCteScan _ _ _ => []
    | PFilter input _ | PProject input _ | PAggregate input _ _ | PSort input _ _ | PLimit input _ _ | PWindow input _
    | PDedup input | PSubqueryScan input _ _ => [plan_outline input]
    | PHashJoin l r _ _ _ _ | PNestedLoopJoin l r _ | PMergeJoin l r _ _ _ | PSemiJoin l r _ _ _ _ | PSetOp l r _ _ =>
        [plan_outline l; plan_outline r]
    end.

(** A line is two spaces per level, a name of letters, and the rest. *)
Fixpoint read_name (s : bytes) : bytes :=
  match s with b :: r => if is_ascii_alphabetic b then b :: read_name r else [] | [] => [] end.
Fixpoint read_line (s : bytes) : nat * bytes :=
  match s with
  | x20 :: x20 :: r => let '(d, n) := read_line r in (S d, n)
  | _ => (0%nat, read_name s)
  end.

(** Lines are read from the last to the first; the operators read so far that are
    deeper than a line are its inputs. *)
Fixpoint deeper (d : nat) (l : list (nat * Outline)) : list Outline * list (nat * Outline) :=
  match l with
  | (d', o) :: r => if (d <? d')%nat then let '(os, rest) := deeper d r in (o :: os, rest) else ([], l)
  | [] => ([], [])
  end.
Definition add_line (line : bytes) (l : list (nat * Outline)) : list (nat * Outline) :=
  let '(d, name) := read_line line in
  let '(inputs, rest) := deeper d l in (d, Op name inputs) :: rest.
Definition read_outline (lines : list bytes) : list Outline := map snd (fold_right add_line [] lines).

Section outline.
Context `{DebugText} (stats : PlanStats).

Lemma read_line_pad d s : (forall r, s <> x20 :: x20 :: r) -> read_line (pad d ++ s) = (d, read_name s).
Proof.
  intros Hs. induction d as [|d IH].
  - destruct s as [|b s]; [done|]. destruct b; try reflexivity. destruct s as [|c s]; [done|]. destruct c; try reflexivity. by destruct (Hs s).
  - change (pad (S d) ++ s) with (x20 :: x20 :: (pad d ++ s)). cbn [read_line]. by rewrite IH.
Qed.

Lemma read_plan_line d plan : read_line (plan_line stats d plan) = (d, op_name plan).
Proof. unfold plan_line. rewrite read_line_pad; [destruct plan; reflexivity|by destruct plan]. Qed.

(** Operators already read that do not belong to a line at depth [d] *)
Definition settled (d : nat) (l : list (nat * Outline)) : Prop := match l with (d', _) :: _ => (d' <= d)%nat | [] => True end.

Lemma deeper_settled d l : settled d l -> deeper d l = ([], l).
Proof. destruct l as [|[d' o] l]; [done|]. cbn [deeper settled]. intros. destruct (Nat.ltb_spec d d'); [lia|done]. Qed.
Lemma deeper_input d o l : deeper d ((S d, o) :: l) = let '(os, rest) := deeper d l in (o :: os, rest).
Proof. cbn [deeper]. destruct (Nat.ltb_spec d (S d)); [done|lia]. Qed.
Lemma settled_up d l : settled d l -> settled (S d) l.
Proof. destruct l as [|[d' o'] l]; cbn; [done|lia]. Qed.
Lemma settled_same d o l : settled d ((d, o) :: l).
Proof. cbn. lia. Qed.

Lemma read_plan plan : forall d l, settled d l ->
  fold_right add_line l (write_plan stats plan d) = (d, plan_outline plan) :: l.
Proof.
  induction plan; intros d l Hl; cbn [write_plan fold_right plan_outline]; rewrite ?fold_right_app;
    repeat match goal with
    | IH : forall d l, settled d l -> _ |- _ => rewrite IH by first [apply settled_same | apply settled_up; assumption]
    end;
    unfold add_line; rewrite read_plan_line, ?deeper_input, (deeper_settled d l Hl); done.
Qed.

(** EXPLAIN shows the tree of operators: it can be read back from the lines. *)
Theorem explain_outline plan : read_outline (write_plan stats plan 0) = [plan_outline plan].
Proof. unfold read_outline. by rewrite read_plan. Qed.
End outline.

(** A scan of a table under an alias shows [*] instead of its columns: their qualifier
    is compared with the name of the table. *)
Theorem explain_hides_aliased_columns :
  display_columns (Some [bs "a.x"]) (Some (bs "orders")) = bs "*" /\
  display_columns (Some [bs "orders.x"]) (Some (bs "orders")) = bs "orders.x".
Proof. by vm_compute. Qed.

(** ** EXPLAIN shows the plan that runs *)

Section runs.
Context {T : Type} `{RowStore T} `{ExecEnv} `{Scheduler} `{StdChoices} `{DebugText} (store : T) (schema : option QuerySchema).

(** A statement that runs to a result was run by the plan that EXPLAIN prints. *)
Theorem explain_shows_executed_plan (fuel : nat) (stmt : Statement) (rows : list Record_) :
  execute_sql_on_with_schema store store schema (S fuel) stmt = Some (Ok rows) ->
  exists plan tables,
    explain_sql_with_schema fuel stmt store schema = Some (Ok (explain plan (load_plan_stats store))) /\
    Executor.execute plan (mkExecutionContext store store tables) = Ok rows.
Proof.
  cbn [execute_sql_on_with_schema]. unfold execute_statement, explain_sql_with_schema.
  destruct (fold_scalar_subqueries _ stmt) as [[folded| |]|]; try discriminate. cbn [running_bind].
  replace (match folded with Some stmt' => stmt' | None => stmt end) with (default stmt folded) by by destruct folded.
  destruct (match default stmt folded with SSelect q => _ | _ => _ end) as [[tables| |]|]; try discriminate. cbn [running_bind].
  destruct (build_with_schema (default stmt folded) schema) as [logical| |]; cbn [map_err running_bind obind]; try discriminate.
  intros [= R]. unfold run_logical in R. eexists _, _. split; [reflexivity|exact R].
Qed.
End runs.

(** [SELECT 1 AS k] on the empty table *)
Section demo.
#[local] Existing Instance demo_env.
#[local] Existing Instance demo_scheduler.
#[local] Existing Instance demo_choices.
#[local] Instance demo_debug : DebugText := {| debug_str s := s; fixed2 _ := bs "0.00" |}.
Definition s1 : Span := mkSpan 0 0.
Definition select_one : Statement :=
  SSelect (mkSelectStmt None false [mkSelectItem (ELiteral (LInteger 1 s1)) (Some (mkIdent (bs "k") s1))] None [] None [] None [] None None None s1).

Lemma explain_shows_executed_plan_witness :
  exists plan tables,
    explain_sql_with_schema 1 select_one MemTable_new None = Some (Ok (explain plan (load_plan_stats MemTable_new))) /\
    exists rows, Executor.execute plan (mkExecutionContext MemTable_new MemTable_new tables) = Ok rows.
Proof.
  destruct (explain_shows_executed_plan MemTable_new None 1 select_one [mkRecord [(bs "k", VInteger 1)]]) as (plan & tables & E & X).
  - vm_compute. reflexivity.
  - exists plan, tables. split; [exact E|]. exists [mkRecord [(bs "k", VInteger 1)]]. exact X.
Defined.
End demo.
