(* ===== verification/Wire.v ===== *)
(** * Frames on the wire and the connection handler
      (crates/noedb-raft/src/codec.rs, transport/tcp.rs, transport/tls_tcp.rs, transport/memory.rs,
      crates/noedb-protocol/src/lib.rs, crates/noedb-cli/src/main.rs: ping_over_connection,
      handle_connection, dispatch, err_response)

    A message is serialized, wrapped in an envelope with the cluster token, and sent
    behind a four-byte length.  bincode is third-party code: [Codec] stands for one type's
    serializer, [CodecLaws] for what the code relies on.  A stream is the bytes that can
    still be read from it; reading fails at its end.  The engine behind the server is
    the class [SqlService]; the text of its errors is a parameter. *)

From stdpp Require Import list.
From S2P Require Import Prelude BTree Raft RaftNode Catalog Engine.

(** ** bincode *)

Class Codec (A : Type) : Type := { ser : A -> option bytes; deser : bytes -> option A }.

(** What is serialized reads back. *)
Class CodecLaws (A : Type) `{Codec A} : Prop := { deser_ser : forall a b, ser a = Some b -> deser b = Some a }.

(** A serializer for witnesses: a pair of functions, on the values they agree on *)
Definition checked_codec {A} `{EqDecision A} (enc : A -> bytes) (dec : bytes -> option A) : Codec A :=
  {| ser a := if bool_decide (dec (enc a) = Some a) then Some (enc a) else None; deser := dec |}.
Lemma checked_codec_laws {A} `{EqDecision A} (enc : A -> bytes) (dec : bytes -> option A) : @CodecLaws A (checked_codec enc dec).
Proof. split. cbn. intros a b. case_bool_decide; [|done]. by intros [= <-]. Qed.

Definition codec_err {E A} (e : E) (o : option A) : outcome E A := match o with Some a => Ok a | None => Err e end.

(** ** codec.rs *)

Inductive WireError : Type := WTransport (msg : string) | WSecurity (e : SecurityError).

Section messages.
Context `{Codec RpcMessage} `{Codec WireEnvelope}.

Definition encode_message (auth : list Z) (msg : RpcMessage) : outcome WireError bytes :=
  let? payload := codec_err (WTransport "bincode") (ser msg) in
  let? env := map_err WSecurity (WireEnvelope_new auth payload) in
  codec_err (WTransport "bincode") (ser env).

Definition decode_message (auth : list Z) (frame : bytes) : outcome WireError RpcMessage :=
  let? env := codec_err (WTransport "bincode") (deser frame) in
  if negb (we_magic env =? WIRE_MAGIC) then Err (WSecurity BadMagic)
  else
    let? _ := map_err WSecurity (WireEnvelope_verify env auth) in
    codec_err (WTransport "bincode") (deser (we_payload env)).
End messages.

(** ** transport/tcp.rs and tls_tcp.rs: length-delimited frames *)

Definition stream_read_exact (n : nat) (stream : bytes) : outcome WireError (bytes * bytes) :=
  if (n <=? length stream)%nat then Ok (take n stream, drop n stream) else Err (WTransport "early eof").

Definition tcp_write_frame (data : bytes) : outcome WireError bytes :=
  if len data <=? umax 32 then Ok (le_bytes 4 (len data) ++ data) else Err (WTransport "frame too large").

Definition tcp_read_frame (stream : bytes) : outcome WireError (bytes * bytes) :=
  let? '(len_buf, stream) := stream_read_exact 4 stream in
  let len := le_val len_buf in
  if len >? MAX_FRAME_BYTES then Err (WSecurity (FrameTooLarge len))
  else stream_read_exact (Z.to_nat len) stream.

(** [call]: what is sent to the peer's address and how its reply is read.  [None] is a
    peer without an address; connecting and the TLS handshake are not part of it. *)
Definition Transport_call `{Codec RpcMessage} `{Codec WireEnvelope} {A} (peers : gmap Z A) (auth : list Z)
    (peer : A -> bytes -> outcome WireError bytes) (to : Z) (msg : RpcMessage) : outcome WireError RpcMessage :=
  match peers !! to with
  | None => Err (WTransport "unknown peer")
  | Some addr =>
      let? frame := encode_message auth msg in
      let? sent := tcp_write_frame frame in
      let? reply := peer addr sent in
      let? '(resp_frame, _) := tcp_read_frame reply in
      decode_message auth resp_frame
  end.

(** transport/memory.rs: a call steps the peer's core; the actions are dropped. *)
Definition MemoryTransport_register (id : Z) (raft : Raft) (routes : gmap Z Raft) : gmap Z Raft := <[id := raft]> routes.

Definition MemoryTransport_call (conf_deser : bytes -> option ConfChange) (et to : Z) (msg : RpcMessage)
    (routes : gmap Z Raft) : outcome WireError RpcMessage * gmap Z Raft :=
  match routes !! to with
  | None => (Err (WTransport "unknown peer"), routes)
  | Some raft =>
      let '(raft, resp, _) := Raft_step conf_deser et 0 msg raft in
      (codec_err (WTransport "no response") resp, <[to := raft]> routes)
  end.

(** ** noedb-protocol *)

Definition PROTOCOL_VERSION : Z := 1.

Inductive Request : Type := RSql (query : bytes) | RExplain (query : bytes) | RPing.
Inductive Response : Type :=
| RespOk (columns : list bytes) (rows : list (list bytes))
| RespExplain (text : bytes)
| RespPong
| RespError (code : Z) (message : bytes).

Inductive ProtocolError : Type :=
| PSecurity (e : SecurityError) | PCodec (msg : string) | PBadVersion (version : Z) | PBadMagic.

(** The bodies of the four functions, for one payload type. *)
Section frames.
Context {A : Type} `{Codec A} `{Codec WireEnvelope}.

Definition encode_body (auth : list Z) (a : A) : outcome ProtocolError bytes :=
  let? payload := codec_err (PCodec "bincode") (ser a) in
  if len payload >? MAX_FRAME_BYTES then Err (PSecurity (FrameTooLarge (len payload)))
  else
    let frame := z2b PROTOCOL_VERSION :: payload in
    let? envelope := map_err PSecurity (WireEnvelope_new auth frame) in
    codec_err (PCodec "bincode") (ser envelope).

Definition decode_body (auth : list Z) (b : bytes) : outcome ProtocolError A :=
  let? env := codec_err (PCodec "bincode") (deser b) in
  let? _ := map_err PSecurity (WireEnvelope_verify env auth) in
  match we_payload env with
  | [] => Err (PCodec "empty payload")
  | version :: rest =>
      if negb (b2z version =? PROTOCOL_VERSION) then Err (PBadVersion (b2z version))
      else codec_err (PCodec "bincode") (deser rest)
  end.
End frames.

Definition encode_request `{Codec Request} `{Codec WireEnvelope} (auth : list Z) (req : Request) := encode_body auth req.
Definition decode_request `{Codec Request} `{Codec WireEnvelope} (auth : list Z) (b : bytes) : outcome ProtocolError Request :=
  decode_body auth b.
Definition encode_response `{Codec Response} `{Codec WireEnvelope} (auth : list Z) (resp : Response) := encode_body auth resp.
Definition decode_response `{Codec Response} `{Codec WireEnvelope} (auth : list Z) (b : bytes) : outcome ProtocolError Response :=
  decode_body auth b.

(** ** The server of the command line *)

(** The engine as the server sees it: a statement may change the state and may, in the
    model, run out of fuel ([None]); so may EXPLAIN, which only reads. *)
Class SqlService (S : Type) : Type := {
  svc_execute : bytes -> S -> option (outcome EngineError QueryResult * S);
  svc_explain : bytes -> S -> option (outcome EngineError bytes);
}.

Inductive ServeError : Type :=
| SWire (e : WireError) | SProtocol (e : ProtocolError) | SFrameTooLarge | SResponseTooLarge.

(** What a connection leaves: its result, what was written to it, the engine. *)
Record Served (S : Type) : Type := mkServed { sv_result : outcome ServeError unit; sv_out : bytes; sv_state : S }.
Arguments mkServed {S} _ _ _.
Arguments sv_result {S} _.
Arguments sv_out {S} _.
Arguments sv_state {S} _.

Section server.
Context {S : Type} `{SqlService S} `{Codec Request} `{Codec Response} `{Codec WireEnvelope} (error_text : EngineError -> bytes).

Definition err_response (e : EngineError) : Response := RespError 1 (error_text e).

Definition dispatch (req : Request) (s : S) : option (outcome ServeError Response * S) :=
  match req with
  | RPing => Some (Ok RespPong, s)
  | RExplain query =>
      match svc_explain query s with
      | None => None
      | Some (Ok text) => Some (Ok (RespExplain text), s)
      | Some (Err e) => Some (Ok (err_response e), s)
      | Some Panic => Some (Panic, s)
      end
  | RSql query =>
      match svc_execute query s with
      | None => None
      | Some (r, s) =>
          Some (match r with
                | Ok r => Ok (RespOk (qr_columns r) (qr_rows r))
                | Err e => Ok (err_response e)
                | Panic => Panic
                end, s)
      end
  end.

(** The frame of a connection, up to the request it carries. *)
Definition receive_request (auth : list Z) (stream : bytes) : outcome ServeError Request :=
  let? '(len_buf, stream) := map_err SWire (stream_read_exact 4 stream) in
  let len := le_val len_buf in
  if len >? MAX_FRAME_BYTES then Err SFrameTooLarge
  else
    let? '(frame, _) := map_err SWire (stream_read_exact (Z.to_nat len) stream) in
    map_err SProtocol (decode_request auth frame).

Definition send_response (auth : list Z) (resp : Response) : outcome ServeError bytes :=
  let? out := map_err SProtocol (encode_response auth resp) in
  if len out <=? umax 32 then Ok (le_bytes 4 (len out) ++ out) else Err SResponseTooLarge.

Definition handle_connection (auth : list Z) (stream : bytes) (s : S) : option (Served S) :=
  match receive_request auth stream with
  | Err e => Some (mkServed (Err e) [] s)
  | Panic => Some (mkServed Panic [] s)
  | Ok req =>
      match dispatch req s with
      | None => None
      | Some (r, s) =>
          Some (match (let? resp := r in send_response auth resp) with
                | Ok out => mkServed (Ok tt) out s
                | Panic => mkServed Panic [] s
                | Err e => mkServed (Err e) [] s
                end)
      end
  end.

(** [ping_over_connection]: what the client sends, and its verdict on the reply. *)
Definition ping_request (auth : list Z) : outcome ServeError bytes :=
  let? frame := map_err SProtocol (encode_request auth RPing) in
  if len frame <=? umax 32 then Ok (le_bytes 4 (len frame) ++ frame) else Err SFrameTooLarge.

Definition read_reply (auth : list Z) (stream : bytes) : outcome ServeError Response :=
  let? '(len_buf, stream) := map_err SWire (stream_read_exact 4 stream) in
  let? '(buf, _) := map_err SWire (stream_read_exact (Z.to_nat (le_val len_buf)) stream) in
  map_err SProtocol (decode_response auth buf).

Definition ping_over_connection (auth : list Z) (stream : bytes) : outcome ServeError bool :=
  let? resp := read_reply auth stream in
  Ok match resp with RespPong => true | _ => false end.
End server.

(** ** The token comparison *)

(** A token is 32 bytes. *)
Definition is_token (t : list Z) : Prop := length t = 32%nat /\ Forall (fun b => 0 <= b < 256) t.
#[global] Instance is_token_dec t : Decision (is_token t) := _.

Lemma lor_eq_0 a b : Z.lor a b = 0 <-> a = 0 /\ b = 0.
Proof. split; [apply Z.lor_eq_0_iff|by intros [-> ->]]. Qed.

Lemma fold_diff_zero (l : list (Z * Z)) d :
  fold_left (fun diff ab => Z.lor diff (Z.lxor ab.1 ab.2)) l d = 0 <-> d = 0 /\ Forall (fun ab => ab.1 = ab.2) l.
Proof.
  revert d. induction l as [|[a b] l IH]; intros d; cbn [fold_left]; [split; [by split|tauto]|].
  rewrite IH, lor_eq_0, Z.lxor_eq_0_iff, Forall_cons. tauto.
Qed.

Lemma zip_equal (a b : list Z) : length a = length b -> Forall (fun ab => ab.1 = ab.2) (zip a b) <-> a = b.
Proof.
  revert b. induction a as [|x a IH]; intros [|y b] E; try discriminate; [split; [done|constructor]|].
  injection E as E. specialize (IH b E). cbn [zip_with]. rewrite Forall_cons, IH. cbn. split; [by intros [-> ->]|by intros [= -> ->]].
Qed.

Lemma auth_verify_equal a b : length a = length b -> auth_verify a b = true <-> a = b.
Proof. intros E. unfold auth_verify. rewrite Z.eqb_eq, fold_diff_zero, zip_equal by done. tauto. Qed.

Lemma length_mix_byte state ib : length (mix_byte state ib) = length state.
Proof. destruct ib. unfold mix_byte. by rewrite !length_insert. Qed.

Lemma length_from_passphrase p : length (from_passphrase p) = 32%nat.
Proof.
  unfold from_passphrase. generalize (imap pair p). intros l.
  assert (G : forall s, length s = 32%nat -> length (fold_left mix_byte l s) = 32%nat); [|by apply G].
  induction l as [|x l IH]; intros s Hs; [done|]. cbn [fold_left]. apply IH. by rewrite length_mix_byte.
Qed.

(** ** Envelopes *)

Lemma verify_ok e expected :
  length (we_auth e) = length expected ->
  WireEnvelope_verify e expected = Ok tt <->
  we_magic e = WIRE_MAGIC /\ len (we_payload e) <= MAX_FRAME_BYTES /\ we_auth e = expected.
Proof.
  intros L. unfold WireEnvelope_verify.
  destruct (Z.eqb_spec (we_magic e) WIRE_MAGIC) as [->|]; [|split; [done|tauto]].
  destruct (Z.gtb_spec (len (we_payload e)) MAX_FRAME_BYTES); cbn [negb]; [split; [done|lia]|].
  destruct (auth_verify expected (we_auth e)) eqn:V.
  - apply auth_verify_equal in V; [|done]. split; auto.
  - split; [done|]. intros (_ & _ & E). assert (auth_verify expected (we_auth e) = true) by (apply auth_verify_equal; done). congruence.
Qed.

Lemma verify_wrong_token e expected :
  we_magic e = WIRE_MAGIC -> len (we_payload e) <= MAX_FRAME_BYTES ->
  length (we_auth e) = length expected -> we_auth e <> expected ->
  WireEnvelope_verify e expected = Err AuthFailed.
Proof.
  intros M L E N. unfold WireEnvelope_verify. rewrite M, Z.eqb_refl. cbn [negb].
  destruct (Z.gtb_spec (len (we_payload e)) MAX_FRAME_BYTES); [lia|].
  destruct (auth_verify expected (we_auth e)) eqn:V; [|done]. apply auth_verify_equal in V; [|done]. congruence.
Qed.

Lemma envelope_new_ok auth payload e :
  WireEnvelope_new auth payload = Ok e <-> len payload <= MAX_FRAME_BYTES /\ e = mkWireEnvelope WIRE_MAGIC auth payload.
Proof. unfold WireEnvelope_new. destruct (Z.gtb_spec (len payload) MAX_FRAME_BYTES); split; intros; simplify_eq; try lia; naive_solver. Qed.

Lemma map_err_ok {E F A} (f : E -> F) (m : outcome E A) a : map_err f m = Ok a <-> m = Ok a.
Proof. destruct m; cbn; split; congruence. Qed.
Lemma codec_ok {E A} (e : E) (o : option A) a : codec_err e o = Ok a <-> o = Some a.
Proof. destruct o; cbn; split; congruence. Qed.

Section payloads.
Context {A : Type} `{CodecLaws A} `{CodecLaws WireEnvelope}.

(** What encoding gives: the envelope of the version and the payload, serialized. *)
Lemma encode_body_ok auth (a : A) b :
  encode_body auth a = Ok b <->
  exists p, ser a = Some p /\ len p < MAX_FRAME_BYTES /\
            ser (mkWireEnvelope WIRE_MAGIC auth (z2b PROTOCOL_VERSION :: p)) = Some b.
Proof.
  unfold encode_body. destruct (ser a) as [p|] eqn:S; cbn [codec_err obind]; [|split; [done|naive_solver]].
  destruct (Z.gtb_spec (len p) MAX_FRAME_BYTES); [split; [done|]; intros (? & ? & ? & ?); simplify_eq; lia|].
  split.
  - intros E. inv_ok. apply map_err_ok in Hok. apply envelope_new_ok in Hok as [L ->]. apply codec_ok in E.
    exists p. split_and!; [done| |done]. revert L. rewrite len_cons. lia.
  - intros (p' & [= <-] & L & E).
    destruct (WireEnvelope_new auth (z2b PROTOCOL_VERSION :: p)) eqn:N.
    + apply envelope_new_ok in N as [_ ->]. cbn [map_err obind]. by rewrite E.
    + unfold WireEnvelope_new in N. revert N. rewrite len_cons. destruct (Z.gtb_spec (1 + len p) MAX_FRAME_BYTES); [lia|done].
    + unfold WireEnvelope_new in N. by case_match.
Qed.

Lemma decode_body_ok auth b (a : A) :
  decode_body auth b = Ok a <->
  exists env p, deser b = Some env /\ WireEnvelope_verify env auth = Ok tt /\
                we_payload env = z2b PROTOCOL_VERSION :: p /\ deser p = Some a.
Proof.
  unfold decode_body. destruct (deser b) as [env|]; cbn [codec_err obind]; [|split; [done|naive_solver]].
  split.
  - intros E. apply obind_ok_inv in E as ([] & V & E). apply map_err_ok in V.
    destruct (we_payload env) as [|v p] eqn:P; [done|]. revert E.
    destruct (Z.eqb_spec (b2z v) PROTOCOL_VERSION) as [Hv|]; cbn [negb]; [|done]. rewrite codec_ok. intros D.
    exists env, p. split_and!; try done. rewrite P. f_equal. apply b2z_inj. by rewrite Hv.
  - intros (env' & p & [= <-] & V & P & D). rewrite V. cbn [map_err obind]. rewrite P.
    destruct (Z.eqb_spec (b2z (z2b PROTOCOL_VERSION)) PROTOCOL_VERSION) as [|N]; [|by destruct N].
    cbn [negb]. by rewrite D.
Qed.

Lemma encode_never_panics auth (a : A) : encode_body auth a <> Panic.
Proof.
  unfold encode_body, WireEnvelope_new. destruct (ser a); cbn [codec_err obind]; [|done].
  case_test; [done|]. case_test; [done|]. cbn [map_err obind]. by destruct (ser _).
Qed.

Lemma payload_round_trip auth (a : A) b : encode_body auth a = Ok b -> decode_body auth b = Ok a.
Proof.
  rewrite encode_body_ok. intros (p & S & L & E). apply decode_body_ok.
  eexists _, p. split_and!; [by apply deser_ser|apply verify_ok; [done|]|done|by apply deser_ser].
  cbn [we_magic we_payload we_auth]. rewrite len_cons. split_and!; [done|lia|done].
Qed.

Lemma payload_wrong_token auth auth' (a : A) b :
  encode_body auth a = Ok b -> length auth = length auth' -> auth <> auth' ->
  decode_body (A := A) auth' b = Err (PSecurity AuthFailed).
Proof.
  rewrite encode_body_ok. intros (p & S & L & E) Hl N. unfold decode_body.
  rewrite (deser_ser _ _ E). cbn [codec_err obind]. rewrite verify_wrong_token; [done|done| |done|done].
  cbn [we_payload]. rewrite len_cons. lia.
Qed.
End payloads.

(** ** Frames *)

Lemma read_exact_app n (a b : bytes) : length a = n -> stream_read_exact n (a ++ b) = Ok (a, b).
Proof.
  intros <-. unfold stream_read_exact. rewrite length_app.
  destruct (Nat.leb_spec (length a) (length a + length b)); [|lia]. by rewrite take_app_length, drop_app_length.
Qed.

Lemma read_exact_inv n (st a b : bytes) : stream_read_exact n st = Ok (a, b) -> st = a ++ b /\ length a = n.
Proof.
  unfold stream_read_exact. destruct (Nat.leb_spec n (length st)); [|done]. intros [= <- <-].
  rewrite take_drop, length_take. split; [done|lia].
Qed.

Lemma frame_length n : 0 <= n <= umax 32 -> le_val (le_bytes 4 n) = n.
Proof. intros. apply le_val_le_bytes. change (256 ^ Z.of_nat 4) with (umax 32 + 1). lia. Qed.

Lemma read_write_frame (data rest : bytes) :
  len data <= MAX_FRAME_BYTES ->
  exists sent, tcp_write_frame data = Ok sent /\ tcp_read_frame (sent ++ rest) = Ok (data, rest).
Proof.
  intros L. pose proof (len_nonneg data). assert (MAX_FRAME_BYTES <= umax 32) by done. exists (le_bytes 4 (len data) ++ data).
  unfold tcp_write_frame. destruct (Z.leb_spec (len data) (umax 32)); [|lia]. split; [done|].
  unfold tcp_read_frame. rewrite <- app_assoc, read_exact_app by apply length_le_bytes. cbn [obind].
  rewrite frame_length by lia. destruct (Z.gtb_spec (len data) MAX_FRAME_BYTES); [lia|].
  apply read_exact_app. unfold len. lia.
Qed.

(** bincode writes the envelope as a 4-byte magic, the 32 token bytes and the payload
    behind its 8-byte length. *)
Definition ENVELOPE_BYTES : Z := 44.
Class EnvelopeFormat `{Codec WireEnvelope} : Prop := {
  envelope_size : forall env b, ser env = Some b -> len b = ENVELOPE_BYTES + len (we_payload env);
  envelope_token : forall env b, deser b = Some env -> length (we_auth env) = 32%nat }.

(** A sender accepts payloads up to [MAX_FRAME_BYTES], a receiver frames up to it: a
    message whose serialization is within 44 bytes of the limit is sent and refused. *)
Theorem accepted_message_refused `{Codec RpcMessage} `{EnvelopeFormat} auth msg p frame rest :
  ser msg = Some p -> encode_message auth msg = Ok frame -> MAX_FRAME_BYTES - ENVELOPE_BYTES < len p ->
  exists sent, tcp_write_frame frame = Ok sent /\ tcp_read_frame (sent ++ rest) = Err (WSecurity (FrameTooLarge (len frame))).
Proof.
  intros S E L. unfold encode_message in E. rewrite S in E. cbn [codec_err obind] in E.
  apply obind_ok_inv in E as (env & N & E). apply map_err_ok in N. apply envelope_new_ok in N as [L' ->]. apply codec_ok in E.
  apply envelope_size in E. cbn [we_payload] in E.
  assert (MAX_FRAME_BYTES + ENVELOPE_BYTES <= umax 32) by done. assert (0 <= ENVELOPE_BYTES) by done.
  exists (le_bytes 4 (len frame) ++ frame). unfold tcp_write_frame. destruct (Z.leb_spec (len frame) (umax 32)); [|lia]. split; [done|].
  unfold tcp_read_frame. rewrite <- app_assoc, read_exact_app by apply length_le_bytes. cbn [obind].
  pose proof (len_nonneg frame). rewrite frame_length by lia. destruct (Z.gtb_spec (len frame) MAX_FRAME_BYTES); [done|lia].
Qed.

Theorem message_round_trip `{CodecLaws RpcMessage} `{CodecLaws WireEnvelope} auth msg b :
  encode_message auth msg = Ok b -> decode_message auth b = Ok msg.
Proof.
  unfold encode_message. intros E. apply obind_ok_inv in E as (p & S & E). apply codec_ok in S.
  apply obind_ok_inv in E as (env & N & E). apply map_err_ok in N. apply envelope_new_ok in N as [L ->]. apply codec_ok in E.
  unfold decode_message. rewrite (deser_ser _ _ E). cbn [codec_err obind we_magic].
  rewrite (proj2 (verify_ok (mkWireEnvelope WIRE_MAGIC auth p) auth eq_refl)) by done. cbn [map_err obind we_payload negb].
  by rewrite (deser_ser _ _ S).
Qed.

(** ** The server *)

Section served.
Context {S : Type} `{SqlService S} `{CodecLaws Request} `{CodecLaws Response} `{CodecLaws WireEnvelope} (error_text : EngineError -> bytes).

Lemma receive_sent auth req frame rest :
  encode_request auth req = Ok frame -> len frame <= MAX_FRAME_BYTES ->
  receive_request auth (le_bytes 4 (len frame) ++ frame ++ rest) = Ok req.
Proof.
  intros E L. pose proof (len_nonneg frame). assert (MAX_FRAME_BYTES <= umax 32) by done. unfold receive_request.
  rewrite read_exact_app by apply length_le_bytes. cbn [map_err obind]. rewrite frame_length by lia.
  destruct (Z.gtb_spec (len frame) MAX_FRAME_BYTES); [lia|]. rewrite read_exact_app by (unfold len; lia).
  cbn [map_err obind]. apply map_err_ok. by apply payload_round_trip.
Qed.

Lemma reply_sent auth resp out rest : send_response auth resp = Ok out -> read_reply auth (out ++ rest) = Ok resp.
Proof.
  unfold send_response. intros E. apply obind_ok_inv in E as (b & S1 & E). apply map_err_ok in S1. pose proof (len_nonneg b).
  destruct (Z.leb_spec (len b) (umax 32)); [|done].
  assert (out = le_bytes 4 (len b) ++ b) as -> by congruence. unfold read_reply.
  rewrite <- app_assoc, read_exact_app by apply length_le_bytes. cbn [map_err obind].
  rewrite frame_length by lia. rewrite read_exact_app by (unfold len; lia). cbn [map_err obind].
  apply map_err_ok. by apply payload_round_trip.
Qed.

(** A request of a client with the token is executed once, on the engine as it is; the
    client reads the engine's answer back, or, when the answer does not fit a frame,
    nothing. *)
Theorem connection_answers (auth : list Z) (req : Request) (frame rest : bytes) (s s' : S) (resp : Response) :
  encode_request auth req = Ok frame -> len frame <= MAX_FRAME_BYTES ->
  dispatch error_text req s = Some (Ok resp, s') ->
  exists v, handle_connection error_text auth (le_bytes 4 (len frame) ++ frame ++ rest) s = Some v /\ sv_state v = s' /\
    match send_response auth resp with
    | Ok out => sv_result v = Ok tt /\ sv_out v = out /\ read_reply auth (sv_out v) = Ok resp
    | Err e => sv_result v = Err e /\ sv_out v = []
    | Panic => False
    end.
Proof.
  intros E L D. unfold handle_connection. rewrite (receive_sent _ _ _ rest E L), D. cbn [obind].
  destruct (send_response auth resp) as [out|e|] eqn:R.
  - eexists. split; [done|]. split_and!; try done. cbn [sv_out]. rewrite <- (app_nil_r out). by apply reply_sent.
  - by eexists.
  - exfalso. unfold send_response in R. pose proof (encode_never_panics auth resp).
    destruct (encode_response auth resp) eqn:B; cbn [map_err obind] in R; [by case_match|done|done].
Qed.

(** [--ping]: a server of the same token answers. *)
Theorem ping_pongs (auth : list Z) (sent rest out : bytes) (s : S) :
  ping_request auth = Ok sent -> len sent <= 4 + MAX_FRAME_BYTES -> send_response auth RespPong = Ok out ->
  handle_connection error_text auth (sent ++ rest) s = Some (mkServed (Ok tt) out s) /\ ping_over_connection auth out = Ok true.
Proof.
  intros P L O. unfold ping_request in P. apply obind_ok_inv in P as (frame & E & P). apply map_err_ok in E.
  destruct (Z.leb_spec (len frame) (umax 32)); [|done]. assert (sent = le_bytes 4 (len frame) ++ frame) as -> by congruence.
  rewrite len_app, len_le_bytes in L. split.
  - unfold handle_connection. rewrite <- app_assoc, (receive_sent _ _ _ rest E) by lia. cbn [dispatch obind]. by rewrite O.
  - unfold ping_over_connection. pose proof (reply_sent auth RespPong out [] O) as R. rewrite app_nil_r in R. by rewrite R.
Qed.

(** What a connection that does not present the token can do: nothing.  If the engine
    changes or a byte is written, the stream starts with a frame within the limit whose
    envelope has the magic and exactly the server's token. *)
Theorem only_token_is_served `{!EnvelopeFormat} (auth : list Z) (stream : bytes) (s : S) (v : Served S) :
  length auth = 32%nat -> handle_connection error_text auth stream s = Some v ->
  sv_state v <> s \/ sv_out v <> [] ->
  exists frame rest env, stream = le_bytes 4 (len frame) ++ frame ++ rest /\ len frame <= MAX_FRAME_BYTES /\
    deser frame = Some env /\ we_magic env = WIRE_MAGIC /\ we_auth env = auth.
Proof.
  intros La E C. unfold handle_connection in E.
  destruct (receive_request auth stream) as [req| |] eqn:R; [|injection E as <-; naive_solver..].
  unfold receive_request in R. apply obind_ok_inv in R as ([lb st] & R1 & R). apply map_err_ok, read_exact_inv in R1 as [-> Hlb].
  destruct (Z.gtb_spec (le_val lb) MAX_FRAME_BYTES); [done|].
  apply obind_ok_inv in R as ([frame rest] & R2 & R). apply map_err_ok, read_exact_inv in R2 as [-> Hf].
  apply map_err_ok, decode_body_ok in R as (env & p & De & V & _).
  apply verify_ok in V as (M & _ & T); [|rewrite La; by eapply envelope_token].
  pose proof (le_val_range lb). assert (len frame = le_val lb) as Lf by (unfold len; lia).
  exists frame, rest, env. split_and!; try done; [|lia]. by rewrite Lf, <- Hlb, le_bytes_le_val.
Qed.
End served.
