(* ===== verification/RaftFiles.v ===== *)
(** * Raft storage on disk (crates/noedb-raft/src/storage.rs: FileStorage; security.rs: checksum,
      verify_checksum; node.rs: exec)

    The hard state, the log and the snapshot are kept in memory and written to one file
    each by [sync], which the node calls after it has executed the actions of a step.  A
    file is replaced by writing a temporary file and renaming it; a crash may happen
    between two operations on the disk and in the middle of a write.  bincode ([Codec])
    and crc32fast are third-party code. *)

From stdpp Require Import list gmap.
From S2P Require Import Prelude BTree Raft RaftNode DiskIo Wire.

Inductive RStorageError : Type := RIo (message : string) | RCorrupt (msg : string) | RSnapshot (msg : string).

Section files.
Context (crc32 : bytes -> Z) `{Codec HardState} `{Codec (list RLogEntry)} `{Codec Snapshot}.

(** ** security.rs *)

Definition checksum (data : bytes) : Z := crc32 data.
Definition verify_checksum (payload : bytes) (expected : Z) : outcome SecurityError unit :=
  if negb (checksum payload =? expected) then Err SecChecksumMismatch else Ok tt.

(** ** Records *)

Definition decode_record (b : bytes) : outcome RStorageError (bytes * Z) :=
  if len b <? 4 then Err (RCorrupt "record too short") else Ok (drop 4 b, le_val (take 4 b)).

Definition HARD_PATH : bytes := bs "hard_state.bin".
Definition LOG_PATH : bytes := bs "log.bin".
Definition SNAP_PATH : bytes := bs "snapshot.bin".
Definition tmp_path (path : bytes) : bytes := with_extension path (bs "tmp").

Definition write_record (path value : bytes) : list DiskOp :=
  let out := le_bytes 4 (checksum value) ++ value in
  [WriteFile (tmp_path path) out; Rename (tmp_path path) path].

(** One file of [reload]: [None] when it does not exist. *)
Definition read_record {A} `{Codec A} (path : bytes) (d : Disk) : outcome RStorageError (option A) :=
  match d !! path with
  | None => Ok None
  | Some b =>
      let? '(payload, crc) := decode_record b in
      let? _ := map_err (fun _ => RCorrupt "checksum mismatch") (verify_checksum payload crc) in
      let? a := codec_err (RCorrupt "bincode") (deser payload) in
      Ok (Some a)
  end.

(** ** FileStorage *)

Record FileStorage : Type := mkFileStorage {
  fs_hard : HardState; fs_log : RaftLog; fs_snapshot : option Snapshot; fs_dirty : bool }.

Definition reload (d : Disk) (s : FileStorage) : outcome RStorageError FileStorage :=
  let? hard := read_record HARD_PATH d in
  let? log := read_record LOG_PATH d in
  let? snap := read_record SNAP_PATH d in
  Ok (mkFileStorage (default (fs_hard s) hard) (default (fs_log s) log)
        (match snap with Some sn => Some sn | None => fs_snapshot s end) (fs_dirty s)).

Definition FileStorage_open (d : Disk) : outcome RStorageError FileStorage :=
  reload d (mkFileStorage HardState_default RaftLog_new None false).

Definition FileStorage_save_hard_state (hs : HardState) (s : FileStorage) : FileStorage :=
  mkFileStorage hs (fs_log s) (fs_snapshot s) true.
Definition FileStorage_append (from_index : Z) (entries : list RLogEntry) (s : FileStorage) : FileStorage :=
  mkFileStorage (fs_hard s) (RaftLog_append (RaftLog_truncate_from (fs_log s) (LogIndex_prev from_index)) entries) (fs_snapshot s) true.
Definition FileStorage_save_snapshot (snap : Snapshot) (s : FileStorage) : FileStorage :=
  mkFileStorage (fs_hard s) (RaftLog_restore (snap_index snap) (snap_term snap) []) (Some snap) true.

(** [sync]: the operations on the disk, and how it ends.  The log file holds the entries,
    which is also how a [RaftLog], a struct with that one field, is serialized. *)
Definition sync_ops (s : FileStorage) : list DiskOp * outcome RStorageError unit :=
  if negb (fs_dirty s) then ([], Ok tt)
  else
    match ser (fs_hard s) with
    | None => ([], Err (RCorrupt "bincode"))
    | Some hb =>
        match ser (fs_log s) with
        | None => (write_record HARD_PATH hb, Err (RCorrupt "bincode"))
        | Some lb =>
            match fs_snapshot s with
            | None => (write_record HARD_PATH hb ++ write_record LOG_PATH lb, Ok tt)
            | Some snap =>
                match ser snap with
                | None => (write_record HARD_PATH hb ++ write_record LOG_PATH lb, Err (RCorrupt "bincode"))
                | Some sb => (write_record HARD_PATH hb ++ write_record LOG_PATH lb ++ write_record SNAP_PATH sb, Ok tt)
                end
            end
        end
    end.

Definition FileStorage_sync (sd : FileStorage * Disk) : outcome RStorageError unit * (FileStorage * Disk) :=
  let '(s, d) := sd in
  let '(ops, r) := sync_ops s in
  (r, (match r with Ok _ => mkFileStorage (fs_hard s) (fs_log s) (fs_snapshot s) false | _ => s end, run_ops ops d)).
End files.

#[global] Instance FileStorage_storage : RaftStorage FileStorage := {
  load_hard_state := fs_hard; save_hard_state := FileStorage_save_hard_state;
  load_log := fs_log; storage_append := FileStorage_append;
  load_snapshot := fs_snapshot; save_snapshot := FileStorage_save_snapshot;
}.

#[global] Instance FileStorage_laws : StorageLaws FileStorage.
Proof. by split. Qed.

(** [exec] of a node on files: the actions, then [sync]. *)
Definition file_exec (crc32 : bytes -> Z) `{Codec HardState} `{Codec (list RLogEntry)} `{Codec Snapshot}
    (n : RaftNode FileStorage) (d : Disk) (actions : list Action)
    : outcome RStorageError (list (Z * RpcMessage)) * (RaftNode FileStorage * Disk) :=
  let '(n, out) := exec_actions n actions in
  let '(r, (s, d)) := FileStorage_sync crc32 (n_storage n, d) in
  (let? _ := r in Ok out, (mkRaftNode (n_raft n) s (n_applied n), d)).

(** ** Recovery *)

Section recovery.
Context (crc32 : bytes -> Z) `{CodecLaws HardState} `{CodecLaws (list RLogEntry)} `{CodecLaws Snapshot}.
Context (crc32_width : forall b, 0 <= crc32 b < 2 ^ 32).

Lemma read_written {A} `{CodecLaws A} path d (a : A) v :
  ser a = Some v -> d !! path = Some (le_bytes 4 (crc32 v) ++ v) -> read_record crc32 path d = Ok (Some a).
Proof.
  intros S E. unfold read_record. rewrite E. unfold decode_record. pose proof (len_nonneg v).
  destruct (Z.ltb_spec (len (le_bytes 4 (crc32 v) ++ v)) 4); [len_lia|]. cbn [obind].
  change 4%nat with (length (le_bytes 4 (crc32 v))). rewrite drop_app_length, take_app_length.
  unfold verify_checksum, checksum. rewrite le_val_le_bytes by apply crc32_width. rewrite Z.eqb_refl.
  cbn [negb map_err obind]. by rewrite (deser_ser _ _ S).
Qed.

Lemma read_absent {A} `{Codec A} path d : read_record (A := A) crc32 path d = Ok None -> d !! path = None.
Proof. unfold read_record. destruct (d !! path); [|done]. intros E. apply obind_ok_inv in E as ([p c] & _ & E). inv_ok. Qed.

Lemma read_same {A} `{Codec A} path d d' : d !! path = d' !! path -> read_record (A := A) crc32 path d = read_record crc32 path d'.
Proof. intros E. unfold read_record. by rewrite E. Qed.

(** The three files of the storage *)
Definition data_path (p : bytes) : Prop := p = HARD_PATH \/ p = LOG_PATH \/ p = SNAP_PATH.

Lemma tmp_not_data p q : data_path p -> data_path q -> tmp_path p <> q.
Proof. intros [->|[->| ->]] [->|[->| ->]] E; vm_compute in E; discriminate E. Qed.

Lemma run_write p v d q : data_path p -> data_path q ->
  run_ops (write_record crc32 p v) d !! q = if bool_decide (q = p) then Some (le_bytes 4 (crc32 v) ++ v) else d !! q.
Proof.
  intros Hp Hq. unfold write_record. cbn zeta. rewrite run_replace by by apply tmp_not_data. case_bool_decide; [done|].
  rewrite bool_decide_eq_false_2; [done|]. intros ->. by apply (tmp_not_data p (tmp_path p)).
Qed.

(** A crash while a record is written leaves the old file or the new one. *)
Lemma crashed_write p v d d' : data_path p -> crashed d (write_record crc32 p v) d' ->
  (forall q, data_path q -> d' !! q = d !! q) \/ d' = run_ops (write_record crc32 p v) d.
Proof.
  intros Hp C. unfold write_record in C. apply crashed_replace in C as [S| ->]; [|by right].
  left. intros q Hq. apply S. intros ->. by apply (tmp_not_data p (tmp_path p)).
Qed.

(** ** What is on the disk *)

Definition clean (s : FileStorage) : FileStorage := mkFileStorage (fs_hard s) (fs_log s) (fs_snapshot s) false.

(** The states a storage goes through: [stored o s d] when [o] was opened or synced last,
    [s] is in memory and [d] on the disk. *)
Inductive stored : FileStorage -> FileStorage -> Disk -> Prop :=
| stored_open d s : FileStorage_open crc32 d = Ok s -> stored s s d
| stored_hard o s d hs : stored o s d -> stored o (save_hard_state hs s) d
| stored_append o s d i es : stored o s d -> stored o (storage_append i es s) d
| stored_snapshot o s d sn : stored o s d -> stored o (save_snapshot sn s) d
| stored_sync o s d s' d' : stored o s d -> FileStorage_sync crc32 (s, d) = (Ok tt, (s', d')) -> stored s' s' d'.

Record storage_inv (o s : FileStorage) (d : Disk) : Prop := {
  si_open : FileStorage_open crc32 d = Ok o;
  si_snapshot : fs_snapshot s = None -> d !! SNAP_PATH = None;
  si_clean : fs_dirty s = false -> s = o }.

Lemma open_files d o : FileStorage_open crc32 d = Ok o <->
  exists h l sn, read_record crc32 HARD_PATH d = Ok h /\ read_record crc32 LOG_PATH d = Ok l /\
    read_record crc32 SNAP_PATH d = Ok sn /\ o = mkFileStorage (default HardState_default h) (default RaftLog_new l) sn false.
Proof.
  unfold FileStorage_open, reload. split.
  - intros E. inv_ok. eexists _, _, _. split_and!; try done. by destruct x1.
  - intros (h & l & sn & -> & -> & -> & ->). cbn [obind]. by destruct sn.
Qed.

Lemma open_dirty d s : FileStorage_open crc32 d = Ok s -> fs_dirty s = false.
Proof. rewrite open_files. by intros (h & l & sn & _ & _ & _ & ->). Qed.

Lemma open_no_snapshot d s : FileStorage_open crc32 d = Ok s -> fs_snapshot s = None -> d !! SNAP_PATH = None.
Proof. rewrite open_files. intros (h & l & sn & _ & _ & S & ->) E. cbn in E. subst sn. by eapply read_absent. Qed.

Lemma open_same d d' : (forall q, data_path q -> d' !! q = d !! q) -> FileStorage_open crc32 d' = FileStorage_open crc32 d.
Proof.
  intros E. unfold FileStorage_open, reload.
  rewrite (read_same HARD_PATH d' d), (read_same LOG_PATH d' d), (read_same SNAP_PATH d' d); [done|apply E; unfold data_path; tauto..].
Qed.

(** Reading back after one record was replaced *)
Ltac replaced :=
  match goal with
  | |- read_record _ ?q (run_ops (write_record _ ?p ?v) ?d) = _ =>
      first [ eapply read_written; [eassumption|]; rewrite run_write by (unfold data_path; tauto); by rewrite bool_decide_true
            | rewrite (read_same q _ d); [eassumption|]; rewrite run_write by (unfold data_path; tauto); by rewrite bool_decide_false ]
  end.

Lemma open_write_hard d o h v : FileStorage_open crc32 d = Ok o -> ser h = Some v ->
  FileStorage_open crc32 (run_ops (write_record crc32 HARD_PATH v) d) = Ok (mkFileStorage h (fs_log o) (fs_snapshot o) false).
Proof. rewrite !open_files. intros (h0 & l & sn & H1' & H2' & H3' & ->) S. exists (Some h), l, sn. split_and!; [replaced..|done]. Qed.
Lemma open_write_log d o l v : FileStorage_open crc32 d = Ok o -> ser l = Some v ->
  FileStorage_open crc32 (run_ops (write_record crc32 LOG_PATH v) d) = Ok (mkFileStorage (fs_hard o) l (fs_snapshot o) false).
Proof. rewrite !open_files. intros (h & l0 & sn & H1' & H2' & H3' & ->) S. exists h, (Some l), sn. split_and!; [replaced..|done]. Qed.
Lemma open_write_snapshot d o sn v : FileStorage_open crc32 d = Ok o -> ser sn = Some v ->
  FileStorage_open crc32 (run_ops (write_record crc32 SNAP_PATH v) d) = Ok (mkFileStorage (fs_hard o) (fs_log o) (Some sn) false).
Proof. rewrite !open_files. intros (h & l & sn0 & H1' & H2' & H3' & ->) S. exists h, l, (Some sn). split_and!; [replaced..|done]. Qed.

(** What can be found after a crash in [sync]: the files up to some point are new. *)
Definition synced_up_to (o s s' : FileStorage) : Prop :=
  s' = o \/ s' = mkFileStorage (fs_hard s) (fs_log o) (fs_snapshot o) false \/
  s' = mkFileStorage (fs_hard s) (fs_log s) (fs_snapshot o) false \/ s' = clean s.

(** Records written one after the other, each with what is opened after it *)
Definition step : Type := bytes * bytes * FileStorage.
Definition step_ops (steps : list step) : list DiskOp := concat (map (fun x => write_record crc32 x.1.1 x.1.2) steps).
Fixpoint opens (d : Disk) (steps : list step) : Prop :=
  match steps with
  | [] => True
  | (p, v, o) :: r =>
      data_path p /\ FileStorage_open crc32 (run_ops (write_record crc32 p v) d) = Ok o /\
      opens (run_ops (write_record crc32 p v) d) r
  end.

Lemma last_default {A} (l : list A) : forall x a b, List.last (x :: l) a = List.last (x :: l) b.
Proof. induction l as [|y l IH]; intros x a b; [done|]. change (List.last (y :: l) a = List.last (y :: l) b). apply IH. Qed.

Lemma opens_end steps : forall d o, FileStorage_open crc32 d = Ok o -> opens d steps ->
  FileStorage_open crc32 (run_ops (step_ops steps) d) = Ok (List.last (map snd steps) o).
Proof.
  induction steps as [|[[p v] o'] r IH]; intros d o O S; [done|]. destruct S as (_ & O' & S).
  change (step_ops ((p, v, o') :: r)) with (write_record crc32 p v ++ step_ops r). rewrite run_ops_app, (IH _ _ O' S).
  destruct r as [|x r]; [done|]. f_equal. apply (last_default (map snd r) (snd x)).
Qed.

Lemma opens_crashed steps : forall d o d', FileStorage_open crc32 d = Ok o -> opens d steps -> crashed d (step_ops steps) d' ->
  exists s', FileStorage_open crc32 d' = Ok s' /\ s' ∈ o :: map snd steps.
Proof.
  induction steps as [|[[p v] o'] r IH]; intros d o d' O S C.
  - inversion C; subst. exists o. split; [done|left].
  - destruct S as (Hp & O' & S). change (step_ops ((p, v, o') :: r)) with (write_record crc32 p v ++ step_ops r) in C.
    apply crashed_app in C as [C|C].
    + destruct (crashed_write p v d d' Hp C) as [E| ->]; [exists o; rewrite (open_same d d' E)|exists o']; (split; [done|]); set_solver.
    + destruct (IH _ _ _ O' S C) as (s' & ? & ?). exists s'. split; [done|]. cbn [map snd]. by right.
Qed.

Lemma hard_is_data : data_path HARD_PATH. Proof. by left. Qed.
Lemma log_is_data : data_path LOG_PATH. Proof. by right; left. Qed.
Lemma snap_is_data : data_path SNAP_PATH. Proof. by right; right. Qed.

(** The operations of [sync] are such a sequence; when it succeeds the last is the state
    in memory. *)
Lemma sync_steps o s d : storage_inv o s d ->
  exists steps, (sync_ops crc32 s).1 = step_ops steps /\ opens d steps /\
    Forall (synced_up_to o s) (map snd steps) /\
    ((sync_ops crc32 s).2 = Ok tt -> List.last (map snd steps) o = clean s).
Proof.
  intros [O N Cl]. pose proof (open_dirty _ _ O) as Do.
  set (o1 := mkFileStorage (fs_hard s) (fs_log o) (fs_snapshot o) false).
  set (o2 := mkFileStorage (fs_hard s) (fs_log s) (fs_snapshot o) false).
  assert (G1 : synced_up_to o s o1) by (unfold synced_up_to; tauto). assert (G2 : synced_up_to o s o2) by (unfold synced_up_to; tauto).
  assert (G3 : synced_up_to o s (clean s)) by (unfold synced_up_to; tauto).
  unfold sync_ops. destruct (fs_dirty s) eqn:Dy; cbn [negb].
  2:{ exists []. split_and!; try done. intros _. rewrite <- (Cl eq_refl). destruct s. cbn in Dy. by subst. }
  destruct (ser (fs_hard s)) as [hb|] eqn:Sh; [|by exists []].
  pose proof (open_write_hard d o (fs_hard s) hb O Sh) as O1. fold o1 in O1.
  destruct (ser (fs_log s)) as [lb|] eqn:Sl.
  2:{ exists [(HARD_PATH, hb, o1)]. unfold step_ops. cbn [map concat fst snd]. rewrite app_nil_r. split_and!; try done; [by split_and!; try apply hard_is_data|by constructor]. }
  pose proof (open_write_log _ _ (fs_log s) lb O1 Sl) as O2. cbn [fs_hard fs_snapshot o1] in O2. fold o2 in O2.
  set (two := [(HARD_PATH, hb, o1); (LOG_PATH, lb, o2)]).
  assert (T : opens d two) by (unfold two; cbn [opens]; auto using hard_is_data, log_is_data).
  assert (E2 : step_ops two = write_record crc32 HARD_PATH hb ++ write_record crc32 LOG_PATH lb) by (unfold step_ops, two; cbn [map concat fst snd]; by rewrite app_nil_r).
  destruct (fs_snapshot s) as [sn|] eqn:Sn.
  2:{ exists two. split_and!; [done|done|by repeat constructor|]. intros _. cbn. unfold clean, o2. f_equal. rewrite Sn.
      apply open_files in O as (h & l & sn & _ & _ & R & ->). unfold read_record in R. rewrite (N eq_refl) in R. by inversion R. }
  destruct (ser sn) as [sb|] eqn:Ss; [|exists two; split_and!; [done|done|by repeat constructor|done]].
  pose proof (open_write_snapshot _ _ sn sb O2 Ss) as O3. cbn [fs_hard fs_log o2] in O3.
  assert (clean s = mkFileStorage (fs_hard s) (fs_log s) (Some sn) false) as Ec by (unfold clean; by rewrite Sn).
  exists (two ++ [(SNAP_PATH, sb, clean s)]). rewrite Ec. split_and!.
  - unfold step_ops. rewrite map_app, concat_app. fold (step_ops two). rewrite E2. cbn [map concat fst snd]. by rewrite app_nil_r, <- app_assoc.
  - cbn [two app opens]. auto 10 using hard_is_data, log_is_data, snap_is_data.
  - rewrite <- Ec. by repeat constructor.
  - done.
Qed.

Lemma sync_inv o s d r s' d' : storage_inv o s d -> FileStorage_sync crc32 (s, d) = (r, (s', d')) ->
  r = Ok tt -> s' = clean s /\ FileStorage_open crc32 d' = Ok s'.
Proof.
  intros I E R. destruct (sync_steps o s d I) as (steps & E1 & S & _ & L). unfold FileStorage_sync in E.
  destruct (sync_ops crc32 s) as [ops r0]. cbn [fst snd] in *. subst ops. injection E as -> <- <-. subst r.
  split; [done|]. rewrite (opens_end steps d o (si_open _ _ _ I) S). by rewrite L.
Qed.

Lemma open_inv d s : FileStorage_open crc32 d = Ok s -> storage_inv s s d.
Proof. intros O. split; [done|by apply open_no_snapshot|done]. Qed.

Lemma stored_inv o s d : stored o s d -> storage_inv o s d.
Proof.
  induction 1 as [d s O|o s d hs _ [O N C]|o s d i es _ [O N C]|o s d sn _ [O N C]|o s d s' d' _ I E];
    [by apply open_inv|by split..|]. destruct (sync_inv _ _ _ _ _ _ I E eq_refl) as [-> O]. by apply open_inv.
Qed.

(** C12. What a Raft node finds after a restart: the state of its last [sync] when the crash
    came between two calls; the state in memory when [sync] returned; and when the crash
    came inside [sync], a storage that opens without an error and whose files are the new
    ones up to some point and the old ones after it, in the order hard state, log,
    snapshot. *)
Theorem file_storage_recovers (o s : FileStorage) (d : Disk) :
  stored o s d ->
  FileStorage_open crc32 d = Ok o /\
  (forall s' d', FileStorage_sync crc32 (s, d) = (Ok tt, (s', d')) -> FileStorage_open crc32 d' = Ok (clean s)) /\
  (forall d', crashed d (sync_ops crc32 s).1 d' -> exists s', FileStorage_open crc32 d' = Ok s' /\ synced_up_to o s s').
Proof.
  intros I%stored_inv. split_and!; [apply I| |].
  - intros s' d' E. by destruct (sync_inv _ _ _ _ _ _ I E eq_refl) as [-> O].
  - intros d' C. destruct (sync_steps o s d I) as (steps & E & S & F & _). rewrite E in C.
    destruct (opens_crashed steps d o d' (si_open _ _ _ I) S C) as (s' & O & Hin). exists s'. split; [done|].
    apply elem_of_cons in Hin as [->|Hin]; [by left|]. by apply (proj1 (Forall_forall _ _) F).
Qed.

(** A node that has executed the actions of a step and written them: restarted from its
    disk it starts from the hard state and the log it had. *)
Theorem exec_survives_restart (o : FileStorage) (n n' : RaftNode FileStorage) (d d' : Disk) (actions : list Action) out config et :
  stored o (n_storage n) d -> file_exec crc32 n d actions = (Ok out, (n', d')) ->
  stored (n_storage n') (n_storage n') d' /\
  exists s, FileStorage_open crc32 d' = Ok s /\
    RaftNode_open config s et =
      mkRaftNode (Raft_new config (load_hard_state (n_storage n')) (load_log (n_storage n')) et) (n_storage n') [].
Proof.
  intros I E. unfold file_exec in E. destruct (exec_actions n actions) as [n1 out1] eqn:X.
  destruct (FileStorage_sync crc32 (n_storage n1, d)) as [r [s1 d1]] eqn:Y. injection E as R <- <-. cbn [n_storage].
  assert (I1 : stored o (n_storage n1) d).
  { unfold exec_actions in X. clear Y. revert X I. generalize ([] : list (Z * RpcMessage)). revert n.
    induction actions as [|a actions IH]; intros n out0; cbn [fold_left]; [by intros [= -> ->]|].
    destruct (exec_action (n, out0) a) as [n2 out2] eqn:Xa. intros X I. eapply IH; [exact X|].
    destruct a; cbn [exec_action] in Xa; injection Xa as <- _; cbn [n_storage]; by try constructor. }
  destruct r as [[]| |]; cbn [obind] in R; try discriminate R.
  destruct (sync_inv _ _ _ _ _ _ (stored_inv _ _ _ I1) Y eq_refl) as [_ O].
  split; [by apply stored_open|]. exists s1. by split.
Qed.

(** [sync] writes the log before the snapshot that replaces its entries: a crash between
    the two leaves a log of empty entries, and no snapshot. *)
Theorem torn_sync_loses_snapshot (o : FileStorage) (d : Disk) (sn : Snapshot) hb lb sb :
  stored o o d -> fs_snapshot o = None ->
  ser (fs_hard o) = Some hb -> ser (RaftLog_restore (snap_index sn) (snap_term sn) []) = Some lb -> ser sn = Some sb ->
  exists d', crashed d (sync_ops crc32 (save_snapshot sn o)).1 d' /\
    FileStorage_open crc32 d' = Ok (mkFileStorage (fs_hard o) (RaftLog_restore (snap_index sn) (snap_term sn) []) None false).
Proof.
  intros I%stored_inv N Sh Sl Ss. exists (run_ops (write_record crc32 LOG_PATH lb) (run_ops (write_record crc32 HARD_PATH hb) d)). split.
  - unfold sync_ops. cbn [save_snapshot FileStorage_storage FileStorage_save_snapshot fs_dirty fs_hard fs_log fs_snapshot negb].
    rewrite Sh, Sl, Ss. cbn [fst write_record app]. do 4 apply crash_later. apply crash_here.
  - pose proof (open_write_hard _ _ _ _ (si_open _ _ _ I) Sh) as O1. rewrite (open_write_log _ _ _ _ O1 Sl). cbn. by rewrite N.
Qed.
End recovery.

(** ** An instance *)

#[global] Instance HardState_eq_dec : EqDecision HardState.
Proof. solve_decision. Defined.
#[global] Instance Snapshot_eq_dec : EqDecision Snapshot.
Proof. solve_decision. Defined.

Section demo.
Definition field (i : nat) (b : bytes) : Z := le_val (take 8 (drop (8 * i) b)).
#[local] Instance hard_codec : Codec HardState :=
  checked_codec
    (fun h => le_bytes 8 (current_term h) ++ le_bytes 8 (match voted_for h with None => 0 | Some v => v + 1 end) ++
              le_bytes 8 (commit_index h) ++ le_bytes 8 (last_applied h))
    (fun b => Some (mkHardState (field 0 b) (if field 1 b =? 0 then None else Some (field 1 b - 1)) (field 2 b) (field 3 b))).
#[local] Instance snapshot_codec : Codec Snapshot :=
  checked_codec (fun s => le_bytes 8 (snap_index s) ++ le_bytes 8 (snap_term s) ++ snap_data s)
    (fun b => Some (mkSnapshot (field 0 b) (field 1 b) (drop 16 b))).
Fixpoint read_entries (fuel : nat) (b : bytes) : list RLogEntry :=
  match fuel, b with
  | S fuel, _ :: _ =>
      let n := Z.to_nat (field 1 b) in
      mkRLogEntry (field 0 b) (take n (drop 16 b)) :: read_entries fuel (drop (16 + n) b)
  | _, _ => []
  end.
#[local] Instance log_codec : Codec (list RLogEntry) :=
  checked_codec (fun l => concat (map (fun e => le_bytes 8 (re_term e) ++ le_bytes 8 (len (re_command e)) ++ re_command e) l))
    (fun b => Some (read_entries (length b) b)).
#[local] Instance hard_codec_laws : CodecLaws HardState. Proof. apply checked_codec_laws. Qed.
#[local] Instance snapshot_codec_laws : CodecLaws Snapshot. Proof. apply checked_codec_laws. Qed.
#[local] Instance log_codec_laws : CodecLaws (list RLogEntry). Proof. apply checked_codec_laws. Qed.

Definition sum_bytes (b : bytes) : Z := wrap 32 (fold_right (fun x z => b2z x + z) 0 b).
Lemma sum_bytes_width b : 0 <= sum_bytes b < 2 ^ 32.
Proof. apply Z.mod_pos_bound. lia. Qed.

(** A vote and an entry saved on an empty disk *)
Definition demo_storage : FileStorage :=
  storage_append 1 [mkRLogEntry 1 (bs "x")] (save_hard_state (mkHardState 1 (Some 2) 0 0) (mkFileStorage HardState_default RaftLog_new None false)).

Lemma file_storage_recovers_witness :
  FileStorage_open sum_bytes (snd (snd (FileStorage_sync sum_bytes (demo_storage, ∅)))) = Ok (clean demo_storage) /\
  forall d', crashed ∅ (sync_ops sum_bytes demo_storage).1 d' ->
    exists s', FileStorage_open sum_bytes d' = Ok s' /\ synced_up_to (mkFileStorage HardState_default RaftLog_new None false) demo_storage s'.
Proof.
  destruct (file_storage_recovers sum_bytes sum_bytes_width (mkFileStorage HardState_default RaftLog_new None false) demo_storage ∅)
    as (_ & S & C).
  - apply stored_append, stored_hard, stored_open. vm_compute. reflexivity.
  - split; [|exact C]. assert (R : (FileStorage_sync sum_bytes (demo_storage, ∅)).1 = Ok tt) by (vm_compute; reflexivity).
    destruct (FileStorage_sync sum_bytes (demo_storage, ∅)) as [r [s' d']] eqn:E. cbn [fst snd] in *. subst r. exact (S _ _ eq_refl).
Defined.
End demo.
