(* ===== verification/Access.v ===== *)
(** * Access to a server (crates/noedb-grpc/src/auth.rs, auth_guard.rs, tls.rs: peer_host_from_addr;
      crates/noedb-tls/src/identity.rs)

    Each gRPC request carries the cluster token in its metadata; a guard counts the
    failures of each address and bans it for a while.  Instants are nanoseconds of the
    monotonic clock, read where the code reads it.  The hexadecimal text of the hex crate
    and the metadata values of tonic are parameters ([AuthText]). *)

From stdpp Require Import list gmap.
From S2P Require Import Prelude BTree Text Float64 Utf8 Manifest Raft RaftNode Wire.

(** ** auth_guard.rs *)

Definition SECOND : Z := 1000000000.
Definition DEFAULT_MAX_FAILURES : Z := 8.
Definition DEFAULT_WINDOW : Z := 60 * SECOND.
Definition DEFAULT_BAN : Z := 300 * SECOND.

Record GuardEntry : Type := mkGuardEntry { failures : Z; first : Z; banned_until : option Z }.

Record AuthGuard : Type := mkAuthGuard {
  max_failures : Z; window : Z; ban : Z; entries : gmap bytes GuardEntry }.

Definition AuthGuard_new (max_failures window ban : Z) : AuthGuard := mkAuthGuard max_failures window ban ∅.
Definition AuthGuard_default : AuthGuard := AuthGuard_new DEFAULT_MAX_FAILURES DEFAULT_WINDOW DEFAULT_BAN.
Definition with_entries (f : gmap bytes GuardEntry -> gmap bytes GuardEntry) (g : AuthGuard) : AuthGuard :=
  mkAuthGuard (max_failures g) (window g) (ban g) (f (entries g)).

(** A peer is the text of its IP address, if there is one. *)
Definition guard_key (addr : option bytes) : bytes := default (bs "unknown") addr.

Definition is_banned (addr : option bytes) (now : Z) (g : AuthGuard) : bool * AuthGuard :=
  let key := guard_key addr in
  match entries g !! key with
  | None => (false, g)
  | Some entry =>
      match banned_until entry with
      | Some until => if now <? until then (true, g) else (false, with_entries (delete key) g)
      | None => (false, g)
      end
  end.

(** The counter is 32 bits wide; [duration_since] is zero when the clock reads earlier. *)
Definition record_failure (addr : option bytes) (now : Z) (g : AuthGuard) : bool * AuthGuard :=
  let key := guard_key addr in
  let entry := default (mkGuardEntry 0 now None) (entries g !! key) in
  let entry := if Z.max 0 (now - first entry) >? window g then mkGuardEntry 0 now None else entry in
  let n := wrap 32 (failures entry + 1) in
  if n >=? max_failures g
  then (true, with_entries <[key := mkGuardEntry n (first entry) (Some (now + ban g))]> g)
  else (false, with_entries <[key := mkGuardEntry n (first entry) (banned_until entry)]> g).

Definition record_success (addr : option bytes) (g : AuthGuard) : AuthGuard := with_entries (delete (guard_key addr)) g.
Definition AuthGuard_clear (g : AuthGuard) : AuthGuard := with_entries (fun _ => ∅) g.

(** ** auth.rs *)

Inductive Status : Type := Unauthenticated (msg : string) | ResourceExhaustedS (msg : string) | InternalS (msg : string).

Class AuthText : Type := {
  meta_value : Type;
  meta_parse : bytes -> option meta_value;
  meta_to_str : meta_value -> option bytes;
  hex_encode : bytes -> bytes;
  hex_decode : bytes -> option bytes }.

(** Hexadecimal text is a metadata value and reads back. *)
Class AuthTextLaws `{AuthText} : Prop := {
  hex_round_trip : forall b, hex_decode (hex_encode b) = Some b;
  hex_is_meta : forall b, exists v, meta_parse (hex_encode b) = Some v /\ meta_to_str v = Some (hex_encode b) }.

Section auth.
Context `{AuthText}.

Definition token_bytes (auth : list Z) : bytes := map z2b auth.

Definition auth_metadata_value (auth : list Z) : outcome Status meta_value :=
  match meta_parse (hex_encode (token_bytes auth)) with
  | Some v => Ok v
  | None => Err (InternalS "auth metadata encode failed")
  end.

(** The metadata of a request: the value under x-noedb-auth, if any *)
Definition inject_auth (auth : list Z) : outcome Status (option meta_value) :=
  let? value := auth_metadata_value auth in Ok (Some value).

Definition verify_auth_inner (meta : option meta_value) (expected : list Z) : outcome Status unit :=
  match meta with
  | None => Err (Unauthenticated "missing x-noedb-auth")
  | Some m =>
      match meta_to_str m with
      | None => Err (Unauthenticated "invalid x-noedb-auth")
      | Some text =>
          match hex_decode text with
          | None => Err (Unauthenticated "invalid x-noedb-auth hex")
          | Some raw =>
              if negb (length raw =? 32)%nat then Err (Unauthenticated "x-noedb-auth must be 32 bytes")
              else if negb (auth_verify expected (map b2z raw)) then Err (Unauthenticated "cluster auth mismatch")
              else Ok tt
          end
      end
  end.
Definition verify_auth (meta : option meta_value) (expected : list Z) : outcome Status unit := verify_auth_inner meta expected.

(** One request: its peer, its metadata, and the two readings of the clock *)
Record Attempt : Type := mkAttempt { at_peer : option bytes; at_meta : option meta_value; at_check : Z; at_record : Z }.

Definition verify_auth_guarded (a : Attempt) (expected : list Z) (g : AuthGuard) : outcome Status unit * AuthGuard :=
  let '(banned, g) := is_banned (at_peer a) (at_check a) g in
  if banned then (Err (ResourceExhaustedS "too many failed auth attempts"), g)
  else
    match verify_auth_inner (at_meta a) expected with
    | Ok _ => (Ok tt, record_success (at_peer a) g)
    | Err e => (Err e, (record_failure (at_peer a) (at_record a) g).2)
    | Panic => (Panic, g)
    end.
End auth.

(** ** tls.rs and identity.rs *)

(** [split(':').next()] of a string always has a first piece. *)
Definition peer_host_from_addr (addr : bytes) : bytes := List.hd (bs "localhost") (split_at x3a addr).

Definition SPIFFE_PREFIX : bytes := bs "spiffe://noedb/cluster/node/".
Inductive TlsError : Type := Identity (msg : string).
Record SpiffeId : Type := mkSpiffeId { node_id : Z }.

Definition SpiffeId_cn (node_id : Z) : bytes := SPIFFE_PREFIX ++ show_nat node_id.
Definition SpiffeId_parse_cn (cn : bytes) : outcome TlsError SpiffeId :=
  match strip_prefix SPIFFE_PREFIX cn with
  | None => Err (Identity "bad spiffe cn")
  | Some rest =>
      match parse_u64 rest with
      | None => Err (Identity "bad node id in cn")
      | Some n => Ok (mkSpiffeId n)
      end
  end.

(** ** Tokens *)

Section tokens.
Context `{AuthText} (expected : list Z).

Lemma verify_inner_cases meta : verify_auth_inner meta expected = Ok tt \/ exists msg, verify_auth_inner meta expected = Err (Unauthenticated msg).
Proof. unfold verify_auth_inner. repeat case_test; eauto. Qed.

(** A request is let through exactly when its metadata is the hexadecimal text of the token. *)
Lemma verify_inner_ok meta : is_token expected ->
  verify_auth_inner meta expected = Ok tt <->
  exists m text raw, meta = Some m /\ meta_to_str m = Some text /\ hex_decode text = Some raw /\ map b2z raw = expected.
Proof.
  intros [Ll _]. unfold verify_auth_inner. split.
  - destruct meta as [m|]; [|done]. destruct (meta_to_str m) as [text|] eqn:E1; [|done]. destruct (hex_decode text) as [raw|] eqn:E2; [|done].
    destruct (Nat.eqb_spec (length raw) 32) as [Lr|]; [|done]. cbn [negb].
    destruct (auth_verify expected (map b2z raw)) eqn:V; [|done]. apply auth_verify_equal in V; [|by rewrite length_map, Lr].
    intros _. eauto 10.
  - intros (m & text & raw & -> & -> & -> & E). assert (length raw = 32%nat) as -> by (rewrite <- (length_map b2z raw), E; done).
    assert (auth_verify expected (map b2z raw) = true) as -> by (by apply auth_verify_equal; rewrite E). done.
Qed.

Lemma map_b2z_token t : is_token t -> map b2z (token_bytes t) = t.
Proof.
  intros [_ F]. unfold token_bytes. rewrite map_map. induction F as [|b t Hb _ IH]; [done|]. cbn [map].
  rewrite IH, b2z_z2b, Z.mod_small by done. done.
Qed.

Lemma inject_verify `{!AuthTextLaws} : is_token expected -> exists m, inject_auth expected = Ok m /\ verify_auth m expected = Ok tt.
Proof.
  intros T. destruct (hex_is_meta (token_bytes expected)) as (v & P & S). exists (Some v). unfold inject_auth, auth_metadata_value.
  rewrite P. split; [done|]. apply verify_inner_ok; [done|]. eexists _, _, _. split_and!; [done|done|apply hex_round_trip|by apply map_b2z_token].
Qed.

(** ** Sequences of requests *)

Fixpoint run_attempts (l : list Attempt) (g : AuthGuard) : AuthGuard :=
  match l with [] => g | a :: l => run_attempts l (verify_auth_guarded a expected g).2 end.

(** A request of the address [k] with the token, and one without it *)
Definition correct (k : bytes) (a : Attempt) : bool :=
  bool_decide (guard_key (at_peer a) = k) && is_ok (verify_auth_inner (at_meta a) expected).
Definition wrong (k : bytes) (a : Attempt) : bool :=
  bool_decide (guard_key (at_peer a) = k) && negb (is_ok (verify_auth_inner (at_meta a) expected)).

(** How many wrong tokens of the address [k] are looked at *)
Fixpoint tested (k : bytes) (l : list Attempt) (g : AuthGuard) : Z :=
  match l with
  | [] => 0
  | a :: l =>
      let '(banned, _) := is_banned (at_peer a) (at_check a) g in
      (if wrong k a && negb banned then 1 else 0) + tested k l (verify_auth_guarded a expected g).2
  end.

Record guard_ok (g : AuthGuard) : Prop := {
  go_max : 1 <= max_failures g <= umax 32;
  go_window : 0 <= window g < ban g;
  go_entries : forall k e, entries g !! k = Some e -> 0 <= failures e < 2 ^ 32 /\ (banned_until e = None -> failures e < max_failures g) }.

Definition same_limits (g g' : AuthGuard) : Prop := max_failures g' = max_failures g /\ window g' = window g /\ ban g' = ban g.

(** How many more requests of [k] can be tested until [t0 + window] *)
Definition allowance (g : AuthGuard) (k : bytes) (t0 : Z) : Z :=
  match entries g !! k with
  | None => max_failures g
  | Some e =>
      match banned_until e with
      | Some u => if u >? t0 + window g then 0 else max_failures g
      | None => max_failures g - failures e + (if first e <? t0 then max_failures g else 0)
      end
  end.

Lemma allowance_start g k t0 : guard_ok g -> 0 <= allowance g k t0 <= 2 * max_failures g.
Proof.
  intros [M W E]. unfold allowance. destruct (entries g !! k) as [e|] eqn:Hk; [|lia]. destruct (E _ _ Hk) as [F G].
  destruct (banned_until e) eqn:B; [case_test; lia|]. specialize (G eq_refl). case_test; lia.
Qed.

Lemma is_banned_spec addr now g b g' : guard_ok g -> is_banned addr now g = (b, g') ->
  guard_ok g' /\ same_limits g g' /\ (forall k, k <> guard_key addr -> entries g' !! k = entries g !! k) /\
  (b = true -> g' = g) /\
  (b = false -> (entries g' !! guard_key addr = None /\ forall t0, now <= t0 + window g -> allowance g (guard_key addr) t0 = max_failures g) \/
                (g' = g /\ exists e, entries g !! guard_key addr = Some e /\ banned_until e = None)).
Proof.
  intros G. pose proof G as [M W E]. unfold is_banned, allowance.
  destruct (entries g !! guard_key addr) as [e|] eqn:Hk; [|intros [= <- <-]; split_and!; try done; by left].
  destruct (banned_until e) as [u|] eqn:B; [|intros [= <- <-]; split_and!; try done; right; eauto].
  destruct (Z.ltb_spec now u); intros [= <- <-]; [split_and!; done|]. split_and!; try done.
  - split; [done|done|]. intros k e' Hl. cbn in Hl. apply lookup_delete_Some in Hl as [_ Hl]. by apply E in Hl.
  - intros k Hn. cbn. by apply lookup_delete_ne.
  - intros _. left. cbn. rewrite lookup_delete_eq. split; [done|]. intros t0 Ht. destruct (Z.gtb_spec u (t0 + window g)); [lia|done].
Qed.

Lemma record_failure_spec addr now g : guard_ok g ->
  (forall e, entries g !! guard_key addr = Some e -> banned_until e = None) ->
  let g' := (record_failure addr now g).2 in
  guard_ok g' /\ same_limits g g' /\ (forall k, k <> guard_key addr -> entries g' !! k = entries g !! k) /\
  forall t0, t0 <= now <= t0 + window g -> allowance g' (guard_key addr) t0 + 1 <= allowance g (guard_key addr) t0.
Proof.
  intros [M W E] N g'. set (k := guard_key addr) in *. change (umax 32) with (2 ^ 32 - 1) in M.
  set (e := default (mkGuardEntry 0 now None) (entries g !! k)).
  assert (Hbe : banned_until e = None /\ 0 <= failures e < max_failures g).
  { unfold e. destruct (entries g !! k) as [e0|] eqn:Hk; cbn [from_option id banned_until failures]; [|split; [done|lia]].
    destruct (E _ _ Hk) as [F L]. specialize (N e0 eq_refl). split; [done|]. specialize (L N). lia. }
  destruct Hbe as [Be Fe].
  set (e1 := if Z.max 0 (now - first e) >? window g then mkGuardEntry 0 now None else e).
  assert (He1 : banned_until e1 = None /\ 0 <= failures e1 < max_failures g) by (unfold e1; case_test; [split; [done|cbn [failures]; lia]|done]).
  destruct He1 as [Be1 Fe1].
  assert (Hw : wrap 32 (failures e1 + 1) = failures e1 + 1) by (apply Z.mod_small; lia).
  assert (Hg : exists e2, entries g' = <[k := e2]> (entries g) /\ same_limits g g' /\ failures e2 = failures e1 + 1 /\ first e2 = first e1 /\
     banned_until e2 = if failures e1 + 1 >=? max_failures g then Some (now + ban g) else None).
  { subst g'. unfold record_failure. fold k e e1. cbv zeta. rewrite Hw. destruct (failures e1 + 1 >=? max_failures g); eexists; (split; [done|]); done. }
  destruct Hg as (e2 & Ee & (L1 & L2 & L3) & F2 & First2 & B2). split_and!; [|done| |].
  - split; [rewrite L1; change (umax 32) with (2 ^ 32 - 1); lia|rewrite L2, L3; lia|]. rewrite Ee, L1. intros k' e'.
    destruct (decide (k' = k)) as [->|Hn]; [rewrite lookup_insert_eq; intros [= <-]|rewrite lookup_insert_ne by done; apply E].
    rewrite F2, B2. split; [lia|]. case_test; [done|lia].
  - intros k' Hn. rewrite Ee. by apply lookup_insert_ne.
  - intros t0 Ht. unfold allowance. rewrite Ee, lookup_insert_eq, B2, L1, L2, F2, First2.
    replace (match entries g !! k with Some e0 => _ | None => _ end)
      with (if bool_decide (entries g !! k = None) then max_failures g else max_failures g - failures e + (if first e <? t0 then max_failures g else 0)).
    2:{ unfold e. destruct (entries g !! k) as [e0|]; [by rewrite bool_decide_false, (N e0 eq_refl) by done|by rewrite bool_decide_true]. }
    assert (Hf : e = mkGuardEntry 0 now None \/ entries g !! k <> None).
    { unfold e. destruct (entries g !! k); [by right|by left]. }
    case_bool_decide as Hn; [destruct Hf as [Hf|]; [|done]|clear Hf]; unfold e1; [rewrite Hf|]; cbn [first failures];
      repeat (case_test; cbn [first failures] in *); try lia.
Qed.

Lemma allowance_frame g g' k t0 : same_limits g g' -> entries g' !! k = entries g !! k -> allowance g' k t0 = allowance g k t0.
Proof. intros (M & W & _) E. unfold allowance. by rewrite E, M, W. Qed.

(** One request, in the interval that starts at [t0] *)
Lemma attempt_step k t0 a g : guard_ok g ->
  let g' := (verify_auth_guarded a expected g).2 in
  guard_ok g' /\ same_limits g g' /\
  (t0 <= at_check a <= t0 + window g -> t0 <= at_record a <= t0 + window g ->
   (if wrong k a && negb (is_banned (at_peer a) (at_check a) g).1 then 1 else 0) + allowance g' k t0 <=
   allowance g k t0 + (if correct k a then max_failures g else 0)).
Proof.
  intros G. pose proof (proj1 (allowance_start g k t0 G)) as A0. pose proof (proj1 (go_max g G)) as M0. unfold verify_auth_guarded, wrong, correct. destruct (is_banned (at_peer a) (at_check a) g) as [b g1] eqn:B. cbn [fst].
  destruct (is_banned_spec _ _ _ _ _ G B) as (G1 & L1 & O1 & T1 & F1). destruct b; cbn [negb].
  { rewrite (T1 eq_refl). rewrite andb_false_r. split_and!; [done|done|]. intros _ _. cbn [snd]. case_match; lia. }
  assert (NB : forall e, entries g1 !! guard_key (at_peer a) = Some e -> banned_until e = None).
  { intros e He. destruct (F1 eq_refl) as [[N _]|[-> (e' & E' & B')]]; congruence. }
  destruct (verify_inner_cases (at_meta a)) as [V|[msg V]]; rewrite V; cbn [snd is_ok negb]; rewrite ?andb_true_r, ?andb_false_r.
  - assert (G2 : guard_ok (record_success (at_peer a) g1)).
    { destruct G1 as [M W E]. split; [done|done|]. intros k' e' Hl. cbn in Hl. apply lookup_delete_Some in Hl as [_ Hl]. by eapply E. }
    split_and!; [done|done|]. intros _ _. case_bool_decide as Ek.
    { subst k. unfold allowance at 1. cbn. rewrite lookup_delete_eq. destruct L1 as (-> & _). lia. }
    rewrite (allowance_frame g (record_success (at_peer a) g1)); [lia|done|]. cbn. rewrite lookup_delete_ne by done. by apply O1.
  - destruct (record_failure_spec (at_peer a) (at_record a) g1 G1 NB) as (G2 & L2 & O2 & D2).
    assert (L : same_limits g (record_failure (at_peer a) (at_record a) g1).2).
    { destruct L1 as (? & ? & ?), L2 as (? & ? & ?). split_and!; congruence. }
    split_and!; [done|done|]. intros Hc Hr. case_bool_decide as Ek.
    2:{ rewrite (allowance_frame g); [lia|done|]. rewrite O2, O1 by done. done. }
    subst k. destruct L1 as (Lm & Lw & _). specialize (D2 t0). rewrite Lw in D2. specialize (D2 Hr).
    destruct (F1 eq_refl) as [[N A]|[-> _]]; [|lia]. rewrite (A t0) by lia. unfold allowance in D2 at 2. rewrite N in D2. lia.
Qed.

Lemma run_guard_ok l g : guard_ok g -> guard_ok (run_attempts l g) /\ same_limits g (run_attempts l g).
Proof.
  revert g. induction l as [|a l IH]; intros g G; [by split|]. cbn [run_attempts].
  destruct (attempt_step [] 0 a g G) as (G' & (? & ? & ?) & _). destruct (IH _ G') as [? (? & ? & ?)]. split; [done|]. split_and!; congruence.
Qed.

Definition correct_count (k : bytes) (l : list Attempt) : Z := len (filter (fun a => correct k a = true) l).

Lemma tested_bound k t0 l g : guard_ok g ->
  Forall (fun a => t0 <= at_check a <= t0 + window g /\ t0 <= at_record a <= t0 + window g) l ->
  tested k l g <= allowance g k t0 + max_failures g * correct_count k l.
Proof.
  revert g. induction l as [|a l IH]; intros g G F; cbn [tested];
    [change (correct_count k []) with 0; pose proof (allowance_start g k t0 G); lia|].
  inversion F as [|? ? (Hc & Hr) F']; subst. destruct (attempt_step k t0 a g G) as (G' & L & D). specialize (D Hc Hr).
  destruct (is_banned (at_peer a) (at_check a) g) as [b g1]. cbn [fst] in D.
  assert (tested k l (verify_auth_guarded a expected g).2 <=
    allowance (verify_auth_guarded a expected g).2 k t0 + max_failures g * correct_count k l).
  { destruct L as (Lm & Lw & _). rewrite <- Lm. apply IH; [done|]. by rewrite Lw. }
  assert (correct_count k (a :: l) = (if correct k a then 1 else 0) + correct_count k l) as ->.
  { unfold correct_count. rewrite filter_cons. destruct (correct k a); case_decide; try done. unfold len. cbn [length]. lia. }
  destruct (correct k a); lia.
Qed.

(** C18. Guessing is bounded.  Requests are taken one after the other, and the ban is longer
    than the window.  After any requests by anyone, in every interval as long as the
    window the server looks at no more than twice [max_failures] wrong tokens of one
    address, and [max_failures] more for every correct token that the same address sends
    in the interval (a success resets the counter), whatever the other addresses do. *)
Theorem guessing_is_bounded (m w b : Z) (before l : list Attempt) (k : bytes) (t0 : Z) :
  1 <= m <= umax 32 -> 0 <= w < b ->
  Forall (fun a => t0 <= at_check a <= t0 + w /\ t0 <= at_record a <= t0 + w) l ->
  tested k l (run_attempts before (AuthGuard_new m w b)) <= 2 * m + m * correct_count k l.
Proof.
  intros M W F. assert (G : guard_ok (AuthGuard_new m w b)) by (split; [done|done|]; intros k' e He; cbn in He; by apply lookup_empty_Some in He).
  destruct (run_guard_ok before _ G) as [G' (Lm & Lw & _)]. set (g := run_attempts before (AuthGuard_new m w b)) in *. cbn in Lm, Lw.
  pose proof (allowance_start g k t0 G'). pose proof (tested_bound k t0 l g G') as B. rewrite Lw, Lm in *. specialize (B F). lia.
Qed.

(** The request carries the token, in hexadecimal. *)
Definition carries (a : Attempt) : Prop :=
  exists m text raw, at_meta a = Some m /\ meta_to_str m = Some text /\ hex_decode text = Some raw /\ map b2z raw = expected.

(** A request is let through exactly when it carries the token and its address is not
    banned. *)
Lemma guarded_ok (a : Attempt) (g : AuthGuard) : is_token expected ->
  (verify_auth_guarded a expected g).1 = Ok tt <-> carries a /\ (is_banned (at_peer a) (at_check a) g).1 = false.
Proof.
  intros T. unfold carries. rewrite <- verify_inner_ok by done. unfold verify_auth_guarded.
  destruct (is_banned _ _ g) as [[] g1]; cbn [fst]; [split; [done|by intros [_ ?]]|].
  destruct (verify_inner_cases (at_meta a)) as [->|[msg ->]]; cbn [fst]; [done|]. split; [done|by intros [? _]].
Qed.

Lemma guarded_no_panic a g : (verify_auth_guarded a expected g).1 <> Panic.
Proof.
  unfold verify_auth_guarded. destruct (is_banned _ _ g) as [[] g1]; cbn [fst]; [done|].
  by destruct (verify_inner_cases (at_meta a)) as [->|[msg ->]].
Qed.
End tokens.

(** ** Identities *)

Theorem spiffe_round_trip (n : Z) : 0 <= n <= u64_max -> SpiffeId_parse_cn (SpiffeId_cn n) = Ok (mkSpiffeId n).
Proof.
  intros Hn. unfold SpiffeId_parse_cn, SpiffeId_cn. rewrite strip_prefix_app.
  pose proof (parse_u64_show n Hn) as P. destruct (show_nat_spec n) as (d & ds & E & Hds & _); [lia|].
  rewrite E in *. rewrite trim_digits in P by done. by rewrite P.
Qed.

(** One node has several names: a sign and leading zeros are accepted. *)
Theorem spiffe_names_not_unique :
  SpiffeId_parse_cn (SPIFFE_PREFIX ++ bs "+007") = SpiffeId_parse_cn (SpiffeId_cn 7) /\ SPIFFE_PREFIX ++ bs "+007" <> SpiffeId_cn 7.
Proof. split; [by vm_compute|]. intros E. vm_compute in E. discriminate E. Qed.

(** ** Instances *)

Section demo.
(** Two characters per byte, from sixteen letters *)
Definition nibble (z : Z) : byte := z2b (97 + z).
Definition demo_hex (b : bytes) : bytes := concat (map (fun x => [nibble (b2z x / 16); nibble (b2z x mod 16)]) b).
Fixpoint demo_unhex (b : bytes) : option bytes :=
  match b with
  | [] => Some []
  | h :: l :: r => match demo_unhex r with Some r => Some (z2b (16 * (b2z h - 97) + (b2z l - 97)) :: r) | None => None end
  | _ => None
  end.
#[local] Instance demo_auth_text : AuthText :=
  {| meta_value := bytes; meta_parse b := Some b; meta_to_str b := Some b; hex_encode := demo_hex; hex_decode := demo_unhex |}.
#[local] Instance demo_auth_laws : AuthTextLaws.
Proof.
  split; [|by eexists]. intros b. change (demo_unhex (demo_hex b) = Some b). induction b as [|x b IH]; [done|].
  change (demo_hex (x :: b)) with (nibble (b2z x / 16) :: nibble (b2z x mod 16) :: demo_hex b). cbn [demo_unhex]. rewrite IH. do 2 f_equal.
  apply b2z_inj. revert x. apply (forall_byte (fun x => b2z (z2b (16 * (b2z (nibble (b2z x / 16)) - 97) + (b2z (nibble (b2z x mod 16)) - 97))) = b2z x)).
  vm_compute. repeat constructor.
Qed.

Definition demo_token : list Z := from_passphrase (bs "noedb-dev").
Definition guess (t : Z) : Attempt := mkAttempt (Some (bs "10.0.0.1")) (Some (bs "zz")) t t.

(** Nine guesses in one second: the ninth is not looked at. *)
Lemma guessing_is_bounded_witness :
  tested demo_token (bs "10.0.0.1") (map guess [1; 2; 3; 4; 5; 6; 7; 8; 9]) (run_attempts demo_token [] AuthGuard_default) <=
    2 * 8 + 8 * correct_count demo_token (bs "10.0.0.1") (map guess [1; 2; 3; 4; 5; 6; 7; 8; 9]) /\
  tested demo_token (bs "10.0.0.1") (map guess [1; 2; 3; 4; 5; 6; 7; 8; 9]) AuthGuard_default = 8.
Proof.
  split; [|vm_compute; reflexivity].
  apply (guessing_is_bounded demo_token 8 DEFAULT_WINDOW DEFAULT_BAN [] (map guess [1; 2; 3; 4; 5; 6; 7; 8; 9]) (bs "10.0.0.1") 1).
  - vm_compute. split; discriminate.
  - vm_compute. split; [discriminate|reflexivity].
  - repeat constructor; vm_compute; intros; discriminate.
Defined.

(** The window does not slide: it starts at the first failure, so thirteen failures
    in two seconds, around the end of a window, ban nobody. *)
Theorem window_does_not_slide :
  let times := 0 :: map (fun i => 59 * SECOND + i) [1; 2; 3; 4; 5; 6] ++ map (fun i => 60 * SECOND + i) [1; 2; 3; 4; 5; 6; 7] in
  tested demo_token (bs "10.0.0.1") (map guess times) AuthGuard_default = 14 /\
  (is_banned (Some (bs "10.0.0.1")) (61 * SECOND) (run_attempts demo_token (map guess times) AuthGuard_default)).1 = false.
Proof. by vm_compute. Qed.
End demo.
