(* ===== verification/Pool.v ===== *)
(** * The client's connection pool (crates/noedb-pool/src/router.rs, config.rs, pool.rs)

    A pool hands out channels to the endpoints that its load balancer picks.  Its calls
    are asynchronous: between the permit, the idle channel, the health check and the
    connection other calls run.  [pool_step] is one such piece of a call; the requests on
    a channel (tonic) are not modelled, only whether they succeed. *)

From stdpp Require Import list.
From S2P Require Import Prelude BTree.

(** ** router.rs *)

Inductive Route : Type := Read | Write.

Record LoadBalancer : Type := mkLoadBalancer { leader : bytes; replicas : list bytes; read_rr : Z }.
Definition LoadBalancer_new (leader : bytes) (replicas : list bytes) : LoadBalancer := mkLoadBalancer leader replicas 0.

(** [fetch_add] wraps at 64 bits. *)
Definition pick (route : Route) (lb : LoadBalancer) : bytes * LoadBalancer :=
  match route with
  | Write => (leader lb, lb)
  | Read =>
      match replicas lb with
      | [] => (leader lb, lb)
      | _ => (nth (Z.to_nat (read_rr lb mod len (replicas lb))) (replicas lb) [],
              mkLoadBalancer (leader lb) (replicas lb) (wrap 64 (read_rr lb + 1)))
      end
  end.

(** ** config.rs *)

Record PoolConfig : Type := mkPoolConfig { min_idle : nat; max_open : nat; health_interval : Z }.
Definition PoolConfig_default : PoolConfig := mkPoolConfig 2 64 (30 * 1000000000).
Definition PoolConfig_high_concurrency : PoolConfig := mkPoolConfig 8 1024 (60 * 1000000000).

(** ** pool.rs *)

(** A channel: the endpoint it is connected to, and the last time it answered *)
Record Inner : Type := mkInner { channel : bytes; last_ping : Z }.

Record GrpcPool : Type := mkGrpcPool { config : PoolConfig; lb : LoadBalancer; permits : nat; idle : list Inner }.
Definition GrpcPool_new (config : PoolConfig) (lb : LoadBalancer) : GrpcPool := mkGrpcPool config lb (max_open config) [].

(** Where a call is: [acquire] before the idle list, checking an old channel, opening a
    new one; a client in use; a client whose [drop] has given its channel back and still
    holds the permit. *)
Inductive Task : Type :=
| Permitted (route : Route)
| Pinging (route : Route) (inner : Inner)
| Connecting (addr : bytes)
| Client (inner : Inner)
| Dropping.

(** The semaphore: [None] when the call waits. *)
Definition take_permit (p : GrpcPool) : option GrpcPool :=
  match permits p with O => None | S n => Some (mkGrpcPool (config p) (lb p) n (idle p)) end.
Definition give_permit (p : GrpcPool) : GrpcPool := mkGrpcPool (config p) (lb p) (S (permits p)) (idle p).

(** [connect_inner] is called with the endpoint of the route. *)
Definition start_connect (route : Route) (p : GrpcPool) : Task * GrpcPool :=
  let '(addr, lb') := pick route (lb p) in (Connecting addr, mkGrpcPool (config p) lb' (permits p) (idle p)).

(** [self.idle.lock().pop()], the last one; an idle channel is used as it is while its
    last answer is recent. *)
Definition pop_idle (route : Route) (now : Z) (p : GrpcPool) : Task * GrpcPool :=
  match rev (idle p) with
  | [] => start_connect route p
  | inner :: rest =>
      let p := mkGrpcPool (config p) (lb p) (permits p) (rev rest) in
      if Z.max 0 (now - last_ping inner) <? health_interval (config p) then (Client inner, p) else (Pinging route inner, p)
  end.

Definition pool_release (inner : Inner) (p : GrpcPool) : GrpcPool :=
  if (length (idle p) <? min_idle (config p))%nat then mkGrpcPool (config p) (lb p) (permits p) (idle p ++ [inner]) else p.

(** A pool and the calls under way *)
Inductive pool_step : GrpcPool * list Task -> GrpcPool * list Task -> Prop :=
| step_permit p p' ts route : take_permit p = Some p' -> pool_step (p, ts) (p', Permitted route :: ts)
| step_pop p p' t ts1 ts2 route now : pop_idle route now p = (t, p') ->
    pool_step (p, ts1 ++ Permitted route :: ts2) (p', ts1 ++ t :: ts2)
| step_ping_ok p ts1 ts2 route inner now :
    pool_step (p, ts1 ++ Pinging route inner :: ts2) (p, ts1 ++ Client (mkInner (channel inner) now) :: ts2)
| step_ping_failed p p' t ts1 ts2 route inner : start_connect route p = (t, p') ->
    pool_step (p, ts1 ++ Pinging route inner :: ts2) (p', ts1 ++ t :: ts2)
| step_connected p ts1 ts2 addr now :
    pool_step (p, ts1 ++ Connecting addr :: ts2) (p, ts1 ++ Client (mkInner addr now) :: ts2)
| step_connect_failed p ts1 ts2 addr : pool_step (p, ts1 ++ Connecting addr :: ts2) (give_permit p, ts1 ++ ts2)
| step_cancelled p ts1 ts2 t : match t with Client _ | Dropping => False | _ => True end ->
    pool_step (p, ts1 ++ t :: ts2) (give_permit p, ts1 ++ ts2)
| step_execute p ts1 ts2 inner now :
    pool_step (p, ts1 ++ Client inner :: ts2) (p, ts1 ++ Client (mkInner (channel inner) now) :: ts2)
| step_drop p ts1 ts2 inner : pool_step (p, ts1 ++ Client inner :: ts2) (pool_release inner p, ts1 ++ Dropping :: ts2)
| step_dropped p ts1 ts2 : pool_step (p, ts1 ++ Dropping :: ts2) (give_permit p, ts1 ++ ts2).

Inductive pool_run (c : PoolConfig) (lb : LoadBalancer) : GrpcPool * list Task -> Prop :=
| run_start : pool_run c lb (GrpcPool_new c lb, [])
| run_step st st' : pool_run c lb st -> pool_step st st' -> pool_run c lb st'.

(** ** The limits *)

(** The channels that a call holds, or is about to open *)
Definition holds (t : Task) : nat := match t with Pinging _ _ | Connecting _ | Client _ => 1 | Permitted _ | Dropping => 0 end.
Definition held (ts : list Task) : nat := sum_list_with holds ts.

Record pool_inv (c : PoolConfig) (st : GrpcPool * list Task) : Prop := {
  pi_config : config st.1 = c;
  pi_permits : (permits st.1 + length st.2 = max_open c)%nat;
  pi_idle : (length (idle st.1) <= min_idle c)%nat;
  pi_open : (length (idle st.1) + held st.2 <= max_open c)%nat }.

Lemma held_app a b : held (a ++ b) = (held a + held b)%nat.
Proof. unfold held. induction a as [|t a IH]; [done|]. cbn [app sum_list_with]. rewrite IH. lia. Qed.
Lemma held_cons t ts : held (t :: ts) = (holds t + held ts)%nat.
Proof. done. Qed.
Lemma held_length ts : (held ts <= length ts)%nat.
Proof. induction ts as [|t ts IH]; [done|]. rewrite held_cons. cbn [length]. destruct t; cbn [holds]; lia. Qed.

Lemma start_connect_spec route p t p' : start_connect route p = (t, p') ->
  holds t = 1%nat /\ config p' = config p /\ permits p' = permits p /\ idle p' = idle p.
Proof. unfold start_connect. destruct (pick route (lb p)). by intros [= <- <-]. Qed.

Lemma pop_idle_spec route now p t p' : pop_idle route now p = (t, p') ->
  holds t = 1%nat /\ config p' = config p /\ permits p' = permits p /\
  ((idle p = [] /\ idle p' = []) \/ length (idle p) = S (length (idle p'))).
Proof.
  unfold pop_idle. destruct (rev (idle p)) as [|inner rest] eqn:R.
  - intros E. apply start_connect_spec in E as (? & ? & ? & E). assert (idle p = []) as I by (rewrite <- (rev_involutive (idle p)), R; done).
    split_and!; try done. left. by rewrite E.
  - assert (length (idle p) = S (length rest)) by (rewrite <- length_rev, R; done).
    case_test; intros [= <- <-]; split_and!; try done; right; cbn; by rewrite length_rev.
Qed.

Lemma release_spec inner p : config (pool_release inner p) = config p /\ permits (pool_release inner p) = permits p /\
  (length (idle (pool_release inner p)) <= S (length (idle p)))%nat /\
  ((length (idle p) <= min_idle (config p))%nat -> (length (idle (pool_release inner p)) <= min_idle (config p))%nat).
Proof.
  unfold pool_release. destruct (Nat.ltb_spec (length (idle p)) (min_idle (config p))); cbn; [rewrite length_app; cbn|]; split_and!; try done; lia.
Qed.

Lemma pool_step_inv c st st' : pool_inv c st -> pool_step st st' -> pool_inv c st'.
Proof.
  intros [C P I O] S. destruct S as [p p' ts route T|p p' t ts1 ts2 route now E|p ts1 ts2 route inner now|p p' t ts1 ts2 route inner E
    |p ts1 ts2 addr now|p ts1 ts2 addr|p ts1 ts2 t N|p ts1 ts2 inner now|p ts1 ts2 inner|p ts1 ts2]; cbn [fst snd] in *;
    rewrite ?held_app, ?held_cons, ?length_app in *; cbn [holds length] in *;
    try (split; cbn [fst snd give_permit config permits idle]; rewrite ?held_app, ?held_cons, ?length_app; cbn [holds length];
         try done; pose proof (held_length ts1); pose proof (held_length ts2); lia).
  - unfold take_permit in T. destruct (permits p) as [|n] eqn:Ep; [done|]. injection T as <-.
    split; cbn [fst snd config permits idle length held sum_list_with holds]; try done; lia.
  - apply pop_idle_spec in E as (Ht & Hc & Hp & Hi). pose proof (held_length ts1). pose proof (held_length ts2).
    split; cbn [fst snd]; rewrite ?held_app, ?held_cons, ?length_app, ?Hc, ?Hp, ?Ht; cbn [length]; [done|lia|..];
      destruct Hi as [[I1 I2]|Hi]; rewrite ?I2; cbn [length]; lia.
  - apply start_connect_spec in E as (Ht & Hc & Hp & Hi).
    split; cbn [fst snd]; rewrite ?held_app, ?held_cons, ?length_app, ?Hc, ?Hp, ?Hi, ?Ht; cbn [length]; try done; lia.
  - destruct (release_spec inner p) as (Rc & Rp & Ro & Ri). rewrite C in *. specialize (Ri I).
    split; cbn [fst snd]; rewrite ?held_app, ?held_cons, ?length_app, ?Rp; cbn [holds length]; [done|lia|done|lia].
Qed.

Lemma pool_run_inv c b st : pool_run c b st -> pool_inv c st.
Proof. induction 1 as [|st st' _ IH S]; [|by eapply pool_step_inv]. split; cbn; [done|lia|lia|lia]. Qed.

(** C19. At every moment of every interleaving of calls: no more than [max_open] channels are
    open, being opened or idle; no more than [min_idle] are idle; and the permits taken
    are those of the calls under way, so none is lost. *)
Theorem pool_limits (c : PoolConfig) (b : LoadBalancer) (p : GrpcPool) (ts : list Task) :
  pool_run c b (p, ts) ->
  (length (idle p) + held ts <= max_open c)%nat /\ (length (idle p) <= min_idle c)%nat /\ (permits p + length ts = max_open c)%nat.
Proof.
  intros R%pool_run_inv. by destruct R as [_ P I O].
Qed.

(** When no call is under way every permit is back. *)
Corollary pool_quiescent c b p : pool_run c b (p, []) -> permits p = max_open c.
Proof. intros R%pool_run_inv. destruct R as [_ P _ _]. cbn in P. lia. Qed.

(** ** The balancer *)

Fixpoint picks (n : nat) (b : LoadBalancer) : list bytes :=
  match n with O => [] | S n => let '(addr, b) := pick Read b in addr :: picks n b end.

Lemma picks_from n : forall b i, replicas b <> [] -> read_rr b = i -> 0 <= i -> i + Z.of_nat n <= u64_max ->
  picks n b = map (fun j => nth (Z.to_nat ((i + Z.of_nat j) mod len (replicas b))) (replicas b) []) (seq 0 n).
Proof.
  induction n as [|n IH]; intros b i N E Hi Hn; [done|]. cbn [picks]. unfold pick.
  destruct (replicas b) as [|r rs] eqn:R; [done|]. rewrite <- R in *. cbn [seq map]. rewrite E, Z.add_0_r. f_equal.
  assert (W : wrap 64 (i + 1) = i + 1) by (apply Z.mod_small; unfold u64_max in Hn; lia). rewrite W.
  rewrite (IH _ (i + 1)); cbn [replicas read_rr]; [|by rewrite R|done|lia|lia].
  rewrite <- seq_shift, map_map. apply map_ext. intros j. do 3 f_equal. lia.
Qed.

Lemma map_nth_seq {A} (l : list A) d : map (fun i => nth i l d) (seq 0 (length l)) = l.
Proof. induction l as [|x l IH]; [done|]. cbn [length seq map nth]. f_equal. rewrite <- seq_shift, map_map. exact IH. Qed.

(** Reads go round the replicas: any [length replicas] reads in a row, until the counter
    wraps, go to each of them once. *)
Theorem reads_round_robin (b : LoadBalancer) :
  replicas b <> [] -> 0 <= read_rr b -> read_rr b + len (replicas b) <= u64_max ->
  picks (length (replicas b)) b ≡ₚ replicas b.
Proof.
  intros N H0 H1. rewrite (picks_from _ b (read_rr b)) by done.
  set (n := length (replicas b)). assert (Hn : (0 < n)%nat) by (unfold n; destruct (replicas b); [done|cbn; lia]).
  set (f := fun j => Z.to_nat ((read_rr b + Z.of_nat j) mod len (replicas b))).
  assert (P : map f (seq 0 n) ≡ₚ seq 0 n).
  { symmetry. apply submseteq_length_Permutation; [|by rewrite length_map, !length_seq].
    apply NoDup_submseteq; [apply NoDup_seq|]. intros j Hj. apply elem_of_seq in Hj. apply list_elem_of_fmap.
    exists (Z.to_nat ((Z.of_nat j - read_rr b) mod Z.of_nat n)). unfold f, len. fold n.
    pose proof (Z.mod_pos_bound (Z.of_nat j - read_rr b) (Z.of_nat n)). split; [|apply elem_of_seq; lia].
    rewrite Z2Nat.id by lia. rewrite Zplus_mod_idemp_r.
    replace (read_rr b + (Z.of_nat j - read_rr b)) with (Z.of_nat j) by lia. rewrite Z.mod_small by lia. lia. }
  change (map (fun j => nth (f j) (replicas b) []) (seq 0 n) ≡ₚ replicas b).
  rewrite <- (map_map f (fun i => nth i (replicas b) [])), P. unfold n. by rewrite map_nth_seq.
Qed.

(** ** The route of an idle channel *)

(** A pool of one leader and one replica: a read opens a channel to the replica and gives
    it back, and the next write is sent on it. *)
Theorem write_reaches_replica :
  let c := PoolConfig_default in
  let b := LoadBalancer_new (bs "leader:1") [bs "replica:1"] in
  exists p1 p2 : GrpcPool,
    pool_run c b (p1, [Permitted Write]) /\ idle p1 = [mkInner (bs "replica:1") 0] /\
    pool_step (p1, [Permitted Write]) (p2, [Client (mkInner (bs "replica:1") 0)]) /\
    (pick Write (lb p1)).1 = bs "leader:1".
Proof.
  set (c := PoolConfig_default). set (b := LoadBalancer_new (bs "leader:1") [bs "replica:1"]).
  set (b' := mkLoadBalancer (bs "leader:1") [bs "replica:1"] 1). set (ch := mkInner (bs "replica:1") 0).
  exists (mkGrpcPool c b' 63 [ch]), (mkGrpcPool c b' 63 []). cbn zeta. split_and!; [|done| |done].
  - assert (R1 : pool_run c b (mkGrpcPool c b 63 [], [Permitted Read])).
    { apply (run_step _ _ _ _ (run_start c b)). by apply step_permit. }
    assert (R2 : pool_run c b (mkGrpcPool c b' 63 [], [Connecting (bs "replica:1")])).
    { apply (run_step _ _ _ _ R1). by apply (step_pop _ _ _ [] [] Read 0). }
    assert (R3 : pool_run c b (mkGrpcPool c b' 63 [], [Client ch])).
    { apply (run_step _ _ _ _ R2). by apply (step_connected _ [] [] (bs "replica:1") 0). }
    assert (R4 : pool_run c b (mkGrpcPool c b' 63 [ch], [Dropping])).
    { apply (run_step _ _ _ _ R3). by apply (step_drop (mkGrpcPool c b' 63 []) [] [] ch). }
    assert (R5 : pool_run c b (mkGrpcPool c b' 64 [ch], [])).
    { apply (run_step _ _ _ _ R4). by apply (step_dropped (mkGrpcPool c b' 63 [ch]) [] []). }
    apply (run_step _ _ _ _ R5). by apply step_permit.
  - by apply (step_pop _ _ _ [] [] Write 1).
Qed.

Lemma pool_limits_witness :
  let c := PoolConfig_default in
  let b := LoadBalancer_new (bs "leader:1") [bs "replica:1"] in
  exists p, pool_run c b (p, [Permitted Read]) /\ (length (idle p) <= 2)%nat /\ (permits p + 1 = 64)%nat.
Proof.
  cbn zeta. set (b := LoadBalancer_new (bs "leader:1") [bs "replica:1"]).
  exists (mkGrpcPool PoolConfig_default b 63 []).
  assert (R : pool_run PoolConfig_default b (mkGrpcPool PoolConfig_default b 63 [], [Permitted Read])).
  { apply (run_step _ _ _ _ (run_start PoolConfig_default b)). apply step_permit. reflexivity. }
  destruct (pool_limits PoolConfig_default b _ _ R) as (_ & I & P). split; [exact R|]. split; [exact I|exact P].
Defined.
