(* ===== verification/Server.v ===== *)
(** * The gRPC server and the command line (crates/noedb-cli/src/grpc.rs; crates/noedb-pool/src/pool.rs:
      parse_rows; crates/noedb-cli/src/main.rs: Backend, arguments, StmtBuffer, handle_meta, run_sql,
      run_plain_repl, run_server's choice of a listener)

    The three calls of the SQL service over an engine, behind the guard of [Access], and
    the local engine as the [SqlService] that this server and the one of [Wire] serve.
    Calls are taken one after the other: the in-flight semaphore only makes them wait.
    The shell collects lines until a semicolon and runs what stands before it.  What it
    prints is a list of [Shown]; a computation is [None] while a statement runs, and
    [Panic] ends the process.
    The offline commands of [main] print lines; the development certificates are files
    ([DiskIo]) with texts of rcgen's making (crates/noedb-cli/src/tls.rs), and the client
    verifier and the reloading acceptor of crates/noedb-tls stand on rustls's answers. *)

From stdpp Require Import list gmap.
From S2P Require Import Prelude BTree StorageError Mvcc MvccMemTable Txn TxnManager MemTable Text Float64 Tokens Ast Display Lexer Parser Statements Utf8 RowPack Value Cast Eval Plan TableScan SetOps RowOps WindowExec StreamAgg Executor Optimize Build Query Catalog Guards Caches AuditTrail Bind Hnsw Dml EngineFacts Engine Raft RaftNode Distributed Explain Wire Access Wal Filter SSTable Compaction Lsm LsmScan Manifest DiskIo.

(** ** Engines as services *)

Section services.
Context {T C : Type} `{TreeOps T} `{LruOps C CacheKey QueryResult} `{ExecEnv} `{Scheduler} `{StdChoices} `{Unicode} `{Aead} `{DebugText}.
Context `{JsonText SchemaSnapshot} `{JsonText AuditEntry} (sha256_hex : bytes -> bytes).

(** A statement comes with its readings of the clock and the fuel of its queries. *)
Definition local_service (fuel : nat) (ca : Call) : SqlService (LocalEngine T C) := {|
  svc_execute sql e := Engine.execute sha256_hex fuel ca sql e;
  svc_explain sql e := LocalEngine_explain fuel sql e |}.
End services.

(** ** grpc.rs *)

(** The [oneof] of the response *)
Inductive SqlResponse : Type :=
| BodyResult (columns : list bytes) (rows : list (list bytes))
| BodyExplain (text : bytes)
| BodyPong
| BodyError (code : Z) (message : bytes).

Section grpc.
Context {S : Type} `{SqlService S} `{AuthText} (error_text : EngineError -> bytes).

Definition DEFAULT_MAX_INFLIGHT : Z := 512.

Definition result_set_response (r : QueryResult) : SqlResponse := BodyResult (qr_columns r) (qr_rows r).
Definition sql_error (e : EngineError) : SqlResponse := BodyError (grpc_code e) (error_text e).

(** A panic in the blocking task is reported as an internal error. *)
Definition dispatch_sql (query : bytes) (s : S) : option (outcome Status SqlResponse * S) :=
  match svc_execute query s with
  | None => None
  | Some (r, s) =>
      Some (match r with
            | Ok r => Ok (result_set_response r)
            | Err e => Ok (sql_error e)
            | Panic => Err (InternalS "task panicked")
            end, s)
  end.

Record GrpcServer : Type := mkGrpcServer { gs_auth : list Z; gs_guard : AuthGuard; gs_engine : S }.

(** A call: the guard first, then the body *)
Definition grpc_call (a : Attempt) (body : S -> option (outcome Status SqlResponse * S)) (srv : GrpcServer)
    : option (outcome Status SqlResponse * GrpcServer) :=
  let '(r, g) := verify_auth_guarded a (gs_auth srv) (gs_guard srv) in
  match r with
  | Ok _ => match body (gs_engine srv) with None => None | Some (r, s) => Some (r, mkGrpcServer (gs_auth srv) g s) end
  | Err e => Some (Err e, mkGrpcServer (gs_auth srv) g (gs_engine srv))
  | Panic => Some (Panic, mkGrpcServer (gs_auth srv) g (gs_engine srv))
  end.

Definition grpc_execute (a : Attempt) (query : bytes) : GrpcServer -> option (outcome Status SqlResponse * GrpcServer) :=
  grpc_call a (dispatch_sql query).
Definition grpc_explain (a : Attempt) (query : bytes) : GrpcServer -> option (outcome Status SqlResponse * GrpcServer) :=
  grpc_call a (fun s => match svc_explain query s with
                        | None => None
                        | Some (Ok text) => Some (Ok (BodyExplain text), s)
                        | Some (Err e) => Some (Ok (sql_error e), s)
                        | Some Panic => Some (Err (InternalS "task panicked"), s)
                        end).
Definition grpc_ping (a : Attempt) : GrpcServer -> option (outcome Status SqlResponse * GrpcServer) :=
  grpc_call a (fun s => Some (Ok BodyPong, s)).

(** [parse_rows] of the pool's client *)
Inductive PoolError : Type := Exhausted | PoolRpc (e : Status) | PoolTls (msg : string) | PoolSql (msg : bytes).
Definition parse_rows (resp : SqlResponse) : outcome PoolError QueryResult :=
  match resp with
  | BodyResult columns rows => Ok (mkQueryResult columns rows)
  | BodyError _ message => Err (PoolSql message)
  | BodyExplain _ | BodyPong => Err (PoolSql (bs "unexpected response"))
  end.

(** ** Access *)

(** A request on the server: any call *)
Inductive GrpcRequest : Type := GExecute (query : bytes) | GExplain (query : bytes) | GPing.
Definition grpc_serve (a : Attempt) (req : GrpcRequest) : GrpcServer -> option (outcome Status SqlResponse * GrpcServer) :=
  match req with GExecute q => grpc_execute a q | GExplain q => grpc_explain a q | GPing => grpc_ping a end.

(** The engine was called, and the response is its answer. *)
Definition answered (req : GrpcRequest) (s s' : S) (r : outcome Status SqlResponse) : Prop :=
  match req with
  | GExecute query => exists o, svc_execute query s = Some (o, s') /\
      r = match o with
          | Ok q => Ok (BodyResult (qr_columns q) (qr_rows q))
          | Err e => Ok (BodyError (grpc_code e) (error_text e))
          | Panic => Err (InternalS "task panicked")
          end
  | GExplain query => s' = s /\ exists o, svc_explain query s = Some o /\
      r = match o with
          | Ok text => Ok (BodyExplain text)
          | Err e => Ok (BodyError (grpc_code e) (error_text e))
          | Panic => Err (InternalS "task panicked")
          end
  | GPing => s' = s /\ r = Ok BodyPong
  end.

(** C17. The token opens the server, and nothing else does.  A request that carries the token
    and comes from an address that is not banned reaches the engine, and its response is
    the engine's answer.  Any other request is refused with an error and leaves the engine
    as it is. *)
Theorem grpc_requires_token (a : Attempt) (req : GrpcRequest) (srv srv' : GrpcServer) (r : outcome Status SqlResponse) :
  is_token (gs_auth srv) -> grpc_serve a req srv = Some (r, srv') ->
  let admitted := carries (gs_auth srv) a /\ (is_banned (at_peer a) (at_check a) (gs_guard srv)).1 = false in
  (admitted -> answered req (gs_engine srv) (gs_engine srv') r) /\
  (~ admitted -> (exists e, r = Err e) /\ gs_engine srv' = gs_engine srv).
Proof.
  intros T E admitted. pose proof (guarded_ok (gs_auth srv) a (gs_guard srv) T) as G. fold admitted in G.
  pose proof (guarded_no_panic (gs_auth srv) a (gs_guard srv)) as N. unfold answered.
  destruct req as [query|query|]; cbn [grpc_serve] in E; unfold grpc_execute, grpc_explain, grpc_ping, grpc_call, dispatch_sql in E;
    destruct (verify_auth_guarded a (gs_auth srv) (gs_guard srv)) as [v g]; cbn [fst] in G, N;
    (destruct v as [[]|e|]; [|injection E as <- <-; split; [intros A; by apply G in A|by eauto]|done]);
    (split; [intros _|intros A; by destruct A; apply G]).
  - destruct (svc_execute query (gs_engine srv)) as [[o s]|]; [|done]. injection E as <- <-. eexists. split; [done|]. by destruct o.
  - destruct (svc_explain query (gs_engine srv)) as [o|]; [|done]. destruct o; injection E as <- <-; (split; [done|]); by eexists.
  - by injection E as <- <-.
Qed.

(** What a client of the pool gets is what the engine returned. *)
Theorem pool_reads_engine_result (a : Attempt) (query : bytes) (srv srv' : GrpcServer) (resp : SqlResponse) :
  grpc_execute a query srv = Some (Ok resp, srv') ->
  exists r, svc_execute query (gs_engine srv) = Some (r, gs_engine srv') /\
    match r with
    | Ok q => parse_rows resp = Ok q
    | Err e => parse_rows resp = Err (PoolSql (error_text e)) /\ resp = BodyError (grpc_code e) (error_text e)
    | Panic => False
    end.
Proof.
  unfold grpc_execute, grpc_call, dispatch_sql. destruct (verify_auth_guarded a _ _) as [[[]| |] g]; try done.
  destruct (svc_execute query (gs_engine srv)) as [[[q|e|] s]|]; intros E; try discriminate E; injection E as <- <-; eexists; (split; [done|]); [|done].
  by destruct q.
Qed.
End grpc.
Arguments GrpcServer : clear implicits.

(** ** A server on the engine of the facts *)

#[local] Existing Instance demo_env.
#[local] Existing Instance demo_choices.
#[local] Existing Instance demo_scheduler.
#[local] Existing Instance ascii_unicode.
#[local] Existing Instance demo_aead.
#[local] Existing Instance demo_tree.
#[local] Existing Instance coded_text.
#[local] Existing Instance demo_debug.
#[local] Existing Instance demo_auth_text.
Definition demo_service : SqlService Eng := local_service demo_hash 20 demo_call.
#[local] Existing Instance demo_service.

Definition attempt_of (peer : string) (token : list Z) (t : Z) : Attempt :=
  mkAttempt (Some (bs peer)) (match inject_auth token with Ok m => m | _ => None end) t t.
Definition demo_server (e : Eng) : GrpcServer Eng := mkGrpcServer demo_token AuthGuard_default e.

(** Requests of clients with the token, and the answers *)
Fixpoint serve_all (reqs : list (string * string)) (srv : GrpcServer Eng) : list Answer :=
  match reqs with
  | [] => []
  | (peer, sql) :: reqs =>
      match grpc_execute (fun _ => []) (attempt_of peer demo_token 0) (bs sql) srv with
      | Some (Ok (BodyResult _ rows), srv) => Rows rows :: serve_all reqs srv
      | Some (Ok (BodyError code _), srv) => Failed code :: serve_all reqs srv
      | Some (_, srv) => Crashed :: serve_all reqs srv
      | None => [Running_on]
      end
  end.

(** All clients are one session: one client sees the uncommitted rows of another, rolls
    its transaction back, and the other's COMMIT fails. *)
Theorem clients_share_transaction :
  match fresh_engine with
  | Some e => serve_all [("10.0.0.1", "CREATE TABLE t (a INT PRIMARY KEY)"); ("10.0.0.1", "BEGIN"); ("10.0.0.1", "INSERT INTO t VALUES (1)");
                         ("10.0.0.2", "SELECT a FROM t"); ("10.0.0.2", "ROLLBACK"); ("10.0.0.1", "COMMIT"); ("10.0.0.1", "SELECT a FROM t")]
                (demo_server e)
  | None => []
  end = [done_; done_; done_; rows [["1"]]; done_; Failed 1; done_].
Proof. vm_compute. reflexivity. Qed.

(** A request with the token is answered. *)
Lemma grpc_requires_token_witness :
  exists e srv', fresh_engine = Some e /\
    grpc_serve (fun _ => []) (attempt_of "10.0.0.1" demo_token 0) GPing (demo_server e) = Some (Ok BodyPong, srv') /\
    answered (fun _ => []) GPing e (gs_engine srv') (Ok BodyPong).
Proof.
  assert (F : is_Some fresh_engine) by (vm_compute; eauto). destruct F as [e Ee]. exists e.
  set (srv' := mkGrpcServer demo_token (verify_auth_guarded (attempt_of "10.0.0.1" demo_token 0) demo_token AuthGuard_default).2 e).
  exists srv'.
  assert (V : (verify_auth_guarded (attempt_of "10.0.0.1" demo_token 0) demo_token AuthGuard_default).1 = Ok tt) by (vm_compute; reflexivity).
  assert (T : is_token demo_token) by (split; [vm_compute; reflexivity|]; vm_compute; repeat constructor; discriminate).
  assert (E : grpc_serve (fun _ => []) (attempt_of "10.0.0.1" demo_token 0) GPing (demo_server e) = Some (Ok BodyPong, srv')).
  { unfold srv'. cbn [grpc_serve]. unfold grpc_ping, grpc_call, demo_server. cbn [gs_auth gs_guard gs_engine].
    destruct (verify_auth_guarded _ demo_token AuthGuard_default) as [v g]. cbn [fst] in V. subst v. reflexivity. }
  split; [exact Ee|]. split; [exact E|].
  apply (grpc_requires_token (fun _ => []) (attempt_of "10.0.0.1" demo_token 0) GPing (demo_server e) srv' (Ok BodyPong) T E).
  apply (guarded_ok demo_token _ AuthGuard_default T). exact V.
Defined.

(** ** The command line (main.rs): arguments, the statement buffer, commands, the plain loop *)

(** ** Arguments *)

Definition has_arg (name : string) (args : list bytes) : bool := existsb (fun a => bool_decide (a = bs name)) args.

(** [position] of the first flag that matches, then [get(i + 1)] *)
Fixpoint arg_after (names : list string) (args : list bytes) : option bytes :=
  match args with
  | [] => None
  | a :: rest => if existsb (fun n => bool_decide (a = bs n)) names then head rest else arg_after names rest
  end.

Definition use_tls (args : list bytes) : bool := negb (has_arg "--no-tls" args).
Definition use_mtls (args : list bytes) : bool := use_tls args && negb (has_arg "--no-mtls" args).
Definition legacy_tcp (args : list bytes) : bool := has_arg "--legacy-tcp" args.

Definition DEFAULT_GRPC_ADDR : bytes := bs "127.0.0.1:5434".
Definition grpc_addr (args : list bytes) : bytes := default DEFAULT_GRPC_ADDR (arg_after ["--grpc-listen"] args).
Definition server_addr (args : list bytes) : bytes := default (bs "127.0.0.1:5433") (arg_after ["--listen"] args).
Definition node_id_arg (args : list bytes) : Z :=
  match arg_after ["--node-id"] args with Some s => default 1 (parse_u64 s) | None => 1 end.
(** The data directory, or [noedb-data] under the temporary one *)
Definition data_dir (temp : bytes) (args : list bytes) : bytes :=
  default (temp ++ bs "/noedb-data") (arg_after ["--data"; "--data-dir"] args).

(** The listener that [run_server] (and [run_ping]) uses *)
Inductive Listener : Type := Grpc (mtls : bool) | TcpMtls | TcpTls | TcpPlain.
Definition listener (args : list bytes) : Listener :=
  if negb (legacy_tcp args) && use_tls args then Grpc (use_mtls args)
  else if use_mtls args then TcpMtls
  else if use_tls args then TcpTls
  else TcpPlain.

(** ** Statements *)

Inductive Shown : Type :=
| ShownResult (r : QueryResult) | ShownExplain (text : bytes) | ShownError (text : bytes) | ShownHelp.

(** [find(';')] and the two parts around it *)
Definition semicolon : byte := x3b.
Fixpoint cut_statement (s : bytes) : option (bytes * bytes) :=
  match s with
  | [] => None
  | b :: r =>
      if bool_decide (b = semicolon) then Some ([], r)
      else match cut_statement r with Some (a, r') => Some (b :: a, r') | None => None end
  end.

Definition eq_ignore_ascii_case (a b : bytes) : bool := bool_decide (to_lower a = to_lower b).

(** [trim_end_matches(';')] *)
Fixpoint drop_semicolons (s : bytes) : bytes :=
  match s with b :: r => if bool_decide (b = semicolon) then drop_semicolons r else s | [] => [] end.
Definition strip_semicolons (s : bytes) : bytes := rev (drop_semicolons (rev s)).

Section repl.
Context {S : Type} `{SqlService S} (error_text : EngineError -> bytes).

Definition Shell (A : Type) : Type := S * list Shown -> option (outcome unit (A * (S * list Shown))).
Definition show (x : Shown) (st : S * list Shown) : S * list Shown := (st.1, st.2 ++ [x]).

Definition run_sql (sql : bytes) : Shell unit := fun st =>
  match svc_execute sql st.1 with
  | None => None
  | Some (r, s) =>
      Some (match r with
            | Ok result => Ok (tt, show (ShownResult result) (s, st.2))
            | Err e => Ok (tt, show (ShownError (error_text e)) (s, st.2))
            | Panic => Panic
            end)
  end.

(** [Some continue] when the line is a command *)
Definition handle_meta (trimmed : bytes) : Shell (option bool) := fun st =>
  if starts_with (bs "#") trimmed || starts_with (bs "cargo ") trimmed || starts_with (bs "git ") trimmed then
    Some (Ok (Some true, show (ShownError (bs "this is the SQL REPL")) st))
  else if bool_decide (trimmed = bs "\q") || eq_ignore_ascii_case trimmed (bs "quit") then Some (Ok (Some false, st))
  else if bool_decide (trimmed = bs "\help") then Some (Ok (Some true, show ShownHelp st))
  else if bool_decide (trimmed = bs "\clear") then Some (Ok (Some true, st))
  else match strip_prefix (bs "\explain ") trimmed with
       | Some sql =>
           let sql := trim (strip_semicolons (trim sql)) in
           match svc_explain sql st.1 with
           | None => None
           | Some (Ok text) => Some (Ok (Some true, show (ShownExplain text) st))
           | Some (Err e) => Some (Ok (Some true, show (ShownError (error_text e)) st))
           | Some Panic => Some Panic
           end
       | None =>
           if starts_with (bs "\") trimmed then Some (Ok (Some true, show (ShownError (bs "unknown command: " ++ trimmed)) st))
           else Some (Ok (None, st))
       end.

(** The loop of [flush_complete]; the text that is left bounds its rounds. *)
Fixpoint flush_loop (fuel : nat) (pending : bytes) : Shell bytes := fun st =>
  match fuel with
  | O => Some (Ok (pending, st))
  | Datatypes.S fuel =>
      match cut_statement pending with
      | None => Some (Ok (pending, st))
      | Some (before, rest) =>
          match trim before with
          | [] => flush_loop fuel rest st
          | stmt =>
              match run_sql stmt st with
              | Some (Ok (_, st)) => flush_loop fuel rest st
              | Some (Err e) => Some (Err e)
              | Some Panic => Some Panic
              | None => None
              end
          end
      end
  end.
Definition flush_complete (pending : bytes) : Shell bytes := flush_loop (Datatypes.S (length pending)) pending.

Definition flush_remaining (pending : bytes) : Shell unit := fun st =>
  match trim pending with [] => Some (Ok (tt, st)) | stmt => run_sql stmt st end.

(** [feed_line]: whether the session goes on, and the pending text *)
Definition feed_line (line pending : bytes) : Shell (bool * bytes) := fun st =>
  let collect (pending : bytes) (st : S * list Shown) :=
    let pending := pending ++ line in
    let pending := if bool_decide (last pending = Some newline) then pending else pending ++ [newline] in
    match flush_complete pending st with
    | Some (Ok (pending, st)) => Some (Ok ((true, pending), st))
    | Some (Err e) => Some (Err e)
    | Some Panic => Some Panic
    | None => None
    end in
  match trim pending with
  | [] =>
      match trim line with
      | [] => Some (Ok ((true, []), st))
      | trimmed =>
          match handle_meta trimmed st with
          | Some (Ok (Some continue, st)) => Some (Ok ((continue, []), st))
          | Some (Ok (None, st)) => collect [] st
          | Some (Err e) => Some (Err e)
          | Some Panic => Some Panic
          | None => None
          end
      end
  | _ => collect pending st
  end.

(** [run_plain_repl] on the lines of its input *)
Fixpoint run_plain_repl (lines : list bytes) (pending : bytes) : Shell unit := fun st =>
  match lines with
  | [] => flush_remaining pending st
  | line :: lines =>
      match feed_line line pending st with
      | Some (Ok ((true, pending), st)) => run_plain_repl lines pending st
      | Some (Ok ((false, _), st)) => Some (Ok (tt, st))
      | Some (Err e) => Some (Err e)
      | Some Panic => Some Panic
      | None => None
      end
  end.

(** [run_studio_repl]: the editor gives a line, an interrupt or an error; the end of the
    list is the end of input.  Screen and history are left out. *)
Inductive EditorEvent : Type := EditorLine (line : bytes) | EditorInterrupted | EditorError.
Fixpoint run_studio_repl (events : list EditorEvent) (pending : bytes) : Shell unit := fun st =>
  match events with
  | [] => flush_remaining pending st
  | EditorInterrupted :: _ => Some (Ok (tt, st))
  | EditorError :: _ => Some (Err tt)
  | EditorLine line :: events =>
      match feed_line line pending st with
      | Some (Ok ((true, pending), st)) => run_studio_repl events pending st
      | Some (Ok ((false, _), st)) => Some (Ok (tt, st))
      | Some (Err e) => Some (Err e)
      | Some Panic => Some Panic
      | None => None
      end
  end.
End repl.

(** ** What is run *)

Section statements.
Context {S : Type} `{SqlService S} (error_text : EngineError -> bytes).

(** The statements that a text completes, and what it leaves *)
Definition complete_statements (text : bytes) : list bytes :=
  filter (fun s => s <> []) (map trim (removelast (split_at semicolon text))).
Definition remainder (text : bytes) : bytes := List.last (split_at semicolon text) [].

Fixpoint run_all (stmts : list bytes) (st : S * list Shown) : option (outcome unit (S * list Shown)) :=
  match stmts with
  | [] => Some (Ok st)
  | s :: stmts =>
      match run_sql error_text s st with
      | Some (Ok (_, st)) => run_all stmts st
      | Some (Err e) => Some (Err e)
      | Some Panic => Some Panic
      | None => None
      end
  end.

Lemma split_at_nonempty sep s : split_at sep s <> [].
Proof. induction s as [|b s IH]; [done|]. cbn [split_at]. case_bool_decide; [done|]. by destruct (split_at sep s). Qed.

Lemma cut_none s : cut_statement s = None -> split_at semicolon s = [s].
Proof.
  induction s as [|b s IH]; [done|]. cbn [cut_statement split_at]. case_bool_decide; [done|].
  destruct (cut_statement s) as [[]|]; [done|]. by rewrite IH.
Qed.

Lemma cut_some s a r : cut_statement s = Some (a, r) -> split_at semicolon s = a :: split_at semicolon r /\ (length r < length s)%nat.
Proof.
  revert a r. induction s as [|b s IH]; intros a r; [done|]. cbn [cut_statement split_at length]. case_bool_decide as E.
  - intros [= <- <-]. split; [done|lia].
  - destruct (cut_statement s) as [[a' r']|]; [|done]. intros [= <- <-]. destruct (IH _ _ eq_refl) as [-> ?]. split; [done|lia].
Qed.

Lemma statements_cut s a r : cut_statement s = Some (a, r) ->
  complete_statements s = (match trim a with [] => [] | t => [t] end) ++ complete_statements r /\ remainder s = remainder r.
Proof.
  intros [E _]%cut_some. unfold complete_statements, remainder. rewrite E. pose proof (split_at_nonempty semicolon r) as N.
  destruct (split_at semicolon r) as [|p ps] eqn:R; [done|]. split; [|done].
  change (removelast (a :: p :: ps)) with (a :: removelast (p :: ps)). cbn [map]. rewrite filter_cons.
  destruct (trim a) as [|t ts]; [rewrite decide_False by (intros X; by apply X); done|by rewrite decide_True].
Qed.

Lemma flush_loop_spec fuel : forall pending st, (length pending < fuel)%nat ->
  flush_loop error_text fuel pending st =
  match run_all (complete_statements pending) st with
  | Some (Ok st) => Some (Ok (remainder pending, st))
  | Some (Err e) => Some (Err e)
  | Some Panic => Some Panic
  | None => None
  end.
Proof.
  induction fuel as [|fuel IH]; intros pending st Hf; [lia|]. cbn [flush_loop]. destruct (cut_statement pending) as [[a r]|] eqn:C.
  - pose proof (cut_some _ _ _ C) as [_ L]. destruct (statements_cut _ _ _ C) as [-> ->].
    destruct (trim a) as [|t ts]; cbn [app]; [apply IH; lia|]. cbn [run_all].
    destruct (run_sql error_text (t :: ts) st) as [[[u st']| |]|]; try done. apply IH. lia.
  - apply cut_none in C. unfold complete_statements, remainder. rewrite C. done.
Qed.

(** What the shell runs when a line arrives: the pieces of the text between semicolons,
    trimmed and without the empty ones, in order; what follows the last one stays. *)
Theorem flush_runs_statements (pending : bytes) (st : S * list Shown) :
  flush_complete error_text pending st =
  match run_all (complete_statements pending) st with
  | Some (Ok st) => Some (Ok (remainder pending, st))
  | Some (Err e) => Some (Err e)
  | Some Panic => Some Panic
  | None => None
  end.
Proof. apply flush_loop_spec. lia. Qed.
End statements.

(** A semicolon inside a string literal ends the statement. *)
Theorem semicolon_in_literal_splits :
  complete_statements (bs "SELECT 'a;b';") = [bs "SELECT 'a"; bs "b'"] /\ remainder (bs "SELECT 'a;b';") = [].
Proof. by vm_compute. Qed.

(** Without encryption the server listens only when the arguments say so. *)
Theorem plaintext_only_on_request (args : list bytes) : listener args = TcpPlain <-> has_arg "--no-tls" args = true.
Proof. unfold listener, use_mtls, use_tls. destruct (legacy_tcp args), (has_arg "--no-tls" args), (has_arg "--no-mtls" args); done. Qed.

(** ** Commands (main.rs: main, run_scrub, run_audit_verify, run_audit_export) *)

(** What [main] runs: the first flag in its order decides. *)
Inductive CliCommand : Type := CmdServer | CmdPing | CmdScrub | CmdAuditVerify | CmdAuditExport | CmdRepl.
Definition command (args : list bytes) : CliCommand :=
  if has_arg "--server" args then CmdServer
  else if has_arg "--ping" args then CmdPing
  else if has_arg "--scrub" args then CmdScrub
  else if has_arg "--audit-verify" args then CmdAuditVerify
  else if has_arg "--audit-export" args then CmdAuditExport
  else CmdRepl.

(** The endpoint for traces; the address of the metrics, if it parses as one *)
Definition otel_endpoint (args : list bytes) : option bytes := arg_after ["--otel-endpoint"] args.
Definition metrics_listen {Addr} (parse_addr : bytes -> option Addr) (args : list bytes) : option Addr :=
  match arg_after ["--metrics-listen"] args with Some a => parse_addr a | None => None end.

(** A command prints lines and ends with an error or without. *)
Inductive CommandError : Type :=
| CommandStorage (e : StorageError)
| CommandEngine (context : string) (e : EngineError)
| ChecksumFailures (n : Z).

(** An outcome whose panic ends the process *)
Definition printed {A} (o : outcome CommandError A) (k : A -> list bytes * outcome CommandError unit) : list bytes * outcome CommandError unit :=
  match o with Ok a => k a | Err e => ([], Err e) | Panic => ([], Panic) end.

Definition run_scrub (crc32c : bytes -> Z) (files : option (list bytes)) : list bytes * outcome CommandError unit :=
  printed (map_err CommandStorage (scrub_data_dir crc32c files)) (fun report =>
    ([bs "scrub OK — files=" ++ show_nat (files_scanned report) ++ bs " blocks=" ++ show_nat (blocks_verified report) ++
      bs " checksum_failures=" ++ show_nat (checksum_failures report)],
     if checksum_failures report >? 0 then Err (ChecksumFailures (checksum_failures report)) else Ok tt)).

Section audit_commands.
Context (sha256_hex : bytes -> bytes) `{JsonText AuditEntry}.

Definition run_audit_verify (file : option bytes) : list bytes * outcome CommandError unit :=
  printed (let? log := map_err (CommandEngine "") (AuditLog_open file) in
           let? entries := map_err (CommandEngine "") (AuditLog_read_all log) in
           let? _ := map_err (CommandEngine "audit chain verification FAILED: ") (verify_chain sha256_hex log) in
           Ok entries) (fun entries =>
    ([bs "audit chain OK — " ++ show_nat (len entries) ++ bs " entr" ++ (if len entries =? 1 then bs "y" else bs "ies") ++ bs " verified"], Ok tt)).

Definition tab : byte := x09.
(** [&hash[..16.min(len)]] panics inside a character. *)
Definition export_line (e : AuditEntry) : option bytes :=
  match str_get (au_hash e) 0 (Nat.min 16 (length (au_hash e))) with
  | Some h =>
      Some (show_nat (au_ts e) ++ [tab] ++ au_tenant e ++ [tab] ++ au_user e ++ [tab] ++ au_query e ++ [tab] ++
            bs "rows=" ++ show_nat (au_rows e) ++ [tab] ++ bs "hash=" ++ h)
  | None => None
  end.

Fixpoint export_lines (es : list AuditEntry) : list bytes * outcome CommandError unit :=
  match es with
  | [] => ([], Ok tt)
  | e :: es' =>
      match export_line e with
      | Some l => let '(ls, r) := export_lines es' in (l :: ls, r)
      | None => ([], Panic)
      end
  end.

Definition run_audit_export (file : option bytes) : list bytes * outcome CommandError unit :=
  printed (let? log := map_err (CommandEngine "") (AuditLog_open file) in
           let? _ := map_err (CommandEngine "refusing to export tampered audit log: ") (verify_chain sha256_hex log) in
           map_err (CommandEngine "") (AuditLog_read_all log)) export_lines.
End audit_commands.

(** [--scrub] succeeds exactly when a scan of the files finds no bad block. *)
Theorem scrub_reports_failures crc32c files :
  (run_scrub crc32c files).2 = Ok tt <-> exists report, scrub_data_dir crc32c files = Ok report /\ checksum_failures report <= 0.
Proof.
  unfold run_scrub, printed. destruct (scrub_data_dir crc32c files) as [report|e|]; cbn [map_err snd]; [|naive_solver..].
  destruct (Z.gtb_spec (checksum_failures report) 0); split; [done|intros (r & [= <-] & ?); lia|eauto|done].
Qed.

(** [--audit-verify] and [--audit-export] succeed on a log that the engine wrote, from
    which nothing was changed, and export a line per entry. *)
Theorem audit_commands_accept (sha256_hex : bytes -> bytes) `{JsonLaws AuditEntry} `{!JsonLine AuditEntry} (l : AuditLog) (es : list AuditEntry) :
  audit_run sha256_hex l es -> es <> [] ->
  (run_audit_verify sha256_hex (al_file l)).2 = Ok tt /\ run_audit_export sha256_hex (al_file l) = export_lines es.
Proof.
  intros R N. destruct (audit_log_verifies sha256_hex l es R N) as (E1 & E2 & E3).
  unfold run_audit_verify, run_audit_export. rewrite E3. cbn [map_err obind]. by rewrite E1, E2.
Qed.

(** The export does not escape its fields: for any two entries, the record of one
    statement with a suitable text is exported as the lines of the two. *)
Theorem export_can_be_forged (e1 e2 : AuditEntry) (l1 l2 : bytes) :
  export_line e1 = Some l1 -> export_line e2 = Some l2 ->
  exists query, export_line (mkAuditEntry (au_ts e1) (au_tenant e1) (au_user e1) query (au_rows e2) (au_hash e2)) = Some (l1 ++ [newline] ++ l2).
Proof.
  unfold export_line. cbn [au_ts au_tenant au_user au_query au_rows au_hash]. intros E1 E2.
  destruct (str_get (au_hash e1) _ _) as [h1|]; [|done]. destruct (str_get (au_hash e2) _ _) as [h2|]; [|done].
  apply (inj Some) in E1 as <-. apply (inj Some) in E2 as <-.
  exists (au_query e1 ++ [tab] ++ bs "rows=" ++ show_nat (au_rows e1) ++ [tab] ++ bs "hash=" ++ h1 ++ [newline] ++
    show_nat (au_ts e2) ++ [tab] ++ au_tenant e2 ++ [tab] ++ au_user e2 ++ [tab] ++ au_query e2).
  f_equal. rewrite <-!app_assoc. reflexivity.
Qed.

(** ** Development certificates (noedb-cli/src/tls.rs, noedb-tls/src/dev_certs.rs, spiffe.rs) *)

Record DevCertPem : Type := mkDevCertPem {
  ca_pem : bytes; cert_pem : bytes; key_pem : bytes; client_cert_pem : bytes; client_key_pem : bytes; client_spiffe_cn : bytes }.

(** The five files of [tls/], in the order in which they are written *)
Definition cert_files (dir : bytes) (c : DevCertPem) : list (bytes * bytes) :=
  let tls := join dir (bs "tls") in
  [(join tls (bs "ca.pem"), ca_pem c); (join tls (bs "cert.pem"), cert_pem c); (join tls (bs "key.pem"), key_pem c);
   (join tls (bs "client.pem"), client_cert_pem c); (join tls (bs "client-key.pem"), client_key_pem c)].

Definition read_text (path : bytes) (d : Disk) : outcome StorageError bytes :=
  let? data := ok_or (d !! path) (Io "No such file or directory") in
  ok_or (from_utf8 data) (Io "stream did not contain valid UTF-8").

(** [generated] is what rcgen makes for the node. *)
Definition load_or_create_dev_certs (generated : outcome StorageError DevCertPem) (dir : bytes) (node_id : Z) (d : Disk)
    : outcome StorageError (list DiskOp * DevCertPem) :=
  let tls := join dir (bs "tls") in
  let ca := join tls (bs "ca.pem") in
  let cert := join tls (bs "cert.pem") in
  let key := join tls (bs "key.pem") in
  let client_cert := join tls (bs "client.pem") in
  let client_key := join tls (bs "client-key.pem") in
  if forallb (fun p => bool_decide (is_Some (d !! p))) [ca; cert; key; client_cert; client_key] then
    let? a := read_text ca d in
    let? b := read_text cert d in
    let? c := read_text key d in
    let? e := read_text client_cert d in
    let? f := read_text client_key d in
    Ok ([], mkDevCertPem a b c e f (SpiffeId_cn node_id))
  else
    let? certs := generated in
    Ok (map (fun f => WriteFile f.1 f.2) (cert_files dir certs), certs).

(** [verify_client_cert]: the chain, by rustls; then the first common name of the leaf, as
    x509-parser reads it ([None]: it has none, or one that is no text) *)
Section verifier.
Context {Cert : Type} (webpki : Cert -> outcome string unit) (from_der : Cert -> outcome string (option bytes)).

Definition verify_spiffe_cn (end_entity : Cert) : outcome string unit :=
  let? subject := map_err (String.append "bad client cert: ") (from_der end_entity) in
  let? cn := ok_or subject "client cert missing CN"%string in
  let? _ := map_err (fun e => let 'Identity m := e in String.append "identity: " m) (SpiffeId_parse_cn cn) in
  Ok tt.
Definition verify_client_cert (end_entity : Cert) : outcome string unit :=
  let? _ := webpki end_entity in verify_spiffe_cn end_entity.

(** A client is accepted only with a certificate that the cluster's authority signed for
    a node of the cluster. *)
Theorem client_cert_names_node cert :
  verify_client_cert cert = Ok tt <->
  webpki cert = Ok tt /\ exists cn n, from_der cert = Ok (Some cn) /\ SpiffeId_parse_cn cn = Ok (mkSpiffeId n).
Proof.
  unfold verify_client_cert, verify_spiffe_cn. destruct (webpki cert) as [[]| |]; cbn [obind]; [|split; [done|by intros [? _]]..].
  destruct (from_der cert) as [[cn|]| |]; cbn [map_err ok_or obind]; [|split; [done|by intros (_ & ? & ? & ? & _)]..].
  destruct (SpiffeId_parse_cn cn) as [[n]|[m]|] eqn:E; cbn [map_err obind]; [split; [intros _; split; [done|by exists cn, n]|done]| |];
    (split; [done|intros (_ & cn' & n & [= <-] & ?); congruence]).
Qed.
End verifier.

(** [ReloadingAcceptor]: the configuration that the next connection is accepted with.
    [build] is rustls's; the lock is never poisoned, as nothing panics inside it. *)
Section reload.
Context {Config : Type} (build_server_config_mtls : DevCertPem -> outcome string Config).

Definition ReloadingAcceptor_from_dev_mtls (certs : DevCertPem) : outcome string Config := build_server_config_mtls certs.
Definition ReloadingAcceptor_reload (certs : DevCertPem) (inner : Config) : outcome string unit * Config :=
  match build_server_config_mtls certs with
  | Ok config => (Ok tt, config)
  | Err e => (Err e, inner)
  | Panic => (Panic, inner)
  end.

Definition built (certs : DevCertPem) : option Config :=
  match build_server_config_mtls certs with Ok c => Some c | _ => None end.

Lemma last_nonempty (x : Config) l d e : List.last (x :: l) d = List.last (x :: l) e.
Proof. revert x. induction l as [|y l IH]; intros x; [done|]. apply (IH y). Qed.

(** Rotations leave the acceptor with the last configuration that rustls built, the first
    one if it built no other. *)
Theorem acceptor_keeps_last_good rotations inner :
  fold_left (fun inner certs => (ReloadingAcceptor_reload certs inner).2) rotations inner = List.last (omap built rotations) inner.
Proof.
  revert inner. induction rotations as [|certs rs IH]; intros inner; [done|]. cbn [fold_left]. rewrite IH.
  change (omap built (certs :: rs)) with (match built certs with Some c => c :: omap built rs | None => omap built rs end).
  unfold ReloadingAcceptor_reload, built at 2. destruct (build_server_config_mtls certs) as [c| |]; cbn [snd]; [|done..].
  generalize (omap built rs). intros [|x l]; [done|]. apply (last_nonempty x l c inner).
Qed.
End reload.

Definition certs_text (c : DevCertPem) : Prop := Forall (fun f => is_text f.2) (cert_files [] c).

Lemma cert_files_lookup dir c d path text : (path, text) ∈ cert_files dir c ->
  run_ops (map (fun f => WriteFile f.1 f.2) (cert_files dir c)) d !! path = Some text.
Proof.
  intros Hin. cbn [cert_files map] in Hin |- *. unfold run_ops. cbn [fold_left run_op fst snd].
  repeat (apply elem_of_cons in Hin as [[= -> ->]|Hin];
    [repeat (rewrite lookup_insert_ne by (intros E; apply app_inj_1 in E as [_ E]; [|done]; discriminate E)); apply lookup_insert_eq|]).
  by apply elem_of_nil in Hin.
Qed.

(** Five files that are there and hold text are what is loaded. *)
Lemma certs_loaded generated dir node_id d c : certs_text c ->
  (forall path text, (path, text) ∈ cert_files dir c -> d !! path = Some text) ->
  load_or_create_dev_certs generated dir node_id d =
    Ok ([], mkDevCertPem (ca_pem c) (cert_pem c) (key_pem c) (client_cert_pem c) (client_key_pem c) (SpiffeId_cn node_id)).
Proof.
  intros F L. assert (R : Forall (fun f => is_text f.2 -> bool_decide (is_Some (d !! f.1)) = true /\ read_text f.1 d = Ok f.2) (cert_files dir c)).
  { apply Forall_forall. intros [path text] Hin Ht. cbn [fst snd] in *. unfold read_text. rewrite (L path text Hin).
    split; [by apply bool_decide_eq_true_2; eexists|]. cbn [ok_or obind]. by rewrite text_valid. }
  unfold certs_text, cert_files in F. unfold cert_files in R. cbv zeta in F, R. rewrite !Forall_cons in F, R. cbn [fst snd] in F, R.
  destruct F as (F1 & F2 & F3 & F4 & F5 & _), R as (R1 & R2 & R3 & R4 & R5 & _).
  destruct (R1 F1) as [B1 T1], (R2 F2) as [B2 T2], (R3 F3) as [B3 T3], (R4 F4) as [B4 T4], (R5 F5) as [B5 T5].
  unfold load_or_create_dev_certs. cbv zeta. cbn [forallb]. rewrite B1, B2, B3, B4, B5. cbn [andb]. by rewrite T1, T2, T3, T4, T5.
Qed.

(** When anything is written, it is the five files of what was generated. *)
Lemma certs_created generated dir node_id d ops c : load_or_create_dev_certs generated dir node_id d = Ok (ops, c) -> ops <> [] ->
  ops = map (fun f => WriteFile f.1 f.2) (cert_files dir c).
Proof.
  intros E N. unfold load_or_create_dev_certs in E. cbv zeta in E. destruct (forallb _ _) in E.
  { repeat (apply obind_ok_inv in E as (? & _ & E)). congruence. }
  destruct generated as [g| |]; cbn [obind] in E; [|done..]. by inversion E.
Qed.

(** What was created is loaded again, under the name of the node that asks: a node with
    another number gets the certificate of the first one. *)
Theorem dev_certs_reload generated dir node_id node_id' d certs ops :
  certs_text certs -> load_or_create_dev_certs generated dir node_id d = Ok (ops, certs) -> ops <> [] ->
  load_or_create_dev_certs generated dir node_id' (run_ops ops d) =
    Ok ([], mkDevCertPem (ca_pem certs) (cert_pem certs) (key_pem certs) (client_cert_pem certs) (client_key_pem certs) (SpiffeId_cn node_id')).
Proof.
  intros F E N. rewrite (certs_created _ _ _ _ _ _ E N). apply certs_loaded; [done|]. intros path text Hin. by apply cert_files_lookup.
Qed.

(** The files are written in place, and only their existence is checked: after a crash in
    the last write a truncated key is loaded for good. *)
Theorem torn_key_loaded generated dir node_id d certs ops n :
  certs_text certs -> load_or_create_dev_certs generated dir node_id d = Ok (ops, certs) -> ops <> [] ->
  is_text (take n (client_key_pem certs)) ->
  exists d', crashed d ops d' /\ exists c, load_or_create_dev_certs generated dir node_id d' = Ok ([], c) /\
    client_key_pem c = take n (client_key_pem certs).
Proof.
  intros F E N T. rewrite (certs_created _ _ _ _ _ _ E N).
  set (torn := mkDevCertPem (ca_pem certs) (cert_pem certs) (key_pem certs) (client_cert_pem certs) (take n (client_key_pem certs)) (client_spiffe_cn certs)).
  exists (run_ops (map (fun f => WriteFile f.1 f.2) (cert_files dir torn)) d). split.
  - unfold cert_files. cbn [map fst snd]. do 4 apply crash_later. apply crash_in_write.
  - eexists. split; [apply certs_loaded; [|intros path text Hin; by apply cert_files_lookup]|done].
    unfold certs_text, cert_files in F |- *. cbv zeta in F |- *. rewrite !Forall_cons in F |- *. naive_solver.
Qed.
