(* ===== verification/Metrics.v ===== *)
(** * Metrics (crates/noedb-metrics/src/lib.rs)

    Counters of 64 bits that the engine and the scraper share; each update is one atomic
    operation.  The text of a float is the standard library's; the listener's thread and
    socket are not modelled, only what it answers to the bytes of a request. *)

From stdpp Require Import list.
From S2P Require Import Prelude BTree Text Float64 Tokens Display Utf8 Manifest.

(** ** Cells *)

Definition Counter_inc (c : Z) : Z := wrap 64 (c + 1).
Definition Counter_add (n c : Z) : Z := wrap 64 (c + n).

Record Histogram : Type := mkHistogram { sum_ns : Z; count : Z; max_ns : Z }.
Definition Histogram_default : Histogram := mkHistogram 0 0 0.

(** A duration is its nanoseconds; [u64::try_from] fails beyond 64 bits. *)
Definition observe (d : Z) (h : Histogram) : Histogram :=
  let ns := if d <=? u64_max then d else u64_max in
  mkHistogram (wrap 64 (sum_ns h + ns)) (wrap 64 (count h + 1)) (Z.max (max_ns h) ns).

Definition seconds (ns : Z) : f64 := f64_div (f64_of_Z ns) (f64_of_decimal 1 9).
Definition sum_seconds (h : Histogram) : f64 := seconds (sum_ns h).
Definition max_seconds (h : Histogram) : f64 := seconds (max_ns h).

(** ** The registry *)

Record Metrics : Type := mkMetrics {
  queries_total : Z; query_errors_total : Z; query_duration : Histogram;
  cache_hits_total : Z; cache_misses_total : Z; gc_versions_pruned_total : Z;
  raft_no_leader_total : Z; raft_leader_id : Z }.
Definition Metrics_default : Metrics := mkMetrics 0 0 Histogram_default 0 0 0 0 0.

Definition record_query (elapsed : Z) (ok : bool) (m : Metrics) : Metrics :=
  mkMetrics (Counter_inc (queries_total m)) (if ok then query_errors_total m else Counter_inc (query_errors_total m))
    (observe elapsed (query_duration m)) (cache_hits_total m) (cache_misses_total m) (gc_versions_pruned_total m)
    (raft_no_leader_total m) (raft_leader_id m).

Definition record_cache (hit : bool) (m : Metrics) : Metrics :=
  mkMetrics (queries_total m) (query_errors_total m) (query_duration m)
    (if hit then Counter_inc (cache_hits_total m) else cache_hits_total m)
    (if hit then cache_misses_total m else Counter_inc (cache_misses_total m)) (gc_versions_pruned_total m)
    (raft_no_leader_total m) (raft_leader_id m).

Definition record_gc (versions_pruned : Z) (m : Metrics) : Metrics :=
  if versions_pruned >? 0 then
    mkMetrics (queries_total m) (query_errors_total m) (query_duration m) (cache_hits_total m) (cache_misses_total m)
      (Counter_add versions_pruned (gc_versions_pruned_total m)) (raft_no_leader_total m) (raft_leader_id m)
  else m.

Definition set_raft_leader (id : Z) (m : Metrics) : Metrics :=
  mkMetrics (queries_total m) (query_errors_total m) (query_duration m) (cache_hits_total m) (cache_misses_total m)
    (gc_versions_pruned_total m) (raft_no_leader_total m) id.
Definition record_no_leader (m : Metrics) : Metrics :=
  set_raft_leader 0
    (mkMetrics (queries_total m) (query_errors_total m) (query_duration m) (cache_hits_total m) (cache_misses_total m)
       (gc_versions_pruned_total m) (Counter_inc (raft_no_leader_total m)) (raft_leader_id m)).

(** ** The text *)

Section text.
Context `{FloatText}.

Definition text_line (parts : list bytes) : bytes := concat parts ++ [newline].
Definition write_header (kind name help : bytes) : bytes :=
  text_line [bs "# HELP "; name; bs " "; help] ++ text_line [bs "# TYPE "; name; bs " "; kind].
Definition write_counter (name help : bytes) (c : Z) : bytes :=
  write_header (bs "counter") name help ++ text_line [name; bs " "; show_nat c].
Definition write_gauge (name help : bytes) (v : Z) : bytes :=
  write_header (bs "gauge") name help ++ text_line [name; bs " "; show_nat v].
Definition write_histogram (name help : bytes) (h : Histogram) : bytes :=
  write_header (bs "histogram") name help ++
  text_line [name; bs "_sum "; f64_to_string (sum_seconds h)] ++
  text_line [name; bs "_count "; show_nat (count h)] ++
  text_line [name; bs "_max "; f64_to_string (max_seconds h)].

Definition render_prometheus (m : Metrics) : bytes :=
  write_counter (bs "noedb_queries_total") (bs "SQL statements executed") (queries_total m) ++
  write_counter (bs "noedb_query_errors_total") (bs "SQL statements that failed") (query_errors_total m) ++
  write_histogram (bs "noedb_query_duration_seconds") (bs "SQL execution latency") (query_duration m) ++
  write_counter (bs "noedb_cache_hits_total") (bs "Query cache hits") (cache_hits_total m) ++
  write_counter (bs "noedb_cache_misses_total") (bs "Query cache misses") (cache_misses_total m) ++
  write_counter (bs "noedb_gc_versions_pruned_total") (bs "MVCC versions pruned by GC") (gc_versions_pruned_total m) ++
  write_counter (bs "noedb_raft_no_leader_total") (bs "Operations blocked with no Raft leader") (raft_no_leader_total m) ++
  write_gauge (bs "noedb_raft_leader_id") (bs "Current Raft leader node id (0 = unknown)") (raft_leader_id m).

(** The first 512 bytes of a request, and the response *)
Definition crlf : bytes := [x0d; x0a].
Definition serve_http (m : Metrics) (request : bytes) : bytes :=
  let buf := take 512 request in
  let req := if from_utf8 buf then buf else [] in
  let path := default [] (head (lines req)) in
  let '(status, body) :=
    if starts_with (bs "GET /metrics") path || starts_with (bs "GET / ") path then (200, render_prometheus m)
    else (404, bs "# not found" ++ [newline]) in
  bs "HTTP/1.1 " ++ show_nat status ++ bs " OK" ++ crlf ++ bs "Content-Type: text/plain; version=0.0.4; charset=utf-8" ++ crlf ++
  bs "Content-Length: " ++ show_nat (len body) ++ crlf ++ bs "Connection: close" ++ crlf ++ crlf ++ body.
End text.

(** ** Counting *)

Inductive Event : Type := Query (elapsed : Z) (ok : bool) | Cache (hit : bool) | Gc (pruned : Z) | NoLeader_ | LeaderIs (id : Z).
Definition record (m : Metrics) (e : Event) : Metrics :=
  match e with
  | Query d ok => record_query d ok m
  | Cache hit => record_cache hit m
  | Gc n => record_gc n m
  | NoLeader_ => record_no_leader m
  | LeaderIs id => set_raft_leader id m
  end.

Definition total (f : Event -> Z) (es : list Event) : Z := fold_right (fun e z => f e + z) 0 es.
Definition is_query (e : Event) : Z := match e with Query _ _ => 1 | _ => 0 end.
Definition is_error (e : Event) : Z := match e with Query _ false => 1 | _ => 0 end.
Definition is_hit (e : Event) : Z := match e with Cache true => 1 | _ => 0 end.
Definition is_miss (e : Event) : Z := match e with Cache false => 1 | _ => 0 end.
Definition pruned (e : Event) : Z := match e with Gc n => Z.max 0 n | _ => 0 end.

Lemma wrap_add a b : wrap 64 (wrap 64 a + b) = wrap 64 (a + b).
Proof. apply Zplus_mod_idemp_l. Qed.

(** A cell that each event advances by [f], modulo 64 bits *)
Lemma cell_counts (cell : Metrics -> Z) (f : Event -> Z) :
  (forall m e, wrap 64 (cell (record m e)) = wrap 64 (cell m + f e)) ->
  forall es m, wrap 64 (cell (fold_left record es m)) = wrap 64 (cell m + total f es).
Proof.
  intros S es. induction es as [|e es IH]; intros m; cbn [fold_left total fold_right]; [by rewrite Z.add_0_r|].
  rewrite IH. fold (total f es). rewrite <- wrap_add, S, wrap_add. f_equal. lia.
Qed.

(** Every counter is the number of its events modulo 2^64, whatever the order of the
    updates: queries and failed queries, histogram samples, cache hits and misses, and
    the versions pruned. *)
Theorem metrics_count_events (es : list Event) :
  let m := fold_left record es Metrics_default in
  wrap 64 (queries_total m) = wrap 64 (total is_query es) /\ wrap 64 (count (query_duration m)) = wrap 64 (total is_query es) /\
  wrap 64 (query_errors_total m) = wrap 64 (total is_error es) /\
  wrap 64 (cache_hits_total m) = wrap 64 (total is_hit es) /\ wrap 64 (cache_misses_total m) = wrap 64 (total is_miss es) /\
  wrap 64 (gc_versions_pruned_total m) = wrap 64 (total pruned es).
Proof.
  assert (W : forall z, wrap 64 (wrap 64 z) = wrap 64 z) by (intros; apply Z.mod_mod; lia).
  split_and!;
    [ rewrite (cell_counts queries_total is_query) | rewrite (cell_counts (fun m => count (query_duration m)) is_query)
    | rewrite (cell_counts query_errors_total is_error) | rewrite (cell_counts cache_hits_total is_hit)
    | rewrite (cell_counts cache_misses_total is_miss) | rewrite (cell_counts gc_versions_pruned_total pruned) ]; try done;
    intros m [d []|[]|n| |id]; cbn; unfold record_gc, Counter_inc, Counter_add; rewrite ?W, ?Z.add_0_r; try done;
    destruct (Z.gtb_spec n 0); cbn; rewrite ?W; f_equal; lia.
Qed.

(** The status line of every answer says OK. *)
Theorem not_found_says_ok `{FloatText} m : starts_with (bs "HTTP/1.1 404 OK") (serve_http m (bs "GET /nothing HTTP/1.1")) = true.
Proof. reflexivity. Qed.
